(* ===== verification/_CoqProject ===== *)
-Q . S2P
Prelude.v
Float64.v
GoUtf8.v
GoPath.v
WorkflowRun.v
WorkflowStore.v
WorkflowExecutor.v
WorkflowSafety.v
WorkflowProgress.v
Sql.v
WorkflowSqlite.v
WorkflowSqliteSafety.v
RunCheckpoint.v
RunRecords.v
RunSqlite.v
RunSqliteSafety.v
RunSqliteRecords.v
ApprovalCrypto.v
AgentTools.v
AgentCore.v
AgentSafety.v
AgentResume.v
AgentGuard.v
AgentStream.v
SkillKit.v
SkillSafety.v
ApprovalAdapter.v
HostLifecycle.v
ContextWindow.v
LlmRouting.v
LlmAudit.v
LlmHealth.v
LlmBreaker.v
LlmStats.v
LlmClient.v
MemorySearch.v
MemoryTypes.v
MemoryStore.v
MemorySafety.v
MemoryRecall.v
MemoryRecallSafety.v
MemoryWorkers.v
MemoryWorkersSafety.v
MetaClone.v
MemoryTools.v
MemoryToolsSafety.v
MemoryProjector.v
MemoryExtractor.v
OcrChunking.v
OcrRetry.v
OcrDispatch.v
EvalKit.v
ArtifactStore.v
McpKit.v
AgentMemory.v
MemoryEval.v
OpenAI.v
RunPostgres.v
MemoryJobs.v
MemoryPostgres.v
MemoryPgQuery.v
PaddleText.v
PaddleClient.v
LlmConfig.v
