(* ===== verification/Prelude.v ===== *)
(** * A verification of goagents

[goagents] is a family of Go kits for running language-model agents under the
control of a host program. This library models its core in Rocq, definition by
definition, and proves the properties the host relies on. File and function names
below are relative to [src/].

** The program and how its parts interact

- [goagent] is the agent runtime. An [Agent] runs a ReAct loop: a pipeline of
  stages loads memory and prompts, asks the model ([think_stage.go]), checks the
  token budget, asks the policy engine and the approver about the tool calls of
  the answer, executes them ([tools/executor.go]), feeds the results back, and
  ends with a final answer. When an approver leaves a call pending, the run stops
  with a checkpoint ([checkpoint.go]) from which [Agent.Resume] continues once the
  host has resolved every pending call.
- [runkit] keeps what survives a run: run records and event logs ([store.go]),
  and approval checkpoints ([checkpoint.go]) that can be leased once, whose
  content is encrypted ([approvalcrypto]). [goagentapproval/adapter.go] ties the
  checkpoint store, the cipher and the agent together.
- [workflowkit] runs multi-step workflows over a store with a claim queue:
  workers claim runs under leases, the executor runs the steps with retries and
  approvals, and a recovery sweep fails runs whose worker is gone.
- [hostkit] drives a host service from start to exit code.
- [llmkit] chooses the model for a request: a routing policy scores the candidates
  ([policy.go]), a circuit breaker per provider admits or refuses calls
  ([health.go]), route traces and outcomes are written to an audit log
  ([audit.go]) and aggregated into statistics ([stats.go]) that feed the scores; the
  goagent client ([adapters/goagent/client.go]) ties them together with fallback.
- [contextkit] keeps a conversation within the model's window: tool results are
  budgeted, old turns are collapsed into summaries that can be restored.
- [memorykit] keeps long-term memories: a versioned store with revisions, sources and
  embeddings ([memorystore]), recall ([recall.go]), which asks a store for candidates in
  three channels, checks and fuses them, and workers that embed memories and extract
  candidates from sources. Its agent adapter ([memorykit/agentadapter]) gives a run tools that search, read
  and write memory, and projects recalled memory into the conversation.
- [skillkit] finds packages of instructions ([SKILL.md]) in directories the host names, and
  activates those the host trusts and whose requirements it meets.
- Around these: [mcpkit] registers the tools of an MCP server with an agent; [ocrs] reads documents through
  providers with retries, chunks and a dispatcher of workers; [evalkit] runs and grades trials of a suite;
  [artifactkit] keeps artifacts in memory or in files; [goagent/extensions/providers/openaiapi] is a model provider over HTTP.

** The files

- [Prelude]: record update, results, Go's time, strings, maps and sorting; the
  hint database [go] and the tactics shared by all files.
- [Float64]: rounding of rationals to [float64], with its laws; [GoUtf8]: runes of a byte
  string and back, and that UTF-8 is self-synchronising; [GoPath]: slash-separated paths,
  [path.Clean], [filepath.Join] and [filepath.Rel].
- [WorkflowRun]: runs, statuses, errors, [RetryPolicy.Backoff] ([workflowkit/run.go],
  [retry.go], [errors.go]).
- [WorkflowStore]: the class [StoreOps] with the laws [StoreLaws] the executor relies on
  ([Store] of [store.go]), and [MemoryStore] with its queue, as an instance.
- [WorkflowExecutor]: [executor.go], against [StoreOps], in a monad over the store,
  the clock and the trace of step calls; other clients change the store between any two store
  accesses. [WorkflowSafety] and [WorkflowProgress] hold its theorems.
- [Sql]: programs over a SQL database: statements, transactions, driver failures, other clients.
- [WorkflowSqlite] (Module [Sqlite]): [workflowkit/sqlitestore] over [Sql], each SQL statement a
  function on the tables; [WorkflowSqliteSafety] relates it to [MemoryStore].
- [RunCheckpoint] (Module [Checkpoint]) and [RunRecords] (Module [RunStore]): the two
  memory stores of [runkit] as functions of their maps, and histories of operations.
- [RunSqlite] (Module [RunSql]): [runkit/sqlitestore] over [Sql]; [RunSqliteSafety] relates it to
  [Checkpoint] and [RunSqliteRecords] to [RunStore].
- [RunPostgres] (Module [Postgres]): [runkit/pgstore] as a machine of concurrent clients, one step per statement or
  commit, with row locks, and its refinement of [Checkpoint].
- [ApprovalCrypto] (Module [Crypto]): [aesgcm.go] and [keychain.go].
- [AgentTools]: tools, registries, schemas, middleware, the parallel executor, the
  default policy engine and prompt compiler.
- [AgentCore]: [RunState], every stage, the pipeline, the loop, checkpoints,
  resolutions, [Agent_Run] ([runWithEventSink]) and [Agent_Resume] ([resume]). A stage is a computation over the
  run state and a world that records, as a trace of effects, every model call, policy and approval
  decision, tool execution, guard call and memory access.
  [AgentSafety], [AgentResume] and [AgentGuard] hold its theorems.
- [AgentStream] (Module [Stream]): [stream.go], the run's goroutine, the relay and the consumer as a
  machine with one step per channel operation.
- [SkillKit] (Module [SkillKit]): [skillkit] over a snapshot of the file system, with its
  agent adapter; [SkillSafety] holds its theorems.
- [ApprovalAdapter] (Module [Adapter]): [goagentapproval/adapter.go] over
  [Checkpoint], with other clients interleaving.
- [HostLifecycle] (Module [Host]): [lifecycle.go] as a machine with one transition per
  case of each [select], and [result.go].
- [ContextWindow] (Module [Context]): [contextkit/window/window.go], [compressor.go],
  [message.go], [profile.go], [toolbudget] and [toolprojection].
- [LlmRouting] (Module [Routing]), [LlmAudit] (Module [Audit]), [LlmHealth] (Module
  [Health]), [LlmStats] (Module [Stats]), [LlmClient] (Module [Client]): the files of
  [llmkit] of these names; [LlmConfig] (Module [Config]): [config.go], [home.go] and the providers built from a configuration;
  [LlmBreaker] states the circuit breaker [Health] refines.
- [MemorySearch] (Module [Search]): [search_terms.go]; [MemoryTypes] (Module [Memories]):
  [types.go], [errors.go], [validation.go], [store.go]; [MemoryStore] (Module [MemStore]):
  [memorystore/store.go]; [MemoryRecall] (Module [Recall]): [recall.go];
  [MemoryWorkers] (Module [Workers]): [embedding.go] and [extraction.go].
  [MemorySafety], [MemoryRecallSafety] and [MemoryWorkersSafety] hold the theorems about
  histories of store calls, about recall, alone and over the memory store, and about the workers.
- [MetaClone] (Module [Meta]): deep copies of dynamic metadata, from a heap with shared and cyclic
  values to trees; [MemoryTools] (Module [MemTools]): [agentadapter/tools.go] over any store,
  in a world where other clients act between calls, with its theorems in [MemoryToolsSafety];
  [MemoryProjector] (Module [Projector]): [projector.go] and [prompt.go]; [MemoryExtractor]
  (Module [Extractor]): [extractor.go]; [MemoryEval] (Module [MemEval]): [memorykit/eval.go]; [MemoryJobs] (Modules
  [LeaseQueue], [Jobs]): the extraction queue of [memorykit/pgstore], as concurrent statements that refine a queue of leases;
  [MemoryPostgres] (Module [PgMemory]): what its memory store writes, as transactions of statements that run concurrently;
  [MemoryPgQuery] (Module [PgQuery]): what it reads, compared with the memory store.
- [OcrChunking] (Module [Chunking]): [ocrs/chunking], the goroutines of [processChunks] as a machine; [OcrRetry]
  (Module [Retry]): [ocrs/handler.go] and [retrypolicy]; [OcrDispatch] (Module [Dispatch]): [ocrs/scheduler] as a machine of
  callers and workers; [PaddleClient] (Module [PaddleClient]) and [PaddleText] (Module [Paddle]): [ocrs/paddleocr].
- [EvalKit] (Module [Eval]): [evalkit.go]; [McpKit] (Module [Mcp]): [mcpkit.go]; [ArtifactStore] (Modules [Base64],
  [Artifacts]): [artifactkit], the file store with one step per system call.
- [AgentMemory] (Modules [Window], [AgentStep]): [goagent/memory/window.go] and [workflowkit/agentstep]; [OpenAI] (Module
  [OpenAI]): the OpenAI provider, its requests, redirects, responses, event streams and errors.

** What the theorems show

- Agent runs (C1-C6): executed tools were authorised since the model's last
  answer; every tool call is answered in what the model sees; results are within
  the limits of the budget; model calls are bounded; resuming needs one resolution for every
  pending call, with its index, ID and tool, that allows it.
- Streams (C28, C33): events are delivered in order, none lost before the consumer discards
  them, and a run ends whatever its consumer does.
- Approvals (C7, C8, C10, C29, C38): a checkpoint is handed to the agent at most once under any
  interleaving; leases are closed, and none is taken by a request that is refused; what is saved is what is resumed;
  the SQLite store returns what the in-memory store returns, also under driver failures and with other
  processes, call by call; so does the PostgreSQL store with times cut to microseconds, as one
  order of the calls that took effect, at any interleaving of statements and with lost commits.
- Run records (C39): the SQLite store keeps runs and numbered event logs as the in-memory store does.
- Model calls (C11, C12, C32): the health store refines a circuit breaker; every slot
  the client acquires is given back, by an outcome of the same account, model and provider or a release; what the audit recorder
  cleans holds no credential, and the texts it does not clean are those of its callers ([unclean_profile_written] shows one).
- Memory tools (C9, C13, C14): a model's write spares memory that people wrote or touched
  unless somebody comes between its look and its creation; a read is
  atomic; recalled memory enters a run as one message of the user's role that says it is untrusted, and nobody else can
  pretend it did.
- Workflows (C15-C18): runs follow their lifecycle under interference, the executor
  returns and completes; the SQLite store returns what the in-memory store returns.
- Memories (C19-C22, C24, C35-C37): the store's invariant; no update is lost; erasing is final;
  creation is idempotent; recall returns the best memories in force,
  ranked by the sums of their reciprocal ranks, within its limits, whatever a store answers; an extraction job is leased to one worker at a time, is claimed again only under a
  higher attempt, and is accepted by the worker that gets it; over PostgreSQL, whatever overlaps and fails, memories keep a gapless lawful
  history, an answered change is in it, nothing of erased content is left, and reads answer what the memory store answers, sources in an order of their own.
- Skills (C23, C31): only requested, trusted and permitted packages with the digest of the
  catalog, whose SKILL.md requires nothing the host lacks, are activated; resource reads stay inside the skill.
- Windows (C30): the compressor keeps the longest run of whole turns that fits.
- Artifacts (C25, C27): the file store is the memory store, unless two writers of one reference overlap, which C27
  shows to lose artifacts.
- Documents (C26, C34): the dispatcher gives each call to one provider and returns that provider's answer; a token is not
  used beyond its daily quota.
- Provider streams (C40): a streamed answer is the one its deltas spell, tool calls put together from their fragments.

Further theorems, not numbered, cover that annotations of an MCP server never authorise its tools, that the results of chunks are merged in order,
all of them or the first error, a retried creation that is accepted while its memory is erased, what a failing vector query costs, the filling of the gram column, the invariant of the checkpoint store and its SQLite refinement, the sections of a parsed document and the
merge of its chunks, the retries of the PaddleOCR client, loaded configurations and their providers, the input guard and the request that passes it by, the order of a host's calls to its
service, that failed SQLite operations change nothing, the lease protocol of the extraction worker, that recall accepts what the
memory store answers, a write that comes between a model's look and its own, the end of a dispatcher
when it is closed, retries and their waits, what is returned when a caller cancels a chunked document, evaluation suites and recall evaluations,
window memory, agent steps, the round trip of event streams, redirects and whether errors say that a request was sent;
checkpoint round trips, the cipher, the tool
executor, run logs, retry budgets and backoff, the fairness of the queue and the exclusion of
other workers by a lease, that a run is approved once, concurrency
limits and probes of the breaker, the selection of models and its agreement with the breaker, fallback between
providers, that a run that pauses again is chained to its next checkpoint, that the embedding worker drains the
store, that a failed memory write makes the run's answer invalid, drafts extracted from a model's answer,
copies of cyclic metadata, statistics, the separation of
scopes, index grams and bounds on search terms, the restoration of collapsed messages, the migration of
step records, resource references, that unnamed sources make recall fail, that a digest does not identify a
skill whose files hold zero bytes, that compressing a compressed conversation projects tool results
again, and that a host run cannot hang once it has to stop.

** Modelling choices, bounds and fuel

- Time is an integer number of nanoseconds, 0 the zero time. [Backoff] and the token usage of a run
  wrap at 64 bits, and the theorem on delays bounds them by 2^57 ns; the tokens of statistics, counters and iteration numbers are
  unbounded integers, as no run comes near 2^63; the same holds for versions and limits of
  memories. Strings are byte strings; [TrimSpace] knows the UTF-8 encoded white space.
- A finite [float64] is a rational and each operation rounds its exact result
  ([Float64]); where the code tests for infinities and NaN, [number] of [MemoryTypes] has them. The
  Unicode tables are parameters (classes with the laws used).
- Go maps are finite maps; a nil map is an empty one. Maps that tools share with the run
  are threaded through. [sort.Slice] is insertion sort, with a total order where
  the code's order is total.
- Whatever the code asks the outside (models, tools, guards, ciphers, clocks,
  contexts) is a function of a tick that every such call advances, so it may answer
  differently each time. A store method that holds the store's mutex is one step.
- [execute_loop] has the number of calls as fuel, since each batch takes at least
  one; the retry loop has the attempts that are left, and [executor_returns] proves
  that neither runs out. The agent loop is structural in the iterations that are left;
  the client's routing loop has the number of candidates as fuel, of which every iteration removes
  one; restoring collapses nests at most as deep as there are collapses; copying metadata follows each pointer of
  the heap at most once on a path ([clone_exact]), and scanning JSON takes a token at every call.
- Goroutines are machines whose steps are the operations on channels, locks and system calls that others can see; every interleaving of
  them is covered. A PostgreSQL statement sees what is committed and waits for the locks on the rows it would change; a [timestamptz]
  keeps microseconds, cut and not rounded, as the driver sends them. A locking [SELECT] reads first and then waits for its row, which it checks again;
  PostgreSQL's text order, text matching and vector distance are parameters. A write to a file may stop anywhere, and a file that is renamed
  stays the one its writer has open. An audit file is the list of its writes, whole, cut or without their newline; lines are below the limit
  of the line scanner.
- AES-GCM, SHA-256, the keychain, the JSON Schema library, YAML, URL and UUID parsing and
  [encoding/json] of structures and the text SQLite stores for a time are parameters; theorems that need a law of theirs
  state it, and their witnesses instantiate it.

** Not modelled

The option setters of [agent.go], the digests of provider requests, the opening of databases and files, platform bindings, the
suites that test stores, and the example hosts. Of the SQL stores, the statements
that create and alter tables and, in [workflowkit], the reading of times that older schemas stored as text are left
out. *)

From Stdlib Require Export Ascii.
From stdpp Require Export base gmap strings pretty list sorting relations.

(** * Notations of the development *)

Declare Scope go_scope.
Delimit Scope go_scope with go.
#[global] Open Scope go_scope.

(** ** Record update [r <| field := v |>]

[Eta R] holds the eta-expansion of a record; [Upd get] is the update function
of one of its fields, found by abstracting that field out of the expansion. *)
Class Eta (R : Type) := eta : R → R.
Class Upd {R T : Type} (get : R → T) := upd : (T → T) → R → R.
#[global] Arguments upd {R T} get {_} f r /.

Ltac abstract_field :=
  lazymatch goal with
  | |- @Upd ?R ?T ?get =>
      let f := fresh "f" in
      let r := fresh "r" in
      refine (λ (f : T → T) (r : R), _);
      let e := constr:(eta r) in
      let e := eval hnf in e in
      lazymatch eval pattern (get r) in e with
      | ?g _ => let e' := constr:(g (f (get r))) in
                let e' := eval cbv beta in e' in
                exact e'
      end
  end.
#[global] Hint Extern 1 (Upd _) => abstract_field : typeclass_instances.

Notation "r <| get := v |>" := (upd get (λ _, v) r)
  (at level 1, get at next level, left associativity,
   format "r  <| get  :=  v |>") : go_scope.

(** * Results: a value or a Go [error] *)

Inductive res (E A : Type) : Type :=
| Ok (a : A)
| Err (e : E).
Arguments Ok {E A} a.
Arguments Err {E A} e.

Definition is_ok {E A} (r : res E A) : bool :=
  match r with Ok _ => true | Err _ => false end.

Definition res_bind {E A B} (r : res E A) (k : A → res E B) : res E B :=
  match r with Ok a => k a | Err e => Err e end.

Notation "'let?' x ':=' c 'in' k" := (res_bind c (λ x, k))
  (at level 10, x pattern, k at level 200) : go_scope.

(** * Go integers

[int], [int64] and [time.Duration] are 64-bit; [wrap64] is their wrap-around.
Counters that only ever increase by one keep their mathematical value. *)

Definition min_int64 : Z := -2^63.
Definition max_int64 : Z := 2^63 - 1.
Definition wrap64 (z : Z) : Z := (z + 2^63) `mod` 2^64 - 2^63.
Definition clamp64 (z : Z) : Z := Z.max min_int64 (Z.min max_int64 z).

Lemma wrap64_id z : (min_int64 ≤ z ≤ max_int64)%Z → wrap64 z = z.
Proof.
  unfold min_int64, max_int64, wrap64. intros H.
  rewrite Z.mod_small; lia.
Qed.

Lemma clamp64_id z : (min_int64 ≤ z ≤ max_int64)%Z → clamp64 z = z.
Proof. unfold clamp64. lia. Qed.

(** * Go times

A [time.Time] is the number of nanoseconds since Go's zero time (January 1,
year 1, UTC), so the zero value is 0, [IsZero] is equality with 0, and
[Before], [After] and [Equal] compare instants. [UTC] does not change the
instant. *)

Abbreviation Time := Z (only parsing).
Abbreviation Duration := Z (only parsing).

Definition IsZero (t : Time) : Prop := t = 0%Z.
Definition After (t u : Time) : Prop := (u < t)%Z.
Definition Before (t u : Time) : Prop := (t < u)%Z.
Definition TimeAdd (t : Time) (d : Duration) : Time := (t + d)%Z.
(** [t.Sub(u)] saturates at the bounds of [Duration]. *)
Definition TimeSub (t u : Time) : Duration := clamp64 (t - u).

#[global] Instance IsZero_dec t : Decision (IsZero t).
Proof. unfold IsZero. apply _. Defined.
#[global] Instance After_dec t u : Decision (After t u).
Proof. unfold After. apply _. Defined.
#[global] Instance Before_dec t u : Decision (Before t u).
Proof. unfold Before. apply _. Defined.
#[global] Typeclasses Opaque IsZero After Before.

(** [context.Context]: the error [ctx.Err()] returns, if the context is done. *)
Inductive CtxErr := Canceled | DeadlineExceeded.
#[global] Instance CtxErr_eq_dec : EqDecision CtxErr.
Proof. solve_decision. Defined.
Abbreviation Ctx := (option CtxErr).

(** * Go strings: byte strings ordered bytewise *)

(** [s < t] of Go strings. *)
Definition str_lt (s t : string) : Prop := String.ltb s t = true.
#[global] Instance str_lt_dec s t : Decision (str_lt s t).
Proof. unfold str_lt. apply _. Defined.

Lemma str_lt_not_le s t : str_lt s t ↔ ¬ String.le t s.
Proof.
  unfold str_lt, String.ltb, String.le, String.leb.
  rewrite (String.compare_antisym t s).
  destruct (String.compare s t); simpl; naive_solver.
Qed.

Lemma str_lt_irrefl s : ¬ str_lt s s.
Proof. rewrite str_lt_not_le. intros H. by apply H. Qed.

Lemma str_lt_trans s t u : str_lt s t → str_lt t u → str_lt s u.
Proof.
  rewrite !str_lt_not_le. intros Hst Htu Hus.
  destruct (total String.le t u); [|done].
  apply Hst. by transitivity u.
Qed.

Lemma str_lt_total s t : s ≠ t → str_lt s t ∨ str_lt t s.
Proof.
  intros Hne. rewrite !str_lt_not_le.
  destruct (decide (String.le t s)) as [Hts|]; [|by left].
  right. intros Hst. by apply Hne, (anti_symm String.le).
Qed.

(** [strings.Join]. *)
Definition strings_Join (parts : list string) (sep : string) : string :=
  String.concat sep parts.

(** [strings.TrimSpace] removes leading and trailing Unicode white space; the
white-space code points outside ASCII are matched by their UTF-8 encoding. *)
Definition byte_list := list ascii.

Definition ascii_space (c : ascii) : bool :=
  let n := N_of_ascii c in
  ((9 <=? n) && (n <=? 13) || (n =? 32))%N.

Definition bytes_eqb (l : byte_list) (l' : list N) : bool :=
  bool_decide (N_of_ascii <$> l = l').

(** UTF-8 encodings of U+0085, U+00A0. *)
Definition space2 (a b : ascii) : bool :=
  bytes_eqb [a; b] [194; 133]%N || bytes_eqb [a; b] [194; 160]%N.

(** UTF-8 encodings of U+1680, U+2000 to U+200A, U+2028, U+2029, U+202F,
U+205F and U+3000. *)
Definition space3 (a b c : ascii) : bool :=
  let n := N_of_ascii c in
  bytes_eqb [a; b; c] [225; 154; 128]%N ||
  bytes_eqb [a; b] [226; 128]%N &&
    ((128 <=? n) && (n <=? 138) || (n =? 168) || (n =? 169) || (n =? 175))%N ||
  bytes_eqb [a; b; c] [226; 129; 159]%N ||
  bytes_eqb [a; b; c] [227; 128; 128]%N.

Fixpoint trim_left (l : byte_list) : byte_list :=
  match l with
  | a :: l1 =>
      if ascii_space a then trim_left l1
      else match l1 with
      | b :: l2 =>
          if space2 a b then trim_left l2
          else match l2 with
          | c :: l3 => if space3 a b c then trim_left l3 else l
          | [] => l
          end
      | [] => l
      end
  | [] => []
  end.

(** [trim_left] on the reversed bytes: the same tests, read backwards. *)
Fixpoint trim_left_rev (l : byte_list) : byte_list :=
  match l with
  | a :: l1 =>
      if ascii_space a then trim_left_rev l1
      else match l1 with
      | b :: l2 =>
          if space2 b a then trim_left_rev l2
          else match l2 with
          | c :: l3 => if space3 c b a then trim_left_rev l3 else l
          | [] => l
          end
      | [] => l
      end
  | [] => []
  end.

Definition TrimSpace (s : string) : string :=
  let l := trim_left (String.list_ascii_of_string s) in
  String.string_of_list_ascii (reverse (trim_left_rev (reverse l))).

(** [strings.TrimSpace(s) == ""]. *)
Definition Blank (s : string) : Prop := TrimSpace s = "".
#[global] Instance Blank_dec s : Decision (Blank s).
Proof. unfold Blank. apply _. Defined.

Lemma Blank_empty : Blank "".
Proof. reflexivity. Qed.

(** * Dynamic values ([any])

[AFloat64] carries a finite float64 as a rational; values of other dynamic
types are observed only through their [%v] rendering. *)
Inductive Any :=
| ANil
| AString (s : string)
| AInt (z : Z)
| ABool (b : bool)
| AFloat64 (num : Z) (den : positive)
| AOther (typ repr : string).
#[global] Instance Any_eq_dec : EqDecision Any.
Proof. solve_decision. Defined.

(** A Go map with string keys. The nil map and the empty map are identified:
they agree on [len], [range] and lookup, and the code never assigns to a map
it has not checked against nil. *)
Abbreviation GoMap := (gmap string).
Abbreviation Metadata := (gmap string Any).

(** The clone helpers of the kits: nil for an empty map, otherwise a new map
filled key by key. *)
Definition map_clone {V} (m : GoMap V) : GoMap V :=
  if decide (size m = 0) then ∅
  else foldr (λ kv copied, <[kv.1 := kv.2]> copied) ∅ (map_to_list m).

Lemma map_clone_id {V} (m : GoMap V) : map_clone m = m.
Proof.
  unfold map_clone. case_decide as H; [by apply map_size_empty_inv in H|].
  transitivity (list_to_map (map_to_list m) : GoMap V); [|apply list_to_map_to_list].
  induction (map_to_list m) as [|[k v] l IH]; [done|]. simpl. by rewrite IH.
Qed.

(** Copying every entry of [src] into [dst] ([for k, v := range src]). *)
Definition map_assign {V} (dst src : GoMap V) : GoMap V :=
  foldr (λ kv m, <[kv.1 := kv.2]> m) dst (map_to_list src).

Lemma map_assign_union {V} (dst src : GoMap V) : map_assign dst src = src ∪ dst.
Proof.
  unfold map_assign. induction src as [|k v src Hk Hfst IH] using map_first_key_ind.
  - by rewrite map_to_list_empty, (left_id_L ∅ (∪)).
  - rewrite map_to_list_insert_first_key by done. simpl. rewrite IH.
    by rewrite insert_union_l.
Qed.

(** * Sorting

[sort.Slice] and [sort.SliceStable] with a [less] function. Insertion sort is
stable, so it is the result of [SliceStable]; where [less] is a strict total
order it is the only sorted permutation, so also that of [sort.Slice]. *)
Section sort.
Context {A : Type} (less : A → A → Prop) `{Hdec : ∀ x y, Decision (less x y)}.

Fixpoint insert_sorted (x : A) (l : list A) : list A :=
  match l with
  | [] => [x]
  | y :: l' => if decide (less y x) then y :: insert_sorted x l' else x :: l
  end.

Definition sort_slice (l : list A) : list A := foldr insert_sorted [] l.

(** [y] may follow [x]. *)
Definition not_after (x y : A) : Prop := ¬ less y x.

Lemma insert_sorted_perm x l : insert_sorted x l ≡ₚ x :: l.
Proof.
  induction l as [|y l IH]; simpl; [done|]. case_decide; [|done].
  rewrite IH. apply Permutation_swap.
Qed.

Lemma sort_slice_perm l : sort_slice l ≡ₚ l.
Proof.
  induction l as [|x l IH]; simpl; [done|]. by rewrite insert_sorted_perm, IH.
Qed.

Lemma elem_of_sort_slice x l : x ∈ sort_slice l ↔ x ∈ l.
Proof. by rewrite sort_slice_perm. Qed.

Lemma length_sort_slice l : length (sort_slice l) = length l.
Proof. by rewrite sort_slice_perm. Qed.

Context (Hasym : ∀ x y, less x y → ¬ less y x).
Context (Htrans : ∀ x y z, not_after x y → not_after y z → not_after x z).

Lemma insert_sorted_sorted x l :
  StronglySorted not_after l → StronglySorted not_after (insert_sorted x l).
Proof.
  induction 1 as [|y l Hl IH Hy]; simpl; [by repeat constructor|].
  case_decide as Hyx.
  - constructor; [done|]. rewrite Forall_forall in Hy |- *.
    intros z. rewrite insert_sorted_perm, elem_of_cons. intros [->|Hz]; [|auto].
    by apply Hasym.
  - constructor; [by constructor|]. constructor; [done|].
    eapply Forall_impl; [exact Hy|]. intros z. by apply Htrans.
Qed.

Lemma sort_slice_sorted l : StronglySorted not_after (sort_slice l).
Proof.
  induction l as [|x l IH]; simpl; [constructor|]. by apply insert_sorted_sorted.
Qed.

End sort.

(** A strict order in which distinct elements are comparable. *)
Class StrictTotal {A} (less : A → A → Prop) : Prop := {
  st_irrefl x : ¬ less x x;
  st_trans x y z : less x y → less y z → less x z;
  st_total x y : x ≠ y → less x y ∨ less y x
}.

Lemma strict_total_asym {A} (less : A → A → Prop) `{!StrictTotal less} x y :
  less x y → ¬ less y x.
Proof. intros H1 H2. eapply st_irrefl, st_trans; eauto. Qed.

#[global] Instance str_lt_strict_total : StrictTotal str_lt.
Proof. split; [apply str_lt_irrefl|apply str_lt_trans|apply str_lt_total]. Qed.

Lemma flip_strict_total {A} (less : A → A → Prop) :
  StrictTotal less → StrictTotal (flip less).
Proof.
  intros ?. split; unfold flip.
  - apply st_irrefl.
  - intros x y z ??. by eapply st_trans.
  - intros x y ?. by apply st_total.
Qed.

(** A lexicographic order. *)
Section lex.
Context {A B : Type} `{EqDecision A} (R1 : A → A → Prop) (R2 : B → B → Prop).

Definition lex_lt (p q : A * B) : Prop := if decide (p.1 ≠ q.1) then R1 p.1 q.1 else R2 p.2 q.2.
#[global] Instance lex_lt_dec `{∀ a b, Decision (R1 a b), ∀ a b, Decision (R2 a b)} p q : Decision (lex_lt p q).
Proof. unfold lex_lt. case_decide; apply _. Defined.

#[global] Instance lex_lt_strict_total : StrictTotal R1 → StrictTotal R2 → StrictTotal lex_lt.
Proof.
  intros T1 T2. split; unfold lex_lt.
  - intros [a b]; simpl. rewrite decide_False by auto. apply st_irrefl.
  - intros [a b] [c d] [e f]; simpl. destruct (decide (a ≠ c)) as [H1|H1], (decide (c ≠ e)) as [H2|H2].
    + intros H3 H4. pose proof (st_trans a c e H3 H4). rewrite decide_True; [done|]. intros ->. by apply (st_irrefl e).
    + apply dec_stable in H2. subst. by rewrite decide_True.
    + apply dec_stable in H1. subst. by rewrite decide_True.
    + apply dec_stable in H1, H2. subst. rewrite decide_False by auto. apply st_trans.
  - intros [a b] [c d] Hne; simpl. destruct (decide (a = c)) as [->|Hn].
    + rewrite !decide_False by auto. apply st_total. congruence.
    + rewrite !decide_True by auto. by apply st_total.
Qed.
End lex.

(** A time, then a string: the order of queues and listings. *)
Definition time_id_lt (p q : Time * string) : Prop :=
  if decide (p.1 ≠ q.1) then Before p.1 q.1 else str_lt p.2 q.2.
#[global] Instance time_id_lt_dec p q : Decision (time_id_lt p q).
Proof. unfold time_id_lt. case_decide; apply _. Defined.

#[global] Instance time_id_lt_strict_total : StrictTotal time_id_lt.
Proof.
  split; unfold time_id_lt, Before.
  - intros [t i]; simpl. case_decide; [lia|]. apply str_lt_irrefl.
  - intros [t i] [u j] [v k]; simpl. repeat case_decide; try lia.
    apply str_lt_trans.
  - intros [t i] [u j] Hne; simpl in *.
    destruct (decide (t = u)) as [->|].
    + rewrite !decide_False by naive_solver. apply str_lt_total. naive_solver.
    + rewrite !decide_True by naive_solver. lia.
Qed.

Lemma StronglySorted_filter {A} (R : A → A → Prop) (P : A → Prop)
    `{∀ x, Decision (P x)} l :
  StronglySorted R l → StronglySorted R (filter P l).
Proof.
  induction 1 as [|x l Hl IH Hx]; [constructor|]. rewrite filter_cons.
  case_decide; [|done]. constructor; [done|].
  rewrite Forall_forall in Hx |- *. intros y [_ Hy]%list_elem_of_filter. auto.
Qed.

Lemma filter_nil_Forall {A} (P : A → Prop) `{∀ x, Decision (P x)} l :
  filter P l = [] ↔ Forall (λ x, ¬ P x) l.
Proof.
  induction l as [|x l IH]; [done|]. rewrite filter_cons, Forall_cons, <-IH.
  case_decide; [|tauto]. split; [done|]. by intros [].
Qed.

(** Sorting by a key of type [K] under a strict total order [R] on keys. *)
Section sort_key.
Context {A K : Type} `{EqDecision K} (R : K → K → Prop) `{!StrictTotal R}.
Context `{∀ a b, Decision (R a b)} (key : A → K).

Definition key_less (x y : A) : Prop := R (key x) (key y).
#[global] Instance key_less_dec x y : Decision (key_less x y).
Proof. unfold key_less. apply _. Defined.

Lemma not_after_key x y : not_after key_less x y ↔ key x = key y ∨ key_less x y.
Proof.
  unfold not_after, key_less. split.
  - intros Hn. destruct (decide (key x = key y)); [by left|].
    edestruct st_total; [done|by right|done].
  - intros [->|H2]; [apply st_irrefl|by apply strict_total_asym].
Qed.

Lemma sort_key_sorted l :
  StronglySorted (not_after key_less) (sort_slice key_less l).
Proof.
  apply sort_slice_sorted.
  - intros x y. apply (strict_total_asym R).
  - intros x y z. rewrite !not_after_key. unfold key_less.
    intros [->|Hxy] [Hyz|Hyz]; rewrite <-?Hyz; auto.
    right. by eapply st_trans.
Qed.

Lemma sort_key_unique l l' :
  NoDup (key <$> l) → l ≡ₚ l' → sort_slice key_less l = sort_slice key_less l'.
Proof.
  intros Hnd Hp.
  apply (StronglySorted_unique_strong (not_after key_less)); [|apply sort_key_sorted..|].
  - intros x y Hx Hy Hxy Hyx. apply elem_of_sort_slice in Hx, Hy.
    rewrite <-Hp in Hy. rewrite not_after_key in Hxy, Hyx. unfold key_less in *.
    destruct Hxy as [Hk|Hxy]; [|destruct Hyx as [Hk|Hyx]].
    + apply list_elem_of_lookup in Hx as [i Hi], Hy as [j Hj].
      assert (i = j) as ->; [|congruence].
      eapply NoDup_lookup; [exact Hnd|by rewrite list_lookup_fmap, Hi|].
      rewrite list_lookup_fmap, Hj. simpl. congruence.
    + rewrite Hk in Hxy. by apply st_irrefl in Hxy.
    + by apply (strict_total_asym R) in Hxy.
  - by rewrite !sort_slice_perm.
Qed.
End sort_key.
#[global] Typeclasses Opaque key_less.

(** Sorting a sorted list, and sorting a part of a list with distinct keys. *)
Lemma sort_slice_id {A} (less : A → A → Prop) `{∀ a b, Decision (less a b)} l :
  StronglySorted (not_after less) l → sort_slice less l = l.
Proof.
  induction 1 as [|a l Hl IH Ha]; [done|]. cbn [sort_slice foldr]. fold (sort_slice less l). rewrite IH.
  destruct l as [|b l]; [done|]. simpl. apply Forall_cons in Ha as [Hb _]. by rewrite decide_False.
Qed.

Lemma sort_key_filter {A K} `{EqDecision K} (R : K → K → Prop) `{!StrictTotal R} `{∀ a b, Decision (R a b)}
    (key : A → K) (P : A → Prop) `{∀ a, Decision (P a)} l :
  NoDup (key <$> l) → sort_slice (key_less R key) (filter P l) = filter P (sort_slice (key_less R key) l).
Proof.
  intros Hnd. assert (sort_slice (key_less R key) l ≡ₚ l) as Hp by apply sort_slice_perm.
  transitivity (sort_slice (key_less R key) (filter P (sort_slice (key_less R key) l))).
  - apply sort_key_unique; [done| |by rewrite Hp]. eapply sublist_NoDup; [exact Hnd|].
    apply fmap_sublist, sublist_filter.
  - by apply sort_slice_id, StronglySorted_filter, sort_key_sorted.
Qed.

Lemma filter_ext_in {A} (P Q : A → Prop) `{∀ a, Decision (P a), ∀ a, Decision (Q a)} (l : list A) :
  (∀ a, a ∈ l → (P a ↔ Q a)) → filter P l = filter Q l.
Proof.
  induction l as [|a l IH]; intros Hl; [done|]. rewrite !filter_cons.
  assert (P a ↔ Q a) as Ha by (apply Hl; by left). rewrite IH by (intros b Hb; apply Hl; by right).
  destruct (decide (P a)), (decide (Q a)); tauto || done.
Qed.

(** Sorting the images of a list under a function that respects the order. *)
Lemma sort_slice_fmap {A B} (less : B → B → Prop) (less' : A → A → Prop) `{∀ a b, Decision (less a b)}
    `{∀ a b, Decision (less' a b)} (f : A → B) (l : list A) :
  (∀ a b, a ∈ l → b ∈ l → (less' a b ↔ less (f a) (f b))) →
  sort_slice less (f <$> l) = f <$> sort_slice less' l.
Proof.
  induction l as [|a l IH]; intros Hl; [done|]. cbn. fold (sort_slice less (f <$> l)). fold (sort_slice less' l).
  rewrite IH by (intros; apply Hl; by right). clear IH.
  assert (∀ b, b ∈ sort_slice less' l → (less' b a ↔ less (f b) (f a))) as Ha.
  { intros b Hb%elem_of_sort_slice. apply Hl; [by right|by left]. }
  clear Hl. induction (sort_slice less' l) as [|b l' IH]; [done|]. cbn.
  assert (less' b a ↔ less (f b) (f a)) as Hba by (apply Ha; by left).
  rewrite (decide_ext _ _ _ _ Hba). case_decide; [|done]. cbn. rewrite IH; [done|].
  intros b' Hb'. apply Ha. by right.
Qed.

Lemma filter_fmap_comm {A B} (P : B → Prop) `{∀ b, Decision (P b)} (f : A → B) (l : list A) :
  filter P (f <$> l) = f <$> filter (λ a, P (f a)) l.
Proof.
  induction l as [|a l IH]; [done|]. rewrite fmap_cons, !filter_cons. case_decide; [|done].
  by rewrite fmap_cons, IH.
Qed.

Lemma StronglySorted_reverse {A} (R : A → A → Prop) (l : list A) :
  StronglySorted R l → StronglySorted (flip R) (reverse l).
Proof.
  induction 1 as [|x l Hl IH Hx]; [constructor|]. rewrite reverse_cons. apply StronglySorted_app_2; [|done|by repeat constructor].
  intros y z Hy ->%list_elem_of_singleton. rewrite elem_of_reverse in Hy. exact (proj1 (Forall_forall _ _) Hx y Hy).
Qed.

Lemma sort_key_reverse {A K} `{EqDecision K} (R : K → K → Prop) `{!StrictTotal R} `{∀ a b, Decision (R a b)}
    `{∀ a b, Decision (flip R a b)} (key : A → K) (l : list A) :
  NoDup (key <$> l) → sort_slice (key_less (flip R) key) l = reverse (sort_slice (key_less R key) l).
Proof.
  intros Hnd. pose proof (flip_strict_total R _) as Hf.
  transitivity (sort_slice (key_less (flip R) key) (reverse (sort_slice (key_less R key) l))).
  - apply sort_key_unique; [done..|]. by rewrite reverse_Permutation, sort_slice_perm.
  - apply sort_slice_id. apply (StronglySorted_reverse _ _ (sort_key_sorted R key l)).
Qed.

(** * Tactics and hint databases *)

Create HintDb go discriminated.
#[export] Hint Resolve str_lt_irrefl Blank_empty : go.
Create Rewrite HintDb go.
#[export] Hint Rewrite @map_clone_id @map_assign_union : go.

(** Time arithmetic. *)
Ltac time_solve := unfold IsZero, After, Before, TimeAdd in *; lia.

(** Case analysis on the conditions of a definition, until its branches are
values. *)
Ltac cases :=
  repeat (case_match || case_decide); simplify_eq/=; try done.
