(* ===== verification/Float64.v ===== *)
(** Go's [float64]: finite values as rationals, every operation the exact
result rounded to the nearest value with 53 significant bits, ties to even
(IEEE 754 binary64). Infinities and NaN have no rational; the kits never
produce them from finite inputs of their range. [math.Round] rounds half
away from zero. *)

From Stdlib Require Import QArith Qround Qpower Lqa.
From S2P Require Import Prelude.

Abbreviation float64 := Q (only parsing).

#[global] Instance Qle_decision (x y : Q) : Decision (x <= y)%Q.
Proof. destruct (Qlt_le_dec y x) as [H|?]; [right|by left]. by apply Qlt_not_le. Defined.
#[global] Instance Qlt_decision (x y : Q) : Decision (x < y)%Q.
Proof. destruct (Qlt_le_dec x y) as [?|H]; [by left|right]. by apply Qle_not_lt. Defined.
#[global] Instance Qeq_decision (x y : Q) : Decision (x == y)%Q := Qeq_dec x y.
#[global] Instance Q_eq_dec : EqDecision Q.
Proof. solve_decision. Defined.

(** [2^e]. *)
Definition pow2 (e : Z) : Q := ((2 # 1) ^ e)%Q.

(** The nearest integer, ties to even. *)
Definition round_even (q : Q) : Z :=
  let f := Qfloor q in
  match (q - inject_Z f ?= 1 # 2)%Q with
  | Lt => f
  | Gt => f + 1
  | Eq => if Z.even f then f else f + 1
  end.

(** The binary exponent of a positive rational: [2^k ≤ q < 2^(k+1)]. *)
Definition ilog2 (q : Q) : Z :=
  let k := (Z.log2 (Qnum q) - Z.log2 (Zpos (Qden q)))%Z in
  if decide (q < pow2 k)%Q then k - 1 else k.

(** The exponent of the last bit kept; -1074 for subnormal numbers. *)
Definition last_bit (q : Q) : Z := Z.max (-1074) (ilog2 q - 52).

Definition round_pos (q : Q) : Q :=
  let e := last_bit q in (inject_Z (round_even (q / pow2 e)) * pow2 e)%Q.

(** The nearest [float64]. *)
Definition fl (q : Q) : float64 :=
  Qred (match (q ?= 0)%Q with
        | Eq => 0
        | Lt => - round_pos (- q)
        | Gt => round_pos q
        end)%Q.

Definition fadd (x y : float64) : float64 := fl (x + y).
Definition fmul (x y : float64) : float64 := fl (x * y).
Definition fdiv (x y : float64) : float64 := fl (x / y).
(** [float64(n)]. *)
Definition float_of_int (n : Z) : float64 := fl (inject_Z n).

(** The builtin [min] on finite values. *)
Definition fmin (x y : float64) : float64 := if decide (x <= y)%Q then x else y.

(** [int(math.Round(x))]. *)
Definition Round (x : float64) : Z :=
  if decide (x < 0)%Q then - Qfloor (- x + (1 # 2)) else Qfloor (x + (1 # 2)).

(** * Rounding is monotone *)

Lemma pow2_pos e : (0 < pow2 e)%Q.
Proof. by apply Qpower_0_lt. Qed.

Lemma pow2_plus a b : (pow2 (a + b) == pow2 a * pow2 b)%Q.
Proof. by apply Qpower_plus. Qed.

Lemma pow2_int e : (0 ≤ e)%Z → (pow2 e == inject_Z (2 ^ e))%Q.
Proof. intros H. unfold pow2. change (2 # 1)%Q with (inject_Z 2). by rewrite Zpower_Qpower. Qed.

Lemma pow2_le a b : (a ≤ b)%Z → (pow2 a <= pow2 b)%Q.
Proof. intros H. by apply Qpower_le_compat_l. Qed.

Lemma pow2_lt_inv a b : (pow2 a < pow2 b)%Q → (a < b)%Z.
Proof. intros H. by apply (Qpower_lt_compat_l_inv (2 # 1)). Qed.

#[global] Instance round_even_proper : Proper (Qeq ==> eq) round_even.
Proof.
  intros x y Hxy. unfold round_even. rewrite (Qfloor_comp _ _ Hxy).
  assert ((x - inject_Z (Qfloor y) ?= 1 # 2) = (y - inject_Z (Qfloor y) ?= 1 # 2))%Q as ->.
  { apply Qcompare_comp; [by rewrite Hxy|done]. }
  done.
Qed.

Lemma round_even_int n : round_even (inject_Z n) = n.
Proof.
  unfold round_even. rewrite Qfloor_Z.
  assert ((inject_Z n - inject_Z n ?= 1 # 2)%Q = Lt) as ->; [|done].
  apply (proj1 (Qlt_alt _ _)). lra.
Qed.

(** The rounded integer is the floor or the next integer. *)
Lemma round_even_floor q : (Qfloor q ≤ round_even q ≤ Qfloor q + 1)%Z.
Proof. unfold round_even. destruct (_ ?= _)%Q; try case_match; lia. Qed.

Lemma round_even_mono x y : (x <= y)%Q → (round_even x ≤ round_even y)%Z.
Proof.
  intros Hxy. pose proof (Qfloor_resp_le _ _ Hxy) as Hf.
  pose proof (round_even_floor x). pose proof (round_even_floor y).
  destruct (decide (Qfloor x = Qfloor y)) as [Heq|]; [|lia].
  unfold round_even. rewrite Heq.
  destruct (x - _ ?= _)%Q eqn:Hx, (y - _ ?= _)%Q eqn:Hy; try case_match; try lia;
    rewrite <-?Qlt_alt, <-?Qgt_alt, <-?Qeq_alt in *; lra.
Qed.

Lemma ilog2_spec q : (0 < q)%Q → (pow2 (ilog2 q) <= q)%Q ∧ (q < pow2 (ilog2 q + 1))%Q.
Proof.
  destruct q as [n d]. intros Hq. assert (0 < n)%Z as Hn.
  { unfold Qlt in Hq. simpl in Hq. lia. }
  pose proof (Z.log2_spec n Hn) as [Hn1 Hn2].
  pose proof (Z.log2_spec (Zpos d) eq_refl) as [Hd1 Hd2].
  pose proof (Z.log2_nonneg n) as Ha. pose proof (Z.log2_nonneg (Zpos d)) as Hb.
  set (a := Z.log2 n) in *. set (b := Z.log2 (Zpos d)) in *.
  assert ((n # d) == inject_Z n / inject_Z (Zpos d))%Q as Hnd by apply Qmake_Qdiv.
  assert (0 < inject_Z (Zpos d))%Q as Hdp by done.
  assert (∀ k, (pow2 k <= n # d ↔ pow2 k * inject_Z (Zpos d) <= inject_Z n))%Q as Hle.
  { intros k. rewrite Hnd. split; intros H.
    - apply (Qmult_le_compat_r _ _ (inject_Z (Zpos d))) in H; [|lra].
      rewrite (Qmult_comm (inject_Z n / _)), Qmult_div_r in H; [done|lra].
    - apply Qle_shift_div_l; [done|]. done. }
  assert (pow2 (a - b - 1) <= n # d)%Q as Hlow.
  { apply Hle. apply Qle_trans with (pow2 a); [|rewrite pow2_int by done; rewrite <-Zle_Qle; lia].
    apply Qle_trans with (pow2 (a - b - 1) * pow2 (Z.succ b))%Q.
    - apply Qmult_le_l; [apply pow2_pos|]. rewrite pow2_int by lia. rewrite <-Zle_Qle. lia.
    - rewrite <-pow2_plus. apply pow2_le. lia. }
  assert (n # d < pow2 (a - b + 1))%Q as Hhigh.
  { apply Qnot_le_lt. rewrite Hle. apply Qlt_not_le.
    apply Qlt_le_trans with (pow2 (Z.succ a)); [rewrite pow2_int by lia; rewrite <-Zlt_Qlt; lia|].
    apply Qle_trans with (pow2 (a - b + 1) * pow2 b)%Q.
    - rewrite <-pow2_plus. apply pow2_le. lia.
    - apply Qmult_le_l; [apply pow2_pos|]. rewrite pow2_int by lia. rewrite <-Zle_Qle. lia. }
  unfold ilog2. cbn [Qnum Qden]. fold a b. case_decide as Hk.
  - by replace (a - b - 1 + 1)%Z with (a - b)%Z by lia.
  - split; [by apply Qnot_lt_le|done].
Qed.

Lemma ilog2_mono x y : (0 < x)%Q → (x <= y)%Q → (ilog2 x ≤ ilog2 y)%Z.
Proof.
  intros Hx Hxy. destruct (ilog2_spec x Hx) as [H1 _].
  destruct (ilog2_spec y) as [_ H2]; [lra|].
  assert (ilog2 x < ilog2 y + 1)%Z; [|lia]. apply pow2_lt_inv. lra.
Qed.

Lemma div_pow2_le x y e : (x <= y)%Q → (x / pow2 e <= y / pow2 e)%Q.
Proof.
  intros H. apply Qmult_le_compat_r; [done|].
  apply Qlt_le_weak, Qinv_lt_0_compat, pow2_pos.
Qed.

Lemma pow2_div a b : (pow2 a / pow2 b == pow2 (a - b))%Q.
Proof.
  pose proof (pow2_pos b). apply Qmult_inj_r with (pow2 b); [lra|].
  rewrite <-pow2_plus, Z.sub_add, Qmult_comm, Qmult_div_r; [done|lra].
Qed.

(** What lies on one side of a power of two above the last bit stays there. *)
Lemma round_pos_above q k :
  (last_bit q ≤ k)%Z → (pow2 k <= q)%Q → (pow2 k <= round_pos q)%Q.
Proof.
  intros Hk Hq. unfold round_pos. set (e := last_bit q) in *.
  apply (div_pow2_le _ _ e) in Hq. rewrite pow2_div in Hq.
  rewrite (pow2_int (k - e)) in Hq by lia. apply round_even_mono in Hq.
  rewrite round_even_int in Hq. rewrite Zle_Qle, <-(pow2_int (k - e)) in Hq by lia.
  apply (Qmult_le_compat_r _ _ (pow2 e)) in Hq; [|apply Qlt_le_weak, pow2_pos].
  by rewrite <-pow2_plus, Z.sub_add in Hq.
Qed.

Lemma round_pos_below q k :
  (last_bit q ≤ k)%Z → (q <= pow2 k)%Q → (round_pos q <= pow2 k)%Q.
Proof.
  intros Hk Hq. unfold round_pos. set (e := last_bit q) in *.
  apply (div_pow2_le _ _ e) in Hq. rewrite pow2_div in Hq.
  rewrite (pow2_int (k - e)) in Hq by lia. apply round_even_mono in Hq.
  rewrite round_even_int in Hq. rewrite Zle_Qle, <-(pow2_int (k - e)) in Hq by lia.
  apply (Qmult_le_compat_r _ _ (pow2 e)) in Hq; [|apply Qlt_le_weak, pow2_pos].
  by rewrite <-pow2_plus, Z.sub_add in Hq.
Qed.

Lemma round_pos_nonneg q : (0 < q)%Q → (0 <= round_pos q)%Q.
Proof.
  intros Hq. unfold round_pos. apply Qmult_le_0_compat; [|apply Qlt_le_weak, pow2_pos].
  change 0%Q with (inject_Z 0). rewrite <-Zle_Qle, <-(round_even_int 0).
  apply round_even_mono. change (inject_Z 0) with 0%Q.
  apply Qle_shift_div_l; [apply pow2_pos|lra].
Qed.

Lemma round_pos_mono x y : (0 < x)%Q → (x <= y)%Q → (round_pos x <= round_pos y)%Q.
Proof.
  intros Hx Hxy. pose proof (ilog2_mono x y Hx Hxy) as Hlog.
  destruct (decide (last_bit x = last_bit y)) as [He|He].
  - unfold round_pos. rewrite He. apply Qmult_le_compat_r; [|apply Qlt_le_weak, pow2_pos].
    rewrite <-Zle_Qle. by apply round_even_mono, div_pow2_le.
  - destruct (ilog2_spec y) as [Hy _]; [lra|]. destruct (ilog2_spec x) as [_ Hx2]; [done|].
    unfold last_bit in He. apply Qle_trans with (pow2 (ilog2 y)).
    + apply round_pos_below; [unfold last_bit; lia|].
      apply Qle_trans with (pow2 (ilog2 x + 1)); [lra|apply pow2_le; lia].
    + apply round_pos_above; [unfold last_bit; lia|done].
Qed.

#[global] Instance Qle_fl_proper : Proper (Qle ==> Qle) fl.
Proof.
  intros x y Hxy. unfold fl. rewrite !Qred_correct.
  destruct (x ?= 0)%Q eqn:Hx, (y ?= 0)%Q eqn:Hy;
    rewrite <-?Qlt_alt, <-?Qgt_alt, <-?Qeq_alt in *; try lra.
  - pose proof (round_pos_nonneg y). lra.
  - pose proof (round_pos_nonneg (- x)). lra.
  - pose proof (round_pos_mono (- y) (- x)). lra.
  - pose proof (round_pos_nonneg (- x)). pose proof (round_pos_nonneg y). lra.
  - apply round_pos_mono; lra.
Qed.

Lemma fl_mono x y : (x <= y)%Q → (fl x <= fl y)%Q.
Proof. apply Qle_fl_proper. Qed.

Lemma fl_nonneg q : (0 <= q)%Q → (0 <= fl q)%Q.
Proof. intros H. apply (fl_mono 0). done. Qed.

(** A rational up to an integer that is a [float64] rounds to at most it. *)
Lemma fl_le_int q n : (q <= inject_Z n)%Q → fl (inject_Z n) = inject_Z n → (fl q <= inject_Z n)%Q.
Proof. intros H Hn. rewrite <-Hn. by apply fl_mono. Qed.

Lemma Round_mono x y : (x <= y)%Q → (Round x ≤ Round y)%Z.
Proof.
  intros H. unfold Round. repeat case_decide;
    repeat match goal with Hn : ¬ (_ < _)%Q |- _ => apply Qnot_lt_le in Hn end; try lra.
  - assert (Qfloor (- y + (1 # 2)) ≤ Qfloor (- x + (1 # 2)))%Z by (apply Qfloor_resp_le; lra). lia.
  - assert (0 ≤ Qfloor (- x + (1 # 2)))%Z by (apply (Qfloor_resp_le 0); lra).
    assert (0 ≤ Qfloor (y + (1 # 2)))%Z by (apply (Qfloor_resp_le 0); lra). lia.
  - apply Qfloor_resp_le. lra.
Qed.

Lemma Qfloor_int_half n : Qfloor (inject_Z n + (1 # 2)) = n.
Proof.
  pose proof (Qfloor_le (inject_Z n + (1 # 2))) as H1.
  pose proof (Qlt_floor (inject_Z n + (1 # 2))) as H2. set (f := Qfloor _) in *.
  rewrite inject_Z_plus in H2. change (inject_Z 1) with 1%Q in H2.
  assert (f < n + 1)%Z by (rewrite Zlt_Qlt, inject_Z_plus; change (inject_Z 1) with 1%Q; lra).
  assert (n < f + 1)%Z by (rewrite Zlt_Qlt, inject_Z_plus; change (inject_Z 1) with 1%Q; lra).
  lia.
Qed.

Lemma Round_int n : Round (inject_Z n) = n.
Proof.
  unfold Round. rewrite Qfloor_int_half. case_decide; [|done].
  change (- inject_Z n)%Q with (inject_Z (- n)). rewrite Qfloor_int_half. lia.
Qed.

(** * Rounding twice changes nothing *)

(** A multiple of [2^e] is a [float64] when [e] is not below its last bit. *)
Lemma round_pos_exact n e :
  (last_bit (inject_Z n * pow2 e) ≤ e)%Z → (round_pos (inject_Z n * pow2 e) == inject_Z n * pow2 e)%Q.
Proof.
  intros He. unfold round_pos. set (e' := last_bit _) in *. clearbody e'.
  pose proof (pow2_pos e') as Hpos.
  assert (inject_Z n * pow2 e / pow2 e' == inject_Z (n * 2 ^ (e - e')))%Q as Hq.
  { rewrite inject_Z_mult, <-pow2_int by lia. unfold Qdiv. rewrite <-Qmult_assoc.
    fold (pow2 e / pow2 e')%Q. by rewrite pow2_div. }
  rewrite Hq, round_even_int, inject_Z_mult, <-pow2_int by lia.
  rewrite <-Qmult_assoc, <-pow2_plus. by replace (e - e' + e')%Z with e by lia.
Qed.

#[global] Instance ilog2_proper : Proper (Qeq ==> eq) (λ q, if decide (0 < q)%Q then ilog2 q else 0%Z).
Proof.
  intros x y Hxy. repeat case_decide; try (exfalso; lra); [|done].
  pose proof (ilog2_mono x y). pose proof (ilog2_mono y x).
  assert (x <= y)%Q by lra. assert (y <= x)%Q by lra.
  assert (ilog2 x ≤ ilog2 y)%Z by auto. assert (ilog2 y ≤ ilog2 x)%Z by auto. lia.
Qed.

Lemma last_bit_eq x y : (0 < x)%Q → (x == y)%Q → last_bit x = last_bit y.
Proof.
  intros Hx Hxy. unfold last_bit. do 2 f_equal.
  pose proof (ilog2_proper _ _ Hxy) as H. simpl in H.
  rewrite !decide_True in H by lra. done.
Qed.

Lemma round_pos_eq x y : (0 < x)%Q → (x == y)%Q → (round_pos x == round_pos y)%Q.
Proof.
  intros Hx Hxy. unfold round_pos. rewrite (last_bit_eq x y) by done.
  by rewrite Hxy.
Qed.

(** The rounded mantissa has at most 53 bits, or is the power of two above. *)
Lemma round_pos_round_pos q :
  (0 < q)%Q → (0 < round_pos q)%Q → (round_pos (round_pos q) == round_pos q)%Q.
Proof.
  intros Hq Hr. set (e := last_bit q).
  assert (round_pos q == inject_Z (round_even (q / pow2 e)) * pow2 e)%Q as Heq by done.
  destruct (ilog2_spec q Hq) as [_ Hhigh].
  set (m := round_even (q / pow2 e)) in *.
  assert (round_pos q <= pow2 (e + 53))%Q as Hle.
  { apply round_pos_below; [unfold e; lia|]. apply Qle_trans with (pow2 (ilog2 q + 1)); [lra|].
    apply pow2_le. unfold e, last_bit. lia. }
  destruct (Qeq_dec (round_pos q) (pow2 (e + 53))) as [Htop|Hne].
  - pose proof (pow2_pos (e + 53)) as Hp. assert (inject_Z 1 * pow2 (e + 53) == pow2 (e + 53))%Q as H1.
    { change (inject_Z 1) with 1%Q. lra. }
    rewrite (round_pos_eq (round_pos q) (inject_Z 1 * pow2 (e + 53))) by lra.
    rewrite round_pos_exact; [lra|]. rewrite (last_bit_eq _ _) by (exact H1 || lra).
    destruct (ilog2_spec _ Hp) as [Hl _].
    assert (ilog2 (pow2 (e + 53)) < e + 53 + 1)%Z; [|unfold e, last_bit in *; lia].
    apply pow2_lt_inv. apply Qle_lt_trans with (pow2 (e + 53)); [done|].
    by apply Qpower_lt_compat_l; [lia|].
  - rewrite (round_pos_eq _ _ Hr Heq). rewrite round_pos_exact; [done|].
    rewrite Heq in Hr. destruct (ilog2_spec _ Hr) as [Hl _].
    assert (ilog2 (inject_Z m * pow2 e) < e + 53)%Z; [|unfold e, last_bit in *; lia].
    apply pow2_lt_inv. apply Qle_lt_trans with (inject_Z m * pow2 e)%Q; [done|].
    rewrite <-Heq. apply Qle_lt_or_eq in Hle as [?|?]; [done|]. by destruct Hne.
Qed.

Lemma fl_pos q : (0 < q)%Q → (fl q == round_pos q)%Q.
Proof.
  intros Hq. unfold fl. rewrite Qred_correct.
  destruct (q ?= 0)%Q eqn:Hc; rewrite <-?Qlt_alt, <-?Qgt_alt, <-?Qeq_alt in Hc; [lra|lra|done].
Qed.

Lemma fl_zero q : (q == 0)%Q → (fl q == 0)%Q.
Proof.
  intros Hq. unfold fl. rewrite Qred_correct.
  destruct (q ?= 0)%Q eqn:Hc; rewrite <-?Qlt_alt, <-?Qgt_alt, <-?Qeq_alt in Hc; [done|lra|lra].
Qed.

Lemma fl_fl q : (0 <= q)%Q → (fl (fl q) == fl q)%Q.
Proof.
  intros Hq. pose proof (fl_nonneg q Hq) as Hn.
  destruct (Qlt_le_dec 0 (fl q)) as [Hr|Hr]; [|rewrite fl_zero; lra].
  destruct (Qlt_le_dec 0 q) as [Hp|Hp]; [|pose proof (fl_zero q); lra].
  pose proof (fl_pos q Hp) as He. rewrite (fl_pos (fl q)) by done.
  rewrite (round_pos_eq (fl q) (round_pos q)) by done. rewrite He.
  apply round_pos_round_pos; lra.
Qed.

(** A sum of a [float64] and something non-negative is not below the former. *)
Lemma fadd_ge x w : (0 <= x)%Q → (fl x == x)%Q → (0 <= w)%Q → (x <= fadd x w)%Q.
Proof. intros Hx Hf Hw. rewrite <-Hf at 1. apply fl_mono. lra. Qed.
