(* ===== verification/GoUtf8.v ===== *)
(** UTF-8 as Go's [[]rune(s)] and [string(runes)] treat it: decoding never
fails, a byte that starts no valid encoding becomes U+FFFD. *)

From S2P Require Import Prelude.
#[local] Open Scope Z_scope.

Definition rune := Z.
Definition RuneError : rune := 65533.

Definition between (lo b hi : Z) : bool := (lo <=? b) && (b <=? hi).
(** A continuation byte, and its six bits. *)
Definition cont (b : Z) : bool := between 128 b 191.

(** The second byte that may follow the lead byte [b0] of a longer encoding
([acceptRanges]): overlong forms, surrogates and values above U+10FFFF are
excluded here. *)
Definition accept3 (b0 b1 : Z) : bool :=
  if b0 =? 224 then between 160 b1 191
  else if b0 =? 237 then between 128 b1 159
  else between 225 b0 239 && cont b1.

Definition accept4 (b0 b1 : Z) : bool :=
  if b0 =? 240 then between 144 b1 191
  else if b0 =? 244 then between 128 b1 143
  else between 241 b0 243 && cont b1.

(** [[]rune(s)] of the bytes of [s]. *)
Fixpoint runes (l : list Z) : list rune :=
  match l with
  | [] => []
  | b0 :: l1 =>
      if b0 <? 128 then b0 :: runes l1
      else match l1 with
      | [] => [RuneError]
      | b1 :: l2 =>
          if between 194 b0 223 && cont b1
          then ((b0 - 192) * 64 + (b1 - 128)) :: runes l2
          else match l2 with
          | [] => RuneError :: runes l1
          | b2 :: l3 =>
              if accept3 b0 b1 && cont b2
              then ((b0 - 224) * 4096 + (b1 - 128) * 64 + (b2 - 128)) :: runes l3
              else match l3 with
              | [] => RuneError :: runes l1
              | b3 :: l4 =>
                  if accept4 b0 b1 && cont b2 && cont b3
                  then ((b0 - 240) * 262144 + (b1 - 128) * 4096 + (b2 - 128) * 64 + (b3 - 128))
                         :: runes l4
                  else RuneError :: runes l1
              end
          end
      end
  end.

Definition valid_rune (r : rune) : bool := between 0 r 55295 || between 57344 r 1114111.

Definition encode_rune (r : rune) : list Z :=
  if negb (valid_rune r) then [239; 191; 189]
  else if r <? 128 then [r]
  else if r <? 2048 then [192 + r `div` 64; 128 + r `mod` 64]
  else if r <? 65536 then [224 + r `div` 4096; 128 + (r `div` 64) `mod` 64; 128 + r `mod` 64]
  else [240 + r `div` 262144; 128 + (r `div` 4096) `mod` 64; 128 + (r `div` 64) `mod` 64;
        128 + r `mod` 64].

(** The bytes of a string, and back. *)
Definition byte_values (s : string) : list Z :=
  (λ c, Z.of_N (N_of_ascii c)) <$> String.list_ascii_of_string s.
Definition of_byte_values (l : list Z) : string :=
  String.string_of_list_ascii ((λ b, ascii_of_N (Z.to_N b)) <$> l).

Definition string_runes (s : string) : list rune := runes (byte_values s).
Definition runes_string (rs : list rune) : string := of_byte_values (rs ≫= encode_rune).

(** * Decoding what was encoded *)

Ltac bounds :=
  repeat match goal with
  | H : cont _ = true |- _ => unfold cont in H
  | H : between _ _ _ = true |- _ => unfold between in H
  | H : _ && _ = true |- _ => apply andb_true_iff in H as [? ?]
  | H : (_ <=? _) = true |- _ => apply Z.leb_le in H
  | H : (_ <? _) = true |- _ => apply Z.ltb_lt in H
  | H : (_ <? _) = false |- _ => apply Z.ltb_ge in H
  | H : (_ =? _) = true |- _ => apply Z.eqb_eq in H
  | H : (_ =? _) = false |- _ => apply Z.eqb_neq in H
  end.

Lemma between_true lo b hi : lo ≤ b ≤ hi → between lo b hi = true.
Proof. unfold between. intros H. apply andb_true_iff. lia. Qed.

Lemma between_false lo b hi : b < lo ∨ hi < b → between lo b hi = false.
Proof. unfold between. intros H. apply andb_false_iff. lia. Qed.

Lemma mod64_cont r : cont (128 + r `mod` 64) = true.
Proof. apply between_true. pose proof (Z.mod_pos_bound r 64). lia. Qed.

Lemma split64 r : r = r `div` 64 * 64 + r `mod` 64.
Proof. pose proof (Z.div_mod r 64). lia. Qed.

Lemma runes_encode_one r l :
  valid_rune r = true → runes (encode_rune r ++ l) = r :: runes l.
Proof.
  intros Hv. unfold encode_rune. rewrite Hv. cbn [negb].
  assert (0 ≤ r ≤ 55295 ∨ 57344 ≤ r ≤ 1114111) as Hr.
  { unfold valid_rune, between in Hv. apply orb_true_iff in Hv. rewrite !andb_true_iff, !Z.leb_le in Hv. lia. }
  destruct (r <? 128) eqn:H1; bounds.
  { cbn [app runes]. by rewrite (proj2 (Z.ltb_lt _ _) H1). }
  pose proof (split64 r) as Hs. pose proof (Z.mod_pos_bound r 64 eq_refl) as Hm.
  set (q := r `div` 64) in *. set (m := r `mod` 64) in *.
  destruct (r <? 2048) eqn:H2; bounds.
  { cbn [app runes]. rewrite (proj2 (Z.ltb_ge _ _)) by lia. unfold m. rewrite mod64_cont.
    rewrite between_true by lia. cbn [andb]. f_equal. fold m. lia. }
  replace (r `div` 4096) with (q `div` 64) by (unfold q; rewrite Z.div_div by lia; done).
  pose proof (split64 q) as Hs2. pose proof (Z.mod_pos_bound q 64 eq_refl) as Hm2.
  set (q2 := q `div` 64) in *. set (m2 := q `mod` 64) in *.
  destruct (r <? 65536) eqn:H3; bounds.
  { cbn [app runes]. rewrite (proj2 (Z.ltb_ge _ _)) by lia.
    rewrite between_false by lia. cbn [andb].
    assert (accept3 (224 + q2) (128 + m2) = true) as ->.
    { unfold accept3. destruct (224 + q2 =? 224) eqn:E1; [apply Z.eqb_eq in E1; apply between_true; lia|].
      destruct (224 + q2 =? 237) eqn:E2; [apply Z.eqb_eq in E2; apply between_true; lia|].
      apply Z.eqb_neq in E1. apply andb_true_iff. split; [apply between_true; lia|apply mod64_cont]. }
    unfold m. rewrite mod64_cont. cbn [andb]. f_equal. fold m. lia. }
  replace (r `div` 262144) with (q2 `div` 64) by (unfold q2, q; rewrite !Z.div_div by lia; done).
  pose proof (split64 q2) as Hs3. pose proof (Z.mod_pos_bound q2 64 eq_refl) as Hm3.
  set (q3 := q2 `div` 64) in *. set (m3 := q2 `mod` 64) in *.
  cbn [app runes]. rewrite (proj2 (Z.ltb_ge _ _)) by lia.
  rewrite between_false by lia. cbn [andb].
  assert (accept3 (240 + q3) (128 + m3) = false) as ->.
  { unfold accept3. rewrite (proj2 (Z.eqb_neq _ _)), (proj2 (Z.eqb_neq _ _)) by lia.
    by rewrite between_false by lia. }
  cbn [andb].
  assert (accept4 (240 + q3) (128 + m3) = true) as ->.
  { unfold accept4. destruct (240 + q3 =? 240) eqn:E1; [apply Z.eqb_eq in E1; apply between_true; lia|].
    destruct (240 + q3 =? 244) eqn:E2; [apply Z.eqb_eq in E2; apply between_true; lia|].
    apply Z.eqb_neq in E1, E2. apply andb_true_iff. split; [apply between_true; lia|apply mod64_cont]. }
  unfold m2. rewrite mod64_cont. unfold m. rewrite mod64_cont. cbn [andb]. f_equal. fold m2 m. lia.
Qed.

Lemma runes_encode rs l :
  Forall (λ r, valid_rune r = true) rs → runes ((rs ≫= encode_rune) ++ l) = rs ++ runes l.
Proof.
  induction 1 as [|r rs Hr _ IH]; [done|]. rewrite bind_cons, <-app_assoc, runes_encode_one by done.
  simpl. by rewrite IH.
Qed.

Lemma runes_valid l : Forall (λ b, 0 ≤ b) l → Forall (λ r, valid_rune r = true) (runes l).
Proof.
  induction l as [l IH] using (induction_ltof1 _ length); unfold ltof in IH. intros Hl.
  destruct l as [|b0 l1]; [constructor|]. apply Forall_cons in Hl as [H0 Hl]. cbn [runes].
  assert (Forall (λ r, valid_rune r = true) (RuneError :: runes l1)) as Herr.
  { constructor; [done|]. apply IH; [simpl; lia|done]. }
  destruct (b0 <? 128) eqn:E0; bounds.
  { constructor; [|apply IH; [simpl; lia|done]]. unfold valid_rune. by rewrite between_true by lia. }
  destruct l1 as [|b1 l2]; [repeat constructor|]. apply Forall_cons in Hl as [H1 Hl].
  destruct (between 194 b0 223 && cont b1) eqn:E1; bounds.
  { constructor; [|apply IH; [simpl; lia|done]]. unfold valid_rune. by rewrite between_true by lia. }
  destruct l2 as [|b2 l3]; [done|]. apply Forall_cons in Hl as [H2 Hl].
  destruct (accept3 b0 b1 && cont b2) eqn:E2.
  { constructor; [|apply IH; [simpl; lia|done]]. apply andb_true_iff in E2 as [E2 E3].
    unfold accept3 in E2. apply orb_true_iff.
    destruct (b0 =? 224) eqn:A1; [|destruct (b0 =? 237) eqn:A2]; bounds.
    - left. apply between_true. lia.
    - left. apply between_true. lia.
    - destruct (decide (b0 ≤ 236)); [left|right]; apply between_true; lia. }
  destruct l3 as [|b3 l4]; [done|]. apply Forall_cons in Hl as [H3 Hl].
  destruct (accept4 b0 b1 && cont b2 && cont b3) eqn:E4; [|done].
  constructor; [|apply IH; [simpl; lia|done]]. apply andb_true_iff in E4 as [E4 E6].
  apply andb_true_iff in E4 as [E4 E5]. unfold accept4 in E4. apply orb_true_iff. right.
  destruct (b0 =? 240) eqn:A1; [|destruct (b0 =? 244) eqn:A2]; bounds; apply between_true; lia.
Qed.

(** * Strings *)

Lemma byte_values_app s t : byte_values (s +:+ t) = byte_values s ++ byte_values t.
Proof.
  unfold byte_values. rewrite <-fmap_app. f_equal.
  induction s as [|c s IH]; [done|]. simpl. by rewrite IH.
Qed.

Lemma byte_values_nonneg s : Forall (λ b, 0 ≤ b) (byte_values s).
Proof. unfold byte_values. rewrite Forall_fmap. apply Forall_forall. intros c _. simpl. lia. Qed.

Lemma byte_values_of l : Forall (λ b, 0 ≤ b < 256) l → byte_values (of_byte_values l) = l.
Proof.
  intros Hl. unfold byte_values, of_byte_values. rewrite String.list_ascii_of_string_of_list_ascii.
  induction Hl as [|b l Hb _ IH]; [done|]. rewrite !fmap_cons, IH. f_equal.
  rewrite N_ascii_embedding by lia. lia.
Qed.

Lemma encode_rune_bytes r : Forall (λ b, 0 ≤ b < 256) (encode_rune r).
Proof.
  unfold encode_rune. destruct (valid_rune r) eqn:Hv; cbn [negb]; [|by repeat constructor].
  assert (0 ≤ r ≤ 1114111) as Hr.
  { unfold valid_rune, between in Hv. apply orb_true_iff in Hv. rewrite !andb_true_iff, !Z.leb_le in Hv. lia. }
  assert (∀ x, 0 ≤ x `mod` 64 < 64) as Hm by (intros x; apply Z.mod_pos_bound; lia).
  assert (∀ k q, 0 < k → r < k * q → 0 ≤ r `div` k < q) as Hd.
  { intros k q Hk Hq. split; [apply Z.div_pos; lia|by apply Z.div_lt_upper_bound]. }
  destruct (r <? 128) eqn:H1; [|destruct (r <? 2048) eqn:H2; [|destruct (r <? 65536) eqn:H3]]; bounds;
    repeat apply Forall_cons_2; try apply Forall_nil_2;
    try match goal with |- context [128 + ?x `mod` 64] => specialize (Hm x); lia end.
  - lia.
  - pose proof (Hd 64 32). lia.
  - pose proof (Hd 4096 16). lia.
  - pose proof (Hd 262144 5). lia.
Qed.

Lemma string_runes_app rs s :
  Forall (λ r, valid_rune r = true) rs → string_runes (runes_string rs +:+ s) = rs ++ string_runes s.
Proof.
  intros Hrs. unfold string_runes, runes_string. rewrite byte_values_app, byte_values_of.
  - by apply runes_encode.
  - induction rs as [|r rs IH]; [constructor|]. rewrite bind_cons. apply Forall_cons in Hrs as [_ Hrs].
    apply Forall_app_2; [apply encode_rune_bytes|by apply IH].
Qed.

Lemma string_runes_valid s : Forall (λ r, valid_rune r = true) (string_runes s).
Proof. apply runes_valid, byte_values_nonneg. Qed.

(** An ASCII string has one rune per byte. *)
Lemma runes_ascii l l' : Forall (λ b, 0 ≤ b < 128) l → runes (l ++ l') = l ++ runes l'.
Proof.
  induction 1 as [|b l Hb _ IH]; [done|]. cbn [app runes].
  rewrite (proj2 (Z.ltb_lt _ _)) by lia. by rewrite IH.
Qed.

(** * Self-synchronisation *)

Definition is_byte (b : Z) : Prop := 0 ≤ b < 256.

Lemma accept3_cont b0 b1 : accept3 b0 b1 = true → 224 ≤ b0 ≤ 239 ∧ cont b1 = true.
Proof.
  unfold accept3. destruct (b0 =? 224) eqn:A1; [|destruct (b0 =? 237) eqn:A2]; intros H; bounds;
    (split; [lia|]); apply between_true; lia.
Qed.

Lemma accept4_cont b0 b1 : accept4 b0 b1 = true → 240 ≤ b0 ≤ 244 ∧ cont b1 = true.
Proof.
  unfold accept4. destruct (b0 =? 240) eqn:A1; [|destruct (b0 =? 244) eqn:A2]; intros H; bounds;
    (split; [lia|]); apply between_true; lia.
Qed.

Lemma split_digits q r : 0 ≤ r < 64 → (q * 64 + r) `div` 64 = q ∧ (q * 64 + r) `mod` 64 = r.
Proof.
  intros Hr. split; [symmetry; apply (Z.div_unique _ _ _ r)|symmetry; apply (Z.mod_unique _ _ q)]; lia.
Qed.

(** What decoding takes for one rune: a byte and the continuation bytes after it, which are
the encoding of the rune unless it stands for an error. *)
Lemma runes_step b0 l :
  is_byte b0 → ∃ r c l', l = c ++ l' ∧ Forall (λ b, cont b = true) c ∧
    runes (b0 :: l) = r :: runes l' ∧ (r = RuneError ∨ encode_rune r = b0 :: c).
Proof.
  intros Hb. cbn [runes].
  assert (∃ r c l', l = c ++ l' ∧ Forall (λ b, cont b = true) c ∧
    RuneError :: runes l = r :: runes l' ∧ (r = RuneError ∨ encode_rune r = b0 :: c)) as Herr.
  { exists RuneError, [], l. split_and!; [done|constructor|done|by left]. }
  destruct (b0 <? 128) eqn:E0; bounds.
  { exists b0, [], l. split_and!; [done|constructor|done|right]. unfold encode_rune, valid_rune, is_byte in *.
    by rewrite between_true, (proj2 (Z.ltb_lt _ _) E0) by lia. }
  destruct l as [|b1 l2]; [exact Herr|]. destruct (between 194 b0 223 && cont b1) eqn:E1.
  { apply andb_true_iff in E1 as [E1 C1]. exists ((b0 - 192) * 64 + (b1 - 128)), [b1], l2.
    split_and!; [done|by repeat constructor|done|right]. bounds.
    destruct (split_digits (b0 - 192) (b1 - 128)) as [Hd Hm]; [lia|].
    unfold encode_rune, valid_rune. rewrite between_true by lia. cbn [orb negb].
    rewrite (proj2 (Z.ltb_ge _ _)), (proj2 (Z.ltb_lt _ _)), Hd, Hm by lia. repeat f_equal; lia. }
  destruct l2 as [|b2 l3]; [exact Herr|]. destruct (accept3 b0 b1 && cont b2) eqn:E2.
  { apply andb_true_iff in E2 as [E2 C2]. destruct (accept3_cont _ _ E2) as [Hb0 C1].
    exists ((b0 - 224) * 4096 + (b1 - 128) * 64 + (b2 - 128)), [b1; b2], l3.
    split_and!; [done|by repeat constructor|done|right].
    assert (valid_rune ((b0 - 224) * 4096 + (b1 - 128) * 64 + (b2 - 128)) = true ∧
      2048 ≤ (b0 - 224) * 4096 + (b1 - 128) * 64 + (b2 - 128) < 65536) as [Hv Hr].
    { unfold accept3 in E2. unfold valid_rune.
      destruct (b0 =? 224) eqn:A1; [|destruct (b0 =? 237) eqn:A2]; bounds; (split; [|lia]);
        apply orb_true_iff;
        first [left; apply between_true; lia|right; apply between_true; lia|
               destruct (decide (b0 ≤ 236)); [left|right]; apply between_true; lia]. }
    bounds. destruct (split_digits ((b0 - 224) * 64 + (b1 - 128)) (b2 - 128)) as [Hd Hm]; [lia|].
    destruct (split_digits (b0 - 224) (b1 - 128)) as [Hd2 Hm2]; [lia|].
    replace ((b0 - 224) * 4096 + (b1 - 128) * 64 + (b2 - 128))
      with (((b0 - 224) * 64 + (b1 - 128)) * 64 + (b2 - 128)) in * by lia.
    unfold encode_rune. rewrite Hv. cbn [negb].
    rewrite !(proj2 (Z.ltb_ge _ _)), (proj2 (Z.ltb_lt _ _)) by lia.
    change 4096 with (64 * 64). rewrite <-Z.div_div by lia. rewrite Hd, Hm, Hd2, Hm2. repeat f_equal; lia. }
  destruct l3 as [|b3 l4]; [exact Herr|]. destruct (accept4 b0 b1 && cont b2 && cont b3) eqn:E3; [|exact Herr].
  apply andb_true_iff in E3 as [E3 C3]. apply andb_true_iff in E3 as [E3 C2].
  destruct (accept4_cont _ _ E3) as [Hb0 C1].
  exists ((b0 - 240) * 262144 + (b1 - 128) * 4096 + (b2 - 128) * 64 + (b3 - 128)), [b1; b2; b3], l4.
  split_and!; [done|by repeat constructor|done|right].
  assert (65536 ≤ (b0 - 240) * 262144 + (b1 - 128) * 4096 + (b2 - 128) * 64 + (b3 - 128) ≤ 1114111) as Hr.
  { unfold accept4 in E3. destruct (b0 =? 240) eqn:A1; [|destruct (b0 =? 244) eqn:A2]; bounds; lia. }
  bounds.
  destruct (split_digits (((b0 - 240) * 64 + (b1 - 128)) * 64 + (b2 - 128)) (b3 - 128)) as [Hd Hm]; [lia|].
  destruct (split_digits ((b0 - 240) * 64 + (b1 - 128)) (b2 - 128)) as [Hd2 Hm2]; [lia|].
  destruct (split_digits (b0 - 240) (b1 - 128)) as [Hd3 Hm3]; [lia|].
  replace ((b0 - 240) * 262144 + (b1 - 128) * 4096 + (b2 - 128) * 64 + (b3 - 128))
    with ((((b0 - 240) * 64 + (b1 - 128)) * 64 + (b2 - 128)) * 64 + (b3 - 128)) in * by lia.
  unfold encode_rune, valid_rune. rewrite (between_true 57344), orb_true_r by lia. cbn [negb].
  rewrite !(proj2 (Z.ltb_ge _ _)) by lia.
  change 262144 with (64 * 64 * 64). change 4096 with (64 * 64). rewrite <-!Z.div_div by lia.
  rewrite Hd, Hm, Hd2, Hm2, Hd3, Hm3. repeat f_equal; lia.
Qed.

Lemma runes_sync l1 b l2 :
  Forall is_byte l1 → cont b = false → ∃ p, runes (l1 ++ b :: l2) = p ++ runes (b :: l2).
Proof.
  induction l1 as [l1 IH] using (induction_ltof1 _ length); unfold ltof in IH. intros Hl Hb.
  destruct l1 as [|b0 l1]; [by exists []|]. apply Forall_cons in Hl as [H0 Hl].
  destruct (runes_step b0 (l1 ++ b :: l2) H0) as (r & c & l' & Hsplit & Hc & Hr & _).
  cbn [app]. rewrite Hr.
  assert (∃ k, l1 = c ++ k ∧ l' = k ++ b :: l2) as (k & -> & ->).
  { symmetry in Hsplit. apply app_eq_inv in Hsplit as [(k & -> & Hk)|(k & -> & Hk)]; [|eauto].
    destruct k as [|b' k]; [exists []; by rewrite !app_nil_r|]. injection Hk as -> _.
    apply Forall_app in Hc as [_ Hc]. apply Forall_cons in Hc as [Hc _]. congruence. }
  apply Forall_app in Hl as [_ Hl]. destruct (IH k) as [p Hp]; [simpl; rewrite length_app; lia|done|done|].
  exists (r :: p). by rewrite Hp.
Qed.

Lemma runes_suffix l p q :
  Forall is_byte l → runes l = p ++ q → ∃ l1 l2, l = l1 ++ l2 ∧ runes l2 = q.
Proof.
  revert l. induction p as [|r p IH]; intros l Hl H; [by exists [], l|].
  destruct l as [|b0 l]; [done|]. apply Forall_cons in Hl as [H0 Hl].
  destruct (runes_step b0 l H0) as (r' & c & l' & -> & _ & Hr & _). rewrite Hr in H.
  injection H as _ H. apply Forall_app in Hl as [_ Hl].
  destruct (IH l' Hl H) as (l1 & l2 & -> & <-). exists ((b0 :: c) ++ l1), l2. by rewrite <-app_assoc.
Qed.

Lemma runes_encoded l rs q :
  Forall is_byte l → RuneError ∉ rs → runes l = rs ++ q →
  ∃ l2, l = (rs ≫= encode_rune) ++ l2 ∧ runes l2 = q.
Proof.
  revert l. induction rs as [|r rs IH]; intros l Hl Hne H; [by exists l|].
  destruct l as [|b0 l]; [done|]. apply Forall_cons in Hl as [H0 Hl].
  destruct (runes_step b0 l H0) as (r' & c & l' & -> & _ & Hr & Henc). rewrite Hr in H.
  injection H as -> H. apply Forall_app in Hl as [_ Hl]. apply not_elem_of_cons in Hne as [Hr' Hne].
  destruct (IH l' Hl Hne H) as (l2 & -> & <-). exists l2. split; [|done].
  destruct Henc as [|Henc]; [done|]. by rewrite bind_cons, Henc, <-app_assoc.
Qed.

Lemma encode_rune_lead r : ∃ b c, encode_rune r = b :: c ∧ cont b = false.
Proof.
  unfold encode_rune. destruct (valid_rune r) eqn:Hv; cbn [negb]; [|eexists _, _; by split].
  assert (0 ≤ r ≤ 1114111) as Hr.
  { unfold valid_rune, between in Hv. apply orb_true_iff in Hv. rewrite !andb_true_iff, !Z.leb_le in Hv. lia. }
  destruct (r <? 128) eqn:H1; [|destruct (r <? 2048) eqn:H2; [|destruct (r <? 65536) eqn:H3]]; bounds;
    eexists _, _; (split; [reflexivity|]); apply between_false; [lia|right..].
  - assert (0 ≤ r `div` 64) by (apply Z.div_pos; lia). lia.
  - assert (0 ≤ r `div` 4096) by (apply Z.div_pos; lia). lia.
  - assert (0 ≤ r `div` 262144) by (apply Z.div_pos; lia). lia.
Qed.

(** The encoding of runes occurs among bytes exactly where decoding the bytes finds the runes:
an encoding is never found across the boundaries of others. *)
Lemma runes_occur l rs :
  Forall is_byte l → rs ≠ [] → Forall (λ r, valid_rune r = true) rs → RuneError ∉ rs →
  (∃ l1 l2, l = l1 ++ (rs ≫= encode_rune) ++ l2) ↔ ∃ p q, runes l = p ++ rs ++ q.
Proof.
  intros Hl Hne Hv He. split.
  - intros (l1 & l2 & ->). apply Forall_app in Hl as [Hl1 _].
    destruct rs as [|r rs]; [done|]. destruct (encode_rune_lead r) as (b & c & Hb & Hcont).
    pose proof (runes_encode (r :: rs) l2 Hv) as Hdec.
    rewrite bind_cons, Hb in *. cbn [app] in *.
    destruct (runes_sync l1 b ((c ++ (rs ≫= encode_rune)) ++ l2) Hl1 Hcont) as [p Hp].
    exists p, (runes l2). by rewrite Hp, Hdec.
  - intros (p & q & H). destruct (runes_suffix l p (rs ++ q) Hl H) as (l1 & l2 & -> & H2).
    apply Forall_app in Hl as [_ Hl]. destruct (runes_encoded l2 rs q Hl He H2) as (l3 & -> & _). eauto.
Qed.

Lemma byte_values_bytes s : Forall is_byte (byte_values s).
Proof.
  unfold byte_values. rewrite Forall_fmap. apply Forall_forall. intros c _. unfold is_byte. simpl.
  pose proof (N_ascii_bounded c). lia.
Qed.

Lemma byte_values_runes rs : byte_values (runes_string rs) = rs ≫= encode_rune.
Proof.
  apply byte_values_of. induction rs as [|r rs IH]; [constructor|]. rewrite bind_cons.
  apply Forall_app_2; [apply encode_rune_bytes|done].
Qed.

Lemma string_runes_string rs :
  Forall (λ r, valid_rune r = true) rs → string_runes (runes_string rs) = rs.
Proof.
  intros Hv. unfold string_runes. rewrite byte_values_runes, <-(app_nil_r (rs ≫= _)), runes_encode by done.
  apply app_nil_r.
Qed.
