(* ===== verification/GoPath.v ===== *)
(** Slash-separated paths: [strings.Split], [strings.HasPrefix], [path.Clean], and
[filepath.Join] and [filepath.Rel] on Unix. *)

From S2P Require Import Prelude.

(** * Strings *)

Definition nul : ascii := "000".
Definition slash : ascii := "/".

(** [strings.HasPrefix]. *)
Fixpoint HasPrefix (s prefix : string) {struct prefix} : bool :=
  match prefix, s with
  | EmptyString, _ => true
  | String a prefix, String b s => if decide (a = b) then HasPrefix s prefix else false
  | _, _ => false
  end.

(** [strings.TrimPrefix]. *)
Fixpoint drop_string (n : nat) (s : string) : string :=
  match n, s with
  | S n, String _ s => drop_string n s
  | _, _ => s
  end.
Definition TrimPrefix (s prefix : string) : string :=
  if HasPrefix s prefix then drop_string (String.length prefix) s else s.

(** [strings.Contains] of a single byte. *)
Fixpoint contains_byte (c : ascii) (s : string) : bool :=
  match s with
  | EmptyString => false
  | String a s => if decide (a = c) then true else contains_byte c s
  end.

(** [strings.Split] at a single byte. *)
Fixpoint split (c : ascii) (s : string) : list string :=
  match s with
  | EmptyString => [""]
  | String a s =>
      if decide (a = c) then "" :: split c s
      else match split c s with
           | x :: xs => String a x :: xs
           | [] => [String a ""]
           end
  end.

Definition join (c : ascii) (l : list string) : string := strings_Join l (String c "").

(** * Paths *)

(** An element that [path.Clean] keeps. *)
Definition ordinary (e : string) : Prop := e ≠ "" ∧ e ≠ "." ∧ e ≠ "..".
#[global] Instance ordinary_dec e : Decision (ordinary e).
Proof. unfold ordinary. apply _. Defined.

(** One element of [path.Clean], on the elements kept so far, last first. *)
Definition clean_step (rooted : bool) (kept : list string) (e : string) : list string :=
  if decide (e = "" ∨ e = ".") then kept
  else if decide (e = "..") then
    match kept with
    | top :: rest => if decide (top = "..") then ".." :: kept else rest
    | [] => if rooted then [] else [".."]
    end
  else e :: kept.

Definition clean_elems (rooted : bool) (elems : list string) : list string :=
  reverse (foldl (clean_step rooted) [] elems).

Definition Clean (p : string) : string :=
  let rooted := HasPrefix p "/" in
  let out := (if rooted then "/" else "") +:+ join slash (clean_elems rooted (split slash p)) in
  if decide (out = "") then "." else out.

(** [filepath.Join] of two elements. *)
Definition Join (a b : string) : string :=
  if decide (a ≠ "") then Clean (a +:+ "/" +:+ b)
  else if decide (b ≠ "") then Clean b else "".

(** The elements of a clean path. *)
Definition elements (p : string) : list string := filter (λ e, e ≠ "") (split slash p).

Fixpoint strip_common (bs ts : list string) : list string * list string :=
  match bs, ts with
  | b :: bs', t :: ts' => if decide (b = t) then strip_common bs' ts' else (bs, ts)
  | _, _ => (bs, ts)
  end.

(** [filepath.Rel]; [None] is an error. *)
Definition Rel (basepath targpath : string) : option string :=
  let base := Clean basepath in
  let targ := Clean targpath in
  if decide (targ = base) then Some "."
  else
    let base := if decide (base = ".") then "" else base in
    if negb (Bool.eqb (HasPrefix base "/") (HasPrefix targ "/")) then None
    else
      let '(b, t) := strip_common (elements base) (elements targ) in
      match b with
      | [] => Some (join slash t)
      | ".." :: _ => None
      | _ => Some (join slash (((λ _, "..") <$> b) ++ t))
      end.

(** * Lemmas *)

Lemma string_app_assoc (s t u : string) : s +:+ t +:+ u = (s +:+ t) +:+ u.
Proof. induction s as [|c s IH]; [done|]. change (String c s +:+ t +:+ u) with (String c (s +:+ t +:+ u)). by rewrite IH. Qed.
Lemma string_app_nil_r (s : string) : s +:+ "" = s.
Proof. induction s as [|c s IH]; [done|]. change (String c s +:+ "") with (String c (s +:+ "")). by rewrite IH. Qed.
Lemma list_ascii_app s t : String.list_ascii_of_string (s +:+ t) = String.list_ascii_of_string s ++ String.list_ascii_of_string t.
Proof. induction s as [|c s IH]; [done|]. change (String c s +:+ t) with (String c (s +:+ t)). cbn. by rewrite IH. Qed.
Lemma length_string_app s t : String.length (s +:+ t) = String.length s + String.length t.
Proof. induction s as [|c s IH]; [done|]. change (String c s +:+ t) with (String c (s +:+ t)). cbn. by rewrite IH. Qed.

Lemma split_not_nil c s : split c s ≠ [].
Proof. destruct s; simpl; [done|]. case_decide; [done|]. by destruct (split c s). Qed.

Lemma join_cons c x l : l ≠ [] → join c (x :: l) = x +:+ String c (join c l).
Proof. by destruct l. Qed.

(** Joining what was split. *)
Lemma join_split c s : join c (split c s) = s.
Proof.
  induction s as [|a s IH]; [done|]. simpl. case_decide as Ha.
  - subst a. rewrite join_cons by apply split_not_nil. by rewrite IH.
  - pose proof (split_not_nil c s) as Hn. destruct (split c s) as [|x xs]; [done|].
    rewrite <-IH. by destruct xs.
Qed.

Definition without (c : ascii) (s : string) : Prop := contains_byte c s = false.

Lemma split_without c s : Forall (without c) (split c s).
Proof.
  induction s as [|a s IH]; simpl; [by repeat constructor|]. case_decide as Ha; [by constructor|].
  destruct (split c s) as [|x xs]; [by repeat constructor; unfold without; simpl; rewrite decide_False|].
  apply Forall_cons in IH as [Hx Hxs]. constructor; [|done]. unfold without. simpl. by rewrite decide_False.
Qed.

Lemma split_app_sep c x s : without c x → split c (x +:+ String c s) = x :: split c s.
Proof.
  induction x as [|a x IH]; simpl; intros H; [by rewrite decide_True|]. unfold without in H. simpl in H.
  case_decide; [done|]. by rewrite IH.
Qed.

Lemma split_single c x : without c x → split c x = [x].
Proof.
  induction x as [|a x IH]; simpl; intros H; [done|]. unfold without in H. simpl in H.
  case_decide; [done|]. by rewrite IH.
Qed.

(** Splitting what was joined. *)
Lemma split_join c l : l ≠ [] → Forall (without c) l → split c (join c l) = l.
Proof.
  induction l as [|x l IH]; [done|]. intros _ [Hx Hl]%Forall_cons. destruct (decide (l = [])) as [->|Hn].
  - by apply split_single.
  - rewrite join_cons by done. by rewrite split_app_sep, IH.
Qed.

(** The elements kept by cleaning. *)
Lemma clean_step_ordinary rooted kept e : ordinary e → clean_step rooted kept e = e :: kept.
Proof. intros (H1 & H2 & H3). unfold clean_step. by rewrite !decide_False by naive_solver. Qed.

Lemma clean_elems_ordinary rooted es : Forall ordinary es → clean_elems rooted es = es.
Proof.
  intros H. unfold clean_elems.
  assert (∀ kept, foldl (clean_step rooted) kept es = reverse es ++ kept) as Hf.
  { induction H as [|e es He Hes IH]; intros kept; simpl; [done|].
    rewrite clean_step_ordinary by done. by rewrite IH, reverse_cons, <-app_assoc. }
  by rewrite Hf, app_nil_r, reverse_involutive.
Qed.

(** What cleaning keeps, last first: ordinary elements, after leading [..] of a relative path. *)
Definition kept_ok (rooted : bool) (kept : list string) : Prop :=
  ∃ n es, Forall (λ e, ordinary e ∧ without slash e) es ∧ kept = es ++ replicate n ".." ∧ (rooted = true → n = 0).

Lemma clean_step_kept rooted kept e :
  without slash e → kept_ok rooted kept → kept_ok rooted (clean_step rooted kept e).
Proof.
  intros He (n & es & Hes & -> & Hn). unfold clean_step. case_decide as Hd; [by exists n, es|]. case_decide as Hdd.
  - destruct es as [|x es]; [destruct n as [|n]|]; simpl.
    + destruct rooted; [by exists 0, []|by exists 1, []].
    + exists (S (S n)), []. split_and!; [done..|]. intros Hr. specialize (Hn Hr). lia.
    + apply Forall_cons in Hes as [[(_ & _ & Hx) _] Hes]. rewrite decide_False by done. by exists n, es.
  - exists n, (e :: es). split_and!; [|done..]. constructor; [|done]. unfold ordinary. naive_solver.
Qed.

Lemma clean_elems_kept rooted es :
  Forall (without slash) es → ∃ n es', Forall (λ e, ordinary e ∧ without slash e) es' ∧
    clean_elems rooted es = replicate n ".." ++ es' ∧ (rooted = true → n = 0).
Proof.
  intros H. assert (∀ kept, kept_ok rooted kept → kept_ok rooted (foldl (clean_step rooted) kept es)) as Hk.
  { induction H as [|e es He Hes IH]; intros kept Hk; simpl; [done|]. by apply IH, clean_step_kept. }
  destruct (Hk []) as (n & es' & He & Heq & Hn); [by exists 0, []|].
  exists n, (reverse es'). unfold clean_elems. rewrite Heq, reverse_app. split_and!; [by apply Forall_reverse| |done].
  f_equal. clear. induction n as [|n IH]; [done|]. rewrite replicate_S, reverse_cons, IH. by rewrite <-replicate_cons_app.
Qed.

Lemma without_app c s t : without c (s +:+ t) ↔ without c s ∧ without c t.
Proof. unfold without. induction s as [|a s IH]; simpl; [tauto|]. case_decide; [split; [done|by intros []]|done]. Qed.

(** The elements of a relative path of ordinary elements. *)
Lemma elements_join es : Forall (λ e, ordinary e ∧ without slash e) es → elements (join slash es) = es.
Proof.
  intros H. destruct (decide (es = [])) as [->|Hn]; [done|]. unfold elements. rewrite split_join; [|done|].
  - induction H as [|e es [(He & _) _] _ IH]; [done|]. rewrite filter_cons_True by done. f_equal.
    destruct (decide (es = [])) as [->|]; auto.
  - eapply Forall_impl; [exact H|]. by intros e [_ ?].
Qed.

Lemma HasPrefix_spec s p : HasPrefix s p = true ↔ ∃ t, s = p +:+ t.
Proof.
  revert s. induction p as [|a p IH]; intros s; simpl; [split; [eauto|done]|].
  destruct s as [|b s]; [split; [done|by intros [t ?]]|]. case_decide as Ha; subst.
  - rewrite IH. split; intros [t Ht]; exists t; [by rewrite Ht|]. by injection Ht.
  - split; [done|]. intros [t Ht]. injection Ht as <- _. done.
Qed.

Lemma split_app c s t : split c (s +:+ String c t) = split c s ++ split c t.
Proof.
  induction s as [|a s IH]; simpl; [by rewrite decide_True|]. rewrite IH. case_decide; [done|].
  pose proof (split_not_nil c s). by destruct (split c s).
Qed.

(** ** Absolute paths *)

Definition plain (e : string) : Prop := ordinary e ∧ without slash e.
Lemma plain_ordinary es : Forall plain es → Forall ordinary es.
Proof. intros H. eapply Forall_impl; [exact H|]. by intros e []. Qed.

(** The clean absolute path of a list of elements. *)
Definition abs_path (es : list string) : string := String slash (join slash es).

Lemma split_abs es : Forall plain es → split slash (abs_path es) = "" :: (if decide (es = []) then [""] else es).
Proof.
  intros H. change (split slash (abs_path es)) with ("" :: split slash (join slash es)). f_equal.
  case_decide as He; [by subst|]. apply split_join; [done|]. eapply Forall_impl; [exact H|]. by intros e [].
Qed.

Lemma clean_fold rooted es kept : Forall plain es → foldl (clean_step rooted) kept es = reverse es ++ kept.
Proof.
  intros H. revert kept. induction H as [|e es [He _] Hes IH]; intros kept; simpl; [done|].
  rewrite clean_step_ordinary by done. by rewrite IH, reverse_cons, <-app_assoc.
Qed.

Lemma clean_split_abs es : Forall plain es → foldl (clean_step true) [] (split slash (abs_path es)) = reverse es.
Proof.
  intros H. rewrite split_abs by done. case_decide as He; [by subst|].
  change (foldl (clean_step true) [] es = reverse es). by rewrite (clean_fold true es []), app_nil_r.
Qed.

Lemma Clean_abs es : Forall plain es → Clean (abs_path es) = abs_path es.
Proof.
  intros H. unfold Clean. change (HasPrefix (abs_path es) "/") with true. cbv zeta. unfold clean_elems.
  rewrite clean_split_abs by done. by rewrite reverse_involutive.
Qed.

Lemma elements_abs es : Forall plain es → elements (abs_path es) = es.
Proof.
  intros H. unfold elements. rewrite split_abs by done. rewrite filter_cons_False by auto.
  case_decide as He; [by subst|]. induction H as [|e es [(He0 & _) _] _ IH]; [done|].
  rewrite filter_cons_True by done. f_equal. destruct (decide (es = [])) as [->|]; auto.
Qed.

Lemma join_inj es es' : Forall plain es → Forall plain es' → join slash es = join slash es' → es = es'.
Proof. intros H H' E. by rewrite <-(elements_join es H), <-(elements_join es' H'), E. Qed.

(** Joining a path of plain elements below an absolute one. *)
Lemma Join_abs es rs : Forall plain es → Forall plain rs → rs ≠ [] →
  Join (abs_path es) (join slash rs) = abs_path (es ++ rs).
Proof.
  intros H Hr Hn. unfold Join. rewrite decide_True by done.
  change (abs_path es +:+ "/" +:+ join slash rs) with (abs_path es +:+ String slash (join slash rs)).
  unfold Clean. change (HasPrefix (abs_path es +:+ _) "/") with true. cbv zeta.
  unfold clean_elems. rewrite split_app, foldl_app, clean_split_abs by done.
  rewrite split_join; [|done|eapply Forall_impl; [exact Hr|]; by intros e []].
  by rewrite clean_fold, reverse_app, !reverse_involutive.
Qed.

Lemma strip_common_spec bs ts b t : strip_common bs ts = (b, t) →
  ∃ p, bs = p ++ b ∧ ts = p ++ t ∧ (b = [] ∨ t = [] ∨ head b ≠ head t).
Proof.
  revert ts. induction bs as [|x bs IH]; intros ts; simpl; [intros [= <- <-]; by exists []; eauto|].
  destruct ts as [|y ts]; [intros [= <- <-]; exists []; eauto|]. case_decide as Hxy.
  - subst y. intros (p & -> & -> & H)%IH. by exists (x :: p).
  - intros [= <- <-]. exists []. split_and!; [done..|]. right. right. simpl. congruence.
Qed.

(** A relative path starts with [..] when its first element is. *)
Lemma join_dotdot es : Forall plain es → join slash es ≠ ".." ∧ HasPrefix (join slash es) "../" = false.
Proof.
  intros H. split.
  - intros E. apply (f_equal elements) in E. rewrite elements_join in E by done. subst es.
    apply Forall_cons in H as [((_ & _ & Hd) & _) _]. by apply Hd.
  - destruct (HasPrefix _ _) eqn:E; [|done]. exfalso. apply HasPrefix_spec in E as [t E].
    apply (f_equal elements) in E. rewrite elements_join in E by done.
    change ("../" +:+ t) with (".." +:+ String slash t) in E. unfold elements in E. rewrite split_app in E. simpl in E.
    rewrite filter_cons_True in E by done. subst es. apply Forall_cons in H as [((_ & _ & Hd) & _) _]. by apply Hd.
Qed.

(** [filepath.Rel] of absolute paths stays below the base exactly when the base's elements are a prefix. *)
Lemma Rel_within bs ts : Forall plain bs → Forall plain ts →
  match Rel (abs_path bs) (abs_path ts) with
  | None => False
  | Some r => (r ≠ ".." ∧ HasPrefix r "../" = false) ↔ bs `prefix_of` ts
  end.
Proof.
  intros Hb Ht. unfold Rel. rewrite !Clean_abs by done. case_decide as Heq.
  - assert (ts = bs) as -> by by rewrite <-(elements_abs ts), <-(elements_abs bs), Heq. split; [by exists []; rewrite app_nil_r|done].
  - rewrite decide_False by done. change (HasPrefix (abs_path bs) "/") with true. change (HasPrefix (abs_path ts) "/") with true.
    cbn [Bool.eqb negb]. rewrite !elements_abs by done.
    destruct (strip_common bs ts) as [b t] eqn:E. apply strip_common_spec in E as (p & -> & -> & Hd).
    apply Forall_app in Hb as [_ Hb], Ht as [_ Ht]. destruct b as [|x b].
    + split; [intros _; rewrite app_nil_r; by exists t|]. intros _. by apply join_dotdot.
    + apply Forall_cons in Hb as [((_ & _ & Hx) & _) _].
      assert (¬ p ++ x :: b `prefix_of` p ++ t) as Hnp.
      { intros [k Hk]. rewrite <-app_assoc in Hk. apply app_inv_head in Hk. subst t. destruct Hd as [|[|Hd]]; done. }
      assert (match (".." :: ((λ _, "..") <$> b)) ++ t with l => join slash l = ".." ∨ HasPrefix (join slash l) "../" = true end) as Hres.
      { destruct (((λ _, "..") <$> b) ++ t) as [|y l] eqn:El; cbn [app]; rewrite El; [by left|]. right.
        rewrite join_cons by done. apply HasPrefix_spec. by eexists. }
      assert (join slash (((λ _, "..") <$> x :: b) ++ t) = ".." ∨ HasPrefix (join slash (((λ _, "..") <$> x :: b) ++ t)) "../" = true)
        as Hres' by exact Hres. clear Hres.
      destruct (decide (x = "..")) as [|Hne]; [done|].
      assert (∀ A (u v : A), match x with ".." => u | _ => v end = v) as ->.
      { intros A u v. clear -Hne. repeat case_match; try done; subst; done. }
      split; [|done]. intros [H1 H2]. destruct Hres' as [Hr|Hr]; [done|congruence].
Qed.
