(* ===== verification/WorkflowRun.v ===== *)
(** workflowkit data model: [src/workflowkit/run.go], [errors.go] and
[retry.go] (the error classes and the backoff). *)

From S2P Require Import Prelude.

(** * Statuses ([type Status string]) *)

Definition Status := string.
Definition StatusPending : Status := "pending".
Definition StatusRunning : Status := "running".
Definition StatusWaitingApproval : Status := "waiting_approval".
Definition StatusSucceeded : Status := "succeeded".
Definition StatusFailed : Status := "failed".
Definition StatusCancelled : Status := "cancelled".

(** [Status.IsValid]. *)
Definition IsValid (s : Status) : bool :=
  bool_decide (s ∈ [StatusPending; StatusRunning; StatusWaitingApproval;
                    StatusSucceeded; StatusFailed; StatusCancelled]).

(** * Runs and step records *)

Record StepRecord := mkStepRecord {
  sr_Name : string;
  sr_Status : Status;
  sr_Attempt : Z;
  sr_OutputRef : string;
  sr_AgentRunID : string;
  sr_AuditRef : string;
  sr_Error : string;
  sr_ApprovalRef : string;
  sr_WaitingReason : string;
  sr_StartedAt : Time;
  sr_EndedAt : Time;
  sr_Metadata : Metadata
}.
#[global] Instance eta_StepRecord : Eta StepRecord := λ r,
  mkStepRecord (sr_Name r) (sr_Status r) (sr_Attempt r) (sr_OutputRef r)
    (sr_AgentRunID r) (sr_AuditRef r) (sr_Error r) (sr_ApprovalRef r)
    (sr_WaitingReason r) (sr_StartedAt r) (sr_EndedAt r) (sr_Metadata r).

Record WorkflowRun := mkRun {
  ID : string;
  RunStatus : Status;
  InputRef : string;
  OutputRef : string;
  AgentRunID : string;
  AuditRef : string;
  RunError : string;
  ApprovalRef : string;
  WaitingReason : string;
  CurrentStep : string;
  CompletedSteps : list string;
  StepAttempts : GoMap Z;
  StepRecords : list StepRecord;
  StepRetries : Z;
  NextAttemptAt : Time;
  RunMetadata : Metadata;
  LeaseOwner : string;
  LeaseUntil : Time;
  CreatedAt : Time;
  UpdatedAt : Time
}.
#[global] Instance eta_WorkflowRun : Eta WorkflowRun := λ r,
  mkRun (ID r) (RunStatus r) (InputRef r) (OutputRef r) (AgentRunID r)
    (AuditRef r) (RunError r) (ApprovalRef r) (WaitingReason r) (CurrentStep r)
    (CompletedSteps r) (StepAttempts r) (StepRecords r) (StepRetries r)
    (NextAttemptAt r) (RunMetadata r) (LeaseOwner r) (LeaseUntil r)
    (CreatedAt r) (UpdatedAt r).

(** The zero value [WorkflowRun{}]. *)
Definition zeroRun : WorkflowRun :=
  mkRun "" "" "" "" "" "" "" "" "" "" [] ∅ [] 0 0 ∅ "" 0 0 0.

(** [WorkflowRun{ID: id, Status: status}]. *)
Definition newRun (id : string) (status : Status) : WorkflowRun :=
  zeroRun <| ID := id |> <| RunStatus := status |>.

(** * Clones *)

Definition cloneMetadata (m : Metadata) : Metadata := map_clone m.
Definition cloneStepAttempts (m : GoMap Z) : GoMap Z := map_clone m.

Definition cloneStepRecords (records : list StepRecord) : list StepRecord :=
  (λ r, r <| sr_Metadata := cloneMetadata (sr_Metadata r) |>) <$> records.

Definition cloneRun (run : WorkflowRun) : WorkflowRun :=
  run <| StepAttempts := cloneStepAttempts (StepAttempts run) |>
      <| StepRecords := cloneStepRecords (StepRecords run) |>
      <| RunMetadata := cloneMetadata (RunMetadata run) |>.

(** A clone has the value of its original: what a clone changes is only what
later writes through the original's maps and slices can reach. *)
Lemma cloneRun_id run : cloneRun run = run.
Proof.
  destruct run as [???????????? records ???????]. unfold cloneRun; simpl.
  unfold cloneStepAttempts, cloneMetadata. rewrite !map_clone_id.
  f_equal. unfold cloneStepRecords.
  induction records as [|r records IH]; [done|].
  rewrite fmap_cons, IH. f_equal. destruct r; unfold cloneMetadata; simpl.
  by rewrite map_clone_id.
Qed.
#[export] Hint Rewrite cloneRun_id : go.

(** * Errors

The sentinels and error types of the package ([TransientErrorNil] is
[TransientError{Err: nil}]), the wrappers the code uses, and [ErrOther] for an error value of any other type, known by its text. *)
Inductive Error :=
| ErrRunNotFound
| ErrNoRunnableWorkflow
| ErrWorkflowLeaseNotOwned
| ErrRunPreempted (id : string) (status : Status) (owner : string)
| InvalidTransitionError (From To : Status) (Op : string)
| InvalidStatusError (st : Status) (Field : string)
| TransientError (inner : Error)
| TransientErrorNil
| ErrCtx (e : CtxErr)
| ErrOther (text : string)
| ErrWrap (prefix : string) (inner : Error)
| ErrJoin (left right : Error).

Abbreviation result := (res Error).

(** [runPreemptedError]. *)
Definition runPreemptedError (current : WorkflowRun) : Error :=
  ErrRunPreempted (ID current) (RunStatus current) (LeaseOwner current).

(** [errors.Is(err, target)] for a target recognised by [p] on each error of the
unwrap tree. *)
Fixpoint errors_tree (p : Error → bool) (err : Error) : bool :=
  p err ||
  match err with
  | TransientError e | ErrWrap _ e => errors_tree p e
  | ErrJoin a b => errors_tree p a || errors_tree p b
  | _ => false
  end.

Definition isRunNotFound : Error → bool :=
  errors_tree (λ e, match e with ErrRunNotFound => true | _ => false end).
Definition isRunPreempted : Error → bool :=
  errors_tree (λ e, match e with ErrRunPreempted _ _ _ => true | _ => false end).
Definition isInvalidStatus : Error → bool :=
  errors_tree (λ e, match e with InvalidStatusError _ _ => true | _ => false end).
(** [IsTransient]: [errors.As] finds a [TransientError]. *)
Definition IsTransient : Error → bool :=
  errors_tree (λ e, match e with TransientError _ | TransientErrorNil => true | _ => false end).

Section error_text.
(** [strconv.Quote], the [%q] verb. *)
Context (quote : string → string).

Definition ctxErrText (e : CtxErr) : string :=
  match e with
  | Canceled => "context canceled"
  | DeadlineExceeded => "context deadline exceeded"
  end.

(** The [Error()] methods. *)
Fixpoint errText (err : Error) : string :=
  match err with
  | ErrRunNotFound => "workflow run not found"
  | ErrNoRunnableWorkflow => "no runnable workflow"
  | ErrWorkflowLeaseNotOwned => "workflow lease not owned"
  | ErrRunPreempted id status owner =>
      "workflow run preempted: workflow " +:+ id +:+ " is " +:+ status +:+
      " with lease owner " +:+ quote owner
  | InvalidTransitionError from to op =>
      "invalid workflow status transition: " +:+ op +:+
      " cannot transition from " +:+ quote from +:+ " to " +:+ quote to
  | InvalidStatusError st field =>
      "invalid workflow status: " +:+ field +:+ " has unsupported status " +:+
      quote st
  | TransientErrorNil => "transient error"
  | TransientError e => errText e
  | ErrCtx e => ctxErrText e
  | ErrOther text => text
  | ErrWrap prefix e => prefix +:+ errText e
  | ErrJoin a b => errText a +:+ String "010" EmptyString +:+ errText b
  end.
End error_text.

(** * Retry policy *)

Record RetryPolicy := mkRetryPolicy {
  MaxAttempts : Z;
  BaseDelay : Duration;
  MaxDelay : Duration
}.

(** The ceiling of the backoff: [MaxDelay], or 32 times the base delay when
[MaxDelay] is smaller than the base. *)
Definition backoff_ceiling (p : RetryPolicy) : Duration :=
  if decide (MaxDelay p < BaseDelay p)%Z then wrap64 (32 * BaseDelay p)
  else MaxDelay p.

(** [for i := 1; i < retry && delay < ceiling; i++ { delay *= 2 }], with
[n = retry - i] turns left at most. *)
Fixpoint double_until (n : nat) (delay ceiling : Duration) : Duration :=
  match n with
  | O => delay
  | S n =>
      if decide (delay < ceiling)%Z then double_until n (wrap64 (delay * 2)) ceiling
      else delay
  end.

(** [RetryPolicy.Backoff]. [draw n] is [rand.N(n)], which panics for [n <= 0]:
the panic is [None]. *)
Definition Backoff (draw : Z → Z) (p : RetryPolicy) (retry : Z) : option Duration :=
  if decide (BaseDelay p ≤ 0 ∨ retry ≤ 0)%Z then Some 0%Z
  else
    let ceiling := backoff_ceiling p in
    let delay := double_until (Z.to_nat (retry - 1)) (BaseDelay p) ceiling in
    let n := wrap64 (Z.min delay ceiling + 1) in
    if decide (0 < n)%Z then Some (draw n) else None.

(** [draw] is a correct [rand.N]: in [[0, n)] for a positive [n]. *)
Definition rand_ok (draw : Z → Z) : Prop := ∀ n, (0 < n)%Z → (0 ≤ draw n < n)%Z.

(** No overflow: base delays and caps below 2^57 ns (about four years). *)
Definition policy_bounded (p : RetryPolicy) : Prop :=
  (BaseDelay p < 2^57 ∧ MaxDelay p < 2^57)%Z.

Lemma double_until_spec n delay ceiling :
  (0 < delay)%Z → (ceiling < 2^62)%Z →
  Z.min (double_until n delay ceiling) ceiling =
  Z.min (delay * 2 ^ Z.of_nat n) ceiling.
Proof.
  revert delay. induction n as [|n IH]; intros delay H0 Hc; simpl double_until.
  { rewrite Z.mul_1_r. done. }
  assert (1 ≤ 2 ^ Z.of_nat n)%Z as Hp by (apply Z.lt_pred_le, Z.pow_pos_nonneg; lia).
  rewrite Nat2Z.inj_succ, Z.pow_succ_r by lia. case_decide as Hlt.
  - rewrite wrap64_id by (unfold min_int64, max_int64; lia).
    rewrite IH by lia. f_equal. ring.
  - assert (delay ≤ delay * (2 * 2 ^ Z.of_nat n))%Z by nia.
    rewrite !Z.min_r; lia.
Qed.

Lemma double_until_range n delay ceiling :
  (0 < delay)%Z → (ceiling < 2^62)%Z →
  (0 < double_until n delay ceiling)%Z.
Proof.
  revert delay. induction n as [|n IH]; intros delay H0 Hc; simpl; [done|].
  case_decide; [|done].
  rewrite wrap64_id by (unfold min_int64, max_int64; lia). apply IH; lia.
Qed.

Lemma backoff_ceiling_bounds p :
  policy_bounded p → (0 < BaseDelay p)%Z →
  (BaseDelay p ≤ backoff_ceiling p < 2^62)%Z.
Proof.
  unfold policy_bounded, backoff_ceiling. intros [Hb Hm] H0. case_decide; [|lia].
  rewrite wrap64_id; unfold min_int64, max_int64; lia.
Qed.

Lemma Backoff_draw draw p retry :
  policy_bounded p → (0 < BaseDelay p)%Z → (0 < retry)%Z →
  Backoff draw p retry =
  Some (draw (Z.min (BaseDelay p * 2 ^ (retry - 1)) (backoff_ceiling p) + 1)%Z).
Proof.
  intros Hb H0 Hr. pose proof (backoff_ceiling_bounds p Hb H0) as Hc.
  unfold Backoff. rewrite decide_False by lia. cbv zeta.
  rewrite double_until_spec by lia.
  rewrite Z2Nat.id by lia.
  assert (0 < 2 ^ (retry - 1))%Z by (apply Z.pow_pos_nonneg; lia).
  assert (0 < BaseDelay p * 2 ^ (retry - 1))%Z by nia.
  rewrite wrap64_id by (unfold min_int64, max_int64; lia).
  by rewrite decide_True by lia.
Qed.

(** Backoff is full jitter under an exponential ceiling: for a positive base
delay and retry number n, the delay is between 0 and
[min (BaseDelay * 2^(n-1)) ceiling], where the ceiling is MaxDelay, or 32 base
delays when MaxDelay is below the base; no arithmetic overflows for delays below
2^57 ns. Without a positive base or retry the delay is 0. *)
Theorem Backoff_bounds draw p retry :
  policy_bounded p → rand_ok draw →
  ∃ delay, Backoff draw p retry = Some delay ∧ (0 ≤ delay)%Z ∧
    (((BaseDelay p ≤ 0 ∨ retry ≤ 0)%Z ∧ delay = 0%Z) ∨
     ((0 < BaseDelay p)%Z ∧ (0 < retry)%Z ∧
      (delay ≤ BaseDelay p * 2 ^ (retry - 1))%Z ∧
      (delay ≤ if decide (MaxDelay p < BaseDelay p)%Z then 32 * BaseDelay p
               else MaxDelay p)%Z)).
Proof.
  intros Hb Hd. destruct (decide (BaseDelay p ≤ 0 ∨ retry ≤ 0)%Z) as [Hz|Hn].
  { exists 0%Z. unfold Backoff. rewrite decide_True by done. by split_and!; [| |left]. }
  pose proof (backoff_ceiling_bounds p Hb ltac:(lia)) as Hc.
  assert (backoff_ceiling p = if decide (MaxDelay p < BaseDelay p)%Z then 32 * BaseDelay p
    else MaxDelay p)%Z as <-.
  { unfold backoff_ceiling. case_decide; [|done]. unfold policy_bounded in Hb.
    apply wrap64_id. unfold min_int64, max_int64. lia. }
  assert (0 < 2 ^ (retry - 1))%Z by (apply Z.pow_pos_nonneg; lia).
  assert (0 < BaseDelay p * 2 ^ (retry - 1))%Z by nia.
  rewrite Backoff_draw by (done || lia). eexists; split; [done|].
  pose proof (Hd (Z.min (BaseDelay p * 2 ^ (retry - 1)) (backoff_ceiling p) + 1)%Z ltac:(lia)).
  lia.
Qed.

Lemma Backoff_bounds_witness :
  ∃ delay, Backoff (λ n, n - 1)%Z (mkRetryPolicy 5 100 250) 3 = Some delay ∧ (delay ≤ 250)%Z.
Proof.
  destruct (Backoff_bounds (λ n, n - 1)%Z (mkRetryPolicy 5 100 250) 3)
    as (delay & Heq & _ & [[H _]|(_ & _ & _ & H)]); [done|intros n; lia|simpl in H; lia|].
  by exists delay.
Defined.
