(* ===== verification/WorkflowStore.v ===== *)
(** The in-memory workflow store and queue: [src/workflowkit/store.go].

The state of a [MemoryStore] is its map of runs. Every operation holds the
store's mutex from its first access to [s.runs] to its return, so an operation
is one function of that map; [now] is what [s.now()] returns in it. The class
[StoreOps] is the Go interface [Store]; [StoreLaws] is what its clients rely
on. *)

From S2P Require Import Prelude WorkflowRun.

Abbreviation Runs := (gmap string WorkflowRun).

(** * The [Store] interface *)

(** [Save], [Get] and [Update] on a store of type [St]. [so_update] also
returns the run its callback saw, if it was called: the callbacks of the
executor record it in the variable [observed]. *)
Class StoreOps (St : Type) := {
  so_save : Ctx → Time → Time → St → WorkflowRun → St * result unit;
  so_get : Ctx → St → string → result WorkflowRun;
  so_update : Ctx → Time → St → string → (WorkflowRun → result WorkflowRun) →
    St * option WorkflowRun * result WorkflowRun
}.

(** What [Save] stores: the creation time is kept or set, the update time is
set. *)
Definition save_stamp (now0 now1 : Time) (run : WorkflowRun) : WorkflowRun :=
  let run := if decide (IsZero (CreatedAt run)) then run <| CreatedAt := now0 |> else run in
  run <| UpdatedAt := now1 |>.

(** What [Update] stores when the callback returned [updated]. *)
Definition update_stamp (now : Time) (current updated : WorkflowRun) : WorkflowRun :=
  let updated := if decide (IsZero (CreatedAt updated))
                 then updated <| CreatedAt := CreatedAt current |> else updated in
  updated <| UpdatedAt := now |>.

(** The outcome of [Update] on a map of runs, when the callback returns a run
with the given ID. *)
Definition update_outcome (ctx : Ctx) (now : Time) (runs : Runs) (id : string)
    (mutate : WorkflowRun → result WorkflowRun)
    : Runs * option WorkflowRun * result WorkflowRun :=
  match ctx, runs !! id with
  | Some e, _ => (runs, None, Err (ErrCtx e))
  | None, None => (runs, None, Err ErrRunNotFound)
  | None, Some current =>
      match mutate current with
      | Err e => (runs, Some current, Err e)
      | Ok updated =>
          let stored := update_stamp now current updated in
          (<[id := stored]> runs, Some current, Ok stored)
      end
  end.

Class StoreLaws (St : Type) `{StoreOps St} := {
  view : St → Runs;
  save_law ctx now0 now1 s run :
    let '(s', r) := so_save ctx now0 now1 s run in
    match ctx with
    | Some e => s' = s ∧ r = Err (ErrCtx e)
    | None => view s' = <[ID run := save_stamp now0 now1 run]> (view s) ∧ r = Ok tt
    end;
  update_law ctx now s id mutate :
    (∀ current u, mutate current = Ok u → ID u = id ∨ ID u = ID current) →
    let '(s', seen, r) := so_update ctx now s id mutate in
    (view s', seen, r) = update_outcome ctx now (view s) id mutate
}.

(** * Queries *)

Inductive WorkflowOrder := OrderDefault | WorkflowOrderAsc | WorkflowOrderDesc
  | OrderOther (s : string).

(** [WorkflowOrder.IsValid]. *)
Definition order_IsValid (o : WorkflowOrder) : bool :=
  match o with OrderOther _ => false | _ => true end.

Definition order_text (o : WorkflowOrder) : string :=
  match o with
  | OrderDefault => "" | WorkflowOrderAsc => "asc" | WorkflowOrderDesc => "desc"
  | OrderOther s => s
  end.

Record WorkflowQuery := mkQuery {
  q_Status : Status;
  q_MetadataEquals : GoMap string;
  q_Order : WorkflowOrder;
  q_Limit : Z
}.

Module MemoryStore.

(** [NewMemoryStore]. *)
Definition New : Runs := ∅.

Definition Save (ctx : Ctx) (now0 now1 : Time) (s : Runs) (run : WorkflowRun)
    : Runs * result unit :=
  match ctx with
  | Some e => (s, Err (ErrCtx e))
  | None =>
      let run := if decide (IsZero (CreatedAt run))
                 then run <| CreatedAt := now0 |> else run in
      let run := run <| UpdatedAt := now1 |> in
      (<[ID run := cloneRun run]> s, Ok tt)
  end.

Definition Get (ctx : Ctx) (s : Runs) (id : string) : result WorkflowRun :=
  match ctx with
  | Some e => Err (ErrCtx e)
  | None =>
      match s !! id with
      | None => Err ErrRunNotFound
      | Some run => Ok (cloneRun run)
      end
  end.

Definition Update (ctx : Ctx) (now : Time) (s : Runs) (id : string)
    (mutate : WorkflowRun → result WorkflowRun)
    : Runs * option WorkflowRun * result WorkflowRun :=
  match ctx with
  | Some e => (s, None, Err (ErrCtx e))
  | None =>
      match s !! id with
      | None => (s, None, Err ErrRunNotFound)
      | Some current =>
          match mutate (cloneRun current) with
          | Err e => (s, Some (cloneRun current), Err e)
          | Ok updated =>
              let updated := if decide (IsZero (CreatedAt updated))
                             then updated <| CreatedAt := CreatedAt current |>
                             else updated in
              let updated := updated <| UpdatedAt := now |> in
              (<[id := cloneRun updated]> s, Some (cloneRun current),
               Ok (cloneRun updated))
          end
      end
  end.

Section query.
(** [fmt.Sprint] of a metadata value. *)
Context (Sprint : Any → string).

(** [for key, want := range equals]: every wanted key is present with that
text. *)
Definition workflowMetadataMatches (run : WorkflowRun) (equals : GoMap string) : bool :=
  forallb (λ kw, match RunMetadata run !! kw.1 with
                 | None => false
                 | Some got => bool_decide (Sprint got = kw.2)
                 end) (map_to_list equals).

Definition created_key (run : WorkflowRun) : Time * string := (CreatedAt run, ID run).

(** The [less] function of [ListWorkflows]. *)
Definition list_less (order : WorkflowOrder) (l r : WorkflowRun) : Prop :=
  match order with
  | WorkflowOrderDesc => time_id_lt (created_key r) (created_key l)
  | _ => time_id_lt (created_key l) (created_key r)
  end.
#[global] Instance list_less_dec order l r : Decision (list_less order l r).
Proof. destruct order; apply _. Defined.

Definition list_matches (query : WorkflowQuery) (run : WorkflowRun) : Prop :=
  (q_Status query = "" ∨ RunStatus run = q_Status query) ∧
  workflowMetadataMatches run (q_MetadataEquals query) = true.
#[global] Instance list_matches_dec query run : Decision (list_matches query run).
Proof. unfold list_matches. apply _. Defined.

Definition ListWorkflows (ctx : Ctx) (s : Runs) (query : WorkflowQuery)
    : result (list WorkflowRun) :=
  match ctx with
  | Some e => Err (ErrCtx e)
  | None =>
      if decide (q_Status query ≠ "" ∧ IsValid (q_Status query) = false)
      then Err (ErrOther ("invalid workflow status: " +:+ q_Status query))
      else if decide (order_IsValid (q_Order query) = false)
      then Err (ErrOther ("invalid workflow order: " +:+ order_text (q_Order query)))
      else
        let runs := cloneRun <$> filter (list_matches query) (map_to_list s).*2 in
        let runs := sort_slice (list_less (q_Order query)) runs in
        Ok (if decide (0 < q_Limit query ∧ q_Limit query < Z.of_nat (length runs))%Z
            then take (Z.to_nat (q_Limit query)) runs else runs)
  end.
End query.

(** * The queue *)

(** The two [continue] guards of [ClaimRunnable], negated. *)
Definition claimable (now : Time) (run : WorkflowRun) : Prop :=
  ¬ (RunStatus run ≠ StatusPending ∨ After (NextAttemptAt run) now) ∧
  ¬ (LeaseOwner run ≠ "" ∧ After (LeaseUntil run) now).
#[global] Instance claimable_dec now run : Decision (claimable now run).
Proof. unfold claimable. apply _. Defined.

(** The order of the claim loop: creation time, then the ID of the run. *)
Definition claim_less : string * WorkflowRun → string * WorkflowRun → Prop :=
  key_less time_id_lt (λ p, created_key p.2).

(** [for _, id := range ids]: the first claimable run. *)
Fixpoint first_claimable (now : Time) (ids : list (string * WorkflowRun))
    : option (string * WorkflowRun) :=
  match ids with
  | [] => None
  | (id, run) :: ids =>
      if decide (RunStatus run ≠ StatusPending ∨ After (NextAttemptAt run) now)
      then first_claimable now ids
      else if decide (LeaseOwner run ≠ "" ∧ After (LeaseUntil run) now)
      then first_claimable now ids
      else Some (id, run)
  end.

Definition ClaimRunnable (ctx : Ctx) (now : Time) (s : Runs) (workerID : string)
    (lease : Duration) : Runs * result WorkflowRun :=
  match ctx with
  | Some e => (s, Err (ErrCtx e))
  | None =>
      if decide (workerID = "") then (s, Err (ErrOther "worker id is required"))
      else if decide (lease ≤ 0)%Z
      then (s, Err (ErrOther "lease must be greater than zero"))
      else
        match first_claimable now (sort_slice claim_less (map_to_list s)) with
        | None => (s, Err ErrNoRunnableWorkflow)
        | Some (id, run) =>
            let run := run <| LeaseOwner := workerID |>
                           <| LeaseUntil := TimeAdd now lease |>
                           <| UpdatedAt := now |> in
            (<[id := cloneRun run]> s, Ok (cloneRun run))
        end
  end.

Definition ExtendLease (ctx : Ctx) (now : Time) (s : Runs) (id workerID : string)
    (lease : Duration) : Runs * result WorkflowRun :=
  match ctx with
  | Some e => (s, Err (ErrCtx e))
  | None =>
      if decide (id = "") then (s, Err (ErrOther "workflow id is required"))
      else if decide (workerID = "") then (s, Err (ErrOther "worker id is required"))
      else if decide (lease ≤ 0)%Z
      then (s, Err (ErrOther "lease must be greater than zero"))
      else
        match s !! id with
        | None => (s, Err ErrRunNotFound)
        | Some run =>
            if decide (LeaseOwner run ≠ workerID ∨ IsZero (LeaseUntil run) ∨
                       ¬ After (LeaseUntil run) now)
            then (s, Err ErrWorkflowLeaseNotOwned)
            else
              let run := run <| LeaseUntil := TimeAdd now lease |>
                             <| UpdatedAt := now |> in
              (<[id := cloneRun run]> s, Ok (cloneRun run))
        end
  end.

Definition ReleaseLease (ctx : Ctx) (now : Time) (s : Runs) (id workerID : string)
    : Runs * result WorkflowRun :=
  match ctx with
  | Some e => (s, Err (ErrCtx e))
  | None =>
      if decide (id = "") then (s, Err (ErrOther "workflow id is required"))
      else if decide (workerID = "") then (s, Err (ErrOther "worker id is required"))
      else
        match s !! id with
        | None => (s, Err ErrRunNotFound)
        | Some run =>
            if decide (LeaseOwner run ≠ workerID)
            then (s, Err ErrWorkflowLeaseNotOwned)
            else
              let run := run <| LeaseOwner := "" |> <| LeaseUntil := 0%Z |>
                             <| UpdatedAt := now |> in
              (<[id := cloneRun run]> s, Ok (cloneRun run))
        end
  end.

(** Runs [FailExpiredRunning] fails. *)
Definition expired_running (now : Time) (run : WorkflowRun) : Prop :=
  ¬ (RunStatus run ≠ StatusRunning ∨ LeaseOwner run = "" ∨ After (LeaseUntil run) now).
#[global] Instance expired_running_dec now run : Decision (expired_running now run).
Proof. unfold expired_running. apply _. Defined.

(** What it writes to such a run. *)
Definition fail_expired (now : Time) (reason : string) (run : WorkflowRun) : WorkflowRun :=
  run <| RunStatus := StatusFailed |> <| RunError := reason |>
      <| LeaseOwner := "" |> <| LeaseUntil := 0%Z |> <| UpdatedAt := now |>.

Definition FailExpiredRunning (ctx : Ctx) (now : Time) (s : Runs) (reason : string)
    : Runs * result (list WorkflowRun) :=
  match ctx with
  | Some e => (s, Err (ErrCtx e))
  | None =>
      let s' := (λ run, if decide (expired_running now run)
                        then cloneRun (fail_expired now reason run) else run) <$> s in
      let failed := (λ run, cloneRun (fail_expired now reason run)) <$>
                    filter (expired_running now) (map_to_list s).*2 in
      (s', Ok (sort_slice (key_less str_lt ID) failed))
  end.

(** * Queue operations as steps *)

Inductive queue_op :=
| OpClaim (workerID : string) (lease : Duration)
| OpExtend (id workerID : string) (lease : Duration)
| OpRelease (id workerID : string)
| OpFailExpired (reason : string).

(** The worker an operation acts for. *)
Definition op_worker (op : queue_op) : option string :=
  match op with
  | OpClaim w _ | OpExtend _ w _ | OpRelease _ w => Some w
  | OpFailExpired _ => None
  end.

Definition queue_exec (ctx : Ctx) (now : Time) (s : Runs) (op : queue_op)
    : Runs * list WorkflowRun :=
  let one (p : Runs * result WorkflowRun) :=
    (p.1, match p.2 with Ok r => [r] | Err _ => [] end) in
  match op with
  | OpClaim w lease => one (ClaimRunnable ctx now s w lease)
  | OpExtend id w lease => one (ExtendLease ctx now s id w lease)
  | OpRelease id w => one (ReleaseLease ctx now s id w)
  | OpFailExpired reason =>
      let p := FailExpiredRunning ctx now s reason in
      (p.1, match p.2 with Ok rs => rs | Err _ => [] end)
  end.

(** A history of queue operations, and the runs they returned. *)
Fixpoint queue_history (s : Runs) (ops : list (Ctx * Time * queue_op))
    : Runs * list WorkflowRun :=
  match ops with
  | [] => (s, [])
  | (ctx, now, op) :: ops =>
      let '(s1, out1) := queue_exec ctx now s op in
      let '(s2, out2) := queue_history s1 ops in
      (s2, out1 ++ out2)
  end.

(** Every run is stored under its own ID. *)
Definition wf (s : Runs) : Prop := map_Forall (λ id run, ID run = id) s.

(** * Lemmas *)

Lemma wf_insert s id run : wf s → ID run = id → wf (<[id := run]> s).
Proof. intros Hwf Hid. by apply map_Forall_insert_2. Qed.

Lemma first_claimable_spec now l :
  first_claimable now l = head (filter (λ p, claimable now p.2) l).
Proof.
  induction l as [|[id run] l IH]; [done|]. cbn [first_claimable].
  destruct (decide (claimable now run)) as [Hc|Hc].
  - rewrite filter_cons_True by done. unfold claimable in Hc.
    by rewrite !decide_False by tauto.
  - rewrite filter_cons_False by done. unfold claimable in Hc.
    repeat case_decide; [done..|tauto].
Qed.

(** The candidate the claim loop selects: the claimable run that comes first. *)
Lemma claim_candidate now (s : Runs) id run :
  first_claimable now (sort_slice claim_less (map_to_list s)) = Some (id, run) →
  s !! id = Some run ∧ claimable now run ∧
  ∀ id' run', s !! id' = Some run' → claimable now run' →
    ¬ time_id_lt (created_key run') (created_key run).
Proof.
  rewrite first_claimable_spec. intros Hhd.
  pose proof (sort_key_sorted time_id_lt (λ p, created_key p.2) (map_to_list s)) as Hs.
  apply (StronglySorted_filter _ (λ p, claimable now p.2)) in Hs.
  fold claim_less in Hs.
  destruct (filter _ _) as [|[id0 run0] l] eqn:El; simplify_eq/=.
  assert (∀ p, p ∈ (id, run) :: l ↔ claimable now p.2 ∧ s !! p.1 = Some p.2) as Hin.
  { intros [i r]. rewrite <-El, list_elem_of_filter, elem_of_sort_slice,
      elem_of_map_to_list. done. }
  destruct (Hin (id, run)) as [[Hc Hl] _]; [left|].
  split_and!; [done|done|]. intros id' run' Hl' Hc'.
  assert ((id', run') ∈ (id, run) :: l) as Hel by by apply Hin.
  apply elem_of_cons in Hel as [[= -> ->]|Hel]; [apply st_irrefl|].
  apply StronglySorted_cons in Hs as [Hf _]. rewrite Forall_forall in Hf.
  apply (Hf _ Hel).
Qed.

Lemma claim_none now (s : Runs) :
  first_claimable now (sort_slice claim_less (map_to_list s)) = None ↔
  map_Forall (λ _ run, ¬ claimable now run) s.
Proof.
  rewrite first_claimable_spec, head_None, filter_nil_Forall, sort_slice_perm.
  rewrite map_Forall_to_list. apply Forall_iff. by intros [id run].
Qed.

(** The operations on the run they name: an update in place, or nothing. *)
Lemma Update_outcome ctx now s id mutate :
  Update ctx now s id mutate = update_outcome ctx now s id mutate.
Proof.
  unfold Update, update_outcome, update_stamp.
  destruct ctx, (s !! id) as [cur|]; try done. rewrite cloneRun_id.
  destruct (mutate cur); [|done]. by rewrite cloneRun_id.
Qed.

Lemma Save_insert ctx now0 now1 s run :
  Save ctx now0 now1 s run =
  match ctx with
  | Some e => (s, Err (ErrCtx e))
  | None => (<[ID run := save_stamp now0 now1 run]> s, Ok tt)
  end.
Proof.
  unfold Save, save_stamp. destruct ctx; [done|].
  rewrite cloneRun_id. case_decide; done.
Qed.

Lemma ClaimRunnable_cases ctx now s w lease s' r :
  ClaimRunnable ctx now s w lease = (s', r) →
  (s' = s ∧ ∃ e, r = Err e) ∨
  (w ≠ "" ∧ (0 < lease)%Z ∧ ∃ id old,
     let run := old <| LeaseOwner := w |> <| LeaseUntil := TimeAdd now lease |>
                    <| UpdatedAt := now |> in
     first_claimable now (sort_slice claim_less (map_to_list s)) = Some (id, old) ∧
     s' = <[id := run]> s ∧ r = Ok run).
Proof.
  unfold ClaimRunnable. intros H.
  destruct ctx; [left; naive_solver|]. do 2 (case_decide; [left; naive_solver|]).
  destruct (first_claimable _ _) as [[id old]|]; [right|left; naive_solver].
  rewrite !cloneRun_id in H. split_and!; [done|lia|]. naive_solver.
Qed.

Lemma ExtendLease_cases ctx now s id w lease s' r :
  ExtendLease ctx now s id w lease = (s', r) →
  (s' = s ∧ ∃ e, r = Err e) ∨
  (∃ old, let run := old <| LeaseUntil := TimeAdd now lease |> <| UpdatedAt := now |> in
     w ≠ "" ∧ (0 < lease)%Z ∧ s !! id = Some old ∧ LeaseOwner old = w ∧
     After (LeaseUntil old) now ∧ s' = <[id := run]> s ∧ r = Ok run).
Proof.
  unfold ExtendLease. intros H. destruct ctx; [left; naive_solver|].
  do 3 (case_decide; [left; naive_solver|]).
  destruct (s !! id) as [old|]; [|left; naive_solver].
  case_decide as Hg; [left; naive_solver|]. right. exists old.
  rewrite !cloneRun_id in H. apply Decidable.not_or in Hg as [Ho Hg].
  apply Decidable.not_or in Hg as [_ Hu]. apply dec_stable in Ho, Hu.
  split_and!; try done; [lia|naive_solver..].
Qed.

Lemma ReleaseLease_cases ctx now s id w s' r :
  ReleaseLease ctx now s id w = (s', r) →
  (s' = s ∧ ∃ e, r = Err e) ∨
  (∃ old, let run := old <| LeaseOwner := "" |> <| LeaseUntil := 0%Z |>
                         <| UpdatedAt := now |> in
     w ≠ "" ∧ s !! id = Some old ∧ LeaseOwner old = w ∧
     s' = <[id := run]> s ∧ r = Ok run).
Proof.
  unfold ReleaseLease. intros H. destruct ctx; [left; naive_solver|].
  do 2 (case_decide; [left; naive_solver|]).
  destruct (s !! id) as [old|]; [|left; naive_solver].
  case_decide as Hg; [left; naive_solver|]. right. exists old.
  rewrite !cloneRun_id in H. naive_solver.
Qed.

(** The runs recovery reports are the expired ones, failed. *)
Lemma elem_of_failed now (s : Runs) reason r :
  r ∈ sort_slice (key_less str_lt ID) ((λ run, cloneRun (fail_expired now reason run)) <$>
        filter (expired_running now) (map_to_list s).*2) ↔
  ∃ id run, s !! id = Some run ∧ expired_running now run ∧
    r = fail_expired now reason run.
Proof.
  rewrite elem_of_sort_slice, list_elem_of_fmap. setoid_rewrite list_elem_of_filter.
  setoid_rewrite list_elem_of_fmap. setoid_rewrite cloneRun_id. split.
  - intros (run & -> & Hex & [id ?] & -> & Hl%elem_of_map_to_list). eauto.
  - intros (id & run & Hl & Hex & ->). exists run. split_and!; [done..|].
    exists (id, run). by rewrite elem_of_map_to_list.
Qed.

(** Writing another run leaves the run at [id] alone. *)
Lemma insert_other (s : Runs) id id' old new run :
  wf s → s !! id = Some run → s !! id' = Some old → id' ≠ id → ID new = ID old →
  <[id' := new]> s !! id = Some run ∧ id ∉ ID <$> [new].
Proof.
  intros Hwf Hl Hl' Hne Hid. rewrite lookup_insert_ne by done. split; [done|].
  simpl. rewrite Hid, (map_Forall_lookup_1 _ _ _ _ Hwf Hl'). set_solver.
Qed.

(** A run under an unexpired lease of [w] is out of reach of every queue
operation of other workers and of recovery. *)
Lemma queue_exec_leased ctx now s op id run w :
  wf s → s !! id = Some run → LeaseOwner run = w → w ≠ "" →
  After (LeaseUntil run) now → op_worker op ≠ Some w →
  (queue_exec ctx now s op).1 !! id = Some run ∧
  id ∉ ID <$> (queue_exec ctx now s op).2.
Proof.
  intros Hwf Hl Hw Hne Huntil Hop.
  assert (id ∉ ID <$> ([] : list WorkflowRun)) as Hnil by set_solver.
  destruct op as [w' lease|id' w' lease|id' w'|reason]; simpl in *.
  - destruct (ClaimRunnable ctx now s w' lease) as [s' r] eqn:Hc.
    apply ClaimRunnable_cases in Hc as
      [[-> [e ->]]|(_ & _ & id0 & old & Hf & -> & ->)]; [done|].
    apply claim_candidate in Hf as (Hl0 & [_ Hn] & _).
    eapply insert_other; [done..| |done]. intros ->; simplify_eq; tauto.
  - destruct (ExtendLease ctx now s id' w' lease) as [s' r] eqn:Hc.
    apply ExtendLease_cases in Hc as [[-> [e ->]]|(old & ? & ? & Hl' & <- & ? & -> & ->)];
      [done|].
    eapply insert_other; [done..| |done]. intros ->; simplify_eq.
  - destruct (ReleaseLease ctx now s id' w') as [s' r] eqn:Hc.
    apply ReleaseLease_cases in Hc as [[-> [e ->]]|(old & ? & Hl' & <- & -> & ->)]; [done|].
    eapply insert_other; [done..| |done]. intros ->; simplify_eq.
  - unfold FailExpiredRunning. destruct ctx; simpl; [done|].
    rewrite lookup_fmap, Hl; simpl.
    rewrite decide_False by (unfold expired_running; tauto). split; [done|].
    intros (r & Hid & (id0 & r0 & Hl0 & Hex & ->)%elem_of_failed)%list_elem_of_fmap.
    simpl in Hid. rewrite (map_Forall_lookup_1 _ _ _ _ Hwf Hl0) in Hid. subst id0.
    simplify_eq. unfold expired_running in Hex. tauto.
Qed.

Lemma queue_exec_wf ctx now s op : wf s → wf (queue_exec ctx now s op).1.
Proof.
  intros Hwf. destruct op as [w' lease|id' w' lease|id' w'|reason]; simpl.
  - destruct (ClaimRunnable ctx now s w' lease) as [s' r] eqn:Hc.
    apply ClaimRunnable_cases in Hc as
      [[-> _]|(_ & _ & id0 & old & Hf & -> & ->)]; [done|].
    apply claim_candidate in Hf as (Hl0 & _).
    apply wf_insert; [done|]. apply (map_Forall_lookup_1 _ _ _ _ Hwf Hl0).
  - destruct (ExtendLease ctx now s id' w' lease) as [s' r] eqn:Hc.
    apply ExtendLease_cases in Hc as [[-> _]|(old & ? & ? & Hl' & <- & ? & -> & ->)]; [done|].
    apply wf_insert; [done|]. apply (map_Forall_lookup_1 _ _ _ _ Hwf Hl').
  - destruct (ReleaseLease ctx now s id' w') as [s' r] eqn:Hc.
    apply ReleaseLease_cases in Hc as [[-> _]|(old & ? & Hl' & <- & -> & ->)]; [done|].
    apply wf_insert; [done|]. apply (map_Forall_lookup_1 _ _ _ _ Hwf Hl').
  - unfold FailExpiredRunning. destruct ctx; simpl; [done|].
    intros id run. rewrite lookup_fmap. intros (r & Hl & ->)%fmap_Some_1.
    case_decide; rewrite ?cloneRun_id; apply (map_Forall_lookup_1 _ _ _ _ Hwf Hl).
Qed.

(** * Properties *)

#[global] Instance MemoryStore_ops : StoreOps Runs := {
  so_save := Save;
  so_get := Get;
  so_update := Update
}.

(** The in-memory store keeps the promises of the [Store] interface. *)
#[global] Program Instance MemoryStore_laws : StoreLaws Runs := { view := id }.
Next Obligation.
  intros ctx now0 now1 s run. simpl. rewrite Save_insert. by destruct ctx.
Qed.
Next Obligation.
  intros ctx now s id mutate _. simpl. rewrite Update_outcome.
  by destruct (update_outcome _ _ _ _ _) as [[??]?].
Qed.

(** ClaimRunnable hands out the oldest claimable run: the run it returns was
stored, pending, due and not under an unexpired lease; it now carries the
worker's lease until [now + lease] and nothing else but its update time
changed, there and in the store; and no claimable run was created earlier (or
at the same time with a smaller ID). *)
Theorem ClaimRunnable_oldest now (s s' : Runs) w lease run :
  wf s → ClaimRunnable None now s w lease = (s', Ok run) →
  ∃ old, s !! ID run = Some old ∧ claimable now old ∧
    run = old <| LeaseOwner := w |> <| LeaseUntil := TimeAdd now lease |>
              <| UpdatedAt := now |> ∧
    s' = <[ID run := run]> s ∧
    map_Forall (λ _ r, claimable now r →
      ¬ time_id_lt (created_key r) (created_key old)) s.
Proof.
  intros Hwf [[_ [e ?]]|(_ & _ & id & old & Hf & -> & Hr)]%ClaimRunnable_cases; [done|].
  apply claim_candidate in Hf as (Hl & Hc & Hmin). injection Hr as ->.
  pose proof (map_Forall_lookup_1 _ _ _ _ Hwf Hl) as <-.
  exists old. split_and!; [done..|]. intros id' r. apply Hmin.
Qed.

(** The queue makes progress: with a worker ID, a positive lease and a live
context, ClaimRunnable returns ErrNoRunnableWorkflow exactly when no stored run
is claimable, and otherwise it returns a run. *)
Theorem ClaimRunnable_progress now (s : Runs) w lease :
  w ≠ "" → (0 < lease)%Z →
  (map_Forall (λ _ r, ¬ claimable now r) s →
     ClaimRunnable None now s w lease = (s, Err ErrNoRunnableWorkflow)) ∧
  (¬ map_Forall (λ _ r, ¬ claimable now r) s →
     ∃ s' run, ClaimRunnable None now s w lease = (s', Ok run)).
Proof.
  intros Hw Hlease. unfold ClaimRunnable.
  rewrite (decide_False (P := w = "")), decide_False by (done || lia).
  rewrite <-!claim_none.
  destruct (first_claimable _ _) as [[id run]|]; split; [done|eauto|done|done].
Qed.

(** Lease exclusion: while a worker [w] holds a lease on a run, no sequence of
claims, extensions and releases by other workers and of recovery sweeps, each
before the lease ends, changes that run or returns it to anyone. *)
Theorem lease_exclusion ops (s : Runs) id run w :
  wf s → s !! id = Some run → LeaseOwner run = w → w ≠ "" →
  Forall (λ '(_, now, op), After (LeaseUntil run) now ∧ op_worker op ≠ Some w) ops →
  (queue_history s ops).1 !! id = Some run ∧
  id ∉ ID <$> (queue_history s ops).2.
Proof.
  intros Hwf Hl Hw Hne. revert s Hwf Hl.
  induction ops as [|[[ctx now] op] ops IH]; intros s Hwf Hl Hops; simpl; [set_solver|].
  apply Forall_cons in Hops as [[Hu Hop] Hops].
  destruct (queue_exec_leased ctx now s op id run w) as [Hl1 Hn1]; [done..|].
  pose proof (queue_exec_wf ctx now s op Hwf) as Hwf1.
  destruct (queue_exec ctx now s op) as [s1 out1]; simpl in *.
  destruct (IH s1 Hwf1 Hl1 Hops) as [Hl2 Hn2].
  destruct (queue_history s1 ops) as [s2 out2]; simpl in *.
  rewrite fmap_app, elem_of_app. tauto.
Qed.

(** Recovery is exact: FailExpiredRunning fails precisely the running runs
that have a lease owner and an expired lease, clears their lease and records
the reason, leaves every other run as it was (in particular runs without a
lease owner), and reports the failed runs in increasing ID order. *)
Theorem FailExpiredRunning_exact now (s s' : Runs) reason failed :
  FailExpiredRunning None now s reason = (s', Ok failed) →
  (∀ id, s' !! id = (λ run, if decide (RunStatus run = StatusRunning ∧
                        LeaseOwner run ≠ "" ∧ ¬ After (LeaseUntil run) now)
                      then fail_expired now reason run else run) <$> s !! id) ∧
  (∀ r, r ∈ failed ↔ ∃ id run, s !! id = Some run ∧
     (RunStatus run = StatusRunning ∧ LeaseOwner run ≠ "" ∧
      ¬ After (LeaseUntil run) now) ∧ r = fail_expired now reason run) ∧
  StronglySorted (λ a b, ¬ str_lt (ID b) (ID a)) failed.
Proof.
  unfold FailExpiredRunning. intros [= <- <-].
  assert (∀ run, expired_running now run ↔ RunStatus run = StatusRunning ∧
      LeaseOwner run ≠ "" ∧ ¬ After (LeaseUntil run) now) as Hex.
  { intros run. unfold expired_running. destruct (decide (RunStatus run = StatusRunning));
      tauto. }
  split_and!.
  - intros id. rewrite lookup_fmap. destruct (s !! id) as [run|]; [|done]. simpl.
    rewrite cloneRun_id. by rewrite (decide_ext _ _ _ _ (Hex run)).
  - intros r. rewrite elem_of_failed. by setoid_rewrite Hex.
  - apply (sort_key_sorted str_lt ID).
Qed.

(** ListWorkflows returns the matching runs (status filter and every metadata
text), each once, ordered by creation time then ID (both reversed for the
descending order), cut after [Limit] runs when the limit is positive. *)
Theorem ListWorkflows_sound Sprint (s : Runs) query runs :
  ListWorkflows Sprint None s query = Ok runs →
  ∃ all, all ≡ₚ filter (list_matches Sprint query) (map_to_list s).*2 ∧
    StronglySorted (λ a b, ¬ list_less (q_Order query) b a) all ∧
    runs = if decide (0 < q_Limit query)%Z then take (Z.to_nat (q_Limit query)) all
           else all.
Proof.
  unfold ListWorkflows. do 2 (case_decide; [done|]). intros [= <-].
  exists (sort_slice (list_less (q_Order query))
    (cloneRun <$> filter (list_matches Sprint query) (map_to_list s).*2)). split_and!.
  - rewrite sort_slice_perm,  (list_fmap_ext _ id), list_fmap_id; [done|].
    intros ? r _. apply cloneRun_id.
  - destruct (q_Order query);
      [apply (sort_key_sorted time_id_lt created_key)..| |
       apply (sort_key_sorted time_id_lt created_key)].
    assert (StrictTotal (flip time_id_lt)) by by apply flip_strict_total, _.
    apply (sort_key_sorted (H := λ a b, time_id_lt_dec b a) (flip time_id_lt) created_key).
  - destruct (decide (0 < q_Limit query)%Z); [|by rewrite decide_False by lia].
    case_decide; [done|]. rewrite take_ge; [done|lia].
Qed.

(** Operations of a store in any order, by any number of callers. [Update]
callbacks keep the ID of the run they are given. *)
Inductive store_step : Runs → Runs → Prop :=
| step_save ctx now0 now1 s run : store_step s (Save ctx now0 now1 s run).1
| step_update ctx now s id mutate :
    (∀ r u, mutate r = Ok u → ID u = ID r) →
    store_step s (Update ctx now s id mutate).1.1
| step_queue ctx now s op : store_step s (queue_exec ctx now s op).1.

(** In every store reachable from an empty one by saves, updates and queue
operations, each run is stored under its own ID. *)
Theorem reachable_wf s : rtc store_step New s → wf s.
Proof.
  intros Hs. apply (rtc_ind_r wf New) in Hs; [done|apply map_Forall_empty|].
  clear s Hs. intros s s' _ [ctx now0 now1 s0 run|ctx now s0 id mutate Hid|ctx now s0 op] Hwf.
  - rewrite Save_insert. destruct ctx; [done|]. apply wf_insert; [done|].
    unfold save_stamp. by case_decide.
  - rewrite Update_outcome. unfold update_outcome.
    destruct ctx, (s0 !! id) as [cur|] eqn:Hl; try done.
    destruct (mutate cur) as [u|] eqn:Hm; [|done]. apply wf_insert; [done|].
    rewrite <-(map_Forall_lookup_1 _ _ _ _ Hwf Hl), <-(Hid _ _ Hm).
    unfold update_stamp. by case_decide.
  - by apply queue_exec_wf.
Qed.

(** * Witnesses *)

(** Two pending runs; "b" is the older one. *)
Definition two_runs : Runs :=
  list_to_map [("a", (newRun "a" StatusPending) <| CreatedAt := 20%Z |>);
               ("b", (newRun "b" StatusPending) <| CreatedAt := 10%Z |>)].

(** "a" runs under a lease of "w1" until 100, "b" under an expired one. *)
Definition leased_runs : Runs :=
  list_to_map [("a", (newRun "a" StatusRunning) <| LeaseOwner := "w1" |> <| LeaseUntil := 100%Z |>);
               ("b", (newRun "b" StatusRunning) <| LeaseOwner := "w2" |> <| LeaseUntil := 30%Z |>)].

Lemma ClaimRunnable_oldest_witness :
  ∃ old, two_runs !! "b" = Some old ∧ claimable 50 old ∧
    map_Forall (λ _ r, claimable 50 r →
      ¬ time_id_lt (created_key r) (created_key old)) two_runs.
Proof.
  destruct (ClaimRunnable_oldest 50 two_runs
    (ClaimRunnable None 50 two_runs "w" 5).1 "w" 5
    ((newRun "b" StatusPending) <| CreatedAt := 10%Z |> <| LeaseOwner := "w" |>
       <| LeaseUntil := 55%Z |> <| UpdatedAt := 50%Z |>))
    as (old & Hl & Hc & _ & _ & Hmin); [|vm_compute; reflexivity|eauto].
  apply map_Forall_to_list. vm_compute. by repeat constructor.
Defined.

Lemma ClaimRunnable_progress_witness :
  ∃ s' run, ClaimRunnable None 50 two_runs "w" 5 = (s', Ok run).
Proof.
  apply (ClaimRunnable_progress 50 two_runs "w" 5); [done|done|].
  intros Hall. apply (Hall "b" ((newRun "b" StatusPending) <| CreatedAt := 10%Z |>) eq_refl).
  by apply (bool_decide_unpack _).
Defined.

Lemma lease_exclusion_witness :
  "a" ∉ ID <$> (queue_history leased_runs
    [(None, 50%Z, OpFailExpired "x"); (None, 60%Z, OpRelease "a" "w2");
     (None, 99%Z, OpClaim "w2" 10)]).2.
Proof.
  apply (lease_exclusion _ leased_runs "a"
    ((newRun "a" StatusRunning) <| LeaseOwner := "w1" |> <| LeaseUntil := 100%Z |>) "w1");
    [|reflexivity|done|done|by repeat constructor].
  apply map_Forall_to_list. vm_compute. by repeat constructor.
Defined.

Lemma FailExpiredRunning_exact_witness :
  ∃ s' failed, FailExpiredRunning None 50 leased_runs "x" = (s', Ok failed) ∧
    ∀ r, r ∈ failed ↔ ∃ id run, leased_runs !! id = Some run ∧
      (RunStatus run = StatusRunning ∧ LeaseOwner run ≠ "" ∧ ¬ After (LeaseUntil run) 50) ∧
      r = fail_expired 50 "x" run.
Proof.
  eexists _, _. split; [reflexivity|].
  eapply (FailExpiredRunning_exact 50 leased_runs). reflexivity.
Defined.

Lemma ListWorkflows_sound_witness :
  ∃ all, all ≡ₚ filter (list_matches (λ _, "") (mkQuery StatusPending ∅ WorkflowOrderDesc 1))
      (map_to_list two_runs).*2 ∧
    StronglySorted (λ a b, ¬ list_less WorkflowOrderDesc b a) all ∧
    [(newRun "a" StatusPending) <| CreatedAt := 20%Z |>] = take 1 all.
Proof.
  apply (ListWorkflows_sound (λ _, "") two_runs (mkQuery StatusPending ∅ WorkflowOrderDesc 1)).
  vm_compute. reflexivity.
Defined.

Lemma reachable_wf_witness : wf (Save None 1 2 New (newRun "a" StatusPending)).1.
Proof. apply reachable_wf. apply rtc_once. apply step_save. Defined.

End MemoryStore.
