(* ===== verification/WorkflowExecutor.v ===== *)
(** The workflow executor: [src/workflowkit/executor.go].

The executor is modelled against the interface [StoreOps], not against one
store. It runs in a [World]: the store, a tick that counts the effects so far,
and the names of the steps that were called. What the executor does not control is
in an [Env], read at the current tick: the clock, the context, the random
draws, and what other goroutines and processes do to the store right before
each of the executor's store operations. *)

From S2P Require Import Prelude WorkflowRun WorkflowStore.

(** * Steps *)

Record StepResult := mkStepResult {
  res_Status : Status;
  res_OutputRef : string;
  res_AgentRunID : string;
  res_AuditRef : string;
  res_Error : string;
  res_ApprovalRef : string;
  res_WaitingReason : string;
  res_Metadata : Metadata
}.
#[global] Instance eta_StepResult : Eta StepResult := λ r,
  mkStepResult (res_Status r) (res_OutputRef r) (res_AgentRunID r) (res_AuditRef r)
    (res_Error r) (res_ApprovalRef r) (res_WaitingReason r) (res_Metadata r).
Definition zeroResult : StepResult := mkStepResult "" "" "" "" "" "" "" ∅.

(** [Step]: its name, and its [Run], whose result may depend on when it runs. *)
Record Step := mkStep {
  step_Name : string;
  step_Run : nat → WorkflowRun → StepResult * option Error
}.

Record Approval := mkApproval { app_AuditRef : string; app_Metadata : Metadata }.

(** * Status predicates *)

Definition isTerminalOrWaiting (status : Status) : bool :=
  bool_decide (status ∈ [StatusWaitingApproval; StatusSucceeded; StatusFailed; StatusCancelled]).
Definition isTerminal (status : Status) : bool :=
  bool_decide (status ∈ [StatusSucceeded; StatusFailed; StatusCancelled]).
Definition isFailedOrCancelled (status : Status) : bool :=
  bool_decide (status = StatusFailed ∨ status = StatusCancelled).

(** * Updates of the run *)

Definition stepCompleted (run : WorkflowRun) (name : string) : bool :=
  bool_decide (name ∈ CompletedSteps run).

Definition markStepCompleted (run : WorkflowRun) (name : string) : WorkflowRun :=
  if stepCompleted run name then run
  else run <| CompletedSteps := CompletedSteps run ++ [name] |>.

Definition recordStepAttempt (run : WorkflowRun) (name : string) : WorkflowRun :=
  run <| StepAttempts :=
    <[name := (default 0 (StepAttempts run !! name) + 1)%Z]> (StepAttempts run) |>.

(** [if s != "" { field = s }]. *)
Definition set_nonempty (old new : string) : string :=
  if decide (new ≠ "") then new else old.

Definition applyStepResult (run : WorkflowRun) (result : StepResult) : WorkflowRun :=
  let run := run
    <| RunStatus := set_nonempty (RunStatus run) (res_Status result) |>
    <| OutputRef := set_nonempty (OutputRef run) (res_OutputRef result) |>
    <| AgentRunID := set_nonempty (AgentRunID run) (res_AgentRunID result) |>
    <| AuditRef := set_nonempty (AuditRef run) (res_AuditRef result) |>
    <| RunError := set_nonempty (RunError run) (res_Error result) |>
    <| ApprovalRef := set_nonempty (ApprovalRef run) (res_ApprovalRef result) |>
    <| WaitingReason := set_nonempty (WaitingReason run) (res_WaitingReason result) |> in
  if decide (0 < size (res_Metadata result))
  then run <| RunMetadata := map_assign (RunMetadata run) (res_Metadata result) |>
  else run.

(** [finishStepRecord]; [now] is its [time.Now()]. *)
Definition finishStepRecord (now : Time) (record : StepRecord) (result : StepResult)
    (err : string) : StepRecord :=
  let status := if decide (res_Status result = "") then StatusSucceeded
                else res_Status result in
  let record := record
    <| sr_Status := status |>
    <| sr_OutputRef := res_OutputRef result |>
    <| sr_AgentRunID := res_AgentRunID result |>
    <| sr_AuditRef := res_AuditRef result |>
    <| sr_ApprovalRef := res_ApprovalRef result |>
    <| sr_WaitingReason := res_WaitingReason result |>
    <| sr_Metadata := cloneMetadata (res_Metadata result) |>
    <| sr_Error := res_Error result |> in
  let record := if decide (err ≠ "")
                then record <| sr_Status := StatusFailed |> <| sr_Error := err |>
                else record in
  record <| sr_EndedAt := now |>.

Definition validateStepResult (result : StepResult) : option Error :=
  if decide (res_Status result = "") then None
  else if decide (IsValid (res_Status result) = false ∨ res_Status result = StatusPending)
  then Some (InvalidStatusError (res_Status result) "step result")
  else None.

(** * The executor's effects *)

Section executor.
Context {St : Type} `{StoreOps St} (quote : string → string).

Record Env := mkEnv {
  env_now : nat → Time;
  env_ctx : nat → Ctx;
  (** How a wait for a timer or [ctx.Done()] ends. *)
  env_wait : nat → Ctx;
  env_draw : nat → Z → Z;
  env_others : nat → St → St
}.

Record World := mkWorld {
  w_tick : nat;
  w_store : option St;
  w_calls : list string
}.

(** Computations of the executor; [None] is a panic. *)
Definition M (A : Type) : Type := World → World * option A.
#[global] Instance M_ret : MRet M := λ A a w, (w, Some a).
#[global] Instance M_bind : MBind M := λ A B k m w,
  match m w with
  | (w', Some a) => k a w'
  | (w', None) => (w', None)
  end.

Context (env : Env).

Definition next (w : World) : World := mkWorld (S (w_tick w)) (w_store w) (w_calls w).

Definition timeNow : M Time := λ w, (next w, Some (env_now env (w_tick w))).
Definition ctxErr : M Ctx := λ w, (next w, Some (env_ctx env (w_tick w))).
Definition waitDelay : M Ctx := λ w, (next w, Some (env_wait env (w_tick w))).
Definition storeIsNil : M bool := λ w,
  (w, Some (match w_store w with None => true | Some _ => false end)).

(** A store operation at the current tick, after the other actors' writes. *)
Definition onStore {A} (f : Ctx → Time → Time → St → St * A) : M A := λ w,
  match w_store w with
  | None => (w, None)
  | Some s =>
      let t := w_tick w in
      let '(s', a) := f (env_ctx env t) (env_now env t) (env_now env (S t))
                        (env_others env t s) in
      (mkWorld (S (S t)) (Some s') (w_calls w), Some a)
  end.

Definition storeUpdate (id : string) (mutate : WorkflowRun → result WorkflowRun)
    : M (option WorkflowRun * result WorkflowRun) :=
  onStore (λ ctx now _ s,
    let '(s', seen, r) := so_update ctx now s id mutate in (s', (seen, r))).
Definition storeSave (run : WorkflowRun) : M (result unit) :=
  onStore (λ ctx now0 now1 s, so_save ctx now0 now1 s run).

Definition callStep (step : Step) (run : WorkflowRun) : M (StepResult * option Error) := λ w,
  (mkWorld (S (w_tick w)) (w_store w) (w_calls w ++ [step_Name step]),
   Some (step_Run step (w_tick w) run)).

Definition backoff (policy : RetryPolicy) (retry : Z) : M Duration := λ w,
  (next w, Backoff (env_draw env (w_tick w)) policy retry).

(** * Executor methods *)

Record Executor := mkExecutor { e_steps : list Step; e_retryPolicy : RetryPolicy }.

(** The callback of [save]. *)
Definition save_guard (run current : WorkflowRun) : result WorkflowRun :=
  if decide (RunStatus current ≠ StatusRunning ∨ LeaseOwner current ≠ LeaseOwner run)
  then Err (runPreemptedError current)
  else Ok (run <| LeaseOwner := LeaseOwner current |>
               <| LeaseUntil := LeaseUntil current |>
               <| CreatedAt := CreatedAt current |>).

Definition save (run : WorkflowRun) : M (option Error) :=
  isNil ← storeIsNil;
  if (isNil : bool) then mret None
  else
    '(_, r) ← storeUpdate (ID run) (save_guard run);
    mret match r with Ok _ => None | Err e => Some e end.

(** The callback of [start]. *)
Definition start_guard (run current : WorkflowRun) : result WorkflowRun :=
  if decide (RunStatus current ≠ StatusPending)
  then Err (InvalidTransitionError (RunStatus current) StatusRunning "run")
  else if decide (LeaseOwner current ≠ LeaseOwner run)
  then Err (runPreemptedError current)
  else Ok (run <| LeaseOwner := LeaseOwner current |>
               <| LeaseUntil := LeaseUntil current |>
               <| CreatedAt := CreatedAt current |>).

Definition start (run : WorkflowRun) : M (WorkflowRun * option Error) :=
  let run := run <| RunStatus := StatusRunning |> <| NextAttemptAt := 0%Z |> in
  isNil ← storeIsNil;
  if (isNil : bool) then mret (run, None)
  else
    '(seen, r) ← storeUpdate (ID run) (start_guard run);
    let observed := default run seen in
    match r with
    | Ok started => mret (started, None)
    | Err e =>
        if isRunNotFound e then
          saved ← storeSave run;
          mret (run, match saved with Ok _ => None | Err e => Some e end)
        else mret (observed, Some e)
    end.

(** The loop of [runStepWithRetry]; [fuel] bounds the attempts left. The result
is the step result, whether the run yielded, the error, and the run. *)
Fixpoint retry_loop (fuel : nat) (policy : RetryPolicy) (step : Step) (run : WorkflowRun)
    : M (StepResult * bool * option Error * WorkflowRun) :=
  match fuel with
  | O => λ w, (w, None)
  | S fuel =>
      let maxAttempts := Z.max (MaxAttempts policy) 1 in
      let run := recordStepAttempt run (step_Name step) in
      let run := run <| NextAttemptAt := 0%Z |> in
      startedAt ← timeNow;
      let record := mkStepRecord (step_Name step) StatusRunning
        (default 0%Z (StepAttempts run !! step_Name step)) "" "" "" "" "" ""
        startedAt 0 ∅ in
      saved ← save run;
      match (saved : option Error) with
      | Some e => mret (zeroResult, false, Some e, run)
      | None =>
          '(result, err) ← callStep step (cloneRun run);
          let err := match err with Some e => Some e | None => validateStepResult result end in
          match err with
          | None =>
              endedAt ← timeNow;
              let record := finishStepRecord endedAt record result "" in
              let run := run <| StepRecords := StepRecords run ++ [record] |>
                             <| StepRetries := 0%Z |> in
              saved ← save run;
              match (saved : option Error) with
              | Some e => mret (zeroResult, false, Some e, run)
              | None => mret (result, false, None, run)
              end
          | Some err =>
              let failedResult := result <| res_Status := StatusFailed |>
                                         <| res_Error := errText quote err |> in
              endedAt ← timeNow;
              let record := finishStepRecord endedAt record failedResult (errText quote err) in
              let run := run <| StepRecords := StepRecords run ++ [record] |> in
              let retryable := IsTransient err && negb (isInvalidStatus err) &&
                               bool_decide (StepRetries run + 1 < maxAttempts)%Z in
              if negb retryable then
                let run := run <| StepRetries := 0%Z |> in
                saved ← save run;
                match (saved : option Error) with
                | Some e => mret (zeroResult, false, Some e, run)
                | None => mret (failedResult, false, Some err, run)
                end
              else
                let run := run <| StepRetries := (StepRetries run + 1)%Z |> in
                delay ← backoff policy (StepRetries run);
                if decide (LeaseOwner run ≠ "" ∧ 0 < delay)%Z then
                  now ← timeNow;
                  let run := run <| RunStatus := StatusPending |>
                                 <| NextAttemptAt := TimeAdd now delay |> in
                  saved ← save run;
                  match (saved : option Error) with
                  | Some e => mret (zeroResult, false, Some e, run)
                  | None => mret (zeroResult, true, None, run)
                  end
                else
                  saved ← save run;
                  match (saved : option Error) with
                  | Some e => mret (zeroResult, false, Some e, run)
                  | None =>
                      if decide (0 < delay)%Z then
                        ended ← waitDelay;
                        match (ended : Ctx) with
                        | Some e => mret (zeroResult, false, Some (ErrCtx e), run)
                        | None => retry_loop fuel policy step run
                        end
                      else retry_loop fuel policy step run
                  end
          end
      end
  end.

(** Attempts the retry budget of [run] leaves, and at least one. *)
Definition attempts_left (policy : RetryPolicy) (run : WorkflowRun) : nat :=
  Z.to_nat (Z.max 1 (Z.max (MaxAttempts policy) 1 - StepRetries run)).

Definition runStepWithRetry (policy : RetryPolicy) (step : Step) (run : WorkflowRun)
    : M (StepResult * bool * option Error * WorkflowRun) :=
  retry_loop (attempts_left policy run) policy step run.

(** What [runFrom] does after a step failed: keep its references, record the
failure, and report a failed save unless the context is done. *)
Definition fail_run (run : WorkflowRun) (result : StepResult) (err : Error)
    : M (WorkflowRun * option Error) :=
  let run := applyStepResult run result in
  let run := run <| RunStatus := StatusFailed |> <| RunError := errText quote err |> in
  saved ← save run;
  match (saved : option Error) with
  | None => mret (run, Some err)
  | Some saveErr =>
      ctx ← ctxErr;
      match (ctx : Ctx) with
      | None => mret (run, Some (ErrJoin err saveErr))
      | Some _ => mret (run, Some err)
      end
  end.

Fixpoint runFrom (policy : RetryPolicy) (steps : list Step) (run : WorkflowRun)
    : M (WorkflowRun * option Error) :=
  match steps with
  | [] =>
      let run := run <| RunStatus := StatusSucceeded |> in
      saved ← save run;
      mret (run, saved)
  | step :: steps =>
      if stepCompleted run (step_Name step) then runFrom policy steps run
      else
        let run := run <| CurrentStep := step_Name step |> in
        saved ← save run;
        match (saved : option Error) with
        | Some e => mret (run, Some e)
        | None =>
            '(result, yielded, err, run) ← runStepWithRetry policy step run;
            if (yielded : bool) then mret (run, None)
            else match (err : option Error) with
            | Some err =>
                if isRunPreempted err then mret (run, Some err)
                else fail_run run result err
            | None =>
                let run := applyStepResult run result in
                let run := if isFailedOrCancelled (RunStatus run) then run
                           else markStepCompleted run (step_Name step) in
                saved ← save run;
                match (saved : option Error) with
                | Some e => mret (run, Some e)
                | None =>
                    if isTerminalOrWaiting (RunStatus run) then mret (run, None)
                    else runFrom policy steps run
                end
            end
        end
  end.

Definition Run (e : Executor) (run : WorkflowRun) : M (WorkflowRun * option Error) :=
  let run := if decide (RunStatus run = "") then run <| RunStatus := StatusPending |>
             else run in
  if decide (RunStatus run ≠ StatusPending)
  then mret (run, Some (InvalidTransitionError (RunStatus run) StatusRunning "run"))
  else
    '(started, err) ← start run;
    match (err : option Error) with
    | Some e => mret (started, Some e)
    | None => runFrom (e_retryPolicy e) (e_steps e) started
    end.

(** The callback of [resumeWaiting]. *)
Definition resume_guard (op : string) (apply : WorkflowRun → WorkflowRun)
    (current : WorkflowRun) : result WorkflowRun :=
  if decide (RunStatus current ≠ StatusWaitingApproval)
  then Err (InvalidTransitionError (RunStatus current) StatusRunning op)
  else Ok ((apply current) <| RunStatus := StatusRunning |>).

Definition resumeWaiting (e : Executor) (id op : string)
    (apply : WorkflowRun → WorkflowRun) : M (WorkflowRun * option Error) :=
  isNil ← storeIsNil;
  if (isNil : bool) then mret (zeroRun, Some ErrRunNotFound)
  else
    '(seen, r) ← storeUpdate id (resume_guard op apply);
    match r with
    | Err err => mret (default zeroRun seen, Some err)
    | Ok run => runFrom (e_retryPolicy e) (e_steps e) run
    end.

Definition Continue (e : Executor) (id : string) : M (WorkflowRun * option Error) :=
  resumeWaiting e id "continue" (λ run, run).

(** The closure of [Approve]. *)
Definition apply_approval (approval : Approval) (run : WorkflowRun) : WorkflowRun :=
  let run := run <| AuditRef := set_nonempty (AuditRef run) (app_AuditRef approval) |> in
  if decide (0 < size (app_Metadata approval))
  then run <| RunMetadata := map_assign (RunMetadata run) (app_Metadata approval) |>
  else run.

Definition Approve (e : Executor) (id : string) (approval : Approval)
    : M (WorkflowRun * option Error) :=
  resumeWaiting e id "approve" (apply_approval approval).

(** The callback of [Cancel]. *)
Definition cancel_guard (reason : string) (current : WorkflowRun) : result WorkflowRun :=
  if isTerminal (RunStatus current)
  then Err (InvalidTransitionError (RunStatus current) StatusCancelled "cancel")
  else Ok (current <| RunStatus := StatusCancelled |> <| RunError := reason |>).

Definition Cancel (id reason : string) : M (WorkflowRun * option Error) :=
  isNil ← storeIsNil;
  if (isNil : bool) then mret (zeroRun, Some ErrRunNotFound)
  else
    '(seen, r) ← storeUpdate id (cancel_guard reason);
    match r with
    | Err err => mret (default zeroRun seen, Some err)
    | Ok run => mret (run, None)
    end.

End executor.
Arguments Env St : clear implicits.
Arguments World St : clear implicits.
