(* ===== verification/WorkflowSafety.v ===== *)
(** Safety of the workflow executor under concurrent writers: lifecycle of the
stored runs, finality of terminal runs, no second execution of completed steps.

The theorems hold for every store that satisfies [StoreLaws], every
environment, and any interference that itself only evolves runs along the
lifecycle (the queue operations and other executors do). *)

From S2P Require Import Prelude WorkflowRun WorkflowStore WorkflowExecutor.

(** * The lifecycle of a stored run *)

Inductive lifecycle : Status → Status → Prop :=
| lc_start : lifecycle StatusPending StatusRunning
| lc_wait : lifecycle StatusRunning StatusWaitingApproval
| lc_succeed : lifecycle StatusRunning StatusSucceeded
| lc_fail : lifecycle StatusRunning StatusFailed
| lc_retry : lifecycle StatusRunning StatusPending
| lc_resume : lifecycle StatusWaitingApproval StatusRunning
| lc_cancel s : isTerminal s = false → lifecycle s StatusCancelled.

(** Equal but for the lease and the update time. *)
Definition same_outcome (r r' : WorkflowRun) : Prop :=
  r' = r <| LeaseOwner := LeaseOwner r' |> <| LeaseUntil := LeaseUntil r' |>
         <| UpdatedAt := UpdatedAt r' |>.

(** How one stored run may change: its status follows the lifecycle, and once it
is terminal only its lease may change (a worker releasing it). *)
Definition evolves_run (r r' : WorkflowRun) : Prop :=
  rtc lifecycle (RunStatus r) (RunStatus r') ∧
  (isTerminal (RunStatus r) = true → same_outcome r r').

(** Runs are never deleted, and each evolves. *)
Definition evolves (runs runs' : Runs) : Prop :=
  ∀ id r, runs !! id = Some r → ∃ r', runs' !! id = Some r' ∧ evolves_run r r'.

#[export] Instance same_outcome_preorder : PreOrder same_outcome.
Proof.
  unfold same_outcome. split.
  - intros r. by destruct r.
  - intros r1 r2 r3 -> ->. done.
Qed.

Lemma same_outcome_status r r' : same_outcome r r' → RunStatus r' = RunStatus r.
Proof. by intros ->. Qed.

#[export] Instance evolves_run_preorder : PreOrder evolves_run.
Proof.
  split.
  - intros r. by split.
  - intros r1 r2 r3 [H12 T12] [H23 T23]. split; [by etrans|].
    intros Ht. etrans; [by apply T12|]. apply T23.
    by rewrite (same_outcome_status _ _ (T12 Ht)).
Qed.

Lemma evolves_run_lease r r' : same_outcome r r' → evolves_run r r'.
Proof. intros Hs. split; [by rewrite (same_outcome_status _ _ Hs)|done]. Qed.

#[export] Instance evolves_preorder : PreOrder evolves.
Proof.
  split.
  - intros runs id r Hr. exists r. by split; [|reflexivity].
  - intros s1 s2 s3 H12 H23 id r (r2 & Hr2 & E2)%H12.
    destruct (H23 id r2 Hr2) as (r3 & Hr3 & E3). exists r3.
    split; [done|]. by etrans.
Qed.

Lemma evolves_insert runs id r r' :
  runs !! id = Some r → evolves_run r r' → evolves runs (<[id := r']> runs).
Proof.
  intros Hr He id0 r0 Hr0. destruct (decide (id = id0)) as [->|Hne].
  - exists r'. rewrite lookup_insert_eq. by simplify_eq.
  - exists r0. rewrite lookup_insert_ne by done. by split; [|reflexivity].
Qed.

Lemma evolves_insert_new runs id r' :
  runs !! id = None → evolves runs (<[id := r']> runs).
Proof.
  intros Hr id0 r0 Hr0. exists r0. rewrite lookup_insert_ne by congruence.
  by split; [|reflexivity].
Qed.

Lemma running_to s :
  IsValid s = true → rtc lifecycle StatusRunning s.
Proof.
  unfold IsValid. rewrite bool_decide_eq_true. set_unfold.
  intros [->|[->|[->|[->|[->|[->|[]]]]]]]; try by apply rtc_once; constructor.
  reflexivity.
Qed.

(** An update whose result has one of the statuses the lifecycle allows. *)
Lemma update_outcome_evolves ctx now runs id mutate :
  (∀ r u, runs !! id = Some r → mutate r = Ok u →
     isTerminal (RunStatus r) = false ∧ rtc lifecycle (RunStatus r) (RunStatus u)) →
  evolves runs (update_outcome ctx now runs id mutate).1.1.
Proof.
  intros Hm. unfold update_outcome.
  destruct ctx, (runs !! id) as [r|] eqn:Hr; try reflexivity.
  destruct (mutate r) as [u|] eqn:Hu; [|reflexivity]. simpl.
  destruct (Hm r u) as [Ht Hl]; [done..|].
  eapply evolves_insert; [done|]. split; [|congruence].
  unfold update_stamp. by case_decide.
Qed.

(** The queue operations of the in-memory store are such interference. *)
Lemma queue_exec_evolves ctx now s op :
  evolves s (MemoryStore.queue_exec ctx now s op).1.
Proof.
  destruct op as [w lease|id w lease|id w|reason]; simpl.
  - destruct (MemoryStore.ClaimRunnable ctx now s w lease) as [s' r] eqn:Hc.
    apply MemoryStore.ClaimRunnable_cases in Hc as
      [[-> _]|(_ & _ & id0 & old & Hf & -> & ->)]; [reflexivity|].
    apply MemoryStore.claim_candidate in Hf as (Hl0 & _).
    eapply evolves_insert, evolves_run_lease; done.
  - destruct (MemoryStore.ExtendLease ctx now s id w lease) as [s' r] eqn:Hc.
    apply MemoryStore.ExtendLease_cases in Hc as
      [[-> _]|(old & ? & ? & Hl & ? & ? & -> & ->)]; [reflexivity|].
    eapply evolves_insert, evolves_run_lease; done.
  - destruct (MemoryStore.ReleaseLease ctx now s id w) as [s' r] eqn:Hc.
    apply MemoryStore.ReleaseLease_cases in Hc as
      [[-> _]|(old & ? & Hl & ? & -> & ->)]; [reflexivity|].
    eapply evolves_insert, evolves_run_lease; done.
  - unfold MemoryStore.FailExpiredRunning. destruct ctx; simpl; [reflexivity|].
    intros id r Hr. rewrite lookup_fmap, Hr; simpl. eexists; split; [done|].
    case_decide as Hex; [|reflexivity]. rewrite cloneRun_id.
    unfold MemoryStore.expired_running in Hex.
    destruct (decide (RunStatus r = StatusRunning)) as [Hs|]; [|tauto].
    split; rewrite Hs; [|done]. by apply rtc_once, lc_fail.
Qed.

(** * Reasoning about executor computations *)

Section facts.
Context {St : Type} `{StoreLaws St} (quote : string → string) (env : Env St).

(** Interference between the executor's own operations. *)
Definition rely : Prop := ∀ t s, evolves (view s) (view (env_others env t s)).

(** How the world changes: the store evolves, and the steps called in between
satisfy [P]. *)
Definition wrel (P : string → Prop) (w w' : World St) : Prop :=
  match w_store w, w_store w' with
  | Some s, Some s' => evolves (view s) (view s')
  | None, None => True
  | _, _ => False
  end ∧ ∃ called, w_calls w' = w_calls w ++ called ∧ Forall P called.

#[local] Instance wrel_preorder P : PreOrder (wrel P).
Proof.
  split.
  - intros w. split; [by destruct (w_store w); [reflexivity|]|].
    exists []. by rewrite app_nil_r.
  - intros w1 w2 w3 [S12 (l1 & C12 & F12)] [S23 (l2 & C23 & F23)]. split.
    + destruct (w_store w1), (w_store w2), (w_store w3); try done. by etrans.
    + exists (l1 ++ l2). rewrite C23, C12, (assoc_L (++)). by rewrite Forall_app.
Qed.

(** From any world, [m] changes it along [wrel P], and if it returns, its
value satisfies [V]. *)
Definition ensures {A} (P : string → Prop) (m : M (St := St) A) (V : A → Prop) : Prop :=
  ∀ w, wrel P w (m w).1 ∧ ∀ a, (m w).2 = Some a → V a.

Lemma ensures_ret {A} P (a : A) (V : A → Prop) : V a → ensures P (mret a) V.
Proof. intros Ha w. split; [reflexivity|]. intros a' [= <-]. done. Qed.

Lemma ensures_bind {A B} P (m : M (St := St) A) (k : A → M (St := St) B) V V' :
  ensures P m V → (∀ a, V a → ensures P (k a) V') → ensures P (m ≫= k) V'.
Proof.
  intros Hm Hk w. destruct (Hm w) as [Hw Ha]. unfold mbind, M_bind.
  destruct (m w) as [w1 [a|]]; simpl in *; [|done].
  destruct (Hk a (Ha a eq_refl) w1) as [Hw1 Hb]. split; [by etrans|done].
Qed.

Lemma ensures_weaken {A} P (m : M (St := St) A) (V V' : A → Prop) :
  ensures P m V → (∀ a, V a → V' a) → ensures P m V'.
Proof. intros Hm Himp w. destruct (Hm w). eauto. Qed.

Lemma ensures_panic {A} P (V : A → Prop) : ensures P (λ w, (w, None)) V.
Proof. intros w. by split; [reflexivity|]. Qed.

Lemma next_wrel P w : wrel P w (next w).
Proof.
  split; simpl; [by destruct (w_store w)|]. exists []. by rewrite app_nil_r.
Qed.

Lemma ensures_timeNow P : ensures P (timeNow env) (λ _, True).
Proof. intros w. split; [apply next_wrel|done]. Qed.
Lemma ensures_ctxErr P : ensures P (ctxErr env) (λ _, True).
Proof. intros w. split; [apply next_wrel|done]. Qed.
Lemma ensures_waitDelay P : ensures P (waitDelay env) (λ _, True).
Proof. intros w. split; [apply next_wrel|done]. Qed.
Lemma ensures_storeIsNil P : ensures P (storeIsNil (St := St)) (λ _, True).
Proof. intros w. by split; [reflexivity|]. Qed.
Lemma ensures_backoff P policy retry : ensures P (backoff env policy retry) (λ _, True).
Proof. intros w. split; [apply next_wrel|done]. Qed.
Lemma ensures_callStep P step run :
  P (step_Name step) → ensures P (callStep (St := St) step run) (λ _, True).
Proof.
  intros HP w. split; [|done]. split; simpl; [by destruct (w_store w)|].
  exists [step_Name step]. by rewrite Forall_singleton.
Qed.

(** A store update, by the law of the store: it acts on the runs the other
actors left, at the current tick. *)
Lemma storeUpdate_law w s id mutate :
  w_store w = Some s →
  (∀ r u, mutate r = Ok u → ID u = id ∨ ID u = ID r) →
  ∃ s' seen r,
    storeUpdate env id mutate w =
      (mkWorld (S (S (w_tick w))) (Some s') (w_calls w), Some (seen, r)) ∧
    (view s', seen, r) =
      update_outcome (env_ctx env (w_tick w)) (env_now env (w_tick w))
        (view (env_others env (w_tick w) s)) id mutate.
Proof.
  intros Hs Hid. unfold storeUpdate, onStore. rewrite Hs.
  pose proof (update_law (env_ctx env (w_tick w)) (env_now env (w_tick w))
    (env_others env (w_tick w) s) id mutate Hid) as Hlaw.
  destruct (so_update _ _ _ id mutate) as [[s' seen] r]. by exists s', seen, r.
Qed.

Lemma storeUpdate_nil w id mutate :
  w_store w = None → storeUpdate env id mutate w = (w, None).
Proof. intros Hs. unfold storeUpdate, onStore. by rewrite Hs. Qed.

Context (Hrely : rely).

(** A store update by a callback that moves runs along the lifecycle. The value
says what the callback saw and returned. *)
Lemma ensures_storeUpdate P id mutate :
  (∀ r u, mutate r = Ok u → (ID u = id ∨ ID u = ID r) ∧
     isTerminal (RunStatus r) = false ∧ rtc lifecycle (RunStatus r) (RunStatus u)) →
  ensures P (storeUpdate env id mutate)
    (λ p, ∀ u, p.2 = Ok u → ∃ now r u0, mutate r = Ok u0 ∧ u = update_stamp now r u0).
Proof.
  intros Hm w. destruct (w_store w) as [s|] eqn:Hs;
    [|rewrite storeUpdate_nil by done; split; [|done]; reflexivity].
  destruct (storeUpdate_law w s id mutate) as (s' & seen & r & -> & Hout);
    [done|by intros ?? [? _]%Hm|]. simpl. split.
  - split; simpl; rewrite ?Hs; [|by exists []; rewrite app_nil_r].
    etrans; [apply (Hrely (w_tick w))|].
    replace (view s') with (view s', seen, r).1.1 by done. rewrite Hout.
    apply update_outcome_evolves. intros r0 u0 _ Hu. by apply Hm in Hu as [_ ?].
  - intros p [= <-] u Hu. simpl in Hu. subst r. unfold update_outcome in Hout.
    destruct (env_ctx env (w_tick w)), (view (env_others env (w_tick w) s) !! id) as [cur|]; try done.
    destruct (mutate cur) as [u0|] eqn:Hmut; simplify_eq. eauto.
Qed.

Lemma save_guard_ok run r u :
  save_guard run r = Ok u →
  RunStatus r = StatusRunning ∧ LeaseOwner r = LeaseOwner run ∧ ID u = ID run ∧
  RunStatus u = RunStatus run.
Proof.
  unfold save_guard. case_decide as Hg; [done|]. intros [= <-]. simpl.
  apply Decidable.not_or in Hg as [H1 H2]. apply dec_stable in H1, H2. done.
Qed.

Lemma ensures_save P run :
  IsValid (RunStatus run) = true → ensures P (save env run) (λ _, True).
Proof.
  intros Hv. unfold save. eapply ensures_bind; [apply ensures_storeIsNil|].
  intros [] _; [by apply ensures_ret|].
  eapply ensures_bind; [apply ensures_storeUpdate|by intros [] _; apply ensures_ret].
  intros r u (Hr & _ & Hid & Hs)%save_guard_ok. rewrite Hr, Hs.
  split_and!; [by left|done|by apply running_to].
Qed.

(** What the attempts of a step leave: the run keeps its ID and its completed
steps; when the step is done, the run is still running and the result's
status is empty or one a step may return. *)
Definition attempt_post (run : WorkflowRun)
    (p : StepResult * bool * option Error * WorkflowRun) : Prop :=
  let '(result, yielded, err, run') := p in
  ID run' = ID run ∧ CompletedSteps run' = CompletedSteps run ∧
  (yielded = true → RunStatus run' = StatusPending) ∧
  (yielded = false → err = None →
     RunStatus run' = StatusRunning ∧ validateStepResult result = None).

(** Closes the branches that return right after a save. *)
Ltac save_then :=
  eapply ensures_bind;
    [apply ensures_save; simpl;
     first [done | match goal with Hr : RunStatus _ = _ |- _ => by rewrite Hr end]|];
  intros [?|] _; [by apply ensures_ret|].

Lemma ensures_retry_loop P fuel policy step run :
  P (step_Name step) → RunStatus run = StatusRunning →
  ensures P (retry_loop quote env fuel policy step run) (attempt_post run).
Proof.
  intros HP. revert run. induction fuel as [|fuel IH]; intros run Hrun.
  { apply ensures_panic. }
  cbn [retry_loop]. cbv zeta.
  eapply ensures_bind; [apply ensures_timeNow|]. intros startedAt _. save_then.
  eapply ensures_bind; [by apply ensures_callStep|]. intros [result err] _.
  destruct (match err with Some e => Some e | None => validateStepResult result end)
    as [e|] eqn:Herr.
  2:{ eapply ensures_bind; [apply ensures_timeNow|]. intros endedAt _. save_then.
      apply ensures_ret. split_and!; [done..|]. intros _ _. split; [done|].
      by destruct err. }
  eapply ensures_bind; [apply ensures_timeNow|]. intros endedAt _.
  destruct (negb _).
  { save_then. by apply ensures_ret. }
  eapply ensures_bind; [apply ensures_backoff|]. intros delay _.
  case_decide.
  { eapply ensures_bind; [apply ensures_timeNow|]. intros now _.
    save_then. by apply ensures_ret. }
  save_then.
  assert (∀ run', ID run' = ID run → CompletedSteps run' = CompletedSteps run →
    RunStatus run' = StatusRunning →
    ensures P (retry_loop quote env fuel policy step run') (attempt_post run)) as IH'.
  { intros run' Hid Hcs Hr. eapply ensures_weaken; [by apply IH|].
    intros [[[res y] er] r'] (Hid' & Hcs' & Hp). split_and!; [congruence..|naive_solver|naive_solver]. }
  case_decide; [|by apply IH'].
  eapply ensures_bind; [apply ensures_waitDelay|]. intros [?|] _; [by apply ensures_ret|].
  by apply IH'.
Qed.

Lemma applyStepResult_fields run result :
  ID (applyStepResult run result) = ID run ∧
  CompletedSteps (applyStepResult run result) = CompletedSteps run ∧
  RunStatus (applyStepResult run result) =
    set_nonempty (RunStatus run) (res_Status result).
Proof. unfold applyStepResult. by case_decide. Qed.

(** After a step result that passed validation, a running run has a valid
status other than pending. *)
Lemma applied_status run result :
  RunStatus run = StatusRunning → validateStepResult result = None →
  IsValid (RunStatus (applyStepResult run result)) = true ∧
  RunStatus (applyStepResult run result) ≠ StatusPending.
Proof.
  intros Hr. destruct (applyStepResult_fields run result) as (_ & _ & ->).
  rewrite Hr. unfold validateStepResult, set_nonempty.
  destruct (decide (res_Status result = "")) as [->|Hne]; [done|].
  case_decide as Hv; [done|]. intros _. rewrite decide_True by done.
  apply Decidable.not_or in Hv as [Hv ?]. split; [|done]. by apply not_false_is_true.
Qed.

Lemma still_running s :
  IsValid s = true → s ≠ StatusPending → isTerminalOrWaiting s = false → s = StatusRunning.
Proof.
  unfold IsValid, isTerminalOrWaiting.
  rewrite bool_decide_eq_true, bool_decide_eq_false. set_solver.
Qed.

Lemma completed_fields run name :
  ID (markStepCompleted run name) = ID run ∧
  RunStatus (markStepCompleted run name) = RunStatus run ∧
  CompletedSteps run ⊆ CompletedSteps (markStepCompleted run name).
Proof. unfold markStepCompleted. case_match; set_solver. Qed.

(** What [runFrom] returns: the same workflow, and without an error only a run
the executor is done with for now. *)
Definition from_post (run : WorkflowRun) (p : WorkflowRun * option Error) : Prop :=
  ID p.1 = ID run ∧ (p.2 = None → RunStatus p.1 ≠ StatusRunning).

Lemma ensures_fail_run P run result err :
  ensures P (fail_run quote env run result err) (from_post run).
Proof.
  unfold fail_run. cbv zeta. destruct (applyStepResult_fields run result) as (Hid & _).
  eapply ensures_bind; [by apply ensures_save|]. intros [?|] _; [|by apply ensures_ret].
  eapply ensures_bind; [apply ensures_ctxErr|]. by intros [?|] _; apply ensures_ret.
Qed.

Lemma ensures_runFrom policy steps run (C : list string) :
  C ⊆ CompletedSteps run → RunStatus run = StatusRunning →
  ensures (λ name, name ∉ C) (runFrom quote env policy steps run) (from_post run).
Proof.
  revert run. induction steps as [|step steps IH]; intros run HC Hrun; cbn [runFrom]; cbv zeta.
  { eapply ensures_bind; [by apply ensures_save|]. intros e _. by apply ensures_ret. }
  destruct (stepCompleted run (step_Name step)) eqn:Hdone; [by apply IH|].
  apply bool_decide_eq_false in Hdone. save_then.
  eapply ensures_bind; [apply ensures_retry_loop; [set_solver|done]|].
  intros [[[result yielded] err] run1] (Hid & Hcs & Hyield & Hpost). simpl in Hid, Hcs.
  destruct yielded.
  { apply ensures_ret. split; [done|]. simpl. by intros _; rewrite Hyield. }
  destruct err as [err|].
  { destruct (isRunPreempted err); [by apply ensures_ret|].
    eapply ensures_weaken; [apply ensures_fail_run|]. intros p [??]. split; [congruence|done]. }
  destruct Hpost as [Hr1 Hval]; [done..|].
  destruct (applied_status run1 result Hr1 Hval) as [Hvalid Hnp].
  destruct (applyStepResult_fields run1 result) as (Hid2 & Hcs2 & _).
  set (run2 := applyStepResult run1 result) in *.
  destruct (completed_fields run2 (step_Name step)) as (Hid3 & Hst3 & Hcs3).
  set (run3 := if isFailedOrCancelled (RunStatus run2) then run2
               else markStepCompleted run2 (step_Name step)).
  assert (ID run3 = ID run ∧ RunStatus run3 = RunStatus run2 ∧ C ⊆ CompletedSteps run3)
    as (Hid4 & Hst4 & HC4).
  { assert (C ⊆ CompletedSteps run2) as HC2 by by rewrite Hcs2, Hcs.
    unfold run3. case_match; split_and!; try congruence; [done|by etrans]. }
  eapply ensures_bind; [apply ensures_save; by rewrite Hst4|].
  intros [?|] _; [by apply ensures_ret|].
  destruct (isTerminalOrWaiting (RunStatus run3)) eqn:Hfin.
  { apply ensures_ret. split; [done|]. simpl. intros _ Heq. by rewrite Heq in Hfin. }
  eapply ensures_weaken; [apply IH; [done|]|].
  - rewrite Hst4 in Hfin |- *. by apply still_running.
  - intros p [??]. split; [congruence|done].
Qed.

Lemma update_stamp_fields now cur u :
  RunStatus (update_stamp now cur u) = RunStatus u ∧
  CompletedSteps (update_stamp now cur u) = CompletedSteps u ∧
  ID (update_stamp now cur u) = ID u ∧
  LeaseOwner (update_stamp now cur u) = LeaseOwner u.
Proof. unfold update_stamp. by case_decide. Qed.

Lemma ensures_calls {A} (P P' : string → Prop) (m : M (St := St) A) V :
  ensures P m V → (∀ n, P n → P' n) → ensures P' m V.
Proof.
  intros Hm HP w. destruct (Hm w) as [[Hs (l & Hl & HF)] Hv]. split; [|done].
  split; [done|]. exists l. split; [done|]. by eapply Forall_impl.
Qed.

Lemma resume_guard_ok op apply r u :
  resume_guard op apply r = Ok u →
  RunStatus r = StatusWaitingApproval ∧ u = (apply r) <| RunStatus := StatusRunning |>.
Proof. unfold resume_guard. case_decide as Hs; [done|]. by intros [= <-]. Qed.

Lemma start_guard_ok run r u :
  start_guard run r = Ok u →
  RunStatus r = StatusPending ∧ LeaseOwner r = LeaseOwner run ∧ ID u = ID run ∧
  RunStatus u = RunStatus run ∧ CompletedSteps u = CompletedSteps run.
Proof.
  unfold start_guard. do 2 (case_decide; [done|]). by intros [= <-].
Qed.

Lemma ensures_resume e id op apply :
  (∀ r, ID (apply r) = ID r) →
  ensures (λ _, True) (resumeWaiting quote env e id op apply)
    (λ p, p.2 = None → RunStatus p.1 ≠ StatusRunning).
Proof.
  intros Hid. unfold resumeWaiting. eapply ensures_bind; [apply ensures_storeIsNil|].
  intros [] _; [by apply ensures_ret|].
  eapply ensures_bind; [apply ensures_storeUpdate|].
  - intros r u [Hs ->]%resume_guard_ok. rewrite Hs. simpl.
    split_and!; [right; apply Hid|done|by apply rtc_once; constructor].
  - intros [seen [run|err]] Hu; [|by apply ensures_ret].
    destruct (Hu run eq_refl) as (now & r & u & [_ ->]%resume_guard_ok & ->).
    apply (ensures_calls (λ name, name ∉ [])); [|done].
    eapply ensures_weaken; [apply ensures_runFrom|].
    + set_solver.
    + by rewrite (proj1 (update_stamp_fields _ _ _)).
    + by intros p [_ ?].
Qed.

Lemma ensures_cancel id reason :
  ensures (λ _, False) (Cancel env id reason) (λ _, True).
Proof.
  unfold Cancel. eapply ensures_bind; [apply ensures_storeIsNil|].
  intros [] _; [by apply ensures_ret|].
  eapply ensures_bind; [apply ensures_storeUpdate|by intros [? []] _; apply ensures_ret].
  intros r u. unfold cancel_guard. destruct (isTerminal (RunStatus r)) eqn:Ht; [done|].
  intros [= <-]. split_and!; [by right|done|]. simpl. by apply rtc_once, lc_cancel.
Qed.

(** [start] with a store, by the outcome of its update. *)
Lemma start_eq run w s :
  w_store w = Some s →
  let run1 := run <| RunStatus := StatusRunning |> <| NextAttemptAt := 0%Z |> in
  start env run w =
  match storeUpdate env (ID run) (start_guard run1) w with
  | (w', Some (seen, Ok started)) => (w', Some (started, None))
  | (w', Some (seen, Err e)) =>
      if isRunNotFound e
      then (saved ← storeSave env run1;
            mret (run1, match saved with Ok _ => None | Err e => Some e end)) w'
      else (w', Some (default run1 seen, Some e))
  | (w', None) => (w', None)
  end.
Proof.
  intros Hs run1. unfold start. fold run1. unfold mbind at 1, M_bind at 1, storeIsNil.
  rewrite Hs. unfold mbind at 1, M_bind at 1.
  change (ID run1) with (ID run).
  destruct (storeUpdate env (ID run) (start_guard run1) w) as [w' [[seen [started|e]]|]];
    [done| |done]. by destruct (isRunNotFound e).
Qed.

Lemma start_guard_not_found run r e :
  start_guard run r = Err e → isRunNotFound e = false.
Proof. unfold start_guard. repeat case_decide; by intros [= <-]. Qed.

(** A run that is in the store when [Run] is called stays there, so [start]
never falls back to its unguarded [Save]. *)
Lemma start_stored run w s :
  w_store w = Some s → is_Some (view s !! ID run) →
  wrel (λ _, False) w (start env run w).1 ∧
  ∀ p, (start env run w).2 = Some p → p.2 = None →
    RunStatus p.1 = StatusRunning ∧ CompletedSteps p.1 = CompletedSteps run ∧
    ID p.1 = ID run.
Proof.
  intros Hs [r0 Hr0]. rewrite (start_eq run w s Hs). cbv zeta.
  set (run1 := run <| RunStatus := StatusRunning |> <| NextAttemptAt := 0%Z |>).
  destruct (ensures_storeUpdate (λ _, False) (ID run) (start_guard run1)) with (w := w)
    as [Hrel Hval].
  { intros r u (Hr & _ & Hid & Hu & _)%start_guard_ok. rewrite Hr, Hu.
    split_and!; [by left|done|by apply rtc_once, lc_start]. }
  destruct (storeUpdate_law w s (ID run) (start_guard run1)) as (s' & seen & r & Heq & Hout);
    [done|by intros ?? (_ & _ & ? & _)%start_guard_ok; left|].
  rewrite Heq in *. simpl in Hrel, Hval. destruct r as [started|err].
  { split; [done|]. intros p [= <-] _. destruct (Hval _ eq_refl started eq_refl)
      as (now & r & u & (_ & _ & Hid & Hu & Hc)%start_guard_ok & ->). cbn [fst snd].
    destruct (update_stamp_fields now r u) as (-> & -> & -> & _). by rewrite Hu, Hc, Hid. }
  assert (isRunNotFound err = false) as ->; [|by split; [|intros p [= <-]]].
  destruct (Hrely (w_tick w) s _ _ Hr0) as (cur & Hcur & _).
  unfold update_outcome in Hout. rewrite Hcur in Hout.
  destruct (env_ctx env (w_tick w)); [by simplify_eq|].
  destruct (start_guard run1 cur) eqn:Hg; simplify_eq. by eapply start_guard_not_found.
Qed.

(** [resumeWaiting] with a store, by the outcome of its update. *)
Lemma resume_eq e id op apply w s :
  w_store w = Some s →
  resumeWaiting quote env e id op apply w =
  match storeUpdate env id (resume_guard op apply) w with
  | (w', Some (seen, Ok run)) => runFrom quote env (e_retryPolicy e) (e_steps e) run w'
  | (w', Some (seen, Err err)) => (w', Some (default zeroRun seen, Some err))
  | (w', None) => (w', None)
  end.
Proof.
  intros Hs. unfold resumeWaiting. unfold mbind at 1, M_bind at 1, storeIsNil.
  rewrite Hs. unfold mbind at 1, M_bind at 1.
  by destruct (storeUpdate env id (resume_guard op apply) w) as [w' [[seen [run|err]]|]].
Qed.

Lemma apply_approval_fields approval r :
  ID (apply_approval approval r) = ID r ∧
  CompletedSteps (apply_approval approval r) = CompletedSteps r.
Proof. unfold apply_approval. by case_decide. Qed.

(** The executor's operations. *)
Inductive executor_call :=
| CallRun (run : WorkflowRun)
| CallContinue (id : string)
| CallApprove (id : string) (approval : Approval)
| CallCancel (id reason : string).

Definition exec_call (e : Executor) (c : executor_call) : M (WorkflowRun * option Error) :=
  match c with
  | CallRun run => Run quote env e run
  | CallContinue id => Continue quote env e id
  | CallApprove id approval => Approve quote env e id approval
  | CallCancel id reason => Cancel env id reason
  end.

Lemma Run_stored e run w s :
  w_store w = Some s → is_Some (view s !! ID run) →
  wrel (λ name, name ∉ CompletedSteps run) w (Run quote env e run w).1.
Proof.
  intros Hs Hin. unfold Run. cbv zeta.
  set (run0 := if decide (RunStatus run = "") then _ else run).
  assert (ID run0 = ID run ∧ CompletedSteps run0 = CompletedSteps run) as [Hid Hcs]
    by (unfold run0; by case_decide).
  case_decide; [reflexivity|]. rewrite <-Hid in Hin.
  destruct (start_stored run0 w s Hs Hin) as [Hrel Hval].
  unfold mbind, M_bind. destruct (start env run0 w) as [w1 [[started err]|]]; simpl in *.
  - assert (wrel (λ name, name ∉ CompletedSteps run) w w1) as Hw1.
    { destruct Hrel as [Hst (l & Hl & HF)]. split; [done|]. exists l. split; [done|].
      by eapply Forall_impl. }
    destruct err as [e0|]; [done|].
    destruct (Hval _ eq_refl eq_refl) as (Hr & Hc & _). simpl in *.
    etrans; [exact Hw1|]. apply ensures_runFrom; [|done]. by rewrite Hc, Hcs.
  - destruct Hrel as [Hst (l & Hl & HF)]. split; [done|]. exists l. split; [done|].
    by eapply Forall_impl.
Qed.

(** C15: Under any interference that itself follows the lifecycle, every operation
of the executor, from its first store access to its last, moves each stored run
only along the lifecycle (pending, running, waiting for approval, terminal),
never deletes a run, and never changes a run that reached succeeded, failed or
cancelled, except for its lease. [Run] is called with a run that is in the
store. *)
Theorem executor_lifecycle e c w s :
  w_store w = Some s →
  match c with CallRun run => is_Some (view s !! ID run) | _ => True end →
  ∃ s', w_store (exec_call e c w).1 = Some s' ∧ evolves (view s) (view s').
Proof.
  intros Hs Hin.
  assert (∀ P w', wrel P w w' → ∃ s', w_store w' = Some s' ∧ evolves (view s) (view s'))
    as Hw.
  { intros P w' [Hrel _]. rewrite Hs in Hrel. destruct (w_store w') as [s'|]; [eauto|done]. }
  destruct c; simpl; eapply Hw.
  - by eapply Run_stored.
  - by apply ensures_resume.
  - apply ensures_resume. intros r. by destruct (apply_approval_fields approval r).
  - by apply ensures_cancel.
Qed.

(** Approving resumes after the completed steps: whatever the environment does,
Approve calls no step that the waiting run has already completed. *)
Theorem Approve_skips_completed e id approval w s r :
  w_store w = Some s → view (env_others env (w_tick w) s) !! id = Some r →
  ∃ called, w_calls (Approve quote env e id approval w).1 = w_calls w ++ called ∧
    Forall (λ name, name ∉ CompletedSteps r) called.
Proof.
  intros Hs Hr. unfold Approve. rewrite (resume_eq _ _ _ _ _ s) by done.
  destruct (storeUpdate_law w s id (resume_guard "approve" (apply_approval approval)))
    as (s' & seen & res & -> & Hout); [done| |].
  { intros r0 u [_ ->]%resume_guard_ok. right. apply apply_approval_fields. }
  destruct res as [run|err]; [|by exists []; rewrite app_nil_r].
  unfold update_outcome in Hout. rewrite Hr in Hout.
  destruct (env_ctx env (w_tick w)); [done|].
  destruct (resume_guard _ _ r) as [u|] eqn:Hg; [|done]. injection Hout as Hv -> ->.
  apply resume_guard_ok in Hg as [_ ->].
  set (run := update_stamp _ r _).
  assert (CompletedSteps r ⊆ CompletedSteps run ∧ RunStatus run = StatusRunning) as [HC Hrun].
  { destruct (apply_approval_fields approval r) as [_ Hcs].
    unfold run, update_stamp. by case_decide; simpl; rewrite Hcs. }
  edestruct (ensures_runFrom (e_retryPolicy e) (e_steps e) run _ HC Hrun) as [[_ Hcalls] _].
  exact Hcalls.
Qed.

(** A run leaves waiting_approval once: an approval that finds the run in any
other state (for instance because a concurrent approval or cancellation came
first) returns InvalidTransitionError with the run it saw, runs no step and
writes nothing. *)
Theorem Approve_once e id approval w s r :
  w_store w = Some s → env_ctx env (w_tick w) = None →
  view (env_others env (w_tick w) s) !! id = Some r →
  RunStatus r ≠ StatusWaitingApproval →
  ∃ s', Approve quote env e id approval w =
    (mkWorld (S (S (w_tick w))) (Some s') (w_calls w),
     Some (r, Some (InvalidTransitionError (RunStatus r) StatusRunning "approve"))) ∧
    view s' = view (env_others env (w_tick w) s).
Proof.
  intros Hs Hctx Hr Hne. unfold Approve. rewrite (resume_eq _ _ _ _ _ s) by done.
  destruct (storeUpdate_law w s id (resume_guard "approve" (apply_approval approval)))
    as (s' & seen & res & -> & Hout); [done| |].
  { intros r0 u [_ ->]%resume_guard_ok. right. apply apply_approval_fields. }
  unfold update_outcome, resume_guard in Hout. rewrite Hr, Hctx, decide_True in Hout by done.
  injection Hout as Hv -> ->. by exists s'.
Qed.

End facts.

(** * Witnesses *)

Definition id_quote (s : string) : string := s.
Definition quiet_env : Env Runs :=
  mkEnv (λ t, 1 + Z.of_nat t)%Z (λ _, None) (λ _, None) (λ _ _, 0%Z) (λ _ s, s).
Definition ok_step (name : string) : Step := mkStep name (λ _ _, (zeroResult, None)).
Definition two_steps : Executor :=
  mkExecutor [ok_step "a"; ok_step "b"] (mkRetryPolicy 3 100 400).

(** "w" waits for an approval after step "a". *)
Definition waiting_run : WorkflowRun :=
  (newRun "w" StatusWaitingApproval) <| CompletedSteps := ["a"] |>.
Definition waiting_world : World Runs := mkWorld 0 (Some {["w" := waiting_run]}) [].
Definition cancelled_world : World Runs :=
  mkWorld 0 (Some {["w" := newRun "w" StatusCancelled]}) [].

Lemma quiet_rely : rely quiet_env.
Proof. intros t s. reflexivity. Qed.

Lemma executor_lifecycle_witness :
  ∃ s', w_store (exec_call id_quote quiet_env two_steps (CallRun (newRun "w" StatusPending))
      waiting_world).1 = Some s' ∧ evolves (view {["w" := waiting_run]}) (view s').
Proof.
  apply (executor_lifecycle id_quote quiet_env quiet_rely two_steps
    (CallRun (newRun "w" StatusPending)) waiting_world {["w" := waiting_run]});
    [done|by eexists].
Defined.

Lemma Approve_skips_completed_witness :
  ∃ called, w_calls (Approve id_quote quiet_env two_steps "w" (mkApproval "" ∅)
      waiting_world).1 = [] ++ called ∧ Forall (λ name, name ∉ ["a"]) called.
Proof.
  apply (Approve_skips_completed id_quote quiet_env quiet_rely two_steps "w" (mkApproval "" ∅)
    waiting_world {["w" := waiting_run]} waiting_run); done.
Defined.

Lemma Approve_once_witness :
  ∃ s', Approve id_quote quiet_env two_steps "w" (mkApproval "" ∅) cancelled_world =
    (mkWorld 2 (Some s') [],
     Some (newRun "w" StatusCancelled,
           Some (InvalidTransitionError StatusCancelled StatusRunning "approve"))) ∧
    view s' = view {["w" := newRun "w" StatusCancelled]}.
Proof.
  destruct (Approve_once id_quote quiet_env two_steps "w" (mkApproval "" ∅) cancelled_world
    {["w" := newRun "w" StatusCancelled]} (newRun "w" StatusCancelled))
    as (s' & Heq & Hv); [done..|]. exists s'. split; [exact Heq|exact Hv].
Defined.
