(* ===== verification/WorkflowProgress.v ===== *)
(** Progress of the workflow executor: every call returns, the retry budget
bounds the attempts of a step across claims, and without failures a run goes
through all its steps. *)

From S2P Require Import Prelude WorkflowRun WorkflowStore WorkflowExecutor WorkflowSafety.

Section progress.
Context {St : Type} `{StoreLaws St} (quote : string → string).

(** * Every call returns *)

Section returns.
Context (env : Env St).

(** [m] returns from every world, and keeps a store if there is one. *)
Definition returns {A} (m : M (St := St) A) : Prop :=
  ∀ w, is_Some (m w).2 ∧ (is_Some (w_store (m w).1) ↔ is_Some (w_store w)).

Lemma returns_ret {A} (a : A) : returns (mret a).
Proof. intros w. split; [by eexists|done]. Qed.

Lemma returns_bind {A B} (m : M (St := St) A) (k : A → M (St := St) B) :
  returns m → (∀ a, returns (k a)) → returns (m ≫= k).
Proof.
  intros Hm Hk w. destruct (Hm w) as [[a Ha] Hs]. unfold mbind, M_bind.
  destruct (m w) as [w1 o]. simpl in *. subst o. destruct (Hk a w1) as [Hr Hs1].
  split; [done|]. by rewrite Hs1.
Qed.

Lemma M_bind_some {A B} (m : M (St := St) A) (k : A → M (St := St) B) w w' a :
  m w = (w', Some a) → (m ≫= k) w = k a w'.
Proof. intros Hm. unfold mbind, M_bind. by rewrite Hm. Qed.

Lemma returns_timeNow : returns (timeNow env).
Proof. intros w. split; [by eexists|done]. Qed.
Lemma returns_ctxErr : returns (ctxErr env).
Proof. intros w. split; [by eexists|done]. Qed.
Lemma returns_waitDelay : returns (waitDelay env).
Proof. intros w. split; [by eexists|done]. Qed.
Lemma returns_callStep step run : returns (callStep (St := St) step run).
Proof. intros w. split; [by eexists|done]. Qed.

Lemma returns_backoff policy retry :
  policy_bounded policy → returns (backoff env policy retry).
Proof.
  intros Hb w. split; [|done]. simpl. unfold backoff, Backoff. simpl.
  destruct (decide (BaseDelay policy ≤ 0 ∨ retry ≤ 0)%Z) as [|Hn]; [by eexists|].
  pose proof (Backoff_draw (env_draw env (w_tick w)) policy retry Hb) as Hd.
  unfold Backoff in Hd. rewrite decide_False in Hd by done.
  rewrite Hd by lia. by eexists.
Qed.

(** A check of the store followed by an operation on it. *)
Lemma returns_store {A} (nil : A) (f : M (St := St) A) :
  (∀ w s, w_store w = Some s → is_Some (f w).2 ∧ is_Some (w_store (f w).1)) →
  returns (isNil ← storeIsNil; if (isNil : bool) then mret nil else f).
Proof.
  intros Hf w. unfold mbind, M_bind, storeIsNil.
  destruct (w_store w) as [s|] eqn:Hs.
  - destruct (Hf w s Hs) as [Ha Hst]. split; [done|].
    split; intros _; [by eexists|done].
  - split; [by eexists|]. simpl. by rewrite Hs.
Qed.

Lemma onStore_some {A} (f : Ctx → Time → Time → St → St * A) w s :
  w_store w = Some s → ∃ w' a, onStore env f w = (w', Some a) ∧ is_Some (w_store w').
Proof.
  intros Hs. unfold onStore. rewrite Hs. destruct (f _ _ _ _) as [s' a].
  eexists _, _. split; [done|by eexists].
Qed.

Lemma storeUpdate_some w s id mutate :
  w_store w = Some s →
  ∃ w' p, storeUpdate env id mutate w = (w', Some p) ∧ is_Some (w_store w').
Proof. apply onStore_some. Qed.

Lemma returns_save run : returns (save env run).
Proof.
  apply returns_store. intros w s Hs.
  destruct (storeUpdate_some w s (ID run) (save_guard run) Hs) as (w' & [seen r] & Heq & Hst).
  unfold mbind, M_bind. rewrite Heq. split; [by eexists|done].
Qed.

Lemma returns_retry_loop fuel policy step run :
  policy_bounded policy →
  (1 ≤ Z.of_nat fuel)%Z → (Z.max (MaxAttempts policy) 1 - StepRetries run ≤ Z.of_nat fuel)%Z →
  returns (retry_loop quote env fuel policy step run).
Proof.
  intros Hb. revert run. induction fuel as [|fuel IH]; intros run H1 Hfuel; [lia|].
  cbn [retry_loop]. cbv zeta.
  apply returns_bind; [apply returns_timeNow|]. intros startedAt.
  apply returns_bind; [apply returns_save|]. intros [e|]; [apply returns_ret|].
  apply returns_bind; [apply returns_callStep|]. intros [result err].
  destruct (match err with Some e => Some e | None => validateStepResult result end) as [e|].
  2:{ apply returns_bind; [apply returns_timeNow|]. intros endedAt.
      apply returns_bind; [apply returns_save|]. intros [e|]; apply returns_ret. }
  apply returns_bind; [apply returns_timeNow|]. intros endedAt.
  destruct (IsTransient e && negb (isInvalidStatus e) && _) eqn:Hretry; simpl negb; cbn iota.
  2:{ apply returns_bind; [apply returns_save|]. intros [?|]; apply returns_ret. }
  apply andb_true_iff in Hretry as [_ Hretry%bool_decide_eq_true]. simpl in Hretry.
  apply returns_bind; [by apply returns_backoff|]. intros delay. case_decide.
  { apply returns_bind; [apply returns_timeNow|]. intros now.
    apply returns_bind; [apply returns_save|]. intros [?|]; apply returns_ret. }
  apply returns_bind; [apply returns_save|]. intros [?|]; [apply returns_ret|].
  case_decide; [|apply IH; simpl; lia].
  apply returns_bind; [apply returns_waitDelay|].
  intros [?|]; [apply returns_ret|]. apply IH; simpl; lia.
Qed.

Lemma returns_runStep policy step run :
  policy_bounded policy → returns (runStepWithRetry quote env policy step run).
Proof.
  intros Hb. unfold runStepWithRetry, attempts_left. apply returns_retry_loop; [done|lia..].
Qed.

Lemma returns_runFrom policy steps run :
  policy_bounded policy → returns (runFrom quote env policy steps run).
Proof.
  intros Hb. revert run. induction steps as [|step steps IH]; intros run; cbn [runFrom]; cbv zeta.
  { apply returns_bind; [apply returns_save|]. intros e. apply returns_ret. }
  destruct (stepCompleted _ _); [apply IH|].
  apply returns_bind; [apply returns_save|]. intros [?|]; [apply returns_ret|].
  apply returns_bind; [by apply returns_runStep|]. intros [[[result yielded] err] run1].
  destruct yielded; [apply returns_ret|]. destruct err as [err|].
  { destruct (isRunPreempted err); [apply returns_ret|].
    apply returns_bind; [apply returns_save|]. intros [?|]; [|apply returns_ret].
    apply returns_bind; [apply returns_ctxErr|]. intros [?|]; apply returns_ret. }
  apply returns_bind; [apply returns_save|]. intros [?|]; [apply returns_ret|].
  destruct (isTerminalOrWaiting _); [apply returns_ret|apply IH].
Qed.

(** Splits on the outcome of the store update of the goal. *)
Ltac update_some Hs w' seen u e Hst :=
  match goal with
  | |- context [storeUpdate env ?id ?mutate] =>
      let Heq := fresh in
      destruct (storeUpdate_some _ _ id mutate Hs) as (w' & [seen [u|e]] & Heq & Hst);
      rewrite !(M_bind_some _ _ _ _ _ Heq)
  end.

Lemma returns_start run : returns (start env run).
Proof.
  unfold start. cbv zeta. apply returns_store. intros w s Hs.
  update_some Hs w' seen u e Hst.
  - split; [by eexists|exact Hst].
  - destruct (isRunNotFound e); [|split; [by eexists|exact Hst]].
    destruct Hst as [s' Hs']. unfold storeSave.
    match goal with |- context [onStore env ?f] =>
      destruct (onStore_some f w' s' Hs') as (w2 & a & Heq & Hst2) end.
    rewrite !(M_bind_some _ _ _ _ _ Heq). split; [by eexists|exact Hst2].
Qed.

(** C17: Every operation of the executor returns: for any store, environment and
steps, with delays below 2^57 ns, neither the retry loop's bound nor a panic in
the backoff is ever reached. *)
Theorem executor_returns e c w :
  policy_bounded (e_retryPolicy e) → is_Some (exec_call quote env e c w).2.
Proof.
  intros Hb.
  assert (∀ id op apply, returns (resumeWaiting quote env e id op apply)) as Hres.
  { intros id op apply. apply returns_store. intros w0 s Hs.
    update_some Hs w' seen u err Hst.
    - destruct (returns_runFrom (e_retryPolicy e) (e_steps e) u Hb w') as [? ->]. done.
    - split; [by eexists|exact Hst]. }
  destruct c; simpl; [|by apply Hres..|].
  - unfold Run. cbv zeta. case_decide; [by eexists|].
    apply returns_bind; [apply returns_start|].
    intros [started [?|]]; [apply returns_ret|by apply returns_runFrom].
  - refine (proj1 (returns_store _ _ _ w)). intros w0 s Hs.
    update_some Hs w' seen u err Hst; (split; [by eexists|exact Hst]).
Qed.

End returns.

(** * The retry budget *)

(** [m] calls the step [name] at most [k] times; if it returns a value, the
value and the number of calls satisfy [V]. *)
Definition calls_at_most {A} (name : string) (k : Z) (m : M (St := St) A)
    (V : A → Z → Prop) : Prop :=
  ∀ w, ∃ n : nat, w_calls (m w).1 = w_calls w ++ replicate n name ∧ (Z.of_nat n ≤ k)%Z ∧
    ∀ a, (m w).2 = Some a → V a (Z.of_nat n).

Lemma calls_ret {A} name k (a : A) (V : A → Z → Prop) :
  (0 ≤ k)%Z → V a 0%Z → calls_at_most name k (mret a) V.
Proof.
  intros Hk HV w. exists 0. rewrite app_nil_r. split_and!; [done..|]. by intros ? [= <-].
Qed.

Lemma calls_bind {A B} name k k' (m : M (St := St) A) (f : A → M (St := St) B) V V' :
  calls_at_most name k m V → (0 ≤ k')%Z →
  (∀ a n, V a n → (0 ≤ n)%Z →
     calls_at_most name k' (f a) (λ b n', V' b (n + n')%Z)) →
  calls_at_most name (k + k') (m ≫= f) V'.
Proof.
  intros Hm Hk' Hf w. destruct (Hm w) as (n & Hc & Hn & HV). unfold mbind, M_bind.
  destruct (m w) as [w1 [a|]]; simpl in *; [|by exists n; split_and!; [|lia|]].
  destruct (Hf a (Z.of_nat n) (HV a eq_refl) ltac:(lia) w1) as (n' & Hc' & Hn' & HV').
  exists (n + n'). rewrite Hc', Hc, replicate_add, (assoc_L (++)).
  split_and!; [done|lia|]. intros b Hb. rewrite Nat2Z.inj_add. by apply HV'.
Qed.

(** Computations that call no step. *)
Lemma calls_none {A} name (m : M (St := St) A) :
  (∀ w, w_calls (m w).1 = w_calls w) → calls_at_most name 0 m (λ _ n, n = 0%Z).
Proof.
  intros Hm w. exists 0. rewrite app_nil_r. split_and!; [apply Hm|done..].
Qed.

(** Sequencing after a computation that calls no step. *)
Lemma calls_skip {A B} name k (m : M (St := St) A) (f : A → M (St := St) B) V :
  (∀ w, w_calls (m w).1 = w_calls w) → (0 ≤ k)%Z →
  (∀ a, calls_at_most name k (f a) V) → calls_at_most name k (m ≫= f) V.
Proof.
  intros Hm Hk Hf. replace k with (0 + k)%Z by lia.
  eapply calls_bind; [by apply calls_none|done|]. intros a n -> _. apply Hf.
Qed.

Section budget.
Context (env : Env St).

Lemma storeUpdate_calls id mutate w : w_calls (storeUpdate env id mutate w).1 = w_calls w.
Proof.
  unfold storeUpdate, onStore. destruct (w_store w); [|done].
  by destruct (so_update _ _ _ _ _) as [[??]?].
Qed.

Lemma save_calls run w : w_calls (save env run w).1 = w_calls w.
Proof.
  unfold save, mbind, M_bind, storeIsNil. destruct (w_store w); [|done]. cbn iota.
  pose proof (storeUpdate_calls (ID run) (save_guard run) w) as Hc.
  by destruct (storeUpdate env (ID run) (save_guard run) w) as [w' [[? []]|]].
Qed.

(** What a call of [runStepWithRetry] leaves of the budget: a run that yields has
spent one retry per attempt, and has at least one attempt left. *)
Definition budget_post (policy : RetryPolicy) (run : WorkflowRun)
    (p : StepResult * bool * option Error * WorkflowRun) (n : Z) : Prop :=
  let '(_, yielded, _, run') := p in
  yielded = true → StepRetries run' = (StepRetries run + n)%Z ∧
    (StepRetries run' < Z.max (MaxAttempts policy) 1)%Z.

Lemma calls_retry_loop fuel policy step run :
  calls_at_most (step_Name step)
    (Z.max 1 (Z.max (MaxAttempts policy) 1 - StepRetries run))
    (retry_loop quote env fuel policy step run) (budget_post policy run).
Proof.
  revert run. induction fuel as [|fuel IH]; intros run.
  { intros w. exists 0. rewrite app_nil_r. split_and!; [done|lia|done]. }
  cbn [retry_loop]. cbv zeta.
  apply calls_skip; [done|lia|]. intros startedAt.
  apply calls_skip; [apply save_calls|lia|]. intros [e|]; [by apply calls_ret; [lia|]|].
  set (kleft := (Z.max 1 (Z.max (MaxAttempts policy) 1 - StepRetries run) - 1)%Z).
  replace (Z.max 1 _) with (1 + kleft)%Z by lia.
  eapply (calls_bind _ _ _ _ _ (λ _ n, n = 1%Z)); [|lia|].
  { intros w. exists 1. by split_and!. }
  intros [result err] n -> _.
  assert (∀ (p : StepResult * bool * option Error * WorkflowRun), p.1.1.2 = false →
    calls_at_most (step_Name step) kleft (mret p)
      (λ b n', budget_post policy run b (1 + n')%Z)) as Hret.
  { intros [[[? ?] ?] ?] Hy. simpl in Hy. subst. apply calls_ret; [lia|done]. }
  destruct (match err with Some e => Some e | None => validateStepResult result end) as [e|].
  2:{ apply calls_skip; [done|lia|]. intros endedAt.
      apply calls_skip; [apply save_calls|lia|]. intros [?|]; by apply Hret. }
  apply calls_skip; [done|lia|]. intros endedAt.
  destruct (IsTransient e && negb (isInvalidStatus e) && _) eqn:Hretry; simpl negb; cbn iota.
  2:{ apply calls_skip; [apply save_calls|lia|]. intros [?|]; by apply Hret. }
  apply andb_true_iff in Hretry as [_ Hretry%bool_decide_eq_true]. simpl in Hretry.
  apply calls_skip; [done|lia|]. intros delay. case_decide.
  { apply calls_skip; [done|lia|]. intros now.
    apply calls_skip; [apply save_calls|lia|]. intros [?|]; [by apply Hret|].
    apply calls_ret; [lia|]. intros _. simpl. lia. }
  apply calls_skip; [apply save_calls|lia|]. intros [?|]; [by apply Hret|].
  assert (∀ run', StepRetries run' = (StepRetries run + 1)%Z →
    calls_at_most (step_Name step) kleft (retry_loop quote env fuel policy step run')
      (λ b n', budget_post policy run b (1 + n')%Z)) as Hloop.
  { intros run' Hr w. destruct (IH run' w) as (n & Hc & Hn & HV). exists n.
    split_and!; [done|lia|]. intros [[[? y] ?] r] Ha Hy.
    destruct (HV _ Ha Hy) as [Hr' Hlt]. split; [lia|done]. }
  case_decide; [|by apply Hloop].
  apply calls_skip; [done|lia|]. intros [?|]; [by apply Hret|by apply Hloop].
Qed.

End budget.

(** The attempts of one step over successive claims of its run, each claim in its
own environment and world: a claim that yields is followed by a claim of the
run with the retry count the yield has stored. [n] counts the calls of the step. *)
Inductive retry_chain (policy : RetryPolicy) (step : Step) : WorkflowRun → nat → Prop :=
| chain_last env w run n :
    w_calls (runStepWithRetry quote env policy step run w).1 =
      w_calls w ++ replicate n (step_Name step) →
    retry_chain policy step run n
| chain_yield env w run run' claimed n k result err :
    (runStepWithRetry quote env policy step run w).2 = Some (result, true, err, run') →
    w_calls (runStepWithRetry quote env policy step run w).1 =
      w_calls w ++ replicate n (step_Name step) →
    StepRetries claimed = StepRetries run' →
    retry_chain policy step claimed k →
    retry_chain policy step run (n + k).

Lemma app_replicate_inj {A} (l : list A) n m x :
  l ++ replicate n x = l ++ replicate m x → n = m.
Proof. intros Heq%app_inv_head. by apply (f_equal length) in Heq; rewrite !length_replicate in Heq. Qed.

(** The retry budget survives yields: however often a run with a failing step
is released for its backoff and claimed again, by whatever workers, the step is
called at most [max MaxAttempts 1] times in all, counting the retries already
recorded in the run. *)
Theorem retry_budget policy step run n :
  retry_chain policy step run n →
  (Z.of_nat n ≤ Z.max 1 (Z.max (MaxAttempts policy) 1 - StepRetries run))%Z.
Proof.
  induction 1 as [env w run n Hc|env w run run' claimed n k result err Hy Hc Hr _ IH];
    (destruct (calls_retry_loop env (attempts_left policy run) policy step run w)
      as (n' & Hc' & Hn' & HV); unfold runStepWithRetry in *;
     rewrite Hc in Hc'; apply app_replicate_inj in Hc' as <-); [done|].
  destruct (HV _ Hy eq_refl) as [Heq Hlt]. rewrite Hr in IH. lia.
Qed.

(** * A run without failures *)

Section quiet.
Context (env : Env St).
Context (Hctx : ∀ t, env_ctx env t = None) (Hothers : ∀ t s, env_others env t s = s).

(** The world holds a store in which the stored run agrees with [run] on what
the guards look at, and on the steps that are done. *)
Definition in_sync (w : World St) (run : WorkflowRun) : Prop :=
  ∃ s cur, w_store w = Some s ∧ view s !! ID run = Some cur ∧
    RunStatus cur = RunStatus run ∧ LeaseOwner cur = LeaseOwner run ∧
    CompletedSteps cur = CompletedSteps run ∧ StepRecords cur = StepRecords run.

(** [in_sync], but for the fields a save is about to write. *)
Definition holds_running (w : World St) (run : WorkflowRun) : Prop :=
  ∃ s cur, w_store w = Some s ∧ view s !! ID run = Some cur ∧
    RunStatus cur = StatusRunning ∧ LeaseOwner cur = LeaseOwner run.

Lemma in_sync_holds w run run' :
  in_sync w run → RunStatus run = StatusRunning → ID run' = ID run →
  LeaseOwner run' = LeaseOwner run → holds_running w run'.
Proof.
  intros (s & cur & Hs & Hl & Hst & Ho & _) Hr Hid Hown. exists s, cur.
  rewrite Hid, Hown. split_and!; congruence.
Qed.

Lemma save_quiet w run :
  holds_running w run →
  ∃ w', save env run w = (w', Some None) ∧ in_sync w' run ∧ w_calls w' = w_calls w.
Proof.
  intros (s & cur & Hs & Hl & Hst & Ho). unfold save.
  unfold mbind at 1, M_bind at 1, storeIsNil. rewrite Hs. cbn iota.
  destruct (storeUpdate_law env w s (ID run) (save_guard run)) as (s' & seen & r & Heq & Hout);
    [done|by intros ?? (_ & _ & ? & _)%save_guard_ok; left|].
  rewrite Hctx, Hothers in Hout. unfold update_outcome in Hout. rewrite Hl in Hout.
  unfold save_guard at 1 in Hout. rewrite decide_False in Hout by naive_solver.
  injection Hout as Hv -> ->. rewrite (M_bind_some _ _ _ _ _ Heq).
  eexists; split_and!; [done| |done]. eexists s', _. split_and!; [done|by rewrite Hv, lookup_insert_eq|..];
    unfold update_stamp; by case_decide.
Qed.

(** A step that always succeeds, and does not end or suspend the run. *)
Definition step_succeeds (step : Step) : Prop :=
  ∀ t run, (step_Run step t run).2 = None ∧
    (res_Status (step_Run step t run).1 = "" ∨
     res_Status (step_Run step t run).1 = StatusRunning).

Ltac saves w' Hsync Hcalls :=
  match goal with
  | |- context [(save env ?r ≫= _) ?w] =>
      let Heq := fresh in
      destruct (save_quiet w r) as (w' & Heq & Hsync & Hcalls);
        [|rewrite (M_bind_some _ _ _ _ _ Heq); clear Heq]
  end.

Lemma runStep_quiet policy step run w :
  step_succeeds step → in_sync w run → RunStatus run = StatusRunning →
  ∃ w' result run', runStepWithRetry quote env policy step run w =
      (w', Some (result, false, None, run')) ∧
    (res_Status result = "" ∨ res_Status result = StatusRunning) ∧
    w_calls w' = w_calls w ++ [step_Name step] ∧
    in_sync w' run' ∧ RunStatus run' = StatusRunning ∧ ID run' = ID run ∧
    LeaseOwner run' = LeaseOwner run ∧ CompletedSteps run' = CompletedSteps run.
Proof.
  intros Hok Hsync Hr. unfold runStepWithRetry.
  destruct (attempts_left policy run) as [|fuel] eqn:Hf; [unfold attempts_left in Hf; lia|].
  cbn [retry_loop]. cbv zeta. rewrite (M_bind_some _ _ _ (next w) _ eq_refl).
  saves w1 Hs1 Hc1. { by eapply (in_sync_holds w). }
  rewrite (M_bind_some (callStep _ _) _ _ _ _ eq_refl).
  match goal with |- context [step_Run step ?t ?r] =>
    destruct (Hok t r) as [He Hres]; destruct (step_Run step t r) as [result err] end.
  simpl in He, Hres. subst err. cbn iota beta.
  assert (validateStepResult result = None) as -> by (by destruct Hres as [Hres|Hres];
    unfold validateStepResult; rewrite Hres).
  rewrite (M_bind_some (timeNow env) _ _ _ _ eq_refl).
  match type of Hs1 with in_sync _ ?r =>
    saves w2 Hs2 Hc2; [eapply (in_sync_holds w1 r); done|] end.
  eexists w2, result, _. split_and!; try done. rewrite Hc2. simpl. by rewrite Hc1.
Qed.

(** The steps a run still has to take, in order. *)
Fixpoint pending_names (steps : list Step) (completed : list string) : list string :=
  match steps with
  | [] => []
  | step :: steps =>
      if decide (step_Name step ∈ completed) then pending_names steps completed
      else step_Name step :: pending_names steps (completed ++ [step_Name step])
  end.

Lemma runFrom_quiet policy steps run w :
  Forall step_succeeds steps → in_sync w run → RunStatus run = StatusRunning →
  ∃ w' run', runFrom quote env policy steps run w = (w', Some (run', None)) ∧
    in_sync w' run' ∧ RunStatus run' = StatusSucceeded ∧ ID run' = ID run ∧
    CompletedSteps run' = CompletedSteps run ++ pending_names steps (CompletedSteps run) ∧
    w_calls w' = w_calls w ++ pending_names steps (CompletedSteps run).
Proof.
  intros Hok. revert run w. induction Hok as [|step steps Hstep _ IH];
    intros run w Hsync Hr; cbn [runFrom pending_names]; cbv zeta.
  { saves w1 Hs1 Hc1; [by eapply (in_sync_holds w run)|].
    eexists w1, _. rewrite !app_nil_r. by split_and!. }
  unfold stepCompleted. case_decide as Hin; [by rewrite bool_decide_true by done; apply IH|].
  rewrite bool_decide_false by done. saves w1 Hs1 Hc1; [by eapply (in_sync_holds w run)|].
  destruct (runStep_quiet policy step _ w1 Hstep Hs1 Hr)
    as (w2 & result & run2 & Heq & Hres & Hc2 & Hs2 & Hr2 & Hid2 & Ho2 & Hcs2).
  rewrite (M_bind_some _ _ _ _ _ Heq). cbn iota beta.
  set (run3 := if isFailedOrCancelled _ then _ else _).
  assert (RunStatus run3 = StatusRunning ∧ ID run3 = ID run2 ∧
    LeaseOwner run3 = LeaseOwner run2 ∧ CompletedSteps run3 = CompletedSteps run2 ++ [step_Name step])
    as (Hr3 & Hid3 & Ho3 & Hcs3).
  { destruct (applyStepResult_fields run2 result) as (Hid & Hcs & Hst).
    assert (LeaseOwner (applyStepResult run2 result) = LeaseOwner run2) as Hown
      by (unfold applyStepResult; by case_decide).
    assert (RunStatus (applyStepResult run2 result) = StatusRunning) as Hrun
      by (rewrite Hst, Hr2; by destruct Hres as [->| ->]).
    unfold run3, markStepCompleted, stepCompleted. rewrite Hrun.
    rewrite (bool_decide_false (step_Name step ∈ _)) by by rewrite Hcs, Hcs2.
    simpl. rewrite Hcs. by split_and!. }
  saves w3 Hs3 Hc3; [by eapply (in_sync_holds w2 run2)|].
  rewrite Hr3. change (isTerminalOrWaiting StatusRunning) with false. cbn iota.
  destruct (IH run3 w3) as (w4 & run4 & -> & Hs4 & Hr4 & Hid4 & Hcs4 & Hc4); [done..|].
  exists w4, run4. rewrite Hcs3, Hcs2 in Hcs4, Hc4. simpl in *.
  split_and!; try done.
  - congruence.
  - by rewrite Hcs4, <-(assoc_L (++)).
  - rewrite Hc4, Hc3, Hc2, Hc1, <-(assoc_L (++)). done.
Qed.

(** The run [start] works on. *)
Lemma start_quiet run w s :
  w_store w = Some s →
  (∀ cur, view s !! ID run = Some cur →
     RunStatus cur = StatusPending ∧ LeaseOwner cur = LeaseOwner run) →
  ∃ w' run', start env run w = (w', Some (run', None)) ∧ in_sync w' run' ∧
    RunStatus run' = StatusRunning ∧ ID run' = ID run ∧
    CompletedSteps run' = CompletedSteps run ∧ w_calls w' = w_calls w.
Proof.
  intros Hs Hcur. rewrite (start_eq env run w s Hs). cbv zeta.
  set (run1 := run <| RunStatus := StatusRunning |> <| NextAttemptAt := 0%Z |>).
  destruct (storeUpdate_law env w s (ID run) (start_guard run1)) as (s' & seen & r & Heq & Hout);
    [done|by intros ?? (_ & _ & ? & _)%start_guard_ok; left|].
  rewrite Heq. rewrite Hctx, Hothers in Hout. unfold update_outcome in Hout.
  destruct (view s !! ID run) as [cur|].
  - destruct (Hcur cur eq_refl) as [Hst Ho]. unfold start_guard in Hout.
    rewrite !decide_False in Hout by naive_solver. injection Hout as Hv -> ->.
    eexists _, _. split_and!; [done| |unfold update_stamp; by case_decide..|done].
    eexists s', _. split_and!; [done| |done..].
    rewrite Hv. replace (ID (update_stamp _ _ _)) with (ID run); [by rewrite lookup_insert_eq|].
    unfold update_stamp; by case_decide.
  - injection Hout as Hv -> ->. cbn [isRunNotFound errors_tree orb].
    unfold storeSave, onStore, mbind, M_bind. simpl.
    rewrite Hctx, Hothers.
    match goal with |- context [so_save ?c ?n ?m s' run1] =>
      pose proof (save_law c n m s' run1) as Hlaw; destruct (so_save c n m s' run1) as [s2 r2] end.
    destruct Hlaw as [Hv2 ->]. eexists _, _. split_and!; try done.
    eexists s2, _. split_and!; [done|by rewrite Hv2, lookup_insert_eq|..];
      unfold save_stamp; by case_decide.
Qed.

(** C18: A run whose steps succeed completes: with a live context, no other writer,
and a run that is new or stored as pending under the caller's lease, [Run]
returns it succeeded without an error, after calling every step it had not
completed exactly once and in order, and the store holds it as succeeded with
the same completed steps and step records. *)
Theorem Run_completes e run w s :
  Forall step_succeeds (e_steps e) → w_store w = Some s →
  (RunStatus run = "" ∨ RunStatus run = StatusPending) →
  (∀ cur, view s !! ID run = Some cur →
     RunStatus cur = StatusPending ∧ LeaseOwner cur = LeaseOwner run) →
  let pending := pending_names (e_steps e) (CompletedSteps run) in
  ∃ w' run', Run quote env e run w = (w', Some (run', None)) ∧
    RunStatus run' = StatusSucceeded ∧
    CompletedSteps run' = CompletedSteps run ++ pending ∧
    w_calls w' = w_calls w ++ pending ∧
    ∃ s' stored, w_store w' = Some s' ∧ view s' !! ID run = Some stored ∧
      RunStatus stored = StatusSucceeded ∧
      CompletedSteps stored = CompletedSteps run ++ pending ∧
      StepRecords stored = StepRecords run'.
Proof.
  intros Hok Hs Hst Hcur pending. unfold Run. cbv zeta.
  set (run0 := if decide (RunStatus run = "") then _ else run).
  assert (RunStatus run0 = StatusPending ∧ ID run0 = ID run ∧
    LeaseOwner run0 = LeaseOwner run ∧ CompletedSteps run0 = CompletedSteps run)
    as (Hr0 & Hid0 & Ho0 & Hcs0).
  { unfold run0. case_decide; [done|]. naive_solver. }
  rewrite Hr0, decide_False by naive_solver.
  destruct (start_quiet run0 w s Hs) as (w1 & run1 & Heq & Hsync & Hr1 & Hid1 & Hcs1 & Hc1).
  { by rewrite Hid0, Ho0. }
  rewrite (M_bind_some _ _ _ _ _ Heq). cbn iota beta.
  destruct (runFrom_quiet (e_retryPolicy e) (e_steps e) run1 w1 Hok Hsync Hr1)
    as (w2 & run2 & -> & (s' & stored & Hs' & Hl & Hst' & _ & Hcs' & Hrec) & Hr2 & Hid2 & Hcs2 & Hc2).
  rewrite Hcs1, Hcs0 in Hcs2, Hc2. fold pending in Hcs2, Hc2.
  exists w2, run2. rewrite Hid2, Hid1, Hid0 in Hl. split_and!; [done..|congruence|].
  exists s', stored. split_and!; congruence.
Qed.

End quiet.

End progress.

(** * The unguarded write of [start] *)

(** Another client that saves the run "w" as cancelled at tick 2, unless it is
there already. *)
Definition racing_client (t : nat) (s : Runs) : Runs :=
  if decide (t = 2) then
    match s !! "w" with
    | None => <["w" := newRun "w" StatusCancelled]> s
    | Some _ => s
    end
  else s.
Definition racing_env : Env Runs :=
  mkEnv (λ t, 1 + Z.of_nat t)%Z (λ _, None) (λ _, None) (λ _ _, 0%Z) racing_client.

Lemma racing_rely : rely racing_env.
Proof.
  intros t s. simpl. unfold racing_client. case_decide; [|reflexivity].
  destruct (s !! "w") eqn:Hw; [reflexivity|]. by apply evolves_insert_new.
Qed.

(** The write guard has a gap: when [Run] is called for a run that is not in
the store yet, [start] falls back from its guarded Update to a plain Save. A
client that follows the lifecycle and stores the run as cancelled between the
two is overwritten: the cancelled run is running afterwards. *)
Theorem start_save_race :
  rely racing_env ∧
  racing_client 2 ∅ !! "w" = Some (newRun "w" StatusCancelled) ∧
  ∃ w' run' stored, start racing_env (newRun "w" StatusPending) (mkWorld 0 (Some ∅) []) =
      (w', Some (run', None)) ∧
    w_store w' = Some (<["w" := stored]> ∅) ∧ RunStatus stored = StatusRunning.
Proof.
  split_and!; [apply racing_rely|done|]. eexists _, _, _.
  split_and!; [vm_compute; reflexivity|vm_compute; reflexivity|done].
Qed.

(** * Witnesses *)

Definition flaky_step : Step :=
  mkStep "flaky" (λ _ _, (zeroResult, Some (TransientError (ErrOther "timeout")))).
Lemma executor_returns_witness :
  is_Some (exec_call id_quote quiet_env two_steps (CallCancel "w" "stop")
    (mkWorld 0 (Some (MemoryStore.two_runs)) [])).2.
Proof. apply executor_returns. by vm_compute. Defined.

Lemma retry_budget_witness : (Z.of_nat 3 ≤ Z.max 1 (3 - 0))%Z.
Proof.
  apply (retry_budget (St := Runs) id_quote (mkRetryPolicy 3 0 0) flaky_step zeroRun 3).
  apply (chain_last id_quote _ _ quiet_env (mkWorld 0 None [])). vm_compute. reflexivity.
Defined.

Lemma Run_completes_witness :
  ∃ w' run', Run id_quote quiet_env two_steps (newRun "w" "") (mkWorld 0 (Some (∅ : Runs)) []) =
      (w', Some (run', None)) ∧ w_calls w' = ["a"; "b"].
Proof.
  destruct (Run_completes id_quote quiet_env (λ _, eq_refl) (λ _ _, eq_refl) two_steps
    (newRun "w" "") (mkWorld 0 (Some (∅ : Runs)) []) ∅) as (w' & run' & Hr & _ & _ & Hc & _).
  - repeat constructor.
  - reflexivity.
  - by left.
  - done.
  - eauto.
Defined.
