(* ===== verification/Sql.v ===== *)
(** Programs over a SQL database: statements that may fail, other clients, transactions.

A statement is a function on the tables. Outside a transaction other clients act before each
statement; a transaction holds the write lock from its start, and an error rolls it back. *)

From S2P Require Import Prelude.

Module Sql.

Section sql.
Context {DB Error : Type}.

(** * Programs *)

Record World := mkWorld { w_db : DB; w_tick : nat }.
Definition M (A : Type) : Type := World → World * res Error A.
Definition ret {A} (a : A) : M A := λ w, (w, Ok a).
Definition raise {A} (e : Error) : M A := λ w, (w, Err e).
Definition bind {A B} (c : M A) (k : A → M B) : M B := λ w,
  match c w with (w, Ok a) => k a w | (w, Err e) => (w, Err e) end.
Definition lift {A} (r : res Error A) : M A := λ w, (w, r).
#[local] Notation "'do!' x ':=' c 'in' k" := (bind c (λ x, k)) (at level 10, x name, k at level 200).
#[local] Notation "c ';;' k" := (bind c (λ _, k)) (at level 100, right associativity).

Section driver.
(** The statements that fail, by the tick at which they run, and the other clients. *)
Context (fault : nat → option Error) (others : nat → DB → DB).

(** A statement, in a transaction or not. *)
Definition stmt {A} (in_tx : bool) (f : DB → DB * A) : M A := λ w,
  let d := if in_tx then w_db w else others (w_tick w) (w_db w) in
  match fault (w_tick w) with
  | Some e => (mkWorld d (S (w_tick w)), Err e)
  | None => let '(d, a) := f d in (mkWorld d (S (w_tick w)), Ok a)
  end.

Definition query {A} (in_tx : bool) (f : DB → A) : M A := stmt in_tx (λ d, (d, f d)).
Definition exec (in_tx : bool) (f : DB → DB) : M () := stmt in_tx (λ d, (f d, ())).

(** [BeginTx], the body, and [Commit], or [Rollback] on an error. *)
Definition tx {A} (body : M A) : M A := λ w,
  match exec false id w with
  | (w, Err e) => (w, Err e)
  | (w1, Ok _) =>
      match (do! a := body in exec true id ;; ret a) w1 with
      | (w2, Ok a) => (w2, Ok a)
      | (w2, Err e) => (mkWorld (w_db w1) (w_tick w2), Err e)
      end
  end.

End driver.

(** * Running without faults *)

(** Without faults and other clients, [c] takes database [d] to [d'] with result [r]. *)
Definition yields {A} (c : M A) (d d' : DB) (r : res Error A) : Prop :=
  ∀ t, ∃ t', c (mkWorld d t) = (mkWorld d' t', r).

Abbreviation no_fault := (λ _ : nat, None).
Abbreviation alone := (λ (_ : nat) d, d).

Lemma yields_ret {A} (a : A) d : yields (ret a) d d (Ok a).
Proof. intros t. by eexists. Qed.
Lemma yields_raise {A} e d : yields (raise e : M A) d d (Err e).
Proof. intros t. by eexists. Qed.
Lemma yields_lift {A} (r : res Error A) d : yields (lift r) d d r.
Proof. intros t. by eexists. Qed.

Lemma yields_bind {A B} (c : M A) (k : A → M B) d d1 d' a r :
  yields c d d1 (Ok a) → yields (k a) d1 d' r → yields (bind c k) d d' r.
Proof. intros H1 H2 t. unfold bind. destruct (H1 t) as [t1 ->]. apply H2. Qed.

Lemma yields_bind_err {A B} (c : M A) (k : A → M B) d d' e :
  yields c d d' (Err e) → yields (bind c k) d d' (Err e).
Proof. intros H1 t. unfold bind. destruct (H1 t) as [t1 ->]. by eexists. Qed.

Lemma yields_stmt {A} in_tx (f : DB → DB * A) d :
  yields (stmt no_fault alone in_tx f) d (f d).1 (Ok (f d).2).
Proof. intros t. unfold stmt; simpl. destruct in_tx, (f d); simpl; eauto. Qed.

Lemma yields_stmt_eq {A} in_tx (f : DB → DB * A) d d' a :
  f d = (d', a) → yields (stmt no_fault alone in_tx f) d d' (Ok a).
Proof. intros E. pose proof (yields_stmt in_tx f d) as H. by rewrite E in H. Qed.

Lemma yields_query {A} in_tx (f : DB → A) d : yields (query no_fault alone in_tx f) d d (Ok (f d)).
Proof. apply (yields_stmt in_tx (λ d, (d, f d))). Qed.

Lemma yields_exec in_tx (f : DB → DB) d : yields (exec no_fault alone in_tx f) d (f d) (Ok ()).
Proof. apply (yields_stmt in_tx (λ d, (f d, ()))). Qed.

Lemma yields_tx {A} (body : M A) d d' r :
  yields body d d' r →
  yields (tx no_fault alone body) d (match r with Ok _ => d' | Err _ => d end) r.
Proof.
  intros H t. unfold tx. destruct (yields_exec false id d t) as [t1 ->]; simpl.
  unfold bind. destruct (H t1) as [t2 ->]. destruct r as [a|e]; [|by eexists].
  destruct (yields_exec true id d' t2) as [t3 ->]. by eexists.
Qed.

Lemma yields_det {A} (c : M A) d d1 d2 r1 r2 : yields c d d1 r1 → yields c d d2 r2 → d1 = d2 ∧ r1 = r2.
Proof. intros H1 H2. destruct (H1 0%nat) as [t1 E1], (H2 0%nat) as [t2 E2]. rewrite E1 in E2. by injection E2 as -> _ ->. Qed.

(** * Faults and other clients *)

Section faults.
Context (fault : nat → option Error) (others : nat → DB → DB).

(** A driver error. *)
Definition faulted {A} (r : res Error A) : Prop := ∃ t e, fault t = Some e ∧ r = Err e.

(** In a transaction [c] fails with a driver error, or does what [c0] does without faults. *)
Definition calm {A} (c c0 : M A) : Prop := ∀ w w' r,
  c w = (w', r) → faulted r ∨ yields c0 (w_db w) (w_db w') r.

Lemma calm_ret {A} (a : A) : calm (ret a) (ret a).
Proof. intros w w' r [= <- <-]. right. apply yields_ret. Qed.
Lemma calm_raise {A} e : calm (raise e : M A) (raise e).
Proof. intros w w' r [= <- <-]. right. apply yields_raise. Qed.
Lemma calm_lift {A} (r : res Error A) : calm (lift r) (lift r).
Proof. intros w w' r' [= <- <-]. right. apply yields_lift. Qed.
Lemma calm_bind {A B} (c c0 : M A) (k k0 : A → M B) :
  calm c c0 → (∀ a, calm (k a) (k0 a)) → calm (bind c k) (bind c0 k0).
Proof.
  intros Hc Hk w w' r. unfold bind at 1. destruct (c w) as [w1 [a|e]] eqn:E.
  - intros E2. destruct (Hc _ _ _ E) as [(? & ? & _ & ?)|H1]; [done|].
    destruct (Hk _ _ _ _ E2) as [?|H2]; [by left|]. right. by eapply yields_bind.
  - intros [= <- <-]. destruct (Hc _ _ _ E) as [(t & e' & Hf & [= <-])|H1]; [left; by exists t, e|].
    right. by eapply yields_bind_err.
Qed.
Lemma calm_stmt {A} (f : DB → DB * A) : calm (stmt fault others true f) (stmt no_fault alone true f).
Proof.
  intros w w' r. unfold stmt at 1. destruct (fault _) as [e|] eqn:Ef.
  - intros [= <- <-]. left. by eexists _, _.
  - destruct (f (w_db w)) as [d a] eqn:E. intros [= <- <-]. right. by eapply yields_stmt_eq.
Qed.

(** A transaction fails with a driver error and leaves the database as it found it, or does
what it does without faults to the database it found. *)
Lemma tx_atomic {A} (body body0 : M A) w w' r :
  calm body body0 → tx fault others body w = (w', r) →
  (faulted r ∧ w_db w' = others (w_tick w) (w_db w)) ∨
  yields (tx no_fault alone body0) (others (w_tick w) (w_db w)) (w_db w') r.
Proof.
  intros Hb. unfold tx at 1, exec at 1, stmt at 1. destruct (fault (w_tick w)) as [e|] eqn:Ef.
  { intros [= <- <-]. left. split; [by eexists _, _|done]. }
  cbn [w_db w_tick id]. set (d := others (w_tick w) (w_db w)). unfold bind.
  destruct (body _) as [w2 [a|e]] eqn:E; destruct (Hb _ _ _ E) as [Hf|Hy].
  - by destruct Hf as (? & ? & _ & ?).
  - unfold exec, stmt. destruct (fault (w_tick w2)) as [e|] eqn:Ef2; intros [= <- <-].
    + left. split; [by eexists _, _|done].
    + right. by apply (yields_tx body0 d _ (Ok a)).
  - intros [= <- <-]. left. split; [|done]. destruct Hf as (t & e' & ? & [= ->]). by exists t, e'.
  - intros [= <- <-]. right. by apply (yields_tx body0 d (w_db w2) (Err e)).
Qed.

(** A call whose one access is a statement or a transaction: at one moment, before or after the
other clients act, it fails with a driver error and changes nothing, or does all that [c0] does
without faults. *)
Definition atomic {A} (c c0 : M A) : Prop := ∀ w w' r,
  c w = (w', r) → ∃ d, (d = w_db w ∨ d = others (w_tick w) (w_db w)) ∧
    ((faulted r ∧ w_db w' = d) ∨ yields c0 d (w_db w') r).

(** A program without accesses. *)
Definition quiet {A} (c : M A) : Prop := ∃ r, ∀ w, c w = (w, r).

Lemma quiet_ret {A} (a : A) : quiet (ret a).
Proof. by eexists. Qed.
Lemma quiet_raise {A} e : quiet (raise e : M A).
Proof. by eexists. Qed.
Lemma quiet_bind {A B} (c : M A) (k : A → M B) : quiet c → (∀ a, quiet (k a)) → quiet (bind c k).
Proof.
  intros [[a|e] Hc] Hk; [destruct (Hk a) as [r Hr]; exists r|exists (Err e)]; intros w; unfold bind; by rewrite Hc.
Qed.

Lemma atomic_quiet {A} (c : M A) : quiet c → atomic c c.
Proof.
  intros [r Hc] w w' r'. rewrite Hc. intros [= <- <-]. exists (w_db w). split; [by left|]. right. intros t. exists t. by rewrite Hc.
Qed.
Lemma atomic_stmt {A} (f : DB → DB * A) : atomic (stmt fault others false f) (stmt no_fault alone false f).
Proof.
  intros w w' r H. unfold stmt at 1 in H. exists (others (w_tick w) (w_db w)). split; [by right|].
  destruct (fault _) as [e|] eqn:Ef; [injection H as <- <-; left; split; [by eexists _, _|done]|].
  destruct (f _) as [d a] eqn:E. injection H as <- <-. right. by eapply yields_stmt_eq.
Qed.
Lemma atomic_tx {A} (body body0 : M A) : calm body body0 → atomic (tx fault others body) (tx no_fault alone body0).
Proof. intros Hb w w' r E. exists (others (w_tick w) (w_db w)). split; [by right|]. by apply (tx_atomic body). Qed.
Lemma atomic_first {A B} (c : M A) (k k0 : A → M B) :
  quiet c → (∀ a, atomic (k a) (k0 a)) → atomic (bind c k) (bind c k0).
Proof.
  intros [[a|e] Hc] Hk w w' r; unfold bind at 1; rewrite Hc.
  - intros E. destruct (Hk _ _ _ _ E) as (d & Hd & [Hf|Hy]); exists d; (split; [done|]); [by left|right].
    intros t. unfold bind. rewrite Hc. apply Hy.
  - intros [= <- <-]. exists (w_db w). split; [by left|]. right. apply yields_bind_err. intros t. exists t. by rewrite Hc.
Qed.
Lemma atomic_last {A B} (c c0 : M A) (k : A → M B) :
  atomic c c0 → (∀ a, quiet (k a)) → atomic (bind c k) (bind c0 k).
Proof.
  intros Hc Hk w w' r. unfold bind at 1. destruct (c w) as [w1 r1] eqn:E.
  destruct (Hc _ _ _ E) as (d & Hd & Hr). intros Hw. exists d. split; [done|].
  destruct Hr as [[Hf Hdb]|Hy].
  - left. destruct Hf as (t & e & Hf & ->). injection Hw as <- <-. split; [by exists t, e|done].
  - right. destruct r1 as [a|e].
    + destruct (Hk a) as [r2 Hq]. rewrite Hq in Hw. injection Hw as <- <-. eapply yields_bind; [done|].
      intros t. exists t. by rewrite Hq.
    + injection Hw as <- <-. by apply yields_bind_err.
Qed.

End faults.

End sql.

Arguments World : clear implicits.
Arguments M : clear implicits.

Abbreviation no_fault := (λ _ : nat, None).
Abbreviation alone := (λ (_ : nat) d, d).

#[export] Hint Resolve yields_ret yields_raise yields_lift yields_query yields_exec : go.

(** Case analysis and composition. *)
Ltac calm_solve :=
  repeat lazymatch goal with
  | |- ∀ _, _ => intro
  | |- calm _ (let _ := _ in _) _ => cbv zeta
  | |- calm _ (bind _ _) _ => apply calm_bind
  | |- calm _ (match ?x with _ => _ end) _ => destruct x
  | |- calm _ (ret _) _ => apply calm_ret
  | |- calm _ (raise _) _ => apply calm_raise
  | |- calm _ (lift _) _ => apply calm_lift
  | |- calm _ (stmt _ _ _ _) _ => apply calm_stmt
  | |- calm _ (query _ _ _ _) _ => apply calm_stmt
  | |- calm _ (exec _ _ _ _) _ => apply calm_stmt
  end.

End Sql.
