(* ===== verification/WorkflowSqlite.v ===== *)
(** The SQLite workflow store: [src/workflowkit/sqlitestore/store.go] and the
time encoding of [dbtime.go].

A database is its two tables, and each SQL statement of the code is a function on
them. A statement may fail for reasons of the driver or the context
([fault]), and between two statements outside a transaction other clients may
change the database ([others]); [db.SetMaxOpenConns] and [_txlock=immediate] keep
them out of a transaction. A transaction that does not commit leaves the database as
it was when it began. JSON encoding is the class [Json]. Reading times in the text
encoding of older schemas and the [CREATE] and [ALTER] statements of [migrate] are not
modelled: the tables are those of the current schema. *)

From S2P Require Import Prelude Sql WorkflowRun WorkflowStore.
#[local] Open Scope Z_scope.

Module Sqlite.
Import Sql.

Definition SchemaVersion : Z := 4.

(** * Times ([dbtime.go]) *)

(** The Unix epoch, in nanoseconds since the zero time. *)
Definition unix_epoch : Time := 62135596800 * 1000000000.

(** [t.UnixNano()], whose result the documentation leaves open out of range: it wraps. *)
Definition UnixNano (t : Time) : Z := wrap64 (t - unix_epoch).

Definition dbTime (t : Time) : Z := if decide (IsZero t) then 0 else UnixNano t.

(** [timeColumn.Scan] of an integer column. *)
Definition scanTime (v : Z) : Time := if decide (v = 0) then 0 else v + unix_epoch.

(** * JSON *)

(** [encoding/json] on the values the store encodes: a value or the text of an error. *)
Abbreviation json := (res string).
Class Json := {
  j_strings : list string → json string;  u_strings : string → json (list string);
  j_counts : GoMap Z → json string;       u_counts : string → json (GoMap Z);
  j_metadata : Metadata → json string;    u_metadata : string → json Metadata;
  j_record : StepRecord → json string;    u_record : string → json StepRecord;
  u_records : string → json (list StepRecord)
}.

(** What decoding makes of an encoded value: numbers become [float64], bytes that are not
UTF-8 are replaced. *)
Class JsonLaws `{J : Json} := {
  clean_strings : list string → list string;
  clean_counts : GoMap Z → GoMap Z;
  clean_metadata : Metadata → Metadata;
  clean_record : StepRecord → StepRecord;
  strings_decoded v s : j_strings v = Ok s → s ≠ "" ∧ u_strings s = Ok (clean_strings v);
  counts_decoded v s : j_counts v = Ok s → s ≠ "" ∧ u_counts s = Ok (clean_counts v);
  metadata_decoded v s : j_metadata v = Ok s → s ≠ "" ∧ u_metadata s = Ok (clean_metadata v);
  record_decoded v s : j_record v = Ok s → s ≠ "" ∧ u_record s = Ok (clean_record v)
}.
Arguments JsonLaws : clear implicits.

(** * Tables *)

(** A row of [workflow_runs]. Its time columns hold times in Go and [dbTime] of them in the
database. *)
Record runRow := mkRow {
  row_ID : string; row_Status : string; row_InputRef : string; row_OutputRef : string;
  row_AgentRunID : string; row_AuditRef : string; row_Error : string; row_ApprovalRef : string;
  row_WaitingReason : string; row_CurrentStep : string; row_CompletedStepsJSON : string;
  row_StepAttemptsJSON : string; row_StepRetries : Z; row_NextAttemptAt : Z;
  row_MetadataJSON : string; row_LeaseOwner : string; row_LeaseUntil : Z; row_CreatedAt : Z;
  row_UpdatedAt : Z
}.
#[global] Instance eta_runRow : Eta runRow := λ r,
  mkRow (row_ID r) (row_Status r) (row_InputRef r) (row_OutputRef r) (row_AgentRunID r) (row_AuditRef r)
    (row_Error r) (row_ApprovalRef r) (row_WaitingReason r) (row_CurrentStep r) (row_CompletedStepsJSON r)
    (row_StepAttemptsJSON r) (row_StepRetries r) (row_NextAttemptAt r) (row_MetadataJSON r)
    (row_LeaseOwner r) (row_LeaseUntil r) (row_CreatedAt r) (row_UpdatedAt r).

(** A database: [workflow_runs] by primary key, its column [step_records_json], which only the
migration reads, and [workflow_step_records] by primary key. *)
Record DB := mkDB {
  workflow_runs : gmap string runRow;
  step_records_json : gmap string string;
  workflow_step_records : gmap (string * Z) string
}.
#[global] Instance eta_DB : Eta DB := λ d,
  mkDB (workflow_runs d) (step_records_json d) (workflow_step_records d).

(** The arguments of the [INSERT]: times as integers. *)
Definition row_args (r : runRow) : runRow :=
  r <| row_NextAttemptAt := dbTime (row_NextAttemptAt r) |> <| row_LeaseUntil := dbTime (row_LeaseUntil r) |>
    <| row_CreatedAt := dbTime (row_CreatedAt r) |> <| row_UpdatedAt := dbTime (row_UpdatedAt r) |>.

(** [scanner.Scan]. *)
Definition row_scan (r : runRow) : runRow :=
  r <| row_NextAttemptAt := scanTime (row_NextAttemptAt r) |> <| row_LeaseUntil := scanTime (row_LeaseUntil r) |>
    <| row_CreatedAt := scanTime (row_CreatedAt r) |> <| row_UpdatedAt := scanTime (row_UpdatedAt r) |>.

(** ** Statements *)

(** [INSERT INTO workflow_runs ... ON CONFLICT(id) DO UPDATE SET ...]; a new row has the default
of [step_records_json]. *)
Definition upsert_run (r : runRow) (d : DB) : DB :=
  d <| workflow_runs := <[row_ID r := row_args r]> (workflow_runs d) |>
    <| step_records_json := if decide (is_Some (workflow_runs d !! row_ID r)) then step_records_json d
                            else <[row_ID r := "[]"]> (step_records_json d) |>.

(** [SELECT record_json FROM workflow_step_records WHERE run_id = ? ORDER BY seq]. *)
Definition select_records (id : string) (d : DB) : list string :=
  (sort_slice (key_less Z.lt (λ e, e.1.2))
     (filter (λ e, e.1.1 = id) (map_to_list (workflow_step_records d)))).*2.

(** [INSERT INTO workflow_step_records ... ON CONFLICT(run_id, seq) DO UPDATE]. *)
Definition upsert_record (id : string) (seq : Z) (data : string) (d : DB) : DB :=
  d <| workflow_step_records := <[(id, seq) := data]> (workflow_step_records d) |>.

(** [DELETE FROM workflow_step_records WHERE run_id = ? AND seq >= ?]. *)
Definition delete_records (id : string) (n : Z) (d : DB) : DB :=
  d <| workflow_step_records := filter (λ e, ¬ (e.1.1 = id ∧ n ≤ e.1.2)) (workflow_step_records d) |>.

(** [UPDATE workflow_runs SET ... WHERE id = ? AND ...], with the number of rows affected. *)
Definition update_run (id : string) (where_ : runRow → Prop) `{∀ r, Decision (where_ r)}
    (set : runRow → runRow) (d : DB) : DB * Z :=
  match workflow_runs d !! id with
  | Some r => if decide (where_ r) then (d <| workflow_runs := <[id := set r]> (workflow_runs d) |>, 1) else (d, 0)
  | None => (d, 0)
  end.

(** The order [ORDER BY created_at, id]. *)
Definition created_order (r : runRow) : Z * string := (row_CreatedAt r, row_ID r).

(** [SELECT ... FROM workflow_runs WHERE ... ORDER BY created_at, id], ascending or descending. *)
Definition select_runs (where_ : runRow → Prop) `{∀ r, Decision (where_ r)} (desc : bool) (d : DB) : list runRow :=
  let rows := sort_slice (key_less time_id_lt created_order) (filter where_ (map_to_list (workflow_runs d)).*2) in
  if desc then reverse rows else rows.

(** The condition of the [SELECT] of [ClaimRunnable], with [dbTime(now)]. *)
Definition runnable (now : Z) (r : runRow) : Prop :=
  row_Status r = StatusPending ∧ row_NextAttemptAt r ≤ now ∧ (row_LeaseOwner r = "" ∨ row_LeaseUntil r ≤ now).
(** The condition of its [UPDATE]. *)
Definition claimable_row (now : Z) (r : runRow) : Prop :=
  row_Status r = StatusPending ∧ (row_LeaseOwner r = "" ∨ row_LeaseUntil r ≤ now).
(** [SELECT id ... WHERE status = ? AND lease_owner != '' AND lease_until <= ?]. *)
Definition expired_row (now : Z) (r : runRow) : Prop :=
  row_Status r = StatusRunning ∧ row_LeaseOwner r ≠ "" ∧ row_LeaseUntil r ≤ now.
#[global] Instance runnable_dec now r : Decision (runnable now r).
Proof. unfold runnable. apply _. Defined.
#[global] Instance claimable_row_dec now r : Decision (claimable_row now r).
Proof. unfold claimable_row. apply _. Defined.
#[global] Instance expired_row_dec now r : Decision (expired_row now r).
Proof. unfold expired_row. apply _. Defined.

(** * The driver *)

Abbreviation World := (Sql.World DB).
Abbreviation M := (Sql.M DB Error).
#[local] Notation "'do!' x ':=' c 'in' k" := (bind c (λ x, k)) (at level 10, x name, k at level 200).
#[local] Notation "c ';;' k" := (bind c (λ _, k)) (at level 100, right associativity).

Section driver.
Context (fault : nat → option Error) (others : nat → DB → DB).
#[local] Abbreviation stmt := (Sql.stmt fault others).
#[local] Abbreviation query := (Sql.query fault others).
#[local] Abbreviation exec := (Sql.exec fault others).
#[local] Abbreviation tx := (Sql.tx fault others).

Context `{J : Json}.

(** ** Encoding *)

Definition marshalJSON (data : json string) : result string :=
  match data with
  | Ok s => Ok s
  | Err err => Err (ErrWrap "marshal workflow run field: " (ErrOther err))
  end.

Definition unmarshalJSON {T} (u : string → json T) (data : string) : result T :=
  let data := if decide (data = "") then "null" else data in
  match u data with
  | Ok v => Ok v
  | Err err => Err (ErrWrap "unmarshal workflow run field: " (ErrOther err))
  end.

Definition encodeRun (run : WorkflowRun) : result runRow :=
  let? completedSteps := marshalJSON (j_strings (CompletedSteps run)) in
  let? stepAttempts := marshalJSON (j_counts (StepAttempts run)) in
  let? metadata := marshalJSON (j_metadata (RunMetadata run)) in
  Ok (mkRow (ID run) (RunStatus run) (InputRef run) (OutputRef run) (AgentRunID run) (AuditRef run)
        (RunError run) (ApprovalRef run) (WaitingReason run) (CurrentStep run) completedSteps stepAttempts
        (StepRetries run) (NextAttemptAt run) metadata (LeaseOwner run) (LeaseUntil run) (CreatedAt run)
        (UpdatedAt run)).

Definition decodeRun (row : runRow) : result WorkflowRun :=
  let? completedSteps := unmarshalJSON u_strings (row_CompletedStepsJSON row) in
  let? stepAttempts := unmarshalJSON u_counts (row_StepAttemptsJSON row) in
  let? metadata := unmarshalJSON u_metadata (row_MetadataJSON row) in
  Ok (mkRun (row_ID row) (row_Status row) (row_InputRef row) (row_OutputRef row) (row_AgentRunID row)
        (row_AuditRef row) (row_Error row) (row_ApprovalRef row) (row_WaitingReason row) (row_CurrentStep row)
        completedSteps stepAttempts [] (row_StepRetries row) (row_NextAttemptAt row) metadata
        (row_LeaseOwner row) (row_LeaseUntil row) (row_CreatedAt row) (row_UpdatedAt row)).

Definition scanRun (row : runRow) : result WorkflowRun := decodeRun (row_scan row).

(** ** Saving *)

(** The loop of [saveStepRecords] from record number [seq]. *)
Fixpoint write_records (in_tx : bool) (runID : string) (stored : list string) (seq : nat)
    (records : list StepRecord) : M () :=
  match records with
  | [] => ret ()
  | record :: records =>
      do! data := lift (marshalJSON (j_record record)) in
      (if decide (stored !! seq = Some data) then ret ()
       else exec in_tx (upsert_record runID (Z.of_nat seq) data)) ;; 
      write_records in_tx runID stored (S seq) records
  end.

Definition saveStepRecords (in_tx : bool) (runID : string) (records : list StepRecord) : M () :=
  do! stored := query in_tx (select_records runID) in
  write_records in_tx runID stored 0 records ;; 
  if decide (length records < length stored)%nat
  then exec in_tx (delete_records runID (Z.of_nat (length records))) else ret ().

Definition saveRun (in_tx : bool) (now0 now1 : Time) (run : WorkflowRun) : M () :=
  let run := if decide (IsZero (CreatedAt run)) then run <| CreatedAt := now0 |> else run in
  let run := run <| UpdatedAt := now1 |> in
  do! row := lift (encodeRun run) in
  exec in_tx (upsert_run row) ;; 
  saveStepRecords in_tx (ID run) (StepRecords run).

Definition Save (now0 now1 : Time) (run : WorkflowRun) : M () := tx (saveRun true now0 now1 run).

(** ** Loading *)

(** The rows of [loadStepRecords]. *)
Fixpoint decode_records (rows : list string) : result (list StepRecord) :=
  match rows with
  | [] => Ok []
  | data :: rows =>
      let? record := unmarshalJSON u_record data in
      let? records := decode_records rows in Ok (record :: records)
  end.

Definition loadStepRecords (in_tx : bool) (run : WorkflowRun) : M WorkflowRun :=
  do! rows := query in_tx (select_records (ID run)) in
  do! records := lift (decode_records rows) in
  ret (run <| StepRecords := records |>).

Definition getRun (in_tx : bool) (id : string) : M WorkflowRun :=
  do! row := query in_tx (λ d, workflow_runs d !! id) in
  match row with
  | None => raise ErrRunNotFound
  | Some row =>
      do! run := lift (scanRun row) in
      loadStepRecords in_tx run
  end.

Definition Get (id : string) : M WorkflowRun := getRun false id.

(** [Update]; [saveRun] stamps the run with [now0], if it has no creation time even then, and
[now1]. *)
Definition Update (now0 now1 : Time) (id : string) (mutate : WorkflowRun → result WorkflowRun) : M WorkflowRun :=
  tx (do! current := getRun true id in
      do! updated := lift (mutate current) in
      let updated := if decide (IsZero (CreatedAt updated)) then updated <| CreatedAt := CreatedAt current |>
                     else updated in
      saveRun true now0 now1 updated ;; 
      getRun true (ID updated)).

(** ** Queries *)

Section list.
Context (Sprint : Any → string).

(** The loop over the rows: [runs] so far. *)
Fixpoint scan_runs (query : WorkflowQuery) (runs : list WorkflowRun) (rows : list runRow)
    : result (list WorkflowRun) :=
  match rows with
  | [] => Ok runs
  | row :: rows =>
      let? run := scanRun row in
      if negb (MemoryStore.workflowMetadataMatches Sprint run (q_MetadataEquals query))
      then scan_runs query runs rows
      else
        let runs := runs ++ [run] in
        if decide (0 < q_Limit query ∧ q_Limit query ≤ Z.of_nat (length runs)) then Ok runs
        else scan_runs query runs rows
  end.

(** [for i := range runs { loadStepRecords }]. *)
Fixpoint load_all (runs : list WorkflowRun) : M (list WorkflowRun) :=
  match runs with
  | [] => ret []
  | run :: runs => do! run := loadStepRecords false run in do! runs := load_all runs in ret (run :: runs)
  end.

Definition ListWorkflows (q : WorkflowQuery) : M (list WorkflowRun) :=
  if decide (q_Status q ≠ "" ∧ IsValid (q_Status q) = false)
  then raise (ErrOther ("invalid workflow status: " +:+ q_Status q))
  else if decide (order_IsValid (q_Order q) = false)
  then raise (ErrOther ("invalid workflow order: " +:+ order_text (q_Order q)))
  else
    let desc := match q_Order q with WorkflowOrderDesc => true | _ => false end in
    do! rows := query false (select_runs (λ r, q_Status q = "" ∨ row_Status r = q_Status q) desc) in
    do! runs := lift (scan_runs q [] rows) in
    load_all runs.
End list.

(** ** The queue *)

Definition ClaimRunnable (now : Time) (workerID : string) (lease : Duration) : M WorkflowRun :=
  if decide (workerID = "") then raise (ErrOther "worker id is required")
  else if decide (lease ≤ 0) then raise (ErrOther "lease must be greater than zero")
  else
    do! id := tx (
      let leaseUntil := TimeAdd now lease in
      do! found := query true (select_runs (runnable (dbTime now)) false) in
      match found with
      | [] => raise ErrNoRunnableWorkflow
      | row :: _ =>
          do! affected := stmt true (update_run (row_ID row) (claimable_row (dbTime now))
            (λ r, r <| row_LeaseOwner := workerID |> <| row_LeaseUntil := dbTime leaseUntil |>
                    <| row_UpdatedAt := dbTime now |>)) in
          if decide (affected = 0) then raise ErrNoRunnableWorkflow else ret (row_ID row)
      end) in
    Get id.

(** What [ExtendLease] and [ReleaseLease] do after their [UPDATE]. *)
Definition after_update (id : string) (affected : Z) : M WorkflowRun :=
  if decide (affected = 0) then do! _ := Get id in raise ErrWorkflowLeaseNotOwned else Get id.

Definition ExtendLease (now : Time) (id workerID : string) (lease : Duration) : M WorkflowRun :=
  if decide (id = "") then raise (ErrOther "workflow id is required")
  else if decide (workerID = "") then raise (ErrOther "worker id is required")
  else if decide (lease ≤ 0) then raise (ErrOther "lease must be greater than zero")
  else
    do! affected := stmt false (update_run id (λ r, row_LeaseOwner r = workerID ∧ dbTime now < row_LeaseUntil r)
      (λ r, r <| row_LeaseUntil := dbTime (TimeAdd now lease) |> <| row_UpdatedAt := dbTime now |>)) in
    after_update id affected.

Definition ReleaseLease (now : Time) (id workerID : string) : M WorkflowRun :=
  if decide (id = "") then raise (ErrOther "workflow id is required")
  else if decide (workerID = "") then raise (ErrOther "worker id is required")
  else
    do! affected := stmt false (update_run id (λ r, row_LeaseOwner r = workerID)
      (λ r, r <| row_LeaseOwner := "" |> <| row_LeaseUntil := 0 |> <| row_UpdatedAt := dbTime now |>)) in
    after_update id affected.

(** [for _, id := range ids]. *)
Fixpoint fail_all (now : Time) (reason : string) (ids : list string) : M (list WorkflowRun) :=
  match ids with
  | [] => ret []
  | id :: ids =>
      do! _ := stmt true (update_run id (λ _, True)
        (λ r, r <| row_Status := StatusFailed |> <| row_Error := reason |> <| row_LeaseOwner := "" |>
                <| row_LeaseUntil := 0 |> <| row_UpdatedAt := dbTime now |>)) in
      do! run := getRun true id in
      do! failed := fail_all now reason ids in
      ret (run :: failed)
  end.

(** [SELECT id ... ORDER BY id ASC]. *)
Definition select_expired (now : Z) (d : DB) : list string :=
  sort_slice str_lt (row_ID <$> filter (expired_row now) (map_to_list (workflow_runs d)).*2).

Definition FailExpiredRunning (now : Time) (reason : string) : M (list WorkflowRun) :=
  tx (do! ids := query true (select_expired (dbTime now)) in fail_all now reason ids).

(** ** Migration *)

(** [SELECT id, step_records_json ... NOT IN ('', '[]', 'null')], decoded. *)
Fixpoint decode_inline (rows : list (string * string)) : result (list (string * list StepRecord)) :=
  match rows with
  | [] => Ok []
  | (id, data) :: rows =>
      match unmarshalJSON u_records data with
      | Err e => Err (ErrWrap ("workflow run " +:+ id +:+ ": ") e)
      | Ok records => let? rest := decode_inline rows in Ok ((id, records) :: rest)
      end
  end.

Definition select_inline (d : DB) : list (string * string) :=
  filter (λ e, e.2 ∉ [""; "[]"; "null"]) (map_to_list (step_records_json d)).

Fixpoint move_all (inline : list (string * list StepRecord)) : M () :=
  match inline with
  | [] => ret ()
  | (id, records) :: inline =>
      saveStepRecords true id records ;; 
      exec true (λ d, d <| step_records_json := alter (λ _, "[]") id (step_records_json d) |>) ;; 
      move_all inline
  end.

Definition moveInlineStepRecords : M () :=
  tx (do! rows := query true select_inline in
      do! inline := lift (decode_inline rows) in
      move_all inline).

End driver.

End Sqlite.
