(* ===== verification/WorkflowSqliteSafety.v ===== *)
(** The SQLite workflow store implements the promises of the in-memory store, keeps its
database unchanged when an operation fails, and writes step records incrementally. *)

From S2P Require Import Prelude Sql WorkflowRun WorkflowStore WorkflowSqlite.
#[local] Open Scope Z_scope.

Module SqliteSafety.
Import Sql Sqlite.
#[local] Abbreviation yields := (Sql.yields (DB := DB) (Error := Error)).
#[local] Abbreviation no_fault := (λ _ : nat, None : option Error).
#[local] Abbreviation alone := (λ (_ : nat) (d : DB), d).

(** * Times *)

(** The times the integer encoding keeps apart and in order: the zero time and the instants
after the Unix epoch, up to the year 2262. *)
Definition live (t : Time) : Prop := unix_epoch < t ≤ unix_epoch + max_int64.
Definition storable (t : Time) : Prop := t = 0 ∨ live t.

Lemma dbTime_live t : live t → dbTime t = t - unix_epoch.
Proof.
  intros H. unfold dbTime, live, unix_epoch, max_int64 in *. rewrite decide_False by (unfold IsZero; lia).
  apply wrap64_id. unfold unix_epoch, min_int64, max_int64. lia.
Qed.

(** Integer columns compare like the times they hold. *)
Lemma dbTime_le t u : storable t → storable u → dbTime t ≤ dbTime u ↔ t ≤ u.
Proof.
  intros [->|Ht] [->|Hu]; try rewrite (dbTime_live t) by done; try rewrite (dbTime_live u) by done;
    unfold live, unix_epoch, max_int64 in *; change (dbTime 0) with 0; lia.
Qed.

Lemma dbTime_inj t u : storable t → storable u → dbTime t = dbTime u → t = u.
Proof. intros Ht Hu E. pose proof (dbTime_le t u Ht Hu). pose proof (dbTime_le u t Hu Ht). lia. Qed.

Lemma scanTime_dbTime t : storable t → scanTime (dbTime t) = t.
Proof.
  intros [->|Ht]; [done|]. rewrite dbTime_live by done. unfold scanTime, live in *.
  rewrite decide_False by lia. lia.
Qed.

(** A time in the range of nanosecond integers, or the zero time, is read back as it was
written, unless it is the Unix epoch, which is read back as the zero time. *)
Theorem time_roundtrip t :
  t = 0 ∨ unix_epoch + min_int64 ≤ t ≤ unix_epoch + max_int64 →
  (scanTime (dbTime t) = t ↔ t ≠ unix_epoch) ∧ (t = unix_epoch → scanTime (dbTime t) = 0).
Proof.
  intros [->|Ht]; [done|].
  assert (dbTime t = t - unix_epoch) as ->.
  { unfold dbTime, unix_epoch, min_int64 in *. rewrite decide_False by (unfold IsZero; lia).
    apply wrap64_id. unfold unix_epoch, min_int64, max_int64 in *. lia. }
  unfold scanTime. case_decide; split; try lia. split; [|lia]. intros E. unfold unix_epoch in *. lia.
Qed.


(** * Step records *)

Section json.
Context `{J : Json}.

(** The records of [id] in the table are [l], numbered from 0. *)
Definition records_at (d : DB) (id : string) (l : list string) : Prop :=
  ∀ seq, workflow_step_records d !! (id, seq) = if decide (0 ≤ seq) then l !! Z.to_nat seq else None.

(** Rows of the table. *)
Fixpoint numbered (id : string) (k : Z) (l : list string) : list (string * Z * string) :=
  match l with [] => [] | x :: l => ((id, k), x) :: numbered id (k + 1) l end.

Lemma numbered_elem id k l i seq x :
  ((i, seq), x) ∈ numbered id k l ↔ i = id ∧ k ≤ seq ∧ l !! Z.to_nat (seq - k) = Some x.
Proof.
  revert k. induction l as [|y l IH]; intros k; simpl; [split; [set_solver|naive_solver]|].
  rewrite elem_of_cons, IH. split.
  - intros [[= -> -> ->]|(-> & Hle & Hl)]; [by rewrite Z.sub_diag|].
    split_and!; [done|lia|]. by replace (Z.to_nat (seq - k)) with (S (Z.to_nat (seq - (k + 1)))) by lia.
  - intros (-> & Hle & Hl). destruct (decide (seq = k)) as [->|].
    + rewrite Z.sub_diag in Hl. injection Hl as ->. by left.
    + right. split_and!; [done|lia|]. by replace (Z.to_nat (seq - k)) with (S (Z.to_nat (seq - (k + 1)))) in Hl by lia.
Qed.

Lemma numbered_sorted id k l : StronglySorted (not_after (key_less Z.lt (λ e : string * Z * string, e.1.2))) (numbered id k l).
Proof.
  revert k. induction l as [|x l IH]; intros k; simpl; [constructor|]. constructor; [apply IH|].
  apply Forall_forall. intros [[i seq] y] (_ & Hle & _)%numbered_elem. unfold not_after, key_less; simpl. lia.
Qed.

Lemma numbered_keys id k l : NoDup ((λ e : string * Z * string, e.1.2) <$> numbered id k l).
Proof.
  revert k. induction l as [|x l IH]; intros k; simpl; constructor; [|apply IH].
  intros ([[i seq] y] & E & (_ & Hle & _)%numbered_elem)%list_elem_of_fmap. simpl in E. lia.
Qed.

Lemma numbered_fst id k l : (numbered id k l).*2 = l.
Proof. revert k. induction l as [|x l IH]; intros k; simpl; [done|]. by rewrite IH. Qed.

#[local] Instance Zlt_total : StrictTotal Z.lt.
Proof. split; intros; lia. Qed.

(** The [SELECT] reads the records in order. *)
Lemma select_records_at d id l : records_at d id l → select_records id d = l.
Proof.
  intros H. unfold select_records. etransitivity; [|apply (numbered_fst id 0 l)]. f_equal.
  rewrite <-(sort_slice_id _ _ (numbered_sorted id 0 l)). symmetry.
  apply (sort_key_unique Z.lt); [apply numbered_keys|].
  apply NoDup_Permutation.
  - eapply NoDup_fmap_1, numbered_keys.
  - apply NoDup_filter, NoDup_map_to_list.
  - intros [[i seq] x]. rewrite numbered_elem, list_elem_of_filter, elem_of_map_to_list; simpl.
    rewrite Z.sub_0_r. split.
    + intros (-> & Hle & Hl). by rewrite H, decide_True.
    + intros [-> Hl]. rewrite H in Hl. by case_decide.
Qed.

(** [marshalJSON] of each record. *)
Fixpoint marshal_records (records : list StepRecord) : result (list string) :=
  match records with
  | [] => Ok []
  | record :: records =>
      let? data := marshalJSON (j_record record) in
      let? rest := marshal_records records in Ok (data :: rest)
  end.

(** Everything but the records of [id]. *)
Definition same_but_records (id : string) (d d' : DB) : Prop :=
  workflow_runs d' = workflow_runs d ∧ step_records_json d' = step_records_json d ∧
  ∀ i seq, (i ≠ id ∨ seq < 0) → workflow_step_records d' !! (i, seq) = workflow_step_records d !! (i, seq).

#[local] Instance same_but_records_po id : PreOrder (same_but_records id).
Proof.
  split; [by intros d|]. intros d1 d2 d3 (E & E1 & H1) (E2 & E3 & H2). split_and!; [congruence..|].
  intros i seq Hi. by rewrite H2, H1.
Qed.

Lemma upsert_record_same id seq data d : 0 ≤ seq → same_but_records id d (upsert_record id seq data d).
Proof.
  intros Hs. split_and!; [done..|]. intros i seq' Hi; simpl. apply lookup_insert_ne. intros [= -> ->]. lia || naive_solver lia.
Qed.

(** The loop writes the records that differ from the stored ones. *)
Lemma write_records_yields id stored records d seq :
  (∀ j, (seq ≤ j)%nat → workflow_step_records d !! (id, Z.of_nat j) = stored !! j) →
  match marshal_records records with
  | Err e => ∃ d', yields (write_records no_fault alone true id stored seq records) d d' (Err e)
  | Ok datas => ∃ d', yields (write_records no_fault alone true id stored seq records) d d' (Ok ()) ∧
      same_but_records id d d' ∧
      (∀ j, (j < seq)%nat → workflow_step_records d' !! (id, Z.of_nat j) = workflow_step_records d !! (id, Z.of_nat j)) ∧
      (∀ j, workflow_step_records d' !! (id, Z.of_nat (seq + j)) =
         if decide (j < length datas)%nat then datas !! j else stored !! (seq + j)%nat)
  end.
Proof.
  revert d seq. induction records as [|r records IH]; intros d seq Hd; cbn [marshal_records write_records].
  { exists d. split_and!; [apply yields_ret|done|done|]. intros j. simpl. rewrite Hd by lia. done. }
  destruct (marshalJSON (j_record r)) as [data|e] eqn:Em; simpl.
  2:{ exists d. eapply yields_bind_err, yields_lift. }
  set (d1 := if decide (stored !! seq = Some data) then d else upsert_record id (Z.of_nat seq) data d).
  assert (yields (if decide (stored !! seq = Some data) then ret ()
      else exec no_fault alone true (upsert_record id (Z.of_nat seq) data)) d d1 (Ok ())) as H1.
  { unfold d1. case_decide; auto with go. }
  assert (∀ j, workflow_step_records d1 !! (id, Z.of_nat j) =
    if decide (j = seq) then Some data else workflow_step_records d !! (id, Z.of_nat j)) as Hd1.
  { intros j. unfold d1. destruct (decide (stored !! seq = Some data)) as [Hs|Hs], (decide (j = seq)) as [->|Hj]; simpl;
      [by rewrite Hd|done|by rewrite lookup_insert_eq|]. apply lookup_insert_ne. intros [=]. lia. }
  assert (same_but_records id d d1) as Hs1.
  { unfold d1. case_decide; [done|]. apply upsert_record_same; lia. }
  specialize (IH d1 (S seq)). destruct (marshal_records records) as [datas|e]; simpl.
  all: destruct IH as [d' IH]; [intros j Hj; rewrite Hd1, decide_False by lia; apply Hd; lia|].
  2:{ exists d'. do 2 (eapply yields_bind; [by auto with go|]). exact IH. }
  destruct IH as (Hy & Hs & Hlt & Hge). exists d'. split_and!.
  - eapply yields_bind; [apply yields_lift|]. eapply yields_bind; [exact H1|exact Hy].
  - by transitivity d1.
  - intros j Hj. rewrite Hlt, Hd1, decide_False by lia. done.
  - intros [|j].
    + rewrite Nat.add_0_r, Hlt, Hd1, decide_True by lia. rewrite decide_True by lia. done.
    + replace (seq + S j)%nat with (S seq + j)%nat by lia. rewrite Hge. simpl.
      repeat case_decide; try lia; done.
Qed.

(** Writing incrementally replaces the records. *)
Lemma saveStepRecords_yields id l records d :
  records_at d id l →
  match marshal_records records with
  | Err e => ∃ d', yields (saveStepRecords no_fault alone true id records) d d' (Err e)
  | Ok datas => ∃ d', yields (saveStepRecords no_fault alone true id records) d d' (Ok ()) ∧
      same_but_records id d d' ∧ records_at d' id datas
  end.
Proof.
  intros Hl. unfold saveStepRecords. pose proof (select_records_at _ _ _ Hl) as Hsel.
  pose proof (write_records_yields id l records d 0) as Hw.
  assert (∀ j, (0 ≤ j)%nat → workflow_step_records d !! (id, Z.of_nat j) = l !! j) as Hd.
  { intros j _. by rewrite Hl, decide_True, Nat2Z.id by lia. }
  destruct (marshal_records records) as [datas|e] eqn:Em; destruct (Hw Hd) as [d1 H1]; clear Hw.
  2:{ exists d1. eapply yields_bind; [apply yields_query|]. rewrite Hsel. eapply yields_bind_err, H1. }
  assert (length datas = length records) as Hlen.
  { clear -Em. revert datas Em. induction records as [|r records IH]; simpl; [by intros ? [= <-]|].
    intros datas. destruct (marshalJSON _); simpl; [|done]. destruct (marshal_records records); simpl; [|done].
    intros [= <-]. simpl. by rewrite (IH _ eq_refl). }
  destruct H1 as (Hy & Hs & _ & Hge).
  set (d2 := if decide (length records < length l)%nat then delete_records id (Z.of_nat (length records)) d1 else d1).
  exists d2. split_and!.
  - eapply yields_bind; [apply yields_query|]. rewrite Hsel. eapply yields_bind; [exact Hy|].
    unfold d2. case_decide; auto with go.
  - transitivity d1; [done|]. unfold d2. case_decide; [|done]. split_and!; [done..|].
    intros i seq Hi; simpl. destruct (workflow_step_records d1 !! (i, seq)) as [x|] eqn:E.
    + apply map_lookup_filter_Some. split; [done|]. simpl. intros [-> ?]. destruct Hi; [done|lia].
    + apply map_lookup_filter_None. by left.
  - intros seq. assert (workflow_step_records d1 !! (id, seq) = if decide (0 ≤ seq) then
      (if decide (Z.to_nat seq < length datas)%nat then datas !! Z.to_nat seq else l !! Z.to_nat seq) else None) as E1.
    { case_decide as H0; [|by rewrite (proj2 (proj2 Hs)), Hl, decide_False by (done || lia)].
      rewrite <-(Z2Nat.id seq) at 1 by done. apply (Hge (Z.to_nat seq)). }
    unfold d2. destruct (decide (length records < length l)%nat) as [Hlt|Hlt]; simpl.
    + destruct (decide (0 ≤ seq)) as [H0|H0]; [destruct (decide (Z.to_nat seq < length datas)%nat) as [H2|H2]|].
      * destruct (datas !! Z.to_nat seq) as [x|]; [|by apply map_lookup_filter_None; left].
        apply map_lookup_filter_Some. split; [done|]. simpl. lia.
      * rewrite lookup_ge_None_2 by lia. apply map_lookup_filter_None. right. intros x _. simpl. intros Hx. apply Hx. split; [done|lia].
      * apply map_lookup_filter_None. by left.
    + rewrite E1. case_decide; [|done]. case_decide; [done|]. rewrite !lookup_ge_None_2 by lia. done.
Qed.

(** Loading reads back what was marshalled. *)
Lemma decode_marshalled `{!JsonLaws J} records datas :
  marshal_records records = Ok datas → decode_records datas = Ok (clean_record <$> records).
Proof.
  revert datas. induction records as [|r records IH]; simpl; [by intros ? [= <-]|]. intros datas.
  unfold marshalJSON. destruct (j_record r) as [s|] eqn:Er; simpl; [|done].
  destruct (marshal_records records) as [rest|]; simpl; [|done]. intros [= <-]. simpl.
  apply record_decoded in Er as [Hne Hu]. unfold unmarshalJSON. rewrite decide_False, Hu by done. simpl.
  by rewrite (IH _ eq_refl).
Qed.

(** * Rows and runs *)

Definition times_ok (run : WorkflowRun) : Prop :=
  storable (NextAttemptAt run) ∧ storable (LeaseUntil run) ∧ storable (CreatedAt run) ∧ storable (UpdatedAt run).

(** [row] holds [run], apart from its step records. *)
Record row_of (run : WorkflowRun) (row : runRow) : Prop := {
  row_strings : unmarshalJSON u_strings (row_CompletedStepsJSON row) = Ok (CompletedSteps run);
  row_counts : unmarshalJSON u_counts (row_StepAttemptsJSON row) = Ok (StepAttempts run);
  row_metadata : unmarshalJSON u_metadata (row_MetadataJSON row) = Ok (RunMetadata run);
  row_columns : row = mkRow (ID run) (RunStatus run) (InputRef run) (OutputRef run) (AgentRunID run) (AuditRef run)
    (RunError run) (ApprovalRef run) (WaitingReason run) (CurrentStep run) (row_CompletedStepsJSON row)
    (row_StepAttemptsJSON row) (StepRetries run) (dbTime (NextAttemptAt run)) (row_MetadataJSON row)
    (LeaseOwner run) (dbTime (LeaseUntil run)) (dbTime (CreatedAt run)) (dbTime (UpdatedAt run));
  row_times : times_ok run
}.

Lemma scanRun_row run row : row_of run row → scanRun row = Ok (run <| StepRecords := [] |>).
Proof.
  intros [H1 H2 H3 H4 (T1 & T2 & T3 & T4)]. unfold scanRun, decodeRun. rewrite H4. simpl. rewrite H1, H2, H3. simpl.
  rewrite !scanTime_dbTime by done. by destruct run.
Qed.

(** What the store keeps of a run. *)
Definition clean_run `{!JsonLaws J} (run : WorkflowRun) : WorkflowRun :=
  run <| CompletedSteps := clean_strings (CompletedSteps run) |> <| StepAttempts := clean_counts (StepAttempts run) |>
      <| RunMetadata := clean_metadata (RunMetadata run) |> <| StepRecords := clean_record <$> StepRecords run |>.

Lemma unmarshal_marshalled {T} (u : string → json T) s v :
  s ≠ "" ∧ u s = Ok v → unmarshalJSON u s = Ok v.
Proof. intros [Hne Hu]. unfold unmarshalJSON. by rewrite decide_False, Hu. Qed.

Lemma encodeRun_row `{!JsonLaws J} run row :
  times_ok run → encodeRun run = Ok row → row_of (clean_run run) (row_args row).
Proof.
  intros Ht. unfold encodeRun, marshalJSON.
  destruct (j_strings _) as [s1|] eqn:E1; simpl; [|done]. destruct (j_counts _) as [s2|] eqn:E2; simpl; [|done].
  destruct (j_metadata _) as [s3|] eqn:E3; simpl; [|done]. intros [= <-].
  constructor; simpl; [apply unmarshal_marshalled; auto using strings_decoded, counts_decoded, metadata_decoded..|done|].
  exact Ht.
Qed.

(** * The abstraction *)

(** The tables hold [run] under [id]. *)
Definition db_run (d : DB) (id : string) (run : WorkflowRun) : Prop :=
  ∃ row l, workflow_runs d !! id = Some row ∧ row_of run row ∧ ID run = id ∧ live (CreatedAt run) ∧
    records_at d id l ∧ decode_records l = Ok (StepRecords run).

(** The tables hold the runs [s] and nothing else. *)
Definition refines (d : DB) (s : Runs) : Prop :=
  ∀ id, match s !! id with
        | Some run => db_run d id run
        | None => workflow_runs d !! id = None ∧ records_at d id []
        end.

Lemma refines_some d s id run : refines d s → s !! id = Some run → db_run d id run.
Proof. intros H E. specialize (H id). by rewrite E in H. Qed.

(** Writing one run. *)
Lemma refines_insert d d' s id run :
  refines d s → db_run d' id run →
  (∀ i, i ≠ id → workflow_runs d' !! i = workflow_runs d !! i) →
  (∀ i seq, i ≠ id → workflow_step_records d' !! (i, seq) = workflow_step_records d !! (i, seq)) →
  refines d' (<[id := run]> s).
Proof.
  intros H Hr Hrows Hrecs i. destruct (decide (i = id)) as [->|Hi]; [by rewrite lookup_insert_eq|].
  rewrite lookup_insert_ne by done. specialize (H i).
  assert (∀ l, records_at d i l → records_at d' i l) as Hat by (intros l Hl seq; by rewrite Hrecs, Hl).
  destruct (s !! i) as [r|]; [|by rewrite Hrows by done; destruct H; auto].
  destruct H as (row & l & ? & ? & ? & ? & ? & ?). exists row, l. rewrite Hrows by done. split_and!; auto.
Qed.

Lemma loadStepRecords_yields d s in_tx run :
  refines d s → s !! ID run = Some run →
  yields (loadStepRecords no_fault alone in_tx (run <| StepRecords := [] |>)) d d (Ok run).
Proof.
  intros H Hs. destruct (refines_some _ _ _ _ H Hs) as (row & l & _ & _ & _ & _ & Hl & Hd).
  eapply yields_bind; [apply yields_query|]. simpl. rewrite (select_records_at _ _ _ Hl), Hd.
  eapply yields_bind; [apply yields_lift|]. simpl. destruct run. apply yields_ret.
Qed.

Lemma getRun_yields d s in_tx id :
  refines d s → yields (getRun no_fault alone in_tx id) d d (MemoryStore.Get None s id).
Proof.
  intros H. unfold getRun, MemoryStore.Get. eapply yields_bind; [apply yields_query|].
  destruct (s !! id) as [run|] eqn:E.
  2:{ specialize (H id). rewrite E in H. destruct H as [-> _]. apply yields_raise. }
  destruct (refines_some _ _ _ _ H E) as (row & l & -> & Hr & Hid & _). rewrite cloneRun_id.
  eapply yields_bind; [rewrite (scanRun_row _ _ Hr); apply yields_lift|].
  eapply loadStepRecords_yields; [done|]. by rewrite Hid.
Qed.

(** ** Saving *)

Context `{!JsonLaws J}.

(** The error of a run that cannot be encoded. *)
Definition encodable (run : WorkflowRun) : result () :=
  let? _ := encodeRun run in let? _ := marshal_records (StepRecords run) in Ok ().

Lemma encodable_stamp now0 now1 run : encodable (save_stamp now0 now1 run) = encodable run.
Proof.
  unfold encodable, encodeRun, save_stamp. case_decide; destruct run; simpl;
    by destruct (marshalJSON (j_strings _)), (marshalJSON (j_counts _)), (marshalJSON (j_metadata _)).
Qed.

Lemma save_stamp_times now0 now1 run :
  live now0 → live now1 → times_ok run →
  times_ok (save_stamp now0 now1 run) ∧ live (CreatedAt (save_stamp now0 now1 run)).
Proof.
  intros H0 H1 (? & ? & Hc & ?). unfold save_stamp, times_ok. case_decide as Hz; simpl.
  - repeat split; (done || by right) || apply H0.
  - destruct Hc as [Hc|Hc]; [done|]. repeat split; (done || by right) || apply Hc.
Qed.

Lemma refines_records d s id : refines d s → ∃ l, records_at d id l.
Proof.
  intros H. specialize (H id). destruct (s !! id); [|naive_solver].
  destruct H as (row & l & _ & _ & _ & _ & Hl & _). eauto.
Qed.

(** [saveRun] of a stamped run. *)
Definition save_stamped (run : WorkflowRun) : M () :=
  bind (lift (encodeRun run)) (λ row, bind (exec no_fault alone true (upsert_run row)) (λ _,
    saveStepRecords no_fault alone true (ID run) (StepRecords run))).

Lemma saveRun_yields d s now0 now1 run :
  refines d s → live now0 → live now1 → times_ok run →
  match encodable run with
  | Err e => ∃ d', yields (saveRun no_fault alone true now0 now1 run) d d' (Err e)
  | Ok _ => ∃ d', yields (saveRun no_fault alone true now0 now1 run) d d' (Ok ()) ∧
      refines d' (<[ID run := clean_run (save_stamp now0 now1 run)]> s)
  end.
Proof.
  intros H H0 H1 Ht. destruct (save_stamp_times now0 now1 run H0 H1 Ht) as [Ht' Hc].
  assert (ID (save_stamp now0 now1 run) = ID run) as Hid by (unfold save_stamp; by case_decide).
  rewrite <-(encodable_stamp now0 now1 run). change (saveRun no_fault alone true now0 now1 run) with (save_stamped (save_stamp now0 now1 run)).
  rewrite <-Hid. clear Hid. unfold save_stamped. generalize dependent (save_stamp now0 now1 run). clear run Ht. intros run Ht Hc.
  unfold encodable. destruct (encodeRun run) as [row|e] eqn:Ee; simpl.
  2:{ exists d. eapply yields_bind_err, yields_lift. }
  pose proof (encodeRun_row _ _ Ht Ee) as Hrow.
  assert (row_ID row = ID run) as Hrid by (apply (f_equal row_ID (row_columns _ _ Hrow))).
  destruct (refines_records d s (ID run) H) as [l Hl].
  assert (records_at (upsert_run row d) (ID run) l) as Hl1 by exact Hl.
  pose proof (saveStepRecords_yields _ _ (StepRecords run) _ Hl1) as Hs.
  destruct (marshal_records (StepRecords run)) as [datas|e] eqn:Em; simpl; destruct Hs as [d' Hs]; exists d'.
  2:{ do 2 (eapply yields_bind; [auto with go|]). exact Hs. }
  destruct Hs as (Hy & (Hr & _ & Ho) & Hat). split; [do 2 (eapply yields_bind; [auto with go|]); exact Hy|].
  apply (refines_insert d d'); [done| | |].
  - exists (row_args row), datas. rewrite Hr. simpl. rewrite Hrid, lookup_insert_eq.
    split_and!; [done|done|done|exact Hc|done|]. simpl. by apply decode_marshalled.
  - intros i Hi. rewrite Hr. simpl. rewrite Hrid. by apply lookup_insert_ne.
  - intros i seq Hi. rewrite Ho by by left. done.
Qed.

(** ** Updating columns *)

(** [f] changes what an [UPDATE] of the queue changes. *)
Definition keeps (f : WorkflowRun → WorkflowRun) : Prop :=
  ∀ run, ID (f run) = ID run ∧ CreatedAt (f run) = CreatedAt run ∧ StepRecords (f run) = StepRecords run.

Lemma update_run_refines d s id (where_ : runRow → Prop) `{∀ r, Decision (where_ r)} set
    (P : WorkflowRun → Prop) `{∀ r, Decision (P r)} f :
  refines d s → keeps f →
  (∀ run row, row_of run row → (where_ row ↔ P run)) →
  (∀ run row, row_of run row → P run → row_of (f run) (set row)) →
  match s !! id with
  | Some run => if decide (P run) then ∃ d', update_run id where_ set d = (d', 1) ∧ refines d' (<[id := f run]> s)
                else update_run id where_ set d = (d, 0)
  | None => update_run id where_ set d = (d, 0)
  end.
Proof.
  intros Hr Hk Hw Hf. unfold update_run. destruct (s !! id) as [run|] eqn:E.
  2:{ specialize (Hr id). rewrite E in Hr. by destruct Hr as [-> _]. }
  destruct (refines_some _ _ _ _ Hr E) as (row & l & Hrow & Hof & Hid & Hc & Hl & Hd). rewrite Hrow.
  rewrite (decide_ext _ _ _ _ (Hw _ _ Hof)). case_decide as HP; [|done].
  eexists. split; [done|]. destruct (Hk run) as (K1 & K2 & K3).
  apply (refines_insert d); [done| |intros i Hi; by apply lookup_insert_ne|done].
  exists (set row), l. simpl. rewrite lookup_insert_eq, K1, K2, K3. split_and!; auto.
Qed.

Lemma dbTime_lt t u : storable t → storable u → dbTime t < dbTime u ↔ t < u.
Proof. intros Ht Hu. pose proof (dbTime_le u t Hu Ht). lia. Qed.

Ltac row_cases Hof :=
  let H1 := fresh in let H2 := fresh in let H3 := fresh in let H4 := fresh in
  destruct Hof as [H1 H2 H3 H4 (? & ? & ? & ?)];
  match type of H4 with ?row = _ => destruct row; simpl in *; injection H4; intros; subst; clear H4 end.

(** An [UPDATE] of one run outside a transaction, and the [Get] that follows it. *)
Lemma update_get_yields d s id (where_ : runRow → Prop) `{∀ r, Decision (where_ r)} set
    (P : WorkflowRun → Prop) `{∀ r, Decision (P r)} f :
  refines d s → keeps f →
  (∀ run row, row_of run row → (where_ row ↔ P run)) →
  (∀ run row, row_of run row → P run → row_of (f run) (set row)) →
  ∃ d' s' r, yields (bind (stmt no_fault alone false (update_run id where_ set)) (after_update no_fault alone id)) d d' r ∧
    refines d' s' ∧
    (s', r) = match s !! id with
              | None => (s, Err ErrRunNotFound)
              | Some run => if decide (P run) then (<[id := f run]> s, Ok (f run)) else (s, Err ErrWorkflowLeaseNotOwned)
              end.
Proof.
  intros Hr Hk Hw Hf. pose proof (update_run_refines d s id where_ set P f Hr Hk Hw Hf) as Hu.
  pose proof (λ d' n, yields_stmt_eq (Error := Error) false (update_run id where_ set) d d' n) as Hy.
  pose proof (getRun_yields d s false id Hr) as Hget. unfold MemoryStore.Get in Hget.
  destruct (s !! id) as [run|] eqn:E; [case_decide as HP|].
  - destruct Hu as (d' & Hu%Hy & Hr'). exists d', (<[id := f run]> s), (Ok (f run)). split_and!; [|exact Hr'|done].
    eapply yields_bind; [exact Hu|]. unfold after_update; simpl.
    pose proof (getRun_yields d' _ false id Hr') as Hg. unfold MemoryStore.Get in Hg.
    by rewrite lookup_insert_eq, cloneRun_id in Hg.
  - apply Hy in Hu. exists d, s, (Err ErrWorkflowLeaseNotOwned). split_and!; [|done|done].
    eapply yields_bind; [exact Hu|]. unfold after_update; simpl. eapply yields_bind; [exact Hget|apply yields_raise].
  - apply Hy in Hu. exists d, s, (Err ErrRunNotFound). split_and!; [|done|done].
    eapply yields_bind; [exact Hu|]. unfold after_update; simpl. eapply yields_bind_err, Hget.
Qed.

Lemma ExtendLease_yields d s now id w lease :
  refines d s → live now → storable (TimeAdd now lease) →
  ∃ d', yields (ExtendLease no_fault alone now id w lease) d d' (MemoryStore.ExtendLease None now s id w lease).2 ∧
    refines d' (MemoryStore.ExtendLease None now s id w lease).1.
Proof.
  intros Hr Hn Hlt. unfold ExtendLease, MemoryStore.ExtendLease.
  do 3 (case_decide; [exists d; split; [apply yields_raise|done]|]).
  destruct (update_get_yields d s id (λ r, row_LeaseOwner r = w ∧ dbTime now < row_LeaseUntil r)
    (λ r, r <| row_LeaseUntil := dbTime (TimeAdd now lease) |> <| row_UpdatedAt := dbTime now |>)
    (λ run, LeaseOwner run = w ∧ now < LeaseUntil run)
    (λ run, run <| LeaseUntil := TimeAdd now lease |> <| UpdatedAt := now |>)) as (d' & s' & r & Hy & Hr' & Heq); [done|done| | |].
  - intros run row Hof. row_cases Hof. by rewrite dbTime_lt by (done || by right).
  - intros run row Hof _. row_cases Hof. constructor; [done..|]. repeat split; done || by right.
  - exists d'. destruct (s !! id) as [run|].
    + rewrite (decide_ext (LeaseOwner run ≠ w ∨ IsZero (LeaseUntil run) ∨ ¬ After (LeaseUntil run) now)
        (¬ (LeaseOwner run = w ∧ now < LeaseUntil run))).
      2:{ unfold IsZero, After. unfold live, unix_epoch in Hn. destruct (decide (LeaseOwner run = w)); naive_solver lia. }
      rewrite cloneRun_id.
      destruct (decide (LeaseOwner run = w ∧ now < LeaseUntil run)), (decide (¬ _)); try done; by injection Heq as -> ->.
    + by injection Heq as -> ->.
Qed.

Lemma ReleaseLease_yields d s now id w :
  refines d s → live now →
  ∃ d', yields (ReleaseLease no_fault alone now id w) d d' (MemoryStore.ReleaseLease None now s id w).2 ∧
    refines d' (MemoryStore.ReleaseLease None now s id w).1.
Proof.
  intros Hr Hn. unfold ReleaseLease, MemoryStore.ReleaseLease.
  do 2 (case_decide; [exists d; split; [apply yields_raise|done]|]).
  destruct (update_get_yields d s id (λ r, row_LeaseOwner r = w)
    (λ r, r <| row_LeaseOwner := "" |> <| row_LeaseUntil := 0 |> <| row_UpdatedAt := dbTime now |>)
    (λ run, LeaseOwner run = w)
    (λ run, run <| LeaseOwner := "" |> <| LeaseUntil := 0 |> <| UpdatedAt := now |>)) as (d' & s' & r & Hy & Hr' & Heq); [done|done| | |].
  - intros run row Hof. by row_cases Hof.
  - intros run row Hof _. row_cases Hof. constructor; [done..|]. repeat split; done || (by right) || by left.
  - exists d'. destruct (s !! id) as [run|]; [|by injection Heq as -> ->].
    rewrite cloneRun_id. destruct (decide (LeaseOwner run = w)), (decide (LeaseOwner run ≠ w)); try done; by injection Heq as -> ->.
Qed.

(** ** Updating a run *)

(** A callback whose run is encoded and decoded. *)
Definition stored_mutate (mutate : WorkflowRun → result WorkflowRun) (run : WorkflowRun) : result WorkflowRun :=
  let? updated := mutate run in
  let? _ := encodable updated in Ok (clean_run updated).

(** The creation time of the current run, for an update without one. *)
Definition keep_created (current updated : WorkflowRun) : WorkflowRun :=
  if decide (IsZero (CreatedAt updated)) then updated <| CreatedAt := CreatedAt current |> else updated.

Lemma keep_created_stamp now0 now1 current updated :
  live (CreatedAt current) →
  clean_run (save_stamp now0 now1 (keep_created current updated)) = update_stamp now1 current (clean_run updated).
Proof.
  intros Hc. unfold save_stamp, update_stamp, keep_created.
  destruct (decide (IsZero (CreatedAt updated))) as [Hz|Hz]; simpl.
  - rewrite decide_False; [by rewrite decide_True|]. unfold IsZero, live, unix_epoch in *. lia.
  - by rewrite !decide_False.
Qed.

Lemma encodable_keep current updated : encodable (keep_created current updated) = encodable updated.
Proof.
  unfold encodable, encodeRun, keep_created. case_decide; [|done]. destruct updated; simpl.
  by destruct (marshalJSON (j_strings _)), (marshalJSON (j_counts _)), (marshalJSON (j_metadata _)).
Qed.

Lemma Update_yields d s now0 now1 id mutate :
  refines d s → live now0 → live now1 →
  (∀ run updated, times_ok run → mutate run = Ok updated → ID updated = ID run ∧ times_ok updated) →
  let '(s', _, r) := MemoryStore.Update None now1 s id (stored_mutate mutate) in
  ∃ d', yields (Update no_fault alone now0 now1 id mutate) d d' r ∧ refines d' s'.
Proof.
  intros Hr H0 H1 Hm. rewrite MemoryStore.Update_outcome. unfold Update, update_outcome.
  pose proof (getRun_yields d s true id Hr) as Hget. unfold MemoryStore.Get in Hget.
  destruct (s !! id) as [current|] eqn:E.
  2:{ exists d. split; [|done]. eapply (yields_tx _ d d (Err _)), yields_bind_err, Hget. }
  rewrite cloneRun_id in Hget. destruct (refines_some _ _ _ _ Hr E) as (_ & _ & _ & [_ _ _ _ Htc] & Hid & Hc & _).
  unfold stored_mutate. destruct (mutate current) as [updated|e] eqn:Em; simpl.
  2:{ exists d. split; [|done]. eapply (yields_tx _ d d (Err _)), yields_bind; [exact Hget|]. eapply yields_bind_err.
      rewrite Em. apply yields_lift. }
  destruct (Hm _ _ Htc Em) as [Hid' Ht].
  assert (times_ok (keep_created current updated)) as Ht'.
  { destruct Ht as (? & ? & ? & ?). unfold keep_created. case_decide; [|done]. repeat split; done || by right. }
  assert (ID (keep_created current updated) = id) as Hk by (unfold keep_created; case_decide; simpl; congruence).
  pose proof (saveRun_yields d s now0 now1 _ Hr H0 H1 Ht') as Hs. rewrite encodable_keep, Hk in Hs.
  rewrite keep_created_stamp in Hs by done.
  destruct (encodable updated) as [[]|e]; simpl.
  - destruct Hs as (d' & Hy & Hr'). exists d'. split; [|exact Hr'].
    eapply (yields_tx _ d d' (Ok _)), yields_bind; [exact Hget|]. eapply yields_bind; [rewrite Em; apply yields_lift|].
    eapply yields_bind; [exact Hy|].
    change (yields (getRun no_fault alone true (ID (keep_created current updated))) d' d'
      (Ok (update_stamp now1 current (clean_run updated)))). rewrite Hk.
    pose proof (getRun_yields d' _ true id Hr') as Hg. unfold MemoryStore.Get in Hg.
    by rewrite lookup_insert_eq, cloneRun_id in Hg.
  - destruct Hs as (d' & Hy). exists d. split; [|exact Hr].
    eapply (yields_tx _ d d' (Err _)), yields_bind; [exact Hget|]. eapply yields_bind; [rewrite Em; apply yields_lift|].
    eapply yields_bind_err, Hy.
Qed.

(** ** Listings *)

Abbreviation by_created := (λ p : runRow * WorkflowRun, MemoryStore.created_key p.2).

(** The rows and the runs they hold, side by side. *)
Lemma listing d s :
  refines d s → ∃ zl : list (runRow * WorkflowRun),
    (map_to_list (workflow_runs d)).*2 = zl.*1 ∧ map_to_list s = (λ p, (ID p.2, p.2)) <$> zl ∧
    NoDup (by_created <$> zl) ∧ ∀ p, p ∈ zl → row_of p.2 p.1 ∧ s !! ID p.2 = Some p.2.
Proof.
  intros Hr. set (z := map_zip (workflow_runs d) s).
  assert (fst <$> z = workflow_runs d) as Hf.
  { apply fst_map_zip. intros k [row Hk]. specialize (Hr k). destruct (s !! k); [done|]. destruct Hr. congruence. }
  assert (snd <$> z = s) as Hsd.
  { apply snd_map_zip. intros k [run Hk]. destruct (refines_some _ _ _ _ Hr Hk) as (row & ? & -> & _). done. }
  assert (∀ id p, z !! id = Some p → row_of p.2 p.1 ∧ ID p.2 = id ∧ s !! id = Some p.2) as Hz.
  { intros id p [H1 H2]%map_lookup_zip_Some. destruct (refines_some _ _ _ _ Hr H2) as (row & ? & ? & ? & ? & _).
    assert (row = p.1) as -> by congruence. done. }
  assert (map_to_list s = (λ p, (ID p.2, p.2)) <$> (map_to_list z).*2) as Hs.
  { rewrite <-Hsd at 1. rewrite map_to_list_fmap, <-list_fmap_compose. apply list_fmap_ext.
    intros i [id p] Hi%list_elem_of_lookup_2%elem_of_map_to_list. destruct (Hz _ _ Hi) as (_ & Hid & _). simpl. by rewrite Hid. }
  exists ((map_to_list z).*2). split_and!; [|done| |].
  - rewrite <-Hf at 1. by rewrite map_to_list_fmap, <-!list_fmap_compose.
  - apply (NoDup_fmap_1 snd). 
    replace (snd <$> (by_created <$> (map_to_list z).*2)) with (map_to_list s).*1; [apply NoDup_fst_map_to_list|].
    rewrite Hs. generalize ((map_to_list z).*2). intros l. by rewrite <-!list_fmap_compose.
  - intros p ([id p'] & -> & Hp%elem_of_map_to_list)%list_elem_of_fmap. destruct (Hz _ _ Hp) as (? & Hid & ?). simpl.
    by rewrite Hid.
Qed.

(** The order of the [SELECT] is the order of the runs. *)
Lemma created_order_runs (p q : runRow * WorkflowRun) :
  row_of p.2 p.1 → row_of q.2 q.1 →
  key_less time_id_lt by_created p q ↔ key_less time_id_lt created_order p.1 q.1.
Proof.
  intros Hp Hq. unfold key_less, created_order, MemoryStore.created_key, time_id_lt, Before; simpl.
  rewrite (row_columns _ _ Hp), (row_columns _ _ Hq); simpl.
  destruct Hp as [_ _ _ _ (_ & _ & Tp & _)], Hq as [_ _ _ _ (_ & _ & Tq & _)].
  pose proof (dbTime_inj _ _ Tp Tq) as Hinj. destruct (decide (CreatedAt p.2 = CreatedAt q.2)) as [E|E].
  - rewrite E. by rewrite !decide_False by (intros Hn; by apply Hn).
  - rewrite !decide_True by auto. by rewrite dbTime_lt.
Qed.

Lemma select_runs_listing d (s : Runs) zl (W : runRow → Prop) `{∀ r, Decision (W r)} (P : WorkflowRun → Prop) `{∀ r, Decision (P r)} :
  (map_to_list (workflow_runs d)).*2 = zl.*1 → (∀ p, p ∈ zl → row_of p.2 p.1 ∧ s !! ID p.2 = Some p.2) →
  (∀ run row, row_of run row → (W row ↔ P run)) →
  select_runs W false d = (sort_slice (key_less time_id_lt by_created) (filter (λ p, P p.2) zl)).*1.
Proof.
  intros Hrows Hzl HW. unfold select_runs. rewrite Hrows, filter_fmap_comm.
  rewrite (filter_ext_in (λ p : runRow * WorkflowRun, W p.1) (λ p, P p.2)) by (intros p Hp; by apply HW, Hzl).
  apply (sort_slice_fmap _ (key_less time_id_lt by_created)).
  intros p q [_ Hp]%list_elem_of_filter [_ Hq]%list_elem_of_filter. apply created_order_runs; by apply Hzl.
Qed.

(** ** The queue *)

Lemma claimable_iff now run :
  MemoryStore.claimable now run ↔
  RunStatus run = StatusPending ∧ NextAttemptAt run ≤ now ∧ (LeaseOwner run = "" ∨ LeaseUntil run ≤ now).
Proof.
  unfold MemoryStore.claimable, After.
  destruct (decide (RunStatus run = StatusPending)), (decide (LeaseOwner run = "")),
    (decide (now < LeaseUntil run)); rewrite <-!Z.nlt_ge; tauto.
Qed.

Lemma runnable_row now run row :
  live now → row_of run row → (runnable (dbTime now) row ↔ MemoryStore.claimable now run).
Proof.
  intros Hn Hof. rewrite claimable_iff. unfold runnable. row_cases Hof.
  by rewrite !dbTime_le by (done || by right).
Qed.

(** The candidates of the two stores, in order. *)
Lemma claim_listing now (s : Runs) zl :
  map_to_list s = (λ p : runRow * WorkflowRun, (ID p.2, p.2)) <$> zl → NoDup (by_created <$> zl) →
  MemoryStore.first_claimable now (sort_slice MemoryStore.claim_less (map_to_list s)) =
  (λ p, (ID p.2, p.2)) <$> head (sort_slice (key_less time_id_lt by_created)
    (filter (λ p, MemoryStore.claimable now p.2) zl)).
Proof.
  intros Hs Hnd. rewrite MemoryStore.first_claimable_spec, Hs.
  rewrite (sort_slice_fmap _ (key_less time_id_lt by_created)) by done.
  rewrite filter_fmap_comm, sort_key_filter by (done || apply _).
  by destruct (filter _ (sort_slice _ _)).
Qed.

Lemma ClaimRunnable_yields d s now w lease :
  refines d s → live now → storable (TimeAdd now lease) →
  ∃ d', yields (ClaimRunnable no_fault alone now w lease) d d' (MemoryStore.ClaimRunnable None now s w lease).2 ∧
    refines d' (MemoryStore.ClaimRunnable None now s w lease).1.
Proof.
  intros Hr Hn Hlt. unfold ClaimRunnable, MemoryStore.ClaimRunnable.
  do 2 (case_decide; [exists d; split; [apply yields_raise|done]|]).
  destruct (listing d s Hr) as (zl & Hrows & Hs & Hnd & Hzl).
  pose proof (select_runs_listing d s zl (runnable (dbTime now)) (MemoryStore.claimable now) Hrows Hzl
    (λ run row, runnable_row now run row Hn)) as Hsel.
  rewrite (claim_listing now s zl Hs Hnd).
  destruct (sort_slice _ (filter _ zl)) as [|p L] eqn:EL; rewrite ?fmap_nil, ?fmap_cons in Hsel; simpl.
  { exists d. split; [|done]. eapply yields_bind_err, (yields_tx _ d d (Err _)).
    eapply yields_bind; [apply yields_query|]. rewrite Hsel. apply yields_raise. }
  assert (p ∈ filter (λ p, MemoryStore.claimable now p.2) zl) as [Hc Hp]%list_elem_of_filter.
  { rewrite <-(elem_of_sort_slice (key_less time_id_lt by_created)). rewrite EL. by left. }
  destruct (Hzl p Hp) as [Hof Hsp].
  assert (row_ID p.1 = ID p.2) as Hrid by by rewrite (row_columns _ _ Hof).
  set (f := λ run, run <| LeaseOwner := w |> <| LeaseUntil := TimeAdd now lease |> <| UpdatedAt := now |>).
  pose proof (update_run_refines d s (ID p.2) (claimable_row (dbTime now))
    (λ r, r <| row_LeaseOwner := w |> <| row_LeaseUntil := dbTime (TimeAdd now lease) |> <| row_UpdatedAt := dbTime now |>)
    (λ run, RunStatus run = StatusPending ∧ (LeaseOwner run = "" ∨ LeaseUntil run ≤ now)) f Hr) as Hu.
  rewrite Hsp, decide_True in Hu by (apply claimable_iff in Hc; tauto). destruct Hu as (d' & Hu & Hr').
  { by intros run. }
  { intros run row Hof'. unfold claimable_row. row_cases Hof'. by rewrite dbTime_le by (done || by right). }
  { intros run row Hof' _. row_cases Hof'. constructor; [done..|]. repeat split; done || by right. }
  exists d'. rewrite cloneRun_id. split; [|exact Hr'].
  eapply yields_bind; [apply (yields_tx _ d d' (Ok (ID p.2)))|].
  - eapply yields_bind; [apply yields_query|]. rewrite Hsel. rewrite Hrid.
    eapply yields_bind; [eapply yields_stmt_eq, Hu|]. apply yields_ret.
  - pose proof (getRun_yields d' _ false (ID p.2) Hr') as Hg. unfold MemoryStore.Get in Hg.
    by rewrite lookup_insert_eq, cloneRun_id in Hg.
Qed.

(** ** Recovery *)

(** Runs failed one after the other. *)
Definition fail_map (now : Time) (reason : string) (s : Runs) (rs : list WorkflowRun) : Runs :=
  foldl (λ s r, <[ID r := MemoryStore.fail_expired now reason r]> s) s rs.

Lemma fail_map_lookup now reason s rs id :
  NoDup (ID <$> rs) →
  (id ∉ ID <$> rs → fail_map now reason s rs !! id = s !! id) ∧
  (∀ r, r ∈ rs → ID r = id → fail_map now reason s rs !! id = Some (MemoryStore.fail_expired now reason r)).
Proof.
  revert s. induction rs as [|r0 rs IH]; intros s; [split; [done|set_solver]|].
  rewrite fmap_cons, NoDup_cons. intros [Hn Hnd]. cbn [fail_map foldl]. fold (fail_map now reason).
  destruct (IH (<[ID r0 := MemoryStore.fail_expired now reason r0]> s) Hnd) as [IH1 IH2]. unfold fail_map in *. split.
  - rewrite not_elem_of_cons. intros [? ?]. rewrite IH1 by done. by apply lookup_insert_ne.
  - intros r [->|Hr]%elem_of_cons Hid; [|by apply IH2]. rewrite IH1 by by rewrite <-Hid. rewrite Hid. apply lookup_insert_eq.
Qed.

Lemma fail_all_yields now reason rs d s :
  refines d s → live now → NoDup (ID <$> rs) → (∀ r, r ∈ rs → s !! ID r = Some r) →
  ∃ d', yields (fail_all no_fault alone now reason (ID <$> rs)) d d' (Ok (MemoryStore.fail_expired now reason <$> rs)) ∧
    refines d' (fail_map now reason s rs).
Proof.
  intros Hr Hn. revert d s Hr. induction rs as [|r rs IH]; intros d s Hr Hnd Hs.
  { exists d. split; [apply yields_ret|done]. }
  rewrite fmap_cons, NoDup_cons in Hnd. destruct Hnd as [Hni Hnd].
  pose proof (update_run_refines d s (ID r) (λ _, True)
    (λ r, r <| row_Status := StatusFailed |> <| row_Error := reason |> <| row_LeaseOwner := "" |>
            <| row_LeaseUntil := 0 |> <| row_UpdatedAt := dbTime now |>)
    (λ _, True) (MemoryStore.fail_expired now reason) Hr) as Hu.
  rewrite (Hs r), decide_True in Hu by (done || by left). destruct Hu as (d1 & Hu & Hr1); [done|done| |].
  { intros run row Hof _. row_cases Hof. constructor; [done..|]. repeat split; done || (by right) || by left. }
  destruct (IH d1 _ Hr1 Hnd) as (d' & Hy & Hr').
  { intros r' Hr'. rewrite lookup_insert_ne; [apply Hs; by right|]. intros E. apply Hni. rewrite E. by apply list_elem_of_fmap_2. }
  exists d'. split; [|exact Hr']. cbn [fail_all fmap list_fmap].
  eapply yields_bind; [eapply yields_stmt_eq, Hu|].
  pose proof (getRun_yields d1 _ true (ID r) Hr1) as Hg. unfold MemoryStore.Get in Hg.
  rewrite lookup_insert_eq, cloneRun_id in Hg. eapply yields_bind; [exact Hg|].
  eapply yields_bind; [exact Hy|]. apply yields_ret.
Qed.

Lemma expired_row_iff now run row :
  live now → row_of run row → (expired_row (dbTime now) row ↔ MemoryStore.expired_running now run).
Proof.
  intros Hn Hof. unfold expired_row, MemoryStore.expired_running, After. row_cases Hof.
  rewrite dbTime_le by (done || by right).
  destruct (decide (RunStatus run = StatusRunning)), (decide (LeaseOwner run = "")); rewrite <-?Z.nlt_ge; tauto.
Qed.

(** The expired runs, in the order they are reported. *)
Definition expired_runs (now : Time) (s : Runs) : list WorkflowRun :=
  sort_slice (key_less str_lt ID) (filter (MemoryStore.expired_running now) (map_to_list s).*2).

Lemma elem_of_expired now s r :
  MemoryStore.wf s → r ∈ expired_runs now s ↔ s !! ID r = Some r ∧ MemoryStore.expired_running now r.
Proof.
  intros Hwf. unfold expired_runs. rewrite elem_of_sort_slice, list_elem_of_filter, list_elem_of_fmap. split.
  - intros (He & [id r'] & -> & Hr%elem_of_map_to_list). simpl in *. by rewrite (map_Forall_lookup_1 _ _ _ _ Hwf Hr).
  - intros [Hs He]. split; [done|]. exists (ID r, r). by rewrite elem_of_map_to_list.
Qed.

Lemma refines_wf d s : refines d s → MemoryStore.wf s.
Proof. intros Hr id run E. by destruct (refines_some _ _ _ _ Hr E) as (? & ? & _ & _ & ? & _). Qed.

Lemma wf_NoDup_IDs s : MemoryStore.wf s → NoDup (ID <$> (map_to_list s).*2).
Proof.
  intros Hwf. replace (ID <$> (map_to_list s).*2) with (map_to_list s).*1; [apply NoDup_fst_map_to_list|].
  rewrite <-list_fmap_compose. apply list_fmap_ext. intros i [id r] Hi%list_elem_of_lookup_2%elem_of_map_to_list.
  symmetry. apply (map_Forall_lookup_1 _ _ _ _ Hwf Hi).
Qed.

Lemma NoDup_expired now s : MemoryStore.wf s → NoDup (ID <$> expired_runs now s).
Proof.
  intros Hwf. unfold expired_runs. rewrite sort_slice_perm.
  eapply sublist_NoDup; [apply (wf_NoDup_IDs s Hwf)|]. apply fmap_sublist, sublist_filter.
Qed.

Lemma FailExpiredRunning_yields d s now reason :
  refines d s → live now →
  ∃ d', yields (FailExpiredRunning no_fault alone now reason) d d' (MemoryStore.FailExpiredRunning None now s reason).2 ∧
    refines d' (MemoryStore.FailExpiredRunning None now s reason).1.
Proof.
  intros Hr Hn. pose proof (refines_wf d s Hr) as Hwf. unfold FailExpiredRunning, MemoryStore.FailExpiredRunning; simpl.
  destruct (listing d s Hr) as (zl & Hrows & Hs & _ & Hzl).
  assert ((map_to_list s).*2 = zl.*2) as Hs2 by by rewrite Hs, <-list_fmap_compose.
  assert (select_expired (dbTime now) d = ID <$> expired_runs now s) as Hsel.
  { unfold select_expired, expired_runs. rewrite Hrows, Hs2, !filter_fmap_comm.
    rewrite (filter_ext_in (λ p : runRow * WorkflowRun, expired_row (dbTime now) p.1)
      (λ p, MemoryStore.expired_running now p.2)) by (intros p Hp; by apply expired_row_iff, Hzl).
    rewrite <-(sort_slice_fmap str_lt (key_less str_lt ID)) by done. f_equal. rewrite <-!list_fmap_compose.
    apply list_fmap_ext. intros i p [_ Hp]%list_elem_of_lookup_2%list_elem_of_filter.
    unfold compose. by rewrite (row_columns _ _ (proj1 (Hzl p Hp))). }
  destruct (fail_all_yields now reason (expired_runs now s) d s Hr Hn (NoDup_expired now s Hwf)) as (d' & Hy & Hr').
  { intros r Hin. by apply elem_of_expired in Hin as [? _]. }
  exists d'. split.
  - eapply (yields_tx _ d d' (Ok _)), yields_bind; [apply yields_query|]. rewrite Hsel.
    rewrite (list_fmap_ext _ (MemoryStore.fail_expired now reason)) by (intros; apply cloneRun_id).
    rewrite (sort_slice_fmap _ (key_less str_lt ID)) by done. exact Hy.
  - replace (_ <$> s) with (fail_map now reason s (expired_runs now s)); [done|].
    apply map_eq. intros id. rewrite lookup_fmap.
    destruct (fail_map_lookup now reason s (expired_runs now s) id (NoDup_expired now s Hwf)) as [Hno Hyes].
    destruct (s !! id) as [run|] eqn:E; simpl.
    + pose proof (map_Forall_lookup_1 _ _ _ _ Hwf E) as Hid. case_decide as He; rewrite ?cloneRun_id.
      * apply Hyes; [|done]. apply elem_of_expired; [done|]. by rewrite Hid.
      * rewrite Hno; [done|]. intros (r & Hr1 & [Hr2 Hr3]%elem_of_expired)%list_elem_of_fmap; [|done].
        rewrite <-Hr1 in Hr2. by simplify_eq.
    + rewrite Hno; [done|]. intros (r & Hr1 & [Hr2 Hr3]%elem_of_expired)%list_elem_of_fmap; [|done]. congruence.
Qed.

(** ** Listing *)

(** A positive limit cuts the list. *)
Definition cut {A} (limit : Z) (l : list A) : list A := if decide (0 < limit) then take (Z.to_nat limit) l else l.

Lemma snoc_app {A} (l : list A) x k : l ++ x :: k = (l ++ [x]) ++ k.
Proof. by rewrite <-app_assoc. Qed.

Lemma scan_runs_ok Sprint q acc (ps : list (runRow * WorkflowRun)) :
  (∀ p, p ∈ ps → row_of p.2 p.1) → (0 < q_Limit q → Z.of_nat (length acc) < q_Limit q) →
  scan_runs Sprint q acc ps.*1 =
  Ok (cut (q_Limit q) (acc ++ ((λ p, p.2 <| StepRecords := [] |>) <$>
    filter (λ p, MemoryStore.workflowMetadataMatches Sprint p.2 (q_MetadataEquals q) = true) ps))).
Proof.
  revert acc. induction ps as [|p ps IH]; intros acc Hps Hlim; cbn [fmap list_fmap scan_runs].
  { rewrite app_nil_r. unfold cut. case_decide; [|done]. by rewrite take_ge by lia. }
  rewrite (scanRun_row p.2 p.1) by (apply Hps; by left). cbn [res_bind].
  assert (∀ p, p ∈ ps → row_of p.2 p.1) as Hps' by (intros; apply Hps; by right).
  assert (MemoryStore.workflowMetadataMatches Sprint (p.2 <| StepRecords := [] |>) (q_MetadataEquals q) =
    MemoryStore.workflowMetadataMatches Sprint p.2 (q_MetadataEquals q)) as -> by done.
  destruct (MemoryStore.workflowMetadataMatches Sprint p.2 _) eqn:Em; cbn [negb].
  2:{ rewrite filter_cons_False by congruence. by apply IH. }
  rewrite filter_cons_True by done. rewrite fmap_cons.
  rewrite (snoc_app acc _ (_ <$> _)).
  destruct (decide (0 < q_Limit q ∧ q_Limit q ≤ _)) as [[H0 H1]|Hn].
  - specialize (Hlim H0). rewrite length_app in H1; cbn [length] in H1. unfold cut. rewrite decide_True by done.
    rewrite take_app_le by (rewrite length_app; simpl; lia). by rewrite take_ge by (rewrite length_app; simpl; lia).
  - apply IH; [done|]. intros H0. rewrite length_app. rewrite length_app in Hn. simpl in *. lia.
Qed.

Lemma load_all_yields d s (ps : list WorkflowRun) :
  refines d s → (∀ r, r ∈ ps → s !! ID r = Some r) →
  yields (load_all no_fault alone ((λ r, r <| StepRecords := [] |>) <$> ps)) d d (Ok ps).
Proof.
  intros Hr. induction ps as [|r ps IH]; intros Hps; [apply yields_ret|]. rewrite fmap_cons. cbn [load_all].
  eapply yields_bind; [eapply loadStepRecords_yields; [done|apply Hps; by left]|].
  eapply yields_bind; [apply IH; intros; apply Hps; by right|]. apply yields_ret.
Qed.

Lemma list_cut_fmap {A B} (f : A → B) limit (l : list A) : cut limit (f <$> l) = f <$> cut limit l.
Proof. unfold cut. case_decide; [|done]. by rewrite <-fmap_take. Qed.

(** The filters, the order and the direction of a listing. *)
Lemma list_sorted Sprint q (zl : list (runRow * WorkflowRun)) :
  NoDup (by_created <$> zl) →
  sort_slice (MemoryStore.list_less (q_Order q)) (filter (MemoryStore.list_matches Sprint q) zl.*2) =
  (filter (λ p, MemoryStore.workflowMetadataMatches Sprint p.2 (q_MetadataEquals q) = true)
     ((λ l, if match q_Order q with WorkflowOrderDesc => true | _ => false end then reverse l else l)
        (sort_slice (key_less time_id_lt by_created)
          (filter (λ p, q_Status q = "" ∨ RunStatus p.2 = q_Status q) zl)))).*2.
Proof.
  intros Hnd. rewrite filter_fmap_comm.
  set (fl := filter (λ p : runRow * WorkflowRun, MemoryStore.list_matches Sprint q p.2) zl).
  assert (NoDup (by_created <$> fl)) as Hnf.
  { eapply sublist_NoDup; [exact Hnd|]. apply fmap_sublist, sublist_filter. }
  assert (filter (λ p : runRow * WorkflowRun, MemoryStore.workflowMetadataMatches Sprint p.2 (q_MetadataEquals q) = true)
      (sort_slice (key_less time_id_lt by_created) (filter (λ p : runRow * WorkflowRun, q_Status q = "" ∨ RunStatus p.2 = q_Status q) zl)) =
    sort_slice (key_less time_id_lt by_created) fl) as E.
  { rewrite <-sort_key_filter; [|apply _|eapply sublist_NoDup; [exact Hnd|]; apply fmap_sublist, sublist_filter].
    f_equal. rewrite list_filter_filter. apply list_filter_iff. intros p. unfold MemoryStore.list_matches. tauto. }
  destruct (q_Order q); rewrite ?filter_reverse, E; [by apply sort_slice_fmap..| |by apply sort_slice_fmap].
  rewrite <-(sort_key_reverse (H0 := λ a b, time_id_lt_dec b a) time_id_lt by_created) by done. by apply sort_slice_fmap.
Qed.

Lemma ListWorkflows_yields d s Sprint q :
  refines d s →
  yields (ListWorkflows no_fault alone Sprint q) d d (MemoryStore.ListWorkflows Sprint None s q).
Proof.
  intros Hr. unfold ListWorkflows, MemoryStore.ListWorkflows.
  do 2 (case_decide; [apply yields_raise|]).
  destruct (listing d s Hr) as (zl & Hrows & Hs & Hnd & Hzl).
  assert ((map_to_list s).*2 = zl.*2) as Hs2 by by rewrite Hs, <-list_fmap_compose.
  set (desc := match q_Order q with WorkflowOrderDesc => true | _ => false end).
  set (dir := λ l : list (runRow * WorkflowRun), if desc then reverse l else l).
  set (sorted := sort_slice (key_less time_id_lt by_created)
    (filter (λ p, q_Status q = "" ∨ RunStatus p.2 = q_Status q) zl)).
  assert (select_runs (λ r, q_Status q = "" ∨ row_Status r = q_Status q) desc d = (dir sorted).*1) as Hsel.
  { assert (select_runs (λ r, q_Status q = "" ∨ row_Status r = q_Status q) false d = sorted.*1) as Hf.
    { etransitivity; [apply (select_runs_listing d s zl (λ r, q_Status q = "" ∨ row_Status r = q_Status q)
        (λ r, q_Status q = "" ∨ RunStatus r = q_Status q) Hrows Hzl)|done].
      intros run row Hof. by rewrite (row_columns _ _ Hof). }
    unfold dir. destruct desc; [|exact Hf]. rewrite fmap_reverse, <-Hf. done. }
  assert (∀ p, p ∈ dir sorted → p ∈ zl) as Hin.
  { intros p Hp. assert (p ∈ sorted) as [_ ?]%elem_of_sort_slice%list_elem_of_filter; [|done].
    unfold dir in Hp. destruct desc; [|done]. by rewrite elem_of_reverse in Hp. }
  eapply yields_bind; [apply yields_query|]. rewrite Hsel, scan_runs_ok; [|intros p Hp; by apply Hzl, Hin|simpl; lia].
  eapply yields_bind; [apply yields_lift|]. cbn [app].
  set (meta := filter _ (dir sorted)).
  assert (sort_slice (MemoryStore.list_less (q_Order q)) (cloneRun <$> filter (MemoryStore.list_matches Sprint q) (map_to_list s).*2) =
    meta.*2) as ->.
  { rewrite (list_fmap_ext _ id), list_fmap_id by (intros; apply cloneRun_id). rewrite Hs2. by apply list_sorted. }
  replace (if decide _ then _ else _) with (cut (q_Limit q) meta.*2).
  2:{ unfold cut. destruct (decide (0 < q_Limit q)) as [?|?]; [|by rewrite decide_False by lia].
      destruct (decide (0 < q_Limit q < _)); [done|]. apply take_ge. lia. }
  change (λ p : runRow * WorkflowRun, p.2 <| StepRecords := [] |>) with
    ((λ r, r <| StepRecords := [] |>) ∘ (snd : runRow * WorkflowRun → _)).
  rewrite list_fmap_compose, (list_cut_fmap (λ r, r <| StepRecords := [] |>)).
  apply (load_all_yields d s); [done|]. intros r Hr'.
  assert (r ∈ meta.*2) as (p & -> & [_ Hp]%list_elem_of_filter)%list_elem_of_fmap; [|by apply Hzl, Hin].
  unfold cut in Hr'. case_decide; [|done]. eapply elem_of_submseteq; [exact Hr'|]. apply sublist_submseteq, sublist_take.
Qed.

(** * Migration *)

(** The records that version 3 kept inline, as the table holds them afterwards. *)
Definition inline_datas (data : string) : result (list string) :=
  let? records := unmarshalJSON u_records data in marshal_records records.

Lemma move_all_yields inline d :
  NoDup inline.*1 → (∀ id, ∃ l, records_at d id l) →
  (∀ id records, (id, records) ∈ inline → is_ok (marshal_records records) = true) →
  ∃ d', yields (move_all no_fault alone inline) d d' (Ok ()) ∧ workflow_runs d' = workflow_runs d ∧
    (∀ id, step_records_json d' !! id =
       if decide (id ∈ inline.*1) then (λ _, "[]") <$> step_records_json d !! id else step_records_json d !! id) ∧
    (∀ id records datas, (id, records) ∈ inline → marshal_records records = Ok datas → records_at d' id datas) ∧
    (∀ id l, id ∉ inline.*1 → records_at d id l → records_at d' id l).
Proof.
  revert d. induction inline as [|[id records] inline IH]; intros d Hnd Hat Hm.
  { exists d. split_and!; [apply yields_ret|done..|set_solver|done]. }
  rewrite fmap_cons, NoDup_cons in Hnd. destruct Hnd as [Hn Hnd]. cbn [fst] in Hn. destruct (Hat id) as [l Hl].
  pose proof (saveStepRecords_yields id l records d Hl) as Hs.
  specialize (Hm id records) as Hok. specialize (Hok ltac:(by left)).
  destruct (marshal_records records) as [datas|] eqn:Em; [|done]. clear Hok. destruct Hs as (d1 & Hy1 & (Hr1 & Hj1 & Ho1) & Hd1).
  set (d2 := d1 <| step_records_json := alter (λ _, "[]") id (step_records_json d1) |>).
  assert (∀ i k, i ≠ id → records_at d i k → records_at d2 i k) as Hkeep.
  { intros i k Hi Hk seq. simpl. rewrite Ho1 by by left. apply Hk. }
  destruct (IH d2 Hnd) as (d' & Hy & Hr & Hj & Hin & Hout).
  { intros i. destruct (decide (i = id)) as [->|Hi]; [by exists datas|]. destruct (Hat i) as [k Hk]. eauto. }
  { intros i rs Hi. apply (Hm i). by right. }
  exists d'. split_and!.
  - cbn [move_all]. eapply yields_bind; [exact Hy1|]. eapply yields_bind; [apply yields_exec|]. exact Hy.
  - by rewrite Hr.
  - intros i. rewrite Hj. simpl. rewrite Hj1. destruct (decide (i = id)) as [->|Hi].
    + rewrite (decide_False (P := id ∈ inline.*1)), decide_True, lookup_alter_eq by (done || by left). done.
    + rewrite lookup_alter_ne by done. destruct (decide (i ∈ inline.*1)) as [E|E].
      * rewrite decide_True by by right. done.
      * rewrite decide_False by by apply not_elem_of_cons. done.
  - intros i rs ds [[= -> ->]|Hi]%elem_of_cons E; [|by eapply Hin]. rewrite Em in E. injection E as <-. by apply Hout.
  - intros i k [Hi Hni]%not_elem_of_cons Hk. apply Hout; [done|]. by apply Hkeep.
Qed.

Lemma decode_inline_ok rows :
  (∀ id data, (id, data) ∈ rows → is_ok (unmarshalJSON u_records data) = true) →
  ∃ inline, decode_inline rows = Ok inline ∧ inline.*1 = rows.*1 ∧
    ∀ id records, (id, records) ∈ inline → ∃ data, (id, data) ∈ rows ∧ unmarshalJSON u_records data = Ok records.
Proof.
  induction rows as [|[id data] rows IH]; intros H; [exists []; set_solver|]. cbn [decode_inline].
  pose proof (H id data ltac:(by left)) as Hd. destruct (unmarshalJSON u_records data) as [records|] eqn:Eu; [|done].
  destruct IH as (inline & -> & Hfst & Hin); [intros; apply (H id0); by right|].
  exists ((id, records) :: inline). split_and!; [done|by rewrite !fmap_cons, Hfst|].
  intros i rs [[= -> ->]|Hi]%elem_of_cons; [exists data; split; [by left|done]|].
  destruct (Hin i rs Hi) as (data' & ? & ?). exists data'. split; [by right|done].
Qed.

Lemma elem_of_select_inline d id data :
  (id, data) ∈ select_inline d ↔ step_records_json d !! id = Some data ∧ data ∉ [""; "[]"; "null"].
Proof. unfold select_inline. rewrite list_elem_of_filter, elem_of_map_to_list. simpl. tauto. Qed.

(** The migration from schema version 3 moves every inline array of step records, each record read and
written as JSON, into its own rows, in order; it leaves the runs and the records
of other runs alone, and a second migration finds nothing to move. *)
Theorem migration_moves d :
  (∀ id, ∃ l, records_at d id l) →
  (∀ id data, (id, data) ∈ select_inline d → is_ok (inline_datas data) = true) →
  ∃ d', yields (moveInlineStepRecords no_fault alone) d d' (Ok ()) ∧ workflow_runs d' = workflow_runs d ∧
    (∀ id data, (id, data) ∈ select_inline d → ∃ datas, inline_datas data = Ok datas ∧ records_at d' id datas) ∧
    (∀ id l, records_at d id l → id ∉ (select_inline d).*1 → records_at d' id l) ∧
    select_inline d' = [].
Proof.
  intros Hat Hok.
  destruct (decode_inline_ok (select_inline d)) as (inline & Hdec & Hfst & Hin).
  { intros id data Hi. specialize (Hok id data Hi). unfold inline_datas in Hok. by destruct (unmarshalJSON _ _). }
  assert (NoDup (select_inline d).*1) as Hnd.
  { eapply sublist_NoDup; [apply (NoDup_fst_map_to_list (step_records_json d))|]. apply fmap_sublist, sublist_filter. }
  destruct (move_all_yields inline d) as (d' & Hy & Hr & Hj & Hmoved & Hkept); [by rewrite Hfst|done| |].
  { intros id records (data & Hi & Hu)%Hin. specialize (Hok id data Hi). unfold inline_datas in Hok. by rewrite Hu in Hok. }
  exists d'. split_and!; [|done| | |].
  - eapply (yields_tx _ d d' (Ok ())), yields_bind; [apply yields_query|].
    eapply yields_bind; [rewrite Hdec; apply yields_lift|exact Hy].
  - intros id data Hi. specialize (Hok id data Hi).
    assert (id ∈ inline.*1) as ([id' records] & -> & Hir)%list_elem_of_fmap.
    { rewrite Hfst. apply list_elem_of_fmap. by exists (id, data). }
    destruct (Hin _ _ Hir) as (data' & Hi' & Hu).
    assert (data' = data) as ->.
    { apply elem_of_select_inline in Hi as [E _], Hi' as [E' _]. simpl in *. congruence. }
    unfold inline_datas in *. rewrite Hu in *. simpl in *. destruct (marshal_records records) as [datas|] eqn:Em; [|done].
    exists datas. split; [done|]. by eapply Hmoved.
  - intros id l Hl Hni. apply Hkept; [by rewrite Hfst|done].
  - destruct (select_inline d') as [|[id data] rest] eqn:E; [done|]. exfalso.
    assert ((id, data) ∈ select_inline d') as [Hl Hne]%elem_of_select_inline by (rewrite E; by left).
    rewrite Hj in Hl. case_decide as Hi.
    + destruct (step_records_json d !! id); [|done]. simpl in Hl. injection Hl as <-. set_solver.
    + apply Hi. rewrite Hfst. apply list_elem_of_fmap. exists (id, data). split; [done|]. by apply elem_of_select_inline.
Qed.

(** * Operations and histories *)

Context (Sprint : Any → string).

Inductive op :=
| OSave (now0 now1 : Time) (run : WorkflowRun)
| OGet (id : string)
| OUpdate (now0 now1 : Time) (id : string) (mutate : WorkflowRun → result WorkflowRun)
| OList (query : WorkflowQuery)
| OClaim (now : Time) (workerID : string) (lease : Duration)
| OExtend (now : Time) (id workerID : string) (lease : Duration)
| ORelease (now : Time) (id workerID : string)
| OFailExpired (now : Time) (reason : string).

Definition one (r : WorkflowRun) : list WorkflowRun := [r].
Definition map_ok {A B} (f : A → B) (r : result A) : result B := let? a := r in Ok (f a).

(** An operation on the database. *)
Definition sql_op (fault : nat → option Error) (others : nat → DB → DB) (o : op) : M (list WorkflowRun) :=
  match o with
  | OSave now0 now1 run => bind (Save fault others now0 now1 run) (λ _, ret [])
  | OGet id => bind (Get fault others id) (λ r, ret [r])
  | OUpdate now0 now1 id mutate => bind (Update fault others now0 now1 id mutate) (λ r, ret [r])
  | OList q => ListWorkflows fault others Sprint q
  | OClaim now w lease => bind (ClaimRunnable fault others now w lease) (λ r, ret [r])
  | OExtend now id w lease => bind (ExtendLease fault others now id w lease) (λ r, ret [r])
  | ORelease now id w => bind (ReleaseLease fault others now id w) (λ r, ret [r])
  | OFailExpired now reason => FailExpiredRunning fault others now reason
  end.

(** The operation of the in-memory store on runs that were encoded and decoded; a run that
cannot be encoded is refused. *)
Definition mem_op (s : Runs) (o : op) : Runs * result (list WorkflowRun) :=
  match o with
  | OSave now0 now1 run =>
      match encodable run with
      | Err e => (s, Err e)
      | Ok _ => let '(s, r) := MemoryStore.Save None now0 now1 s (clean_run run) in (s, map_ok (λ _, []) r)
      end
  | OGet id => (s, map_ok one (MemoryStore.Get None s id))
  | OUpdate now0 now1 id mutate =>
      let '(s, _, r) := MemoryStore.Update None now1 s id (stored_mutate mutate) in (s, map_ok one r)
  | OList q => (s, MemoryStore.ListWorkflows Sprint None s q)
  | OClaim now w lease => let '(s, r) := MemoryStore.ClaimRunnable None now s w lease in (s, map_ok one r)
  | OExtend now id w lease => let '(s, r) := MemoryStore.ExtendLease None now s id w lease in (s, map_ok one r)
  | ORelease now id w => let '(s, r) := MemoryStore.ReleaseLease None now s id w in (s, map_ok one r)
  | OFailExpired now reason => MemoryStore.FailExpiredRunning None now s reason
  end.

(** The clock runs between 1970 and 2262, the times of a saved run are storable, and a callback
keeps the ID of its run. *)
Definition op_ok (o : op) : Prop :=
  match o with
  | OSave now0 now1 run => live now0 ∧ live now1 ∧ times_ok run
  | OUpdate now0 now1 _ mutate => live now0 ∧ live now1 ∧
      ∀ run updated, times_ok run → mutate run = Ok updated → ID updated = ID run ∧ times_ok updated
  | OClaim now _ lease | OExtend now _ _ lease => live now ∧ storable (TimeAdd now lease)
  | ORelease now _ _ | OFailExpired now _ => live now
  | OGet _ | OList _ => True
  end.

Lemma yields_map {A} (c : M A) (f : A → list WorkflowRun) d d' r :
  yields c d d' r → yields (bind c (λ a, ret (f a))) d d' (map_ok f r).
Proof.
  intros H. destruct r as [a|e]; [|by eapply yields_bind_err]. eapply yields_bind; [exact H|]. apply yields_ret.
Qed.

Lemma clean_save_stamp now0 now1 run : clean_run (save_stamp now0 now1 run) = save_stamp now0 now1 (clean_run run).
Proof. unfold save_stamp. by case_decide; rewrite ?decide_True, ?decide_False by done. Qed.

(** One operation. *)
Lemma sql_op_yields d s o :
  refines d s → op_ok o →
  ∃ d', yields (sql_op no_fault alone o) d d' (mem_op s o).2 ∧ refines d' (mem_op s o).1.
Proof.
  intros Hr Ho. destruct o as [now0 now1 run|id|now0 now1 id mutate|q|now w lease|now id w lease|now id w|now reason]; cbn [op_ok sql_op mem_op] in *.
  - destruct Ho as (H0 & H1 & Ht). pose proof (saveRun_yields d s now0 now1 run Hr H0 H1 Ht) as Hs.
    destruct (encodable run) as [[]|e].
    + destruct Hs as (d' & Hy & Hr'). exists d'. rewrite MemoryStore.Save_insert. split.
      * apply (yields_map _ (λ _, []) _ _ (Ok ())), (yields_tx _ _ _ (Ok ())), Hy.
      * by rewrite clean_save_stamp in Hr'.
    + destruct Hs as (d' & Hy). exists d. split; [|done].
      apply (yields_map _ (λ _, []) _ _ (Err e)), (yields_tx _ _ _ (Err e) Hy).
  - exists d. split; [|done]. apply yields_map, getRun_yields, Hr.
  - destruct Ho as (H0 & H1 & Hm). pose proof (Update_yields d s now0 now1 id mutate Hr H0 H1 Hm) as Hu.
    destruct (MemoryStore.Update _ _ _ _ _) as [[s' seen] r]. destruct Hu as (d' & Hy & Hr'). exists d'.
    split; [by apply yields_map|done].
  - exists d. split; [|done]. by apply ListWorkflows_yields.
  - destruct Ho as [Hn Hl]. destruct (ClaimRunnable_yields d s now w lease Hr Hn Hl) as (d' & Hy & Hr'). exists d'.
    destruct (MemoryStore.ClaimRunnable _ _ _ _ _). split; [by apply yields_map|done].
  - destruct Ho as [Hn Hl]. destruct (ExtendLease_yields d s now id w lease Hr Hn Hl) as (d' & Hy & Hr'). exists d'.
    destruct (MemoryStore.ExtendLease _ _ _ _ _ _). split; [by apply yields_map|done].
  - destruct (ReleaseLease_yields d s now id w Hr Ho) as (d' & Hy & Hr'). exists d'.
    destruct (MemoryStore.ReleaseLease _ _ _ _ _). split; [by apply yields_map|done].
  - apply (FailExpiredRunning_yields d s now reason Hr Ho).
Qed.

Fixpoint sql_history (ops : list op) (w : World) : World * list (result (list WorkflowRun)) :=
  match ops with
  | [] => (w, [])
  | o :: ops =>
      let '(w, r) := sql_op no_fault alone o w in
      let '(w, rs) := sql_history ops w in (w, r :: rs)
  end.

Fixpoint mem_history (ops : list op) (s : Runs) : Runs * list (result (list WorkflowRun)) :=
  match ops with
  | [] => (s, [])
  | o :: ops =>
      let '(s, r) := mem_op s o in
      let '(s, rs) := mem_history ops s in (s, r :: rs)
  end.

(** The tables after [migrate] of a new file. *)
Definition new_db : DB := mkDB ∅ ∅ ∅.

Lemma refines_new : refines new_db MemoryStore.New.
Proof. intros id. unfold MemoryStore.New. rewrite lookup_empty. split; [done|]. intros seq; simpl. by case_decide. Qed.

Lemma sql_history_refines ops w s :
  refines (w_db w) s → Forall op_ok ops →
  (sql_history ops w).2 = (mem_history ops s).2 ∧ refines (w_db (sql_history ops w).1) (mem_history ops s).1.
Proof.
  revert w s. induction ops as [|o ops IH]; intros w s Hr Hok; [done|]. apply Forall_cons in Hok as [Ho Hok].
  destruct w as [d t]. destruct (sql_op_yields d s o Hr Ho) as (d' & Hy & Hr'). destruct (Hy t) as [t' Ht'].
  cbn [sql_history mem_history]. rewrite Ht'. destruct (mem_op s o) as [s' r]; simpl in *.
  destruct (IH (mkWorld d' t') s' Hr' Hok) as [IH1 IH2].
  destruct (sql_history ops _), (mem_history ops s'); simpl in *. by subst.
Qed.

(** C16: The SQLite store implements the in-memory store: starting from a new database, any sequence of
Save, Get, Update, ListWorkflows, ClaimRunnable, ExtendLease, ReleaseLease and
FailExpiredRunning returns, without faults and other clients, exactly the results (runs, order and
errors) of the in-memory store on runs as JSON keeps them, and at the end the tables
hold exactly its runs. Conditions ([op_ok]): the clock is after the Unix epoch and before 2262,
and so is the end of a lease that is claimed or extended, unless it is the zero time; the
times of a saved run are zero or in that range; and the callback of an Update keeps the
identifier of the run it is given (with another one the SQLite store would save under the new
identifier and the in-memory store under the old) and such times. JSON ([JsonLaws]) decodes what it has encoded, up to its
normalisation of the value; a value that it cannot encode is refused. *)
Theorem sqlite_refines_memory ops :
  Forall op_ok ops →
  (sql_history ops (mkWorld new_db 0)).2 = (mem_history ops MemoryStore.New).2 ∧
  refines (w_db (sql_history ops (mkWorld new_db 0)).1) (mem_history ops MemoryStore.New).1.
Proof. apply sql_history_refines, refines_new. Qed.

(** * Faults and other clients *)

Section faults.
Context (fault : nat → option Error) (others : nat → DB → DB).
#[local] Abbreviation calm := (Sql.calm fault).
#[local] Abbreviation faulted := (Sql.faulted fault).

Lemma calm_write_records id stored seq records :
  calm (write_records fault others true id stored seq records) (write_records no_fault alone true id stored seq records).
Proof. revert seq. induction records; intros seq; cbn [write_records]; calm_solve; auto. Qed.

Lemma calm_saveStepRecords id records :
  calm (saveStepRecords fault others true id records) (saveStepRecords no_fault alone true id records).
Proof. unfold saveStepRecords. calm_solve. apply calm_write_records. Qed.

Lemma calm_saveRun now0 now1 run :
  calm (saveRun fault others true now0 now1 run) (saveRun no_fault alone true now0 now1 run).
Proof. unfold saveRun. cbv zeta. calm_solve. apply calm_saveStepRecords. Qed.

Lemma calm_getRun id : calm (getRun fault others true id) (getRun no_fault alone true id).
Proof. unfold getRun, loadStepRecords. calm_solve. Qed.

Lemma calm_fail_all now reason ids :
  calm (fail_all fault others now reason ids) (fail_all no_fault alone now reason ids).
Proof. induction ids; cbn [fail_all]; calm_solve; [apply calm_getRun|done]. Qed.

Lemma calm_moves inline : calm (move_all fault others inline) (move_all no_fault alone inline).
Proof. induction inline as [|[id records] inline IH]; cbn [move_all]; calm_solve; [apply calm_saveStepRecords|done]. Qed.

(** Operations that are one transaction. *)
Definition transactional (o : op) : Prop :=
  match o with OSave _ _ _ | OUpdate _ _ _ _ | OFailExpired _ _ => True | _ => False end.

Lemma bind_ret_tx {A} (body body0 : M A) (f : A → list WorkflowRun) w w' r :
  calm body body0 → bind (tx fault others body) (λ a, ret (f a)) w = (w', r) →
  (faulted r ∧ w_db w' = others (w_tick w) (w_db w)) ∨
  yields (bind (tx no_fault alone body0) (λ a, ret (f a))) (others (w_tick w) (w_db w)) (w_db w') r.
Proof.
  intros Hb. unfold bind at 1. destruct (tx fault others body w) as [w1 [a|e]] eqn:E;
    destruct (tx_atomic _ _ _ _ _ _ _ Hb E) as [[Hf Hd]|Hy]; intros [= <- <-].
  - by destruct Hf as (? & ? & _ & ?).
  - right. apply (yields_map _ f _ _ (Ok a) Hy).
  - left. split; [|done]. destruct Hf as (t & e' & ? & [= ->]). by exists t, e'.
  - right. apply (yields_map _ f _ _ (Err e) Hy).
Qed.

(** Save, Update and FailExpiredRunning are atomic, whatever statement the driver or the context
fails and whatever other clients do between transactions: each either reports the
driver's error and leaves the database exactly as it found it, or has precisely the effect and
result of the in-memory operation on the runs it found. *)
Theorem sqlite_atomic o w w' r s :
  transactional o → op_ok o → refines (others (w_tick w) (w_db w)) s →
  sql_op fault others o w = (w', r) →
  (faulted r ∧ w_db w' = others (w_tick w) (w_db w)) ∨
  (r = (mem_op s o).2 ∧ refines (w_db w') (mem_op s o).1).
Proof.
  intros Htx Ho Hr E. destruct (sql_op_yields _ _ _ Hr Ho) as (d' & Hy & Hr').
  assert ((faulted r ∧ w_db w' = others (w_tick w) (w_db w)) ∨
    yields (sql_op no_fault alone o) (others (w_tick w) (w_db w)) (w_db w') r) as [Hf|Hy'].
  - destruct o; try done; cbn [sql_op] in *.
    + eapply bind_ret_tx, E. apply calm_saveRun.
    + eapply bind_ret_tx, E. calm_solve; first [apply calm_getRun|apply calm_saveRun].
    + eapply tx_atomic, E. calm_solve. apply calm_fail_all.
  - by left.
  - right. destruct (yields_det _ _ _ _ _ _ Hy Hy') as [<- <-]. done.
Qed.

End faults.

End json.

(** * Witnesses *)

(** An encoding with the laws: the digits of the standard encoding of countable types, for records and
metadata without dynamic values. *)
Fixpoint bits (p : positive) : string :=
  match p with xH => "1" | xO p => String "o" (bits p) | xI p => String "i" (bits p) end.
Fixpoint unbits (s : string) : option positive :=
  match s with
  | String "1" "" => Some xH
  | String "o" s => xO <$> unbits s
  | String "i" s => xI <$> unbits s
  | _ => None
  end.

Lemma unbits_bits p : unbits (bits p) = Some p.
Proof. induction p as [p IH|p IH|]; simpl; [by rewrite IH..|done]. Qed.

Definition toy_write {A} `{Countable A} (a : A) : string := bits (encode a).
Definition toy_read {A} `{Countable A} (s : string) : option A := unbits s ≫= decode.

Lemma toy_read_write {A} `{Countable A} (a : A) : toy_read (toy_write a) = Some a.
Proof. unfold toy_read, toy_write. rewrite unbits_bits. simpl. apply decode_encode. Qed.

Lemma toy_write_ne {A} `{Countable A} (a : A) : toy_write a ≠ "".
Proof. unfold toy_write. by destruct (encode a). Qed.

Definition record_tuple (r : StepRecord) :=
  ((sr_Name r, sr_Status r, sr_Attempt r, sr_OutputRef r, sr_AgentRunID r, sr_AuditRef r),
   (sr_Error r, sr_ApprovalRef r, sr_WaitingReason r, sr_StartedAt r, sr_EndedAt r)).
Definition tuple_record (x : (string * string * Z * string * string * string) * (string * string * string * Z * Z)) : StepRecord :=
  let '((a, b, c, d, e, f), (g, h, i, j, k)) := x in mkStepRecord a b c d e f g h i j k ∅.

Definition or_error {A} (o : option A) : json A := match o with Some a => Ok a | None => Err "invalid character" end.

#[local] Instance toy_json : Json := {
  j_strings v := Ok (toy_write v); u_strings s := or_error (toy_read s);
  j_counts v := Ok (toy_write v); u_counts s := or_error (toy_read s);
  j_metadata v := if decide (v = ∅) then Ok "null" else Err "unsupported type";
  u_metadata s := if decide (s = "null") then Ok ∅ else Err "invalid character";
  j_record r := if decide (sr_Metadata r = ∅) then Ok (toy_write (record_tuple r : _ * _)) else Err "unsupported type";
  u_record s := or_error (tuple_record <$> toy_read s);
  u_records s := or_error ((λ l : list _, tuple_record <$> l) <$> toy_read s)
}.

#[local] Program Instance toy_laws : JsonLaws toy_json := {
  clean_strings := id; clean_counts := id; clean_metadata := id; clean_record := id
}.
Next Obligation. intros v s [= <-]. split; [apply toy_write_ne|]. simpl. by rewrite toy_read_write. Qed.
Next Obligation. intros v s [= <-]. split; [apply toy_write_ne|]. simpl. by rewrite toy_read_write. Qed.
Next Obligation. intros v s. simpl. case_decide; [|done]. intros [= <-]. by subst. Qed.
Next Obligation.
  intros v s. simpl. case_decide; [|done]. intros [= <-]. split; [apply toy_write_ne|]. rewrite toy_read_write.
  destruct v. simpl in *. by subst.
Qed.

Definition now_2024 : Time := unix_epoch + 1704067200 * 1000000000.

Definition sample_run : WorkflowRun :=
  (newRun "a" StatusPending) <| CompletedSteps := ["fetch"] |>
    <| StepRecords := [mkStepRecord "fetch" StatusSucceeded 1 "out" "" "" "" "" "" now_2024 now_2024 ∅] |>.

Definition sample_ops : list op :=
  [OSave now_2024 now_2024 sample_run;
   OSave now_2024 now_2024 ((newRun "b" StatusPending) <| RunMetadata := {[ "k" := AInt 1 ]} |>);
   OClaim (now_2024 + 5) "w1" 10;
   OUpdate (now_2024 + 6) (now_2024 + 6) "a" (λ r, Ok (r <| RunStatus := StatusRunning |> <| StepRecords := [] |>));
   OExtend (now_2024 + 7) "a" "w2" 10;
   OFailExpired (now_2024 + 50) "crashed"; OList (mkQuery "" ∅ OrderDefault 0); OGet "b"].

Lemma sample_ops_ok : Forall op_ok sample_ops.
Proof.
  assert (∀ z, 0 ≤ z < 1000 → live (now_2024 + z)) as Hl.
  { intros z Hz. unfold live, now_2024, unix_epoch, max_int64. lia. }
  pose proof (Hl 0 ltac:(lia)) as H0. rewrite Z.add_0_r in H0.
  repeat (apply Forall_cons; split); [..|apply Forall_nil; done]; cbn [op_ok].
  - by repeat split; try apply H0; left || (right; apply H0).
  - by repeat split; try apply H0; left.
  - split; [by apply Hl|]. right. by apply (Hl 15).
  - split_and!; [by apply Hl..|]. intros run updated (? & ? & ? & ?) [= <-]. done.
  - split; [by apply Hl|]. right. by apply (Hl 17).
  - by apply Hl.
  - done.
  - done.
Qed.

Lemma sqlite_refines_memory_witness :
  map is_ok (sql_history (λ _, "") sample_ops (mkWorld new_db 0)).2 = [true; false; true; true; false; true; true; false] ∧
  (sql_history (λ _, "") sample_ops (mkWorld new_db 0)).2 = (mem_history (λ _, "") sample_ops MemoryStore.New).2.
Proof.
  split; [vm_compute; reflexivity|]. apply (sqlite_refines_memory (λ _, "") sample_ops sample_ops_ok).
Defined.

(** The driver fails the third statement, the reading of the stored records. *)
Lemma sqlite_atomic_witness :
  let fault t := if decide (t = 2%nat) then Some (ErrCtx Canceled) else None in
  let w := sql_op (λ _, "") fault alone (OSave now_2024 now_2024 sample_run) (mkWorld new_db 0) in
  w.2 = Err (ErrCtx Canceled) ∧ w_db w.1 = new_db.
Proof.
  intros fault w. assert (w.2 = Err (ErrCtx Canceled)) as Hw by (vm_compute; reflexivity). split; [done|].
  destruct (sqlite_atomic (λ _, "") fault alone (OSave now_2024 now_2024 sample_run) (mkWorld new_db 0) w.1 w.2
    MemoryStore.New I (Forall_inv sample_ops_ok) refines_new) as [[_ H]|[H _]]; [apply surjective_pairing|exact H|].
  rewrite Hw in H. vm_compute in H. discriminate H.
Defined.

Lemma time_roundtrip_witness : scanTime (dbTime now_2024) = now_2024.
Proof. apply (time_roundtrip now_2024); unfold now_2024, unix_epoch, min_int64, max_int64; lia. Defined.

(** A run of version 3 with its records inline. *)
Definition inline_db : DB :=
  mkDB ∅ {[ "a" := toy_write [record_tuple (mkStepRecord "fetch" StatusSucceeded 1 "out" "" "" "" "" "" 0 0 ∅)] ]} ∅.

Lemma migration_moves_witness :
  ∃ d', yields (moveInlineStepRecords no_fault alone) inline_db d' (Ok ()) ∧ select_inline d' = [].
Proof.
  destruct (migration_moves inline_db) as (d' & Hy & _ & _ & _ & Hs); [| |by exists d'].
  - intros id. exists []. intros seq. simpl. by case_decide.
  - intros id data. rewrite elem_of_select_inline. cbn [step_records_json inline_db].
    intros [[<- <-]%lookup_singleton_Some _]. vm_compute. reflexivity.
Defined.

End SqliteSafety.
