(* ===== verification/RunCheckpoint.v ===== *)
(** The approval checkpoint store: [src/runkit/checkpoint.go].

The state of a [MemoryCheckpointStore] is its map of checkpoints; every method
holds the store's mutex while it reads and writes the map, so a method is one
function of it. [clock] is what [time.Now()] returns in the method. *)

From Stdlib Require Import Strings.Byte.
From S2P Require Import Prelude.

Module Checkpoint.

(** * Data *)

Definition CheckpointStatus := string.
Definition CheckpointPending : CheckpointStatus := "pending".
Definition CheckpointLeased : CheckpointStatus := "leased".
Definition CheckpointConsumed : CheckpointStatus := "consumed".
Definition CheckpointRejected : CheckpointStatus := "rejected".
Definition CheckpointFailed : CheckpointStatus := "failed".
Definition CheckpointExpired : CheckpointStatus := "expired".

Record ApprovalAudit := mkAudit {
  au_ApproverID : string;
  au_Approved : bool;
  au_AuditRef : string;
  au_ReasonCode : string;
  au_DecidedAt : Time
}.

Record ApprovalCheckpoint := mkCheckpoint {
  ID : string;
  RunID : string;
  TenantID : string;
  DefinitionHash : string;
  Ciphertext : list byte;
  CkStatus : CheckpointStatus;
  FailureCode : string;
  LeaseOwner : string;
  LeaseUntil : Time;
  ExpiresAt : Time;
  ApprovalOf : option ApprovalAudit;
  CreatedAt : Time;
  UpdatedAt : Time
}.
#[global] Instance eta_ApprovalCheckpoint : Eta ApprovalCheckpoint := λ c,
  mkCheckpoint (ID c) (RunID c) (TenantID c) (DefinitionHash c) (Ciphertext c)
    (CkStatus c) (FailureCode c) (LeaseOwner c) (LeaseUntil c) (ExpiresAt c)
    (ApprovalOf c) (CreatedAt c) (UpdatedAt c).

Record ApprovalLeaseRequest := mkLeaseRequest {
  lr_CheckpointID : string;
  lr_TenantID : string;
  lr_DefinitionHash : string;
  lr_ApproverID : string;
  lr_AuditRef : string;
  lr_ReasonCode : string;
  lr_LeaseOwner : string;
  lr_LeaseDuration : Duration;
  lr_Now : Time
}.

Record CheckpointLeaseCompletion := mkCompletion {
  lc_CheckpointID : string;
  lc_TenantID : string;
  lc_LeaseOwner : string;
  lc_FailureCode : string;
  lc_Now : Time
}.

Record PendingCheckpointFailure := mkPendingFailure {
  pf_CheckpointID : string;
  pf_RunID : string;
  pf_TenantID : string;
  pf_DefinitionHash : string;
  pf_FailureCode : string;
  pf_Now : Time
}.

Inductive Error :=
| ErrCheckpointNotFound
| ErrCheckpointNotClaimable
| ErrCheckpointLeaseOwner
| ErrWithID (e : Error) (id : string)
| ErrInvalid (text : string)
| ErrCtx (e : CtxErr).

Abbreviation Store := (gmap string ApprovalCheckpoint).

(** * Validation *)

Definition validateCheckpoint (c : ApprovalCheckpoint) : option Error :=
  if decide (Blank (ID c) ∨ Blank (RunID c) ∨ Blank (TenantID c) ∨ Blank (DefinitionHash c) ∨
             length (Ciphertext c) = 0 ∨ IsZero (ExpiresAt c))
  then Some (ErrInvalid "checkpoint id, run id, tenant id, definition hash, ciphertext, and expiry are required")
  else None.

Definition validatePendingCheckpointFailure (r : PendingCheckpointFailure) : option Error :=
  if decide (Blank (pf_CheckpointID r) ∨ Blank (pf_RunID r) ∨ Blank (pf_TenantID r) ∨
             Blank (pf_DefinitionHash r) ∨ Blank (pf_FailureCode r))
  then Some (ErrInvalid "checkpoint id, run id, tenant id, definition hash, and failure code are required")
  else None.

Definition validateResolutionRequest (r : ApprovalLeaseRequest) : option Error :=
  if decide (Blank (lr_CheckpointID r) ∨ Blank (lr_TenantID r) ∨ Blank (lr_DefinitionHash r) ∨
             Blank (lr_ApproverID r) ∨ Blank (lr_AuditRef r))
  then Some (ErrInvalid "checkpoint id, tenant id, definition hash, approver id, and audit ref are required")
  else None.

Definition validateLeaseRequest (r : ApprovalLeaseRequest) : option Error :=
  match validateResolutionRequest r with
  | Some e => Some e
  | None =>
      if decide (Blank (lr_LeaseOwner r) ∨ lr_LeaseDuration r ≤ 0)%Z
      then Some (ErrInvalid "lease owner and positive lease duration are required")
      else None
  end.

(** [claimable]. *)
Definition claimable (c : ApprovalCheckpoint) (r : ApprovalLeaseRequest) (now : Time) : Prop :=
  TenantID c = lr_TenantID r ∧ DefinitionHash c = lr_DefinitionHash r ∧
  CkStatus c = CheckpointPending ∧ After (ExpiresAt c) now.
#[global] Instance claimable_dec c r now : Decision (claimable c r now).
Proof. unfold claimable. apply _. Defined.

Definition requestNow (clock value : Time) : Time :=
  if decide (IsZero value) then clock else value.

(** The copy has the value of the original. *)
Definition cloneApprovalCheckpoint (c : ApprovalCheckpoint) : ApprovalCheckpoint :=
  c <| Ciphertext := [] ++ Ciphertext c |>
    <| ApprovalOf := match ApprovalOf c with
                     | Some audit => Some audit
                     | None => None
                     end |>.

(** * Operations *)

Definition New : Store := ∅.

Definition CreateCheckpoint (ctx : Ctx) (clock : Time) (s : Store) (c : ApprovalCheckpoint)
    : Store * option Error :=
  match ctx with
  | Some e => (s, Some (ErrCtx e))
  | None =>
      match validateCheckpoint c with
      | Some e => (s, Some e)
      | None =>
          let c := if decide (IsZero (CreatedAt c)) then c <| CreatedAt := clock |> else c in
          let c := c <| UpdatedAt := clock |> <| CkStatus := CheckpointPending |>
                     <| FailureCode := "" |> in
          match s !! ID c with
          | Some _ => (s, Some (ErrWithID ErrCheckpointNotClaimable (ID c)))
          | None => (<[ID c := cloneApprovalCheckpoint c]> s, None)
          end
      end
  end.

Definition GetCheckpoint (ctx : Ctx) (s : Store) (checkpointID tenantID : string)
    : res Error ApprovalCheckpoint :=
  match ctx with
  | Some e => Err (ErrCtx e)
  | None =>
      match s !! checkpointID with
      | None => Err ErrCheckpointNotFound
      | Some c => if decide (TenantID c ≠ tenantID) then Err ErrCheckpointNotFound
                  else Ok (cloneApprovalCheckpoint c)
      end
  end.

Definition ApproveAndLease (ctx : Ctx) (clock : Time) (s : Store) (r : ApprovalLeaseRequest)
    : Store * res Error ApprovalCheckpoint :=
  match ctx with
  | Some e => (s, Err (ErrCtx e))
  | None =>
      match validateLeaseRequest r with
      | Some e => (s, Err e)
      | None =>
          let now := requestNow clock (lr_Now r) in
          match s !! lr_CheckpointID r with
          | None => (s, Err ErrCheckpointNotClaimable)
          | Some c =>
              if decide (¬ claimable c r now) then (s, Err ErrCheckpointNotClaimable)
              else
                let c := c <| CkStatus := CheckpointLeased |>
                           <| LeaseOwner := lr_LeaseOwner r |>
                           <| LeaseUntil := TimeAdd now (lr_LeaseDuration r) |>
                           <| ApprovalOf := Some (mkAudit (lr_ApproverID r) true
                                (lr_AuditRef r) (lr_ReasonCode r) now) |>
                           <| UpdatedAt := now |> in
                (<[ID c := cloneApprovalCheckpoint c]> s, Ok (cloneApprovalCheckpoint c))
          end
      end
  end.

Definition RejectCheckpoint (ctx : Ctx) (clock : Time) (s : Store) (r : ApprovalLeaseRequest)
    : Store * option Error :=
  match ctx with
  | Some e => (s, Some (ErrCtx e))
  | None =>
      match validateResolutionRequest r with
      | Some e => (s, Some e)
      | None =>
          let now := requestNow clock (lr_Now r) in
          match s !! lr_CheckpointID r with
          | None => (s, Some ErrCheckpointNotClaimable)
          | Some c =>
              if decide (TenantID c ≠ lr_TenantID r ∨ DefinitionHash c ≠ lr_DefinitionHash r ∨
                         CkStatus c ≠ CheckpointPending ∨ ¬ After (ExpiresAt c) now)
              then (s, Some ErrCheckpointNotClaimable)
              else
                let c := c <| CkStatus := CheckpointRejected |> <| Ciphertext := [] |>
                           <| ApprovalOf := Some (mkAudit (lr_ApproverID r) false
                                (lr_AuditRef r) (lr_ReasonCode r) now) |>
                           <| UpdatedAt := now |> in
                (<[ID c := cloneApprovalCheckpoint c]> s, None)
          end
      end
  end.

Definition finishLease (ctx : Ctx) (clock : Time) (s : Store) (r : CheckpointLeaseCompletion)
    (status : CheckpointStatus) : Store * option Error :=
  match ctx with
  | Some e => (s, Some (ErrCtx e))
  | None =>
      if decide (Blank (lc_CheckpointID r) ∨ Blank (lc_TenantID r) ∨ Blank (lc_LeaseOwner r))
      then (s, Some (ErrInvalid "checkpoint id, tenant id, and lease owner are required"))
      else if decide (status = CheckpointFailed ∧ Blank (lc_FailureCode r))
      then (s, Some (ErrInvalid "failure code is required when failing a checkpoint lease"))
      else
        match s !! lc_CheckpointID r with
        | None => (s, Some ErrCheckpointNotFound)
        | Some c =>
            if decide (TenantID c ≠ lc_TenantID r) then (s, Some ErrCheckpointNotFound)
            else if decide (CkStatus c ≠ CheckpointLeased ∨ LeaseOwner c ≠ lc_LeaseOwner r)
            then (s, Some ErrCheckpointLeaseOwner)
            else
              let c := c <| CkStatus := status |> <| Ciphertext := [] |>
                         <| FailureCode := if decide (status = CheckpointFailed)
                                           then lc_FailureCode r else "" |>
                         <| LeaseOwner := "" |> <| LeaseUntil := 0%Z |>
                         <| UpdatedAt := requestNow clock (lc_Now r) |> in
              (<[ID c := cloneApprovalCheckpoint c]> s, None)
        end
  end.

Definition CompleteLease (ctx : Ctx) (clock : Time) (s : Store) (r : CheckpointLeaseCompletion)
    : Store * option Error := finishLease ctx clock s r CheckpointConsumed.

Definition FailLease (ctx : Ctx) (clock : Time) (s : Store) (r : CheckpointLeaseCompletion)
    : Store * option Error := finishLease ctx clock s r CheckpointFailed.

Definition FailPendingCheckpoint (ctx : Ctx) (clock : Time) (s : Store)
    (r : PendingCheckpointFailure) : Store * option Error :=
  match ctx with
  | Some e => (s, Some (ErrCtx e))
  | None =>
      match validatePendingCheckpointFailure r with
      | Some e => (s, Some e)
      | None =>
          match s !! pf_CheckpointID r with
          | None => (s, Some ErrCheckpointNotClaimable)
          | Some c =>
              if decide (RunID c ≠ pf_RunID r ∨ TenantID c ≠ pf_TenantID r ∨
                         DefinitionHash c ≠ pf_DefinitionHash r)
              then (s, Some ErrCheckpointNotClaimable)
              else if decide (CkStatus c = CheckpointFailed ∧ FailureCode c = pf_FailureCode r)
              then (s, None)
              else if decide (CkStatus c ≠ CheckpointPending)
              then (s, Some ErrCheckpointNotClaimable)
              else
                let c := c <| CkStatus := CheckpointFailed |> <| Ciphertext := [] |>
                           <| FailureCode := pf_FailureCode r |> <| LeaseOwner := "" |>
                           <| LeaseUntil := 0%Z |>
                           <| UpdatedAt := requestNow clock (pf_Now r) |> in
                (<[ID c := cloneApprovalCheckpoint c]> s, None)
          end
      end
  end.

(** The checkpoints [ExpireCheckpoints] expires, and what it writes. *)
Definition expirable (now : Time) (c : ApprovalCheckpoint) : Prop :=
  (CkStatus c = CheckpointPending ∨ CkStatus c = CheckpointLeased) ∧ ¬ After (ExpiresAt c) now.
#[global] Instance expirable_dec now c : Decision (expirable now c).
Proof. unfold expirable. apply _. Defined.

Definition expire (now : Time) (c : ApprovalCheckpoint) : ApprovalCheckpoint :=
  c <| CkStatus := CheckpointExpired |> <| Ciphertext := [] |> <| LeaseOwner := "" |>
    <| LeaseUntil := 0%Z |> <| UpdatedAt := now |>.

Definition ExpireCheckpoints (ctx : Ctx) (clock : Time) (s : Store) (now : Time)
    : Store * res Error nat :=
  match ctx with
  | Some e => (s, Err (ErrCtx e))
  | None =>
      let now := requestNow clock now in
      ((λ c, if decide (expirable now c) then cloneApprovalCheckpoint (expire now c) else c) <$> s,
       Ok (size (filter (λ p, expirable now p.2) s)))
  end.

(** * Histories of operations *)

Inductive op :=
| OpCreate (c : ApprovalCheckpoint)
| OpApprove (r : ApprovalLeaseRequest)
| OpReject (r : ApprovalLeaseRequest)
| OpComplete (r : CheckpointLeaseCompletion)
| OpFail (r : CheckpointLeaseCompletion)
| OpFailPending (r : PendingCheckpointFailure)
| OpExpire (now : Time).

(** One operation, and the checkpoint it leases out, if any. *)
Definition exec (ctx : Ctx) (clock : Time) (s : Store) (o : op)
    : Store * option ApprovalCheckpoint :=
  match o with
  | OpCreate c => ((CreateCheckpoint ctx clock s c).1, None)
  | OpApprove r =>
      let p := ApproveAndLease ctx clock s r in
      (p.1, match p.2 with Ok c => Some c | Err _ => None end)
  | OpReject r => ((RejectCheckpoint ctx clock s r).1, None)
  | OpComplete r => ((CompleteLease ctx clock s r).1, None)
  | OpFail r => ((FailLease ctx clock s r).1, None)
  | OpFailPending r => ((FailPendingCheckpoint ctx clock s r).1, None)
  | OpExpire now => ((ExpireCheckpoints ctx clock s now).1, None)
  end.

(** A history, and the leases it handed out. *)
Fixpoint history (s : Store) (ops : list (Ctx * Time * op))
    : Store * list ApprovalCheckpoint :=
  match ops with
  | [] => (s, [])
  | (ctx, clock, o) :: ops =>
      let '(s1, lease) := exec ctx clock s o in
      let '(s2, leases) := history s1 ops in
      (s2, match lease with Some c => c :: leases | None => leases end)
  end.

(** * The abstract life of a checkpoint *)

Definition terminal (status : CheckpointStatus) : Prop :=
  status ∈ [CheckpointConsumed; CheckpointRejected; CheckpointFailed; CheckpointExpired].
#[global] Instance terminal_dec status : Decision (terminal status).
Proof. unfold terminal. apply _. Defined.

Inductive status_step : CheckpointStatus → CheckpointStatus → Prop :=
| ss_lease : status_step CheckpointPending CheckpointLeased
| ss_reject : status_step CheckpointPending CheckpointRejected
| ss_fail_pending : status_step CheckpointPending CheckpointFailed
| ss_expire_pending : status_step CheckpointPending CheckpointExpired
| ss_consume : status_step CheckpointLeased CheckpointConsumed
| ss_fail : status_step CheckpointLeased CheckpointFailed
| ss_expire : status_step CheckpointLeased CheckpointExpired.

Create HintDb ckpt.
#[local] Hint Constructors status_step : ckpt.

Definition same_identity (c c' : ApprovalCheckpoint) : Prop :=
  ID c' = ID c ∧ RunID c' = RunID c ∧ TenantID c' = TenantID c ∧
  DefinitionHash c' = DefinitionHash c ∧ ExpiresAt c' = ExpiresAt c ∧
  CreatedAt c' = CreatedAt c.

Definition approved_by (approved : bool) (c : ApprovalCheckpoint) : Prop :=
  ∃ a, ApprovalOf c = Some a ∧ au_Approved a = approved.

(** One change of a stored checkpoint. *)
Record advances (c c' : ApprovalCheckpoint) : Prop := {
  adv_identity : same_identity c c';
  adv_status : status_step (CkStatus c) (CkStatus c');
  adv_erase : terminal (CkStatus c') → Ciphertext c' = [];
  adv_lease : CkStatus c' = CheckpointLeased →
    Ciphertext c' = Ciphertext c ∧ approved_by true c' ∧ ¬ Blank (LeaseOwner c');
  adv_reject : CkStatus c' = CheckpointRejected → approved_by false c';
  adv_audit : CkStatus c' ∉ [CheckpointLeased; CheckpointRejected] →
    ApprovalOf c' = ApprovalOf c
}.

(** A checkpoint as [CreateCheckpoint] stores it. *)
Definition fresh (id : string) (c : ApprovalCheckpoint) : Prop :=
  ID c = id ∧ CkStatus c = CheckpointPending ∧ Ciphertext c ≠ [].

(** One operation on the whole store: no checkpoint disappears, and each is
unchanged, new, or advances. *)
Definition store_rel (s s' : Store) : Prop :=
  ∀ id, match s !! id, s' !! id with
        | None, None => True
        | None, Some c' => fresh id c'
        | Some c, Some c' => c' = c ∨ advances c c'
        | Some _, None => False
        end.

Definition wf (s : Store) : Prop := map_Forall (λ id c, ID c = id) s.

(** * Lemmas *)

Lemma clone_id c : cloneApprovalCheckpoint c = c.
Proof. by destruct c as [??????????[]??]. Qed.

Lemma store_rel_refl s : store_rel s s.
Proof. intros id. destruct (s !! id); [by left|done]. Qed.

Lemma store_rel_insert (s : Store) id c c' :
  wf s → s !! id = Some c → advances c c' → store_rel s (<[ID c := c']> s).
Proof.
  intros Hwf Hl Ha. rewrite (map_Forall_lookup_1 _ _ _ _ Hwf Hl). intros id'.
  destruct (decide (id = id')) as [<-|Hne].
  - rewrite Hl, lookup_insert_eq. by right.
  - rewrite lookup_insert_ne by done. apply (store_rel_refl s id').
Qed.

(** The side conditions of [advances] for a concrete target status. *)
Ltac advance :=
  split; simpl;
    [by split_and!
    |match goal with Hs : CkStatus _ = _ |- _ => rewrite Hs end; solve [eauto with ckpt]
    |done || (intros Ht%(bool_decide_eq_true_2 _); by vm_compute in Ht)
    |done || by intros _; split_and!; [|eexists|]
    |done || by intros _; eexists
    |done || (intros Hn; exfalso; apply Hn; set_solver)].

Lemma Create_rel ctx clock s c : store_rel s (CreateCheckpoint ctx clock s c).1.
Proof.
  unfold CreateCheckpoint, validateCheckpoint. destruct ctx; [apply store_rel_refl|].
  case_decide as Hv; [apply store_rel_refl|]. cbv zeta.
  set (c1 := if decide (IsZero (CreatedAt c)) then _ else c).
  assert (ID c1 = ID c ∧ Ciphertext c1 = Ciphertext c) as [Hid Hct]
    by (unfold c1; by case_decide).
  simpl. destruct (s !! ID c1) eqn:Hl; simpl; [apply store_rel_refl|]. rewrite clone_id.
  intros id'. destruct (decide (ID c1 = id')) as [<-|Hne].
  - rewrite Hl, lookup_insert_eq. split_and!; [done..|]. simpl. rewrite Hct.
    intros Hnil. rewrite Hnil in Hv. tauto.
  - rewrite lookup_insert_ne by done. apply (store_rel_refl s id').
Qed.

(** A refused approval changes nothing. *)
Lemma ApproveAndLease_refused ctx clock s r s' e : ApproveAndLease ctx clock s r = (s', Err e) → s' = s.
Proof.
  unfold ApproveAndLease. destruct ctx; [by intros [= <- _]|]. destruct (validateLeaseRequest r); [by intros [= <- _]|].
  cbv zeta. destruct (s !! lr_CheckpointID r); [|by intros [= <- _]]. by case_decide; intros [= <- _].
Qed.

(** What a successful lease does. *)
Lemma ApproveAndLease_ok ctx clock s r s' c' :
  ApproveAndLease ctx clock s r = (s', Ok c') →
  ctx = None ∧ validateLeaseRequest r = None ∧
  ∃ c, s !! lr_CheckpointID r = Some c ∧ claimable c r (requestNow clock (lr_Now r)) ∧
    let now := requestNow clock (lr_Now r) in
    c' = c <| CkStatus := CheckpointLeased |> <| LeaseOwner := lr_LeaseOwner r |>
           <| LeaseUntil := TimeAdd now (lr_LeaseDuration r) |>
           <| ApprovalOf := Some (mkAudit (lr_ApproverID r) true (lr_AuditRef r)
                (lr_ReasonCode r) now) |>
           <| UpdatedAt := now |> ∧
    s' = <[ID c := c']> s.
Proof.
  unfold ApproveAndLease. destruct ctx; [done|].
  destruct (validateLeaseRequest r); [done|].
  destruct (s !! lr_CheckpointID r) as [c|]; [|done]. case_decide as Hc; [done|].
  rewrite !clone_id. intros [= <- <-]. split_and!; [done..|].
  exists c. by split_and!.
Qed.

Lemma ApproveAndLease_err ctx clock s r s' e :
  ApproveAndLease ctx clock s r = (s', Err e) → s' = s.
Proof.
  unfold ApproveAndLease. destruct ctx; [by intros [= <-]|].
  destruct (validateLeaseRequest r); [by intros [= <-]|].
  destruct (s !! lr_CheckpointID r) as [c|]; [|by intros [= <-]].
  case_decide; by intros [= <-].
Qed.

Lemma lease_owner_valid r : validateLeaseRequest r = None → ¬ Blank (lr_LeaseOwner r).
Proof.
  unfold validateLeaseRequest. destruct (validateResolutionRequest r); [done|].
  case_decide as Hv; [done|]. intros _ Hb. tauto.
Qed.

Lemma Approve_rel ctx clock s r : wf s → store_rel s (ApproveAndLease ctx clock s r).1.
Proof.
  intros Hwf. destruct (ApproveAndLease ctx clock s r) as [s' [c'|e]] eqn:Ha; simpl.
  - apply ApproveAndLease_ok in Ha as (_ & Hv & c & Hl & (_ & _ & Hs & _) & Hc' & ->).
    apply lease_owner_valid in Hv.
    eapply store_rel_insert; [done..|]. subst c'. advance.
  - apply ApproveAndLease_err in Ha as ->. apply store_rel_refl.
Qed.

Lemma Reject_rel ctx clock s r : wf s → store_rel s (RejectCheckpoint ctx clock s r).1.
Proof.
  intros Hwf. unfold RejectCheckpoint. destruct ctx; [apply store_rel_refl|].
  destruct (validateResolutionRequest r); [apply store_rel_refl|].
  destruct (s !! lr_CheckpointID r) as [c|] eqn:Hl; [|apply store_rel_refl].
  cbv zeta. case_decide as Hg; [apply store_rel_refl|]. rewrite clone_id. simpl.
  assert (CkStatus c = CheckpointPending) as Hs by (apply dec_stable; tauto).
  eapply store_rel_insert; [done..|]. advance.
Qed.

Lemma finishLease_rel ctx clock s r status :
  (status = CheckpointConsumed ∨ status = CheckpointFailed) → wf s →
  store_rel s (finishLease ctx clock s r status).1.
Proof.
  intros Hst Hwf. unfold finishLease. destruct ctx; [apply store_rel_refl|].
  do 2 (case_decide; [apply store_rel_refl|]).
  destruct (s !! lc_CheckpointID r) as [c|] eqn:Hl; [|apply store_rel_refl].
  case_decide; [apply store_rel_refl|]. case_decide as Hg; [apply store_rel_refl|].
  cbv zeta. rewrite clone_id. simpl.
  assert (CkStatus c = CheckpointLeased) as Hs by (apply dec_stable; tauto).
  eapply store_rel_insert; [done..|]. destruct Hst as [->| ->]; advance.
Qed.

Lemma FailPending_rel ctx clock s r : wf s → store_rel s (FailPendingCheckpoint ctx clock s r).1.
Proof.
  intros Hwf. unfold FailPendingCheckpoint. destruct ctx; [apply store_rel_refl|].
  destruct (validatePendingCheckpointFailure r); [apply store_rel_refl|].
  destruct (s !! pf_CheckpointID r) as [c|] eqn:Hl; [|apply store_rel_refl].
  do 2 (case_decide; [apply store_rel_refl|]). case_decide as Hs; [apply store_rel_refl|].
  cbv zeta. rewrite clone_id. simpl. eapply store_rel_insert; [done..|]. advance.
Qed.

Lemma Expire_rel ctx clock s now : store_rel s (ExpireCheckpoints ctx clock s now).1.
Proof.
  unfold ExpireCheckpoints. destruct ctx; [apply store_rel_refl|]. cbv zeta. intros id. simpl.
  rewrite lookup_fmap. destruct (s !! id) as [c|]; [|done]. simpl.
  case_decide as He; [|by left]. rewrite clone_id. right.
  destruct He as [[Hs|Hs] _]; advance.
Qed.

Lemma exec_rel ctx clock s o : wf s → store_rel s (exec ctx clock s o).1.
Proof.
  intros Hwf. destruct o; simpl;
    [apply Create_rel|by apply Approve_rel|by apply Reject_rel|
     by apply finishLease_rel; auto..|by apply FailPending_rel|apply Expire_rel].
Qed.

Lemma store_rel_wf s s' : wf s → store_rel s s' → wf s'.
Proof.
  intros Hwf Hr id c' Hl. specialize (Hr id). rewrite Hl in Hr.
  destruct (s !! id) as [c|] eqn:Hc; [|by destruct Hr].
  rewrite <-(map_Forall_lookup_1 _ _ _ _ Hwf Hc).
  destruct Hr as [->|Ha]; [done|]. apply Ha.
Qed.

(** What holds of every stored checkpoint. *)
Record ckpt_ok (c : ApprovalCheckpoint) : Prop := {
  ok_status : CkStatus c ∈ [CheckpointPending; CheckpointLeased] ∨ terminal (CkStatus c);
  ok_cipher : Ciphertext c = [] ↔ terminal (CkStatus c);
  ok_approved : CkStatus c ∈ [CheckpointLeased; CheckpointConsumed] → approved_by true c;
  ok_rejected : CkStatus c = CheckpointRejected → approved_by false c;
  ok_owner : CkStatus c = CheckpointLeased → ¬ Blank (LeaseOwner c)
}.

(** Statuses differ: closes goals with contradictory status facts. *)
Ltac status_clash :=
  repeat match goal with H : CkStatus _ = _ |- _ => rewrite H in * end;
  try match goal with
      | H : terminal _ |- _ => apply (bool_decide_eq_true_2 _) in H; by vm_compute in H
      end;
  try done; set_solver.

Lemma fresh_ok id c : fresh id c → ckpt_ok c.
Proof.
  intros (_ & Hs & Hc). split; rewrite Hs; try done.
  - left. set_solver.
  - split; [done|]. intros Ht%(bool_decide_eq_true_2 _). by vm_compute in Ht.
  - set_solver.
Qed.

Lemma status_step_target st st' :
  status_step st st' → st' = CheckpointLeased ∨ terminal st'.
Proof. destruct 1; (by left) || (right; unfold terminal; set_solver). Qed.

Lemma leased_not_terminal : ¬ terminal CheckpointLeased.
Proof. intros Ht%(bool_decide_eq_true_2 _). by vm_compute in Ht. Qed.

Lemma advances_ok c c' : ckpt_ok c → advances c c' → ckpt_ok c'.
Proof.
  intros Hok [_ Hst Her Hl Hr Hau]. split; [|..].
  - destruct (status_step_target _ _ Hst) as [-> |]; [left; set_solver|by right].
  - split; [|done]. intros Hnil. destruct (status_step_target _ _ Hst) as [Hs|]; [|done].
    destruct (Hl Hs) as [Heq _]. rewrite Heq in Hnil. apply (ok_cipher _ Hok) in Hnil.
    exfalso. rewrite Hs in Hst. inversion Hst as [Hp| | | | | |]. rewrite <-Hp in Hnil.
    apply (bool_decide_eq_true_2 _) in Hnil. by vm_compute in Hnil.
  - intros [Hs|Hs%list_elem_of_singleton]%elem_of_cons; [by apply Hl|].
    assert (CkStatus c = CheckpointLeased) as Hsc by (rewrite Hs in Hst; by inversion Hst).
    unfold approved_by. rewrite Hau by (rewrite Hs; set_solver).
    apply (ok_approved _ Hok). rewrite Hsc. set_solver.
  - done.
  - intros Hs. by apply Hl.
Qed.

Lemma store_rel_ok s s' :
  map_Forall (λ _, ckpt_ok) s → store_rel s s' → map_Forall (λ _, ckpt_ok) s'.
Proof.
  intros Hok Hr id c' Hl. specialize (Hr id). rewrite Hl in Hr.
  destruct (s !! id) as [c|] eqn:Hc; [|by eapply fresh_ok].
  apply (map_Forall_lookup_1 _ _ _ _ Hok) in Hc.
  destruct Hr as [->|Ha]; [done|by eapply advances_ok].
Qed.

(** Induction over a history, from a store that satisfies [P]. *)
Lemma history_ind (P : Store → Prop) s ops :
  (∀ s s', P s → wf s → store_rel s s' → P s') →
  P s → wf s → P (history s ops).1 ∧ wf (history s ops).1.
Proof.
  intros Hstep. revert s. induction ops as [|[[ctx clock] o] ops IH]; intros s HP Hwf; [done|].
  simpl. pose proof (exec_rel ctx clock s o Hwf) as Hr.
  destruct (exec ctx clock s o) as [s1 lease]. simpl in Hr.
  destruct (IH s1) as [HP2 Hwf2]; [by eapply Hstep|by eapply store_rel_wf|].
  by destruct (history s1 ops).
Qed.

Lemma wf_New : wf New.
Proof. apply map_Forall_empty. Qed.

(** How a checkpoint relates to what it was earlier in a history. *)
Definition later (c c' : ApprovalCheckpoint) : Prop :=
  same_identity c c' ∧ rtc status_step (CkStatus c) (CkStatus c') ∧
  (terminal (CkStatus c) → c' = c).

Lemma status_step_nonterminal st st' : status_step st st' → ¬ terminal st.
Proof. destruct 1; intros Ht%(bool_decide_eq_true_2 _); by vm_compute in Ht. Qed.

Lemma later_advances c c1 c2 : later c c1 → c2 = c1 ∨ advances c1 c2 → later c c2.
Proof.
  intros Hc [->|Ha]; [done|]. destruct Hc as (Hid & Hst & Ht). split_and!.
  - destruct (adv_identity _ _ Ha). unfold same_identity in *. intuition congruence.
  - eapply rtc_r; [done|apply Ha].
  - intros Hterm. rewrite (Ht Hterm) in Ha. destruct Ha as [_ Hs _ _ _ _].
    by destruct (status_step_nonterminal _ _ Hs).
Qed.

(** A lease is handed out for a pending checkpoint, which it makes leased. *)
Lemma exec_lease ctx clock s o s' c :
  wf s → exec ctx clock s o = (s', Some c) →
  ∃ old, s !! ID c = Some old ∧ CkStatus old = CheckpointPending ∧
    s' !! ID c = Some c ∧ CkStatus c = CheckpointLeased.
Proof.
  intros Hwf. destruct o as [|r| | | | |]; simpl; [done| |done..].
  destruct (ApproveAndLease ctx clock s r) as [s1 [c1|]] eqn:Ha; [|done]. intros [= <- <-].
  apply ApproveAndLease_ok in Ha as (_ & _ & old & Hl & (_ & _ & Hs & _) & Hc & ->).
  pose proof (map_Forall_lookup_1 _ _ _ _ Hwf Hl) as Hid.
  exists old. rewrite Hc. simpl. rewrite lookup_insert_eq. by rewrite Hid.
Qed.

(** The leases a checkpoint can still be given. *)
Definition leases_left (s : Store) (id : string) : nat :=
  match s !! id with
  | Some c => if decide (CkStatus c = CheckpointPending) then 1 else 0
  | None => 1
  end.

Lemma leases_left_rel s s' id : store_rel s s' → leases_left s' id ≤ leases_left s id.
Proof.
  intros Hr. specialize (Hr id). unfold leases_left.
  destruct (s !! id) as [c|], (s' !! id) as [c'|]; try done; [|by case_decide; lia].
  destruct Hr as [->|Ha]; [done|]. destruct (status_step_target _ _ (adv_status _ _ Ha)) as [Hs|Ht].
  - rewrite Hs. rewrite (decide_False (P := CheckpointLeased = _)) by done. case_decide; lia.
  - rewrite (decide_False (P := CkStatus c' = _)); [case_decide; lia|].
    intros Hs. rewrite Hs in Ht. apply (bool_decide_eq_true_2 _) in Ht. by vm_compute in Ht.
Qed.

Lemma history_leases s ops id :
  wf s → length (filter (λ c, ID c = id) (history s ops).2) ≤ leases_left s id.
Proof.
  revert s. induction ops as [|[[ctx clock] o] ops IH]; intros s Hwf; simpl; [lia|].
  pose proof (exec_rel ctx clock s o Hwf) as Hr.
  destruct (exec ctx clock s o) as [s1 lease] eqn:He. simpl in Hr.
  pose proof (IH s1 (store_rel_wf _ _ Hwf Hr)) as IH1.
  pose proof (leases_left_rel _ _ id Hr). destruct (history s1 ops) as [s2 leases]. simpl in *.
  destruct lease as [c|]; [|lia]. rewrite filter_cons. case_decide as Hid; [|lia].
  destruct (exec_lease _ _ _ _ _ _ Hwf He) as (old & Hl & Hs & Hl' & Hs').
  rewrite Hid in Hl, Hl'. unfold leases_left in *. rewrite Hl, Hl' in *.
  rewrite Hs, Hs' in *. rewrite decide_True by done. rewrite decide_False in IH1 by done.
  simpl. lia.
Qed.

(** * Properties *)

(** In every store a history of operations builds from an empty one, the
ciphertext of a checkpoint is gone exactly when its status is terminal
(consumed, rejected, failed or expired); a leased or consumed checkpoint carries
an audit that approved it, a rejected one an audit that rejected it, and a
leased one has a lease owner. *)
Theorem checkpoint_invariant ops : map_Forall (λ _, ckpt_ok) (history New ops).1.
Proof.
  apply (history_ind (map_Forall (λ _, ckpt_ok))); [|apply map_Forall_empty|apply wf_New].
  intros s s' Hok _. by apply store_rel_ok.
Qed.

(** A checkpoint, once created, is never deleted and keeps its identity (IDs,
tenant, definition hash, expiry, creation time); its status only moves forward
(pending, leased or closed, closed); and once terminal it never changes again. *)
Theorem checkpoint_lifecycle ops1 ops2 id c :
  (history New ops1).1 !! id = Some c →
  ∃ c', (history (history New ops1).1 ops2).1 !! id = Some c' ∧ later c c'.
Proof.
  intros Hc. set (s := (history New ops1).1) in *.
  assert (wf s) as Hwf by by apply (history_ind (λ _, True)); [|done|apply wf_New].
  apply (history_ind (λ s', ∃ c', s' !! id = Some c' ∧ later c c') s ops2); [| |done].
  - intros s1 s2 (c1 & Hl1 & Hlater) _ Hr. specialize (Hr id). rewrite Hl1 in Hr.
    destruct (s2 !! id) as [c2|]; [|done]. exists c2. split; [done|]. by eapply later_advances.
  - exists c. split; [done|]. by split_and!.
Qed.

(** A checkpoint is leased at most once in its life: no history of
operations, by any number of approvers, retries and sweeps, hands out two
leases for one checkpoint ID, so an approved run is never resumed twice. *)
Theorem leased_at_most_once ops id :
  length (filter (λ c, ID c = id) (history New ops).2) ≤ 1.
Proof. exact (history_leases New ops id wf_New). Qed.

(** ApproveAndLease with a valid request succeeds exactly for a checkpoint
of the same tenant and definition hash that is pending and not expired; it then
returns and stores it leased to the requested owner until now plus the
duration, with the approval recorded and the ciphertext kept; otherwise it
returns ErrCheckpointNotClaimable and changes nothing. *)
Theorem ApproveAndLease_exact clock s r :
  wf s → validateLeaseRequest r = None →
  let now := requestNow clock (lr_Now r) in
  match s !! lr_CheckpointID r with
  | Some c =>
      if decide (TenantID c = lr_TenantID r ∧ DefinitionHash c = lr_DefinitionHash r ∧
                 CkStatus c = CheckpointPending ∧ (now < ExpiresAt c)%Z)
      then ∃ c', ApproveAndLease None clock s r = (<[lr_CheckpointID r := c']> s, Ok c') ∧
             CkStatus c' = CheckpointLeased ∧ LeaseOwner c' = lr_LeaseOwner r ∧
             LeaseUntil c' = (now + lr_LeaseDuration r)%Z ∧
             ApprovalOf c' = Some (mkAudit (lr_ApproverID r) true (lr_AuditRef r)
               (lr_ReasonCode r) now) ∧
             Ciphertext c' = Ciphertext c ∧ same_identity c c'
      else ApproveAndLease None clock s r = (s, Err ErrCheckpointNotClaimable)
  | None => ApproveAndLease None clock s r = (s, Err ErrCheckpointNotClaimable)
  end.
Proof.
  intros Hwf Hv now. unfold ApproveAndLease. rewrite Hv. fold now. cbv zeta.
  destruct (s !! lr_CheckpointID r) as [c|] eqn:Hl; [|done].
  change (_ ∧ _ ∧ _ ∧ (now < _)%Z) with (claimable c r now). case_decide as Hc.
  - rewrite decide_False by tauto. rewrite clone_id. simpl.
    rewrite (map_Forall_lookup_1 _ _ _ _ Hwf Hl). eexists. split; [done|].
    unfold same_identity. split_and!; try done.
    symmetry. apply (map_Forall_lookup_1 _ _ _ _ Hwf Hl).
  - by rewrite decide_True by done.
Qed.

(** Closes the operations that check the tenant, in [tenant_isolation]. *)
Ltac other_tenant :=
  cases;
  match goal with Ho : ∀ _ _ _, _ → _ → <[_ := _]> _ !! _ = _ |- _ => eapply Ho; [done|] end;
  intros Ht; first
    [ congruence
    | match goal with Hg : ¬ (_ ≠ _) |- _ => by apply Hg; congruence end
    | match goal with Hg : ¬ (_ ∨ _) |- _ => by apply Hg; left; congruence end
    | match goal with Hg : ¬ (_ ∨ _) |- _ => by apply Hg; right; left; congruence end ].

(** Tenants are isolated: an operation made for one tenant changes no
checkpoint of another tenant (expiry sweeps, which act for no tenant, aside). *)
Theorem tenant_isolation ctx clock s o id c :
  wf s → s !! id = Some c →
  match o with
  | OpCreate _ => True
  | OpApprove r | OpReject r => lr_TenantID r ≠ TenantID c
  | OpComplete r | OpFail r => lc_TenantID r ≠ TenantID c
  | OpFailPending r => pf_TenantID r ≠ TenantID c
  | OpExpire _ => False
  end →
  (exec ctx clock s o).1 !! id = Some c.
Proof.
  intros Hwf Hl Hne.
  assert (∀ k c0 c', s !! k = Some c0 → TenantID c0 ≠ TenantID c →
    <[ID c0 := c']> s !! id = Some c) as Hother.
  { intros k c0 c' Hk Ht. rewrite lookup_insert_ne; [done|].
    rewrite (map_Forall_lookup_1 _ _ _ _ Hwf Hk). intros ->. congruence. }
  destruct o as [c0|r|r|r|r|r|]; simpl in *; [| | | | | |done].
  - unfold CreateCheckpoint. destruct ctx, (validateCheckpoint c0); try done. cbv zeta.
    set (c1 := _ <| FailureCode := "" |>). destruct (s !! ID c1) eqn:Hn; [done|].
    cbn [fst]. rewrite lookup_insert_ne; [done|]. intros Heq. rewrite Heq in Hn. congruence.
  - destruct (ApproveAndLease ctx clock s r) as [s' [c'|]] eqn:Ha; simpl;
      [|by apply ApproveAndLease_err in Ha as ->].
    apply ApproveAndLease_ok in Ha as (_ & _ & c0 & Hk & (Ht & _) & _ & ->).
    apply (Hother _ _ _ Hk). congruence.
  - unfold RejectCheckpoint. other_tenant.
  - unfold CompleteLease, finishLease. other_tenant.
  - unfold FailLease, finishLease. other_tenant.
  - unfold FailPendingCheckpoint. other_tenant.
Qed.

(** * Witnesses *)

Definition sample_checkpoint : ApprovalCheckpoint :=
  mkCheckpoint "c1" "r1" "t1" "h1" [x01] "" "" "" 0 100 None 0 0.
Definition sample_request : ApprovalLeaseRequest :=
  mkLeaseRequest "c1" "t1" "h1" "alice" "audit" "" "w1" 10 20.
Definition sample_history : list (Ctx * Time * op) :=
  [(None, 5%Z, OpCreate sample_checkpoint); (None, 20%Z, OpApprove sample_request)].
Definition sample_store : Store := (history New (take 1 sample_history)).1.
Definition pending_checkpoint : ApprovalCheckpoint :=
  mkCheckpoint "c1" "r1" "t1" "h1" [x01] CheckpointPending "" "" 0 100 None 5 5.

Lemma sample_store_wf : wf sample_store.
Proof. apply map_Forall_to_list. vm_compute. by repeat constructor. Qed.

Lemma checkpoint_lifecycle_witness :
  ∃ c', (history sample_store sample_history).1 !! "c1" = Some c' ∧
    later pending_checkpoint c'.
Proof.
  apply (checkpoint_lifecycle (take 1 sample_history) sample_history "c1" pending_checkpoint).
  reflexivity.
Defined.

Lemma ApproveAndLease_exact_witness :
  ∃ c', ApproveAndLease None 0 sample_store sample_request =
      (<["c1" := c']> sample_store, Ok c') ∧ LeaseUntil c' = 30%Z.
Proof.
  pose proof (ApproveAndLease_exact 0 sample_store sample_request sample_store_wf eq_refl) as H.
  destruct H as (c' & Heq & _ & _ & Hu & _). by exists c'.
Defined.

Lemma tenant_isolation_witness :
  (exec None 20 sample_store (OpReject (mkLeaseRequest "c1" "t2" "h1" "eve" "audit" "" "w1" 10 20))).1
    !! "c1" = Some pending_checkpoint.
Proof.
  apply (tenant_isolation None 20 sample_store
    (OpReject (mkLeaseRequest "c1" "t2" "h1" "eve" "audit" "" "w1" 10 20)) "c1"
    pending_checkpoint sample_store_wf); done.
Defined.

End Checkpoint.
