(* ===== verification/RunRecords.v ===== *)
(** Run records and their event logs: [src/runkit/store.go] (the in-memory
store) and [src/runkit/goagent_sink.go].

The state of a [MemoryStore] is its two maps and the creation order; each
method holds the store's mutex around its accesses. [now] is what [s.now()]
returns in the method. *)

From S2P Require Import Prelude.

Module RunStore.

(** * Data *)

Definition StatusRunning : string := "running".
Definition StatusSucceeded : string := "succeeded".
Definition StatusFailed : string := "failed".

Record TerminalSummary := mkSummary {
  sum_Status : string;
  sum_ContentRef : string;
  sum_AbortReason : string;
  sum_InputTokens : Z;
  sum_OutputTokens : Z;
  sum_LLMCalls : Z;
  sum_ToolCalls : Z;
  sum_UsedTools : list string
}.
#[global] Instance eta_TerminalSummary : Eta TerminalSummary := λ r,
  mkSummary (sum_Status r) (sum_ContentRef r) (sum_AbortReason r) (sum_InputTokens r)
    (sum_OutputTokens r) (sum_LLMCalls r) (sum_ToolCalls r) (sum_UsedTools r).
Definition zeroSummary : TerminalSummary := mkSummary "" "" "" 0 0 0 0 [].

Record RunRecord := mkRecord {
  RunID : string;
  WorkflowID : string;
  TaskID : string;
  RecStatus : string;
  Summary : TerminalSummary;
  RecMetadata : Metadata;
  CreatedAt : Time;
  UpdatedAt : Time
}.
#[global] Instance eta_RunRecord : Eta RunRecord := λ r,
  mkRecord (RunID r) (WorkflowID r) (TaskID r) (RecStatus r) (Summary r)
    (RecMetadata r) (CreatedAt r) (UpdatedAt r).

Record RunEvent := mkEvent {
  ev_RunID : string;
  ev_Sequence : Z;
  ev_Type : string;
  ev_Stage : string;
  ev_Iteration : Z;
  ev_Message : string;
  ev_Metadata : Metadata;
  ev_RecordedAt : Time
}.
#[global] Instance eta_RunEvent : Eta RunEvent := λ e,
  mkEvent (ev_RunID e) (ev_Sequence e) (ev_Type e) (ev_Stage e) (ev_Iteration e)
    (ev_Message e) (ev_Metadata e) (ev_RecordedAt e).

Inductive Error :=
| ErrRunNotFound (id : string)
| ErrRunIDRequired
| ErrCtx (e : CtxErr).

Record MemoryStore := mkStore {
  st_runs : GoMap RunRecord;
  st_events : GoMap (list RunEvent);
  st_order : list string
}.
#[global] Instance eta_MemoryStore : Eta MemoryStore := λ s,
  mkStore (st_runs s) (st_events s) (st_order s).

(** * Clones *)

Definition cloneMetadata (m : Metadata) : Metadata := map_clone m.
Definition cloneTerminalSummary (s : TerminalSummary) : TerminalSummary :=
  s <| sum_UsedTools := [] ++ sum_UsedTools s |>.
Definition cloneRunRecord (r : RunRecord) : RunRecord :=
  r <| RecMetadata := cloneMetadata (RecMetadata r) |>
    <| Summary := cloneTerminalSummary (Summary r) |>.
Definition cloneRunEvent (e : RunEvent) : RunEvent :=
  e <| ev_Metadata := cloneMetadata (ev_Metadata e) |>.
Definition cloneRunEvents (events : list RunEvent) : list RunEvent :=
  if decide (length events = 0) then [] else cloneRunEvent <$> events.

Lemma cloneRunRecord_id r : cloneRunRecord r = r.
Proof.
  unfold cloneRunRecord, cloneMetadata. rewrite map_clone_id.
  by destruct r as [???? [] ???].
Qed.
Lemma cloneRunEvent_id e : cloneRunEvent e = e.
Proof. unfold cloneRunEvent, cloneMetadata. rewrite map_clone_id. by destruct e. Qed.
Lemma cloneRunEvents_id events : cloneRunEvents events = events.
Proof.
  unfold cloneRunEvents. case_decide as Hl; [by destruct events|].
  rewrite (list_fmap_ext _ id), list_fmap_id; [done|]. intros ? e _. apply cloneRunEvent_id.
Qed.

(** * Operations *)

Definition NewMemoryStore : MemoryStore := mkStore ∅ ∅ [].

Definition Create (ctx : Ctx) (now : Time) (s : MemoryStore) (record : RunRecord)
    : MemoryStore * option Error :=
  match ctx with
  | Some e => (s, Some (ErrCtx e))
  | None =>
      if decide (Blank (RunID record)) then (s, Some ErrRunIDRequired)
      else
        let record := if decide (IsZero (CreatedAt record))
                      then record <| CreatedAt := now |> else record in
        let record := record <| UpdatedAt := now |> in
        let s := match st_runs s !! RunID record with
                 | None => s <| st_order := st_order s ++ [RunID record] |>
                 | Some _ => s
                 end in
        (s <| st_runs := <[RunID record := cloneRunRecord record]> (st_runs s) |>, None)
  end.

Definition Get (ctx : Ctx) (s : MemoryStore) (runID : string) : res Error RunRecord :=
  match ctx with
  | Some e => Err (ErrCtx e)
  | None =>
      match st_runs s !! runID with
      | None => Err (ErrRunNotFound runID)
      | Some record => Ok (cloneRunRecord record)
      end
  end.

Definition AppendEvent (ctx : Ctx) (now : Time) (s : MemoryStore) (event : RunEvent)
    : MemoryStore * option Error :=
  match ctx with
  | Some e => (s, Some (ErrCtx e))
  | None =>
      if decide (Blank (ev_RunID event)) then (s, Some ErrRunIDRequired)
      else
        match st_runs s !! ev_RunID event with
        | None => (s, Some (ErrRunNotFound (ev_RunID event)))
        | Some _ =>
            let events := default [] (st_events s !! ev_RunID event) in
            let event := event <| ev_Sequence := (Z.of_nat (length events) + 1)%Z |> in
            let event := if decide (IsZero (ev_RecordedAt event))
                         then event <| ev_RecordedAt := now |> else event in
            (s <| st_events := <[ev_RunID event := events ++ [cloneRunEvent event]]>
                                 (st_events s) |>, None)
        end
  end.

Definition Events (ctx : Ctx) (s : MemoryStore) (runID : string) : res Error (list RunEvent) :=
  match ctx with
  | Some e => Err (ErrCtx e)
  | None =>
      match st_runs s !! runID with
      | None => Err (ErrRunNotFound runID)
      | Some _ => Ok (cloneRunEvents (default [] (st_events s !! runID)))
      end
  end.

Definition Complete (ctx : Ctx) (now : Time) (s : MemoryStore) (runID : string)
    (summary : TerminalSummary) : MemoryStore * option Error :=
  match ctx with
  | Some e => (s, Some (ErrCtx e))
  | None =>
      match st_runs s !! runID with
      | None => (s, Some (ErrRunNotFound runID))
      | Some record =>
          let record := record <| RecStatus := sum_Status summary |>
                               <| Summary := cloneTerminalSummary summary |>
                               <| UpdatedAt := now |> in
          (s <| st_runs := <[runID := cloneRunRecord record]> (st_runs s) |>, None)
      end
  end.

(** [s.runs[runID]], the zero record when the key is missing. *)
Definition zeroRecord : RunRecord := mkRecord "" "" "" "" zeroSummary ∅ 0 0.
Definition record_at (s : MemoryStore) (runID : string) : RunRecord :=
  default zeroRecord (st_runs s !! runID).

Definition FindByWorkflowID (ctx : Ctx) (s : MemoryStore) (workflowID : string)
    : res Error (list RunRecord) :=
  match ctx with
  | Some e => Err (ErrCtx e)
  | None =>
      Ok (cloneRunRecord <$>
          filter (λ r, WorkflowID r = workflowID) (record_at s <$> st_order s))
  end.

(** * The event sink of an agent *)

(** The fields of [agentcore.Event] the sink reads. *)
Record AgentEvent := mkAgentEvent {
  ae_RunID : string;
  ae_Type : string;
  ae_Stage : string;
  ae_Iteration : Z;
  ae_Message : string;
  ae_Metadata : Metadata
}.

(** [GoagentEventSink.Emit]: the builder is optional; the clock is read once by
[Create] and once by [AppendEvent]. *)
Definition Emit (builder : option (AgentEvent → RunRecord)) (ctx : Ctx) (now0 now1 : Time)
    (store : option MemoryStore) (event : AgentEvent) : option MemoryStore * option Error :=
  match store with
  | None => (None, None)
  | Some s =>
      let runID := ae_RunID event in
      let '(s, err) :=
        match Get ctx s runID with
        | Ok _ => (s, None)
        | Err _ =>
            let record :=
              match builder with
              | None => mkRecord runID "" "" StatusRunning zeroSummary ∅ 0 0
              | Some build =>
                  let record := build event in
                  let record := if decide (RunID record = "")
                                then record <| RunID := runID |> else record in
                  if decide (RecStatus record = "")
                  then record <| RecStatus := StatusRunning |> else record
              end in
            Create ctx now0 s record
        end in
      match err with
      | Some e => (Some s, Some e)
      | None =>
          let '(s, err) := AppendEvent ctx now1 s
            (mkEvent runID 0 (ae_Type event) (ae_Stage event) (ae_Iteration event)
               (ae_Message event) (ae_Metadata event) 0) in
          (Some s, err)
      end
  end.

(** * Histories *)

Inductive op :=
| OpCreate (record : RunRecord)
| OpAppend (event : RunEvent)
| OpComplete (runID : string) (summary : TerminalSummary).

Definition exec (s : MemoryStore) (o : Ctx * Time * op) : MemoryStore :=
  let '(ctx, now, o) := o in
  match o with
  | OpCreate record => (Create ctx now s record).1
  | OpAppend event => (AppendEvent ctx now s event).1
  | OpComplete runID summary => (Complete ctx now s runID summary).1
  end.

Definition history (s : MemoryStore) (ops : list (Ctx * Time * op)) : MemoryStore :=
  foldl exec s ops.

(** The log of a run. *)
Definition log (s : MemoryStore) (id : string) : list RunEvent :=
  default [] (st_events s !! id).

(** The store invariant: the creation order lists every run once, and a log
belongs to a run and numbers its events 1, 2, 3, ... *)
Record store_ok (s : MemoryStore) : Prop := {
  ok_order : NoDup (st_order s);
  ok_runs id : id ∈ st_order s ↔ is_Some (st_runs s !! id);
  ok_ids : map_Forall (λ id r, RunID r = id) (st_runs s);
  ok_log id : st_runs s !! id = None → log s id = [];
  ok_sequence id i e : log s id !! i = Some e →
    ev_Sequence e = (Z.of_nat i + 1)%Z ∧ ev_RunID e = id
}.

(** * Lemmas *)

Lemma Create_cases ctx now s record :
  (Create ctx now s record).1 = s ∨
  ∃ r order, RunID r = RunID record ∧
    (Create ctx now s record).1 = mkStore (<[RunID record := r]> (st_runs s)) (st_events s) order ∧
    order = match st_runs s !! RunID record with
            | None => st_order s ++ [RunID record]
            | Some _ => st_order s
            end.
Proof.
  unfold Create. destruct ctx; [by left|]. case_decide; [by left|]. right. cbv zeta.
  set (record1 := if decide _ then _ else record).
  assert (RunID record1 = RunID record) as Hid by (unfold record1; by case_decide).
  rewrite cloneRunRecord_id, <-Hid. clearbody record1. simpl.
  eexists (record1 <| UpdatedAt := now |>), _. split_and!; [done| |reflexivity].
  by destruct (st_runs s !! RunID record1).
Qed.

Lemma Create_succeeds now s record :
  ¬ Blank (RunID record) →
  ∃ s1, Create None now s record = (s1, None) ∧ is_Some (st_runs s1 !! RunID record) ∧
    st_events s1 = st_events s.
Proof.
  intros Hb. unfold Create. rewrite decide_False by done. cbv zeta.
  set (record1 := if decide _ then _ else record).
  assert (RunID record1 = RunID record) as <- by (unfold record1; by case_decide).
  eexists. split; [reflexivity|]. simpl. rewrite lookup_insert_eq.
  split; [by eexists|]. by destruct (st_runs s !! _).
Qed.

Lemma AppendEvent_cases ctx now s event :
  ((AppendEvent ctx now s event).1 = s ∧ is_Some (AppendEvent ctx now s event).2) ∨
  ∃ e, is_Some (st_runs s !! ev_RunID event) ∧
    e = event <| ev_Sequence := (Z.of_nat (length (log s (ev_RunID event))) + 1)%Z |>
              <| ev_RecordedAt := if decide (IsZero (ev_RecordedAt event)) then now
                                  else ev_RecordedAt event |> ∧
    AppendEvent ctx now s event =
      (mkStore (st_runs s) (<[ev_RunID event := log s (ev_RunID event) ++ [e]]> (st_events s))
         (st_order s), None).
Proof.
  unfold AppendEvent. destruct ctx; [left; by split; [|eexists]|].
  case_decide; [left; by split; [|eexists]|].
  destruct (st_runs s !! ev_RunID event) eqn:Hr; [|left; by split; [|eexists]].
  right. eexists. split_and!; [by eexists|done|]. cbv zeta. simpl.
  rewrite cloneRunEvent_id. fold (log s (ev_RunID event)). by case_decide.
Qed.

Lemma log_append s id id' e :
  log (mkStore (st_runs s) (<[id := log s id ++ [e]]> (st_events s)) (st_order s)) id' =
  log s id' ++ (if decide (id' = id) then [e] else []).
Proof.
  unfold log. simpl. case_decide as Heq; [subst; by rewrite lookup_insert_eq|].
  rewrite lookup_insert_ne by done. by rewrite app_nil_r.
Qed.

Lemma Complete_cases ctx now s id summary :
  (Complete ctx now s id summary).1 = s ∨
  ∃ old r, st_runs s !! id = Some old ∧ RunID r = RunID old ∧
    (Complete ctx now s id summary).1 = mkStore (<[id := r]> (st_runs s)) (st_events s) (st_order s).
Proof.
  unfold Complete. destruct ctx; [by left|].
  destruct (st_runs s !! id) as [old|] eqn:Hl; [right|by left]. cbv zeta.
  rewrite cloneRunRecord_id. eexists old, _. split_and!; [done| |reflexivity]. done.
Qed.

(** Replacing the record of a run, or adding a run at the end of the order. *)
Lemma store_ok_insert s id r :
  store_ok s → RunID r = id →
  store_ok (mkStore (<[id := r]> (st_runs s)) (st_events s)
    (match st_runs s !! id with None => st_order s ++ [id] | Some _ => st_order s end)).
Proof.
  intros Hok Hid.
  assert (∀ id', is_Some (<[id := r]> (st_runs s) !! id') ↔
    id' = id ∨ is_Some (st_runs s !! id')) as Hdom.
  { intros id'. rewrite lookup_insert_is_Some'. intuition congruence. }
  split; simpl.
  - destruct (st_runs s !! id) eqn:Hl; [apply Hok|]. apply NoDup_app.
    split_and!; [apply Hok| |apply NoDup_singleton].
    intros x Hx ->%list_elem_of_singleton. apply (ok_runs _ Hok) in Hx as [? Hx]. congruence.
  - intros id'. rewrite Hdom, <-(ok_runs _ Hok).
    destruct (st_runs s !! id) eqn:Hl.
    + split; [auto|]. intros [->|]; [|done]. apply (ok_runs _ Hok). by eexists.
    + rewrite elem_of_app, list_elem_of_singleton. tauto.
  - apply map_Forall_insert_2; [done|apply Hok].
  - intros id' [Hn _]%lookup_insert_None. by apply (ok_log _ Hok).
  - apply Hok.
Qed.

Lemma exec_ok s o : store_ok s → store_ok (exec s o).
Proof.
  intros Hok. destruct o as [[ctx now] [record|event|id summary]]; simpl.
  - destruct (Create_cases ctx now s record) as [->|(r & order & Hid & -> & ->)]; [done|].
    by apply store_ok_insert.
  - destruct (AppendEvent_cases ctx now s event) as [[-> _]|(e & [rec Hr] & He & ->)]; [done|].
    simpl. split; simpl; [apply Hok|apply Hok|apply Hok|..].
    + intros id Hn. rewrite log_append, (ok_log _ Hok) by done.
      rewrite decide_False; [done|]. congruence.
    + intros id i e0. rewrite log_append. intros [Hl|[Hi Hl]]%lookup_app_Some.
      * by apply (ok_sequence _ Hok).
      * case_decide as Heq; [|done]. apply list_lookup_singleton_Some in Hl as [Hi0 <-].
        subst id e. simpl. split; [lia|done].
  - destruct (Complete_cases ctx now s id summary) as [->|(old & r & Hl & Hid & ->)]; [done|].
    assert (RunID r = id) as Hr by (rewrite Hid; apply (map_Forall_lookup_1 _ _ _ _ (ok_ids _ Hok) Hl)).
    pose proof (store_ok_insert s id r Hok Hr) as Hins. by rewrite Hl in Hins.
Qed.

Lemma history_ok s ops : store_ok s → store_ok (history s ops).
Proof.
  unfold history. revert s. induction ops as [|o ops IH]; intros s Hok; [done|].
  simpl. by apply IH, exec_ok.
Qed.

Lemma NewMemoryStore_ok : store_ok NewMemoryStore.
Proof.
  split; simpl.
  - constructor.
  - intros id. rewrite lookup_empty, is_Some_alt. set_solver.
  - apply map_Forall_empty.
  - done.
  - done.
Qed.

Lemma exec_prefix s o id : log s id `prefix_of` log (exec s o) id.
Proof.
  destruct o as [[ctx now] [record|event|rid summary]]; simpl.
  - by destruct (Create_cases ctx now s record) as [->|(r & order & _ & -> & _)].
  - destruct (AppendEvent_cases ctx now s event) as [[-> _]|(e & _ & _ & ->)]; [done|].
    simpl. rewrite log_append. by eexists.
  - by destruct (Complete_cases ctx now s rid summary) as [->|(old & r & _ & _ & ->)].
Qed.

(** * Properties *)

(** In every store built by creations, appends and completions, each run is
listed once in creation order and stored under its ID, and the log of a run
numbers its own events 1, 2, 3, ... without gap or repetition. *)
Theorem run_log_numbered ops : store_ok (history NewMemoryStore ops).
Proof. apply history_ok, NewMemoryStore_ok. Qed.

(** Event logs are append-only: whatever operations follow, the events a
run has are a prefix of the events it will have; in particular creating the run
again or completing it keeps its log. *)
Theorem run_log_append_only s ops id : log s id `prefix_of` log (history s ops) id.
Proof.
  unfold history. revert s. induction ops as [|o ops IH]; intros s; [done|]. simpl.
  etrans; [apply exec_prefix|apply IH].
Qed.

(** FindByWorkflowID returns exactly the stored runs of the workflow, each
once, in creation order. *)
Theorem FindByWorkflowID_exact ops workflowID :
  let s := history NewMemoryStore ops in
  ∃ ids, ids `sublist_of` st_order s ∧ NoDup ids ∧
    (∀ id, id ∈ ids ↔ ∃ r, st_runs s !! id = Some r ∧ WorkflowID r = workflowID) ∧
    ∃ records, FindByWorkflowID None s workflowID = Ok records ∧ RunID <$> records = ids.
Proof.
  intros s. assert (store_ok s) as Hok by apply history_ok, NewMemoryStore_ok.
  exists (filter (λ id, WorkflowID (record_at s id) = workflowID) (st_order s)).
  assert (∀ id, id ∈ st_order s → ∃ r, st_runs s !! id = Some r ∧ record_at s id = r ∧ RunID r = id)
    as Hrec.
  { intros id [r Hr]%(ok_runs _ Hok). exists r. unfold record_at. rewrite Hr.
    split_and!; [done..|]. apply (map_Forall_lookup_1 _ _ _ _ (ok_ids _ Hok) Hr). }
  split_and!.
  - clear. induction (st_order s) as [|id ids IH]; [done|]. rewrite filter_cons.
    case_decide; by constructor.
  - apply NoDup_filter, Hok.
  - intros id. rewrite list_elem_of_filter. split.
    + intros [Hw Hin]. destruct (Hrec id Hin) as (r & Hl & Heq & _). subst r. eauto.
    + intros (r & Hl & Hw). unfold record_at. rewrite Hl. split; [done|].
      apply (ok_runs _ Hok). by eexists.
  - eexists. split; [done|]. clear Hok. revert Hrec.
    induction (st_order s) as [|id ids IH]; intros Hrec; [done|]. cbn [fmap list_fmap].
    destruct (Hrec id) as (r & _ & Heq & Hid); [left|].
    specialize (IH ltac:(intros id' Hin; apply Hrec; by right)).
    rewrite !filter_cons. case_decide; [|exact IH]. rewrite !fmap_cons, IH, cloneRunRecord_id.
    by rewrite Heq, Hid.
Qed.

(** The event sink loses no event: with a live context and a non-blank run ID
(which the builder keeps), Emit succeeds, the run exists afterwards, and its log
is the old log followed by exactly this event, numbered next. *)
Theorem Emit_appends builder now0 now1 s event :
  ¬ Blank (ae_RunID event) →
  (∀ build, builder = Some build →
     RunID (build event) = "" ∨ RunID (build event) = ae_RunID event) →
  ∃ s' e, Emit builder None now0 now1 (Some s) event = (Some s', None) ∧
    is_Some (st_runs s' !! ae_RunID event) ∧
    log s' (ae_RunID event) = log s (ae_RunID event) ++ [e] ∧
    ev_Sequence e = (Z.of_nat (length (log s (ae_RunID event))) + 1)%Z ∧
    ev_Type e = ae_Type event ∧ ev_Message e = ae_Message event.
Proof.
  intros Hb Hbuild. set (id := ae_RunID event) in *.
  assert (∃ s1 : MemoryStore, is_Some (st_runs s1 !! id) ∧ log s1 id = log s id ∧
    Emit builder None now0 now1 (Some s) event =
    (let '(s', err) := AppendEvent None now1 s1
       (mkEvent id 0 (ae_Type event) (ae_Stage event) (ae_Iteration event)
          (ae_Message event) (ae_Metadata event) 0) in (Some s', err)))
    as (s1 & [rec Hrec] & Hlog & ->).
  { unfold Emit, Get. cbv zeta. fold id. destruct (st_runs s !! id) as [r|] eqn:Hr;
      [exists s; by split_and!|].
    set (record := match builder with None => _ | Some _ => _ end).
    assert (RunID record = id) as Hid.
    { unfold record. destruct builder as [build|]; [|done].
      destruct (Hbuild build eq_refl) as [H0|H0]; repeat case_decide; simpl in *; congruence. }
    clearbody record. rewrite <-Hid in Hb, Hr |- *.
    destruct (Create_succeeds now0 s record Hb) as (s1 & -> & Hin & Hev).
    exists s1. split_and!; [done| |done]. unfold log. by rewrite Hev. }
  set (ev := mkEvent id _ _ _ _ _ _ _).
  destruct (AppendEvent_cases None now1 s1 ev) as [[_ [err Herr]]|(e & _ & He & Heq)].
  { unfold AppendEvent in Herr. simpl in Herr. rewrite decide_False, Hrec in Herr by done. done. }
  rewrite Heq. eexists _, e. split_and!; [done|by eexists| |by subst e; simpl; rewrite Hlog|by subst e..].
  rewrite log_append, Hlog. by rewrite decide_True.
Qed.

Lemma Emit_appends_witness :
  ∃ s' e, Emit None None 1 2 (Some NewMemoryStore) (mkAgentEvent "r" "run_started" "" 0 "hi" ∅) =
      (Some s', None) ∧ log s' "r" = [] ++ [e].
Proof.
  destruct (Emit_appends None 1 2 NewMemoryStore (mkAgentEvent "r" "run_started" "" 0 "hi" ∅))
    as (s' & e & Heq & _ & Hl & _); [by vm_compute|done|]. eauto.
Defined.

End RunStore.
