(* ===== verification/RunSqlite.v ===== *)
(** runkit: the SQLite store of run records and approval checkpoints
([src/runkit/sqlitestore/store.go], [checkpoint.go]).

Each SQL statement is a function on the tables, run by the driver of [Sql]. The driver stores a
time as text, and SQLite compares and orders texts: how is a parameter. *)

From Stdlib Require Import Strings.Byte.
From S2P Require Import Prelude Sql RunCheckpoint RunRecords.
#[local] Open Scope Z_scope.

Module RunSql.
Import Sql.

(** * Tables ([migrate]) *)

(** The driver's text of a time, and the time of a text. *)
Class TimeText := { text_of : Time → string; time_of : string → Time }.

(** [encoding/json] of the fields stored as JSON; [None] when a value has no JSON. *)
Class RunJson := {
  marshal_tools : list string → option string; unmarshal_tools : string → option (list string);
  marshal_metadata : Metadata → option string; unmarshal_metadata : string → option Metadata
}.

Record checkpointRow := mkCkRow {
  ck_checkpoint_id : string; ck_run_id : string; ck_tenant_id : string; ck_definition_hash : string;
  ck_ciphertext : list byte; ck_status : string; ck_failure_code : string; ck_lease_owner : string;
  ck_lease_until : option string; ck_expires_at : string; ck_created_at : string; ck_updated_at : string
}.
#[global] Instance eta_checkpointRow : Eta checkpointRow := λ r,
  mkCkRow (ck_checkpoint_id r) (ck_run_id r) (ck_tenant_id r) (ck_definition_hash r) (ck_ciphertext r)
    (ck_status r) (ck_failure_code r) (ck_lease_owner r) (ck_lease_until r) (ck_expires_at r)
    (ck_created_at r) (ck_updated_at r).

Record decisionRow := mkDecisionRow {
  de_approver_id : string; de_approved : bool; de_audit_ref : string; de_reason_code : string;
  de_decided_at : string
}.

Record runRow := mkRunRow {
  row_RunID : string; row_WorkflowID : string; row_TaskID : string; row_Status : string;
  row_SummaryStatus : string; row_ContentRef : string; row_AbortReason : string;
  row_InputTokens : Z; row_OutputTokens : Z; row_LLMCalls : Z; row_ToolCalls : Z;
  row_UsedToolsJSON : string; row_MetadataJSON : string; row_CreatedAt : string; row_UpdatedAt : string
}.
#[global] Instance eta_runRow : Eta runRow := λ r,
  mkRunRow (row_RunID r) (row_WorkflowID r) (row_TaskID r) (row_Status r) (row_SummaryStatus r)
    (row_ContentRef r) (row_AbortReason r) (row_InputTokens r) (row_OutputTokens r) (row_LLMCalls r)
    (row_ToolCalls r) (row_UsedToolsJSON r) (row_MetadataJSON r) (row_CreatedAt r) (row_UpdatedAt r).

Record eventRow := mkEventRow {
  er_RunID : string; er_Sequence : Z; er_Type : string; er_Stage : string; er_Iteration : Z;
  er_Message : string; er_MetadataJSON : string; er_RecordedAt : string
}.

(** [agent_runs] is listed by row number, which an update of a row keeps. *)
Record DB := mkDB {
  approval_checkpoints : gmap string checkpointRow;
  approval_decisions : gmap string decisionRow;
  agent_runs : list runRow;
  run_events : gmap (string * Z) eventRow
}.
#[global] Instance eta_DB : Eta DB := λ d,
  mkDB (approval_checkpoints d) (approval_decisions d) (agent_runs d) (run_events d).

Definition new_db : DB := mkDB ∅ ∅ [] ∅.

Inductive Error :=
| CkError (e : Checkpoint.Error)
| RunError (e : RunStore.Error)
| ErrNoRows
| ErrConstraint
| ErrJson
| ErrDriver (text : string).

Abbreviation M := (Sql.M DB Error).
#[local] Notation "'do!' x ':=' c 'in' k" := (bind c (λ x, k)) (at level 10, x name, k at level 200).
#[local] Notation "c ';;' k" := (bind c (λ _, k)) (at level 100, right associativity).

Section times.
Context `{T : TimeText}.

(** * Statements on checkpoints *)

(** [INSERT ... ON CONFLICT(checkpoint_id) DO NOTHING]: the rows affected. *)
Definition insert_checkpoint (row : checkpointRow) (d : DB) : DB * nat :=
  match approval_checkpoints d !! ck_checkpoint_id row with
  | Some _ => (d, 0%nat)
  | None => (d <| approval_checkpoints := <[ck_checkpoint_id row := row]> (approval_checkpoints d) |>, 1%nat)
  end.

(** [UPDATE approval_checkpoints SET ... WHERE ...]. *)
Definition update_checkpoints (where_ : checkpointRow → Prop) `{∀ r, Decision (where_ r)}
    (set : checkpointRow → checkpointRow) (d : DB) : DB * nat :=
  (d <| approval_checkpoints :=
          (λ r, if decide (where_ r) then set r else r) <$> approval_checkpoints d |>,
   size (filter (λ kr, where_ kr.2) (approval_checkpoints d))).

(** [INSERT INTO approval_decisions]: false when the primary key is taken. *)
Definition insert_decision (id : string) (row : decisionRow) (d : DB) : DB * bool :=
  match approval_decisions d !! id with
  | Some _ => (d, false)
  | None => (d <| approval_decisions := <[id := row]> (approval_decisions d) |>, true)
  end.

(** [checkpointSelect ... WHERE c.checkpoint_id = ? AND c.tenant_id = ?]. *)
Definition checkpointSelect (id tenant : string) (d : DB) : option (checkpointRow * option decisionRow) :=
  match approval_checkpoints d !! id with
  | Some row => if decide (ck_tenant_id row = tenant) then Some (row, approval_decisions d !! id) else None
  | None => None
  end.

Definition scanCheckpoint (row : checkpointRow * option decisionRow) : Checkpoint.ApprovalCheckpoint :=
  let '(c, d) := row in
  Checkpoint.mkCheckpoint (ck_checkpoint_id c) (ck_run_id c) (ck_tenant_id c) (ck_definition_hash c)
    (ck_ciphertext c) (ck_status c) (ck_failure_code c) (ck_lease_owner c)
    (match ck_lease_until c with Some t => time_of t | None => 0 end) (time_of (ck_expires_at c))
    (match d with
     | Some d => Some (Checkpoint.mkAudit (de_approver_id d) (de_approved d) (de_audit_ref d) (de_reason_code d)
                         (time_of (de_decided_at d)))
     | None => None
     end) (time_of (ck_created_at c)) (time_of (ck_updated_at c)).

(** The conditions of the updates. *)
Definition pending_row (r : Checkpoint.ApprovalLeaseRequest) (now : Time) (row : checkpointRow) : Prop :=
  ck_checkpoint_id row = Checkpoint.lr_CheckpointID r ∧ ck_tenant_id row = Checkpoint.lr_TenantID r ∧
  ck_definition_hash row = Checkpoint.lr_DefinitionHash r ∧ ck_status row = "pending" ∧
  str_lt (text_of now) (ck_expires_at row).
#[global] Instance pending_row_dec r now row : Decision (pending_row r now row).
Proof. unfold pending_row. apply _. Defined.

Definition failing_row (r : Checkpoint.PendingCheckpointFailure) (row : checkpointRow) : Prop :=
  ck_checkpoint_id row = Checkpoint.pf_CheckpointID r ∧ ck_run_id row = Checkpoint.pf_RunID r ∧
  ck_tenant_id row = Checkpoint.pf_TenantID r ∧ ck_definition_hash row = Checkpoint.pf_DefinitionHash r ∧
  (ck_status row = "pending" ∨ (ck_status row = "failed" ∧ ck_failure_code row = Checkpoint.pf_FailureCode r)).
#[global] Instance failing_row_dec r row : Decision (failing_row r row).
Proof. unfold failing_row. apply _. Defined.

Definition leased_row (r : Checkpoint.CheckpointLeaseCompletion) (row : checkpointRow) : Prop :=
  ck_checkpoint_id row = Checkpoint.lc_CheckpointID r ∧ ck_tenant_id row = Checkpoint.lc_TenantID r ∧
  ck_status row = "leased" ∧ ck_lease_owner row = Checkpoint.lc_LeaseOwner r.
#[global] Instance leased_row_dec r row : Decision (leased_row r row).
Proof. unfold leased_row. apply _. Defined.

Definition expired_row (now : Time) (row : checkpointRow) : Prop :=
  (ck_status row = "pending" ∨ ck_status row = "leased") ∧ ¬ str_lt (text_of now) (ck_expires_at row).
#[global] Instance expired_row_dec now row : Decision (expired_row now row).
Proof. unfold expired_row. apply _. Defined.

(** * Statements on runs *)

(** [INSERT INTO agent_runs ... ON CONFLICT(run_id) DO UPDATE]. *)
Fixpoint upsert_row (row : runRow) (rows : list runRow) : list runRow :=
  match rows with
  | [] => [row]
  | r :: rows => if decide (row_RunID r = row_RunID row) then row :: rows else r :: upsert_row row rows
  end.
Definition upsert_run (row : runRow) (d : DB) : DB := d <| agent_runs := upsert_row row (agent_runs d) |>.

(** [SELECT ... FROM agent_runs WHERE run_id = ?]: the first row. *)
Definition select_run (runID : string) (d : DB) : option runRow :=
  list_find (λ r, row_RunID r = runID) (agent_runs d) ≫= λ p, Some p.2.

(** [UPDATE agent_runs SET ... WHERE run_id = ?]. *)
Definition update_run (runID : string) (set : runRow → runRow) (d : DB) : DB * nat :=
  (d <| agent_runs := (λ r, if decide (row_RunID r = runID) then set r else r) <$> agent_runs d |>,
   length (filter (λ r, row_RunID r = runID) (agent_runs d))).

(** [SELECT ... WHERE workflow_id = ? ORDER BY created_at ASC, rowid ASC]. *)
Definition select_workflow (workflowID : string) (d : DB) : list runRow :=
  sort_slice (key_less str_lt row_CreatedAt) (filter (λ r, row_WorkflowID r = workflowID) (agent_runs d)).

(** [SELECT ... FROM run_events WHERE run_id = ? ORDER BY sequence ASC]. *)
Definition select_events (runID : string) (d : DB) : list eventRow :=
  sort_slice (key_less Z.lt er_Sequence) (filter (λ r, er_RunID r = runID) (map_to_list (run_events d)).*2).

(** [SELECT COALESCE(MAX(sequence), 0) + 1 FROM run_events WHERE run_id = ?]. *)
Definition next_sequence (runID : string) (d : DB) : Z :=
  match er_Sequence <$> filter (λ r, er_RunID r = runID) (map_to_list (run_events d)).*2 with
  | [] => 0 + 1
  | n :: l => foldr Z.max n l + 1
  end.

(** [INSERT INTO run_events]: false when the primary key is taken. *)
Definition insert_event (row : eventRow) (d : DB) : DB * bool :=
  match run_events d !! (er_RunID row, er_Sequence row) with
  | Some _ => (d, false)
  | None => (d <| run_events := <[(er_RunID row, er_Sequence row) := row]> (run_events d) |>, true)
  end.

Section driver.
Context (fault : nat → option Error) (others : nat → DB → DB).
#[local] Abbreviation stmt := (Sql.stmt fault others).
#[local] Abbreviation query := (Sql.query fault others).
#[local] Abbreviation exec := (Sql.exec fault others).
#[local] Abbreviation tx := (Sql.tx fault others).

Definition validateCheckpoint (c : Checkpoint.ApprovalCheckpoint) : option Checkpoint.Error :=
  if decide (Blank (Checkpoint.ID c) ∨ Blank (Checkpoint.RunID c) ∨ Blank (Checkpoint.TenantID c) ∨
             Blank (Checkpoint.DefinitionHash c) ∨ length (Checkpoint.Ciphertext c) = 0%nat ∨
             IsZero (Checkpoint.ExpiresAt c))
  then Some (Checkpoint.ErrInvalid
    "checkpoint id, run id, tenant id, definition hash, ciphertext, and expiry are required")
  else None.

Definition validatePendingCheckpointFailure (r : Checkpoint.PendingCheckpointFailure) : option Checkpoint.Error :=
  if decide (Blank (Checkpoint.pf_CheckpointID r) ∨ Blank (Checkpoint.pf_RunID r) ∨
             Blank (Checkpoint.pf_TenantID r) ∨ Blank (Checkpoint.pf_DefinitionHash r) ∨
             Blank (Checkpoint.pf_FailureCode r))
  then Some (Checkpoint.ErrInvalid
    "checkpoint id, run id, tenant id, definition hash, and failure code are required")
  else None.

Definition validateResolutionRequest (r : Checkpoint.ApprovalLeaseRequest) : option Checkpoint.Error :=
  if decide (Blank (Checkpoint.lr_CheckpointID r) ∨ Blank (Checkpoint.lr_TenantID r) ∨
             Blank (Checkpoint.lr_DefinitionHash r) ∨ Blank (Checkpoint.lr_ApproverID r) ∨
             Blank (Checkpoint.lr_AuditRef r))
  then Some (Checkpoint.ErrInvalid
    "checkpoint id, tenant id, definition hash, approver id, and audit ref are required")
  else None.

Definition validateLeaseRequest (r : Checkpoint.ApprovalLeaseRequest) : option Checkpoint.Error :=
  match validateResolutionRequest r with
  | Some e => Some e
  | None =>
      if decide (Blank (Checkpoint.lr_LeaseOwner r) ∨ Checkpoint.lr_LeaseDuration r ≤ 0)
      then Some (Checkpoint.ErrInvalid "lease owner and positive lease duration are required")
      else None
  end.

Definition requestNow (clock value : Time) : Time := if decide (IsZero value) then clock else value.

(** [if err := ...; err != nil { return err }]. *)
Definition valid (e : option Checkpoint.Error) : M () :=
  match e with Some e => raise (CkError e) | None => ret () end.
(** [if affected != 1 { return err }]. *)
Definition one_row (affected : nat) (e : Checkpoint.Error) : M () :=
  if decide (affected ≠ 1%nat) then raise (CkError e) else ret ().

(** * Checkpoints *)

Definition CreateCheckpoint (now : Time) (c : Checkpoint.ApprovalCheckpoint) : M () :=
  valid (validateCheckpoint c) ;;
  let created := if decide (IsZero (Checkpoint.CreatedAt c)) then now else Checkpoint.CreatedAt c in
  do! affected := stmt false (insert_checkpoint
    (mkCkRow (Checkpoint.ID c) (Checkpoint.RunID c) (Checkpoint.TenantID c) (Checkpoint.DefinitionHash c)
       (Checkpoint.Ciphertext c) "pending" "" "" None (text_of (Checkpoint.ExpiresAt c)) (text_of created)
       (text_of now))) in
  one_row affected Checkpoint.ErrCheckpointNotClaimable.

Definition GetCheckpoint (checkpointID tenantID : string) : M Checkpoint.ApprovalCheckpoint :=
  do! row := query false (checkpointSelect checkpointID tenantID) in
  match row with
  | None => raise (CkError Checkpoint.ErrCheckpointNotFound)
  | Some row => ret (scanCheckpoint row)
  end.

(** The decision recorded with a resolution. *)
Definition record_decision (r : Checkpoint.ApprovalLeaseRequest) (approved : bool) (now : Time) : M () :=
  do! inserted := stmt true (insert_decision (Checkpoint.lr_CheckpointID r)
    (mkDecisionRow (Checkpoint.lr_ApproverID r) approved (Checkpoint.lr_AuditRef r) (Checkpoint.lr_ReasonCode r)
       (text_of now))) in
  if inserted : bool then ret () else raise ErrConstraint.

Definition ApproveAndLease (clock : Time) (r : Checkpoint.ApprovalLeaseRequest) : M Checkpoint.ApprovalCheckpoint :=
  valid (validateLeaseRequest r) ;;
  let now := requestNow clock (Checkpoint.lr_Now r) in
  let leaseUntil := TimeAdd now (Checkpoint.lr_LeaseDuration r) in
  tx (do! affected := stmt true (update_checkpoints (pending_row r now) (λ row,
        row <| ck_status := "leased" |> <| ck_lease_owner := Checkpoint.lr_LeaseOwner r |>
            <| ck_lease_until := Some (text_of leaseUntil) |> <| ck_updated_at := text_of now |>)) in
      one_row affected Checkpoint.ErrCheckpointNotClaimable ;;
      record_decision r true now ;;
      do! row := query true (checkpointSelect (Checkpoint.lr_CheckpointID r) (Checkpoint.lr_TenantID r)) in
      match row with
      | None => raise ErrNoRows
      | Some row => ret (scanCheckpoint row)
      end).

Definition RejectCheckpoint (clock : Time) (r : Checkpoint.ApprovalLeaseRequest) : M () :=
  valid (validateResolutionRequest r) ;;
  let now := requestNow clock (Checkpoint.lr_Now r) in
  tx (do! affected := stmt true (update_checkpoints (pending_row r now) (λ row,
        row <| ck_status := "rejected" |> <| ck_ciphertext := [] |> <| ck_updated_at := text_of now |>)) in
      one_row affected Checkpoint.ErrCheckpointNotClaimable ;;
      record_decision r false now).

Definition finishLease (clock : Time) (r : Checkpoint.CheckpointLeaseCompletion)
    (status : Checkpoint.CheckpointStatus) : M () :=
  if decide (Blank (Checkpoint.lc_CheckpointID r) ∨ Blank (Checkpoint.lc_TenantID r) ∨
             Blank (Checkpoint.lc_LeaseOwner r))
  then raise (CkError (Checkpoint.ErrInvalid "checkpoint id, tenant id, and lease owner are required"))
  else if decide (status = Checkpoint.CheckpointFailed ∧ Blank (Checkpoint.lc_FailureCode r))
  then raise (CkError (Checkpoint.ErrInvalid "failure code is required when failing a checkpoint lease"))
  else
    let failureCode := if decide (status = Checkpoint.CheckpointFailed) then Checkpoint.lc_FailureCode r else "" in
    do! affected := stmt false (update_checkpoints (leased_row r) (λ row,
      row <| ck_status := status |> <| ck_ciphertext := [] |> <| ck_failure_code := failureCode |>
          <| ck_lease_owner := "" |> <| ck_lease_until := None |>
          <| ck_updated_at := text_of (requestNow clock (Checkpoint.lc_Now r)) |>)) in
    one_row affected Checkpoint.ErrCheckpointLeaseOwner.

Definition CompleteLease (clock : Time) (r : Checkpoint.CheckpointLeaseCompletion) : M () :=
  finishLease clock r Checkpoint.CheckpointConsumed.
Definition FailLease (clock : Time) (r : Checkpoint.CheckpointLeaseCompletion) : M () :=
  finishLease clock r Checkpoint.CheckpointFailed.

Definition FailPendingCheckpoint (clock : Time) (r : Checkpoint.PendingCheckpointFailure) : M () :=
  valid (validatePendingCheckpointFailure r) ;;
  do! affected := stmt false (update_checkpoints (failing_row r) (λ row,
    row <| ck_status := "failed" |> <| ck_ciphertext := [] |>
        <| ck_failure_code := Checkpoint.pf_FailureCode r |>
        <| ck_lease_owner := "" |> <| ck_lease_until := None |>
        <| ck_updated_at := if decide (ck_status row = "pending")
                            then text_of (requestNow clock (Checkpoint.pf_Now r)) else ck_updated_at row |>)) in
  one_row affected Checkpoint.ErrCheckpointNotClaimable.

(** The clock is read for the new [updated_at] and again for the condition. *)
Definition ExpireCheckpoints (clock0 clock1 now : Time) : M nat :=
  stmt false (update_checkpoints (expired_row (requestNow clock1 now)) (λ row,
    row <| ck_status := "expired" |> <| ck_ciphertext := [] |> <| ck_lease_owner := "" |>
        <| ck_lease_until := None |> <| ck_updated_at := text_of (requestNow clock0 now) |>)).

(** * Runs *)

Section runs.
Context `{J : RunJson}.

Definition marshalJSON {A} (marshal : A → option string) (v : A) : M string :=
  match marshal v with Some data => ret data | None => raise ErrJson end.

(** [zero] is the value before the call. *)
Definition unmarshalJSON {A} (unmarshal : string → option A) (data : string) (zero : A) : M A :=
  if decide (data = "") then ret zero
  else match unmarshal data with Some v => ret v | None => raise ErrJson end.

Definition encodeRun (record : RunStore.RunRecord) : M runRow :=
  let summary := RunStore.Summary record in
  do! usedTools := marshalJSON marshal_tools (RunStore.sum_UsedTools summary) in
  do! metadata := marshalJSON marshal_metadata (RunStore.RecMetadata record) in
  ret (mkRunRow (RunStore.RunID record) (RunStore.WorkflowID record) (RunStore.TaskID record)
    (RunStore.RecStatus record) (RunStore.sum_Status summary) (RunStore.sum_ContentRef summary)
    (RunStore.sum_AbortReason summary) (RunStore.sum_InputTokens summary) (RunStore.sum_OutputTokens summary)
    (RunStore.sum_LLMCalls summary) (RunStore.sum_ToolCalls summary) usedTools metadata
    (text_of (RunStore.CreatedAt record)) (text_of (RunStore.UpdatedAt record))).

Definition decodeRun (row : runRow) : M RunStore.RunRecord :=
  do! usedTools := unmarshalJSON unmarshal_tools (row_UsedToolsJSON row) [] in
  do! metadata := unmarshalJSON unmarshal_metadata (row_MetadataJSON row) ∅ in
  ret (RunStore.mkRecord (row_RunID row) (row_WorkflowID row) (row_TaskID row) (row_Status row)
    (RunStore.mkSummary (row_SummaryStatus row) (row_ContentRef row) (row_AbortReason row)
       (row_InputTokens row) (row_OutputTokens row) (row_LLMCalls row) (row_ToolCalls row) usedTools)
    metadata (time_of (row_CreatedAt row)) (time_of (row_UpdatedAt row))).

Definition decodeEvent (row : eventRow) : M RunStore.RunEvent :=
  do! metadata := unmarshalJSON unmarshal_metadata (er_MetadataJSON row) ∅ in
  ret (RunStore.mkEvent (er_RunID row) (er_Sequence row) (er_Type row) (er_Stage row) (er_Iteration row)
    (er_Message row) metadata (time_of (er_RecordedAt row))).

(** [for rows.Next()]: every row decoded, or the first error. *)
Fixpoint decode_rows {R A} (decode : R → M A) (rows : list R) : M (list A) :=
  match rows with
  | [] => ret []
  | row :: rows =>
      do! v := decode row in
      do! vs := decode_rows decode rows in
      ret (v :: vs)
  end.

Definition check_ctx (ctx : Ctx) : M () :=
  match ctx with Some e => raise (RunError (RunStore.ErrCtx e)) | None => ret () end.

Definition Create (ctx : Ctx) (now : Time) (record : RunStore.RunRecord) : M () :=
  check_ctx ctx ;;
  if decide (Blank (RunStore.RunID record)) then raise (RunError RunStore.ErrRunIDRequired)
  else
    let record := if decide (IsZero (RunStore.CreatedAt record))
                  then record <| RunStore.CreatedAt := now |> else record in
    let record := record <| RunStore.UpdatedAt := now |> in
    do! row := encodeRun record in
    exec false (upsert_run row).

Definition Get (ctx : Ctx) (runID : string) : M RunStore.RunRecord :=
  check_ctx ctx ;;
  do! row := query false (select_run runID) in
  match row with
  | None => raise (RunError (RunStore.ErrRunNotFound runID))
  | Some row => decodeRun row
  end.

(** [SELECT 1 FROM agent_runs WHERE run_id = ?], in a transaction or not. *)
Definition requireRun (in_tx : bool) (runID : string) : M () :=
  do! row := query in_tx (select_run runID) in
  match row with
  | None => raise (RunError (RunStore.ErrRunNotFound runID))
  | Some _ => ret ()
  end.

(** The event with [time.Now()] as its time when it has none. *)
Definition stamp_event (now : Time) (event : RunStore.RunEvent) : RunStore.RunEvent :=
  if decide (IsZero (RunStore.ev_RecordedAt event)) then event <| RunStore.ev_RecordedAt := now |> else event.

Definition AppendEvent (ctx : Ctx) (now : Time) (event : RunStore.RunEvent) : M () :=
  check_ctx ctx ;;
  if decide (Blank (RunStore.ev_RunID event)) then raise (RunError RunStore.ErrRunIDRequired)
  else
    let event := stamp_event now event in
    do! metadata := marshalJSON marshal_metadata (RunStore.ev_Metadata event) in
    tx (requireRun true (RunStore.ev_RunID event) ;;
        do! sequence := query true (next_sequence (RunStore.ev_RunID event)) in
        do! inserted := stmt true (insert_event
          (mkEventRow (RunStore.ev_RunID event) sequence (RunStore.ev_Type event) (RunStore.ev_Stage event)
             (RunStore.ev_Iteration event) (RunStore.ev_Message event) metadata
             (text_of (RunStore.ev_RecordedAt event)))) in
        if inserted : bool then ret () else raise ErrConstraint).

Definition Events (ctx : Ctx) (runID : string) : M (list RunStore.RunEvent) :=
  check_ctx ctx ;;
  requireRun false runID ;;
  do! rows := query false (select_events runID) in
  decode_rows decodeEvent rows.

(** The columns [Complete] sets. *)
Definition completed_row (now : Time) (summary : RunStore.TerminalSummary) (usedTools : string) (row : runRow) : runRow :=
  row <| row_Status := RunStore.sum_Status summary |> <| row_SummaryStatus := RunStore.sum_Status summary |>
      <| row_ContentRef := RunStore.sum_ContentRef summary |>
      <| row_AbortReason := RunStore.sum_AbortReason summary |>
      <| row_InputTokens := RunStore.sum_InputTokens summary |>
      <| row_OutputTokens := RunStore.sum_OutputTokens summary |>
      <| row_LLMCalls := RunStore.sum_LLMCalls summary |> <| row_ToolCalls := RunStore.sum_ToolCalls summary |>
      <| row_UsedToolsJSON := usedTools |> <| row_UpdatedAt := text_of now |>.

Definition Complete (ctx : Ctx) (now : Time) (runID : string) (summary : RunStore.TerminalSummary) : M () :=
  check_ctx ctx ;;
  do! usedTools := marshalJSON marshal_tools (RunStore.sum_UsedTools summary) in
  do! affected := stmt false (update_run runID (completed_row now summary usedTools)) in
  if decide (affected = 0%nat) then raise (RunError (RunStore.ErrRunNotFound runID)) else ret ().

Definition FindByWorkflowID (ctx : Ctx) (workflowID : string) : M (list RunStore.RunRecord) :=
  check_ctx ctx ;;
  do! rows := query false (select_workflow workflowID) in
  decode_rows decodeRun rows.

End runs.

End driver.

End times.

End RunSql.
