(* ===== verification/RunSqliteSafety.v ===== *)
(** The SQLite store of runkit implements the promises of its in-memory stores. *)

From Stdlib Require Import Strings.Byte.
From S2P Require Import Prelude Sql RunCheckpoint RunRecords RunSqlite.
#[local] Open Scope Z_scope.

Module RunSqlSafety.
Import Sql RunSql.
#[local] Abbreviation yields := (Sql.yields (DB := DB) (Error := Error)).
#[local] Abbreviation no_fault := (λ _ : nat, None : option Error).
#[local] Abbreviation alone := (λ (_ : nat) (d : DB), d).

(** The times whose texts can be read back and are ordered as the times are. *)
Class TimeTextLaws `{T : TimeText} := {
  storable : Time → Prop;
  text_read t : storable t → time_of (text_of t) = t;
  text_order t u : storable t → storable u → str_lt (text_of t) (text_of u) ↔ t < u
}.

Section times.
Context `{L : TimeTextLaws}.

(** * Rows *)

Definition to_row (c : Checkpoint.ApprovalCheckpoint) : checkpointRow :=
  mkCkRow (Checkpoint.ID c) (Checkpoint.RunID c) (Checkpoint.TenantID c) (Checkpoint.DefinitionHash c)
    (Checkpoint.Ciphertext c) (Checkpoint.CkStatus c) (Checkpoint.FailureCode c) (Checkpoint.LeaseOwner c)
    (if decide (Checkpoint.LeaseUntil c = 0) then None else Some (text_of (Checkpoint.LeaseUntil c)))
    (text_of (Checkpoint.ExpiresAt c)) (text_of (Checkpoint.CreatedAt c)) (text_of (Checkpoint.UpdatedAt c)).

Definition to_decision (c : Checkpoint.ApprovalCheckpoint) : option decisionRow :=
  (λ a, mkDecisionRow (Checkpoint.au_ApproverID a) (Checkpoint.au_Approved a) (Checkpoint.au_AuditRef a)
          (Checkpoint.au_ReasonCode a) (text_of (Checkpoint.au_DecidedAt a))) <$> Checkpoint.ApprovalOf c.

(** What the in-memory store keeps true of its checkpoints when they are created new. *)
Record kept (c : Checkpoint.ApprovalCheckpoint) : Prop := {
  k_pending : Checkpoint.CkStatus c = Checkpoint.CheckpointPending → Checkpoint.ApprovalOf c = None;
  k_failed : Checkpoint.CkStatus c = Checkpoint.CheckpointFailed →
    Checkpoint.Ciphertext c = [] ∧ Checkpoint.LeaseOwner c = "" ∧ Checkpoint.LeaseUntil c = 0;
  k_until : Checkpoint.LeaseUntil c = 0 ∨ storable (Checkpoint.LeaseUntil c);
  k_expires : storable (Checkpoint.ExpiresAt c);
  k_created : storable (Checkpoint.CreatedAt c);
  k_updated : storable (Checkpoint.UpdatedAt c);
  k_decided a : Checkpoint.ApprovalOf c = Some a → storable (Checkpoint.au_DecidedAt a)
}.

(** The tables hold the checkpoints of the in-memory store. *)
Record refines (d : DB) (s : Checkpoint.Store) : Prop := {
  r_rows : approval_checkpoints d = to_row <$> s;
  r_decisions : approval_decisions d = omap to_decision s;
  r_keys id c : s !! id = Some c → Checkpoint.ID c = id;
  r_kept id c : s !! id = Some c → kept c
}.

Lemma scan_row c : kept c → scanCheckpoint (to_row c, to_decision c) = c.
Proof.
  intros [_ _ Hu He Hc Hup Hd]. destruct c as [id run tenant def ct st fc owner until expires a created updated].
  unfold scanCheckpoint, to_row, to_decision in *. cbn in *. f_equal; [|by apply text_read| |by apply text_read..].
  - destruct (decide (until = 0)) as [->|]; [done|]. destruct Hu; [done|by apply text_read].
  - destruct a as [[approver approved audit reason decided]|]; [|done]. cbn.
    specialize (Hd _ eq_refl). cbn in Hd. by rewrite text_read.
Qed.

Lemma select_row d s id tenant :
  refines d s →
  checkpointSelect id tenant d = match s !! id with
    | Some c => if decide (Checkpoint.TenantID c = tenant) then Some (to_row c, to_decision c) else None
    | None => None
    end.
Proof.
  intros [H1 H2 _ _]. unfold checkpointSelect. rewrite H1, H2, lookup_fmap, lookup_omap.
  by destruct (s !! id).
Qed.

(** * Updates of one row *)

Lemma update_none d s (where_ : checkpointRow → Prop) `{∀ r, Decision (where_ r)} set :
  refines d s → (∀ id c, s !! id = Some c → ¬ where_ (to_row c)) →
  update_checkpoints where_ set d = (d, 0%nat).
Proof.
  intros [H1 _ _ _] Hno. unfold update_checkpoints. f_equal.
  - destruct d as [ck de ru ev]. cbn in *. subst ck. unfold upd. cbn. f_equal.
    apply map_eq. intros id. rewrite !lookup_fmap. destruct (s !! id) as [c|] eqn:E; [|done]. simpl.
    by rewrite decide_False by (by eapply Hno).
  - rewrite H1. apply map_size_empty_iff, map_empty. intros id. apply map_lookup_filter_None.
    rewrite lookup_fmap. destruct (s !! id) as [c|] eqn:E; [|by left]. right. intros r [= <-]. simpl. by eapply Hno.
Qed.

Lemma update_one d s (where_ : checkpointRow → Prop) `{∀ r, Decision (where_ r)} set id c c' :
  refines d s → s !! id = Some c → where_ (to_row c) →
  (∀ id' c', s !! id' = Some c' → where_ (to_row c') → id' = id) → set (to_row c) = to_row c' →
  update_checkpoints where_ set d = (d <| approval_checkpoints := to_row <$> <[id := c']> s |>, 1%nat).
Proof.
  intros [H1 _ _ _] Hc Hw Huniq Hset. unfold update_checkpoints. f_equal.
  - destruct d as [ck de ru ev]. cbn in *. subst ck. unfold upd. cbn. f_equal.
    apply map_eq. intros k. rewrite !lookup_fmap. destruct (decide (k = id)) as [->|Hk].
    + rewrite Hc, lookup_insert_eq. simpl. by rewrite decide_True, Hset.
    + rewrite lookup_insert_ne by done. destruct (s !! k) as [c2|] eqn:E; [|done]. simpl.
      rewrite decide_False; [done|]. intros Hw2. by apply Hk, (Huniq k c2).
  - rewrite H1. assert (filter (λ kr : string * checkpointRow, where_ kr.2) (to_row <$> s) = {[id := to_row c]}) as ->.
    { apply map_eq. intros k. destruct (decide (k = id)) as [->|Hk].
      - rewrite lookup_singleton_eq. apply map_lookup_filter_Some. rewrite lookup_fmap, Hc. done.
      - rewrite lookup_singleton_ne by done. apply map_lookup_filter_None. rewrite lookup_fmap.
        destruct (s !! k) as [c2|] eqn:E; [|by left]. right. intros r [= <-]. simpl. intros Hw2.
        by apply Hk, (Huniq k c2). }
    apply map_size_singleton.
Qed.

(** The tables after one checkpoint changed. *)
Lemma refines_put d d' s id c' :
  refines d s → approval_checkpoints d' = to_row <$> <[id := c']> s →
  approval_decisions d' = omap to_decision (<[id := c']> s) → Checkpoint.ID c' = id → kept c' →
  refines d' (<[id := c']> s).
Proof.
  intros [_ _ H3 H4] Hr Hd Hid Hk. split; [done|done|..]; intros k c; rewrite lookup_insert_Some;
    intros [[<- <-]|[_ E]]; eauto.
Qed.

(** An update on the key of one checkpoint. *)
Lemma update_keyed d s (where_ : checkpointRow → Prop) `{∀ r, Decision (where_ r)} set id :
  refines d s → (∀ r, where_ r → ck_checkpoint_id r = id) →
  (∃ c, s !! id = Some c ∧ where_ (to_row c) ∧ ∀ c', set (to_row c) = to_row c' →
     update_checkpoints where_ set d = (d <| approval_checkpoints := to_row <$> <[id := c']> s |>, 1%nat)) ∨
  ((∀ c, s !! id = Some c → ¬ where_ (to_row c)) ∧ update_checkpoints where_ set d = (d, 0%nat)).
Proof.
  intros Hr Hkey.
  assert (∀ k c, s !! k = Some c → where_ (to_row c) → k = id) as Huniq.
  { intros k c E Hw. apply Hkey in Hw. by rewrite <-(r_keys _ _ Hr _ _ E). }
  destruct (s !! id) as [c|] eqn:E; [destruct (decide (where_ (to_row c))) as [Hw|Hw]|].
  - left. exists c. split; [done|]. split; [done|]. intros c' Hset. by eapply update_one.
  - right. split; [by intros ? [= <-]|]. eapply update_none; [done|]. intros k c2 E2 Hw2.
    rewrite (Huniq _ _ E2 Hw2), E in E2. by injection E2 as <-.
  - right. split; [done|]. eapply update_none; [done|]. intros k c2 E2 Hw2.
    by rewrite (Huniq _ _ E2 Hw2), E in E2.
Qed.

(** * Operations *)

(** What a call returns. *)
Inductive reply := Done | Got (c : Checkpoint.ApprovalCheckpoint) | Count (n : nat).

Inductive request := Rget (id tenant : string) | Rop (o : Checkpoint.op).

Definition done_of (e : option Checkpoint.Error) : res Checkpoint.Error reply :=
  match e with None => Ok Done | Some e => Err e end.
Definition map_res {E A B} (f : A → B) (r : res E A) : res E B :=
  match r with Ok a => Ok (f a) | Err e => Err e end.

(** A call on the in-memory store. *)
Definition mem_call (clock : Time) (s : Checkpoint.Store) (q : request) : Checkpoint.Store * res Checkpoint.Error reply :=
  match q with
  | Rget id tenant => (s, map_res Got (Checkpoint.GetCheckpoint None s id tenant))
  | Rop (Checkpoint.OpCreate c) => let p := Checkpoint.CreateCheckpoint None clock s c in (p.1, done_of p.2)
  | Rop (Checkpoint.OpApprove r) => let p := Checkpoint.ApproveAndLease None clock s r in (p.1, map_res Got p.2)
  | Rop (Checkpoint.OpReject r) => let p := Checkpoint.RejectCheckpoint None clock s r in (p.1, done_of p.2)
  | Rop (Checkpoint.OpComplete r) => let p := Checkpoint.CompleteLease None clock s r in (p.1, done_of p.2)
  | Rop (Checkpoint.OpFail r) => let p := Checkpoint.FailLease None clock s r in (p.1, done_of p.2)
  | Rop (Checkpoint.OpFailPending r) => let p := Checkpoint.FailPendingCheckpoint None clock s r in (p.1, done_of p.2)
  | Rop (Checkpoint.OpExpire now) => let p := Checkpoint.ExpireCheckpoints None clock s now in (p.1, map_res Count p.2)
  end.

(** The same call on the SQLite store, with one reading of the clock. *)
Definition sql_call (fault : nat → option Error) (others : nat → DB → DB) (clock : Time) (q : request) : M reply :=
  match q with
  | Rget id tenant => bind (GetCheckpoint fault others id tenant) (λ c, ret (Got c))
  | Rop (Checkpoint.OpCreate c) => bind (CreateCheckpoint fault others clock c) (λ _, ret Done)
  | Rop (Checkpoint.OpApprove r) => bind (ApproveAndLease fault others clock r) (λ c, ret (Got c))
  | Rop (Checkpoint.OpReject r) => bind (RejectCheckpoint fault others clock r) (λ _, ret Done)
  | Rop (Checkpoint.OpComplete r) => bind (CompleteLease fault others clock r) (λ _, ret Done)
  | Rop (Checkpoint.OpFail r) => bind (FailLease fault others clock r) (λ _, ret Done)
  | Rop (Checkpoint.OpFailPending r) => bind (FailPendingCheckpoint fault others clock r) (λ _, ret Done)
  | Rop (Checkpoint.OpExpire now) => bind (ExpireCheckpoints fault others clock clock now) (λ n, ret (Count n))
  end.

(** The error the SQLite store gives for one of the in-memory store: it names no checkpoint, and
it does not tell a missing checkpoint from one that the caller does not lease. *)
Fixpoint sql_error (finishing : bool) (e : Checkpoint.Error) : Checkpoint.Error :=
  match e with
  | Checkpoint.ErrWithID e _ => sql_error finishing e
  | Checkpoint.ErrCheckpointNotFound => if finishing then Checkpoint.ErrCheckpointLeaseOwner else e
  | _ => e
  end.
Definition finishing (q : request) : bool :=
  match q with Rop (Checkpoint.OpComplete _) | Rop (Checkpoint.OpFail _) => true | _ => false end.
Definition sql_result (q : request) (r : res Checkpoint.Error reply) : res Error reply :=
  match r with Ok a => Ok a | Err e => Err (CkError (sql_error (finishing q) e)) end.

(** The calls the two stores serve alike: their times can be stored, and a created checkpoint has
neither a lease nor a decision yet. *)
Definition call_ok (clock : Time) (q : request) : Prop :=
  match q with
  | Rget _ _ => True
  | Rop (Checkpoint.OpCreate c) => storable clock ∧ storable (Checkpoint.ExpiresAt c) ∧
      (Checkpoint.CreatedAt c = 0 ∨ storable (Checkpoint.CreatedAt c)) ∧ Checkpoint.ApprovalOf c = None ∧
      Checkpoint.LeaseOwner c = "" ∧ Checkpoint.LeaseUntil c = 0
  | Rop (Checkpoint.OpApprove r) =>
      let now := Checkpoint.requestNow clock (Checkpoint.lr_Now r) in
      storable now ∧ storable (TimeAdd now (Checkpoint.lr_LeaseDuration r)) ∧
      TimeAdd now (Checkpoint.lr_LeaseDuration r) ≠ 0
  | Rop (Checkpoint.OpReject r) => storable (Checkpoint.requestNow clock (Checkpoint.lr_Now r))
  | Rop (Checkpoint.OpComplete r) | Rop (Checkpoint.OpFail r) =>
      storable (Checkpoint.requestNow clock (Checkpoint.lc_Now r))
  | Rop (Checkpoint.OpFailPending r) => storable (Checkpoint.requestNow clock (Checkpoint.pf_Now r))
  | Rop (Checkpoint.OpExpire now) => storable (Checkpoint.requestNow clock now)
  end.

(** The SQLite store serves the call as the in-memory store does. *)
Definition serves (clock : Time) (d : DB) (s : Checkpoint.Store) (q : request) : Prop :=
  ∃ d', yields (sql_call no_fault alone clock q) d d' (sql_result q (mem_call clock s q).2) ∧
        refines d' (mem_call clock s q).1.

(** A checkpoint changes, and its decision does not. *)
Lemma refines_same_decision d s id c c' :
  refines d s → s !! id = Some c → Checkpoint.ApprovalOf c' = Checkpoint.ApprovalOf c → Checkpoint.ID c' = id →
  kept c' → refines (d <| approval_checkpoints := to_row <$> <[id := c']> s |>) (<[id := c']> s).
Proof.
  intros Hr Hc Ha Hid Hk. eapply refines_put; [done|by destruct d| |done|done].
  pose proof (r_decisions _ _ Hr) as E. destruct d as [ck de ru ev]. cbn in *. rewrite E. apply map_eq. intros k. rewrite !lookup_omap.
  destruct (decide (k = id)) as [->|]; [|by rewrite lookup_insert_ne].
  rewrite Hc, lookup_insert_eq. cbn. unfold to_decision. by rewrite Ha.
Qed.

(** A pending checkpoint is decided. *)
Lemma refines_decide d s id c c' row :
  refines d s → s !! id = Some c → Checkpoint.CkStatus c = Checkpoint.CheckpointPending →
  to_decision c' = Some row → Checkpoint.ID c' = id → kept c' →
  let d1 := d <| approval_checkpoints := to_row <$> <[id := c']> s |> in
  ∃ d2, insert_decision id row d1 = (d2, true) ∧ refines d2 (<[id := c']> s).
Proof.
  intros Hr Hc Hp Hrow Hid Hk d1. unfold insert_decision.
  assert (approval_decisions d1 = approval_decisions d) as Hd1 by (by destruct d).
  assert (approval_decisions d !! id = None) as Hnone.
  { rewrite (r_decisions _ _ Hr), lookup_omap, Hc. cbn. unfold to_decision.
    by rewrite (k_pending _ (r_kept _ _ Hr _ _ Hc) Hp). }
  rewrite Hd1, Hnone. eexists. split; [reflexivity|]. eapply refines_put; [done|by destruct d| |done|done].
  subst d1. destruct d as [ck de ru ev]. cbn. pose proof (r_decisions _ _ Hr) as E. cbn in E. rewrite E.
  apply map_eq. intros k. rewrite !lookup_omap. destruct (decide (k = id)) as [->|].
  - rewrite !lookup_insert_eq. cbn. by rewrite Hrow.
  - by rewrite !lookup_insert_ne, lookup_omap.
Qed.

Lemma pending_row_claimable d s c (r : Checkpoint.ApprovalLeaseRequest) now :
  refines d s → s !! Checkpoint.lr_CheckpointID r = Some c → storable now →
  pending_row r now (to_row c) ↔ Checkpoint.claimable c r now.
Proof.
  intros Hr Hc Hn. unfold pending_row, Checkpoint.claimable, After. cbn.
  rewrite (r_keys _ _ Hr _ _ Hc), text_order; [|done|apply (r_kept _ _ Hr _ _ Hc)]. tauto.
Qed.

Lemma yields_then {A B} (c : M A) (f : A → B) d d' r :
  yields c d d' r → yields (bind c (λ a, ret (f a)) : M B) d d' (map_res f r).
Proof.
  intros H. destruct r as [a|e]; [eapply yields_bind; [done|apply yields_ret]|by apply yields_bind_err].
Qed.
Lemma yields_reply {A} (c : M A) f d d' r r' :
  yields c d d' r → r' = map_res f r → yields (bind c (λ a, ret (f a)) : M reply) d d' r'.
Proof. intros H ->. by apply yields_then. Qed.

(** A check that passes, or does not. *)
Lemma yields_valid {A} (e : option Checkpoint.Error) (k : () → M A) d d' r :
  yields (k ()) d d' r →
  yields (bind (valid e) k) d (if e then d else d') (match e with Some e => Err (CkError e) | None => r end).
Proof.
  intros H. destruct e; [apply yields_bind_err, yields_raise|]. eapply yields_bind; [apply yields_ret|done].
Qed.

(** A statement that must change one row. *)
Lemma yields_one_row {A} in_tx (f : DB → DB * nat) e (k : () → M A) d d' r :
  match f d with
  | (d1, 1%nat) => yields (k ()) d1 d' r
  | (d1, _) => d' = d1 ∧ r = Err (CkError e)
  end → yields (bind (stmt no_fault alone in_tx f) (λ n, bind (one_row n e) k)) d d' r.
Proof.
  destruct (f d) as [d1 n] eqn:Ef. intros H. eapply yields_bind; [by eapply yields_stmt_eq|].
  unfold one_row. destruct n as [|[|n]].
  - destruct H as [-> ->]. rewrite decide_True by lia. apply yields_bind_err, yields_raise.
  - rewrite decide_False by lia. eapply yields_bind; [apply yields_ret|done].
  - destruct H as [-> ->]. rewrite decide_True by lia. apply yields_bind_err, yields_raise.
Qed.
Lemma yields_last_row in_tx (f : DB → DB * nat) e d d' r :
  match f d with
  | (d1, 1%nat) => d' = d1 ∧ r = Ok ()
  | (d1, _) => d' = d1 ∧ r = Err (CkError e)
  end → yields (bind (stmt no_fault alone in_tx f) (λ n, one_row n e)) d d' r.
Proof.
  destruct (f d) as [d1 n] eqn:Ef. intros H. eapply yields_bind; [by eapply yields_stmt_eq|].
  unfold one_row. destruct n as [|[|n]]; destruct H as [-> ->];
    [rewrite decide_True by lia; apply yields_raise|rewrite decide_False by lia; apply yields_ret|
     rewrite decide_True by lia; apply yields_raise].
Qed.

Lemma get_serves clock d s id tenant : refines d s → serves clock d s (Rget id tenant).
Proof.
  intros Hr. exists d. cbn [sql_call mem_call fst snd]. split; [|done]. unfold Checkpoint.GetCheckpoint.
  eapply yields_reply; [eapply yields_bind; [apply yields_query|]|]; rewrite ?(select_row d s id tenant Hr).
  - instantiate (1 := match s !! id with
      | Some c => if decide (Checkpoint.TenantID c = tenant) then Ok c else Err (CkError Checkpoint.ErrCheckpointNotFound)
      | None => Err (CkError Checkpoint.ErrCheckpointNotFound) end).
    destruct (s !! id) as [c|] eqn:E; [|apply yields_raise]. case_decide; [|apply yields_raise].
    rewrite scan_row by (by eapply r_kept). apply yields_ret.
  - destruct (s !! id) as [c|] eqn:E; [|done]. rewrite Checkpoint.clone_id.
    destruct (decide (Checkpoint.TenantID c = tenant)); [rewrite decide_False by tauto|rewrite decide_True by done]; done.
Qed.

(** The checks are those of the in-memory store. *)
Lemma validateCheckpoint_same c : validateCheckpoint c = Checkpoint.validateCheckpoint c.
Proof. reflexivity. Qed.
Lemma validateLeaseRequest_same r : validateLeaseRequest r = Checkpoint.validateLeaseRequest r.
Proof. reflexivity. Qed.
Lemma validateResolutionRequest_same r : validateResolutionRequest r = Checkpoint.validateResolutionRequest r.
Proof. reflexivity. Qed.
Lemma validatePendingCheckpointFailure_same r :
  validatePendingCheckpointFailure r = Checkpoint.validatePendingCheckpointFailure r.
Proof. reflexivity. Qed.

(** A call that fails a check. *)
Lemma serves_invalid {A} clock d s q e (k : () → M A) f :
  refines d s → sql_call no_fault alone clock q = bind (bind (valid (Some e)) k) (λ a, ret (f a)) →
  mem_call clock s q = (s, Err e) → sql_error (finishing q) e = e → serves clock d s q.
Proof.
  intros Hr Hsql Hmem He. exists d. rewrite Hsql, Hmem. split; [|done]. cbn. rewrite He.
  do 2 apply yields_bind_err. apply yields_raise.
Qed.

Ltac plain_error Hv :=
  unfold Checkpoint.validateLeaseRequest, Checkpoint.validateCheckpoint, Checkpoint.validateResolutionRequest,
    Checkpoint.validatePendingCheckpointFailure in Hv;
  repeat case_decide; by simplify_eq.

Lemma create_serves clock d s c :
  refines d s → call_ok clock (Rop (Checkpoint.OpCreate c)) → serves clock d s (Rop (Checkpoint.OpCreate c)).
Proof.
  intros Hr (Hclock & Hexp & Hcreated & Ha & Ho & Hu).
  destruct (Checkpoint.validateCheckpoint c) as [e|] eqn:Hv.
  { eapply serves_invalid; [done|..].
    - cbn [sql_call]. unfold CreateCheckpoint. rewrite validateCheckpoint_same, Hv. reflexivity.
    - cbn [mem_call]. unfold Checkpoint.CreateCheckpoint. by rewrite Hv.
    - plain_error Hv. }
  destruct c as [id run tenant def ct st fc owner until expires a created updated]. cbn in *. subst.
  set (created' := if decide (IsZero created) then clock else created).
  assert (storable created') as Hc'.
  { subst created'. destruct (decide (IsZero created)) as [Hz|Hz]; [done|]. by destruct Hcreated. }
  set (c' := Checkpoint.mkCheckpoint id run tenant def ct "pending" "" "" 0 expires None created' clock).
  set (q := Rop _).
  assert (mem_call clock s q = match s !! id with
    | Some _ => (s, Err (Checkpoint.ErrWithID Checkpoint.ErrCheckpointNotClaimable id))
    | None => (<[id := c']> s, Ok Done) end) as Hmem.
  { subst q. cbn [mem_call]. unfold Checkpoint.CreateCheckpoint. rewrite Hv. subst c' created'.
    cbn [Checkpoint.CreatedAt]. destruct (decide (IsZero created)); cbn; by destruct (s !! id). }
  assert (sql_call no_fault alone clock q = bind (bind (stmt no_fault alone false (insert_checkpoint (to_row c')))
    (λ n, one_row n Checkpoint.ErrCheckpointNotClaimable)) (λ _, ret Done)) as Hsql.
  { subst q. cbn [sql_call]. unfold CreateCheckpoint. rewrite validateCheckpoint_same, Hv. reflexivity. }
  unfold serves. rewrite Hmem, Hsql. destruct (s !! id) as [c0|] eqn:E.
  - exists d. split; [|done]. eapply yields_reply; [apply yields_last_row|].
    + unfold insert_checkpoint. cbn. rewrite (r_rows _ _ Hr), lookup_fmap, E. cbn. by split.
    + done.
  - eexists. split; [eapply yields_reply; [apply yields_last_row|]|].
    + unfold insert_checkpoint. cbn. rewrite (r_rows _ _ Hr), lookup_fmap, E. cbn. by split.
    + done.
    + eapply refines_put; [done| | |done|].
      * rewrite fmap_insert. by destruct d.
      * pose proof (r_decisions _ _ Hr) as Ed. destruct d as [ck de ru ev]. cbn in *. rewrite Ed. apply map_eq.
        intros k. rewrite !lookup_omap. destruct (decide (k = id)) as [->|]; [|by rewrite lookup_insert_ne].
        by rewrite E, lookup_insert_eq.
      * split; cbn; auto; done.
Qed.

Lemma pending_row_key (r : Checkpoint.ApprovalLeaseRequest) now row :
  pending_row r now row → ck_checkpoint_id row = Checkpoint.lr_CheckpointID r.
Proof. by intros [? _]. Qed.

(** The decision on a checkpoint that was updated. *)
Lemma yields_record_decision d d2 (r : Checkpoint.ApprovalLeaseRequest) approved now :
  insert_decision (Checkpoint.lr_CheckpointID r)
    (mkDecisionRow (Checkpoint.lr_ApproverID r) approved (Checkpoint.lr_AuditRef r) (Checkpoint.lr_ReasonCode r)
       (text_of now)) d = (d2, true) →
  yields (record_decision no_fault alone r approved now) d d2 (Ok ()).
Proof. intros E. eapply yields_bind; [by eapply yields_stmt_eq|]. apply yields_ret. Qed.

Definition decision_of (r : Checkpoint.ApprovalLeaseRequest) (approved : bool) (now : Time) : decisionRow :=
  mkDecisionRow (Checkpoint.lr_ApproverID r) approved (Checkpoint.lr_AuditRef r) (Checkpoint.lr_ReasonCode r) (text_of now).

(** A call that decides a pending checkpoint, which becomes [f] of it. *)
Lemma resolve_serves {A} clock d s q (r : Checkpoint.ApprovalLeaseRequest) approved now set_ f (rest : M A) g :
  let id := Checkpoint.lr_CheckpointID r in
  refines d s → storable now →
  sql_call no_fault alone clock q = bind (bind (valid None) (λ _, tx no_fault alone
    (bind (stmt no_fault alone true (update_checkpoints (pending_row r now) set_)) (λ n,
     bind (one_row n Checkpoint.ErrCheckpointNotClaimable) (λ _, rest))))) (λ a, ret (g a)) →
  ((∀ c, s !! id = Some c → ¬ Checkpoint.claimable c r now) →
   mem_call clock s q = (s, Err Checkpoint.ErrCheckpointNotClaimable)) →
  (∀ c, s !! id = Some c → Checkpoint.claimable c r now → kept c → Checkpoint.ID c = id →
   set_ (to_row c) = to_row (f c) ∧ kept (f c) ∧ Checkpoint.ID (f c) = id ∧
   to_decision (f c) = Some (decision_of r approved now) ∧
   ∃ a, mem_call clock s q = (<[id := f c]> s, Ok (g a)) ∧
     ∀ d1 d2, insert_decision id (decision_of r approved now) d1 = (d2, true) → refines d2 (<[id := f c]> s) →
       yields rest d1 d2 (Ok a)) →
  serves clock d s q.
Proof.
  intros id Hr Hnow Hsql Hno Hyes. unfold serves. rewrite Hsql.
  destruct (update_keyed d s (pending_row r now) set_ _ Hr (pending_row_key r now)) as [(c & Hc & Hw & Hup)|[Hn Hup]].
  - apply (pending_row_claimable _ _ _ _ _ Hr Hc Hnow) in Hw as Hcl.
    destruct (Hyes c Hc Hcl (r_kept _ _ Hr _ _ Hc) (r_keys _ _ Hr _ _ Hc)) as (Hset & Hk & Hid & Hd & a & -> & Hrest).
    destruct Hcl as (_ & _ & Hp & _).
    destruct (refines_decide d s _ c (f c) _ Hr Hc Hp Hd Hid Hk) as (d2 & Hins & Hr2).
    exists d2. split; [|done]. eapply yields_reply; [eapply yields_bind; [apply yields_ret|];
      apply (yields_tx _ _ d2 (Ok a)), yields_one_row; rewrite (Hup _ Hset); by apply Hrest|done].
  - rewrite Hno. 2: { intros c Hc. rewrite <-(pending_row_claimable _ _ _ _ _ Hr Hc Hnow). by apply Hn. }
    exists d. split; [|done]. cbn. eapply yields_reply; [eapply yields_bind; [apply yields_ret|];
      eapply (yields_tx _ _ _ (Err _)), yields_one_row; by rewrite Hup|]. done.
Qed.

(** The checkpoint as [ApproveAndLease] and as [RejectCheckpoint] leave it. *)
Definition leased_by (r : Checkpoint.ApprovalLeaseRequest) (now : Time) (c : Checkpoint.ApprovalCheckpoint) :=
  c <| Checkpoint.CkStatus := Checkpoint.CheckpointLeased |>
    <| Checkpoint.LeaseOwner := Checkpoint.lr_LeaseOwner r |>
    <| Checkpoint.LeaseUntil := TimeAdd now (Checkpoint.lr_LeaseDuration r) |>
    <| Checkpoint.ApprovalOf := Some (Checkpoint.mkAudit (Checkpoint.lr_ApproverID r) true
         (Checkpoint.lr_AuditRef r) (Checkpoint.lr_ReasonCode r) now) |>
    <| Checkpoint.UpdatedAt := now |>.
Definition rejected_by (r : Checkpoint.ApprovalLeaseRequest) (now : Time) (c : Checkpoint.ApprovalCheckpoint) :=
  c <| Checkpoint.CkStatus := Checkpoint.CheckpointRejected |> <| Checkpoint.Ciphertext := [] |>
    <| Checkpoint.ApprovalOf := Some (Checkpoint.mkAudit (Checkpoint.lr_ApproverID r) false
         (Checkpoint.lr_AuditRef r) (Checkpoint.lr_ReasonCode r) now) |>
    <| Checkpoint.UpdatedAt := now |>.

Lemma approve_serves clock d s r :
  refines d s → call_ok clock (Rop (Checkpoint.OpApprove r)) → serves clock d s (Rop (Checkpoint.OpApprove r)).
Proof.
  intros Hr (Hnow & Huntil & Hnz).
  destruct (Checkpoint.validateLeaseRequest r) as [e|] eqn:Hv.
  { eapply serves_invalid; [done|..].
    - cbn [sql_call]. unfold ApproveAndLease. rewrite validateLeaseRequest_same, Hv. reflexivity.
    - cbn [mem_call]. unfold Checkpoint.ApproveAndLease. by rewrite Hv.
    - plain_error Hv. }
  eapply (resolve_serves clock d s _ r true _ _ (leased_by r (Checkpoint.requestNow clock (Checkpoint.lr_Now r))) _ Got);
    [done|exact Hnow|..].
  - cbn [sql_call]. unfold ApproveAndLease. rewrite validateLeaseRequest_same, Hv. reflexivity.
  - intros Hno. cbn [mem_call]. unfold Checkpoint.ApproveAndLease. rewrite Hv.
    destruct (s !! _) as [c|] eqn:Hc; [|done]. by rewrite decide_True by (by apply Hno).
  - intros c Hc Hcl Hk Hid. split_and!; [..|eexists (leased_by _ _ c); split].
    + destruct c. unfold to_row. cbn. rewrite decide_False by done. reflexivity.
    + destruct Hk, c. split; cbn in *; auto; try done; by intros ? [= <-].
    + by destruct c.
    + by destruct c.
    + cbn [mem_call]. unfold Checkpoint.ApproveAndLease. rewrite Hv, Hc, decide_False by tauto.
      rewrite !Checkpoint.clone_id, <-Hid. by destruct c.
    + intros d1 d2 Hins Hr2. eapply yields_bind; [by apply yields_record_decision|].
      eapply yields_bind; [apply yields_query|].
      rewrite (select_row _ _ _ _ Hr2), lookup_insert_eq, decide_True by (by destruct Hcl, c).
      rewrite scan_row by (eapply r_kept; [exact Hr2|apply lookup_insert_eq]). apply yields_ret.
Qed.

Lemma reject_serves clock d s r :
  refines d s → call_ok clock (Rop (Checkpoint.OpReject r)) → serves clock d s (Rop (Checkpoint.OpReject r)).
Proof.
  intros Hr Hnow. cbn in Hnow.
  destruct (Checkpoint.validateResolutionRequest r) as [e|] eqn:Hv.
  { eapply serves_invalid; [done|..].
    - cbn [sql_call]. unfold RejectCheckpoint. rewrite validateResolutionRequest_same, Hv. reflexivity.
    - cbn [mem_call]. unfold Checkpoint.RejectCheckpoint. by rewrite Hv.
    - plain_error Hv. }
  eapply (resolve_serves clock d s _ r false _ _ (rejected_by r (Checkpoint.requestNow clock (Checkpoint.lr_Now r))) _ (λ _, Done));
    [done|exact Hnow|..].
  - cbn [sql_call]. unfold RejectCheckpoint. rewrite validateResolutionRequest_same, Hv. reflexivity.
  - intros Hno. cbn [mem_call]. unfold Checkpoint.RejectCheckpoint. rewrite Hv.
    destruct (s !! _) as [c|] eqn:Hc; [|done]. rewrite decide_True; [done|].
    specialize (Hno c eq_refl). unfold Checkpoint.claimable in Hno.
    destruct (decide (Checkpoint.CkStatus c = Checkpoint.CheckpointPending)),
      (decide (Checkpoint.TenantID c = Checkpoint.lr_TenantID r)),
      (decide (Checkpoint.DefinitionHash c = Checkpoint.lr_DefinitionHash r)); tauto.
  - intros c Hc Hcl Hk Hid. split_and!; [..|exists (); split].
    + by destruct c.
    + destruct Hk, c. split; cbn in *; auto; try done; by intros ? [= <-].
    + by destruct c.
    + by destruct c.
    + cbn [mem_call]. unfold Checkpoint.RejectCheckpoint. rewrite Hv, Hc.
      rewrite decide_False by (unfold Checkpoint.claimable in Hcl; tauto).
      rewrite !Checkpoint.clone_id, <-Hid. by destruct c.
    + intros d1 d2 Hins Hr2. by apply yields_record_decision.
Qed.

(** A call that changes one checkpoint and no decision. *)
Lemma update_serves clock d s q id (where_ : checkpointRow → Prop) `{∀ r, Decision (where_ r)} set_ f e :
  refines d s → (∀ row, where_ row → ck_checkpoint_id row = id) →
  sql_call no_fault alone clock q =
    bind (bind (stmt no_fault alone false (update_checkpoints where_ set_)) (λ n, one_row n e)) (λ _, ret Done) →
  ((∀ c, s !! id = Some c → ¬ where_ (to_row c)) →
   ∃ e', mem_call clock s q = (s, Err e') ∧ sql_error (finishing q) e' = e) →
  (∀ c, s !! id = Some c → where_ (to_row c) → kept c → Checkpoint.ID c = id →
   set_ (to_row c) = to_row (f c) ∧ kept (f c) ∧ Checkpoint.ID (f c) = id ∧
   Checkpoint.ApprovalOf (f c) = Checkpoint.ApprovalOf c ∧ mem_call clock s q = (<[id := f c]> s, Ok Done)) →
  serves clock d s q.
Proof.
  intros Hr Hkey Hsql Hno Hyes. unfold serves. rewrite Hsql.
  destruct (update_keyed d s where_ set_ id Hr Hkey) as [(c & Hc & Hw & Hup)|[Hn Hup]].
  - destruct (Hyes c Hc Hw (r_kept _ _ Hr _ _ Hc) (r_keys _ _ Hr _ _ Hc)) as (Hset & Hk & Hid & Ha & ->).
    eexists. split; [eapply yields_reply; [apply yields_last_row; rewrite (Hup _ Hset); done|done]|].
    by eapply refines_same_decision.
  - destruct (Hno Hn) as (e' & -> & He). exists d. split; [|done]. cbn. rewrite He.
    eapply yields_reply; [apply yields_last_row; by rewrite Hup|done].
Qed.

(** The checkpoint as [finishLease] leaves it. *)
Definition finished (r : Checkpoint.CheckpointLeaseCompletion) (status : string) (now : Time) (c : Checkpoint.ApprovalCheckpoint) :=
  c <| Checkpoint.CkStatus := status |> <| Checkpoint.Ciphertext := [] |>
    <| Checkpoint.FailureCode := if decide (status = Checkpoint.CheckpointFailed)
                                 then Checkpoint.lc_FailureCode r else "" |>
    <| Checkpoint.LeaseOwner := "" |> <| Checkpoint.LeaseUntil := 0 |> <| Checkpoint.UpdatedAt := now |>.

Lemma finish_serves clock d s r status q :
  refines d s → storable (Checkpoint.requestNow clock (Checkpoint.lc_Now r)) →
  finishing q = true → status ≠ Checkpoint.CheckpointPending →
  sql_call no_fault alone clock q = bind (finishLease no_fault alone clock r status) (λ _, ret Done) →
  mem_call clock s q = (let p := Checkpoint.finishLease None clock s r status in (p.1, done_of p.2)) →
  serves clock d s q.
Proof.
  intros Hr Hnow Hq Hst Hsql Hmem. unfold finishLease in Hsql. unfold Checkpoint.finishLease in Hmem.
  case_decide as Hblank.
  { exists d. rewrite Hsql, Hmem. cbn. split; [|done]. eapply yields_reply; [apply yields_raise|done]. }
  case_decide as Hcode.
  { exists d. rewrite Hsql, Hmem. cbn. split; [|done]. eapply yields_reply; [apply yields_raise|done]. }
  eapply (update_serves clock d s q (Checkpoint.lc_CheckpointID r) (leased_row r) _
    (finished r status (Checkpoint.requestNow clock (Checkpoint.lc_Now r)))); [done|by intros ? [? _]|exact Hsql|..].
  - rewrite Hq. intros Hno. rewrite Hmem. destruct (s !! _) as [c|] eqn:Hc; [|by eexists].
    case_decide as Ht; [by eexists|]. rewrite decide_True; [by eexists|].
    specialize (Hno c eq_refl). unfold leased_row in Hno. cbn in Hno. rewrite (r_keys _ _ Hr _ _ Hc) in Hno.
    destruct (decide (Checkpoint.CkStatus c = Checkpoint.CheckpointLeased)); [|by left].
    right. intros ?. by apply Hno.
  - intros c Hc (_ & Ht & Hl & Ho) Hk Hid. cbn in *. split_and!; [by destruct c| |by destruct c..|].
    + destruct Hk, c. split; cbn in *; auto; done.
    + rewrite Hmem, Hc, decide_False by tauto. rewrite decide_False by (intros []; tauto).
      rewrite Checkpoint.clone_id, <-Hid. by destruct c.
Qed.

Lemma fail_pending_serves clock d s r :
  refines d s → call_ok clock (Rop (Checkpoint.OpFailPending r)) → serves clock d s (Rop (Checkpoint.OpFailPending r)).
Proof.
  intros Hr Hnow. cbn in Hnow.
  destruct (Checkpoint.validatePendingCheckpointFailure r) as [e|] eqn:Hv.
  { eapply serves_invalid; [done|..].
    - cbn [sql_call]. unfold FailPendingCheckpoint. rewrite validatePendingCheckpointFailure_same, Hv. reflexivity.
    - cbn [mem_call]. unfold Checkpoint.FailPendingCheckpoint. by rewrite Hv.
    - plain_error Hv. }
  set (now := Checkpoint.requestNow clock (Checkpoint.pf_Now r)) in *.
  eapply (update_serves clock d s _ (Checkpoint.pf_CheckpointID r) (failing_row r) _ (λ c,
    if decide (Checkpoint.CkStatus c = Checkpoint.CheckpointPending)
    then c <| Checkpoint.CkStatus := Checkpoint.CheckpointFailed |> <| Checkpoint.Ciphertext := [] |>
           <| Checkpoint.FailureCode := Checkpoint.pf_FailureCode r |> <| Checkpoint.LeaseOwner := "" |>
           <| Checkpoint.LeaseUntil := 0 |> <| Checkpoint.UpdatedAt := now |> else c)); [done|by intros ? [? _]|..].
  - cbn [sql_call]. unfold FailPendingCheckpoint. rewrite validatePendingCheckpointFailure_same, Hv. reflexivity.
  - intros Hno. cbn [mem_call]. unfold Checkpoint.FailPendingCheckpoint. rewrite Hv.
    destruct (s !! _) as [c|] eqn:Hc; [|by eexists]. specialize (Hno c eq_refl). unfold failing_row in Hno. cbn in Hno.
    rewrite (r_keys _ _ Hr _ _ Hc) in Hno. case_decide as Hm; [by eexists|].
    assert (Checkpoint.RunID c = Checkpoint.pf_RunID r ∧ Checkpoint.TenantID c = Checkpoint.pf_TenantID r ∧
            Checkpoint.DefinitionHash c = Checkpoint.pf_DefinitionHash r) as (? & ? & ?).
    { split_and!; apply dec_stable; tauto. }
    rewrite decide_False by (intros []; apply Hno; tauto).
    rewrite decide_True; [by eexists|]. intros ?. apply Hno. tauto.
  - intros c Hc (_ & Hrun & Ht & Hdef & Hst) Hk Hid. cbn in Hrun, Ht, Hdef, Hst.
    assert (∀ p, (if decide (Checkpoint.RunID c ≠ Checkpoint.pf_RunID r ∨ Checkpoint.TenantID c ≠ Checkpoint.pf_TenantID r ∨
      Checkpoint.DefinitionHash c ≠ Checkpoint.pf_DefinitionHash r)
      then (s, Some Checkpoint.ErrCheckpointNotClaimable) else p) = p) as Hmatch by (intros p; by rewrite decide_False by tauto).
    cbn [mem_call]. unfold Checkpoint.FailPendingCheckpoint. rewrite Hv, Hc, Hmatch.
    destruct (decide (Checkpoint.CkStatus c = Checkpoint.CheckpointPending)) as [Hp|Hp].
    + split_and!; [| |by destruct c..|].
      * destruct c. cbn in *. subst. reflexivity.
      * destruct Hk, c. split; cbn in *; auto; done.
      * rewrite decide_False by (rewrite Hp; by intros []). rewrite decide_False by tauto.
        rewrite Checkpoint.clone_id, <-Hid. by destruct c.
    + destruct Hst as [|[Hf Hcode]]; [done|].
      destruct (k_failed _ Hk Hf) as (H1 & H2 & H3). split_and!; [|done..|by rewrite decide_True, insert_id].
      destruct c. cbn in *. subst. reflexivity.
Qed.

Lemma expire_serves clock d s now :
  refines d s → call_ok clock (Rop (Checkpoint.OpExpire now)) → serves clock d s (Rop (Checkpoint.OpExpire now)).
Proof.
  intros Hr Hnow. cbn in Hnow. set (t := Checkpoint.requestNow clock now) in *.
  assert (∀ id c, s !! id = Some c → expired_row t (to_row c) ↔ Checkpoint.expirable t c) as Hiff.
  { intros id c Hc. unfold expired_row, Checkpoint.expirable, After. cbn.
    rewrite text_order; [done|done|apply (r_kept _ _ Hr _ _ Hc)]. }
  eexists. split.
  - eapply yields_reply; [apply yields_stmt|]. cbn. f_equal. f_equal. rewrite (r_rows _ _ Hr), map_filter_fmap, map_size_fmap.
    f_equal. apply map_filter_ext. intros id c Hc. symmetry. by apply (Hiff id).
  - cbn. destruct Hr as [H1 H2 H3 H4]. split.
    + destruct d as [ck de ru ev]. cbn in *. rewrite H1, <-!map_fmap_compose. apply map_fmap_ext. intros id c Hc. cbn.
      rewrite Checkpoint.clone_id. fold t. rewrite (decide_ext _ _ _ _ (Hiff id c Hc)).
      destruct (decide (Checkpoint.expirable t c)); by destruct c.
    + destruct d as [ck de ru ev]. cbn in *. rewrite H2. apply map_eq. intros id.
      rewrite !lookup_omap, lookup_fmap. destruct (s !! id) as [c|]; [|done]. cbn. rewrite Checkpoint.clone_id.
      by destruct (decide _), c.
    + intros id c. rewrite lookup_fmap_Some. intros (c0 & <- & Hc). rewrite Checkpoint.clone_id.
      destruct (decide _); [destruct c0|]; by apply (H3 id) in Hc.
    + intros id c. rewrite lookup_fmap_Some. intros (c0 & <- & Hc). rewrite Checkpoint.clone_id.
      apply H4 in Hc as Hk. destruct (decide _); [|done]. destruct Hk, c0. split; cbn in *; auto; done.
Qed.

Lemma call_serves clock d s q : refines d s → call_ok clock q → serves clock d s q.
Proof.
  intros Hr Hok. destruct q as [id tenant|[c|r|r|r|r|r|now]].
  - by apply get_serves.
  - by apply create_serves.
  - by apply approve_serves.
  - by apply reject_serves.
  - by apply (finish_serves _ _ _ r Checkpoint.CheckpointConsumed).
  - by apply (finish_serves _ _ _ r Checkpoint.CheckpointFailed).
  - by apply fail_pending_serves.
  - by apply expire_serves.
Qed.

(** * Histories *)

Fixpoint mem_calls (s : Checkpoint.Store) (qs : list (Time * request)) : Checkpoint.Store * list (res Error reply) :=
  match qs with
  | [] => (s, [])
  | (clock, q) :: qs =>
      let '(s, r) := mem_call clock s q in
      let '(s, rs) := mem_calls s qs in (s, sql_result q r :: rs)
  end.
Fixpoint sql_calls (w : World DB) (qs : list (Time * request)) : World DB * list (res Error reply) :=
  match qs with
  | [] => (w, [])
  | (clock, q) :: qs =>
      let '(w, r) := sql_call no_fault alone clock q w in
      let '(w, rs) := sql_calls w qs in (w, r :: rs)
  end.

Lemma refines_empty : refines new_db Checkpoint.New.
Proof.
  unfold Checkpoint.New. split; [by rewrite fmap_empty|by rewrite omap_empty|..]; intros id c; by rewrite lookup_empty.
Qed.

Lemma calls_refine qs s w :
  Forall (λ p, call_ok p.1 p.2) qs → refines (w_db w) s →
  (sql_calls w qs).2 = (mem_calls s qs).2 ∧ refines (w_db (sql_calls w qs).1) (mem_calls s qs).1.
Proof.
  revert s w. induction qs as [|[clock q] qs IH]; intros s w Hok Hr; [done|].
  apply Forall_cons in Hok as [Hq Hqs]. destruct w as [d t].
  destruct (call_serves clock d s q Hr Hq) as (d' & Hy & Hr'). destruct (Hy t) as [t' E].
  cbn [sql_calls mem_calls]. rewrite E. destruct (mem_call clock s q) as [s' r]. cbn in *.
  destruct (IH s' (mkWorld d' t') Hqs Hr') as [H1 H2]. destruct (sql_calls _ qs), (mem_calls s' qs). cbn in *.
  by rewrite H1.
Qed.

(** The approval store over SQLite implements the in-memory store: from empty tables, any
sequence of calls (creation, reading, approval, rejection, completion, failure, expiry)
gets the results of the in-memory store, errors included, and at the end the tables hold exactly
its checkpoints and decisions. The errors differ in that SQLite's do not name the checkpoint and
that finishing a lease reports a missing checkpoint as a lease of another owner. *)
Theorem sqlite_checkpoints_refine qs :
  Forall (λ p, call_ok p.1 p.2) qs →
  (sql_calls (mkWorld new_db 0) qs).2 = (mem_calls Checkpoint.New qs).2 ∧
  refines (w_db (sql_calls (mkWorld new_db 0) qs).1) (mem_calls Checkpoint.New qs).1.
Proof. intros Hok. apply calls_refine; [done|apply refines_empty]. Qed.

(** * Faults and other clients *)

Section faults.
Context (fault : nat → option Error) (others : nat → DB → DB).

Lemma quiet_valid e : quiet (valid e).
Proof. destruct e; [apply quiet_raise|apply quiet_ret]. Qed.
Lemma quiet_one_row n e : quiet (one_row n e).
Proof. unfold one_row. destruct (decide _); [apply quiet_raise|apply quiet_ret]. Qed.

Lemma atomic_one_row f e :
  atomic fault others (bind (stmt fault others false f) (λ n, one_row n e))
    (bind (stmt no_fault alone false f) (λ n, one_row n e)).
Proof. apply atomic_last; [apply atomic_stmt|intros n; apply quiet_one_row]. Qed.

Lemma calm_one_row n e : calm fault (one_row n e) (one_row n e).
Proof. unfold one_row. calm_solve. Qed.
Lemma calm_record_decision r approved now :
  calm fault (record_decision fault others r approved now) (record_decision no_fault alone r approved now).
Proof. unfold record_decision. calm_solve. Qed.

Lemma atomic_finish clock r status :
  atomic fault others (finishLease fault others clock r status) (finishLease no_fault alone clock r status).
Proof.
  unfold finishLease. case_decide; [apply atomic_quiet, quiet_raise|].
  case_decide; [apply atomic_quiet, quiet_raise|]. apply atomic_one_row.
Qed.

Lemma call_atomic clock q : atomic fault others (sql_call fault others clock q) (sql_call no_fault alone clock q).
Proof.
  destruct q as [id tenant|[c|r|r|r|r|r|now]]; (apply atomic_last; [|intros ?; apply quiet_ret]).
  - apply atomic_last; [apply atomic_stmt|]. intros [row|]; [apply quiet_ret|apply quiet_raise].
  - apply atomic_first; [apply quiet_valid|intros _; apply atomic_one_row].
  - apply atomic_first; [apply quiet_valid|intros _]. apply atomic_tx. calm_solve; [apply calm_one_row|apply calm_record_decision].
  - apply atomic_first; [apply quiet_valid|intros _]. apply atomic_tx. calm_solve; [apply calm_one_row|apply calm_record_decision].
  - apply atomic_finish.
  - apply atomic_finish.
  - apply atomic_first; [apply quiet_valid|intros _; apply atomic_one_row].
  - apply atomic_stmt.
Qed.

(** C38: A call on the approval store over SQLite is atomic under driver failures and other
processes on the same file, as long as those too leave the checkpoints of an in-memory store:
the call fails with an error of the driver and changes nothing, or at one moment of the call it
returns what the in-memory store returns on the checkpoints then in the tables, and
leaves what that store leaves. The conditions on the call ([call_ok]) are that its clock and its
times (of the request, the checkpoint, the end of the lease) are storable, that the end of a
lease is not the zero time, and that a checkpoint is created without a decision and without
a lease. Storable times ([TimeTextLaws]) are any for which the driver's text reads back as the
time and sorts as the times do, as the texts of one precision and zone do. *)
Theorem sqlite_calls_linearize clock q w w' r s :
  (∀ t d s, refines d s → ∃ s', refines (others t d) s') →
  refines (w_db w) s → call_ok clock q → sql_call fault others clock q w = (w', r) →
  ∃ d1 s1, (d1 = w_db w ∨ d1 = others (w_tick w) (w_db w)) ∧ refines d1 s1 ∧
    ((faulted fault r ∧ w_db w' = d1) ∨
     (r = sql_result q (mem_call clock s1 q).2 ∧ refines (w_db w') (mem_call clock s1 q).1)).
Proof.
  intros Hothers Hr Hok E. destruct (call_atomic clock q _ _ _ E) as (d1 & Hd1 & Hcase).
  assert (∃ s1, refines d1 s1) as [s1 Hs1] by (destruct Hd1 as [->| ->]; eauto).
  exists d1, s1. split_and!; [done|done|]. destruct Hcase as [Hf|Hy]; [by left|right].
  destruct (call_serves clock d1 s1 q Hs1 Hok) as (d2 & Hy2 & Hr2).
  destruct (yields_det _ _ _ _ _ _ Hy Hy2) as [-> ->]. done.
Qed.

End faults.

End times.

(** * A concrete driver *)

Fixpoint unary (n : nat) : string := match n with O => "" | S n => String "1"%char (unary n) end.
Definition unary_text : TimeText := {| text_of t := unary (Z.to_nat t); time_of s := Z.of_nat (String.length s) |}.

Lemma unary_length n : String.length (unary n) = n.
Proof. induction n; simpl; auto. Qed.
Lemma unary_lt n m : str_lt (unary n) (unary m) ↔ (n < m)%nat.
Proof.
  revert m. induction n as [|n IH]; intros [|m]; unfold str_lt, String.ltb; simpl; try (split; [done|lia]).
  - split; [lia|done].
  - change (str_lt (unary n) (unary m) ↔ (S n < S m)%nat). rewrite (IH m). lia.
Qed.
Definition unary_laws : TimeTextLaws (T := unary_text).
Proof.
  refine {| storable t := 0 ≤ t |}.
  - intros t Ht. simpl. rewrite unary_length. lia.
  - intros t u Ht Hu. simpl. rewrite unary_lt. lia.
Defined.

(** A checkpoint created at 1 that expires at 30, approved at 5 for 10, completed by its owner,
and completed again. *)
Definition demo_checkpoint : Checkpoint.ApprovalCheckpoint :=
  Checkpoint.mkCheckpoint "cp" "run" "tenant" "hash" [x01] "" "" "" 0 30 None 0 0.
Definition demo_approve : Checkpoint.ApprovalLeaseRequest :=
  Checkpoint.mkLeaseRequest "cp" "tenant" "hash" "alice" "ref" "" "worker" 10 5.
Definition demo_calls : list (Time * request) :=
  [(1, Rop (Checkpoint.OpCreate demo_checkpoint)); (2, Rop (Checkpoint.OpApprove demo_approve));
   (6, Rop (Checkpoint.OpApprove demo_approve));
   (7, Rop (Checkpoint.OpComplete (Checkpoint.mkCompletion "cp" "tenant" "worker" "" 0)));
   (8, Rop (Checkpoint.OpComplete (Checkpoint.mkCompletion "other" "tenant" "worker" "" 0))); (9, Rget "cp" "tenant")].

Lemma sqlite_checkpoints_refine_witness :
  let out := (sql_calls (T := unary_text) (mkWorld new_db 0) demo_calls).2 in
  out = (mem_calls Checkpoint.New demo_calls).2 ∧
  (λ r, match r with Ok Done => "done" | Ok (Got c) => Checkpoint.CkStatus c | Ok (Count _) => "count"
                   | Err (CkError Checkpoint.ErrCheckpointNotClaimable) => "not claimable"
                   | Err (CkError Checkpoint.ErrCheckpointLeaseOwner) => "not owner" | Err _ => "error" end) <$> out
  = ["done"; "leased"; "not claimable"; "done"; "not owner"; "consumed"].
Proof.
  split; [|vm_compute; reflexivity].
  apply (sqlite_checkpoints_refine (L := unary_laws) demo_calls).
  repeat constructor; simpl; unfold Checkpoint.requestNow; simpl; try (vm_compute; congruence); auto.
Defined.

(** Another process that expires the checkpoints due at 40 whenever it runs. *)
Definition expirer (t : nat) (d : DB) : DB :=
  w_db (sql_call (T := unary_text) no_fault alone 40 (Rop (Checkpoint.OpExpire 40)) (mkWorld d t)).1.
Definition demo_world : World DB :=
  (sql_calls (T := unary_text) (mkWorld new_db 0) (take 1 demo_calls)).1.

Lemma sqlite_calls_linearize_witness :
  let q := Rop (Checkpoint.OpApprove demo_approve) in
  ∃ d1 s1, (d1 = w_db demo_world ∨ d1 = expirer (w_tick demo_world) (w_db demo_world)) ∧
    refines (L := unary_laws) d1 s1 ∧
    Err (CkError Checkpoint.ErrCheckpointNotClaimable) = sql_result q (mem_call 2 s1 q).2.
Proof.
  intros q.
  destruct (sqlite_calls_linearize (L := unary_laws) no_fault expirer 2 q demo_world
    (sql_call (T := unary_text) no_fault expirer 2 q demo_world).1 (Err (CkError Checkpoint.ErrCheckpointNotClaimable))
    (mem_calls Checkpoint.New (take 1 demo_calls)).1) as (d1 & s1 & Hd & Hr & Hc).
  - intros t d s Hr. destruct (call_serves (L := unary_laws) 40 d s (Rop (Checkpoint.OpExpire 40)) Hr) as (d' & Hy & Hr'); [done|].
    exists (mem_call 40 s (Rop (Checkpoint.OpExpire 40))).1. unfold expirer. destruct (Hy t) as [t' ->]. exact Hr'.
  - apply (calls_refine (L := unary_laws)); [|apply refines_empty]. repeat constructor; simpl; auto; lia.
  - vm_compute. split_and!; congruence.
  - vm_compute. reflexivity.
  - exists d1, s1. split; [exact Hd|]. split; [exact Hr|]. destruct Hc as [[(t & e & Hf & _) _]|[Hc _]]; [discriminate|exact Hc].
Defined.

End RunSqlSafety.
