(* ===== verification/RunSqliteRecords.v ===== *)
(** The SQLite store of runkit keeps run records and their event logs as its in-memory store does,
except for the order in which it lists the runs of a workflow. *)

From Stdlib Require Import Strings.Byte.
From S2P Require Import Prelude Sql RunCheckpoint RunRecords RunSqlite RunSqliteSafety.
#[local] Open Scope Z_scope.

Module RunSqlRecords.
Import Sql RunSql RunSqlSafety.
#[local] Abbreviation yields := (Sql.yields (DB := DB) (Error := Error)).
#[local] Abbreviation no_fault := (λ _ : nat, None : option Error).
#[local] Abbreviation alone := (λ (_ : nat) (d : DB), d).

(** What JSON keeps of a field. *)
Class RunJsonLaws `{J : RunJson} := {
  clean_tools : list string → list string;
  clean_metadata : Metadata → Metadata;
  tools_json l : ∃ j, marshal_tools l = Some j ∧ j ≠ "" ∧ unmarshal_tools j = Some (clean_tools l);
  metadata_json m j : marshal_metadata m = Some j → j ≠ "" ∧ unmarshal_metadata j = Some (clean_metadata m)
}.

(** Filtering and sorting related lists. *)
Lemma Forall2_filter_related {A B} (R : A → B → Prop) (P : A → Prop) (Q : B → Prop)
    `{∀ a, Decision (P a), ∀ b, Decision (Q b)} l k :
  (∀ a b, R a b → (P a ↔ Q b)) → Forall2 R l k → Forall2 R (filter P l) (filter Q k).
Proof.
  intros HPQ. induction 1 as [|a b l k Hab _ IH]; [constructor|]. rewrite !filter_cons.
  specialize (HPQ _ _ Hab). destruct (decide (P a)), (decide (Q b)); [by constructor|tauto..|done].
Qed.
Lemma Forall2_sort_related {A B} (R : A → B → Prop) (less : A → A → Prop) (less' : B → B → Prop)
    `{∀ a a', Decision (less a a'), ∀ b b', Decision (less' b b')} l k :
  (∀ a a' b b', R a b → R a' b' → (less a a' ↔ less' b b')) → Forall2 R l k →
  Forall2 R (sort_slice less l) (sort_slice less' k).
Proof.
  intros HR. induction 1 as [|a b l k Hab _ IH]; [constructor|]. cbn.
  fold (sort_slice less l). fold (sort_slice less' k). clear -HR Hab IH.
  induction IH as [|a' b' l' k' Hab' Hl IH]; cbn; [by repeat constructor|].
  specialize (HR _ _ _ _ Hab' Hab). destruct (decide (less a' a)), (decide (less' b' b)); [|tauto..|];
    by repeat constructor.
Qed.

Section records.
Context `{L : TimeTextLaws} `{JL : RunJsonLaws}.

Definition clean_summary (s : RunStore.TerminalSummary) : RunStore.TerminalSummary :=
  s <| RunStore.sum_UsedTools := clean_tools (RunStore.sum_UsedTools s) |>.
Definition clean_record (r : RunStore.RunRecord) : RunStore.RunRecord :=
  r <| RunStore.Summary := clean_summary (RunStore.Summary r) |>
    <| RunStore.RecMetadata := clean_metadata (RunStore.RecMetadata r) |>.
Definition clean_event (e : RunStore.RunEvent) : RunStore.RunEvent :=
  e <| RunStore.ev_Metadata := clean_metadata (RunStore.ev_Metadata e) |>.

(** * Rows *)

(** The row of a run, and of an event. *)
Record run_of (r : RunStore.RunRecord) (row : runRow) : Prop := {
  ro_id : row_RunID row = RunStore.RunID r;
  ro_workflow : row_WorkflowID row = RunStore.WorkflowID r;
  ro_created : row_CreatedAt row = text_of (RunStore.CreatedAt r);
  ro_storable : storable (RunStore.CreatedAt r);
  ro_decode w : decodeRun row w = (w, Ok r)
}.
Record event_of (e : RunStore.RunEvent) (row : eventRow) : Prop := {
  eo_id : er_RunID row = RunStore.ev_RunID e;
  eo_sequence : er_Sequence row = RunStore.ev_Sequence e;
  eo_decode w : decodeEvent row w = (w, Ok e)
}.

(** The events of a run, by their numbers. *)
Definition events_at (d : DB) (id : string) (rows : list eventRow) : Prop :=
  ∀ k, run_events d !! (id, k) = if decide (1 ≤ k) then rows !! Z.to_nat (k - 1) else None.

Record run_tables (d : DB) (s : RunStore.MemoryStore) : Prop := {
  rt_ok : RunStore.store_ok s;
  rt_runs : Forall2 (λ id row, ∃ r, RunStore.st_runs s !! id = Some r ∧ run_of r row) (RunStore.st_order s) (agent_runs d);
  rt_events id : ∃ rows, Forall2 event_of (RunStore.log s id) rows ∧ events_at d id rows
}.

Lemma decode_time t : storable t → time_of (text_of t) = t.
Proof. apply text_read. Qed.

Lemma unmarshal_json {A} (unmarshal : string → option A) j zero v w :
  j ≠ "" → unmarshal j = Some v → unmarshalJSON unmarshal j zero w = (w, Ok v).
Proof. intros Hj Hv. unfold unmarshalJSON. by rewrite decide_False, Hv. Qed.

Lemma encodeRun_run_of r :
  is_Some (marshal_metadata (RunStore.RecMetadata r)) → storable (RunStore.CreatedAt r) → storable (RunStore.UpdatedAt r) →
  ∃ row, (∀ w, encodeRun r w = (w, Ok row)) ∧ run_of (clean_record r) row.
Proof.
  intros [jm Hm] Hc Hu. destruct (tools_json (RunStore.sum_UsedTools (RunStore.Summary r))) as (jt & Ht & Hne & Hut).
  destruct (metadata_json _ _ Hm) as [Hne' Hum].
  unfold encodeRun, marshalJSON, bind. rewrite Ht, Hm. cbn. eexists. split; [intros w; reflexivity|].
  destruct r as [id wf task st [ss cr ar it ot lc tc ut] md cat uat]. cbn in *. split; cbn; [done..|].
  intros w'. unfold decodeRun, bind. cbn. rewrite (unmarshal_json _ _ _ _ _ Hne Hut), (unmarshal_json _ _ _ _ _ Hne' Hum).
  by rewrite !text_read.
Qed.

(** * Statements *)

Lemma select_run_refines d s id :
  run_tables d s →
  match select_run id d, RunStore.st_runs s !! id with
  | Some row, Some r => run_of r row
  | None, None => True
  | _, _ => False
  end.
Proof.
  intros [Hok Hruns _]. unfold select_run.
  destruct (list_find (λ r, row_RunID r = id) (agent_runs d)) as [[i row]|] eqn:E; cbn.
  - apply list_find_Some in E as (Hi & Hid & _).
    destruct (Forall2_lookup_r _ _ _ _ _ Hruns Hi) as (id' & _ & r & Hr & Ho).
    assert (id' = id) as ->; [|by rewrite Hr].
    pose proof (RunStore.ok_ids _ Hok _ _ Hr) as Hk. cbn in Hk. rewrite (ro_id _ _ Ho) in Hid. congruence.
  - apply list_find_None in E. destruct (RunStore.st_runs s !! id) as [r|] eqn:Hr; [|done].
    assert (id ∈ RunStore.st_order s) as Hin by (apply (RunStore.ok_runs _ Hok); by eexists).
    apply list_elem_of_lookup in Hin as [i Hi].
    destruct (Forall2_lookup_l _ _ _ _ _ Hruns Hi) as (row & Hrow & r' & Hr' & Ho).
    rewrite Forall_forall in E. apply (E row); [by eapply list_elem_of_lookup_2|].
    rewrite (ro_id _ _ Ho). by apply (RunStore.ok_ids _ Hok _ _ Hr').
Qed.

Lemma event_row_key d s id rows i row :
  run_tables d s → Forall2 event_of (RunStore.log s id) rows → rows !! i = Some row →
  er_RunID row = id ∧ er_Sequence row = Z.of_nat i + 1.
Proof.
  intros Ht Hf Hi. destruct (Forall2_lookup_r _ _ _ _ _ Hf Hi) as (e & He & Ho).
  destruct (RunStore.ok_sequence _ (rt_ok _ _ Ht) _ _ _ He). by rewrite (eo_id _ _ Ho), (eo_sequence _ _ Ho).
Qed.

(** Every event row is stored under its own key. *)
Lemma event_key d s id k row :
  run_tables d s → run_events d !! (id, k) = Some row → er_RunID row = id ∧ er_Sequence row = k.
Proof.
  intros Ht Hrow. destruct (rt_events _ _ Ht id) as (rows & Hf & Hat). rewrite Hat in Hrow. case_decide; [|done].
  destruct (event_row_key _ _ _ _ _ _ Ht Hf Hrow). split; [done|lia].
Qed.

Lemma event_rows d s id rows :
  run_tables d s → Forall2 event_of (RunStore.log s id) rows → events_at d id rows →
  filter (λ r, er_RunID r = id) (map_to_list (run_events d)).*2 ≡ₚ rows.
Proof.
  intros Ht Hf Hat. apply NoDup_Permutation.
  - apply NoDup_filter, (NoDup_fmap_1 (λ r, (er_RunID r, er_Sequence r))).
    rewrite <-list_fmap_compose, (list_fmap_ext _ fst); [apply NoDup_fst_map_to_list|].
    intros i [[k1 k2] row] Hi. cbn. apply list_elem_of_lookup_2, elem_of_map_to_list in Hi.
    by destruct (event_key _ _ _ _ _ Ht Hi) as [-> ->].
  - apply NoDup_alt. intros i j row Hi Hj. pose proof (event_row_key _ _ _ _ _ _ Ht Hf Hi).
    pose proof (event_row_key _ _ _ _ _ _ Ht Hf Hj). lia.
  - intros row. rewrite list_elem_of_filter, list_elem_of_fmap. split.
    + intros [Hid ([[id' k] row'] & -> & Hi)]. cbn in *. apply elem_of_map_to_list in Hi.
      destruct (event_key _ _ _ _ _ Ht Hi) as [<- _]. rewrite Hid, Hat in Hi. case_decide; [|done].
      by eapply list_elem_of_lookup_2.
    + intros [i Hi]%list_elem_of_lookup. destruct (event_row_key _ _ _ _ _ _ Ht Hf Hi) as [Hid Hseq].
      split; [done|]. exists ((id, Z.of_nat i + 1), row). split; [done|]. apply elem_of_map_to_list.
      rewrite Hat, decide_True by lia. by replace (Z.to_nat (Z.of_nat i + 1 - 1)) with i by lia.
Qed.

(** The rows numbered from 1. *)
Definition counted (from : Z) (rows : list eventRow) : Prop :=
  ∀ i row, rows !! i = Some row → er_Sequence row = Z.of_nat i + from.

Lemma counted_tail from row rows : counted from (row :: rows) → er_Sequence row = from ∧ counted (from + 1) rows.
Proof.
  intros H. split; [by rewrite (H 0%nat row eq_refl)|]. intros i r Hi. rewrite (H (S i) r Hi). lia.
Qed.
Lemma counted_le from rows row : counted from rows → row ∈ rows → from ≤ er_Sequence row < from + Z.of_nat (length rows).
Proof.
  intros H [i Hi]%list_elem_of_lookup. rewrite (H _ _ Hi). apply lookup_lt_Some in Hi. lia.
Qed.
Lemma counted_sorted from rows : counted from rows → StronglySorted (not_after (key_less Z.lt er_Sequence)) rows.
Proof.
  revert from. induction rows as [|row rows IH]; intros from Hc; [constructor|].
  apply counted_tail in Hc as [Hr Hc].
  constructor; [by eapply IH|]. apply Forall_forall. intros r Hin. pose proof (counted_le _ _ _ Hc Hin).
  unfold not_after, key_less. lia.
Qed.
Lemma counted_nodup from rows : counted from rows → NoDup (er_Sequence <$> rows).
Proof.
  intros H. apply NoDup_alt. intros i j k. rewrite !list_lookup_fmap, !fmap_Some.
  intros (r & Hi & ->) (r' & Hj & E). rewrite (H _ _ Hi), (H _ _ Hj) in E. lia.
Qed.

#[local] Instance Zlt_strict : StrictTotal Z.lt.
Proof. split; lia. Qed.

Lemma select_events_rows d s id rows :
  run_tables d s → Forall2 event_of (RunStore.log s id) rows → events_at d id rows → select_events id d = rows.
Proof.
  intros Ht Hf Hat. unfold select_events.
  assert (counted 1 rows) as Hc by (intros i row Hi; by destruct (event_row_key _ _ _ _ _ _ Ht Hf Hi)).
  pose proof (event_rows _ _ _ _ Ht Hf Hat) as Hp.
  rewrite <-(sort_key_unique Z.lt er_Sequence rows); [|by eapply counted_nodup|done].
  by eapply sort_slice_id, counted_sorted.
Qed.

Lemma max_spec a (l : list Z) : foldr Z.max a l ∈ a :: l ∧ ∀ x, x ∈ a :: l → x ≤ foldr Z.max a l.
Proof.
  induction l as [|b l [IH1 IH2]]; cbn; [set_solver by lia|]. split.
  - destruct (Z.max_spec b (foldr Z.max a l)) as [[_ ->]|[_ ->]]; set_solver.
  - intros x Hx. assert (x = b ∨ x ∈ a :: l) as [->|H] by set_solver; [lia|]. specialize (IH2 x H). lia.
Qed.

Lemma next_sequence_rows d s id rows :
  run_tables d s → Forall2 event_of (RunStore.log s id) rows → events_at d id rows →
  next_sequence id d = Z.of_nat (length (RunStore.log s id)) + 1.
Proof.
  intros Ht Hf Hat. unfold next_sequence. rewrite (Forall2_length _ _ _ Hf).
  assert (counted 1 rows) as Hc by (intros i row Hi; by destruct (event_row_key _ _ _ _ _ _ Ht Hf Hi)).
  pose proof (event_rows _ _ _ _ Ht Hf Hat) as Hp. set (l := filter _ _) in *.
  pose proof (Permutation_length Hp) as Hlen. destruct l as [|row l]; cbn in *; [by rewrite <-Hlen|].
  destruct (max_spec (er_Sequence row) (er_Sequence <$> l)) as [H1 H2]. f_equal.
  assert (∀ x, x ∈ er_Sequence row :: (er_Sequence <$> l) ↔ ∃ r, r ∈ rows ∧ er_Sequence r = x) as Hin.
  { intros x. rewrite <-fmap_cons, list_elem_of_fmap. setoid_rewrite <-Hp. naive_solver. }
  apply Hin in H1 as (r & Hr & Hmax). pose proof (counted_le _ _ _ Hc Hr).
  destruct (lookup_lt_is_Some_2 rows (length rows - 1)) as [r' Hr']; [lia|].
  specialize (H2 (er_Sequence r')). rewrite Hin in H2. rewrite (Hc _ _ Hr') in H2.
  assert (Z.of_nat (length rows - 1) + 1 ≤ foldr Z.max (er_Sequence row) (er_Sequence <$> l)); [|lia].
  apply H2. exists r'. split; [by eapply list_elem_of_lookup_2|apply (Hc _ _ Hr')].
Qed.

Lemma decode_rows_all {R A} (decode : R → M A) rows vs w :
  Forall2 (λ v row, ∀ w, decode row w = (w, Ok v)) vs rows → decode_rows decode rows w = (w, Ok vs).
Proof.
  intros H. revert w. induction H as [|v row vs rows Hv _ IH]; intros w; [done|]. cbn [decode_rows]. unfold bind.
  by rewrite Hv, IH.
Qed.

(** The rows of the runs listed in [order]. *)
Definition rows_of (runs : GoMap RunStore.RunRecord) (order : list string) (rows : list runRow) : Prop :=
  Forall2 (λ id row, ∃ r, runs !! id = Some r ∧ run_of r row) order rows.

Lemma rows_of_insert runs order rows id r : id ∉ order → rows_of runs order rows → rows_of (<[id := r]> runs) order rows.
Proof.
  unfold rows_of. intros Hn H. induction H as [|id' row order rows (r' & Hr' & Ho) _ IH]; constructor.
  - exists r'. rewrite lookup_insert_ne by set_solver. done.
  - apply IH. set_solver.
Qed.

Lemma upsert_rows runs order rows r row :
  rows_of runs order rows → NoDup order → (∀ id r, runs !! id = Some r → RunStore.RunID r = id) → run_of r row →
  rows_of (<[RunStore.RunID r := r]> runs)
    (if decide (RunStore.RunID r ∈ order) then order else order ++ [RunStore.RunID r]) (upsert_row row rows).
Proof.
  intros H Hnd Hids Ho. induction H as [|id' row' order rows (r' & Hr' & Ho') H IH].
  - rewrite decide_False by set_solver. cbn. constructor; [|constructor]. exists r. by rewrite lookup_insert_eq.
  - apply NoDup_cons in Hnd as [Hnin Hnd]. cbn [upsert_row].
    rewrite (ro_id _ _ Ho), (ro_id _ _ Ho'), (Hids _ _ Hr'). destruct (decide (id' = RunStore.RunID r)) as [->|Hne].
    + rewrite decide_True by set_solver. constructor; [exists r; by rewrite lookup_insert_eq|]. by apply rows_of_insert.
    + destruct (decide (RunStore.RunID r ∈ id' :: order)) as [Hin|Hin].
      * rewrite decide_True in IH by set_solver. constructor; [exists r'; by rewrite lookup_insert_ne|by apply IH].
      * rewrite decide_False in IH by set_solver. constructor; [exists r'; by rewrite lookup_insert_ne|by apply IH].
Qed.

Lemma update_rows runs order rows id old r (set_ : runRow → runRow) :
  rows_of runs order rows → NoDup order → (∀ id r, runs !! id = Some r → RunStore.RunID r = id) →
  runs !! id = Some old → (∀ row, run_of old row → run_of r (set_ row)) →
  rows_of (<[id := r]> runs) order ((λ row, if decide (row_RunID row = id) then set_ row else row) <$> rows).
Proof.
  intros H Hnd Hids Hold Hset. induction H as [|id' row' order rows (r' & Hr' & Ho') H IH]; [constructor|].
  apply NoDup_cons in Hnd as [Hnin Hnd]. rewrite fmap_cons. constructor; [|by apply IH].
  rewrite (ro_id _ _ Ho'), (Hids _ _ Hr'). destruct (decide (id' = id)) as [->|Hne].
  - exists r. rewrite lookup_insert_eq. rewrite Hold in Hr'. injection Hr' as <-. auto.
  - exists r'. by rewrite lookup_insert_ne.
Qed.

(** * Operations *)

Definition run_error {A} (r : res RunStore.Error A) : res Error A :=
  match r with Ok a => Ok a | Err e => Err (RunError e) end.
Definition run_unit (e : option RunStore.Error) : res Error () :=
  match e with None => Ok () | Some e => Err (RunError e) end.

Lemma Get_refines ctx d s id :
  run_tables d s → yields (Get no_fault alone ctx id) d d (run_error (RunStore.Get ctx s id)).
Proof.
  intros Ht. destruct ctx as [e|]; [apply yields_bind_err, yields_raise|].
  eapply yields_bind; [apply yields_ret|]. eapply yields_bind; [apply yields_query|].
  pose proof (select_run_refines d s id Ht) as H. cbn.
  destruct (select_run id d) as [row|], (RunStore.st_runs s !! id) as [r|]; try done; [|apply yields_raise].
  rewrite RunStore.cloneRunRecord_id. intros t. exists t. apply H.
Qed.

Lemma requireRun_refines in_tx d s id :
  run_tables d s → yields (requireRun no_fault alone in_tx id) d d
    (if RunStore.st_runs s !! id then Ok () else Err (RunError (RunStore.ErrRunNotFound id))).
Proof.
  intros Ht. eapply yields_bind; [apply yields_query|]. pose proof (select_run_refines d s id Ht) as H.
  destruct (select_run id d) as [row|], (RunStore.st_runs s !! id) as [r|]; try done; [apply yields_ret|apply yields_raise].
Qed.

Lemma Events_refines ctx d s id :
  run_tables d s → yields (Events no_fault alone ctx id) d d (run_error (RunStore.Events ctx s id)).
Proof.
  intros Ht. destruct ctx as [e|]; [apply yields_bind_err, yields_raise|].
  eapply yields_bind; [apply yields_ret|]. pose proof (requireRun_refines false d s id Ht) as Hreq. cbn.
  destruct (RunStore.st_runs s !! id) as [r|]; [|by apply yields_bind_err].
  eapply yields_bind; [exact Hreq|]. eapply yields_bind; [apply yields_query|].
  destruct (rt_events _ _ Ht id) as (rows & Hf & Hat). rewrite (select_events_rows _ _ _ _ Ht Hf Hat).
  rewrite RunStore.cloneRunEvents_id. intros t. exists t. apply decode_rows_all.
  eapply Forall2_impl; [exact Hf|]. intros e row Ho. apply Ho.
Qed.

Definition saves (s : RunStore.MemoryStore * option RunStore.Error) (c : M ()) (d : DB) : Prop :=
  ∃ d', yields c d d' (run_unit s.2) ∧ run_tables d' s.1.

Lemma Create_stores now s r :
  ¬ Blank (RunStore.RunID r) →
  let created := if decide (IsZero (RunStore.CreatedAt r)) then now else RunStore.CreatedAt r in
  let r' := r <| RunStore.CreatedAt := created |> <| RunStore.UpdatedAt := now |> in
  RunStore.Create None now s r =
    (RunStore.mkStore (<[RunStore.RunID r := r']> (RunStore.st_runs s)) (RunStore.st_events s)
       (match RunStore.st_runs s !! RunStore.RunID r with
        | None => RunStore.st_order s ++ [RunStore.RunID r] | Some _ => RunStore.st_order s end), None).
Proof.
  intros Hb. unfold RunStore.Create. rewrite decide_False by done. rewrite RunStore.cloneRunRecord_id.
  destruct r as [id wf task st sm md created updated], s as [runs events order]. cbn.
  destruct (decide (IsZero created)); cbn; by destruct (runs !! id).
Qed.

Lemma Create_refines ctx now d s r :
  run_tables d s → is_Some (marshal_metadata (RunStore.RecMetadata r)) → storable now →
  (RunStore.CreatedAt r = 0 ∨ storable (RunStore.CreatedAt r)) →
  saves (RunStore.Create ctx now s (clean_record r)) (Create no_fault alone ctx now r) d.
Proof.
  intros Ht Hm Hnow Hc. pose proof (RunStore.exec_ok s (ctx, now, RunStore.OpCreate (clean_record r)) (rt_ok _ _ Ht)) as Hok.
  cbn [RunStore.exec] in Hok. unfold saves, Create.
  destruct ctx as [e|]; [exists d; split; [apply yields_bind_err, yields_raise|done]|].
  destruct (decide (Blank (RunStore.RunID r))) as [Hb|Hb].
  { exists d. unfold RunStore.Create. rewrite decide_True by (by destruct r). split; [|done].
    eapply yields_bind; [apply yields_ret|]. apply yields_raise. }
  rewrite Create_stores in Hok |- * by (by destruct r). 
  destruct r as [id wf task st sm md created updated]. cbn in Hm, Hc, Hb. cbn -[clean_record upsert_run] in *.
  set (created' := if decide (IsZero created) then now else created) in *.
  assert (storable created') as Hc' by (subst created'; destruct (decide (IsZero created)); [done|by destruct Hc]).
  destruct (encodeRun_run_of (RunStore.mkRecord id wf task st sm md created' now) Hm Hc' Hnow) as (row & Henc & Ho).
  exists (upsert_run row d). split.
  - eapply yields_bind; [apply yields_ret|]. eapply yields_bind; [|apply yields_exec].
    intros t. exists t. rewrite <-Henc. subst created'. by destruct (decide (IsZero created)).
  - destruct Ht as [Hs Hr He]. split; [exact Hok| |].
    + pose proof (upsert_rows _ _ _ _ _ Hr (RunStore.ok_order _ Hs) (RunStore.ok_ids _ Hs) Ho) as H.
      change (rows_of (<[id := clean_record (RunStore.mkRecord id wf task st sm md created' now)]> (RunStore.st_runs s))
        (if decide (id ∈ RunStore.st_order s) then RunStore.st_order s else RunStore.st_order s ++ [id])
        (upsert_row row (agent_runs d))) in H.
      cbn -[clean_record]. change (RunStore.RunID (clean_record _)) with id.
      assert (match RunStore.st_runs s !! id with None => RunStore.st_order s ++ [id] | Some _ => RunStore.st_order s end =
        if decide (id ∈ RunStore.st_order s) then RunStore.st_order s else RunStore.st_order s ++ [id]) as ->; [|exact H].
      destruct (RunStore.st_runs s !! id) as [r0|] eqn:E.
      * rewrite decide_True; [done|]. apply (RunStore.ok_runs _ Hs). by rewrite E.
      * rewrite decide_False; [done|]. rewrite (RunStore.ok_runs _ Hs), E. by intros [].
    + intros id'. destruct (He id') as (rows & H1 & H2). exists rows. split; [exact H1|]. by destruct d.
Qed.

Lemma no_rows d s id :
  run_tables d s →
  length (filter (λ r, row_RunID r = id) (agent_runs d)) = 0%nat ↔ RunStore.st_runs s !! id = None.
Proof.
  intros Ht. pose proof (select_run_refines d s id Ht) as H. unfold select_run in H.
  rewrite length_zero_iff_nil, filter_nil_Forall.
  pose proof (list_find_None (λ r, row_RunID r = id) (agent_runs d)) as Hn. rewrite <-Hn. clear Hn.
  destruct (list_find _ _) as [[i row]|]; cbn in H; destruct (RunStore.st_runs s !! id); done.
Qed.

Lemma completed_row_of now sm jt r row :
  unmarshal_tools jt = Some (clean_tools (RunStore.sum_UsedTools sm)) → jt ≠ "" → storable now → run_of r row →
  run_of (r <| RunStore.RecStatus := RunStore.sum_Status sm |> <| RunStore.Summary := clean_summary sm |>
            <| RunStore.UpdatedAt := now |>) (completed_row now sm jt row).
Proof.
  intros Hut Hne Hnow [H1 H2 H3 H4 H5].
  destruct row as [rid rwf rtask rst rss rcr rar rit rot rlc rtc rut rmd rcreated rupdated].
  destruct r as [id wf task st sm0 md created updated], sm as [ss cr ar it ot lc tc ut]. cbn in *. split; cbn; [done..|].
  intros w. specialize (H5 w). unfold decodeRun, bind in *. cbn in *.
  rewrite (unmarshal_json _ _ _ _ _ Hne Hut). destruct (unmarshalJSON unmarshal_tools rut [] w) as [w1 [tools|]]; [|done].
  assert (∀ w w' r, unmarshalJSON unmarshal_metadata rmd ∅ w = (w', r) → ∀ w2, unmarshalJSON unmarshal_metadata rmd ∅ w2 = (w2, r)) as Hq.
  { clear. intros w w' r. unfold unmarshalJSON, ret, raise. destruct (decide _); [by intros [= _ <-]|].
    destruct (unmarshal_metadata rmd); by intros [= _ <-]. }
  destruct (unmarshalJSON unmarshal_metadata rmd ∅ w1) as [w2 [m|e]] eqn:E; [|done].
  rewrite (Hq _ _ _ E). injection H5 as _ <- <- <- <- _ <- Hcreated _. cbn. rewrite text_read by done. subst.
  by rewrite text_read.
Qed.

Lemma Complete_refines ctx now d s id sm :
  run_tables d s → storable now →
  saves (RunStore.Complete ctx now s id (clean_summary sm)) (Complete no_fault alone ctx now id sm) d.
Proof.
  intros Ht Hnow. pose proof (RunStore.exec_ok s (ctx, now, RunStore.OpComplete id (clean_summary sm)) (rt_ok _ _ Ht)) as Hok.
  cbn [RunStore.exec] in Hok. unfold saves, Complete.
  destruct ctx as [e|]; [exists d; split; [apply yields_bind_err, yields_raise|done]|].
  destruct (tools_json (RunStore.sum_UsedTools sm)) as (jt & Htj & Hne & Hut).
  pose proof (no_rows d s id Ht) as Hno.
  unfold RunStore.Complete in *. destruct Ht as [Hs Hr He]. unfold marshalJSON. rewrite Htj.
  exists (update_run id (completed_row now sm jt) d).1. split.
  - eapply yields_bind; [apply yields_ret|]. eapply yields_bind; [apply yields_ret|].
    eapply yields_bind; [apply yields_stmt|]. cbn [update_run snd]. destruct (RunStore.st_runs s !! id) eqn:E.
    + rewrite decide_False; [apply yields_ret|]. by intros [=]%Hno.
    + rewrite decide_True by (by apply Hno). apply yields_raise.
  - destruct (RunStore.st_runs s !! id) as [old|] eqn:E.
    + rewrite RunStore.cloneRunRecord_id in *. split; [exact Hok| |].
      * apply (update_rows _ _ _ _ old); [exact Hr|apply Hs|apply Hs|exact E|].
        intros row Ho. pose proof (completed_row_of now sm jt old row Hut Hne Hnow Ho) as Hc. by destruct sm.
      * intros id'. destruct (He id') as (rows & H1 & H2). exists rows. split; [exact H1|]. by destruct d.
    + assert ((update_run id (completed_row now sm jt) d).1 = d) as ->; [|by split].
      assert (length (filter (λ r, row_RunID r = id) (agent_runs d)) = 0%nat) as Hf by (by apply Hno).
      apply length_zero_iff_nil, filter_nil_Forall in Hf. unfold update_run. cbn. destruct d as [ck de ru ev]. cbn in *.
      unfold upd. cbn. f_equal. rewrite <-(list_fmap_id ru) at 2. apply list_fmap_ext. intros i row Hi.
      rewrite Forall_forall in Hf. by rewrite decide_False by (by eapply Hf, list_elem_of_lookup_2).
Qed.

Lemma AppendEvent_stores now s event r :
  ¬ Blank (RunStore.ev_RunID event) → RunStore.st_runs s !! RunStore.ev_RunID event = Some r →
  let id := RunStore.ev_RunID event in
  let e := stamp_event now (event <| RunStore.ev_Sequence := Z.of_nat (length (RunStore.log s id)) + 1 |>) in
  RunStore.AppendEvent None now s event =
    (RunStore.mkStore (RunStore.st_runs s) (<[id := RunStore.log s id ++ [e]]> (RunStore.st_events s)) (RunStore.st_order s), None).
Proof.
  intros Hb Hr. unfold RunStore.AppendEvent. rewrite decide_False, Hr by done. cbv zeta.
  rewrite RunStore.cloneRunEvent_id. unfold stamp_event. destruct event as [id seq ty stage it msg md rec]. cbn.
  by destruct (decide (IsZero rec)).
Qed.

(** A row numbered after the events of its run. *)
Lemma append_row d s id rows e row :
  run_tables d s → Forall2 event_of (RunStore.log s id) rows → events_at d id rows →
  er_RunID row = id → er_Sequence row = Z.of_nat (length (RunStore.log s id)) + 1 → event_of e row →
  let s' := RunStore.mkStore (RunStore.st_runs s) (<[id := RunStore.log s id ++ [e]]> (RunStore.st_events s)) (RunStore.st_order s) in
  RunStore.store_ok s' → ∃ d', insert_event row d = (d', true) ∧ run_tables d' s'.
Proof.
  intros Ht Hf Hat Hid Hseq Ho s' Hok. pose proof (Forall2_length _ _ _ Hf) as Hlen. unfold insert_event, events_at in *.
  rewrite Hid, Hseq, Hat, decide_True by lia. rewrite lookup_ge_None_2 by lia. eexists. split; [reflexivity|].
  destruct Ht as [Hs Hr He]. split; [exact Hok|destruct d; exact Hr|]. intros id'. subst s'. rewrite RunStore.log_append.
  destruct (decide (id' = id)) as [->|Hne'].
  - exists (rows ++ [row]). split; [apply Forall2_app; [done|by constructor]|]. intros k. destruct d as [ck de ru ev]. cbn in *.
    destruct (decide (k = Z.of_nat (length (RunStore.log s id)) + 1)) as [->|Hk].
    + rewrite lookup_insert_eq, decide_True by lia. rewrite lookup_app_r by lia.
      by replace (_ - length rows)%nat with 0%nat by lia.
    + rewrite lookup_insert_ne by congruence. rewrite (Hat k). case_decide; [|done].
      destruct (decide (Z.to_nat (k - 1) < length rows)%nat); [by rewrite lookup_app_l|].
      rewrite !lookup_ge_None_2; [done| |lia]. rewrite length_app. cbn. lia.
  - rewrite app_nil_r. destruct (He id') as (rows' & H1 & H2). exists rows'. split; [done|]. intros k.
    destruct d as [ck de ru ev]. cbn in *. rewrite lookup_insert_ne by congruence. apply H2.
Qed.

Lemma AppendEvent_refines ctx now d s event :
  run_tables d s → is_Some (marshal_metadata (RunStore.ev_Metadata event)) → storable now →
  (RunStore.ev_RecordedAt event = 0 ∨ storable (RunStore.ev_RecordedAt event)) →
  saves (RunStore.AppendEvent ctx now s (clean_event event)) (AppendEvent no_fault alone ctx now event) d.
Proof.
  intros Ht [jm Hm] Hnow Hrec.
  pose proof (RunStore.exec_ok s (ctx, now, RunStore.OpAppend (clean_event event)) (rt_ok _ _ Ht)) as Hok.
  cbn [RunStore.exec] in Hok. unfold saves, AppendEvent.
  destruct ctx as [e|]; [exists d; split; [apply yields_bind_err, yields_raise|done]|].
  destruct (metadata_json _ _ Hm) as [Hne Hum].
  destruct (decide (Blank (RunStore.ev_RunID event))) as [Hb|Hb].
  { exists d. unfold RunStore.AppendEvent. rewrite decide_True by (by destruct event). split; [|done].
    eapply yields_bind; [apply yields_ret|]. apply yields_raise. }
  pose proof (requireRun_refines true d s (RunStore.ev_RunID event) Ht) as Hreq.
  assert (∃ event', stamp_event now event = event' ∧ RunStore.ev_RunID event' = RunStore.ev_RunID event ∧
    RunStore.ev_Metadata event' = RunStore.ev_Metadata event ∧ storable (RunStore.ev_RecordedAt event')) as (event' & Hst & Hid & Hmd & Hrec').
  { eexists. split; [reflexivity|]. destruct event. unfold stamp_event. cbn in *.
    destruct (decide (IsZero _)); cbn; [done|]. by destruct Hrec. }
  rewrite Hst. cbv zeta. rewrite Hid, Hmd. unfold marshalJSON. rewrite Hm.
  destruct (RunStore.st_runs s !! RunStore.ev_RunID event) as [r|] eqn:E.
  - rewrite (AppendEvent_stores now s (clean_event event) r) in Hok |- *; [|by destruct event..].
    destruct (rt_events _ _ Ht (RunStore.ev_RunID event)) as (rows & Hf & Hat).
    destruct (append_row d s (RunStore.ev_RunID event) rows
      (stamp_event now (clean_event event <| RunStore.ev_Sequence := Z.of_nat (length (RunStore.log s (RunStore.ev_RunID event))) + 1 |>))
      (mkEventRow (RunStore.ev_RunID event) (Z.of_nat (length (RunStore.log s (RunStore.ev_RunID event))) + 1)
         (RunStore.ev_Type event') (RunStore.ev_Stage event') (RunStore.ev_Iteration event') (RunStore.ev_Message event')
         jm (text_of (RunStore.ev_RecordedAt event')))) as (d' & Hins & Ht'); [done..| |exact Hok|].
    { rewrite <-Hst in *. clear -Hne Hum Hrec'. destruct event as [id seq ty stage it msg md rec]. unfold stamp_event in *. cbn in *.
      destruct (decide (IsZero rec)); (split; [done..|]); intros w; unfold decodeEvent, bind; cbn;
        rewrite (unmarshal_json _ _ _ _ _ Hne Hum); cbn in *; by rewrite text_read. }
    exists d'. split; [|exact Ht'].
    eapply yields_bind; [apply yields_ret|]. eapply yields_bind; [apply yields_ret|].
    apply (yields_tx _ _ d' (Ok ())). eapply yields_bind; [exact Hreq|]. eapply yields_bind; [apply yields_query|].
    rewrite (next_sequence_rows _ _ _ _ Ht Hf Hat). eapply yields_bind; [by eapply yields_stmt_eq|]. apply yields_ret.
  - exists d. unfold RunStore.AppendEvent. rewrite decide_False by (by destruct event).
    change (RunStore.ev_RunID (clean_event event)) with (RunStore.ev_RunID event). rewrite E. split; [|done].
    eapply yields_bind; [apply yields_ret|]. eapply yields_bind; [apply yields_ret|].
    eapply (yields_tx _ _ _ (Err _)), yields_bind_err, Hreq.
Qed.

Lemma Find_refines ctx d s wf :
  run_tables d s → yields (FindByWorkflowID no_fault alone ctx wf) d d
    (match RunStore.FindByWorkflowID ctx s wf with
     | Ok l => Ok (sort_slice (key_less Z.lt RunStore.CreatedAt) l)
     | Err e => Err (RunError e)
     end).
Proof.
  intros Ht. destruct ctx as [e|]; [apply yields_bind_err, yields_raise|].
  eapply yields_bind; [apply yields_ret|]. eapply yields_bind; [apply yields_query|].
  cbn [RunStore.FindByWorkflowID].
  assert (∀ l : list RunStore.RunRecord, RunStore.cloneRunRecord <$> l = l) as Hclone.
  { intros l. rewrite (list_fmap_ext _ id), list_fmap_id; [done|]. intros. apply RunStore.cloneRunRecord_id. }
  rewrite Hclone. intros t. exists t. apply decode_rows_all.
  assert (Forall2 run_of (RunStore.record_at s <$> RunStore.st_order s) (agent_runs d)) as Hf.
  { apply Forall2_fmap_l. eapply Forall2_impl; [apply (rt_runs _ _ Ht)|]. cbn. intros id row (r & Hr & Ho).
    unfold RunStore.record_at. by rewrite Hr. }
  eapply Forall2_impl; [apply (Forall2_sort_related run_of _ (key_less str_lt row_CreatedAt))|].
  - intros r r' row row' Ho Ho'. unfold key_less. rewrite (ro_created _ _ Ho), (ro_created _ _ Ho').
    rewrite text_order; [done|apply Ho|apply Ho'].
  - apply (Forall2_filter_related run_of); [|exact Hf]. intros r row Ho. by rewrite (ro_workflow _ _ Ho).
  - intros r row Ho. apply Ho.
Qed.

(** * Histories *)

Inductive run_call :=
| CallCreate (r : RunStore.RunRecord)
| CallAppend (e : RunStore.RunEvent)
| CallComplete (id : string) (sm : RunStore.TerminalSummary)
| CallGet (id : string)
| CallEvents (id : string)
| CallFind (wf : string).

Inductive run_reply :=
| Saved
| ARun (r : RunStore.RunRecord)
| SomeEvents (l : list RunStore.RunEvent)
| SomeRuns (l : list RunStore.RunRecord).

(** A call on the SQLite store, and on the in-memory store with the values JSON keeps. The SQLite
store lists the runs of a workflow by their times. *)
Definition sql_run_call (ctx : Ctx) (now : Time) (q : run_call) : M run_reply :=
  match q with
  | CallCreate r => bind (Create no_fault alone ctx now r) (λ _, ret Saved)
  | CallAppend e => bind (AppendEvent no_fault alone ctx now e) (λ _, ret Saved)
  | CallComplete id sm => bind (Complete no_fault alone ctx now id sm) (λ _, ret Saved)
  | CallGet id => bind (Get no_fault alone ctx id) (λ r, ret (ARun r))
  | CallEvents id => bind (Events no_fault alone ctx id) (λ l, ret (SomeEvents l))
  | CallFind wf => bind (FindByWorkflowID no_fault alone ctx wf) (λ l, ret (SomeRuns l))
  end.
Definition saved (p : RunStore.MemoryStore * option RunStore.Error) : RunStore.MemoryStore * res Error run_reply :=
  (p.1, map_res (λ _, Saved) (run_unit p.2)).
Definition mem_run_call (ctx : Ctx) (now : Time) (s : RunStore.MemoryStore) (q : run_call)
    : RunStore.MemoryStore * res Error run_reply :=
  match q with
  | CallCreate r => saved (RunStore.Create ctx now s (clean_record r))
  | CallAppend e => saved (RunStore.AppendEvent ctx now s (clean_event e))
  | CallComplete id sm => saved (RunStore.Complete ctx now s id (clean_summary sm))
  | CallGet id => (s, map_res ARun (run_error (RunStore.Get ctx s id)))
  | CallEvents id => (s, map_res SomeEvents (run_error (RunStore.Events ctx s id)))
  | CallFind wf => (s, map_res (λ l, SomeRuns (sort_slice (key_less Z.lt RunStore.CreatedAt) l))
                         (run_error (RunStore.FindByWorkflowID ctx s wf)))
  end.

(** Metadata with a JSON, and times that can be stored. *)
Definition run_call_ok (now : Time) (q : run_call) : Prop :=
  storable now ∧
  match q with
  | CallCreate r => is_Some (marshal_metadata (RunStore.RecMetadata r)) ∧
                    (RunStore.CreatedAt r = 0 ∨ storable (RunStore.CreatedAt r))
  | CallAppend e => is_Some (marshal_metadata (RunStore.ev_Metadata e)) ∧
                    (RunStore.ev_RecordedAt e = 0 ∨ storable (RunStore.ev_RecordedAt e))
  | _ => True
  end.

Lemma run_call_refines ctx now d s q :
  run_tables d s → run_call_ok now q →
  ∃ d', yields (sql_run_call ctx now q) d d' (mem_run_call ctx now s q).2 ∧ run_tables d' (mem_run_call ctx now s q).1.
Proof.
  intros Ht [Hnow Hq]. destruct q as [r|e|id sm|id|id|wf]; cbn [sql_run_call mem_run_call saved fst snd].
  - destruct Hq as [Hm Hc]. destruct (Create_refines ctx now d s r Ht Hm Hnow Hc) as (d' & Hy & Ht').
    exists d'. split; [by apply yields_then|done].
  - destruct Hq as [Hm Hc]. destruct (AppendEvent_refines ctx now d s e Ht Hm Hnow Hc) as (d' & Hy & Ht').
    exists d'. split; [by apply yields_then|done].
  - destruct (Complete_refines ctx now d s id sm Ht Hnow) as (d' & Hy & Ht').
    exists d'. split; [by apply yields_then|done].
  - exists d. split; [by apply yields_then, Get_refines|done].
  - exists d. split; [by apply yields_then, Events_refines|done].
  - exists d. split; [|done]. pose proof (Find_refines ctx d s wf Ht) as H.
    destruct (RunStore.FindByWorkflowID ctx s wf) as [l|e]; by apply (yields_then _ SomeRuns) in H.
Qed.

Fixpoint sql_run_calls (w : World DB) (qs : list (Ctx * Time * run_call)) : World DB * list (res Error run_reply) :=
  match qs with
  | [] => (w, [])
  | (ctx, now, q) :: qs =>
      let '(w, r) := sql_run_call ctx now q w in
      let '(w, rs) := sql_run_calls w qs in (w, r :: rs)
  end.
Fixpoint mem_run_calls (s : RunStore.MemoryStore) (qs : list (Ctx * Time * run_call))
    : RunStore.MemoryStore * list (res Error run_reply) :=
  match qs with
  | [] => (s, [])
  | (ctx, now, q) :: qs =>
      let '(s, r) := mem_run_call ctx now s q in
      let '(s, rs) := mem_run_calls s qs in (s, r :: rs)
  end.

Lemma run_calls_refine qs s w :
  Forall (λ p, run_call_ok p.1.2 p.2) qs → run_tables (w_db w) s →
  (sql_run_calls w qs).2 = (mem_run_calls s qs).2 ∧ run_tables (w_db (sql_run_calls w qs).1) (mem_run_calls s qs).1.
Proof.
  revert s w. induction qs as [|[[ctx now] q] qs IH]; intros s w Hok Ht; [done|].
  apply Forall_cons in Hok as [Hq Hqs]. destruct w as [d t].
  destruct (run_call_refines ctx now d s q Ht Hq) as (d' & Hy & Ht'). destruct (Hy t) as [t' E].
  cbn [sql_run_calls mem_run_calls]. rewrite E. destruct (mem_run_call ctx now s q) as [s' r]. cbn in *.
  destruct (IH s' (mkWorld d' t') Hqs Ht') as [H1 H2]. destruct (sql_run_calls _ qs), (mem_run_calls s' qs). cbn in *.
  by rewrite H1.
Qed.

Lemma run_tables_new : run_tables new_db RunStore.NewMemoryStore.
Proof.
  split; [apply RunStore.NewMemoryStore_ok|constructor|]. intros id. exists []. split; [constructor|].
  intros k. cbn. rewrite lookup_empty. by case_decide.
Qed.

(** C39: The run store over SQLite implements the in-memory store, except for the order of one
listing: from empty tables, any sequence of creations, appended events, completions, reads,
event listings and workflow listings, one after the other, without driver failures and other
clients, gets the replies of the in-memory store on the values JSON keeps, and the tables hold
exactly its runs and its logs, numbered 1, 2, 3 and so on. The runs of a workflow are listed by
creation time, as the statement of the code says; the in-memory store and the
contract tests ([storetest.go]) list them as they were created. The conditions ([run_call_ok]): the
clock is storable, metadata that is written has a JSON, and a creation or recording time is
zero or storable, where storable times ([TimeTextLaws]) are any for which the driver's text
reads back as the time and sorts as the times do; JSON reads back what it wrote, up to
its normalisation ([RunJsonLaws]). *)
Theorem sqlite_runs_refine qs :
  Forall (λ p, run_call_ok p.1.2 p.2) qs →
  (sql_run_calls (mkWorld new_db 0) qs).2 = (mem_run_calls RunStore.NewMemoryStore qs).2 ∧
  run_tables (w_db (sql_run_calls (mkWorld new_db 0) qs).1) (mem_run_calls RunStore.NewMemoryStore qs).1.
Proof. intros Hok. apply run_calls_refine; [done|apply run_tables_new]. Qed.

End records.

(** * A concrete encoding *)

(** Every byte of a string after a mark, and a mark at its end. *)
Fixpoint put_string (s rest : string) : string :=
  match s with
  | EmptyString => String "e"%char rest
  | String c s => String "c"%char (String c (put_string s rest))
  end.
Fixpoint put_strings (l : list string) : string :=
  match l with [] => "" | s :: l => put_string s (put_strings l) end.
Fixpoint get_strings (data : string) : list string :=
  match data with
  | String m data =>
      if decide (m = "e"%char) then "" :: get_strings data
      else match data with
           | String c data =>
               match get_strings data with s :: l => String c s :: l | [] => [] end
           | EmptyString => []
           end
  | EmptyString => []
  end.

Lemma get_put_string s rest : get_strings (put_string s rest) = s :: get_strings rest.
Proof. induction s as [|c s IH]; cbn; [done|]. by rewrite IH. Qed.
Lemma get_put_strings l : get_strings (put_strings l) = l.
Proof. induction l as [|s l IH]; cbn; [done|]. by rewrite get_put_string, IH. Qed.

Definition marked_json : RunJson := {|
  marshal_tools l := Some (String "["%char (put_strings l));
  unmarshal_tools data := match data with String _ data => Some (get_strings data) | EmptyString => None end;
  marshal_metadata m := if decide (m = ∅) then Some "{}" else None;
  unmarshal_metadata data := Some ∅
|}.
Definition marked_laws : RunJsonLaws (J := marked_json).
Proof.
  refine {| clean_tools l := l; clean_metadata m := m |}.
  - intros l. eexists. split; [reflexivity|]. split; [done|]. cbn. by rewrite get_put_strings.
  - intros m j. cbn. destruct (decide (m = ∅)) as [->|]; [|done]. by intros [= <-].
Defined.

(** Two runs of a workflow, the later one created first; events and a completion of the first. *)
Definition demo_run (id : string) (created : Time) : RunStore.RunRecord :=
  RunStore.mkRecord id "wf" "" RunStore.StatusRunning RunStore.zeroSummary ∅ created 0.
Definition demo_event (ty : string) : RunStore.RunEvent := RunStore.mkEvent "a" 0 ty "" 0 "" ∅ 0.
Definition demo_run_calls : list (Ctx * Time * run_call) :=
  [(None, 10, CallCreate (demo_run "a" 9)); (None, 11, CallCreate (demo_run "b" 2));
   (None, 12, CallAppend (demo_event "start")); (None, 13, CallAppend (demo_event "stop"));
   (None, 14, CallComplete "a" (RunStore.mkSummary RunStore.StatusSucceeded "" "" 1 2 1 1 ["grep"; "ls"]));
   (None, 15, CallGet "a"); (None, 16, CallEvents "a"); (None, 17, CallEvents "c"); (None, 18, CallFind "wf")].

Lemma sqlite_runs_refine_witness :
  let out := (sql_run_calls (T := unary_text) (J := marked_json) (mkWorld new_db 0) demo_run_calls).2 in
  out = (mem_run_calls (JL := marked_laws) RunStore.NewMemoryStore demo_run_calls).2 ∧
  (λ r, match r with
        | Ok Saved => ["saved"]
        | Ok (ARun r) => RunStore.RecStatus r :: RunStore.sum_UsedTools (RunStore.Summary r)
        | Ok (SomeEvents l) => RunStore.ev_Type <$> l
        | Ok (SomeRuns l) => RunStore.RunID <$> l
        | Err _ => ["error"]
        end) <$> drop 4 out
  = [["saved"]; ["succeeded"; "grep"; "ls"]; ["start"; "stop"]; ["error"]; ["b"; "a"]].
Proof.
  split; [|vm_compute; reflexivity].
  apply (sqlite_runs_refine (L := unary_laws) (JL := marked_laws) demo_run_calls).
  repeat constructor; simpl; try (vm_compute; congruence); try (by left); try (right; vm_compute; congruence); by eexists.
Defined.

End RunSqlRecords.
