(* ===== verification/ApprovalCrypto.v ===== *)
(** Encryption of approval checkpoints: [src/runkit/approvalcrypto/aesgcm.go] and
[keychain.go].

AES-256-GCM, SHA-256, the JSON encoding of the envelope and the key provider are
parameters; what the code relies on of them is stated as hypotheses where it
is used. *)

From Stdlib Require Import Strings.Byte.
From S2P Require Import Prelude.

Module Crypto.

Abbreviation bytes := (list byte).
Definition str_bytes (s : string) : bytes := String.list_byte_of_string s.

#[global] Instance byte_eq_dec : EqDecision byte := Byte.byte_eq_dec.

Definition envelopeVersion : Z := 2.

Inductive Error :=
| ErrInvalidKeyProvider
| ErrInvalidKeyMaterial
| ErrInvalidEnvelope (detail : string)
| ErrKeyMaterialChanged
| ErrKeyMaterialUnavailable (detail : string)
| ErrSecret (text : string)
| ErrNonce
| ErrEncode
| ErrCtx (e : CtxErr).

Record KeyMaterial := mkKey { key_ID : string; key_Bytes : bytes }.

Record ciphertextEnvelope := mkEnvelope {
  env_Version : Z;
  env_KeyID : string;
  env_KeyFingerprint : string;
  env_Nonce : bytes;
  env_Ciphertext : bytes
}.
#[global] Instance eta_ciphertextEnvelope : Eta ciphertextEnvelope := λ e,
  mkEnvelope (env_Version e) (env_KeyID e) (env_KeyFingerprint e) (env_Nonce e)
    (env_Ciphertext e).

(** * Associated data *)

Definition byte_of (n : N) : byte := default x00 (Byte.of_N (n mod 256)).

(** [binary.AppendUvarint]: seven bits per byte, low bits first, the high bit of
a byte set when more follow. Nine continuation bytes are enough for a uint64. *)
Fixpoint uvarint (fuel : nat) (x : N) : bytes :=
  match fuel with
  | O => [byte_of x]
  | S fuel =>
      if decide (128 ≤ x)%N then byte_of (N.lor (x mod 256) 128) :: uvarint fuel (x / 128)
      else [byte_of x]
  end.
Definition AppendUvarint (out : bytes) (x : N) : bytes := out ++ uvarint 9 x.

(** [uint64] of an [int]. *)
Definition uint64 (z : Z) : N := Z.to_N (z mod 2^64).

(** [ciphertextEnvelope.sealedAAD]. *)
Definition sealedAAD (e : ciphertextEnvelope) (aad : bytes) : bytes :=
  let out := str_bytes "goagents/approvalcrypto" in
  let out := AppendUvarint out (uint64 (env_Version e)) in
  let out := foldl (λ out field,
    AppendUvarint out (uint64 (Z.of_nat (String.length field))) ++ str_bytes field)
    out [env_KeyID e; env_KeyFingerprint e] in
  out ++ aad.

(** * Keys *)

(** [hex.EncodeToString]. *)
Definition hex_digit (n : N) : ascii :=
  ascii_of_N (if decide (n < 10)%N then 48 + n else 87 + n).
Fixpoint hex_encode (l : bytes) : string :=
  match l with
  | [] => ""
  | b :: l => String (hex_digit (Byte.to_N b / 16)) (String (hex_digit (Byte.to_N b mod 16)) (hex_encode l))
  end.

(** [aead.NonceSize()] of GCM. *)
Definition gcmNonceSize : nat := 12.

(** The checks of [newAEAD]; [aes.NewCipher] accepts 32-byte keys. *)
Definition newAEAD (key : KeyMaterial) : option Error :=
  if decide (Blank (key_ID key) ∨ length (key_Bytes key) ≠ 32)
  then Some ErrInvalidKeyMaterial else None.

Section cipher.
(** SHA-256, and AES-256-GCM by key, nonce and associated data. *)
Context (sha256 : bytes → bytes).
Context (Seal : bytes → bytes → bytes → bytes → bytes).
Context (Open : bytes → bytes → bytes → bytes → option bytes).
(** JSON encoding of envelopes. *)
Context (marshal : ciphertextEnvelope → option bytes).
Context (unmarshal : bytes → option ciphertextEnvelope).
(** The key provider. *)
Context (Active : Ctx → res Error KeyMaterial) (Resolve : Ctx → string → res Error KeyMaterial).

Definition keyFingerprint (key : KeyMaterial) : string :=
  let digest := sha256 (str_bytes "goagents/approvalcrypto key fingerprint" ++ [x00] ++
                        key_Bytes key) in
  hex_encode (take 8 digest).

(** [Encrypt]; [nonce] is what [rand.Read] fills in, or its error. *)
Definition Encrypt (nonce : option bytes) (ctx : Ctx) (plaintext aad : bytes) : res Error bytes :=
  let? key := Active ctx in
  match newAEAD key with
  | Some e => Err e
  | None =>
      match nonce with
      | None => Err ErrNonce
      | Some nonce =>
          let header := mkEnvelope envelopeVersion (key_ID key) (keyFingerprint key) [] [] in
          let header := header <| env_Nonce := nonce |> in
          let header := header <| env_Ciphertext :=
            Seal (key_Bytes key) nonce plaintext (sealedAAD header aad) |> in
          match marshal header with
          | None => Err ErrEncode
          | Some envelope => Ok envelope
          end
      end
  end.

Definition Decrypt (ctx : Ctx) (encoded aad : bytes) : res Error bytes :=
  match unmarshal encoded with
  | None => Err (ErrInvalidEnvelope "decode")
  | Some envelope =>
      if decide (env_Version envelope ≠ envelopeVersion ∨ Blank (env_KeyID envelope) ∨
                 env_KeyFingerprint envelope = "" ∨ length (env_Nonce envelope) = 0 ∨
                 length (env_Ciphertext envelope) = 0)
      then Err (ErrInvalidEnvelope "")
      else
        let? key := Resolve ctx (env_KeyID envelope) in
        if decide (key_ID key ≠ env_KeyID envelope) then Err ErrInvalidKeyMaterial
        else if decide (keyFingerprint key ≠ env_KeyFingerprint envelope)
        then Err ErrKeyMaterialChanged
        else
          match newAEAD key with
          | Some e => Err e
          | None =>
              if decide (length (env_Nonce envelope) ≠ gcmNonceSize)
              then Err (ErrInvalidEnvelope "")
              else
                match Open (key_Bytes key) (env_Nonce envelope) (env_Ciphertext envelope)
                        (sealedAAD envelope aad) with
                | None => Err (ErrInvalidEnvelope "authentication")
                | Some plaintext => Ok plaintext
                end
          end
  end.

End cipher.

(** * The associated data is injective *)

Lemma byte_of_inj x y : (x < 256)%N → (y < 256)%N → byte_of x = byte_of y → x = y.
Proof.
  intros Hx Hy. unfold byte_of. rewrite !N.mod_small by done.
  destruct (Byte.of_N x) as [a|] eqn:Ha; [|apply Byte.of_N_None_iff in Ha; lia].
  destruct (Byte.of_N y) as [b|] eqn:Hb; [|apply Byte.of_N_None_iff in Hb; lia].
  simpl. intros ->. apply Byte.to_of_N in Ha, Hb. congruence.
Qed.

(** The byte of a digit with its continuation bit. *)
Lemma lor_high x : N.lor (x mod 256) 128 = (x mod 128 + 128)%N.
Proof.
  assert (Forall (λ d, N.lor (N.of_nat d) 128 = N.of_nat d mod 128 + 128)%N (seq 0 256)) as Hall
    by (apply (bool_decide_unpack _); by vm_compute).
  pose proof (N.mod_lt x 256 ltac:(done)) as Hlt.
  rewrite Forall_forall in Hall. specialize (Hall (N.to_nat (x mod 256))).
  rewrite N2Nat.id in Hall. rewrite Hall.
  2:{ apply elem_of_seq. clear Hall. revert Hlt. generalize (x mod 256)%N. lia. }
  f_equal.
  replace 256%N with (128 * 2)%N by done. rewrite N.Div0.mod_mul_r.
  rewrite (N.mul_comm 128), N.Div0.mod_add. apply N.Div0.mod_mod.
Qed.

Lemma uvarint_inj fuel x y r r' :
  (x < 2 ^ (7 * N.of_nat (S fuel)))%N → (y < 2 ^ (7 * N.of_nat (S fuel)))%N →
  uvarint fuel x ++ r = uvarint fuel y ++ r' → x = y ∧ r = r'.
Proof.
  revert x y. induction fuel as [|fuel IH]; intros x y Hx Hy; simpl uvarint.
  { intros [= Hb ->]. change (2 ^ (7 * N.of_nat 1))%N with 128%N in *.
    split; [|done]. apply byte_of_inj in Hb; lia. }
  assert (∀ z, (z < 2 ^ (7 * N.of_nat (S (S fuel))))%N →
    (z / 128 < 2 ^ (7 * N.of_nat (S fuel)))%N) as Hdiv.
  { intros z Hz. apply N.Div0.div_lt_upper_bound. change 128%N with (2 ^ 7)%N.
    rewrite <-N.pow_add_r. by replace (7 + 7 * N.of_nat (S fuel))%N
      with (7 * N.of_nat (S (S fuel)))%N by lia. }
  rewrite !lor_high.
  pose proof (N.mod_lt x 128 ltac:(done)). pose proof (N.mod_lt y 128 ltac:(done)).
  pose proof (N.div_mod' x 128) as Hxd. pose proof (N.div_mod' y 128) as Hyd.
  pose proof (Hdiv x Hx) as Hqx. pose proof (Hdiv y Hy) as Hqy. clear Hdiv Hx Hy.
  generalize dependent (x / 128)%N. generalize dependent (x mod 128)%N.
  generalize dependent (y / 128)%N. generalize dependent (y mod 128)%N.
  intros my Hmy qy Hyd Hqy mx Hmx qx Hxd Hqx.
  repeat case_decide; simpl; intros [= Hb Hr]; apply byte_of_inj in Hb; try lia.
  - apply IH in Hr as [Hq ->]; [|done..]. split; [lia|done].
  - by split.
Qed.

Lemma str_bytes_app_inj s t r r' :
  String.length s = String.length t → str_bytes s ++ r = str_bytes t ++ r' → s = t ∧ r = r'.
Proof.
  unfold str_bytes. revert t. induction s as [|a s IH]; intros [|b t]; simpl; try done.
  intros [= Hl] [= Hb Hr]. destruct (IH t Hl Hr) as [-> ->]. split; [|done]. f_equal.
  rewrite <-(ascii_of_byte_of_ascii a), <-(ascii_of_byte_of_ascii b). by rewrite Hb.
Qed.

(** Lengths of Go strings and their conversion. *)
Definition go_len (s : string) : Prop := (Z.of_nat (String.length s) < 2^63)%Z.
Definition int64_range (z : Z) : Prop := (min_int64 ≤ z ≤ max_int64)%Z.

Lemma uint64_bound z : (uint64 z < 2 ^ (7 * N.of_nat 10))%N.
Proof.
  unfold uint64. pose proof (Z.mod_pos_bound z (2^64) ltac:(lia)). simpl. lia.
Qed.

Lemma uint64_inj a b : int64_range a → int64_range b → uint64 a = uint64 b → a = b.
Proof.
  unfold int64_range, min_int64, max_int64, uint64. intros Ha Hb Heq.
  pose proof (Z.mod_pos_bound a (2^64) ltac:(lia)). pose proof (Z.mod_pos_bound b (2^64) ltac:(lia)).
  assert (a mod 2^64 = b mod 2^64)%Z by lia.
  pose proof (Z.div_mod a (2^64) ltac:(lia)). pose proof (Z.div_mod b (2^64) ltac:(lia)). nia.
Qed.

Lemma field_inj s t r r' :
  go_len s → go_len t →
  uvarint 9 (uint64 (Z.of_nat (String.length s))) ++ str_bytes s ++ r =
  uvarint 9 (uint64 (Z.of_nat (String.length t))) ++ str_bytes t ++ r' → s = t ∧ r = r'.
Proof.
  unfold go_len. intros Hs Ht Heq. apply uvarint_inj in Heq as [Hl Hr]; [|apply uint64_bound..].
  apply uint64_inj in Hl; [|unfold int64_range, min_int64, max_int64; lia..].
  by apply str_bytes_app_inj in Hr; [|lia].
Qed.

Lemma sealedAAD_eq e aad :
  sealedAAD e aad = str_bytes "goagents/approvalcrypto" ++ uvarint 9 (uint64 (env_Version e)) ++
    uvarint 9 (uint64 (Z.of_nat (String.length (env_KeyID e)))) ++ str_bytes (env_KeyID e) ++
    uvarint 9 (uint64 (Z.of_nat (String.length (env_KeyFingerprint e)))) ++
    str_bytes (env_KeyFingerprint e) ++ aad.
Proof. unfold sealedAAD, AppendUvarint. cbn [foldl]. by rewrite <-!(assoc_L (++)). Qed.

(** The associated data is an injective encoding: two envelope headers and
two caller bindings that give the same bytes are equal in version, key ID,
fingerprint and binding, so no two headers or checkpoints encode alike. *)
Theorem sealedAAD_injective e e' aad aad' :
  int64_range (env_Version e) → int64_range (env_Version e') →
  go_len (env_KeyID e) → go_len (env_KeyID e') →
  go_len (env_KeyFingerprint e) → go_len (env_KeyFingerprint e') →
  sealedAAD e aad = sealedAAD e' aad' →
  env_Version e = env_Version e' ∧ env_KeyID e = env_KeyID e' ∧
  env_KeyFingerprint e = env_KeyFingerprint e' ∧ aad = aad'.
Proof.
  rewrite !sealedAAD_eq. intros Hv Hv' Hk Hk' Hf Hf' Heq%app_inv_head.
  apply uvarint_inj in Heq as [Hver Heq]; [|apply uint64_bound..].
  apply uint64_inj in Hver; [|done..].
  apply field_inj in Heq as [Hkid Heq]; [|done..].
  by apply field_inj in Heq as [Hfp ->]; [|done..].
Qed.

(** * Encryption and decryption *)

Section properties.
Context (sha256 : bytes → bytes).
Context (Seal : bytes → bytes → bytes → bytes → bytes).
Context (Open : bytes → bytes → bytes → bytes → option bytes).
Context (marshal : ciphertextEnvelope → option bytes).
Context (unmarshal : bytes → option ciphertextEnvelope).
Context (Active : Ctx → res Error KeyMaterial) (Resolve : Ctx → string → res Error KeyMaterial).

(** GCM: [Open] undoes [Seal] and accepts nothing else; a sealed message is not
empty (it ends with the tag). SHA-256 digests are not empty. JSON decodes what
it encoded. *)
Definition gcm_ok : Prop :=
  (∀ k n p a, Open k n (Seal k n p a) a = Some p) ∧
  (∀ k n c a p, Open k n c a = Some p → c = Seal k n p a) ∧
  (∀ k n p a, Seal k n p a ≠ []).
Definition sha_ok : Prop := ∀ b, sha256 b ≠ [].
Definition json_ok : Prop := ∀ e b, marshal e = Some b → unmarshal b = Some e.
(** The ideal AEAD: sealed messages with different associated data differ. *)
Definition gcm_binding : Prop :=
  ∀ k n p p' a a', Seal k n p a = Seal k n p' a' → a = a'.

Abbreviation encrypt := (Encrypt sha256 Seal marshal Active).
Abbreviation decrypt := (Decrypt sha256 Open unmarshal Resolve).

Lemma hex_encode_nonempty l : l ≠ [] → hex_encode l ≠ "".
Proof. by destruct l. Qed.

(** What a successful encryption stored. *)
Lemma Encrypt_ok nonce ctx plaintext aad encoded :
  encrypt nonce ctx plaintext aad = Ok encoded →
  ∃ key n, Active ctx = Ok key ∧ newAEAD key = None ∧ nonce = Some n ∧
    let header := mkEnvelope envelopeVersion (key_ID key) (keyFingerprint sha256 key) n [] in
    marshal (header <| env_Ciphertext :=
      Seal (key_Bytes key) n plaintext (sealedAAD header aad) |>) = Some encoded.
Proof.
  unfold Encrypt. destruct (Active ctx) as [key|]; simpl; [|done].
  destruct (newAEAD key) eqn:Hk; [done|]. destruct nonce as [n|]; [|done].
  destruct (marshal _) eqn:Hm; [|done]. intros [= <-]. eauto 10.
Qed.

(** Decryption of an envelope this package sealed under the key that [Resolve]
still returns: only the authentication is left. *)
Lemma Decrypt_sealed ctx key n plaintext aad encoded aad' :
  sha_ok → json_ok → gcm_ok → newAEAD key = None → length n = gcmNonceSize →
  Resolve ctx (key_ID key) = Ok key →
  let header := mkEnvelope envelopeVersion (key_ID key) (keyFingerprint sha256 key) n [] in
  marshal (header <| env_Ciphertext :=
    Seal (key_Bytes key) n plaintext (sealedAAD header aad) |>) = Some encoded →
  decrypt ctx encoded aad' =
  match Open (key_Bytes key) n (Seal (key_Bytes key) n plaintext (sealedAAD header aad))
          (sealedAAD header aad') with
  | None => Err (ErrInvalidEnvelope "authentication")
  | Some p => Ok p
  end.
Proof.
  intros Hsha Hjson (_ & _ & Hne) Hkey Hn Hres header Hm%Hjson. unfold Decrypt. rewrite Hm.
  assert (¬ Blank (key_ID key)) as Hblank.
  { unfold newAEAD in Hkey. case_decide as Hv; [done|]. tauto. }
  rewrite decide_False.
  2:{ simpl. intros [?|[?|[Hf|[Hl|Hl%nil_length_inv]]]]; [done|done| | |by eapply Hne].
      - revert Hf. apply hex_encode_nonempty. specialize (Hsha (str_bytes
          "goagents/approvalcrypto key fingerprint" ++ [x00] ++ key_Bytes key)).
        by destruct (sha256 _).
      - by rewrite Hn in Hl. }
  simpl. rewrite Hres. simpl. rewrite !decide_False by naive_solver. by rewrite Hkey.
Qed.

(** Decrypt inverts Encrypt: a checkpoint encrypted under the active key and
decrypted with the same binding gives back the plaintext, as long as the key
provider still resolves the key's ID to that key. *)
Theorem Encrypt_Decrypt ctx ctx' n plaintext aad encoded key :
  sha_ok → json_ok → gcm_ok → length n = gcmNonceSize →
  Active ctx = Ok key → Resolve ctx' (key_ID key) = Ok key →
  encrypt (Some n) ctx plaintext aad = Ok encoded →
  decrypt ctx' encoded aad = Ok plaintext.
Proof.
  intros Hsha Hjson Hgcm Hn Hact Hres (key' & n' & Hact' & Hkey & [= <-] & Hm)%Encrypt_ok.
  rewrite Hact in Hact'. injection Hact' as <-.
  rewrite (Decrypt_sealed _ _ _ _ _ _ aad Hsha Hjson Hgcm Hkey Hn Hres Hm).
  destruct Hgcm as (Hopen & _). by rewrite Hopen.
Qed.

(** A ciphertext is bound to its checkpoint: decrypted with any other binding
(another checkpoint, run, tenant or definition), it is refused as not
authentic, under an AEAD whose sealed messages identify their associated data. *)
Theorem Decrypt_bound ctx ctx' n plaintext aad aad' encoded key :
  sha_ok → json_ok → gcm_ok → gcm_binding → length n = gcmNonceSize →
  Active ctx = Ok key → Resolve ctx' (key_ID key) = Ok key →
  encrypt (Some n) ctx plaintext aad = Ok encoded → aad' ≠ aad →
  decrypt ctx' encoded aad' = Err (ErrInvalidEnvelope "authentication").
Proof.
  intros Hsha Hjson Hgcm Hbind Hn Hact Hres (key' & n' & Hact' & Hkey & [= <-] & Hm)%Encrypt_ok Hne.
  rewrite Hact in Hact'. injection Hact' as <-.
  rewrite (Decrypt_sealed _ _ _ _ _ _ aad' Hsha Hjson Hgcm Hkey Hn Hres Hm).
  destruct Hgcm as (_ & Hunique & _). destruct (Open _ _ _ _) as [p|] eqn:Ho; [|done].
  exfalso. apply Hunique, Hbind in Ho. rewrite !sealedAAD_eq in Ho.
  do 6 apply app_inv_head in Ho. congruence.
Qed.

(** A replaced key is reported as such: when the provider now resolves the
envelope's key ID to a key with another fingerprint, decryption returns
ErrKeyMaterialChanged, whatever the ciphertext. *)
Theorem Decrypt_key_changed ctx encoded aad envelope key :
  unmarshal encoded = Some envelope → env_Version envelope = envelopeVersion →
  ¬ Blank (env_KeyID envelope) → env_KeyFingerprint envelope ≠ "" →
  env_Nonce envelope ≠ [] → env_Ciphertext envelope ≠ [] →
  Resolve ctx (env_KeyID envelope) = Ok key → key_ID key = env_KeyID envelope →
  keyFingerprint sha256 key ≠ env_KeyFingerprint envelope →
  decrypt ctx encoded aad = Err ErrKeyMaterialChanged.
Proof.
  intros Hu Hv Hid Hf Hn Hc Hres Hkid Hfp. unfold Decrypt. rewrite Hu.
  rewrite decide_False.
  2:{ intros [?|[?|[?|[Hl|Hl]]]]; [done..|by apply nil_length_inv in Hl|by apply nil_length_inv in Hl]. }
  rewrite Hres. simpl. rewrite decide_False by naive_solver. by rewrite decide_True by done.
Qed.

End properties.

(** * The keychain key provider *)

Section keychain.
(** The platform's secret store: an unknown state with [Get] and [Set]. *)
Inductive GetResult := Found (key : bytes) | SecretNotFound | GetError (text : string).
Inductive SetResult := SetOk | SecretAlreadyExists | SetError (text : string).

Context {Secrets : Type}.
Context (secret_Get : Secrets → string → GetResult).
Context (secret_Set : Secrets → string → bytes → Secrets * SetResult).
(** What other processes do to the secret store between [Get] and [Set]. *)
Context (others : Secrets → Secrets).

Definition approvalKeychainItemName (keyID : string) : string :=
  "approval-data-key:" +:+ keyID.

(** The end of [load]: the key that was read, if it is usable. *)
Definition load_material (keyID : string) (key : bytes) : res Error KeyMaterial :=
  let material := mkKey keyID ([] ++ key) in
  match newAEAD material with
  | Some _ => Err (ErrKeyMaterialUnavailable "")
  | None => Ok material
  end.

(** [load(keyID, false)]. *)
Definition load_existing (s : Secrets) (keyID : string) : res Error KeyMaterial :=
  if decide (Blank keyID) then Err (ErrKeyMaterialUnavailable "")
  else match secret_Get s (approvalKeychainItemName keyID) with
       | Found key => load_material keyID key
       | SecretNotFound | GetError _ => Err (ErrKeyMaterialUnavailable "read key")
       end.

(** [load(keyID, true)]; [fresh] is what [rand.Read] fills in, or its error. *)
Definition load_create (fresh : option bytes) (s : Secrets) (keyID : string)
    : Secrets * res Error KeyMaterial :=
  if decide (Blank keyID) then (s, Err (ErrKeyMaterialUnavailable ""))
  else
    let item := approvalKeychainItemName keyID in
    match secret_Get s item with
    | Found key => (s, load_material keyID key)
    | GetError _ => (s, Err (ErrKeyMaterialUnavailable "read key"))
    | SecretNotFound =>
        match fresh with
        | None => (s, Err ErrNonce)
        | Some key =>
            match secret_Set (others s) item key with
            | (s, SetOk) => (s, load_material keyID key)
            | (s, SecretAlreadyExists) => (s, load_existing s keyID)
            | (s, SetError _) => (s, Err (ErrKeyMaterialUnavailable "store active key"))
            end
        end
    end.

Definition keychain_Active (activeKeyID : string) (fresh : option bytes) (ctx : Ctx)
    (s : Secrets) : Secrets * res Error KeyMaterial :=
  match ctx with
  | Some e => (s, Err (ErrCtx e))
  | None => load_create fresh s activeKeyID
  end.

Definition keychain_Resolve (ctx : Ctx) (s : Secrets) (keyID : string) : res Error KeyMaterial :=
  match ctx with
  | Some e => Err (ErrCtx e)
  | None => load_existing s keyID
  end.

(** What the platform documents: an item that was added is read back, and
adding an item that exists fails and changes nothing. *)
Definition secret_store_ok : Prop :=
  (∀ s item key s', secret_Set s item key = (s', SetOk) → secret_Get s' item = Found key) ∧
  (∀ s item key s', secret_Set s item key = (s', SecretAlreadyExists) → s' = s).

(** The active key is stable: the key Active returns, whether it found it,
created it, or lost the race to create it to another process, is the key that
Resolve returns for its ID afterwards, so what was encrypted under it can be
decrypted; it is a 32-byte key. *)
Theorem keychain_active_resolves activeKeyID fresh s s' key :
  secret_store_ok → keychain_Active activeKeyID fresh None s = (s', Ok key) →
  keychain_Resolve None s' (key_ID key) = Ok key ∧ key_ID key = activeKeyID ∧
  length (key_Bytes key) = 32.
Proof.
  intros [Hset Hdup]. simpl. unfold load_create.
  assert (∀ k, load_material activeKeyID k = Ok key →
    key = mkKey activeKeyID k ∧ length k = 32) as Hmat.
  { intros k. unfold load_material, newAEAD. simpl. case_decide as Hv; [done|].
    intros [= <-]. split; [done|]. apply dec_stable. tauto. }
  destruct (decide (Blank activeKeyID)) as [|Hnb]; [done|]. cbv zeta.
  assert (∀ s0 k, secret_Get s0 (approvalKeychainItemName activeKeyID) = Found k →
    load_material activeKeyID k = Ok key →
    load_existing s0 (key_ID key) = Ok key ∧ key_ID key = activeKeyID ∧
    length (key_Bytes key) = 32) as Hres.
  { intros s0 k Hg Hl. destruct (Hmat k Hl) as [-> Hlen]. unfold load_existing.
    cbn [key_ID key_Bytes]. by rewrite decide_False, Hg by done. }
  destruct (secret_Get s _) as [k| |] eqn:Hg; [|destruct fresh as [k|]; [|done]|done].
  - intros [= <- Hl]. by eapply Hres.
  - destruct (secret_Set _ _ k) as [s1 []] eqn:Hs; [|apply Hdup in Hs as ->|done].
    + intros [= <- Hl]. eapply Hres; [by eapply Hset|done].
    + intros [= <- Hl]. unfold load_existing in Hl. rewrite decide_False in Hl by done.
      destruct (secret_Get (others s) _) as [k'| |] eqn:Hg'; [|done..]. by eapply Hres.
Qed.

End keychain.

(** * Witnesses *)

(** A transparent AEAD: the sealed message lists its key, nonce, associated data
and plaintext, each byte after a mark and each part ended by a zero byte. *)
Fixpoint part (b : bytes) : bytes :=
  match b with [] => [x00] | x :: b => x01 :: x :: part b end.
Definition toy_Seal (k n p a : bytes) : bytes := part k ++ part n ++ part a ++ part p.

Lemma part_inj b b' r r' : part b ++ r = part b' ++ r' → b = b' ∧ r = r'.
Proof.
  revert b'. induction b as [|x b IH]; intros [|y b']; simpl; [by intros [= ->]|done..|].
  intros [= -> Hr]. by destruct (IH b' Hr) as [-> ->].
Qed.

(** The plaintext of a sealed message, found among its parts. *)
Fixpoint unpart (l : bytes) : option (bytes * bytes) :=
  match l with
  | x00 :: r => Some ([], r)
  | x01 :: x :: r => '(b, r) ← unpart r; Some (x :: b, r)
  | _ => None
  end.
Definition toy_Open (k n c a : bytes) : option bytes :=
  '(k', c1) ← unpart c; '(n', c2) ← unpart c1; '(a', c3) ← unpart c2; '(p, c4) ← unpart c3;
  if decide (c = toy_Seal k n p a) then Some p else None.

Lemma unpart_part b r : unpart (part b ++ r) = Some (b, r).
Proof. induction b as [|x b IH]; simpl; [done|]. by rewrite IH. Qed.

Definition toy_marshal (e : ciphertextEnvelope) : option bytes :=
  if decide (env_Version e = 2%Z)
  then Some (part (str_bytes (env_KeyID e)) ++ part (str_bytes (env_KeyFingerprint e)) ++
             part (env_Nonce e) ++ part (env_Ciphertext e))
  else None.
Definition toy_unmarshal (b : bytes) : option ciphertextEnvelope :=
  '(k, b1) ← unpart b; '(f, b2) ← unpart b1; '(n, b3) ← unpart b2; '(c, _) ← unpart b3;
  Some (mkEnvelope 2 (String.string_of_list_byte k) (String.string_of_list_byte f) n c).

Definition toy_sha (b : bytes) : bytes := [x07].
Definition toy_key : KeyMaterial := mkKey "k1" (replicate 32 x05).
Definition toy_nonce : bytes := replicate 12 x09.

Lemma toy_gcm_ok : gcm_ok toy_Seal toy_Open.
Proof.
  split_and!.
  - intros k n p a. unfold toy_Open.
    assert (unpart (toy_Seal k n p a) = Some (k, part n ++ part a ++ part p)) as ->
      by apply unpart_part.
    cbn [mbind option_bind]. rewrite unpart_part. cbn [mbind option_bind]. rewrite unpart_part.
    cbn [mbind option_bind]. rewrite <-(app_nil_r (part p)), unpart_part.
    cbn [mbind option_bind]. by rewrite decide_True.
  - intros k n c a p. unfold toy_Open.
    destruct (unpart c) as [[k' c1]|]; simpl; [|done].
    destruct (unpart c1) as [[n' c2]|]; simpl; [|done].
    destruct (unpart c2) as [[a' c3]|]; simpl; [|done].
    destruct (unpart c3) as [[p' c4]|]; simpl; [|done]. case_decide as Hc; [|done].
    by intros [= <-].
  - intros k n p a. by destruct k.
Qed.

Lemma toy_binding : gcm_binding toy_Seal.
Proof.
  intros k n p p' a a' Heq. unfold toy_Seal in Heq.
  apply app_inv_head, app_inv_head in Heq. by apply part_inj in Heq as [-> _].
Qed.

Lemma toy_json_ok : json_ok toy_marshal toy_unmarshal.
Proof.
  intros e b. unfold toy_marshal, toy_unmarshal. case_decide as Hv; [|done]. intros [= <-].
  rewrite unpart_part. simpl. rewrite unpart_part. simpl. rewrite unpart_part. simpl.
  rewrite <-(app_nil_r (part (env_Ciphertext e))). rewrite unpart_part. simpl.
  unfold str_bytes. rewrite !String.string_of_list_byte_of_string.
  destruct e. simpl in *. by subst.
Qed.

Lemma sealedAAD_injective_witness :
  let e := mkEnvelope 2 "a" "bc" [] [] in
  env_Version e = 2%Z ∧ env_KeyID e = "a" ∧ env_KeyFingerprint e = "bc" ∧ [x01] = [x01].
Proof.
  exact (sealedAAD_injective (mkEnvelope 2 "a" "bc" [] []) (mkEnvelope 2 "a" "bc" [x01] [])
    [x01] [x01] ltac:(by vm_compute) ltac:(by vm_compute) ltac:(by vm_compute)
    ltac:(by vm_compute) ltac:(by vm_compute) ltac:(by vm_compute) eq_refl).
Defined.

Abbreviation toy_encrypt := (Encrypt toy_sha toy_Seal toy_marshal (λ _, Ok toy_key)).
Abbreviation toy_decrypt := (Decrypt toy_sha toy_Open toy_unmarshal (λ _ _, Ok toy_key)).
Definition toy_encoded : bytes :=
  match toy_encrypt (Some toy_nonce) None [x02; x03] [x04] with Ok b => b | Err _ => [] end.

Lemma Encrypt_Decrypt_witness : toy_decrypt None toy_encoded [x04] = Ok [x02; x03].
Proof.
  apply (Encrypt_Decrypt toy_sha toy_Seal toy_Open toy_marshal toy_unmarshal
    (λ _, Ok toy_key) (λ _ _, Ok toy_key) None None toy_nonce [x02; x03] [x04] toy_encoded toy_key);
    [done|apply toy_json_ok|apply toy_gcm_ok|done|done|done|by vm_compute].
Defined.

Lemma Decrypt_bound_witness :
  toy_decrypt None toy_encoded [x06] = Err (ErrInvalidEnvelope "authentication").
Proof.
  apply (Decrypt_bound toy_sha toy_Seal toy_Open toy_marshal toy_unmarshal
    (λ _, Ok toy_key) (λ _ _, Ok toy_key) None None toy_nonce [x02; x03] [x04] [x06]
    toy_encoded toy_key);
    [done|apply toy_json_ok|apply toy_gcm_ok|apply toy_binding|done|done|done|by vm_compute|done].
Defined.

Lemma Decrypt_key_changed_witness :
  Decrypt (λ b, take 1 (reverse b)) toy_Open toy_unmarshal (λ _ _, Ok toy_key) None
    toy_encoded [x04] = Err ErrKeyMaterialChanged.
Proof.
  apply (Decrypt_key_changed (λ b, take 1 (reverse b)) toy_Open toy_unmarshal (λ _ _, Ok toy_key)
    None toy_encoded [x04]
    (mkEnvelope 2 "k1" "07" toy_nonce (toy_Seal (replicate 32 x05) toy_nonce [x02; x03]
       (sealedAAD (mkEnvelope 2 "k1" "07" toy_nonce []) [x04]))) toy_key);
    by vm_compute.
Defined.

(** A map as the secret store. *)
Definition map_Get (s : gmap string bytes) (item : string) : GetResult :=
  match s !! item with Some k => Found k | None => SecretNotFound end.
Definition map_Set (s : gmap string bytes) (item : string) (k : bytes)
    : gmap string bytes * SetResult :=
  match s !! item with Some _ => (s, SecretAlreadyExists) | None => (<[item := k]> s, SetOk) end.
(** Another process stores a key first. *)
Definition first_writer (s : gmap string bytes) : gmap string bytes :=
  <["approval-data-key:k1" := replicate 32 x01]> s.

Lemma keychain_active_resolves_witness :
  let s' := (keychain_Active map_Get map_Set first_writer "k1" (Some (replicate 32 x02)) None ∅).1 in
  keychain_Resolve map_Get None s' "k1" = Ok (mkKey "k1" (replicate 32 x01)).
Proof.
  apply (keychain_active_resolves map_Get map_Set first_writer "k1" (Some (replicate 32 x02)) ∅ _
    (mkKey "k1" (replicate 32 x01))); [|by vm_compute].
  split; unfold map_Set, map_Get; intros s item key s'; destruct (s !! item) eqn:Hl; try done.
  - intros [= <-]. by rewrite lookup_insert_eq.
  - by intros [= ->].
Defined.

End Crypto.
