(* ===== verification/AgentTools.v ===== *)
(** The tool layer of goagent: [src/goagent/ports] (data), [tools/registry.go],
[tools/errors.go], [tools/middleware.go], [tools/executor.go],
[policy/engine.go], [prompt/compiler.go] and [agentcore/tool_registry.go].

The JSON Schema library is a parameter. A tool is its spec, its middleware and
its [Execute]; what a tool, or any other host callback, returns may depend on
the tick at which it is called. *)

From S2P Require Import Prelude.

(** * Data of the ports *)

Definition Permission := string.
Definition PermissionRead : Permission := "read".
Definition PermissionWrite : Permission := "write".
Definition PermissionExec : Permission := "exec".

Definition ExecutionMode := string.
Definition ExecutionModeAuto : ExecutionMode := "".
Definition ExecutionModeParallel : ExecutionMode := "parallel".
Definition ExecutionModeSequential : ExecutionMode := "sequential".
Definition ExecutionModeExclusive : ExecutionMode := "exclusive".

(** [json.RawMessage]: its bytes. *)
Definition RawMessage := string.

Record ToolCall := mkCall { call_ID : string; call_Name : string; call_Input : RawMessage }.
#[global] Instance ToolCall_eq_dec : EqDecision ToolCall.
Proof. solve_decision. Defined.

Record ToolResult := mkResult {
  tr_ForLLM : string;
  tr_ForUser : string;
  tr_Silent : bool;
  tr_IsError : bool;
  tr_Ref : string;
  tr_Metadata : Metadata
}.

Record ToolExecution := mkExecution {
  ex_Index : nat;
  ex_Call : ToolCall;
  ex_Result : option ToolResult
}.

Record ToolEnv := mkToolEnv { te_UserID : string; te_SessionID : string; te_Metadata : Metadata }.

Record PolicyDecision := mkDecision { pd_Allowed : bool; pd_Reason : string }.
Record PolicyContext := mkPolicyContext {
  pc_TenantID : string; pc_RequestID : string; pc_TraceID : string; pc_Labels : GoMap string
}.
Record PolicyRequest := mkPolicyRequest {
  pr_RunID : string;
  pr_UserID : string;
  pr_SessionID : string;
  pr_Tool : string;
  pr_Permission : Permission;
  pr_Input : RawMessage;
  pr_Allowed : list Permission;
  pr_Context : PolicyContext;
  pr_Metadata : Metadata
}.

Record PromptBlock := mkBlock {
  pb_Name : string; pb_Mode : string; pb_Priority : Z; pb_Content : string
}.
Record CompiledPrompt := mkCompiled { cp_Blocks : list PromptBlock; cp_Content : string }.

(** * Errors of goagent

[ErrPair a b] is [fmt.Errorf("%w: %w", a, b)]; [ErrText] is an error of another
type, known by its text. *)
Inductive Error :=
| ErrToolInputInvalid
| ErrToolSchemaInvalid
| ErrToolExecutionFailed
| ErrToolTimeout
| ErrToolNotFound (name : string)
| ErrPolicyDenied (tool reason : string)
| ErrApprovalDenied (tool reason : string)
| ErrBudgetExceeded (reason : string)
| ErrInputRejected
| ErrOutputInvalid
| ErrMaxIterations
| ErrApprovalPending
| ErrInvalidRunCheckpoint (detail : string)
| ErrInvalidApprovalResolution (detail : string)
| ErrCtxDone (e : CtxErr)
| ErrText (text : string)
| ErrPair (a b : Error).

(** [errors.Is] for a target recognised by [p]. *)
Fixpoint error_is (p : Error → bool) (err : Error) : bool :=
  p err || match err with ErrPair a b => error_is p a || error_is p b | _ => false end.

Definition isToolInputInvalid : Error → bool :=
  error_is (λ e, match e with ErrToolInputInvalid => true | _ => false end).
Definition isToolSchemaInvalid : Error → bool :=
  error_is (λ e, match e with ErrToolSchemaInvalid => true | _ => false end).
Definition isToolExecutionFailed : Error → bool :=
  error_is (λ e, match e with ErrToolExecutionFailed => true | _ => false end).
Definition isToolTimeout : Error → bool :=
  error_is (λ e, match e with ErrToolTimeout => true | _ => false end).
Definition isDeadlineExceeded : Error → bool :=
  error_is (λ e, match e with ErrCtxDone DeadlineExceeded => true | _ => false end).

Definition classifyToolError (err : Error) : Error :=
  if isToolInputInvalid err || isToolSchemaInvalid err || isToolExecutionFailed err ||
     isToolTimeout err
  then err
  else if isDeadlineExceeded err then ErrPair ErrToolTimeout err
  else ErrPair ErrToolExecutionFailed err.

Definition classifySchemaError (err : Error) : Error :=
  let classified := classifyToolError err in
  if isToolSchemaInvalid classified || isToolInputInvalid classified then classified
  else ErrPair ErrToolInputInvalid err.

(** * Tools and registries *)

Record ToolSchema := mkSchema {
  ts_JSONSchema : RawMessage;
  ts_Validate : option (RawMessage → option Error)
}.

Record ToolSpec := mkSpec {
  sp_Name : string;
  sp_Description : string;
  sp_Permission : Permission;
  sp_ExecutionMode : ExecutionMode;
  sp_Timeout : Duration;
  sp_Schema : ToolSchema
}.

(** What a handler call ends with. *)
Inductive ToolOutcome :=
| Returned (r : option ToolResult)
| Failed (e : Error)
| Panicked (value : string).

(** A handler, at a tick: the metadata it leaves, and its outcome. *)
Definition Handler := nat → RawMessage → ToolEnv → Metadata * ToolOutcome.
Definition Middleware := Handler → Handler.

Record Tool := mkTool {
  t_Spec : ToolSpec;
  t_Execute : Handler;
  t_Middleware : list Middleware
}.

(** [tools.Registry]. *)
Abbreviation Registry := (GoMap Tool).

Definition registry_Register (r : Registry) (tool : Tool) : Registry :=
  <[sp_Name (t_Spec tool) := tool]> r.
Definition registry_Clone (r : Registry) : Registry :=
  foldr (λ kv clone, <[kv.1 := kv.2]> clone) ∅ (map_to_list r).
Definition registry_Get (r : Registry) (name : string) : option Tool := r !! name.
Definition registry_MustGet (r : Registry) (name : string) : res Error Tool :=
  match registry_Get r name with
  | None => Err (ErrToolNotFound name)
  | Some tool => Ok tool
  end.
Definition registry_Specs (r : Registry) : list ToolSpec :=
  sort_slice (key_less str_lt sp_Name) (t_Spec <$> (map_to_list r).*2).

(** [runToolRegistry]: request-scoped tools shadow the configured ones. *)
Record RunToolRegistry := mkRunRegistry { rr_base : Registry; rr_scoped : Registry }.
Definition run_Register (r : RunToolRegistry) (tool : Tool) : RunToolRegistry :=
  mkRunRegistry (rr_base r) (registry_Register (rr_scoped r) tool).
Definition run_Get (r : RunToolRegistry) (name : string) : option Tool :=
  match registry_Get (rr_scoped r) name with
  | Some tool => Some tool
  | None => registry_Get (rr_base r) name
  end.
Definition run_MustGet (r : RunToolRegistry) (name : string) : res Error Tool :=
  match run_Get r name with
  | Some tool => Ok tool
  | None => Err (ErrToolNotFound name)
  end.
Definition run_Specs (r : RunToolRegistry) : list ToolSpec :=
  let byName : GoMap ToolSpec :=
    foldl (λ m spec, <[sp_Name spec := spec]> m) ∅
      (registry_Specs (rr_base r) ++ registry_Specs (rr_scoped r)) in
  sort_slice (key_less str_lt sp_Name) (map_to_list byName).*2.

Section tools.
(** The JSON Schema library: whether a schema compiles, whether a text is JSON,
and whether a JSON instance satisfies a compiled schema. *)
Context (schema_compiles : RawMessage → option Error).
Context (json_instance : RawMessage → option Error).
Context (schema_validates : RawMessage → RawMessage → option Error).

(** * Schemas *)

(** What [compileJSONSchema] computes and caches for a source text. *)
Definition compile_entry (source : RawMessage) : option Error :=
  match schema_compiles source with
  | Some e => Some (ErrPair ErrToolSchemaInvalid e)
  | None => None
  end.

(** [compileJSONSchema] with its cache. *)
Definition compileJSONSchema (cache : GoMap (option Error)) (source : RawMessage)
    : GoMap (option Error) * option Error :=
  match cache !! source with
  | Some entry => (cache, entry)
  | None => let entry := compile_entry source in (<[source := entry]> cache, entry)
  end.

Definition validateJSONSchema (source input : RawMessage) : option Error :=
  match compile_entry source with
  | Some e => Some e
  | None =>
      match json_instance input with
      | Some e => Some (ErrPair ErrToolInputInvalid e)
      | None =>
          match schema_validates source input with
          | Some e => Some (ErrPair ErrToolInputInvalid e)
          | None => None
          end
      end
  end.

(** [ToolSchema.ValidateInput]. *)
Definition schema_ValidateInput (s : ToolSchema) (input : RawMessage) : option Error :=
  match (if decide (ts_JSONSchema s ≠ "") then validateJSONSchema (ts_JSONSchema s) input
         else None) with
  | Some e => Some e
  | None => match ts_Validate s with None => None | Some validate => validate input end
  end.

(** [tools.ValidateInput]. *)
Definition ValidateInput (s : ToolSchema) (input : RawMessage) : option Error :=
  classifySchemaError <$> schema_ValidateInput s input.

(** * Middleware *)

Definition Chain (middlewares : list Middleware) (next : Handler) : Handler :=
  foldr (λ m next, m next) next middlewares.

Definition SchemaValidator (s : ToolSchema) : Middleware := λ next t input env,
  match ValidateInput s input with
  | Some e => (te_Metadata env, Failed e)
  | None => next t input env
  end.

Definition OutputMask (mask : option (ToolResult → option ToolResult)) : Middleware :=
  λ next t input env,
  match next t input env with
  | (m, Returned (Some r)) =>
      match mask with
      | None => (m, Returned (Some r))
      | Some f => (m, Returned (f r))
      end
  | p => p
  end.

Definition toolHandler (tool : Tool) : Handler :=
  Chain (SchemaValidator (sp_Schema (t_Spec tool)) :: t_Middleware tool) (t_Execute tool).

(** [runTool]: a panic of the tool becomes an error. *)
Definition runTool (t : nat) (tool : Tool) (call : ToolCall) (env : ToolEnv)
    : Metadata * res Error (option ToolResult) :=
  match toolHandler tool t (call_Input call) env with
  | (m, Returned r) => (m, Ok r)
  | (m, Failed e) => (m, Err e)
  | (m, Panicked v) =>
      (m, Err (ErrPair ErrToolExecutionFailed
                 (ErrText ("tool " +:+ call_Name call +:+ " panicked: " +:+ v))))
  end.

Definition executionMode (tool : Tool) : ExecutionMode :=
  let spec := t_Spec tool in
  if decide (sp_ExecutionMode spec ∈ [ExecutionModeParallel; ExecutionModeSequential;
                                      ExecutionModeExclusive])
  then sp_ExecutionMode spec
  else if decide (sp_Permission spec = PermissionRead) then ExecutionModeParallel
  else ExecutionModeSequential.

(** * The executor *)

(** The result slot of a call. *)
Definition execution_of (index : nat) (call : ToolCall) (r : res Error (option ToolResult))
    : res Error ToolExecution :=
  match r with
  | Ok result => Ok (mkExecution index call result)
  | Err e => Err (classifyToolError e)
  end.

(** [mergeMetadataWrites] of one copy. *)
Definition merge_copy (original shared copied : Metadata) : Metadata :=
  let shared := foldr (λ kv m, match copied !! kv.1 with
                               | Some _ => m
                               | None => delete kv.1 m
                               end) shared (map_to_list original) in
  foldr (λ kv m, match original !! kv.1 with
                 | None => <[kv.1 := kv.2]> m
                 | Some previous => if decide (previous = kv.2) then m else <[kv.1 := kv.2]> m
                 end) shared (map_to_list copied).

Definition mergeMetadataWrites (shared original : Metadata) (copies : list Metadata) : Metadata :=
  foldl (merge_copy original) shared copies.

(** [executeParallel]: every call runs on its own copy of the metadata, so the
order in which the goroutines run does not matter; call [i] of the batch runs at
tick [t + i]. *)
Definition executeParallel (t : nat) (batch : list (ToolCall * Tool)) (env : ToolEnv)
    (offset : nat) : Metadata * list (res Error ToolExecution) :=
  let original := te_Metadata env in
  let runs := imap (λ i '(call, tool), runTool (t + i) tool call env) batch in
  (mergeMetadataWrites (te_Metadata env) original runs.*1,
   imap (λ i '(call, r), execution_of (offset + i) call r) (zip batch.*1 runs.*2)).

(** The maximal parallel prefix of the remaining calls. *)
Fixpoint parallel_prefix (l : list (ToolCall * Tool)) : list (ToolCall * Tool) * list (ToolCall * Tool) :=
  match l with
  | [] => ([], [])
  | p :: l' =>
      if decide (executionMode p.2 = ExecutionModeParallel)
      then let '(a, b) := parallel_prefix l' in (p :: a, b)
      else ([], l)
  end.

(** The loop of [Execute] from index [start]: parallel batches and single
calls. [fuel] bounds the number of batches. *)
Fixpoint execute_loop (fuel t start : nat) (env : ToolEnv) (rest : list (ToolCall * Tool))
    : Metadata * list (res Error ToolExecution) :=
  match fuel, rest with
  | O, _ | _, [] => (te_Metadata env, [])
  | S fuel, (call, tool) :: rest' =>
      if decide (executionMode tool = ExecutionModeParallel) then
        let '(batch, rest'') := parallel_prefix rest in
        let '(m, slots) := executeParallel t batch env start in
        let n := length batch in
        let '(m', slots') := execute_loop fuel (t + n) (start + n)
          (mkToolEnv (te_UserID env) (te_SessionID env) m) rest'' in
        (m', slots ++ slots')
      else
        let '(m, r) := runTool t tool call env in
        let '(m', slots') := execute_loop fuel (S t) (S start)
          (mkToolEnv (te_UserID env) (te_SessionID env) m) rest' in
        (m', execution_of start call r :: slots')
  end.

(** [for i, call := range calls { e.registry.MustGet(call.Name) }]. *)
Fixpoint resolve_calls (r : RunToolRegistry) (calls : list ToolCall)
    : res Error (list (ToolCall * Tool)) :=
  match calls with
  | [] => Ok []
  | call :: calls =>
      match run_MustGet r (call_Name call) with
      | Err e => Err e
      | Ok tool =>
          match resolve_calls r calls with
          | Err e => Err e
          | Ok rest => Ok ((call, tool) :: rest)
          end
      end
  end.

(** [for _, err := range errs]: the error of the lowest index, or all results. *)
Fixpoint collect (slots : list (res Error ToolExecution)) : res Error (list ToolExecution) :=
  match slots with
  | [] => Ok []
  | Err e :: _ => Err e
  | Ok x :: slots =>
      match collect slots with
      | Err e => Err e
      | Ok xs => Ok (x :: xs)
      end
  end.

(** [Executor.Execute] at tick [t]: the metadata afterwards, the calls that were
run, and the executions or the error. *)
Definition Execute (t : nat) (r : RunToolRegistry) (calls : list ToolCall) (env : ToolEnv)
    : Metadata * list ToolCall * res Error (list ToolExecution) :=
  match resolve_calls r calls with
  | Err e => (te_Metadata env, [], Err e)
  | Ok resolved =>
      let '(m, slots) := execute_loop (length resolved) t 0 env resolved in
      (m, calls, collect slots)
  end.

End tools.

(** * The default policy engine *)

Definition policy_Decide (req : PolicyRequest) : PolicyDecision :=
  if decide (pr_Permission req = PermissionRead) then mkDecision true "read allowed"
  else if decide (pr_Permission req ∈ pr_Allowed req)
  then mkDecision true "permission allowed by request"
  else mkDecision false "permission denied by default".

(** * The default prompt compiler *)

Definition ModeCacheable : string := "cacheable".
Definition ModeDynamic : string := "dynamic".

Definition modeRank (mode : string) : Z :=
  if decide (mode = ModeCacheable) then 0%Z else 1%Z.

(** The [less] function of [Compile]. *)
Definition block_less (a b : PromptBlock) : Prop :=
  if decide (pb_Mode a ≠ pb_Mode b) then (modeRank (pb_Mode a) < modeRank (pb_Mode b))%Z
  else if decide (pb_Priority a ≠ pb_Priority b) then (pb_Priority a < pb_Priority b)%Z
  else str_lt (pb_Name a) (pb_Name b).
#[global] Instance block_less_dec a b : Decision (block_less a b).
Proof. unfold block_less. repeat case_decide; apply _. Defined.

(** [Compile]; insertion sort is the stable sort. *)
Definition Compile (blocks : list PromptBlock) : CompiledPrompt :=
  let ordered := sort_slice block_less blocks in
  let contents := filter (λ c, c ≠ "") (pb_Content <$> ordered) in
  mkCompiled ordered (strings_Join contents (String "010" EmptyString)).

(** * Lemmas *)

Lemma merge_copy_lookup (original shared copied : Metadata) k :
  merge_copy original shared copied !! k =
  match original !! k, copied !! k with
  | Some _, None => None
  | Some v, Some v' => if decide (v = v') then shared !! k else Some v'
  | None, Some v' => Some v'
  | None, None => shared !! k
  end.
Proof.
  unfold merge_copy.
  set (deleted := foldr _ shared (map_to_list original)).
  assert (deleted !! k = match original !! k, copied !! k with
                         | Some _, None => None | _, _ => shared !! k end) as Hdel.
  { unfold deleted. clear deleted. revert shared.
    induction original as [|k' v original Hk' Hfirst IH] using map_first_key_ind; intros shared.
    { rewrite map_to_list_empty, lookup_empty. by destruct (copied !! k). }
    rewrite map_to_list_insert_first_key by done. cbn [foldr fst].
    destruct (decide (k' = k)) as [->|Hne].
    - rewrite lookup_insert_eq. destruct (copied !! k) eqn:Hc.
      + by rewrite IH, Hk'.
      + by rewrite lookup_delete_eq.
    - rewrite lookup_insert_ne by done. rewrite <-IH.
      destruct (copied !! k'); [done|]. by rewrite lookup_delete_ne. }
  clearbody deleted.
  assert (∀ c : Metadata, (∀ i x, c !! i = Some x → copied !! i = Some x) →
    foldr (λ kv m, match original !! kv.1 with
                   | None => <[kv.1 := kv.2]> m
                   | Some previous => if decide (previous = kv.2) then m else <[kv.1 := kv.2]> m
                   end) deleted (map_to_list c) !! k =
    match c !! k with
    | None => deleted !! k
    | Some v' => match original !! k with
                 | Some v => if decide (v = v') then deleted !! k else Some v'
                 | None => Some v'
                 end
    end) as Hins.
  { intros c. induction c as [|k' v c Hk' Hfirst IH] using map_first_key_ind; intros Hsub.
    { by rewrite map_to_list_empty, lookup_empty. }
    rewrite map_to_list_insert_first_key by done. cbn [foldr fst snd].
    assert (∀ i x, c !! i = Some x → copied !! i = Some x) as Hsub'.
    { intros i x Hi. apply Hsub. rewrite lookup_insert_ne; [done|]. intros ->. congruence. }
    destruct (decide (k' = k)) as [->|Hne].
    - rewrite lookup_insert_eq. destruct (original !! k) as [p|] eqn:Ho.
      + case_decide as Hp; [|by rewrite lookup_insert_eq]. by rewrite (IH Hsub'), Hk'.
      + by rewrite lookup_insert_eq.
    - rewrite (lookup_insert_ne c) by done. rewrite <-(IH Hsub').
      destruct (original !! k') as [p|]; [case_decide; [done|]|]; by rewrite lookup_insert_ne. }
  rewrite (Hins copied) by done. destruct (copied !! k), (original !! k); try done.
  by rewrite Hdel.
Qed.

(** The scoped tools shadow the base ones. *)
Lemma run_Get_union r name : run_Get r name = (rr_scoped r ∪ rr_base r) !! name.
Proof.
  unfold run_Get, registry_Get. rewrite lookup_union.
  by destruct (rr_scoped r !! name), (rr_base r !! name).
Qed.

Section execute.
Context (schema_compiles : RawMessage → option Error) (json_instance : RawMessage → option Error)
  (schema_validates : RawMessage → RawMessage → option Error).
Abbreviation run_tool := (runTool schema_compiles json_instance schema_validates).
Abbreviation loop := (execute_loop schema_compiles json_instance schema_validates).

(** Slot [i] is one run of call [i], at its own tick, in some metadata. *)
Definition slots_ok (t start : nat) (user session : string) (l : list (ToolCall * Tool))
    (slots : list (res Error ToolExecution)) : Prop :=
  length slots = length l ∧
  ∀ i call tool, l !! i = Some (call, tool) →
    ∃ m, slots !! i = Some (execution_of (start + i) call
      (run_tool (t + i) tool call (mkToolEnv user session m)).2).

Lemma slots_ok_app t start user session l l' slots slots' :
  slots_ok t start user session l slots →
  slots_ok (t + length l) (start + length l) user session l' slots' →
  slots_ok t start user session (l ++ l') (slots ++ slots').
Proof.
  intros [Hlen Hs] [Hlen' Hs']. split; [rewrite !length_app; lia|].
  intros i call tool. rewrite !lookup_app, Hlen.
  destruct (l !! i) as [[c0 t0]|] eqn:Hi.
  - intros [= <- <-]. destruct (Hs _ _ _ Hi) as [m ->]. eauto.
  - intros Hl'. apply lookup_ge_None in Hi. rewrite (lookup_ge_None_2 slots) by lia.
    destruct (Hs' _ _ _ Hl') as [m ->]. exists m.
    by replace (start + length l + (i - length l)) with (start + i) by lia;
       replace (t + length l + (i - length l)) with (t + i) by lia.
Qed.

Lemma executeParallel_slots t batch env offset :
  slots_ok t offset (te_UserID env) (te_SessionID env) batch
    (executeParallel schema_compiles json_instance schema_validates t batch env offset).2.
Proof.
  unfold executeParallel. cbn [snd]. set (runs := imap _ batch).
  assert (length runs = length batch) as Hlen by apply length_imap.
  split.
  - rewrite length_imap, length_zip_with, !length_fmap. lia.
  - intros i call tool Hi. exists (te_Metadata env).
    rewrite list_lookup_imap. rewrite lookup_zip_with, !list_lookup_fmap, Hi. simpl.
    unfold runs. rewrite list_lookup_imap, Hi. simpl. by destruct env.
Qed.

Lemma parallel_prefix_app l : (parallel_prefix l).1 ++ (parallel_prefix l).2 = l.
Proof.
  induction l as [|p l IH]; simpl; [done|]. case_decide; [|done].
  destruct (parallel_prefix l) as [a b]. simpl in *. by rewrite IH.
Qed.

Lemma execute_loop_slots fuel t start env l :
  length l ≤ fuel →
  slots_ok t start (te_UserID env) (te_SessionID env) l (loop fuel t start env l).2.
Proof.
  revert t start env l. induction fuel as [|fuel IH]; intros t start env l Hf.
  { destruct l; simpl in *; [by split|lia]. }
  destruct l as [|[call tool] l]; [by split|]. cbn [execute_loop]. simpl in Hf. case_decide as Hm.
  - pose proof (parallel_prefix_app ((call, tool) :: l)) as Happ.
    assert (0 < length (parallel_prefix ((call, tool) :: l)).1) as Hpos.
    { simpl. rewrite decide_True by done. destruct (parallel_prefix l). simpl. lia. }
    destruct (parallel_prefix ((call, tool) :: l)) as [batch rest]. simpl in Happ, Hpos.
    pose proof (executeParallel_slots t batch env start) as Hpar.
    destruct (executeParallel _ _ _ t batch env start) as [m slots]. simpl in Hpar.
    match goal with |- context [execute_loop _ _ _ fuel ?t' ?s' ?e' rest] =>
      pose proof (IH t' s' e' rest) as IH'; destruct (loop fuel t' s' e' rest) as [m' slots'] end.
    simpl in *. rewrite <-Happ. apply slots_ok_app; [done|]. apply IH'.
    apply (f_equal length) in Happ. rewrite length_app in Happ. simpl in Happ. lia.
  - destruct (run_tool t tool call env) as [m r] eqn:Hr.
    match goal with |- context [execute_loop _ _ _ fuel ?t' ?s' ?e' l] =>
      pose proof (IH t' s' e' l ltac:(lia)) as IH'; destruct (loop fuel t' s' e' l) as [m' slots'] end.
    cbn [snd te_UserID te_SessionID] in *.
    apply (slots_ok_app t start _ _ [(call, tool)] l [_] slots').
    + split; [done|]. intros [|i] c0 t0 Hi; [|done]. injection Hi as <- <-.
      exists (te_Metadata env). rewrite !Nat.add_0_r. simpl. destruct env. simpl in *. by rewrite Hr.
    + by rewrite !Nat.add_1_r.
Qed.

Lemma collect_ok slots xs :
  collect slots = Ok xs ↔ slots = Ok <$> xs.
Proof.
  revert xs. induction slots as [|[x|e] slots IH]; intros xs; simpl.
  - split; [by intros [= <-]|]. by destruct xs.
  - destruct (collect slots) as [xs'|e'].
    + split; [intros [= <-]; simpl; f_equal; by apply IH|].
      destruct xs as [|x' xs]; [done|]. simpl. intros [= <- Heq%IH]. congruence.
    + split; [done|]. destruct xs as [|x' xs]; [done|]. simpl. intros [= <- Heq%IH]. done.
  - split; [done|]. by destruct xs.
Qed.

Lemma collect_err slots e :
  collect slots = Err e ↔
  ∃ i, slots !! i = Some (Err e) ∧ ∀ j, j < i → ∃ x, slots !! j = Some (Ok x).
Proof.
  induction slots as [|[x|e'] slots IH]; simpl.
  - split; [done|]. by intros (i & ? & _).
  - transitivity (collect slots = Err e); [by destruct (collect slots)|]. rewrite IH. split.
    + intros (i & Hi & Hlt). exists (S i). split; [done|]. intros [|j] Hj; [by eexists|].
      apply Hlt. lia.
    + intros ([|i] & Hi & Hlt); [done|]. exists i. split; [done|]. intros j Hj.
      apply (Hlt (S j)). lia.
  - split.
    + intros [= ->]. exists 0. split; [done|]. lia.
    + intros ([|i] & Hi & Hlt); [by simplify_eq/=|]. by destruct (Hlt 0 ltac:(lia)) as [x ?].
Qed.

Lemma resolve_calls_ok r calls resolved :
  resolve_calls r calls = Ok resolved →
  resolved.*1 = calls ∧ Forall (λ p, run_Get r (call_Name p.1) = Some p.2) resolved.
Proof.
  revert resolved. induction calls as [|call calls IH]; intros resolved; simpl.
  { by intros [= <-]. }
  unfold run_MustGet. destruct (run_Get r (call_Name call)) as [tool|] eqn:Hg; [|done].
  destruct (resolve_calls r calls) as [rest|]; [|done]. intros [= <-].
  destruct (IH rest eq_refl) as [<- Hall]. split; [done|]. by constructor.
Qed.

Lemma resolve_calls_registered r calls :
  (∀ call, call ∈ calls → is_Some (run_Get r (call_Name call))) →
  ∃ resolved, resolve_calls r calls = Ok resolved.
Proof.
  induction calls as [|call calls IH]; intros Hall; simpl; [eauto|].
  destruct (Hall call) as [tool Ht]; [left|]. unfold run_MustGet. rewrite Ht.
  destruct IH as [rest ->]; [|eauto]. intros c Hc. apply Hall. by right.
Qed.

(** Successful executions are those of the calls, in order. *)
Lemma Execute_calls t r calls env m ran xs :
  Execute schema_compiles json_instance schema_validates t r calls env = (m, ran, Ok xs) →
  ran = calls ∧ ex_Call <$> xs = calls.
Proof.
  unfold Execute. destruct (resolve_calls r calls) as [resolved|] eqn:Hres; [|done].
  destruct (resolve_calls_ok _ _ _ Hres) as [Hfst _].
  pose proof (execute_loop_slots (length resolved) t 0 env resolved ltac:(lia)) as [Hlen Hslots].
  destruct (loop (length resolved) t 0 env resolved) as [m0 slots]. simpl in *.
  intros [= _ <- Hc%collect_ok]. split; [done|]. apply list_eq. intros i.
  rewrite <-Hfst, !list_lookup_fmap.
  destruct (resolved !! i) as [[call tool]|] eqn:Hi; simpl.
  - destruct (Hslots _ _ _ Hi) as [m' Heq]. rewrite Hc, list_lookup_fmap in Heq.
    destruct (xs !! i) as [x|]; [|done]. simpl in *. injection Heq as Heq.
    unfold execution_of in Heq. destruct (run_tool _ _ _ _).2; [|done].
    injection Heq as ->. done.
  - apply lookup_ge_None in Hi. rewrite (lookup_ge_None_2 xs); [done|].
    rewrite <-Hlen, Hc, length_fmap in Hi. lia.
Qed.

(** * Properties *)

(** The executor answers every call by its own run: when all tools of a batch
are registered, each call is run exactly once (at its own tick, parallel
batches included) whatever happens to the others; the results come back in
call order, numbered 0, 1, ..., or the error is that of the first failing
call. *)
Theorem Execute_complete t r calls env :
  (∀ call, call ∈ calls → is_Some (run_Get r (call_Name call))) →
  ∃ m slots, length slots = length calls ∧
    (∀ i call, calls !! i = Some call → ∃ tool m',
       run_Get r (call_Name call) = Some tool ∧
       slots !! i = Some (execution_of i call
         (run_tool (t + i) tool call (mkToolEnv (te_UserID env) (te_SessionID env) m')).2)) ∧
    match Execute schema_compiles json_instance schema_validates t r calls env with
    | (m0, ran, Ok xs) => m0 = m ∧ ran = calls ∧ slots = Ok <$> xs
    | (m0, ran, Err e) => m0 = m ∧ ran = calls ∧
        ∃ i, slots !! i = Some (Err e) ∧ ∀ j, j < i → ∃ x, slots !! j = Some (Ok x)
    end.
Proof.
  intros Hreg. destruct (resolve_calls_registered r calls Hreg) as [resolved Hres].
  unfold Execute. rewrite Hres. destruct (resolve_calls_ok _ _ _ Hres) as [Hfst Hall].
  pose proof (execute_loop_slots (length resolved) t 0 env resolved ltac:(lia)) as [Hlen Hslots].
  destruct (loop (length resolved) t 0 env resolved) as [m slots]. simpl in *.
  exists m, slots. split_and!.
  - by rewrite Hlen, <-Hfst, length_fmap.
  - intros i call. rewrite <-Hfst, list_lookup_fmap.
    destruct (resolved !! i) as [[c tool]|] eqn:Hi; [|done]. simpl. intros [= <-].
    destruct (Hslots i c tool Hi) as [m' ->]. exists tool, m'. split; [|done].
    rewrite Forall_forall in Hall. apply (Hall (c, tool)). by eapply list_elem_of_lookup_2.
  - destruct (collect slots) as [xs|e] eqn:Hc.
    + apply collect_ok in Hc. done.
    + apply collect_err in Hc. done.
Qed.

(** A parallel batch of one call is the same as a sequential call: it leaves
the metadata the tool left, deletions and overwritten keys included; and in a
larger batch a key is what the last call that changed or deleted it made of it. *)
Theorem parallel_metadata (original : Metadata) (copies : list Metadata) (last : Metadata) k :
  mergeMetadataWrites original original [last] = last ∧
  mergeMetadataWrites original original (copies ++ [last]) !! k =
    if decide (last !! k = original !! k)
    then mergeMetadataWrites original original copies !! k
    else last !! k.
Proof.
  assert (∀ shared k, merge_copy original shared last !! k =
    if decide (last !! k = original !! k) then shared !! k else last !! k) as Hm.
  { intros shared k0. rewrite merge_copy_lookup.
    destruct (original !! k0) as [v|], (last !! k0) as [v'|].
    - destruct (decide (v = v')) as [->|]; [by rewrite decide_True|].
      rewrite decide_False; [done|]. congruence.
    - by rewrite decide_False.
    - by rewrite decide_False.
    - by rewrite decide_True. }
  split.
  - apply map_eq. intros k0. unfold mergeMetadataWrites. simpl. rewrite Hm.
    by case_decide.
  - unfold mergeMetadataWrites. rewrite foldl_app. simpl. apply Hm.
Qed.

(** Tool errors are always classified: what Execute reports is an input,
schema, timeout or execution error; panics are execution errors, deadline errors
of a tool are timeouts. *)
Theorem Execute_error_classified t r calls env m ran e :
  (∀ call, call ∈ calls → is_Some (run_Get r (call_Name call))) →
  Execute schema_compiles json_instance schema_validates t r calls env = (m, ran, Err e) →
  isToolInputInvalid e || isToolSchemaInvalid e || isToolTimeout e ||
  isToolExecutionFailed e = true.
Proof.
  intros Hreg. destruct (resolve_calls_registered r calls Hreg) as [resolved Hres].
  unfold Execute. rewrite Hres.
  pose proof (execute_loop_slots (length resolved) t 0 env resolved ltac:(lia)) as [Hlen Hslots].
  destruct (loop (length resolved) t 0 env resolved) as [m0 slots]. simpl in *.
  intros [= _ _ Hc]. apply collect_err in Hc as (i & Hi & _).
  destruct (lookup_lt_is_Some_2 resolved i) as [[call tool] Hp].
  { rewrite <-Hlen. apply lookup_lt_Some in Hi. done. }
  destruct (Hslots _ _ _ Hp) as [m' Heq]. rewrite Hi in Heq. injection Heq as Heq.
  unfold execution_of in Heq. destruct (run_tool _ _ _ _).2 as [?|e0]; [done|].
  injection Heq as ->. unfold classifyToolError.
  destruct (isToolInputInvalid e0) eqn:H1; simpl; [by rewrite H1|].
  destruct (isToolSchemaInvalid e0) eqn:H2; simpl; [by rewrite H1, H2|].
  destruct (isToolExecutionFailed e0) eqn:H3; simpl; [by rewrite H1, H2, H3, orb_true_r|].
  destruct (isToolTimeout e0) eqn:H4; simpl; [by rewrite H1, H2, H4|].
  destruct (isDeadlineExceeded e0); simpl.
  - by rewrite orb_true_r.
  - by rewrite !orb_true_r.
Qed.

(** Caching schemas changes no result: with a cache that holds only what was
compiled, the cached compilation returns what compiling would, and keeps the
cache so. *)
Lemma compileJSONSchema_cached (cache : GoMap (option Error)) source :
  map_Forall (λ src entry, entry = compile_entry schema_compiles src) cache →
  (compileJSONSchema schema_compiles cache source).2 = compile_entry schema_compiles source ∧
  map_Forall (λ src entry, entry = compile_entry schema_compiles src)
    (compileJSONSchema schema_compiles cache source).1.
Proof.
  intros Hc. unfold compileJSONSchema. destruct (cache !! source) as [entry|] eqn:Hl; simpl.
  - split; [by apply (map_Forall_lookup_1 _ _ _ _ Hc Hl)|done].
  - split; [done|]. by apply map_Forall_insert_2.
Qed.

End execute.

(** * Sample tools *)

(** Accepts every schema and every input. *)
Definition no_schema (_ : RawMessage) : option Error := None.
Definition no_mismatch (_ _ : RawMessage) : option Error := None.

Definition sample_spec (name : string) (p : Permission) : ToolSpec :=
  mkSpec name "" p ExecutionModeAuto 0 (mkSchema "" None).
(** A read tool that answers its input, and a write tool that panics. *)
Definition echo_tool : Tool :=
  mkTool (sample_spec "echo" PermissionRead)
    (λ _ input env, (te_Metadata env, Returned (Some (mkResult input "" false false "" ∅)))) [].
Definition broken_tool : Tool :=
  mkTool (sample_spec "write" PermissionWrite)
    (λ _ _ env, (te_Metadata env, Panicked "boom")) [].
Definition sample_registry : Registry :=
  registry_Register (registry_Register ∅ echo_tool) broken_tool.
Definition sample_tools : RunToolRegistry := mkRunRegistry sample_registry ∅.
Definition sample_env : ToolEnv := mkToolEnv "u" "s" ∅.
Definition echo_call (id : string) : ToolCall := mkCall id "echo" "{}".
Definition write_call (id : string) : ToolCall := mkCall id "write" "{}".

Lemma sample_registered call :
  call ∈ [echo_call "a"; write_call "b"; echo_call "c"] →
  is_Some (run_Get sample_tools (call_Name call)).
Proof. rewrite !elem_of_cons, elem_of_nil. intros [->|[->|[->|[]]]]; by vm_compute; eexists. Qed.

Lemma Execute_complete_witness :
  Execute no_schema no_schema no_mismatch 0 sample_tools
    [echo_call "a"; write_call "b"; echo_call "c"] sample_env =
  (∅, [echo_call "a"; write_call "b"; echo_call "c"],
   Err (ErrPair ErrToolExecutionFailed (ErrText "tool write panicked: boom"))) ∧
  ∃ slots, length slots = 3 ∧
    ∃ i, slots !! i = Some (Err (ErrPair ErrToolExecutionFailed
           (ErrText "tool write panicked: boom")) : res Error ToolExecution) ∧
      ∀ j, j < i → ∃ x, slots !! j = Some (Ok x).
Proof.
  split; [by vm_compute|].
  destruct (Execute_complete no_schema no_schema no_mismatch 0 sample_tools
    [echo_call "a"; write_call "b"; echo_call "c"] sample_env sample_registered)
    as (m & slots & Hlen & _ & Hrun).
  exists slots. split; [exact Hlen|]. vm_compute in Hrun. apply Hrun.
Defined.

Lemma Execute_error_classified_witness :
  isToolExecutionFailed (ErrPair ErrToolExecutionFailed (ErrText "tool write panicked: boom")) = true ∧
  isToolInputInvalid (ErrPair ErrToolExecutionFailed (ErrText "tool write panicked: boom")) ||
  isToolSchemaInvalid (ErrPair ErrToolExecutionFailed (ErrText "tool write panicked: boom")) ||
  isToolTimeout (ErrPair ErrToolExecutionFailed (ErrText "tool write panicked: boom")) ||
  isToolExecutionFailed (ErrPair ErrToolExecutionFailed (ErrText "tool write panicked: boom")) = true.
Proof.
  split; [done|].
  apply (Execute_error_classified no_schema no_schema no_mismatch 0 sample_tools
    [echo_call "a"; write_call "b"; echo_call "c"] sample_env ∅
    [echo_call "a"; write_call "b"; echo_call "c"]); [exact sample_registered|by vm_compute].
Defined.
