(* ===== verification/AgentCore.v ===== *)
(** The agent runtime: [src/goagent/agentcore]: run state, stages, pipeline, the
ReAct loop, approval checkpoints, and the agent's [Run] and [Resume].

Stages mutate a shared run state, so a stage is a function of the run state and
of the world: a tick that counts host callbacks, the tools registered for the
run, and the trace of what the run did. Model clients, guards, policy engines,
approvers, providers, tools and validators are the host's: they are functions of
the tick and of their request. The streaming path of [ThinkStage] is not
separate: [ChatStream] is documented to return what [Chat] would. *)

From S2P Require Import Prelude AgentTools.

(** * Data *)

Definition Role := string.

Record Message := mkMessage {
  msg_Role : Role;
  msg_Content : string;
  msg_ToolCallID : string;
  msg_ToolCalls : list ToolCall
}.
Record MemoryMessage := mkMemoryMessage { mm_Role : Role; mm_Content : string }.

Record Usage := mkUsage { us_Input : Z; us_Output : Z }.

Record ChatRequest := mkChatRequest {
  cr_Messages : list Message; cr_Tools : list ToolSpec; cr_MaxOutputTokens : Z
}.
Record ChatResponse := mkChatResponse {
  resp_Content : string; resp_ToolCalls : list ToolCall; resp_Usage : Usage
}.

Record RunRequest := mkRequest {
  req_RunID : string;
  req_Input : string;
  req_UserID : string;
  req_SessionID : string;
  req_Metadata : Metadata;
  req_AllowedPermissions : list Permission;
  req_PolicyContext : PolicyContext
}.

Record ExecutionSummary := mkExecSummary {
  es_LLMCalls : Z;
  es_ToolCalls : Z;
  es_UsedTools : list string;
  es_Duration : Duration;
  es_AbortReason : string
}.
#[global] Instance eta_ExecutionSummary : Eta ExecutionSummary := λ s,
  mkExecSummary (es_LLMCalls s) (es_ToolCalls s) (es_UsedTools s) (es_Duration s)
    (es_AbortReason s).

(** [CheckpointRequest] and [RunCheckpoint]. *)
Record CheckpointRequest := mkCheckpointRequest {
  cq_Input : string;
  cq_UserID : string;
  cq_SessionID : string;
  cq_Metadata : Metadata;
  cq_AllowedPermissions : list Permission;
  cq_PolicyContext : PolicyContext
}.
Record RunCheckpoint := mkRunCheckpoint {
  ck_Version : Z;
  ck_RunID : string;
  ck_Request : CheckpointRequest;
  ck_Iteration : Z;
  ck_Messages : list Message;
  ck_Usage : Usage;
  ck_LLMCalls : Z;
  ck_ToolCalls : Z;
  ck_UsedTools : list string;
  ck_StartedAt : Time;
  ck_Metadata : Metadata;
  ck_AllowedPermissions : list Permission;
  ck_PendingCalls : list ToolCall;
  ck_PromptBlocks : list PromptBlock
}.

Record ToolApprovalResolution := mkResolution {
  rs_Index : Z;
  rs_ToolCallID : string;
  rs_Tool : string;
  rs_Allowed : bool;
  rs_Reason : string
}.

Record RunResult := mkRunResult {
  rr_RunID : string;
  rr_Content : string;
  rr_StructuredOutput : RawMessage;
  rr_OutputMetadata : Metadata;
  rr_Usage : Usage;
  rr_ExecutionSummary : ExecutionSummary;
  rr_Interruption : option RunCheckpoint
}.

Record ContextProjectionResult := mkProjection {
  cp_Messages : list Message; cp_Metadata : Metadata
}.

Record RunState := mkRunState {
  RunID : string;
  Input : RunRequest;
  Iteration : Z;
  Messages : list Message;
  Final : option RunResult;
  RunUsage : Usage;
  StMetadata : Metadata;
  HasSink : bool;
  PromptBlocks : list PromptBlock;
  CompiledPromptOf : option CompiledPrompt;
  ContextProjection : option ContextProjectionResult;
  LastResponse : option ChatResponse;
  PendingCalls : list ToolCall;
  ToolResults : list ToolExecution;
  AllowedPermissions : list Permission;
  summary : ExecutionSummary;
  startedAt : Time;
  usedToolLookup : gset string
}.
#[global] Instance eta_RunState : Eta RunState := λ s,
  mkRunState (RunID s) (Input s) (Iteration s) (Messages s) (Final s) (RunUsage s)
    (StMetadata s) (HasSink s) (PromptBlocks s) (CompiledPromptOf s) (ContextProjection s)
    (LastResponse s) (PendingCalls s) (ToolResults s) (AllowedPermissions s) (summary s)
    (startedAt s) (usedToolLookup s).

Definition zeroExecSummary : ExecutionSummary := mkExecSummary 0 0 [] 0 "".

(** [cloneMetadata], [cloneStringMap], [cloneMessages]: copies with the value of
the original. *)
Definition cloneMetadata (m : Metadata) : Metadata := map_clone m.
Definition cloneStringMap (m : GoMap string) : GoMap string := map_clone m.
Definition cloneCall (c : ToolCall) : ToolCall :=
  mkCall (call_ID c) (call_Name c) ("" +:+ call_Input c).
Definition cloneMessages (messages : list Message) : list Message :=
  (λ m, mkMessage (msg_Role m) (msg_Content m) (msg_ToolCallID m)
          (cloneCall <$> msg_ToolCalls m)) <$> messages.

Definition NewRunState (now : Time) (runID : string) (req : RunRequest) (sink : bool) : RunState :=
  mkRunState runID req 0 [] None (mkUsage 0 0) (map_assign ∅ (req_Metadata req)) sink
    [] None None None [] [] ([] ++ req_AllowedPermissions req) zeroExecSummary now ∅.

(** * The world of a run *)

Record ToolApprovalDecision := mkApprovalDecision {
  ad_Allowed : bool; ad_Pending : bool; ad_Reason : string
}.
Record ToolApprovalRequest := mkApprovalRequest {
  ar_RunID : string;
  ar_UserID : string;
  ar_SessionID : string;
  ar_Tool : string;
  ar_Input : RawMessage;
  ar_Metadata : Metadata
}.
Record InputGuardRequest := mkGuardRequest {
  ig_RunID : string; ig_Input : string; ig_Metadata : Metadata; ig_PolicyContext : PolicyContext
}.
Record OutputFormat := mkOutputFormat {
  of_Name : string; of_Description : string; of_Instructions : string; of_JSONSchema : RawMessage
}.
Record OutputValidationRequest := mkValidationRequest {
  ov_RunID : string; ov_Content : string; ov_Format : OutputFormat; ov_Metadata : Metadata
}.
Record OutputValidationResult := mkValidationResult {
  or_Structured : RawMessage; or_Metadata : Metadata
}.
Record ContextProjectionRequest := mkProjectionRequest {
  pj_Messages : list Message; pj_Budget : Z * Z * Z; pj_Metadata : Metadata
}.
Record Skill := mkSkill {
  sk_Name : string; sk_Description : string; sk_Priority : Z; sk_Cacheable : bool;
  sk_Content : string
}.

(** What a run does, in order. *)
Inductive Effect :=
| EvEmit (typ stage : string) (iteration : Z) (metadata : Metadata)
| EvGuard (req : InputGuardRequest) (accepted : bool)
| EvLoad (session : string)
| EvProject
| EvChat (req : ChatRequest)
| EvPolicy (call : ToolCall) (req : PolicyRequest) (decision : PolicyDecision)
| EvApproval (call : ToolCall) (decision : ToolApprovalDecision)
| EvResolved (call : ToolCall) (allowed : bool)
| EvTool (call : ToolCall)
| EvSave (session : string) (messages : list MemoryMessage).

Record World := mkWorld {
  w_tick : nat;
  w_tools : RunToolRegistry;
  w_trace : list Effect
}.
#[global] Instance eta_World : Eta World := λ w, mkWorld (w_tick w) (w_tools w) (w_trace w).

(** Computations of a run: they may fail, but what they did to the state and
the world stays done. *)
Definition M (A : Type) : Type := World → RunState → World * RunState * res Error A.
#[global] Instance M_ret : MRet M := λ A a w s, (w, s, Ok a).
#[global] Instance M_bind : MBind M := λ A B k m w s,
  match m w s with
  | (w, s, Ok a) => k a w s
  | (w, s, Err e) => (w, s, Err e)
  end.
Definition fail {A} (e : Error) : M A := λ w s, (w, s, Err e).
Definition get : M RunState := λ w s, (w, s, Ok s).
Definition modify (f : RunState → RunState) : M unit := λ w s, (w, f s, Ok tt).
Definition getTools : M RunToolRegistry := λ w s, (w, s, Ok (w_tools w)).

(** A host callback at the current tick, and what it adds to the trace. *)
Definition callback {A} (f : nat → A) (eff : A → list Effect) : M A := λ w s,
  let a := f (w_tick w) in
  (mkWorld (S (w_tick w)) (w_tools w) (w_trace w ++ eff a), s, Ok a).
Definition note (eff : list Effect) : M unit := λ w s,
  (w <| w_trace := w_trace w ++ eff |>, s, Ok tt).

Inductive StageResult := StageContinue | StageBreak | StageAbort | StageInterrupt.
#[global] Instance StageResult_eq_dec : EqDecision StageResult.
Proof. solve_decision. Defined.

Definition EventStageStarted := "stage.started".
Definition EventStageCompleted := "stage.completed".
Definition EventStageFailed := "stage.failed".
Definition EventToolStarted := "tool.started".
Definition EventToolCompleted := "tool.completed".
Definition EventToolFailed := "tool.failed".
Definition EventToolRejected := "tool.rejected".
Definition EventMemoryLoaded := "memory.loaded".
Definition EventMemorySaved := "memory.saved".
Definition EventFinalized := "finalized".
Definition EventOutputValidated := "output.validated".
Definition EventInputValidated := "input.validated".
Definition EventInputRejected := "input.rejected".
Definition EventApprovalRequested := "approval.requested".
Definition EventApprovalCompleted := "approval.completed".
Definition EventApprovalDenied := "approval.denied".
Definition EventApprovalPending := "approval.pending".

(** [RunState.Emit]: the sink's error is ignored. *)
Definition Emit (typ stage : string) (metadata : Metadata) : M unit :=
  s ← get;
  if (HasSink s : bool) then note [EvEmit typ stage (Iteration s) metadata] else mret tt.

Fixpoint for_each {A} (l : list A) (f : A → M unit) : M unit :=
  match l with
  | [] => mret tt
  | a :: l => f a ≫= λ _, for_each l f
  end.

(** * Configuration *)

Record Budget := mkBudget { bg_Input : Z; bg_Output : Z; bg_Total : Z }.

Record ReActConfig := mkConfig {
  c_LLM : nat → ChatRequest → res Error ChatResponse;
  c_PromptCompiler : option (nat → list PromptBlock → res Error CompiledPrompt);
  c_PromptBlocks : list PromptBlock;
  c_PolicyEngine : option (nat → PolicyRequest → PolicyDecision);
  c_MemoryLoad : option (nat → string → res Error (list MemoryMessage));
  c_MemorySave : nat → string → list MemoryMessage → option Error;
  c_SkillProvider : option (nat → RunRequest → res Error (list Skill));
  c_SystemPromptProvider : option (nat → RunRequest → res Error (list PromptBlock));
  c_ToolProvider : option (nat → RunRequest → res Error (list Tool));
  c_ContextProjector :
    option (nat → ContextProjectionRequest → res Error (option ContextProjectionResult));
  c_InputGuard : option (nat → InputGuardRequest → option Error);
  c_ToolApprover : option (nat → ToolApprovalRequest → ToolApprovalDecision);
  c_OutputFormat : OutputFormat;
  c_OutputValidator :
    option (nat → OutputValidationRequest → res Error (option OutputValidationResult));
  (** A [BudgetGuard]: the default one has a [Budget], a host's own is a function. *)
  c_BudgetGuard : option (Budget + (nat → RunState → PolicyDecision));
  c_MaxIterations : Z;
  c_MaxOutputTokens : Z
}.

(** * Stages *)

Section agent.
(** The JSON Schema library, [json.Valid], [%q], [%v] of an error, and the text of
an integer. *)
Context (schema_compiles : RawMessage → option Error) (json_instance : RawMessage → option Error)
  (schema_validates : RawMessage → RawMessage → option Error) (json_valid : RawMessage → bool).
Context (output_schema_check : RawMessage → RawMessage → option Error).
Context (quote : string → string) (error_text : Error → string).
(** The clock, by tick. *)
Context (clock : nat → Time).

Definition inputGuardValidatedKey := "agentcore.input_guard.validated".
Definition memoryLoadedKey := "agentcore.memory.loaded".
Definition contextStageInputAdded := "agentcore.context.input_added".
Definition systemPromptLoadedKey := "agentcore.system_prompt.loaded".
Definition skillsLoadedKey := "agentcore.skills.loaded".
Definition toolProviderLoadedKey := "agentcore.tool_provider.loaded".
Definition outputFormatLoadedKey := "agentcore.output_format.loaded".

(** [state.Metadata[key] == true]. *)
Definition flagged (s : RunState) (key : string) : bool :=
  bool_decide (StMetadata s !! key = Some (ABool true)).
Definition set_flag (key : string) (s : RunState) : RunState :=
  s <| StMetadata := <[key := ABool true]> (StMetadata s) |>.

(** A callback that may fail the stage. *)
Definition try_callback {A} (f : nat → res Error A) (eff : res Error A → list Effect) : M A :=
  r ← callback f eff;
  match r with Ok a => mret a | Err e => fail e end.

Definition InputGuardStage (guard : option (nat → InputGuardRequest → option Error))
    : M StageResult :=
  s ← get;
  match guard with
  | None => mret StageContinue
  | Some validate =>
      if flagged s inputGuardValidatedKey then mret StageContinue
      else
        let pc := req_PolicyContext (Input s) in
        let request := mkGuardRequest (RunID s) (req_Input (Input s))
          (cloneMetadata (req_Metadata (Input s)))
          (mkPolicyContext (pc_TenantID pc) (pc_RequestID pc) (pc_TraceID pc)
             (cloneStringMap (pc_Labels pc))) in
        rejected ← callback (λ t, validate t request)
          (λ r, [EvGuard request (match r with None => true | Some _ => false end)]);
        match (rejected : option Error) with
        | Some _ => Emit EventInputRejected "" ∅ ≫= λ _, fail ErrInputRejected
        | None =>
            modify (set_flag inputGuardValidatedKey) ≫= λ _,
            Emit EventInputValidated "" ∅ ≫= λ _, mret StageContinue
        end
  end.

Definition memoryStateMessages (messages : list MemoryMessage) : list Message :=
  (λ m, mkMessage (mm_Role m) (mm_Content m) "" []) <$>
  filter (λ m, mm_Role m ≠ "tool") messages.

Definition memoryMessages (messages : list Message) : list MemoryMessage :=
  (λ m, mkMemoryMessage (msg_Role m) (msg_Content m)) <$>
  filter (λ m, ¬ (0 < length (msg_ToolCalls m) ∨ msg_Role m = "tool")) messages.

Definition MemoryLoadStage (load : option (nat → string → res Error (list MemoryMessage)))
    : M StageResult :=
  s ← get;
  match load with
  | None => mret StageContinue
  | Some load =>
      if decide (req_SessionID (Input s) = "" ∨ flagged s memoryLoadedKey = true)
      then mret StageContinue
      else
        loaded ← try_callback (λ t, load t (req_SessionID (Input s)))
          (λ _, [EvLoad (req_SessionID (Input s))]);
        modify (λ s, s <| Messages := memoryStateMessages loaded ++ Messages s |>) ≫= λ _,
        modify (set_flag memoryLoadedKey) ≫= λ _,
        Emit EventMemoryLoaded ""
          (<["session_id" := AString (req_SessionID (Input s))]>
             (<["message_count" := AInt (Z.of_nat (length loaded))]> ∅)) ≫= λ _,
        mret StageContinue
  end.

Definition ContextStage : M StageResult :=
  s ← get;
  if decide (req_Input (Input s) = "" ∨ flagged s contextStageInputAdded = true)
  then mret StageContinue
  else
    modify (λ s, s <| Messages := Messages s ++ [mkMessage "user" (req_Input (Input s)) "" []] |>)
      ≫= λ _, modify (set_flag contextStageInputAdded) ≫= λ _, mret StageContinue.

Definition SystemPromptStage
    (provider : option (nat → RunRequest → res Error (list PromptBlock))) : M StageResult :=
  s ← get;
  match provider with
  | None => mret StageContinue
  | Some provide =>
      if flagged s systemPromptLoadedKey then mret StageContinue
      else
        blocks ← try_callback (λ t, provide t (Input s)) (λ _, []);
        modify (λ s, s <| PromptBlocks := PromptBlocks s ++ blocks |>) ≫= λ _,
        modify (set_flag systemPromptLoadedKey) ≫= λ _, mret StageContinue
  end.

Definition renderSkill (sk : Skill) : string :=
  let parts := if decide (sk_Name sk ≠ "") then ["Skill: " +:+ sk_Name sk] else [] in
  let parts := if decide (sk_Description sk ≠ "")
               then parts ++ ["Description: " +:+ sk_Description sk] else parts in
  strings_Join (parts ++ [sk_Content sk]) (String "010" EmptyString).

Definition skillPromptBlock (sk : Skill) : PromptBlock :=
  mkBlock ("skill:" +:+ sk_Name sk) (if sk_Cacheable sk then ModeCacheable else ModeDynamic)
    (sk_Priority sk) (renderSkill sk).

Definition SkillStage (provider : option (nat → RunRequest → res Error (list Skill)))
    : M StageResult :=
  s ← get;
  match provider with
  | None => mret StageContinue
  | Some provide =>
      if flagged s skillsLoadedKey then mret StageContinue
      else
        skills ← try_callback (λ t, provide t (Input s)) (λ _, []);
        modify (λ s, s <| PromptBlocks := PromptBlocks s ++
          (skillPromptBlock <$> filter (λ sk, sk_Content sk ≠ "") skills) |>) ≫= λ _,
        modify (set_flag skillsLoadedKey) ≫= λ _, mret StageContinue
  end.

(** [registry.Register] of the tools a provider returned. *)
Definition registerTools (provided : list Tool) : M unit := λ w s,
  (w <| w_tools := foldl run_Register (w_tools w) provided |>, s, Ok tt).

Definition ToolProviderStage (provider : option (nat → RunRequest → res Error (list Tool)))
    : M StageResult :=
  s ← get;
  match provider with
  | None => mret StageContinue
  | Some provide =>
      if flagged s toolProviderLoadedKey then mret StageContinue
      else
        provided ← try_callback (λ t, provide t (Input s)) (λ _, []);
        registerTools provided ≫= λ _,
        modify (set_flag toolProviderLoadedKey) ≫= λ _, mret StageContinue
  end.

Definition format_IsZero (f : OutputFormat) : Prop :=
  Blank (of_Name f) ∧ Blank (of_Description f) ∧ Blank (of_Instructions f) ∧
  of_JSONSchema f = "".
#[local] Instance format_IsZero_dec f : Decision (format_IsZero f).
Proof. unfold format_IsZero. apply _. Defined.

Definition promptContent (f : OutputFormat) : string :=
  let add (b : bool) (parts more : list string) := if b then parts ++ more else parts in
  let parts := ["Output format:"] in
  let parts := add (bool_decide (TrimSpace (of_Name f) ≠ "")) parts
                 ["name: " +:+ TrimSpace (of_Name f)] in
  let parts := add (bool_decide (TrimSpace (of_Description f) ≠ "")) parts
                 ["description: " +:+ TrimSpace (of_Description f)] in
  let parts := add (bool_decide (TrimSpace (of_Instructions f) ≠ "")) parts
                 [TrimSpace (of_Instructions f)] in
  let parts := add (bool_decide (of_JSONSchema f ≠ "")) parts
    ["Return the final answer as JSON matching this JSON Schema. Do not wrap the JSON in Markdown fences.";
     of_JSONSchema f] in
  strings_Join parts (String "010" EmptyString).

Definition OutputFormatStage (format : OutputFormat) : M StageResult :=
  s ← get;
  if decide (format_IsZero format ∨ flagged s outputFormatLoadedKey = true)
  then mret StageContinue
  else
    let content := promptContent format in
    (if decide (content ≠ "")
     then modify (λ s, s <| PromptBlocks := PromptBlocks s ++
            [mkBlock "agentcore.output_format" ModeDynamic 1000 content] |>)
     else mret tt) ≫= λ _,
    modify (set_flag outputFormatLoadedKey) ≫= λ _, mret StageContinue.

Definition PromptStage (compiler : option (nat → list PromptBlock → res Error CompiledPrompt))
    (blocks : list PromptBlock) : M StageResult :=
  s ← get;
  match CompiledPromptOf s, compiler with
  | Some _, _ | _, None => mret StageContinue
  | None, Some compile =>
      compiled ← try_callback (λ t, compile t (blocks ++ PromptBlocks s)) (λ _, []);
      modify (λ s, s <| CompiledPromptOf := Some compiled |>) ≫= λ _, mret StageContinue
  end.

(** [budgetFromGuard]. *)
Definition budgetFromGuard (guard : option (Budget + (nat → RunState → PolicyDecision)))
    : Budget :=
  match guard with Some (inl b) => b | _ => mkBudget 0 0 0 end.

Definition ContextProjectionStage
    (projector : option (nat → ContextProjectionRequest → res Error (option ContextProjectionResult)))
    (budget : Budget) : M StageResult :=
  s ← get;
  match projector with
  | None => modify (λ s, s <| ContextProjection := None |>) ≫= λ _, mret StageContinue
  | Some project =>
      let request := mkProjectionRequest ([] ++ Messages s)
        (bg_Input budget, bg_Output budget, bg_Total budget) (cloneMetadata (StMetadata s)) in
      projected ← try_callback (λ t, project t request) (λ _, [EvProject]);
      match (projected : option ContextProjectionResult) with
      | None => modify (λ s, s <| ContextProjection := None |>) ≫= λ _, mret StageContinue
      | Some p =>
          modify (λ s, s <| ContextProjection :=
            Some (mkProjection ([] ++ cp_Messages p) (cloneMetadata (cp_Metadata p))) |>) ≫= λ _,
          mret StageContinue
      end
  end.

(** ** Think *)

Definition rejectToolCall (r : RunToolRegistry) (call : ToolCall) : string :=
  match run_Get r (call_Name call) with
  | None =>
      "Tool " +:+ quote (call_Name call) +:+ " is not available. Available tools: " +:+
      strings_Join (sp_Name <$> run_Specs r) ", " +:+ ". Use one of them or answer directly."
  | Some tool =>
      match ValidateInput schema_compiles json_instance schema_validates
              (sp_Schema (t_Spec tool)) (call_Input call) with
      | Some e =>
          if isToolSchemaInvalid e then ""
          else "Tool " +:+ call_Name call +:+ " returned a recoverable error: " +:+ error_text e +:+
               ". Correct the arguments and try again."
      | None => ""
      end
  end.

Definition chatMessages (s : RunState) : list Message :=
  let source := match ContextProjection s with Some p => cp_Messages p | None => Messages s end in
  match CompiledPromptOf s with
  | Some compiled =>
      if decide (cp_Content compiled ≠ "")
      then mkMessage "system" (cp_Content compiled) "" [] :: source else source
  | None => source
  end.

Definition chatToolSpecs (r : RunToolRegistry) : list ToolSpec :=
  (λ spec, mkSpec (sp_Name spec) (sp_Description spec) (sp_Permission spec) "" 0
             (sp_Schema spec)) <$> run_Specs r.

(** [recordLLMCall] and the bookkeeping of a response. *)
Definition record_response (resp : ChatResponse) (s : RunState) : RunState :=
  s <| summary := (summary s) <| es_LLMCalls := (es_LLMCalls (summary s) + 1)%Z |> |>
    <| LastResponse := Some resp |>
    <| RunUsage := mkUsage (wrap64 (us_Input (RunUsage s) + us_Input (resp_Usage resp)))
                           (wrap64 (us_Output (RunUsage s) + us_Output (resp_Usage resp))) |>
    <| PendingCalls := [] |>.

(** The loop over [resp.ToolCalls]: the messages that answer rejected calls. *)
Fixpoint sort_calls (r : RunToolRegistry) (calls : list ToolCall) : M (list Message) :=
  match calls with
  | [] => mret []
  | call :: calls =>
      let reason := rejectToolCall r call in
      if decide (reason ≠ "") then
        Emit EventToolRejected "" (<["tool" := AString (call_Name call)]> ∅) ≫= λ _,
        rest ← sort_calls r calls;
        mret (mkMessage "tool" reason (call_ID call) [] :: rest)
      else
        modify (λ s, s <| PendingCalls := PendingCalls s ++
          [mkCall (call_ID call) (call_Name call) (call_Input call)] |>) ≫= λ _,
        sort_calls r calls
  end.

Definition ThinkStage (llm : nat → ChatRequest → res Error ChatResponse) (maxOutputTokens : Z)
    : M StageResult :=
  s ← get;
  r ← getTools;
  let req := mkChatRequest (chatMessages s) (chatToolSpecs r) maxOutputTokens in
  resp ← try_callback (λ t, llm t req) (λ _, [EvChat req]);
  modify (record_response resp) ≫= λ _,
  rejected ← sort_calls r (resp_ToolCalls resp);
  (if decide (0 < length (resp_ToolCalls resp)) then
     modify (λ s, s <| Messages := Messages s ++
       [mkMessage "assistant" (resp_Content resp) "" ([] ++ resp_ToolCalls resp)] |>) ≫= λ _,
     modify (λ s, s <| Messages := Messages s ++ rejected |>)
   else if decide (resp_Content resp ≠ "") then
     modify (λ s, s <| Messages := Messages s ++
       [mkMessage "assistant" (resp_Content resp) "" []] |>)
   else mret tt) ≫= λ _,
  mret StageContinue.

(** ** Budget, policy, approval *)

(** [budgetGuard.Check]. *)
Definition exceeds (what : string) (used max : Z) : PolicyDecision :=
  mkDecision false (what +:+ " tokens " +:+ pretty used +:+ " exceeds max " +:+ pretty max).
Definition budget_Check (b : Budget) (u : Usage) : PolicyDecision :=
  if decide (0 < bg_Input b ∧ bg_Input b < us_Input u)%Z
  then exceeds "input" (us_Input u) (bg_Input b)
  else if decide (0 < bg_Output b ∧ bg_Output b < us_Output u)%Z
  then exceeds "output" (us_Output u) (bg_Output b)
  else
    let total := wrap64 (us_Input u + us_Output u) in
    if decide (0 < bg_Total b ∧ bg_Total b < total)%Z
    then exceeds "total" total (bg_Total b)
    else mkDecision true "".

Definition BudgetStage (guard : option (Budget + (nat → RunState → PolicyDecision)))
    : M StageResult :=
  s ← get;
  match guard with
  | None => mret StageContinue
  | Some g =>
      decision ← match g with
                 | inl b => mret (budget_Check b (RunUsage s))
                 | inr check => callback (λ t, check t s) (λ _, [])
                 end;
      if pd_Allowed decision then mret StageContinue
      else fail (ErrBudgetExceeded (if decide (pd_Reason decision = "")
                                    then "budget guard denied run" else pd_Reason decision))
  end.

Definition policy_request (s : RunState) (call : ToolCall) (tool : Tool) : PolicyRequest :=
  mkPolicyRequest (RunID s) (req_UserID (Input s)) (req_SessionID (Input s)) (call_Name call)
    (sp_Permission (t_Spec tool)) (call_Input call) (AllowedPermissions s)
    (req_PolicyContext (Input s)) (StMetadata s).

Fixpoint check_policy (decide_ : nat → PolicyRequest → PolicyDecision) (r : RunToolRegistry)
    (calls : list ToolCall) : M StageResult :=
  match calls with
  | [] => mret StageContinue
  | call :: calls =>
      match run_MustGet r (call_Name call) with
      | Err e => fail e
      | Ok tool =>
          s ← get;
          decision ← callback (λ t, decide_ t (policy_request s call tool))
            (λ d, [EvPolicy call (policy_request s call tool) d]);
          if pd_Allowed decision then check_policy decide_ r calls
          else fail (ErrPolicyDenied (call_Name call) (pd_Reason decision))
      end
  end.

Definition PolicyStage (engine : option (nat → PolicyRequest → PolicyDecision)) : M StageResult :=
  s ← get;
  r ← getTools;
  match engine with
  | None => mret StageContinue
  | Some decide_ =>
      if decide (length (PendingCalls s) = 0) then mret StageContinue
      else check_policy decide_ r (PendingCalls s)
  end.

Definition approvalDeniedError (tool reason : string) : Error :=
  ErrApprovalDenied tool (if decide (reason = "") then "approval denied" else reason).

(** The metadata of an approval event. *)
Definition approvalResolutionMetadata (index : nat) (tool reason : string) : Metadata :=
  let metadata : Metadata :=
    <["index" := AInt (Z.of_nat index)]> (<["tool" := AString tool]> ∅) in
  if decide (reason ≠ "") then <["reason" := AString reason]> metadata else metadata.

Fixpoint ask_approvals (approve : nat → ToolApprovalRequest → ToolApprovalDecision) (i : nat)
    (calls : list ToolCall) : M StageResult :=
  match calls with
  | [] => mret StageContinue
  | call :: calls =>
      Emit EventApprovalRequested "" (approvalResolutionMetadata i (call_Name call) "") ≫= λ _,
      s ← get;
      decision ← callback (λ t, approve t (mkApprovalRequest (RunID s) (req_UserID (Input s))
        (req_SessionID (Input s)) (call_Name call) (call_Input call) (StMetadata s)))
        (λ d, [EvApproval call d]);
      let metadata := approvalResolutionMetadata i (call_Name call) (ad_Reason decision) in
      if ad_Pending decision then
        Emit EventApprovalPending "" metadata ≫= λ _, mret StageInterrupt
      else if ad_Allowed decision then
        Emit EventApprovalCompleted "" metadata ≫= λ _, ask_approvals approve (S i) calls
      else
        Emit EventApprovalDenied "" metadata ≫= λ _,
        fail (approvalDeniedError (call_Name call) (ad_Reason decision))
  end.

Definition ApprovalStage (approver : option (nat → ToolApprovalRequest → ToolApprovalDecision))
    : M StageResult :=
  s ← get;
  match approver with
  | None => mret StageContinue
  | Some approve =>
      if decide (length (PendingCalls s) = 0) then mret StageContinue
      else ask_approvals approve 0 (PendingCalls s)
  end.

(** ** Act, observe, finalize *)

(** [s.Executor.Execute(ctx, state.PendingCalls, env)]: the tools share the run's
metadata; each call takes one tick. *)
Definition executeTools : M (res Error (list ToolExecution)) := λ w s,
  let env := mkToolEnv (req_UserID (Input s)) (req_SessionID (Input s)) (StMetadata s) in
  let '(m, ran, r) := Execute schema_compiles json_instance schema_validates (w_tick w)
                        (w_tools w) (PendingCalls s) env in
  (mkWorld (w_tick w + length ran) (w_tools w) (w_trace w ++ (EvTool <$> ran)),
   s <| StMetadata := m |>, Ok r).

(** [recordToolResults]. *)
Definition recordToolResult (s : RunState) (x : ToolExecution) : RunState :=
  let s := s <| summary := (summary s) <| es_ToolCalls := (es_ToolCalls (summary s) + 1)%Z |> |> in
  let name := call_Name (ex_Call x) in
  if decide (name ∈ usedToolLookup s) then s
  else s <| usedToolLookup := {[name]} ∪ usedToolLookup s |>
         <| summary := (summary s) <| es_UsedTools := es_UsedTools (summary s) ++ [name] |> |>.

Definition completed_metadata (x : ToolExecution) : Metadata :=
  let m : Metadata := <["index" := AInt (Z.of_nat (ex_Index x))]>
                        (<["tool" := AString (call_Name (ex_Call x))]> ∅) in
  match ex_Result x with
  | None => m
  | Some r =>
      let m := if decide (tr_Ref r ≠ "") then <["ref" := AString (tr_Ref r)]> m else m in
      <["is_error" := ABool (tr_IsError r)]> m
  end.

Definition ActStage : M StageResult :=
  s ← get;
  if decide (length (PendingCalls s) = 0) then mret StageContinue
  else
    for_each (PendingCalls s)
      (λ call, Emit EventToolStarted "" (<["tool" := AString (call_Name call)]> ∅)) ≫= λ _,
    r ← executeTools;
    match (r : res Error (list ToolExecution)) with
    | Err e =>
        for_each (PendingCalls s)
          (λ call, Emit EventToolFailed "" (<["tool" := AString (call_Name call)]> ∅)) ≫= λ _,
        fail e
    | Ok results =>
        for_each results (λ x, Emit EventToolCompleted "" (completed_metadata x)) ≫= λ _,
        modify (λ s, foldl recordToolResult s results) ≫= λ _,
        modify (λ s, s <| ToolResults := results |>) ≫= λ _, mret StageContinue
    end.

(** The content of the message that answers a call. *)
Definition observation (x : ToolExecution) : string :=
  match ex_Result x with
  | Some r =>
      if tr_Silent r then "Tool " +:+ call_Name (ex_Call x) +:+ " completed."
      else if tr_IsError r
      then "Tool " +:+ call_Name (ex_Call x) +:+ " returned a recoverable error: " +:+
           tr_ForLLM r +:+ ". Correct the arguments and try again."
      else tr_ForLLM r
  | None => "Tool " +:+ call_Name (ex_Call x) +:+ " completed."
  end.
Definition observe_message (x : ToolExecution) : Message :=
  mkMessage "tool" (observation x) (call_ID (ex_Call x)) [].

Definition rejectedOnly (s : RunState) : bool :=
  match LastResponse s with
  | Some resp => bool_decide (0 < length (resp_ToolCalls resp) ∧ length (PendingCalls s) = 0)
  | None => false
  end.

Definition ObserveStage : M StageResult :=
  s ← get;
  if decide (length (ToolResults s) = 0 ∧ rejectedOnly s = false) then mret StageContinue
  else
    modify (λ s, s <| Messages := Messages s ++ (observe_message <$> ToolResults s) |>) ≫= λ _,
    modify (λ s, s <| ToolResults := [] |> <| PendingCalls := [] |>
                   <| Iteration := (Iteration s + 1)%Z |>) ≫= λ _,
    mret StageContinue.

Definition mergeOutputMetadata (base next : Metadata) : Metadata :=
  if decide (size next = 0) then base else map_assign base next.

Definition outputInvalidError (e : Error) : Error :=
  if error_is (λ e, match e with ErrOutputInvalid => true | _ => false end) e then e
  else ErrPair ErrOutputInvalid e.

Definition validateJSONOutput (format : OutputFormat) (content : string)
    : res Error OutputValidationResult :=
  let raw := TrimSpace content in
  if decide (raw = "") then Err (outputInvalidError (ErrText "empty final output"))
  else if json_valid raw then
    match output_schema_check (of_JSONSchema format) raw with
    | Some e => Err (outputInvalidError e)
    | None => Ok (mkValidationResult ("" +:+ raw)
                (<["output_format" := AString (of_Name format)]> (<["schema" := AString "json"]> ∅)))
    end
  else Err (outputInvalidError (ErrText "final output is not valid JSON")).

Definition validateFinalOutput (content : string) (format : OutputFormat)
    (validator : option (nat → OutputValidationRequest → res Error (option OutputValidationResult)))
    : M (RawMessage * Metadata) :=
  s ← get;
  '(structured, metadata) ←
    (if decide (of_JSONSchema format ≠ "") then
       match validateJSONOutput format content with
       | Err e => fail e
       | Ok result => mret (or_Structured result, mergeOutputMetadata ∅ (or_Metadata result))
       end
     else mret ("", ∅));
  match validator with
  | None => mret (structured, metadata)
  | Some validate =>
      r ← callback (λ t, validate t (mkValidationRequest (RunID s) content format
            (cloneMetadata (StMetadata s)))) (λ _, []);
      match (r : res Error (option OutputValidationResult)) with
      | Err e => fail (outputInvalidError e)
      | Ok None => mret (structured, metadata)
      | Ok (Some result) =>
          mret (if decide (or_Structured result ≠ "") then "" +:+ or_Structured result
                else structured,
                mergeOutputMetadata metadata (or_Metadata result))
      end
  end.

(** [executionSummary]: it reads the clock. *)
Definition executionSummary (now : Time) (s : RunState) (abortReason : string) : ExecutionSummary :=
  let duration := TimeSub now (startedAt s) in
  (summary s) <| es_UsedTools := [] ++ es_UsedTools (summary s) |>
              <| es_AbortReason := abortReason |>
              <| es_Duration := if decide (duration ≤ 0)%Z then 1%Z else duration |>.

Definition FinalizeStage (format : OutputFormat)
    (validator : option (nat → OutputValidationRequest → res Error (option OutputValidationResult)))
    : M StageResult :=
  s ← get;
  match LastResponse s with
  | None => mret StageContinue
  | Some resp =>
      if decide (resp_Content resp = "" ∨ 0 < length (resp_ToolCalls resp) ∨
                 0 < length (PendingCalls s) ∨ 0 < length (ToolResults s))
      then mret StageContinue
      else
        '(structured, metadata) ← validateFinalOutput (resp_Content resp) format validator;
        now ← callback clock (λ _, []);
        modify (λ s, s <| Final := Some (mkRunResult (RunID s) (resp_Content resp) structured
          metadata (RunUsage s) (executionSummary now s "") None) |>) ≫= λ _,
        (if decide (structured ≠ "" ∨ 0 < size metadata) then
           let em : Metadata := if decide (of_Name format ≠ "")
                                then <["output_format" := AString (of_Name format)]> ∅ else ∅ in
           let em := if decide (structured ≠ "") then <["structured" := ABool true]> em else em in
           Emit EventOutputValidated "" em
         else mret tt) ≫= λ _,
        mret StageBreak
  end.

(** * Pipeline and ReAct loop *)

Fixpoint Pipeline_Run (stages : list (string * M StageResult)) : M StageResult :=
  match stages with
  | [] => mret StageContinue
  | (name, stage) :: stages =>
      Emit EventStageStarted name ∅ ≫= λ _,
      result ← (λ w s, match stage w s with
                       | (w, s, Err e) => (Emit EventStageFailed name ∅ ≫= λ _, fail e) w s
                       | r => r
                       end);
      Emit EventStageCompleted name ∅ ≫= λ _,
      if decide (result = StageContinue) then Pipeline_Run stages else mret result
  end.

(** The pipeline of [NewReActRunner]. *)
Definition react_stages (c : ReActConfig) : list (string * M StageResult) :=
  [("input_guard", InputGuardStage (c_InputGuard c));
   ("memory_load", MemoryLoadStage (c_MemoryLoad c));
   ("context", ContextStage);
   ("system_prompt", SystemPromptStage (c_SystemPromptProvider c));
   ("skills", SkillStage (c_SkillProvider c));
   ("tool_provider", ToolProviderStage (c_ToolProvider c));
   ("output_format", OutputFormatStage (c_OutputFormat c));
   ("prompt", PromptStage (c_PromptCompiler c) (c_PromptBlocks c));
   ("context_projection", ContextProjectionStage (c_ContextProjector c)
                            (budgetFromGuard (c_BudgetGuard c)));
   ("think", ThinkStage (c_LLM c) (c_MaxOutputTokens c));
   ("budget", BudgetStage (c_BudgetGuard c));
   ("policy", PolicyStage (c_PolicyEngine c));
   ("approval", ApprovalStage (c_ToolApprover c));
   ("act", ActStage);
   ("observe", ObserveStage);
   ("finalize", FinalizeStage (c_OutputFormat c) (c_OutputValidator c))].

Definition react_maxIterations (c : ReActConfig) : Z :=
  if decide (c_MaxIterations c ≤ 0)%Z then 8%Z else c_MaxIterations c.

Definition saveMemory (c : ReActConfig) : M unit :=
  s ← get;
  match c_MemoryLoad c, Final s with
  | None, _ | _, None => mret tt
  | Some _, Some _ =>
      if decide (req_SessionID (Input s) = "") then mret tt
      else
        let messages := memoryMessages (Messages s) in
        r ← callback (λ t, c_MemorySave c t (req_SessionID (Input s)) messages)
          (λ _, [EvSave (req_SessionID (Input s)) messages]);
        match (r : option Error) with
        | Some e => fail e
        | None => Emit EventMemorySaved ""
            (<["session_id" := AString (req_SessionID (Input s))]>
               (<["message_count" := AInt (Z.of_nat (length messages))]> ∅))
        end
  end.

(** [for i := state.Iteration; i < maxIterations; i++], with [n] turns left. *)
Fixpoint react_loop (c : ReActConfig) (n : nat) : M StageResult :=
  match n with
  | O => fail ErrMaxIterations
  | S n =>
      result ← Pipeline_Run (react_stages c);
      match (result : StageResult) with
      | StageBreak => saveMemory c ≫= λ _, Emit EventFinalized "" ∅ ≫= λ _, mret StageBreak
      | StageContinue => react_loop c n
      | _ => mret result
      end
  end.

Definition ReAct_Run (c : ReActConfig) : M StageResult :=
  s ← get;
  react_loop c (Z.to_nat (react_maxIterations c - Iteration s)).

(** * Checkpoints *)

Definition runCheckpointVersion : Z := 1.
(** [uuid.Parse] on the string form of a run ID, and [json.Marshal]. *)
Context (uuid_parse : string → option string) (json_ok : RunCheckpoint → bool).
Definition uuid_nil : string := "00000000-0000-0000-0000-000000000000".

Definition checkpoint_validate (c : RunCheckpoint) : res Error string :=
  if decide (ck_Version c ≠ runCheckpointVersion)
  then Err (ErrInvalidRunCheckpoint ("version " +:+ pretty (ck_Version c)))
  else match uuid_parse (ck_RunID c) with
  | None => Err (ErrInvalidRunCheckpoint "run ID")
  | Some runID =>
      if decide (runID = uuid_nil) then Err (ErrInvalidRunCheckpoint "run ID")
      else if decide (IsZero (ck_StartedAt c)) then Err (ErrInvalidRunCheckpoint "started at")
      else if decide (length (ck_PendingCalls c) = 0)
      then Err (ErrInvalidRunCheckpoint "pending calls")
      else match list_find (λ call, call_Name call = "") (ck_PendingCalls c) with
      | Some (i, _) =>
          Err (ErrInvalidRunCheckpoint ("pending call " +:+ pretty i +:+ " has no tool"))
      | None =>
          if json_ok c then Ok runID
          else Err (ErrInvalidRunCheckpoint "JSON serialization")
      end
  end.

Definition checkpointRequestFromRunRequest (req : RunRequest) : CheckpointRequest :=
  let pc := req_PolicyContext req in
  mkCheckpointRequest (req_Input req) (req_UserID req) (req_SessionID req)
    (cloneMetadata (req_Metadata req)) ([] ++ req_AllowedPermissions req)
    (mkPolicyContext (pc_TenantID pc) (pc_RequestID pc) (pc_TraceID pc)
       (cloneStringMap (pc_Labels pc))).

(** [checkpointToolCalls] and [restoreToolCalls]. *)
Definition checkpointToolCalls (calls : list ToolCall) : list ToolCall := cloneCall <$> calls.
Definition restoreToolCalls (calls : list ToolCall) : list ToolCall := cloneCall <$> calls.

Definition checkpointFromState (s : RunState) : res Error RunCheckpoint :=
  let checkpoint := mkRunCheckpoint runCheckpointVersion (RunID s)
    (checkpointRequestFromRunRequest (Input s)) (Iteration s) (cloneMessages (Messages s))
    (RunUsage s) (es_LLMCalls (summary s)) (es_ToolCalls (summary s))
    ([] ++ es_UsedTools (summary s)) (startedAt s) (cloneMetadata (StMetadata s))
    ([] ++ AllowedPermissions s) (checkpointToolCalls (PendingCalls s)) ([] ++ PromptBlocks s) in
  match checkpoint_validate checkpoint with
  | Err e => Err e
  | Ok _ => Ok checkpoint
  end.

(** [CheckpointRequest.runRequest]. *)
Definition runRequest (r : CheckpointRequest) (runID : string) : RunRequest :=
  let pc := cq_PolicyContext r in
  mkRequest runID (cq_Input r) (cq_UserID r) (cq_SessionID r) (cloneMetadata (cq_Metadata r))
    ([] ++ cq_AllowedPermissions r)
    (mkPolicyContext (pc_TenantID pc) (pc_RequestID pc) (pc_TraceID pc)
       (cloneStringMap (pc_Labels pc))).

Definition restore (c : RunCheckpoint) (sink : bool) : res Error RunState :=
  match checkpoint_validate c with
  | Err e => Err e
  | Ok runID =>
      let usedTools := [] ++ ck_UsedTools c in
      Ok (mkRunState runID (runRequest (ck_Request c) runID) (ck_Iteration c)
            (cloneMessages (ck_Messages c)) None (ck_Usage c) (cloneMetadata (ck_Metadata c)) sink
            ([] ++ ck_PromptBlocks c) None None None (restoreToolCalls (ck_PendingCalls c)) []
            ([] ++ ck_AllowedPermissions c)
            (mkExecSummary (ck_LLMCalls c) (ck_ToolCalls c) usedTools 0 "")
            (ck_StartedAt c) (foldr (λ name l, {[name]} ∪ l) ∅ usedTools))
  end.

(** * Approval resolutions *)

(** The loop over the resolutions, with [ordered] filled so far ([None] where
[seen] is false). *)
Fixpoint order_resolutions (calls : list ToolCall) (ordered : list (option ToolApprovalResolution))
    (resolutions : list ToolApprovalResolution)
    : res Error (list (option ToolApprovalResolution)) :=
  match resolutions with
  | [] => Ok ordered
  | r :: resolutions =>
      if decide (rs_Index r < 0 ∨ Z.of_nat (length calls) ≤ rs_Index r)%Z
      then Err (ErrInvalidApprovalResolution ("index " +:+ pretty (rs_Index r)))
      else
        let index := Z.to_nat (rs_Index r) in
        match ordered !! index with
        | Some (Some _) =>
            Err (ErrInvalidApprovalResolution ("duplicate index " +:+ pretty (rs_Index r)))
        | _ =>
            match calls !! index with
            | None => Err (ErrInvalidApprovalResolution ("index " +:+ pretty (rs_Index r)))
            | Some call =>
                if decide (rs_ToolCallID r ≠ call_ID call ∨ rs_Tool r ≠ call_Name call)
                then Err (ErrInvalidApprovalResolution
                            ("index " +:+ pretty (rs_Index r) +:+ " does not match call"))
                else order_resolutions calls (<[index := Some r]> ordered) resolutions
            end
        end
  end.

(** [for index, found := range seen]. *)
Fixpoint all_found (index : nat) (ordered : list (option ToolApprovalResolution))
    : res Error (list ToolApprovalResolution) :=
  match ordered with
  | [] => Ok []
  | None :: _ => Err (ErrInvalidApprovalResolution ("missing index " +:+ pretty index))
  | Some r :: ordered => let? rest := all_found (S index) ordered in Ok (r :: rest)
  end.

Definition validateApprovalResolutions (calls : list ToolCall)
    (resolutions : list ToolApprovalResolution) : res Error (list ToolApprovalResolution) :=
  if decide (length calls ≠ length resolutions)
  then Err (ErrInvalidApprovalResolution ("got " +:+ pretty (length resolutions) +:+
         " resolutions for " +:+ pretty (length calls) +:+ " calls"))
  else
    let? ordered := order_resolutions calls (replicate (length calls) None) resolutions in
    all_found 0 ordered.

(** The first loop of [ResolvedApprovalStage]: deny on the first resolution that
does. *)
Fixpoint deny_resolved (i : nat) (resolved : list (ToolCall * ToolApprovalResolution)) : M unit :=
  match resolved with
  | [] => mret tt
  | (call, r) :: resolved =>
      if rs_Allowed r then deny_resolved (S i) resolved
      else
        Emit EventApprovalDenied "" (approvalResolutionMetadata i (call_Name call) (rs_Reason r))
          ≫= λ _, fail (approvalDeniedError (call_Name call) (rs_Reason r))
  end.

Definition ResolvedApprovalStage (resolutions : list ToolApprovalResolution) : M StageResult :=
  s ← get;
  match validateApprovalResolutions (PendingCalls s) resolutions with
  | Err e => fail e
  | Ok ordered =>
      let resolved := zip (PendingCalls s) ordered in
      note ((λ '(call, r), EvResolved call (rs_Allowed r)) <$> resolved) ≫= λ _,
      deny_resolved 0 resolved ≫= λ _,
      for_each (imap (λ i '(call, r), approvalResolutionMetadata i (call_Name call) (rs_Reason r))
                  resolved)
        (λ metadata, Emit EventApprovalCompleted "" metadata) ≫= λ _,
      mret StageContinue
  end.

(** * The agent *)

(** [runErrorResult]. *)
Definition runErrorResult (detailed : bool) (w : World) (s : RunState) (e : Error)
    : World * RunState * (option RunResult * option Error) :=
  if detailed then
    (w <| w_tick := S (w_tick w) |>, s,
     (Some (mkRunResult (RunID s) "" "" ∅ (RunUsage s)
        (executionSummary (clock (w_tick w)) s (error_text e)) None), Some e))
  else (w, s, (None, Some e)).

(** [pendingRunResult] with [interruptedRunResult]. *)
Definition pendingRunResult (detailed : bool) (w : World) (s : RunState)
    : World * RunState * (option RunResult * option Error) :=
  match checkpointFromState s with
  | Err e => runErrorResult detailed w s e
  | Ok checkpoint =>
      let partial := mkRunResult (RunID s) "" "" ∅ (RunUsage s)
        (executionSummary (clock (w_tick w)) s (error_text ErrApprovalPending))
        (Some checkpoint) in
      (w <| w_tick := S (w_tick w) |>, s,
       (if detailed then Some partial else None, Some ErrApprovalPending))
  end.

(** How [runWithEventSink] and [resume] end. *)
Definition finish (detailed : bool) (p : World * RunState * res Error StageResult)
    : World * RunState * (option RunResult * option Error) :=
  match p with
  | (w, s, Err e) => runErrorResult detailed w s e
  | (w, s, Ok StageInterrupt) => pendingRunResult detailed w s
  | (w, s, Ok _) => (w, s, (Final s, None))
  end.

(** [newRunToolRegistry] over the configured registry. *)
Definition newRunToolRegistry (registry : Registry) : RunToolRegistry :=
  mkRunRegistry (registry_Clone registry) ∅.

(** [runWithEventSink]; [newID] is what [NewRunID] returns. *)
Definition Agent_Run (c : ReActConfig) (registry : Registry) (sink detailed : bool)
    (newID : string) (req : RunRequest)
    : World * RunState * (option RunResult * option Error) :=
  let runID := if decide (req_RunID req = uuid_nil) then newID else req_RunID req in
  let state := NewRunState (clock 0) runID req sink in
  let w := mkWorld 1 (newRunToolRegistry registry) [] in
  finish detailed (ReAct_Run c w state).

(** [rehydrateToolProvider]. *)
Definition rehydrateToolProvider (c : ReActConfig) : M unit :=
  s ← get;
  match c_ToolProvider c with
  | None => mret tt
  | Some provide =>
      provided ← try_callback (λ t, provide t (Input s)) (λ _, []);
      registerTools provided
  end.

(** The pipeline [resume] runs before it enters the loop again. *)
Definition resume_stages (c : ReActConfig) (resolutions : list ToolApprovalResolution)
    : list (string * M StageResult) :=
  [("policy", PolicyStage (c_PolicyEngine c));
   ("approval_resume", ResolvedApprovalStage resolutions);
   ("act", ActStage);
   ("observe", ObserveStage)].

Definition Agent_Resume (c : ReActConfig) (registry : Registry) (sink detailed : bool)
    (checkpoint : RunCheckpoint) (resolutions : list ToolApprovalResolution)
    : World * option RunState * (option RunResult * option Error) :=
  let w := mkWorld 0 (newRunToolRegistry registry) [] in
  match restore checkpoint sink with
  | Err e => (w, None, (None, Some e))
  | Ok state =>
      let '(w, s, r) :=
        match validateApprovalResolutions (PendingCalls state) resolutions with
        | Err e => runErrorResult detailed w state e
        | Ok _ =>
            finish detailed
              ((rehydrateToolProvider c ≫= λ _,
                result ← Pipeline_Run (resume_stages c resolutions);
                if decide (result ≠ StageContinue)
                then fail (ErrText "resumed approval did not continue")
                else ReAct_Run c) w state)
        end in
      (w, Some s, r)
  end.

End agent.
