(* ===== verification/AgentSafety.v ===== *)
(** Safety of an agent run: authorised tool calls, answered tool calls, bounded
model calls, budgets. *)

From S2P Require Import Prelude AgentTools AgentCore.

(** * Computations that only add certain effects *)

(** [m] adds effects in [E] to the trace and relates the states by [F]. *)
Definition within (F : relation RunState) (E : Effect → Prop) {A} (m : M A) : Prop :=
  ∀ w s, F s (m w s).1.2 ∧
    ∃ eff, w_trace (m w s).1.1 = w_trace w ++ eff ∧ Forall E eff.

Section within.
Context (F : relation RunState) `{!PreOrder F} (E : Effect → Prop).

Lemma within_ret {A} (a : A) : within F E (mret a).
Proof. intros w s. split; [reflexivity|]. exists []. by rewrite app_nil_r. Qed.
Lemma within_fail {A} e : within F E (fail (A := A) e).
Proof. intros w s. split; [reflexivity|]. exists []. by rewrite app_nil_r. Qed.
Lemma within_get : within F E get.
Proof. intros w s. split; [reflexivity|]. exists []. by rewrite app_nil_r. Qed.
Lemma within_getTools : within F E getTools.
Proof. intros w s. split; [reflexivity|]. exists []. by rewrite app_nil_r. Qed.
Lemma within_modify f : (∀ s, F s (f s)) → within F E (modify f).
Proof. intros Hf w s. split; [apply Hf|]. exists []. by rewrite app_nil_r. Qed.
Lemma within_registerTools provided : within F E (registerTools provided).
Proof. intros w s. split; [reflexivity|]. exists []. by rewrite app_nil_r. Qed.
Lemma within_note eff : Forall E eff → within F E (note eff).
Proof. intros He w s. split; [reflexivity|]. by exists eff. Qed.
Lemma within_callback {A} (f : nat → A) eff :
  (∀ a, Forall E (eff a)) → within F E (callback f eff).
Proof. intros He w s. split; [reflexivity|]. by eexists. Qed.

Lemma within_bind {A B} (m : M A) (k : A → M B) :
  within F E m → (∀ a, within F E (k a)) → within F E (m ≫= k).
Proof.
  intros Hm Hk w s. destruct (Hm w s) as [HF (eff & Ht & He)]. unfold mbind, M_bind.
  destruct (m w s) as [[w1 s1] [a|e]]; simpl in *; [|eauto].
  destruct (Hk a w1 s1) as [HF1 (eff1 & Ht1 & He1)]. split; [by etrans|].
  exists (eff ++ eff1). rewrite Ht1, Ht, (assoc_L (++)). by rewrite Forall_app.
Qed.

Context (Hemit : ∀ typ stage i m, E (EvEmit typ stage i m)).

Lemma within_Emit typ stage metadata : within F E (Emit typ stage metadata).
Proof.
  unfold Emit. apply within_bind; [apply within_get|]. intros s. destruct (HasSink s).
  - apply within_note. by constructor.
  - apply within_ret.
Qed.

Lemma within_try {A} (f : nat → res Error A) eff :
  (∀ a, Forall E (eff a)) → within F E (try_callback f eff).
Proof.
  intros He. apply within_bind; [by apply within_callback|].
  intros [a|e]; [apply within_ret|apply within_fail].
Qed.

Lemma within_for_each {A} (l : list A) f :
  (∀ a, within F E (f a)) → within F E (for_each l f).
Proof.
  intros Hf. induction l as [|a l IH]; simpl; [apply within_ret|]. by apply within_bind.
Qed.

End within.

(** Proves [within F E m] for the stages, by their structure. *)
Ltac within_step :=
  match goal with
  | |- within _ _ (mret _) => apply within_ret, _
  | |- within _ _ (fail _) => apply within_fail, _
  | |- within _ _ get => apply within_get, _
  | |- within _ _ getTools => apply within_getTools, _
  | |- within _ _ (registerTools _) => apply within_registerTools, _
  | |- within _ _ (Emit _ _ _) => apply within_Emit; [apply _|try done]
  | |- within _ _ (modify _) => apply within_modify; [try apply _; try done..]
  | |- within _ _ (note _) => apply within_note; [apply _|]
  | |- within _ _ (callback _ _) => apply within_callback; [apply _|]
  | |- within _ _ (try_callback _ _) => apply within_try; [apply _|]
  | |- within _ _ (for_each _ _) => apply within_for_each; [apply _|]; intros ?
  | |- within _ _ (mbind _ _) => apply within_bind; [apply _| |intros ?]
  | |- within _ _ (match ?x with _ => _ end) => destruct x
  | |- Forall _ (match ?x with _ => _ end) => destruct x
  | |- ∀ _, Forall _ _ => intros ?
  | |- Forall _ [] => constructor
  | |- Forall _ (_ :: _) => constructor; [try done|]
  end.
Ltac within_auto := repeat (within_step; cbv beta zeta).

(** ** Effects and states *)

Definition not_chat (e : Effect) : Prop :=
  match e with EvChat _ => False | _ => True end.
Definition quiet_eff (e : Effect) : Prop :=
  match e with EvChat _ | EvTool _ => False | _ => True end.

(** The fields a stage that is not part of the think-act cycle leaves alone. *)
Definition same_core (s s' : RunState) : Prop :=
  Messages s' = Messages s ∧ PendingCalls s' = PendingCalls s ∧ ToolResults s' = ToolResults s ∧
  LastResponse s' = LastResponse s ∧ Iteration s' = Iteration s ∧ RunUsage s' = RunUsage s ∧
  summary s' = summary s ∧ ContextProjection s' = ContextProjection s ∧ Final s' = Final s.
#[export] Instance same_core_preorder : PreOrder same_core.
Proof.
  unfold same_core. split; [by intros s|]. intros s1 s2 s3 H12 H23. intuition congruence.
Qed.

Definition any_state (s s' : RunState) : Prop := True.
#[export] Instance any_state_preorder : PreOrder any_state.
Proof. by split. Qed.

(** A change of the world and state by quiet effects only. *)
Definition quiet_step (w : World) (s : RunState) (w' : World) (s' : RunState) : Prop :=
  same_core s s' ∧ ∃ eff, w_trace w' = w_trace w ++ eff ∧ Forall quiet_eff eff.

Section stages.
Context (schema_compiles : RawMessage → option Error) (json_instance : RawMessage → option Error)
  (schema_validates : RawMessage → RawMessage → option Error) (json_valid : RawMessage → bool).
Context (output_schema_check : RawMessage → RawMessage → option Error).
Context (quote : string → string) (error_text : Error → string) (clock : nat → Time).

Abbreviation quiet := (within same_core quiet_eff).

Lemma quiet_InputGuard guard : quiet (InputGuardStage guard).
Proof. unfold InputGuardStage. within_auto. Qed.
Lemma quiet_SystemPrompt provider : quiet (SystemPromptStage provider).
Proof. unfold SystemPromptStage. within_auto. Qed.
Lemma quiet_Skill provider : quiet (SkillStage provider).
Proof. unfold SkillStage. within_auto. Qed.
Lemma quiet_ToolProvider provider : quiet (ToolProviderStage provider).
Proof. unfold ToolProviderStage. within_auto. Qed.
Lemma quiet_OutputFormat format : quiet (OutputFormatStage format).
Proof. unfold OutputFormatStage. within_auto. Qed.
Lemma quiet_Prompt compiler blocks : quiet (PromptStage compiler blocks).
Proof. unfold PromptStage. within_auto. Qed.
Lemma quiet_Budget guard : quiet (BudgetStage guard).
Proof. unfold BudgetStage. within_auto. Qed.

Lemma quiet_check_policy decide_ r calls : quiet (check_policy decide_ r calls).
Proof.
  induction calls as [|call calls IH]; cbn [check_policy]; [apply within_ret, _|].
  destruct (run_MustGet r (call_Name call)); [|apply within_fail, _].
  within_auto. done.
Qed.
Lemma quiet_Policy engine : quiet (PolicyStage engine).
Proof. unfold PolicyStage. within_auto. apply quiet_check_policy. Qed.

Lemma quiet_ask_approvals approve i calls : quiet (ask_approvals approve i calls).
Proof.
  revert i. induction calls as [|call calls IH]; intros i; cbn [ask_approvals]; within_auto.
  apply IH.
Qed.
Lemma quiet_Approval approver : quiet (ApprovalStage approver).
Proof. unfold ApprovalStage. within_auto. apply quiet_ask_approvals. Qed.

Lemma quiet_validateFinal content format validator :
  quiet (validateFinalOutput json_valid output_schema_check content format validator).
Proof. unfold validateFinalOutput. within_auto. Qed.
Lemma quiet_saveMemory c : quiet (saveMemory c).
Proof. unfold saveMemory. within_auto. Qed.
Lemma quiet_rehydrate c : quiet (rehydrateToolProvider c).
Proof. unfold rehydrateToolProvider. within_auto. Qed.
Lemma quiet_deny i resolved : quiet (deny_resolved i resolved).
Proof.
  revert i. induction resolved as [|[call r] resolved IH]; intros i; cbn [deny_resolved]; within_auto;
    apply IH.
Qed.
Lemma quiet_Resolved resolutions : quiet (ResolvedApprovalStage resolutions).
Proof.
  unfold ResolvedApprovalStage. within_auto; [|apply quiet_deny].
  rewrite Forall_fmap. apply Forall_forall. by intros [] _.
Qed.

(** ** No stage but [ThinkStage] calls the model. *)

Abbreviation silent := (within any_state not_chat).

Lemma quiet_silent {A} (m : M A) : quiet m → silent m.
Proof.
  intros Hm w s. destruct (Hm w s) as [_ (eff & Ht & He)]. split; [done|]. exists eff.
  split; [done|]. eapply Forall_impl; [done|]. by intros [].
Qed.

Lemma silent_MemoryLoad load : silent (MemoryLoadStage load).
Proof. unfold MemoryLoadStage. within_auto. Qed.
Lemma silent_Context : silent ContextStage.
Proof. unfold ContextStage. within_auto. Qed.
Lemma silent_Projection projector budget : silent (ContextProjectionStage projector budget).
Proof. unfold ContextProjectionStage. within_auto. Qed.
Lemma silent_Finalize format validator :
  silent (FinalizeStage json_valid output_schema_check clock format validator).
Proof.
  unfold FinalizeStage. within_auto; try apply quiet_silent, quiet_validateFinal.
Qed.
Lemma silent_executeTools :
  silent (executeTools schema_compiles json_instance schema_validates).
Proof.
  intros w s. unfold executeTools. destruct (Execute _ _ _ _ _ _ _) as [[m ran] r]. simpl.
  split; [done|]. eexists. split; [done|]. rewrite Forall_fmap. by apply Forall_forall.
Qed.
Lemma silent_Act : silent (ActStage schema_compiles json_instance schema_validates).
Proof. unfold ActStage. within_auto; apply silent_executeTools. Qed.
Lemma silent_Observe : silent ObserveStage.
Proof. unfold ObserveStage. within_auto. Qed.
Lemma silent_sort_calls r calls :
  silent (sort_calls schema_compiles json_instance schema_validates quote error_text r calls).
Proof.
  induction calls as [|call calls IH]; cbn [sort_calls]; within_auto; apply IH.
Qed.

End stages.

(** * Assertions on a run *)

Definition assertion := World → RunState → Prop.

(** From a state in [P], [m] ends in [Q a] with a value [a], or in [X] with an
error. *)
Definition triple {A} (P : assertion) (m : M A) (Q : A → assertion) (X : World → Prop) : Prop :=
  ∀ w s, P w s →
    match m w s with
    | (w', s', Ok a) => Q a w' s'
    | (w', s', Err _) => X w'
    end.

(** Stable under quiet effects. *)
Definition qstable (P : assertion) : Prop :=
  ∀ w s w' s', quiet_step w s w' s' → P w s → P w' s'.

Section triples.
Context (X : World → Prop).

Lemma triple_ret {A} (P : assertion) (a : A) (Q : A → assertion) :
  (∀ w s, P w s → Q a w s) → triple P (mret a) Q X.
Proof. intros H w s HP. by apply H. Qed.

Lemma triple_fail {A} (P : assertion) e (Q : A → assertion) :
  (∀ w s, P w s → X w) → triple P (fail e) Q X.
Proof. intros H w s HP. by eapply H. Qed.

Lemma triple_get (P : assertion) (Q : RunState → assertion) :
  (∀ w s, P w s → Q s w s) → triple P get Q X.
Proof. intros H w s HP. by apply H. Qed.

Lemma triple_modify (P : assertion) f (Q : unit → assertion) :
  (∀ w s, P w s → Q tt w (f s)) → triple P (modify f) Q X.
Proof. intros H w s HP. by apply H. Qed.

Lemma triple_bind {A B} (P : assertion) (m : M A) (k : A → M B) Q R :
  triple P m Q X → (∀ a, triple (Q a) (k a) R X) → triple P (m ≫= k) R X.
Proof.
  intros Hm Hk w s HP. specialize (Hm w s HP). unfold mbind, M_bind.
  destruct (m w s) as [[w1 s1] [a|e]]; [|done]. by apply Hk.
Qed.

Lemma triple_weaken {A} (P P' : assertion) (m : M A) (Q Q' : A → assertion) :
  triple P' m Q' X → (∀ w s, P w s → P' w s) → (∀ a w s, Q' a w s → Q a w s) →
  triple P m Q X.
Proof.
  intros Hm HP HQ w s H. specialize (Hm w s (HP _ _ H)).
  destruct (m w s) as [[w1 s1] [a|e]]; [by apply HQ|done].
Qed.

Lemma triple_quiet {A} (P : assertion) (m : M A) :
  within same_core quiet_eff m → qstable P → (∀ w s, P w s → X w) →
  triple P m (λ _, P) X.
Proof.
  intros Hm HP HX w s H. specialize (Hm w s).
  assert (P (m w s).1.1 (m w s).1.2) as H' by by eapply HP.
  destruct (m w s) as [[w1 s1] [a|e]]; [done|]. by eapply HX.
Qed.

(** One stage of a pipeline, then the others. *)
Lemma triple_stage name stage rest (P Q : assertion) (R : StageResult → assertion) :
  qstable P → qstable Q → (∀ r, qstable (R r)) →
  (∀ w w' eff, X w → w_trace w' = w_trace w ++ eff → Forall quiet_eff eff → X w') →
  (∀ w s, P w s → X w) → (∀ w s, Q w s → X w) → (∀ r w s, R r w s → X w) →
  triple P stage (λ r, if decide (r = StageContinue) then Q else R r) X →
  triple Q (Pipeline_Run rest) R X →
  triple P (Pipeline_Run ((name, stage) :: rest)) R X.
Proof.
  intros HP HQ HR HX HPX HQX HRX Hstage Hrest. cbn [Pipeline_Run].
  assert (∀ typ m, within same_core quiet_eff (Emit typ name m)) as Hemit
    by (intros; apply within_Emit; [apply _|done]).
  apply (triple_bind P _ _ (λ _, P)); [by apply triple_quiet|]. intros _.
  apply (triple_bind _ _ _ (λ r, if decide (r = StageContinue) then Q else R r)).
  - intros w s H. specialize (Hstage w s H). destruct (stage w s) as [[w1 s1] [a|e]]; [done|].
    pose proof (Hemit EventStageFailed ∅ w1 s1) as [_ (eff & Ht & He)].
    unfold mbind, M_bind. destruct (Emit EventStageFailed name ∅ w1 s1) as [[w2 s2] [[]|e2]];
      by eapply HX.
  - intros r. case_decide as Hr.
    + apply (triple_bind Q _ _ (λ _, Q)); [by apply triple_quiet|]. by intros _.
    + apply (triple_bind (R r) _ _ (λ _, R r)); [apply triple_quiet; [done|done|by apply HRX]|].
      intros _. by apply triple_ret.
Qed.

Lemma triple_stages_nil (P : assertion) (R : StageResult → assertion) :
  (∀ w s, P w s → R StageContinue w s) → triple P (Pipeline_Run []) R X.
Proof. apply triple_ret. Qed.

End triples.

(** * What a run keeps *)

(** [e] happened and the model was not called since. *)
Definition fresh_in (e : Effect) (tr : list Effect) : Prop :=
  ∃ pre post, tr = pre ++ e :: post ∧ Forall not_chat post.

(** Every tool run in [tr] satisfies [A], given what came before it. *)
Definition tools_in (A : list Effect → ToolCall → Prop) (tr : list Effect) : Prop :=
  ∀ pre call post, tr = pre ++ EvTool call :: post → A pre call.

(** Conversations in which every tool call is answered: an assistant message with
tool calls is followed by one tool message per call. *)
Definition tool_message (m : Message) : Prop := msg_Role m = "tool" ∧ msg_ToolCalls m = [].
Inductive replied : list Message → Prop :=
| replied_nil : replied []
| replied_plain m l : msg_Role m ≠ "tool" → msg_ToolCalls m = [] → replied l → replied (m :: l)
| replied_calls m replies l :
    msg_ToolCalls m ≠ [] → Forall tool_message replies →
    msg_ToolCallID <$> replies ≡ₚ call_ID <$> msg_ToolCalls m →
    replied l → replied (m :: replies ++ l).

Lemma replied_app l l' : replied l → replied l' → replied (l ++ l').
Proof.
  induction 1 as [|m l Hm Hc Hl IH|m reps l Hc Hreps Hids Hl IH]; intros Hl'; simpl; [done|..].
  - constructor; [done..|]. by apply IH.
  - rewrite <-(assoc_L (++)). constructor; [done..|]. by apply IH.
Qed.

(** The conversation answers all calls once the pending ones are answered. *)
Definition open_msgs (msgs : list Message) (pending : list ToolCall) : Prop :=
  ∀ reps, Forall tool_message reps → msg_ToolCallID <$> reps = call_ID <$> pending →
    replied (msgs ++ reps).

Lemma fresh_in_app e tr eff : fresh_in e tr → Forall not_chat eff → fresh_in e (tr ++ eff).
Proof.
  intros (pre & post & -> & Hpost) Heff. exists pre, (post ++ eff).
  rewrite <-(assoc_L (++)), <-app_comm_cons. split; [done|]. by apply Forall_app.
Qed.

Lemma fresh_in_end e tr : fresh_in e (tr ++ [e]).
Proof. by exists tr, []. Qed.

Lemma tools_in_app A tr eff :
  tools_in A tr → Forall (λ e, match e with EvTool _ => False | _ => True end) eff →
  tools_in A (tr ++ eff).
Proof.
  intros Htr Heff pre call post Heq. revert eff Heff Heq.
  induction post as [|x post IH] using rev_ind; intros eff Heff Heq.
  - destruct eff as [|e eff _] using rev_ind; [rewrite app_nil_r in Heq; by eapply Htr|].
    rewrite (assoc_L (++)) in Heq. apply app_inj_tail in Heq as [_ ->].
    apply Forall_app in Heff as [_ He]. by inversion He.
  - destruct eff as [|e eff _] using rev_ind; [rewrite app_nil_r in Heq; by eapply Htr|].
    rewrite (assoc_L (++)), app_comm_cons, (assoc_L (++)) in Heq.
    apply app_inj_tail in Heq as [Heq _]. apply Forall_app in Heff as [Heff _]. by eapply IH.
Qed.

Lemma tools_in_tools A tr calls :
  tools_in A tr →
  (∀ call eff, call ∈ calls → Forall not_chat eff → A (tr ++ eff) call) →
  tools_in A (tr ++ (EvTool <$> calls)).
Proof.
  intros Htr Hcalls. induction calls as [|c calls IH] using rev_ind; [by rewrite app_nil_r|].
  rewrite fmap_app. intros pre call post Heq.
  destruct post as [|x post _] using rev_ind.
  - rewrite (assoc_L (++)) in Heq. apply app_inj_tail in Heq as [<- [= ->]].
    apply Hcalls; [set_solver|]. rewrite Forall_fmap. by apply Forall_forall.
  - rewrite (assoc_L (++)), app_comm_cons, (assoc_L (++)) in Heq.
    apply app_inj_tail in Heq as [Heq _]. eapply IH; [|done].
    intros call0 eff Hin. apply Hcalls. set_solver.
Qed.

(** * The invariant of a run *)

Section run.
Context (schema_compiles : RawMessage → option Error) (json_instance : RawMessage → option Error)
  (schema_validates : RawMessage → RawMessage → option Error) (json_valid : RawMessage → bool).
Context (output_schema_check : RawMessage → RawMessage → option Error).
Context (quote : string → string) (error_text : Error → string) (clock : nat → Time).
Context (c : ReActConfig).
(** What is claimed of the conversation and of the budget starts from a good state:
[G] says that the run did. *)
Context (G : Prop).

Abbreviation think := (ThinkStage schema_compiles json_instance schema_validates quote error_text).
Abbreviation act := (ActStage schema_compiles json_instance schema_validates).
Abbreviation finalize := (FinalizeStage json_valid output_schema_check clock).
Abbreviation stages := (react_stages schema_compiles json_instance schema_validates json_valid
  output_schema_check quote error_text clock c).

(** A tool call the host allowed, since the model's last answer: the policy engine
decided on this very call, and the approver or the host's resolution did. *)
Definition authorized (pre : list Effect) (call : ToolCall) : Prop :=
  (is_Some (c_PolicyEngine c) → ∃ req d, fresh_in (EvPolicy call req d) pre ∧
     pd_Allowed d = true ∧ pr_Tool req = call_Name call ∧ pr_Input req = call_Input call) ∧
  (is_Some (c_ToolApprover c) →
     (∃ d, fresh_in (EvApproval call d) pre ∧ ad_Allowed d = true ∧ ad_Pending d = false) ∨
     fresh_in (EvResolved call true) pre).

(** Without a projector, what the model is sent answers every tool call. *)
Definition chats_ok (tr : list Effect) : Prop :=
  G → c_ContextProjector c = None → ∀ req, EvChat req ∈ tr → replied (cr_Messages req).

Definition Inv (w : World) : Prop :=
  tools_in authorized (w_trace w) ∧ chats_ok (w_trace w).

(** Between iterations: nothing is pending, every tool call is answered. *)
Definition closed : assertion := λ w s,
  Inv w ∧ PendingCalls s = [] ∧ ToolResults s = [] ∧ (G → replied (Messages s)) ∧
  (c_ContextProjector c = None → ContextProjection s = None).

(** After the model's answer: the pending calls are still to be answered. *)
Definition opened : assertion := λ w s,
  Inv w ∧ ToolResults s = [] ∧ (G → open_msgs (Messages s) (PendingCalls s)) ∧
  (c_ContextProjector c = None → ContextProjection s = None).

Definition budgeted (s : RunState) : Prop :=
  G → ∀ b, c_BudgetGuard c = Some (inl b) → pd_Allowed (budget_Check b (RunUsage s)) = true.
Definition policied (w : World) (s : RunState) : Prop :=
  is_Some (c_PolicyEngine c) → ∀ call, call ∈ PendingCalls s → ∃ req d,
    fresh_in (EvPolicy call req d) (w_trace w) ∧ pd_Allowed d = true ∧
    pr_Tool req = call_Name call ∧ pr_Input req = call_Input call.
Definition approved (w : World) (s : RunState) : Prop :=
  is_Some (c_ToolApprover c) → ∀ call, call ∈ PendingCalls s →
    (∃ d, fresh_in (EvApproval call d) (w_trace w) ∧ ad_Allowed d = true ∧ ad_Pending d = false) ∨
    fresh_in (EvResolved call true) (w_trace w).

Definition opened_budget : assertion := λ w s, opened w s ∧ budgeted s.
Definition opened_policy : assertion := λ w s, opened_budget w s ∧ policied w s.
Definition opened_approved : assertion := λ w s, opened_policy w s ∧ approved w s.
Definition acted : assertion := λ w s,
  Inv w ∧ ex_Call <$> ToolResults s = PendingCalls s ∧
  (G → open_msgs (Messages s) (PendingCalls s)) ∧
  (c_ContextProjector c = None → ContextProjection s = None) ∧ budgeted s.
Definition closed_budget : assertion := λ w s, closed w s ∧ budgeted s.

(** A final result: the model's last answer, without tool calls, within budget. *)
Definition finalized : assertion := λ w s,
  closed_budget w s ∧ ∃ resp r, Final s = Some r ∧ LastResponse s = Some resp ∧
    resp_ToolCalls resp = [] ∧ rr_Content r = resp_Content resp ∧ resp_Content resp ≠ "" ∧
    rr_Usage r = RunUsage s ∧ rr_Interruption r = None.

Definition stage_post (r : StageResult) : assertion :=
  match r with
  | StageInterrupt => opened_budget
  | StageBreak => finalized
  | StageContinue => closed
  | StageAbort => λ _ _, False
  end.

(** ** Stability *)

Lemma Inv_quiet w w' eff :
  Inv w → w_trace w' = w_trace w ++ eff → Forall quiet_eff eff → Inv w'.
Proof.
  intros [Ht Hc] Heq He. rewrite Forall_forall in He. split; rewrite Heq.
  - apply tools_in_app; [done|]. apply Forall_forall. intros e Hin%He. by destruct e.
  - intros HG Hp req [Hin|Hin%He]%elem_of_app; [by apply Hc|done].
Qed.

Lemma fresh_in_quiet e tr eff : fresh_in e tr → Forall quiet_eff eff → fresh_in e (tr ++ eff).
Proof.
  intros Hf He. apply fresh_in_app; [done|]. eapply Forall_impl; [done|]. by intros [].
Qed.

Ltac stable :=
  intros w s w' s' [(Hm & Hp & Ht & Hl & Hi & Hu & Hs & Hx & Hf) (eff & Heq & He)];
  unfold finalized, closed_budget, closed, opened_approved, opened_policy, opened_budget, opened,
    acted, budgeted, policied, approved;
  rewrite ?Hm, ?Hp, ?Ht, ?Hl, ?Hi, ?Hu, ?Hs, ?Hx, ?Hf, ?Heq.

Lemma qstable_closed : qstable closed.
Proof. stable. intros (HI & H). split; [by eapply Inv_quiet|done]. Qed.
Lemma qstable_opened : qstable opened.
Proof. stable. intros (HI & H). split; [by eapply Inv_quiet|done]. Qed.
Lemma qstable_opened_budget : qstable opened_budget.
Proof.
  intros w s w' s' Hq [Ho Hb]. split; [by eapply qstable_opened|].
  destruct Hq as [(_ & _ & _ & _ & _ & Hu & _) _]. unfold budgeted. by rewrite Hu.
Qed.
Lemma qstable_policied : qstable policied.
Proof.
  stable. intros H Hsome call Hin. destruct (H Hsome call Hin) as (req & d & Hfr & Hd).
  exists req, d. split; [by apply fresh_in_quiet|done].
Qed.
Lemma qstable_approved : qstable approved.
Proof.
  stable. intros H Hsome call Hin. destruct (H Hsome call Hin) as [(d & Hfr & Hd)|Hfr].
  - left. exists d. split; [by apply fresh_in_quiet|done].
  - right. by apply fresh_in_quiet.
Qed.
Lemma qstable_opened_policy : qstable opened_policy.
Proof.
  intros w s w' s' Hq [Ho Hp]. split; [by eapply qstable_opened_budget|by eapply qstable_policied].
Qed.
Lemma qstable_opened_approved : qstable opened_approved.
Proof.
  intros w s w' s' Hq [Ho Hp]. split; [by eapply qstable_opened_policy|by eapply qstable_approved].
Qed.
Lemma qstable_acted : qstable acted.
Proof. stable. intros (HI & H). split; [by eapply Inv_quiet|done]. Qed.
Lemma qstable_closed_budget : qstable closed_budget.
Proof.
  intros w s w' s' Hq [Ho Hb]. split; [by eapply qstable_closed|].
  destruct Hq as [(_ & _ & _ & _ & _ & Hu & _) _]. unfold budgeted. by rewrite Hu.
Qed.
Lemma qstable_finalized : qstable finalized.
Proof.
  intros w s w' s' Hq [Ho Hr]. split; [by eapply qstable_closed_budget|].
  destruct Hq as [(_ & _ & _ & Hl & _ & Hu & _ & _ & Hf) _]. by rewrite Hl, Hu, Hf.
Qed.
Lemma qstable_stage_post r : qstable (stage_post r).
Proof.
  destruct r;
    [apply qstable_closed|apply qstable_finalized|by intros ????|apply qstable_opened_budget].
Qed.

Lemma stage_post_Inv r w s : stage_post r w s → Inv w.
Proof. destruct r; simpl; unfold finalized, closed_budget, closed, opened_budget, opened; tauto. Qed.

(** ** The stages *)

(** A stage that changes no core field keeps a stable assertion. *)
Lemma quiet_post (P : assertion) (R : StageResult → assertion) stage :
  within same_core quiet_eff stage → qstable P → (∀ w s, P w s → Inv w) →
  (∀ r w s, P w s → R r w s) →
  triple P stage (λ r, if decide (r = StageContinue) then P else R r) Inv.
Proof.
  intros Hq HP HX HR. eapply triple_weaken; [by apply (triple_quiet Inv P)|done|].
  intros r w s H. simpl. case_decide; [done|]. by apply HR.
Qed.

(** Reads the state first. *)
Lemma triple_get_state {A} (P : assertion) (k : RunState → M A) Q :
  (∀ s0, triple (λ w s, P w s ∧ s = s0) (k s0) Q Inv) → triple P (get ≫= k) Q Inv.
Proof. intros Hk w s HP. by apply (Hk s w s). Qed.

Lemma replied_memory loaded l : replied l → replied (memoryStateMessages loaded ++ l).
Proof.
  intros Hl. apply replied_app; [|done]. unfold memoryStateMessages.
  induction loaded as [|m loaded IH]; [constructor|]. rewrite filter_cons.
  case_decide; [|done]. simpl. by constructor.
Qed.

Lemma replied_snoc l m : replied l → msg_Role m ≠ "tool" → msg_ToolCalls m = [] → replied (l ++ [m]).
Proof. intros Hl Hr Hc. apply replied_app; [done|]. constructor; [done..|]. constructor. Qed.

(** [closed] when only the messages and flags change. *)
Lemma closed_messages w s s' :
  closed w s → PendingCalls s' = PendingCalls s → ToolResults s' = ToolResults s →
  ContextProjection s' = ContextProjection s → (G → replied (Messages s')) → closed w s'.
Proof. intros (HI & Hp & Ht & _ & Hx) Ep Et Ex Hr. by rewrite <-Ep in Hp; rewrite <-Et in Ht; split_and!; rewrite ?Ex. Qed.

Lemma emit_quiet typ stage m : within same_core quiet_eff (Emit typ stage m).
Proof. apply within_Emit; [apply _|done]. Qed.

Lemma closed_Inv w s : closed w s → Inv w.
Proof. by intros [? _]. Qed.

Lemma triple_MemoryLoad load : triple closed (MemoryLoadStage load) (λ _, closed) Inv.
Proof.
  unfold MemoryLoadStage. apply triple_get_state. intros s0.
  destruct load as [load|]; [|by apply triple_ret; intros ?? [? _]].
  case_decide; [by apply triple_ret; intros ?? [? _]|].
  apply (triple_bind Inv _ _ _ (λ _, closed)).
  { eapply triple_weaken; [apply (triple_quiet Inv closed)| |done].
    - apply within_try; [apply _|]. intros ?. by constructor.
    - apply qstable_closed.
    - apply closed_Inv.
    - by intros w s [? _]. }
  intros loaded. apply (triple_bind Inv _ _ _ (λ _, closed)).
  { apply triple_modify. intros w s Hc. eapply closed_messages; [done..|].
    intros HG. apply replied_memory. by apply Hc. }
  intros _. apply (triple_bind Inv _ _ _ (λ _, closed)).
  { apply triple_modify. intros w s Hc. eapply closed_messages; [done..|]. apply Hc. }
  intros _. apply (triple_bind Inv _ _ _ (λ _, closed)); [|by intros _; apply triple_ret].
  apply triple_quiet; [apply emit_quiet|apply qstable_closed|apply closed_Inv].
Qed.

Lemma triple_Context : triple closed ContextStage (λ _, closed) Inv.
Proof.
  unfold ContextStage. apply triple_get_state. intros s0.
  case_decide; [by apply triple_ret; intros ?? [? _]|].
  apply (triple_bind Inv _ _ _ (λ _, closed)).
  { apply triple_modify. intros w s [Hc _]. eapply closed_messages; [done..|].
    intros HG. apply replied_snoc; [by apply Hc|done|done]. }
  intros _. apply (triple_bind Inv _ _ _ (λ _, closed)); [|by intros _; apply triple_ret].
  apply triple_modify. intros w s Hc. eapply closed_messages; [done..|]. apply Hc.
Qed.

Lemma triple_Projection budget :
  triple closed (ContextProjectionStage (c_ContextProjector c) budget) (λ _, closed) Inv.
Proof.
  unfold ContextProjectionStage. apply triple_get_state. intros s0.
  assert (∀ w s, closed w s → closed w (s <| ContextProjection := None |>)) as Hnone.
  { intros w s (HI & Hp & Ht & Hr & _). by split_and!. }
  destruct (c_ContextProjector c) as [project|] eqn:Hproj.
  2:{ apply (triple_bind Inv _ _ _ (λ _, closed)); [|by intros _; apply triple_ret].
      apply triple_modify. intros w s [Hc _]. by apply Hnone. }
  apply (triple_bind Inv _ _ _ (λ _, closed)).
  { eapply triple_weaken; [apply (triple_quiet Inv closed)| |done].
    - apply within_try; [apply _|]. intros ?. by repeat constructor.
    - apply qstable_closed.
    - apply closed_Inv.
    - by intros w s [? _]. }
  intros [p|]; (apply (triple_bind Inv _ _ _ (λ _, closed)); [|by intros _; apply triple_ret]);
    apply triple_modify; intros w s Hc; [|by apply Hnone].
  destruct Hc as (HI & Hp & Ht & Hr & _). by split_and!; [..|congruence].
Qed.

(** The model's calls, split into the answered and the pending ones. *)
Lemma sort_calls_spec r calls w s :
  ∃ w' s' rejected accepted,
    sort_calls schema_compiles json_instance schema_validates quote error_text r calls w s =
      (w', s', Ok rejected) ∧
    quiet_step w (s <| PendingCalls := PendingCalls s ++ accepted |>) w' s' ∧
    Forall tool_message rejected ∧
    (msg_ToolCallID <$> rejected) ++ (call_ID <$> accepted) ≡ₚ call_ID <$> calls.
Proof.
  revert w s. induction calls as [|call calls IH]; intros w s; cbn [sort_calls].
  { eexists _, _, [], []. split_and!; [done| |constructor|done]. split.
    - unfold same_core. simpl. rewrite app_nil_r. by split_and!.
    - exists []. by rewrite app_nil_r. }
  cbv zeta. case_decide.
  - destruct (emit_quiet EventToolRejected "" (<["tool" := AString (call_Name call)]> ∅) w s)
      as [Hcore (eff & Ht & He)].
    unfold mbind, M_bind. unfold Emit in *. unfold mbind, M_bind, get in *.
    destruct (HasSink s); simpl in *.
    all: match goal with |- context [sort_calls _ _ _ _ _ _ _ ?w1 ?s1] =>
      destruct (IH w1 s1) as (w' & s' & rejected & accepted & Heq & [Hc' (eff' & Ht' & He')] & Hrej & Hids) end.
    all: rewrite Heq; simpl; eexists w', s', (_ :: rejected), accepted;
      (split_and!; [done| |by constructor|simpl; by rewrite Hids]).
    + split; [done|]. exists (eff ++ eff'). rewrite (assoc_L (++)), <-Ht. by rewrite Forall_app.
    + split; [done|]. by exists eff'.
  - unfold mbind, M_bind, modify.
    match goal with |- context [sort_calls _ _ _ _ _ r calls ?w1 ?s1] =>
      destruct (IH w1 s1) as (w' & s' & rejected & accepted & Heq & Hq & Hrej & Hids) end.
    exists w', s', rejected, (mkCall (call_ID call) (call_Name call) (call_Input call) :: accepted).
    split_and!; [done| |done|].
    + simpl in Hq. rewrite <-(assoc_L (++)) in Hq. done.
    + simpl. by rewrite <-Permutation_middle, Hids.
Qed.

Lemma chatMessages_replied s :
  replied (Messages s) → ContextProjection s = None → replied (chatMessages s).
Proof.
  intros Hr Hx. unfold chatMessages. rewrite Hx.
  destruct (CompiledPromptOf s) as [p|]; [|done]. case_decide; [|done]. by constructor.
Qed.

Lemma Inv_chat w req :
  Inv w → (G → c_ContextProjector c = None → replied (cr_Messages req)) →
  tools_in authorized (w_trace w ++ [EvChat req]) ∧ chats_ok (w_trace w ++ [EvChat req]).
Proof.
  intros [Ht Hc] Hr. split.
  - apply tools_in_app; [done|]. by repeat constructor.
  - intros HG Hp req' [Hin|Hin%list_elem_of_singleton]%elem_of_app; [by apply Hc|].
    injection Hin as ->. by apply Hr.
Qed.

Lemma triple_Think llm maxOut : triple closed (think llm maxOut) (λ _, opened) Inv.
Proof.
  intros w s (HI & Hp & Ht & Hr & Hx). unfold ThinkStage.
  unfold mbind at 1, M_bind at 1, get. unfold mbind at 1, M_bind at 1, getTools. cbv zeta.
  set (req := mkChatRequest _ _ _). unfold try_callback, callback.
  assert (Inv (mkWorld (S (w_tick w)) (w_tools w) (w_trace w ++ [EvChat req]))) as HI'.
  { apply Inv_chat; [done|]. intros HG Hproj. apply chatMessages_replied; [by apply Hr|by apply Hx]. }
  unfold mbind at 1, M_bind at 1. unfold mbind at 1, M_bind at 1.
  destruct (llm (w_tick w) req) as [resp|e]; [|done]. cbn [mret M_ret].
  unfold mbind at 1, M_bind at 1, modify at 1. unfold mbind at 1, M_bind at 1.
  destruct (sort_calls_spec (w_tools w) (resp_ToolCalls resp)
    (mkWorld (S (w_tick w)) (w_tools w) (w_trace w ++ [EvChat req])) (record_response resp s))
    as (w' & s' & rejected & accepted & -> & [Hcore (eff & Heq & He)] & Hrej & Hids).
  destruct Hcore as (Em & Ep & Et & _ & _ & _ & _ & Ex & _). simpl in Em, Ep, Et, Ex.
  assert (Inv w') as HI2 by by eapply Inv_quiet.
  assert (∀ s2, ToolResults s2 = ToolResults s' → PendingCalls s2 = PendingCalls s' →
    ContextProjection s2 = ContextProjection s' →
    (G → open_msgs (Messages s2) accepted) → opened w' s2) as Hopen.
  { intros s2 E1 E2 E3 Hop. split_and!; [done|congruence|by rewrite E2, Ep|].
    intros Hproj. rewrite E3, Ex. by apply Hx. }
  destruct (resp_ToolCalls resp) as [|call0 calls] eqn:Hcalls.
  - apply Permutation_nil_r, app_eq_nil in Hids as [Hn1 Hn2].
    apply fmap_nil_inv in Hn1, Hn2. rewrite Hn2 in Hopen.
    assert (∀ msgs, replied msgs → open_msgs msgs []) as Hnil.
    { intros msgs Hms reps _ Hreps. apply fmap_nil_inv in Hreps as ->. by rewrite app_nil_r. }
    rewrite decide_False by (simpl; lia). case_decide; simpl; apply Hopen; try done.
    + simpl. intros HG. apply Hnil. rewrite Em. by apply replied_snoc; [apply Hr|..].
    + intros HG. apply Hnil. rewrite Em. by apply Hr.
  - rewrite decide_True by (simpl; lia). simpl. apply Hopen; try done. simpl.
    intros HG reps Hreps Hrids. rewrite Em, <-!(assoc_L (++)). apply replied_app; [by apply Hr|].
    rewrite <-(app_nil_r (rejected ++ reps)). apply (replied_calls _ (rejected ++ reps) []);
      [done|by apply Forall_app|by rewrite fmap_app, Hrids, Hids|constructor].
Qed.

Lemma opened_Inv w s : opened w s → Inv w.
Proof. by intros [? _]. Qed.

Lemma triple_Budget :
  triple opened (BudgetStage (c_BudgetGuard c))
    (λ r, if decide (r = StageContinue) then opened_budget else stage_post r) Inv.
Proof.
  unfold BudgetStage. apply triple_get_state. intros s0.
  destruct (c_BudgetGuard c) as [[b|check]|] eqn:Hg.
  - intros w s [Ho ->]. unfold mbind, M_bind, mret, M_ret.
    destruct (pd_Allowed (budget_Check b (RunUsage s0))) eqn:Ha; [|by eapply opened_Inv].
    split; [done|]. intros _ b' Hb'. rewrite Hg in Hb'. by simplify_eq.
  - apply (triple_bind Inv _ _ _ (λ _, opened)).
    { eapply triple_weaken; [apply (triple_quiet Inv opened)| |done].
      - apply within_callback; [apply _|]. by constructor.
      - apply qstable_opened.
      - apply opened_Inv.
      - by intros w s [? _]. }
    intros d. destruct (pd_Allowed d); [|by apply triple_fail, opened_Inv].
    apply triple_ret. intros w s Ho. split; [done|]. unfold budgeted. congruence.
  - apply triple_ret. intros w s [Ho _]. split; [done|]. unfold budgeted. congruence.
Qed.

Definition policy_ok (tr : list Effect) (call : ToolCall) : Prop :=
  ∃ req d, fresh_in (EvPolicy call req d) tr ∧ pd_Allowed d = true ∧
    pr_Tool req = call_Name call ∧ pr_Input req = call_Input call.

Lemma policy_ok_app tr eff call : policy_ok tr call → Forall quiet_eff eff → policy_ok (tr ++ eff) call.
Proof. intros (req & d & Hf & H) He. exists req, d. split; [by apply fresh_in_quiet|done]. Qed.

Lemma check_policy_spec decide_ r calls w s :
  ∃ w' res eff, check_policy decide_ r calls w s = (w', s, res) ∧
    w_trace w' = w_trace w ++ eff ∧ Forall quiet_eff eff ∧
    ∀ r, res = Ok r → r = StageContinue ∧ ∀ call, call ∈ calls → policy_ok (w_trace w') call.
Proof.
  revert w. induction calls as [|call calls IH]; intros w; cbn [check_policy].
  { exists w, (Ok StageContinue), []. rewrite app_nil_r. split_and!; [done..|].
    intros r0 [= <-]. split; [done|]. set_solver. }
  destruct (run_MustGet r (call_Name call)) as [tool|e].
  2:{ exists w, (Err e), []. rewrite app_nil_r. by split_and!. }
  unfold mbind, M_bind, get, callback. cbv zeta.
  set (d := decide_ (w_tick w) (policy_request s call tool)).
  set (w1 := mkWorld _ _ _). destruct (pd_Allowed d) eqn:Hd.
  2:{ exists w1, (Err (ErrPolicyDenied (call_Name call) (pd_Reason d))), [EvPolicy call (policy_request s call tool) d].
      by split_and!; [..|repeat constructor|]. }
  destruct (IH w1) as (w' & res & eff & Heq & Ht & He & Hok).
  exists w', res, (EvPolicy call (policy_request s call tool) d :: eff). split_and!.
  - done.
  - rewrite Ht. simpl. by rewrite <-(assoc_L (++)).
  - by constructor.
  - intros r0 Hr. destruct (Hok r0 Hr) as [-> Hall]. split; [done|].
    intros call0 [->|Hin]%elem_of_cons; [|by apply Hall].
    rewrite Ht. apply policy_ok_app; [|done]. exists (policy_request s call tool), d.
    split; [apply fresh_in_end|done].
Qed.

Lemma triple_Policy (P : assertion) :
  qstable P → (∀ w s, P w s → Inv w) →
  triple P (PolicyStage (c_PolicyEngine c))
    (λ r, if decide (r = StageContinue) then λ w s, P w s ∧ policied w s else stage_post r) Inv.
Proof.
  intros HP HX w s H. unfold PolicyStage, mbind, M_bind, get, getTools.
  destruct (c_PolicyEngine c) as [decide_|] eqn:Hc.
  2:{ simpl. split; [done|]. intros [? ?]. congruence. }
  case_decide as Hnil.
  { simpl. split; [done|]. intros _ call Hin. apply nil_length_inv in Hnil. rewrite Hnil in Hin. set_solver. }
  destruct (check_policy_spec decide_ (w_tools w) (PendingCalls s) w s)
    as (w' & res & eff & -> & Ht & He & Hok).
  assert (P w' s) as H' by by eapply HP; [split; [|by exists eff]|].
  destruct res as [r|e]; [|by eapply HX].
  destruct (Hok r eq_refl) as [-> Hall]. rewrite decide_True by done.
  split; [done|]. intros _ call Hin. by apply Hall.
Qed.

Definition approval_ok (tr : list Effect) (call : ToolCall) : Prop :=
  ∃ d, fresh_in (EvApproval call d) tr ∧ ad_Allowed d = true ∧ ad_Pending d = false.

(** An event, then [k]: [k] runs in the same state, after quiet effects. *)
Lemma Emit_then {A} typ stage m (k : M A) w s :
  ∃ w' eff, (Emit typ stage m ≫= λ _, k) w s = k w' s ∧ w_trace w' = w_trace w ++ eff ∧
    Forall quiet_eff eff.
Proof.
  unfold Emit, mbind, M_bind, get, note, mret, M_ret. destruct (HasSink s).
  - eexists _, _. split_and!; [done|simpl; done|by repeat constructor].
  - exists w, []. rewrite app_nil_r. by split_and!.
Qed.

Lemma ask_approvals_spec approve i calls w s :
  ∃ w' res eff, ask_approvals approve i calls w s = (w', s, res) ∧
    w_trace w' = w_trace w ++ eff ∧ Forall quiet_eff eff ∧
    ∀ r, res = Ok r → r = StageInterrupt ∨
      (r = StageContinue ∧ ∀ call, call ∈ calls → approval_ok (w_trace w') call).
Proof.
  revert i w. induction calls as [|call calls IH]; intros i w; cbn [ask_approvals].
  { exists w, (Ok StageContinue), []. rewrite app_nil_r. split_and!; [done..|].
    intros r0 [= <-]. right. split; [done|]. set_solver. }
  match goal with |- context [(Emit ?t ?st ?m ≫= λ _, ?k) w s] =>
    destruct (Emit_then t st m k w s) as (w1 & eff1 & -> & Ht1 & He1) end.
  unfold mbind at 1, M_bind at 1, get. unfold mbind at 1, M_bind at 1, callback. cbv zeta.
  set (d := approve (w_tick w1) _). set (w2 := mkWorld _ _ (w_trace w1 ++ _)).
  set (eff2 := eff1 ++ [EvApproval call d]).
  assert (w_trace w2 = w_trace w ++ eff2) as Ht2
    by (unfold eff2; simpl; by rewrite Ht1, (assoc_L (++))).
  assert (Forall quiet_eff eff2) as He2 by (apply Forall_app; by repeat constructor).
  assert (fresh_in (EvApproval call d) (w_trace w2)) as Hfr by apply fresh_in_end.
  clearbody w2 eff2.
  destruct (ad_Pending d) eqn:Hpend; [|destruct (ad_Allowed d) eqn:Hallow];
    match goal with |- context [(Emit ?t ?st ?m ≫= λ _, ?k) w2 s] =>
      destruct (Emit_then t st m k w2 s) as (w3 & eff3 & -> & Ht3 & He3) end;
    rewrite Ht2 in Ht3.
  - exists w3, (Ok StageInterrupt), (eff2 ++ eff3).
    split_and!; [done|by rewrite (assoc_L (++))|by apply Forall_app|]. intros r [= <-]. by left.
  - destruct (IH (S i) w3) as (w' & res & eff & -> & Ht & He & Hres).
    exists w', res, ((eff2 ++ eff3) ++ eff).
    split_and!; [done|by rewrite Ht, Ht3, <-!(assoc_L (++))|by rewrite !Forall_app|].
    intros r Hr. destruct (Hres r Hr) as [->|[-> Hall]]; [by left|right]. split; [done|].
    intros call0 [->|Hin]%elem_of_cons; [|by apply Hall]. exists d. split; [|done].
    rewrite Ht, Ht3, <-Ht2, <-(assoc_L (++)).
    apply fresh_in_quiet; [done|by apply Forall_app].
  - eexists w3, _, (eff2 ++ eff3).
    split_and!; [done|by rewrite (assoc_L (++))|by apply Forall_app|done].
Qed.

Lemma triple_Approval :
  triple opened_policy (ApprovalStage (c_ToolApprover c))
    (λ r, if decide (r = StageContinue) then opened_approved else stage_post r) Inv.
Proof.
  intros w s H. unfold ApprovalStage, mbind, M_bind, get.
  destruct (c_ToolApprover c) as [approve|] eqn:Hc.
  2:{ simpl. split; [done|]. intros [? ?]. congruence. }
  case_decide as Hnil.
  { simpl. split; [done|]. intros _ call Hin. apply nil_length_inv in Hnil. rewrite Hnil in Hin. set_solver. }
  destruct (ask_approvals_spec approve 0 (PendingCalls s) w s)
    as (w' & res & eff & -> & Ht & He & Hok).
  assert (opened_policy w' s) as H'.
  { eapply qstable_opened_policy; [|done]. split; [done|by exists eff]. }
  destruct res as [r|e]; [|by apply H'].
  destruct (Hok r eq_refl) as [->|[-> Hall]]; simpl; [apply H'|].
  split; [done|]. intros _ call Hin. left. by apply Hall.
Qed.

(** Recording results changes the summary only. *)
Lemma recordToolResult_core s x :
  let s' := recordToolResult s x in
  Messages s' = Messages s ∧ PendingCalls s' = PendingCalls s ∧ RunUsage s' = RunUsage s ∧
  ContextProjection s' = ContextProjection s.
Proof. unfold recordToolResult. cbv zeta. by case_decide. Qed.
Lemma recordToolResults_core xs s :
  let s' := foldl recordToolResult s xs in
  Messages s' = Messages s ∧ PendingCalls s' = PendingCalls s ∧ RunUsage s' = RunUsage s ∧
  ContextProjection s' = ContextProjection s.
Proof.
  revert s. induction xs as [|x xs IH]; intros s; simpl; [done|].
  destruct (IH (recordToolResult s x)) as (-> & -> & -> & ->). apply recordToolResult_core.
Qed.

Lemma Inv_tools w s calls :
  opened_approved w s → (∀ call, call ∈ calls → call ∈ PendingCalls s) →
  tools_in authorized (w_trace w ++ (EvTool <$> calls)) ∧
  chats_ok (w_trace w ++ (EvTool <$> calls)).
Proof.
  intros [[[[[Ht Hc] _] _] Hpol] Happ] Hsub. split.
  - apply tools_in_tools; [done|]. intros call eff Hin%Hsub Heff. split.
    + intros Hsome. destruct (Hpol Hsome call Hin) as (req & d & Hf & H).
      exists req, d. split; [by apply fresh_in_app|done].
    + intros Hsome. destruct (Happ Hsome call Hin) as [(d & Hf & H)|Hf].
      * left. exists d. split; [by apply fresh_in_app|done].
      * right. by apply fresh_in_app.
  - intros HG Hproj req [Hin|(? & ? & _)%list_elem_of_fmap]%elem_of_app; [by apply Hc|done].
Qed.

Lemma triple_executeTools :
  triple opened_approved (executeTools schema_compiles json_instance schema_validates)
    (λ r w s, Inv w ∧ (G → open_msgs (Messages s) (PendingCalls s)) ∧
       (c_ContextProjector c = None → ContextProjection s = None) ∧ budgeted s ∧
       ∀ xs, r = Ok xs → ex_Call <$> xs = PendingCalls s) Inv.
Proof.
  intros w s H. unfold executeTools.
  destruct (Execute _ _ _ _ _ _ _) as [[m ran] r] eqn:He. simpl.
  pose proof H as [[[(_ & _ & Hop & Hx) Hb] _] _].
  assert (∀ call, call ∈ ran → call ∈ PendingCalls s) as Hsub.
  { unfold Execute in He. destruct (resolve_calls _ _); [|injection He as <- <- <-; set_solver].
    destruct (execute_loop _ _ _ _ _ _ _ _). by injection He as <- <- <-. }
  split_and!; [by eapply Inv_tools|done..|]. intros xs ->. by apply Execute_calls in He as [_ ->].
Qed.

Lemma triple_Act :
  triple opened_approved act
    (λ r, if decide (r = StageContinue) then acted else stage_post r) Inv.
Proof.
  unfold ActStage. apply triple_get_state. intros s0. case_decide as Hnil.
  { apply triple_ret. intros w s [[[[(HI & Ht & Hop & Hx) Hb] _] _] ->]. simpl.
    split_and!; [done| |done..]. rewrite Ht. simpl. by apply nil_length_inv in Hnil. }
  assert (∀ {B} (l : list B) f, (∀ x, within same_core quiet_eff (f x)) →
    within same_core quiet_eff (for_each l f)) as Hfe
    by (intros; by apply within_for_each; [apply _|]).
  apply (triple_bind Inv _ _ _ (λ _, opened_approved)).
  { eapply triple_weaken; [apply (triple_quiet Inv opened_approved)| |done].
    - apply Hfe. intros x. apply emit_quiet.
    - apply qstable_opened_approved.
    - by intros w s [[[[? _] _] _] _].
    - by intros w s [? _]. }
  intros _. eapply triple_bind; [apply triple_executeTools|]. intros [results|e].
  - set (P := λ (w : World) (s : RunState), Inv w ∧ (G → open_msgs (Messages s) (PendingCalls s)) ∧
       (c_ContextProjector c = None → ContextProjection s = None) ∧ budgeted s ∧
       ex_Call <$> results = PendingCalls s).
    apply (triple_bind Inv _ _ _ (λ _, P)).
    { eapply triple_weaken; [apply (triple_quiet Inv P)| |done].
      - apply Hfe. intros x. apply emit_quiet.
      - intros w s w' s' [(Em & Ep & _ & _ & _ & Eu & _ & Ex & _) (eff & Heq & He)] (HI & H).
        unfold P, budgeted. rewrite Em, Ep, Eu, Ex. split; [by eapply Inv_quiet|done].
      - by intros w s [? _].
      - intros w s (HI & Hop & Hx & Hb & Hr). split_and!; [done..|]. by apply Hr. }
    intros _. apply (triple_bind Inv _ _ _ (λ _, P)).
    { apply triple_modify. intros w s (HI & H). unfold P, budgeted.
      destruct (recordToolResults_core results s) as (-> & -> & -> & ->). done. }
    intros _. apply (triple_bind Inv _ _ _ (λ _, acted)).
    { apply triple_modify. intros w s (HI & Hop & Hx & Hb & Hr). by split_and!. }
    intros _. by apply triple_ret.
  - intros w s (HI & _).
    pose proof (Hfe _ (PendingCalls s0) (λ call, Emit EventToolFailed ""
      (<["tool" := AString (call_Name call)]> ∅)) ltac:(intros; apply emit_quiet) w s)
      as [_ (eff & Heq & He)].
    unfold mbind, M_bind.
    destruct (for_each _ _ w s) as [[w1 s1] [[]|e1]]; by eapply Inv_quiet.
Qed.

Lemma open_msgs_answered msgs xs :
  open_msgs msgs (ex_Call <$> xs) → replied (msgs ++ (observe_message <$> xs)).
Proof.
  intros Hop. apply Hop.
  - rewrite Forall_fmap. by apply Forall_forall.
  - rewrite <-!list_fmap_compose. done.
Qed.

Lemma triple_Observe :
  triple acted ObserveStage
    (λ r, if decide (r = StageContinue) then closed_budget else stage_post r) Inv.
Proof.
  intros w s (HI & Hcalls & Hop & Hx & Hb). unfold ObserveStage, mbind, M_bind, get, modify.
  rewrite <-Hcalls in Hop.
  assert (G → replied (Messages s ++ (observe_message <$> ToolResults s))) as Hrep
    by (intros HG; by apply open_msgs_answered, Hop).
  case_decide as Hc; simpl.
  - destruct Hc as [Hnil%nil_length_inv _]. rewrite Hnil in *. rewrite app_nil_r in Hrep.
    by split; [split_and!|].
  - by split; [split_and!|].
Qed.

Lemma triple_Finalize :
  triple closed_budget (finalize (c_OutputFormat c) (c_OutputValidator c))
    (λ r, if decide (r = StageContinue) then closed_budget else stage_post r) Inv.
Proof.
  intros w s H. unfold FinalizeStage. unfold mbind at 1, M_bind at 1, get.
  destruct (LastResponse s) as [resp|] eqn:Hresp; [|done].
  case_decide as Hg; [done|].
  pose proof (quiet_validateFinal json_valid output_schema_check (resp_Content resp)
    (c_OutputFormat c) (c_OutputValidator c) w s) as Hq.
  unfold mbind at 1, M_bind at 1.
  destruct (validateFinalOutput _ _ _ _ _ w s) as [[w1 s1] [[structured metadata]|e]]; simpl in Hq.
  2:{ destruct Hq as [_ (eff & Heq & He)]. destruct H as [[HI _] _]. by eapply Inv_quiet. }
  assert (closed_budget w1 s1) as H1 by by eapply qstable_closed_budget.
  destruct Hq as [(_ & _ & _ & El & _) _]. rewrite Hresp in El.
  unfold mbind at 1, M_bind at 1, callback. unfold mbind at 1, M_bind at 1, modify.
  set (w2 := mkWorld _ _ _). set (s2 := s1 <| Final := _ |>).
  assert (finalized w2 s2) as H2.
  { split.
    - destruct H1 as [(HI & H1) Hb]. split; [|done]. split; [|done].
      eapply Inv_quiet; [done|simpl; done|by constructor].
    - eexists resp, _. split_and!; [done|done| |done|by intros ?; tauto|done|done].
      destruct (resp_ToolCalls resp); [done|]. exfalso. apply Hg. right; left. simpl. lia. }
  clearbody w2 s2. unfold mbind, M_bind.
  case_decide; [|done].
  match goal with |- context [Emit ?t ?st ?m w2 s2] =>
    pose proof (emit_quiet t st m w2 s2) as Hq; unfold Emit, mbind, M_bind, get, note, mret, M_ret in *;
    destruct (HasSink s2); simpl in *; [|done] end.
  by eapply qstable_finalized.
Qed.

(** ** The pipeline and the loop *)

(** Adds a stage whose triple is [Hstage] to a pipeline. *)
Ltac stage P Q HP HQ :=
  apply (triple_stage Inv _ _ _ P Q);
    [apply HP|apply HQ|apply qstable_stage_post|apply Inv_quiet|
     unfold closed_budget, opened_approved, opened_policy, opened_budget, closed, opened, acted;
       by intros ??; tauto|
     unfold closed_budget, opened_approved, opened_policy, opened_budget, closed, opened, acted;
       by intros ??; tauto|
     apply stage_post_Inv| |].

(** Stages that never end the pipeline. *)
Definition continues (stage : M StageResult) : Prop :=
  ∀ w s, match stage w s with (_, _, Ok r) => r = StageContinue | _ => True end.

Lemma continues_ret : continues (mret StageContinue).
Proof. done. Qed.
Lemma continues_fail e : continues (fail e).
Proof. done. Qed.
Lemma continues_bind {A} (m : M A) k : (∀ a, continues (k a)) → continues (m ≫= k).
Proof.
  intros Hk w s. unfold mbind, M_bind. destruct (m w s) as [[w1 s1] [a|e]]; [apply Hk|done].
Qed.

Ltac continues_auto :=
  repeat (cbv beta zeta; match goal with
  | |- continues (mret _) => apply continues_ret
  | |- continues (fail _) => apply continues_fail
  | |- continues (mbind _ _) => apply continues_bind; intros ?
  | |- continues (match ?x with _ => _ end) => destruct x
  end).

(** A stage that continues and keeps an assertion. *)
Lemma keeps (P : assertion) stage :
  continues stage → triple P stage (λ _, P) Inv →
  triple P stage (λ r, if decide (r = StageContinue) then P else stage_post r) Inv.
Proof.
  intros Hr Ht w s H. specialize (Ht w s H). specialize (Hr w s).
  destruct (stage w s) as [[w1 s1] [r|e]]; [|done]. by subst r.
Qed.

Lemma keeps_quiet (P : assertion) stage :
  continues stage → within same_core quiet_eff stage → qstable P → (∀ w s, P w s → Inv w) →
  triple P stage (λ r, if decide (r = StageContinue) then P else stage_post r) Inv.
Proof. intros Hc Hq HP HX. apply keeps; [done|]. by apply triple_quiet. Qed.

Ltac quiet_stage H :=
  stage closed closed qstable_closed qstable_closed;
  [apply keeps_quiet; [|apply H|apply qstable_closed|apply closed_Inv]|].

Lemma react_pipeline : triple closed (Pipeline_Run stages) stage_post Inv.
Proof.
  unfold react_stages.
  quiet_stage quiet_InputGuard; [unfold InputGuardStage; by continues_auto|].
  stage closed closed qstable_closed qstable_closed;
    [apply keeps; [unfold MemoryLoadStage; by continues_auto|apply triple_MemoryLoad]|].
  stage closed closed qstable_closed qstable_closed;
    [apply keeps; [unfold ContextStage; by continues_auto|apply triple_Context]|].
  quiet_stage quiet_SystemPrompt; [unfold SystemPromptStage; by continues_auto|].
  quiet_stage quiet_Skill; [unfold SkillStage; by continues_auto|].
  quiet_stage quiet_ToolProvider; [unfold ToolProviderStage; by continues_auto|].
  quiet_stage quiet_OutputFormat; [unfold OutputFormatStage; by continues_auto|].
  quiet_stage quiet_Prompt; [unfold PromptStage; by continues_auto|].
  stage closed closed qstable_closed qstable_closed;
    [apply keeps; [unfold ContextProjectionStage; by continues_auto|apply triple_Projection]|].
  stage closed opened qstable_closed qstable_opened.
  { intros w s H. pose proof (triple_Think (c_LLM c) (c_MaxOutputTokens c) w s H) as Ht.
    assert (continues (think (c_LLM c) (c_MaxOutputTokens c))) as Hc
      by (unfold ThinkStage; by continues_auto).
    specialize (Hc w s). destruct (think _ _ w s) as [[w1 s1] [r|e]]; [|done]. by subst r. }
  stage opened opened_budget qstable_opened qstable_opened_budget; [apply triple_Budget|].
  stage opened_budget opened_policy qstable_opened_budget qstable_opened_policy.
  { apply triple_Policy; [apply qstable_opened_budget|by intros ?? [[? _] _]]. }
  stage opened_policy opened_approved qstable_opened_policy qstable_opened_approved;
    [apply triple_Approval|].
  stage opened_approved acted qstable_opened_approved qstable_acted; [apply triple_Act|].
  stage acted closed_budget qstable_acted qstable_closed_budget; [apply triple_Observe|].
  stage closed_budget closed_budget qstable_closed_budget qstable_closed_budget;
    [apply triple_Finalize|].
  apply triple_stages_nil. by intros w s [? _].
Qed.

Lemma react_loop_triple n :
  triple closed (react_loop schema_compiles json_instance schema_validates json_valid
    output_schema_check quote error_text clock c n) stage_post Inv.
Proof.
  induction n as [|n IH]; cbn [react_loop]; [by apply triple_fail, closed_Inv|].
  eapply triple_bind; [apply react_pipeline|]. intros [| | |].
  - apply IH.
  - apply (triple_bind Inv _ _ _ (λ _, finalized)).
    { apply triple_quiet; [apply quiet_saveMemory|apply qstable_finalized|].
      intros w s Hf. apply (stage_post_Inv StageBreak w s Hf). }
    intros _. apply (triple_bind Inv _ _ _ (λ _, finalized)); [|by intros _; apply triple_ret].
    apply triple_quiet; [apply emit_quiet|apply qstable_finalized|].
    intros w s Hf. apply (stage_post_Inv StageBreak w s Hf).
  - by apply triple_ret.
  - by apply triple_ret.
Qed.

(** ** Which effects a run has *)

Section effects.
Context (E : Effect → Prop) (Hemit : ∀ typ stage i m, E (EvEmit typ stage i m)).

Lemma within_stages st :
  Forall (λ p, within any_state E (snd p)) st → within any_state E (Pipeline_Run st).
Proof.
  induction 1 as [|[name stage] st Hs Hrest IH]; cbn [Pipeline_Run]; [apply within_ret, _|].
  apply within_bind; [apply _|by apply within_Emit; [apply _|]|]. intros _.
  apply within_bind; [apply _| |].
  - intros w s. destruct (Hs w s) as [_ (eff & Ht & He)]. cbn [snd] in *.
    destruct (stage w s) as [[w1 s1] [r|e]]; cbn [fst snd] in *; [by split; [|exists eff]|].
    assert (within any_state E (Emit EventStageFailed name ∅ ≫= λ _, fail (A := StageResult) e)) as Hf.
    { apply within_bind; [apply _|by apply within_Emit; [apply _|]|]. intros _. apply within_fail, _. }
    destruct (Hf w1 s1) as [_ (eff2 & Ht2 & He2)]. split; [done|]. exists (eff ++ eff2).
    rewrite Ht2, Ht, (assoc_L (++)). by rewrite Forall_app.
  - intros r. apply within_bind; [apply _|by apply within_Emit; [apply _|]|]. intros _.
    case_decide; [done|]. apply within_ret, _.
Qed.

Lemma within_loop n :
  Forall (λ p, within any_state E (snd p)) stages → within any_state E (saveMemory c) →
  within any_state E (react_loop schema_compiles json_instance schema_validates json_valid
    output_schema_check quote error_text clock c n).
Proof.
  intros Hst Hsave. induction n as [|n IH]; cbn [react_loop]; [apply within_fail, _|].
  apply within_bind; [apply _|by apply within_stages|].
  intros [| | |]; [apply IH| |apply within_ret, _|apply within_ret, _].
  apply within_bind; [apply _|done|]. intros _.
  apply within_bind; [apply _|by apply within_Emit; [apply _|]|]. intros _. apply within_ret, _.
Qed.

End effects.

(** A fresh run has no host resolutions. *)
Definition not_resolved (e : Effect) : Prop := match e with EvResolved _ _ => False | _ => True end.

Lemma unresolved_sort r calls :
  within any_state not_resolved
    (sort_calls schema_compiles json_instance schema_validates quote error_text r calls).
Proof. induction calls as [|call calls IH]; cbn [sort_calls]; within_auto; apply IH. Qed.

Lemma unresolved_policy decide_ r calls :
  within any_state not_resolved (check_policy decide_ r calls).
Proof.
  induction calls as [|call calls IH]; cbn [check_policy]; [apply within_ret, _|].
  destruct (run_MustGet r (call_Name call)); [|apply within_fail, _]. within_auto. done.
Qed.

Lemma unresolved_approvals approve i calls :
  within any_state not_resolved (ask_approvals approve i calls).
Proof.
  revert i. induction calls as [|call calls IH]; intros i; cbn [ask_approvals]; within_auto. apply IH.
Qed.

Lemma unresolved_tools :
  within any_state not_resolved (executeTools schema_compiles json_instance schema_validates).
Proof.
  intros w s. unfold executeTools. destruct (Execute _ _ _ _ _ _ _) as [[m ran] r]. simpl.
  split; [done|]. eexists. split; [done|]. rewrite Forall_fmap. by apply Forall_forall.
Qed.

Lemma unresolved_stages : Forall (λ p, within any_state not_resolved (snd p)) stages.
Proof.
  unfold react_stages. repeat (apply Forall_cons_2; [cbn [snd]|]); [..|apply Forall_nil_2].
  all: unfold InputGuardStage, MemoryLoadStage, ContextStage, SystemPromptStage, SkillStage,
    ToolProviderStage, OutputFormatStage, PromptStage, ContextProjectionStage, ThinkStage,
    BudgetStage, PolicyStage, ApprovalStage, ActStage, ObserveStage, FinalizeStage,
    validateFinalOutput; within_auto;
    first [apply unresolved_sort|apply unresolved_policy|apply unresolved_approvals|
           apply unresolved_tools].
Qed.

Lemma unresolved_loop n :
  within any_state not_resolved (react_loop schema_compiles json_instance schema_validates
    json_valid output_schema_check quote error_text clock c n).
Proof.
  apply within_loop; [done|apply unresolved_stages|]. unfold saveMemory. within_auto.
Qed.

(** ** Counting model calls *)

Definition is_chat (e : Effect) : Prop := match e with EvChat _ => True | _ => False end.
#[local] Instance is_chat_dec e : Decision (is_chat e).
Proof. destruct e; apply _. Defined.
Definition chats (tr : list Effect) : nat := length (filter is_chat tr).

Definition adds {A} (k : nat) (m : M A) : Prop :=
  ∀ w s, chats (w_trace (m w s).1.1) ≤ chats (w_trace w) + k.

Lemma chats_silent tr eff : Forall not_chat eff → chats (tr ++ eff) = chats tr.
Proof.
  intros He. unfold chats. rewrite filter_app, length_app.
  replace (filter is_chat eff) with ([] : list Effect); [simpl; lia|]. symmetry.
  apply filter_nil_Forall. eapply Forall_impl; [done|]. intros []; simpl; tauto.
Qed.

Lemma adds_silent {A} (m : M A) : within any_state not_chat m → adds 0 m.
Proof. intros Hm w s. destruct (Hm w s) as [_ (eff & -> & He)]. rewrite chats_silent by done. lia. Qed.
Lemma adds_quiet {A} (m : M A) : within same_core quiet_eff m → adds 0 m.
Proof. intros Hm. by apply adds_silent, quiet_silent. Qed.

Lemma adds_bind {A B} k k' (m : M A) (f : A → M B) :
  adds k m → (∀ a, adds k' (f a)) → adds (k + k') (m ≫= f).
Proof.
  intros Hm Hf w s. specialize (Hm w s). unfold mbind, M_bind.
  destruct (m w s) as [[w1 s1] [a|e]]; simpl in *; [|lia]. specialize (Hf a w1 s1). lia.
Qed.

Lemma adds_stage name stage rest k k' :
  adds k stage → adds k' (Pipeline_Run rest) → adds (k + k') (Pipeline_Run ((name, stage) :: rest)).
Proof.
  intros Hs Hr. cbn [Pipeline_Run].
  replace (k + k') with (0 + (k + (0 + k'))) by lia.
  apply adds_bind; [apply adds_quiet, emit_quiet|]. intros _. apply adds_bind.
  - intros w s. specialize (Hs w s). destruct (stage w s) as [[w1 s1] [r|e]]; [done|].
    pose proof (adds_bind 0 0 (Emit EventStageFailed name ∅)
      (λ _, fail (A := StageResult) e) (adds_quiet _ (emit_quiet _ _ _))
      (λ _, adds_quiet _ (within_fail _ _ e)) w1 s1). simpl in *. lia.
  - intros r. apply adds_bind; [apply adds_quiet, emit_quiet|]. intros _. case_decide; [done|].
    intros w s. simpl. lia.
Qed.

Lemma adds_think llm maxOut : adds 1 (think llm maxOut).
Proof.
  unfold ThinkStage. replace 1 with (0 + (0 + (1 + 0))) by lia.
  apply adds_bind; [apply adds_quiet, within_get, _|]. intros s.
  apply adds_bind; [apply adds_quiet, within_getTools, _|]. intros r. cbv zeta.
  apply adds_bind.
  { intros w s1. unfold try_callback, callback, mbind, M_bind.
    destruct (llm (w_tick w) _); simpl; unfold chats; rewrite filter_app, length_app; simpl; lia. }
  intros resp. apply adds_silent. within_auto. apply silent_sort_calls.
Qed.

Lemma adds_pipeline : adds 1 (Pipeline_Run stages).
Proof.
  unfold react_stages.
  do 9 (apply (adds_stage _ _ _ 0 1);
    [first [apply adds_quiet, quiet_InputGuard|apply adds_silent, silent_MemoryLoad|
            apply adds_silent, silent_Context|apply adds_quiet, quiet_SystemPrompt|
            apply adds_quiet, quiet_Skill|apply adds_quiet, quiet_ToolProvider|
            apply adds_quiet, quiet_OutputFormat|apply adds_quiet, quiet_Prompt|
            apply adds_silent, silent_Projection]|]).
  apply (adds_stage _ _ _ 1 0); [apply adds_think|].
  do 6 (apply (adds_stage _ _ _ 0 0);
    [first [apply adds_quiet, quiet_Budget|apply adds_quiet, quiet_Policy|
            apply adds_quiet, quiet_Approval|apply adds_silent, silent_Act|
            apply adds_silent, silent_Observe|apply adds_silent, silent_Finalize]|]).
  intros w s. simpl. lia.
Qed.

Lemma adds_loop n : adds n (react_loop schema_compiles json_instance schema_validates json_valid
    output_schema_check quote error_text clock c n).
Proof.
  induction n as [|n IH]; cbn [react_loop]; [intros w s; simpl; lia|].
  replace (S n) with (1 + n) by lia. apply adds_bind; [apply adds_pipeline|].
  intros [| | |]; [apply IH| | |]; try (intros w s; simpl; lia).
  intros w s. assert (adds 0 (saveMemory c ≫= λ _, Emit EventFinalized "" ∅ ≫= λ _, mret StageBreak))
    as Ha.
  { apply adds_quiet. apply within_bind; [apply _|apply quiet_saveMemory|]. intros _.
    apply within_bind; [apply _|apply emit_quiet|]. intros _. apply within_ret, _. }
  specialize (Ha w s). lia.
Qed.

(** ** How a run ends *)

Context (uuid_parse : string → option string) (json_ok : RunCheckpoint → bool).
Abbreviation agent_run := (Agent_Run schema_compiles json_instance schema_validates json_valid
  output_schema_check quote error_text clock uuid_parse json_ok c).

Lemma cloneCall_id call : cloneCall call = call.
Proof. by destruct call. Qed.
Lemma cloneCalls_id (calls : list ToolCall) : cloneCall <$> calls = calls.
Proof. rewrite (list_fmap_ext _ id), list_fmap_id; [done|]. intros ? x _. apply cloneCall_id. Qed.
Lemma cloneMessages_id msgs : cloneMessages msgs = msgs.
Proof.
  unfold cloneMessages. rewrite (list_fmap_ext _ id), list_fmap_id; [done|].
  intros ? m _. rewrite cloneCalls_id. by destruct m.
Qed.

(** Usage within a budget: each limit that is positive is kept, the total as a Go [int]. *)
Definition within_budget (b : Budget) (u : Usage) : Prop :=
  (0 < bg_Input b → us_Input u ≤ bg_Input b)%Z ∧ (0 < bg_Output b → us_Output u ≤ bg_Output b)%Z ∧
  (0 < bg_Total b → wrap64 (us_Input u + us_Output u) ≤ bg_Total b)%Z.
Lemma budget_Check_within b u : pd_Allowed (budget_Check b u) = true ↔ within_budget b u.
Proof. unfold budget_Check, within_budget, exceeds. repeat case_decide; simpl; split; intros; try done; lia. Qed.

(** What a checkpoint keeps of a paused run: once its pending calls are answered,
every call is; and its usage is within the budget. *)
Definition paused_ok (ck : RunCheckpoint) : Prop :=
  open_msgs (ck_Messages ck) (ck_PendingCalls ck) ∧
  ∀ b, c_BudgetGuard c = Some (inl b) → within_budget b (ck_Usage ck).

Lemma checkpointFromState_ok s ck :
  checkpointFromState uuid_parse json_ok s = Ok ck →
  ck_Messages ck = Messages s ∧ ck_PendingCalls ck = PendingCalls s ∧ ck_Usage ck = RunUsage s.
Proof.
  unfold checkpointFromState. cbv zeta. destruct (checkpoint_validate _ _ _); [|done].
  intros [= <-]. simpl. unfold checkpointToolCalls. by rewrite cloneMessages_id, cloneCalls_id.
Qed.

(** The outcome of a run that ended in [stage_post]. *)
Definition outcome_ok (out : option RunResult * option Error) : Prop :=
  match out with
  | (Some r, None) =>
      rr_Content r ≠ "" ∧ rr_Interruption r = None ∧
      ∀ b, c_BudgetGuard c = Some (inl b) → within_budget b (rr_Usage r)
  | (Some r, Some _) => ∀ ck, rr_Interruption r = Some ck → paused_ok ck
  | (None, Some _) => True
  | (None, None) => False
  end.

Lemma finish_ok detailed p :
  match p with (w, s, Ok r) => r ≠ StageContinue ∧ stage_post r w s
             | (w, _, Err _) => Inv w end →
  let '(w, s, out) := finish error_text clock uuid_parse json_ok detailed p in
  Inv w ∧ (G → outcome_ok out).
Proof.
  assert (∀ w s e, Inv w → let '(w', s', out) := runErrorResult error_text clock detailed w s e in
    Inv w' ∧ (G → outcome_ok out)) as Herr.
  { intros w s e HI. unfold runErrorResult. by destruct detailed. }
  destruct p as [[w s] [[| | |]|e]]; simpl; [naive_solver| |naive_solver| |by apply Herr].
  - intros (_ & [[Hc Hb] (resp & r & Hf & _ & _ & Hct & Hne & Hu & Hi)]).
    split; [by eapply closed_Inv|]. intros HG. rewrite Hf. simpl. rewrite Hct, Hu.
    split_and!; [done..|]. intros b Hg. by apply budget_Check_within, Hb.
  - intros (_ & [Ho Hb]). pose proof (opened_Inv _ _ Ho) as HI.
    unfold pendingRunResult. destruct (checkpointFromState uuid_parse json_ok s) as [ck|] eqn:Hck;
      [|by apply Herr].
    apply checkpointFromState_ok in Hck as (Hm & Hp & Hu). destruct detailed; simpl; [|done].
    split; [done|]. intros HG ck' [= <-]. destruct Ho as (_ & _ & Hop & _).
    unfold paused_ok. rewrite Hm, Hp, Hu. split; [by apply Hop|]. intros b Hg. by apply budget_Check_within, Hb.
Qed.

Lemma react_loop_result n w s :
  match react_loop schema_compiles json_instance schema_validates json_valid
    output_schema_check quote error_text clock c n w s with
  | (_, _, Ok r) => r ≠ StageContinue
  | _ => True
  end.
Proof.
  revert w s. induction n as [|n IH]; intros w s; cbn [react_loop]; [done|].
  unfold mbind at 1, M_bind at 1. destruct (Pipeline_Run stages w s) as [[w1 s1] [[| | |]|e]]; try done.
  - apply IH.
  - unfold mbind, M_bind. destruct (saveMemory c w1 s1) as [[w2 s2] [[]|]]; [|done].
    by destruct (Emit EventFinalized "" ∅ w2 s2) as [[w3 s3] [[]|]].
Qed.

Lemma Agent_Run_inv registry sink detailed newID req :
  let '(w, s, out) := agent_run registry sink detailed newID req in
  Inv w ∧ (G → outcome_ok out).
Proof.
  unfold Agent_Run. cbv zeta. apply finish_ok. unfold ReAct_Run. unfold mbind, M_bind, get.
  match goal with |- context [react_loop _ _ _ _ _ _ _ _ c ?n ?w ?s] =>
    pose proof (react_loop_triple n w s) as Ht; pose proof (react_loop_result n w s) as Hr;
    destruct (react_loop _ _ _ _ _ _ _ _ c n w s) as [[w' s'] [r|e]] end.
  - split; [done|]. apply Ht. split_and!; [|done|done|intros; constructor|done]. split.
    + intros pre call post Heq. by destruct pre.
    + intros _ _ req' Hin. simpl in Hin. set_solver.
  - apply Ht. split_and!; [|done|done|intros; constructor|done]. split.
    + intros pre call post Heq. by destruct pre.
    + intros _ _ req' Hin. simpl in Hin. set_solver.
Qed.

End run.

(** * Properties *)

Section properties.
Context (schema_compiles : RawMessage → option Error) (json_instance : RawMessage → option Error)
  (schema_validates : RawMessage → RawMessage → option Error) (json_valid : RawMessage → bool).
Context (output_schema_check : RawMessage → RawMessage → option Error).
Context (quote : string → string) (error_text : Error → string) (clock : nat → Time).
Context (uuid_parse : string → option string) (json_ok : RunCheckpoint → bool).
Context (c : ReActConfig).

Abbreviation agent_run := (Agent_Run schema_compiles json_instance schema_validates json_valid
  output_schema_check quote error_text clock uuid_parse json_ok c).
Abbreviation run_inv := (Agent_Run_inv schema_compiles json_instance schema_validates json_valid
  output_schema_check quote error_text clock c True uuid_parse json_ok).

Lemma Run_unresolved registry sink detailed newID req :
  let '(w, s, out) := agent_run registry sink detailed newID req in
  Forall not_resolved (w_trace w).
Proof.
  unfold Agent_Run, ReAct_Run. cbv zeta. unfold mbind, M_bind, get.
  match goal with |- context [react_loop _ _ _ _ _ _ _ _ c ?n ?w ?s] =>
    destruct (unresolved_loop schema_compiles json_instance schema_validates json_valid
      output_schema_check quote error_text clock c n w s) as [_ (eff & Ht & He)];
    destruct (react_loop _ _ _ _ _ _ _ _ c n w s) as [[w' s'] r] end.
  simpl in Ht. subst eff. unfold finish, runErrorResult, pendingRunResult.
  destruct r as [[| | |]|e]; try done.
  - destruct (checkpointFromState _ _ _); [by destruct detailed|]. unfold runErrorResult. by destruct detailed.
  - by destruct detailed.
Qed.

(** C1: No tool runs without the host's permission: in every run, each tool call
that is executed was, after the model asked for it and before the model was
called again, allowed by the policy engine on that very call (name and
arguments), and, when an approver is configured, allowed by it and not left
pending. *)
Theorem Run_tools_authorized registry sink detailed newID req :
  let '(w, s, out) := agent_run registry sink detailed newID req in
  ∀ pre call post, w_trace w = pre ++ EvTool call :: post →
    (is_Some (c_PolicyEngine c) → ∃ req d, fresh_in (EvPolicy call req d) pre ∧
       pd_Allowed d = true ∧ pr_Tool req = call_Name call ∧ pr_Input req = call_Input call) ∧
    (is_Some (c_ToolApprover c) → ∃ d, fresh_in (EvApproval call d) pre ∧
       ad_Allowed d = true ∧ ad_Pending d = false).
Proof.
  pose proof (run_inv registry sink detailed newID req) as H.
  pose proof (Run_unresolved registry sink detailed newID req) as Hun.
  destruct (agent_run registry sink detailed newID req) as [[w s] out].
  intros pre call post Htr. destruct H as [[Htools _] _].
  destruct (Htools pre call post Htr) as [Hpol Happ]. split; [done|].
  intros Hsome. destruct (Happ Hsome) as [Ha|(p1 & p2 & Hp & _)]; [done|].
  rewrite Htr, Hp, <-(assoc_L (++)), Forall_app in Hun. destruct Hun as [_ Hun].
  by apply Forall_cons in Hun as [[] _].
Qed.

(** C4: Every tool call is answered: without a context projector, each request sent
to the model contains, for every assistant message with tool calls, exactly one
tool message per call ID right after it, whether calls were executed, rejected
for bad arguments, or silent; and no orphaned tool message, from memory or
otherwise. *)
Theorem Run_calls_answered registry sink detailed newID req :
  let '(w, s, out) := agent_run registry sink detailed newID req in
  c_ContextProjector c = None → ∀ chat, EvChat chat ∈ w_trace w → replied (cr_Messages chat).
Proof.
  pose proof (run_inv registry sink detailed newID req) as H.
  destruct (agent_run registry sink detailed newID req) as [[w s] out]. by apply H.
Qed.

(** C5: What a run returns: a result or an error, always. A result without an error is a
non-empty final answer with no interruption, and where the agent has the guard of a [Budget], the input, output
and total tokens it reports exceed no limit that is set (all three are Go [int]s, which wrap); an interruption comes with an
error and carries a checkpoint whose conversation is complete once its pending
calls are answered, also within budget. *)
Theorem Run_outcome registry sink detailed newID req :
  let '(w, s, out) := agent_run registry sink detailed newID req in outcome_ok c out.
Proof.
  pose proof (run_inv registry sink detailed newID req) as H.
  destruct (agent_run registry sink detailed newID req) as [[w s] out]. by apply H.
Qed.

(** C6: The loop is bounded: a run calls the model at most MaxIterations times
(8 when that is not positive), whatever the model answers. *)
Theorem Run_model_calls registry sink detailed newID req :
  let '(w, s, out) := agent_run registry sink detailed newID req in
  (Z.of_nat (chats (w_trace w)) ≤ if decide (c_MaxIterations c ≤ 0) then 8 else c_MaxIterations c)%Z.
Proof.
  fold (react_maxIterations c). unfold Agent_Run, ReAct_Run. cbv zeta. unfold mbind, M_bind, get.
  match goal with |- context [react_loop _ _ _ _ _ _ _ _ c ?n ?w ?s] =>
    pose proof (adds_loop schema_compiles json_instance schema_validates json_valid
      output_schema_check quote error_text clock c n w s) as Ha;
    destruct (react_loop _ _ _ _ _ _ _ _ c n w s) as [[w' s'] r] eqn:Hl end.
  simpl in Ha. assert (Z.of_nat (chats (w_trace w')) ≤ react_maxIterations c)%Z as Hb.
  { change (chats []) with 0 in Ha. unfold react_maxIterations in *. case_decide; lia. }
  unfold finish, runErrorResult, pendingRunResult. destruct r as [[| | |]|e]; try done.
  - destruct (checkpointFromState _ _ _); [by destruct detailed|]. unfold runErrorResult. by destruct detailed.
  - by destruct detailed.
Qed.

End properties.

(** * A sample agent *)

(** A model that asks for the tool [tool] and answers once it has a tool result. *)
Definition sample_llm (tool : string) (_ : nat) (req : ChatRequest) : res Error ChatResponse :=
  match last (cr_Messages req) with
  | Some m =>
      if decide (msg_Role m = "tool") then Ok (mkChatResponse "done" [] (mkUsage 3 4))
      else Ok (mkChatResponse "" [mkCall "call-1" tool "{}"] (mkUsage 1 2))
  | None => Ok (mkChatResponse "" [mkCall "call-1" tool "{}"] (mkUsage 1 2))
  end.

(** An agent with the default policy engine, a token budget, and an approver. *)
Definition sample_config (tool : string)
    (approver : option (nat → ToolApprovalRequest → ToolApprovalDecision))
    (guard : option (nat → InputGuardRequest → option Error)) : ReActConfig :=
  {| c_LLM := sample_llm tool;
     c_PromptCompiler := Some (λ _ blocks, Ok (Compile blocks));
     c_PromptBlocks := [];
     c_PolicyEngine := Some (λ _ req, policy_Decide req);
     c_MemoryLoad := Some (λ _ _, Ok [mkMemoryMessage "user" "earlier"]);
     c_MemorySave := λ _ _ _, None;
     c_SkillProvider := None;
     c_SystemPromptProvider := None;
     c_ToolProvider := None;
     c_ContextProjector := None;
     c_InputGuard := guard;
     c_ToolApprover := approver;
     c_OutputFormat := mkOutputFormat "" "" "" "";
     c_OutputValidator := None;
     c_BudgetGuard := Some (inl (mkBudget 100 100 0));
     c_MaxIterations := 0;
     c_MaxOutputTokens := 0 |}.

Definition allow_all (_ : nat) (_ : ToolApprovalRequest) : ToolApprovalDecision :=
  mkApprovalDecision true false "".
Definition ask_later (_ : nat) (_ : ToolApprovalRequest) : ToolApprovalDecision :=
  mkApprovalDecision false true "ask a human".

Definition sample_request (metadata : Metadata) : RunRequest :=
  mkRequest "00000000-0000-0000-0000-000000000001" "hello" "user" "session" metadata []
    (mkPolicyContext "" "" "" ∅).

Definition sample_run (c : ReActConfig) (req : RunRequest)
    : World * RunState * (option RunResult * option Error) :=
  Agent_Run no_schema no_schema no_mismatch (λ _, true) no_mismatch id (λ _, "error")
    (λ t, Z.of_nat t + 1)%Z Some (λ _, true) c sample_registry true true "id" req.

(** The model is called twice, the second time with the tool's answer. *)
Definition answered_chats (tr : list Effect) : list ChatRequest :=
  omap (λ e, match e with EvChat r => Some r | _ => None end) tr.

Lemma Run_calls_answered_witness :
  let '(w, s, out) := sample_run (sample_config "echo" (Some allow_all) None) (sample_request ∅) in
  option_map rr_Content out.1 = Some "done" ∧
  length (answered_chats (w_trace w)) = 2 ∧
  ∀ chat, EvChat chat ∈ w_trace w → replied (cr_Messages chat).
Proof.
  pose proof (Run_calls_answered no_schema no_schema no_mismatch (λ _, true) no_mismatch id
    (λ _, "error") (λ t, Z.of_nat t + 1)%Z Some (λ _, true)
    (sample_config "echo" (Some allow_all) None) sample_registry true true "id"
    (sample_request ∅)) as H.
  fold (sample_run (sample_config "echo" (Some allow_all) None) (sample_request ∅)) in H.
  assert (option_map rr_Content
    (sample_run (sample_config "echo" (Some allow_all) None) (sample_request ∅)).2.1 = Some "done")
    as H1 by by vm_compute.
  assert (length (answered_chats (w_trace
    (sample_run (sample_config "echo" (Some allow_all) None) (sample_request ∅)).1.1)) = 2)
    as H2 by by vm_compute.
  destruct (sample_run (sample_config "echo" (Some allow_all) None) (sample_request ∅))
    as [[w s] out].
  split; [exact H1|]. split; [exact H2|]. apply H. reflexivity.
Defined.
