(* ===== verification/AgentResume.v ===== *)
(** Pausing and resuming an agent run: resolutions, checkpoints, and the safety of
a resumed run ([src/goagent/agentcore/resume_stage.go], [checkpoint.go] and
[Agent.resume] in [agent.go]). *)

From S2P Require Import Prelude AgentTools AgentCore AgentSafety.

(** * Approval resolutions *)

(** Resolution [r] decides call [i]. *)
Definition decides (calls : list ToolCall) (i : nat) (r : ToolApprovalResolution) : Prop :=
  rs_Index r = Z.of_nat i ∧
  ∃ call, calls !! i = Some call ∧ rs_ToolCallID r = call_ID call ∧ rs_Tool r = call_Name call.

(** The slots filled so far hold the resolutions seen so far, each at its index. *)
Definition slots_hold (calls : list ToolCall) (ordered : list (option ToolApprovalResolution))
    (seen : list ToolApprovalResolution) : Prop :=
  length ordered = length calls ∧ omap id ordered ≡ₚ seen ∧
  ∀ i r, ordered !! i = Some (Some r) → decides calls i r.

Lemma omap_insert (l : list (option ToolApprovalResolution)) i r :
  l !! i = Some None → omap id (<[i := Some r]> l) ≡ₚ r :: omap id l.
Proof.
  revert i. induction l as [|x l IH]; intros [|i] Hi; simplify_eq/=; [done|].
  destruct x; simpl; rewrite IH by done; [apply Permutation_swap|done].
Qed.

Lemma order_resolutions_ok calls rs ordered seen out :
  slots_hold calls ordered seen → order_resolutions calls ordered rs = Ok out →
  slots_hold calls out (seen ++ rs).
Proof.
  revert ordered seen. induction rs as [|r rs IH]; intros ordered seen Hh; simpl.
  { intros [= <-]. by rewrite app_nil_r. }
  case_decide as Hidx; [done|]. set (i := Z.to_nat (rs_Index r)).
  destruct Hh as (Hlen & Hperm & Hdec).
  destruct (lookup_lt_is_Some_2 ordered i) as [slot Hslot]; [lia|]. rewrite Hslot.
  destruct slot as [|]; [done|].
  destruct (calls !! i) as [call|] eqn:Hcall; [|done]. case_decide as Hm; [done|]. intros Hout.
  replace (seen ++ r :: rs) with ((seen ++ [r]) ++ rs) by by rewrite <-(assoc_L (++)).
  eapply IH; [|exact Hout]. split_and!.
  - by rewrite length_insert.
  - rewrite omap_insert, Hperm by done. by rewrite Permutation_app_comm.
  - intros j r'. destruct (decide (j = i)) as [->|Hne].
    + rewrite list_lookup_insert_eq by (rewrite Hlen; by eapply lookup_lt_Some).
      intros [= <-]. split; [lia|]. exists call.
      apply Decidable.not_or in Hm as [H1 H2]. apply dec_stable in H1, H2. done.
    + rewrite list_lookup_insert_ne by done. apply Hdec.
Qed.

Lemma all_found_ok n ordered out :
  all_found n ordered = Ok out ↔ ordered = Some <$> out.
Proof.
  revert n out. induction ordered as [|[r|] ordered IH]; intros n out; simpl.
  - split; [by intros [= <-]|]. by destruct out.
  - unfold res_bind. destruct (all_found (S n) ordered) as [rest|] eqn:Ha.
    + apply IH in Ha. split; [intros [= <-]; simpl; by rewrite Ha|].
      destruct out as [|r' out]; [done|]. simpl. intros [= <- Heq].
      rewrite Ha in Heq. apply list_fmap_eq_inj in Heq; [by rewrite Heq|]. by intros ?? [= ->].
    + split; [done|]. destruct out as [|r' out]; [done|]. simpl. intros [= <- Heq%(IH (S n))].
      congruence.
  - split; [done|]. by destruct out.
Qed.

Lemma slots_start calls : slots_hold calls (replicate (length calls) None) [].
Proof.
  split_and!; [by rewrite length_replicate| |].
  - by induction calls.
  - intros i r [? ?]%lookup_replicate. done.
Qed.

Lemma validate_ok calls rs ordered :
  validateApprovalResolutions calls rs = Ok ordered →
  ordered ≡ₚ rs ∧ length ordered = length calls ∧
  ∀ i r, ordered !! i = Some r → decides calls i r.
Proof.
  unfold validateApprovalResolutions. case_decide as Hlen; [done|]. unfold res_bind.
  destruct (order_resolutions _ _ _) as [slots|] eqn:Ho; [|done]. intros Hall%all_found_ok.
  apply (order_resolutions_ok _ _ _ [] _ (slots_start calls)) in Ho as (Hl & Hp & Hd).
  subst slots. rewrite length_fmap in Hl. split_and!.
  - rewrite <-Hp. clear. induction ordered; simpl; by f_equiv.
  - done.
  - intros i r Hi. apply Hd. by rewrite list_lookup_fmap, Hi.
Qed.

(** Completeness: a set of resolutions that decides every call exactly once is
accepted, whatever its order. *)
Lemma order_resolutions_complete calls rs ordered seen :
  slots_hold calls ordered seen →
  (∀ r, r ∈ rs → ∃ i, decides calls i r) → NoDup (rs_Index <$> (seen ++ rs)) →
  ∃ out, order_resolutions calls ordered rs = Ok out.
Proof.
  revert ordered seen. induction rs as [|r rs IH]; intros ordered seen Hh Hdec Hnd; simpl; [eauto|].
  destruct (Hdec r) as (i & Hidx & call & Hcall & Hid & Hname); [left|].
  pose proof Hcall as Hlt%lookup_lt_Some.
  rewrite decide_False by lia. rewrite Hidx, Nat2Z.id.
  destruct Hh as (Hlen & Hperm & Hslots).
  destruct (lookup_lt_is_Some_2 ordered i) as [slot Hslot]; [lia|]. rewrite Hslot.
  assert (slot = None) as ->.
  { destruct slot as [r'|]; [|done]. exfalso. destruct (Hslots i r' Hslot) as [Hi' _].
    assert (r' ∈ seen) as Hin.
    { rewrite <-Hperm. apply list_elem_of_omap. exists (Some r').
      split; [by eapply list_elem_of_lookup_2|done]. }
    rewrite fmap_app, NoDup_app in Hnd. destruct Hnd as (_ & Hdis & _).
    apply (Hdis (Z.of_nat i)).
    - apply list_elem_of_fmap. by exists r'.
    - simpl. rewrite Hidx. left. }
  rewrite Hcall, decide_False by naive_solver.
  apply (IH _ (seen ++ [r])).
  - split_and!; [by rewrite length_insert| |].
    + rewrite omap_insert, Hperm by done. by rewrite Permutation_app_comm.
    + intros j r'. destruct (decide (j = i)) as [->|Hne].
      * rewrite list_lookup_insert_eq by lia. intros [= <-]. split; [done|]. by exists call.
      * rewrite list_lookup_insert_ne by done. apply Hslots.
  - intros r' Hr'. apply Hdec. by right.
  - by rewrite <-(assoc_L (++)).
Qed.

Lemma length_omap_id (l : list (option ToolApprovalResolution)) : length (omap id l) ≤ length l.
Proof. induction l as [|[r|] l IH]; [done|by apply le_n_S|by apply le_S]. Qed.

Lemma slots_full calls ordered rs :
  slots_hold calls ordered rs → length rs = length calls →
  ∃ out, ordered = Some <$> out.
Proof.
  intros (Hlen & Hperm & _) Hrs.
  assert (length (omap id ordered) = length ordered) as Hfull by (rewrite Hperm; lia).
  clear Hlen Hperm Hrs. induction ordered as [|[r|] ordered IH]; simpl in Hfull.
  - by exists [].
  - destruct IH as [out ->]; [by injection Hfull|]. by exists (r :: out).
  - assert (S (length ordered) ≤ length ordered); [|lia].
    etrans; [apply Nat.eq_le_incl; symmetry; exact Hfull|apply length_omap_id].
Qed.

(** A host decision set is accepted exactly when it decides every pending call
once: as many resolutions as calls, no index twice, and each matching the call
at its index in ID and tool name; the result then lists the decisions in call
order. In particular a resolution for another call, or a missing or duplicate
one, is refused. *)
Theorem resolutions_exact calls rs :
  (∃ ordered, validateApprovalResolutions calls rs = Ok ordered ∧ ordered ≡ₚ rs ∧
     ∀ i call, calls !! i = Some call → ∃ r, ordered !! i = Some r ∧
       rs_Index r = Z.of_nat i ∧ rs_ToolCallID r = call_ID call ∧ rs_Tool r = call_Name call) ↔
  length rs = length calls ∧ NoDup (rs_Index <$> rs) ∧
  Forall (λ r, ∃ i call, calls !! i = Some call ∧ rs_Index r = Z.of_nat i ∧
    rs_ToolCallID r = call_ID call ∧ rs_Tool r = call_Name call) rs.
Proof.
  split.
  - intros (ordered & Hv & _). apply validate_ok in Hv as (Hp & Hlen & Hd). rewrite <-Hp.
    split_and!; [done|..].
    + apply NoDup_alt. intros i j z Hi Hj. rewrite list_lookup_fmap in Hi, Hj.
      destruct (ordered !! i) eqn:Ei; [|done]. destruct (ordered !! j) eqn:Ej; [|done].
      destruct (Hd i _ Ei) as [Hi' _]. destruct (Hd j _ Ej) as [Hj' _]. simplify_eq/=. lia.
    + apply Forall_forall. intros r Hr. apply list_elem_of_lookup in Hr as [i Hi].
      destruct (Hd i r Hi) as (Hidx & call & Hc & Hids & Htool). by exists i, call.
  - intros (Hlen & Hnd & Hall). rewrite Forall_forall in Hall.
    destruct (order_resolutions_complete calls rs _ [] (slots_start calls)) as [slots Hslots]; [|done|].
    { intros r Hr. destruct (Hall r Hr) as (i & call & Hc & Hi & Hids & Htool). exists i.
      split; [done|]. by exists call. }
    pose proof (order_resolutions_ok _ _ _ _ _ (slots_start calls) Hslots) as Hh.
    destruct (slots_full _ _ _ Hh Hlen) as [ordered ->].
    assert (validateApprovalResolutions calls rs = Ok ordered) as Hv.
    { unfold validateApprovalResolutions. rewrite decide_False by lia.
      rewrite Hslots. simpl. by apply all_found_ok. }
    exists ordered. split; [done|]. apply validate_ok in Hv as (Hp & Hl & Hd). split; [done|].
    intros i call Hc. destruct (lookup_lt_is_Some_2 ordered i) as [r Hr].
    { rewrite Hl. by eapply lookup_lt_Some. }
    exists r. split; [done|]. destruct (Hd i r Hr) as (Hi & call' & Hc' & H).
    rewrite Hc in Hc'. by simplify_eq.
Qed.

(** * A resumed run *)

Section resume.
Context (schema_compiles : RawMessage → option Error) (json_instance : RawMessage → option Error)
  (schema_validates : RawMessage → RawMessage → option Error) (json_valid : RawMessage → bool).
Context (output_schema_check : RawMessage → RawMessage → option Error).
Context (quote : string → string) (error_text : Error → string) (clock : nat → Time).
Context (uuid_parse : string → option string) (json_ok : RunCheckpoint → bool).
Context (c : ReActConfig) (G : Prop).

Abbreviation Inv := (AgentSafety.Inv c G).
Abbreviation act := (ActStage schema_compiles json_instance schema_validates).
Abbreviation agent_resume := (Agent_Resume schema_compiles json_instance schema_validates json_valid
  output_schema_check quote error_text clock uuid_parse json_ok c).

Lemma fresh_in_elem e tr eff : e ∈ eff → Forall not_chat eff → fresh_in e (tr ++ eff).
Proof.
  intros (l1 & l2 & ->)%list_elem_of_split [_ [_ H2]%Forall_cons]%Forall_app.
  exists (tr ++ l1), l2. by rewrite <-(assoc_L (++)).
Qed.

(** The first loop: it passes only when every resolution allows its call. *)
Lemma deny_resolved_spec i resolved w s :
  ∃ w' res eff, deny_resolved i resolved w s = (w', s, res) ∧
    w_trace w' = w_trace w ++ eff ∧ Forall quiet_eff eff ∧
    (res = Ok tt → Forall (λ p : ToolCall * _, rs_Allowed p.2 = true) resolved).
Proof.
  revert i. induction resolved as [|[call r] resolved IH]; intros i; cbn [deny_resolved].
  { exists w, (Ok tt), []. rewrite app_nil_r. split_and!; [done..|]. constructor. }
  destruct (rs_Allowed r) eqn:Hr.
  - destruct (IH (S i)) as (w' & res & eff & -> & Ht & He & Hall). exists w', res, eff.
    split_and!; [done..|]. intros Hres. constructor; [done|]. by apply Hall.
  - match goal with |- context [(Emit ?t ?st ?m ≫= λ _, ?k) w s] =>
      destruct (Emit_then t st m k w s) as (w1 & eff1 & -> & Ht1 & He1) end.
    eexists w1, _, eff1. by split_and!.
Qed.

Lemma zip_resolved calls rs ordered call :
  validateApprovalResolutions calls rs = Ok ordered → call ∈ calls →
  ∃ r, (call, r) ∈ zip calls ordered.
Proof.
  intros (_ & Hlen & _)%validate_ok [i Hi]%list_elem_of_lookup.
  destruct (lookup_lt_is_Some_2 ordered i) as [r Hr].
  { rewrite Hlen. by eapply lookup_lt_Some. }
  exists r. apply list_elem_of_lookup. exists i. apply lookup_zip_with_Some. by exists call, r.
Qed.

Lemma triple_Resolved rs :
  triple (opened_policy c G) (ResolvedApprovalStage rs)
    (λ r, if decide (r = StageContinue) then opened_approved c G else stage_post c G r) Inv.
Proof.
  intros w s H. unfold ResolvedApprovalStage. unfold mbind at 1, M_bind at 1, get.
  pose proof H as [[[HI _] _] _].
  destruct (validateApprovalResolutions (PendingCalls s) rs) as [ordered|e] eqn:Hv; [|done].
  cbv zeta. set (resolved := zip (PendingCalls s) ordered).
  set (evs := (λ '(call, r), EvResolved call (rs_Allowed r)) <$> resolved).
  assert (Forall quiet_eff evs) as Hevs.
  { unfold evs. rewrite Forall_fmap. apply Forall_forall. by intros [] _. }
  unfold mbind at 1, M_bind at 1, note. unfold mbind at 1, M_bind at 1.
  set (w1 := w <| w_trace := w_trace w ++ evs |>).
  destruct (deny_resolved_spec 0 resolved w1 s) as (w2 & res & eff2 & -> & Ht2 & He2 & Hall).
  assert (opened_policy c G w2 s) as H2.
  { eapply qstable_opened_policy; [|exact H]. split; [done|]. exists (evs ++ eff2).
    rewrite Ht2. simpl. by rewrite (assoc_L (++)), Forall_app. }
  destruct res as [[]|e]; [|by apply H2]. specialize (Hall eq_refl).
  assert (opened_approved c G w2 s) as H3.
  { split; [done|]. intros _ call Hin. right.
    destruct (zip_resolved _ _ _ _ Hv Hin) as [r Hr]. rewrite Ht2.
    apply fresh_in_quiet; [|done]. apply fresh_in_elem.
    - apply list_elem_of_fmap. exists (call, r). split; [|done].
      rewrite Forall_forall in Hall. by rewrite (Hall _ Hr : rs_Allowed r = true).
    - eapply Forall_impl; [done|]. by intros []. }
  match goal with |- context [(?m ≫= _) w2 s] =>
    assert (within same_core quiet_eff m) as Hq
      by (apply within_for_each; [apply _|]; intros ?; apply emit_quiet);
    specialize (Hq w2 s); unfold mbind, M_bind; destruct (m w2 s) as [[w3 s3] [[]|e]] end.
  - simpl. by eapply qstable_opened_approved.
  - assert (opened_approved c G w3 s3) as H4 by by eapply qstable_opened_approved. by apply H4.
Qed.

Ltac resume_stage P Q HP HQ :=
  apply (triple_stage Inv _ _ _ P Q);
    [apply HP|apply HQ|apply qstable_stage_post|apply Inv_quiet|
     unfold closed_budget, opened_approved, opened_policy, opened_budget, closed, opened, acted;
       by intros ??; tauto|
     unfold closed_budget, opened_approved, opened_policy, opened_budget, closed, opened, acted;
       by intros ??; tauto|
     apply stage_post_Inv| |].

Lemma resume_pipeline rs :
  triple (opened_budget c G)
    (Pipeline_Run (resume_stages schema_compiles json_instance schema_validates c rs))
    (stage_post c G) Inv.
Proof.
  unfold resume_stages.
  resume_stage (opened_budget c G) (opened_policy c G) qstable_opened_budget qstable_opened_policy.
  { apply triple_Policy; [apply qstable_opened_budget|by intros ?? [[? _] _]]. }
  resume_stage (opened_policy c G) (opened_approved c G) qstable_opened_policy
    qstable_opened_approved; [apply triple_Resolved|].
  resume_stage (opened_approved c G) (acted c G) qstable_opened_approved qstable_acted;
    [apply triple_Act|].
  resume_stage (acted c G) (closed_budget c G) qstable_acted qstable_closed_budget;
    [apply triple_Observe|].
  apply triple_stages_nil. by intros w s [? _].
Qed.

(** The restored state is where the run was interrupted. *)
Lemma restore_opened ck sink s w :
  restore uuid_parse json_ok ck sink = Ok s → (G → paused_ok c ck) → Inv w →
  opened_budget c G w s.
Proof.
  unfold restore. destruct (checkpoint_validate _ _ ck) as [runID|]; [|done].
  intros [= <-] Hck HI. unfold opened_budget, opened, budgeted. simpl.
  unfold restoreToolCalls. rewrite cloneMessages_id, cloneCalls_id.
  split_and!; [done|done| |done|]; intros HG; [by apply Hck|]. intros b Hg. by apply budget_Check_within, Hck.
Qed.

Lemma Inv_start tools tick : Inv (mkWorld tick tools []).
Proof.
  split; [intros pre call post Heq; by destruct pre|]. intros _ _ req Hin. simpl in Hin. set_solver.
Qed.

Lemma Agent_Resume_inv registry sink detailed ck rs :
  (G → paused_ok c ck) →
  let '(w, s, out) := agent_resume registry sink detailed ck rs in Inv w ∧ (G → outcome_ok c out).
Proof.
  intros Hck. unfold Agent_Resume. cbv zeta. set (w0 := mkWorld 0 _ []).
  pose proof (Inv_start (newRunToolRegistry registry) 0 : Inv w0) as HI.
  destruct (restore uuid_parse json_ok ck sink) as [s0|e] eqn:Hr; [|done].
  pose proof (restore_opened _ _ _ w0 Hr Hck HI) as Ho. clearbody w0.
  destruct (validateApprovalResolutions _ rs) as [ordered|e]; [|by destruct detailed].
  set (body := rehydrateToolProvider c ≫= _).
  assert (triple (opened_budget c G) body
    (λ r w s, r ≠ StageContinue ∧ stage_post c G r w s) Inv) as Hbody.
  { unfold body. apply (triple_bind Inv _ _ _ (λ _, opened_budget c G)).
    { apply triple_quiet; [apply quiet_rehydrate|apply qstable_opened_budget|].
      by intros w s [[? _] _]. }
    intros _. eapply triple_bind; [apply resume_pipeline|]. intros r. case_decide as Hne.
    { apply triple_fail. intros w s Hpost. by eapply stage_post_Inv. }
    subst r. unfold ReAct_Run. apply triple_get_state. intros s1.
    intros w s [Hc ->].
    match goal with |- context [react_loop _ _ _ _ _ _ _ _ c ?n w s1] =>
      pose proof (react_loop_result schema_compiles json_instance schema_validates json_valid
        output_schema_check quote error_text clock c n w s1) as Hres;
      pose proof (react_loop_triple schema_compiles json_instance schema_validates json_valid
        output_schema_check quote error_text clock c G n w s1 Hc) as Ht;
      destruct (react_loop _ _ _ _ _ _ _ _ c n w s1) as [[w' s'] [r|e]] end; done. }
  specialize (Hbody w0 s0 Ho).
  pose proof (finish_ok error_text clock c G uuid_parse json_ok detailed (body w0 s0)) as Hf.
  destruct (body w0 s0) as [[w1 s1] [r|e]]; specialize (Hf Hbody);
    by destruct (finish _ _ _ _ _ _) as [[w' s'] out].
Qed.

End resume.

(** * Checkpoints *)

Lemma usedTools_set (names : list string) :
  foldr (λ name l, {[name]} ∪ l) (∅ : gset string) names = list_to_set names.
Proof. by induction names as [|n names IH]; simpl; [|rewrite IH]. Qed.

Lemma checkpointRequest_id req runID :
  runRequest (checkpointRequestFromRunRequest req) runID =
  mkRequest runID (req_Input req) (req_UserID req) (req_SessionID req) (req_Metadata req)
    (req_AllowedPermissions req) (req_PolicyContext req).
Proof.
  unfold runRequest, checkpointRequestFromRunRequest, cloneMetadata, cloneStringMap. simpl.
  rewrite !map_clone_id. by destruct req as [????? ? []].
Qed.

(** * What a denied resolution prevents *)

Section denied.
Context (calls : list ToolCall) (rs : list ToolApprovalResolution).

(** Every pending call was decided, and allowed. *)
Definition all_allowed : Prop :=
  ∃ ordered, validateApprovalResolutions calls rs = Ok ordered ∧
    Forall (λ r, rs_Allowed r = true) ordered.
(** Nothing but quiet effects happened, or every call was allowed. *)
Definition quiet_or_allowed (w : World) : Prop := Forall quiet_eff (w_trace w) ∨ all_allowed.
Definition still_quiet : assertion := λ w s, Forall quiet_eff (w_trace w) ∧ PendingCalls s = calls.

Lemma qstable_still : qstable still_quiet.
Proof.
  intros w s w' s' [(_ & Hp & _) (eff & Heq & He)] [Hq Hc]. unfold still_quiet.
  rewrite Heq, Forall_app, Hp. done.
Qed.
Lemma still_X w s : still_quiet w s → quiet_or_allowed w.
Proof. intros [? _]. by left. Qed.
Lemma quiet_or_allowed_app w w' eff :
  quiet_or_allowed w → w_trace w' = w_trace w ++ eff → Forall quiet_eff eff → quiet_or_allowed w'.
Proof. intros [Hq|Ha] Heq He; [left|by right]. by rewrite Heq, Forall_app. Qed.

Lemma triple_allowed {A} (m : M A) :
  triple (λ _ _, all_allowed) m (λ _ _ _, all_allowed) quiet_or_allowed.
Proof. intros w s H. by destruct (m w s) as [[w' s'] [a|e]]; [|right]. Qed.

Lemma Resolved_allowed w s w' s' r :
  PendingCalls s = calls → ResolvedApprovalStage rs w s = (w', s', Ok r) →
  r = StageContinue ∧ all_allowed.
Proof.
  intros Hc. unfold ResolvedApprovalStage. unfold mbind at 1, M_bind at 1, get. rewrite Hc.
  destruct (validateApprovalResolutions calls rs) as [ordered|e] eqn:Hv; [|done]. cbv zeta.
  unfold mbind at 1, M_bind at 1, note. unfold mbind at 1, M_bind at 1.
  match goal with |- context [deny_resolved 0 ?l ?w1 s] =>
    destruct (deny_resolved_spec 0 l w1 s) as (w2 & res & eff & -> & _ & _ & Hall) end.
  destruct res as [[]|e]; [|done]. specialize (Hall eq_refl). unfold mbind, M_bind.
  destruct (for_each _ _ w2 s) as [[w3 s3] [[]|e]]; [|done]. intros [= _ _ <-]. split; [done|].
  exists ordered. split; [done|]. apply Forall_lookup. intros i r Hi.
  destruct (validate_ok _ _ _ Hv) as (_ & _ & Hd). destruct (Hd i r Hi) as (_ & call & Hcall & _).
  rewrite Forall_lookup in Hall. apply (Hall i (call, r)).
  apply lookup_zip_with_Some. by exists call, r.
Qed.

Lemma triple_Resolved_allowed :
  triple still_quiet (ResolvedApprovalStage rs)
    (λ r, if decide (r = StageContinue) then (λ _ _, all_allowed)
          else (λ w _, quiet_or_allowed w)) quiet_or_allowed.
Proof.
  intros w s H. pose proof (quiet_Resolved rs w s) as Hq.
  assert (quiet_or_allowed (ResolvedApprovalStage rs w s).1.1) as HX
    by (eapply still_X, qstable_still; [exact Hq|done]).
  destruct (ResolvedApprovalStage rs w s) as [[w' s'] [r|e]] eqn:Hrun; [|done].
  apply Resolved_allowed in Hrun as [-> Hall]; [done|apply H].
Qed.

End denied.

Section properties.
Context (schema_compiles : RawMessage → option Error) (json_instance : RawMessage → option Error)
  (schema_validates : RawMessage → RawMessage → option Error) (json_valid : RawMessage → bool).
Context (output_schema_check : RawMessage → RawMessage → option Error).
Context (quote : string → string) (error_text : Error → string) (clock : nat → Time).
Context (uuid_parse : string → option string) (json_ok : RunCheckpoint → bool).
Context (c : ReActConfig).

Abbreviation agent_resume := (Agent_Resume schema_compiles json_instance schema_validates json_valid
  output_schema_check quote error_text clock uuid_parse json_ok c).
Abbreviation resume_inv := (Agent_Resume_inv schema_compiles json_instance schema_validates json_valid
  output_schema_check quote error_text clock uuid_parse json_ok c).

Lemma runError_trace detailed w s e :
  w_trace (runErrorResult error_text clock detailed w s e).1.1 = w_trace w.
Proof. by destruct detailed. Qed.

Lemma finish_trace detailed p :
  w_trace (finish error_text clock uuid_parse json_ok detailed p).1.1 = w_trace p.1.1.
Proof.
  destruct p as [[w s] [[| | |]|e]]; simpl; try done; [|apply runError_trace].
  unfold pendingRunResult. destruct (checkpointFromState _ _ _); [done|apply runError_trace].
Qed.

(** The resume pipeline passes only when every call was allowed. *)
Lemma resume_pipeline_allowed calls rs :
  triple (still_quiet calls)
    (Pipeline_Run (resume_stages schema_compiles json_instance schema_validates c rs))
    (λ r, if decide (r = StageContinue) then (λ _ _, all_allowed calls rs)
          else (λ w _, quiet_or_allowed calls rs w)) (quiet_or_allowed calls rs).
Proof.
  assert (∀ r, qstable (if decide (r = StageContinue) then (λ _ _, all_allowed calls rs)
      else (λ w _, quiet_or_allowed calls rs w))) as HR.
  { intros r w s w' s' [_ (eff & Heq & He)]. case_decide as Hr; [done|]. intros H.
    by eapply quiet_or_allowed_app. }
  assert (∀ r w (s : RunState), (if decide (r = StageContinue) then (λ _ _, all_allowed calls rs)
      else (λ w _, quiet_or_allowed calls rs w)) w s → quiet_or_allowed calls rs w) as HRX.
  { intros r w s. case_decide; [by right|done]. }
  assert (qstable (λ _ _, all_allowed calls rs)) as Hall by by intros w s w' s' _.
  assert (∀ w (s : RunState), all_allowed calls rs → quiet_or_allowed calls rs w) as HallX by by right.
  unfold resume_stages.
  apply (triple_stage _ _ _ _ (still_quiet calls) (still_quiet calls));
    [apply qstable_still|apply qstable_still|done|apply quiet_or_allowed_app|apply still_X|
     apply still_X|done| |].
  { eapply triple_weaken; [apply (triple_quiet _ (still_quiet calls)); [apply quiet_Policy|
      apply qstable_still|apply still_X]|done|]. intros r w s H.
    destruct r; simpl; [done|by eapply still_X..]. }
  apply (triple_stage _ _ _ _ (still_quiet calls) (λ _ _, all_allowed calls rs));
    [apply qstable_still|done|done|apply quiet_or_allowed_app|apply still_X|done|done| |].
  { eapply triple_weaken; [apply triple_Resolved_allowed|done|]. by intros []. }
  eapply triple_weaken; [apply triple_allowed|done|]. intros r w s H. case_decide; [done|by right].
Qed.

(** C2: Resuming needs every approval: whatever the checkpoint, a resumed run
executes a tool or calls the model only when the host's resolutions are, in some order, exactly one for
every pending call of the checkpoint, with the index, the ID and the tool of that call, and allow all of
them; otherwise the run ends before any tool or model call. *)
Theorem Resume_needs_approval registry sink detailed ck rs :
  let '(w, s, out) := agent_resume registry sink detailed ck rs in
  (∃ call, EvTool call ∈ w_trace w) ∨ (∃ req, EvChat req ∈ w_trace w) →
  ∃ ordered, ordered ≡ₚ rs ∧ length ordered = length (ck_PendingCalls ck) ∧
    ∀ i call, ck_PendingCalls ck !! i = Some call →
      ∃ r, ordered !! i = Some r ∧ rs_Index r = Z.of_nat i ∧ rs_ToolCallID r = call_ID call ∧ rs_Tool r = call_Name call ∧ rs_Allowed r = true.
Proof.
  assert (let '(w, s, out) := agent_resume registry sink detailed ck rs in
    quiet_or_allowed (ck_PendingCalls ck) rs w) as H.
  { unfold Agent_Resume. cbv zeta. set (w0 := mkWorld 0 _ []).
    assert (quiet_or_allowed (ck_PendingCalls ck) rs w0) as H0 by by left; constructor.
    destruct (restore uuid_parse json_ok ck sink) as [s0|e] eqn:Hr; [|done].
    assert (still_quiet (ck_PendingCalls ck) w0 s0) as Hs.
    { unfold restore in Hr. destruct (checkpoint_validate _ _ ck); [|done].
      injection Hr as <-. split; [by constructor|]. simpl. apply cloneCalls_id. }
    destruct (validateApprovalResolutions _ rs) as [ordered|e]; [|by destruct detailed].
    set (body := rehydrateToolProvider c ≫= _).
    assert (triple (still_quiet (ck_PendingCalls ck)) body
      (λ _ w _, quiet_or_allowed (ck_PendingCalls ck) rs w)
      (quiet_or_allowed (ck_PendingCalls ck) rs)) as Hbody.
    { unfold body. apply (triple_bind _ _ _ _ (λ _, still_quiet (ck_PendingCalls ck))).
      { apply triple_quiet; [apply quiet_rehydrate|apply qstable_still|apply still_X]. }
      intros _. eapply triple_bind; [apply resume_pipeline_allowed|]. intros r.
      destruct r; simpl; try by apply triple_fail.
      eapply triple_weaken; [apply triple_allowed|done|]. by right. }
    specialize (Hbody w0 s0 Hs).
    pose proof (finish_trace detailed (body w0 s0)) as Hf.
    destruct (finish _ _ _ _ _ _) as [[w' s'] out]. simpl in Hf. unfold quiet_or_allowed.
    rewrite Hf. destruct (body w0 s0) as [[w1 s1] [r|e]]; exact Hbody. }
  destruct (agent_resume registry sink detailed ck rs) as [[w s] out].
  destruct H as [Hq|(ordered & Hv & Hall)].
  { rewrite Forall_forall in Hq. by intros [[call Hin%Hq]|[req Hin%Hq]]. }
  intros _. exists ordered. apply validate_ok in Hv as (Hp & Hl & Hd). split; [done|]. split; [done|].
  intros i call Hcall. destruct (lookup_lt_is_Some_2 ordered i) as [r Hr]; [rewrite Hl; by eapply lookup_lt_Some|].
  exists r. split; [done|]. destruct (Hd i r Hr) as (Hi & call' & Hcall' & Hid & Htool). simplify_eq.
  split_and!; [done..|]. rewrite Forall_lookup in Hall. by eapply Hall.
Qed.

(** C3: A resumed run is as safe as a fresh one: whatever checkpoint it is given,
every tool it executes was, since the last model call, allowed again by the
policy engine on that very call and, when the agent has an approver, allowed by
it or by the host's resolution for that call. *)
Theorem Resume_tools_authorized registry sink detailed ck rs :
  let '(w, s, out) := agent_resume registry sink detailed ck rs in
  tools_in (authorized c) (w_trace w).
Proof.
  pose proof (resume_inv False registry sink detailed ck rs ltac:(done)) as H.
  destruct (agent_resume registry sink detailed ck rs) as [[w s] out]. by apply H.
Qed.

(** Pausing loses nothing of the conversation and the budget: resuming a
checkpoint that a run returned sends the model only conversations in which every
tool call is answered, the pending ones included, and ends as a run does: a
non-empty answer within the budget, or an error, or another checkpoint of the
same quality. *)
Theorem Resume_outcome registry sink detailed ck rs :
  paused_ok c ck →
  let '(w, s, out) := agent_resume registry sink detailed ck rs in
  outcome_ok c out ∧
  (c_ContextProjector c = None → ∀ chat, EvChat chat ∈ w_trace w → replied (cr_Messages chat)).
Proof.
  intros Hck. pose proof (resume_inv True registry sink detailed ck rs ltac:(done)) as H.
  destruct (agent_resume registry sink detailed ck rs) as [[w s] out]. split; by apply H.
Qed.

(** A checkpoint restores the run: when a run can be checkpointed, restoring
the checkpoint succeeds and gives back the run's identity, request, conversation,
usage, counters, permissions, metadata and pending calls; only what a stage
computes anew (the compiled prompt, the projection, the last response) and the
result of the run are gone. *)
Theorem checkpoint_roundtrip s ck sink :
  uuid_parse (RunID s) = Some (RunID s) →
  checkpointFromState uuid_parse json_ok s = Ok ck →
  restore uuid_parse json_ok ck sink = Ok {|
    RunID := RunID s;
    Input := mkRequest (RunID s) (req_Input (Input s)) (req_UserID (Input s))
               (req_SessionID (Input s)) (req_Metadata (Input s))
               (req_AllowedPermissions (Input s)) (req_PolicyContext (Input s));
    Iteration := Iteration s; Messages := Messages s; Final := None; RunUsage := RunUsage s;
    StMetadata := StMetadata s; HasSink := sink; PromptBlocks := PromptBlocks s;
    CompiledPromptOf := None; ContextProjection := None; LastResponse := None;
    PendingCalls := PendingCalls s; ToolResults := []; AllowedPermissions := AllowedPermissions s;
    summary := mkExecSummary (es_LLMCalls (summary s)) (es_ToolCalls (summary s))
                 (es_UsedTools (summary s)) 0 "";
    startedAt := startedAt s;
    usedToolLookup := list_to_set (es_UsedTools (summary s)) |}.
Proof.
  intros Hid. unfold checkpointFromState. cbv zeta.
  set (checkpoint := mkRunCheckpoint _ _ _ _ _ _ _ _ _ _ _ _ _ _).
  destruct (checkpoint_validate uuid_parse json_ok checkpoint) as [runID|] eqn:Hv; [|done].
  intros [= <-]. unfold restore. rewrite Hv.
  assert (runID = RunID s) as ->.
  { unfold checkpoint_validate in Hv. simpl in Hv. rewrite Hid in Hv. repeat case_decide; try done.
    destruct (list_find _ _) as [[]|]; [done|]. destruct (json_ok _); [|done]. by injection Hv. }
  simpl. rewrite checkpointRequest_id, !cloneMessages_id, usedTools_set.
  unfold restoreToolCalls, checkpointToolCalls, cloneMetadata.
  by rewrite !cloneCalls_id, !map_clone_id.
Qed.

End properties.

(** * A sample checkpoint *)

(** An agent that pauses for approval, the checkpoint its run returns, and the
host's decision on the pending call. *)
Definition pausing_config : ReActConfig := sample_config "echo" (Some ask_later) None.
Definition sample_checkpoint : option RunCheckpoint :=
  (sample_run pausing_config (sample_request ∅)).2.1 ≫= rr_Interruption.
Definition paused_run : RunCheckpoint := default (mkRunCheckpoint 0 ""
  (mkCheckpointRequest "" "" "" ∅ [] (mkPolicyContext "" "" "" ∅)) 0 [] (mkUsage 0 0) 0 0 [] 0 ∅ [] []
  []) sample_checkpoint.
Definition resolve_call (allowed : bool) : list ToolApprovalResolution :=
  [mkResolution 0 "call-1" "echo" allowed ""].
Definition sample_resume (rs : list ToolApprovalResolution)
    : World * option RunState * (option RunResult * option Error) :=
  Agent_Resume no_schema no_schema no_mismatch (λ _, true) no_mismatch id (λ _, "error")
    (λ t, Z.of_nat t + 1)%Z Some (λ _, true) pausing_config sample_registry true true
    paused_run rs.

(** The sample run pauses on its call; approved, it runs the tool and answers. *)
Example pause_and_resume :
  option_map ck_PendingCalls sample_checkpoint = Some [mkCall "call-1" "echo" "{}"] ∧
  option_map rr_Content (sample_resume (resolve_call true)).2.1 = Some "done".
Proof. by vm_compute. Qed.

(** Its conversation is complete once the call is answered. *)
Lemma paused_run_ok : paused_ok pausing_config paused_run.
Proof.
  split; [|intros b Hb; vm_compute in Hb; injection Hb as <-; by vm_compute].
  assert (∃ m1 m2 m3, ck_Messages paused_run = [m1; m2; m3] ∧
    msg_Role m1 ≠ "tool" ∧ msg_Role m2 ≠ "tool" ∧ msg_ToolCalls m1 = [] ∧ msg_ToolCalls m2 = [] ∧
    msg_ToolCalls m3 = [mkCall "call-1" "echo" "{}"] ∧
    ck_PendingCalls paused_run = [mkCall "call-1" "echo" "{}"])
    as (m1 & m2 & m3 & -> & H1 & H2 & H3 & H4 & H5 & ->).
  { vm_compute. eexists _, _, _. split; [reflexivity|]. by vm_compute. }
  intros reps Hreps Hids. simpl. apply replied_plain; [done..|]. apply replied_plain; [done..|].
  rewrite <-(app_nil_r reps). apply replied_calls; [by rewrite H5|done|by rewrite H5, Hids|].
  constructor.
Qed.

Lemma Resume_outcome_witness :
  let '(w, s, out) := sample_resume (resolve_call true) in
  outcome_ok pausing_config out ∧ option_map rr_Content out.1 = Some "done".
Proof.
  pose proof (Resume_outcome no_schema no_schema no_mismatch (λ _, true) no_mismatch id
    (λ _, "error") (λ t, Z.of_nat t + 1)%Z Some (λ _, true) pausing_config sample_registry true true
    paused_run (resolve_call true) paused_run_ok) as H.
  fold (sample_resume (resolve_call true)) in H.
  assert (option_map rr_Content (sample_resume (resolve_call true)).2.1 = Some "done") as H1
    by by vm_compute.
  destruct (sample_resume (resolve_call true)) as [[w s] out]. split; [apply H|exact H1].
Defined.

Lemma Resume_needs_approval_witness :
  ∃ ordered, ordered ≡ₚ resolve_call true ∧ length ordered = length (ck_PendingCalls paused_run) ∧
    ∀ i call, ck_PendingCalls paused_run !! i = Some call →
      ∃ r, ordered !! i = Some r ∧ rs_Index r = Z.of_nat i ∧ rs_ToolCallID r = call_ID call ∧ rs_Tool r = call_Name call ∧ rs_Allowed r = true.
Proof.
  pose proof (Resume_needs_approval no_schema no_schema no_mismatch (λ _, true) no_mismatch id
    (λ _, "error") (λ t, Z.of_nat t + 1)%Z Some (λ _, true) pausing_config sample_registry true true
    paused_run (resolve_call true)) as H.
  fold (sample_resume (resolve_call true)) in H.
  assert (bool_decide (length (answered_chats (w_trace
    (sample_resume (resolve_call true)).1.1)) = 1) = true) as H1 by by vm_compute.
  destruct (sample_resume (resolve_call true)) as [[w s] out].
  apply H. right. apply bool_decide_eq_true in H1. simpl in H1.
  destruct (answered_chats (w_trace w)) as [|chat l] eqn:Hch; [done|]. exists chat.
  assert (chat ∈ answered_chats (w_trace w)) as Hin by (rewrite Hch; left).
  apply list_elem_of_omap in Hin as (e & He & Heq). by destruct e; simplify_eq/=.
Defined.

Lemma checkpoint_roundtrip_witness :
  ∃ ck s, checkpointFromState Some (λ _, true)
      (sample_run pausing_config (sample_request ∅)).1.2 = Ok ck ∧
    restore Some (λ _, true) ck true = Ok s ∧
    PendingCalls s = [mkCall "call-1" "echo" "{}"].
Proof.
  assert (∃ ck, checkpointFromState Some (λ _, true)
      (sample_run pausing_config (sample_request ∅)).1.2 = Ok ck) as [ck Hck]
    by (vm_compute; eexists; reflexivity).
  exists ck. eexists. split; [exact Hck|].
  split; [
    apply (checkpoint_roundtrip Some (λ _, true)
      (sample_run pausing_config (sample_request ∅)).1.2 ck true); [reflexivity|exact Hck]|].
  by vm_compute.
Defined.
