(* ===== verification/AgentGuard.v ===== *)
(** The input guard of an agent run ([src/goagent/agentcore/input_guard.go] in the
pipeline of [agent.go]): nothing is read, sent or executed before the host's
guard accepted the request. *)

From S2P Require Import Prelude AgentTools AgentCore AgentSafety AgentResume.

(** Effects the guard protects: memory, projection, model, policy, approvals, tools. *)
Definition sensitive (e : Effect) : Prop :=
  match e with EvEmit _ _ _ _ | EvGuard _ _ => False | _ => True end.
Definition emitted (e : Effect) : Prop := match e with EvEmit _ _ _ _ => True | _ => False end.

(** Computations only append to the trace. *)
Abbreviation grows := (within any_state (λ _, True)).

Lemma silent_grows {A} (m : M A) : within any_state not_chat m → grows m.
Proof.
  intros Hm w s. destruct (Hm w s) as [_ (eff & Ht & He)]. split; [done|]. exists eff.
  split; [done|]. by apply Forall_true.
Qed.
Lemma quiet_grows {A} (m : M A) : within same_core quiet_eff m → grows m.
Proof. intros Hm. by apply silent_grows, quiet_silent. Qed.

Lemma grows_stages st : Forall (λ p, grows (snd p)) st → grows (Pipeline_Run st).
Proof. by apply within_stages. Qed.

Section guard.
Context (schema_compiles : RawMessage → option Error) (json_instance : RawMessage → option Error)
  (schema_validates : RawMessage → RawMessage → option Error) (json_valid : RawMessage → bool).
Context (output_schema_check : RawMessage → RawMessage → option Error).
Context (quote : string → string) (error_text : Error → string) (clock : nat → Time).
Context (c : ReActConfig).

Abbreviation stages := (react_stages schema_compiles json_instance schema_validates json_valid
  output_schema_check quote error_text clock c).
Abbreviation loop := (react_loop schema_compiles json_instance schema_validates json_valid
  output_schema_check quote error_text clock c).

Lemma grows_react_stages : Forall (λ p, grows (snd p)) stages.
Proof.
  unfold react_stages. repeat (apply Forall_cons_2; [cbn [snd]|]); [..|apply Forall_nil_2].
  all: try (apply quiet_grows; first [apply quiet_InputGuard|apply quiet_SystemPrompt|
    apply quiet_Skill|apply quiet_ToolProvider|apply quiet_OutputFormat|apply quiet_Prompt|
    apply quiet_Budget|apply quiet_Policy|apply quiet_Approval]).
  all: try (apply silent_grows; first [apply silent_MemoryLoad|apply silent_Context|
    apply silent_Projection|apply silent_Act|apply silent_Observe|apply silent_Finalize]).
  unfold ThinkStage. within_auto. apply silent_grows, silent_sort_calls.
Qed.

Lemma grows_loop n : grows (loop n).
Proof.
  apply within_loop; [done|apply grows_react_stages|apply quiet_grows, quiet_saveMemory].
Qed.

(** The first stage, on a request that is not flagged. *)
Definition guard_request (s : RunState) : InputGuardRequest :=
  mkGuardRequest (RunID s) (req_Input (Input s)) (req_Metadata (Input s))
    (req_PolicyContext (Input s)).

Lemma guard_stage validate w s :
  flagged s inputGuardValidatedKey = false →
  ∃ w' s' emits, Forall emitted emits ∧
    InputGuardStage (Some validate) w s =
      (w', s', match validate (w_tick w) (guard_request s) with
               | Some _ => Err ErrInputRejected | None => Ok StageContinue end) ∧
    w_trace w' = w_trace w ++ EvGuard (guard_request s)
      (match validate (w_tick w) (guard_request s) with Some _ => false | None => true end) :: emits.
Proof.
  intros Hf. unfold InputGuardStage. unfold mbind at 1, M_bind at 1, get. rewrite Hf. cbv zeta.
  replace (mkGuardRequest _ _ _ _) with (guard_request s).
  2:{ unfold guard_request, cloneMetadata, cloneStringMap. rewrite !map_clone_id.
      by destruct (req_PolicyContext (Input s)). }
  unfold mbind at 1, M_bind at 1, callback. cbv zeta.
  destruct (validate (w_tick w) (guard_request s)) as [e|].
  - unfold Emit, mbind, M_bind, get, note, mret, M_ret. destruct (HasSink s).
    + eexists _, _, [_]. split_and!; [|done|simpl; by rewrite <-(assoc_L (++))]. by repeat constructor.
    + eexists _, _, []. by split_and!.
  - unfold modify, Emit, mbind, M_bind, get, note, mret, M_ret. simpl. destruct (HasSink s).
    + eexists _, _, [_]. split_and!; [|done|simpl; by rewrite <-(assoc_L (++))]. by repeat constructor.
    + eexists _, _, []. by split_and!.
Qed.

(** The pipeline from the start: the guard comes first. *)
Lemma guard_pipeline validate w s :
  c_InputGuard c = Some validate → flagged s inputGuardValidatedKey = false →
  ∃ before t, Forall emitted before ∧ t = w_tick w ∧
    let '(w', s', r) := Pipeline_Run stages w s in
    match validate t (guard_request s) with
    | Some _ => r = Err ErrInputRejected ∧ ∃ emits, Forall emitted emits ∧
        w_trace w' = w_trace w ++ before ++ EvGuard (guard_request s) false :: emits
    | None => ∃ after, w_trace w' = w_trace w ++ before ++ EvGuard (guard_request s) true :: after
    end.
Proof.
  intros Hc Hf. unfold react_stages. cbn [Pipeline_Run]. rewrite Hc.
  match goal with |- context [(Emit ?t ?st ?m ≫= λ _, ?k) w s] =>
    assert (∃ w1 before, (Emit t st m ≫= λ _, k) w s = k w1 s ∧ w_trace w1 = w_trace w ++ before ∧
      Forall emitted before ∧ w_tick w1 = w_tick w) as (w1 & before & -> & Ht1 & Hb & Htick) end.
  { unfold Emit, mbind, M_bind, get, note, mret, M_ret. destruct (HasSink s).
    - eexists _, [_]. split_and!; [done|done|by repeat constructor|done].
    - exists w, []. rewrite app_nil_r. by split_and!. }
  exists before, (w_tick w1). split_and!; [done..|].
  unfold mbind at 1, M_bind at 1.
  destruct (guard_stage validate w1 s Hf) as (w2 & s2 & emits & Hem & -> & Ht2).
  destruct (validate (w_tick w1) (guard_request s)) as [e|].
  - match goal with |- context [(Emit ?t ?st ?m ≫= λ _, ?k) w2 s2] =>
      assert (∃ w3 eff, (Emit t st m ≫= λ _, k) w2 s2 = k w3 s2 ∧ w_trace w3 = w_trace w2 ++ eff ∧
        Forall emitted eff) as (w3 & eff & -> & Ht3 & Heff) end.
    { unfold Emit, mbind, M_bind, get, note, mret, M_ret. destruct (HasSink s2).
      - eexists _, [_]. split_and!; [done|done|by repeat constructor].
      - exists w2, []. rewrite app_nil_r. by split_and!. }
    simpl. split; [done|]. exists (emits ++ eff). rewrite Forall_app. split; [done|].
    rewrite Ht3, Ht2, Ht1, <-!(assoc_L (++)). done.
  - match goal with |- context [(?m ≫= ?k) w2 s2] => assert (grows (m ≫= k)) as Hg end.
    { apply within_bind; [apply _|by apply within_Emit; [apply _|]|]. intros _.
      rewrite decide_True by done. pose proof grows_react_stages as Hgs.
      unfold react_stages in Hgs. apply Forall_cons in Hgs as [_ Hgs].
      apply grows_stages in Hgs. exact Hgs. }
    destruct (Hg w2 s2) as [_ (eff & Ht3 & _)].
    match goal with |- context [(?m ≫= ?k) w2 s2] => destruct ((m ≫= k) w2 s2) as [[w3 s3] r] end.
    simpl in Ht3. exists (emits ++ eff). rewrite Ht3, Ht2, Ht1, <-!(assoc_L (++)). done.
Qed.

End guard.

Section properties.
Context (schema_compiles : RawMessage → option Error) (json_instance : RawMessage → option Error)
  (schema_validates : RawMessage → RawMessage → option Error) (json_valid : RawMessage → bool).
Context (output_schema_check : RawMessage → RawMessage → option Error).
Context (quote : string → string) (error_text : Error → string) (clock : nat → Time).
Context (uuid_parse : string → option string) (json_ok : RunCheckpoint → bool).
Context (c : ReActConfig).

Abbreviation agent_run := (Agent_Run schema_compiles json_instance schema_validates json_valid
  output_schema_check quote error_text clock uuid_parse json_ok c).

Lemma flagged_new now runID req sink :
  flagged (NewRunState now runID req sink) inputGuardValidatedKey =
  bool_decide (req_Metadata req !! inputGuardValidatedKey = Some (ABool true)).
Proof.
  unfold flagged, NewRunState. cbn [StMetadata]. rewrite map_assign_union.
  by rewrite (right_id_L ∅ (∪)).
Qed.

(** The guard comes first: when a host configures an input guard, a run whose
request metadata does not carry the runtime's own marker shows the guard the raw
request before anything else. If the guard refuses, the run fails with the plain
[ErrInputRejected] and no memory, projection, model, policy, approval or tool was
touched; if it accepts, only events were emitted before. *)
Theorem Run_guarded registry sink detailed newID req validate :
  c_InputGuard c = Some validate →
  req_Metadata req !! inputGuardValidatedKey ≠ Some (ABool true) →
  let g := mkGuardRequest (if decide (req_RunID req = uuid_nil) then newID else req_RunID req)
             (req_Input req) (req_Metadata req) (req_PolicyContext req) in
  let '(w, s, out) := agent_run registry sink detailed newID req in
  match validate 1 g with
  | Some _ => out.2 = Some ErrInputRejected ∧ Forall (λ e, ¬ sensitive e) (w_trace w)
  | None => ∃ before after, w_trace w = before ++ EvGuard g true :: after ∧
      Forall (λ e, ¬ sensitive e) before
  end.
Proof.
  intros Hc Hm g. unfold Agent_Run. cbv zeta. set (s0 := NewRunState _ _ req sink).
  set (w0 := mkWorld 1 _ []).
  assert (guard_request s0 = g) as Hg by done.
  assert (flagged s0 inputGuardValidatedKey = false) as Hf
    by (unfold s0; rewrite flagged_new; by apply bool_decide_eq_false).
  assert (∀ l, Forall emitted l → Forall (λ e, ¬ sensitive e) l) as Hem.
  { intros l Hl. eapply Forall_impl; [done|]. intros []; simpl; tauto. }
  unfold ReAct_Run. unfold mbind, M_bind, get.
  assert (∃ n, Z.to_nat (react_maxIterations c - Iteration s0) = S n) as [n ->].
  { exists (Z.to_nat (react_maxIterations c - 1)). unfold s0, NewRunState, react_maxIterations.
    cbn [Iteration]. case_decide; lia. }
  cbn [react_loop].
  destruct (guard_pipeline schema_compiles json_instance schema_validates json_valid
    output_schema_check quote error_text clock c validate w0 s0 Hc Hf)
    as (before & t & Hb & Ht & Hp).
  match goal with |- context [(Pipeline_Run ?st ≫= ?k) w0 s0] => set (rest := k) in * end.
  unfold mbind, M_bind. cbn [w_tick w0] in Ht. subst t. rewrite Hg in Hp.
  destruct (Pipeline_Run _ w0 s0) as [[w1 s1] r].
  destruct (validate 1 g) as [e|].
  - destruct Hp as [-> (emits & Hemits & Htr)]. simpl.
    destruct detailed; simpl; (split; [done|]); rewrite Htr; simpl;
      rewrite Forall_app, Forall_cons; (split; [by apply Hem|]); (split; [by simpl; tauto|by apply Hem]).
  - destruct Hp as [after Htr]. simpl in Htr.
    assert (∀ a w s, ∃ eff, w_trace (rest a w s).1.1 = w_trace w ++ eff) as Hrest.
    { intros a w s. assert (grows (rest a)) as Hgr.
      { unfold rest. destruct a; [apply grows_loop| |apply within_ret, _|apply within_ret, _].
        apply within_bind; [apply _|apply quiet_grows, quiet_saveMemory|]. intros _.
        apply within_bind; [apply _|by apply within_Emit; [apply _|]|]. intros _.
        apply within_ret, _. }
      destruct (Hgr w s) as [_ (eff & Heq & _)]. by exists eff. }
    match goal with |- context [finish _ _ _ _ detailed ?p] =>
      pose proof (finish_trace error_text clock uuid_parse json_ok detailed p) as Hfin;
      destruct (finish _ _ _ _ detailed p) as [[w' s'] out] end.
    simpl in Hfin. destruct r as [a|e].
    + destruct (Hrest a w1 s1) as [eff Heff]. exists before, (after ++ eff). split; [|by apply Hem].
      rewrite Hfin, Heff, Htr, <-(assoc_L (++)). done.
    + exists before, after. split; [|by apply Hem]. simpl in Hfin. by rewrite Hfin, Htr.
Qed.

End properties.

(** * Sample runs *)

Definition refuse_all (_ : nat) (_ : InputGuardRequest) : option Error := Some (ErrText "no").
Definition guarded_config : ReActConfig := sample_config "echo" None (Some refuse_all).

Lemma Run_guarded_witness :
  let '(w, s, out) := sample_run guarded_config (sample_request ∅) in
  out.2 = Some ErrInputRejected ∧ Forall (λ e, ¬ sensitive e) (w_trace w).
Proof.
  apply (Run_guarded no_schema no_schema no_mismatch (λ _, true) no_mismatch id (λ _, "error")
    (λ t, Z.of_nat t + 1)%Z Some (λ _, true) guarded_config sample_registry true true "id"
    (sample_request ∅) refuse_all); [reflexivity|vm_compute; discriminate].
Defined.

Definition marked_request : RunRequest :=
  sample_request (<[inputGuardValidatedKey := ABool true]> ∅).

(** What the guard was asked. *)
Definition guard_requests (tr : list Effect) : list InputGuardRequest :=
  omap (λ e, match e with EvGuard g _ => Some g | _ => None end) tr.

(** The marker is the caller's to set: a request whose metadata already carries
the key [agentcore.input_guard.validated] is run, model and tools included,
although the guard refuses every request; the guard is not even asked. *)
Theorem guard_bypass :
  let '(w, s, out) := sample_run guarded_config marked_request in
  option_map rr_Content out.1 = Some "done" ∧ out.2 = None ∧
  length (answered_chats (w_trace w)) = 2 ∧
  guard_requests (w_trace w) = [].
Proof. vm_compute. repeat split. Qed.
