(* ===== verification/AgentStream.v ===== *)
(** Streaming runs: [src/goagent/agentcore/stream.go].

A stream is three goroutines and their channels: the run, which sends its events and deltas and at
last its result; the relay, which queues them without bound; and the consumer, who receives
from [Events], may call [DiscardEvents] and [Wait]. A [state] holds the channels and what each goroutine still
has to do; [step] is one of their channel operations, [None] when it would block. Which of the
ready cases a [select] takes, and how the goroutines interleave, is the choice of the label. *)

From S2P Require Import Prelude.

Module Stream.

Definition runStreamBuffer : nat := 64.

Section stream.
Context {Event Delta Result : Type}.

(** [RunStreamEvent]: an event, a delta, or, with [Done], the result and error. *)
Inductive RunStreamEvent :=
| StreamEvent (e : Event)
| StreamDelta (d : Delta)
| StreamDone (r : Result).

(** ** The run *)

(** What the run reports, in order: [Emit] of an event, or a call of [onDelta]. *)
Inductive report := REmit (e : Event) | RDelta (d : Delta).

(** The channel and sink operations of the run's goroutine. *)
Inductive action :=
| Send (e : RunStreamEvent)   (** [events <- event] *)
| Forward (e : Event)         (** [s.next.Emit(ctx, event)], whose error is dropped *)
| SendDone (r : Result)       (** [done <- runStreamDone{...}] *)
| ClosePending.               (** the deferred [close(pending)] *)

(** [streamEventSink.Emit]. *)
Definition Emit (next : bool) (e : Event) : list action :=
  Send (StreamEvent e) :: (if next then [Forward e] else []).

Definition onDelta (d : Delta) : list action := [Send (StreamDelta d)].

(** The goroutine of [Stream]: the run, its result, and the end. *)
Definition run_actions (next : bool) (reports : list report) (result : Result) : list action :=
  (reports ≫= λ r, match r with REmit e => Emit next e | RDelta d => onDelta d end) ++
  [Send (StreamDone result); SendDone result; ClosePending].

(** ** The relay *)

Inductive relay_state := Running (queue : list RunStreamEvent) (discarding pending_nil : bool) | Stopped.

Record state := mkState {
  todo : list action;                  (** of the run's goroutine *)
  forwarded : list Event;              (** events the agent's own sink was given *)
  pending : list RunStreamEvent;       (** buffer of [pending] *)
  pending_closed : bool;
  relay : relay_state;
  events_closed : bool;
  relayDone : bool;
  discard : bool;                      (** [discard] is closed *)
  done : option Result;                (** buffer of [done] *)
  delivered : list RunStreamEvent;     (** received from [Events] *)
  waited : list Result                 (** returned by calls of [Wait] *)
}.
#[global] Instance eta_state : Eta state := λ s,
  mkState (todo s) (forwarded s) (pending s) (pending_closed s) (relay s) (events_closed s) (relayDone s) (discard s)
    (done s) (delivered s) (waited s).

(** [Agent.Stream]. *)
Definition Stream (next : bool) (reports : list report) (result : Result) : state :=
  mkState (run_actions next reports result) [] [] false (Running [] false false) false false false None [] [].

Inductive label :=
| LRun                 (** the next operation of the run's goroutine *)
| LReceive             (** the relay receives from [pending] *)
| LDiscarded           (** the relay sees [discard] closed *)
| LDeliver             (** the relay sends to a consumer that receives *)
| LExit                (** the relay's loop ends *)
| LDiscardEvents       (** the consumer calls [DiscardEvents] *)
| LWait.               (** a call of [Wait] returns *)

(** The condition of the relay's loop. *)
Definition relay_continues (queue : list RunStreamEvent) (discarding pending_nil : bool) : bool :=
  negb pending_nil || (negb discarding && bool_decide (0 < length queue)).

(** The next operation of the run. *)
Definition step_run (s : state) : option state :=
  match todo s with
  | [] => None
  | Send e :: rest =>
      if decide (length (pending s) < runStreamBuffer) then Some (s <| todo := rest |> <| pending := pending s ++ [e] |>)
      else None
  | Forward e :: rest => Some (s <| todo := rest |> <| forwarded := forwarded s ++ [e] |>)
  | SendDone r :: rest => match done s with
                          | None => Some (s <| todo := rest |> <| done := Some r |>)
                          | Some _ => None
                          end
  | ClosePending :: rest => Some (s <| todo := rest |> <| pending_closed := true |>)
  end.

(** One turn of [relayRunStreamEvents], or its end. *)
Definition step_relay (l : label) (s : state) : option state :=
  match relay s with
  | Stopped => None
  | Running queue discarding pending_nil =>
      if negb (relay_continues queue discarding pending_nil) then
        match l with
        | LExit => Some (s <| relay := Stopped |> <| events_closed := true |> <| relayDone := true |>)
        | _ => None
        end
      else match l with
      | LReceive =>
          if pending_nil then None
          else match pending s with
          | e :: rest => Some (s <| pending := rest |>
                               <| relay := Running (if discarding then queue else queue ++ [e]) discarding false |>)
          | [] => if pending_closed s then Some (s <| relay := Running queue discarding true |>) else None
          end
      | LDiscarded =>
          if discarding || negb (discard s) then None
          else Some (s <| relay := Running [] true pending_nil |> <| events_closed := true |>)
      | LDeliver =>
          if discarding then None
          else match queue with
          | next :: rest => Some (s <| relay := Running rest false pending_nil |> <| delivered := delivered s ++ [next] |>)
          | [] => None
          end
      | _ => None
      end
  end.

(** [DiscardEvents]: once, however often it is called. *)
Definition DiscardEvents (s : state) : state := s <| discard := true |>.

(** [Wait]: blocks until there is a result, and takes it. *)
Definition Wait (s : state) : option (state * Result) :=
  match done s with
  | Some r => Some (s <| done := None |> <| waited := waited s ++ [r] |>, r)
  | None => None
  end.

Definition step (l : label) (s : state) : option state :=
  match l with
  | LRun => step_run s
  | LReceive | LDiscarded | LDeliver | LExit => step_relay l s
  | LDiscardEvents => Some (DiscardEvents s)
  | LWait => fst <$> Wait s
  end.

(** * Properties *)

Definition steps (s s' : state) : Prop := ∃ l, step l s = Some s'.

(** The events of a list of actions. *)
Definition sends (a : list action) : list RunStreamEvent := omap (λ x, match x with Send e => Some e | _ => None end) a.
Definition forwards (a : list action) : list Event := omap (λ x, match x with Forward e => Some e | _ => None end) a.
Definition dones (a : list action) : list Result := omap (λ x, match x with SendDone r => Some r | _ => None end) a.

(** The stream of a run: its reports in order, then the result. *)
Definition stream_of (reports : list report) (result : Result) : list RunStreamEvent :=
  ((λ r, match r with REmit e => StreamEvent e | RDelta d => StreamDelta d end) <$> reports) ++ [StreamDone result].
(** The events among the reports. *)
Definition events_of (reports : list report) : list Event :=
  omap (λ r, match r with REmit e => Some e | RDelta _ => None end) reports.

Lemma run_actions_spec next reports result :
  sends (run_actions next reports result) = stream_of reports result ∧
  forwards (run_actions next reports result) = (if next then events_of reports else []) ∧
  dones (run_actions next reports result) = [result].
Proof.
  unfold sends, forwards, dones, stream_of, events_of, run_actions.
  induction reports as [|[e|d] reports (IH1 & IH2 & IH3)]; [by destruct next|..]; destruct next; simpl in *;
    split_and!; try done; by f_equal.
Qed.

(** The run closes [pending] last. *)
Definition todo_ok (l : list action) : Prop := l = [] ∨ ∃ pre, l = pre ++ [ClosePending] ∧ ClosePending ∉ pre.

(** What the relay has made of the stream [all], when the run has still to send [unsent]. *)
Definition relay_ok (all unsent : list RunStreamEvent) (ended : Prop) (s : state) : Prop :=
  match relay s with
  | Running queue false pending_nil =>
      delivered s ++ queue ++ pending s ++ unsent = all ∧ events_closed s = false ∧ relayDone s = false ∧
      (pending_nil = true → pending s = [] ∧ ended)
  | Running queue true pending_nil =>
      queue = [] ∧ delivered s `prefix_of` all ∧ events_closed s = true ∧ relayDone s = false ∧
      discard s = true ∧ (pending_nil = true → pending s = [] ∧ ended)
  | Stopped =>
      pending s = [] ∧ ended ∧ events_closed s = true ∧ relayDone s = true ∧
      (delivered s = all ∨ (discard s = true ∧ delivered s `prefix_of` all))
  end.

(** What holds of a stream at any moment: nothing is lost or reordered between the run and the
consumer until events are discarded, and the run's goroutine depends on no one but the relay. *)
Record inv (next : bool) (reports : list report) (result : Result) (s : state) : Prop := {
  inv_todo : todo_ok (todo s);
  inv_closed : pending_closed s = bool_decide (todo s = []);
  inv_forwarded : forwarded s ++ forwards (todo s) = if next then events_of reports else [];
  inv_done : waited s ++ option_list (done s) ++ dones (todo s) = [result];
  inv_relay : relay_ok (stream_of reports result) (sends (todo s)) (todo s = []) s
}.

Lemma todo_ok_tail a rest : todo_ok (a :: rest) → todo_ok rest ∧ (a = ClosePending → rest = []) ∧ (a ≠ ClosePending → rest ≠ []).
Proof.
  intros [?|(pre & E & Hn)]; [done|]. destruct pre as [|b pre]; simplify_eq/=.
  - split_and!; [by left|done|done].
  - rewrite not_elem_of_cons in Hn. destruct Hn as [Hne Hn]. split_and!; [right; by exists pre|by intros ->|by destruct pre].
Qed.

Lemma inv_init next reports result : inv next reports result (Stream next reports result).
Proof.
  destruct (run_actions_spec next reports result) as (H1 & H2 & H3).
  split; simpl; rewrite ?H1, ?H2, ?H3; try done.
  - right. unfold run_actions. eexists (_ ++ [Send (StreamDone result); SendDone result]).
    split; [by rewrite <-app_assoc|].
    rewrite elem_of_app, !elem_of_cons, elem_of_nil, list_elem_of_bind.
    intros [([e|d] & Hin & _)|Hin]; [| |naive_solver]; destruct next; unfold Emit, onDelta in Hin; set_solver.
  - unfold run_actions. by destruct (_ ≫= _).
Qed.

(** The relay is unaffected by what the run does to other channels. *)
Lemma relay_ok_same all unsent (ended ended' : Prop) s s' :
  relay s' = relay s → delivered s' = delivered s → pending s' = pending s → events_closed s' = events_closed s →
  relayDone s' = relayDone s → discard s' = discard s → (ended → ended') →
  relay_ok all unsent ended s → relay_ok all unsent ended' s'.
Proof.
  intros E1 E2 E3 E4 E5 E6 He. unfold relay_ok. rewrite E1, E2, E3, E4, E5, E6.
  destruct (relay s) as [q [] pn|]; naive_solver.
Qed.

Lemma inv_run next reports result s s' : inv next reports result s → step_run s = Some s' → inv next reports result s'.
Proof.
  intros [H1 H2 H3 H4 H5]. unfold step_run. destruct (todo s) as [|a rest] eqn:Et; [done|].
  apply todo_ok_tail in H1 as (H1 & Hc & Hnc). rewrite bool_decide_eq_false_2 in H2 by done.
  destruct a as [e|e|r|].
  - case_decide; [|done]. intros [= <-]. specialize (Hnc ltac:(done)).
    split; simpl; [done|by rewrite bool_decide_eq_false_2|done|done|].
    unfold relay_ok in *; simpl in *. destruct (relay s) as [q [] pn|]; [naive_solver| |naive_solver].
    destruct H5 as (Hs & ? & ? & Hn). split_and!; [|done|done|naive_solver]. rewrite <-Hs. by rewrite <-!app_assoc.
  - intros [= <-]. specialize (Hnc ltac:(done)). split; simpl; [done|by rewrite bool_decide_eq_false_2| |done|].
    + rewrite <-H3. simpl. by rewrite <-app_assoc.
    + by eapply relay_ok_same, H5.
  - destruct (done s) eqn:Ed; [done|]. intros [= <-]. specialize (Hnc ltac:(done)).
    split; simpl; [done|by rewrite bool_decide_eq_false_2|done|done|]. by eapply relay_ok_same, H5.
  - intros [= <-]. specialize (Hc ltac:(done)). subst rest. split; simpl; try done. by eapply relay_ok_same, H5.
Qed.

Lemma inv_relay_step next reports result l s s' :
  inv next reports result s → step_relay l s = Some s' → inv next reports result s'.
Proof.
  intros [H1 H2 H3 H4 H5]. unfold step_relay, relay_ok in *. destruct (relay s) as [q d pn|] eqn:Er; [|done].
  destruct (relay_continues q d pn) eqn:Hc; simpl.
  - destruct l; try done.
    + destruct pn; [done|]. destruct (pending s) as [|e rest] eqn:Ep.
      * destruct (pending_closed s) eqn:Epc; [|done]. intros [= <-]. symmetry in H2. apply bool_decide_eq_true in H2.
        split; simpl; try done; [by rewrite bool_decide_eq_true_2|]. unfold relay_ok; simpl. destruct d; naive_solver.
      * intros [= <-]. split; simpl; try done. unfold relay_ok; simpl. destruct d; [naive_solver|].
        destruct H5 as (Hs & ? & ? & Hn). split_and!; [|done..]. rewrite <-Hs. by rewrite <-!app_assoc.
    + destruct d; [done|]. destruct (discard s) eqn:Ed; [|done]. simpl. intros [= <-]. split; simpl; try done.
      unfold relay_ok; simpl. destruct H5 as (Hs & ? & ? & Hn). split_and!; try done. rewrite <-Hs. by eexists.
    + destruct d; [done|]. destruct q as [|e q]; [done|]. intros [= <-]. split; simpl; try done.
      unfold relay_ok; simpl. destruct H5 as (Hs & ? & ? & Hn). split_and!; try done. rewrite <-Hs. by rewrite <-app_assoc.
  - destruct l; try done. intros [= <-]. unfold relay_continues in Hc. apply orb_false_iff in Hc as [Hp Hq].
    apply negb_false_iff in Hp. subst pn. split; simpl; try done. unfold relay_ok; simpl. destruct d; [naive_solver|].
    destruct H5 as (Hs & ? & ? & Hn). destruct (Hn eq_refl) as [Hp Ht]. split_and!; try done. left.
    apply bool_decide_eq_false in Hq. destruct q; [|simpl in Hq; lia]. rewrite <-Hs, Hp, Ht. simpl. by rewrite app_nil_r.
Qed.

Lemma inv_steps next reports result s s' : inv next reports result s → steps s s' → inv next reports result s'.
Proof.
  intros Hi [l Hl]. destruct l; simpl in Hl; [by eapply inv_run|by eapply inv_relay_step..| |].
  - injection Hl as <-. destruct Hi as [H1 H2 H3 H4 H5]. split; simpl; try done.
    unfold relay_ok in *; simpl. destruct (relay s) as [q [] pn|]; naive_solver.
  - unfold Wait in Hl. destruct (done s) as [r|] eqn:Ed; [|done]. injection Hl as <-. destruct Hi as [H1 H2 H3 H4 H5].
    split; simpl; try done. rewrite <-H4, Ed. by rewrite <-app_assoc.
Qed.

Lemma inv_reachable next reports result s : rtc steps (Stream next reports result) s → inv next reports result s.
Proof.
  intros Hr. apply (rtc_ind_r (inv next reports result) (Stream next reports result)) in Hr;
    [done|apply inv_init|]. intros s1 s2 _ Hs Hi. by eapply inv_steps.
Qed.

(** C28: A stream delivers the run's events and deltas in order, each once and none invented, and closes [Events]
only after the result was delivered or the consumer discarded the rest; the agent's own sink is
given the events, never the deltas, in order; and [Wait] returns the run's result, at most once. *)
Theorem stream_faithful next reports result s :
  rtc steps (Stream next reports result) s →
  delivered s `prefix_of` stream_of reports result ∧
  (events_closed s = true → delivered s = stream_of reports result ∨ discard s = true) ∧
  forwarded s `prefix_of` (if next then events_of reports else []) ∧
  waited s `prefix_of` [result].
Proof.
  intros Hr. destruct (inv_reachable _ _ _ _ Hr) as [_ _ H3 H4 H5]. unfold relay_ok in H5. split_and!.
  - destruct (relay s) as [q [] pn|]; [by destruct H5 as (_ & ? & _)| |by destruct H5 as (_ & _ & _ & _ & [->|[_ ?]])].
    destruct H5 as (<- & _). by eexists.
  - intros Hc. destruct (relay s) as [q [] pn|]; [by right; destruct H5 as (_ & _ & _ & _ & ? & _)| |tauto].
    destruct H5 as (_ & ? & _). congruence.
  - rewrite <-H3. by eexists.
  - rewrite <-H4. by eexists.
Qed.

(** ** Progress *)

(** The steps of the run and the relay that need no consumer. *)
Definition internal (l : label) : bool := match l with LRun | LReceive | LDiscarded | LExit => true | _ => false end.

Definition measure (s : state) : nat :=
  2 * length (todo s) + length (pending s) +
  match relay s with
  | Running _ discarding pending_nil => 1 + (if pending_nil then 0 else 1) + (if discarding then 0 else 1)
  | Stopped => 0
  end.

Lemma measure_decreases l s s' : internal l = true → step l s = Some s' → measure s' < measure s.
Proof.
  destruct s as [td fw pe pc rl ec rd dc dn dl wt]. intros Hl.
  destruct l; try done; simpl; unfold step_run, step_relay, measure; simpl; intros H; repeat (case_match || case_decide);
    simplify_eq/=; rewrite ?length_app; simpl; lia.
Qed.

(** C33: The run never waits for the consumer: from any moment on, the run and the relay can take at most [measure]
steps without one, and when neither can move the run has ended, its result is in [done] or was
returned by [Wait], and all that is left are undelivered events, unless they were discarded, in which
case the relay has ended too. *)
Theorem stream_completes next reports result s :
  rtc steps (Stream next reports result) s →
  (∀ l s', internal l = true → step l s = Some s' → measure s' < measure s) ∧
  ((∀ l, internal l = true → step l s = None) →
    todo s = [] ∧ waited s ++ option_list (done s) = [result] ∧
    match relay s with
    | Stopped => True
    | Running queue _ _ => queue ≠ [] ∧ discard s = false
    end).
Proof.
  intros Hr. split; [intros l s'; apply measure_decreases|]. intros Hq.
  destruct (inv_reachable _ _ _ _ Hr) as [H1 H2 H3 H4 H5].
  pose proof (Hq LRun eq_refl) as Hrun. pose proof (Hq LReceive eq_refl) as Hrec.
  pose proof (Hq LDiscarded eq_refl) as Hdis. pose proof (Hq LExit eq_refl) as Hexit.
  simpl in Hrun, Hrec, Hdis, Hexit. unfold step_relay in *. unfold relay_ok in H5.
  assert (todo s = []) as Ht.
  { unfold step_run in Hrun. destruct (todo s) as [|[e|e|r|] rest] eqn:Et; [done| |done| |done].
    - exfalso. destruct (relay s) as [q d pn|]; [|by destruct H5 as (_ & ? & _)].
      case_decide as Hlen; [done|]. unfold runStreamBuffer in Hlen.
      assert (pn = false) as -> by (destruct d, pn; naive_solver).
      destruct (relay_continues q d false) eqn:Hc; [|unfold relay_continues in Hc; done]. simpl in Hrec.
      destruct (pending s); simpl in *; [lia|done].
    - exfalso. destruct (done s) eqn:Ed; [|done]. simpl in H4. destruct (waited s) as [|x w]; simpl in H4; [done|].
      injection H4 as _ H4. by destruct w. }
  split; [done|]. rewrite Ht in *. simpl in H4. rewrite app_nil_r in H4. split; [done|].
  rewrite bool_decide_eq_true_2 in H2 by done.
  destruct (relay s) as [q d pn|]; [|done].
  destruct (relay_continues q d pn) eqn:Hc; simpl in *; [|done].
  assert (pn = true) as ->.
  { destruct pn; [done|]. rewrite H2 in Hrec. by destruct (pending s). }
  unfold relay_continues in Hc. simpl in Hc. apply andb_true_iff in Hc as [Hd Hlen]. apply negb_true_iff in Hd. subst d.
  apply bool_decide_eq_true in Hlen. split; [by destruct q; simpl in *; [lia|]|]. simpl in Hdis. by destruct (discard s).
Qed.

End stream.

(** * Witnesses *)

(** A run with two events and a delta; the consumer receives one and discards the rest. *)
Definition sample : @state nat nat nat := Stream true [REmit 1; RDelta 2; REmit 3] 7.
Definition sample_labels : list label :=
  [LRun; LReceive; LDeliver; LRun; LRun; LDiscardEvents; LDiscarded; LReceive; LRun; LRun; LRun; LRun; LReceive; LReceive; LRun; LReceive; LExit; LWait].
Fixpoint run_labels {E D R} (ls : list label) (s : @state E D R) : option (@state E D R) :=
  match ls with [] => Some s | l :: ls => step l s ≫= run_labels ls end.

Lemma run_labels_rtc {E D R} ls (s s' : @state E D R) : run_labels ls s = Some s' → rtc steps s s'.
Proof.
  revert s. induction ls as [|l ls IH]; intros s; simpl; [by intros [= ->]|].
  destruct (step l s) as [s1|] eqn:E1; simpl; [|done]. intros H. eapply rtc_l; [by exists l|auto].
Qed.

Definition sample_end : @state nat nat nat := default sample (run_labels sample_labels sample).

Lemma sample_end_reachable : rtc steps sample sample_end.
Proof. apply (run_labels_rtc sample_labels). vm_compute. reflexivity. Qed.

Lemma stream_faithful_witness :
  delivered sample_end = [StreamEvent 1] ∧ waited sample_end = [7] ∧
  delivered sample_end `prefix_of` stream_of [REmit 1; RDelta 2; REmit 3] 7.
Proof.
  split_and!; [vm_compute; reflexivity..|].
  apply (stream_faithful true [REmit 1; RDelta 2; REmit 3] 7 sample_end sample_end_reachable).
Defined.

Lemma stream_completes_witness : todo sample_end = [].
Proof.
  apply (stream_completes true [REmit 1; RDelta 2; REmit 3] 7 sample_end sample_end_reachable).
  intros [] H; try done; vm_compute; reflexivity.
Defined.

End Stream.
