(* ===== verification/SkillKit.v ===== *)
(** Skill packages: [src/skillkit/manifest.go], [catalog.go], [gate.go], [activation.go] and
the adapter of [agentadapter/provider.go].

The file system is a [FS] value: the calls of [os] and [path/filepath] that read it, at one
moment. [Discover] and each check of a package read one snapshot; [ReadResource]
checks the package in one and reads the resource in the next. SHA-256, the YAML decoder and the
URL syntax are parameters. *)

From S2P Require Import Prelude GoUtf8 GoPath.
From S2P Require AgentCore.

Module SkillKit.

(** * Errors *)

(** The sentinels, with the detail some are wrapped with, and the errors without one. *)
Inductive Error :=
| ErrInvalidSkillManifest (detail : string)
| ErrInvalidSkillResource (detail : string)
| ErrSkillNotFound
| ErrSkillAmbiguous
| ErrSkillUnavailable (detail : string)
| ErrSkillDigestMismatch (name : string)
| ErrMissingResolver
| ErrMissingActivation
| ErrOther (text : string).
Abbreviation result := (res Error).

(** * Manifests *)

(** A decoded YAML value: [nil], a string, a map, a list, or a value of another type. *)
Inductive Yaml :=
| YNil
| YString (s : string)
| YMap (m : list (string * Yaml))
| YList (l : list Yaml)
| YOther (text : string).

(** [map[string]any]; [None] is the nil map. *)
Abbreviation Meta := (option (list (string * Yaml))).

Record Requirements := mkRequirements {
  OS : list string;
  HostFeatures : list string;
  RequiredToolIDs : list string;
  OptionalToolIDs : list string
}.

Record Manifest := mkManifest {
  Name : string;
  Description : string;
  License : string;
  Reqs : Requirements;
  Resources : list string;
  Metadata : Meta
}.

Definition maxDescriptionRunes : Z := 280.
Definition maxSkillBodyBytes : nat := Z.to_nat (128 * 1024).
Definition maxResourceBytes : nat := Z.to_nat (Z.shiftl 1 20).

(** [utf8.RuneCountInString]. *)
Definition RuneCountInString (s : string) : Z := Z.of_nat (length (string_runes s)).

(** [[a-z0-9]]. *)
Definition name_byte (c : ascii) : bool :=
  let n := N_of_ascii c in ((97 <=? n) && (n <=? 122) || (48 <=? n) && (n <=? 57))%N.

(** [skillNamePattern]: parts of such bytes, none empty, separated by dashes. *)
Definition name_part (s : string) : bool :=
  bool_decide (s ≠ "") && forallb name_byte (String.list_ascii_of_string s).
Definition skillNamePattern (s : string) : bool := forallb name_part (split "-" s).

Definition validResourcePath (resource : string) : bool :=
  if decide (resource = "" ∨ contains_byte "\" resource = true ∨ HasPrefix resource "/" = true) then false
  else
    let cleaned := Clean resource in
    if decide (cleaned = "." ∨ cleaned = ".." ∨ HasPrefix cleaned "../" = true) then false
    else bool_decide (cleaned = resource).

Definition contains (values : list string) (target : string) : bool := existsb (λ v, bool_decide (v = target)) values.

(** [for _, resource := range manifest.Resources], with the resources seen. *)
Fixpoint check_resources (seen resources : list string) : result () :=
  match resources with
  | [] => Ok ()
  | resource :: resources =>
      if negb (validResourcePath resource) then Err (ErrInvalidSkillResource "resource must stay inside its skill")
      else if contains seen resource then Err (ErrInvalidSkillResource "duplicate resource")
      else check_resources (resource :: seen) resources
  end.

Definition ValidateManifest (directory : string) (manifest : Manifest) : result () :=
  if negb (skillNamePattern (Name manifest)) || bool_decide (64 < String.length (Name manifest))%nat ||
     bool_decide (Name manifest ≠ directory)
  then Err (ErrInvalidSkillManifest "name must match directory")
  else if bool_decide (Blank (Description manifest)) ||
     (maxDescriptionRunes <? RuneCountInString (Description manifest))%Z
  then Err (ErrInvalidSkillManifest "description is required and bounded")
  else check_resources [] (Resources manifest).

(** [strings.ReplaceAll(text, "\r\n", "\n")]. *)
Fixpoint crlf (s : string) : string :=
  match s with
  | String "013" (String "010" s) => String "010" (crlf s)
  | String a s => String a (crlf s)
  | EmptyString => ""
  end.

Definition newline : ascii := "010".
Definition lines_of (source : string) : list string := split newline (crlf source).

(** The lines before and after the first line [---]. *)
Fixpoint cut_delimiter (lines : list string) : option (list string * list string) :=
  match lines with
  | [] => None
  | line :: lines =>
      if decide (line = "---") then Some ([], lines)
      else match cut_delimiter lines with
           | Some (before, after) => Some (line :: before, after)
           | None => None
           end
  end.

Definition frontmatterDocument (source : string) : res string string :=
  match lines_of source with
  | first :: rest =>
      if decide ((length (first :: rest) < 3)%nat ∨ first ≠ "---") then Err "frontmatter must start on the first line"
      else match cut_delimiter rest with
           | Some (before, _) => Ok (join newline before)
           | None => Err "frontmatter closing delimiter is required"
           end
  | [] => Err "frontmatter must start on the first line"
  end.

Definition skillBody (source : string) : result string :=
  match lines_of source with
  | first :: rest =>
      if decide ((length (first :: rest) < 3)%nat ∨ first ≠ "---") then Err (ErrInvalidSkillManifest "")
      else match cut_delimiter rest with
           | Some (_, after) =>
               let body := join newline after in
               if decide (Blank body) then Err (ErrInvalidSkillManifest "") else Ok body
           | None => Err (ErrInvalidSkillManifest "")
           end
  | [] => Err (ErrInvalidSkillManifest "")
  end.

(** [metadata[key]] of a map with distinct keys. *)
Fixpoint meta_get (m : list (string * Yaml)) (key : string) : option Yaml :=
  match m with
  | [] => None
  | (k, v) :: m => if decide (k = key) then Some v else meta_get m key
  end.

(** [optionalMetadataMap]: the map, nil when it is absent. *)
Definition optionalMetadataMap (metadata : Meta) (key : string) : result Meta :=
  match metadata with
  | None => Ok None
  | Some m =>
      match meta_get m key with
      | None | Some YNil => Ok None
      | Some (YMap m) => Ok (Some m)
      | Some _ => Err (ErrInvalidSkillManifest "goagents extension map is malformed")
      end
  end.

(** [value.([]any)] of an optional key; [None] is an absent one. *)
Definition optional_list (metadata : Meta) (key : string) : result (option (list Yaml)) :=
  match metadata with
  | None => Ok None
  | Some m =>
      match meta_get m key with
      | None | Some YNil => Ok None
      | Some (YList l) => Ok (Some l)
      | Some _ => Err (ErrInvalidSkillManifest "metadata list is malformed")
      end
  end.

(** [item.(string)], not blank. *)
Definition item_text (item : Yaml) : result string :=
  match item with
  | YString text => if decide (Blank text) then Err (ErrInvalidSkillManifest "metadata list must contain non-empty strings")
                    else Ok text
  | _ => Err (ErrInvalidSkillManifest "metadata list must contain non-empty strings")
  end.

(** The loop of [optionalStringList]: distinct texts in order. *)
Fixpoint distinct_texts (seen : list string) (items : list Yaml) : result (list string) :=
  match items with
  | [] => Ok []
  | item :: items =>
      let? text := item_text item in
      if contains seen text then distinct_texts seen items
      else let? rest := distinct_texts (text :: seen) items in Ok (text :: rest)
  end.

Fixpoint all_texts (items : list Yaml) : result (list string) :=
  match items with
  | [] => Ok []
  | item :: items => let? text := item_text item in let? rest := all_texts items in Ok (text :: rest)
  end.

Definition optionalStringList (metadata : Meta) (key : string) : result (list string) :=
  let? items := optional_list metadata key in
  match items with
  | None => Ok []
  | Some items => let? texts := distinct_texts [] items in Ok (sort_slice str_lt texts)
  end.

Definition optionalResourceList (metadata : Meta) (key : string) : result (list string) :=
  let? items := optional_list metadata key in
  match items with None => Ok [] | Some items => all_texts items end.

Definition parseGoagentsMetadata (metadata : Meta) : result (Requirements * list string) :=
  let? goagents := optionalMetadataMap metadata "goagents" in
  match goagents with
  | None => Ok (mkRequirements [] [] [] [], [])
  | Some _ =>
      let? requirementsMap := optionalMetadataMap goagents "requires" in
      let? tools := optionalMetadataMap requirementsMap "tools" in
      let? resourcesMap := optionalMetadataMap goagents "resources" in
      let? os := optionalStringList requirementsMap "os" in
      let? features := optionalStringList requirementsMap "host_features" in
      let? required := optionalStringList tools "required" in
      let? optional := optionalStringList tools "optional" in
      let? resources := optionalResourceList resourcesMap "allow" in
      Ok (mkRequirements os features required optional, resources)
  end.

(** [cloneMetadataValue] and [cloneMetadata]. *)
Fixpoint cloneMetadataValue (value : Yaml) : Yaml :=
  match value with
  | YMap m => YMap (map (λ '(k, v), (k, cloneMetadataValue v)) m)
  | YList l => YList (map cloneMetadataValue l)
  | _ => value
  end.
Definition cloneMetadata (metadata : Meta) : Meta :=
  match metadata with
  | None => None
  | Some m => Some (map (λ '(k, v), (k, cloneMetadataValue v)) m)
  end.

(** The YAML document of [ParseManifest]. *)
Record Document := mkDocument {
  doc_Name : string; doc_Description : string; doc_License : string; doc_Metadata : Meta
}.

(** What the package uses that is not its own. *)
Class Env := {
  yaml_Unmarshal : string → option Document;
  (** [hex.EncodeToString] of the SHA-256 of a byte string. *)
  sha256_hex : string → string;
  (** [strconv.Quote], the verb [%q]. *)
  quote : string → string
}.

Section env.
Context `{E : Env}.

Definition ParseManifest (directory source : string) : result Manifest :=
  match frontmatterDocument source with
  | Err err => Err (ErrInvalidSkillManifest err)
  | Ok frontmatter =>
      match yaml_Unmarshal frontmatter with
      | None => Err (ErrInvalidSkillManifest "malformed frontmatter")
      | Some document =>
          let? parsed := parseGoagentsMetadata (doc_Metadata document) in
          let manifest := mkManifest (doc_Name document) (doc_Description document) (doc_License document)
            parsed.1 parsed.2 (cloneMetadata (doc_Metadata document)) in
          let? _ := ValidateManifest directory manifest in Ok manifest
      end
  end.

(** * The file system *)

Inductive kind := KDir | KRegular | KSpecial.

(** [filepath.Abs], [filepath.EvalSymlinks] (whose error is [os.IsNotExist] or not), [os.Stat],
[os.ReadFile], and [os.ReadDir] with [IsDir] of each entry, sorted by name. *)
Record FS := mkFS {
  fs_Abs : string → option string;
  fs_EvalSymlinks : string → res bool string;
  fs_Stat : string → option kind;
  fs_ReadFile : string → option string;
  fs_ReadDir : string → option (list (string * bool))
}.

Definition pathWithin (root candidate : string) : bool :=
  match Rel root candidate with
  | None => false
  | Some relative => if decide (relative = "..") then false else negb (HasPrefix relative "../")
  end.

Definition canonicalDirectory (fs : FS) (directory : string) : option string :=
  match fs_Abs fs directory with
  | None => None
  | Some abs =>
      match fs_EvalSymlinks fs abs with
      | Err _ => None
      | Ok canonical => match fs_Stat fs canonical with Some KDir => Some canonical | _ => None end
      end
  end.

(** The results of [readContainedFile]: no file, an error, or the content. *)
Inductive contained := Missing | Unreadable | Content (content : string).

Definition readContainedFile (fs : FS) (skillPath relativePath : string) : contained :=
  let pathOnDisk := Join skillPath relativePath in
  match fs_EvalSymlinks fs pathOnDisk with
  | Err true => Missing
  | Err false => Unreadable
  | Ok canonicalPath =>
      if negb (pathWithin skillPath canonicalPath) then Unreadable
      else match fs_Stat fs canonicalPath with
           | Some KRegular =>
               match fs_ReadFile fs canonicalPath with Some content => Content content | None => Unreadable end
           | _ => Unreadable
           end
  end.

(** * Digests *)

Definition digestFile : Type := string * string.

(** The bytes written to the hash: each path and content followed by a zero byte. *)
Definition frame (files : list digestFile) : string :=
  foldr (λ file rest, file.1 +:+ String nul (file.2 +:+ String nul rest)) "" files.

Fixpoint read_resources (fs : FS) (skillPath : string) (resources : list string) : option (list digestFile) :=
  match resources with
  | [] => Some []
  | resource :: resources =>
      match readContainedFile fs skillPath resource with
      | Content content =>
          match read_resources fs skillPath resources with
          | Some files => Some ((resource, content) :: files)
          | None => None
          end
      | _ => None
      end
  end.

(** The files of a package, sorted by path. *)
Definition package_files (source : string) (resources : list digestFile) : list digestFile :=
  sort_slice (key_less str_lt fst) (("SKILL.md", source) :: resources).

(** [packageDigest]; [None] is its error. *)
Definition packageDigest (fs : FS) (skillPath source : string) (resources : list string) : option string :=
  match read_resources fs skillPath resources with
  | None => None
  | Some files => Some (sha256_hex (frame (package_files source files)))
  end.

(** * The catalog *)

Inductive Scope := ScopeBuiltin | ScopeUser | ScopeWorkspace | ScopeOther (s : string).

Record Root := mkRoot {
  root_ID : string; Dir : string; root_Scope : Scope; root_Trusted : bool; Enabled : bool
}.

Record Ref := mkRef { ref_Name : string; Digest : string }.
#[global] Instance Ref_eq_dec : EqDecision Ref.
Proof. solve_decision. Defined.

Inductive EntryState := EntryReady | EntryInvalid | EntryAmbiguous.
#[global] Instance EntryState_eq_dec : EqDecision EntryState.
Proof. solve_decision. Defined.

Record Reason := mkReason { Code : string; Subject : string }.

Record Entry := mkEntry {
  e_Ref : Ref; e_Manifest : Manifest; RootID : string; SourceRootIDs : list string; e_Scope : Scope;
  Trusted : bool; State : EntryState; Reasons : list Reason
}.
#[global] Instance eta_Entry : Eta Entry := λ e,
  mkEntry (e_Ref e) (e_Manifest e) (RootID e) (SourceRootIDs e) (e_Scope e) (Trusted e) (State e) (Reasons e).

Record catalogRecord := mkRecord { entry : Entry; skillPath : string }.
#[global] Instance eta_catalogRecord : Eta catalogRecord := λ r, mkRecord (entry r) (skillPath r).

Definition zeroManifest : Manifest := mkManifest "" "" "" (mkRequirements [] [] [] []) [] None.

Definition cloneManifest (m : Manifest) : Manifest :=
  mkManifest (Name m) (Description m) (License m) (Reqs m) (Resources m) (cloneMetadata (Metadata m)).
Definition cloneEntry (e : Entry) : Entry := e <| e_Manifest := cloneManifest (e_Manifest e) |>.

Definition validateRoot (root : Root) (seen : list string) : result () :=
  if decide (Blank (root_ID root) ∨ Blank (Dir root)) then Err (ErrOther "skill root id and directory are required")
  else if contains seen (root_ID root) then Err (ErrOther ("duplicate skill root id " +:+ quote (root_ID root)))
  else match root_Scope root with
       | ScopeOther _ => Err (ErrOther ("skill root " +:+ quote (root_ID root) +:+ " has invalid scope"))
       | _ => Ok ()
       end.

Definition invalidRecord (root : Root) (name : string) : catalogRecord :=
  mkRecord (mkEntry (mkRef name "") zeroManifest (root_ID root) [root_ID root] (root_Scope root) (root_Trusted root)
    EntryInvalid [mkReason "invalid_manifest" name]) "".

(** [discoverSkill]; [None] is a directory without [SKILL.md]. *)
Definition discoverSkill (fs : FS) (rootPath : string) (root : Root) (name : string) : option catalogRecord :=
  match canonicalDirectory fs (Join rootPath name) with
  | None => Some (invalidRecord root name)
  | Some canonicalSkillPath =>
      if negb (pathWithin rootPath canonicalSkillPath) then Some (invalidRecord root name)
      else match readContainedFile fs canonicalSkillPath "SKILL.md" with
      | Missing => None
      | Unreadable => Some (invalidRecord root name)
      | Content source =>
          match ParseManifest name source, skillBody source with
          | Ok manifest, Ok body =>
              if decide (maxSkillBodyBytes < String.length body)%nat then Some (invalidRecord root name)
              else match packageDigest fs canonicalSkillPath source (Resources manifest) with
              | None => Some (invalidRecord root name)
              | Some digest =>
                  Some (mkRecord (mkEntry (mkRef (Name manifest) digest) (cloneManifest manifest) (root_ID root)
                    [root_ID root] (root_Scope root) (root_Trusted root) EntryReady []) canonicalSkillPath)
              end
          | _, _ => Some (invalidRecord root name)
          end
      end
  end.

(** The records of one root. *)
Definition discover_dirs (fs : FS) (canonicalRoot : string) (root : Root) (dirs : list (string * bool))
    : list catalogRecord :=
  omap (λ d : string * bool, if d.2 then discoverSkill fs canonicalRoot root d.1 else None) dirs.

(** [for _, root := range roots], with the root IDs seen. *)
Fixpoint discover_roots (fs : FS) (seen : list string) (roots : list Root) : result (list catalogRecord) :=
  match roots with
  | [] => Ok []
  | root :: roots =>
      if negb (Enabled root) then discover_roots fs seen roots
      else
        let? _ := validateRoot root seen in
        match canonicalDirectory fs (Dir root) with
        | None => Err (ErrOther ("skill root " +:+ quote (root_ID root) +:+ " is unavailable"))
        | Some canonicalRoot =>
            match fs_ReadDir fs canonicalRoot with
            | None => Err (ErrOther ("skill root " +:+ quote (root_ID root) +:+ " is unavailable"))
            | Some dirs =>
                let? rest := discover_roots fs (root_ID root :: seen) roots in
                Ok (discover_dirs fs canonicalRoot root dirs ++ rest)
            end
        end
  end.

(** ** Merging *)

Definition ready (r : catalogRecord) : Prop := State (entry r) = EntryReady.
#[global] Instance ready_dec r : Decision (ready r).
Proof. unfold ready. apply _. Defined.

(** The key of the groups of [mergeEqualDigests]. *)
Definition group_key (r : catalogRecord) : string :=
  ref_Name (e_Ref (entry r)) +:+ String nul (Digest (e_Ref (entry r))).

(** The order within a group: trusted records first, then by root ID. *)
Definition trusted_first (l r : bool) : Prop := l = true ∧ r = false.
#[global] Instance trusted_first_dec l r : Decision (trusted_first l r).
Proof. unfold trusted_first. apply _. Defined.
Definition group_order (r : catalogRecord) : bool * string := (Trusted (entry r), RootID (entry r)).
Definition group_less : catalogRecord → catalogRecord → Prop := key_less (lex_lt trusted_first str_lt) group_order.
#[global] Instance group_less_dec l r : Decision (group_less l r).
Proof. unfold group_less. apply _. Defined.

Definition merge_group (group : list catalogRecord) : option catalogRecord :=
  match sort_slice group_less group with
  | [] => None
  | record :: rest =>
      let e := cloneEntry (entry record) in
      let e := e <| SourceRootIDs := sort_slice str_lt ((λ r, RootID (entry r)) <$> record :: rest) |>
                 <| Trusted := Trusted e || existsb (λ r, Trusted (entry r)) (record :: rest) |> in
      Some (record <| entry := e |>)
  end.

(** [mergeEqualDigests]; [keys] are the keys of the map [groups], in the order it is ranged over. *)
Definition merge_with (keys : list string) (records : list catalogRecord) : list catalogRecord :=
  omap (λ key, merge_group (filter (λ r, ready r ∧ group_key r = key) records)) keys ++
  filter (λ r, ¬ ready r) records.

(** The keys in the order they are first met. *)
Definition group_keys (records : list catalogRecord) : list string :=
  remove_dups (group_key <$> filter ready records).
Definition mergeEqualDigests (records : list catalogRecord) : list catalogRecord :=
  merge_with (group_keys records) records.

Definition reason_key (r : Reason) : string * string := (Code r, Subject r).
Abbreviation pair_lt := (lex_lt str_lt str_lt).
Definition sortReasons (reasons : list Reason) : list Reason := sort_slice (key_less pair_lt reason_key) reasons.

(** The digests of the ready records with a name. *)
Definition digests_of (records : list catalogRecord) (name : string) : list string :=
  remove_dups ((λ r, Digest (e_Ref (entry r))) <$>
    filter (λ r, ready r ∧ ref_Name (e_Ref (entry r)) = name) records).

Definition mark (records : list catalogRecord) (r : catalogRecord) : catalogRecord :=
  let e := entry r in
  if decide (State e ≠ EntryReady ∨ (length (digests_of records (ref_Name (e_Ref e))) < 2)%nat) then r
  else r <| entry := e <| State := EntryAmbiguous |>
                       <| Reasons := sortReasons (Reasons e ++ [mkReason "duplicate_name" (ref_Name (e_Ref e))]) |> |>.
Definition markAmbiguous (records : list catalogRecord) : list catalogRecord := mark records <$> records.

(** The order of the catalog: name, digest, root ID. *)
Definition record_key (r : catalogRecord) : string * (string * string) :=
  (ref_Name (e_Ref (entry r)), (Digest (e_Ref (entry r)), RootID (entry r))).
Abbreviation record_lt := (lex_lt str_lt pair_lt).
Definition sortRecords (records : list catalogRecord) : list catalogRecord :=
  sort_slice (key_less record_lt record_key) records.

Definition Catalog : Type := list catalogRecord.

Definition Discover (fs : FS) (roots : list Root) : result Catalog :=
  let? records := discover_roots fs [] roots in
  Ok (sortRecords (markAmbiguous (mergeEqualDigests records))).

Definition List (c : Catalog) : list Entry := (λ r, cloneEntry (entry r)) <$> c.

Definition Resolve (c : Catalog) (ref : Ref) : result Entry :=
  if decide (Blank (ref_Name ref)) then Err ErrSkillNotFound
  else
    let matches := filter (λ e, ref_Name (e_Ref e) = ref_Name ref ∧ (Digest ref = "" ∨ Digest (e_Ref e) = Digest ref))
                     (entry <$> c) in
    match matches with
    | [] => Err ErrSkillNotFound
    | first :: rest =>
        if existsb (λ e, bool_decide (State e = EntryAmbiguous)) matches then Err ErrSkillAmbiguous
        else if decide (Digest ref ≠ "") then
          if decide (rest = [] ∧ State first = EntryReady) then Ok (cloneEntry first) else Err ErrSkillNotFound
        else match filter (λ e, State e = EntryReady) matches with
             | [e] => Ok (cloneEntry e)
             | _ => Err ErrSkillNotFound
             end
    end.

(** * The gate *)

Inductive Availability := AvailabilityEligible | AvailabilityUnavailable | AvailabilityInvalid | AvailabilityAmbiguous.
#[global] Instance Availability_eq_dec : EqDecision Availability.
Proof. solve_decision. Defined.

(** The map lookups of a [GateContext]: false for an absent key. *)
Record GateContext := mkGate {
  g_OS : string; g_HostFeatures : gmap string bool; AllowedToolIDs : gmap string bool
}.
Definition allowed (m : gmap string bool) (key : string) : bool := default false (m !! key).

Record AvailabilityReport := mkReport { rep_State : Availability; rep_Reasons : list Reason }.

Definition cloneReasons (reasons : list Reason) : list Reason := sortReasons reasons.

Definition Evaluate (e : Entry) (context : GateContext) : AvailabilityReport :=
  match State e with
  | EntryInvalid => mkReport AvailabilityInvalid (cloneReasons (Reasons e))
  | EntryAmbiguous => mkReport AvailabilityAmbiguous (cloneReasons (Reasons e))
  | EntryReady =>
      if negb (Trusted e) then mkReport AvailabilityUnavailable [mkReason "untrusted_root" (RootID e)]
      else
        let reqs := Reqs (e_Manifest e) in
        let reasons :=
          (if decide ((0 < length (OS reqs))%nat ∧ contains (OS reqs) (g_OS context) = false)
           then [mkReason "unsupported_os" (g_OS context)] else []) ++
          (mkReason "missing_feature" <$> filter (λ f, allowed (g_HostFeatures context) f = false) (HostFeatures reqs)) ++
          (mkReason "missing_tool" <$> filter (λ t, allowed (AllowedToolIDs context) t = false) (RequiredToolIDs reqs)) in
        match reasons with
        | [] => mkReport AvailabilityEligible []
        | _ => mkReport AvailabilityUnavailable (sortReasons reasons)
        end
  end.

(** * Activation *)

Record ActivationRequest := mkRequest { req_Skills : list Ref; req_Gate : GateContext }.

Record ActivatedSkill := mkActivated {
  a_Ref : Ref; a_Name : string; a_Description : string; a_Content : string;
  a_RequiredToolIDs : list string; a_OptionalToolIDs : list string
}.
Record activationRecord := mkActivation { skill : ActivatedSkill; record : catalogRecord }.
Definition Activation : Type := list activationRecord.

Definition catalog_record (c : Catalog) (ref : Ref) : option catalogRecord :=
  List.find (λ r, bool_decide (e_Ref (entry r) = ref)) c.

Definition verifyRecord (fs : FS) (r : catalogRecord) : result (string * Manifest) :=
  let name := ref_Name (e_Ref (entry r)) in
  match readContainedFile fs (skillPath r) "SKILL.md" with
  | Content source =>
      match ParseManifest name source with
      | Ok manifest =>
          match packageDigest fs (skillPath r) source (Resources manifest) with
          | Some digest =>
              if decide (digest = Digest (e_Ref (entry r))) then Ok (source, manifest) else Err (ErrSkillDigestMismatch name)
          | None => Err (ErrSkillDigestMismatch name)
          end
      | Err _ => Err (ErrSkillDigestMismatch name)
      end
  | _ => Err (ErrSkillDigestMismatch name)
  end.

(** The body of the loop of [Activate] for one requested skill. *)
Definition activate_one (fs : FS) (c : Catalog) (gate : GateContext) (seen : list Ref) (ref : Ref)
    : result activationRecord :=
  let? e := Resolve c ref in
  if decide (e_Ref e ∈ seen) then Err (ErrSkillUnavailable ("duplicate skill " +:+ quote (ref_Name (e_Ref e))))
  else if decide (rep_State (Evaluate e gate) ≠ AvailabilityEligible) then Err (ErrSkillUnavailable (ref_Name (e_Ref e)))
  else match catalog_record c (e_Ref e) with
  | None => Err ErrSkillNotFound
  | Some record =>
      let? verified := verifyRecord fs record in
      match skillBody verified.1 with
      | Err _ => Err (ErrSkillDigestMismatch (ref_Name (e_Ref e)))
      | Ok content =>
          let manifest := verified.2 in
          Ok (mkActivation (mkActivated (e_Ref e) (Name manifest) (Description manifest) content
            (RequiredToolIDs (Reqs manifest)) (OptionalToolIDs (Reqs manifest))) record)
      end
  end.

Fixpoint activate_all (fs : FS) (c : Catalog) (gate : GateContext) (seen : list Ref) (refs : list Ref)
    : result (list activationRecord) :=
  match refs with
  | [] => Ok []
  | ref :: refs =>
      let? r := activate_one fs c gate seen ref in
      let? rest := activate_all fs c gate (a_Ref (skill r) :: seen) refs in
      Ok (r :: rest)
  end.

Definition activation_key (r : activationRecord) : string * string := (a_Name (skill r), Digest (a_Ref (skill r))).

(** [Activate]; a nil catalog is [None]. *)
Definition Activate (fs : FS) (c : option Catalog) (request : ActivationRequest) : result Activation :=
  match c with
  | None => Err ErrSkillNotFound
  | Some c =>
      let? records := activate_all fs c (req_Gate request) [] (req_Skills request) in
      Ok (sort_slice (key_less pair_lt activation_key) records)
  end.

Definition cloneActivatedSkill (s : ActivatedSkill) : ActivatedSkill := s.
Definition Skills (a : Activation) : list ActivatedSkill := (λ r, cloneActivatedSkill (skill r)) <$> a.

Definition activation_record (a : Activation) (ref : Ref) : result activationRecord :=
  if decide (ref_Name ref = "" ∨ Digest ref = "") then Err ErrSkillNotFound
  else match List.find (λ r, bool_decide (a_Ref (skill r) = ref)) a with
       | Some r => Ok r
       | None => Err ErrSkillNotFound
       end.

(** ** Resources *)

(** The parts of a parsed [url.URL]; the user is a name and maybe a password. *)
Record URL := mkURL {
  Scheme : string; User : option (string * option string); Host : string; Path : string; RawPath : string;
  RawQuery : string; Fragment : string
}.

Section url.
Context (url_String : URL → string) (url_Parse : string → option URL).

Definition ResourceURI (a : Activation) (ref : Ref) (resource : string) : result string :=
  let? r := activation_record a ref in
  if negb (validResourcePath resource) || negb (contains (Resources (e_Manifest (entry (record r)))) resource)
  then Err (ErrInvalidSkillResource "")
  else Ok (url_String (mkURL "skill" (Some (ref_Name (a_Ref (skill r)), None)) (Digest (a_Ref (skill r)))
         ("/" +:+ resource) "" "" "")).

(** [ReadResource] checks the package in [fs] and reads the resource in [fs']. *)
Definition ReadResource (fs fs' : FS) (a : Activation) (uri : string) : result string :=
  match url_Parse uri with
  | None => Err (ErrInvalidSkillResource "")
  | Some parsed =>
      match User parsed with
      | None => Err (ErrInvalidSkillResource "")
      | Some (username, password) =>
          if decide (Scheme parsed ≠ "skill" ∨ Host parsed = "" ∨ RawQuery parsed ≠ "" ∨ Fragment parsed ≠ "" ∨
                     RawPath parsed ≠ "") then Err (ErrInvalidSkillResource "")
          else if decide (is_Some password) then Err (ErrInvalidSkillResource "")
          else
            let resource := TrimPrefix (Path parsed) "/" in
            if negb (HasPrefix (Path parsed) "/") || negb (validResourcePath resource)
            then Err (ErrInvalidSkillResource "")
            else
              let? r := activation_record a (mkRef username (Host parsed)) in
              if negb (contains (Resources (e_Manifest (entry (record r)))) resource)
              then Err (ErrInvalidSkillResource "")
              else
                let? _ := verifyRecord fs (record r) in
                match readContainedFile fs' (skillPath (record r)) resource with
                | Content content =>
                    if decide (maxResourceBytes < String.length content)%nat then Err (ErrInvalidSkillResource "")
                    else Ok content
                | _ => Err (ErrSkillDigestMismatch (a_Name (skill r)))
                end
      end
  end.
End url.

(** * The goagent adapter *)

(** [Provider.Skills]: the activation that [Resolve] returned, where [None] is nil. *)
Definition Provider_Skills (resolve : option (result (option Activation))) : result (list AgentCore.Skill) :=
  match resolve with
  | None => Err ErrMissingResolver
  | Some (Err err) => Err err
  | Some (Ok None) => Err ErrMissingActivation
  | Some (Ok (Some activation)) =>
      Ok ((λ s, AgentCore.mkSkill (a_Name s) (a_Description s) 0 true (a_Content s)) <$> Skills activation)
  end.

End env.
End SkillKit.
