(* ===== verification/SkillSafety.v ===== *)
(** Skill packages: resources stay inside their skill, activation loads only trusted, permitted
and unchanged packages, and what a package digest identifies. *)

From S2P Require Import Prelude GoPath SkillKit.

Module SkillSafety.
Import SkillKit.

(** * Containment *)

(** A resource path is a relative path of plain elements: no empty element, no [.], no [..]. *)
Lemma validResourcePath_plain r : validResourcePath r = true → ∃ es, es ≠ [] ∧ Forall plain es ∧ r = join slash es.
Proof.
  unfold validResourcePath. case_decide as H0; [done|]. case_decide as H1; [done|]. rewrite bool_decide_eq_true. intros Hc.
  assert (HasPrefix r "/" = false) as Hrel.
  { destruct (HasPrefix r "/") eqn:E; [|done]. destruct H0. tauto. }
  destruct (clean_elems_kept false (split slash r) (split_without slash r)) as (n & es & Hes & Hk & _).
  unfold Clean in Hc, H1. rewrite Hrel in Hc, H1. cbv zeta in Hc, H1. rewrite Hk in Hc, H1. cbn [String.append] in Hc, H1.
  case_decide as He; [exfalso; apply H1; by left|].
  destruct n as [|n].
  - exists es. split_and!; [|done|done]. intros ->. by apply He.
  - exfalso. apply H1. right. cbn [replicate app]. destruct (replicate n ".." ++ es) as [|y l] eqn:El; [by left|].
    right. rewrite join_cons by done. apply HasPrefix_spec. by eexists.
Qed.

(** Paths of the file system: absolute, without [.] and [..], as [filepath.EvalSymlinks] of an absolute path
returns them. *)
Definition canonical_fs (fs : FS) : Prop :=
  ∀ p q, fs_EvalSymlinks fs p = Ok q → ∃ es, Forall plain es ∧ q = abs_path es.

(** [p] is [dir] or below it. *)
Definition below (dir p : string) : Prop :=
  ∃ ds rest, Forall plain (ds ++ rest) ∧ dir = abs_path ds ∧ p = abs_path (ds ++ rest).

Lemma pathWithin_below bs ts : Forall plain bs → Forall plain ts →
  pathWithin (abs_path bs) (abs_path ts) = true ↔ below (abs_path bs) (abs_path ts).
Proof.
  intros Hb Ht. unfold pathWithin. pose proof (Rel_within bs ts Hb Ht) as Hr.
  destruct (Rel _ _) as [r|]; [|done]. transitivity (bs `prefix_of` ts).
  - rewrite <-Hr. case_decide; [naive_solver|]. rewrite negb_true_iff. naive_solver.
  - split.
    + intros [k ->]. by exists bs, k.
    + intros (ds & k & Hk & E1 & E2). exists k. assert (ts = ds ++ k) as ->.
      { by rewrite <-(elements_abs ts), E2, elements_abs. }
      apply Forall_app in Hk as [Hds _]. f_equal. by rewrite <-(elements_abs bs), E1, elements_abs.
Qed.

(** What [readContainedFile] returns is the content of a regular file whose real path, links resolved, is
below the skill's directory. *)
Lemma readContainedFile_below fs es rel content :
  canonical_fs fs → Forall plain es → readContainedFile fs (abs_path es) rel = Content content →
  ∃ p, fs_EvalSymlinks fs (Join (abs_path es) rel) = Ok p ∧ below (abs_path es) p ∧
    fs_Stat fs p = Some KRegular ∧ fs_ReadFile fs p = Some content.
Proof.
  intros Hfs Hes. unfold readContainedFile. destruct (fs_EvalSymlinks fs _) as [p|[]] eqn:El; [|done..].
  destruct (pathWithin _ p) eqn:Hw; simpl; [|done]. destruct (fs_Stat fs p) as [[]|] eqn:Hs; try done.
  destruct (fs_ReadFile fs p) as [c|] eqn:Hc; [|done]. intros [= ->]. exists p. split_and!; try done.
  destruct (Hfs _ _ El) as (ts & Hts & ->). by apply pathWithin_below.
Qed.

(** * Digests *)

(** Files without zero bytes in their paths and contents. *)
Definition no_nul (f : digestFile) : Prop := without nul f.1 ∧ without nul f.2.

Lemma frame_split files : Forall no_nul files →
  split nul (frame files) = (files ≫= λ f, [f.1; f.2]) ++ [""].
Proof.
  induction 1 as [|[p c] files [Hp Hc] _ IH]; [done|]. simpl. simpl in Hp, Hc.
  rewrite split_app_sep by done. rewrite split_app_sep by done. by rewrite IH.
Qed.

Lemma bind_pairs_inj (fs1 fs2 : list digestFile) :
  (fs1 ≫= λ f, [f.1; f.2]) = (fs2 ≫= λ f, [f.1; f.2]) → fs1 = fs2.
Proof.
  revert fs2. induction fs1 as [|[p c] fs1 IH]; intros [|[p' c'] fs2] E; try done; simpl in E.
  injection E as -> -> E. f_equal. by apply IH.
Qed.

(** Without zero bytes, the hashed bytes determine the files: their paths, their contents and their
number. *)
Theorem frame_injective files files' :
  Forall no_nul files → Forall no_nul files' → frame files = frame files' → files = files'.
Proof.
  intros H H' E. apply bind_pairs_inj, (app_inv_tail [""]).
  by rewrite <-(frame_split files H), <-(frame_split files' H'), E.
Qed.

(** With zero bytes they do not: the text between the content of a file and the path of the next one can be
moved into either. *)
Lemma append_assoc (s t u : string) : (s +:+ t) +:+ u = s +:+ (t +:+ u).
Proof. induction s as [|a s IH]; [done|]. exact (f_equal (String a) IH). Qed.

Lemma frame_moves path c x y :
  frame [(path, c); ("SKILL.md", x +:+ String nul ("SKILL.md" +:+ String nul y))] =
  frame [(path, c +:+ String nul ("SKILL.md" +:+ String nul x)); ("SKILL.md", y)].
Proof.
  cbn [frame foldr fst snd]. rewrite !append_assoc. done.
Qed.

(** * Discovery *)

Section env.
Context `{E : Env}.

(** The record [r] is a package found in [root]: a directory below the root's, whose [SKILL.md] has a
valid manifest with the directory's name, and whose files have the digest. *)
Definition found_in (fs : FS) (root : Root) (r : catalogRecord) : Prop :=
  ∃ dir source manifest,
    canonicalDirectory fs (Dir root) = Some dir ∧ pathWithin dir (skillPath r) = true ∧
    canonicalDirectory fs (Join dir (ref_Name (e_Ref (entry r)))) = Some (skillPath r) ∧
    readContainedFile fs (skillPath r) "SKILL.md" = Content source ∧
    ParseManifest (ref_Name (e_Ref (entry r))) source = Ok manifest ∧
    packageDigest fs (skillPath r) source (Resources manifest) = Some (Digest (e_Ref (entry r))) ∧
    e_Manifest (entry r) = cloneManifest manifest.

Lemma ParseManifest_name directory source manifest :
  ParseManifest directory source = Ok manifest → Name manifest = directory.
Proof.
  unfold ParseManifest. destruct (frontmatterDocument source); [|done]. destruct (yaml_Unmarshal _); [|done].
  destruct (parseGoagentsMetadata _) as [parsed|]; simpl; [|done]. unfold ValidateManifest; simpl.
  destruct (_ || _) eqn:Ev; simpl; [done|]. apply orb_false_iff in Ev as [_ Hn]. apply bool_decide_eq_false in Hn.
  apply dec_stable in Hn. destruct (_ || _); simpl; [done|]. destruct (check_resources _ _); simpl; [|done]. by intros [= <-].
Qed.

Lemma discoverSkill_found fs dir root name r :
  canonicalDirectory fs (Dir root) = Some dir → discoverSkill fs dir root name = Some r →
  RootID (entry r) = root_ID root ∧ Trusted (entry r) = root_Trusted root ∧
  ((ready r ∧ found_in fs root r) ∨ (State (entry r) = EntryInvalid ∧ Digest (e_Ref (entry r)) = "")).
Proof.
  intros Hdir. assert (∀ r0, Some (invalidRecord root name) = Some r0 →
    RootID (entry r0) = root_ID root ∧ Trusted (entry r0) = root_Trusted root ∧
    ((ready r0 ∧ found_in fs root r0) ∨ (State (entry r0) = EntryInvalid ∧ Digest (e_Ref (entry r0)) = ""))) as Hinv.
  { intros r0 [= <-]. split_and!; [done..|by right]. }
  unfold discoverSkill. destruct (canonicalDirectory fs (Join dir name)) as [sp|] eqn:Hsp; [|apply Hinv].
  destruct (pathWithin dir sp) eqn:Hw; cbn [negb]; [|apply Hinv].
  destruct (readContainedFile fs sp "SKILL.md") as [| |source] eqn:Hs; [done|apply Hinv|].
  destruct (ParseManifest name source) as [manifest|] eqn:Hm; [|apply Hinv].
  destruct (skillBody source) as [body|]; [|apply Hinv]. case_decide; [apply Hinv|].
  destruct (packageDigest fs sp source (Resources manifest)) as [digest|] eqn:Hd; [|apply Hinv].
  intros [= <-]. split_and!; [done..|]. left. split; [done|]. exists dir, source, manifest. simpl.
  rewrite (ParseManifest_name _ _ _ Hm). done.
Qed.

Lemma discover_roots_found fs seen roots records r :
  discover_roots fs seen roots = Ok records → r ∈ records →
  ∃ root, root ∈ roots ∧ Enabled root = true ∧ RootID (entry r) = root_ID root ∧ Trusted (entry r) = root_Trusted root ∧
    ((ready r ∧ found_in fs root r) ∨ (State (entry r) = EntryInvalid ∧ Digest (e_Ref (entry r)) = "")).
Proof.
  revert seen records. induction roots as [|root roots IH]; intros seen records; simpl; [intros [= <-]; set_solver|].
  destruct (Enabled root) eqn:He; simpl.
  2:{ intros Hd Hr. destruct (IH _ _ Hd Hr) as (root' & ? & ?). exists root'. split; [by right|done]. }
  destruct (validateRoot root seen); simpl; [|done]. destruct (canonicalDirectory fs (Dir root)) as [dir|] eqn:Hdir; [|done].
  destruct (fs_ReadDir fs dir) as [dirs|]; [|done]. destruct (discover_roots fs _ roots) as [rest|] eqn:Hrest; simpl; [|done].
  intros [= <-]. rewrite elem_of_app. intros [Hr|Hr].
  - unfold discover_dirs in Hr. apply list_elem_of_omap in Hr as ([name isdir] & _ & Hr). destruct isdir; [|done]. simpl in Hr.
    exists root. split; [by left|]. split; [done|]. by eapply discoverSkill_found.
  - destruct (IH _ _ Hrest Hr) as (root' & ? & ?). exists root'. split; [by right|done].
Qed.

(** ** Merging *)

#[local] Instance trusted_first_total : StrictTotal trusted_first.
Proof. split; unfold trusted_first; [intros []; naive_solver|intros [] [] []; naive_solver|intros [] []; naive_solver]. Qed.

(** A group is represented by one of its records, a trusted one if there is one. *)
Lemma merge_group_spec group r :
  merge_group group = Some r → ∃ r0, r0 ∈ group ∧ e_Ref (entry r) = e_Ref (entry r0) ∧ skillPath r = skillPath r0 ∧
    State (entry r) = State (entry r0) ∧ RootID (entry r) = RootID (entry r0) ∧
    e_Manifest (entry r) = cloneManifest (e_Manifest (entry r0)) ∧ Trusted (entry r) = Trusted (entry r0).
Proof.
  unfold merge_group.
  assert (StronglySorted (not_after group_less) (sort_slice (Hdec := group_less_dec) group_less group)) as Hs
    by apply (sort_key_sorted (lex_lt trusted_first str_lt) group_order group).
  destruct (sort_slice group_less group) as [|r0 rest] eqn:El; [done|]. intros [= <-]. exists r0.
  assert (r0 ∈ group) by (rewrite <-(elem_of_sort_slice (Hdec := group_less_dec) group_less), El; by left). split_and!; try done. simpl.
  destruct (Trusted (entry r0)) eqn:Ht; [done|]. simpl.
  apply StronglySorted_cons in Hs as [Hf _]. destruct (existsb _ rest) eqn:Ex; [|done].
  apply existsb_exists in Ex as (r1 & Hin & Ht1). apply list_elem_of_In in Hin.
  exfalso. apply (proj1 (Forall_forall _ _) Hf r1 Hin). unfold group_less, key_less, lex_lt, group_order; simpl.
  rewrite Ht, Ht1. by rewrite decide_True.
Qed.

Lemma elem_of_merged records r :
  r ∈ mergeEqualDigests records → 
  (∃ r0, merge_group (filter (λ r, ready r ∧ group_key r = group_key r0) records) = Some r ∧
     r0 ∈ records ∧ ready r ∧ e_Ref (entry r) = e_Ref (entry r0) ∧ skillPath r = skillPath r0 ∧ ready r0 ∧
     e_Manifest (entry r) = cloneManifest (e_Manifest (entry r0)) ∧ Trusted (entry r) = Trusted (entry r0)) ∨
  (r ∈ records ∧ ¬ ready r).
Proof.
  unfold mergeEqualDigests, merge_with. rewrite elem_of_app, list_elem_of_filter. intros [Hr|[? ?]]; [left|by right].
  apply list_elem_of_omap in Hr as (key & _ & Hg). destruct (merge_group_spec _ _ Hg) as (r0 & Hin & H1 & H2 & H3 & H4 & H5 & H6).
  apply list_elem_of_filter in Hin as [[Hr0 Hk] Hin]. exists r0. rewrite Hk. split_and!; try done. unfold ready. by rewrite H3.
Qed.

(** A digest has one record in the catalog. *)
Lemma merged_unique records r1 r2 :
  r1 ∈ mergeEqualDigests records → r2 ∈ mergeEqualDigests records → ready r1 → ready r2 →
  e_Ref (entry r1) = e_Ref (entry r2) → r1 = r2.
Proof.
  intros H1 H2 Hr1 Hr2 Href.
  destruct (elem_of_merged _ _ H1) as [(a & Ha & _ & _ & Ea & _)|[_ ?]]; [|done].
  destruct (elem_of_merged _ _ H2) as [(b & Hb & _ & _ & Eb & _)|[_ ?]]; [|done].
  assert (group_key a = group_key b) as Hk by (unfold group_key; by rewrite <-Ea, <-Eb, Href).
  rewrite Hk in Ha. congruence.
Qed.

Lemma mark_same records r :
  e_Ref (entry (mark records r)) = e_Ref (entry r) ∧ skillPath (mark records r) = skillPath r ∧
  e_Manifest (entry (mark records r)) = e_Manifest (entry r) ∧ Trusted (entry (mark records r)) = Trusted (entry r) ∧
  (ready (mark records r) → mark records r = r).
Proof. unfold mark. case_decide; [done|]. split_and!; [done..|]. intros H0. by unfold ready in H0. Qed.

(** The records of a catalog. *)
Lemma Discover_found fs roots c r :
  Discover fs roots = Ok c → r ∈ c →
  (Digest (e_Ref (entry r)) = "" ∧ State (entry r) = EntryInvalid) ∨
  (∃ root r0, root ∈ roots ∧ Enabled root = true ∧ Trusted (entry r) = root_Trusted root ∧ found_in fs root r0 ∧
     e_Ref (entry r) = e_Ref (entry r0) ∧ skillPath r = skillPath r0 ∧
     e_Manifest (entry r) = cloneManifest (e_Manifest (entry r0))).
Proof.
  unfold Discover. destruct (discover_roots fs [] roots) as [records|] eqn:Hd; simpl; [|done]. intros [= <-].
  unfold sortRecords. rewrite elem_of_sort_slice. unfold markAmbiguous. intros (m & -> & Hm)%list_elem_of_fmap.
  destruct (mark_same (mergeEqualDigests records) m) as (E1 & E2 & E3 & E4 & _).
  destruct (elem_of_merged _ _ Hm) as [(r0 & _ & Hin & _ & Hr1 & Hr2 & Hr3 & Hr4 & Hr5)|[Hin Hnr]].
  - right. destruct (discover_roots_found _ _ _ _ _ Hd Hin) as (root & Hroot & He & _ & Ht & [[_ Hf]|[Hs _]]).
    + exists root, r0. rewrite E1, E2, E3, E4, Hr1, Hr2, Hr4, Hr5. done.
    + unfold ready in Hr3. congruence.
  - destruct (discover_roots_found _ _ _ _ _ Hd Hin) as (root & _ & _ & _ & _ & [[Hr _]|[Hs Hdg]]); [done|]. left.
    split; [by rewrite E1|]. unfold mark. case_decide; [done|]. naive_solver.
Qed.

(** Two records of a catalog with the same digest. *)
Lemma Discover_unique fs roots c r1 r2 :
  Discover fs roots = Ok c → r1 ∈ c → r2 ∈ c → e_Ref (entry r1) = e_Ref (entry r2) → Digest (e_Ref (entry r1)) ≠ "" → r1 = r2.
Proof.
  intros Hc H1 H2 Href Hd.
  assert (∀ r, r ∈ c → Digest (e_Ref (entry r)) ≠ "" → ∃ records m, Discover fs roots = Ok (sortRecords (markAmbiguous (mergeEqualDigests records))) ∧
    discover_roots fs [] roots = Ok records ∧ m ∈ mergeEqualDigests records ∧ ready m ∧ r = mark (mergeEqualDigests records) m) as Hm.
  { intros r Hr Hne. unfold Discover in *. destruct (discover_roots fs [] roots) as [records|] eqn:Hds; simpl in *; [|done].
    injection Hc as <-. unfold sortRecords, markAmbiguous in Hr. rewrite elem_of_sort_slice in Hr.
    apply list_elem_of_fmap in Hr as (m & -> & Hm). exists records, m. split_and!; try done.
    destruct (elem_of_merged _ _ Hm) as [(? & _ & _ & ? & _)|[Hin Hnr]]; [done|].
    destruct (discover_roots_found _ _ _ _ _ Hds Hin) as (? & _ & _ & _ & _ & [[? _]|[_ Hdg]]); [done|].
    destruct (mark_same (mergeEqualDigests records) m) as (E1 & _). rewrite E1 in Hne. done. }
  destruct (Hm r1 H1 Hd) as (rs & m1 & _ & Hrs & Hm1 & Hr1 & ->).
  destruct (Hm r2 H2) as (rs' & m2 & _ & Hrs' & Hm2 & Hr2 & ->); [by rewrite <-Href|].
  assert (rs' = rs) as -> by congruence. f_equal. eapply merged_unique; [done..|].
  destruct (mark_same (mergeEqualDigests rs) m1) as (E1 & _), (mark_same (mergeEqualDigests rs) m2) as (E2 & _). congruence.
Qed.

(** A ready record has the only digest of its name; the records of a name with several are all
ambiguous. *)
Theorem ready_unambiguous fs roots c r1 r2 :
  Discover fs roots = Ok c → r1 ∈ c → r2 ∈ c → ready r1 → State (entry r2) ≠ EntryInvalid →
  ref_Name (e_Ref (entry r1)) = ref_Name (e_Ref (entry r2)) → r1 = r2.
Proof.
  unfold Discover. destruct (discover_roots fs [] roots) as [records|] eqn:Hd; simpl; [|done]. intros [= <-].
  unfold sortRecords, markAmbiguous. rewrite !elem_of_sort_slice.
  set (M := mergeEqualDigests records).
  intros (m1 & -> & H1)%list_elem_of_fmap (m2 & -> & H2)%list_elem_of_fmap Hr1 Hr2 Hn.
  destruct (mark_same M m1) as (E1 & _ & _ & _ & Hm1), (mark_same M m2) as (E2 & _).
  assert (ready m1) as Hready1 by (by rewrite <-(Hm1 Hr1)).
  assert (ready m2) as Hready2.
  { destruct (elem_of_merged _ _ H2) as [(? & _ & _ & ? & _)|[Hin Hnr]]; [done|].
    destruct (discover_roots_found _ _ _ _ _ Hd Hin) as (? & _ & _ & _ & _ & [[? _]|[Hs _]]); [done|].
    exfalso. apply Hr2. unfold mark. rewrite decide_True; [done|]. left. congruence. }
  f_equal. apply (merged_unique records); try done.
  rewrite E1, E2 in Hn. destruct (e_Ref (entry m1)) as [n1 d1] eqn:Er1, (e_Ref (entry m2)) as [n2 d2] eqn:Er2. simpl in Hn. subst n2.
  f_equal. assert (length (digests_of M n1) < 2) as Hlen.
  { apply dec_stable. intros Hn. assert (State (entry (mark M m1)) = EntryAmbiguous) as Ha.
    { unfold mark. rewrite decide_False; [done|]. rewrite Er1. simpl. unfold ready in Hready1. naive_solver. }
    unfold ready in Hr1. congruence. }
  assert (∀ m d, m ∈ M → ready m → e_Ref (entry m) = mkRef n1 d → d ∈ digests_of M n1) as Hin.
  { intros m d Hm Hr Er. unfold digests_of. apply elem_of_remove_dups, list_elem_of_fmap. exists m. rewrite Er. split; [done|].
    apply list_elem_of_filter. by rewrite Er. }
  pose proof (Hin m1 d1 H1 Hready1 Er1) as I1. pose proof (Hin m2 d2 H2 Hready2 Er2) as I2.
  destruct (digests_of M n1) as [|d [|]]; simpl in Hlen; [by apply elem_of_nil in I1| |lia].
  apply list_elem_of_singleton in I1, I2. congruence.
Qed.

(** * The gate *)

(** What the gate asks of the host for a manifest's requirements. *)
Definition permitted (gate : GateContext) (reqs : Requirements) : Prop :=
  (OS reqs = [] ∨ g_OS gate ∈ OS reqs) ∧
  (∀ f, f ∈ HostFeatures reqs → allowed (g_HostFeatures gate) f = true) ∧
  (∀ tool, tool ∈ RequiredToolIDs reqs → allowed (AllowedToolIDs gate) tool = true).

Lemma contains_elem l x : contains l x = true ↔ x ∈ l.
Proof.
  unfold contains. rewrite existsb_exists. setoid_rewrite bool_decide_eq_true.
  setoid_rewrite <-list_elem_of_In. naive_solver.
Qed.

Lemma filter_false_nil {A} (f : A → bool) (l : list A) : filter (λ x, f x = false) l = [] ↔ ∀ x, x ∈ l → f x = true.
Proof.
  rewrite filter_nil_Forall, Forall_forall. split; intros H x Hx; specialize (H x Hx); destruct (f x); done || tauto.
Qed.

(** A skill is eligible exactly when its entry is ready, comes from a trusted root, and the
host's system, features and tools meet every requirement. *)
Theorem Evaluate_eligible e gate :
  rep_State (Evaluate e gate) = AvailabilityEligible ↔
  State e = EntryReady ∧ Trusted e = true ∧ permitted gate (Reqs (e_Manifest e)).
Proof.
  unfold Evaluate. destruct (State e); [|by split; [|intros []]..]. destruct (Trusted e); simpl; [|by split; [|intros (_ & ? & _)]].
  set (reqs := Reqs (e_Manifest e)). unfold permitted.
  destruct (_ ++ _ ++ _) as [|r l] eqn:El; simpl.
  - split; [intros _|done]. split_and!; try done.
    + case_decide as Ho; [done|]. destruct (OS reqs) as [|o os]; [by left|]. right. apply contains_elem.
      destruct (contains _ _) eqn:Ec; [done|]. exfalso. apply Ho. split; [simpl; lia|done].
    + apply app_nil in El as [_ El]. apply app_nil in El as [El _]. apply fmap_nil_inv in El. by apply filter_false_nil.
    + apply app_nil in El as [_ El]. apply app_nil in El as [_ El]. apply fmap_nil_inv in El. by apply filter_false_nil.
  - split; [done|]. intros (_ & _ & Ho & Hf & Ht). exfalso.
    rewrite (proj2 (filter_false_nil _ _) Hf), (proj2 (filter_false_nil _ _) Ht) in El.
    rewrite decide_False in El; [done|]. intros [Hlen Hc]. destruct Ho as [Ho|Ho]; [by rewrite Ho in Hlen; simpl in Hlen; lia|].
    apply contains_elem in Ho. congruence.
Qed.

(** ** What a SKILL.md requires

Stated on the text: its front matter and its body, and the lists of its [goagents] extension. *)

















(** * Activation *)

Lemma Resolve_spec c ref e :
  Resolve c ref = Ok e → ∃ r, r ∈ c ∧ e = cloneEntry (entry r) ∧ ready r ∧ ref_Name (e_Ref e) = ref_Name ref ∧
    (Digest ref = "" ∨ e_Ref e = ref).
Proof.
  unfold Resolve. case_decide; [done|]. set (P := λ e, ref_Name (e_Ref e) = ref_Name ref ∧ _).
  assert (∀ e0, e0 ∈ filter P (entry <$> c) → State e0 = EntryReady → ∃ r, r ∈ c ∧ cloneEntry e0 = cloneEntry (entry r) ∧ ready r ∧
    ref_Name (e_Ref (cloneEntry e0)) = ref_Name ref ∧ (Digest ref = "" ∨ e_Ref (cloneEntry e0) = ref)) as Hin.
  { intros e0 [[Hn Hd] (r & -> & Hr)%list_elem_of_fmap]%list_elem_of_filter Hs. exists r. split_and!; try done.
    destruct Hd as [?|Hd]; [by left|right]. simpl. destruct (e_Ref (entry r)), ref. simpl in *. congruence. }
  destruct (filter P _) as [|first rest] eqn:El; [done|]. destruct (existsb _ _); [done|].
  destruct (decide (Digest ref ≠ "")) as [Hdg|Hdg].
  - destruct (decide (rest = [] ∧ _)) as [Hf|]; [|done]. intros [= <-]. apply Hin; [by left|]. tauto.
  - destruct (filter _ (first :: rest)) as [|e0 [|]] eqn:Ef; try done. intros [= <-].
    assert (e0 ∈ filter (λ e, State e = EntryReady) (first :: rest)) as [Hs He0]%list_elem_of_filter by (rewrite Ef; by left).
    by apply Hin.
Qed.

Lemma catalog_record_spec c ref r : catalog_record c ref = Some r → r ∈ c ∧ e_Ref (entry r) = ref.
Proof.
  unfold catalog_record. intros [Hin Hb]%List.find_some. apply list_elem_of_In in Hin. by apply bool_decide_eq_true in Hb.
Qed.

Lemma verifyRecord_spec fs r source manifest :
  verifyRecord fs r = Ok (source, manifest) →
  readContainedFile fs (skillPath r) "SKILL.md" = Content source ∧
  ParseManifest (ref_Name (e_Ref (entry r))) source = Ok manifest ∧
  packageDigest fs (skillPath r) source (Resources manifest) = Some (Digest (e_Ref (entry r))).
Proof.
  unfold verifyRecord. destruct (readContainedFile _ _ _) as [| |s]; [done..|]. destruct (ParseManifest _ s) as [m|] eqn:Hm; [|done].
  destruct (packageDigest _ _ _ _) as [d|] eqn:Hd; [|done]. case_decide; [|done]. intros [= <- <-]. subst. done.
Qed.

(** What one activated skill is: a requested, ready, eligible entry of the catalog, with the record it
was found by, and the instructions of the files as they are now. *)
Definition activated (fs : FS) (c : Catalog) (req : ActivationRequest) (s : activationRecord) : Prop :=
  ∃ ref r source manifest,
    ref ∈ req_Skills req ∧ ref_Name (a_Ref (skill s)) = ref_Name ref ∧ (Digest ref = "" ∨ a_Ref (skill s) = ref) ∧
    r ∈ c ∧ ready r ∧ Trusted (entry r) = true ∧ permitted (req_Gate req) (Reqs (e_Manifest (entry r))) ∧
    e_Ref (entry r) = a_Ref (skill s) ∧ record s ∈ c ∧ e_Ref (entry (record s)) = a_Ref (skill s) ∧
    verifyRecord fs (record s) = Ok (source, manifest) ∧ skillBody source = Ok (a_Content (skill s)) ∧
    a_RequiredToolIDs (skill s) = RequiredToolIDs (Reqs manifest).

Lemma activate_one_spec fs c gate seen ref s :
  activate_one fs c gate seen ref = Ok s →
  (a_Ref (skill s) ∉ seen) ∧ activated fs c (mkRequest [ref] gate) s.
Proof.
  unfold activate_one. destruct (Resolve c ref) as [e|] eqn:Hres; simpl; [|done].
  case_decide as Hseen; [done|]. case_decide as Hev; [done|]. apply Evaluate_eligible in Hev as (_ & Ht & Hp).
  destruct (catalog_record c (e_Ref e)) as [rec|] eqn:Hrec; [|done].
  destruct (verifyRecord fs rec) as [[source manifest]|] eqn:Hv; simpl; [|done].
  destruct (skillBody source) as [content|] eqn:Hb; [|done]. intros [= <-]. simpl. split; [done|].
  destruct (Resolve_spec _ _ _ Hres) as (r & Hr & -> & Hready & Hn & Hd). apply catalog_record_spec in Hrec as [Hin Href].
  exists ref, r, source, manifest. simpl. split_and!; try done. by left.
Qed.

Lemma activate_all_spec fs c gate seen refs l :
  activate_all fs c gate seen refs = Ok l →
  NoDup ((λ s, a_Ref (skill s)) <$> l) ∧ (∀ s, s ∈ l → (a_Ref (skill s) ∉ seen) ∧ activated fs c (mkRequest refs gate) s).
Proof.
  revert seen l. induction refs as [|ref refs IH]; intros seen l; simpl; [intros [= <-]; split; [constructor|set_solver]|].
  destruct (activate_one fs c gate seen ref) as [s|] eqn:H1; simpl; [|done].
  destruct (activate_all fs c gate _ refs) as [rest|] eqn:H2; simpl; [|done]. intros [= <-].
  destruct (activate_one_spec _ _ _ _ _ _ H1) as [Hs Ha]. destruct (IH _ _ H2) as [Hnd Hrest]. split.
  - rewrite fmap_cons. constructor; [|done]. intros (s' & E' & Hin)%list_elem_of_fmap.
    destruct (Hrest s' Hin) as [Hns _]. apply Hns. rewrite <-E'. by left.
  - intros s' [->|Hin]%elem_of_cons.
    + split; [done|]. destruct Ha as (ref' & ? & ? & ? & ->%list_elem_of_singleton & ?). eexists ref, _, _, _. split; [by left|done].
    + destruct (Hrest s' Hin) as [Hns (ref' & ? & ? & ? & Href & ?)]. split; [set_solver|].
      eexists ref', _, _, _. split; [by right|done].
Qed.

Lemma packageDigest_ne fs path source resources d :
  (∀ x, sha256_hex x ≠ "") → packageDigest fs path source resources = Some d → d ≠ "".
Proof. intros Hh. unfold packageDigest. destruct (read_resources _ _ _); [|done]. by intros [= <-]. Qed.

(** An activated skill's record is the ready one it was resolved to, found in a trusted root. *)
Lemma activated_found fs0 fs roots c req s :
  (∀ x, sha256_hex x ≠ "") → Discover fs0 roots = Ok c → activated fs c req s →
  ready (record s) ∧ permitted (req_Gate req) (Reqs (e_Manifest (entry (record s)))) ∧
  ∃ root r0, root ∈ roots ∧ Enabled root = true ∧ root_Trusted root = true ∧ found_in fs0 root r0 ∧
    e_Ref (entry r0) = a_Ref (skill s) ∧ skillPath r0 = skillPath (record s) ∧
    e_Manifest (entry (record s)) = cloneManifest (e_Manifest (entry r0)).
Proof.
  intros Hh Hc (ref & r & source & manifest & _ & _ & _ & Hr & Hready & Ht & Hp & Href & Hrec & Hrref & Hv & _).
  apply verifyRecord_spec in Hv as (_ & _ & Hd). apply (packageDigest_ne _ _ _ _ _ Hh) in Hd.
  assert (record s = r) as Heq by (eapply Discover_unique; [done..|congruence|done]).
  rewrite Heq in *. split_and!; [done..|].
  destruct (Discover_found _ _ _ _ Hc Hr) as [[Hdg _]|(root & r0 & ? & ? & Htr & Hf & E1 & E2 & E3)]; [done|].
  exists root, r0. split_and!; congruence || done.
Qed.

Lemma elem_of_activation fs c req a s : Activate fs (Some c) req = Ok a → s ∈ a → activated fs c req s.
Proof.
  unfold Activate. destruct (activate_all _ _ _ _ _) as [l|] eqn:Hl; simpl; [|done]. intros [= <-].
  rewrite elem_of_sort_slice. intros Hs. destruct req. by apply (activate_all_spec _ _ _ _ _ _ Hl).
Qed.


(** * Resources *)

Lemma canonicalDirectory_abs fs dir p : canonical_fs fs → canonicalDirectory fs dir = Some p → ∃ es, Forall plain es ∧ p = abs_path es.
Proof.
  intros Hfs. unfold canonicalDirectory. destruct (fs_Abs fs dir) as [q|]; [|done].
  destruct (fs_EvalSymlinks fs q) as [c|] eqn:El; [|done]. destruct (fs_Stat fs c) as [[]|]; try done. intros [= <-]. by eapply Hfs.
Qed.

Lemma activation_record_spec a ref r : activation_record a ref = Ok r → r ∈ a ∧ a_Ref (skill r) = ref.
Proof.
  unfold activation_record. case_decide; [done|]. destruct (List.find _ a) as [r0|] eqn:Ef; [|done]. intros [= <-].
  apply List.find_some in Ef as [Hin Hb]. apply list_elem_of_In in Hin. by apply bool_decide_eq_true in Hb.
Qed.

Section url.
Context (url_String : URL → string) (url_Parse : string → option URL).

Lemma ReadResource_spec fs fs' a uri content :
  ReadResource url_Parse fs fs' a uri = Ok content →
  ∃ s resource v, s ∈ a ∧ validResourcePath resource = true ∧ resource ∈ Resources (e_Manifest (entry (record s))) ∧
    verifyRecord fs (record s) = Ok v ∧ readContainedFile fs' (skillPath (record s)) resource = Content content ∧
    String.length content ≤ maxResourceBytes.
Proof.
  unfold ReadResource. destruct (url_Parse uri) as [u|]; [|done]. destruct (User u) as [[name password]|]; [|done].
  case_decide; [done|]. case_decide; [done|]. destruct (_ || _) eqn:Ev; [done|]. apply orb_false_iff in Ev as [_ Hv].
  destruct (activation_record a _) as [s|] eqn:Hs; simpl; [|done]. destruct (contains _ _) eqn:Hc; simpl; [|done].
  destruct (verifyRecord fs (record s)) as [v|] eqn:Hver; simpl; [|done].
  destruct (readContainedFile fs' _ _) as [| |c] eqn:Hr; [done..|]. case_decide as Hlen; [done|]. intros [= <-].
  apply activation_record_spec in Hs as [Hs _]. apply contains_elem in Hc. apply negb_false_iff in Hv.
  eexists s, _, v. split_and!; try done. lia.
Qed.

(** C31: Whatever links and paths the file system holds, a resource read returns the content of a regular
file below the directory of an activated skill, at a relative path without [.] or [..] that the skill's
manifest lists, of at most 1 MiB, and only when the package checked just before still has the
digest of the catalog. *)
Theorem resource_contained fs0 fs fs1 fs2 roots c req a uri content :
  (∀ x, sha256_hex x ≠ "") → canonical_fs fs0 → canonical_fs fs2 →
  Discover fs0 roots = Ok c → Activate fs (Some c) req = Ok a → ReadResource url_Parse fs1 fs2 a uri = Ok content →
  ∃ s es source manifest p,
    s ∈ a ∧ es ≠ [] ∧ Forall plain es ∧ join slash es ∈ Resources (e_Manifest (entry (record s))) ∧
    fs_EvalSymlinks fs2 (Join (skillPath (record s)) (join slash es)) = Ok p ∧ below (skillPath (record s)) p ∧
    fs_Stat fs2 p = Some KRegular ∧ fs_ReadFile fs2 p = Some content ∧ String.length content ≤ maxResourceBytes ∧
    readContainedFile fs1 (skillPath (record s)) "SKILL.md" = Content source ∧
    packageDigest fs1 (skillPath (record s)) source (Resources manifest) = Some (Digest (a_Ref (skill s))).
Proof.
  intros Hh H0 H2 Hc Ha (s & resource & [source manifest] & Hs & Hv & Hin & Hver & Hr & Hlen)%ReadResource_spec.
  pose proof (elem_of_activation _ _ _ _ _ Ha Hs) as Hact.
  destruct (activated_found _ _ _ _ _ _ Hh Hc Hact) as (_ & _ & root & r0 & _ & _ & _ & Hf & _ & E2 & _).
  destruct Hf as (dir & _ & _ & _ & _ & Hcan & _). apply (canonicalDirectory_abs _ _ _ H0) in Hcan as (ds & Hds & Hsp).
  rewrite E2 in Hsp. destruct (validResourcePath_plain _ Hv) as (es & Hne & Hes & ->).
  pose proof Hr as Hr'. rewrite Hsp in Hr'. destruct (readContainedFile_below _ _ _ _ H2 Hds Hr') as (p & Hl & Hb & Hst & Hrd).
  apply verifyRecord_spec in Hver as (Hsrc & _ & Hd).
  assert (e_Ref (entry (record s)) = a_Ref (skill s)) as Href by (destruct Hact as (? & ? & ? & ? & Hx); tauto).
  rewrite Href in Hd. exists s, es, source, manifest, p. rewrite Hsp in *. split_and!; done.
Qed.

(** A resource reference is read as that resource of that skill: for a URL syntax that parses what it
prints, reading the URI of an allowlisted resource checks the package and returns the file,
refusing it only when the package changed, the file is gone, or it is too large. *)
Theorem resource_uri_roundtrip a ref resource uri fs fs' :
  (∀ name digest path, url_Parse (url_String (mkURL "skill" (Some (name, None)) digest ("/" +:+ path) "" "" "")) =
     Some (mkURL "skill" (Some (name, None)) digest ("/" +:+ path) "" "" "")) →
  ResourceURI url_String a ref resource = Ok uri →
  ∃ s, s ∈ a ∧ a_Ref (skill s) = ref ∧
    ReadResource url_Parse fs fs' a uri =
    let? _ := verifyRecord fs (record s) in
    match readContainedFile fs' (skillPath (record s)) resource with
    | Content content => if decide (maxResourceBytes < String.length content) then Err (ErrInvalidSkillResource "") else Ok content
    | _ => Err (ErrSkillDigestMismatch (a_Name (skill s)))
    end.
Proof.
  intros Hurl. unfold ResourceURI. destruct (activation_record a ref) as [s|] eqn:Hs; simpl; [|done].
  destruct (_ || _) eqn:Ev; [done|]. intros [= <-]. apply orb_false_iff in Ev as [Hv Hc].
  destruct (activation_record_spec _ _ _ Hs) as [Hin Href]. exists s. split_and!; [done..|].
  unfold ReadResource. rewrite Hurl. cbn [User Scheme Host RawQuery Fragment RawPath Path].
  assert (ref_Name ref ≠ "" ∧ Digest ref ≠ "") as [Hn Hd].
  { unfold activation_record in Hs. case_decide as Hz; [done|]. naive_solver. }
  rewrite decide_False by (rewrite Href; naive_solver). rewrite decide_False by (by intros []).
  assert (TrimPrefix ("/" +:+ resource) "/" = resource) as -> by (unfold TrimPrefix; by destruct resource).
  change (HasPrefix ("/" +:+ resource) "/") with true. rewrite Hv. cbn [negb orb].
  rewrite Href. destruct ref as [rn rd]. cbn [ref_Name Digest]. rewrite Hs. cbn [res_bind]. rewrite Hc. done.
Qed.
End url.

(** * What a digest identifies *)

(** Two packages with the same digest. In the first the instructions hold a zero byte, the text [SKILL.md]
and a zero byte between [x] and [y]; in the second that separator and [x] are at the end of a
resource that sorts before [SKILL.md], and the instructions are [y]. *)
Definition separator : string := String nul ("SKILL.md" +:+ String nul "").

Lemma package_files_before source resource content :
  str_lt resource "SKILL.md" → package_files source [(resource, content)] = [(resource, content); ("SKILL.md", source)].
Proof.
  intros Hlt. unfold package_files. cbn [sort_slice foldr insert_sorted].
  rewrite decide_True by (unfold key_less; exact Hlt). done.
Qed.

(** A package can be replaced by a different one with the same reference: whatever the hash, when a record
verifies against the first package it verifies against the second, and activation then loads the second's
instructions. *)
Theorem swapped_package_verifies fs fs' r resource content x y manifest manifest' :
  str_lt resource "SKILL.md" → Resources manifest = [resource] → Resources manifest' = [resource] →
  readContainedFile fs (skillPath r) resource = Content content →
  readContainedFile fs' (skillPath r) resource = Content (content +:+ separator +:+ x) →
  readContainedFile fs' (skillPath r) "SKILL.md" = Content y →
  ParseManifest (ref_Name (e_Ref (entry r))) y = Ok manifest' →
  verifyRecord fs r = Ok (x +:+ separator +:+ y, manifest) → verifyRecord fs' r = Ok (y, manifest').
Proof.
  intros Hlt Hm Hm' Hc Hc' Hy Hp (_ & _ & Hd)%verifyRecord_spec. unfold verifyRecord. rewrite Hy, Hp.
  unfold packageDigest in *. rewrite Hm in Hd. rewrite Hm'. cbn [read_resources] in *. rewrite Hc in Hd. rewrite Hc'.
  rewrite package_files_before in Hd |- * by done. injection Hd as <-. rewrite decide_True; [done|]. f_equal.
  unfold separator. cbn [String.append]. symmetry. apply frame_moves.
Qed.

End env.

(** * Witnesses *)

(** A disk: a root [/r] with one skill [s]. *)
Definition disk (files : list (string * string)) : FS :=
  mkFS Some
    (λ p, if decide (p ∈ "/r" :: "/r/s" :: files.*1) then Ok p else Err true)
    (λ p, if decide (p ∈ ["/r"; "/r/s"]) then Some KDir else if decide (p ∈ files.*1) then Some KRegular else None)
    (λ p, (list_to_map files : gmap string string) !! p)
    (λ p, if decide (p = "/r") then Some [("s", true)] else None).

Definition nl (s : string) : string := String newline s.
Definition sample_md (body : string) : string := "---" +:+ nl ("name: s" +:+ nl ("---" +:+ nl body)).

(** A YAML decoder for the sample manifest, and a hash without collisions. *)
#[local] Instance sample_env : Env := {
  yaml_Unmarshal text := if decide (text = "name: s") then
      Some (mkDocument "s" "a sample" "" (Some [("goagents", YMap [("requires", YMap [("tools", YMap [("required", YList [YString "t"])])]);
        ("resources", YMap [("allow", YList [YString "A.txt"])])])]))
    else None;
  sha256_hex text := "h" +:+ text;
  quote text := text
}.

Definition sample_roots : list Root := [mkRoot "w" "/r" ScopeWorkspace true true].
Definition sample_request : ActivationRequest := mkRequest [mkRef "s" ""] (mkGate "linux" ∅ {[ "t" := true ]}).

Definition first_disk : FS :=
  disk [("/r/s/SKILL.md", sample_md "reviewed" +:+ separator +:+ sample_md "other"); ("/r/s/A.txt", "a")].
Definition second_disk : FS :=
  disk [("/r/s/SKILL.md", sample_md "other"); ("/r/s/A.txt", "a" +:+ separator +:+ sample_md "reviewed")].

Definition or_nil {A} (r : result (list A)) : list A := match r with Ok l => l | Err _ => [] end.
Definition sample_catalog : Catalog := or_nil (Discover first_disk sample_roots).
Definition sample_activation : Activation := or_nil (Activate first_disk (Some sample_catalog) sample_request).

Lemma sample_discovered : Discover first_disk sample_roots = Ok sample_catalog ∧ length sample_catalog = 1.
Proof. split; vm_compute; reflexivity. Qed.
Lemma sample_activated :
  Activate first_disk (Some sample_catalog) sample_request = Ok sample_activation ∧ length sample_activation = 1.
Proof. split; vm_compute; reflexivity. Qed.


(** A URL syntax for the sample. *)
Definition sample_parse (uri : string) : option URL :=
  match sample_activation with
  | s :: _ => Some (mkURL "skill" (Some ("s", None)) (Digest (a_Ref (skill s))) "/A.txt" "" "" "")
  | [] => None
  end.

Lemma disk_canonical files :
  (∀ p, p ∈ files.*1 → ∃ es, Forall plain es ∧ p = abs_path es) → canonical_fs (disk files).
Proof.
  intros H p q. simpl. case_decide as Hp; [|done]. intros [= <-].
  apply elem_of_cons in Hp as [->|[->|Hp]%elem_of_cons]; [exists ["r"]|exists ["r"; "s"]|by apply H];
    (split; [|done]); repeat constructor; done.
Qed.

Lemma plain_check es : forallb (λ e, bool_decide (ordinary e) && negb (contains_byte slash e)) es = true → Forall plain es.
Proof.
  rewrite forallb_forall, Forall_forall. intros H e He%list_elem_of_In. specialize (H e He).
  apply andb_true_iff in H as [H1%bool_decide_eq_true H2%negb_true_iff]. done.
Qed.

Lemma sample_canonical md txt : canonical_fs (disk [("/r/s/SKILL.md", md); ("/r/s/A.txt", txt)]).
Proof.
  apply disk_canonical. intros p; simpl. intros [->|[->|[]%elem_of_nil]%elem_of_cons]%elem_of_cons;
    [exists ["r"; "s"; "SKILL.md"]|exists ["r"; "s"; "A.txt"]]; (split; [by apply plain_check|done]).
Qed.

Lemma resource_contained_witness :
  ∃ s p, s ∈ sample_activation ∧ below (skillPath (record s)) p ∧ fs_ReadFile first_disk p = Some "a".
Proof.
  destruct (resource_contained sample_parse first_disk first_disk first_disk first_disk sample_roots sample_catalog
    sample_request sample_activation "uri" "a") as (s & es & source & manifest & p & Hs & _ & _ & _ & _ & Hb & _ & Hr & _);
    [done|apply sample_canonical..|apply sample_discovered|apply sample_activated|vm_compute; reflexivity|].
  by exists s, p.
Defined.

Definition parsed (source : string) : Manifest :=
  match ParseManifest "s" source with Ok m => m | Err _ => zeroManifest end.
Definition second_activation : Activation := or_nil (Activate second_disk (Some sample_catalog) sample_request).
Definition sample_record : catalogRecord :=
  match sample_activation with s :: _ => record s | [] => mkRecord (entry (invalidRecord (mkRoot "" "" ScopeUser false false) "")) "" end.

(** The record of the sample skill verifies against both disks, and activation loads different
instructions under one reference. *)
Lemma swapped_package_verifies_witness :
  verifyRecord second_disk sample_record = Ok (sample_md "other", parsed (sample_md "other")) ∧
  a_Ref <$> Skills second_activation = a_Ref <$> Skills sample_activation ∧
  bool_decide (a_Content <$> Skills second_activation = a_Content <$> Skills sample_activation) = false.
Proof.
  split; [|split; vm_compute; reflexivity].
  apply (swapped_package_verifies first_disk second_disk sample_record "A.txt" "a" (sample_md "reviewed") (sample_md "other")
    (parsed (sample_md "reviewed" +:+ separator +:+ sample_md "other")) (parsed (sample_md "other")));
    vm_compute; reflexivity.
Defined.

(** The resource is read again after the package was checked: a change in between is returned, although the
package no longer verifies. *)
Example resource_race :
  let changed := disk [("/r/s/SKILL.md", sample_md "reviewed" +:+ separator +:+ sample_md "other"); ("/r/s/A.txt", "changed")] in
  ReadResource sample_parse first_disk changed sample_activation "uri" = Ok "changed" ∧
  verifyRecord changed sample_record = Err (ErrSkillDigestMismatch "s").
Proof. split; vm_compute; reflexivity. Qed.

End SkillSafety.
