(* ===== verification/ApprovalAdapter.v ===== *)
(** The adapter between paused agent runs and the checkpoint store:
[src/runkit/goagentapproval/adapter.go] over [MemoryCheckpointStore].

Other clients use the same store: before each store call of the adapter they may
run any operations, [others] of the tick. The cipher and the agent are the
host's; [encoding/json] of a checkpoint and of a string are parameters. *)

From Stdlib Require Import Strings.Byte.
From S2P Require Import Prelude RunCheckpoint AgentTools AgentCore.

Module Adapter.

(** * Data *)

Abbreviation bytes := (list byte).

Inductive Error :=
| ErrInvalidPendingCheckpoint
| ErrInvalidNextCheckpoint
| ErrCheckpointEncrypt
| ErrCheckpointDecrypt (text : string)
| ErrCheckpointDecode
| ErrNextCheckpointPersist (cause : option Error)
| ErrLeaseCompletion (cause : Checkpoint.Error)
| ErrResumeResultMissing
| ErrStore (e : Checkpoint.Error)
| ErrAgent (e : AgentTools.Error).

Record PendingCheckpoint := mkPending {
  pc_ID : string;
  pc_Tenant : string;
  pc_DefinitionHash : string;
  pc_ExpiresAt : Time;
  pc_Checkpoint : RunCheckpoint
}.

Record NextCheckpoint := mkNext { nx_ID : string; nx_ExpiresAt : Time }.

Record ResumeRequest := mkResume {
  rq_Approval : Checkpoint.ApprovalLeaseRequest;
  rq_Resolutions : list ToolApprovalResolution;
  rq_Next : NextCheckpoint
}.

(** The store, the tick, and the checkpoints handed to the agent, each with the ID
it was stored under. *)
Record World := mkAdapterWorld {
  aw_store : Checkpoint.Store;
  aw_tick : nat;
  aw_resumed : list (string * RunCheckpoint)
}.

Section adapter.
Context (others : nat → list (Ctx * Time * Checkpoint.op)).
Context (ctx : nat → Ctx) (clock : nat → Time).
Context (json_string : string → string).
Context (marshal : RunCheckpoint → option bytes) (unmarshal : bytes → option RunCheckpoint).
Context (Encrypt Decrypt : nat → bytes → bytes → res string bytes).
Context (ResumeDetailed : nat → RunCheckpoint → list ToolApprovalResolution →
  option RunResult * option AgentTools.Error).

(** A call to the store, after what other clients did. *)
Definition store_call {A} (f : Ctx → Time → Checkpoint.Store → Checkpoint.Store * A) (w : World)
    : World * A :=
  let t := aw_tick w in
  let '(s, a) := f (ctx t) (clock t) (Checkpoint.history (aw_store w) (others t)).1 in
  (mkAdapterWorld s (S t) (aw_resumed w), a).

(** A call to the host at the current tick. *)
Definition host_call {A} (f : nat → A) (w : World) : World * A :=
  (mkAdapterWorld (aw_store w) (S (aw_tick w)) (aw_resumed w), f (aw_tick w)).

Definition checkpointAAD (checkpointID runID tenantID definitionHash : string) : bytes :=
  let dq := String "034" "" in
  let field name value := dq +:+ name +:+ dq +:+ ":" +:+ json_string value in
  String.list_byte_of_string ("{" +:+ strings_Join
    [field "checkpoint_id" checkpointID; field "run_id" runID; field "tenant_id" tenantID;
     field "definition_hash" definitionHash] "," +:+ "}").

Definition validatePending (p : PendingCheckpoint) : option Error :=
  if decide (Blank (pc_ID p) ∨ Blank (pc_Tenant p) ∨ Blank (pc_DefinitionHash p) ∨
             IsZero (pc_ExpiresAt p) ∨ Blank (ck_RunID (pc_Checkpoint p)) ∨
             length (ck_PendingCalls (pc_Checkpoint p)) = 0)
  then Some ErrInvalidPendingCheckpoint else None.

(** [time.Now()] is read at the current tick. *)
Definition validateNextCheckpoint (now : Time) (next : NextCheckpoint)
    (approval : Checkpoint.ApprovalLeaseRequest) : option Error :=
  if decide (Blank (nx_ID next) ∨ IsZero (nx_ExpiresAt next) ∨
             nx_ID next = Checkpoint.lr_CheckpointID approval)
  then Some ErrInvalidNextCheckpoint
  else
    let now := if decide (IsZero (Checkpoint.lr_Now approval)) then now
               else Checkpoint.lr_Now approval in
    if decide (¬ After (nx_ExpiresAt next) now) then Some ErrInvalidNextCheckpoint else None.

(** The row [SavePending] creates. *)
Definition pending_row (p : PendingCheckpoint) (ciphertext : bytes) : Checkpoint.ApprovalCheckpoint :=
  Checkpoint.mkCheckpoint (pc_ID p) (ck_RunID (pc_Checkpoint p)) (pc_Tenant p)
    (pc_DefinitionHash p) ciphertext "" "" "" 0 (pc_ExpiresAt p) None 0 0.

Definition SavePending (w : World) (p : PendingCheckpoint) : World * option Error :=
  match validatePending p with
  | Some e => (w, Some e)
  | None =>
      match marshal (pc_Checkpoint p) with
      | None => (w, Some ErrInvalidPendingCheckpoint)
      | Some payload =>
          let aad := checkpointAAD (pc_ID p) (ck_RunID (pc_Checkpoint p)) (pc_Tenant p)
                       (pc_DefinitionHash p) in
          match host_call (λ t, Encrypt t payload aad) w with
          | (w, Err _) => (w, Some ErrCheckpointEncrypt)
          | (w, Ok ciphertext) =>
              if decide (length ciphertext = 0) then (w, Some ErrCheckpointEncrypt)
              else
                let '(w, e) := store_call (λ c t s,
                  Checkpoint.CreateCheckpoint c t s (pending_row p ciphertext)) w in
                (w, ErrStore <$> e)
          end
      end
  end.

Definition Reject (w : World) (r : Checkpoint.ApprovalLeaseRequest) : World * option Error :=
  let '(w, e) := store_call (λ c t s, Checkpoint.RejectCheckpoint c t s r) w in
  (w, ErrStore <$> e).

Definition decryptCheckpoint (w : World) (c : Checkpoint.ApprovalCheckpoint)
    : World * res Error RunCheckpoint :=
  let aad := checkpointAAD (Checkpoint.ID c) (Checkpoint.RunID c) (Checkpoint.TenantID c)
               (Checkpoint.DefinitionHash c) in
  match host_call (λ t, Decrypt t (Checkpoint.Ciphertext c) aad) w with
  | (w, Err text) => (w, Err (ErrCheckpointDecrypt text))
  | (w, Ok payload) =>
      match unmarshal payload with
      | None => (w, Err ErrCheckpointDecode)
      | Some checkpoint => (w, Ok checkpoint)
      end
  end.

Definition completion (c : Checkpoint.ApprovalCheckpoint) (r : Checkpoint.ApprovalLeaseRequest)
    (failureCode : string) : Checkpoint.CheckpointLeaseCompletion :=
  Checkpoint.mkCompletion (Checkpoint.ID c) (Checkpoint.TenantID c) (Checkpoint.lr_LeaseOwner r)
    failureCode (Checkpoint.lr_Now r).

Definition completeLease (w : World) (c : Checkpoint.ApprovalCheckpoint)
    (r : Checkpoint.ApprovalLeaseRequest) : World * option Error :=
  let '(w, e) := store_call (λ cx t s, Checkpoint.CompleteLease cx t s (completion c r "")) w in
  (w, ErrLeaseCompletion <$> e).

Definition failLease (w : World) (c : Checkpoint.ApprovalCheckpoint)
    (r : Checkpoint.ApprovalLeaseRequest) (failureCode : string) (result : option RunResult)
    (cause : Error) : World * (option RunResult * option Error) :=
  match store_call (λ cx t s, Checkpoint.FailLease cx t s (completion c r failureCode)) w with
  | (w, Some e) => (w, (result, Some (ErrLeaseCompletion e)))
  | (w, None) => (w, (result, Some cause))
  end.

(** [errors.Is(resumeErr, agentcore.ErrApprovalPending)]. *)
Definition isApprovalPending (e : option AgentTools.Error) : bool :=
  match e with
  | None => false
  | Some e => error_is (λ e, match e with ErrApprovalPending => true | _ => false end) e
  end.

(** The call of [ResumeDetailed], recorded. *)
Definition resume_call (id : string) (checkpoint : RunCheckpoint)
    (resolutions : list ToolApprovalResolution) (w : World)
    : World * (option RunResult * option AgentTools.Error) :=
  (mkAdapterWorld (aw_store w) (S (aw_tick w)) (aw_resumed w ++ [(id, checkpoint)]),
   ResumeDetailed (aw_tick w) checkpoint resolutions).

(** Closes the lease of a run that ended as expected. *)
Definition close_lease (w : World) (req : ResumeRequest) (leased : Checkpoint.ApprovalCheckpoint)
    (result : option RunResult) (err : option Error) : World * (option RunResult * option Error) :=
  match completeLease w leased (rq_Approval req) with
  | (w, Some e) => (w, (result, Some e))
  | (w, None) => (w, (result, err))
  end.

(** A run that paused again: its next checkpoint. *)
Definition persist_next (w : World) (req : ResumeRequest) (leased : Checkpoint.ApprovalCheckpoint)
    (result : option RunResult) (resumeErr : option AgentTools.Error)
    : World * (option RunResult * option Error) :=
  match result ≫= rr_Interruption with
  | None => failLease w leased (rq_Approval req) "resume_interruption_missing" result
              (ErrNextCheckpointPersist None)
  | Some checkpoint =>
      match SavePending w (mkPending (nx_ID (rq_Next req)) (Checkpoint.TenantID leased)
              (Checkpoint.DefinitionHash leased) (nx_ExpiresAt (rq_Next req)) checkpoint) with
      | (w, Some e) => failLease w leased (rq_Approval req) "next_checkpoint_persist_failed" result
                         (ErrNextCheckpointPersist (Some e))
      | (w, None) => close_lease w req leased result (ErrAgent <$> resumeErr)
      end
  end.

(** [result == nil && resumeErr == nil]. *)
Definition nothing_returned (result : option RunResult) (resumeErr : option AgentTools.Error) : bool :=
  match result, resumeErr with None, None => true | _, _ => false end.

(** What follows the return of the resumed run. *)
Definition after_resume (w : World) (req : ResumeRequest) (leased : Checkpoint.ApprovalCheckpoint)
    (result : option RunResult) (resumeErr : option AgentTools.Error)
    : World * (option RunResult * option Error) :=
  if nothing_returned result resumeErr
  then failLease w leased (rq_Approval req) "resume_result_missing" None ErrResumeResultMissing
  else if isApprovalPending resumeErr then persist_next w req leased result resumeErr
  else match resumeErr with
  | Some e => failLease w leased (rq_Approval req) "agent_resume_failed" result (ErrAgent e)
  | None => close_lease w req leased result None
  end.

Definition ApproveAndResume (w : World) (req : ResumeRequest)
    : World * (option RunResult * option Error) :=
  let approval := rq_Approval req in
  match validateNextCheckpoint (clock (aw_tick w)) (rq_Next req) approval with
  | Some e => (w, (None, Some e))
  | None =>
      match store_call (λ c t s, Checkpoint.ApproveAndLease c t s approval) w with
      | (w, Err e) => (w, (None, Some (ErrStore e)))
      | (w, Ok leased) =>
          match decryptCheckpoint w leased with
          | (w, Err e) => failLease w leased approval "checkpoint_decode_failed" None e
          | (w, Ok checkpoint) =>
              let '(w, (result, resumeErr)) :=
                resume_call (Checkpoint.ID leased) checkpoint (rq_Resolutions req) w in
              after_resume w req leased result resumeErr
          end
      end
  end.

(** Any sequence of calls to the adapter. *)
Inductive Request :=
| DoSave (p : PendingCheckpoint)
| DoReject (r : Checkpoint.ApprovalLeaseRequest)
| DoResume (r : ResumeRequest).
Definition serve (w : World) (r : Request) : World :=
  match r with
  | DoSave p => (SavePending w p).1
  | DoReject r => (Reject w r).1
  | DoResume r => (ApproveAndResume w r).1
  end.
Definition serve_all : World → list Request → World := foldl serve.

End adapter.

(** * How the store evolves *)

Import Checkpoint (wf, store_rel, later, leases_left).

Abbreviation evolves := (rtc store_rel).

Lemma evolves_wf s s' : wf s → evolves s s' → wf s'.
Proof.
  intros Hwf. induction 1 as [|s s1 s' Hr _ IH]; [done|].
  apply IH. by eapply Checkpoint.store_rel_wf.
Qed.

Lemma evolves_left s s' id : evolves s s' → leases_left s' id ≤ leases_left s id.
Proof.
  induction 1 as [|s s1 s' Hr _ IH]; [done|].
  pose proof (Checkpoint.leases_left_rel _ _ id Hr). lia.
Qed.

Lemma evolves_later s s' id c :
  evolves s s' → s !! id = Some c → ∃ c', s' !! id = Some c' ∧ later c c'.
Proof.
  intros He Hl. revert s' He. apply rtc_ind_r.
  - exists c. split; [done|]. by split_and!; [..|constructor|].
  - intros s1 s2 _ Hr (c1 & Hc1 & Hlater). specialize (Hr id). rewrite Hc1 in Hr.
    destruct (s2 !! id) as [c2|]; [|done]. exists c2. split; [done|].
    by eapply Checkpoint.later_advances.
Qed.

Lemma history_evolves s ops : wf s → evolves s (Checkpoint.history s ops).1.
Proof.
  revert s. induction ops as [|[[cx t] o] ops IH]; intros s Hwf; [constructor|]. simpl.
  pose proof (Checkpoint.exec_rel cx t s o Hwf) as Hr.
  destruct (Checkpoint.exec cx t s o) as [s1 lease]. simpl in Hr.
  pose proof (IH s1 (Checkpoint.store_rel_wf _ _ Hwf Hr)) as H.
  destruct (Checkpoint.history s1 ops) as [s2 leases]. by eapply rtc_l.
Qed.

(** Closing a lease. *)
Lemma finishLease_done cx t s r status s' :
  wf s → Checkpoint.finishLease cx t s r status = (s', None) →
  ∃ c, s' !! Checkpoint.lc_CheckpointID r = Some c ∧ Checkpoint.CkStatus c = status ∧
    Checkpoint.Ciphertext c = [].
Proof.
  intros Hwf. unfold Checkpoint.finishLease. destruct cx; [done|].
  do 2 (case_decide; [done|]).
  destruct (s !! Checkpoint.lc_CheckpointID r) as [c|] eqn:Hl; [|done].
  do 2 (case_decide; [done|]). cbv zeta. rewrite Checkpoint.clone_id. intros [= <-].
  simpl. rewrite (map_Forall_lookup_1 _ _ _ _ Hwf Hl), lookup_insert_eq. by eexists.
Qed.

Section proofs.
Context (others : nat → list (Ctx * Time * Checkpoint.op)).
Context (ctx : nat → Ctx) (clock : nat → Time).
Context (json_string : string → string).
Context (marshal : RunCheckpoint → option bytes) (unmarshal : bytes → option RunCheckpoint).
Context (Encrypt Decrypt : nat → bytes → bytes → res string bytes).
Context (ResumeDetailed : nat → RunCheckpoint → list ToolApprovalResolution →
  option RunResult * option AgentTools.Error).

Abbreviation store_call := (store_call others ctx clock).
Abbreviation save := (SavePending others ctx clock json_string marshal Encrypt).
Abbreviation complete := (completeLease others ctx clock).
Abbreviation fail_lease := (failLease others ctx clock).
Abbreviation after := (after_resume others ctx clock json_string marshal Encrypt).
Abbreviation decrypt := (decryptCheckpoint json_string unmarshal Decrypt).
Abbreviation approve := (ApproveAndResume others ctx clock json_string marshal unmarshal Encrypt
  Decrypt ResumeDetailed).
Abbreviation serve_reqs := (serve_all others ctx clock json_string marshal unmarshal Encrypt Decrypt
  ResumeDetailed).

(** Steps that resume nothing. *)
Definition quiet (w w' : World) : Prop :=
  evolves (aw_store w) (aw_store w') ∧ aw_resumed w' = aw_resumed w.

Lemma quiet_refl w : quiet w w.
Proof. by split; [constructor|]. Qed.
Lemma quiet_trans w1 w2 w3 : quiet w1 w2 → quiet w2 w3 → quiet w1 w3.
Proof. intros [H1 E1] [H2 E2]. split; [by etrans|congruence]. Qed.
Lemma quiet_wf w w' : wf (aw_store w) → quiet w w' → wf (aw_store w').
Proof. intros Hwf [He _]. by eapply evolves_wf. Qed.

Lemma store_call_spec {A} (f : Ctx → Time → Checkpoint.Store → Checkpoint.Store * A) w :
  (∀ c t s, wf s → store_rel s (f c t s).1) → wf (aw_store w) →
  ∃ s, wf s ∧ evolves (aw_store w) s ∧ quiet w (store_call f w).1 ∧
    f (ctx (aw_tick w)) (clock (aw_tick w)) s =
      (aw_store (store_call f w).1, (store_call f w).2).
Proof.
  intros Hf Hwf. unfold Adapter.store_call.
  set (s := (Checkpoint.history (aw_store w) (others (aw_tick w))).1).
  assert (evolves (aw_store w) s) as He by by apply history_evolves.
  assert (wf s) as Hs by by eapply evolves_wf.
  specialize (Hf (ctx (aw_tick w)) (clock (aw_tick w)) s Hs).
  exists s. destruct (f _ _ s) as [s' a]. simpl in *.
  split_and!; [done|done| |done]. split; [|done]. simpl. by eapply rtc_r.
Qed.

Lemma CreateCheckpoint_stored cx t s c s' :
  Checkpoint.CreateCheckpoint cx t s c = (s', None) →
  ∃ c', s' !! Checkpoint.ID c = Some c' ∧ Checkpoint.ID c' = Checkpoint.ID c ∧
    Checkpoint.RunID c' = Checkpoint.RunID c ∧ Checkpoint.TenantID c' = Checkpoint.TenantID c ∧
    Checkpoint.DefinitionHash c' = Checkpoint.DefinitionHash c ∧
    Checkpoint.Ciphertext c' = Checkpoint.Ciphertext c ∧
    Checkpoint.ExpiresAt c' = Checkpoint.ExpiresAt c ∧
    Checkpoint.CkStatus c' = Checkpoint.CheckpointPending.
Proof.
  unfold Checkpoint.CreateCheckpoint. destruct cx; [done|].
  destruct (Checkpoint.validateCheckpoint c); [done|]. cbv zeta.
  destruct (decide (IsZero (Checkpoint.CreatedAt c))); simpl;
    (destruct (s !! Checkpoint.ID c); [done|]); rewrite Checkpoint.clone_id; intros [= <-];
    rewrite lookup_insert_eq; by eexists.
Qed.

Lemma SavePending_quiet w p : wf (aw_store w) → quiet w (save w p).1.
Proof.
  intros Hwf. unfold SavePending, host_call. destruct (validatePending p); [apply quiet_refl|].
  destruct (marshal (pc_Checkpoint p)) as [payload|]; [|apply quiet_refl]. cbv zeta.
  destruct (Encrypt _ _ _) as [ciphertext|]; [|by split; [constructor|]].
  case_decide; [by split; [constructor|]|].
  match goal with |- context [store_call ?f ?w0] =>
    destruct (store_call_spec f w0) as (s & _ & _ & Hq & _);
      [intros; apply Checkpoint.Create_rel|done|]; destruct (store_call f w0) as [w1 e] end.
  exact Hq.
Qed.

(** A saved checkpoint is in the store, under its ID and with its identity. *)
Lemma SavePending_stored w p w' :
  wf (aw_store w) → save w p = (w', None) →
  ∃ c payload, marshal (pc_Checkpoint p) = Some payload ∧
    aw_store w' !! pc_ID p = Some c ∧ Checkpoint.ID c = pc_ID p ∧
    Checkpoint.RunID c = ck_RunID (pc_Checkpoint p) ∧ Checkpoint.TenantID c = pc_Tenant p ∧
    Checkpoint.DefinitionHash c = pc_DefinitionHash p ∧ Checkpoint.ExpiresAt c = pc_ExpiresAt p ∧
    Checkpoint.CkStatus c = Checkpoint.CheckpointPending ∧
    Encrypt (aw_tick w) payload (checkpointAAD json_string (pc_ID p) (ck_RunID (pc_Checkpoint p))
      (pc_Tenant p) (pc_DefinitionHash p)) = Ok (Checkpoint.Ciphertext c).
Proof.
  intros Hwf. unfold SavePending, host_call. destruct (validatePending p); [done|].
  destruct (marshal (pc_Checkpoint p)) as [payload|]; [|done]. cbv zeta.
  destruct (Encrypt _ _ _) as [ciphertext|] eqn:Henc; [|done]. case_decide; [done|].
  match goal with |- context [store_call ?f ?w0] =>
    destruct (store_call_spec f w0) as (s & _ & _ & _ & Hf);
      [intros; apply Checkpoint.Create_rel|done|]; destruct (store_call f w0) as [w1 e] end.
  cbn [fst snd] in Hf. destruct e as [e|]; [done|]. intros [= <-].
  destruct (CreateCheckpoint_stored _ _ _ _ _ Hf) as (c & Hl & H1 & H2 & H3 & H4 & H5 & H6 & H7).
  exists c, payload. simpl in *. rewrite H5. by split_and!.
Qed.

Lemma complete_spec w c r w' e :
  wf (aw_store w) → complete w c r = (w', e) →
  quiet w w' ∧
  match e with
  | None => ∃ c', aw_store w' !! Checkpoint.ID c = Some c' ∧
      Checkpoint.CkStatus c' = Checkpoint.CheckpointConsumed ∧ Checkpoint.Ciphertext c' = []
  | Some e => ∃ e0, e = ErrLeaseCompletion e0
  end.
Proof.
  intros Hwf. unfold completeLease.
  match goal with |- context [store_call ?f w] =>
    destruct (store_call_spec f w) as (s & Hs & _ & Hq & Hf);
      [intros; apply Checkpoint.finishLease_rel; auto|done|];
      destruct (store_call f w) as [w1 e1] end.
  cbn [fst snd] in *. intros [= <- <-]. split; [done|]. destruct e1 as [e1|]; simpl; [eauto|].
  exact (finishLease_done _ _ _ _ _ _ Hs Hf).
Qed.

Lemma fail_spec w c r code result cause w' out :
  wf (aw_store w) → fail_lease w c r code result cause = (w', out) →
  quiet w w' ∧ out.1 = result ∧
  (out.2 = Some cause ∧
     (∃ c', aw_store w' !! Checkpoint.ID c = Some c' ∧
        Checkpoint.CkStatus c' = Checkpoint.CheckpointFailed ∧ Checkpoint.Ciphertext c' = []) ∨
   ∃ e, out.2 = Some (ErrLeaseCompletion e)).
Proof.
  intros Hwf. unfold failLease.
  match goal with |- context [store_call ?f w] =>
    destruct (store_call_spec f w) as (s & Hs & _ & Hq & Hf);
      [intros; apply Checkpoint.finishLease_rel; auto|done|];
      destruct (store_call f w) as [w1 [e1|]] end; cbn [fst snd] in *; intros [= <- <-].
  - split_and!; [done..|]. right. by exists e1.
  - split_and!; [done..|]. left. split; [done|].
    exact (finishLease_done _ _ _ _ _ _ Hs Hf).
Qed.

(** The resumed run ended, or paused again. *)
Definition expected_end (err : option Error) : bool :=
  match err with
  | None => true
  | Some (ErrAgent e) => isApprovalPending (Some e)
  | Some _ => false
  end.

Lemma decrypt_quiet w c :
  aw_store (decrypt w c).1 = aw_store w ∧ quiet w (decrypt w c).1 ∧
  ∀ e, (decrypt w c).2 = Err e → expected_end (Some e) = false.
Proof.
  unfold decryptCheckpoint, host_call.
  destruct (Decrypt _ _ _); [destruct (unmarshal _)|]; simpl;
    (split_and!; [done|by split; [constructor|]|]); intros e' [=]; by subst.
Qed.

(** How a lease ends: closing it failed, or the checkpoint is consumed or failed,
and its ciphertext is gone. *)
Definition lease_outcome (s : Checkpoint.Store) (id : string) (err : option Error) : Prop :=
  (∃ e, err = Some (ErrLeaseCompletion e)) ∨
  ∃ c, s !! id = Some c ∧ Checkpoint.Ciphertext c = [] ∧
    Checkpoint.CkStatus c = if expected_end err then Checkpoint.CheckpointConsumed
                            else Checkpoint.CheckpointFailed.

(** The next checkpoint of a run that paused again. *)
Definition next_saved (s : Checkpoint.Store) (req : ResumeRequest)
    (leased : Checkpoint.ApprovalCheckpoint) (result : option RunResult) : Prop :=
  ∃ ck c, result ≫= rr_Interruption = Some ck ∧ s !! nx_ID (rq_Next req) = Some c ∧
    Checkpoint.RunID c = ck_RunID ck ∧ Checkpoint.TenantID c = Checkpoint.TenantID leased ∧
    Checkpoint.DefinitionHash c = Checkpoint.DefinitionHash leased.

Lemma fail_outcome w leased r code result cause w' out :
  wf (aw_store w) → expected_end (Some cause) = false →
  fail_lease w leased r code result cause = (w', out) →
  quiet w w' ∧ out.1 = result ∧ lease_outcome (aw_store w') (Checkpoint.ID leased) out.2 ∧
  (out.2 = Some cause ∨ ∃ e, out.2 = Some (ErrLeaseCompletion e)).
Proof.
  intros Hwf Hc Hf. destruct (fail_spec _ _ _ _ _ _ _ _ Hwf Hf) as (Hq & Hr & Hout).
  split_and!; [done|done|..].
  - destruct Hout as [[-> (c & Hl & Hs & Hct)]|He]; [right|by left].
    exists c. by rewrite Hc.
  - destruct Hout as [[-> _]|He]; eauto.
Qed.

(** The four facts about the end of a lease. *)
Definition ended (w w' : World) (req : ResumeRequest) (leased : Checkpoint.ApprovalCheckpoint)
    (result : option RunResult) (out : option RunResult * option Error) : Prop :=
  quiet w w' ∧ out.1 = result ∧ lease_outcome (aw_store w') (Checkpoint.ID leased) out.2 ∧
  (∀ e, out.2 = Some (ErrAgent e) → isApprovalPending (Some e) = true →
     next_saved (aw_store w') req leased result).

Lemma fail_ended w req leased code result cause w' out :
  wf (aw_store w) → expected_end (Some cause) = false →
  fail_lease w leased (rq_Approval req) code result cause = (w', out) →
  ended w w' req leased result out.
Proof.
  intros Hwf Hc Hf.
  destruct (fail_outcome _ _ _ _ _ _ _ _ Hwf Hc Hf) as (Hq & Hr & Hout & Herr).
  split_and!; [done..|]. intros e He Hp. rewrite He in Herr.
  destruct Herr as [[= <-]|[? [=]]]. unfold expected_end in Hc. congruence.
Qed.

Lemma close_ended w req leased result err w' out :
  wf (aw_store w) → expected_end err = true →
  (∀ e, err = Some (ErrAgent e) → ∀ s, evolves (aw_store w) s → next_saved s req leased result) →
  close_lease others ctx clock w req leased result err = (w', out) →
  ended w w' req leased result out.
Proof.
  intros Hwf He Hnext. unfold close_lease.
  destruct (complete w leased (rq_Approval req)) as [w1 e1] eqn:Hc.
  destruct (complete_spec _ _ _ _ _ Hwf Hc) as [Hq Hout].
  destruct e1 as [e1|]; intros [= <- <-]; (split_and!; [done|done|..]); cbn [fst snd].
  - left. destruct Hout as [e0 ->]. eauto.
  - destruct Hout as [e0 ->]. by intros e [=].
  - right. destruct Hout as (c & Hl & Hs & Hct). exists c. by rewrite He.
  - intros e Heq _. eapply Hnext; [done|apply Hq].
Qed.

Lemma persist_ended w req leased result e w' out :
  wf (aw_store w) → isApprovalPending (Some e) = true →
  persist_next others ctx clock json_string marshal Encrypt w req leased result (Some e) = (w', out) →
  ended w w' req leased result out.
Proof.
  intros Hwf Hp. unfold persist_next.
  destruct (result ≫= rr_Interruption) as [ck|] eqn:Hck; [|by apply fail_ended].
  match goal with |- context [save w ?p] =>
    pose proof (SavePending_quiet w p Hwf) as Hq; destruct (save w p) as [w1 e1] eqn:Hsave end.
  simpl in Hq. pose proof (quiet_wf _ _ Hwf Hq) as Hwf1. intros H.
  assert (ended w1 w' req leased result out) as (Hq' & Hend).
  { destruct e1 as [e1|]; [by eapply fail_ended; [| |exact H]|].
    eapply (close_ended _ _ _ _ (Some (ErrAgent e))); [done|exact Hp| |exact H]. intros _ _ s Hev.
    destruct (SavePending_stored _ _ _ Hwf Hsave) as (c & payload & _ & Hl & _ & H2 & H3 & H4 & _).
    destruct (evolves_later _ _ _ _ Hev Hl) as (c' & Hl' & Hid & _).
    exists ck, c'. destruct Hid as (_ & -> & -> & -> & _). simpl in *. by split_and!. }
  split; [by eapply quiet_trans|done].
Qed.

Lemma after_ended w req leased result rerr w' out :
  wf (aw_store w) → after w req leased result rerr = (w', out) →
  ended w w' req leased result out.
Proof.
  intros Hwf. unfold after_resume. destruct (nothing_returned result rerr) eqn:Hn.
  { destruct result, rerr; try done. by apply fail_ended. }
  destruct rerr as [e|]; [|by apply close_ended].
  destruct (isApprovalPending (Some e)) eqn:Hp; [by apply persist_ended|by apply fail_ended].
Qed.

(** Leasing: the checkpoint could be leased once, and no more. *)
Lemma lease_spec w r w1 leased :
  wf (aw_store w) → store_call (λ c t s, Checkpoint.ApproveAndLease c t s r) w = (w1, Ok leased) →
  quiet w w1 ∧ leases_left (aw_store w1) (Checkpoint.lr_CheckpointID r) = 0 ∧
  0 < leases_left (aw_store w) (Checkpoint.lr_CheckpointID r) ∧
  Checkpoint.ID leased = Checkpoint.lr_CheckpointID r ∧
  Checkpoint.TenantID leased = Checkpoint.lr_TenantID r ∧
  Checkpoint.DefinitionHash leased = Checkpoint.lr_DefinitionHash r.
Proof.
  intros Hwf Hcall.
  destruct (store_call_spec (λ c t s, Checkpoint.ApproveAndLease c t s r) w)
    as (s & Hs & Hev & Hq & Hf); [intros; by apply Checkpoint.Approve_rel|done|].
  rewrite Hcall in Hq, Hf. cbn [fst snd] in *.
  apply Checkpoint.ApproveAndLease_ok in Hf as (_ & _ & c & Hl & (Ht & Hd & Hst & _) & Hc & Hst').
  pose proof (map_Forall_lookup_1 _ _ _ _ Hs Hl) as Hid. simpl in Hid.
  assert (Checkpoint.CkStatus leased = Checkpoint.CheckpointLeased ∧
    Checkpoint.ID leased = Checkpoint.lr_CheckpointID r ∧
    Checkpoint.TenantID leased = Checkpoint.lr_TenantID r ∧
    Checkpoint.DefinitionHash leased = Checkpoint.lr_DefinitionHash r) as (H1 & H2 & H3 & H4)
    by by rewrite Hc.
  split_and!; [done| | |done..].
  - unfold leases_left. by rewrite Hst', Hid, lookup_insert_eq, H1.
  - pose proof (evolves_left _ _ (Checkpoint.lr_CheckpointID r) Hev) as Hle.
    unfold leases_left at 1 in Hle. rewrite Hl, decide_True in Hle by done. lia.
Qed.

(** The call took no lease: it left the store alone, or as other clients had made it when the call was refused. *)
Definition nothing_leased (w w' : World) (err : option Error) : Prop :=
  (err = Some ErrInvalidNextCheckpoint ∧ aw_store w' = aw_store w) ∨
  ∃ e, err = Some (ErrStore e) ∧ aw_store w' = (Checkpoint.history (aw_store w) (others (aw_tick w))).1.

(** The whole of [ApproveAndResume]. *)
Lemma approve_spec w req w' out :
  wf (aw_store w) → approve w req = (w', out) →
  (aw_resumed w' = aw_resumed w ∧ evolves (aw_store w) (aw_store w') ∧ nothing_leased w w' out.2) ∨
  ∃ w1 w2 leased,
    quiet w w1 ∧ leases_left (aw_store w1) (Checkpoint.lr_CheckpointID (rq_Approval req)) = 0 ∧
    0 < leases_left (aw_store w) (Checkpoint.lr_CheckpointID (rq_Approval req)) ∧
    Checkpoint.ID leased = Checkpoint.lr_CheckpointID (rq_Approval req) ∧
    Checkpoint.TenantID leased = Checkpoint.lr_TenantID (rq_Approval req) ∧
    Checkpoint.DefinitionHash leased = Checkpoint.lr_DefinitionHash (rq_Approval req) ∧
    aw_store w2 = aw_store w1 ∧
    (aw_resumed w2 = aw_resumed w1 ∨
     ∃ ck, aw_resumed w2 = aw_resumed w1 ++ [(Checkpoint.ID leased, ck)]) ∧
    ended w2 w' req leased out.1 out.
Proof.
  intros Hwf. unfold ApproveAndResume. cbv zeta.
  destruct (validateNextCheckpoint _ _ _) as [e0|] eqn:Hv.
  { intros [= <- <-]. left. split_and!; [done|constructor|]. left. simpl. split; [|done].
    unfold validateNextCheckpoint in Hv. by repeat case_decide; simplify_eq. }
  match goal with |- context [store_call ?f w] =>
    destruct (store_call_spec f w) as (_ & _ & _ & Hq & _);
      [intros; by apply Checkpoint.Approve_rel|done|];
      destruct (store_call f w) as [w1 [leased|e]] eqn:Hcall end; cbn [fst snd] in *.
  2:{ intros [= <- <-]. left. destruct Hq as [Hq Hr]. split_and!; [done|done|]. right. exists e. split; [done|]. simpl.
    unfold Adapter.store_call in Hcall. destruct (Checkpoint.ApproveAndLease _ _ _ _) as [s a] eqn:Ha in Hcall. injection Hcall as <- ->.
    simpl. by eapply Checkpoint.ApproveAndLease_refused. }
  intros Hrun. right. exists w1.
  destruct (lease_spec _ _ _ _ Hwf Hcall) as (_ & Hleft & Hpos & H1 & H2 & H3).
  pose proof (quiet_wf _ _ Hwf Hq) as Hwf1.
  destruct (decrypt_quiet w1 leased) as (Hst2 & Hq2 & Herr).
  destruct (decrypt w1 leased) as [w2 [ck|e]]; simpl in *.
  - destruct (ResumeDetailed (aw_tick w2) ck (rq_Resolutions req)) as [result rerr].
    set (w3 := mkAdapterWorld _ _ _) in Hrun.
    assert (ended w3 w' req leased result out) as Hend.
    { eapply after_ended; [|exact Hrun]. simpl. by rewrite Hst2. }
    exists w3, leased. split_and!; try done.
    + right. exists ck. simpl. by destruct Hq2 as [_ ->].
    + destruct Hend as (? & Hr & ?). by rewrite Hr.
  - exists w2, leased. split_and!; try done; [by left; apply Hq2|].
    assert (ended w2 w' req leased None out) as Hend.
    { eapply fail_ended; [| |exact Hrun]; [by rewrite Hst2|by apply Herr]. }
    destruct Hend as (? & Hr & ?). by rewrite Hr.
Qed.

(** ** Resumes and leases *)

Definition resumes (id : string) (w : World) : nat :=
  length (filter (λ p, p.1 = id) (aw_resumed w)).
Definition once (w : World) : Prop :=
  wf (aw_store w) ∧ ∀ id, resumes id w + leases_left (aw_store w) id ≤ 1.

Lemma once_quiet w w' : once w → quiet w w' → once w'.
Proof.
  intros [Hwf Ho] Hq. split; [by eapply quiet_wf|]. intros id. destruct Hq as [He Hr].
  unfold resumes. rewrite Hr. pose proof (evolves_left _ _ id He). specialize (Ho id).
  unfold resumes in Ho. lia.
Qed.

Lemma once_approve w req : once w → once (approve w req).1.
Proof.
  intros Ho. destruct (approve w req) as [w' out] eqn:Hrun. simpl. pose proof Ho as [Hwf Hcount].
  destruct (approve_spec _ _ _ _ Hwf Hrun)
    as [(Hr & He & _)|(w1 & w2 & leased & Hq & Hleft & Hpos & Hid & _ & _ & Hst & Hres & (Hq2 & _))].
  { by eapply once_quiet. }
  eapply once_quiet; [|exact Hq2]. pose proof (once_quiet _ _ Ho Hq) as [Hwf1 Hcount1].
  split; [by rewrite Hst|]. intros id. rewrite Hst. specialize (Hcount1 id).
  specialize (Hcount (Checkpoint.lr_CheckpointID (rq_Approval req))). unfold resumes in *.
  destruct Hres as [->|[ck ->]]; [done|]. rewrite filter_app, length_app, filter_cons, filter_nil.
  case_decide as Heq; simpl in Heq |- *; [|lia]. rewrite Hid in Heq. subst id.
  destruct Hq as [_ ->]. lia.
Qed.

Lemma once_serve w r :
  once w → once (serve others ctx clock json_string marshal unmarshal Encrypt Decrypt
    ResumeDetailed w r).
Proof.
  intros Ho. pose proof Ho as [Hwf _]. destruct r as [p|r|r]; simpl.
  - eapply once_quiet; [done|by apply SavePending_quiet].
  - unfold Reject. match goal with |- context [store_call ?f w] =>
      destruct (store_call_spec f w) as (_ & _ & _ & Hq & _);
        [intros; by apply Checkpoint.Reject_rel|done|]; destruct (store_call f w) as [w1 e] end.
    by eapply once_quiet.
  - by apply once_approve.
Qed.

(** * Properties *)

(** C7: An approved run is resumed at most once: whatever requests the adapter
serves, in any order, with failures anywhere and with other clients working on
the same store in between, each stored checkpoint is handed to the agent at most
once. *)
Theorem resume_at_most_once ops reqs id :
  resumes id (serve_reqs (mkAdapterWorld (Checkpoint.history Checkpoint.New ops).1 0 []) reqs) ≤ 1.
Proof.
  set (w := mkAdapterWorld _ _ _). assert (once w) as Hw.
  { pose proof (history_evolves Checkpoint.New ops Checkpoint.wf_New) as He. split.
    - by eapply evolves_wf; [apply Checkpoint.wf_New|].
    - intros id'. pose proof (evolves_left _ _ id' He) as Hl. unfold resumes. simpl.
      unfold leases_left in Hl at 2. unfold Checkpoint.New in Hl at 2.
      rewrite lookup_empty in Hl. lia. }
  clearbody w. unfold serve_all. revert w Hw.
  induction reqs as [|r reqs IH]; intros w Hw; simpl.
  - destruct Hw as [_ Hw]. specialize (Hw id). lia.
  - by apply IH, once_serve.
Qed.

(** C8: No lease is left open, in a well-formed store ([wf]): when ApproveAndResume resumed a run, or failed to
decode its checkpoint, the leased checkpoint ends consumed if the run ended or
paused again and failed otherwise, without its ciphertext; or the error says that
the lease could not be closed. Otherwise nothing is resumed and no lease is taken: the store is as it was when the next checkpoint is
refused, and as other clients left it when the store refuses the approval. *)
Theorem lease_closed w req w' out :
  wf (aw_store w) → approve w req = (w', out) →
  lease_outcome (aw_store w') (Checkpoint.lr_CheckpointID (rq_Approval req)) out.2 ∨
  (aw_resumed w' = aw_resumed w ∧
   ((out.2 = Some ErrInvalidNextCheckpoint ∧ aw_store w' = aw_store w) ∨
    ∃ e, out.2 = Some (ErrStore e) ∧ aw_store w' = (Checkpoint.history (aw_store w) (others (aw_tick w))).1)).
Proof.
  intros Hwf Hrun. destruct (approve_spec _ _ _ _ Hwf Hrun)
    as [(Hr & _ & He)|(w1 & w2 & leased & _ & _ & _ & <- & _ & _ & _ & _ & (_ & _ & Hout & _))];
    [by right|by left].
Qed.

(** A run that pauses again stays approvable: when ApproveAndResume reports
that approval is pending, the new checkpoint of the run is stored under the
reserved ID, for the same tenant and agent definition, and the old checkpoint is
consumed. *)
Theorem pause_chained w req w' result e :
  wf (aw_store w) → approve w req = (w', (result, Some (ErrAgent e))) →
  isApprovalPending (Some e) = true →
  ∃ ck next old, result ≫= rr_Interruption = Some ck ∧
    aw_store w' !! nx_ID (rq_Next req) = Some next ∧ Checkpoint.RunID next = ck_RunID ck ∧
    Checkpoint.TenantID next = Checkpoint.lr_TenantID (rq_Approval req) ∧
    Checkpoint.DefinitionHash next = Checkpoint.lr_DefinitionHash (rq_Approval req) ∧
    aw_store w' !! Checkpoint.lr_CheckpointID (rq_Approval req) = Some old ∧
    Checkpoint.CkStatus old = Checkpoint.CheckpointConsumed ∧ Checkpoint.Ciphertext old = [].
Proof.
  intros Hwf Hrun Hp. destruct (approve_spec _ _ _ _ Hwf Hrun)
    as [(_ & _ & [[[=] _]|(? & [=] & _)])|(w1 & w2 & leased & _ & _ & _ & Hid & Ht & Hd & _ & _ & Hend)].
  destruct Hend as (_ & _ & Hout & Hnext). cbn [fst snd] in *.
  destruct (Hnext e eq_refl Hp) as (ck & c & Hck & Hl & Hr & Ht' & Hd').
  destruct Hout as [[? [=]]|(old & Hold & Hct & Hst)]. rewrite Hid in Hold.
  exists ck, c, old. rewrite Ht', Hd'. split_and!; try done.
  rewrite Hst. unfold expected_end. by rewrite Hp.
Qed.

End proofs.

Section roundtrip.
Context (ctx : nat → Ctx) (clock : nat → Time) (others : nat → list (Ctx * Time * Checkpoint.op)).
Context (json_string : string → string).
Context (marshal : RunCheckpoint → option bytes) (unmarshal : bytes → option RunCheckpoint).
Context (Encrypt Decrypt : nat → bytes → bytes → res string bytes).
Context (ResumeDetailed : nat → RunCheckpoint → list ToolApprovalResolution →
  option RunResult * option AgentTools.Error).
(** The host's cipher decrypts what it encrypted, under the same data. *)
Context (cipher_ok : ∀ t t' payload aad c,
  Encrypt t payload aad = Ok c → Decrypt t' c aad = Ok payload).


End roundtrip.

(** * A sample adapter *)

Definition sample_run_checkpoint : RunCheckpoint :=
  mkRunCheckpoint 1 "r1" (mkCheckpointRequest "" "" "" ∅ [] (mkPolicyContext "" "" "" ∅)) 0 []
    (mkUsage 0 0) 0 0 [] 1 ∅ [] [mkCall "call-1" "echo" "{}"] [].
Definition sample_pending : PendingCheckpoint := mkPending "c1" "t1" "h1" 100 sample_run_checkpoint.
Definition sample_request : ResumeRequest :=
  mkResume (Checkpoint.mkLeaseRequest "c1" "t1" "h1" "alice" "audit" "" "w1" 10 20) []
    (mkNext "c2" 200).
(** A cipher that frames, JSON of the one checkpoint, an agent that pauses again. *)
Definition frame (_ : nat) (payload _ : bytes) : res string bytes := Ok (x00 :: payload).
Definition unframe (_ : nat) (c _ : bytes) : res string bytes :=
  match c with [] => Err "empty" | _ :: payload => Ok payload end.
Definition one_json (_ : RunCheckpoint) : option bytes := Some [x01].
Definition one_unjson (_ : bytes) : option RunCheckpoint := Some sample_run_checkpoint.
Definition pauses (_ : nat) (ck : RunCheckpoint) (_ : list ToolApprovalResolution)
    : option RunResult * option AgentTools.Error :=
  (Some (mkRunResult "r1" "" "" ∅ (mkUsage 0 0) zeroExecSummary (Some ck)), Some ErrApprovalPending).
Definition no_others (_ : nat) : list (Ctx * Time * Checkpoint.op) := [].
Definition live_ctx (_ : nat) : Ctx := None.
Definition at_ten (_ : nat) : Time := 10%Z.

Definition saved : World * option Error :=
  SavePending no_others live_ctx at_ten id one_json frame (mkAdapterWorld ∅ 0 []) sample_pending.
Definition resumed : World * (option RunResult * option Error) :=
  ApproveAndResume no_others live_ctx at_ten id one_json one_unjson frame unframe pauses saved.1
    sample_request.

Lemma saved_wf : wf (aw_store saved.1).
Proof. apply map_Forall_to_list. vm_compute. by repeat constructor. Qed.


Lemma lease_closed_witness :
  lease_outcome (aw_store resumed.1) "c1" resumed.2.2 ∨
  (aw_resumed resumed.1 = aw_resumed saved.1 ∧
   ((resumed.2.2 = Some ErrInvalidNextCheckpoint ∧ aw_store resumed.1 = aw_store saved.1) ∨
    ∃ e, resumed.2.2 = Some (ErrStore e) ∧ aw_store resumed.1 = (Checkpoint.history (aw_store saved.1) []).1)).
Proof.
  apply (lease_closed no_others live_ctx at_ten id one_json one_unjson frame unframe pauses saved.1
    sample_request resumed.1 resumed.2 saved_wf). exact (surjective_pairing resumed).
Defined.

Lemma pause_chained_witness :
  ∃ ck next old, resumed.2.1 ≫= rr_Interruption = Some ck ∧
    aw_store resumed.1 !! "c2" = Some next ∧ Checkpoint.RunID next = ck_RunID ck ∧
    Checkpoint.TenantID next = "t1" ∧ Checkpoint.DefinitionHash next = "h1" ∧
    aw_store resumed.1 !! "c1" = Some old ∧
    Checkpoint.CkStatus old = Checkpoint.CheckpointConsumed ∧ Checkpoint.Ciphertext old = [].
Proof.
  apply (pause_chained no_others live_ctx at_ten id one_json one_unjson frame unframe pauses saved.1
    sample_request resumed.1 resumed.2.1 ErrApprovalPending saved_wf); by vm_compute.
Defined.

End Adapter.
