(* ===== verification/HostLifecycle.v ===== *)
(** The host process lifecycle: [src/hostkit/lifecycle.go] and [result.go].

[Run] waits on channels with [select], so which ready case it takes, and what
becomes ready while it waits, is not its choice. The machine below has one
transition per case of each [select]; [step] is a function of the case taken.
Between transitions the environment may make more cases ready. *)

From S2P Require Import Prelude.

Module Host.

(** * Results ([result.go]) *)

Definition Code := string.
Definition CodeInternalError : Code := "internal_error".
Definition CodeConfigFailed : Code := "config_failed".
Definition CodeInitializationFailed : Code := "initialization_failed".
Definition CodeListenFailed : Code := "listen_failed".
Definition CodeServeFailed : Code := "serve_failed".
Definition CodeShutdownTimeout : Code := "shutdown_timeout".
Definition CodeShutdownCleanupTimeout : Code := "shutdown_cleanup_timeout".

(** Errors: [failure]; an error with a text; errors that wrap one or two others;
[context.DeadlineExceeded]. *)
Inductive Error :=
| Failure (code : Code) (safeMessage : string) (cause : option Error)
| ErrText (text : string)
| ErrWrap (text : string) (inner : Error)
| ErrJoin (text : string) (a b : Error)
| ErrDeadlineExceeded.

Definition Fail (code : Code) (safeMessage : string) (cause : option Error) : Error :=
  Failure code safeMessage cause.

(** [Error()]. *)
Definition error_string (e : Error) : string :=
  match e with
  | Failure _ safeMessage _ => safeMessage
  | ErrText text | ErrWrap text _ | ErrJoin text _ _ => text
  | ErrDeadlineExceeded => "context deadline exceeded"
  end.

(** [errors.As(err, &classified)]: the first [failure] in the tree. *)
Fixpoint as_failure (e : Error) : option (Code * Error) :=
  match e with
  | Failure code _ _ => Some (code, e)
  | ErrText _ | ErrDeadlineExceeded => None
  | ErrWrap _ inner => as_failure inner
  | ErrJoin _ a b => match as_failure a with Some f => Some f | None => as_failure b end
  end.

Record Result := mkResult { exitCode_of : Z; code_of : string; err_of : option Error }.

Definition isKnownCode (code : Code) : bool :=
  bool_decide (code ∈ [CodeInternalError; CodeConfigFailed; CodeInitializationFailed;
    CodeListenFailed; CodeServeFailed; CodeShutdownTimeout; CodeShutdownCleanupTimeout]).

Definition exitCode (code : Code) : Z :=
  if decide (code ∈ [CodeConfigFailed; CodeInitializationFailed]) then 2
  else if decide (code = CodeListenFailed) then 3
  else if decide (code = CodeServeFailed) then 4
  else if decide (code ∈ [CodeShutdownTimeout; CodeShutdownCleanupTimeout]) then 5
  else 1.

Definition resultFromError (err : option Error) : Result :=
  match err with
  | None => mkResult 0 "" None
  | Some e =>
      let internal := mkResult (exitCode CodeInternalError) CodeInternalError
                        (Some (Fail CodeInternalError "internal error" (Some e))) in
      match as_failure e with
      | Some (code, classified) =>
          if isKnownCode code then mkResult (exitCode code) code (Some classified) else internal
      | None => internal
      end
  end.

(** [WriteError]: the fields of the JSON line it writes, if any. *)
Record ErrorLine := mkLine { li_Level : string; li_Event : string; li_Code : string; li_Message : string }.
Definition WriteError (result : Result) : option ErrorLine :=
  if decide (exitCode_of result = 0%Z) then None
  else
    let message := match err_of result with Some e => error_string e | None => "" end in
    Some (mkLine "error" "host_exit" (code_of result) message).

(** * The lifecycle ([lifecycle.go]) *)

Record Options := mkOptions { DrainTimeout : Duration; CleanupTimeout : Duration }.

Definition shutdownTimeoutError : Error :=
  Fail CodeShutdownTimeout "shutdown timed out" (Some ErrDeadlineExceeded).
Definition cleanupTimeoutResult : Result :=
  resultFromError (Some (Fail CodeShutdownCleanupTimeout "shutdown cleanup timed out"
                           (Some ErrDeadlineExceeded))).
Definition stoppedError : Error := ErrText "hostkit: service stopped without an error".

(** What [Run] can observe: the value ready on [Done()], whether the context is
cancelled and an interrupt is pending, what [Drain] and the running cleanup hook
returned, and whether the drain and cleanup deadlines have passed. *)
Record Env := mkEnv {
  done_ready : option (option Error);
  ctx_done : bool;
  interrupt_ready : bool;
  drain_returned : option (option Error);
  drain_deadline : bool;
  hook_returned : option (option Error);
  cleanup_deadline : bool
}.
#[global] Instance eta_Env : Eta Env := λ e,
  mkEnv (done_ready e) (ctx_done e) (interrupt_ready e) (drain_returned e) (drain_deadline e)
    (hook_returned e) (cleanup_deadline e).

(** Where [Run] is. *)
Inductive Phase :=
| Starting
| Watching (shutdownRequested : bool)
| Waiting
| DrainCheck (done : bool) (terminal : option (bool * option Error))
| DrainWait (done : bool)
| ForceStopping (outcome : option Error)
| Closing (outcome : option Error)
| Finished (r : Result).

(** What [Run] did and saw. *)
Inductive Obs :=
| StartReturned (r : option Error)
| ServiceStopped (r : option Error)
| ShutdownRequested
| DrainCalled
| DoneWhileDraining (r : option Error)
| DrainReturned (r : option Error)
| DrainTimedOut
| DrainInterrupted
| ForceStopCalled
| CloseCalled
| HookReturned (r : option Error)
| CleanupTimedOut.

Record State := mkState { phase : Phase; env : Env; trace : list Obs }.

(** The case of a [select] that is taken, or the return of [Start]. *)
Inductive Case :=
| CaseStart (r : option Error)
| CaseDone
| CaseDefault
| CaseContext
| CaseInterrupt
| CaseDrainResult
| CaseDeadline
| CaseHookResult.

Definition to_ (p : Phase) (e : Env) (tr : list Obs) : option State := Some (mkState p e tr).

(** [cleanup] up to its first hook. *)
Definition cleanup (force : bool) (outcome : option Error) (e : Env) (tr : list Obs) : option State :=
  let e := e <| hook_returned := None |> <| cleanup_deadline := false |> in
  if force then to_ (ForceStopping outcome) e (tr ++ [ForceStopCalled])
  else to_ (Closing outcome) e (tr ++ [CloseCalled]).

(** The first [select] of the loop of [Run]. *)
Definition watch (c : Case) (shutdownRequested : bool) (e : Env) (tr : list Obs) : option State :=
  match c, done_ready e with
  | CaseDone, Some r =>
      cleanup true (Some (default stoppedError r)) (e <| done_ready := None |>)
        (tr ++ [ServiceStopped r])
  | CaseDefault, None =>
      if shutdownRequested
      then to_ (DrainCheck true None) (e <| drain_returned := None |> <| drain_deadline := false |>)
             (tr ++ [DrainCalled])
      else to_ Waiting e tr
  | _, _ => None
  end.

(** The second [select] of the loop of [Run]. *)
Definition wait (c : Case) (e : Env) (tr : list Obs) : option State :=
  match c with
  | CaseDone =>
      match done_ready e with
      | Some r => cleanup true (Some (default stoppedError r)) (e <| done_ready := None |>)
                    (tr ++ [ServiceStopped r])
      | None => None
      end
  | CaseContext =>
      if ctx_done e then to_ (Watching true) e (tr ++ [ShutdownRequested]) else None
  | CaseInterrupt =>
      if interrupt_ready e
      then to_ (Watching true) (e <| interrupt_ready := false |>) (tr ++ [ShutdownRequested])
      else None
  | _ => None
  end.

(** The end of the first [select] of [drain]: clean up if the drain is over. *)
Definition drain_next (done : bool) (terminal : option (bool * option Error)) (e : Env)
    (tr : list Obs) : option State :=
  match terminal with
  | Some (force, outcome) => cleanup force outcome e tr
  | None => to_ (DrainWait done) e tr
  end.

(** The terminal state a value from [Done()] makes. *)
Definition done_terminal (r : option Error) (terminal : option (bool * option Error))
    : option (bool * option Error) :=
  match r with Some err => Some (true, Some err) | None => terminal end.

Definition drain_check (c : Case) (done : bool) (terminal : option (bool * option Error)) (e : Env)
    (tr : list Obs) : option State :=
  match c, (if done then done_ready e else None) with
  | CaseDone, Some r =>
      drain_next false (done_terminal r terminal) (e <| done_ready := None |>)
        (tr ++ [DoneWhileDraining r])
  | CaseDefault, None => drain_next done terminal e tr
  | _, _ => None
  end.

(** The second [select] of [drain]. *)
Definition drain_wait (c : Case) (done : bool) (e : Env) (tr : list Obs) : option State :=
  match c with
  | CaseDone =>
      match (if done then done_ready e else None) with
      | Some r => to_ (DrainCheck false (done_terminal r None)) (e <| done_ready := None |>)
                    (tr ++ [DoneWhileDraining r])
      | None => None
      end
  | CaseDrainResult =>
      match drain_returned e with
      | Some err =>
          let e := e <| drain_returned := None |> in
          if drain_deadline e
          then to_ (DrainCheck done (Some (true, Some shutdownTimeoutError))) e (tr ++ [DrainTimedOut])
          else to_ (DrainCheck done (Some (bool_decide (err ≠ None), err))) e
                 (tr ++ [DrainReturned err])
      | None => None
      end
  | CaseDeadline =>
      if drain_deadline e
      then to_ (DrainCheck done (Some (true, Some shutdownTimeoutError))) e (tr ++ [DrainTimedOut])
      else None
  | CaseInterrupt =>
      if interrupt_ready e
      then to_ (DrainCheck done (Some (true, Some shutdownTimeoutError)))
             (e <| interrupt_ready := false |>) (tr ++ [DrainInterrupted])
      else None
  | _ => None
  end.

(** [runCleanupHook]: the hook's result, or [None] when it timed out. *)
Definition runCleanupHook (c : Case) (e : Env) : option (option (option Error)) :=
  match c with
  | CaseHookResult =>
      match hook_returned e with
      | Some err => if cleanup_deadline e then Some None else Some (Some err)
      | None => None
      end
  | CaseDeadline => if cleanup_deadline e then Some None else None
  | _ => None
  end.

(** [if err != nil && outcome == nil { outcome = err }]. *)
Definition keep_first (outcome err : option Error) : option Error :=
  match outcome with Some e => Some e | None => err end.

Definition hook_step (c : Case) (force : bool) (outcome : option Error) (e : Env) (tr : list Obs)
    : option State :=
  match runCleanupHook c e with
  | None => None
  | Some None => to_ (Finished cleanupTimeoutResult) e (tr ++ [CleanupTimedOut])
  | Some (Some err) =>
      let outcome := keep_first outcome err in
      if force
      then to_ (Closing outcome) (e <| hook_returned := None |>)
             (tr ++ [HookReturned err; CloseCalled])
      else to_ (Finished (resultFromError outcome)) e (tr ++ [HookReturned err])
  end.

Definition step (c : Case) (s : State) : option State :=
  let e := env s in
  let tr := trace s in
  match phase s with
  | Starting =>
      match c with
      | CaseStart None => to_ (Watching false) e (tr ++ [StartReturned None])
      | CaseStart (Some err) => cleanup false (Some err) e (tr ++ [StartReturned (Some err)])
      | _ => None
      end
  | Watching shutdownRequested => watch c shutdownRequested e tr
  | Waiting => wait c e tr
  | DrainCheck done terminal => drain_check c done terminal e tr
  | DrainWait done => drain_wait c done e tr
  | ForceStopping outcome => hook_step c true outcome e tr
  | Closing outcome => hook_step c false outcome e tr
  | Finished _ => None
  end.

(** [Run] from its entry; [present] is [service != nil]. *)
Definition init (o : Options) (present : bool) (e : Env) : State :=
  if decide (DrainTimeout o ≤ 0 ∨ CleanupTimeout o ≤ 0)%Z
  then mkState (Finished (resultFromError (Some (ErrText
         "hostkit: lifecycle timeouts must be positive")))) e []
  else if present then mkState Starting e []
  else mkState (Finished (resultFromError (Some (ErrText "hostkit: nil service")))) e [].

(** More cases become ready; a ready case stays ready. *)
Definition env_grows (e e' : Env) : Prop :=
  (∀ r, done_ready e = Some r → done_ready e' = Some r) ∧
  (ctx_done e = true → ctx_done e' = true) ∧
  (interrupt_ready e = true → interrupt_ready e' = true) ∧
  (∀ r, drain_returned e = Some r → drain_returned e' = Some r) ∧
  (drain_deadline e = true → drain_deadline e' = true) ∧
  (∀ r, hook_returned e = Some r → hook_returned e' = Some r) ∧
  (cleanup_deadline e = true → cleanup_deadline e' = true).

Inductive reachable (s0 : State) : State → Prop :=
| reach_init : reachable s0 s0
| reach_env s e : reachable s0 s → env_grows (env s) e →
    reachable s0 (mkState (phase s) e (trace s))
| reach_step c s s' : reachable s0 s → step c s = Some s' → reachable s0 s'.

(** * What a run amounts to *)

(** The error an observation brings. *)
Definition obs_error (o : Obs) : option Error :=
  match o with
  | StartReturned r | DrainReturned r | HookReturned r => r
  | ServiceStopped r => Some (default stoppedError r)
  | DrainTimedOut | DrainInterrupted => Some shutdownTimeoutError
  | _ => None
  end.
Definition done_error (o : Obs) : option Error :=
  match o with DoneWhileDraining r => r | _ => None end.

(** The error a run reports: a failure of the service while it drains comes first,
then the first other error. *)
Definition verdict (tr : list Obs) : option Error :=
  keep_first (head (omap done_error tr)) (head (omap obs_error tr)).

(** The calls a run made to its service. *)
Inductive Call := Start | Drain | ForceStop | Close.
Definition calls (tr : list Obs) : list Call :=
  omap (λ o, match o with
             | StartReturned _ => Some Start
             | DrainCalled => Some Drain
             | ForceStopCalled => Some ForceStop
             | CloseCalled => Some Close
             | _ => None
             end) tr.

(** A run without the expected end of the service while it drains. *)
Definition core (tr : list Obs) : list Obs :=
  omap (λ o, match o with DoneWhileDraining None => None | _ => Some o end) tr.

Definition timed_out (tr : list Obs) : Prop := CleanupTimedOut ∈ tr.

(** The traces of a graceful shutdown, up to its points. *)
Definition started : list Obs := [StartReturned None].
Definition draining : list Obs := started ++ [ShutdownRequested; DrainCalled].
Definition drained : list Obs := draining ++ [DrainReturned None].

(** What holds in each phase. *)
Definition phase_inv (p : Phase) (tr : list Obs) : Prop :=
  match p with
  | Starting => tr = []
  | Watching b => tr = if b then started ++ [ShutdownRequested] else started
  | Waiting => tr = started
  | DrainCheck done None => core tr = draining ∧ calls tr = [Start; Drain]
  | DrainCheck done (Some (force, outcome)) =>
      verdict tr = outcome ∧ calls tr = [Start; Drain] ∧
      (done = true → head (omap done_error tr) = None) ∧
      (if force then outcome ≠ None else outcome = None ∧ core tr = drained)
  | DrainWait done => core tr = draining ∧ calls tr = [Start; Drain]
  | ForceStopping outcome =>
      verdict tr = outcome ∧ outcome ≠ None ∧
      calls tr ∈ [[Start; ForceStop]; [Start; Drain; ForceStop]]
  | Closing outcome =>
      verdict tr = outcome ∧
      calls tr ∈ [[Start; Close]; [Start; Drain; Close]; [Start; ForceStop; Close];
                  [Start; Drain; ForceStop; Close]] ∧
      (outcome = None → core tr = drained ++ [CloseCalled])
  | Finished r =>
      (timed_out tr ∧ r = cleanupTimeoutResult ∨ ¬ timed_out tr ∧ r = resultFromError (verdict tr)) ∧
      (calls tr ∈ [[Start; Close]; [Start; Drain; Close]; [Start; ForceStop; Close];
                   [Start; Drain; ForceStop; Close]] ∨
       timed_out tr ∧ calls tr ∈ [[Start; ForceStop]; [Start; Drain; ForceStop]]) ∧
      (verdict tr = None → timed_out tr ∨
         core tr = drained ++ [CloseCalled; HookReturned None])
  end ∧
  (match p with Finished _ => True | _ => ¬ timed_out tr end).

(** ** Lemmas *)

Lemma keep_first_assoc a b c : keep_first a (keep_first b c) = keep_first (keep_first a b) c.
Proof. by destruct a, b. Qed.

Lemma omap_app {A B} (f : A → option B) l l' : omap f (l ++ l') = omap f l ++ omap f l'.
Proof. induction l as [|x l IH]; [done|]. csimpl. rewrite IH. by destruct (f x). Qed.

Lemma head_app {A} (l l' : list A) :
  head (l ++ l') = match head l with Some x => Some x | None => head l' end.
Proof. by destruct l. Qed.

Lemma calls_app tr l : calls (tr ++ l) = calls tr ++ calls l.
Proof. apply omap_app. Qed.
Lemma core_app tr l : core (tr ++ l) = core tr ++ core l.
Proof. apply omap_app. Qed.

(** An observation that is not of [Done] while draining adds its error. *)
Lemma verdict_snoc tr o :
  done_error o = None → verdict (tr ++ [o]) = keep_first (verdict tr) (obs_error o).
Proof.
  intros Ho. unfold verdict. rewrite !omap_app, !head_app. csimpl. rewrite Ho.
  destruct (head (omap done_error tr)), (head (omap obs_error tr)); simpl; try done.
  by destruct (obs_error o).
Qed.

Lemma timed_out_app tr l : timed_out (tr ++ l) ↔ timed_out tr ∨ timed_out l.
Proof. apply elem_of_app. Qed.

(** A trace whose core is [draining] or a prefix carries no error. *)
Lemma core_errors tr :
  head (omap done_error tr) = head (omap done_error (core tr)) ∧
  head (omap obs_error tr) = head (omap obs_error (core tr)).
Proof.
  induction tr as [|o tr [IH1 IH2]]; [done|].
  destruct o as [| | | |[]| | | | | | |]; csimpl; try done;
    repeat match goal with |- context [match ?x with Some _ => _ | None => _ end] => destruct x end; done.
Qed.

Lemma core_verdict tr : verdict tr = verdict (core tr).
Proof. unfold verdict. by destruct (core_errors tr) as [-> ->]. Qed.

Ltac not_timed_out :=
  unfold started in *; rewrite ?timed_out_app; unfold timed_out in *; simpl; rewrite ?elem_of_cons, ?elem_of_nil;
  intuition congruence.

Lemma enter_force tr o :
  ¬ timed_out tr → verdict tr = o → o ≠ None → calls tr ∈ [[Start]; [Start; Drain]] →
  phase_inv (ForceStopping o) (tr ++ [ForceStopCalled]).
Proof.
  intros Ht Hv Ho Hc. split; [|not_timed_out]. split_and!; [|done|].
  - rewrite verdict_snoc, Hv by done. by destruct o.
  - rewrite calls_app. rewrite !elem_of_cons, elem_of_nil in Hc.
    destruct Hc as [->|[->|[]]]; csimpl; set_solver.
Qed.

Lemma enter_close tr o :
  ¬ timed_out tr → verdict tr = o → calls tr ∈ [[Start]; [Start; Drain]] →
  (o = None → core tr = drained) → phase_inv (Closing o) (tr ++ [CloseCalled]).
Proof.
  intros Ht Hv Hc Hcore. split; [|not_timed_out]. split_and!.
  - rewrite verdict_snoc, Hv by done. by destruct o.
  - rewrite calls_app. rewrite !elem_of_cons, elem_of_nil in Hc.
    destruct Hc as [->|[->|[]]]; csimpl; set_solver.
  - intros Hn. by rewrite core_app, (Hcore Hn).
Qed.

Lemma cleanup_inv force o e tr s :
  cleanup force o e tr = Some s → ¬ timed_out tr → verdict tr = o →
  calls tr ∈ [[Start]; [Start; Drain]] →
  (if force then o ≠ None else o = None → core tr = drained) → phase_inv (phase s) (trace s).
Proof.
  unfold cleanup, to_. destruct force; intros [= <-] Ht Hv Hc Ho; simpl;
    [by apply enter_force|by apply enter_close].
Qed.

Lemma watch_inv c b e tr s :
  phase_inv (Watching b) tr → watch c b e tr = Some s → phase_inv (phase s) (trace s).
Proof.
  intros [Htr Ht] Hs. unfold watch in Hs. destruct c, (done_ready e) as [r0|]; try done.
  - eapply cleanup_inv; [exact Hs|not_timed_out| | |done].
    + rewrite verdict_snoc by done. rewrite Htr. by destruct b.
    + rewrite calls_app, Htr. destruct b; set_solver.
  - destruct b; injection Hs as <-; simpl; subst tr; split; try done; not_timed_out.
Qed.

Lemma wait_inv c e tr s :
  phase_inv Waiting tr → wait c e tr = Some s → phase_inv (phase s) (trace s).
Proof.
  intros [-> Ht] Hs. unfold wait in Hs. destruct c; try done.
  - destruct (done_ready e) as [r|]; [|done].
    eapply cleanup_inv; [exact Hs|not_timed_out| | |done].
    + by rewrite verdict_snoc by done.
    + rewrite calls_app. set_solver.
  - destruct (ctx_done e); [|done]. injection Hs as <-. split; [done|]. simpl. not_timed_out.
  - destruct (interrupt_ready e); [|done]. injection Hs as <-. split; [done|]. simpl. not_timed_out.
Qed.

(** The drain is over, or it goes on. *)
Definition drain_ok (done : bool) (terminal : option (bool * option Error)) (tr : list Obs) : Prop :=
  phase_inv (DrainCheck done terminal) tr.

Lemma drain_next_inv done terminal e tr s :
  drain_ok done terminal tr → drain_next done terminal e tr = Some s →
  phase_inv (phase s) (trace s).
Proof.
  unfold drain_ok, drain_next. destruct terminal as [[force o]|]; intros [Hp Ht] Hs.
  - destruct Hp as (Hv & Hc & _ & Ho). eapply cleanup_inv; [exact Hs|done|done| |].
    + rewrite Hc. set_solver.
    + destruct force; [done|]. by destruct Ho.
  - by injection Hs as <-.
Qed.

(** Receiving from [Done] while draining, in either [select]. *)
Lemma draining_done terminal tr r :
  drain_ok true terminal tr → drain_ok false (done_terminal r terminal) (tr ++ [DoneWhileDraining r]).
Proof.
  intros [Hp Ht].
  assert (calls (tr ++ [DoneWhileDraining r]) = calls tr) as Hcalls
    by (rewrite calls_app; by rewrite app_nil_r).
  assert (¬ timed_out (tr ++ [DoneWhileDraining r])) as Ht' by not_timed_out.
  destruct r as [err|].
  - assert (head (omap done_error tr) = None ∧ calls tr = [Start; Drain]) as [Hd Hc].
    { destruct terminal as [[force o]|]; [by destruct Hp as (_ & ? & Hd & _); split; [apply Hd|]|].
      destruct Hp as [Hcore Hc]. split; [|done]. by rewrite (proj1 (core_errors tr)), Hcore. }
    split; [|done]. split_and!; [|by rewrite Hcalls|done|done].
    unfold verdict. rewrite omap_app, head_app, Hd. done.
  - destruct terminal as [[force o]|]; (split; [|done]).
    + destruct Hp as (Hv & Hc & Hd & Ho). split_and!; [|by rewrite Hcalls|done|].
      * rewrite core_verdict, core_app, app_nil_r, <-core_verdict. done.
      * destruct force; [done|]. destruct Ho as [-> Hcore]. by rewrite core_app, Hcore.
    + destruct Hp as [Hcore Hc]. simpl. rewrite Hcalls, core_app, Hcore. done.
Qed.

Lemma drain_check_inv c done terminal e tr s :
  drain_ok done terminal tr → drain_check c done terminal e tr = Some s →
  phase_inv (phase s) (trace s).
Proof.
  intros Hp Hs. unfold drain_check in Hs.
  destruct c, done; simpl in Hs; try destruct (done_ready e); try done;
    (eapply drain_next_inv; [|exact Hs]); [by apply draining_done|done..].
Qed.

Lemma drain_wait_inv c done e tr s :
  phase_inv (DrainWait done) tr → drain_wait c done e tr = Some s → phase_inv (phase s) (trace s).
Proof.
  intros [[Hcore Hc] Ht] Hs.
  assert (head (omap done_error tr) = None) as Hd by by rewrite (proj1 (core_errors tr)), Hcore.
  assert (verdict tr = None) as Hv by by rewrite core_verdict, Hcore.
  assert (∀ o, done_error o = None → obs_error o = Some shutdownTimeoutError →
    calls [o] = [] → o ≠ CleanupTimedOut →
    phase_inv (DrainCheck done (Some (true, Some shutdownTimeoutError))) (tr ++ [o])) as Hlate.
  { intros o H1 H2 H3 H4. split; [|not_timed_out]. split_and!.
    - by rewrite verdict_snoc, Hv.
    - by rewrite calls_app, H3, app_nil_r.
    - intros _. rewrite omap_app, head_app, Hd. csimpl. by rewrite H1.
    - done. }
  unfold drain_wait in Hs. destruct c; try done.
  - destruct done; [|done]. destruct (done_ready e) as [r|]; [|done]. injection Hs as <-.
    by apply draining_done.
  - destruct (interrupt_ready e); [|done]. injection Hs as <-. by apply Hlate.
  - destruct (drain_returned e) as [err|]; [|done]. cbn [drain_deadline] in Hs.
    destruct (drain_deadline _); injection Hs as <-; [by apply Hlate|].
    split; [|simpl; not_timed_out]. simpl. split_and!.
    + by rewrite verdict_snoc, Hv.
    + by rewrite calls_app, Hc.
    + intros _. by rewrite omap_app, head_app, Hd.
    + destruct err; [by rewrite bool_decide_true|]. rewrite bool_decide_false by naive_solver.
      by rewrite core_app, Hcore.
  - destruct (drain_deadline e); [|done]. injection Hs as <-. by apply Hlate.
Qed.

(** The ends of the two cleanup hooks. *)
Lemma hook_timeout p tr o :
  p = ForceStopping o ∨ p = Closing o → phase_inv p tr →
  phase_inv (Finished cleanupTimeoutResult) (tr ++ [CleanupTimedOut]).
Proof.
  intros Hp [Hinv Ht]. assert (timed_out (tr ++ [CleanupTimedOut])) as Hto
    by (apply timed_out_app; right; by left).
  split; [|done]. split_and!; [by left| |by left].
  rewrite calls_app, app_nil_r. destruct Hp as [-> | ->]; [right|left].
  - by destruct Hinv as (_ & _ & Hc).
  - by destruct Hinv as (_ & Hc & _).
Qed.

Lemma hook_inv c (force : bool) o e tr s :
  phase_inv (if force then ForceStopping o else Closing o) tr →
  hook_step c force o e tr = Some s → phase_inv (phase s) (trace s).
Proof.
  unfold hook_step. intros Hp Hs. destruct (runCleanupHook c e) as [[err|]|]; [|..|done].
  2:{ injection Hs as <-. eapply hook_timeout; [|exact Hp]. destruct force; eauto. }
  destruct force; injection Hs as <-; cbn [phase trace].
  - destruct Hp as [(Hv & Ho & Hc) Ht]. destruct o as [o|]; [|done].
    split; [|not_timed_out]. simpl.
    change [HookReturned err; CloseCalled] with ([HookReturned err] ++ [CloseCalled]).
    rewrite (assoc_L (++)). split_and!; [|..|done].
    + rewrite !verdict_snoc, Hv by done. done.
    + rewrite !calls_app. rewrite !elem_of_cons, elem_of_nil in Hc.
      destruct Hc as [->|[->|[]]]; csimpl; set_solver.
  - destruct Hp as [(Hv & Hc & Hcore) Ht].
    assert (¬ timed_out (tr ++ [HookReturned err])) as Ht' by not_timed_out.
    assert (verdict (tr ++ [HookReturned err]) = keep_first o err) as Hv'
      by (by rewrite verdict_snoc, Hv).
    split; [|done]. split_and!.
    + right. by rewrite Hv'.
    + left. by rewrite calls_app, app_nil_r.
    + rewrite Hv'. intros Hn. right. destruct o as [o|]; [done|]. simpl in Hn. subst err.
      by rewrite core_app, Hcore.
Qed.

Lemma step_inv c s s' :
  phase_inv (phase s) (trace s) → step c s = Some s' → phase_inv (phase s') (trace s').
Proof.
  destruct s as [p e tr]. unfold step. cbn [phase trace env]. intros Hp Hs. destruct p.
  - destruct Hp as [-> _]. destruct c as [[err|]| | | | | | |]; try done.
    + eapply cleanup_inv; [exact Hs|not_timed_out|done|by left|done].
    + injection Hs as <-. split; [done|]. simpl. not_timed_out.
  - by eapply watch_inv.
  - by eapply wait_inv.
  - by eapply drain_check_inv.
  - by eapply drain_wait_inv.
  - by eapply (hook_inv c true).
  - by eapply (hook_inv c false).
  - done.
Qed.

Lemma init_started o e :
  (0 < DrainTimeout o)%Z → (0 < CleanupTimeout o)%Z → init o true e = mkState Starting e [].
Proof. intros H1 H2. unfold init. rewrite decide_False; [done|lia]. Qed.

Lemma reachable_inv o e s :
  (0 < DrainTimeout o)%Z → (0 < CleanupTimeout o)%Z → reachable (init o true e) s →
  phase_inv (phase s) (trace s).
Proof.
  intros H1 H2. rewrite init_started by done. induction 1 as [|s e' _ IH _|c s s' _ IH Hs].
  - split; [done|]. simpl. not_timed_out.
  - done.
  - by eapply step_inv.
Qed.

Lemma as_failure_error e code f : as_failure e = Some (code, f) → ∃ m cause, f = Failure code m cause.
Proof.
  induction e as [code' m cause|t|t i IH|t a IHa b IHb|] using Error_ind; simpl; try done; eauto.
  - intros [= <- <-]. eauto.
  - destruct (as_failure a) as [[]|]; [by intros [= <- <-]; apply IHa|done].
Qed.

Lemma exitCode_positive code : (0 < exitCode code ≤ 5)%Z.
Proof. unfold exitCode. repeat case_decide; lia. Qed.

Lemma resultFromError_zero err : exitCode_of (resultFromError err) = 0%Z ↔ err = None.
Proof.
  destruct err as [e|]; [|done]. split; [|done]. simpl.
  pose proof (exitCode_positive CodeInternalError).
  destruct (as_failure e) as [[code f]|]; [destruct (isKnownCode code)|]; simpl;
    try pose proof (exitCode_positive code); lia.
Qed.

(** ** Progress *)

(** The longest way from a phase to the end. *)
Definition rank (p : Phase) : nat :=
  match p with
  | Starting => 11
  | Watching false => 10
  | Waiting => 9
  | Watching true => 8
  | DrainCheck true None => 7
  | DrainWait true => 6
  | DrainCheck false None => 5
  | DrainWait false => 4
  | DrainCheck _ (Some _) => 3
  | ForceStopping _ => 2
  | Closing _ => 1
  | Finished _ => 0
  end.

Lemma cleanup_rank force o e tr s : cleanup force o e tr = Some s → rank (phase s) ≤ 2.
Proof. unfold cleanup, to_. destruct force; intros [= <-]; simpl; lia. Qed.

Lemma drain_next_rank done terminal e tr s :
  drain_next done terminal e tr = Some s → rank (phase s) < rank (DrainCheck done terminal).
Proof.
  unfold drain_next, to_. destruct terminal as [[force o]|].
  - intros Hs%cleanup_rank. destruct done; simpl; lia.
  - intros [= <-]. destruct done; simpl; lia.
Qed.

Lemma step_rank c s s' : step c s = Some s' → rank (phase s') < rank (phase s).
Proof.
  unfold step, watch, wait, drain_check, drain_wait, hook_step, to_. destruct (phase s) as
    [|b| |dn terminal|dn|o|o|r]; [..|done].
  - destruct c as [[err|]| | | | | | |]; try done; [intros Hs%cleanup_rank|intros [= <-]]; simpl; lia.
  - destruct c, (done_ready (env s)); try done; [intros Hs%cleanup_rank; destruct b; simpl; lia|].
    destruct b; intros [= <-]; simpl; lia.
  - destruct c; try done.
    + destruct (done_ready (env s)); [|done]. intros Hs%cleanup_rank. simpl. lia.
    + destruct (ctx_done (env s)); intros [= <-]. simpl. lia.
    + destruct (interrupt_ready (env s)); intros [= <-]. simpl. lia.
  - destruct c, dn; simpl; try done; try destruct (done_ready (env s)) as [[err|]|]; try done;
      intros Hs%drain_next_rank; revert Hs; destruct terminal as [[]|]; simpl; lia.
  - destruct c; try done.
    + destruct dn; [|done]. destruct (done_ready (env s)) as [[err|]|]; intros [= <-]; simpl; lia.
    + destruct (interrupt_ready (env s)); intros [= <-]. destruct dn; simpl; lia.
    + destruct (drain_returned (env s)); [|done].
      destruct (drain_deadline _); intros [= <-]; destruct dn; simpl; lia.
    + destruct (drain_deadline (env s)); intros [= <-]. destruct dn; simpl; lia.
  - destruct (runCleanupHook c (env s)) as [[]|]; intros [= <-]; simpl; lia.
  - destruct (runCleanupHook c (env s)) as [[]|]; intros [= <-]; simpl; lia.
Qed.

(** Both deadlines have passed. *)
Definition late (s : State) : State :=
  mkState (phase s) ((env s) <| drain_deadline := true |> <| cleanup_deadline := true |>) (trace s).

Lemma cleanup_some force o e tr : is_Some (cleanup force o e tr).
Proof. unfold cleanup. by destruct force; eexists. Qed.

Lemma drain_next_some done terminal e tr : is_Some (drain_next done terminal e tr).
Proof. destruct terminal as [[]|]; [apply cleanup_some|by eexists]. Qed.

Lemma late_step s :
  (∀ r, phase s ≠ Finished r) → phase s ≠ Starting → phase s ≠ Waiting →
  ∃ c s', step c (late s) = Some s'.
Proof.
  intros Hf Hst Hw. unfold step. change (phase (late s)) with (phase s).
  change (trace (late s)) with (trace s).
  assert (drain_deadline (env (late s)) = true) as H1 by done.
  assert (cleanup_deadline (env (late s)) = true) as H2 by done.
  generalize dependent (env (late s)). intros e H1 H2.
  destruct (phase s) as [|b| |dn terminal|dn|o|o|r]; try done; [..|by destruct (Hf r)].
  - destruct (done_ready e) as [r|] eqn:Hd.
    + exists CaseDone. unfold watch. rewrite Hd. apply cleanup_some.
    + exists CaseDefault. unfold watch. rewrite Hd. by destruct b; eexists.
  - destruct (if dn then done_ready e else None) as [r|] eqn:Hd.
    + exists CaseDone. unfold drain_check. rewrite Hd. apply drain_next_some.
    + exists CaseDefault. unfold drain_check. rewrite Hd. apply drain_next_some.
  - exists CaseDeadline. unfold drain_wait. rewrite H1. by eexists.
  - exists CaseDeadline. unfold hook_step, runCleanupHook. rewrite H2. by eexists.
  - exists CaseDeadline. unfold hook_step, runCleanupHook. rewrite H2. by eexists.
Qed.

(** * Properties *)

(** How a host run ends: with valid timeouts the service is started first, then
possibly drained, then force-stopped when something failed, and always closed
last, each at most once; only a cleanup that timed out while force-stopping skips
the close. The result is the cleanup timeout if there was one; otherwise it
reports the service's failure during the drain if there was one, else the first
error that occurred. *)
Theorem run_protocol o e s r :
  (0 < DrainTimeout o)%Z → (0 < CleanupTimeout o)%Z →
  reachable (init o true e) s → phase s = Finished r →
  (calls (trace s) ∈ [[Start; Close]; [Start; Drain; Close]; [Start; ForceStop; Close];
                      [Start; Drain; ForceStop; Close]] ∨
   timed_out (trace s) ∧ calls (trace s) ∈ [[Start; ForceStop]; [Start; Drain; ForceStop]]) ∧
  (timed_out (trace s) ∧ r = cleanupTimeoutResult ∨
   ¬ timed_out (trace s) ∧ r = resultFromError (verdict (trace s))).
Proof.
  intros H1 H2 Hr Hp. pose proof (reachable_inv o e s H1 H2 Hr) as [Hinv _].
  rewrite Hp in Hinv. tauto.
Qed.

(** Exit code 0 means a graceful shutdown: the run ends successfully exactly
when a shutdown was requested, the drain returned without an error before its
deadline and before a second interrupt, and the close succeeded in time; the
service ending cleanly while it drains is the only other thing that may have
happened. No error is lost. *)
Theorem run_success o e s r :
  (0 < DrainTimeout o)%Z → (0 < CleanupTimeout o)%Z →
  reachable (init o true e) s → phase s = Finished r →
  exitCode_of r = 0%Z ↔
  core (trace s) = [StartReturned None; ShutdownRequested; DrainCalled; DrainReturned None;
                    CloseCalled; HookReturned None].
Proof.
  intros H1 H2 Hr Hp. pose proof (reachable_inv o e s H1 H2 Hr) as [Hinv _].
  rewrite Hp in Hinv. destruct Hinv as ([[Ht ->]|[Ht ->]] & _ & Hok).
  - split; [done|]. intros Hc. exfalso. unfold timed_out in Ht.
    assert (CleanupTimedOut ∈ core (trace s)) as Hin
      by (apply list_elem_of_omap; by exists CleanupTimedOut).
    rewrite Hc in Hin. set_solver.
  - rewrite resultFromError_zero. split; [|intros Hc; by rewrite core_verdict, Hc].
    intros Hv. by destruct (Hok Hv).
Qed.

(** A run cannot hang once it has to stop: every transition of [Run] brings it
strictly closer to its end (at most eleven in all), and in every phase but the
call to Start and the wait for a reason to stop, a transition is possible as soon
as the drain and cleanup deadlines have passed, whatever the service does. *)
Theorem run_terminates s :
  (∀ c s', step c s = Some s' → rank (phase s') < rank (phase s) ≤ 11) ∧
  ((∃ r, phase s = Finished r) ∨ phase s = Starting ∨ phase s = Waiting ∨
   ∃ c s', step c (late s) = Some s').
Proof.
  split.
  - intros c s' Hs. split; [by eapply step_rank|].
    destruct (phase s) as [|[]| |[] [[]|]|[]|?|?|?]; simpl; lia.
  - destruct (phase s) as [|b| |dn t|dn|o|o|r] eqn:Hp; eauto;
      do 3 right; apply late_step; rewrite Hp; done.
Qed.

(** The process outcome never leaks a cause: the exit code is 0 only for no
error, otherwise between 1 and 5, and the message that is logged is either the
safe message of a classified failure with a known code, whose code is reported,
or the fixed text of an internal error. *)
Theorem outcome_safe err :
  (exitCode_of (resultFromError err) = 0%Z ↔ err = None) ∧
  (0 ≤ exitCode_of (resultFromError err) ≤ 5)%Z ∧
  ∀ line, WriteError (resultFromError err) = Some line →
    (∃ e f m cause, err = Some e ∧ as_failure e = Some (li_Code line, f) ∧
       f = Failure (li_Code line) m cause ∧ li_Message line = m ∧ isKnownCode (li_Code line) = true) ∨
    (li_Code line = CodeInternalError ∧ li_Message line = "internal error").
Proof.
  split; [apply resultFromError_zero|]. destruct err as [e|]; [|done]. unfold resultFromError.
  pose proof (exitCode_positive CodeInternalError) as Hi.
  destruct (as_failure e) as [[code f]|] eqn:Ha; [destruct (isKnownCode code) eqn:Hk|].
  - pose proof (exitCode_positive code) as Hc. split; [simpl; lia|]. intros line.
    unfold WriteError. cbn [exitCode_of]. rewrite decide_False by lia. intros [= <-].
    left. destruct (as_failure_error _ _ _ Ha) as (m & cause & ->).
    exists e, (Failure code m cause), m, cause. by split_and!.
  - split; [simpl; lia|]. intros line [= <-]. by right.
  - split; [simpl; lia|]. intros line [= <-]. by right.
Qed.

(** * A sample run *)

Definition idle : Env := mkEnv None false false None false None false.
Definition sample_options : Options := mkOptions 30 5.

(** Runs the machine on a list of cases, each after a change of the environment. *)
Fixpoint play (moves : list ((Env → Env) * Case)) (s : State) : option State :=
  match moves with
  | [] => Some s
  | (f, c) :: moves =>
      match step c (mkState (phase s) (f (env s)) (trace s)) with
      | Some s' => play moves s'
      | None => None
      end
  end.

Lemma play_reachable s0 moves s s' :
  reachable s0 s → Forall (λ m, ∀ e, env_grows e (m.1 e)) moves → play moves s = Some s' →
  reachable s0 s'.
Proof.
  intros Hr Hm. revert s Hr. induction Hm as [|[f c] moves Hf _ IH]; intros s Hr; cbn [play].
  { by intros [= <-]. }
  destruct (step c _) as [s1|] eqn:Hs; [|done]. apply IH.
  eapply reach_step; [|exact Hs]. by apply reach_env; [|apply Hf].
Qed.

(** Cancelled, drained, closed. *)
Definition graceful : list ((Env → Env) * Case) :=
  [(id, CaseStart None); (id, CaseDefault); (λ e, e <| ctx_done := true |>, CaseContext);
   (id, CaseDefault); (id, CaseDefault);
   (λ e, match drain_returned e with None => e <| drain_returned := Some None |> | _ => e end,
    CaseDrainResult); (id, CaseDefault);
   (λ e, match hook_returned e with None => e <| hook_returned := Some None |> | _ => e end,
    CaseHookResult)].

Definition graceful_end : State :=
  default (init sample_options true idle) (play graceful (init sample_options true idle)).

Lemma graceful_reachable : reachable (init sample_options true idle) graceful_end.
Proof.
  apply (play_reachable _ graceful (init sample_options true idle)); [constructor| |by vm_compute].
  repeat (apply Forall_cons_2; [intros []; unfold env_grows; simpl; try by split_and!|]);
    [..|apply Forall_nil_2]; [destruct drain_returned0|destruct hook_returned0]; by split_and!.
Qed.

Lemma run_protocol_witness :
  phase graceful_end = Finished (mkResult 0 "" None) ∧
  (timed_out (trace graceful_end) ∧ mkResult 0 "" None = cleanupTimeoutResult ∨
   ¬ timed_out (trace graceful_end) ∧
     mkResult 0 "" None = resultFromError (verdict (trace graceful_end))).
Proof.
  split; [by vm_compute|].
  apply (run_protocol sample_options idle graceful_end (mkResult 0 "" None));
    [done|done|apply graceful_reachable|by vm_compute].
Defined.

Lemma run_success_witness :
  core (trace graceful_end) = [StartReturned None; ShutdownRequested; DrainCalled;
    DrainReturned None; CloseCalled; HookReturned None].
Proof.
  apply (run_success sample_options idle graceful_end (mkResult 0 "" None));
    [done|done|apply graceful_reachable|by vm_compute|done].
Defined.

End Host.
