(* ===== verification/ContextWindow.v ===== *)
(** contextkit: messages, tool projection, the window compressor and the
restoration of collapses ([src/contextkit/message.go], [compressor.go],
[profile.go], [toolbudget/toolbudget.go], [toolprojection/toolprojection.go],
[window/window.go]). *)

From S2P Require Import Prelude GoUtf8.
#[local] Open Scope Z_scope.

Module Context.

(** * Messages ([message.go]) *)

Definition Role := string.
Definition RoleSystem : Role := "system".
Definition RoleUser : Role := "user".
Definition RoleAssistant : Role := "assistant".
Definition RoleTool : Role := "tool".

(** An [Image] is known by its ID. *)
Record Message := mkMessage {
  ID : string;
  m_Role : Role;
  Content : string;
  Images : list string;
  ToolName : string;
  ToolCallID : string;
  m_Status : string;
  Ref : string;
  m_Metadata : Metadata
}.
#[global] Instance eta_Message : Eta Message := λ m,
  mkMessage (ID m) (m_Role m) (Content m) (Images m) (ToolName m) (ToolCallID m) (m_Status m)
    (Ref m) (m_Metadata m).

Definition CharLen (m : Message) : Z := Z.of_nat (length (string_runes (Content m))).

Record Budget := mkBudget { MaxChars : Z; MaxTokens : Z }.

Definition Bounded (b : Budget) : bool := (0 <? MaxChars b) || (0 <? MaxTokens b).

(** [cloneMessage], the same in the three packages. *)
Definition cloneMetadata (m : Metadata) : Metadata := map_clone m.
Definition cloneMessage (m : Message) : Message := m <| m_Metadata := cloneMetadata (m_Metadata m) |>.
Definition cloneMessages (ms : list Message) : list Message := cloneMessage <$> ms.

Lemma cloneMessage_same m : cloneMessage m = m.
Proof. unfold cloneMessage, cloneMetadata. destruct m; simpl. by rewrite map_clone_id. Qed.

Lemma cloneMessages_same ms : cloneMessages ms = ms.
Proof. unfold cloneMessages. induction ms; [done|]. rewrite fmap_cons, cloneMessage_same. congruence. Qed.

(** * Profiles ([profile.go]) *)

Definition Profile := string.
Definition ProfileStandard : Profile := "standard".
Definition ProfileDeep : Profile := "deep".
Definition EnvDeepCompression : string := "CONTEXT_DEEP_COMPRESSION".

(** [strings.ToLower] on ASCII; no other character lowers to a letter of the flag's words. *)
Definition ascii_lower (c : ascii) : ascii :=
  let n := N_of_ascii c in if ((65 <=? n) && (n <=? 90))%N then ascii_of_N (n + 32) else c.
Definition ToLower (s : string) : string :=
  String.string_of_list_ascii (ascii_lower <$> String.list_ascii_of_string s).

Definition ProfileFromLookup (lookup : string → option string) : Profile :=
  match lookup EnvDeepCompression with
  | None => ProfileStandard
  | Some value =>
      if decide (ToLower (TrimSpace value) ∈ ["1"; "true"; "yes"; "on"]) then ProfileDeep
      else ProfileStandard
  end.

Definition LevelsForProfile (profile : Profile) : list Z :=
  if decide (profile = ProfileDeep) then [1; 2; 3; 4; 5] else [1; 2; 3].

(** * Tool results ([toolbudget], [toolprojection]) *)

Record BudgetResult := mkBudgetResult {
  br_Content : string; br_Truncated : bool; br_OriginalChars : Z; br_OmittedChars : Z
}.

Definition Apply (content : string) (maxChars : Z) : BudgetResult :=
  let rs := string_runes content in
  let n := Z.of_nat (length rs) in
  if (maxChars <=? 0) || (n <=? maxChars) then mkBudgetResult content false n 0
  else
    let omitted := n - maxChars in
    mkBudgetResult
      (runes_string (take (Z.to_nat maxChars) rs) +:+
       String (ascii_of_N 10) ("[truncated " +:+ pretty omitted +:+ " chars]"))
      true n omitted.

Definition newline : string := String (ascii_of_N 10) "".

Definition Project (msg : Message) (maxResultChars : Z) : Message :=
  let out := cloneMessage msg in
  if decide (m_Role out ≠ RoleTool) then out
  else
    let toolName := if decide (ToolName out = "") then "unknown" else ToolName out in
    let status := if decide (m_Status out = "") then "success" else m_Status out in
    let budgeted := Apply (Content out) maxResultChars in
    let lines := ["tool=" +:+ toolName; "status=" +:+ status] ++
      (if decide (ToolCallID out ≠ "") then ["tool_call_id=" +:+ ToolCallID out] else []) ++
      (if decide (Ref out ≠ "") then ["ref=" +:+ Ref out] else []) ++
      ["result=" +:+ br_Content budgeted] in
    let md := <["contextkit.tool_projected" := ABool true]> (m_Metadata out) in
    let md := if br_Truncated budgeted
              then <["contextkit.tool_omitted_chars" := AInt (br_OmittedChars budgeted)]>
                     (<["contextkit.tool_truncated" := ABool true]> md) else md in
    out <| Content := strings_Join lines newline |>
        <| m_Metadata := <["contextkit.tool_original_chars" := AInt (br_OriginalChars budgeted)]> md |>.

Definition FormatResultRef (toolName id : string) : string :=
  if decide (id = "") then "" else if decide (toolName = "") then id else toolName +:+ ":" +:+ id.

(** * Collapses ([compressor.go]) *)

Record Collapse := mkCollapse {
  cl_ID : string;
  cl_StartIndex : Z;
  cl_EndIndex : Z;
  cl_Summary : Message;
  cl_OriginalIDs : list string;
  cl_Originals : list Message
}.
#[global] Instance eta_Collapse : Eta Collapse := λ c,
  mkCollapse (cl_ID c) (cl_StartIndex c) (cl_EndIndex c) (cl_Summary c) (cl_OriginalIDs c)
    (cl_Originals c).

Record Compact := mkCompact { cp_Summary : string; cp_Metadata : Metadata }.

Record Request := mkRequest {
  rq_Messages : list Message; rq_Budget : Budget; rq_Metadata : Metadata
}.

Record Result := mkResult {
  r_Messages : list Message;
  r_Profile : Profile;
  r_Levels : list Z;
  r_Summary : string;
  r_Dropped : Z;
  r_OverBudget : bool;
  r_Collapses : list Collapse;
  r_AutoCompact : option Compact
}.

Record SummarizeRequest := mkSummarize {
  sm_Previous : string;
  sm_Collapsed : list Message;
  sm_Recent : list Message;
  sm_Budget : Budget;
  sm_Metadata : Metadata
}.

(** [msg.Metadata[key].(string)], "" when it is not a string. *)
Definition meta_string (m : Message) (key : string) : string :=
  match m_Metadata m !! key with Some (AString s) => s | _ => "" end.

Definition collapseIDKey : string := "contextkit.collapse_id".

(** The collapse a message stands for. *)
Definition collapseIDFromMessage (m : Message) : option string :=
  let id := meta_string m collapseIDKey in if decide (id = "") then None else Some id.

(** [restore]: [expanding] holds the collapses being expanded. Each level adds one of
[byID] to it, so [fuel] beyond the size of [byID] is enough. *)
Fixpoint restore (fuel : nat) (byID : GoMap Collapse) (expanding : gset string)
    (ms : list Message) : list Message :=
  match fuel with
  | O => []
  | S fuel =>
      m ← ms;
      match collapseIDFromMessage m with
      | Some id =>
          if decide (id ∈ expanding) then [cloneMessage m]
          else match byID !! id with
          | Some c => restore fuel byID ({[id]} ∪ expanding) (cl_Originals c)
          | None => [cloneMessage m]
          end
      | None => [cloneMessage m]
      end
  end.

Definition collapses_by_id (cs : list Collapse) : GoMap Collapse :=
  foldl (λ m c, if decide (cl_ID c = "") then m else <[cl_ID c := c]> m) ∅ cs.

Definition RestoreProjection (ms : list Message) (cs : list Collapse) : list Message :=
  let byID := collapses_by_id cs in restore (S (size byID)) byID ∅ ms.

(** * The window compressor ([window/window.go]) *)

Definition kindKey : string := "contextkit.kind".
Definition droppedTotalKey : string := "contextkit.dropped_total".
Definition droppedImagesKey : string := "contextkit.dropped_images".
Definition kindWindowSummary : string := "window_summary".
Definition kindCollapseSummary : string := "collapse_summary".

Inductive Error :=
| ErrCtx (e : CtxErr)
| ErrTokenCounterRequired
| ErrSummarizer (text : string).

Abbreviation TokenCounter := (Message → Z).
(** A summarizer's answer to a request: an error, nothing, or a summary. *)
Abbreviation Summarizer := (SummarizeRequest → res Error (option Compact)).

Record Config := mkConfig {
  cfg_Budget : Budget;
  cfg_Profile : Profile;
  MinRecent : Z;
  MaxToolChars : Z;
  CountTokens : option TokenCounter;
  cfg_Summarizer : option Summarizer
}.
#[global] Instance eta_Config : Eta Config := λ c,
  mkConfig (cfg_Budget c) (cfg_Profile c) (MinRecent c) (MaxToolChars c) (CountTokens c)
    (cfg_Summarizer c).

(** [New]; [lookup] is the environment. *)
Definition New (lookup : string → option string) (cfg : Config) : Config :=
  let cfg := if decide (cfg_Profile cfg = "")
             then cfg <| cfg_Profile := ProfileFromLookup lookup |> else cfg in
  if MinRecent cfg <=? 0 then cfg <| MinRecent := 1 |> else cfg.

(** What messages take from a budget. *)
Record cost := mkCost { chars : Z; tokens : Z }.

Definition cost_add (c o : cost) : cost := mkCost (chars c + chars o) (tokens c + tokens o).

Definition fits (b : Budget) (c : cost) : bool :=
  ((MaxChars b <=? 0) || (chars c <=? MaxChars b)) &&
  ((MaxTokens b <=? 0) || (tokens c <=? MaxTokens b)).

(** [coster]; [CountTokens] is not nil when tokens are limited. *)
Definition costOf (count : option TokenCounter) (b : Budget) (ms : list Message) : cost :=
  foldl (λ total msg,
    mkCost (chars total + CharLen msg)
      (if 0 <? MaxTokens b
       then tokens total + match count with Some f => f msg | None => 0 end
       else tokens total)) (mkCost 0 0) ms.

Definition is_user (m : Message) : bool := bool_decide (m_Role m = RoleUser).

(** A message at which a kept window may start. *)
Definition turn_start (hasUser : bool) (m : Message) : bool :=
  is_user m || (negb hasUser && negb (bool_decide (m_Role m = RoleTool))).

(** The indexes [i, i+1, ...] of the messages that start a turn. *)
Fixpoint starts_from (hasUser : bool) (i : nat) (ms : list Message) : list nat :=
  match ms with
  | [] => []
  | m :: ms' => (if turn_start hasUser m then [i] else []) ++ starts_from hasUser (S i) ms'
  end.

Definition turnBoundaries (ms : list Message) : list nat :=
  0%nat :: starts_from (existsb is_user ms) 1 (tail ms).

(** The last boundary that keeps [minRecent] messages. *)
Definition first_cut (boundaries : list nat) (limit : nat) : nat :=
  foldl (λ cut b, if (b <=? limit)%nat then b else cut) 0%nat boundaries.

(** [messages[from:to]]. *)
Definition slice (ms : list Message) (from to : nat) : list Message := take (to - from) (drop from ms).

(** Extending the window over earlier turns, newest first, while they fit. *)
Fixpoint extend (fit : cost → bool) (price : list Message → cost) (ms : list Message)
    (bs : list nat) (cut : nat) (kept : cost) : nat * cost :=
  match bs with
  | [] => (cut, kept)
  | b :: bs' =>
      if (cut <=? b)%nat then extend fit price ms bs' cut kept
      else
        let next := cost_add kept (price (slice ms b cut)) in
        if fit next then extend fit price ms bs' b next else (cut, kept)
  end.

Definition windowStart (ms : list Message) (minRecent : Z) (bounded : bool)
    (price : list Message → cost) (fit : cost → bool) : nat * cost :=
  if negb bounded then (0%nat, mkCost 0 0)
  else
    let boundaries := turnBoundaries ms in
    let limit := Z.to_nat (Z.max (Z.of_nat (length ms) - minRecent) 0) in
    let cut := first_cut boundaries limit in
    extend fit price ms (reverse boundaries) cut (price (drop cut ms)).

Definition budgetToolMessages (ms : list Message) (maxToolChars : Z) : list Message :=
  (λ m, let copied := cloneMessage m in
        if decide (m_Role copied = RoleTool) then Project copied maxToolChars else copied) <$> ms.

Definition isSummary (m : Message) : bool :=
  let kind := meta_string m kindKey in
  bool_decide (kind = kindWindowSummary) || bool_decide (kind = kindCollapseSummary).

Definition is_system (m : Message) : bool := bool_decide (m_Role m = RoleSystem).

(** [split]: system messages, earlier summaries, conversation. *)
Definition systems (ms : list Message) : list Message :=
  filter (λ m, isSummary m = false ∧ is_system m = true) ms.
Definition summaries (ms : list Message) : list Message := filter (λ m, isSummary m = true) ms.
Definition conversation (ms : list Message) : list Message :=
  filter (λ m, isSummary m = false ∧ is_system m = false) ms.

(** A count a summary carries: an int, or a float64 truncated. *)
Definition metadataInt (m : Message) (key : string) : Z :=
  match m_Metadata m !! key with
  | Some (AInt n) => n
  | Some (AFloat64 num den) => num `quot` Zpos den
  | _ => 0
  end.

Definition sum_of (f : Message → Z) (ms : list Message) : Z := foldr (λ m n, f m + n) 0 ms.

Definition imageCount (ms : list Message) : Z := sum_of (λ m, Z.of_nat (length (Images m))) ms.

Definition nonempty_ids (ms : list Message) : list string := filter (λ s, s ≠ "") (ID <$> ms).

Definition placeholderSummary (total images : Z) (dropped : list Message) : string :=
  "compressed earlier context: " +:+ pretty total +:+ " messages omitted" +:+
  (if 0 <? images then " (" +:+ pretty images +:+ " images)" else "") +:+
  (match nonempty_ids dropped with
   | [] => ""
   | ids => ", latest ids: " +:+ strings_Join ids ", "
   end).

Definition joinContents (ms : list Message) : string := strings_Join (Content <$> ms) newline.

Definition original_ids (ms : list Message) : list string :=
  imap (λ i m, if decide (ID m ≠ "") then ID m
               else if isSummary m then "summary:" +:+ meta_string m collapseIDKey
               else "index:" +:+ pretty (Z.of_nat i)) ms.

Definition effectiveBudget (requestBudget configBudget : Budget) : Budget :=
  if Bounded requestBudget then requestBudget else configBudget.

Section compressor.
(** The lower-case hexadecimal SHA-1 of a string. *)
Context (sha1_hex : string → string) (cfg : Config).

Definition collapseID (ids : list string) : string :=
  "collapse-" +:+ String.substring 0 12
    (sha1_hex (strings_Join ids (String (ascii_of_N 0) ""))).

Definition buildCollapse (ms : list Message) (summary : Message) : Collapse :=
  let ids := original_ids ms in
  mkCollapse (collapseID ids) 0 (Z.of_nat (length ms) - 1) summary ids (cloneMessages ms).

(** [summarize]: the summary message, with the compact and the collapse it adds to the result. *)
Definition summarize (profile : Profile) (previous dropped recent : list Message) (budget : Budget)
    (metadata : Metadata) : res Error (Message * option Compact * list Collapse) :=
  let total := Z.of_nat (length dropped) + sum_of (λ m, metadataInt m droppedTotalKey) previous in
  let images := imageCount dropped + sum_of (λ m, metadataInt m droppedImagesKey) previous in
  let md : Metadata := <[droppedTotalKey := AInt total]> (<[kindKey := AString kindWindowSummary]> ∅) in
  let md := if 0 <? images then <[droppedImagesKey := AInt images]> md else md in
  let summary := mkMessage "" RoleSystem (placeholderSummary total images dropped) [] "" "" "" "" md in
  if decide (profile ≠ ProfileDeep) then Ok (summary, None, [])
  else
    let? compacted :=
      match cfg_Summarizer cfg with
      | None => Ok None
      | Some f => f (mkSummarize (joinContents previous) (cloneMessages dropped)
                       (cloneMessages recent) budget (cloneMetadata metadata))
      end in
    let '(summary, compact) :=
      match compacted with
      | Some c =>
          if decide (cp_Summary c ≠ "")
          then (summary <| Content := "summary of earlier context:" +:+ newline +:+ cp_Summary c |>,
                Some (mkCompact (cp_Summary c) (cloneMetadata (cp_Metadata c))))
          else (summary, None)
      | None => (summary, None)
      end in
    let collapse := buildCollapse (cloneMessages previous ++ dropped) summary in
    let summary := summary <| m_Metadata :=
      <[collapseIDKey := AString (cl_ID collapse)]>
        (<[kindKey := AString kindCollapseSummary]> (m_Metadata summary)) |> in
    Ok (summary, compact, [collapse <| cl_Summary := cloneMessage summary |>]).

Definition Compress (ctx : Ctx) (req : Request) : res Error Result :=
  match ctx with
  | Some e => Err (ErrCtx e)
  | None =>
      let profile := if decide (cfg_Profile cfg = "") then ProfileStandard else cfg_Profile cfg in
      let budget := effectiveBudget (rq_Budget req) (cfg_Budget cfg) in
      if (0 <? MaxTokens budget) && bool_decide (CountTokens cfg = None)
      then Err ErrTokenCounterRequired
      else
        let messages := budgetToolMessages (rq_Messages req) (MaxToolChars cfg) in
        let system := systems messages in
        let previous := summaries messages in
        let convo := conversation messages in
        let price := costOf (CountTokens cfg) budget in
        let base := price system in
        let fit := λ kept, fits budget (cost_add base kept) in
        let '(cut, kept) := windowStart convo (MinRecent cfg) (Bounded budget) price fit in
        let dropped := take cut convo in
        let recent := drop cut convo in
        let over := Bounded budget && negb (fit kept) in
        let result out text compact collapses :=
          mkResult (system ++ out ++ recent) profile (LevelsForProfile profile) text
            (Z.of_nat (length dropped)) over collapses compact in
        match dropped with
        | [] => Ok (result previous (match last previous with Some m => Content m | None => "" end) None [])
        | _ =>
            let? summarized :=
              summarize profile previous dropped recent budget (rq_Metadata req) in
            let '(summary, compact, collapses) := summarized in
            Ok (result [summary] (Content summary) compact collapses)
        end
  end.

End compressor.

(** * Costs *)

Lemma sum_of_app f l l' : sum_of f (l ++ l') = sum_of f l + sum_of f l'.
Proof. unfold sum_of. induction l as [|m l IH]; simpl; [done|]. lia. Qed.

Lemma sum_of_nonneg f l : (∀ m, 0 ≤ f m) → 0 ≤ sum_of f l.
Proof. intros Hf. unfold sum_of. induction l as [|m l IH]; simpl; [done|]. specialize (Hf m). lia. Qed.

(** What a message costs in tokens under a budget. *)
Definition token_cost (count : option TokenCounter) (b : Budget) (m : Message) : Z :=
  if 0 <? MaxTokens b then match count with Some f => f m | None => 0 end else 0.

Lemma costOf_sum count b ms :
  costOf count b ms = mkCost (sum_of CharLen ms) (sum_of (token_cost count b) ms).
Proof.
  unfold costOf. assert (∀ c, foldl (λ total msg,
    mkCost (chars total + CharLen msg)
      (if 0 <? MaxTokens b
       then tokens total + match count with Some f => f msg | None => 0 end
       else tokens total)) c ms =
    mkCost (chars c + sum_of CharLen ms) (tokens c + sum_of (token_cost count b) ms)) as H; [|by rewrite H].
  unfold token_cost, sum_of.
  induction ms as [|m ms IH]; intros [x y]; simpl; [f_equal; lia|]. rewrite IH. simpl.
  destruct (0 <? MaxTokens b); f_equal; lia.
Qed.

Lemma costOf_app count b l l' :
  costOf count b (l ++ l') = cost_add (costOf count b l') (costOf count b l).
Proof. rewrite !costOf_sum, !sum_of_app. unfold cost_add. simpl. f_equal; lia. Qed.

(** A counter never prices a message below zero. *)
Definition counter_ok (count : option TokenCounter) : Prop :=
  ∀ f m, count = Some f → 0 ≤ f m.

Lemma fits_smaller count b base l l' :
  counter_ok count → fits b (cost_add base (costOf count b (l ++ l'))) = true →
  fits b (cost_add base (costOf count b l')) = true.
Proof.
  intros Hc. rewrite costOf_app, !costOf_sum. unfold fits, cost_add. simpl.
  assert (0 ≤ sum_of CharLen l) by (apply sum_of_nonneg; unfold CharLen; lia).
  assert (0 ≤ sum_of (token_cost count b) l).
  { apply sum_of_nonneg. intros m. unfold token_cost. case_match; [|done].
    destruct count as [f|] eqn:Hf; [by eapply Hc|done]. }
  rewrite !andb_true_iff, !orb_true_iff, !Z.leb_le. lia.
Qed.

(** * Turn boundaries *)

Lemma elem_of_starts u ms i b :
  b ∈ starts_from u i ms ↔ ∃ k m, b = (i + k)%nat ∧ ms !! k = Some m ∧ turn_start u m = true.
Proof.
  revert i. induction ms as [|m ms IH]; intros i; simpl.
  - rewrite elem_of_nil. split; [done|]. by intros (k & m & _ & Hk & _).
  - rewrite elem_of_app, IH. split.
    + intros [Hb|(k & m' & -> & Hk & Ht)].
      * destruct (turn_start u m) eqn:Ht; [|by apply not_elem_of_nil in Hb].
        apply list_elem_of_singleton in Hb as ->. exists 0%nat, m. split_and!; [lia|done|done].
      * exists (S k), m'. split_and!; [lia|done|done].
    + intros ([|k] & m' & -> & Hk & Ht).
      * left. simpl in Hk. injection Hk as ->. rewrite Ht, Nat.add_0_r. by apply list_elem_of_singleton.
      * right. exists k, m'. split_and!; [lia|done|done].
Qed.

Lemma elem_of_boundaries ms b :
  b ∈ turnBoundaries ms ↔
  b = 0%nat ∨ ∃ m, ms !! b = Some m ∧ (0 < b)%nat ∧ turn_start (existsb is_user ms) m = true.
Proof.
  unfold turnBoundaries. rewrite elem_of_cons, elem_of_starts. split.
  - intros [->|(k & m & -> & Hk & Ht)]; [by left|]. right. exists m.
    rewrite lookup_tail in Hk. split_and!; [done|lia|done].
  - intros [->|(m & Hk & Hb & Ht)]; [by left|]. right. destruct b as [|b]; [lia|].
    exists b, m. rewrite lookup_tail. split_and!; [lia|done|done].
Qed.

Lemma starts_sorted u ms i :
  StronglySorted lt (starts_from u i ms) ∧ Forall (λ b, (i ≤ b)%nat) (starts_from u i ms).
Proof.
  revert i. induction ms as [|m ms IH]; intros i; simpl; [by split; constructor|].
  destruct (IH (S i)) as [Hs Hf].
  assert (Forall (λ b, (i ≤ b)%nat) (starts_from u (S i) ms)) as Hf'.
  { eapply Forall_impl; [exact Hf|]. simpl. lia. }
  destruct (turn_start u m); simpl; [|done]. split; [|by constructor; [lia|]]. constructor; [done|].
  eapply Forall_impl; [exact Hf|]. simpl. lia.
Qed.

Lemma boundaries_sorted ms : StronglySorted lt (turnBoundaries ms).
Proof.
  unfold turnBoundaries. destruct (starts_sorted (existsb is_user ms) (tail ms) 1) as [Hs Hf].
  constructor; [done|]. eapply Forall_impl; [exact Hf|]. simpl. lia.
Qed.

Lemma first_cut_spec bs limit :
  StronglySorted lt bs → 0%nat ∈ bs →
  first_cut bs limit ∈ bs ∧ (first_cut bs limit ≤ limit)%nat ∧
  ∀ b, b ∈ bs → (b ≤ limit)%nat → (b ≤ first_cut bs limit)%nat.
Proof.
  intros Hs H0. unfold first_cut.
  assert (∀ cut, (cut ≤ limit)%nat → Forall (λ b, (cut ≤ b)%nat) bs →
    let r := foldl (λ cut b, if (b <=? limit)%nat then b else cut) cut bs in
    (r ∈ bs ∨ r = cut) ∧ (r ≤ limit)%nat ∧ (cut ≤ r)%nat ∧
    ∀ b, b ∈ bs → (b ≤ limit)%nat → (b ≤ r)%nat) as Hgen.
  { clear H0. induction Hs as [|x bs Hs IH Hx]; intros cut Hc Hf; simpl.
    { split_and!; [by right|done|done|]. intros b Hb. by apply not_elem_of_nil in Hb. }
    apply Forall_cons in Hf as [Hcx Hf].
    assert (Forall (λ b, ((if (x <=? limit)%nat then x else cut) ≤ b)%nat) bs) as Hf'.
    { case_match; [|done]. eapply Forall_impl; [exact Hx|]. simpl. lia. }
    destruct (IH (if (x <=? limit)%nat then x else cut)) as (H1 & H2 & H3 & H4); [|exact Hf'|].
    { case_match eqn:E; [by apply Nat.leb_le in E|done]. }
    destruct (x <=? limit)%nat eqn:E; [apply Nat.leb_le in E|apply Nat.leb_gt in E].
    - split_and!; [left; set_solver|done|lia|]. intros b [->|Hb]%elem_of_cons Hl; [done|auto].
    - split_and!; [set_solver|done|done|]. intros b [->|Hb]%elem_of_cons Hl; [lia|auto]. }
  destruct (Hgen 0%nat) as (H1 & H2 & _ & H4); [lia|apply Forall_forall; lia|].
  split_and!; [|done|done]. destruct H1 as [?| ->]; done.
Qed.

(** * The window *)

Lemma drop_slice ms b cut : (b ≤ cut)%nat → drop b ms = slice ms b cut ++ drop cut ms.
Proof.
  intros H. unfold slice. rewrite <-(take_drop (cut - b) (drop b ms)) at 1.
  rewrite drop_drop. by replace (b + (cut - b))%nat with cut by lia.
Qed.

Section window.
Context (count : option TokenCounter) (budget : Budget) (base : cost) (ms : list Message).
Context (Hcount : counter_ok count).

#[local] Abbreviation price := (costOf count budget).

(** The window from [b] fits, together with the system messages. *)
Definition window_fits (b : nat) : bool := fits budget (cost_add base (price (drop b ms))).

Lemma window_fits_mono b b' :
  (b ≤ b')%nat → window_fits b = true → window_fits b' = true.
Proof.
  intros H. unfold window_fits. rewrite (drop_slice ms b b') by done. by apply fits_smaller.
Qed.

Lemma extend_spec bs cut :
  StronglySorted (flip lt) bs →
  ∃ cut', extend (λ kept, fits budget (cost_add base kept)) price ms bs cut (price (drop cut ms)) =
      (cut', price (drop cut' ms)) ∧
    (cut' = cut ∨ cut' ∈ bs ∧ (cut' < cut)%nat ∧ window_fits cut' = true) ∧
    ∀ b, b ∈ bs → (b < cut')%nat → window_fits b = false.
Proof.
  intros Hs. revert cut. induction Hs as [|b bs Hs IH Hb]; intros cut; simpl.
  { exists cut. split_and!; [done|by left|]. intros b Hb. by apply not_elem_of_nil in Hb. }
  destruct (cut <=? b)%nat eqn:Hcb; [apply Nat.leb_le in Hcb|apply Nat.leb_gt in Hcb].
  - destruct (IH cut) as (cut' & -> & H1 & H2). exists cut'. split_and!; [done| |].
    + destruct H1 as [?|(? & ? & ?)]; [by left|]. right. set_solver.
    + intros b' [->|Hb']%elem_of_cons Hlt; [|by apply H2]. destruct H1 as [->|(_ & Hc & _)]; lia.
  - assert (cost_add (price (drop cut ms)) (price (slice ms b cut)) = price (drop b ms)) as ->.
    { by rewrite (drop_slice ms b cut), costOf_app by lia. }
    fold (window_fits b). destruct (window_fits b) eqn:Hfit.
    + destruct (IH b) as (cut' & -> & H1 & H2). exists cut'. split_and!; [done| |].
      * right. destruct H1 as [->|(? & ? & ?)]; [set_solver|]. split_and!; [set_solver|lia|done].
      * intros b' [->|Hb']%elem_of_cons Hlt; [|by apply H2]. destruct H1 as [->|(_ & Hc & _)]; lia.
    + exists cut. split_and!; [done|by left|]. intros b' Hin Hlt.
      destruct (window_fits b') eqn:Hf'; [|done]. exfalso.
      assert (b' ≤ b)%nat as Hle.
      { apply elem_of_cons in Hin as [->|Hin]; [done|]. rewrite Forall_forall in Hb.
        specialize (Hb b' Hin). unfold flip in Hb. lia. }
      by rewrite (window_fits_mono b' b Hle Hf') in Hfit.
Qed.

(** The longest window the budget allows: the earliest turn from which everything fits, or
the shortest window that keeps [minRecent] messages when not even that one fits. *)
Definition is_window (minRecent : Z) (cut : nat) : Prop :=
  let limit := Z.to_nat (Z.max (Z.of_nat (length ms) - minRecent) 0) in
  cut ∈ turnBoundaries ms ∧ (cut ≤ limit)%nat ∧
  (∀ b, b ∈ turnBoundaries ms → (b < cut)%nat → window_fits b = false) ∧
  (window_fits cut = false → ∀ b, b ∈ turnBoundaries ms → (b ≤ limit)%nat → (b ≤ cut)%nat).

Lemma reverse_sorted bs : StronglySorted lt bs → StronglySorted (flip lt) (reverse bs).
Proof.
  induction 1 as [|b bs Hs IH Hb]; [constructor|]. rewrite reverse_cons.
  apply StronglySorted_app. split_and!; [|done|by repeat constructor].
  intros x y Hx Hy. apply list_elem_of_singleton in Hy as ->. rewrite elem_of_reverse in Hx.
  rewrite Forall_forall in Hb. by apply Hb.
Qed.

Lemma windowStart_spec minRecent :
  ∃ cut, windowStart ms minRecent true price (λ kept, fits budget (cost_add base kept)) =
      (cut, price (drop cut ms)) ∧ is_window minRecent cut.
Proof.
  unfold windowStart. cbn [negb]. set (limit := Z.to_nat _).
  destruct (first_cut_spec (turnBoundaries ms) limit (boundaries_sorted ms)) as (H1 & H2 & H3).
  { apply elem_of_boundaries. by left. }
  set (cut0 := first_cut _ _) in *. clearbody cut0.
  destruct (extend_spec (reverse (turnBoundaries ms)) cut0) as (cut & -> & Hc & Hmin).
  { apply reverse_sorted, boundaries_sorted. }
  exists cut. split; [done|]. unfold is_window. fold limit.
  assert (∀ b, b ∈ turnBoundaries ms → (b < cut)%nat → window_fits b = false) as Hmin'.
  { intros b Hb. apply Hmin. by rewrite elem_of_reverse. }
  destruct Hc as [->|(Hin & Hlt & Hfit)]; [done|]. rewrite elem_of_reverse in Hin.
  split_and!; [done|lia|done|]. intros Hnf. congruence.
Qed.

End window.

(** ** Theorems about [Compress] *)

Section theorems.
Context (sha1_hex : string → string) (cfg : Config).

(** The messages as [Compress] prices and keeps them. *)
Definition prepared (req : Request) : list Message :=
  budgetToolMessages (rq_Messages req) (MaxToolChars cfg).
Definition budget_of (req : Request) : Budget := effectiveBudget (rq_Budget req) (cfg_Budget cfg).
Definition profile_of : Profile :=
  if decide (cfg_Profile cfg = "") then ProfileStandard else cfg_Profile cfg.

(** [Compress] in terms of the cut it makes. *)
Lemma Compress_cut ctx req r :
  counter_ok (CountTokens cfg) → Compress sha1_hex cfg ctx req = Ok r →
  let convo := conversation (prepared req) in
  let base := costOf (CountTokens cfg) (budget_of req) (systems (prepared req)) in
  ∃ cut middle,
    r_Messages r = systems (prepared req) ++ middle ++ drop cut convo ∧
    r_Dropped r = Z.of_nat cut ∧ (cut ≤ length convo)%nat ∧
    (if Bounded (budget_of req)
     then is_window (CountTokens cfg) (budget_of req) base convo (MinRecent cfg) cut ∧
       r_OverBudget r = negb (window_fits (CountTokens cfg) (budget_of req) base convo cut)
     else cut = 0%nat ∧ r_OverBudget r = false) ∧
    ((cut = 0%nat ∧ middle = summaries (prepared req) ∧ r_Collapses r = []) ∨
     ∃ summary compact collapses, (0 < cut)%nat ∧
       summarize sha1_hex cfg profile_of (summaries (prepared req)) (take cut convo) (drop cut convo)
         (budget_of req) (rq_Metadata req) = Ok (summary, compact, collapses) ∧
       middle = [summary] ∧ r_Collapses r = collapses).
Proof.
  intros Hcount H. unfold Compress in H. destruct ctx as [e|]; [done|].
  destruct (_ && _); [done|]. fold (prepared req) (budget_of req) profile_of in H.
  set (convo := conversation (prepared req)) in *.
  set (base := costOf _ _ (systems (prepared req))) in *.
  destruct (windowStart _ _ _ _ _) as [cut kept] eqn:Hw.
  assert ((cut ≤ length convo)%nat ∧
    (if Bounded (budget_of req)
     then is_window (CountTokens cfg) (budget_of req) base convo (MinRecent cfg) cut ∧
       kept = costOf (CountTokens cfg) (budget_of req) (drop cut convo)
     else cut = 0%nat)) as [Hlen Hcut].
  { destruct (Bounded (budget_of req)).
    - destruct (windowStart_spec (CountTokens cfg) (budget_of req) base convo Hcount (MinRecent cfg))
        as (cut' & Heq & Hwin). rewrite Heq in Hw. injection Hw as <- <-. split; [|done].
      destruct Hwin as [Hb _]. apply elem_of_boundaries in Hb as [->|(m & Hm & _)]; [lia|].
      apply lookup_lt_Some in Hm. lia.
    - injection Hw as <- <-. split; [lia|done]. }
  assert (Z.of_nat (length (take cut convo)) = Z.of_nat cut) as Htake.
  { rewrite length_take. lia. }
  exists cut, (match take cut convo with [] => summaries (prepared req)
    | _ => match summarize sha1_hex cfg profile_of (summaries (prepared req)) (take cut convo)
             (drop cut convo) (budget_of req) (rq_Metadata req) with
           | Ok (summary, _, _) => [summary] | Err _ => [] end end).
  destruct (take cut convo) as [|d0 ds0] eqn:Hd.
  - injection H as <-. simpl. simpl in Htake. split_and!; try done; [|left; split_and!; [lia|done..]].
    destruct (Bounded (budget_of req)); [|split; [lia|done]]. destruct Hcut as [? ->]. done.
  - rewrite <-Hd in *. destruct (summarize _ _ _ _ _ _ _ _) as [[[summary compact] collapses]|] eqn:Hs;
      [|done]. injection H as <-. simpl. split_and!; try done.
    + destruct (Bounded (budget_of req)); [|split; [lia|done]]. destruct Hcut as [? ->]. done.
    + right. exists summary, compact, collapses. split_and!; try done.
      destruct cut; [done|lia].
Qed.

(** ** Summaries are recognised *)

Lemma summarize_summary profile previous dropped recent budget metadata summary compact collapses :
  summarize sha1_hex cfg profile previous dropped recent budget metadata =
    Ok (summary, compact, collapses) →
  isSummary summary = true ∧ m_Role summary = RoleSystem ∧
  metadataInt summary droppedTotalKey =
    Z.of_nat (length dropped) + sum_of (λ m, metadataInt m droppedTotalKey) previous.
Proof.
  unfold summarize. set (total := _ + sum_of _ previous). set (images := imageCount dropped + _).
  set (md := if 0 <? images then _ else _).
  assert (md !! kindKey = Some (AString kindWindowSummary) ∧
          md !! droppedTotalKey = Some (AInt total)) as [Hk Ht].
  { unfold md. by destruct (0 <? images). }
  clearbody md. case_decide.
  - intros [= <- <- <-]. unfold isSummary, meta_string, metadataInt. simpl. by rewrite Hk, Ht.
  - destruct (match cfg_Summarizer cfg with Some _ => _ | None => _ end) as [compacted|]; [|done].
    cbn [res_bind].
    set (text := match compacted with Some c => _ | None => _ end).
    assert (∃ content, text.1 = mkMessage "" RoleSystem content [] "" "" "" "" md) as [content Htext].
    { unfold text. destruct compacted as [cp|]; [case_decide|]; by eexists. }
    destruct text as [summary0 compact0]. simpl in Htext. subst summary0.
    intros [= <- <- <-]. unfold isSummary, meta_string, metadataInt. simpl.
    rewrite lookup_insert_ne by done. rewrite lookup_insert_eq. split_and!; [done|done|].
    rewrite !lookup_insert_ne by done. by rewrite Ht.
Qed.

(** ** The best window

Stated on the messages themselves: where a turn starts, what fits, and which window is best. *)

(** A turn starts with the first message, with a message of the user, and, when no message is the user's,
with any message that is not a tool's. *)
Definition turn_at (ms : list Message) (b : nat) : Prop :=
  b = 0%nat ∨ ∃ m, ms !! b = Some m ∧
    (m_Role m = "user" ∨ (∀ m', m' ∈ ms → m_Role m' ≠ "user") ∧ m_Role m ≠ "tool").

(** The messages have at most so many characters and tokens, for each limit that is set. *)
Definition within (count : option TokenCounter) (b : Budget) (ms : list Message) : Prop :=
  (0 < MaxChars b → sum_of (λ m, Z.of_nat (length (string_runes (Content m)))) ms ≤ MaxChars b) ∧
  (0 < MaxTokens b → ∃ f, count = Some f ∧ sum_of f ms ≤ MaxTokens b).

(** The messages from [cut] on are whole turns, the last [minRecent] messages among them (or all). No
longer run of whole turns fits beside [sys]; and when this one does not fit, no shorter one would do. *)
Definition best_window (count : option TokenCounter) (b : Budget) (sys ms : list Message) (minRecent : Z)
    (cut : nat) : Prop :=
  let enough c := c = 0%nat ∨ minRecent ≤ Z.of_nat (length ms) - Z.of_nat c in
  turn_at ms cut ∧ enough cut ∧
  (∀ c, turn_at ms c → (c < cut)%nat → ¬ within count b (sys ++ drop c ms)) ∧
  (¬ within count b (sys ++ drop cut ms) → ∀ c, turn_at ms c → enough c → (c ≤ cut)%nat).

Lemma boundaries_turn_at ms b : b ∈ turnBoundaries ms ↔ turn_at ms b.
Proof.
  rewrite elem_of_boundaries. unfold turn_at, turn_start, is_user.
  assert (existsb is_user ms = false ↔ ∀ m', m' ∈ ms → m_Role m' ≠ "user") as Hex.
  { rewrite <-not_true_iff_false, existsb_exists. unfold is_user. setoid_rewrite bool_decide_eq_true.
    setoid_rewrite <-list_elem_of_In. change RoleUser with "user". naive_solver. }
  setoid_rewrite orb_true_iff. setoid_rewrite andb_true_iff. setoid_rewrite negb_true_iff.
  setoid_rewrite bool_decide_eq_true. setoid_rewrite bool_decide_eq_false. fold is_user. setoid_rewrite Hex.
  change RoleUser with "user". change RoleTool with "tool".
  destruct (decide (b = 0%nat)) as [->|Hb]; [naive_solver|].
  split; intros [?|(m & Hm & Hrest)]; try done; right; exists m; [tauto|]. split_and!; [done|lia|tauto].
Qed.

Lemma window_within count b sys ms cut :
  (0 < MaxTokens b → count ≠ None) →
  window_fits count b (costOf count b sys) ms cut = true ↔ within count b (sys ++ drop cut ms).
Proof.
  intros Hcount. unfold window_fits, within. rewrite !costOf_sum. unfold fits, cost_add. cbn [chars tokens].
  rewrite <-!sum_of_app, andb_true_iff, !orb_true_iff, !Z.leb_le. fold CharLen.
  change (λ m, Z.of_nat (length (string_runes (Content m)))) with CharLen.
  unfold token_cost. destruct (Z.ltb_spec 0 (MaxTokens b)) as [Ht|Ht].
  - destruct count as [f|]; [|by destruct Hcount]. split.
    + intros [H1 H2]. split; [lia|]. intros _. exists f. split; [done|]. destruct H2; [lia|done].
    + intros [H1 H2]. destruct (H2 Ht) as (g & [= <-] & Hg). split; [lia|by right].
  - split; [|lia]. intros [H1 _]. split; lia.
Qed.

Lemma is_window_best count b sys ms minRecent cut :
  (0 < MaxTokens b → count ≠ None) →
  is_window count b (costOf count b sys) ms minRecent cut → best_window count b sys ms minRecent cut.
Proof.
  intros Hcount. unfold is_window, best_window. cbv zeta. setoid_rewrite boundaries_turn_at.
  assert (∀ c, turn_at ms c → (c ≤ Z.to_nat (Z.max (Z.of_nat (length ms) - minRecent) 0))%nat ↔
    c = 0%nat ∨ minRecent ≤ Z.of_nat (length ms) - Z.of_nat c) as Hlim by (intros c _; lia).
  intros (H1 & H2 & H3 & H4). split_and!; [done|by apply Hlim| |].
  - intros c Hc Hlt. rewrite <-window_within by done. by rewrite (H3 c).
  - intros Hn c Hc He. apply H4; [|done|by apply Hlim].
    rewrite <-window_within in Hn by done. by destruct (window_fits _ _ _ _ _).
Qed.

(** What kind of message the metadata says this is. *)
Definition kind_of (m : Message) : string :=
  match m_Metadata m !! "contextkit.kind" with Some (AString kind) => kind | _ => "" end.
Definition summary_message (m : Message) : Prop := kind_of m = "window_summary" ∨ kind_of m = "collapse_summary".
#[global] Instance summary_message_dec m : Decision (summary_message m).
Proof. unfold summary_message. apply _. Defined.

Lemma isSummary_message m : isSummary m = true ↔ summary_message m.
Proof. unfold isSummary, summary_message. by rewrite orb_true_iff, !bool_decide_eq_true. Qed.

Lemma split_messages ms :
  systems ms = filter (λ m, ¬ summary_message m ∧ m_Role m = "system") ms ∧
  summaries ms = filter summary_message ms ∧
  conversation ms = filter (λ m, ¬ summary_message m ∧ m_Role m ≠ "system") ms.
Proof.
  unfold systems, summaries, conversation, is_system. change RoleSystem with "system".
  split_and!; apply list_filter_iff; intros m; rewrite <-?isSummary_message; destruct (isSummary m);
    rewrite ?bool_decide_eq_true, ?bool_decide_eq_false; naive_solver.
Qed.

Lemma Compress_counter ctx req r :
  Compress sha1_hex cfg ctx req = Ok r → 0 < MaxTokens (budget_of req) → CountTokens cfg ≠ None.
Proof.
  unfold Compress. destruct ctx; [done|]. fold (budget_of req). intros H Ht Hn.
  rewrite (proj2 (Z.ltb_lt _ _) Ht), bool_decide_eq_true_2 in H by done. done.
Qed.

(** C30: The window is the best one, for a token counter that is never negative ([counter_ok]): under a budget, the
kept conversation is the longest run of whole turns that fits beside the system messages, or the
shortest one that still holds the last [MinRecent] messages when no such run fits, which is then reported.
System messages are kept, the rest of the conversation is dropped, and between them and the window stand
the earlier summaries, when nothing was dropped, or one new summary. The messages are those of the
request with the results of tools cut to their budget. *)
Theorem Compress_window ctx req r :
  counter_ok (CountTokens cfg) → Bounded (budget_of req) = true →
  Compress sha1_hex cfg ctx req = Ok r →
  let sys := filter (λ m, ¬ summary_message m ∧ m_Role m = "system") (prepared req) in
  let convo := filter (λ m, ¬ summary_message m ∧ m_Role m ≠ "system") (prepared req) in
  ∃ cut middle,
    r_Messages r = sys ++ middle ++ drop cut convo ∧ r_Dropped r = Z.of_nat cut ∧
    Forall summary_message middle ∧ (cut = 0%nat → middle = filter summary_message (prepared req)) ∧
    (cut ≠ 0%nat → length middle = 1%nat) ∧
    best_window (CountTokens cfg) (budget_of req) sys convo (MinRecent cfg) cut ∧
    (r_OverBudget r = true ↔ ¬ within (CountTokens cfg) (budget_of req) (sys ++ drop cut convo)).
Proof.
  intros Hc Hb H. pose proof (Compress_counter ctx req r H) as Hcount.
  destruct (Compress_cut ctx req r Hc H) as (cut & middle & H1 & H2 & _ & H4 & H5).
  rewrite Hb in H4. destruct H4 as [H4 H4']. destruct (split_messages (prepared req)) as (E1 & E2 & E3).
  rewrite E1, E3 in *. rewrite E2 in H5. exists cut, middle.
  assert (Forall summary_message middle ∧ (cut = 0%nat → middle = filter summary_message (prepared req)) ∧
    (cut ≠ 0%nat → length middle = 1%nat)) as (M1 & M2 & M3).
  { destruct H5 as [(-> & -> & _)|(summary & compact & collapses & Hpos & Hs & -> & _)].
    - split_and!; [|done|done]. apply Forall_forall. by intros m [Hm _]%list_elem_of_filter.
    - apply summarize_summary in Hs as [Hs%isSummary_message _]. split_and!; [by apply Forall_singleton|lia|done]. }
  split_and!; [done..|by apply is_window_best|].
  rewrite H4', negb_true_iff, <-window_within by done. by rewrite not_true_iff_false.
Qed.

(** A kept window never splits a turn: a message of the kept window comes with every
earlier message of its turn, so a tool reply is never kept without the call before it. *)
Theorem turns_kept ctx req r i j :
  counter_ok (CountTokens cfg) → Compress sha1_hex cfg ctx req = Ok r →
  let convo := conversation (prepared req) in
  (j < i < length convo)%nat →
  (∀ k m, (j < k ≤ i)%nat → convo !! k = Some m → turn_start (existsb is_user convo) m = false) →
  r_Dropped r ≤ Z.of_nat i → r_Dropped r ≤ Z.of_nat j.
Proof.
  intros Hc H convo Hij Hturn. destruct (Compress_cut ctx req r Hc H) as (cut & middle & _ & -> & _ & Hw & _).
  intros Hi. destruct (Bounded (budget_of req)); [|destruct Hw as [-> _]; lia].
  destruct Hw as [[Hb _] _]. apply elem_of_boundaries in Hb as [->|(m & Hm & Hpos & Ht)]; [lia|].
  destruct (decide (cut ≤ j)%nat); [lia|]. fold convo in Hm, Ht.
  rewrite (Hturn cut m) in Ht; [done|lia|done].
Qed.

(** ** Conservation *)

(** The messages of a transcript: those of the conversation and those its summaries count. *)
Definition history (ms : list Message) : Z :=
  sum_of (λ m, metadataInt m droppedTotalKey) (summaries ms) +
  Z.of_nat (length (conversation ms)).

Lemma project_lookup m k key :
  key ≠ "contextkit.tool_projected" → key ≠ "contextkit.tool_truncated" →
  key ≠ "contextkit.tool_omitted_chars" → key ≠ "contextkit.tool_original_chars" →
  m_Metadata (Project m k) !! key = m_Metadata m !! key ∧ m_Role (Project m k) = m_Role m.
Proof.
  intros H1 H2 H3 H4. unfold Project. rewrite cloneMessage_same. case_decide; [done|].
  split; [|done]. simpl. rewrite lookup_insert_ne by done.
  destruct (br_Truncated _); by rewrite !lookup_insert_ne by done.
Qed.

(** Preparing a message keeps its role and its summary metadata. *)
Lemma prepared_message m k :
  let m' := if decide (m_Role (cloneMessage m) = RoleTool) then Project (cloneMessage m) k
            else cloneMessage m in
  isSummary m' = isSummary m ∧ is_system m' = is_system m ∧
  metadataInt m' droppedTotalKey = metadataInt m droppedTotalKey.
Proof.
  rewrite cloneMessage_same. case_decide; [|done].
  destruct (project_lookup m k kindKey) as [Hk Hr]; [done..|].
  destruct (project_lookup m k droppedTotalKey) as [Ht _]; [done..|].
  unfold isSummary, meta_string, is_system, metadataInt. by rewrite Hk, Hr, Ht.
Qed.

Lemma prepared_history req : history (prepared req) = history (rq_Messages req).
Proof.
  unfold history, prepared, budgetToolMessages, summaries, conversation.
  induction (rq_Messages req) as [|m ms IH]; [done|]. rewrite fmap_cons, !filter_cons.
  destruct (prepared_message m (MaxToolChars cfg)) as (H1 & H2 & H3). cbv zeta in *.
  rewrite H1, H2. repeat case_decide; simpl in *; rewrite ?H3; lia.
Qed.

Lemma history_app ms ms' : history (ms ++ ms') = history ms + history ms'.
Proof. unfold history, summaries, conversation. rewrite !filter_app, sum_of_app, length_app. lia. Qed.

Lemma history_systems ms : history (systems ms) = 0.
Proof.
  unfold history, systems, summaries, conversation.
  induction ms as [|m ms IH]; [done|]. rewrite filter_cons. case_decide as H; [|done].
  destruct H as [H1 H2]. rewrite !filter_cons, H1, H2. repeat case_decide; naive_solver.
Qed.

Lemma history_summaries ms :
  Forall (λ m, isSummary m = true) ms → history ms = sum_of (λ m, metadataInt m droppedTotalKey) ms.
Proof.
  unfold history, summaries, conversation. induction 1 as [|m ms Hm _ IH]; [done|].
  rewrite !filter_cons, Hm. repeat case_decide; simpl in *; [naive_solver|lia|naive_solver|done].
Qed.

Lemma history_conversation ms n : history (drop n (conversation ms)) = Z.of_nat (length (conversation ms) - n).
Proof.
  assert (∀ l, Forall (λ m, isSummary m = false ∧ is_system m = false) l →
    history l = Z.of_nat (length l)) as Hl.
  { unfold history, summaries, conversation. induction 1 as [|m l [H1 H2] _ IH]; [done|].
    rewrite !filter_cons, H1, H2. repeat case_decide; simpl in *; [done|naive_solver|lia|naive_solver]. }
  rewrite Hl, length_drop; [done|]. apply Forall_drop, Forall_forall.
  intros m [Hm _]%list_elem_of_filter. done.
Qed.

(** No message is lost from count: the conversation messages of a transcript plus those its
summaries say were omitted are the same before and after compression, so through any number
of incremental compressions. *)
Theorem Compress_history ctx req r :
  counter_ok (CountTokens cfg) → Compress sha1_hex cfg ctx req = Ok r →
  history (r_Messages r) = history (rq_Messages req).
Proof.
  intros Hc H. rewrite <-prepared_history.
  destruct (Compress_cut ctx req r Hc H) as (cut & middle & -> & _ & Hlen & _ & Hmid).
  rewrite !history_app, history_systems, history_conversation. set (ms := prepared req) in *.
  assert (history middle = sum_of (λ m, metadataInt m droppedTotalKey) (summaries ms) + Z.of_nat cut) as ->.
  { destruct Hmid as [(-> & -> & _)|(summary & compact & collapses & Hpos & Hs & -> & _)].
    - rewrite history_summaries; [lia|]. apply Forall_forall. intros m [Hm _]%list_elem_of_filter. done.
    - apply summarize_summary in Hs as (Hs & _ & Ht). rewrite history_summaries by (by repeat constructor).
      unfold sum_of at 1. simpl. rewrite Ht, length_take. lia. }
  unfold history. lia.
Qed.

(** ** Restoring *)

Lemma bind_ext {A B} (f g : A → list B) l : (∀ x, x ∈ l → f x = g x) → l ≫= f = l ≫= g.
Proof.
  induction l as [|x l IH]; intros H; [done|]. rewrite !bind_cons, H, IH; [done|set_solver|set_solver].
Qed.

(** As many levels as there are collapses left to expand are enough. *)
Lemma restore_fuel fuel fuel' byID expanding ms :
  (size (dom byID ∖ expanding) < fuel)%nat → (size (dom byID ∖ expanding) < fuel')%nat →
  restore fuel byID expanding ms = restore fuel' byID expanding ms.
Proof.
  revert fuel' expanding ms. induction fuel as [|fuel IH]; intros fuel' expanding ms H H'; [lia|].
  destruct fuel' as [|fuel']; [lia|]. cbn [restore]. apply bind_ext. intros m _.
  destruct (collapseIDFromMessage m) as [id|]; [|done]. case_decide as Hid; [done|].
  destruct (byID !! id) as [c|] eqn:Hc; [|done].
  assert (size (dom byID ∖ ({[id]} ∪ expanding)) < size (dom byID ∖ expanding))%nat.
  { apply subset_size. apply elem_of_dom_2 in Hc. set_solver. }
  apply IH; lia.
Qed.

(** A collapse that no message mentions. *)
Definition unmentioned (id : string) (ms : list Message) : Prop :=
  Forall (λ m, collapseIDFromMessage m ≠ Some id) ms.

Lemma restore_unmentioned fuel byID c id expanding ms :
  unmentioned id ms → (∀ k c', byID !! k = Some c' → unmentioned id (cl_Originals c')) →
  restore fuel (<[id := c]> byID) expanding ms = restore fuel byID expanding ms ∧
  restore fuel byID ({[id]} ∪ expanding) ms = restore fuel byID expanding ms.
Proof.
  intros Hms Hby. revert expanding ms Hms.
  induction fuel as [|fuel IH]; intros expanding ms Hms; [done|]. cbn [restore].
  unfold unmentioned in Hms. rewrite Forall_forall in Hms.
  split; apply bind_ext; intros m Hm; specialize (Hms m Hm);
    destruct (collapseIDFromMessage m) as [k|]; try done.
  - case_decide; [done|]. rewrite lookup_insert_ne by congruence.
    destruct (byID !! k) as [c'|] eqn:Hk; [|done]. apply IH. by eapply Hby.
  - assert (k ≠ id) by congruence. destruct (decide (k ∈ expanding)).
    + by rewrite decide_True by set_solver.
    + rewrite decide_False by set_solver. destruct (byID !! k) as [c'|] eqn:Hk; [|done].
      replace ({[k]} ∪ ({[id]} ∪ expanding)) with ({[id]} ∪ ({[k]} ∪ expanding)) by set_solver.
      apply IH. by eapply Hby.
Qed.

Lemma restore_app fuel byID expanding l l' :
  restore fuel byID expanding (l ++ l') =
  restore fuel byID expanding l ++ restore fuel byID expanding l'.
Proof. destruct fuel; [done|]. cbn [restore]. apply bind_app. Qed.

Lemma collapses_by_id_snoc cs c :
  cl_ID c ≠ "" → collapses_by_id (cs ++ [c]) = <[cl_ID c := c]> (collapses_by_id cs).
Proof. intros H. unfold collapses_by_id. rewrite foldl_snoc. by rewrite decide_False. Qed.

Lemma collapses_by_id_elem cs k c : collapses_by_id cs !! k = Some c → c ∈ cs ∧ cl_ID c = k.
Proof.
  unfold collapses_by_id. induction cs as [|c' cs IH] using rev_ind; [done|].
  rewrite foldl_snoc, elem_of_app. case_decide; [naive_solver|].
  rewrite lookup_insert_Some. intros [[<- ->]|[_ H2]]; [set_solver|naive_solver].
Qed.

(** In deep mode the summary stands for a collapse of everything it replaced. *)
Lemma summarize_deep previous dropped recent budget metadata summary compact collapses :
  summarize sha1_hex cfg ProfileDeep previous dropped recent budget metadata =
    Ok (summary, compact, collapses) →
  ∃ c, collapses = [c] ∧ cl_Originals c = previous ++ dropped ∧ cl_ID c ≠ "" ∧
    collapseIDFromMessage summary = Some (cl_ID c).
Proof.
  unfold summarize. rewrite decide_False by tauto.
  destruct (match cfg_Summarizer cfg with Some _ => _ | None => _ end) as [compacted|]; [|done].
  cbn [res_bind]. set (md := if 0 <? _ then _ else _). clearbody md.
  set (text := match compacted with Some c => _ | None => _ end). clearbody text.
  destruct text as [summary0 compact0]. intros [= <- <- <-]. eexists. split; [done|].
  simpl. rewrite !cloneMessages_same. split_and!; [done|done|].
  unfold collapseIDFromMessage, meta_string. simpl. by rewrite lookup_insert_eq.
Qed.

(** Deep compression is reversible: restoring its output with the new collapse and those
recorded before gives what restoring its input with those recorded before gives, so chained
compressions expand back to the full history. The new collapse ID has to be fresh: SHA-1
prefixes must not collide. *)
Theorem restore_compressed ctx req r cs :
  counter_ok (CountTokens cfg) → profile_of = ProfileDeep →
  Compress sha1_hex cfg ctx req = Ok r →
  (∀ c, c ∈ r_Collapses r →
     collapses_by_id cs !! cl_ID c = None ∧ unmentioned (cl_ID c) (prepared req) ∧
     ∀ c', c' ∈ cs → unmentioned (cl_ID c) (cl_Originals c')) →
  RestoreProjection (r_Messages r) (cs ++ r_Collapses r) =
  RestoreProjection (systems (prepared req) ++ summaries (prepared req) ++
                     conversation (prepared req)) cs.
Proof.
  intros Hc Hdeep H Hfresh.
  destruct (Compress_cut ctx req r Hc H) as (cut & middle & Hms & _ & _ & _ & Hmid).
  destruct Hmid as [(-> & -> & Hcs)|(summary & compact & collapses & _ & Hs & -> & Hcs)].
  { rewrite Hms, Hcs, app_nil_r. by rewrite drop_0. }
  rewrite Hdeep in Hs. apply summarize_deep in Hs as (c & -> & Horig & Hne & Hid).
  rewrite Hcs in *. destruct (Hfresh c) as (Hnone & Hun & Hun'); [set_solver|].
  rewrite Hms. unfold RestoreProjection. rewrite collapses_by_id_snoc by done.
  set (byID := collapses_by_id cs) in *. rewrite map_size_insert_None by done.
  assert (∀ k c', byID !! k = Some c' → unmentioned (cl_ID c) (cl_Originals c')) as Hby.
  { intros k c' [Hc' _]%collapses_by_id_elem. by apply Hun'. }
  assert (∀ ms, unmentioned (cl_ID c) ms →
    restore (S (S (size byID))) (<[cl_ID c := c]> byID) ∅ ms = restore (S (size byID)) byID ∅ ms) as Hsame.
  { intros ms Hm. destruct (restore_unmentioned (S (S (size byID))) byID c (cl_ID c) ∅ ms Hm Hby) as [-> _].
    apply restore_fuel; rewrite difference_empty_L, size_dom; lia. }
  assert (∀ (P : Message → Prop) `{∀ m, Decision (P m)}, unmentioned (cl_ID c) (filter P (prepared req)))
    as Hpart.
  { intros P ?. unfold unmentioned in *. rewrite Forall_forall in Hun |- *.
    intros m [_ Hm]%list_elem_of_filter. by apply Hun. }
  rewrite !restore_app, (Hsame (systems _)), (Hsame (drop _ _));
    [|by apply Forall_drop, Hpart|apply Hpart]. f_equal.
  rewrite <-(take_drop cut (conversation (prepared req))) at 2. rewrite !restore_app, app_assoc. f_equal.
  assert (unmentioned (cl_ID c) (summaries (prepared req) ++ take cut (conversation (prepared req)))) as Hold.
  { apply Forall_app_2; [apply Hpart|by apply Forall_take, Hpart]. }
  assert (restore (S (S (size byID))) (<[cl_ID c := c]> byID) ∅ [summary] =
    restore (S (size byID)) (<[cl_ID c := c]> byID) ({[cl_ID c]} ∪ ∅) (cl_Originals c)) as ->.
  { remember (S (size byID)) as n. cbn [restore mbind list_bind].
    by rewrite app_nil_r, Hid, decide_False, lookup_insert_eq by set_solver. }
  rewrite Horig, <-restore_app.
  destruct (restore_unmentioned (S (size byID)) byID c (cl_ID c) ({[cl_ID c]} ∪ ∅) _ Hold Hby) as [H1 _].
  destruct (restore_unmentioned (S (size byID)) byID c (cl_ID c) ∅ _ Hold Hby) as [_ H2].
  by rewrite H1, H2.
Qed.

End theorems.

(** * Tool results are projected again *)

Lemma length_append s t : String.length (s +:+ t) = (String.length s + String.length t)%nat.
Proof. induction s as [|c s IH]; simpl; [done|]. by rewrite IH. Qed.

Lemma join_length_last l x sep :
  (String.length x ≤ String.length (strings_Join (l ++ [x]) sep))%nat.
Proof.
  unfold strings_Join. induction l as [|y l IH]; [done|]. simpl.
  destruct (l ++ [x]) eqn:E; [by destruct l|]. rewrite !length_append. lia.
Qed.

(** Projecting without a limit makes the content longer. *)
Lemma Project_longer m k :
  m_Role m = RoleTool → k ≤ 0 →
  (String.length (Content m) < String.length (Content (Project m k)))%nat.
Proof.
  intros Hr Hk. unfold Project. rewrite cloneMessage_same, decide_False by tauto.
  unfold Apply. rewrite (proj2 (Z.leb_le k 0) Hk). cbn [orb br_Content].
  match goal with |- context [strings_Join ?l newline] =>
    change (String.length (Content m) < String.length (strings_Join l newline))%nat end.
  rewrite !app_assoc.
  eapply Nat.lt_le_trans; [|apply join_length_last]. rewrite length_append. simpl. lia.
Qed.

(** The full content of a transcript. *)
Definition total_length (ms : list Message) : nat := sum_list_with (λ m, String.length (Content m)) ms.

Lemma total_length_app l l' : total_length (l ++ l') = (total_length l + total_length l')%nat.
Proof. apply sum_list_with_app. Qed.

(** Every message is a system message, a summary or part of the conversation. *)
Lemma total_length_split ms :
  total_length (systems ms ++ summaries ms ++ conversation ms) = total_length ms.
Proof.
  rewrite !total_length_app. unfold systems, summaries, conversation.
  induction ms as [|m ms IH]; [done|]. rewrite !filter_cons.
  unfold total_length in *. destruct (isSummary m), (is_system m);
    repeat case_decide; cbn [sum_list_with]; try lia; intuition discriminate.
Qed.

Lemma total_length_prepared ms k :
  k ≤ 0 →
  (total_length ms ≤ total_length (budgetToolMessages ms k))%nat ∧
  (Exists (λ m, m_Role m = RoleTool) ms →
   total_length ms < total_length (budgetToolMessages ms k))%nat.
Proof.
  intros Hk. unfold budgetToolMessages, total_length. induction ms as [|m ms [IH IH']]; [split; [done|]; by inversion 1|].
  rewrite fmap_cons. cbn [sum_list_with]. rewrite cloneMessage_same.
  assert (m_Role m = RoleTool → String.length (Content m) < String.length (Content (Project m k)))%nat
    as Hlong by (intros; by apply Project_longer).
  case_decide as Hr.
  - specialize (Hlong Hr). split; lia.
  - split; [lia|]. intros [?|?%IH']%Exists_cons; [done|lia].
Qed.

(** Compressing a transcript again is not idempotent: although a host is told to feed a
result's messages back, tool messages that stay in the window are projected once more every
time, so without any new message, budget or limit the transcript grows. *)
Theorem recompression_grows sha1_hex cfg req :
  Bounded (budget_of cfg req) = false → MaxToolChars cfg ≤ 0 →
  Exists (λ m, m_Role m = RoleTool) (rq_Messages req) →
  ∃ r, Compress sha1_hex cfg None req = Ok r ∧ r_Dropped r = 0 ∧
    (total_length (rq_Messages req) < total_length (r_Messages r))%nat ∧
    Exists (λ m, m_Role m = RoleTool) (r_Messages r).
Proof.
  intros Hb Hmax Htool. eexists. split; [|split; [|split]].
  - unfold Compress. fold (prepared cfg req) (budget_of cfg req).
    assert ((0 <? MaxTokens (budget_of cfg req)) = false) as ->.
    { unfold Bounded in Hb. apply orb_false_iff in Hb. tauto. }
    unfold windowStart. rewrite Hb. cbn [negb andb]. rewrite take_0, drop_0. reflexivity.
  - done.
  - simpl. rewrite total_length_split. by apply total_length_prepared.
  - simpl. apply Exists_exists in Htool as (m & Hm & Hr). apply Exists_exists.
    set (m' := Project m (MaxToolChars cfg)).
    assert (m' ∈ prepared cfg req ∧ m_Role m' = RoleTool) as [Hin Hr'].
    { split; [|rewrite <-Hr; by apply (project_lookup m (MaxToolChars cfg) kindKey)]. apply list_elem_of_fmap. exists m.
      by rewrite cloneMessage_same, decide_True. }
    exists m'. split; [|done]. clearbody m'.
    assert (is_system m' = false) as Hs by (unfold is_system; by rewrite Hr').
    rewrite !elem_of_app. unfold summaries, conversation. rewrite !list_elem_of_filter.
    destruct (isSummary m'); naive_solver.
Qed.

(** * Witnesses *)

Definition say (id : string) (role : Role) (text : string) : Message :=
  mkMessage id role text [] "" "" "" "" ∅.
Definition chat : list Message :=
  [say "s" RoleSystem "rules"; say "u1" RoleUser "first"; say "a1" RoleAssistant "one";
   say "u2" RoleUser "second"; say "t2" RoleTool "out"; say "a2" RoleAssistant "two"].
Definition no_hash (s : string) : string := "0123456789abcdef".
Definition small : Config := mkConfig (mkBudget 55 0) ProfileStandard 1 0 None None.
Definition deep : Config := small <| cfg_Profile := ProfileDeep |>.
Definition unbounded : Config := small <| cfg_Budget := mkBudget 0 0 |>.
Definition ask : Request := mkRequest chat (mkBudget 0 0) ∅.
Definition outcome (cfg : Config) : Result :=
  match Compress no_hash cfg None ask with
  | Ok r => r
  | Err _ => mkResult [] "" [] "" 0 false [] None
  end.
Lemma no_counter : counter_ok None.
Proof. by intros f m. Qed.

Lemma small_runs : Compress no_hash small None ask = Ok (outcome small) ∧ r_Dropped (outcome small) = 2.
Proof. vm_compute. done. Qed.
Lemma deep_runs : Compress no_hash deep None ask = Ok (outcome deep).
Proof. vm_compute. done. Qed.

Lemma Compress_window_witness :
  ∃ sys convo cut middle,
    r_Messages (outcome small) = sys ++ middle ++ drop cut convo ∧ cut = 2%nat ∧ length middle = 1%nat ∧
    best_window None (mkBudget 55 0) sys convo 1 cut.
Proof.
  destruct (Compress_window no_hash small None ask (outcome small) no_counter) as (cut & middle & H1 & H2 & _ & _ & H3 & H4 & _).
  - vm_compute. reflexivity.
  - apply small_runs.
  - rewrite (proj2 small_runs) in H2. assert (cut = 2%nat) as Hcut by lia.
    eexists _, _, cut, middle. split; [exact H1|]. split; [exact Hcut|]. split; [apply H3; lia|exact H4].
Defined.

Lemma turns_kept_witness : r_Dropped (outcome small) ≤ 2.
Proof.
  apply (turns_kept no_hash small None ask (outcome small) 4 2 no_counter).
  - apply small_runs.
  - vm_compute. lia.
  - intros k m Hk Hm. assert (k = 3 ∨ k = 4)%nat as [-> | ->] by lia;
      vm_compute in Hm; injection Hm as <-; vm_compute; reflexivity.
  - destruct small_runs as [_ ->]. lia.
Defined.

Lemma Compress_history_witness : history (r_Messages (outcome small)) = 5.
Proof.
  rewrite (Compress_history no_hash small None ask (outcome small) no_counter (proj1 small_runs)).
  vm_compute. reflexivity.
Defined.

Lemma unmentioned_chat id : id ≠ "" → unmentioned id (prepared deep ask).
Proof. intros _. by repeat constructor. Qed.

Lemma restore_compressed_witness :
  RestoreProjection (r_Messages (outcome deep)) (r_Collapses (outcome deep)) =
  RestoreProjection (systems (prepared deep ask) ++ summaries (prepared deep ask) ++
                     conversation (prepared deep ask)) [].
Proof.
  apply (restore_compressed no_hash deep None ask (outcome deep) [] no_counter).
  - reflexivity.
  - apply deep_runs.
  - intros c Hc. split; [apply lookup_empty|]. split; [|intros c' Hc'; by apply elem_of_nil in Hc'].
    vm_compute in Hc. apply list_elem_of_singleton in Hc as ->. apply unmentioned_chat. discriminate.
Defined.

Lemma recompression_grows_witness :
  ∃ r, Compress no_hash unbounded None ask = Ok r ∧ r_Dropped r = 0 ∧
    (total_length chat < total_length (r_Messages r))%nat ∧
    Exists (λ m, m_Role m = RoleTool) (r_Messages r).
Proof.
  apply (recompression_grows no_hash unbounded ask).
  - vm_compute. reflexivity.
  - vm_compute. discriminate.
  - apply Exists_exists. exists (say "t2" RoleTool "out"). split; [|reflexivity]. unfold ask, chat. simpl. set_solver.
Defined.

End Context.
