(* ===== verification/LlmRouting.v ===== *)
(** llmkit routing: task profiles, model capabilities and the route policy
([src/llmkit/profile.go], [capability.go], [policy.go]). *)

From Stdlib Require Import QArith Lqa.
From S2P Require Import Prelude Float64.
#[local] Open Scope Z_scope.

Module Routing.

(** * Task profiles *)

(** The classes are Go strings: a value outside the constants is possible and
falls into the default case of every switch. *)
Definition Complexity := string.
Definition ComplexitySimple : Complexity := "simple".
Definition ComplexityMedium : Complexity := "medium".
Definition ComplexityHard : Complexity := "hard".

Definition LatencyRequirement := string.
Definition LatencyNone : LatencyRequirement := "none".
Definition LatencyNormal : LatencyRequirement := "normal".
Definition LatencyUrgent : LatencyRequirement := "urgent".

Definition FailureCost := string.
Definition FailureCostLow : FailureCost := "low".
Definition FailureCostMedium : FailureCost := "medium".
Definition FailureCostHigh : FailureCost := "high".

Definition PrivacyLevel := string.
Definition PrivacyLocalPreferred : PrivacyLevel := "local_preferred".
Definition PrivacyCloudAllowed : PrivacyLevel := "cloud_allowed".
Definition PrivacyLocalOnly : PrivacyLevel := "local_only".

Definition ProfileSource := string.
Definition ProfileSourceDefault : ProfileSource := "default".
Definition ProfileSourceHost : ProfileSource := "host".

Record TaskProfile := mkProfile {
  TaskType : string;
  Source : ProfileSource;
  pf_Complexity : Complexity;
  pf_Latency : LatencyRequirement;
  pf_FailureCost : FailureCost;
  Privacy : PrivacyLevel;
  MaxEstimatedCents : Z;
  NeedsReasoning : bool;
  NeedsTools : bool;
  NeedsJSON : bool;
  NeedsLongContext : bool
}.
#[global] Instance eta_TaskProfile : Eta TaskProfile := λ p,
  mkProfile (TaskType p) (Source p) (pf_Complexity p) (pf_Latency p) (pf_FailureCost p)
    (Privacy p) (MaxEstimatedCents p) (NeedsReasoning p) (NeedsTools p) (NeedsJSON p)
    (NeedsLongContext p).

Definition DefaultTaskProfile : TaskProfile :=
  mkProfile "" ProfileSourceDefault ComplexityMedium LatencyNormal FailureCostMedium
    PrivacyCloudAllowed 0 false false false false.

(** * Model capabilities *)

Definition PriceClass := string.
Definition PriceFree : PriceClass := "free".
Definition PriceLow : PriceClass := "low".
Definition PriceMedium : PriceClass := "medium".
Definition PriceHigh : PriceClass := "high".

Definition CapabilityLevel := string.
Definition CapabilitySimple : CapabilityLevel := "simple".
Definition CapabilityBalanced : CapabilityLevel := "balanced".
Definition CapabilityAdvanced : CapabilityLevel := "advanced".

Definition ContextWindowClass := string.
Definition ContextShort : ContextWindowClass := "short".
Definition ContextMedium : ContextWindowClass := "medium".
Definition ContextLong : ContextWindowClass := "long".

Definition LatencyClass := string.
Definition LatencySlowClass : LatencyClass := "slow".
Definition LatencyNormalClass : LatencyClass := "normal".
Definition LatencyFastClass : LatencyClass := "fast".

Record ModelCapability := mkModel {
  Alias : string;
  Provider : string;
  IsLocal : bool;
  m_CapabilityLevel : CapabilityLevel;
  SupportsTools : bool;
  SupportsJSON : bool;
  m_ContextWindowClass : ContextWindowClass;
  m_PriceClass : PriceClass;
  m_LatencyClass : LatencyClass;
  EstimatedCents : Z;
  MaxConcurrency : Z;
  CurrentConcurrency : Z;
  RecentOutcomes : float64;
  RecentFailures : float64;
  RecentFailureRate : float64;
  RecentLatencyMillis : Z
}.
#[global] Instance eta_ModelCapability : Eta ModelCapability := λ m,
  mkModel (Alias m) (Provider m) (IsLocal m) (m_CapabilityLevel m) (SupportsTools m)
    (SupportsJSON m) (m_ContextWindowClass m) (m_PriceClass m) (m_LatencyClass m)
    (EstimatedCents m) (MaxConcurrency m) (CurrentConcurrency m) (RecentOutcomes m)
    (RecentFailures m) (RecentFailureRate m) (RecentLatencyMillis m).

Definition capabilityRank (level : CapabilityLevel) : Z :=
  if decide (level = CapabilityAdvanced) then 3
  else if decide (level = CapabilityBalanced) then 2
  else if decide (level = CapabilitySimple) then 1
  else 0.

Definition contextRank (class : ContextWindowClass) : Z :=
  if decide (class = ContextLong) then 3
  else if decide (class = ContextMedium) then 2
  else if decide (class = ContextShort) then 1
  else 0.

Definition requiredCapabilityRank (complexity : Complexity) : Z :=
  if decide (complexity = ComplexityHard) then capabilityRank CapabilityAdvanced
  else if decide (complexity = ComplexityMedium) then capabilityRank CapabilityBalanced
  else capabilityRank CapabilitySimple.

Definition Matches (m : ModelCapability) (profile : TaskProfile) : bool :=
  if bool_decide (Privacy profile = PrivacyLocalOnly) && negb (IsLocal m) then false
  else if NeedsJSON profile && negb (SupportsJSON m) then false
  else if NeedsTools profile && negb (SupportsTools m) then false
  else if NeedsLongContext profile &&
          (contextRank (m_ContextWindowClass m) <? contextRank ContextLong) then false
  else if capabilityRank (m_CapabilityLevel m) <? requiredCapabilityRank (pf_Complexity profile)
       then false
  else if (0 <? MaxConcurrency m) && (MaxConcurrency m <=? CurrentConcurrency m) then false
  else true.

(** * Candidates *)

Definition ProviderAvailability := string.
Definition ProviderAvailable : ProviderAvailability := "available".
Definition ProviderDegraded : ProviderAvailability := "degraded".
Definition ProviderUnavailable : ProviderAvailability := "unavailable".

Definition normalizedAvailability (availability : ProviderAvailability) : ProviderAvailability :=
  if decide (availability = "") then ProviderAvailable else availability.

Record Candidate := mkCandidate {
  Model : ModelCapability;
  AccountAlias : string;
  AccountRateLimited : bool;
  AccountMaxConcurrency : Z;
  AccountCurrentConcurrency : Z;
  c_ProviderAvailability : ProviderAvailability;
  ProviderInFlight : Z;
  ProviderMaxConcurrency : Z;
  ProviderQuotaRemaining : Z;
  ProviderQuotaExhausted : bool;
  ProviderFailureStreak : Z;
  ProviderCooldownUntil : Time
}.
#[global] Instance eta_Candidate : Eta Candidate := λ c,
  mkCandidate (Model c) (AccountAlias c) (AccountRateLimited c) (AccountMaxConcurrency c)
    (AccountCurrentConcurrency c) (c_ProviderAvailability c) (ProviderInFlight c)
    (ProviderMaxConcurrency c) (ProviderQuotaRemaining c) (ProviderQuotaExhausted c)
    (ProviderFailureStreak c) (ProviderCooldownUntil c).

Record CandidateScore := mkScore {
  cs_Alias : string;
  cs_AccountAlias : string;
  Available : bool;
  Score : Z;
  ScoreBreakdown : GoMap Z;
  Reason : string
}.

Record scoredCandidate := mkScored {
  sc_candidate : Candidate;
  sc_score : CandidateScore
}.

Record RouteDecision := mkDecision {
  Selected : Candidate;
  SelectedAlias : string;
  d_Score : Z;
  d_ScoreBreakdown : GoMap Z;
  d_Reason : string;
  Candidates : list CandidateScore
}.

(** [LoadSpread]: [Rand i n] is the [i]-th random draw below [n] of one
selection ([math/rand] when the field is nil). *)
Record LoadSpread := mkSpread {
  ScoreTolerance : Z;
  Rand : nat → Z → Z
}.

(** [RoutePolicy]: [Now i] is what the clock reads when the [i]-th candidate is
examined. *)
Record RoutePolicy := mkPolicy {
  Now : nat → Time;
  p_LoadSpread : option LoadSpread
}.

(** * Scores *)

Definition capabilityScore (profile : TaskProfile) (model : ModelCapability) : Z :=
  let rank := capabilityRank (m_CapabilityLevel model) in
  let score := rank * 6 in
  let score := if decide (pf_FailureCost profile = FailureCostHigh) then score + rank * 8 else score in
  if NeedsReasoning profile then score + rank * 4 else score.

Definition priceScore (class : PriceClass) : Z :=
  if decide (class = PriceFree) then 30
  else if decide (class = PriceLow) then 20
  else if decide (class = PriceMedium) then 10
  else if decide (class = PriceHigh) then 0
  else 0.

Definition localScore (profile : TaskProfile) (model : ModelCapability) : Z :=
  if negb (IsLocal model) then 0
  else if decide (Privacy profile = PrivacyLocalPreferred) then 15
  else if decide (Privacy profile = PrivacyLocalOnly) then 5
  else 3.

Definition fastLatencyMillis : Z := 2000.
Definition normalLatencyMillis : Z := 10000.

Definition effectiveLatencyClass (model : ModelCapability) : LatencyClass :=
  if RecentLatencyMillis model <=? 0 then m_LatencyClass model
  else if RecentLatencyMillis model <=? fastLatencyMillis then LatencyFastClass
  else if RecentLatencyMillis model <=? normalLatencyMillis then LatencyNormalClass
  else LatencySlowClass.

Definition latencyScore (profile : TaskProfile) (model : ModelCapability) : Z :=
  let class := effectiveLatencyClass model in
  if decide (pf_Latency profile = LatencyUrgent) then
    if decide (class = LatencyFastClass) then 20
    else if decide (class = LatencyNormalClass) then 10
    else 0
  else if decide (pf_Latency profile = LatencyNormal) then
    if decide (class = LatencyFastClass) then 10
    else if decide (class = LatencyNormalClass) then 5
    else 0
  else 0.

Definition reliabilityPriorFailures : float64 := 1 # 2.
Definition reliabilityPriorOutcomes : float64 := 10 # 1.

(** The last line's [100 * 0.5 / 10.0] is a constant expression. *)
Definition reliabilityScore (model : ModelCapability) : Z :=
  if decide (0 < RecentOutcomes model)%Q then
    let failures := fmin (RecentFailures model) (RecentOutcomes model) in
    let rate := fdiv (fadd failures reliabilityPriorFailures)
                     (fadd (RecentOutcomes model) reliabilityPriorOutcomes) in
    - Round (fmul rate 100)
  else if decide (0 < RecentFailureRate model)%Q then
    - Round (fmul (fmin (RecentFailureRate model) 1) 100)
  else - Round (100 * reliabilityPriorFailures / reliabilityPriorOutcomes).

Definition healthScore (candidate : Candidate) : Z :=
  let availability := normalizedAvailability (c_ProviderAvailability candidate) in
  let score := if decide (availability = ProviderAvailable) then 2
               else if decide (availability = ProviderDegraded) then -20
               else if decide (availability = ProviderUnavailable) then -100
               else 0 in
  if 0 <? ProviderFailureStreak candidate
  then score - ProviderFailureStreak candidate * 10 else score.

Definition scoreCandidate (profile : TaskProfile) (candidate : Candidate) : GoMap Z :=
  let model := Model candidate in
  <["capability" := capabilityScore profile model]> (
  <["price" := priceScore (m_PriceClass model)]> (
  <["local" := localScore profile model]> (
  <["latency" := latencyScore profile model]> (
  <["reliability" := reliabilityScore model]> (
  <["health" := healthScore candidate]> ∅))))).

Definition totalScore (breakdown : GoMap Z) : Z :=
  foldr (λ kv total, total + kv.2) 0 (map_to_list breakdown).

(** [fmt.Sprintf("%d", n)]. *)
Definition itoa (n : Z) : string := pretty n.

Definition selectedReason (candidate : Candidate) (total : Z) (breakdown : GoMap Z) : string :=
  let keys := sort_slice str_lt (map_to_list breakdown).*1 in
  let parts := (λ key, key +:+ "=" +:+ itoa (default 0 (breakdown !! key))) <$> keys in
  "selected " +:+ Alias (Model candidate) +:+ " with score " +:+ itoa total +:+
  " (" +:+ strings_Join parts ", " +:+ ")".

Definition copyBreakdown (m : GoMap Z) : GoMap Z := map_assign ∅ m.

(** The reason a candidate is filtered out; "" when it is available. *)
Definition unavailableReason (now : Time) (profile : TaskProfile) (c : Candidate) : string :=
  if AccountRateLimited c then "account is rate limited"
  else if (0 <? AccountMaxConcurrency c) &&
          (AccountMaxConcurrency c <=? AccountCurrentConcurrency c)
       then "account concurrency is full"
  else if bool_decide (¬ IsZero (ProviderCooldownUntil c)) &&
          bool_decide (Before now (ProviderCooldownUntil c))
       then "provider is in cooldown"
  else if bool_decide (c_ProviderAvailability c = ProviderUnavailable) &&
          bool_decide (IsZero (ProviderCooldownUntil c))
       then "provider is unavailable"
  else if bool_decide (c_ProviderAvailability c = ProviderUnavailable) &&
          (0 <? ProviderInFlight c)
       then "provider recovery probe is in flight"
  else if ProviderQuotaExhausted c || (ProviderQuotaRemaining c <? 0)
       then "provider quota is exhausted"
  else if (0 <? ProviderMaxConcurrency c) && (ProviderMaxConcurrency c <=? ProviderInFlight c)
       then "provider concurrency is full"
  else if (0 <? MaxEstimatedCents profile) &&
          (MaxEstimatedCents profile <? EstimatedCents (Model c))
       then "estimated cost exceeds task budget"
  else if negb (Matches (Model c) profile) then "model does not match task requirements"
  else "".

Definition nul : string := String (ascii_of_N 0) "".

Definition stableCandidateKey (c : Candidate) : string :=
  strings_Join [Alias (Model c); AccountAlias c; Provider (Model c)] nul.

(** The order of [sort.SliceStable]: a higher score first, then the key. *)
Definition rank_lt (x y : Z * string) : Prop :=
  if decide (x.1 ≠ y.1) then y.1 < x.1 else str_lt x.2 y.2.
#[global] Instance rank_lt_dec x y : Decision (rank_lt x y).
Proof. unfold rank_lt. case_decide; apply _. Defined.

Definition rank_key (x : scoredCandidate) : Z * string :=
  (Score (sc_score x), stableCandidateKey (sc_candidate x)).

(** How many of the best candidates share the load: the loop over [pool],
which goes on while the next candidate scores at least [floor]. *)
Fixpoint near_best (floor : Z) (rest : list scoredCandidate) : nat :=
  match rest with
  | x :: rest' => if floor <=? Score (sc_score x) then S (near_best floor rest') else 0
  | [] => 0
  end.

(** [ranked[i]], which panics out of range. *)
Definition index {A} (l : list A) (i : Z) : option A :=
  if i <? 0 then None else l !! Z.to_nat i.

(** [LoadSpread.choose] on a non-empty list, best first; [None] is a panic. *)
Definition choose (l : LoadSpread) (top : scoredCandidate) (rest : list scoredCandidate)
    : option (scoredCandidate * string) :=
  let ranked := top :: rest in
  let pool := Z.of_nat (1 + near_best (Score (sc_score top) - Z.max (ScoreTolerance l) 0) rest) in
  if pool <? 2 then Some (top, Reason (sc_score top))
  else
    let first := Rand l 0 pool in
    let second := Rand l 1 (pool - 1) in
    let second := if first <=? second then second + 1 else second in
    x ← index ranked first;
    y ← index ranked second;
    let '(chosen, other) :=
      if ProviderInFlight (sc_candidate y) <? ProviderInFlight (sc_candidate x)
      then (y, x) else (x, y) in
    Some (chosen,
      Reason (sc_score chosen) +:+ "; load spread over " +:+ itoa pool +:+
      " near-best candidates chose it over " +:+ Alias (Model (sc_candidate other)) +:+
      " (in flight " +:+ itoa (ProviderInFlight (sc_candidate chosen)) +:+ " vs " +:+
      itoa (ProviderInFlight (sc_candidate other)) +:+ ")").

Inductive SelectError :=
| ErrEmpty     (** candidate list is empty *)
| ErrFiltered  (** all candidates were filtered out *)
| PanicIndex.  (** a random draw out of range *)

Definition score_one (profile : TaskProfile) (reason : string) (c : Candidate) : CandidateScore :=
  if decide (reason ≠ "") then mkScore (Alias (Model c)) (AccountAlias c) false 0 ∅ reason
  else
    let breakdown := scoreCandidate profile c in
    let total := totalScore breakdown in
    mkScore (Alias (Model c)) (AccountAlias c) true total breakdown
      (selectedReason c total breakdown).

(** The loop of [Select]: every candidate's score, in order, and the available
candidates. *)
Fixpoint score_all (p : RoutePolicy) (profile : TaskProfile) (i : nat) (cs : list Candidate)
    : list CandidateScore * list scoredCandidate :=
  match cs with
  | [] => ([], [])
  | c :: cs' =>
      let reason := unavailableReason (Now p i) profile c in
      let score := score_one profile reason c in
      let '(scored, available) := score_all p profile (S i) cs' in
      (score :: scored,
       if decide (reason ≠ "") then available else mkScored c score :: available)
  end.

Definition Select (p : RoutePolicy) (profile : TaskProfile) (candidates : list Candidate)
    : res SelectError RouteDecision :=
  match candidates with
  | [] => Err ErrEmpty
  | _ =>
      let '(scored, available) := score_all p profile 0 candidates in
      match sort_slice (key_less rank_lt rank_key) available with
      | [] => Err ErrFiltered
      | top :: rest =>
          match match p_LoadSpread p with
                | Some l => choose l top rest
                | None => Some (top, Reason (sc_score top))
                end with
          | None => Err PanicIndex
          | Some (best, reason) =>
              Ok (mkDecision (sc_candidate best) (Alias (Model (sc_candidate best)))
                    (Score (sc_score best)) (copyBreakdown (ScoreBreakdown (sc_score best)))
                    reason scored)
          end
      end
  end.

(** * The hard filters

[legal] restates the filters as what they guarantee of a selected candidate. *)
Record legal (now : Time) (profile : TaskProfile) (c : Candidate) : Prop := {
  legal_rate : AccountRateLimited c = false;
  legal_account : 0 < AccountMaxConcurrency c →
    AccountCurrentConcurrency c < AccountMaxConcurrency c;
  legal_cooldown : ProviderCooldownUntil c ≠ 0 → ProviderCooldownUntil c ≤ now;
  legal_probe : c_ProviderAvailability c = ProviderUnavailable →
    ProviderCooldownUntil c ≠ 0 ∧ ProviderInFlight c ≤ 0;
  legal_quota : ProviderQuotaExhausted c = false ∧ 0 ≤ ProviderQuotaRemaining c;
  legal_provider : 0 < ProviderMaxConcurrency c → ProviderInFlight c < ProviderMaxConcurrency c;
  legal_budget : 0 < MaxEstimatedCents profile → EstimatedCents (Model c) ≤ MaxEstimatedCents profile;
  legal_privacy : Privacy profile = PrivacyLocalOnly → IsLocal (Model c) = true;
  legal_json : NeedsJSON profile = true → SupportsJSON (Model c) = true;
  legal_tools : NeedsTools profile = true → SupportsTools (Model c) = true;
  legal_context : NeedsLongContext profile = true → m_ContextWindowClass (Model c) = ContextLong;
  legal_capability :
    requiredCapabilityRank (pf_Complexity profile) ≤ capabilityRank (m_CapabilityLevel (Model c));
  legal_model : 0 < MaxConcurrency (Model c) → CurrentConcurrency (Model c) < MaxConcurrency (Model c)
}.

(** Chains of early returns. *)
Lemma guard_true (b k : bool) : (if b then false else k) = true ↔ b = false ∧ k = true.
Proof. destruct b, k; naive_solver. Qed.

Lemma guard_reason (b : bool) (r k : string) :
  r ≠ "" → (if b then r else k) = "" ↔ b = false ∧ k = "".
Proof. destruct b; naive_solver. Qed.

Lemma andb_false_impl (a b : bool) : a && b = false ↔ (a = true → b = false).
Proof. destruct a, b; naive_solver. Qed.

(** A chain of guards none of which fires, as propositions. *)
Ltac guards :=
  rewrite ?andb_false_impl, ?orb_false_iff, ?negb_false_iff, ?bool_decide_eq_true,
    ?bool_decide_eq_false, ?Z.ltb_lt, ?Z.ltb_ge, ?Z.leb_gt.

Lemma contextRank_long class : 3 ≤ contextRank class ↔ class = ContextLong.
Proof. unfold contextRank. repeat case_decide; naive_solver lia. Qed.

Lemma Matches_spec m profile :
  Matches m profile = true ↔
  (Privacy profile = PrivacyLocalOnly → IsLocal m = true) ∧
  (NeedsJSON profile = true → SupportsJSON m = true) ∧
  (NeedsTools profile = true → SupportsTools m = true) ∧
  (NeedsLongContext profile = true → m_ContextWindowClass m = ContextLong) ∧
  requiredCapabilityRank (pf_Complexity profile) ≤ capabilityRank (m_CapabilityLevel m) ∧
  (0 < MaxConcurrency m → CurrentConcurrency m < MaxConcurrency m).
Proof.
  rewrite <-contextRank_long. unfold Matches. change (contextRank ContextLong) with 3.
  rewrite !guard_true. guards. tauto.
Qed.

Lemma unavailableReason_spec now profile c :
  unavailableReason now profile c = "" ↔ legal now profile c.
Proof.
  unfold unavailableReason. rewrite !guard_reason by done.
  guards. rewrite Matches_spec. unfold IsZero, Before. split.
  - intros (?&?&Hc&Hu&Hp&?&?&?&(?&?&?&?&?&?)&_). split; try done.
    + intros Hz. apply Z.nlt_ge. auto.
    + intros Hav. split; [by apply Hu|by apply Hp].
  - intros [?? Hc Hp [??] ????????]. split_and!; try done.
    + intros Hz. apply Z.nlt_ge. auto.
    + intros Hav. by apply Hp.
    + intros Hav. by apply Hp.
Qed.

(** * Selection *)

#[global] Instance rank_lt_strict_total : StrictTotal rank_lt.
Proof.
  split; unfold rank_lt.
  - intros [n k]; simpl. case_decide; [lia|]. apply str_lt_irrefl.
  - intros [n k] [n' k'] [n'' k'']; simpl. repeat case_decide; try lia. apply str_lt_trans.
  - intros [n k] [n' k'] Hne; simpl in *. destruct (decide (n = n')) as [->|].
    + rewrite !decide_False by naive_solver. apply str_lt_total. naive_solver.
    + rewrite !decide_True by naive_solver. lia.
Qed.

(** An available candidate with its score. *)
Definition scored (profile : TaskProfile) (c : Candidate) : scoredCandidate :=
  mkScored c (score_one profile "" c).

(** The score of a candidate that passed the filters. *)
Definition total (profile : TaskProfile) (c : Candidate) : Z :=
  totalScore (scoreCandidate profile c).

(** [c] is the [j]-th candidate and passes the filters when it is examined. *)
Definition eligible (p : RoutePolicy) (profile : TaskProfile) (i : nat) (cs : list Candidate)
    (j : nat) (c : Candidate) : Prop :=
  cs !! j = Some c ∧ legal (Now p (i + j)) profile c.

(** How far below the best score the policy may choose. *)
Definition tolerance (p : RoutePolicy) : Z :=
  match p_LoadSpread p with Some l => Z.max (ScoreTolerance l) 0 | None => 0 end.

(** What the random source promises: a draw below [n]. *)
Definition rand_in_range (p : RoutePolicy) : Prop :=
  ∀ l i n, p_LoadSpread p = Some l → 0 < n → 0 ≤ Rand l i n < n.

Lemma score_all_scores p profile cs i :
  (score_all p profile i cs).1 =
  imap (λ j c, score_one profile (unavailableReason (Now p (i + j)) profile c) c) cs.
Proof.
  revert i. induction cs as [|c cs IH]; intros i; [done|]. simpl.
  specialize (IH (S i)). destruct (score_all p profile (S i) cs) as [scores available].
  simpl in *. rewrite IH, Nat.add_0_r. f_equal. apply imap_ext. intros j c' _. simpl.
  by rewrite Nat.add_succ_r.
Qed.

Lemma score_all_available p profile cs i x :
  x ∈ (score_all p profile i cs).2 ↔
  ∃ j c, eligible p profile i cs j c ∧ x = scored profile c.
Proof.
  revert i. induction cs as [|c cs IH]; intros i; simpl.
  - rewrite elem_of_nil. split; [done|]. by intros (j & c & [Hj _] & _).
  - specialize (IH (S i)). destruct (score_all p profile (S i) cs) as [scores available].
    simpl in *. pose proof (unavailableReason_spec (Now p i) profile c) as Hu.
    assert (x ∈ available ↔ ∃ j c', eligible p profile i (c :: cs) (S j) c' ∧
              x = scored profile c') as Htail.
    { rewrite IH. unfold eligible. by setoid_rewrite Nat.add_succ_r. }
    case_decide as Hr.
    + rewrite Htail. split; [naive_solver|]. intros ([|j] & c' & Hj & ->); [|naive_solver].
      exfalso. apply Hr, Hu. destruct Hj as [[= ->] Hl]. by rewrite Nat.add_0_r in Hl.
    + rewrite elem_of_cons, Htail. unfold scored. rewrite Hr. split.
      * intros [->|(j & c' & Hj & ->)]; [|naive_solver]. exists 0%nat, c. split; [|done].
        split; [done|]. rewrite Nat.add_0_r. by apply Hu.
      * intros ([|j] & c' & Hj & ->); [|naive_solver]. left. by destruct Hj as [[= ->] _].
Qed.

Lemma scored_score profile c : Score (sc_score (scored profile c)) = total profile c.
Proof. done. Qed.

(** The first of the sorted candidates is a best one. *)
Lemma sorted_best l top rest y :
  sort_slice (key_less rank_lt rank_key) l = top :: rest → y ∈ l →
  rank_key top = rank_key y ∨ rank_lt (rank_key top) (rank_key y).
Proof.
  intros Hs Hy. pose proof (sort_key_sorted rank_lt rank_key l) as Hsorted.
  rewrite Hs in Hsorted. apply StronglySorted_inv in Hsorted as [_ Hall].
  rewrite <-(elem_of_sort_slice (key_less rank_lt rank_key)), Hs, elem_of_cons in Hy.
  destruct Hy as [->|Hy]; [by left|]. rewrite Forall_forall in Hall.
  apply Hall in Hy. rewrite not_after_key in Hy; [exact Hy|apply _].
Qed.

Lemma best_score top y :
  rank_key top = rank_key y ∨ rank_lt (rank_key top) (rank_key y) →
  Score (sc_score y) ≤ Score (sc_score top).
Proof.
  unfold rank_key, rank_lt. simpl. intros [[= H _]|H]; [lia|]. case_decide; lia.
Qed.

Lemma near_best_spec floor rest i x :
  (i < near_best floor rest)%nat → rest !! i = Some x → floor ≤ Score (sc_score x).
Proof.
  revert i. induction rest as [|y rest IH]; intros i; simpl; [lia|].
  case_match eqn:Hy; [|lia]. destruct i as [|i]; simpl; [intros _ [= ->]; lia|].
  intros Hi. apply IH. lia.
Qed.

Lemma near_best_length floor rest : (near_best floor rest ≤ length rest)%nat.
Proof. induction rest; simpl; [lia|]. case_match; lia. Qed.

(** A draw within the pool gives a candidate near the best. *)
Lemma index_near_best l top rest i :
  0 ≤ i < Z.of_nat (1 + near_best (Score (sc_score top) - Z.max (ScoreTolerance l) 0) rest) →
  ∃ x, index (top :: rest) i = Some x ∧ x ∈ top :: rest ∧
    Score (sc_score top) - Z.max (ScoreTolerance l) 0 ≤ Score (sc_score x).
Proof.
  set (floor := _ - _). intros [H0 Hi]. pose proof (near_best_length floor rest).
  destruct (lookup_lt_is_Some_2 (top :: rest) (Z.to_nat i)) as [x Hx]; [simpl; lia|].
  exists x. split_and!; [|by eapply list_elem_of_lookup_2|].
  - unfold index. case_match eqn:Hneg; [lia|done].
  - destruct (Z.to_nat i) as [|j] eqn:Hj; simpl in Hx; [simplify_eq; unfold floor; lia|].
    eapply near_best_spec, Hx. lia.
Qed.

Lemma choose_spec l top rest :
  (∀ i n, 0 < n → 0 ≤ Rand l i n < n) →
  ∃ best reason, choose l top rest = Some (best, reason) ∧ best ∈ top :: rest ∧
    Score (sc_score top) - Z.max (ScoreTolerance l) 0 ≤ Score (sc_score best).
Proof.
  intros Hrand. unfold choose. pose proof (index_near_best l top rest) as Hidx.
  set (pool := Z.of_nat _) in *. case_match eqn:Hpool.
  - exists top, (Reason (sc_score top)). split_and!; [done|set_solver|lia].
  - apply Z.ltb_ge in Hpool. pose proof (Hrand 0%nat pool) as Hf.
    pose proof (Hrand 1%nat (pool - 1)) as Hs.
    destruct (Hidx (Rand l 0 pool)) as (x & -> & Hx & Hsx); [lia|].
    destruct (Hidx (if Rand l 0 pool <=? Rand l 1 (pool - 1) then Rand l 1 (pool - 1) + 1
                    else Rand l 1 (pool - 1))) as (y & -> & Hy & Hsy); [case_match; lia|].
    cbn [mbind option_bind]. destruct (_ <? _); do 2 eexists; (split; [reflexivity|by split]).
Qed.

(** What [Select] returns, in terms of the eligible candidates. *)
Lemma Select_cases p profile cs :
  rand_in_range p →
  match Select p profile cs with
  | Err ErrEmpty => cs = []
  | Err ErrFiltered => cs ≠ [] ∧ ∀ j c, ¬ eligible p profile 0 cs j c
  | Err PanicIndex => False
  | Ok d => ∃ j top rest,
      eligible p profile 0 cs j (Selected d) ∧
      sort_slice (key_less rank_lt rank_key) (score_all p profile 0 cs).2 = top :: rest ∧
      d_Score d = total profile (Selected d) ∧
      Score (sc_score top) - tolerance p ≤ d_Score d ∧
      (p_LoadSpread p = None → scored profile (Selected d) = top) ∧
      Candidates d = (score_all p profile 0 cs).1
  end.
Proof.
  intros Hrand. unfold Select. destruct cs as [|c0 cs0] eqn:Hcs; [done|]. rewrite <-Hcs.
  pose proof (score_all_available p profile cs 0) as Hav.
  destruct (score_all p profile 0 cs) as [scores available]. cbn [fst snd] in *.
  destruct (sort_slice _ available) as [|top rest] eqn:Hsort.
  - split; [by rewrite Hcs|]. intros j c Hj. eapply (not_elem_of_nil (scored profile c)).
    rewrite <-Hsort, elem_of_sort_slice, Hav. eauto.
  - assert (∃ best reason, match p_LoadSpread p with
        | Some l => choose l top rest | None => Some (top, Reason (sc_score top)) end
        = Some (best, reason) ∧ best ∈ top :: rest ∧
        Score (sc_score top) - tolerance p ≤ Score (sc_score best) ∧
        (p_LoadSpread p = None → best = top)) as (best & reason & -> & Hbest & Hnear & Hnone).
    { unfold tolerance. destruct (p_LoadSpread p) as [l|] eqn:Hl.
      - destruct (choose_spec l top rest) as (best & reason & ? & ? & ?); [by eauto|].
        exists best, reason. naive_solver.
      - exists top, (Reason (sc_score top)). split_and!; [done|set_solver|lia|done]. }
    rewrite <-Hsort, elem_of_sort_slice, Hav in Hbest.
    destruct Hbest as (j & c & Hj & ->). exists j, top, rest. simpl.
    split_and!; done.
Qed.

(** The candidate [Select] returns is one of the candidates, passes every hard filter
(rate limits, cooldown and recovery probe, quota, concurrency, budget, privacy,
capabilities) at the time it was examined, carries its own score, and no candidate
that passes the filters scores more than the load-spread tolerance above it; the decision
explains every candidate, in order. *)
Theorem Select_sound p profile cs d :
  rand_in_range p → Select p profile cs = Ok d →
  ∃ j, eligible p profile 0 cs j (Selected d) ∧
    d_Score d = total profile (Selected d) ∧
    (∀ k c, eligible p profile 0 cs k c → total profile c ≤ d_Score d + tolerance p) ∧
    Candidates d =
      imap (λ i c, score_one profile (unavailableReason (Now p i) profile c) c) cs.
Proof.
  intros Hrand Hd. pose proof (Select_cases p profile cs Hrand) as H. rewrite Hd in H.
  destruct H as (j & top & rest & Hj & Hsort & Hs & Hnear & _ & Hcands).
  exists j. split_and!; [done..| |by rewrite Hcands, score_all_scores].
  intros k c Hk. rewrite <-scored_score.
  assert (Score (sc_score (scored profile c)) ≤ Score (sc_score top)); [|lia].
  eapply best_score, sorted_best; [done|]. rewrite score_all_available. eauto.
Qed.

(** Selection fails exactly when no candidate passes the filters, and then says whether
there was any candidate; it never panics. *)
Theorem Select_fails_iff p profile cs :
  rand_in_range p →
  ((∃ d, Select p profile cs = Ok d) ↔ ∃ j c, eligible p profile 0 cs j c) ∧
  (Select p profile cs = Err ErrEmpty ↔ cs = []) ∧ Select p profile cs ≠ Err PanicIndex.
Proof.
  intros Hrand. pose proof (Select_cases p profile cs Hrand) as H.
  destruct (Select p profile cs) as [d|[]].
  - destruct H as (j & top & rest & Hj & _). split_and!; [naive_solver| |done].
    split; [done|]. intros ->. by destruct Hj.
  - subst cs. split_and!; [|done|done]. split; [naive_solver|]. by intros (j & c & [??]).
  - split_and!; [naive_solver| |done]. naive_solver.
  - done.
Qed.

(** Equal lists of candidates up to order give available candidates equal up to order,
when the clock does not move. *)
Lemma score_all_perm p profile now cs cs' i i' :
  (∀ k, Now p k = now) → cs ≡ₚ cs' →
  (score_all p profile i cs).2 ≡ₚ (score_all p profile i' cs').2.
Proof.
  intros Hnow Hp.
  assert (∀ l k, (score_all p profile k l).2 =
    scored profile <$> filter (λ c, unavailableReason now profile c = "") l) as Heq.
  { induction l as [|c l IH]; intros k; [done|]. simpl. specialize (IH (S k)).
    destruct (score_all p profile (S k) l) as [scores available]. cbn [fst snd] in *.
    rewrite Hnow, filter_cons, IH. unfold scored at 2.
    destruct (decide (unavailableReason now profile c = "")) as [Hr|Hr].
    - rewrite decide_False by tauto. by rewrite Hr.
    - by rewrite decide_True by done. }
  rewrite !Heq. by rewrite Hp.
Qed.

Lemma sublist_keys p profile cs i :
  NoDup (stableCandidateKey <$> cs) →
  NoDup (rank_key <$> (score_all p profile i cs).2).
Proof.
  revert i. induction cs as [|c cs IH]; intros i Hnd; [constructor|].
  rewrite fmap_cons, NoDup_cons in Hnd. destruct Hnd as [Hc Hnd].
  specialize (IH (S i) Hnd). pose proof (score_all_available p profile cs (S i)) as Hav.
  simpl. destruct (score_all p profile (S i) cs) as [scores available]. cbn [fst snd] in *.
  case_decide; [done|]. rewrite fmap_cons, NoDup_cons. split; [|done].
  rewrite list_elem_of_fmap. intros (x & Hk & Hx). apply Hav in Hx as (j & c' & [Hj _] & ->).
  apply Hc. rewrite list_elem_of_fmap. exists c'.
  split; [by apply (f_equal snd) in Hk|by eapply list_elem_of_lookup_2].
Qed.

(** Routing is reproducible: at a fixed time, with distinct candidates and the same
draws, the decision does not depend on the order in which the candidates are configured. *)
Theorem Select_permutation p profile now cs cs' d :
  (∀ k, Now p k = now) → NoDup (stableCandidateKey <$> cs) → cs ≡ₚ cs' →
  Select p profile cs = Ok d →
  ∃ d', Select p profile cs' = Ok d' ∧ Selected d' = Selected d ∧ d_Score d' = d_Score d ∧
    d_ScoreBreakdown d' = d_ScoreBreakdown d ∧ d_Reason d' = d_Reason d ∧
    Candidates d' ≡ₚ Candidates d.
Proof.
  intros Hnow Hnd Hp. unfold Select.
  pose proof (score_all_perm p profile now cs cs' 0 0 Hnow Hp) as Hav.
  pose proof (sublist_keys p profile cs 0 Hnd) as Hk.
  apply (sort_key_unique rank_lt rank_key _ _ Hk) in Hav.
  pose proof (score_all_scores p profile cs 0) as Hs.
  pose proof (score_all_scores p profile cs' 0) as Hs'.
  destruct cs as [|c0 cs0] eqn:Hcs; [done|]. rewrite <-Hcs in *.
  destruct cs' as [|c1 cs1] eqn:Hcs'.
  { apply Permutation_nil_r in Hp. congruence. } rewrite <-Hcs' in *.
  destruct (score_all p profile 0 cs) as [scores available].
  destruct (score_all p profile 0 cs') as [scores' available']. cbn [fst snd] in *.
  rewrite <-Hav. destruct (sort_slice _ available) as [|top rest]; [done|].
  destruct (match p_LoadSpread p with Some _ => _ | None => _ end) as [[best reason]|]; [|done].
  intros [= <-]. eexists. split; [reflexivity|]. simpl. split_and!; try done.
  rewrite Hs, Hs'. symmetry.
  assert (∀ l, imap (λ j c, score_one profile (unavailableReason (Now p (0 + j)) profile c) c) l =
    (λ c, score_one profile (unavailableReason now profile c) c) <$> l) as Heq.
  { intros l. rewrite <-imap_const. apply imap_ext. intros j c _. simpl. by rewrite Hnow. }
  rewrite !Heq. by rewrite Hp.
Qed.

(** * Scores *)

Lemma totalScore_insert k v m :
  m !! k = None → totalScore (<[k := v]> m) = v + totalScore m.
Proof.
  intros Hk. unfold totalScore.
  rewrite (foldr_permutation eq (λ (kv : string * Z) t, t + kv.2) 0 _
             ((k, v) :: map_to_list m)); [simpl; lia| |by apply map_to_list_insert].
  intros ? [??] ? [??] ? _ _ _. simpl. lia.
Qed.

(** The score is the sum of the six parts, whatever order the map is ranged over. *)
Lemma total_sum profile c :
  total profile c =
  capabilityScore profile (Model c) + priceScore (m_PriceClass (Model c)) +
  localScore profile (Model c) + latencyScore profile (Model c) +
  reliabilityScore (Model c) + healthScore c.
Proof.
  unfold total, scoreCandidate. rewrite !totalScore_insert by (by simplify_map_eq).
  change (totalScore ∅) with 0. lia.
Qed.

Lemma fmin_le_r x y : (fmin x y <= y)%Q.
Proof. unfold fmin. case_decide as H; [done|lra]. Qed.

Lemma fmin_nonneg x y : (0 <= x)%Q → (0 <= y)%Q → (0 <= fmin x y)%Q.
Proof. unfold fmin. by case_decide. Qed.

Lemma fmin_mono x x' y : (x <= x')%Q → (fmin x y <= fmin x' y)%Q.
Proof.
  unfold fmin. repeat case_decide;
    repeat match goal with Hn : ¬ (_ <= _)%Q |- _ => apply Qnot_le_lt in Hn end; lra.
Qed.

(** The smoothed failure rate, as [reliabilityScore] computes it. *)
Definition smoothed (failures outcomes : float64) : float64 :=
  fdiv (fadd failures reliabilityPriorFailures) (fadd outcomes reliabilityPriorOutcomes).

Lemma smoothed_den o : (0 < o)%Q → (10 <= fadd o reliabilityPriorOutcomes)%Q.
Proof. intros Ho. apply (fl_mono 10). unfold reliabilityPriorOutcomes. lra. Qed.

Lemma smoothed_mono f f' o : (0 < o)%Q → (f <= f')%Q → (smoothed f o <= smoothed f' o)%Q.
Proof.
  intros Ho Hf. unfold smoothed, fdiv. apply fl_mono. pose proof (smoothed_den o Ho).
  apply Qmult_le_compat_r; [|apply Qlt_le_weak, Qinv_lt_0_compat; lra].
  apply fl_mono. lra.
Qed.

Lemma smoothed_nonneg f o : (0 < o)%Q → (0 <= f)%Q → (0 <= smoothed f o)%Q.
Proof.
  intros Ho Hf. pose proof (smoothed_den o Ho). apply fl_nonneg, Qle_shift_div_l; [lra|].
  rewrite Qmult_0_l. apply fl_nonneg. unfold reliabilityPriorFailures. lra.
Qed.

Lemma smoothed_le_1 f o : (0 < o)%Q → (f <= o)%Q → (smoothed f o <= 1)%Q.
Proof.
  intros Ho Hf. apply (fl_le_int _ 1); [|done]. pose proof (smoothed_den o Ho).
  apply Qle_shift_div_r; [lra|]. rewrite Qmult_1_l. apply fl_mono.
  unfold reliabilityPriorFailures, reliabilityPriorOutcomes. lra.
Qed.

Lemma percent_bounds r : (0 <= r)%Q → (r <= 1)%Q → 0 ≤ Round (fmul r 100) ≤ 100.
Proof.
  intros H0 H1. split.
  - apply (Round_mono 0), fl_nonneg, Qmult_le_0_compat; done.
  - apply (Round_mono _ 100), (fl_le_int _ 100); [|done].
    change (inject_Z 100) with 100%Q. lra.
Qed.

Lemma reliability_range m : (0 <= RecentFailures m)%Q → -100 ≤ reliabilityScore m ≤ 0.
Proof.
  intros H0. unfold reliabilityScore. case_decide as Ho; [|case_decide as Hr; [|done]].
  - fold (smoothed (fmin (RecentFailures m) (RecentOutcomes m)) (RecentOutcomes m)).
    set (r := smoothed _ _). enough (0 ≤ Round (fmul r 100) ≤ 100) by lia.
    apply percent_bounds; [apply smoothed_nonneg, fmin_nonneg; lra|].
    by apply smoothed_le_1, fmin_le_r.
  - enough (0 ≤ Round (fmul (fmin (RecentFailureRate m) 1) 100) ≤ 100) by lia.
    apply percent_bounds; [apply fmin_nonneg; [lra|done]|apply fmin_le_r].
Qed.

(** The reliability score stays within [-100, 0] in [float64] arithmetic, and one
more failure never improves it. *)
Theorem reliabilityScore_bounds m f :
  (0 <= RecentFailures m)%Q → (RecentFailures m <= f)%Q →
  -100 ≤ reliabilityScore m ≤ 0 ∧
  reliabilityScore (m <| RecentFailures := f |>) ≤ reliabilityScore m.
Proof.
  intros H0 Hf. split; [by apply reliability_range|]. unfold reliabilityScore. simpl.
  case_decide as Ho; [|lia].
  rewrite <-Z.opp_le_mono. fold (smoothed (fmin f (RecentOutcomes m)) (RecentOutcomes m)).
  apply Round_mono, fl_mono, Qmult_le_compat_r; [|done]. by apply smoothed_mono, fmin_mono.
Qed.

(** ** Witnesses *)

Definition sample_model (alias : string) (price : PriceClass) : ModelCapability :=
  mkModel alias "acme" false CapabilityBalanced true true ContextMedium price
    LatencyNormalClass 3 4 0 20 1 0 0.

Definition sample_candidate (alias : string) (price : PriceClass) : Candidate :=
  mkCandidate (sample_model alias price) "main" false 0 0 ProviderAvailable 0 2 10 false 0 0.

Definition sample_candidates : list Candidate :=
  [sample_candidate "large" PriceHigh; sample_candidate "small" PriceLow;
   (sample_candidate "idle" PriceFree) <| AccountRateLimited := true |>].

Definition fixed_clock : RoutePolicy := mkPolicy (λ _, 1000) None.
Definition spreading : RoutePolicy := mkPolicy (λ _, 1000) (Some (mkSpread 20 (λ _ _, 0))).

Definition is_selected (alias : string) (r : res SelectError RouteDecision) : bool :=
  match r with Ok d => bool_decide (SelectedAlias d = alias) | Err _ => false end.

(** The cheaper of the two available models wins. *)
Lemma sample_selected :
  ∃ d, Select fixed_clock DefaultTaskProfile sample_candidates = Ok d ∧ SelectedAlias d = "small".
Proof.
  assert (is_selected "small" (Select fixed_clock DefaultTaskProfile sample_candidates) = true) as H
    by (vm_compute; reflexivity).
  destruct (Select _ _ _) as [d|]; [|done]. exists d. by apply bool_decide_eq_true in H.
Qed.

Lemma Select_sound_witness :
  ∃ d j, SelectedAlias d = "small" ∧
    eligible fixed_clock DefaultTaskProfile 0 sample_candidates j (Selected d).
Proof.
  destruct sample_selected as (d & Hd & Ha).
  destruct (Select_sound fixed_clock DefaultTaskProfile sample_candidates d) as (j & Hj & _);
    [by intros l i n|exact Hd|]. exists d, j. split; [exact Ha|exact Hj].
Defined.

Lemma Select_fails_iff_witness :
  rand_in_range spreading ∧
  is_selected "large" (Select spreading DefaultTaskProfile sample_candidates) = false ∧
  Select spreading DefaultTaskProfile sample_candidates ≠ Err PanicIndex.
Proof.
  assert (rand_in_range spreading) as Hr.
  { intros l i n [= <-] Hn. simpl. lia. }
  split; [exact Hr|]. split; [vm_compute; reflexivity|].
  apply (Select_fails_iff spreading DefaultTaskProfile sample_candidates Hr).
Defined.

Lemma Select_permutation_witness :
  ∃ d d', SelectedAlias d = "small" ∧
    Select fixed_clock DefaultTaskProfile (reverse sample_candidates) = Ok d' ∧
    Selected d' = Selected d.
Proof.
  destruct sample_selected as (d & Hd & Ha).
  destruct (Select_permutation fixed_clock DefaultTaskProfile 1000 sample_candidates
    (reverse sample_candidates) d) as (d' & Hd' & Hs & _).
  - done.
  - apply (bool_decide_unpack _). vm_compute. exact I.
  - by rewrite reverse_Permutation.
  - exact Hd.
  - exists d, d'. split; [exact Ha|]. split; [exact Hd'|exact Hs].
Defined.

Lemma reliabilityScore_bounds_witness :
  reliabilityScore (sample_model "large" PriceHigh) = -5 ∧
  reliabilityScore ((sample_model "large" PriceHigh) <| RecentFailures := 7%Q |>) ≤ -5.
Proof.
  split; [vm_compute; reflexivity|].
  apply (reliabilityScore_bounds (sample_model "large" PriceHigh) 7); vm_compute; discriminate.
Defined.

End Routing.
