(* ===== verification/LlmAudit.v ===== *)
(** llmkit audit records: routes, outcomes, what is removed from their strings
before they are written, and the join of both logs ([src/llmkit/audit.go]).
A file is the list of its writes, each a record and how much of its line was written. *)

From S2P Require Import Prelude Float64 LlmRouting.
#[local] Open Scope Z_scope.

Module Audit.
Import Routing.

(** * Records *)

Definition BusinessOutcome := string.
Definition BusinessOutcomeSuccess : BusinessOutcome := "success".
Definition BusinessOutcomeFailure : BusinessOutcome := "failure".
Definition BusinessOutcomePartial : BusinessOutcome := "partial".
Definition BusinessOutcomeUnknown : BusinessOutcome := "unknown".

Definition SuccessSignal := string.

Definition ErrorClass := string.
Definition ErrorClassTransient : ErrorClass := "transient_error".
Definition ErrorClassRateLimited : ErrorClass := "rate_limited".
Definition ErrorClassTimeout : ErrorClass := "timeout".
Definition ErrorClassInvalidJSON : ErrorClass := "invalid_json".
Definition ErrorClassToolCallInvalid : ErrorClass := "tool_call_invalid".
Definition ErrorClassCapabilityMismatch : ErrorClass := "capability_mismatch".
Definition ErrorClassPolicyBlocked : ErrorClass := "policy_blocked".
Definition ErrorClassAuth : ErrorClass := "auth_error".
Definition ErrorClassCanceled : ErrorClass := "canceled".
Definition ErrorClassConfiguration : ErrorClass := "configuration_error".
Definition ErrorClassBudgetExceeded : ErrorClass := "budget_exceeded".
Definition ErrorClassPostCall : ErrorClass := "post_call_error".
Definition ErrorClassRequestTooLarge : ErrorClass := "request_too_large".
Definition ErrorClassResponseTooLarge : ErrorClass := "response_too_large".
Definition ErrorClassUsageMissing : ErrorClass := "usage_missing".
Definition ErrorClassRedirectBlocked : ErrorClass := "redirect_blocked".
Definition ErrorClassInvalidResponse : ErrorClass := "invalid_response".
Definition ErrorClassProviderBusy : ErrorClass := "provider_busy".
Definition ErrorClassUnknown : ErrorClass := "unknown".

Record RouteTrace := mkTrace {
  tr_RouteID : string;
  tr_TaskID : string;
  tr_Attempt : Z;
  tr_RecordedAt : Time;
  tr_TaskType : string;
  tr_TaskProfile : option TaskProfile;
  tr_AccountAlias : string;
  tr_ModelAlias : string;
  tr_Provider : string;
  tr_Selected : bool;
  tr_Reason : string;
  tr_Score : Z;
  tr_ScoreBreakdown : GoMap Z;
  tr_CandidateModelAliases : list string;
  tr_Candidates : list CandidateScore;
  tr_FallbackMaxAttempts : Z
}.
#[global] Instance eta_RouteTrace : Eta RouteTrace := λ t,
  mkTrace (tr_RouteID t) (tr_TaskID t) (tr_Attempt t) (tr_RecordedAt t) (tr_TaskType t)
    (tr_TaskProfile t) (tr_AccountAlias t) (tr_ModelAlias t) (tr_Provider t) (tr_Selected t)
    (tr_Reason t) (tr_Score t) (tr_ScoreBreakdown t) (tr_CandidateModelAliases t)
    (tr_Candidates t) (tr_FallbackMaxAttempts t).

(** [RouteTrace{}]. *)
Definition zeroTrace : RouteTrace :=
  mkTrace "" "" 0 0 "" None "" "" "" false "" 0 ∅ [] [] 0.

Record TaskOutcome := mkOutcome {
  o_RouteID : string;
  o_TaskID : string;
  o_Attempt : Z;
  o_RecordedAt : Time;
  o_TaskType : string;
  o_AccountAlias : string;
  o_ModelAlias : string;
  o_Provider : string;
  o_Success : bool;
  o_BusinessOutcome : BusinessOutcome;
  o_SuccessSignal : SuccessSignal;
  o_FailureReason : string;
  o_ErrorCode : string;
  o_ErrorClass : ErrorClass;
  o_LatencyMillis : Z;
  o_InputTokens : Z;
  o_OutputTokens : Z;
  o_EstimatedCents : Z
}.
#[global] Instance eta_TaskOutcome : Eta TaskOutcome := λ o,
  mkOutcome (o_RouteID o) (o_TaskID o) (o_Attempt o) (o_RecordedAt o) (o_TaskType o)
    (o_AccountAlias o) (o_ModelAlias o) (o_Provider o) (o_Success o) (o_BusinessOutcome o)
    (o_SuccessSignal o) (o_FailureReason o) (o_ErrorCode o) (o_ErrorClass o)
    (o_LatencyMillis o) (o_InputTokens o) (o_OutputTokens o) (o_EstimatedCents o).

Definition zeroOutcome : TaskOutcome :=
  mkOutcome "" "" 0 0 "" "" "" "" false "" "" "" "" "" 0 0 0 0.

(** * Sanitizing *)

(** A byte of the ASCII letters in lower case, any other byte as it is. *)
Definition lower (b : ascii) : ascii :=
  let n := N_of_ascii b in
  if ((65 <=? n) && (n <=? 90))%N then ascii_of_N (n + 32) else b.

(** The characters outside ASCII that [(?i)] folds to ASCII letters: U+017F (to
s) and U+212A (to k), in UTF-8. *)
Definition long_s (a b : ascii) : bool := bytes_eqb [a; b] [197; 191]%N.
Definition kelvin (a b c : ascii) : bool := bytes_eqb [a; b; c] [226; 132; 170]%N.

(** One literal character of a pattern, case-insensitively; what follows it. *)
Definition eat (c : ascii) (l : byte_list) : option byte_list :=
  match l with
  | [] => None
  | b :: l1 =>
      if decide (lower b = c) then Some l1
      else match l1 with
      | b2 :: l2 =>
          if bool_decide (c = "s"%char) && long_s b b2 then Some l2
          else match l2 with
          | b3 :: l3 => if bool_decide (c = "k"%char) && kelvin b b2 b3 then Some l3 else None
          | [] => None
          end
      | [] => None
      end
  end.

Fixpoint eat_word (w : list ascii) (l : byte_list) : option byte_list :=
  match w with
  | [] => Some l
  | c :: w' => l' ← eat c l; eat_word w' l'
  end.

(** [[a-z0-9_-]] on one byte. *)
Definition token_byte (b : ascii) : bool :=
  let n := N_of_ascii (lower b) in
  ((97 <=? n) && (n <=? 122) || (48 <=? n) && (n <=? 57) || (n =? 95) || (n =? 45))%N.

(** The longest run of [[a-z0-9_-]] at the start: its number of characters and
what follows it. *)
Fixpoint token_run (l : byte_list) : nat * byte_list :=
  match l with
  | [] => (0%nat, [])
  | b :: l1 =>
      if token_byte b then let '(n, rest) := token_run l1 in (S n, rest)
      else match l1 with
      | b2 :: l2 =>
          if long_s b b2 then let '(n, rest) := token_run l2 in (S n, rest)
          else match l2 with
          | b3 :: l3 =>
              if kelvin b b2 b3 then let '(n, rest) := token_run l3 in (S n, rest) else (0%nat, l)
          | [] => (0%nat, l)
          end
      | [] => (0%nat, l)
      end
  end.

Definition bytes_of (s : string) : byte_list := String.list_ascii_of_string s.

(** [skTokenPattern] at the start of [l]: what follows the match. *)
Definition skTokenPattern (l : byte_list) : option byte_list :=
  l' ← eat_word (bytes_of "sk-") l;
  let '(n, rest) := token_run l' in
  if (8 <=? n)%nat then Some rest else None.

(** [credentialTokenPattern] at the start of [l]: [[_-]?] is tried first, and
neither of its characters starts [key]. *)
Definition credential_words : list (list ascii) :=
  bytes_of <$> ["secret_key"; "secret-key"; "secretkey"; "bearer"].

Definition credentialTokenPattern (l : byte_list) : option byte_list :=
  foldr (λ w rest, match eat_word w l with Some l' => Some l' | None => rest end)
    None credential_words.

(** [Regexp.ReplaceAllString]: the leftmost matches, none empty, one after the
other; [fuel] is the length of the input. *)
Fixpoint replace_all (pattern : byte_list → option byte_list) (repl : byte_list)
    (fuel : nat) (l : byte_list) : byte_list :=
  match fuel, l with
  | S fuel, b :: l' =>
      match pattern l with
      | Some rest => repl ++ replace_all pattern repl fuel rest
      | None => b :: replace_all pattern repl fuel l'
      end
  | _, _ => []
  end.

Definition ReplaceAllString (pattern : byte_list → option byte_list) (value repl : string) : string :=
  String.string_of_list_ascii
    (replace_all pattern (bytes_of repl) (length (bytes_of value)) (bytes_of value)).

Definition sanitizeAuditString (value : string) : string :=
  let value := ReplaceAllString skTokenPattern value "[redacted]" in
  let value := ReplaceAllString credentialTokenPattern value "credential" in
  TrimSpace value.

Definition sanitizeAuditStrings (values : list string) : list string :=
  sanitizeAuditString <$> values.

Definition sanitizeTaskProfile (profile : option TaskProfile) : option TaskProfile :=
  (λ p, p <| TaskType := sanitizeAuditString (TaskType p) |>) <$> profile.

Definition sanitizeCandidateScores (scores : list CandidateScore) : list CandidateScore :=
  (λ s, mkScore (sanitizeAuditString (cs_Alias s)) (sanitizeAuditString (cs_AccountAlias s))
          (Available s) (Score s) (copyBreakdown (ScoreBreakdown s))
          (sanitizeAuditString (Reason s))) <$> scores.

Definition sanitizeRouteTrace (now : Time) (trace : RouteTrace) : RouteTrace :=
  mkTrace (sanitizeAuditString (tr_RouteID trace)) (sanitizeAuditString (tr_TaskID trace))
    (tr_Attempt trace)
    (if decide (IsZero (tr_RecordedAt trace)) then now else tr_RecordedAt trace)
    (sanitizeAuditString (tr_TaskType trace)) (sanitizeTaskProfile (tr_TaskProfile trace))
    (sanitizeAuditString (tr_AccountAlias trace)) (sanitizeAuditString (tr_ModelAlias trace))
    (sanitizeAuditString (tr_Provider trace)) (tr_Selected trace)
    (sanitizeAuditString (tr_Reason trace)) (tr_Score trace)
    (copyBreakdown (tr_ScoreBreakdown trace))
    (sanitizeAuditStrings (tr_CandidateModelAliases trace))
    (sanitizeCandidateScores (tr_Candidates trace)) (tr_FallbackMaxAttempts trace).

Definition sanitizeTaskOutcome (now : Time) (o : TaskOutcome) : TaskOutcome :=
  mkOutcome (sanitizeAuditString (o_RouteID o)) (sanitizeAuditString (o_TaskID o)) (o_Attempt o)
    (if decide (IsZero (o_RecordedAt o)) then now else o_RecordedAt o)
    (sanitizeAuditString (o_TaskType o)) (sanitizeAuditString (o_AccountAlias o))
    (sanitizeAuditString (o_ModelAlias o)) (sanitizeAuditString (o_Provider o)) (o_Success o)
    (sanitizeAuditString (o_BusinessOutcome o)) (sanitizeAuditString (o_SuccessSignal o))
    (sanitizeAuditString (o_FailureReason o)) (sanitizeAuditString (o_ErrorCode o))
    (sanitizeAuditString (o_ErrorClass o)) (o_LatencyMillis o) (o_InputTokens o)
    (o_OutputTokens o) (o_EstimatedCents o).

(** * The recorder *)

(** How much of the line of a record, its JSON and a newline, reached the file: all of it, all but the
newline, or less. *)
Inductive extent := Whole | Unterminated | Cut.
#[global] Instance extent_eq_dec : EqDecision extent.
Proof. solve_decision. Defined.

(** A file: its writes, in order. *)
Definition File (A : Type) : Type := list (A * extent).

(** The two files of the recorder's home. *)
Record Home := mkHome { route_file : File RouteTrace; outcome_file : File TaskOutcome }.

(** What the file system and the encoder do to an append: nothing goes wrong, an error before the write, an
error of the write after a part of the line (or nothing), or an error of the last [Chmod]. *)
Inductive disk := Fine | Refused (e : string) | Interrupted (e : string) (written : option extent) | ChmodFailed (e : string).

(** [appendJSONL]; [ctx] is the context as it asks again, with the lock. *)
Definition appendJSONL {A} (ctx : Ctx) (io : disk) (file : File A) (r : A) : File A * option (CtxErr + string) :=
  match ctx with
  | Some e => (file, Some (inl e))
  | None =>
      match io with
      | Refused e => (file, Some (inr e))
      | Interrupted e None => (file, Some (inr e))
      | Interrupted e (Some x) => (file ++ [(r, x)], Some (inr e))
      | ChmodFailed e => (file ++ [(r, Whole)], Some (inr e))
      | Fine => (file ++ [(r, Whole)], None)
      end
  end.

Definition RecordRoute (ctx ctx' : Ctx) (io : disk) (now : Time) (h : Home)
    (trace : RouteTrace) : Home * option (CtxErr + string) :=
  match ctx with
  | Some e => (h, Some (inl e))
  | None =>
      let '(file, err) := appendJSONL ctx' io (route_file h) (sanitizeRouteTrace now trace) in
      (mkHome file (outcome_file h), err)
  end.

Definition RecordOutcome (ctx ctx' : Ctx) (io : disk) (now : Time) (h : Home)
    (outcome : TaskOutcome) : Home * option (CtxErr + string) :=
  match ctx with
  | Some e => (h, Some (inl e))
  | None =>
      let '(file, err) := appendJSONL ctx' io (outcome_file h) (sanitizeTaskOutcome now outcome) in
      (mkHome (route_file h) file, err)
  end.

(** * Reading the audit *)

Record AuditFilter := mkFilter { f_TaskID : string }.

Record RouteAuditRecord := mkAudit {
  ra_Route : RouteTrace;
  ra_Outcome : option TaskOutcome
}.

Definition matchesAuditFilter (taskID : string) (filter : AuditFilter) : bool :=
  negb (negb (bool_decide (Blank (f_TaskID filter))) &&
        negb (bool_decide (taskID = f_TaskID filter))).

Definition outcomeKey (routeID : string) (attempt : Z) : string :=
  routeID +:+ "|" +:+ itoa attempt.

(** [readJSONL] and the decoding of its lines, of files whose lines are below the limit of the scanner; [None] is
the error of a line that is not one JSON value: a write that was cut, or that lacks its newline and has
another one after it. *)
Fixpoint readJSONL {A} (file : File A) : option (list A) :=
  match file with
  | [] => Some []
  | (r, Whole) :: file => records ← readJSONL file; Some (r :: records)
  | [(r, Unterminated)] => Some [r]
  | (_, Unterminated) :: _ | (_, Cut) :: _ => None
  end.

(** The records of both files. *)
Record Logs := mkLogs { route_events : list RouteTrace; outcomes : list TaskOutcome }.
Definition readLogs (h : Home) : option Logs :=
  os ← readJSONL (outcome_file h); ts ← readJSONL (route_file h); Some (mkLogs ts os).

(** The latest outcome of each attempt: later lines overwrite earlier ones. *)
Definition latest (l : list TaskOutcome) : GoMap TaskOutcome :=
  foldl (λ m o, <[outcomeKey (o_RouteID o) (o_Attempt o) := o]> m) ∅ l.

Definition ReadRouteAudits (h : Home) (f : AuditFilter) : option (list RouteAuditRecord) :=
  h ← readLogs h;
  let joined := latest (filter (λ o, matchesAuditFilter (o_TaskID o) f = true) (outcomes h)) in
  Some ((λ t, mkAudit t (joined !! outcomeKey (tr_RouteID t) (tr_Attempt t))) <$>
        filter (λ t, matchesAuditFilter (tr_TaskID t) f = true) (route_events h)).

Example sanitize_sample :
  sanitizeAuditString " Bearer sk-abcDEF_1234 secret-KEY " = "credential [redacted] credential".
Proof. vm_compute. reflexivity. Qed.

(** * Nothing that looks like a credential is written *)

(** No match of the credential pattern anywhere in [l]. *)
Definition no_credential (l : byte_list) : Prop :=
  ∀ l1 l2 w, l = l1 ++ l2 → w ∈ credential_words → eat_word w l2 = None.

Lemma credential_words_pattern l :
  credentialTokenPattern l = None ↔ ∀ w, w ∈ credential_words → eat_word w l = None.
Proof.
  unfold credentialTokenPattern. induction credential_words as [|w ws IH]; simpl.
  - split; [intros _ w Hw; by apply not_elem_of_nil in Hw|done].
  - setoid_rewrite elem_of_cons. destruct (eat_word w l) eqn:Hw; [naive_solver|].
    rewrite IH. naive_solver.
Qed.

(** What follows a match may be extended. *)
Lemma eat_app c l z : eat c l = Some z → ∀ y, eat c (l ++ y) = Some (z ++ y).
Proof.
  intros H y. destruct l as [|b l]; [done|]. cbn [eat app] in *.
  destruct (decide (lower b = c)); [by injection H as <-|].
  destruct l as [|b2 l]; [done|]. cbn [app].
  destruct (bool_decide (c = "s"%char) && long_s b b2); [by injection H as <-|].
  destruct l as [|b3 l]; [done|]. cbn [app].
  destruct (bool_decide (c = "k"%char) && kelvin b b2 b3); [by injection H as <-|done].
Qed.

Lemma eat_word_app w l z : eat_word w l = Some z → ∀ y, is_Some (eat_word w (l ++ y)).
Proof.
  revert l. induction w as [|c w IH]; intros l; simpl; [done|].
  destruct (eat c l) as [l'|] eqn:He; [|done]. simpl. intros H y.
  rewrite (eat_app c l l' He). simpl. by eapply IH.
Qed.

(** The non-empty tails of the words. *)
Definition word_tails : list (list ascii) :=
  w ← credential_words; filter (λ t, t ≠ []) ((λ i, drop i w) <$> seq 0 (length w)).

Lemma word_tails_cons c w : c :: w ∈ word_tails → w = [] ∨ w ∈ word_tails.
Proof.
  intros Hin. assert (Forall (λ t, tail t = [] ∨ tail t ∈ word_tails) word_tails) as H.
  { apply (bool_decide_unpack _). vm_compute. exact I. }
  rewrite Forall_forall in H. by specialize (H _ Hin).
Qed.

Lemma credential_words_tails w : w ∈ credential_words → w ∈ word_tails ∧ w ≠ [].
Proof.
  intros Hin. assert (Forall (λ t, t ∈ word_tails ∧ t ≠ []) credential_words) as H.
  { apply (bool_decide_unpack _). vm_compute. exact I. }
  rewrite Forall_forall in H. by apply H.
Qed.

(** No tail of a word starts at, and no word starts inside, the replacement. *)
Lemma tails_replacement y : Forall (λ t, eat_word t (bytes_of "credential" ++ y) = None) word_tails.
Proof. repeat (apply Forall_cons_2; [reflexivity|]). constructor. Qed.

Lemma words_inside_replacement y i :
  (i < 10)%nat → Forall (λ t, eat_word t (drop i (bytes_of "credential") ++ y) = None) credential_words.
Proof.
  intros Hi. do 10 (destruct i as [|i];
    [clear; repeat (apply Forall_cons_2; [by destruct y as [|? [|? ?]]|]); constructor|]).
  lia.
Qed.

Section replacing.
#[local] Abbreviation clean := (replace_all credentialTokenPattern (bytes_of "credential")).

(** A byte that does not start the replacement was copied. *)
Lemma clean_cons fuel l b y :
  clean fuel l = b :: y → b ≠ "c"%char →
  ∃ fuel' l', fuel = S fuel' ∧ l = b :: l' ∧ y = clean fuel' l' ∧ credentialTokenPattern l = None.
Proof.
  destruct fuel as [|fuel], l as [|b' l]; try done. cbn [replace_all].
  destruct (credentialTokenPattern (b' :: l)) eqn:Hm; [intros [= <- _]; done|].
  intros [= -> <-] _. by exists fuel, l.
Qed.

(** What a tail of a word matches in the output, it matched in the input. *)
Lemma eat_word_clean w fuel l :
  w = [] ∨ w ∈ word_tails → is_Some (eat_word w (clean fuel l)) → is_Some (eat_word w l).
Proof.
  revert fuel l. induction w as [|c w IH]; intros fuel l; [done|]. intros [?|Hw] [z Hz]; [done|].
  pose proof (word_tails_cons c w Hw) as Hw'.
  destruct fuel as [|fuel]; [done|]. destruct l as [|b l]; [done|]. cbn [replace_all] in Hz.
  destruct (credentialTokenPattern (b :: l)) as [rest|] eqn:Hm.
  { pose proof (tails_replacement (clean fuel rest)) as Ht. rewrite Forall_forall in Ht.
    by rewrite (Ht _ Hw) in Hz. }
  cbn [eat_word eat] in *. destruct (decide (lower b = c)); [simpl in *; by eapply IH|].
  destruct (clean fuel l) as [|b2 y2] eqn:Hc; [done|].
  destruct (bool_decide (c = "s"%char) && long_s b b2) eqn:Hs.
  - apply andb_true_iff in Hs as [Hs1 Hs2]. apply clean_cons in Hc as (f1 & l1 & -> & -> & -> & _).
    2: { intros ->. unfold long_s, bytes_eqb in Hs2. by apply bool_decide_eq_true in Hs2. }
    rewrite Hs1, Hs2. simpl in *. by eapply IH.
  - destruct y2 as [|b3 y3]; [done|].
    destruct (bool_decide (c = "k"%char) && kelvin b b2 b3) eqn:Hk; [|done].
    apply andb_true_iff in Hk as [Hk1 Hk2].
    assert (b2 ≠ "c"%char ∧ b3 ≠ "c"%char) as [Hb2 Hb3].
    { unfold kelvin, bytes_eqb in Hk2. apply bool_decide_eq_true in Hk2.
      split; intros ->; done. }
    apply clean_cons in Hc as (f1 & l1 & -> & -> & Hc & _); [|done]. symmetry in Hc.
    apply clean_cons in Hc as (f2 & l2 & -> & -> & -> & _); [|done].
    rewrite Hs, Hk1, Hk2. simpl in *. by eapply IH.
Qed.

Lemma clean_no_credential fuel l : no_credential (clean fuel l).
Proof.
  revert l. induction fuel as [|fuel IH]; intros l l1 l2 w Heq Hw.
  - assert (l2 = []) as -> by (by destruct l1, l2).
    destruct (credential_words_tails w Hw) as [_ Hne]. by destruct w.
  - destruct l as [|b l].
    { assert (l2 = []) as -> by (by destruct l1, l2).
      destruct (credential_words_tails w Hw) as [_ Hne]. by destruct w. }
    cbn [replace_all] in Heq. destruct (credentialTokenPattern (b :: l)) as [rest|] eqn:Hm.
    + destruct (decide (length l1 < 10)%nat) as [Hlen|Hlen].
      * pose proof (words_inside_replacement (clean fuel rest) (length l1) Hlen) as Hin.
        rewrite Forall_forall in Hin. rewrite <-(Hin w Hw). f_equal.
        rewrite <-(drop_app_length l1 l2), <-Heq, drop_app_le; [done|]. simpl. lia.
      * eapply (IH rest (drop 10 l1)); [|done].
        rewrite <-(drop_app_length (bytes_of "credential") (clean fuel rest)), Heq.
        rewrite drop_app_le by (simpl; lia). done.
    + destruct l1 as [|b1 l1].
      * simpl in Heq. subst l2. destruct (eat_word w _) as [z|] eqn:Hz; [|done].
        destruct (credential_words_tails w Hw) as [Hw' _].
        destruct (eat_word_clean w (S fuel) (b :: l)) as [z' Hz']; [by right| |].
        { cbn [replace_all]. rewrite Hm. by exists z. }
        rewrite credential_words_pattern in Hm. by rewrite Hm in Hz'.
      * injection Heq as _ Heq. by eapply IH.
Qed.

End replacing.

(** Trimming keeps a part of the string. *)
Lemma trim_left_suffix l : ∃ p, l = p ++ trim_left l.
Proof.
  induction l as [l IH] using (induction_ltof1 _ length); unfold ltof in IH.
  destruct l as [|a l1]; [by exists []|]. cbn [trim_left].
  destruct (ascii_space a); [destruct (IH l1) as [p Hp]; [simpl; lia|]; exists (a :: p); simpl; congruence|].
  destruct l1 as [|b l2]; [by exists []|].
  destruct (space2 a b); [destruct (IH l2) as [p Hp]; [simpl; lia|]; exists (a :: b :: p); simpl; congruence|].
  destruct l2 as [|d l3]; [by exists []|].
  destruct (space3 a b d); [destruct (IH l3) as [p Hp]; [simpl; lia|]; exists (a :: b :: d :: p); simpl; congruence|].
  by exists [].
Qed.

Lemma trim_left_rev_suffix l : ∃ p, l = p ++ trim_left_rev l.
Proof.
  induction l as [l IH] using (induction_ltof1 _ length); unfold ltof in IH.
  destruct l as [|a l1]; [by exists []|]. cbn [trim_left_rev].
  destruct (ascii_space a); [destruct (IH l1) as [p Hp]; [simpl; lia|]; exists (a :: p); simpl; congruence|].
  destruct l1 as [|b l2]; [by exists []|].
  destruct (space2 b a); [destruct (IH l2) as [p Hp]; [simpl; lia|]; exists (a :: b :: p); simpl; congruence|].
  destruct l2 as [|d l3]; [by exists []|].
  destruct (space3 d b a); [destruct (IH l3) as [p Hp]; [simpl; lia|]; exists (a :: b :: d :: p); simpl; congruence|].
  by exists [].
Qed.

Lemma TrimSpace_infix s : ∃ p q, bytes_of s = p ++ bytes_of (TrimSpace s) ++ q.
Proof.
  unfold TrimSpace, bytes_of. set (l := String.list_ascii_of_string s).
  rewrite String.list_ascii_of_string_of_list_ascii.
  destruct (trim_left_suffix l) as [p Hp].
  destruct (trim_left_rev_suffix (reverse (trim_left l))) as [q Hq].
  exists p, (reverse q). rewrite <-reverse_app, <-Hq, reverse_involutive. done.
Qed.

Lemma no_credential_infix p l q : no_credential (p ++ l ++ q) → no_credential l.
Proof.
  intros H l1 l2 w -> Hw. destruct (eat_word w l2) as [z|] eqn:Hz; [|done].
  destruct (eat_word_app w l2 z Hz q) as [z' Hz'].
  by rewrite (H (p ++ l1) (l2 ++ q) w) in Hz'; [|rewrite <-!app_assoc|].
Qed.

(** A string the recorder writes. *)
Definition safe_text (s : string) : Prop := no_credential (bytes_of s).

Lemma sanitize_safe value : safe_text (sanitizeAuditString value).
Proof.
  unfold safe_text, sanitizeAuditString.
  set (v := ReplaceAllString credentialTokenPattern _ _).
  destruct (TrimSpace_infix v) as (p & q & Hv). apply (no_credential_infix p _ q).
  rewrite <-Hv. unfold v, ReplaceAllString, bytes_of.
  rewrite String.list_ascii_of_string_of_list_ascii. apply clean_no_credential.
Qed.

(** ** Credential markers

A credential marker in a string, letter by letter: the words of [secret_key], with or without its
separator, and [bearer], each letter in either case or as the character outside ASCII that folds to it. *)
Definition letter (c : ascii) (b : byte_list) : Prop :=
  b = [c] ∨
  ((97 ≤ N_of_ascii c ≤ 122)%N ∧ b = [ascii_of_N (N_of_ascii c - 32)]) ∨
  (c = "s"%char ∧ b = [ascii_of_N 197; ascii_of_N 191]) ∨
  (c = "k"%char ∧ b = [ascii_of_N 226; ascii_of_N 132; ascii_of_N 170]).

Definition spells (w : string) (b : byte_list) : Prop :=
  ∃ parts, b = concat parts ∧ Forall2 letter (String.list_ascii_of_string w) parts.

Definition credential_free (s : string) : Prop :=
  ∀ before m after w, String.list_ascii_of_string s = before ++ m ++ after →
    w ∈ ["bearer"; "secretkey"; "secret_key"; "secret-key"] → ¬ spells w m.

Lemma letter_eat c b rest : c ∈ mjoin credential_words → letter c b → eat c (b ++ rest) = Some rest.
Proof.
  intros Hc [->|[[Hl ->]|[[-> ->]|[-> ->]]]]; [|destruct rest as [|? [|? ?]]..]; try reflexivity.
  all: assert (Forall (λ c, lower c = c ∧ ((97 ≤ N_of_ascii c ≤ 122)%N → lower (ascii_of_N (N_of_ascii c - 32)) = c))
    (mjoin credential_words)) as H by (apply (bool_decide_unpack _); vm_compute; exact I).
  all: rewrite Forall_forall in H; destruct (H c Hc) as [H1 H2]; cbn [app eat]; rewrite ?(H2 Hl), ?H1, ?decide_True by done; done.
Qed.

Lemma spells_eat w parts rest :
  (∀ c, c ∈ w → c ∈ mjoin credential_words) → Forall2 letter w parts → eat_word w (concat parts ++ rest) = Some rest.
Proof.
  intros Hw H. induction H as [|c b w parts Hb _ IH]; [done|]. cbn [concat eat_word]. rewrite <-app_assoc.
  rewrite letter_eat by (done || apply Hw; by left). apply IH. intros c' Hc'. apply Hw. by right.
Qed.

Lemma safe_credential_free s : safe_text s → credential_free s.
Proof.
  intros Hs before m after w Heq Hw (parts & -> & Hp).
  assert (String.list_ascii_of_string w ∈ credential_words) as Hin.
  { unfold credential_words, bytes_of. rewrite !elem_of_cons in *. cbn [fmap list_fmap]. rewrite !elem_of_cons.
    destruct Hw as [->|[->|[->|[->|[]%elem_of_nil]]]]; auto 6. }
  specialize (Hs before _ _ Heq Hin). rewrite spells_eat in Hs; [done| |done].
  intros c Hc. apply list_elem_of_join. by eexists.
Qed.

(** The texts of a route trace and of an outcome that the recorder cleans. *)
Definition trace_texts (t : RouteTrace) : list string :=
  [tr_RouteID t; tr_TaskID t; tr_TaskType t; tr_AccountAlias t; tr_ModelAlias t; tr_Provider t;
   tr_Reason t] ++ tr_CandidateModelAliases t ++
  (s ← tr_Candidates t; [cs_Alias s; cs_AccountAlias s; Reason s]) ++
  match tr_TaskProfile t with Some p => [TaskType p] | None => [] end.

Definition outcome_texts (o : TaskOutcome) : list string :=
  [o_RouteID o; o_TaskID o; o_TaskType o; o_AccountAlias o; o_ModelAlias o; o_Provider o;
   o_BusinessOutcome o; o_SuccessSignal o; o_FailureReason o; o_ErrorCode o; o_ErrorClass o].

(** The texts of a route trace that it writes as they are given: the names of score parts, and the
enumerations of the profile, which Go types as strings. *)
Definition raw_texts (t : RouteTrace) : list string :=
  (map_to_list (tr_ScoreBreakdown t)).*1 ++
  (s ← tr_Candidates t; (map_to_list (ScoreBreakdown s)).*1) ++
  match tr_TaskProfile t with
  | Some p => [Source p; pf_Complexity p; pf_Latency p; pf_FailureCost p; Privacy p]
  | None => []
  end.

Lemma sanitized_trace_free now t : Forall credential_free (trace_texts (sanitizeRouteTrace now t)).
Proof.
  eapply Forall_impl; [|exact safe_credential_free].
  unfold trace_texts. rewrite !Forall_app. split_and!.
  - repeat (apply Forall_cons_2; [apply sanitize_safe|]). constructor.
  - simpl. unfold sanitizeAuditStrings. rewrite Forall_fmap. apply Forall_forall. intros x _. apply sanitize_safe.
  - simpl. induction (tr_Candidates t) as [|s l IH]; simpl; [constructor|].
    repeat (apply Forall_cons_2; [apply sanitize_safe|]). exact IH.
  - simpl. destruct (tr_TaskProfile t); simpl; [|constructor].
    apply Forall_cons_2; [apply sanitize_safe|constructor].
Qed.

Lemma sanitized_outcome_free now o : Forall credential_free (outcome_texts (sanitizeTaskOutcome now o)).
Proof.
  eapply Forall_impl; [|exact safe_credential_free].
  repeat (apply Forall_cons_2; [apply sanitize_safe|]). constructor.
Qed.

Lemma sanitized_raw now t : raw_texts (sanitizeRouteTrace now t) = raw_texts t.
Proof.
  unfold raw_texts, sanitizeRouteTrace. cbn [tr_ScoreBreakdown tr_Candidates tr_TaskProfile].
  assert (∀ m, copyBreakdown m = m) as Hcopy by (intros m; unfold copyBreakdown; by rewrite map_assign_union, map_union_empty).
  rewrite Hcopy. f_equal. f_equal.
  - induction (tr_Candidates t) as [|s l IH]; [done|]. cbn. rewrite Hcopy. by f_equal.
  - by destruct (tr_TaskProfile t).
Qed.

(** What a host records. *)
Inductive record :=
| RecRoute (ctx ctx' : Ctx) (io : disk) (now : Time) (t : RouteTrace)
| RecOutcome (ctx ctx' : Ctx) (io : disk) (now : Time) (o : TaskOutcome).

Definition record_one (h : Home) (r : record) : Home :=
  match r with
  | RecRoute ctx ctx' io now t => (RecordRoute ctx ctx' io now h t).1
  | RecOutcome ctx ctx' io now o => (RecordOutcome ctx ctx' io now h o).1
  end.

Definition record_error (h : Home) (r : record) : option (CtxErr + string) :=
  match r with
  | RecRoute ctx ctx' io now t => (RecordRoute ctx ctx' io now h t).2
  | RecOutcome ctx ctx' io now o => (RecordOutcome ctx ctx' io now h o).2
  end.

(** Everything in the files is clean, but for raw texts that [raw] has. *)
Definition home_clean (raw : string → Prop) (h : Home) : Prop :=
  (∀ t x, (t, x) ∈ route_file h → Forall credential_free (trace_texts t) ∧ Forall raw (raw_texts t)) ∧
  (∀ o x, (o, x) ∈ outcome_file h → Forall credential_free (outcome_texts o)).

Lemma append_elem {A} ctx io (file : File A) r e :
  e ∈ (appendJSONL ctx io file r).1 → e ∈ file ∨ e.1 = r.
Proof.
  unfold appendJSONL. destruct ctx; [by left|]. destruct io as [| |? [x|]|]; cbn [fst];
    rewrite ?elem_of_app, ?list_elem_of_singleton; naive_solver.
Qed.

Lemma record_one_clean (raw : string → Prop) h r :
  (∀ ctx ctx' io now t, r = RecRoute ctx ctx' io now t → Forall raw (raw_texts t)) →
  home_clean raw h → home_clean raw (record_one h r).
Proof.
  intros Hr [H1 H2]. destruct r as [[e|] ctx' io now t|[e|] ctx' io now o]; cbn [record_one]; unfold RecordRoute, RecordOutcome.
  1, 3: by split.
  - pose proof (append_elem ctx' io (route_file h) (sanitizeRouteTrace now t)) as Ha.
    destruct (appendJSONL _ _ _ _) as [file err]. cbn [fst] in *. split; [|exact H2]. cbn [route_file].
    intros t' x [Ht|Ht]%Ha; [by eapply H1|]. cbn in Ht. subst t'. split; [apply sanitized_trace_free|].
    rewrite sanitized_raw. by eapply Hr.
  - pose proof (append_elem ctx' io (outcome_file h) (sanitizeTaskOutcome now o)) as Ha.
    destruct (appendJSONL _ _ _ _) as [file err]. cbn [fst] in *. split; [exact H1|]. cbn [outcome_file].
    intros o' x [Ho|Ho]%Ha; [by eapply H2|]. cbn in Ho. subst o'. apply sanitized_outcome_free.
Qed.

(** C32: What the recorder cleans holds no credential marker, and what it does not clean is the caller's. After any
sequence of records, with contexts that end and file-system errors anywhere (before, in or after the
write), every record in either file, whole or in part, has no credential marker (bearer or secret key in any
case and any Unicode folding) in its identifiers, task types, aliases, providers, reasons, outcome
signals and error texts, although replacing one marker could have formed another. The remaining texts of
a route, the names of score parts and the profile's source, complexity, latency, failure cost and privacy, are
those the caller gave: a marker in a file stands there only if some recorded route had it there. And a
record that is reported as written is the last of its file, whole. *)
Theorem audit_no_credentials records :
  home_clean (λ text, ∃ ctx ctx' io now t, RecRoute ctx ctx' io now t ∈ records ∧ text ∈ raw_texts t)
    (foldl record_one (mkHome [] []) records) ∧
  ∀ r, record_error (foldl record_one (mkHome [] []) records) r = None →
    let h := foldl record_one (mkHome [] []) records in
    match r with
    | RecRoute _ _ _ now t => record_one h r = mkHome (route_file h ++ [(sanitizeRouteTrace now t, Whole)]) (outcome_file h)
    | RecOutcome _ _ _ now o => record_one h r = mkHome (route_file h) (outcome_file h ++ [(sanitizeTaskOutcome now o, Whole)])
    end.
Proof.
  split.
  - set (raw := λ text, _). assert (∀ l h, (∀ r, r ∈ l → r ∈ records) → home_clean raw h → home_clean raw (foldl record_one h l)) as Hgen.
    { induction l as [|r l IH]; intros h Hl Hh; [done|]. cbn [foldl]. apply IH; [intros r' Hr'; apply Hl; by right|].
      apply record_one_clean; [|done]. intros ctx ctx' io now t ->. apply Forall_forall. intros text Ht.
      exists ctx, ctx', io, now, t. split; [apply Hl; by left|done]. }
    apply Hgen; [done|]. by split; intros ? ? ?%elem_of_nil.
  - set (h := foldl _ _ _). clearbody h. intros [[e|] [e'|] io now t|[e|] [e'|] io now o]; cbn; try done;
      destruct io as [| |? [x|]|]; done.
Qed.

(** A marker that a route's profile carries is written as it is. *)
Definition marked_trace : RouteTrace :=
  zeroTrace <| tr_TaskProfile := Some (DefaultTaskProfile <| Source := "Bearer 0123" |>) |> <| tr_RecordedAt := 1 |>.

Theorem unclean_profile_written :
  route_file (RecordRoute None None Fine 1 (mkHome [] []) marked_trace).1 = [(marked_trace, Whole)] ∧
  ∃ text, text ∈ raw_texts marked_trace ∧ ¬ credential_free text.
Proof.
  split; [reflexivity|]. exists "Bearer 0123". split; [vm_compute; left|]. intros H.
  apply (H [] (bytes_of "Bearer") (bytes_of " 0123") "bearer"); [reflexivity|by left|].
  exists [["B"%char]; ["e"%char]; ["a"%char]; ["r"%char]; ["e"%char]; ["r"%char]]. split; [reflexivity|].
  apply Forall2_cons_2; [right; left; split; [by vm_compute|reflexivity]|].
  repeat (apply Forall2_cons_2; [by left|]). constructor.
Qed.

End Audit.
