(* ===== verification/LlmHealth.v ===== *)
(** llmkit provider health: the circuit breaker and the admission of calls
([src/llmkit/health.go]). A method holds the store's mutex, so it is one step
on the map of entries; [now] is what the policy's clock reads in it. *)

From S2P Require Import Prelude Float64 LlmRouting LlmAudit.
#[local] Open Scope Z_scope.

Module Health.
Import Routing Audit.

Record ProviderHealthEntry := mkEntry {
  e_AccountAlias : string;
  e_ModelAlias : string;
  e_Provider : string;
  e_Availability : ProviderAvailability;
  e_InFlight : Z;
  e_MaxConcurrency : Z;
  e_QuotaRemaining : Z;
  e_QuotaExhausted : bool;
  e_FailureStreak : Z;
  e_LastFailureAt : Time;
  e_CooldownUntil : Time;
  e_UpdatedAt : Time
}.
#[global] Instance eta_ProviderHealthEntry : Eta ProviderHealthEntry := λ e,
  mkEntry (e_AccountAlias e) (e_ModelAlias e) (e_Provider e) (e_Availability e) (e_InFlight e)
    (e_MaxConcurrency e) (e_QuotaRemaining e) (e_QuotaExhausted e) (e_FailureStreak e)
    (e_LastFailureAt e) (e_CooldownUntil e) (e_UpdatedAt e).

(** The zero value [ProviderHealthEntry{}], also what a missing key reads as. *)
Definition zeroEntry : ProviderHealthEntry := mkEntry "" "" "" "" 0 0 0 false 0 0 0 0.

Record ProviderHealthSnapshot := mkSnapshot {
  GeneratedAt : Time;
  Entries : GoMap ProviderHealthEntry
}.

(** [HealthPolicy]; its clock is an argument of the operations. *)
Record HealthPolicy := mkHealthPolicy {
  FailureCooldownThreshold : Z;
  CooldownDuration : Duration;
  MaxCooldownDuration : Duration
}.
#[global] Instance eta_HealthPolicy : Eta HealthPolicy := λ p,
  mkHealthPolicy (FailureCooldownThreshold p) (CooldownDuration p) (MaxCooldownDuration p).

Record MemoryHealthStore := mkHealthStore {
  policy : HealthPolicy;
  entries : GoMap ProviderHealthEntry
}.

Definition minute : Duration := 60000000000.

Definition NewMemoryHealthStore (p : HealthPolicy) : MemoryHealthStore :=
  let p := if FailureCooldownThreshold p <=? 0 then p <| FailureCooldownThreshold := 3 |> else p in
  let p := if CooldownDuration p <=? 0 then p <| CooldownDuration := minute |> else p in
  let p := if MaxCooldownDuration p <? CooldownDuration p
           then p <| MaxCooldownDuration := wrap64 (32 * CooldownDuration p) |> else p in
  mkHealthStore p ∅.

Definition ProviderHealthKey (accountAlias modelAlias provider : string) : string :=
  TrimSpace accountAlias +:+ "|" +:+ TrimSpace modelAlias +:+ "|" +:+ TrimSpace provider.

Definition candidate_key (c : Candidate) : string :=
  ProviderHealthKey (AccountAlias c) (Alias (Model c)) (Provider (Model c)).

Definition outcome_key (o : TaskOutcome) : string :=
  ProviderHealthKey (o_AccountAlias o) (o_ModelAlias o) (o_Provider o).

(** The calls in flight of all entries of an account. *)
Definition account_in_flight (es : GoMap ProviderHealthEntry) (account : string) : Z :=
  map_fold (λ _ e n, if decide (e_AccountAlias e = account) then n + e_InFlight e else n) 0 es.

Definition enrich (e : ProviderHealthEntry) (c : Candidate) : Candidate :=
  c <| c_ProviderAvailability := normalizedAvailability (e_Availability e) |>
    <| ProviderInFlight := e_InFlight e |>
    <| Model := (Model c) <| CurrentConcurrency := e_InFlight e |> |>
    <| ProviderMaxConcurrency := e_MaxConcurrency e |>
    <| ProviderQuotaRemaining := e_QuotaRemaining e |>
    <| ProviderQuotaExhausted := e_QuotaExhausted e |>
    <| ProviderFailureStreak := e_FailureStreak e |>
    <| ProviderCooldownUntil := e_CooldownUntil e |>.

Definition ApplyProviderHealth (snapshot : ProviderHealthSnapshot) (candidates : list Candidate)
    : list Candidate :=
  if decide (size (Entries snapshot) = 0%nat) then candidates
  else
    (λ c, let c := c <| AccountCurrentConcurrency :=
                          account_in_flight (Entries snapshot) (TrimSpace (AccountAlias c)) |> in
          match Entries snapshot !! candidate_key c with
          | None => c
          | Some e => enrich e c
          end) <$> candidates.

(** [settle] forgets a failure streak that ended long ago without opening the
circuit. *)
Definition settle (p : HealthPolicy) (e : ProviderHealthEntry) (now : Time) : ProviderHealthEntry :=
  if bool_decide (e_Availability e = ProviderDegraded) &&
     bool_decide (¬ IsZero (e_LastFailureAt e)) &&
     (CooldownDuration p <=? TimeSub now (e_LastFailureAt e))
  then e <| e_Availability := ProviderAvailable |> <| e_FailureStreak := 0 |>
  else e.

(** The loop of [cooldown]: [extra] failures past the threshold. *)
Fixpoint double_cooldown (max : Duration) (extra : nat) (d : Duration) : Duration :=
  match extra with
  | S extra => if d <? max then double_cooldown max extra (wrap64 (d * 2)) else d
  | O => d
  end.

Definition cooldown (p : HealthPolicy) (streak : Z) : Duration :=
  Z.min (double_cooldown (MaxCooldownDuration p)
           (Z.to_nat (streak - FailureCooldownThreshold p)) (CooldownDuration p))
        (MaxCooldownDuration p).

Definition ensureEntryIdentity (e : ProviderHealthEntry) (accountAlias modelAlias provider : string)
    : ProviderHealthEntry :=
  let e := if decide (e_AccountAlias e = "")
           then e <| e_AccountAlias := TrimSpace accountAlias |> else e in
  let e := if decide (e_ModelAlias e = "")
           then e <| e_ModelAlias := TrimSpace modelAlias |> else e in
  if decide (e_Provider e = "") then e <| e_Provider := TrimSpace provider |> else e.

(** Why a call is not admitted; "" when it is. *)
Definition admissionBlock (es : GoMap ProviderHealthEntry) (e : ProviderHealthEntry)
    (c : Candidate) (now : Time) : string :=
  if bool_decide (¬ IsZero (e_CooldownUntil e)) && bool_decide (Before now (e_CooldownUntil e))
  then "provider is in cooldown"
  else if bool_decide (e_Availability e = ProviderUnavailable) &&
          bool_decide (IsZero (e_CooldownUntil e))
  then "provider is unavailable"
  else if bool_decide (e_Availability e = ProviderUnavailable) && (0 <? e_InFlight e)
  then "provider recovery probe is in flight"
  else if e_QuotaExhausted e || (e_QuotaRemaining e <? 0)
  then "provider quota is exhausted"
  else
    let limit := if e_MaxConcurrency e <=? 0 then MaxConcurrency (Model c)
                 else e_MaxConcurrency e in
    if (0 <? limit) && (limit <=? e_InFlight e) then "provider concurrency is full"
    else if (0 <? AccountMaxConcurrency c) &&
            (AccountMaxConcurrency c <=? account_in_flight es (TrimSpace (AccountAlias c)))
    then "account concurrency is full"
    else "".

Inductive HealthError :=
| HealthCtx (e : CtxErr)
| ErrProviderBusy (reason : string).

(** The entry [Acquire] examines. *)
Definition acquired_entry (s : MemoryHealthStore) (c : Candidate) (now : Time) : ProviderHealthEntry :=
  let e := ensureEntryIdentity (default zeroEntry (entries s !! candidate_key c))
             (AccountAlias c) (Alias (Model c)) (Provider (Model c)) in
  let e := e <| e_Availability := normalizedAvailability (e_Availability e) |> in
  settle (policy s) e now.

Definition Acquire (ctx : Ctx) (now : Time) (s : MemoryHealthStore) (c : Candidate)
    : MemoryHealthStore * option HealthError :=
  match ctx with
  | Some e => (s, Some (HealthCtx e))
  | None =>
      let e := acquired_entry s c now in
      let reason := admissionBlock (entries s) e c now in
      if decide (reason ≠ "") then (s, Some (ErrProviderBusy reason))
      else
        let e := e <| e_InFlight := e_InFlight e + 1 |> <| e_UpdatedAt := now |> in
        (mkHealthStore (policy s) (<[candidate_key c := e]> (entries s)), None)
  end.

(** [Acquire] fails and changes nothing, or it counts the call. *)
Lemma Acquire_cases ctx now s c :
  (∃ err, Acquire ctx now s c = (s, Some err)) ∨
  (∃ e, e_InFlight e = e_InFlight (acquired_entry s c now) + 1 ∧
    e_Availability e = e_Availability (acquired_entry s c now) ∧
    admissionBlock (entries s) (acquired_entry s c now) c now = "" ∧
    Acquire ctx now s c = (mkHealthStore (policy s) (<[candidate_key c := e]> (entries s)), None)).
Proof.
  unfold Acquire. destruct ctx as [err|]; [left; by eexists|].
  generalize (acquired_entry s c now). intros e. destruct (decide _) as [|Hr]; [left; by eexists|].
  right. exists (e <| e_InFlight := e_InFlight e + 1 |> <| e_UpdatedAt := now |>).
  apply dec_stable in Hr. by destruct e.
Qed.

(** [if entry.InFlight > 0 { entry.InFlight-- }]. *)
Definition end_call (e : ProviderHealthEntry) : ProviderHealthEntry :=
  if 0 <? e_InFlight e then e <| e_InFlight := e_InFlight e - 1 |> else e.

(** [Release] ignores its context and always succeeds. *)
Definition Release (now : Time) (s : MemoryHealthStore) (c : Candidate) : MemoryHealthStore :=
  match entries s !! candidate_key c with
  | None => s
  | Some e =>
      mkHealthStore (policy s)
        (<[candidate_key c := (end_call e) <| e_UpdatedAt := now |>]> (entries s))
  end.

Definition CountsTowardProviderHealth (class : ErrorClass) : bool :=
  negb (bool_decide (class ∈ [ErrorClassCanceled; ErrorClassRequestTooLarge;
    ErrorClassBudgetExceeded; ErrorClassPolicyBlocked; ErrorClassCapabilityMismatch;
    ErrorClassPostCall; ErrorClassProviderBusy])).

(** What an outcome makes of the settled entry. *)
Definition judge (p : HealthPolicy) (now : Time) (o : TaskOutcome) (e : ProviderHealthEntry)
    : ProviderHealthEntry :=
  if negb (o_Success o) && negb (CountsTowardProviderHealth (o_ErrorClass o)) then e
  else if o_Success o then
    e <| e_FailureStreak := 0 |> <| e_Availability := ProviderAvailable |>
      <| e_CooldownUntil := 0 |>
  else
    let e := e <| e_FailureStreak := e_FailureStreak e + 1 |> <| e_LastFailureAt := now |> in
    if FailureCooldownThreshold p <=? e_FailureStreak e then
      e <| e_Availability := ProviderUnavailable |>
        <| e_CooldownUntil := TimeAdd now (cooldown p (e_FailureStreak e)) |>
    else e <| e_Availability := ProviderDegraded |>.

Definition outcome_entry (p : HealthPolicy) (now : Time) (o : TaskOutcome) (e : ProviderHealthEntry)
    : ProviderHealthEntry :=
  let e := e <| e_AccountAlias := TrimSpace (o_AccountAlias o) |>
             <| e_ModelAlias := TrimSpace (o_ModelAlias o) |>
             <| e_Provider := TrimSpace (o_Provider o) |> in
  let e := settle p (end_call e) now in
  (judge p now o e) <| e_UpdatedAt := now |>.

Definition RecordOutcome (ctx : Ctx) (now : Time) (s : MemoryHealthStore) (o : TaskOutcome)
    : MemoryHealthStore * option HealthError :=
  match ctx with
  | Some e => (s, Some (HealthCtx e))
  | None =>
      let e := outcome_entry (policy s) now o (default zeroEntry (entries s !! outcome_key o)) in
      (mkHealthStore (policy s) (<[outcome_key o := e]> (entries s)), None)
  end.

Definition Snapshot (now : Time) (s : MemoryHealthStore) : ProviderHealthSnapshot :=
  mkSnapshot now ((λ e, settle (policy s) e now) <$> entries s).

Definition Set_ (now : Time) (s : MemoryHealthStore) (e : ProviderHealthEntry) : MemoryHealthStore :=
  let e := e <| e_Availability := normalizedAvailability (e_Availability e) |>
             <| e_UpdatedAt := now |> in
  mkHealthStore (policy s)
    (<[ProviderHealthKey (e_AccountAlias e) (e_ModelAlias e) (e_Provider e) := e]> (entries s)).

End Health.
