(* ===== verification/LlmBreaker.v ===== *)
(** The abstract circuit breaker of the [HealthPolicy] comment, with a ledger of
the admitted calls, and the proof that [MemoryHealthStore] refines it
([src/llmkit/health.go]); consequences for concurrency limits and recovery
probes. *)

From S2P Require Import Prelude Float64 LlmRouting LlmAudit LlmHealth.
#[local] Open Scope Z_scope.

Module Breaker.
Import Routing Audit Health.

(** * The specification *)

(** A circuit is closed, counts recent failures, or is open until a time; an
open circuit whose time has come admits one probe. *)
Inductive circuit :=
| Closed
| Failing (streak : Z) (last : Time)
| Open (streak : Z) (until : Time).

(** The state: the circuits that are not closed, and the ledger of admitted calls that have
not ended, each a provider key and its account. *)
Record breaker := mkBreaker {
  circuits : GoMap circuit;
  ledger : list (string * string)
}.

Definition circuit_of (b : breaker) (k : string) : circuit := default Closed (circuits b !! k).

Definition calls (k : string) (l : list (string * string)) : Z :=
  Z.of_nat (length (filter (λ x, x.1 = k) l)).
Definition account_calls (a : string) (l : list (string * string)) : Z :=
  Z.of_nat (length (filter (λ x, x.2 = a) l)).

(** A streak is forgotten [CooldownDuration] after its last failure. *)
Definition refresh (p : HealthPolicy) (now : Time) (c : circuit) : circuit :=
  match c with
  | Failing _ last => if CooldownDuration p <=? now - last then Closed else c
  | _ => c
  end.

(** [streak] failures in a row open the circuit for [CooldownDuration], doubled by every
failure past the threshold, up to [MaxCooldownDuration]. *)
Definition open_time (p : HealthPolicy) (streak : Z) : Duration :=
  Z.min (CooldownDuration p * 2 ^ (streak - FailureCooldownThreshold p)) (MaxCooldownDuration p).

Definition streak_of (c : circuit) : Z :=
  match c with Closed => 0 | Failing n _ | Open n _ => n end.

Definition fails (p : HealthPolicy) (now : Time) (c : circuit) : circuit :=
  let n := streak_of c + 1 in
  if FailureCooldownThreshold p <=? n then Open n (now + open_time p n) else Failing n now.

(** An open circuit lets a call through once its time has come and no other call is in
flight. *)
Definition lets_through (now : Time) (in_flight : Z) (c : circuit) : bool :=
  match c with Open _ until => (until <=? now) && (in_flight <=? 0) | _ => true end.

(** A limit of 0 or less is no limit. *)
Definition below (n limit : Z) : bool := (limit <=? 0) || (n <? limit).

(** A call asks for admission. *)
Definition admits (p : HealthPolicy) (now : Time) (k account : string) (limit account_limit : Z)
    (b : breaker) : breaker * bool :=
  let c := refresh p now (circuit_of b k) in
  if lets_through now (calls k (ledger b)) c && below (calls k (ledger b)) limit &&
     below (account_calls account (ledger b)) account_limit
  then (mkBreaker (<[k := c]> (circuits b)) ((k, account) :: ledger b), true)
  else (b, false).

(** A call of [k] ends: one is struck from the ledger, if there is one. *)
Fixpoint strike (k : string) (l : list (string * string)) : list (string * string) :=
  match l with
  | [] => []
  | x :: l' => if decide (x.1 = k) then l' else x :: strike k l'
  end.

(** How a call ended: without reaching the provider, with a success, a failure of the
provider, or a failure that says nothing about it. *)
Inductive ending := Unsent | Succeeded | Failed | Unrelated.

Definition finish (p : HealthPolicy) (now : Time) (k : string) (how : ending) (b : breaker) : breaker :=
  let c := refresh p now (circuit_of b k) in
  mkBreaker
    match how with
    | Unsent => circuits b
    | Succeeded => <[k := Closed]> (circuits b)
    | Failed => <[k := fails p now c]> (circuits b)
    | Unrelated => <[k := c]> (circuits b)
    end (strike k (ledger b)).

(** * Histories of a store *)

(** The calls of the clients, each with its context and clock reading. *)
Inductive op :=
| OpAcquire (ctx : Ctx) (now : Time) (c : Candidate)
| OpRelease (now : Time) (c : Candidate)
| OpOutcome (ctx : Ctx) (now : Time) (o : TaskOutcome).

Definition exec (s : MemoryHealthStore) (x : op) : MemoryHealthStore * option HealthError :=
  match x with
  | OpAcquire ctx now c => Acquire ctx now s c
  | OpRelease now c => (Release now s c, None)
  | OpOutcome ctx now o => RecordOutcome ctx now s o
  end.

Definition how_ended (o : TaskOutcome) : ending :=
  if o_Success o then Succeeded
  else if CountsTowardProviderHealth (o_ErrorClass o) then Failed else Unrelated.

(** The same call on the specification; the result tells whether it was carried out. *)
Definition spec_exec (p : HealthPolicy) (b : breaker) (x : op) : breaker * bool :=
  match x with
  | OpAcquire None now c =>
      admits p now (candidate_key c) (TrimSpace (AccountAlias c)) (MaxConcurrency (Model c))
        (AccountMaxConcurrency c) b
  | OpRelease now c => (finish p now (candidate_key c) Unsent b, true)
  | OpOutcome None now o => (finish p now (outcome_key o) (how_ended o) b, true)
  | OpAcquire (Some _) _ _ | OpOutcome (Some _) _ _ => (b, false)
  end.

Definition op_time (x : op) : Time :=
  match x with OpAcquire _ t _ | OpRelease t _ | OpOutcome _ t _ => t end.

(** The keys under which an operation works, with the account it names. *)
Definition op_account (x : op) : string * string :=
  match x with
  | OpAcquire _ _ c | OpRelease _ c => (candidate_key c, TrimSpace (AccountAlias c))
  | OpOutcome _ _ o => (outcome_key o, TrimSpace (o_AccountAlias o))
  end.

(** Running a history, with what each call reports. *)
Fixpoint run {S R} (step : S → op → S * R) (s : S) (h : list op) : S * list R :=
  match h with
  | [] => (s, [])
  | x :: h' =>
      let '(s1, r) := step s x in
      let '(s2, rs) := run step s1 h' in (s2, r :: rs)
  end.

(** A policy after [NewMemoryHealthStore], with cooldowns that cannot overflow. *)
Definition policy_ok (p : HealthPolicy) : Prop :=
  0 < FailureCooldownThreshold p ∧ 0 < CooldownDuration p ≤ MaxCooldownDuration p ∧
  MaxCooldownDuration p ≤ 2 ^ 62.

(** [acct] names the account of each provider key (two accounts never share a key), and
clocks read a time after the zero time. *)
Definition op_ok (acct : string → string) (x : op) : Prop :=
  0 < op_time x ∧ (op_account x).2 = acct (op_account x).1.

(** * Cooldowns *)

Lemma double_cooldown_exact m n d :
  0 < d → m ≤ 2 ^ 62 → Z.min (double_cooldown m n d) m = Z.min (d * 2 ^ Z.of_nat n) m.
Proof.
  revert d. induction n as [|n IH]; intros d Hd Hm; simpl; [f_equal; lia|].
  assert (2 ^ Z.of_nat (S n) = 2 * 2 ^ Z.of_nat n) as Hpow.
  { rewrite Nat2Z.inj_succ, Z.pow_succ_r; lia. }
  change (Z.pos (Pos.of_succ_nat n)) with (Z.of_nat (S n)). rewrite Hpow.
  assert (0 < 2 ^ Z.of_nat n) by lia.
  destruct (d <? m) eqn:Hlt; [apply Z.ltb_lt in Hlt|apply Z.ltb_ge in Hlt].
  - rewrite wrap64_id by (unfold min_int64, max_int64; lia). rewrite IH by lia. f_equal. lia.
  - rewrite !Z.min_r; nia.
Qed.

Lemma cooldown_exact p n :
  policy_ok p → FailureCooldownThreshold p ≤ n → cooldown p n = open_time p n.
Proof.
  intros (Ht & Hc & Hm) Hn. unfold cooldown, open_time.
  rewrite double_cooldown_exact by lia. by rewrite Z2Nat.id by lia.
Qed.

Lemma open_time_pos p n :
  policy_ok p → FailureCooldownThreshold p ≤ n → 0 < open_time p n.
Proof.
  intros (Ht & Hc & Hm) Hn. unfold open_time.
  assert (0 < 2 ^ (n - FailureCooldownThreshold p)) by (apply Z.pow_pos_nonneg; lia). nia.
Qed.

(** * The ledger *)

Lemma calls_cons k x l : calls k (x :: l) = (if decide (x.1 = k) then 1 else 0) + calls k l.
Proof. unfold calls. rewrite filter_cons. case_decide; simpl; lia. Qed.

Lemma account_calls_cons a x l :
  account_calls a (x :: l) = (if decide (x.2 = a) then 1 else 0) + account_calls a l.
Proof. unfold account_calls. rewrite filter_cons. case_decide; simpl; lia. Qed.

Lemma calls_nonneg k l : 0 ≤ calls k l.
Proof. unfold calls. lia. Qed.

Lemma account_calls_nonneg a l : 0 ≤ account_calls a l.
Proof. unfold account_calls. lia. Qed.

Lemma calls_strike_ne k k' l : k' ≠ k → calls k' (strike k l) = calls k' l.
Proof.
  intros Hne. induction l as [|x l IH]; simpl; [done|].
  case_decide; rewrite ?calls_cons, ?IH; [|done]. rewrite decide_False by congruence. lia.
Qed.

Lemma calls_strike k l : calls k (strike k l) = Z.max 0 (calls k l - 1).
Proof.
  induction l as [|x l IH]; simpl; [done|]. pose proof (calls_nonneg k l).
  case_decide as Hx; rewrite ?calls_cons; [rewrite decide_True by done; lia|].
  rewrite decide_False by done. rewrite IH. lia.
Qed.

Lemma account_calls_strike acct a k l :
  Forall (λ x, x.2 = acct x.1) l →
  account_calls a (strike k l) =
  account_calls a l + (if decide (a = acct k) then calls k (strike k l) - calls k l else 0).
Proof.
  induction 1 as [|x l Hx Hl IH]; simpl; [case_decide; done|].
  destruct (decide (x.1 = k)) as [<-|Hk]; rewrite !account_calls_cons, ?IH, !calls_cons.
  - rewrite (decide_True (P := x.1 = x.1)) by done. rewrite Hx.
    repeat case_decide; simplify_eq; lia.
  - rewrite !(decide_False (P := x.1 = k)) by done. case_decide; case_decide; lia.
Qed.

Lemma strike_Forall (P : string * string → Prop) k l : Forall P l → Forall P (strike k l).
Proof. induction 1; simpl; [constructor|]. case_decide; [done|by constructor]. Qed.

(** What an entry adds to the calls of account [a]. *)
Definition contribution (a : string) (e : ProviderHealthEntry) : Z :=
  if decide (e_AccountAlias e = a) then e_InFlight e else 0.

Definition entry_at (s : MemoryHealthStore) (k : string) : ProviderHealthEntry :=
  default zeroEntry (entries s !! k).

Lemma account_in_flight_fresh es a k e :
  es !! k = None →
  account_in_flight (<[k := e]> es) a = account_in_flight es a + contribution a e.
Proof.
  intros Hk. unfold account_in_flight, contribution. rewrite map_fold_insert_L; [|intros|done].
  - case_decide; lia.
  - repeat case_decide; lia.
Qed.

Lemma account_in_flight_insert es a k e :
  account_in_flight (<[k := e]> es) a =
  account_in_flight es a - contribution a (default zeroEntry (es !! k)) + contribution a e.
Proof.
  rewrite <-insert_delete_eq, account_in_flight_fresh by apply lookup_delete_eq.
  destruct (es !! k) as [e0|] eqn:Hk; simpl.
  - rewrite <-(insert_delete_id es k e0) at 2 by done.
    rewrite account_in_flight_fresh by apply lookup_delete_eq. lia.
  - rewrite delete_id by done. unfold contribution at 2. simpl. case_decide; lia.
Qed.

(** * The simulation relation *)

Definition circuit_rel (p : HealthPolicy) (e : ProviderHealthEntry) (c : circuit) : Prop :=
  match c with
  | Closed => (e_Availability e = "" ∨ e_Availability e = ProviderAvailable) ∧
      e_FailureStreak e = 0 ∧ e_CooldownUntil e = 0
  | Failing n last => e_Availability e = ProviderDegraded ∧ e_FailureStreak e = n ∧
      e_LastFailureAt e = last ∧ last ≠ 0 ∧ e_CooldownUntil e = 0 ∧ 0 < n
  | Open n until => e_Availability e = ProviderUnavailable ∧ e_FailureStreak e = n ∧
      e_CooldownUntil e = until ∧ until ≠ 0 ∧ FailureCooldownThreshold p ≤ n
  end.

Record entry_rel (p : HealthPolicy) (e : ProviderHealthEntry) (c : circuit) (n : Z) : Prop := {
  er_circuit : circuit_rel p e c;
  er_calls : e_InFlight e = n;
  er_limit : e_MaxConcurrency e = 0;
  er_quota : e_QuotaRemaining e = 0 ∧ e_QuotaExhausted e = false
}.

Record refines (acct : string → string) (s : MemoryHealthStore) (b : breaker) : Prop := {
  r_entry k : entry_rel (policy s) (entry_at s k) (circuit_of b k) (calls k (ledger b));
  r_account k e : entries s !! k = Some e → e_AccountAlias e = acct k;
  r_ledger : Forall (λ x, x.2 = acct x.1) (ledger b);
  r_sum a : account_in_flight (entries s) a = account_calls a (ledger b)
}.

Lemma refines_init acct p : refines acct (NewMemoryHealthStore p) (mkBreaker ∅ []).
Proof.
  assert (entries (NewMemoryHealthStore p) = ∅) as He by done.
  split; unfold entry_at; rewrite ?He; [|done..]. intros k. rewrite lookup_empty.
  split; [|done..]. unfold circuit_of. simpl. rewrite lookup_empty. simpl. auto.
Qed.

(** One key's entry, circuit and calls change together. *)
Lemma refines_update acct s b k e c l :
  refines acct s b → e_AccountAlias e = acct k → entry_rel (policy s) e c (calls k l) →
  (∀ k', k' ≠ k → calls k' l = calls k' (ledger b)) →
  (∀ a, account_calls a l = account_calls a (ledger b) +
          (if decide (a = acct k) then calls k l - calls k (ledger b) else 0)) →
  Forall (λ x, x.2 = acct x.1) l →
  refines acct (mkHealthStore (policy s) (<[k := e]> (entries s)))
    (mkBreaker (<[k := c]> (circuits b)) l).
Proof.
  intros [He Ha Hl Hs] Hacct Hrel Hother Hsum Hledger. split.
  - intros k'. unfold entry_at, circuit_of. cbn [entries circuits ledger].
    destruct (decide (k' = k)) as [->|Hne]; [by rewrite !lookup_insert_eq|].
    rewrite !lookup_insert_ne by done. rewrite Hother by done. apply He.
  - intros k' e'. cbn [entries]. rewrite lookup_insert_Some. naive_solver.
  - done.
  - intros a. cbn [entries ledger]. rewrite account_in_flight_insert, Hs, Hsum.
    destruct Hrel as [_ Hcalls _ _]. destruct (He k) as [_ Hold _ _]. unfold entry_at in Hold.
    unfold contribution at 2. rewrite Hacct, Hcalls. unfold contribution.
    destruct (entries s !! k) as [e0|] eqn:Hk; simpl in *.
    + rewrite (Ha k e0 Hk). repeat case_decide; simplify_eq; lia.
    + repeat case_decide; simplify_eq; lia.
Qed.

(** * Every operation refines its specification *)

Lemma settle_rel p e c n now :
  policy_ok p → entry_rel p e c n → entry_rel p (settle p e now) (refresh p now c) n.
Proof.
  intros (_ & Hp & Hm) [Hc Hn Hmax Hq]. unfold settle, IsZero.
  destruct c as [|k last|k until]; simpl in *.
  - rewrite bool_decide_eq_false_2; [by split|]. destruct Hc as [[->| ->] _]; done.
  - destruct Hc as (Hav & Hk & Hl & Hz & Hcd & Hpos).
    rewrite !bool_decide_eq_true_2 by congruence. simpl.
    assert ((CooldownDuration p <=? TimeSub now (e_LastFailureAt e)) =
            (CooldownDuration p <=? now - last)) as ->.
    { rewrite Hl. unfold TimeSub, clamp64, min_int64, max_int64.
      apply eq_bool_prop_intro; rewrite !Is_true_true, !Z.leb_le. lia. }
    case_match; split; try done. simpl. auto.
  - rewrite bool_decide_eq_false_2; [by split|]. by destruct Hc as (-> & _).
Qed.

Lemma normalized_rel p e c n :
  entry_rel p e c n →
  entry_rel p (e <| e_Availability := normalizedAvailability (e_Availability e) |>) c n.
Proof.
  intros [Hc Hn Hmax Hq]. split; [|done..]. unfold normalizedAvailability.
  destruct c; simpl in *; destruct Hc as [Hav Hc]; split; try done.
  - case_decide; tauto.
  - by rewrite Hav.
  - by rewrite Hav.
Qed.

Lemma identity_rel p e c n a m v : entry_rel p e c n → entry_rel p (ensureEntryIdentity e a m v) c n.
Proof.
  intros [Hc Hn Hmax Hq]. unfold ensureEntryIdentity. repeat case_decide; split; try done;
    by destruct c.
Qed.

Lemma identity_account e a m v :
  e_AccountAlias (ensureEntryIdentity e a m v) =
  if decide (e_AccountAlias e = "") then TrimSpace a else e_AccountAlias e.
Proof. unfold ensureEntryIdentity. by repeat case_decide. Qed.

Lemma settle_account p e now : e_AccountAlias (settle p e now) = e_AccountAlias e.
Proof. unfold settle. by case_match. Qed.

Lemma end_call_account e : e_AccountAlias (end_call e) = e_AccountAlias e.
Proof. unfold end_call. by case_match. Qed.

Lemma judge_account p now o e : e_AccountAlias (judge p now o e) = e_AccountAlias e.
Proof. unfold judge. by repeat case_match. Qed.

Lemma acquired_rel acct s b c now :
  policy_ok (policy s) → refines acct s b →
  entry_rel (policy s) (acquired_entry s c now) (refresh (policy s) now (circuit_of b (candidate_key c)))
    (calls (candidate_key c) (ledger b)).
Proof.
  intros Hp Hr. unfold acquired_entry.
  apply settle_rel; [done|]. apply normalized_rel, identity_rel, (r_entry _ _ _ Hr).
Qed.

Lemma acquired_account acct s b c now :
  refines acct s b → TrimSpace (AccountAlias c) = acct (candidate_key c) →
  e_AccountAlias (acquired_entry s c now) = acct (candidate_key c).
Proof.
  intros Hr Ha. unfold acquired_entry. rewrite settle_account. simpl. rewrite identity_account.
  destruct (entries s !! candidate_key c) as [e|] eqn:Hk; simpl; [|done].
  rewrite (r_account _ _ _ Hr _ _ Hk). by case_decide.
Qed.

(** The admission test is the specification's. *)
Lemma admissionBlock_spec p es e c n l now cand :
  entry_rel p e c n → (∀ a, account_in_flight es a = account_calls a l) →
  admissionBlock es e cand now = "" ↔
  lets_through now n c && below n (MaxConcurrency (Model cand)) &&
  below (account_calls (TrimSpace (AccountAlias cand)) l) (AccountMaxConcurrency cand) = true.
Proof.
  intros [Hc Hn Hmax [Hq Hx]] Hsum. unfold admissionBlock. rewrite Hmax, Hq, Hx, Hsum, Hn. cbn [orb Z.ltb Z.leb Z.compare].
  rewrite !guard_reason by done. guards. unfold below, IsZero, Before.
  rewrite !andb_true_iff, !orb_true_iff, !Z.leb_le, !Z.ltb_lt.
  destruct c as [|k last|k until]; simpl in *.
  - destruct Hc as ([Ha|Ha] & _ & Hcd); rewrite Ha, Hcd; naive_solver lia.
  - destruct Hc as (Ha & _ & _ & _ & Hcd & _). rewrite Ha, Hcd. naive_solver lia.
  - destruct Hc as (Ha & _ & Hcd & Hz & _). rewrite Ha, Hcd, andb_true_iff, !Z.leb_le.
    naive_solver lia.
Qed.

(** A call is admitted in both or in neither. *)
Lemma acquire_refines acct s b ctx now c :
  policy_ok (policy s) → op_ok acct (OpAcquire ctx now c) → refines acct s b →
  let '(s', r) := Acquire ctx now s c in
  let '(b', ok) := spec_exec (policy s) b (OpAcquire ctx now c) in
  refines acct s' b' ∧ policy s' = policy s ∧ (r = None ↔ ok = true).
Proof.
  intros Hp [Hnow Ha] Hr. simpl in Ha. unfold Acquire. destruct ctx as [err|]; [done|].
  cbn [spec_exec].
  pose proof (acquired_rel acct s b c now Hp Hr) as He.
  pose proof (acquired_account acct s b c now Hr Ha) as Hacct.
  pose proof (admissionBlock_spec (policy s) (entries s) _ _ _ (ledger b) now c He (r_sum _ _ _ Hr)) as Hb.
  set (e := acquired_entry s c now) in *. clearbody e.
  unfold admits. destruct (_ && _) eqn:Hok.
  - rewrite decide_False by (intros Hn; by apply Hn, Hb). split_and!; [|done|done].
    apply refines_update; try done.
    + destruct He as [Hc Hn Hmax Hq]. split; [by destruct (refresh _ _ _)| |exact Hmax|exact Hq].
      rewrite calls_cons, decide_True by done. simpl. lia.
    + intros k' Hk'. rewrite calls_cons. rewrite decide_False by (simpl; congruence). lia.
    + intros a. rewrite account_calls_cons, calls_cons. simpl. rewrite Ha.
      rewrite (decide_True (P := candidate_key c = _)) by done.
      repeat case_decide; simplify_eq; lia.
    + constructor; [done|apply Hr].
  - assert (admissionBlock (entries s) e c now ≠ "") as Hne.
    { intros H. by apply Hb in H. }
    rewrite decide_True by done. by split_and!.
Qed.

Lemma end_call_rel p e c n :
  0 ≤ n → entry_rel p e c n → entry_rel p (end_call e) c (Z.max 0 (n - 1)).
Proof.
  intros Hpos [Hc Hn Hmax Hq]. unfold end_call. rewrite Hn.
  destruct (0 <? n) eqn:H; [apply Z.ltb_lt in H|apply Z.ltb_ge in H];
    (split; [by destruct c| |done|done]); simpl; lia.
Qed.

(** A call of [k] ends, and its entry becomes [e]. *)
Lemma finish_refines acct s b k e c :
  refines acct s b → e_AccountAlias e = acct k →
  entry_rel (policy s) e c (Z.max 0 (calls k (ledger b) - 1)) →
  refines acct (mkHealthStore (policy s) (<[k := e]> (entries s)))
    (mkBreaker (<[k := c]> (circuits b)) (strike k (ledger b))).
Proof.
  intros Hr Ha He. apply refines_update; try done.
  - by rewrite calls_strike.
  - intros k' Hk'. by apply calls_strike_ne.
  - intros a. apply account_calls_strike, Hr.
  - apply strike_Forall, Hr.
Qed.

(** A closed circuit need not be stored. *)
Lemma refines_circuits acct s cs cs' l :
  (∀ k, default Closed (cs !! k) = default Closed (cs' !! k)) →
  refines acct s (mkBreaker cs l) → refines acct s (mkBreaker cs' l).
Proof.
  intros Hcs [He ???]. split; try done. intros k. specialize (He k).
  unfold circuit_of in *. simpl in *. by rewrite <-Hcs.
Qed.

Lemma strike_none k l : calls k l = 0 → strike k l = l.
Proof.
  induction l as [|x l IH]; [done|]. rewrite calls_cons. pose proof (calls_nonneg k l). simpl.
  case_decide; [lia|]. intros. rewrite IH; [done|lia].
Qed.

Lemma release_refines acct s b now c :
  refines acct s b →
  refines acct (Release now s c) (finish (policy s) now (candidate_key c) Unsent b).
Proof.
  intros Hr. unfold Release, finish. pose proof (r_entry _ _ _ Hr (candidate_key c)) as He.
  unfold entry_at in He. destruct (entries s !! candidate_key c) as [e|] eqn:Hk; simpl in *.
  - eapply refines_circuits; [|apply (finish_refines acct s b (candidate_key c) _
      (circuit_of b (candidate_key c)) Hr)].
    + intros k'. unfold circuit_of. destruct (decide (k' = candidate_key c)) as [->|].
      * by rewrite lookup_insert_eq.
      * by rewrite lookup_insert_ne by done.
    + transitivity (e_AccountAlias e); [apply end_call_account|].
      by apply (r_account _ _ _ Hr).
    + apply (end_call_rel _ _ _ _ (calls_nonneg _ _)) in He.
      by destruct He as [Hc ???].
  - rewrite strike_none; [by destruct b|]. by destruct He as [_ <- _ _].
Qed.

Lemma judge_rel p now o e c n :
  policy_ok p → 0 < now → entry_rel p e c n →
  entry_rel p (judge p now o e)
    match how_ended o with Succeeded => Closed | Failed => fails p now c | _ => c end n.
Proof.
  intros Hp Hnow [Hc Hn Hmax Hq]. unfold judge, how_ended.
  destruct (o_Success o); simpl; [split; try done; simpl; auto|].
  destruct (CountsTowardProviderHealth _); simpl; [|by split].
  assert (e_FailureStreak e = streak_of c ∧ 0 ≤ streak_of c) as [Hk Hpos].
  { destruct Hp as [Hthr _]. destruct c; simpl in Hc |- *;
      destruct_and?; simplify_eq; split; lia. }
  unfold fails. rewrite Hk. case_match eqn:Ht; (split; [|done..]); simpl.
  - apply Z.leb_le in Ht. pose proof (open_time_pos p (streak_of c + 1) Hp Ht).
    rewrite cooldown_exact by done. unfold TimeAdd. split_and!; try done. lia.
  - apply Z.leb_gt in Ht. split_and!; try done; try lia.
    destruct c; simpl in *; [naive_solver..|lia].
Qed.

Lemma outcome_refines acct s b ctx now o :
  policy_ok (policy s) → op_ok acct (OpOutcome ctx now o) → refines acct s b →
  let '(s', r) := RecordOutcome ctx now s o in
  let '(b', ok) := spec_exec (policy s) b (OpOutcome ctx now o) in
  refines acct s' b' ∧ policy s' = policy s ∧ (r = None ↔ ok = true).
Proof.
  intros Hp [Hnow Ha] Hr. simpl in Ha, Hnow. unfold RecordOutcome.
  destruct ctx as [err|]; [done|]. cbn [spec_exec].
  pose proof (r_entry _ _ _ Hr (outcome_key o)) as He. unfold entry_at in He.
  set (e := default zeroEntry _) in *. clearbody e. split_and!; [|done|done].
  unfold finish, outcome_entry. set (e1 := e <| e_AccountAlias := _ |> <| e_ModelAlias := _ |> <| e_Provider := _ |>).
  assert (entry_rel (policy s) e1 (circuit_of b (outcome_key o)) (calls (outcome_key o) (ledger b))) as He1.
  { by destruct He as [Hc ???]. }
  assert (e_AccountAlias e1 = acct (outcome_key o)) as Hacct by done. clearbody e1.
  apply (end_call_rel _ _ _ _ (calls_nonneg _ _)) in He1.
  apply (settle_rel _ _ _ _ now Hp), (judge_rel _ now o _ _ _ Hp Hnow) in He1.
  set (e2 := judge _ _ _ _) in *.
  assert (e_AccountAlias e2 = acct (outcome_key o)) as Hacct2.
  { unfold e2. by rewrite judge_account, settle_account, end_call_account. }
  clearbody e2.
  replace (match how_ended o with Unsent => circuits b | _ => _ end) with
    (<[outcome_key o := match how_ended o with Succeeded => Closed
       | Failed => fails (policy s) now (refresh (policy s) now (circuit_of b (outcome_key o)))
       | _ => refresh (policy s) now (circuit_of b (outcome_key o)) end]> (circuits b)).
  - apply finish_refines; [done|done|]. destruct He1 as [Hc ???]. split; try done.
  - unfold how_ended. repeat case_match; done.
Qed.

Lemma exec_refines acct s b x :
  policy_ok (policy s) → op_ok acct x → refines acct s b →
  let '(s', r) := exec s x in
  let '(b', ok) := spec_exec (policy s) b x in
  refines acct s' b' ∧ policy s' = policy s ∧ (r = None ↔ ok = true).
Proof.
  destruct x as [ctx now c|now c|ctx now o]; intros Hp Hok Hr.
  - by apply acquire_refines.
  - simpl. split_and!; [by apply release_refines| |done]. unfold Release. by case_match.
  - by apply outcome_refines.
Qed.

Lemma run_refines acct s b h :
  policy_ok (policy s) → Forall (op_ok acct) h → refines acct s b →
  refines acct (run exec s h).1 (run (spec_exec (policy s)) b h).1 ∧
  policy (run exec s h).1 = policy s ∧
  Forall2 (λ r ok, r = None ↔ ok = true) (run exec s h).2 (run (spec_exec (policy s)) b h).2.
Proof.
  intros Hp Hh. revert s b Hp. induction Hh as [|x h Hx Hh IH]; intros s b Hp Hr; [done|].
  simpl. pose proof (exec_refines acct s b x Hp Hx Hr) as Hstep.
  destruct (exec s x) as [s1 r] eqn:E1, (spec_exec (policy s) b x) as [b1 ok] eqn:E2.
  destruct Hstep as (Hr1 & Hpol & Hrok). specialize (IH s1 b1).
  rewrite Hpol in IH. specialize (IH Hp Hr1).
  destruct (run exec s1 h) as [s2 rs], (run (spec_exec (policy s)) b1 h) as [b2 oks].
  simpl in *. destruct IH as (? & ? & ?). split_and!; [done|done|by constructor].
Qed.

(** C11: The health store is the circuit breaker its policy describes, where the longest cooldown of the policy is at most 2^62 ns
(beyond, the doubling may wrap), the clocks of the calls are after the zero time, and no provider key is used with two
accounts. Whatever other calls its clients make, it carries out exactly those the specification carries out, and its entries
stay related to the specification's circuits and ledger: calls in flight are the admitted
calls that have not ended, and every entry is closed, failing or open for the exponential
cooldown. *)
Theorem health_refines_breaker acct p h :
  let s := NewMemoryHealthStore p in
  policy_ok (policy s) → Forall (op_ok acct) h →
  refines acct (run exec s h).1 (run (spec_exec (policy s)) (mkBreaker ∅ []) h).1 ∧
  Forall2 (λ r ok, r = None ↔ ok = true) (run exec s h).2
    (run (spec_exec (policy s)) (mkBreaker ∅ []) h).2.
Proof.
  intros s Hp Hh. destruct (run_refines acct s (mkBreaker ∅ []) h) as (? & _ & ?);
    [done|done|apply refines_init|done].
Qed.

(** * Limits *)

(** Every admission of [k] asks for a limit of at most [n], every one of account [a] for an
account limit of at most [m]. *)
Definition limited (k a : string) (n m : Z) (x : op) : Prop :=
  match x with
  | OpAcquire _ _ c =>
      (candidate_key c = k → 0 < MaxConcurrency (Model c) ≤ n) ∧
      (TrimSpace (AccountAlias c) = a → 0 < AccountMaxConcurrency c ≤ m)
  | _ => True
  end.

Lemma below_limit n limit m : below n limit = true → 0 < limit ≤ m → n < m.
Proof. unfold below. rewrite orb_true_iff, Z.leb_le, Z.ltb_lt. lia. Qed.

Lemma strike_calls_le k k' l : calls k' (strike k l) ≤ calls k' l.
Proof.
  pose proof (calls_nonneg k l). destruct (decide (k' = k)) as [->|].
  - rewrite calls_strike. lia.
  - by rewrite calls_strike_ne.
Qed.

Lemma strike_account_calls_le a k l : account_calls a (strike k l) ≤ account_calls a l.
Proof.
  induction l as [|x l IH]; simpl; [done|]. case_decide; rewrite !account_calls_cons; case_decide; lia.
Qed.

Lemma spec_exec_limited p b x k a n m :
  limited k a n m x →
  calls k (ledger b) ≤ n ∧ account_calls a (ledger b) ≤ m →
  calls k (ledger (spec_exec p b x).1) ≤ n ∧ account_calls a (ledger (spec_exec p b x).1) ≤ m.
Proof.
  intros Hx [Hk Ha]. destruct x as [[err|] now c|now c|[err|] now o]; simpl; try done.
  - unfold admits. destruct (_ && _) eqn:Hok; [|done]. simpl.
    rewrite !andb_true_iff in Hok. destruct Hok as [[_ Hl] Hl'], Hx as [Hx1 Hx2].
    rewrite calls_cons, account_calls_cons. simpl. split; case_decide as Heq; [|lia| |lia].
    + subst k. pose proof (below_limit _ _ n Hl (Hx1 eq_refl)). lia.
    + subst a. pose proof (below_limit _ _ m Hl' (Hx2 eq_refl)). lia.
  - pose proof (strike_calls_le (candidate_key c) k (ledger b)).
    pose proof (strike_account_calls_le a (candidate_key c) (ledger b)). lia.
  - pose proof (strike_calls_le (outcome_key o) k (ledger b)).
    pose proof (strike_account_calls_le a (outcome_key o) (ledger b)). lia.
Qed.

Lemma run_limited p b h k a n m :
  Forall (limited k a n m) h → calls k (ledger b) ≤ n ∧ account_calls a (ledger b) ≤ m →
  calls k (ledger (run (spec_exec p) b h).1) ≤ n ∧
  account_calls a (ledger (run (spec_exec p) b h).1) ≤ m.
Proof.
  intros Hh. revert b. induction Hh as [|x h Hx Hh IH]; intros b Hb; [done|]. simpl.
  pose proof (spec_exec_limited p b x k a n m Hx Hb) as Hb'.
  destruct (spec_exec p b x) as [b1 ok]. specialize (IH b1 Hb').
  by destruct (run (spec_exec p) b1 h).
Qed.

(** Concurrency limits hold in every history: calls in flight at a provider never exceed
the model's limit, those of an account never exceed the account's, and neither count is
ever negative. *)
Theorem concurrency_limited acct p h k a n m :
  let s := (run exec (NewMemoryHealthStore p) h).1 in
  policy_ok (policy (NewMemoryHealthStore p)) → Forall (op_ok acct) h →
  0 ≤ n → 0 ≤ m → Forall (limited k a n m) h →
  0 ≤ e_InFlight (entry_at s k) ≤ n ∧ 0 ≤ account_in_flight (entries s) a ≤ m.
Proof.
  intros s Hp Hh Hn Hm Hl.
  destruct (run_refines acct _ (mkBreaker ∅ []) h Hp Hh (refines_init acct p)) as (Hr & _).
  destruct (run_limited (policy (NewMemoryHealthStore p)) (mkBreaker ∅ []) h k a n m Hl) as [Hlim1 Hlim2]; [by split|].
  destruct (r_entry _ _ _ Hr k) as [_ Hcalls _ _]. unfold s.
  rewrite Hcalls, (r_sum _ _ _ Hr).
  split; (split; [|done]); [apply calls_nonneg|apply account_calls_nonneg].
Qed.

(** The entry [Acquire] examines is open when the stored entry is. *)
Lemma identity_fields e a m v :
  let e' := ensureEntryIdentity e a m v in
  e_Availability e' = e_Availability e ∧ e_InFlight e' = e_InFlight e ∧
  e_MaxConcurrency e' = e_MaxConcurrency e ∧ e_QuotaRemaining e' = e_QuotaRemaining e ∧
  e_QuotaExhausted e' = e_QuotaExhausted e ∧ e_CooldownUntil e' = e_CooldownUntil e.
Proof.
  unfold ensureEntryIdentity. destruct (decide (e_AccountAlias e = "")), e; simpl;
    repeat case_decide; done.
Qed.

Lemma settle_fields p e now :
  let e' := settle p e now in
  (e_Availability e' = ProviderUnavailable ↔ e_Availability e = ProviderUnavailable) ∧
  e_InFlight e' = e_InFlight e ∧ e_MaxConcurrency e' = e_MaxConcurrency e ∧
  e_QuotaRemaining e' = e_QuotaRemaining e ∧ e_QuotaExhausted e' = e_QuotaExhausted e ∧
  e_CooldownUntil e' = e_CooldownUntil e.
Proof.
  unfold settle. destruct (_ && _) eqn:H; [|done]. rewrite !andb_true_iff in H.
  destruct H as [[H _] _]. apply bool_decide_eq_true in H. simpl. rewrite H. done.
Qed.

Lemma normalized_unavailable a :
  normalizedAvailability a = ProviderUnavailable ↔ a = ProviderUnavailable.
Proof. unfold normalizedAvailability. case_decide; [by subst|done]. Qed.

Lemma acquired_fields s c now :
  let e := entry_at s (candidate_key c) in
  let e' := acquired_entry s c now in
  (e_Availability e' = ProviderUnavailable ↔ e_Availability e = ProviderUnavailable) ∧
  e_InFlight e' = e_InFlight e ∧ e_MaxConcurrency e' = e_MaxConcurrency e ∧
  e_QuotaRemaining e' = e_QuotaRemaining e ∧ e_QuotaExhausted e' = e_QuotaExhausted e ∧
  e_CooldownUntil e' = e_CooldownUntil e.
Proof.
  unfold acquired_entry. fold (entry_at s (candidate_key c)).
  set (e := entry_at s _). clearbody e.
  pose proof (identity_fields e (AccountAlias c) (Alias (Model c)) (Provider (Model c))) as Hi.
  set (e1 := ensureEntryIdentity _ _ _ _) in *. clearbody e1.
  destruct Hi as (H1 & H2 & H3 & H4 & H5 & H6).
  set (e2 := e1 <| e_Availability := _ |>).
  pose proof (settle_fields (policy s) e2 now) as Hs. set (e3 := settle _ _ _) in *.
  clearbody e3. destruct e1; unfold e2 in Hs; simpl in *.
  rewrite normalized_unavailable, H1 in Hs. naive_solver.
Qed.

Lemma Acquire_admitted ctx now s c s' :
  Acquire ctx now s c = (s', None) →
  admissionBlock (entries s) (acquired_entry s c now) c now = "" ∧
  e_Availability (entry_at s' (candidate_key c)) = e_Availability (acquired_entry s c now) ∧
  e_InFlight (entry_at s' (candidate_key c)) = e_InFlight (acquired_entry s c now) + 1.
Proof.
  destruct (Acquire_cases ctx now s c) as [[err ->]|(e & Hin & Hav & Hadm & ->)]; [done|].
  intros [= <-]. unfold entry_at. simpl. by rewrite lookup_insert_eq.
Qed.

Lemma Acquire_busy ctx now s c :
  admissionBlock (entries s) (acquired_entry s c now) c now ≠ "" →
  ∃ e, Acquire ctx now s c = (s, Some e).
Proof.
  intros H. unfold Acquire. destruct ctx; [by eexists|]. rewrite decide_True by done. by eexists.
Qed.

(** An open circuit admits nothing before its time and nothing beside another call. *)
Lemma block_open es e c now :
  e_Availability e = ProviderUnavailable → admissionBlock es e c now = "" →
  e_CooldownUntil e ≤ now ∧ e_InFlight e ≤ 0.
Proof.
  intros Hav. unfold admissionBlock. rewrite !guard_reason by done. guards.
  intros (H1 & H2 & H3 & _). unfold IsZero, Before in *. split; [|auto].
  apply Z.nlt_ge. auto.
Qed.

(** Recovery is tested by one call: an open circuit admits a call only after its
cooldown, that call is then the only one in flight, and until it ends every other call to
the provider is turned away. *)
Theorem probe_exclusive acct p h ctx now c s' :
  let s := (run exec (NewMemoryHealthStore p) h).1 in
  policy_ok (policy (NewMemoryHealthStore p)) → Forall (op_ok acct) h →
  e_Availability (entry_at s (candidate_key c)) = ProviderUnavailable →
  Acquire ctx now s c = (s', None) →
  e_CooldownUntil (entry_at s (candidate_key c)) ≤ now ∧
  e_InFlight (entry_at s' (candidate_key c)) = 1 ∧
  ∀ ctx' now' c', candidate_key c' = candidate_key c →
    ∃ e, Acquire ctx' now' s' c' = (s', Some e).
Proof.
  intros s Hp Hh Hu Ha.
  destruct (run_refines acct _ (mkBreaker ∅ []) h Hp Hh (refines_init acct p)) as (Hr & _).
  destruct (r_entry _ _ _ Hr (candidate_key c)) as [_ Hcalls _ _]. fold s in Hcalls.
  pose proof (calls_nonneg (candidate_key c)
    (ledger (run (spec_exec (policy (NewMemoryHealthStore p))) (mkBreaker ∅ []) h).1)) as Hpos.
  clear Hr. destruct (acquired_fields s c now) as (Hav & Hin & _ & _ & _ & Hcd).
  apply Acquire_admitted in Ha as (Hadm & Hav' & Hin').
  apply block_open in Hadm as [Hnow Hidle]; [|tauto].
  assert (e_InFlight (entry_at s' (candidate_key c)) = 1) as Hone by lia.
  split_and!; [lia|done|]. intros ctx' now' c' Hk. apply Acquire_busy. intros Hadm'.
  destruct (acquired_fields s' c' now') as (Hav2 & Hin2 & _). rewrite Hk in Hav2, Hin2.
  apply block_open in Hadm' as [_ Hidle']; [lia|]. apply Hav2. rewrite Hav'. by apply Hav.
Qed.

(** * Routing and admission agree *)

Lemma settle_in_flight p e now : e_InFlight (settle p e now) = e_InFlight e.
Proof. unfold settle. by case_match. Qed.

Lemma snapshot_account s t a :
  account_in_flight (Entries (Snapshot t s)) a = account_in_flight (entries s) a.
Proof.
  simpl. induction (entries s) as [|k e m Hk IH] using map_ind; [done|].
  rewrite fmap_insert, !account_in_flight_fresh, IH by (rewrite ?lookup_fmap, ?Hk; done).
  unfold contribution. by rewrite settle_account, settle_in_flight.
Qed.

(** What [ApplyProviderHealth] shows the policy of a provider. *)
Lemma enriched_fields s t cs c :
  c ∈ ApplyProviderHealth (Snapshot t s) cs →
  (0 < AccountMaxConcurrency c → AccountCurrentConcurrency c < AccountMaxConcurrency c →
     account_in_flight (entries s) (TrimSpace (AccountAlias c)) < AccountMaxConcurrency c) ∧
  (entries s !! candidate_key c = None ∨ ∃ e, entries s !! candidate_key c = Some e ∧
     (e_Availability e = ProviderUnavailable → c_ProviderAvailability c = ProviderUnavailable) ∧
     ProviderInFlight c = e_InFlight e ∧ CurrentConcurrency (Model c) = e_InFlight e ∧
     ProviderMaxConcurrency c = e_MaxConcurrency e ∧
     ProviderQuotaRemaining c = e_QuotaRemaining e ∧
     ProviderQuotaExhausted c = e_QuotaExhausted e ∧
     ProviderCooldownUntil c = e_CooldownUntil e).
Proof.
  unfold ApplyProviderHealth. case_decide as Hsize.
  - assert (entries s = ∅) as Hnil.
    { simpl in Hsize. rewrite map_size_fmap in Hsize. by apply map_size_empty_inv. }
    intros _. rewrite Hnil. split; [|by left]. intros H1 _. exact H1.
  - rewrite list_elem_of_fmap. intros (c0 & -> & _).
    set (c1 := c0 <| AccountCurrentConcurrency := _ |>).
    assert (candidate_key c1 = candidate_key c0) as Hkey by done.
    rewrite Hkey. cbn [Snapshot Entries]. rewrite lookup_fmap.
    destruct (entries s !! candidate_key c0) as [e|] eqn:He; cbn [fmap option_fmap option_map].
    + pose proof (settle_fields (policy s) e t) as Hs. set (e' := settle _ _ _) in *. clearbody e'.
      destruct Hs as (H1 & H2 & H3 & H4 & H5 & H6). split.
      * rewrite <-(snapshot_account s t). done.
      * right. exists e. split; [done|]. simpl. rewrite normalized_unavailable. naive_solver.
    + split; [|by left]. rewrite <-(snapshot_account s t). done.
Qed.

(** Routing and admission agree: the candidate chosen from a snapshot of the health store
is admitted by the store, unless another client changed it in between. *)
Theorem selected_is_admitted s t now p profile cs d :
  rand_in_range p → (∀ i, Now p i ≤ now) →
  Select p profile (ApplyProviderHealth (Snapshot t s) cs) = Ok d →
  ∃ s', Acquire None now s (Selected d) = (s', None).
Proof.
  intros Hrand Hclock Hd. pose proof (Select_cases p profile (ApplyProviderHealth (Snapshot t s) cs) Hrand) as H.
  rewrite Hd in H. destruct H as (j & _ & _ & [Hj Hl] & _). apply list_elem_of_lookup_2 in Hj.
  destruct (enriched_fields _ _ _ _ Hj) as [Hacct Hentry]. specialize (Hclock (0 + j)%nat).
  set (c := Selected d) in *. clearbody c. clear Hd Hj.
  assert (admissionBlock (entries s) (acquired_entry s c now) c now = "") as Hadm.
  { destruct (acquired_fields s c now) as (Hav & Hin & Hmax & Hq & Hx & Hcd).
    set (e' := acquired_entry s c now) in *. clearbody e'.
    destruct Hl as [_ La Lc Lp [Lq Lx] Lm _ _ _ _ _ _ Lmod].
    unfold admissionBlock. rewrite !guard_reason by done. guards. unfold IsZero, Before.
    unfold entry_at in *. destruct Hentry as [He|(e & He & Ha & Hi & Hi2 & Hm & Hqr & Hqx & Hc)];
      rewrite He in *; simpl in *.
    - rewrite Hin, Hmax, Hq, Hx, Hcd. split_and!; try done; try lia; intros; naive_solver lia.
    - rewrite Hin, Hmax, Hq, Hx, Hcd. rewrite <-Hqr, <-Hqx, <-Hc, <-Hm.
      split_and!; try done.
      + intros Hz. specialize (Lc Hz). lia.
      + intros Hu. by apply Lp, Ha, Hav.
      + intros Hu. rewrite <-Hi. by apply Lp, Ha, Hav.
      + case_match; [by rewrite <-Hi2|]. intros Hpos. rewrite <-Hi. by apply Lm.
      + intros Hpos. by apply Hacct, La. }
  unfold Acquire. rewrite decide_False; [by eexists|]. rewrite Hadm. by intros Hn.
Qed.

(** ** Witnesses *)

Definition sample_policy : HealthPolicy := mkHealthPolicy 2 1000 8000.
Definition sample_provider : Candidate := sample_candidate "large" PriceHigh.
Definition sample_outcome (success : bool) : TaskOutcome :=
  zeroOutcome <| o_AccountAlias := "main" |> <| o_ModelAlias := "large" |>
    <| o_Provider := "acme" |> <| o_Success := success |>.

(** Two failures open the circuit until 3200. *)
Definition sample_history : list op :=
  [OpAcquire None 100 sample_provider; OpAcquire None 110 sample_provider;
   OpOutcome None 2100 (sample_outcome false); OpOutcome None 2200 (sample_outcome false)].

Definition sample_store : MemoryHealthStore :=
  (run exec (NewMemoryHealthStore sample_policy) sample_history).1.

Lemma sample_policy_ok : policy_ok (policy (NewMemoryHealthStore sample_policy)).
Proof. vm_compute. repeat split; discriminate. Qed.

Lemma sample_history_ok : Forall (op_ok (λ _, "main")) sample_history.
Proof. repeat (apply Forall_cons_2; [by split|]). constructor. Qed.

Lemma health_refines_breaker_witness :
  e_Availability (entry_at sample_store (candidate_key sample_provider)) = ProviderUnavailable ∧
  e_CooldownUntil (entry_at sample_store (candidate_key sample_provider)) = 3200 ∧
  ∃ b, refines (λ _, "main") sample_store b ∧ circuit_of b (candidate_key sample_provider) = Open 2 3200.
Proof.
  split; [vm_compute; reflexivity|]. split; [vm_compute; reflexivity|]. eexists. split.
  - apply (health_refines_breaker (λ _, "main") sample_policy sample_history);
      [apply sample_policy_ok|apply sample_history_ok].
  - vm_compute. reflexivity.
Defined.

Lemma concurrency_limited_witness :
  0 ≤ e_InFlight (entry_at sample_store (candidate_key sample_provider)) ≤ 4 ∧
  0 ≤ account_in_flight (entries sample_store) "other" ≤ 0.
Proof.
  apply (concurrency_limited (λ _, "main") sample_policy sample_history);
    [apply sample_policy_ok|apply sample_history_ok|done|done|].
  repeat (apply Forall_cons_2; [try done; split; done|]). constructor.
Defined.

Lemma probe_exclusive_witness :
  (Acquire None 3000 sample_store sample_provider).2 =
    Some (ErrProviderBusy "provider is in cooldown") ∧
  e_InFlight (entry_at (Acquire None 3200 sample_store sample_provider).1
    (candidate_key sample_provider)) = 1.
Proof.
  split; [vm_compute; reflexivity|].
  apply (probe_exclusive (λ _, "main") sample_policy sample_history None 3200 sample_provider);
    [apply sample_policy_ok|apply sample_history_ok|vm_compute; reflexivity|].
  vm_compute. reflexivity.
Defined.

(** The provider in cooldown is not chosen; the other is, and is admitted. *)
Lemma sample_routed :
  ∃ d, Select (mkPolicy (λ _, 2500) None) DefaultTaskProfile
    (ApplyProviderHealth (Snapshot 2300 sample_store)
       [sample_provider; sample_candidate "small" PriceLow]) = Ok d.
Proof.
  assert (is_selected "small" (Select (mkPolicy (λ _, 2500) None) DefaultTaskProfile
    (ApplyProviderHealth (Snapshot 2300 sample_store)
       [sample_provider; sample_candidate "small" PriceLow])) = true) as H
    by (vm_compute; reflexivity).
  destruct (Select _ _ _) as [d|]; [by exists d|done].
Qed.

Lemma selected_is_admitted_witness :
  ∃ d s', Acquire None 2600 sample_store (Selected d) = (s', None).
Proof.
  destruct sample_routed as [d Hd]. exists d.
  apply (selected_is_admitted sample_store 2300 2600 (mkPolicy (λ _, 2500) None)
    DefaultTaskProfile [sample_provider; sample_candidate "small" PriceLow] d);
    [by intros l i n|by intros i|exact Hd].
Defined.

End Breaker.
