(* ===== verification/LlmStats.v ===== *)
(** llmkit model statistics: the aggregation of the audit logs and how they
enrich candidates ([src/llmkit/stats.go]). *)

From Stdlib Require Import QArith Lqa.
From S2P Require Import Prelude Float64 LlmRouting LlmAudit.
#[local] Open Scope Z_scope.

Module Stats.
Import Routing Audit.

Record ModelStatsEntry := mkStats {
  s_TaskType : string;
  s_AccountAlias : string;
  s_ModelAlias : string;
  s_Provider : string;
  s_RouteAttempts : Z;
  s_OutcomeCount : Z;
  s_PendingOutcomes : Z;
  s_Successes : Z;
  s_Failures : Z;
  s_SuccessRate : float64;
  s_FailureRate : float64;
  s_RecentOutcomes : float64;
  s_RecentFailures : float64;
  s_AvgLatencyMillis : Z;
  s_AvgInputTokens : Z;
  s_AvgOutputTokens : Z;
  s_AvgEstimatedCents : Z;
  s_LastSeen : option Time
}.
#[global] Instance eta_ModelStatsEntry : Eta ModelStatsEntry := λ e,
  mkStats (s_TaskType e) (s_AccountAlias e) (s_ModelAlias e) (s_Provider e) (s_RouteAttempts e)
    (s_OutcomeCount e) (s_PendingOutcomes e) (s_Successes e) (s_Failures e) (s_SuccessRate e)
    (s_FailureRate e) (s_RecentOutcomes e) (s_RecentFailures e) (s_AvgLatencyMillis e)
    (s_AvgInputTokens e) (s_AvgOutputTokens e) (s_AvgEstimatedCents e) (s_LastSeen e).

Record ModelStats := mkModelStats {
  ms_GeneratedAt : Time;
  Models : GoMap ModelStatsEntry
}.

Definition ModelStatsHalfLife : Duration := 7 * 24 * 3600000000000.

Definition modelStatsKey (taskType accountAlias modelAlias provider : string) : string :=
  taskType +:+ "|" +:+ accountAlias +:+ "|" +:+ modelAlias +:+ "|" +:+ provider.

(** * Applying statistics *)

Definition apply_entry (e : ModelStatsEntry) (c : Candidate) : Candidate :=
  let m := Model c in
  let computed := negb (bool_decide (s_RecentOutcomes e == 0)%Q && (0 <? s_OutcomeCount e)) in
  let m := m <| RecentOutcomes := if computed then s_RecentOutcomes e
                                  else float_of_int (s_OutcomeCount e) |>
             <| RecentFailures := if computed then s_RecentFailures e
                                  else float_of_int (s_Failures e) |>
             <| RecentFailureRate := s_FailureRate e |> in
  let m := if 0 <? s_AvgLatencyMillis e
           then m <| RecentLatencyMillis := s_AvgLatencyMillis e |> else m in
  let m := if 0 <? s_AvgEstimatedCents e
           then m <| EstimatedCents := s_AvgEstimatedCents e |> else m in
  c <| Model := m |>.

Definition ApplyModelStats (stats : ModelStats) (profile : TaskProfile) (cs : list Candidate)
    : list Candidate :=
  if decide (length cs = 0%nat ∨ size (Models stats) = 0%nat) then cs
  else
    (λ c, match Models stats !! modelStatsKey (TaskType profile) (AccountAlias c)
                  (Alias (Model c)) (Provider (Model c)) with
          | None => c
          | Some e =>
              if negb (bool_decide (Blank (s_TaskType e))) &&
                 negb (bool_decide (s_TaskType e = TaskType profile)) then c
              else apply_entry e c
          end) <$> cs.

(** * Building statistics *)

Record modelStatsAccumulator := mkAcc {
  a_entry : ModelStatsEntry;
  latencyTotal : Z;
  latencySamples : Z;
  inputTokenTotal : Z;
  outputTokenTotal : Z;
  estimatedCentTotal : Z;
  costSamples : Z
}.
#[global] Instance eta_modelStatsAccumulator : Eta modelStatsAccumulator := λ a,
  mkAcc (a_entry a) (latencyTotal a) (latencySamples a) (inputTokenTotal a) (outputTokenTotal a)
    (estimatedCentTotal a) (costSamples a).

Definition newAcc (taskType accountAlias modelAlias provider : string) : modelStatsAccumulator :=
  mkAcc (mkStats taskType accountAlias modelAlias provider 0 0 0 0 0 0 0 0 0 0 0 0 0 None)
    0 0 0 0 0 0.

Definition observe (seen : Time) (a : modelStatsAccumulator) : modelStatsAccumulator :=
  if decide (IsZero seen) then a
  else match s_LastSeen (a_entry a) with
  | Some last => if decide (After seen last)
                 then a <| a_entry := (a_entry a) <| s_LastSeen := Some seen |> |> else a
  | None => a <| a_entry := (a_entry a) <| s_LastSeen := Some seen |> |>
  end.

Section builder.
(** [math.Exp2] and the builder's clock. *)
Context (Exp2 : float64 → float64) (now : Time).

Definition decayWeight (recorded : Time) : float64 :=
  if decide (IsZero recorded ∨ ¬ Before recorded now) then 1%Q
  else Exp2 (fdiv (- float_of_int (TimeSub now recorded)) (float_of_int ModelStatsHalfLife)).

Definition route_key (t : RouteTrace) : string :=
  modelStatsKey (tr_TaskType t) (tr_AccountAlias t) (tr_ModelAlias t) (tr_Provider t).
Definition outcome_bucket (o : TaskOutcome) : string :=
  modelStatsKey (o_TaskType o) (o_AccountAlias o) (o_ModelAlias o) (o_Provider o).

Definition count_route (t : RouteTrace) (a : modelStatsAccumulator) : modelStatsAccumulator :=
  observe (tr_RecordedAt t)
    (a <| a_entry := (a_entry a) <| s_RouteAttempts := s_RouteAttempts (a_entry a) + 1 |> |>).

(** [addRoute]: the accumulator of the bucket, made when it is new, is updated in place. *)
Definition addRoute (b : GoMap modelStatsAccumulator) (t : RouteTrace) : GoMap modelStatsAccumulator :=
  let acc := default (newAcc (tr_TaskType t) (tr_AccountAlias t) (tr_ModelAlias t) (tr_Provider t))
               (b !! route_key t) in
  <[route_key t := count_route t acc]> b.

Definition count_outcome (o : TaskOutcome) (a : modelStatsAccumulator) : modelStatsAccumulator :=
  let e := a_entry a in
  let weight := decayWeight (o_RecordedAt o) in
  let e := e <| s_OutcomeCount := s_OutcomeCount e + 1 |>
             <| s_RecentOutcomes := fadd (s_RecentOutcomes e) weight |> in
  let e := if o_Success o then e <| s_Successes := s_Successes e + 1 |>
           else e <| s_Failures := s_Failures e + 1 |>
                  <| s_RecentFailures := fadd (s_RecentFailures e) weight |> in
  let a := a <| a_entry := e |> in
  let a := if 0 <? o_LatencyMillis o
           then a <| latencyTotal := latencyTotal a + o_LatencyMillis o |>
                  <| latencySamples := latencySamples a + 1 |> else a in
  let a := a <| inputTokenTotal := inputTokenTotal a + o_InputTokens o |>
             <| outputTokenTotal := outputTokenTotal a + o_OutputTokens o |> in
  let a := if 0 <? o_EstimatedCents o
           then a <| estimatedCentTotal := estimatedCentTotal a + o_EstimatedCents o |>
                  <| costSamples := costSamples a + 1 |> else a in
  observe (o_RecordedAt o) a.

Definition addOutcome (b : GoMap modelStatsAccumulator) (o : TaskOutcome)
    : GoMap modelStatsAccumulator :=
  let acc := default (newAcc (o_TaskType o) (o_AccountAlias o) (o_ModelAlias o) (o_Provider o))
               (b !! outcome_bucket o) in
  <[outcome_bucket o := count_outcome o acc]> b.

(** The entry of one bucket in [stats]. *)
Definition summarize (a : modelStatsAccumulator) : ModelStatsEntry :=
  let e := a_entry a in
  let pending := s_RouteAttempts e - s_OutcomeCount e in
  let e := e <| s_PendingOutcomes := if pending <? 0 then 0 else pending |> in
  let e := if 0 <? s_OutcomeCount e
           then e <| s_SuccessRate := fdiv (float_of_int (s_Successes e)) (float_of_int (s_OutcomeCount e)) |>
                  <| s_FailureRate := fdiv (float_of_int (s_Failures e)) (float_of_int (s_OutcomeCount e)) |>
                  <| s_AvgInputTokens := inputTokenTotal a `quot` s_OutcomeCount e |>
                  <| s_AvgOutputTokens := outputTokenTotal a `quot` s_OutcomeCount e |>
           else e in
  let e := if 0 <? latencySamples a
           then e <| s_AvgLatencyMillis := latencyTotal a `quot` latencySamples a |> else e in
  if 0 <? costSamples a
  then e <| s_AvgEstimatedCents := estimatedCentTotal a `quot` costSamples a |> else e.

(** The outcomes that count: those without a route at once, in file order, then the latest
of each attempt, in the order the map is ranged over. *)
Definition unrouted (l : list TaskOutcome) : list TaskOutcome :=
  filter (λ o, Blank (o_RouteID o)) l.
Definition routed (l : list TaskOutcome) : list TaskOutcome :=
  filter (λ o, ¬ Blank (o_RouteID o)) l.

(** The loops of [BuildModelStats] over the records of the two files; [order] is the order of the final range
over [latestOutcomes]. *)
Definition aggregate (order : GoMap TaskOutcome → list TaskOutcome) (h : Logs) : ModelStats :=
  let b := foldl addRoute ∅ (route_events h) in
  let b := foldl addOutcome b (unrouted (outcomes h)) in
  let b := foldl addOutcome b (order (latest (routed (outcomes h)))) in
  mkModelStats now (summarize <$> b).

(** [BuildModelStats]; [None] is the error of a malformed line. *)
Definition BuildModelStats (order : GoMap TaskOutcome → list TaskOutcome) (h : Home) : option ModelStats :=
  aggregate order <$> readLogs h.

(** The order of a range is any permutation of the values. *)
Definition range_order (order : GoMap TaskOutcome → list TaskOutcome) : Prop :=
  ∀ m, order m ≡ₚ (map_to_list m).*2.

(** [Exp2] of a number that is not positive lies in [[0, 1]]. *)
Definition exp2_ok : Prop := ∀ x, (x <= 0)%Q → (0 <= Exp2 x)%Q ∧ (Exp2 x <= 1)%Q.

(** * Consistency *)

(** How often [f] holds in [l]. *)
Definition count {A} (f : A → bool) (l : list A) : Z := Z.of_nat (length (filter (λ x, f x = true) l)).

Lemma count_app {A} (f : A → bool) l l' : count f (l ++ l') = count f l + count f l'.
Proof. unfold count. rewrite filter_app, length_app. lia. Qed.

Lemma count_one {A} (f : A → bool) x : count f [x] = if f x then 1 else 0.
Proof. unfold count. rewrite filter_cons, filter_nil. destruct (f x); case_decide; simpl; naive_solver. Qed.

Lemma count_perm {A} (f : A → bool) l l' : l ≡ₚ l' → count f l = count f l'.
Proof. intros H. unfold count. by rewrite H. Qed.

Definition in_bucket (k : string) (o : TaskOutcome) : bool := bool_decide (outcome_bucket o = k).
Definition routes_to (k : string) (t : RouteTrace) : bool := bool_decide (route_key t = k).
Definition succeeded (k : string) (o : TaskOutcome) : bool := in_bucket k o && o_Success o.

(** What an accumulator holds after the routes [rs] and the outcomes [os]. *)
Record acc_ok (k : string) (rs : list RouteTrace) (os : list TaskOutcome)
    (e : ModelStatsEntry) : Prop := {
  ao_routes : s_RouteAttempts e = count (routes_to k) rs;
  ao_outcomes : s_OutcomeCount e = count (in_bucket k) os;
  ao_successes : s_Successes e = count (succeeded k) os;
  ao_failures : s_Failures e = s_OutcomeCount e - s_Successes e;
  ao_recent : (0 <= s_RecentFailures e)%Q ∧ (s_RecentFailures e <= s_RecentOutcomes e)%Q;
  ao_float : (fl (s_RecentOutcomes e) == s_RecentOutcomes e)%Q
}.

Definition builder_ok (rs : list RouteTrace) (os : list TaskOutcome)
    (b : GoMap modelStatsAccumulator) : Prop :=
  ∀ k, match b !! k with
       | Some a => acc_ok k rs os (a_entry a)
       | None => count (routes_to k) rs = 0 ∧ count (in_bucket k) os = 0
       end.

Lemma observe_ok k rs os t a : acc_ok k rs os (a_entry a) → acc_ok k rs os (a_entry (observe t a)).
Proof. intros H. unfold observe. repeat case_match; try done; by destruct H. Qed.

Lemma count_zero_succeeded k os : count (in_bucket k) os = 0 → count (succeeded k) os = 0.
Proof.
  induction os as [|o os IH]; [done|]. change (o :: os) with ([o] ++ os).
  rewrite !count_app, !count_one. unfold succeeded, count in *.
  destruct (in_bucket k o); simpl; lia.
Qed.

Lemma newAcc_ok k rs os t a m v :
  count (routes_to k) rs = 0 → count (in_bucket k) os = 0 → acc_ok k rs os (a_entry (newAcc t a m v)).
Proof.
  intros Hr Ho. pose proof (count_zero_succeeded k os Ho). split; simpl; try lia; done.
Qed.

(** The accumulator of a bucket, new or old. *)
Lemma bucket_ok rs os b k t a m v :
  builder_ok rs os b → acc_ok k rs os (a_entry (default (newAcc t a m v) (b !! k))).
Proof.
  intros Hb. specialize (Hb k). destruct (b !! k) as [acc|]; simpl; [done|].
  destruct Hb. by apply newAcc_ok.
Qed.

(** A step of the builder: one bucket's counts move, the others' stay. *)
Lemma builder_insert rs os rs' os' b k acc :
  builder_ok rs os b → acc_ok k rs' os' (a_entry acc) →
  (∀ k', k' ≠ k → count (routes_to k') rs' = count (routes_to k') rs ∧
     count (in_bucket k') os' = count (in_bucket k') os ∧
     count (succeeded k') os' = count (succeeded k') os) →
  builder_ok rs' os' (<[k := acc]> b).
Proof.
  intros Hb Hacc Hother k'. destruct (decide (k' = k)) as [->|Hne]; [by rewrite lookup_insert_eq|].
  rewrite lookup_insert_ne by done. specialize (Hb k'). destruct (Hother k' Hne) as (H1 & H2 & H3).
  destruct (b !! k') as [a|]; [|by rewrite H1, H2].
  destruct Hb. by split; rewrite ?H1, ?H2, ?H3.
Qed.

Lemma addRoute_ok rs os b t : builder_ok rs os b → builder_ok (rs ++ [t]) os (addRoute b t).
Proof.
  intros Hb. unfold addRoute. eapply builder_insert; [done| |].
  - apply observe_ok. pose proof (bucket_ok rs os b (route_key t) (tr_TaskType t)
      (tr_AccountAlias t) (tr_ModelAlias t) (tr_Provider t) Hb) as [].
    split; try done. simpl. rewrite count_app, count_one. unfold routes_to.
    rewrite bool_decide_eq_true_2 by done. by f_equal.
  - intros k' Hne. split; [|done]. rewrite count_app, count_one. unfold routes_to at 2.
    rewrite bool_decide_eq_false_2 by congruence. lia.
Qed.

Lemma decayWeight_bounds t : exp2_ok → (0 <= decayWeight t)%Q ∧ (decayWeight t <= 1)%Q.
Proof.
  intros He. unfold decayWeight. case_decide as Ht; [split; done|]. apply He.
  apply Decidable.not_or in Ht as [_ Ht]. apply dec_stable in Ht.
  assert (0 <= float_of_int (TimeSub now t))%Q as Hage.
  { apply fl_nonneg. change 0%Q with (inject_Z 0). rewrite <-Zle_Qle.
    unfold TimeSub, clamp64, Before, min_int64, max_int64 in *. lia. }
  apply (fl_mono _ 0). apply Qle_shift_div_r; [done|]. lra.
Qed.

Lemma count_outcome_ok rs os o a :
  exp2_ok → acc_ok (outcome_bucket o) rs os (a_entry a) →
  acc_ok (outcome_bucket o) rs (os ++ [o]) (a_entry (count_outcome o a)).
Proof.
  intros He [Hr Ho Hs Hf [H0 Hle] Hfl]. unfold count_outcome.
  destruct (decayWeight_bounds (o_RecordedAt o) He) as [Hw _]. set (w := decayWeight _) in *.
  clearbody w. apply observe_ok.
  assert (0 <= s_RecentOutcomes (a_entry a))%Q as H0' by lra.
  assert (acc_ok (outcome_bucket o) rs (os ++ [o])
    (let e := (a_entry a) <| s_OutcomeCount := s_OutcomeCount (a_entry a) + 1 |>
       <| s_RecentOutcomes := fadd (s_RecentOutcomes (a_entry a)) w |> in
     if o_Success o then e <| s_Successes := s_Successes e + 1 |>
     else e <| s_Failures := s_Failures e + 1 |>
            <| s_RecentFailures := fadd (s_RecentFailures e) w |>)) as Hok.
  { assert (count (in_bucket (outcome_bucket o)) (os ++ [o]) =
      count (in_bucket (outcome_bucket o)) os + 1) as Hc1.
    { rewrite count_app, count_one. unfold in_bucket at 2. by rewrite bool_decide_eq_true_2. }
    assert (count (succeeded (outcome_bucket o)) (os ++ [o]) =
      count (succeeded (outcome_bucket o)) os + (if o_Success o then 1 else 0)) as Hc2.
    { rewrite count_app, count_one. unfold succeeded at 2, in_bucket. by rewrite bool_decide_eq_true_2. }
    destruct (o_Success o); (split; simpl; [done|lia|lia|lia| |apply fl_fl; lra]).
    - split; [done|]. pose proof (fadd_ge (s_RecentOutcomes (a_entry a)) w H0' Hfl Hw). lra.
    - split; [apply fl_nonneg; lra|]. apply fl_mono. lra. }
  cbv zeta in Hok |- *. repeat case_match; exact Hok.
Qed.

Lemma addOutcome_ok rs os b o :
  exp2_ok → builder_ok rs os b → builder_ok rs (os ++ [o]) (addOutcome b o).
Proof.
  intros He Hb. unfold addOutcome. eapply builder_insert; [done| |].
  - by apply count_outcome_ok, bucket_ok.
  - intros k' Hne. rewrite !count_app, !count_one. unfold succeeded at 2, in_bucket at 2 4.
    rewrite bool_decide_eq_false_2 by congruence. simpl. lia.
Qed.

Lemma addRoutes_ok l rs os b : builder_ok rs os b → builder_ok (rs ++ l) os (foldl addRoute b l).
Proof.
  revert rs b. induction l as [|t l IH]; intros rs b Hb; simpl; [by rewrite app_nil_r|].
  rewrite cons_middle, app_assoc. by apply IH, addRoute_ok.
Qed.

Lemma addOutcomes_ok l rs os b :
  exp2_ok → builder_ok rs os b → builder_ok rs (os ++ l) (foldl addOutcome b l).
Proof.
  intros He. revert os b. induction l as [|o l IH]; intros os b Hb; simpl; [by rewrite app_nil_r|].
  rewrite cons_middle, app_assoc. by apply IH, addOutcome_ok.
Qed.

(** The outcomes that count in the statistics of [h]. *)
Definition counted (h : Logs) : list TaskOutcome :=
  unrouted (outcomes h) ++ (map_to_list (latest (routed (outcomes h)))).*2.

Lemma build_ok order h :
  exp2_ok → range_order order →
  ∀ k e, Models (aggregate order h) !! k = Some e →
  ∃ a, e = summarize a ∧
    acc_ok k (route_events h) (unrouted (outcomes h) ++ order (latest (routed (outcomes h))))
      (a_entry a).
Proof.
  intros He Ho k e. unfold aggregate. simpl. rewrite lookup_fmap. intros Hk.
  apply fmap_Some in Hk as (a & Ha & ->). exists a. split; [done|].
  assert (builder_ok [] [] ∅) as Hinit by (intros k'; by rewrite lookup_empty).
  apply (addRoutes_ok (route_events h)) in Hinit.
  apply (addOutcomes_ok (unrouted (outcomes h)) _ _ _ He) in Hinit.
  apply (addOutcomes_ok (order (latest (routed (outcomes h)))) _ _ _ He) in Hinit.
  specialize (Hinit k). by rewrite Ha in Hinit.
Qed.

Lemma ratio_bounds n m :
  0 ≤ n ≤ m → 0 < m → (0 <= fdiv (float_of_int n) (float_of_int m))%Q ∧
    (fdiv (float_of_int n) (float_of_int m) <= 1)%Q.
Proof.
  intros Hn Hm.
  assert (1 <= float_of_int m)%Q as H1.
  { apply (fl_mono 1). change 1%Q with (inject_Z 1). rewrite <-Zle_Qle. lia. }
  assert (0 <= float_of_int n)%Q.
  { apply fl_nonneg. change 0%Q with (inject_Z 0). rewrite <-Zle_Qle. lia. }
  assert (float_of_int n <= float_of_int m)%Q.
  { apply fl_mono. rewrite <-Zle_Qle. lia. }
  split; [apply fl_nonneg, Qle_shift_div_l; lra|].
  apply (fl_le_int _ 1); [|done]. apply Qle_shift_div_r; [lra|]. change (inject_Z 1) with 1%Q. lra.
Qed.

Lemma succeeded_le k os : count (succeeded k) os ≤ count (in_bucket k) os.
Proof.
  induction os as [|o os IH]; [done|]. change (o :: os) with ([o] ++ os).
  rewrite !count_app, !count_one. unfold succeeded at 1. destruct (in_bucket k o), (o_Success o); simpl; lia.
Qed.

Lemma summarize_fields a :
  let e := a_entry a in
  let e' := summarize a in
  s_RouteAttempts e' = s_RouteAttempts e ∧ s_OutcomeCount e' = s_OutcomeCount e ∧
  s_Successes e' = s_Successes e ∧ s_Failures e' = s_Failures e ∧
  s_RecentOutcomes e' = s_RecentOutcomes e ∧ s_RecentFailures e' = s_RecentFailures e ∧
  s_PendingOutcomes e' = Z.max 0 (s_RouteAttempts e - s_OutcomeCount e) ∧
  (0 < s_OutcomeCount e →
    s_SuccessRate e' = fdiv (float_of_int (s_Successes e)) (float_of_int (s_OutcomeCount e)) ∧
    s_FailureRate e' = fdiv (float_of_int (s_Failures e)) (float_of_int (s_OutcomeCount e))).
Proof.
  destruct a as [e lt ls it ot ct cs]. unfold summarize. cbn [a_entry latencySamples costSamples].
  set (n := s_RouteAttempts e - s_OutcomeCount e).
  assert ((if n <? 0 then 0 else n) = Z.max 0 n) as -> by (case_match; lia).
  change (s_OutcomeCount (e <| s_PendingOutcomes := Z.max 0 n |>)) with (s_OutcomeCount e).
  destruct (0 <? s_OutcomeCount e) eqn:H1, (0 <? ls), (0 <? cs);
    split_and!; try reflexivity; try done; apply Z.ltb_ge in H1; lia.
Qed.

(** The statistics of a route bucket are exact: attempts are its routed attempts,
outcomes and successes those of its outcomes that count (every outcome without a route, and
the last one of each routed attempt), failures the rest, pending attempts never negative;
its rates lie in [0, 1] and its decayed failures never exceed its decayed outcomes. *)
Theorem stats_consistent order h k e :
  exp2_ok → range_order order → Models (aggregate order h) !! k = Some e →
  s_RouteAttempts e = count (routes_to k) (route_events h) ∧
  s_OutcomeCount e = count (in_bucket k) (counted h) ∧
  s_Successes e = count (succeeded k) (counted h) ∧
  s_Failures e = s_OutcomeCount e - s_Successes e ∧
  s_PendingOutcomes e = Z.max 0 (s_RouteAttempts e - s_OutcomeCount e) ∧
  (0 < s_OutcomeCount e → (0 <= s_SuccessRate e)%Q ∧ (s_SuccessRate e <= 1)%Q ∧
     (0 <= s_FailureRate e)%Q ∧ (s_FailureRate e <= 1)%Q) ∧
  (0 <= s_RecentFailures e)%Q ∧ (s_RecentFailures e <= s_RecentOutcomes e)%Q.
Proof.
  intros He Ho Hk. destruct (build_ok order h He Ho k e Hk) as (a & -> & [Hr Hoc Hs Hf [H0 Hle] _]).
  destruct (summarize_fields a) as (F1 & F2 & F3 & F4 & F5 & F6 & F7 & F8).
  assert (unrouted (outcomes h) ++ order (latest (routed (outcomes h))) ≡ₚ counted h) as Hp.
  { unfold counted. by rewrite (Ho (latest _)). }
  pose proof (succeeded_le k (counted h)) as Hsl.
  rewrite (count_perm _ _ _ Hp) in Hoc. rewrite (count_perm _ _ _ Hp) in Hs.
  assert (0 ≤ count (succeeded k) (counted h)) by (unfold count; lia).
  rewrite F1, F2, F3, F4, F5, F6, F7. split_and!; try done.
  intros Hpos. destruct (F8 Hpos) as [-> ->]. rewrite Hf.
  destruct (ratio_bounds (s_Successes (a_entry a)) (s_OutcomeCount (a_entry a))) as [??]; [lia..|].
  destruct (ratio_bounds (s_OutcomeCount (a_entry a) - s_Successes (a_entry a))
    (s_OutcomeCount (a_entry a))) as [??]; [lia..|]. done.
Qed.

End builder.

(** [latest] keeps the last outcome of each attempt. *)
Lemma latest_lookup l k :
  latest l !! k = last (filter (λ o, outcomeKey (o_RouteID o) (o_Attempt o) = k) l).
Proof.
  induction l as [|o l IH] using rev_ind; [done|].
  unfold latest in *. rewrite foldl_snoc, filter_app, filter_cons, filter_nil.
  case_decide as Hk.
  - by rewrite last_snoc, <-Hk, lookup_insert_eq.
  - by rewrite lookup_insert_ne, app_nil_r, IH.
Qed.

(** Statistics feed routing: a candidate enriched with statistics built from any audit logs
gets a reliability score within [-100, 0]. *)
Lemma enriched_reliability Exp2 now order h profile cs c :
  exp2_ok Exp2 → range_order order →
  Forall (λ c, (0 <= RecentFailures (Model c))%Q) cs →
  c ∈ ApplyModelStats (aggregate Exp2 now order h) profile cs →
  -100 ≤ reliabilityScore (Model c) ≤ 0.
Proof.
  intros He Ho Hcs Hc. apply reliability_range. rewrite Forall_forall in Hcs.
  unfold ApplyModelStats in Hc. case_decide; [by apply Hcs|].
  apply list_elem_of_fmap in Hc as (c0 & -> & Hc0).
  destruct (Models _ !! _) as [e|] eqn:Hk; [|by apply Hcs]. case_match; [by apply Hcs|].
  destruct (build_ok _ _ order h He Ho _ _ Hk) as (a & -> & [_ Hoc Hs Hf [Hnn _] _]).
  destruct (summarize_fields a) as (_ & F2 & _ & F4 & F5 & F6 & _).
  set (e := summarize a) in *. clearbody e.
  assert (RecentFailures (Model (apply_entry e c0)) =
    if negb (bool_decide (s_RecentOutcomes e == 0)%Q && (0 <? s_OutcomeCount e))
    then s_RecentFailures e else float_of_int (s_Failures e)) as ->.
  { unfold apply_entry. by destruct (0 <? s_AvgLatencyMillis e), (0 <? s_AvgEstimatedCents e). }
  clear H0. case_match; [by rewrite F6|].
  apply fl_nonneg. change 0%Q with (inject_Z 0). rewrite <-Zle_Qle, F4, Hf, Hoc, Hs.
  match goal with |- context [count (in_bucket ?k) ?l] => pose proof (succeeded_le k l) end. lia.
Qed.

(** ** Witnesses *)

Definition sample_outcomes : list TaskOutcome :=
  [zeroOutcome <| o_RouteID := "r1" |> <| o_Attempt := 1 |> <| o_ModelAlias := "large" |>;
   zeroOutcome <| o_RouteID := "r1" |> <| o_Attempt := 1 |> <| o_ModelAlias := "large" |>
     <| o_Success := true |>].

Definition sample_home : Logs :=
  mkLogs [zeroTrace <| tr_RouteID := "r1" |> <| tr_Attempt := 1 |> <| tr_ModelAlias := "large" |>]
    sample_outcomes.

(** The business outcome replaced the provider outcome of the same attempt. *)
Lemma stats_consistent_witness :
  ∃ e, Models (aggregate (λ _, 1%Q) 100 (λ m, (map_to_list m).*2) sample_home)
    !! "||large|" = Some e ∧ s_OutcomeCount e = 1 ∧
    s_Successes e = count (succeeded "||large|") (counted sample_home).
Proof.
  eexists. split; [vm_compute; reflexivity|]. split; [reflexivity|].
  apply (stats_consistent (λ _, 1%Q) 100 (λ m, (map_to_list m).*2) sample_home "||large|");
    [intros x _; split; discriminate|intros m; done|vm_compute; reflexivity].
Defined.

End Stats.
