(* ===== verification/LlmClient.v ===== *)
(** The routed model client: [src/llmkit/adapters/goagent/client.go] and
[errors.go]. A request is routed to the best candidate, admitted by the health
store, sent, recorded, and falls back to the next candidate when that is allowed.

Providers, recorders, hooks, clocks and contexts answer by a tick that every such
call advances, so they may answer differently each time; between two accesses of
the health store other clients may change it. The trace records what the client
did. *)

From S2P Require Import Prelude Float64 AgentTools AgentCore LlmRouting LlmAudit LlmHealth LlmBreaker LlmStats.
#[local] Open Scope Z_scope.

Module Client.
Import Routing Audit Health Stats.

(** * Errors *)

Definition ErrorStage := string.
Definition ErrorStageRoute : ErrorStage := "route".
Definition ErrorStageConfig : ErrorStage := "config".
Definition ErrorStagePreCall : ErrorStage := "pre_call".
Definition ErrorStageProvider : ErrorStage := "provider".
Definition ErrorStagePostCall : ErrorStage := "post_call".

(** What the code asks of an error from outside through [errors.As]: a
[ProviderDispatchStatus], a [net.Error] with its [Timeout], the status code of an
[openaiapi.ResponseError], a [ProviderErrorClass]. *)
Record Foreign := mkForeign {
  fe_text : string;
  fe_dispatched : option bool;
  fe_net : option bool;
  fe_status : option Z;
  fe_class : option string
}.

Inductive Error :=
| RuntimeError (Stage : ErrorStage) (Class : ErrorClass) (ProviderDispatched : bool) (cause : Error)
| ErrText (text : string)
| ErrMissingProvider (alias : string)
| ErrSelect (e : SelectError)
| ErrHealth (e : HealthError)
| ErrCtx (e : CtxErr)
| ErrForeign (f : Foreign) (wrapped : list Error)
| ErrJoin (errs : list Error).

(** The first error of the unwrap tree, in the order of [errors.As], of which [f]
yields something. *)
Fixpoint find_error {A} (f : Error → option A) (err : Error) : option A :=
  match f err with
  | Some a => Some a
  | None =>
      let fix first (es : list Error) : option A :=
        match es with
        | [] => None
        | e :: es' => match find_error f e with Some a => Some a | None => first es' end
        end in
      match err with
      | RuntimeError _ _ _ cause => find_error f cause
      | ErrForeign _ es | ErrJoin es => first es
      | _ => None
      end
  end.

Definition newRuntimeError (stage : ErrorStage) (class : ErrorClass) (dispatched : bool)
    (cause : Error) : Error :=
  RuntimeError stage (if decide (class = "") then ErrorClassUnknown else class) dispatched cause.

(** [errors.As(err, &runtimeErr)]: the error found, with its fields. *)
Definition as_runtime : Error → option (Error * ErrorStage * ErrorClass * bool) :=
  find_error (λ e, match e with RuntimeError s c d _ => Some (e, s, c, d) | _ => None end).

Definition is_ctx (target : CtxErr) : Error → bool := λ err,
  bool_decide (is_Some (find_error (λ e, match e with
    | ErrCtx x | ErrHealth (HealthCtx x) => if decide (x = target) then Some () else None
    | _ => None end) err)).

(** [errors.Is(err, llmkit.ErrProviderBusy)]. *)
Definition is_busy (err : HealthError) : bool :=
  match err with ErrProviderBusy _ => true | HealthCtx _ => false end.

Definition foreign {A} (f : Foreign → option A) : Error → option A :=
  find_error (λ e, match e with ErrForeign x _ => f x | _ => None end).

(** The class of a provider's HTTP status. *)
Definition status_class (status : Z) : option ErrorClass :=
  if (status =? 401) || (status =? 403) then Some ErrorClassAuth
  else if status =? 408 then Some ErrorClassTimeout
  else if status =? 429 then Some ErrorClassRateLimited
  else if (500 <=? status) && (status <=? 599) then Some ErrorClassTransient
  else None.

Definition provider_classes : list ErrorClass :=
  [ErrorClassRequestTooLarge; ErrorClassResponseTooLarge; ErrorClassInvalidJSON;
   ErrorClassUsageMissing; ErrorClassRedirectBlocked; ErrorClassInvalidResponse;
   ErrorClassToolCallInvalid; ErrorClassConfiguration; ErrorClassBudgetExceeded].

Definition DefaultErrorClassifier (err : Error) : ErrorClass :=
  match as_runtime err with
  | Some (_, _, class, _) => class
  | None =>
      if is_ctx Canceled err then ErrorClassCanceled
      else if is_ctx DeadlineExceeded err then ErrorClassTimeout
      else if bool_decide (foreign fe_net err = Some true) then ErrorClassTimeout
      else match foreign fe_status err ≫= status_class with
      | Some class => class
      | None =>
          match foreign fe_class err with
          | Some class =>
              if bool_decide (class ∈ provider_classes) then class else ErrorClassUnknown
          | None => ErrorClassUnknown
          end
      end
  end.

Definition providerWasDispatched (err : Error) : bool := default true (foreign fe_dispatched err).

Definition joinRouteErrors (primary : Error) (failures : list Error) : Error :=
  match failures with [] => primary | _ => ErrJoin (primary :: failures) end.

(** * Configuration *)

Record ToolCallDelta := mkCallDelta {
  td_Index : Z; td_ID : string; td_Name : string; td_Arguments : string
}.
Record ChatDelta := mkDelta { delta_Content : string; delta_ToolCall : option ToolCallDelta }.

(** [ports.ResponseDeltas]. *)
Definition ResponseDeltas (resp : option ChatResponse) : list ChatDelta :=
  match resp with
  | None => []
  | Some r =>
      (if decide (resp_Content r ≠ "") then [mkDelta (resp_Content r) None] else []) ++
      imap (λ i call, mkDelta "" (Some (mkCallDelta (Z.of_nat i) (call_ID call) (call_Name call)
                                          (call_Input call)))) (resp_ToolCalls r)
  end.

(** A SHA-256 digest as a number; 0 is the array of zeros. *)
Definition Digest := Z.

(** A provider client: [Chat], and what it implements beside it. *)
Record ProviderClient := mkProvider {
  pc_Chat : nat → ChatRequest → option ChatResponse * option Error;
  pc_ChatStream : option (nat → ChatRequest → list ChatDelta * (option ChatResponse * option Error));
  pc_RequestSHA256 : option (nat → ChatRequest → res Error Digest);
  pc_StreamRequestSHA256 : option (nat → ChatRequest → res Error Digest)
}.

Record RouteMetadata := mkRouteMetadata { rm_RouteID : string; rm_TaskID : string; rm_Attempt : Z }.

Record PreDispatchMetadata := mkPreMetadata {
  pm_ProviderCallIndex : Z;
  pm_RunRequestSHA256 : Digest
}.

Record PreDispatchRequest := mkPreRequest {
  pr_Route : RouteTrace;
  pr_ProviderCallIndex : Z;
  pr_Attempt : Z;
  pr_ProviderClass : string;
  pr_RunRequestSHA256 : Digest;
  pr_ProviderRequestSHA256 : Digest
}.

Record Recorder := mkRecorder {
  rc_RecordRoute : nat → RouteTrace → option Error;
  rc_RecordOutcome : nat → TaskOutcome → option Error
}.

Record FallbackPolicy := mkFallback {
  MaxAttempts : Z;
  FailClosed : bool;
  RetryableErrorClasses : list ErrorClass
}.

(** [Config]; a provider map holds no nil client, which the code treats like a
missing one. *)
Record Config := mkConfig {
  cf_Policy : nat → RoutePolicy;
  cf_Candidates : list Candidate;
  cf_Providers : GoMap ProviderClient;
  cf_ProfileProvider : option (nat → ChatRequest → TaskProfile);
  cf_RouteMetadataProvider : option (nat → ChatRequest → RouteMetadata);
  cf_Recorder : option Recorder;
  cf_RecordOutcomes : bool;
  cf_ModelStats : option ModelStats;
  cf_ModelStatsProvider : option (nat → res Error (option ModelStats));
  cf_HealthStore : bool;
  cf_FallbackPolicy : FallbackPolicy;
  cf_ErrorClassifier : option (Error → ErrorClass);
  cf_PreDispatchMetadata : option (nat → ChatRequest → PreDispatchMetadata);
  cf_PreDispatchHook : option (nat → PreDispatchRequest → option Error)
}.

Record Client := mkClient {
  c_policy : nat → RoutePolicy;
  c_candidates : list Candidate;
  c_providers : GoMap ProviderClient;
  c_profileProvider : option (nat → ChatRequest → TaskProfile);
  c_routeMetadataProvider : option (nat → ChatRequest → RouteMetadata);
  c_recorder : option Recorder;
  c_recordOutcomes : bool;
  c_modelStats : option ModelStats;
  c_modelStatsProvider : option (nat → res Error (option ModelStats));
  c_healthStore : bool;
  c_preDispatchMetadata : option (nat → ChatRequest → PreDispatchMetadata);
  c_preDispatchHook : option (nat → PreDispatchRequest → option Error);
  c_maxAttempts : Z;
  c_failClosed : bool;
  c_retryableErrorClass : list ErrorClass;
  c_errorClassifier : Error → ErrorClass
}.

Definition NewClient (config : Config) : Client :=
  mkClient (cf_Policy config) (cf_Candidates config) (map_assign ∅ (cf_Providers config))
    (cf_ProfileProvider config) (cf_RouteMetadataProvider config) (cf_Recorder config)
    (cf_RecordOutcomes config) (cf_ModelStats config) (cf_ModelStatsProvider config)
    (cf_HealthStore config) (cf_PreDispatchMetadata config) (cf_PreDispatchHook config)
    (MaxAttempts (cf_FallbackPolicy config))
    (FailClosed (cf_FallbackPolicy config) || bool_decide (is_Some (cf_PreDispatchHook config)))
    (RetryableErrorClasses (cf_FallbackPolicy config))
    (default DefaultErrorClassifier (cf_ErrorClassifier config)).

Definition attemptLimit (c : Client) (candidateCount : Z) : Z :=
  if c_maxAttempts c <=? 0 then 0 else Z.min (c_maxAttempts c) candidateCount.

Definition allowsFallback (c : Client) (class : ErrorClass) (dispatched : bool) : bool :=
  if negb (c_failClosed c) then true
  else if dispatched then false
  else bool_decide (class ∈ c_retryableErrorClass c).

Definition removeSelectedCandidate (cs : list Candidate) (selected : Candidate) : list Candidate :=
  filter (λ c, ¬ (Alias (Model c) = Alias (Model selected) ∧
                  AccountAlias c = AccountAlias selected ∧
                  Provider (Model c) = Provider (Model selected))) cs.

Definition validateRouteMetadata (m : RouteMetadata) : option Error :=
  if decide (Blank (rm_RouteID m)) then Some (ErrText "route_id is required")
  else if decide (Blank (rm_TaskID m)) then Some (ErrText "task_id is required")
  else if rm_Attempt m <=? 0 then Some (ErrText "attempt must be greater than zero")
  else None.

Definition candidateModelAliases (cs : list CandidateScore) : list string :=
  filter (λ a, a ≠ "") (cs_Alias <$> cs).

Definition copyScoreBreakdown (m : GoMap Z) : GoMap Z := map_assign ∅ m.

Definition copyCandidateScores (l : list CandidateScore) : list CandidateScore :=
  (λ s, mkScore (cs_Alias s) (cs_AccountAlias s) (Available s) (Score s)
          (copyScoreBreakdown (ScoreBreakdown s)) (Reason s)) <$> l.

Definition routeTrace (c : Client) (profile : TaskProfile) (decision : RouteDecision)
    (metadata : RouteMetadata) (attemptOffset : Z) : RouteTrace :=
  mkTrace (rm_RouteID metadata) (rm_TaskID metadata) (rm_Attempt metadata + attemptOffset) 0
    (TaskType profile) (Some profile) (AccountAlias (Selected decision)) (SelectedAlias decision)
    (Provider (Model (Selected decision))) true (d_Reason decision) (d_Score decision)
    (copyScoreBreakdown (d_ScoreBreakdown decision)) (candidateModelAliases (Candidates decision))
    (copyCandidateScores (Candidates decision)) (c_maxAttempts c).

(** * The world of a request *)

Inductive Effect :=
| EAcquire (key : string) (admitted : bool)
| ERelease (key : string)
| EOutcome (outcome : TaskOutcome) (recorded : bool)
| ERoute (trace : RouteTrace)
| EHook (request : PreDispatchRequest)
| ECall (selected : Candidate) (answer : option Error)
| EDelta (delta : ChatDelta).

Record World := mkWorld {
  tick : nat;
  health : MemoryHealthStore;
  trace : list Effect
}.
#[global] Instance eta_World : Eta World := λ w, mkWorld (tick w) (health w) (trace w).

(** The request's context, the cleanup context made from it without its cancellation, the
clocks, and what other clients do to the health store. *)
Record Env := mkEnv {
  env_ctx : nat → Ctx;
  env_cleanup : nat → Ctx;
  env_now : nat → Time;
  env_latency : nat → Duration;
  env_others : nat → MemoryHealthStore → MemoryHealthStore
}.

Definition next (w : World) : nat * World := (tick w, w <| tick := S (tick w) |>).
Definition note (e : Effect) (w : World) : World := w <| trace := trace w ++ [e] |>.

Section client.
Context (c : Client) (env : Env).

(** The health store as the client finds it. *)
Definition others (w : World) : World := w <| health := env_others env (tick w) (health w) |>.

Definition acquire (selected : Candidate) (w : World) : World * option HealthError :=
  let '(t, w) := next (others w) in
  let '(s, err) := Acquire (env_ctx env t) (env_now env t) (health w) selected in
  (note (EAcquire (candidate_key selected) (bool_decide (err = None))) (w <| health := s |>), err).

Definition release (selected : Candidate) (w : World) : World :=
  let '(t, w) := next (others w) in
  note (ERelease (candidate_key selected))
    (w <| health := Release (env_now env t) (health w) selected |>).

Definition loadRouteMetadata (req : ChatRequest) (w : World) : World * res Error RouteMetadata :=
  let '(t, w) := next w in
  let metadata := match c_routeMetadataProvider c with
                  | Some f => f t req | None => mkRouteMetadata "" "" 0 end in
  (w, match validateRouteMetadata metadata with Some e => Err e | None => Ok metadata end).

Definition loadPreDispatchMetadata (req : ChatRequest) (w : World) : World * res Error PreDispatchMetadata :=
  match c_preDispatchMetadata c with
  | None => (w, Err (ErrText "pre-dispatch metadata provider is required"))
  | Some f =>
      let '(t, w) := next w in
      let metadata := f t req in
      (w, if pm_ProviderCallIndex metadata <=? 0
          then Err (ErrText "provider_call_index must be greater than zero")
          else if pm_RunRequestSHA256 metadata =? 0
          then Err (ErrText "run request SHA-256 is required")
          else Ok metadata)
  end.

Definition providerRequestSHA256 (provider : ProviderClient) (req : ChatRequest) (stream : bool)
    (w : World) : World * res Error Digest :=
  let digester := if stream then pc_StreamRequestSHA256 provider else pc_RequestSHA256 provider in
  match digester with
  | None =>
      (w, Err (newRuntimeError ErrorStageConfig ErrorClassConfiguration false
        (ErrText (if stream
          then "provider stream request digester is required when pre-dispatch hook is configured"
          else "provider request digester is required when pre-dispatch hook is configured"))))
  | Some f => let '(t, w) := next w in (w, f t req)
  end.

(** A configuration error before the call. *)
Definition preCallError (text : string) : Error :=
  newRuntimeError ErrorStagePreCall ErrorClassConfiguration false (ErrText text).

Definition runPreDispatchHook (hook : nat → PreDispatchRequest → option Error) (req : ChatRequest)
    (provider : ProviderClient) (stream : bool) (tr : RouteTrace) (lastIndex : Z) (w : World)
    : World * res Error Z :=
  match providerRequestSHA256 provider req stream w with
  | (w, Err err) =>
      (w, Err match as_runtime err with
              | Some (runtimeErr, _, _, _) => runtimeErr
              | None => newRuntimeError ErrorStagePreCall (c_errorClassifier c err) false err
              end)
  | (w, Ok digest) =>
      if digest =? 0 then (w, Err (preCallError "provider request SHA-256 is required"))
      else match loadPreDispatchMetadata req w with
      | (w, Err err) =>
          (w, Err (newRuntimeError ErrorStagePreCall ErrorClassConfiguration false err))
      | (w, Ok metadata) =>
          if pm_ProviderCallIndex metadata <=? lastIndex
          then (w, Err (preCallError "provider_call_index must increase across attempts"))
          else
            let request := mkPreRequest tr (pm_ProviderCallIndex metadata) (tr_Attempt tr)
                             (tr_Provider tr) (pm_RunRequestSHA256 metadata) digest in
            let '(t, w) := next (note (EHook request) w) in
            (w, match hook t request with
                | Some err =>
                    Err (newRuntimeError ErrorStagePreCall (c_errorClassifier c err) false err)
                | None => Ok (pm_ProviderCallIndex metadata)
                end)
      end
  end.

(** What the attempts of one request share: the route metadata once it is loaded and the last
provider call index. *)
Record Shared := mkShared { sh_metadata : option RouteMetadata; sh_lastIndex : Z }.

(** The part of [attempt] that loads the metadata and records the route. *)
Definition recordRoute (req : ChatRequest) (profile : TaskProfile) (decision : RouteDecision)
    (offset : Z) (sh : Shared) (w : World) : World * Shared * res Error RouteTrace :=
  if negb (bool_decide (is_Some (c_recorder c)) || bool_decide (is_Some (c_preDispatchHook c)))
  then (w, sh, Ok zeroTrace)
  else
    let '(w, loaded) := match sh_metadata sh with
                        | Some m => (w, Ok m) | None => loadRouteMetadata req w end in
    match loaded with
    | Err err =>
        (w, sh, Err (newRuntimeError ErrorStagePreCall ErrorClassConfiguration false err))
    | Ok metadata =>
        let sh := mkShared (Some metadata) (sh_lastIndex sh) in
        let tr := routeTrace c profile decision metadata offset in
        match c_recorder c with
        | None => (w, sh, Ok tr)
        | Some r =>
            let '(t, w) := next (note (ERoute tr) w) in
            (w, sh, match rc_RecordRoute r t tr with
                    | Some err =>
                        Err (newRuntimeError ErrorStagePreCall (c_errorClassifier c err) false err)
                    | None => Ok tr
                    end)
        end
    end.

Definition millisecond : Duration := 1000000.

(** The outcome [recordOutcome] makes of a call. *)
Definition call_outcome (profile : TaskProfile) (decision : RouteDecision) (tr : RouteTrace)
    (latency : Duration) (resp : option ChatResponse) (providerErr : option Error) : TaskOutcome :=
  let o := mkOutcome (tr_RouteID tr) (tr_TaskID tr) (tr_Attempt tr) 0 (TaskType profile)
             (AccountAlias (Selected decision)) (SelectedAlias decision)
             (Provider (Model (Selected decision))) (bool_decide (providerErr = None))
             "" "" "" "" "" 0 0 0 0 in
  let o := if 0 <? latency
           then o <| o_LatencyMillis := (latency + millisecond - 1) `quot` millisecond |> else o in
  let o := match resp with
           | Some r => o <| o_InputTokens := us_Input (resp_Usage r) |>
                         <| o_OutputTokens := us_Output (resp_Usage r) |>
           | None => o end in
  match providerErr with
  | Some err => o <| o_ErrorCode := "provider_error" |> <| o_ErrorClass := c_errorClassifier c err |>
  | None => o
  end.

(** [recordOutcome], under the cleanup context of [recordOutcomeAfterCall]; the trace keeps the
outcome the health store was given and whether the store recorded it. *)
Definition recordOutcome (o : TaskOutcome) (w : World) : World * option Error :=
  let '(w, healthErr) :=
    if c_healthStore c then
      let '(t, w) := next (others w) in
      let '(s, err) := RecordOutcome (env_cleanup env t) (env_now env t) (health w) o in
      (note (EOutcome o (bool_decide (err = None))) (w <| health := s |>), err)
    else (w, None) in
  match healthErr with
  | Some err => (w, Some (ErrHealth err))
  | None =>
      match c_recorder c with
      | Some r =>
          if c_recordOutcomes c then let '(t, w) := next w in (w, rc_RecordOutcome r t o)
          else (w, None)
      | None => (w, None)
      end
  end.

(** Delivering the deltas of a complete response, until the caller refuses one. *)
Fixpoint deliver (onDelta : nat → ChatDelta → option Error) (deltas : list ChatDelta) (w : World)
    : World * option Error :=
  match deltas with
  | [] => (w, None)
  | d :: deltas' =>
      let '(t, w) := next (note (EDelta d) w) in
      match onDelta t d with
      | Some err => (w, Some err)
      | None => deliver onDelta deltas' w
      end
  end.

(** The provider's answer, its deltas (each passed on to the caller, whose refusal the
provider learns), and the context's error, which takes the place of a late answer. *)
Definition callProvider (req : ChatRequest) (provider : ProviderClient) (streams : bool)
    (selected : Candidate) (w : World)
    : World * bool * (option ChatResponse * option Error) :=
  let '(t, w) := next w in
  let '(deltas, (resp, err)) :=
    match pc_ChatStream provider with
    | Some f => if streams then f t req else ([], pc_Chat provider t req)
    | None => ([], pc_Chat provider t req)
    end in
  let '(t', w) := next w in
  let '(resp, err) := match env_ctx env t' with
                      | Some e => (None, Some (ErrCtx e)) | None => (resp, err) end in
  let w := note (ECall selected err) w in
  let w := w <| trace := trace w ++ (EDelta <$> deltas) |> in
  (w, negb (bool_decide (deltas = [])), (resp, err)).

(** What [attempt] returns: the response, whether anything was delivered, the error. *)
Definition Returned : Type := option ChatResponse * bool * option Error.

(** [attempt] from the provider call on. *)
Definition callAndRecord (req : ChatRequest) (onDelta : option (nat → ChatDelta → option Error))
    (profile : TaskProfile) (decision : RouteDecision) (provider : ProviderClient) (streams : bool)
    (tr : RouteTrace) (w : World) : World * Returned :=
  let '(w, delivered, (resp, providerErr)) :=
    callProvider req provider streams (Selected decision) w in
  let '(t, w) := next w in
  let latency := env_latency env t in
  let o := call_outcome profile decision tr latency
             (match providerErr with None => resp | Some _ => None end) providerErr in
  match recordOutcome o w with
  | (w, Some err) =>
      (w, (None, delivered, Some (newRuntimeError ErrorStagePostCall ErrorClassPostCall true err)))
  | (w, None) =>
      match providerErr with
      | Some err =>
          (w, (None, delivered, Some (newRuntimeError ErrorStageProvider (c_errorClassifier c err)
                                        (providerWasDispatched err) err)))
      | None =>
          match onDelta with
          | Some f =>
              if streams then (w, (resp, delivered, None))
              else match deliver f (ResponseDeltas resp) w with
              | (w, Some err) => (w, (None, true, Some err))
              | (w, None) => (w, (resp, delivered, None))
              end
          | None => (w, (resp, delivered, None))
          end
      end
  end.

(** [attempt]: the slot acquired for it is released when it stops before the call. *)
Definition attempt (req : ChatRequest) (onDelta : option (nat → ChatDelta → option Error))
    (profile : TaskProfile) (decision : RouteDecision) (provider : ProviderClient)
    (offset : Z) (sh : Shared) (w : World) : World * Shared * Returned :=
  let stop (w : World) (sh : Shared) (err : Error) : World * Shared * Returned :=
    (if c_healthStore c then release (Selected decision) w else w, sh, (None, false, Some err)) in
  match recordRoute req profile decision offset sh w with
  | (w, sh, Err err) => stop w sh err
  | (w, sh, Ok tr) =>
      let streams := bool_decide (is_Some (pc_ChatStream provider)) &&
                     bool_decide (is_Some onDelta) in
      let '(w, hooked) :=
        match c_preDispatchHook c with
        | None => (w, Ok (sh_lastIndex sh))
        | Some hook => runPreDispatchHook hook req provider streams tr (sh_lastIndex sh) w
        end in
      match hooked with
      | Err err => stop w sh err
      | Ok index =>
          let '(w, r) := callAndRecord req onDelta profile decision provider streams tr w in
          (w, mkShared (sh_metadata sh) index, r)
      end
  end.

Definition availableCandidates (profile : TaskProfile) (w : World) : World * res Error (list Candidate) :=
  match c_candidates c with
  | [] => (w, Ok [])
  | _ =>
      let available := filter (λ x, is_Some (c_providers c !! Alias (Model x))) (c_candidates c) in
      let '(w, stats) := match c_modelStatsProvider c with
                         | Some f => let '(t, w) := next w in (w, f t)
                         | None => (w, Ok (c_modelStats c)) end in
      match stats with
      | Err err => (w, Err err)
      | Ok stats =>
          let available := match stats with
                           | Some st => ApplyModelStats st profile available
                           | None => available end in
          if c_healthStore c then
            let '(t, w) := next (others w) in
            (w, Ok (ApplyProviderHealth (Snapshot (env_now env t) (health w)) available))
          else (w, Ok available)
      end
  end.

(** The end of [route], when no candidate is left to try. *)
Definition exhausted (failures : list Error) : Error :=
  match last failures with
  | Some e => joinRouteErrors e (removelast failures)
  | None => newRuntimeError ErrorStageRoute ErrorClassPolicyBlocked false
              (ErrText "all provider candidates failed")
  end.

(** The loop of [route]; every iteration removes a candidate, so as many iterations as there
are candidates are enough. *)
Fixpoint route_loop (fuel : nat) (req : ChatRequest)
    (onDelta : option (nat → ChatDelta → option Error)) (profile : TaskProfile) (maxAttempts : Z)
    (offset : Z) (cs : list Candidate) (sh : Shared) (failures : list Error) (w : World)
    : World * res Error (option ChatResponse) :=
  match fuel, cs with
  | S fuel, _ :: _ =>
      if (0 <? maxAttempts) && (maxAttempts <=? offset) then (w, Err (exhausted failures))
      else
        let '(t, w) := next w in
        match Select (c_policy c t) profile cs with
        | Err err =>
            (w, Err (joinRouteErrors
              (newRuntimeError ErrorStageRoute ErrorClassPolicyBlocked false (ErrSelect err)) failures))
        | Ok decision =>
            match c_providers c !! SelectedAlias decision with
            | None =>
                (w, Err (newRuntimeError ErrorStageConfig ErrorClassConfiguration false
                  (ErrMissingProvider (SelectedAlias decision))))
            | Some provider =>
                let '(w, acquired) :=
                  if c_healthStore c then acquire (Selected decision) w else (w, None) in
                match acquired with
                | Some err =>
                    if negb (is_busy err)
                    then (w, Err (newRuntimeError ErrorStagePreCall
                                    (c_errorClassifier c (ErrHealth err)) false (ErrHealth err)))
                    else
                      let failure := newRuntimeError ErrorStagePreCall ErrorClassProviderBusy false
                                       (ErrHealth err) in
                      route_loop fuel req onDelta profile maxAttempts offset
                        (removeSelectedCandidate cs (Selected decision)) sh
                        (failures ++ [failure]) w
                | None =>
                    let '(w, sh, (resp, delivered, err)) :=
                      attempt req onDelta profile decision provider offset sh w in
                    match err with
                    | None => (w, Ok resp)
                    | Some err =>
                        match as_runtime err with
                        | Some (runtimeErr, stage, class, dispatched) =>
                            if decide (stage ≠ ErrorStageProvider) then (w, Err err)
                            else
                              let '(t, w) := next w in
                              if bool_decide (env_ctx env t ≠ None) || delivered ||
                                 negb (allowsFallback c class dispatched)
                              then (w, Err (joinRouteErrors runtimeErr failures))
                              else route_loop fuel req onDelta profile maxAttempts (offset + 1)
                                     (removeSelectedCandidate cs (Selected decision)) sh
                                     (failures ++ [runtimeErr]) w
                        | None => (w, Err err)
                        end
                    end
                end
            end
        end
  | _, _ => (w, Err (exhausted failures))
  end.

Definition route (req : ChatRequest) (onDelta : option (nat → ChatDelta → option Error)) (w : World)
    : World * res Error (option ChatResponse) :=
  let '(w, profile) := match c_profileProvider c with
                       | Some f => let '(t, w) := next w in (w, f t req)
                       | None => (w, DefaultTaskProfile) end in
  match availableCandidates profile w with
  | (w, Err err) => (w, Err (newRuntimeError ErrorStageRoute (c_errorClassifier c err) false err))
  | (w, Ok cs) =>
      route_loop (length cs) req onDelta profile (attemptLimit c (Z.of_nat (length cs))) 0 cs
        (mkShared None 0) [] w
  end.

Definition Chat (req : ChatRequest) (w : World) : World * res Error (option ChatResponse) :=
  route req None w.

Definition ChatStream (req : ChatRequest) (onDelta : nat → ChatDelta → option Error) (w : World)
    : World * res Error (option ChatResponse) :=
  route req (Some onDelta) w.

(** * Sessions

[session m off cs l ok]: what a request may do from attempt [off] on, with at most [m]
attempts (no limit when [m] is 0) and the candidates [cs] left: [l] is its trace and [ok]
tells whether it ends with an answer. *)

(** The name under which a candidate is called. *)
Definition identity (x : Candidate) : string * string * string :=
  (Alias (Model x), AccountAlias x, Provider (Model x)).

(** What precedes a call: recording its route and asking the hook. *)
Definition preparation (e : Effect) : Prop :=
  match e with ERoute _ | EHook _ => True | _ => False end.

Definition acq (x : Candidate) : list Effect :=
  if c_healthStore c then [EAcquire (candidate_key x) true] else [].
Definition rel (x : Candidate) : list Effect :=
  if c_healthStore c then [ERelease (candidate_key x)] else [].
Definition out (o : TaskOutcome) (recorded : bool) : list Effect :=
  if c_healthStore c then [EOutcome o recorded] else [].

(** The class under which an error is handled. *)
Definition class_of (err : Error) : ErrorClass :=
  if decide (c_errorClassifier c err = "") then ErrorClassUnknown else c_errorClassifier c err.

(** Another provider may be tried after this failure. *)
Definition may_fall_back (err : Error) : Prop :=
  allowsFallback c (class_of err) (providerWasDispatched err) = true.

Definition attempt_left (m off : Z) : Prop := 0 < m → off < m.

Inductive session (m : Z) : Z → list Candidate → list Effect → bool → Prop :=
| s_stop off cs : session m off cs [] false
| s_refused off cs x :
    c_healthStore c = true → x ∈ cs → session m off cs [EAcquire (candidate_key x) false] false
| s_busy off cs x l ok :
    c_healthStore c = true → x ∈ cs → session m off (removeSelectedCandidate cs x) l ok →
    session m off cs (EAcquire (candidate_key x) false :: l) ok
| s_withdrawn off cs x prep :
    attempt_left m off → x ∈ cs → Forall preparation prep →
    session m off cs (acq x ++ prep ++ rel x) false
| s_withdrawn_on off cs x prep l ok :
    attempt_left m off → x ∈ cs → Forall preparation prep →
    session m (off + 1) (removeSelectedCandidate cs x) l ok →
    session m off cs (acq x ++ prep ++ rel x ++ l) ok
| s_called off cs x prep answer ds o ds' ok :
    attempt_left m off → x ∈ cs → Forall preparation prep → (ok = true → answer = None) →
    outcome_key o = candidate_key x →
    session m off cs
      (acq x ++ prep ++ ECall x answer :: (EDelta <$> ds) ++ out o true ++ (EDelta <$> ds')) ok
| s_unrecorded off cs x prep answer ds o :
    attempt_left m off → x ∈ cs → Forall preparation prep → outcome_key o = candidate_key x →
    session m off cs
      (acq x ++ prep ++ ECall x answer :: (EDelta <$> ds) ++ out o false) false
| s_fallback off cs x prep err o l ok :
    attempt_left m off → x ∈ cs → Forall preparation prep → may_fall_back err →
    outcome_key o = candidate_key x →
    session m (off + 1) (removeSelectedCandidate cs x) l ok →
    session m off cs (acq x ++ prep ++ ECall x (Some err) :: out o true ++ l) ok.

(** ** Requests are sessions *)

(** [w'] is [w] later, with the effects [l]. *)
Definition does (l : list Effect) (w w' : World) : Prop := trace w' = trace w ++ l.

Lemma does_nil w w' : trace w' = trace w → does [] w w'.
Proof. intros H. unfold does. by rewrite H, app_nil_r. Qed.

Lemma does_app l l' w1 w2 w3 : does l w1 w2 → does l' w2 w3 → does (l ++ l') w1 w3.
Proof. unfold does. intros H1 H2. by rewrite H2, H1, app_assoc. Qed.

Lemma recordRoute_does req profile decision off sh w w' sh' r :
  recordRoute req profile decision off sh w = (w', sh', r) →
  ∃ prep, Forall preparation prep ∧ does prep w w'.
Proof.
  unfold recordRoute, loadRouteMetadata. cbn [next]. intros H.
  repeat case_match; simplify_eq/=; eexists;
    (split; [|first [by apply does_nil | reflexivity]]); repeat constructor.
Qed.

Lemma hook_does hook req provider streams tr last w w' r :
  runPreDispatchHook hook req provider streams tr last w = (w', r) →
  ∃ prep, Forall preparation prep ∧ does prep w w'.
Proof.
  unfold runPreDispatchHook, providerRequestSHA256, loadPreDispatchMetadata. cbn [next]. intros H.
  repeat case_match; simplify_eq/=; eexists;
    (split; [|first [by apply does_nil | reflexivity]]); repeat constructor.
Qed.

Lemma deliver_does f ds w w' r : deliver f ds w = (w', r) → ∃ ds', does (EDelta <$> ds') w w'.
Proof.
  revert w. induction ds as [|d ds IH]; intros w; simpl.
  { intros [= <- <-]. exists []. by apply does_nil. }
  case_match; [intros [= <- <-]; by exists [d]|]. intros Hd. apply IH in Hd as [ds' Hd].
  exists (d :: ds'). unfold does in *. simpl in *. by rewrite Hd, <-app_assoc.
Qed.

Lemma recordOutcome_does o w w' r :
  recordOutcome o w = (w', r) → ∃ recorded, does (out o recorded) w w' ∧ (r = None → recorded = true).
Proof.
  unfold recordOutcome, out. cbn [next]. intros H.
  destruct (c_healthStore c);
    [destruct (RecordOutcome _ _ _ _) as [s [e|]]|];
    repeat case_match; simplify_eq/=; eexists;
    (split; [first [reflexivity | by apply does_nil]|done]).
Qed.

(** The outcome of a call is one of the selected candidate. *)
Lemma call_outcome_key profile decision tr latency resp perr :
  SelectedAlias decision = Alias (Model (Selected decision)) →
  outcome_key (call_outcome profile decision tr latency resp perr) =
  candidate_key (Selected decision).
Proof.
  intros Hal. unfold call_outcome, outcome_key, candidate_key. rewrite <-Hal.
  repeat case_match; done.
Qed.

(** A call of [x]: its trace, and what its answer and its result mean for the loop. *)
Definition call_trace (x : Candidate) (delivered : bool) (err : option Error) (l : list Effect) : Prop :=
  ∃ answer ds o recorded ds',
    l = ECall x answer :: (EDelta <$> ds) ++ out o recorded ++ (EDelta <$> ds') ∧
    outcome_key o = candidate_key x ∧ (recorded = false → ds' = [] ∧ err ≠ None) ∧
    (err = None → answer = None) ∧
    (∀ e re class dispatched, err = Some e →
       as_runtime e = Some (re, ErrorStageProvider, class, dispatched) → delivered = false →
       recorded = true ∧ ds = [] ∧ ds' = [] ∧
       ∃ pe, answer = Some pe ∧ class = class_of pe ∧ dispatched = providerWasDispatched pe).

Lemma callAndRecord_does req onDelta profile decision provider streams tr w w' resp delivered err :
  SelectedAlias decision = Alias (Model (Selected decision)) →
  callAndRecord req onDelta profile decision provider streams tr w = (w', (resp, delivered, err)) →
  ∃ l, does l w w' ∧ call_trace (Selected decision) delivered err l.
Proof.
  intros Hal. unfold callAndRecord, callProvider. cbn [next].
  set (call := match pc_ChatStream provider with Some _ => _ | None => _ end).
  destruct call as [ds [resp0 err0]].
  set (answer := match env_ctx env _ with Some _ => _ | None => _ end).
  destruct answer as [resp1 err1].
  set (w1 := (note _ _) <| trace := _ |>). set (o := call_outcome _ _ _ _ _ _).
  assert (outcome_key o = candidate_key (Selected decision)) as Hkey by (by apply call_outcome_key).
  clearbody o. destruct (recordOutcome _ _) as [w2 oerr] eqn:Ho.
  apply recordOutcome_does in Ho as (recorded & Ho & Hrec).
  assert (does (ECall (Selected decision) err1 :: (EDelta <$> ds) ++ out o recorded) w w2) as Hw2.
  { unfold does in *. rewrite Ho. simpl. by rewrite <-!app_assoc. }
  clear Ho. intros H.
  enough (∃ ds', does (EDelta <$> ds') w2 w' ∧ (recorded = false → ds' = [] ∧ err ≠ None) ∧
    (err = None → err1 = None) ∧
    (∀ e re class dispatched, err = Some e →
       as_runtime e = Some (re, ErrorStageProvider, class, dispatched) → delivered = false →
       recorded = true ∧ ds = [] ∧ ds' = [] ∧
       ∃ pe, err1 = Some pe ∧ class = class_of pe ∧ dispatched = providerWasDispatched pe))
    as (ds' & Hd & Hrest).
  { eexists. split; [eapply does_app; [exact Hw2|exact Hd]|]. exists err1, ds, o, recorded, ds'.
    split; [by rewrite <-app_comm_cons, <-app_assoc|done]. }
  assert (does (EDelta <$> []) w2 w2) as Hnil by by apply does_nil.
  destruct oerr as [oe|].
  { injection H as <- <- <- <-. exists []. split_and!; [done..|]. by intros e re class dispatched [= <-]. }
  rewrite Hrec in * by done. destruct err1 as [pe|].
  { injection H as <- <- <- <-. exists []. split_and!; [done..|].
    intros e re class dispatched [= <-] [= <- <- <-] Hd.
    apply negb_false_iff, bool_decide_eq_true in Hd as ->. split_and!; [done..|]. by exists pe. }
  destruct onDelta as [f|]; [destruct streams|]; [by simplify_eq; exists []| |by simplify_eq; exists []].
  destruct (deliver f (ResponseDeltas resp1) w2) as [w3 derr] eqn:Hd.
  apply deliver_does in Hd as [ds' Hd]. exists ds'.
  assert (w' = w3) as -> by (destruct derr; congruence). split_and!; [done..|].
  intros e re class dispatched -> _ ->. destruct derr; congruence.
Qed.

Lemma release_does x w : does (rel x) w (if c_healthStore c then release x w else w).
Proof. unfold rel. destruct (c_healthStore c); [done|by apply does_nil]. Qed.

Lemma attempt_does req onDelta profile decision provider off sh w w' sh' resp delivered err :
  SelectedAlias decision = Alias (Model (Selected decision)) →
  attempt req onDelta profile decision provider off sh w = (w', sh', (resp, delivered, err)) →
  ∃ prep, Forall preparation prep ∧
    ((does (prep ++ rel (Selected decision)) w w' ∧ err ≠ None) ∨
     ∃ l, does (prep ++ l) w w' ∧ call_trace (Selected decision) delivered err l).
Proof.
  intros Hal. unfold attempt. destruct (recordRoute _ _ _ _ _ _) as [[w1 sh1] rr] eqn:H1.
  apply recordRoute_does in H1 as (prep1 & Hp1 & Hd1). destruct rr as [tr|e1].
  - destruct (match c_preDispatchHook c with Some _ => _ | None => _ end) as [w2 hooked] eqn:H2.
    assert (∃ prep2, Forall preparation prep2 ∧ does prep2 w1 w2) as (prep2 & Hp2 & Hd2).
    { destruct (c_preDispatchHook c); [by eapply hook_does|]. injection H2 as <- <-.
      exists []. split; [constructor|by apply does_nil]. }
    pose proof (does_app _ _ _ _ _ Hd1 Hd2) as Hd. pose proof (Forall_app_2 _ _ _ Hp1 Hp2) as Hp.
    destruct hooked as [index|e2].
    + destruct (callAndRecord _ _ _ _ _ _ _ _) as [w3 [[resp3 delivered3] err3]] eqn:H3.
      intros [= <- <- <- <- <-]. apply callAndRecord_does in H3 as (l & H3 & H4); [|done].
      exists (prep1 ++ prep2). split; [done|]. right. exists l. split; [by eapply does_app|done].
    + intros [= <- <- <- <- <-]. exists (prep1 ++ prep2). split; [done|]. left.
      split; [|done]. eapply does_app; [done|apply release_does].
  - intros [= <- <- <- <- <-]. exists prep1. split; [done|]. left.
    split; [|done]. eapply does_app; [done|apply release_does].
Qed.

Lemma acquire_does x w w' r :
  acquire x w = (w', r) → does [EAcquire (candidate_key x) (bool_decide (r = None))] w w'.
Proof.
  unfold acquire. cbn [next]. destruct (Acquire _ _ _ _) as [s' e]. by intros [= <- <-].
Qed.

Lemma Select_alias p profile cs d :
  Select p profile cs = Ok d → SelectedAlias d = Alias (Model (Selected d)).
Proof.
  unfold Select. destruct cs; [done|]. destruct (score_all _ _ _ _) as [scores available].
  destruct (sort_slice _ available); [done|].
  destruct (match p_LoadSpread p with Some _ => _ | None => _ end) as [[best reason]|]; [|done].
  by intros [= <-].
Qed.

Lemma Select_elem p profile cs d : Select p profile cs = Ok d → Selected d ∈ cs.
Proof.
  unfold Select. destruct cs as [|c0 cs0] eqn:Hcs; [done|]. rewrite <-Hcs. clear Hcs.
  pose proof (score_all_available p profile cs 0) as Hav.
  destruct (score_all p profile 0 cs) as [scores available]. cbn [snd] in Hav.
  destruct (sort_slice _ available) as [|top rest] eqn:Hsort; [done|].
  destruct (match p_LoadSpread p with Some _ => _ | None => _ end) as [[best reason]|] eqn:Hb; [|done].
  intros [= <-]. simpl. assert (best ∈ top :: rest) as Hbest.
  { destruct (p_LoadSpread p) as [l|]; [|injection Hb as <- <-; set_solver].
    unfold choose in Hb. case_match; [injection Hb as <- <-; set_solver|].
    apply bind_Some in Hb as (x & Hx & Hb). apply bind_Some in Hb as (y & Hy & Hb).
    unfold index in Hx, Hy. repeat case_match; simplify_eq; by eapply list_elem_of_lookup_2. }
  rewrite <-Hsort, elem_of_sort_slice, Hav in Hbest. destruct Hbest as (j & x & [Hj _] & ->).
  by eapply list_elem_of_lookup_2.
Qed.

Lemma limit_left m off : (0 <? m) && (m <=? off) = false → attempt_left m off.
Proof. unfold attempt_left. rewrite andb_false_impl, Z.ltb_lt, Z.leb_gt. lia. Qed.

Lemma route_loop_session fuel req onDelta profile m off cs sh failures w w' r :
  route_loop fuel req onDelta profile m off cs sh failures w = (w', r) →
  ∃ l, does l w w' ∧ session m off cs l (is_ok r).
Proof.
  revert off cs sh failures w. induction fuel as [|fuel IH]; intros off cs sh failures w.
  { simpl. intros [= <- <-]. exists []. split; [by apply does_nil|constructor]. }
  cbn [route_loop]. destruct cs as [|c0 cs0] eqn:Hcs.
  { intros [= <- <-]. exists []. split; [by apply does_nil|constructor]. }
  rewrite <-Hcs. clear Hcs. destruct (_ && _) eqn:Hlim.
  { intros [= <- <-]. exists []. split; [by apply does_nil|constructor]. }
  apply limit_left in Hlim. cbn [next]. set (w0 := w <| tick := _ |>).
  assert (∀ l w'', does l w0 w'' → does l w w'') as Hw0 by done. clearbody w0.
  destruct (Select _ _ _) as [decision|serr] eqn:Hsel.
  2: { intros [= <- <-]. exists []. split; [by apply Hw0, does_nil|constructor]. }
  pose proof (Select_alias _ _ _ _ Hsel) as Hal. apply Select_elem in Hsel.
  destruct (c_providers c !! _) as [provider|].
  2: { intros [= <- <-]. exists []. split; [by apply Hw0, does_nil|constructor]. }
  destruct (if c_healthStore c then _ else _) as [w1 acquired] eqn:Hacq.
  destruct acquired as [aerr|].
  - destruct (c_healthStore c) eqn:Hh; [|done]. apply acquire_does in Hacq.
    apply Hw0 in Hacq. rewrite bool_decide_eq_false_2 in Hacq by done.
    destruct (negb (is_busy aerr)).
    + intros [= <- <-]. eexists. split; [done|]. by apply s_refused.
    + intros H. apply IH in H as (l & Hl & Hs). eexists. split; [by eapply does_app|].
      by apply s_busy.
  - assert (does (acq (Selected decision)) w w1) as Hd1.
    { unfold acq. destruct (c_healthStore c); [by apply acquire_does in Hacq; apply Hw0|].
      injection Hacq as <-. by apply Hw0, does_nil. }
    clear Hacq Hw0. destruct (attempt _ _ _ _ _ _ _ _) as [[w2 sh2] [[resp delivered] err]] eqn:Hatt.
    apply attempt_does in Hatt as (prep & Hprep & Hatt); [|done].
    assert (∀ l, does (prep ++ l) w1 w2 → call_trace (Selected decision) delivered err l →
      ∃ l', does l' w w2 ∧ session m off cs l' (bool_decide (err = None))) as Hcalled.
    { intros l Hd2 (answer & ds & o & [] & ds' & -> & Hkey & Hrec & Hans & _);
        (eexists; split; [by eapply does_app|]).
      - apply s_called; try done. intros He%bool_decide_eq_true. by apply Hans.
      - destruct (Hrec eq_refl) as [-> He]. rewrite bool_decide_eq_false_2 by done.
        rewrite app_nil_r. by apply s_unrecorded. }
    destruct err as [err|].
    2: { destruct Hatt as [[_ ?]|(l & Hd2 & Hl)]; [done|]. intros [= <- <-]. by eapply Hcalled. }
    assert (∀ w3, trace w3 = trace w2 → ∃ l, does l w w3 ∧ session m off cs l false) as Hend.
    { intros w3 Hw3. destruct Hatt as [[Hd2 _]|(l & Hd2 & Hl)].
      - eexists. split; [|by apply (s_withdrawn m off cs (Selected decision) prep)].
        eapply does_app; [done|]. unfold does in *. congruence.
      - destruct (Hcalled l Hd2 Hl) as (l' & Hl' & Hs'). exists l'. split; [|exact Hs'].
        unfold does in *. congruence. }
    destruct (as_runtime err) as [[[[re stage] class] dispatched]|] eqn:Hre;
      [|by intros [= <- <-]; apply Hend].
    case_decide as Hstage; [by intros [= <- <-]; apply Hend|]. subst stage.
    destruct (_ || _) eqn:Hstop; [by intros [= <- <-]; apply Hend|].
    apply orb_false_iff in Hstop as [Hstop Hfall%negb_false_iff].
    apply orb_false_iff in Hstop as [_ ->]. intros H. apply IH in H as (l & Hl & Hs).
    assert (does l w2 w') as Hl2 by done.
    destruct Hatt as [[Hd2 _]|(l' & Hd2 & (answer & ds & o & recorded & ds' & -> & Hkey & _ & _ & Hprov))].
    + eexists. split; [by eapply does_app; [|eapply does_app]|]. rewrite <-!app_assoc.
      by apply s_withdrawn_on.
    + destruct (Hprov _ _ _ _ eq_refl Hre eq_refl) as (-> & -> & -> & pe & -> & -> & ->).
      eexists. split; [by eapply does_app; [|eapply does_app]|].
      cbn [fmap list_fmap app]. rewrite app_nil_r, <-app_assoc. by apply s_fallback.
Qed.

(** ** What sessions guarantee *)

Definition is_call (e : Effect) : bool := match e with ECall _ _ => true | _ => false end.
Definition is_delta (e : Effect) : bool := match e with EDelta _ => true | _ => false end.

(** The slots of the health store along a trace: an admission opens one, an outcome of the same
provider that the store records or a release of it closes it, at most one is open, calls are
made only with an open slot of their provider, and when the store does not record an outcome
of the open slot's provider nothing follows. *)
Fixpoint slots_ok (open : option string) (l : list Effect) : Prop :=
  match l with
  | [] => open = None
  | EAcquire k true :: l => open = None ∧ slots_ok (Some k) l
  | EAcquire _ false :: l => open = None ∧ slots_ok None l
  | ERelease k :: l => open = Some k ∧ slots_ok None l
  | EOutcome o true :: l => open = Some (outcome_key o) ∧ slots_ok None l
  | EOutcome o false :: l => open = Some (outcome_key o) ∧ l = []
  | ECall x _ :: l => open = Some (candidate_key x) ∧ slots_ok open l
  | _ :: l => slots_ok open l
  end.

(** The candidates that were called, in order. *)
Definition called (l : list Effect) : list Candidate :=
  omap (λ e, match e with ECall x _ => Some x | _ => None end) l.

(** Calls and deltas: a call is followed by another only when it failed and fallback is
allowed after that failure; nothing is called once something was delivered. *)
Fixpoint calls_ok (l : list Effect) : Prop :=
  match l with
  | [] => True
  | ECall _ answer :: l =>
      (existsb is_call l = true → ∃ err, answer = Some err ∧ may_fall_back err) ∧ calls_ok l
  | EDelta _ :: l => existsb is_call l = false ∧ calls_ok l
  | _ :: l => calls_ok l
  end.

(** Effects that are neither calls nor deltas and open or close no slot. *)
Lemma prep_slots prep open l :
  Forall preparation prep → slots_ok open (prep ++ l) ↔ slots_ok open l.
Proof. induction 1 as [|e prep He _ IH]; [done|]. by destruct e. Qed.

Lemma deltas_slots ds open l : slots_ok open ((EDelta <$> ds) ++ l) ↔ slots_ok open l.
Proof. by induction ds. Qed.

Lemma session_slots m off cs l ok :
  c_healthStore c = true → session m off cs l ok → slots_ok None l.
Proof.
  intros Hh. unfold acq, rel, out. induction 1; unfold acq, rel, out in *; rewrite ?Hh in *;
    simpl; rewrite ?prep_slots by done; simpl; rewrite ?deltas_slots; try done;
    simpl; split_and!; try done; try congruence.
  rewrite <-(app_nil_r (EDelta <$> ds')). by rewrite deltas_slots.
Qed.

(** A request with an outcome that was not recorded ends without an answer. *)
Lemma session_unrecorded m off cs l ok o :
  session m off cs l ok → EOutcome o false ∈ l → ok = false.
Proof.
  assert (∀ x, EOutcome o false ∉ acq x) as Ha by (intros x; unfold acq; case_match; set_solver).
  assert (∀ x, EOutcome o false ∉ rel x) as Hr by (intros x; unfold rel; case_match; set_solver).
  assert (∀ o', EOutcome o false ∉ out o' true) as Ho by (intros o'; unfold out; case_match; set_solver).
  assert (∀ ds : list ChatDelta, EOutcome o false ∉ (EDelta <$> ds)) as Hd.
  { intros ds (d & ? & _)%list_elem_of_fmap. done. }
  assert (∀ prep, Forall preparation prep → EOutcome o false ∉ prep) as Hp.
  { intros prep Hprep Hin. rewrite Forall_forall in Hprep. by apply Hprep in Hin. }
  induction 1; try done; rewrite ?elem_of_app, ?elem_of_cons, ?elem_of_app; naive_solver.
Qed.

Lemma existsb_prep prep l :
  Forall preparation prep → existsb is_call (prep ++ l) = existsb is_call l.
Proof. induction 1 as [|e prep He _ IH]; [done|]. by destruct e. Qed.

Lemma prep_calls prep l : Forall preparation prep → calls_ok (prep ++ l) ↔ calls_ok l.
Proof. induction 1 as [|e prep He _ IH]; [done|]. by destruct e. Qed.

Lemma acq_calls x l : calls_ok (acq x ++ l) ↔ calls_ok l.
Proof. unfold acq. by destruct (c_healthStore c). Qed.
Lemma rel_calls x l : calls_ok (rel x ++ l) ↔ calls_ok l.
Proof. unfold rel. by destruct (c_healthStore c). Qed.
Lemma out_calls o b l : calls_ok (out o b ++ l) ↔ calls_ok l.
Proof. unfold out. by destruct (c_healthStore c). Qed.
Lemma out_existsb o b l : existsb is_call (out o b ++ l) = existsb is_call l.
Proof. unfold out. by destruct (c_healthStore c). Qed.

Lemma deltas_existsb ds l : existsb is_call ((EDelta <$> ds) ++ l) = existsb is_call l.
Proof. by induction ds. Qed.

Lemma deltas_calls ds l :
  existsb is_call l = false → calls_ok l → calls_ok ((EDelta <$> ds) ++ l).
Proof.
  intros H1 H2. induction ds as [|d ds IH]; [done|]. simpl. split; [|done].
  by rewrite deltas_existsb.
Qed.

Lemma session_calls m off cs l ok : session m off cs l ok → calls_ok l.
Proof.
  induction 1; rewrite ?acq_calls, ?prep_calls, ?rel_calls by done; try done.
  - rewrite <-(app_nil_r (rel x)). by rewrite rel_calls.
  - assert (existsb is_call (EDelta <$> ds') = false ∧ calls_ok (EDelta <$> ds')) as [Hc1 Hc2].
    { rewrite <-(app_nil_r (EDelta <$> ds')), deltas_existsb. split; [done|].
      by apply deltas_calls. }
    simpl. rewrite deltas_existsb, out_existsb, Hc1. split; [done|].
    apply deltas_calls; [by rewrite out_existsb|by rewrite out_calls].
  - rewrite <-(app_nil_r (out o false)). simpl. rewrite deltas_existsb, out_existsb.
    split; [done|]. apply deltas_calls; [by rewrite out_existsb|by rewrite out_calls].
  - simpl. rewrite out_calls. split; [|done]. intros _. by exists err.
Qed.

(** An answer is that of the last call. *)
Lemma session_answer m off cs l :
  session m off cs l true →
  ∃ l1 x l2, l = l1 ++ ECall x None :: l2 ∧ existsb is_call l2 = false.
Proof.
  intros H. remember true as ok. revert Heqok. induction H; intros Hok; try discriminate Hok; try subst ok.
  - destruct IHsession as (l1 & y & l2 & -> & H2); [done|]. by exists (EAcquire (candidate_key x) false :: l1), y, l2.
  - destruct IHsession as (l1 & y & l2 & -> & H4); [done|]. exists (acq x ++ prep ++ rel x ++ l1), y, l2.
    by rewrite <-!app_assoc.
  - rewrite H2 by done. eexists (acq x ++ prep), x, _. rewrite <-app_assoc. split; [done|].
    rewrite deltas_existsb, out_existsb, <-(app_nil_r (EDelta <$> ds')). by rewrite deltas_existsb.
  - destruct IHsession as (l1 & y & l2 & -> & Hl2); [done|].
    exists (acq x ++ prep ++ ECall x (Some err) :: out o true ++ l1), y, l2.
    by rewrite <-!app_assoc, <-app_comm_cons, <-app_assoc.
Qed.

Lemma called_app l l' : called (l ++ l') = called l ++ called l'.
Proof. apply omap_app. Qed.

Lemma called_quiet l : existsb is_call l = false → called l = [].
Proof.
  induction l as [|e l IH]; [done|]. simpl. intros [He Hl]%orb_false_iff.
  destruct e; try done; by apply IH.
Qed.

Lemma existsb_acq x : existsb is_call (acq x) = false.
Proof. unfold acq. by destruct (c_healthStore c). Qed.
Lemma existsb_rel x : existsb is_call (rel x) = false.
Proof. unfold rel. by destruct (c_healthStore c). Qed.
Lemma existsb_out o b : existsb is_call (out o b) = false.
Proof. unfold out. by destruct (c_healthStore c). Qed.
Lemma existsb_preps prep : Forall preparation prep → existsb is_call prep = false.
Proof. intros H. rewrite <-(app_nil_r prep). by rewrite existsb_prep. Qed.
Lemma existsb_deltas ds : existsb is_call (EDelta <$> ds) = false.
Proof. rewrite <-(app_nil_r (EDelta <$> ds)). by rewrite deltas_existsb. Qed.

Lemma elem_of_remove y cs x :
  y ∈ removeSelectedCandidate cs x ↔ y ∈ cs ∧ identity y ≠ identity x.
Proof.
  unfold removeSelectedCandidate, identity. rewrite list_elem_of_filter.
  split; intros [H1 H2].
  - split; [done|]. intros [= ? ? ?]. by apply H1.
  - split; [|done]. intros (H3 & H4 & H5). apply H2. congruence.
Qed.

(** Calls go to distinct candidates among [cs], as many as attempts are left. *)
Lemma session_bounded m off cs l ok :
  session m off cs l ok →
  NoDup (identity <$> called l) ∧ (∀ y, y ∈ called l → y ∈ cs) ∧
  (0 < m → Z.of_nat (length (called l)) ≤ Z.max 0 (m - off)).
Proof.
  assert (∀ (y : Candidate), y ∉ called []) as Hnil by (intros y; apply not_elem_of_nil).
  induction 1 as [off cs|off cs x ? Hx|off cs x l ok ? Hx _ IH|off cs x prep Hleft Hx Hprep
    |off cs x prep l ok Hleft Hx Hprep _ IH|off cs x prep answer ds o ds' ok Hleft Hx Hprep _ _
    |off cs x prep answer ds o Hleft Hx Hprep _|off cs x prep err o l ok Hleft Hx Hprep _ _ _ IH].
  - split_and!; [constructor|set_solver|simpl; lia].
  - split_and!; [constructor|set_solver|simpl; lia].
  - destruct IH as (H1 & H2 & H3). split_and!; [done| |done].
    intros y Hy. by apply H2, elem_of_remove in Hy as [? _].
  - rewrite !called_app, (called_quiet (acq x)), (called_quiet prep), (called_quiet (rel x))
      by auto using existsb_acq, existsb_preps, existsb_rel.
    split_and!; [constructor|set_solver|simpl; lia].
  - rewrite !called_app, (called_quiet (acq x)), (called_quiet prep), (called_quiet (rel x))
      by auto using existsb_acq, existsb_preps, existsb_rel. simpl.
    destruct IH as (H1 & H2 & H3). split_and!; [done| |lia].
    intros y Hy. by apply H2, elem_of_remove in Hy as [? _].
  - rewrite !called_app, (called_quiet (acq x)), (called_quiet prep)
      by auto using existsb_acq, existsb_preps. cbn [called omap list_omap app].
    fold (called ((EDelta <$> ds) ++ out o true ++ (EDelta <$> ds'))).
    rewrite (called_quiet (_ ++ _)) by by rewrite deltas_existsb, out_existsb, existsb_deltas.
    split_and!; [repeat constructor; set_solver|set_solver|]. unfold attempt_left in Hleft.
    simpl. lia.
  - rewrite !called_app, (called_quiet (acq x)), (called_quiet prep)
      by auto using existsb_acq, existsb_preps. cbn [called omap list_omap app].
    fold (called ((EDelta <$> ds) ++ out o false)).
    rewrite (called_quiet (_ ++ _)) by by rewrite deltas_existsb, existsb_out.
    split_and!; [repeat constructor; set_solver|set_solver|]. unfold attempt_left in Hleft.
    simpl. lia.
  - rewrite !called_app, (called_quiet (acq x)), (called_quiet prep)
      by auto using existsb_acq, existsb_preps. cbn [called omap list_omap app].
    fold (called (out o true ++ l)). rewrite called_app, (called_quiet (out o true)) by apply existsb_out.
    destruct IH as (H1 & H2 & H3). cbn [app]. split_and!.
    + rewrite fmap_cons. constructor; [|done]. rewrite list_elem_of_fmap.
      intros (y & Hy & Hin). apply H2, elem_of_remove in Hin as [_ Hne]. by destruct Hne.
    + intros y [->|Hy]%elem_of_cons; [done|]. by apply H2, elem_of_remove in Hy as [? _].
    + unfold attempt_left in Hleft. simpl. lia.
Qed.

Lemma remove_length cs x :
  x ∈ cs → (length (removeSelectedCandidate cs x) < length cs)%nat.
Proof.
  intros Hx. unfold removeSelectedCandidate.
  assert (∀ P `{∀ y : Candidate, Decision (P y)} l, x ∈ l → ¬ P x →
    (length (filter P l) < length l)%nat) as Hgen.
  { intros P ? l. induction l as [|y l IH]; [by rewrite elem_of_nil|].
    rewrite elem_of_cons, filter_cons. pose proof (length_filter P l). intros [<-|Hl] Hn.
    - rewrite decide_False by done. simpl. lia.
    - specialize (IH Hl Hn). case_decide; simpl; lia. }
  apply Hgen; [done|]. intros Hn. by apply Hn.
Qed.

(** The loop has enough fuel: more would change nothing. *)
Lemma route_loop_fuel fuel fuel' req onDelta profile m off cs sh failures w :
  (length cs ≤ fuel)%nat → (length cs ≤ fuel')%nat →
  route_loop fuel req onDelta profile m off cs sh failures w =
  route_loop fuel' req onDelta profile m off cs sh failures w.
Proof.
  revert fuel' off cs sh failures w. induction fuel as [|fuel IH];
    intros fuel' off cs sh failures w Hf Hf'.
  { destruct cs; [|simpl in Hf; lia]. by destruct fuel'. }
  destruct fuel' as [|fuel']; [destruct cs; [done|simpl in Hf'; lia]|].
  cbn [route_loop]. destruct cs as [|c0 cs0] eqn:Hcs; [done|]. rewrite <-Hcs in *. clear Hcs.
  destruct (_ && _); [done|]. cbn [next].
  destruct (Select _ _ _) as [decision|serr] eqn:Hsel; [|done]. apply Select_elem in Hsel.
  pose proof (remove_length cs (Selected decision) Hsel).
  destruct (c_providers c !! _) as [provider|]; [|done].
  destruct (if c_healthStore c then _ else _) as [w1 [aerr|]].
  - destruct (negb _); [done|]. apply IH; lia.
  - destruct (attempt _ _ _ _ _ _ _ _) as [[w2 sh2] [[resp delivered] [err|]]]; [|done].
    destruct (as_runtime err) as [[[[re stage] class] dispatched]|]; [|done].
    case_decide; [done|]. destruct (_ || _); [done|]. apply IH; lia.
Qed.

(** ** The candidates of a request *)

Lemma identity_stats st profile cs : identity <$> ApplyModelStats st profile cs = identity <$> cs.
Proof.
  unfold ApplyModelStats. case_decide; [done|]. rewrite <-list_fmap_compose.
  apply list_fmap_ext. intros i x _. simpl. case_match; [|done]. case_match; [done|].
  unfold apply_entry. by destruct (0 <? s_AvgLatencyMillis m), (0 <? s_AvgEstimatedCents m).
Qed.

Lemma identity_health sn cs : identity <$> ApplyProviderHealth sn cs = identity <$> cs.
Proof.
  unfold ApplyProviderHealth. case_decide; [done|]. rewrite <-list_fmap_compose.
  apply list_fmap_ext. intros i x _. simpl. by case_match.
Qed.

(** The configured candidates with a provider client. *)
Definition routable : list Candidate :=
  filter (λ x, is_Some (c_providers c !! Alias (Model x))) (c_candidates c).

Lemma availableCandidates_does profile w w' r :
  availableCandidates profile w = (w', r) →
  trace w' = trace w ∧ ∀ cs, r = Ok cs → identity <$> cs = identity <$> routable.
Proof.
  unfold availableCandidates, routable. destruct (c_candidates c) as [|c0 cs0] eqn:Hc.
  { intros [= <- <-]. split; [done|]. by intros cs [= <-]. }
  rewrite <-Hc. clear Hc. cbn [next]. set (av := filter _ _).
  destruct (match c_modelStatsProvider c with Some _ => _ | None => _ end) as [w1 st] eqn:Hst.
  assert (trace w1 = trace w) as Hw1.
  { destruct (c_modelStatsProvider c); by injection Hst as <- <-. }
  destruct st as [st|e]; [|intros [= <- <-]; by split].
  destruct (c_healthStore c); intros [= <- <-]; (split; [done|]); intros cs [= <-];
    rewrite ?identity_health; destruct st; by rewrite ?identity_stats.
Qed.

(** Every request is a session over routable candidates. *)
Lemma route_session req onDelta w w' r :
  route req onDelta w = (w', r) →
  ∃ cs l, identity <$> cs = identity <$> routable ∧ does l w w' ∧
    session (attemptLimit c (Z.of_nat (length routable))) 0 cs l (is_ok r).
Proof.
  unfold route. cbn [next].
  destruct (match c_profileProvider c with Some _ => _ | None => _ end) as [w1 profile] eqn:Hp.
  assert (trace w1 = trace w) as Hw1.
  { destruct (c_profileProvider c); by injection Hp as <- <-. }
  destruct (availableCandidates profile w1) as [w2 av] eqn:Hav.
  apply availableCandidates_does in Hav as [Hw2 Hids]. destruct av as [cs|e].
  - specialize (Hids cs eq_refl). assert (length cs = length routable) as Hlen.
    { apply (f_equal length) in Hids. by rewrite !length_fmap in Hids. }
    intros H. rewrite Hlen in H. apply route_loop_session in H as (l & Hl & Hs).
    exists cs, l. split_and!; [done| |done]. unfold does in *. congruence.
  - intros [= <- <-]. exists routable, []. split_and!; [done| |constructor].
    apply does_nil. congruence.
Qed.

(** ** Slots of the health store *)

Definition in_flight (s : MemoryHealthStore) (k : string) : Z := e_InFlight (Breaker.entry_at s k).

(** [w'] has [n] calls more in flight at [x] than [w], and as many elsewhere. *)
Definition slots (x : Candidate) (n : Z) (w w' : World) : Prop :=
  ∀ k, in_flight (health w') k = in_flight (health w) k +
         (if decide (k = candidate_key x) then n else 0).

Lemma in_flight_insert s k e k' :
  in_flight (mkHealthStore (policy s) (<[k := e]> (entries s))) k' =
  if decide (k' = k) then e_InFlight e else in_flight s k'.
Proof.
  unfold in_flight, Breaker.entry_at. simpl. case_decide as Hk.
  - by rewrite Hk, lookup_insert_eq.
  - by rewrite lookup_insert_ne.
Qed.

Lemma end_call_in_flight e : 0 < e_InFlight e → e_InFlight (end_call e) = e_InFlight e - 1.
Proof. intros H. unfold end_call. rewrite (proj2 (Z.ltb_lt _ _) H). done. Qed.

Context (Hhealth : c_healthStore c = true).
Context (Hquiet : ∀ t s, env_others env t s = s).
Context (Hcleanup : ∀ t, env_cleanup env t = None).

Lemma next_others w t w' : next (others w) = (t, w') → health w' = health w.
Proof. intros [= _ <-]. apply Hquiet. Qed.

Lemma acquire_slots x w w' :
  acquire x w = (w', None) → slots x 1 w w'.
Proof.
  unfold acquire. destruct (next (others w)) as [t w1] eqn:Hn.
  apply next_others in Hn. rewrite Hn.
  destruct (Acquire_cases (env_ctx env t) (env_now env t) (health w) x)
    as [[err ->]|(e & Hin & _ & _ & ->)]; [done|].
  intros [= <-] k. simpl. rewrite in_flight_insert. case_decide as Hk; [|lia].
  pose proof (Breaker.acquired_fields (health w) x (env_now env t)) as (_ & Hin' & _).
  rewrite Hin, Hin', Hk. done.
Qed.

Lemma acquire_refused x w w' e : acquire x w = (w', Some e) → health w' = health w.
Proof.
  unfold acquire. destruct (next (others w)) as [t w1] eqn:Hn.
  apply next_others in Hn. rewrite Hn.
  destruct (Acquire_cases (env_ctx env t) (env_now env t) (health w) x)
    as [[err ->]|(e' & Hin & _ & _ & ->)]; [|done].
  by intros [= <- _].
Qed.

Lemma release_slots x w :
  0 < in_flight (health w) (candidate_key x) → slots x (-1) w (release x w).
Proof.
  intros Hpos k. unfold release. cbn [next]. simpl. rewrite Hquiet. unfold Release.
  unfold in_flight, Breaker.entry_at in Hpos.
  destruct (entries (health w) !! candidate_key x) as [e|] eqn:He; [|done]. simpl in Hpos.
  rewrite in_flight_insert. case_decide as Hk; [|lia]. simpl. rewrite end_call_in_flight by done.
  unfold in_flight, Breaker.entry_at. rewrite Hk, He. simpl. lia.
Qed.

Lemma settle_judge_in_flight p now o e :
  e_InFlight (outcome_entry p now o e) = e_InFlight (end_call e).
Proof.
  unfold outcome_entry. set (e1 := e <| e_AccountAlias := _ |> <| e_ModelAlias := _ |> <| e_Provider := _ |>).
  assert (e_InFlight (end_call e1) = e_InFlight (end_call e)) as <-.
  { unfold end_call. change (e_InFlight e1) with (e_InFlight e). by case_match. }
  clearbody e1. rewrite <-(Breaker.settle_in_flight p (end_call e1) now).
  set (e2 := settle _ _ _). clearbody e2. unfold judge. repeat case_match; done.
Qed.

Lemma recordOutcome_slots x o w w' r :
  candidate_key x = outcome_key o → 0 < in_flight (health w) (candidate_key x) →
  recordOutcome o w = (w', r) → slots x (-1) w w'.
Proof.
  intros Hkey Hpos. unfold recordOutcome. rewrite Hhealth. cbn [next].
  unfold RecordOutcome. rewrite Hcleanup. simpl. rewrite Hquiet.
  set (e := outcome_entry _ _ _ _). intros H k.
  assert (health w' = mkHealthStore (policy (health w)) (<[outcome_key o := e]> (entries (health w))))
    as -> by (repeat case_match; by simplify_eq/=).
  rewrite in_flight_insert, Hkey. case_decide as Hk; [|lia].
  unfold e. rewrite settle_judge_in_flight. unfold in_flight, Breaker.entry_at in *.
  rewrite Hkey in Hpos. rewrite Hk. rewrite end_call_in_flight by done. lia.
Qed.

Lemma recordRoute_health req profile decision off sh w w' sh' r :
  recordRoute req profile decision off sh w = (w', sh', r) → health w' = health w.
Proof. unfold recordRoute, loadRouteMetadata. cbn [next]. intros H. by repeat case_match; simplify_eq/=. Qed.

Lemma hook_health hook req provider streams tr last w w' r :
  runPreDispatchHook hook req provider streams tr last w = (w', r) → health w' = health w.
Proof.
  unfold runPreDispatchHook, providerRequestSHA256, loadPreDispatchMetadata. cbn [next]. intros H.
  by repeat case_match; simplify_eq/=.
Qed.

Lemma deliver_health f ds w w' r : deliver f ds w = (w', r) → health w' = health w.
Proof.
  revert w. induction ds as [|d ds IH]; intros w; simpl; [by intros [= <- <-]|].
  case_match; [by intros [= <- <-]|]. intros Hd. by apply IH in Hd.
Qed.

Lemma callAndRecord_slots req onDelta profile decision provider streams tr w w' r :
  SelectedAlias decision = Alias (Model (Selected decision)) →
  0 < in_flight (health w) (candidate_key (Selected decision)) →
  callAndRecord req onDelta profile decision provider streams tr w = (w', r) →
  slots (Selected decision) (-1) w w'.
Proof.
  intros Hal Hpos. unfold callAndRecord.
  destruct (callProvider _ _ _ _ _) as [[w1 delivered] [resp perr]] eqn:Hc.
  assert (health w1 = health w) as Hw1.
  { unfold callProvider in Hc. cbn [next] in Hc. repeat case_match; by simplify_eq/=. }
  cbn [next]. set (o := call_outcome _ _ _ _ _ _).
  assert (outcome_key o = candidate_key (Selected decision)) as Hkey by (by apply call_outcome_key).
  clearbody o. destruct (recordOutcome _ _) as [w2 oerr] eqn:Ho.
  apply (recordOutcome_slots (Selected decision)) in Ho; [|done|simpl; by rewrite Hw1].
  assert (slots (Selected decision) (-1) w w2) as Hw2.
  { intros k. rewrite (Ho k). simpl. by rewrite Hw1. }
  intros H. assert (health w' = health w2) as Hw'.
  { destruct oerr; [by simplify_eq|]. destruct perr; [by simplify_eq|].
    destruct onDelta; [|by simplify_eq]. destruct streams; [by simplify_eq|].
    destruct (deliver _ _ _) as [w3 derr] eqn:Hd. apply deliver_health in Hd.
    destruct derr; by simplify_eq. }
  intros k. by rewrite Hw'.
Qed.

Lemma attempt_slots req onDelta profile decision provider off sh w w' sh' r :
  SelectedAlias decision = Alias (Model (Selected decision)) →
  0 < in_flight (health w) (candidate_key (Selected decision)) →
  attempt req onDelta profile decision provider off sh w = (w', sh', r) →
  slots (Selected decision) (-1) w w'.
Proof.
  intros Hal Hpos. unfold attempt. rewrite Hhealth.
  destruct (recordRoute _ _ _ _ _ _) as [[w1 sh1] rr] eqn:H1.
  apply recordRoute_health in H1. destruct rr as [tr|e1].
  - destruct (match c_preDispatchHook c with Some _ => _ | None => _ end) as [w2 hooked] eqn:H2.
    assert (health w2 = health w) as Hw2.
    { rewrite <-H1. destruct (c_preDispatchHook c); [by eapply hook_health|]. by simplify_eq. }
    destruct hooked as [index|e2].
    + destruct (callAndRecord _ _ _ _ _ _ _ _) as [w3 r3] eqn:H3. intros [= <- _ _] k.
      apply callAndRecord_slots in H3; [|done|by rewrite Hw2]. by rewrite (H3 k), Hw2.
    + intros [= <- _ _] k. rewrite (release_slots (Selected decision) w2) by (by rewrite Hw2).
      by rewrite Hw2.
  - intros [= <- _ _] k. rewrite (release_slots (Selected decision) w1) by (by rewrite H1).
    by rewrite H1.
Qed.

Lemma route_loop_slots fuel req onDelta profile m off cs sh failures w w' r :
  (∀ k, 0 ≤ in_flight (health w) k) →
  route_loop fuel req onDelta profile m off cs sh failures w = (w', r) →
  ∀ k, in_flight (health w') k = in_flight (health w) k.
Proof.
  revert off cs sh failures w. induction fuel as [|fuel IH]; intros off cs sh failures w Hpos.
  { by intros [= <- <-]. }
  cbn [route_loop]. destruct cs as [|c0 cs0] eqn:Hcs; [by intros [= <- <-]|].
  rewrite <-Hcs. clear Hcs. destruct (_ && _); [by intros [= <- <-]|].
  cbn [next]. set (w0 := w <| tick := _ |>). change (health w) with (health w0) in Hpos |- *.
  clearbody w0. destruct (Select _ _ _) as [decision|serr] eqn:Hsel; [|by intros [= <- <-]].
  apply Select_alias in Hsel. destruct (c_providers c !! _) as [provider|]; [|by intros [= <- <-]].
  rewrite Hhealth. destruct (acquire _ _) as [w1 acquired] eqn:Hacq. destruct acquired as [aerr|].
  - apply acquire_refused in Hacq. destruct (negb (is_busy aerr)).
    + intros [= <- <-] k. by rewrite Hacq.
    + intros H k. rewrite <-Hacq. eapply IH; [|done]. intros k'. by rewrite Hacq.
  - apply acquire_slots in Hacq.
    destruct (attempt _ _ _ _ _ _ _ _) as [[w2 sh2] [[resp delivered] err]] eqn:Hatt.
    apply attempt_slots in Hatt; [|done|].
    2: { rewrite (Hacq (candidate_key (Selected decision))), decide_True by done.
         specialize (Hpos (candidate_key (Selected decision))). lia. }
    assert (∀ k, in_flight (health w2) k = in_flight (health w0) k) as Hw2.
    { intros k. rewrite (Hatt k), (Hacq k). case_decide; lia. }
    destruct err as [err|]; [|by intros [= <- <-]].
    destruct (as_runtime err) as [[[[re stage] class] dispatched]|]; [|by intros [= <- <-]].
    case_decide; [by intros [= <- <-]|]. destruct (_ || _); [by intros [= <- <-]|].
    intros Hl k. rewrite <-Hw2. eapply IH in Hl; [exact Hl|]. intros k'. simpl. by rewrite Hw2.
Qed.

Lemma route_slots req onDelta w w' r :
  (∀ k, 0 ≤ in_flight (health w) k) → route req onDelta w = (w', r) →
  ∀ k, in_flight (health w') k = in_flight (health w) k.
Proof.
  intros Hpos. unfold route. cbn [next].
  destruct (match c_profileProvider c with Some _ => _ | None => _ end) as [w1 profile] eqn:Hp.
  assert (health w1 = health w) as Hw1.
  { destruct (c_profileProvider c); by injection Hp as <- <-. }
  destruct (availableCandidates profile w1) as [w2 av] eqn:Hav.
  assert (health w2 = health w) as Hw2.
  { rewrite <-Hw1. unfold availableCandidates in Hav. destruct (c_candidates c); [by simplify_eq|].
    destruct (match c_modelStatsProvider c with Some _ => _ | None => _ end) as [w3 st] eqn:Hst.
    assert (health w3 = health w1) as Hw3.
    { destruct (c_modelStatsProvider c); by injection Hst as <- <-. }
    destruct st as [st|]; [|by simplify_eq]. rewrite Hhealth in Hav.
    destruct (next (others w3)) as [t w4] eqn:Hn. apply next_others in Hn. simplify_eq. congruence. }
  destruct av as [cs|e]; [|intros [= <- <-] k; by rewrite Hw2].
  intros H k. rewrite <-Hw2. eapply route_loop_slots, H. intros k'. by rewrite Hw2.
Qed.

End client.

(** * Theorems *)

Section theorems.
Context (c : Client) (env : Env) (req : ChatRequest).
Context (onDelta : option (nat → ChatDelta → option Error)).

(** C12: The client and the health store: along every request, whatever providers, recorders,
hooks and other clients do, each admitted call is closed by exactly one release or recorded
outcome of the same account, model and provider (those of the outcome the store is given)
before the next admission, and a provider is called only while its slot is held. The exception
is an outcome of that call which the store refuses to record: the request then ends with an
error. When no other client acts, cleanup has time to run and no count of calls in flight is
negative, the store is left with as many calls in flight at every provider as before the request, however it ends. *)
Theorem slots_closed w w' r :
  c_healthStore c = true → route c env req onDelta w = (w', r) →
  (∃ l, trace w' = trace w ++ l ∧ slots_ok None l ∧
     (∀ o, EOutcome o false ∈ l → is_ok r = false)) ∧
  ((∀ t s, env_others env t s = s) → (∀ t, env_cleanup env t = None) →
   (∀ k, 0 ≤ in_flight (health w) k) → ∀ k, in_flight (health w') k = in_flight (health w) k).
Proof.
  intros Hh H. split; [|intros Hq Hcl Hpos; by eapply route_slots].
  apply route_session in H as (cs & l & _ & Hl & Hs).
  exists l. split_and!; [done|by eapply session_slots|].
  intros o Ho. by eapply session_unrecorded.
Qed.

(** When no other client interferes and cleanup has time to run, a request leaves every
provider's calls in flight as they were, however it ends. *)
Theorem slots_returned w w' r :
  c_healthStore c = true → (∀ t s, env_others env t s = s) → (∀ t, env_cleanup env t = None) →
  (∀ k, 0 ≤ in_flight (health w) k) → route c env req onDelta w = (w', r) →
  ∀ k, in_flight (health w') k = in_flight (health w) k.
Proof. intros. by eapply route_slots. Qed.

Lemma calls_ok_split l :
  calls_ok c l →
  (∀ l1 x answer l2, l = l1 ++ ECall x answer :: l2 → existsb is_call l2 = true →
     ∃ err, answer = Some err ∧ may_fall_back c err) ∧
  (∀ l1 d l2, l = l1 ++ EDelta d :: l2 → existsb is_call l2 = false).
Proof.
  induction l as [|e l IH]; intros Hl; (split; [intros [|e1 l1] x answer l2|intros [|e1 l1] d l2]);
    try discriminate; intros [= -> ->]; simpl in *; [by apply Hl|..|by apply Hl|].
  - intros Hc. destruct IH as [IH _]; [|by eapply IH]. by destruct e1; try apply Hl.
  - destruct IH as [_ IH]; [|by eapply IH]. by destruct e1; try apply Hl.
Qed.

(** Fallback is disciplined: a second provider is called only after a failure of the first
that the policy lets fall back (with [FailClosed], one proved to precede dispatch and of a
retryable class), and no provider is called once part of an answer was delivered; the answer
returned is that of the last call. *)
Theorem fallback_disciplined w w' r :
  route c env req onDelta w = (w', r) →
  ∃ l, trace w' = trace w ++ l ∧
    (∀ l1 x answer l2, l = l1 ++ ECall x answer :: l2 → existsb is_call l2 = true →
       ∃ err, answer = Some err ∧
         (c_failClosed c = true →
            providerWasDispatched err = false ∧ class_of c err ∈ c_retryableErrorClass c)) ∧
    (∀ l1 d l2, l = l1 ++ EDelta d :: l2 → existsb is_call l2 = false) ∧
    (is_ok r = true → ∃ l1 x l2, l = l1 ++ ECall x None :: l2 ∧ existsb is_call l2 = false).
Proof.
  intros H. apply route_session in H as (cs & l & _ & Hl & Hs). exists l. split; [done|].
  pose proof (session_calls _ _ _ _ _ _ Hs) as Hc. apply calls_ok_split in Hc as [H1 H2].
  split_and!; [|done|].
  - intros l1 x answer l2 Heq Hex. destruct (H1 _ _ _ _ Heq Hex) as (err & -> & Hfall).
    exists err. split; [done|]. intros Hfc. unfold may_fall_back, allowsFallback in Hfall.
    rewrite Hfc in Hfall. simpl in Hfall. destruct (providerWasDispatched err); [done|].
    split; [done|]. by apply bool_decide_eq_true in Hfall.
  - intros Hok. rewrite Hok in Hs. by apply session_answer in Hs.
Qed.

(** A request calls each provider candidate at most once, only candidates that are
configured with a provider client, and at most [MaxAttempts] of them when that is set. *)
Theorem calls_bounded w w' r :
  route c env req onDelta w = (w', r) →
  ∃ l, trace w' = trace w ++ l ∧ NoDup (identity <$> called l) ∧
    (∀ y, y ∈ called l → identity y ∈ identity <$> routable c) ∧
    (0 < c_maxAttempts c → Z.of_nat (length (called l)) ≤ c_maxAttempts c).
Proof.
  intros H. apply route_session in H as (cs & l & Hids & Hl & Hs). exists l. split; [done|].
  apply session_bounded in Hs as (H1 & H2 & H3). split_and!; [done| |].
  - intros y Hy. rewrite <-Hids. by apply list_elem_of_fmap_2, H2.
  - intros Hm. unfold attemptLimit in H3. rewrite (proj2 (Z.leb_gt _ _) Hm) in H3.
    destruct (decide (Z.of_nat (length (routable c)) = 0)) as [Hz|].
    + assert (routable c = []) as Hr by (destruct (routable c); [done|simpl in Hz; lia]).
      assert (called l = []) as ->; [|simpl; lia].
      destruct (called l) as [|y l']; [done|]. exfalso.
      assert (identity y ∈ identity <$> routable c) as Hy.
      { rewrite <-Hids. apply list_elem_of_fmap_2, H2. set_solver. }
      rewrite Hr in Hy. by apply not_elem_of_nil in Hy.
    + lia.
Qed.

End theorems.
(** ** Witnesses

Two providers; the cheaper one is chosen first and cannot be reached, so the other one
answers. *)

Definition unreachable : Error := ErrForeign (mkForeign "connection refused" (Some false) None None None) [].
Definition sample_response : ChatResponse := mkChatResponse "hello" [] (mkUsage 12 3).

Definition failing_provider : ProviderClient :=
  mkProvider (λ _ _, (None, Some unreachable)) None None None.
Definition answering_provider : ProviderClient :=
  mkProvider (λ _ _, (Some sample_response, None)) None None None.

Definition sample_config : Config :=
  mkConfig (λ _, fixed_clock) sample_candidates
    (<["small" := failing_provider]> (<["large" := answering_provider]> ∅))
    None None None false None None true
    (mkFallback 2 true [ErrorClassUnknown]) None None None.

Definition sample_client : Client := NewClient sample_config.
Definition sample_env : Env := mkEnv (λ _, None) (λ _, None) (λ _, 1000) (λ _, 5) (λ _ s, s).
Definition sample_request : ChatRequest := mkChatRequest [] [] 0.
Definition sample_world : World :=
  mkWorld 0 (NewMemoryHealthStore (mkHealthPolicy 3 1000 8000)) [].

Definition sample_run : World * res Error (option ChatResponse) :=
  route sample_client sample_env sample_request None sample_world.

(** The trace of the run, as the aliases called and the slots opened and closed. *)
Definition sketch (e : Effect) : string :=
  match e with
  | EAcquire _ true => "acquire"
  | EAcquire _ false => "busy"
  | ERelease _ => "release"
  | EOutcome _ true => "outcome"
  | EOutcome _ false => "unrecorded"
  | ERoute _ => "route"
  | EHook _ => "hook"
  | ECall x _ => "call " +:+ Alias (Model x)
  | EDelta _ => "delta"
  end.

Lemma sample_run_sketch :
  sketch <$> trace sample_run.1 =
    ["acquire"; "call small"; "outcome"; "acquire"; "call large"; "outcome"] ∧
  is_ok sample_run.2 = true.
Proof. vm_compute. done. Qed.

Lemma slots_closed_witness :
  c_healthStore sample_client = true ∧
  (∃ l, trace sample_run.1 = trace sample_world ++ l ∧ slots_ok None l) ∧
  in_flight (health sample_run.1) "main|small|acme" = 0.
Proof.
  split; [reflexivity|].
  destruct (slots_closed sample_client sample_env sample_request None sample_world sample_run.1
    sample_run.2) as [(l & Hl & Hs & _) Hstore].
  { reflexivity. }
  { unfold sample_run. by destruct (route _ _ _ _ _). }
  assert (∀ k, in_flight (health sample_world) k = 0) as H0.
  { intros k. unfold in_flight, Breaker.entry_at. simpl. by rewrite lookup_empty. }
  split; [exists l; exact (conj Hl Hs)|]. rewrite <-(H0 "main|small|acme").
  apply Hstore; [done|done|intros k; by rewrite H0].
Defined.

Lemma slots_returned_witness :
  (∀ k, 0 ≤ in_flight (health sample_world) k) ∧
  in_flight (health sample_run.1) "main|small|acme" = 0.
Proof.
  assert (∀ k, in_flight (health sample_world) k = 0) as H0.
  { intros k. unfold in_flight, Breaker.entry_at. simpl. by rewrite lookup_empty. }
  split; [intros k; by rewrite H0|]. rewrite <-(H0 "main|small|acme").
  apply (slots_returned sample_client sample_env sample_request None sample_world _ sample_run.2);
    [reflexivity|done|done|intros k; by rewrite H0|]. unfold sample_run. by destruct (route _ _ _ _ _).
Defined.

Lemma fallback_disciplined_witness :
  is_ok sample_run.2 = true ∧
  ∃ l l1 x l2, trace sample_run.1 = l ∧ l = l1 ++ ECall x None :: l2 ∧ existsb is_call l2 = false.
Proof.
  split; [apply sample_run_sketch|].
  destruct (fallback_disciplined sample_client sample_env sample_request None sample_world
    sample_run.1 sample_run.2) as (l & Hl & _ & _ & Hok).
  { unfold sample_run. by destruct (route _ _ _ _ _). }
  destruct Hok as (l1 & x & l2 & Hx & Hc); [apply sample_run_sketch|].
  exists l, l1, x, l2. split; [exact Hl|]. split; [exact Hx|exact Hc].
Defined.

Lemma calls_bounded_witness :
  0 < c_maxAttempts sample_client ∧
  ∃ l, trace sample_run.1 = l ∧ Z.of_nat (length (called l)) ≤ 2.
Proof.
  split; [reflexivity|].
  destruct (calls_bounded sample_client sample_env sample_request None sample_world
    sample_run.1 sample_run.2) as (l & Hl & _ & _ & Hn).
  { unfold sample_run. by destruct (route _ _ _ _ _). }
  exists l. split; [exact Hl|]. apply Hn. reflexivity.
Defined.

End Client.
