(* ===== verification/MemorySearch.v ===== *)
(** memorykit: the terms of full-text recall ([src/memorykit/search_terms.go]).
Words are lower-case runs of letters and digits, Chinese and Japanese runs
become overlapping grams. The character tables of package [unicode] are
parameters. The gram index is proved equivalent to substring search on
arbitrary bytes. *)

From S2P Require Import Prelude GoUtf8.
#[local] Open Scope Z_scope.

Module Search.

(** [unicode.In(r, Han, Hiragana, Katakana)], [unicode.IsLetter],
[unicode.IsDigit] and [unicode.ToLower]. *)
Class UnicodeTables := {
  is_cjk : rune → bool;
  is_letter : rune → bool;
  is_digit : rune → bool;
  to_lower : rune → rune
}.

(** U+FFFD belongs to none of the three scripts. *)
Class UnicodeLaws (U : UnicodeTables) : Prop := {
  cjk_not_error : is_cjk RuneError = false
}.

Definition maxSearchWords : Z := 32.
Definition maxSearchGrams : Z := 64.

(** [strings.Contains] on the bytes. *)
Fixpoint is_prefix (needle hay : list Z) : bool :=
  match needle, hay with
  | [], _ => true
  | b :: needle, c :: hay => (b =? c) && is_prefix needle hay
  | _ :: _, [] => false
  end.

Fixpoint occurs (needle hay : list Z) : bool :=
  is_prefix needle hay || match hay with [] => false | _ :: hay => occurs needle hay end.

Definition Contains (s substr : string) : bool := occurs (byte_values substr) (byte_values s).

Section terms.
Context `{U : UnicodeTables}.

Definition ToLower (s : string) : string := runes_string (to_lower <$> string_runes s).

(** [add]; [seen] holds exactly the terms collected. *)
Definition add (terms : list string) (limit : Z) (term : string) : list string :=
  if decide (term ∈ terms ∨ limit ≤ Z.of_nat (length terms)) then terms else terms ++ [term].

(** The variables of [splitSearchTerms]. *)
Record Split := mkSplit {
  words : list string; grams : list string; word : list rune; cjk : list rune
}.
#[global] Instance eta_Split : Eta Split := λ s, mkSplit (words s) (grams s) (word s) (cjk s).

Definition flushWord (wordLimit : Z) (s : Split) : Split :=
  match word s with
  | [] => s
  | w => s <| words := add (words s) wordLimit (ToLower (runes_string w)) |> <| word := [] |>
  end.

(** The overlapping pairs [run[i:i+2]]. *)
Fixpoint pairs (run : list rune) : list string :=
  match run with
  | a :: ((b :: _) as rest) => runes_string [a; b] :: pairs rest
  | _ => []
  end.

Definition flushCJK (gramLimit : Z) (s : Split) : Split :=
  let gs := match cjk s with
            | [r] => add (grams s) gramLimit (runes_string [r])
            | _ => grams s
            end in
  s <| grams := foldl (λ gs g, add gs gramLimit g) gs (pairs (cjk s)) |> <| cjk := [] |>.

Definition split_rune (wordLimit gramLimit : Z) (s : Split) (r : rune) : Split :=
  if is_cjk r then let s := flushWord wordLimit s in s <| cjk := cjk s ++ [r] |>
  else if is_letter r || is_digit r
  then let s := flushCJK gramLimit s in s <| word := word s ++ [r] |>
  else flushCJK gramLimit (flushWord wordLimit s).

Definition splitSearchTerms (text : string) (wordLimit gramLimit : Z) : list string * list string :=
  let s := foldl (split_rune wordLimit gramLimit) (mkSplit [] [] [] []) (string_runes text) in
  let s := flushCJK gramLimit (flushWord wordLimit s) in
  (words s, grams s).

Definition SearchTerms (text : string) : list string * list string :=
  splitSearchTerms text maxSearchWords maxSearchGrams.

(** [flush] of [IndexGrams]: every rune of a run, and every pair. *)
Fixpoint index_run (run : list rune) (seen : gset string) : gset string :=
  match run with
  | [] => seen
  | r :: rest =>
      let seen := {[runes_string [r]]} ∪ seen in
      let seen := match rest with b :: _ => {[runes_string [r; b]]} ∪ seen | [] => seen end in
      index_run rest seen
  end.

Definition index_rune (s : list rune * gset string) (r : rune) : list rune * gset string :=
  if is_cjk r then (s.1 ++ [r], s.2) else ([], index_run s.1 s.2).

Definition IndexGrams (text : string) : list string :=
  let '(run, seen) := foldl index_rune ([], ∅) (string_runes text) in
  sort_slice str_lt (elements (index_run run seen)).

Definition CountSearchTermHits (key content : string) (words grams : list string) : Z :=
  let text := key +:+ " " +:+ content in
  let present := (splitSearchTerms text max_int64 0).1 in
  Z.of_nat (length (filter (λ w, w ∈ present) words) +
            length (filter (λ g, Contains text g = true) grams)).

End terms.

(** * Substrings *)

Lemma is_prefix_spec needle hay : is_prefix needle hay = true ↔ ∃ l, hay = needle ++ l.
Proof.
  revert hay. induction needle as [|b needle IH]; intros hay; simpl; [split; [by exists hay|done]|].
  destruct hay as [|c hay]; [split; [done|by intros [? ?]]|].
  rewrite andb_true_iff, Z.eqb_eq, IH. split.
  - intros [-> [l ->]]. by exists l.
  - intros [l [= -> ->]]. split; [done|by exists l].
Qed.

Lemma occurs_spec needle hay : occurs needle hay = true ↔ ∃ l1 l2, hay = l1 ++ needle ++ l2.
Proof.
  induction hay as [|c hay IH]; cbn [occurs]; rewrite orb_true_iff, is_prefix_spec.
  - split; [intros [[l H]|]; [by exists [], l|done]|]. intros ([|] & l2 & H); [left; by exists l2|done].
  - rewrite IH. split.
    + intros [[l H]|(l1 & l2 & ->)]; [by exists [], l|by exists (c :: l1), l2].
    + intros ([|c' l1] & l2 & H); [left; by exists l2|]. injection H as -> ->. right. by exists l1, l2.
Qed.

(** Consecutive elements of a list. *)
Definition within {A} (k l : list A) : Prop := ∃ p q, l = p ++ k ++ q.

Lemma within_app_l {A} (k l l' : list A) : within k l → within k (l ++ l').
Proof. intros (p & q & ->). exists p, (q ++ l'). by rewrite <-!app_assoc. Qed.

Lemma within_app_r {A} (k l l' : list A) : within k l' → within k (l ++ l').
Proof. intros (p & q & ->). exists (l ++ p), q. by rewrite <-!app_assoc. Qed.

(** Elements with a property are not found across one that lacks it. *)
Lemma within_split {A} (P : A → Prop) (k l l' : list A) :
  k ≠ [] → Forall P k → (∀ x, last l = Some x → ¬ P x) →
  within k (l ++ l') ↔ within k l ∨ within k l'.
Proof.
  intros Hne Hk Hl. split; [|intros [?|?]; [by apply within_app_l|by apply within_app_r]].
  intros (p & q & H). apply app_eq_inv in H as [(m & -> & H)|(m & -> & H)]; [|right; by exists m, q].
  symmetry in H. apply app_eq_inv in H as [(m' & Hm & _)|(m' & Hm & H)].
  - left. exists p, m'. by rewrite Hm.
  - destruct (decide (m = [])) as [->|Hm'].
    + right. exists [], q. by rewrite H, Hm.
    + destruct (exists_last Hm') as (m0 & x & ->). exfalso. apply (Hl x).
      { by rewrite app_assoc, last_snoc. }
      rewrite Hm, !Forall_app in Hk. destruct Hk as [[_ Hk] _]. by inversion Hk.
Qed.

(** * Grams *)

Section grams.
Context `{U : UnicodeTables}.

Definition gram (rs : list rune) : Prop :=
  (length rs = 1 ∨ length rs = 2)%nat ∧ Forall (λ r, is_cjk r = true) rs.

(** [g] encodes a gram found in [l]. *)
Definition gram_of (l : list rune) (g : string) : Prop :=
  ∃ rs, gram rs ∧ within rs l ∧ g = runes_string rs.

Lemma gram_of_nil g : ¬ gram_of [] g.
Proof.
  intros (rs & [Hlen _] & (p & q & H) & _). apply (f_equal length) in H.
  rewrite !length_app in H. simpl in H. lia.
Qed.

Lemma gram_of_app l l' g :
  (∀ x, last l = Some x → is_cjk x = false) → gram_of (l ++ l') g ↔ gram_of l g ∨ gram_of l' g.
Proof.
  intros Hl. unfold gram_of. split.
  - intros (rs & Hg & Hw & ->).
    apply (within_split (λ r, is_cjk r = true)) in Hw as [?|?]; [eauto|eauto|..].
    + intros ->. destruct Hg as [[]]; done.
    + apply Hg.
    + intros x Hx. by rewrite (Hl x).
  - intros [(rs & ? & ? & ->)|(rs & ? & ? & ->)]; exists rs; split_and!;
      [done|by apply within_app_l|done|done|by apply within_app_r|done].
Qed.

Lemma gram_of_app_tail l r g : is_cjk r = false → gram_of (l ++ [r]) g ↔ gram_of l g.
Proof.
  intros Hr. split; [|intros (rs & ? & ? & ->); exists rs; split_and!; [done|by apply within_app_l|done]].
  intros (rs & [Hlen Hcjk] & (p & q & H) & ->). destruct (decide (q = [])) as [->|Hq].
  - assert (rs ≠ []) as Hne by (intros ->; simpl in Hlen; lia).
    destruct (exists_last Hne) as (rs' & x & ->). rewrite app_nil_r, app_assoc in H.
    apply app_inj_tail in H as [_ <-]. apply Forall_app in Hcjk as [_ Hcjk]. inversion Hcjk. congruence.
  - destruct (exists_last Hq) as (q' & x & ->). rewrite !app_assoc in H. apply app_inj_tail in H as [-> _].
    exists rs. split_and!; [done|exists p, q'; by rewrite app_assoc|done].
Qed.

Lemma gram_of_cons r l g :
  is_cjk r = true →
  gram_of (r :: l) g ↔
    g = runes_string [r] ∨ (∃ b, head l = Some b ∧ is_cjk b = true ∧ g = runes_string [r; b]) ∨ gram_of l g.
Proof.
  intros Hr. split.
  - intros (rs & [Hlen Hcjk] & ([|x p] & q & H) & ->).
    + destruct rs as [|a [|b [|]]]; simpl in *; [lia|..|lia]; injection H as -> ->; [by left|].
      right. left. exists b. split_and!; [done| |done]. by inversion_clear Hcjk as [|?? _ H2]; inversion H2.
    + injection H as -> ->. right. right. exists rs. split_and!; [done|by exists p, q|done].
  - intros [->|[(b & Hb & Hbc & ->)|(rs & Hg & Hw & ->)]].
    + exists [r]. split_and!; [split; [by left|by repeat constructor]|by exists [], l|done].
    + destruct l as [|b' l]; [done|]. injection Hb as ->.
      exists [r; b]. split_and!; [split; [by right|by repeat constructor]|by exists [], l|done].
    + exists rs. split_and!; [done|by apply (within_app_r rs [r])|done].
Qed.

Lemma elem_index_run run seen g :
  Forall (λ r, is_cjk r = true) run → g ∈ index_run run seen ↔ g ∈ seen ∨ gram_of run g.
Proof.
  intros Hrun. revert seen. induction Hrun as [|r run Hr Hrun IH]; intros seen; cbn [index_run].
  { pose proof (gram_of_nil g). tauto. }
  rewrite IH, gram_of_cons by done. destruct run as [|b run]; simpl; [set_solver|].
  apply Forall_cons in Hrun as [Hb _]. rewrite !elem_of_union, !elem_of_singleton. naive_solver.
Qed.

(** The characters read so far: indexed ones and the current run. *)
Definition indexed (l : list rune) (s : list rune * gset string) : Prop :=
  ∃ l0, l = l0 ++ s.1 ∧ Forall (λ r, is_cjk r = true) s.1 ∧
    (∀ x, last l0 = Some x → is_cjk x = false) ∧ ∀ g, g ∈ s.2 ↔ gram_of l0 g.

Lemma index_rune_indexed l s r : indexed l s → indexed (l ++ [r]) (index_rune s r).
Proof.
  destruct s as [run seen]. intros (l0 & -> & Hrun & Hlast & Hseen). unfold index_rune. simpl in *.
  destruct (is_cjk r) eqn:Hr.
  - exists l0. rewrite <-app_assoc. split_and!; [done| |done|done]. simpl.
    apply Forall_app_2; [done|by repeat constructor].
  - exists ((l0 ++ run) ++ [r]). rewrite app_nil_r. split_and!; [done|constructor| |].
    + intros x. rewrite last_snoc. by intros [= <-].
    + intros g. simpl. rewrite elem_index_run, Hseen by done.
      rewrite <-(app_assoc l0), (gram_of_app l0), gram_of_app_tail by done. done.
Qed.

Lemma elem_IndexGrams text g : g ∈ IndexGrams text ↔ gram_of (string_runes text) g.
Proof.
  unfold IndexGrams.
  assert (∀ l l' s, indexed l' s → indexed (l' ++ l) (foldl index_rune s l)) as Hfold.
  { induction l as [|r l IH]; intros l' s Hs; simpl; [by rewrite app_nil_r|].
    replace (l' ++ r :: l) with ((l' ++ [r]) ++ l) by (by rewrite <-app_assoc).
    by apply IH, index_rune_indexed. }
  destruct (Hfold (string_runes text) [] ([], ∅)) as (l0 & Hl & Hrun & Hlast & Hseen).
  { exists []. split_and!; [done|constructor|done|]. intros g'. simpl.
    split; [set_solver|]. by intros ?%gram_of_nil. }
  destruct (foldl index_rune _ _) as [run seen]. simpl in *.
  by rewrite elem_of_sort_slice, elem_of_elements, elem_index_run, Hseen, Hl, gram_of_app.
Qed.

(** ** The grams of a query *)

Definition query_gram (g : string) : Prop :=
  ∃ rs, gram rs ∧ Forall (λ r, valid_rune r = true) rs ∧ g = runes_string rs.

Lemma elem_add g terms limit term : g ∈ add terms limit term → g ∈ terms ∨ g = term.
Proof. unfold add. case_decide; set_solver. Qed.

Lemma elem_fold_add g terms limit new :
  g ∈ foldl (λ gs g, add gs limit g) terms new → g ∈ terms ∨ g ∈ new.
Proof.
  revert terms. induction new as [|n new IH]; intros terms; simpl; [by left|].
  intros [[?| ->]%elem_add|?]%IH; set_solver.
Qed.

Lemma elem_pairs run g :
  g ∈ pairs run → ∃ a b, a ∈ run ∧ b ∈ run ∧ g = runes_string [a; b].
Proof.
  induction run as [|a run IH]; [set_solver|]. destruct run as [|b run]; [set_solver|].
  cbn [pairs]. intros [->|(x & y & ? & ? & ->)%IH]%elem_of_cons.
  - exists a, b. set_solver.
  - exists x, y. set_solver.
Qed.

Definition run_ok (run : list rune) : Prop :=
  Forall (λ r, is_cjk r = true ∧ valid_rune r = true) run.

Lemma run_gram rs : run_ok rs → (length rs = 1 ∨ length rs = 2)%nat → query_gram (runes_string rs).
Proof.
  intros Hrs Hlen. exists rs. split_and!; [split; [done|]|..|done]; eapply Forall_impl; naive_solver.
Qed.

Definition split_ok (s : Split) : Prop := (∀ g, g ∈ grams s → query_gram g) ∧ run_ok (cjk s).

Lemma flushWord_ok limit s : split_ok s → split_ok (flushWord limit s).
Proof. unfold flushWord. by destruct (word s). Qed.

Lemma flushCJK_ok limit s : split_ok s → split_ok (flushCJK limit s).
Proof.
  intros [Hg Hrun]. split; [|constructor]. intros g [H|H]%elem_fold_add.
  - destruct (cjk s) as [|r [|]]; [by apply Hg| |by apply Hg].
    apply elem_add in H as [?| ->]; [by apply Hg|]. apply run_gram; [done|by left].
  - apply elem_pairs in H as (a & b & Ha & Hb & ->). unfold run_ok in Hrun. rewrite Forall_forall in Hrun.
    apply run_gram; [|by right]. repeat constructor; by apply Hrun.
Qed.

Lemma split_rune_ok wl gl s r : valid_rune r = true → split_ok s → split_ok (split_rune wl gl s r).
Proof.
  intros Hv Hs. unfold split_rune. destruct (is_cjk r) eqn:Hr; [|destruct (_ || _)].
  - destruct (flushWord_ok wl s Hs) as [Hg Hrun]. split; [done|]. simpl.
    apply Forall_app_2; [done|by repeat constructor].
  - by destruct (flushCJK_ok gl s Hs).
  - by apply flushCJK_ok, flushWord_ok.
Qed.

Lemma SearchTerms_grams text g : g ∈ (SearchTerms text).2 → query_gram g.
Proof.
  unfold SearchTerms, splitSearchTerms. cbn [snd]. apply flushCJK_ok, flushWord_ok.
  assert (∀ l s, Forall (λ r, valid_rune r = true) l → split_ok s →
    split_ok (foldl (split_rune maxSearchWords maxSearchGrams) s l)) as Hfold.
  { induction l as [|r l IH]; intros s Hl Hs; [done|]. apply Forall_cons in Hl as [Hr Hl].
    by apply IH, split_rune_ok. }
  apply Hfold; [apply string_runes_valid|]. split; [set_solver|constructor].
Qed.

(** The gram index is exact: a gram of a recall text occurs as a substring of a memory's
text, whatever bytes that is made of, exactly when [IndexGrams] lists it for that text. *)
Theorem IndexGrams_exact `{!UnicodeLaws U} query text g :
  g ∈ (SearchTerms query).2 → Contains text g = true ↔ g ∈ IndexGrams text.
Proof.
  intros (rs & Hg & Hv & ->)%SearchTerms_grams. rewrite elem_IndexGrams.
  assert (RuneError ∉ rs) as He.
  { intros He. destruct Hg as [_ Hg]. rewrite Forall_forall in Hg.
    specialize (Hg _ He). by rewrite cjk_not_error in Hg. }
  assert (rs ≠ []) as Hne by (intros ->; destruct Hg as [[]]; done).
  unfold Contains. rewrite occurs_spec, byte_values_runes, runes_occur by (done || apply byte_values_bytes).
  split.
  - intros Hw. by exists rs.
  - intros (rs' & Hg' & Hw & Heq). assert (rs' = rs) as ->; [|done].
    rewrite <-(string_runes_string rs), Heq by done. symmetry. apply string_runes_string.
    destruct Hw as (p & q & Hw). pose proof (string_runes_valid text) as Hall.
    rewrite Hw, !Forall_app in Hall. apply Hall.
Qed.

(** ** Bounds *)

Definition terms_ok (limit : Z) (terms : list string) : Prop :=
  NoDup terms ∧ Z.of_nat (length terms) ≤ limit.

Lemma add_ok limit terms term : terms_ok limit terms → terms_ok limit (add terms limit term).
Proof.
  intros [Hn Hl]. unfold add. case_decide as H; [done|]. apply Decidable.not_or in H as [H1 H2]. split.
  - apply NoDup_app. split_and!; [done|set_solver|apply NoDup_singleton].
  - rewrite length_app. simpl. lia.
Qed.

Lemma fold_add_ok limit terms new :
  terms_ok limit terms → terms_ok limit (foldl (λ gs g, add gs limit g) terms new).
Proof. revert terms. induction new as [|n new IH]; intros terms H; [done|]. by apply IH, add_ok. Qed.

Definition bounded (wl gl : Z) (s : Split) : Prop := terms_ok wl (words s) ∧ terms_ok gl (grams s).

Lemma flush_bounded wl gl s :
  bounded wl gl s → bounded wl gl (flushWord wl s) ∧ bounded wl gl (flushCJK gl s).
Proof.
  intros [Hw Hg]. split.
  - unfold flushWord. destruct (word s); [done|]. split; [by apply add_ok|done].
  - split; [done|]. apply fold_add_ok. destruct (cjk s) as [|r [|]]; [done|by apply add_ok|done].
Qed.

(** A recall text gives at most 32 words and 64 grams, all distinct, however long it is. *)
Theorem SearchTerms_bounded text :
  let '(ws, gs) := SearchTerms text in
  (NoDup ws ∧ (length ws ≤ 32)%nat) ∧ NoDup gs ∧ (length gs ≤ 64)%nat.
Proof.
  assert (∀ l s, bounded maxSearchWords maxSearchGrams s →
    bounded maxSearchWords maxSearchGrams (foldl (split_rune maxSearchWords maxSearchGrams) s l)) as Hfold.
  { induction l as [|r l IH]; intros s Hs; [done|]. apply IH. unfold split_rune.
    destruct (flush_bounded _ _ s Hs) as [H1 H2].
    destruct (is_cjk r); [done|]. destruct (_ || _); [done|]. by apply flush_bounded. }
  unfold SearchTerms, splitSearchTerms.
  destruct (flush_bounded _ _ _ (Hfold (string_runes text) (mkSplit [] [] [] []) ltac:(by repeat constructor)))
    as [H _].
  apply flush_bounded in H as [_ [[Hw Hwl] [Hg Hgl]]].
  unfold maxSearchWords, maxSearchGrams in *. split; (split; [done|lia]).
Qed.

End grams.

(** A table with one ideograph. *)
Definition sample_tables : UnicodeTables :=
  {| is_cjk r := between 19968 r 40959; is_letter r := between 97 r 122;
     is_digit r := between 48 r 57; to_lower r := r |}.
Lemma sample_laws : UnicodeLaws sample_tables.
Proof. split. reflexivity. Qed.

Lemma IndexGrams_exact_witness :
  Contains (runes_string [97; 20013; 25991; 23383]) (runes_string [20013; 25991]) = true ↔
  runes_string [20013; 25991] ∈ @IndexGrams sample_tables (runes_string [97; 20013; 25991; 23383]).
Proof.
  apply (@IndexGrams_exact sample_tables sample_laws (runes_string [20013; 25991])).
  vm_compute. left.
Defined.

End Search.
