(* ===== verification/MemoryTypes.v ===== *)
(** memorykit: long-term memories, the requests about them and their validation
([src/memorykit/types.go], [errors.go], [validation.go], [store.go]).

An error that wraps a sentinel is that sentinel: the text added to it is
dropped. [uuid.Parse] is a parameter. *)

From Stdlib Require Import QArith.
From S2P Require Import Prelude Float64 GoUtf8.
#[local] Open Scope Z_scope.

(** A [float64] or [float32] that may be infinite or not a number. *)
Inductive number :=
| Num (q : Q)
| Inf (negative : bool)
| NaN.
#[global] Instance number_eq_dec : EqDecision number.
Proof. solve_decision. Defined.

(** IEEE comparison: false with a NaN. *)
Definition num_le (x y : number) : bool :=
  match x, y with
  | Num x, Num y => bool_decide (x <= y)%Q
  | NaN, _ | _, NaN => false
  | Inf true, _ | _, Inf false => true
  | Inf false, _ | _, Inf true => false
  end.
Definition num_eq (x y : number) : bool := num_le x y && num_le y x.
Definition is_finite (x : number) : bool := match x with Num _ => true | _ => false end.
(** The value of a finite number. *)
Definition num_value (x : number) : Q := match x with Num q => q | _ => 0%Q end.

Module Memories.

(** * Data ([types.go]) *)

Definition SubjectType := string.
Definition SubjectProject : SubjectType := "project".
Definition SubjectUser : SubjectType := "user".

Definition Kind := string.
Definition KindFact : Kind := "fact".
Definition KindDecision : Kind := "decision".
Definition KindConstraint : Kind := "constraint".
Definition KindLesson : Kind := "lesson".

Definition Status := string.
Definition StatusCandidate : Status := "candidate".
Definition StatusActive : Status := "active".
Definition StatusInactive : Status := "inactive".

Record Scope := mkScope {
  TenantID : string; sc_SubjectType : SubjectType; SubjectID : string
}.
#[global] Instance Scope_eq_dec : EqDecision Scope.
Proof. solve_decision. Defined.
#[global] Instance Scope_countable : Countable Scope.
Proof.
  refine (inj_countable' (λ s, (TenantID s, sc_SubjectType s, SubjectID s))
    (λ t, let '(a, b, c) := t in mkScope a b c) _). by intros [].
Defined.

Record Memory := mkMemory {
  m_ID : string; m_Key : string; m_Content : string; m_SourceAgentID : string;
  m_CreatedBy : string; m_IdempotencyKey : string;
  m_Scope : Scope;
  m_Kind : Kind;
  m_Status : Status;
  m_ValidFrom : Time; m_ValidUntil : Time;
  m_Importance : Z;
  m_Confidence : number;
  m_Version : Z;
  m_CreatedAt : Time; m_UpdatedAt : Time
}.
#[global] Instance eta_Memory : Eta Memory := λ m,
  mkMemory (m_ID m) (m_Key m) (m_Content m) (m_SourceAgentID m) (m_CreatedBy m) (m_IdempotencyKey m)
    (m_Scope m) (m_Kind m) (m_Status m) (m_ValidFrom m) (m_ValidUntil m) (m_Importance m)
    (m_Confidence m) (m_Version m) (m_CreatedAt m) (m_UpdatedAt m).
#[global] Instance Memory_eq_dec : EqDecision Memory.
Proof. solve_decision. Defined.

Record Source := mkSource { s_Kind : string; s_Ref : string; EvidenceHash : string }.
#[global] Instance Source_eq_dec : EqDecision Source.
Proof. solve_decision. Defined.

Definition RevisionAction := string.
Definition RevisionCreate : RevisionAction := "create".
Definition RevisionActivate : RevisionAction := "activate".
Definition RevisionCorrect : RevisionAction := "correct".
Definition RevisionSupersede : RevisionAction := "supersede".
Definition RevisionForget : RevisionAction := "forget".
Definition RevisionErase : RevisionAction := "erase".
Definition RevisionDismiss : RevisionAction := "dismiss".

Record Revision := mkRevision {
  r_MemoryID : string;
  r_Version : Z;
  r_Action : RevisionAction;
  r_Actor : string; r_Reason : string;
  Snapshot : Memory;
  ContentErased : bool;
  r_CreatedAt : Time
}.
#[global] Instance eta_Revision : Eta Revision := λ r,
  mkRevision (r_MemoryID r) (r_Version r) (r_Action r) (r_Actor r) (r_Reason r) (Snapshot r)
    (ContentErased r) (r_CreatedAt r).

Record Limits := mkLimits {
  l_Version : string;
  MaxKeyRunes : Z;
  MaxContentRunes : Z;
  MaxMetadataRunes : Z;
  MaxSourcesPerMemory : Z;
  MaxListItems : Z
}.

Record CreateRequest := mkCreate {
  cr_ID : string;
  cr_Scope : Scope;
  cr_Kind : Kind;
  cr_Key : string;
  cr_Status : Status;
  cr_Content : string;
  cr_ValidFrom : Time; cr_ValidUntil : Time;
  cr_Importance : Z;
  cr_Confidence : number;
  cr_SourceAgentID : string; cr_Actor : string; cr_Reason : string; cr_IdempotencyKey : string;
  cr_Sources : list Source;
  cr_Now : Time
}.
#[global] Instance eta_CreateRequest : Eta CreateRequest := λ r,
  mkCreate (cr_ID r) (cr_Scope r) (cr_Kind r) (cr_Key r) (cr_Status r) (cr_Content r) (cr_ValidFrom r)
    (cr_ValidUntil r) (cr_Importance r) (cr_Confidence r) (cr_SourceAgentID r) (cr_Actor r)
    (cr_Reason r) (cr_IdempotencyKey r) (cr_Sources r) (cr_Now r).

Record VersionedCommand := mkCommand {
  cm_Scope : Scope;
  cm_ID : string;
  ExpectedVersion : Z;
  cm_Actor : string; cm_Reason : string;
  cm_Now : Time
}.

Record CorrectRequest := mkCorrect {
  Command : VersionedCommand;
  co_Content : string;
  co_ValidFrom : Time; co_ValidUntil : Time;
  co_Importance : Z;
  co_Confidence : number;
  co_Sources : list Source
}.

Record ListQuery := mkListQuery {
  lq_Scope : Scope; lq_Kind : Kind; lq_Status : Status; lq_Key : string; lq_Limit : Z
}.

Record RevisionQuery := mkRevisionQuery {
  rq_Scope : Scope; rq_MemoryID : string; BeforeVersion : Z; rq_Limit : Z
}.

(** * Queries of the recall and embedding stores ([store.go]) *)

Record PendingEmbeddingQuery := mkPendingQuery { pe_ProfileID : string; pe_Limit : Z }.

Record EmbeddingInput := mkEmbeddingInput {
  ei_MemoryID : string; ei_Scope : Scope; ei_Content : string; ei_ContentHash : string; ei_Version : Z
}.

Record PutEmbeddingRequest := mkPutEmbedding {
  pu_MemoryID : string;
  pu_Scope : Scope;
  pu_ProfileID : string;
  pu_ContentHash : string;
  pu_Dimensions : Z;
  pu_Vector : list number;
  pu_EmbeddedAt : Time
}.

Definition Channel := string.
Definition ChannelExact : Channel := "exact".
Definition ChannelFullText : Channel := "full_text".
Definition ChannelVector : Channel := "vector".

Record Candidate := mkCandidate {
  c_Memory : Memory; c_Sources : list Source; c_Channel : Channel; Rank : Z; Similarity : number
}.
#[global] Instance eta_Candidate : Eta Candidate := λ c,
  mkCandidate (c_Memory c) (c_Sources c) (c_Channel c) (Rank c) (Similarity c).

Record CandidateQuery := mkCandidateQuery {
  q_Scope : Scope;
  q_Text : string;
  q_Keys : list string;
  q_Kinds : list Kind;
  QueryVector : list number;
  q_Now : Time;
  ExactLimit : Z;
  FullTextLimit : Z;
  VectorLimit : Z;
  MinVectorSimilarity : number;
  EmbeddingProfileID : string;
  EmbeddingDimensions : Z
}.
#[global] Instance eta_CandidateQuery : Eta CandidateQuery := λ q,
  mkCandidateQuery (q_Scope q) (q_Text q) (q_Keys q) (q_Kinds q) (QueryVector q) (q_Now q)
    (ExactLimit q) (FullTextLimit q) (VectorLimit q) (MinVectorSimilarity q) (EmbeddingProfileID q)
    (EmbeddingDimensions q).

Record CandidateSet := mkSet {
  Exact : list Candidate; FullText : list Candidate; Vector : list Candidate
}.

(** * Errors ([errors.go], [ChannelError] of [recall.go]) *)

Inductive Error :=
| ErrCtx (e : CtxErr)
| ErrInvalidScope
| ErrInvalidMemory
| ErrNotFound
| ErrConflict
| ErrNoExtractionJob
| ErrInvalidRecallResult
| ErrRecallDependency
| BackendError (op : string) (recoverable : bool) (err : Error)
| ChannelError (channel : Channel) (err : Error)
(** [errors.Join] of two errors. *)
| ErrJoined (err err' : Error)
| ErrForeign (text : string).
#[global] Instance Error_eq_dec : EqDecision Error.
Proof. solve_decision. Defined.

(** The first error of the unwrap chain of which [f] yields something ([errors.As]). *)
Fixpoint find_error {A} (f : Error → option A) (err : Error) : option A :=
  match f err with
  | Some a => Some a
  | None =>
      match err with
      | BackendError _ _ e | ChannelError _ e => find_error f e
      | ErrJoined e e' => match find_error f e with Some a => Some a | None => find_error f e' end
      | _ => None
      end
  end.

Definition IsRecoverable (err : Error) : bool :=
  match find_error (λ e, match e with BackendError _ r _ => Some r | _ => None end) err with
  | Some r => r
  | None => false
  end.

(** [errors.Is(err, target)] for a sentinel error. *)
Definition is_error (target err : Error) : bool :=
  bool_decide (is_Some (find_error (λ e, if decide (e = target) then Some () else None) err)).

(** * Validation ([validation.go]) *)

Definition RuneCountInString (s : string) : Z := Z.of_nat (length (string_runes s)).

(** The checks return an error or nothing. *)
Abbreviation Check := (res Error ()).

Definition check (ok : bool) (e : Error) : Check := if ok then Ok () else Err e.

Definition Scope_Validate (s : Scope) : Check :=
  let? _ := check (negb (bool_decide (Blank (TenantID s) ∨ Blank (SubjectID s)))) ErrInvalidScope in
  check (bool_decide (sc_SubjectType s = SubjectProject ∨ sc_SubjectType s = SubjectUser)) ErrInvalidScope.

Definition Limits_Validate (l : Limits) : Check :=
  check (negb (bool_decide (Blank (l_Version l)) || (MaxKeyRunes l <=? 0) || (MaxContentRunes l <=? 0) ||
    (MaxMetadataRunes l <=? 0) || (MaxSourcesPerMemory l <=? 0) || (MaxListItems l <=? 0)))
    ErrInvalidMemory.

Definition Kind_IsValid (k : Kind) : bool :=
  bool_decide (k = KindFact ∨ k = KindDecision ∨ k = KindConstraint ∨ k = KindLesson).

Definition Status_IsValid (s : Status) : bool :=
  bool_decide (s = StatusCandidate ∨ s = StatusActive ∨ s = StatusInactive).

Definition control (r : rune) : bool := (r <=? 31) || (r =? 127).

Definition validKey (key : string) (maxRunes : Z) : bool :=
  if bool_decide (key = "" ∨ key ≠ TrimSpace key) || (maxRunes <? RuneCountInString key) then false
  else negb (existsb control (string_runes key)).

Definition validContent (content : string) (maxRunes : Z) : bool :=
  negb (bool_decide (Blank content)) && negb (existsb (Z.eqb 0) (string_runes content)) &&
  (RuneCountInString content <=? maxRunes).

Definition validTimeRange (from until : Time) : bool := bool_decide (IsZero until ∨ After until from).

Definition validImportance (importance : Z) : bool := (0 <=? importance) && (importance <=? 100).

Definition validConfidence (confidence : number) : bool :=
  num_le (Num 0) confidence && num_le confidence (Num 1).

Definition validMetadata (value : string) (l : Limits) : bool :=
  RuneCountInString value <=? MaxMetadataRunes l.

(** The loop of [ValidateSources], with the identities seen. *)
Fixpoint check_sources (l : Limits) (seen : list (string * string)) (sources : list Source) : Check :=
  match sources with
  | [] => Ok ()
  | s :: rest =>
      let? _ := check (validMetadata (s_Kind s) l && validMetadata (s_Ref s) l &&
                       validMetadata (EvidenceHash s) l) ErrInvalidMemory in
      let? _ := check (negb (bool_decide ((s_Kind s, s_Ref s) ∈ seen))) ErrInvalidMemory in
      check_sources l ((s_Kind s, s_Ref s) :: seen) rest
  end.

Definition ValidateSources (sources : list Source) (l : Limits) : Check :=
  let? _ := Limits_Validate l in
  let? _ := check (Z.of_nat (length sources) <=? MaxSourcesPerMemory l) ErrInvalidMemory in
  check_sources l [] sources.

Section validation.
(** [uuid.Parse], as the canonical text of what it parsed. *)
Context (uuid_Parse : string → option string).

Definition ValidateMemoryID (id : string) : Check :=
  check (bool_decide (uuid_Parse id = Some id)) ErrInvalidMemory.

Definition ValidateCreateRequest (r : CreateRequest) (l : Limits) : Check :=
  let? _ := Limits_Validate l in
  let? _ := Scope_Validate (cr_Scope r) in
  let? _ := ValidateMemoryID (cr_ID r) in
  let? _ := check (Kind_IsValid (cr_Kind r) && Status_IsValid (cr_Status r) &&
    validKey (cr_Key r) (MaxKeyRunes l) && validContent (cr_Content r) (MaxContentRunes l) &&
    validTimeRange (cr_ValidFrom r) (cr_ValidUntil r) && validImportance (cr_Importance r) &&
    validConfidence (cr_Confidence r) &&
    validMetadata (cr_SourceAgentID r) l && validMetadata (cr_Actor r) l &&
    validMetadata (cr_Reason r) l && validMetadata (cr_IdempotencyKey r) l) ErrInvalidMemory in
  ValidateSources (cr_Sources r) l.

Definition ValidateCommand (c : VersionedCommand) (l : Limits) : Check :=
  let? _ := Limits_Validate l in
  let? _ := Scope_Validate (cm_Scope c) in
  let? _ := ValidateMemoryID (cm_ID c) in
  check ((0 <? ExpectedVersion c) && validMetadata (cm_Actor c) l && validMetadata (cm_Reason c) l)
    ErrInvalidMemory.

Definition ValidateCorrectRequest (r : CorrectRequest) (l : Limits) : Check :=
  let? _ := ValidateCommand (Command r) l in
  let? _ := check (validContent (co_Content r) (MaxContentRunes l) &&
    validTimeRange (co_ValidFrom r) (co_ValidUntil r) && validImportance (co_Importance r) &&
    validConfidence (co_Confidence r)) ErrInvalidMemory in
  ValidateSources (co_Sources r) l.

Definition ValidateListQuery (q : ListQuery) (l : Limits) : Check :=
  let? _ := Limits_Validate l in
  let? _ := Scope_Validate (lq_Scope q) in
  check (negb (bool_decide (lq_Kind q ≠ "") && negb (Kind_IsValid (lq_Kind q)) ||
    bool_decide (lq_Status q ≠ "") && negb (Status_IsValid (lq_Status q)) ||
    bool_decide (lq_Key q ≠ "") && negb (validKey (lq_Key q) (MaxKeyRunes l)) ||
    (lq_Limit q <=? 0) || (MaxListItems l <? lq_Limit q))) ErrInvalidMemory.

Definition ValidateRevisionQuery (q : RevisionQuery) (l : Limits) : Check :=
  let? _ := Limits_Validate l in
  let? _ := Scope_Validate (rq_Scope q) in
  let? _ := ValidateMemoryID (rq_MemoryID q) in
  check (negb ((BeforeVersion q <? 0) || (rq_Limit q <=? 0) || (MaxListItems l <? rq_Limit q)))
    ErrInvalidMemory.

Definition validEmbeddingMetadata (value : string) (l : Limits) : bool :=
  bool_decide (value ≠ "" ∧ value = TrimSpace value) && validMetadata value l &&
  negb (existsb control (string_runes value)).

(** Squares of [float32] values are exact in [float64], their sum is rounded. *)
Definition validVector (vector : list number) : bool :=
  forallb is_finite vector &&
  bool_decide (0 < foldl (λ squared v, fadd squared (num_value v * num_value v)) 0 vector)%Q.

Definition ValidatePendingEmbeddingQuery (q : PendingEmbeddingQuery) (l : Limits) : Check :=
  let? _ := Limits_Validate l in
  check (validEmbeddingMetadata (pe_ProfileID q) l && (0 <? pe_Limit q) && (pe_Limit q <=? MaxListItems l))
    ErrInvalidMemory.

Definition ValidatePutEmbeddingRequest (r : PutEmbeddingRequest) (l : Limits) : Check :=
  let? _ := Limits_Validate l in
  let? _ := Scope_Validate (pu_Scope r) in
  let? _ := ValidateMemoryID (pu_MemoryID r) in
  let? _ := check (validEmbeddingMetadata (pu_ProfileID r) l &&
    validEmbeddingMetadata (pu_ContentHash r) l &&
    (0 <? pu_Dimensions r) && (Z.of_nat (length (pu_Vector r)) =? pu_Dimensions r)) ErrInvalidMemory in
  check (validVector (pu_Vector r)) ErrInvalidMemory.

Definition ValidateCandidateQuery (q : CandidateQuery) (l : Limits) : Check :=
  let? _ := Limits_Validate l in
  let? _ := Scope_Validate (q_Scope q) in
  let limits := [ExactLimit q; FullTextLimit q; VectorLimit q] in
  let? _ := check (forallb (λ limit, (0 <=? limit) && (limit <=? MaxListItems l)) limits) ErrInvalidMemory in
  let? _ := check (existsb (λ limit, 0 <? limit) limits &&
    (RuneCountInString (q_Text q) <=? MaxContentRunes l) &&
    (Z.of_nat (length (q_Keys q)) <=? MaxListItems l)) ErrInvalidMemory in
  let? _ := check (bool_decide (Forall (λ key, ¬ Blank key) (q_Keys q) ∧ NoDup (q_Keys q))) ErrInvalidMemory in
  let? _ := check (forallb Kind_IsValid (q_Kinds q) && bool_decide (NoDup (q_Kinds q))) ErrInvalidMemory in
  if VectorLimit q =? 0 then
    check (bool_decide (QueryVector q = [] ∧ EmbeddingProfileID q = "") && (EmbeddingDimensions q =? 0) &&
      num_eq (MinVectorSimilarity q) (Num 0)) ErrInvalidMemory
  else
    let? _ := check (negb (bool_decide (Blank (EmbeddingProfileID q) ∨
        EmbeddingProfileID q ≠ TrimSpace (EmbeddingProfileID q))) &&
      (0 <? EmbeddingDimensions q) && (Z.of_nat (length (QueryVector q)) =? EmbeddingDimensions q) &&
      is_finite (MinVectorSimilarity q) &&
      num_le (Num 0) (MinVectorSimilarity q) && num_le (MinVectorSimilarity q) (Num 1)) ErrInvalidMemory in
    check (validVector (QueryVector q)) ErrInvalidMemory.

End validation.

End Memories.
