(* ===== verification/MemoryStore.v ===== *)
(** memorykit: the in-memory store of memories
([src/memorykit/memorystore/store.go]).

Every method holds the store's lock, so it is a function of the store. A
method asks [ctx.Err()] twice, on entry and under the lock: [ctx i] is the
answer to the [i]-th question. JSON encoding and SHA-256 are parameters. *)

From Stdlib Require Import QArith.
From S2P Require Import Prelude Float64 GoUtf8 MemorySearch MemoryTypes.
Import Search Memories.
#[local] Open Scope Z_scope.

Module MemStore.

Definition Digest := string.
(** The zero value of an array of 32 bytes. *)
Definition zero_digest : Digest := String.string_of_list_ascii (repeat (ascii_of_N 0) 32).

Record storedEmbedding := mkStored {
  contentHash : string; dimensions : Z; vector : list number
}.

Definition embeddingIdentity : Type := string * string.
Definition idempotencyIdentity : Type := Scope * string.

Record createRecord := mkRecord { cr_id : string; fingerprint : Digest; erased : bool }.

Record Store := mkStore {
  limits : Limits;
  memories : GoMap Memory;
  sources : GoMap (list Source);
  revisions : GoMap (list Revision);
  creates : gmap idempotencyIdentity createRecord;
  embeddings : gmap embeddingIdentity storedEmbedding
}.
#[global] Instance eta_Store : Eta Store := λ s,
  mkStore (limits s) (memories s) (sources s) (revisions s) (creates s) (embeddings s).

(** Lower-case hexadecimal, [%x]. *)
Definition hex_digit (n : N) : ascii :=
  ascii_of_N (if decide (n < 10)%N then 48 + n else 87 + n).
Fixpoint hex (s : string) : string :=
  match s with
  | EmptyString => ""
  | String c s => String (hex_digit (N_of_ascii c / 16)) (String (hex_digit (N_of_ascii c mod 16)) (hex s))
  end.

(** [math.Sqrt] of a number that is not negative: [v] brackets the root between integers so
large that rounding it rounds the root. *)
Definition fsqrt (q : Q) : Q :=
  if decide (q <= 0)%Q then 0%Q
  else
    let k := Z.max 0 (60 - ilog2 q `div` 2) in
    let scaled := (q * pow2 (2 * k))%Q in
    let m := Z.sqrt (Qround.Qfloor scaled) in
    let v := if decide (scaled == inject_Z (m * m))%Q then inject_Z m else (inject_Z m + (1 # 2))%Q in
    fl (v / pow2 k).

Definition copySources (l : list Source) : list Source := [] ++ l.

(** Products of [float32] values are exact in [float64], sums are rounded. *)
Definition dot_product (l r : list number) : Q :=
  foldl (λ total '(x, y), fadd total (num_value x * num_value y)) 0%Q (zip l r).

(** Both vectors passed [validVector]. *)
Definition cosineSimilarity (l r : list number) : option number :=
  if decide (l = [] ∨ length l ≠ length r) then None
  else
    let leftNorm := dot_product l l in
    let rightNorm := dot_product r r in
    if decide (leftNorm == 0 ∨ rightNorm == 0)%Q then None
    else
      let similarity := fdiv (dot_product l r) (fmul (fsqrt leftNorm) (fsqrt rightNorm)) in
      Some (Num (if decide (1 < similarity)%Q then 1%Q
                 else if decide (similarity < -1)%Q then (-1)%Q else similarity)).

(** Higher importance first, then the later update, then the ID. *)
Definition candidateMetadataLess (l r : Candidate) : Prop :=
  let l := c_Memory l in let r := c_Memory r in
  if decide (m_Importance l ≠ m_Importance r) then m_Importance r < m_Importance l
  else if decide (m_UpdatedAt l ≠ m_UpdatedAt r) then After (m_UpdatedAt l) (m_UpdatedAt r)
  else str_lt (m_ID l) (m_ID r).
#[global] Instance candidateMetadataLess_dec l r : Decision (candidateMetadataLess l r).
Proof. unfold candidateMetadataLess. repeat case_decide; apply _. Defined.

(** The [less] of the full-text channel, with [hits] the matched terms by memory. *)
Definition fullTextLess (hits : GoMap Z) (l r : Candidate) : Prop :=
  let n c := default 0 (hits !! m_ID (c_Memory c)) in
  if decide (n l ≠ n r) then n r < n l else candidateMetadataLess l r.
#[global] Instance fullTextLess_dec hits l r : Decision (fullTextLess hits l r).
Proof. unfold fullTextLess. case_decide; apply _. Defined.

(** The [less] of the vector channel; similarities are finite. *)
Definition vectorLess (l r : Candidate) : Prop :=
  if decide (¬ num_value (Similarity l) == num_value (Similarity r))%Q
  then (num_value (Similarity r) < num_value (Similarity l))%Q else candidateMetadataLess l r.
#[global] Instance vectorLess_dec l r : Decision (vectorLess l r).
Proof. unfold vectorLess. case_decide; apply _. Defined.

Definition rankCandidates (cs : list Candidate) (limit : Z) (channel : Channel) : list Candidate :=
  let cs := if limit <? Z.of_nat (length cs) then take (Z.to_nat limit) cs else cs in
  imap (λ i c, c <| c_Sources := copySources (c_Sources c) |> <| c_Channel := channel |>
                 <| Rank := Z.of_nat i + 1 |>) cs.

Definition sameConflictKey (a b : Memory) : bool :=
  bool_decide (m_Scope a = m_Scope b ∧ m_Kind a = m_Kind b ∧ m_Key a = m_Key b).

Definition appendRevisionLocked (m : Memory) (action : RevisionAction) (actor reason : string)
    (createdAt : Time) (erased : bool) (s : Store) : Store :=
  s <| revisions := <[m_ID m := default [] (revisions s !! m_ID m) ++
         [mkRevision (m_ID m) (m_Version m) action actor reason m erased createdAt]]> (revisions s) |>.

(** The memory a transition to inactive leaves. *)
Definition deactivated (m : Memory) (now : Time) : Memory :=
  m <| m_Status := StatusInactive |> <| m_Version := m_Version m + 1 |> <| m_UpdatedAt := now |>.

(** One memory of the range in [supersedeActiveLocked]. *)
Definition supersede_one (target : Memory) (excludeID actor reason : string) (now : Time)
    (s : Store) (entry : string * Memory) : Store :=
  let '(id, m) := entry in
  if decide (id = excludeID ∨ m_Status m ≠ StatusActive ∨ sameConflictKey m target = false) then s
  else
    let m := deactivated m now in
    appendRevisionLocked m RevisionSupersede actor reason now false
      (s <| memories := <[id := m]> (memories s) |>).

(** The order of the range does not matter: each step changes its own memory. *)
Definition supersedeActiveLocked (target : Memory) (excludeID actor reason : string) (now : Time)
    (s : Store) : Store :=
  foldl (supersede_one target excludeID actor reason now) s (map_to_list (memories s)).

Definition commandTargetLocked (s : Store) (c : VersionedCommand) : res Error Memory :=
  match memories s !! cm_ID c with
  | Some m =>
      if decide (m_Scope m ≠ cm_Scope c) then Err ErrNotFound
      else if decide (m_Version m ≠ ExpectedVersion c) then Err ErrConflict
      else Ok m
  | None => Err ErrNotFound
  end.

(** The questions and checks a method starts with. *)
Definition guarded (ctx : nat → Ctx) (v : res Error ()) : res Error () :=
  match ctx 0%nat with
  | Some e => Err (ErrCtx e)
  | None =>
      let? _ := v in
      match ctx 1%nat with Some e => Err (ErrCtx e) | None => Ok () end
  end.

(** A method that changes the store. *)
Definition locked {A} (ctx : nat → Ctx) (v : res Error ()) (s : Store)
    (body : Store * res Error A) : Store * res Error A :=
  match guarded ctx v with
  | Err e => (s, Err e)
  | Ok _ => body
  end.

Section store.
Context `{U : UnicodeTables}.
Context (uuid_Parse : string → option string).
(** [json.Marshal] of a request, which fails for a time it cannot represent; [sha256.Sum256]. *)
Context (Marshal : CreateRequest → option string) (Sum256 : string → Digest).

Definition New (l : Limits) : res Error Store :=
  let? _ := Limits_Validate l in Ok (mkStore l ∅ ∅ ∅ ∅ ∅).

Definition createFingerprint (r : CreateRequest) : res Error Digest :=
  match Marshal (r <| cr_Now := 0 |>) with
  | Some encoded => Ok (Sum256 encoded)
  | None => Err ErrInvalidMemory
  end.

(** The fingerprint [Create] computes: none without an idempotency key. *)
Definition request_fingerprint (r : CreateRequest) : res Error Digest :=
  if decide (cr_IdempotencyKey r = "") then Ok zero_digest else createFingerprint r.

Definition created (r : CreateRequest) : Memory :=
  mkMemory (cr_ID r) (cr_Key r) (cr_Content r) (cr_SourceAgentID r) (cr_Actor r) (cr_IdempotencyKey r)
    (cr_Scope r) (cr_Kind r) (cr_Status r) (cr_ValidFrom r) (cr_ValidUntil r) (cr_Importance r)
    (cr_Confidence r) 1 (cr_Now r) (cr_Now r).

(** A memory written with the revision that records it. *)
Definition commit (m : Memory) (action : RevisionAction) (actor reason : string) (now : Time)
    (erased : bool) (s : Store) : Store :=
  appendRevisionLocked m action actor reason now erased
    (s <| memories := <[m_ID m := m]> (memories s) |>).

(** What [Create] stores for a new memory. *)
Definition store_created (s : Store) (r : CreateRequest) (fp : Digest) : Store :=
  let m := created r in
  let s := if decide (m_Status m = StatusActive)
           then supersedeActiveLocked m (m_ID m) (cr_Actor r) (cr_Reason r) (cr_Now r) s else s in
  let s := s <| sources := <[m_ID m := copySources (cr_Sources r)]> (sources s) |> in
  let s := commit m RevisionCreate (cr_Actor r) (cr_Reason r) (cr_Now r) false s in
  if decide (cr_IdempotencyKey r = "") then s
  else s <| creates := <[(cr_Scope r, cr_IdempotencyKey r) := mkRecord (cr_ID r) fp false]> (creates s) |>.

(** [Create] under the lock. *)
Definition create_locked (s : Store) (r : CreateRequest) (fp : Digest) : Store * res Error Memory :=
  let previous := if decide (cr_IdempotencyKey r = "") then None
                  else creates s !! (cr_Scope r, cr_IdempotencyKey r) in
  match previous with
  | Some p =>
      match memories s !! cr_ID r with
      | Some current =>
          if decide (erased p = false ∧ cr_id p = cr_ID r ∧ fingerprint p = fp) then (s, Ok current)
          else (s, Err ErrConflict)
      | None => (s, Err ErrConflict)
      end
  | None =>
      match memories s !! cr_ID r with
      | Some _ => (s, Err ErrConflict)
      | None => (store_created s r fp, Ok (created r))
      end
  end.

Definition Create (ctx : nat → Ctx) (s : Store) (r : CreateRequest) : Store * res Error Memory :=
  let fp := let? _ := ValidateCreateRequest uuid_Parse r (limits s) in request_fingerprint r in
  locked ctx (let? _ := fp in Ok ()) s
    match fp with Ok fp => create_locked s r fp | Err e => (s, Err e) end.

Definition validateIdentity (scope : Scope) (id : string) : res Error () :=
  let? _ := Scope_Validate scope in ValidateMemoryID uuid_Parse id.

(** The memory of a scope. *)
Definition scoped (s : Store) (scope : Scope) (id : string) : res Error Memory :=
  match memories s !! id with
  | Some m => if decide (m_Scope m ≠ scope) then Err ErrNotFound else Ok m
  | None => Err ErrNotFound
  end.

Definition Get (ctx : nat → Ctx) (s : Store) (scope : Scope) (id : string) : res Error Memory :=
  let? _ := guarded ctx (validateIdentity scope id) in scoped s scope id.

Definition Sources (ctx : nat → Ctx) (s : Store) (scope : Scope) (id : string)
    : res Error (list Source) :=
  let? _ := guarded ctx (validateIdentity scope id) in
  let? _ := scoped s scope id in
  Ok (copySources (default [] (sources s !! id))).

(** [if len(result) > limit { result = result[:limit] }]. *)
Definition limit_to {A} (n : Z) (l : list A) : list A :=
  if n <? Z.of_nat (length l) then take (Z.to_nat n) l else l.

Definition list_matches (q : ListQuery) (m : Memory) : Prop :=
  m_Scope m = lq_Scope q ∧ (lq_Kind q = "" ∨ m_Kind m = lq_Kind q) ∧
  (lq_Status q = "" ∨ m_Status m = lq_Status q) ∧ (lq_Key q = "" ∨ m_Key m = lq_Key q).
#[global] Instance list_matches_dec q m : Decision (list_matches q m).
Proof. unfold list_matches. apply _. Defined.

(** The latest update first, then the ID. *)
Definition list_less (a b : Memory) : Prop :=
  if decide (m_UpdatedAt a = m_UpdatedAt b) then str_lt (m_ID a) (m_ID b)
  else After (m_UpdatedAt a) (m_UpdatedAt b).
#[global] Instance list_less_dec a b : Decision (list_less a b).
Proof. unfold list_less. case_decide; apply _. Defined.

Definition List (ctx : nat → Ctx) (s : Store) (q : ListQuery) : res Error (list Memory) :=
  let? _ := guarded ctx (ValidateListQuery q (limits s)) in
  Ok (limit_to (lq_Limit q)
        (sort_slice list_less (filter (list_matches q) (map_to_list (memories s)).*2))).

(** A memory that recall may return. *)
Definition visible (q : CandidateQuery) (m : Memory) : Prop :=
  m_Scope m = q_Scope q ∧ m_Status m = StatusActive ∧ ¬ Before (q_Now q) (m_ValidFrom m) ∧
  (IsZero (m_ValidUntil m) ∨ Before (q_Now q) (m_ValidUntil m)) ∧
  (q_Kinds q = [] ∨ m_Kind m ∈ q_Kinds q).
#[global] Instance visible_dec q m : Decision (visible q m).
Proof. unfold visible. apply _. Defined.

Definition hashMemoryContent (content : string) : string := hex (Sum256 content).

(** The embedding of a memory that matches its content, and its similarity to the query. *)
Definition vector_match (s : Store) (q : CandidateQuery) (entry : string * Memory) : option Candidate :=
  let '(id, m) := entry in
  match embeddings s !! (id, EmbeddingProfileID q) with
  | Some e =>
      if decide (dimensions e ≠ EmbeddingDimensions q ∨ contentHash e ≠ hashMemoryContent (m_Content m))
      then None
      else match cosineSimilarity (QueryVector q) (vector e) with
      | Some similarity =>
          if negb (num_le (MinVectorSimilarity q) similarity) then None
          else Some (mkCandidate m (copySources (default [] (sources s !! id))) "" 0 similarity)
      | None => None
      end
  | None => None
  end.

Definition plain_candidate (s : Store) (entry : string * Memory) : Candidate :=
  mkCandidate entry.2 (copySources (default [] (sources s !! entry.1))) "" 0 (Num 0).

(** The memories the loop of [SearchCandidates] looks at, and what it collects from them. *)
Definition found (s : Store) (q : CandidateQuery) : list (string * Memory) :=
  filter (λ e, visible q e.2) (map_to_list (memories s)).

Definition exact_candidates (s : Store) (q : CandidateQuery) : list Candidate :=
  if 0 <? ExactLimit q
  then plain_candidate s <$> filter (λ e, m_Key e.2 ∈ q_Keys q) (found s q) else [].

Definition term_hits (q : CandidateQuery) (m : Memory) : Z :=
  let '(words, grams) := SearchTerms (q_Text q) in
  CountSearchTermHits (m_Key m) (m_Content m) words grams.

Definition hitting (s : Store) (q : CandidateQuery) : list (string * Memory) :=
  if 0 <? FullTextLimit q then filter (λ e, 0 < term_hits q e.2) (found s q) else [].

(** [fullTextHits]. *)
Definition hits_by_id (s : Store) (q : CandidateQuery) : GoMap Z :=
  list_to_map ((λ e, (e.1, term_hits q e.2)) <$> hitting s q).

(** Memories that match more than half as many terms as the best one. *)
Definition full_text_candidates (s : Store) (q : CandidateQuery) : list Candidate :=
  let bestHits := foldr Z.max 0 ((λ e, term_hits q e.2) <$> hitting s q) in
  filter (λ c, bestHits < default 0 (hits_by_id s q !! m_ID (c_Memory c)) * 2)
    (plain_candidate s <$> hitting s q).

Definition vector_candidates (s : Store) (q : CandidateQuery) : list Candidate :=
  if 0 <? VectorLimit q then omap (vector_match s q) (found s q) else [].

(** [SearchCandidates] under the lock. *)
Definition search_locked (s : Store) (q : CandidateQuery) : CandidateSet :=
  mkSet
    (rankCandidates (sort_slice candidateMetadataLess (exact_candidates s q)) (ExactLimit q) ChannelExact)
    (rankCandidates (sort_slice (fullTextLess (hits_by_id s q)) (full_text_candidates s q))
       (FullTextLimit q) ChannelFullText)
    (rankCandidates (sort_slice vectorLess (vector_candidates s q)) (VectorLimit q) ChannelVector).

Definition SearchCandidates (ctx : nat → Ctx) (s : Store) (q : CandidateQuery) : res Error CandidateSet :=
  let? _ := guarded ctx (ValidateCandidateQuery q (limits s)) in Ok (search_locked s q).

(** A memory that still needs an embedding for a profile. *)
Definition pending_input (s : Store) (profile : string) (entry : string * Memory)
    : option EmbeddingInput :=
  let '(id, m) := entry in
  if decide (m_Status m ≠ StatusActive) then None
  else
    let hash := hashMemoryContent (m_Content m) in
    match embeddings s !! (id, profile) with
    | Some e => if decide (contentHash e = hash) then None
                else Some (mkEmbeddingInput id (m_Scope m) (m_Content m) hash (m_Version m))
    | None => Some (mkEmbeddingInput id (m_Scope m) (m_Content m) hash (m_Version m))
    end.

Definition updated_at (s : Store) (id : string) : Time :=
  match memories s !! id with Some m => m_UpdatedAt m | None => 0 end.

Definition PendingEmbeddings (ctx : nat → Ctx) (s : Store) (q : PendingEmbeddingQuery)
    : res Error (list EmbeddingInput) :=
  let? _ := guarded ctx (ValidatePendingEmbeddingQuery q (limits s)) in
  Ok (limit_to (pe_Limit q)
        (sort_slice (key_less time_id_lt (λ i, (updated_at s (ei_MemoryID i), ei_MemoryID i)))
           (omap (pending_input s (pe_ProfileID q)) (map_to_list (memories s))))).

Definition PutEmbedding (ctx : nat → Ctx) (s : Store) (r : PutEmbeddingRequest) : Store * res Error () :=
  locked ctx (ValidatePutEmbeddingRequest uuid_Parse r (limits s)) s
    match memories s !! pu_MemoryID r with
    | Some m =>
        if decide (m_Scope m ≠ pu_Scope r ∨ m_Status m ≠ StatusActive ∨
                   hashMemoryContent (m_Content m) ≠ pu_ContentHash r)
        then (s, Err ErrConflict)
        else (s <| embeddings := <[(pu_MemoryID r, pu_ProfileID r) :=
                     mkStored (pu_ContentHash r) (pu_Dimensions r) (pu_Vector r)]> (embeddings s) |>, Ok ())
    | None => (s, Err ErrConflict)
    end.

Definition activated (m : Memory) (now : Time) : Memory :=
  m <| m_Status := StatusActive |> <| m_Version := m_Version m + 1 |> <| m_UpdatedAt := now |>.

Definition Activate (ctx : nat → Ctx) (s : Store) (c : VersionedCommand) : Store * res Error Memory :=
  locked ctx (ValidateCommand uuid_Parse c (limits s)) s
    match commandTargetLocked s c with
    | Err e => (s, Err e)
    | Ok m =>
        if decide (m_Status m ≠ StatusCandidate) then (s, Err ErrConflict)
        else
          let s := supersedeActiveLocked m (m_ID m) (cm_Actor c) (cm_Reason c) (cm_Now c) s in
          let m := activated m (cm_Now c) in
          (commit m RevisionActivate (cm_Actor c) (cm_Reason c) (cm_Now c) false s, Ok m)
    end.

Definition corrected (m : Memory) (r : CorrectRequest) : Memory :=
  m <| m_Content := co_Content r |> <| m_ValidFrom := co_ValidFrom r |>
    <| m_ValidUntil := co_ValidUntil r |> <| m_Importance := co_Importance r |>
    <| m_Confidence := co_Confidence r |> <| m_Version := m_Version m + 1 |>
    <| m_UpdatedAt := cm_Now (Command r) |>.

Definition Correct (ctx : nat → Ctx) (s : Store) (r : CorrectRequest) : Store * res Error Memory :=
  let c := Command r in
  locked ctx (ValidateCorrectRequest uuid_Parse r (limits s)) s
    match commandTargetLocked s c with
    | Err e => (s, Err e)
    | Ok m =>
        let m := corrected m r in
        (commit m RevisionCorrect (cm_Actor c) (cm_Reason c) (cm_Now c) false
           (s <| sources := <[m_ID m := copySources (co_Sources r)]> (sources s) |>), Ok m)
    end.

Definition transitionInactive (ctx : nat → Ctx) (s : Store) (c : VersionedCommand)
    (requiredStatus : Status) (action : RevisionAction) : Store * res Error Memory :=
  locked ctx (ValidateCommand uuid_Parse c (limits s)) s
    match commandTargetLocked s c with
    | Err e => (s, Err e)
    | Ok m =>
        if decide (m_Status m ≠ requiredStatus) then (s, Err ErrConflict)
        else
          let m := deactivated m (cm_Now c) in
          (commit m action (cm_Actor c) (cm_Reason c) (cm_Now c) false s, Ok m)
    end.

Definition Dismiss (ctx : nat → Ctx) (s : Store) (c : VersionedCommand) : Store * res Error Memory :=
  transitionInactive ctx s c StatusCandidate RevisionDismiss.

Definition Forget (ctx : nat → Ctx) (s : Store) (c : VersionedCommand) : Store * res Error Memory :=
  transitionInactive ctx s c StatusActive RevisionForget.

(** The revisions of an erased memory. *)
Definition erase_revision (r : Revision) : Revision :=
  r <| Snapshot := (Snapshot r) <| m_Content := "" |> |> <| ContentErased := true |>.

Definition erase_record (id : string) (r : createRecord) : createRecord :=
  if decide (cr_id r = id) then mkRecord (cr_id r) zero_digest true else r.

Definition erased_memory (m : Memory) (now : Time) : Memory :=
  m <| m_Content := "" |> <| m_Status := StatusInactive |> <| m_Version := m_Version m + 1 |>
    <| m_UpdatedAt := now |>.

(** Everything else [Erase] removes about the memory [id]. *)
Definition erase_traces (id : string) (s : Store) : Store :=
  s <| sources := <[id := []]> (sources s) |>
    <| embeddings := filter (λ kv, kv.1.1 ≠ id) (embeddings s) |>
    <| creates := erase_record id <$> creates s |>
    <| revisions := alter (fmap erase_revision) id (revisions s) |>.

Definition Erase (ctx : nat → Ctx) (s : Store) (c : VersionedCommand) : Store * res Error () :=
  locked ctx (ValidateCommand uuid_Parse c (limits s)) s
    match commandTargetLocked s c with
    | Err e => (s, Err e)
    | Ok m =>
        let m := erased_memory m (cm_Now c) in
        (commit m RevisionErase (cm_Actor c) (cm_Reason c) (cm_Now c) true (erase_traces (m_ID m) s), Ok ())
    end.

(** [Revisions]: newest first. *)
Definition Revisions (ctx : nat → Ctx) (s : Store) (q : RevisionQuery) : res Error (list Revision) :=
  let? _ := guarded ctx (ValidateRevisionQuery uuid_Parse q (limits s)) in
  let? _ := scoped s (rq_Scope q) (rq_MemoryID q) in
  Ok (take (Z.to_nat (rq_Limit q))
        (filter (λ r, BeforeVersion q ≤ 0 ∨ r_Version r < BeforeVersion q)
           (reverse (default [] (revisions s !! rq_MemoryID q))))).

End store.

End MemStore.
