(* ===== verification/MemorySafety.v ===== *)
(** memorykit: what the memory store keeps true over any sequence of calls:
versions and revisions, one active memory per key, erasure, idempotent
creation, separation of scopes. *)

From Stdlib Require Import QArith.
From S2P Require Import Prelude Float64 GoUtf8 MemorySearch MemoryTypes MemoryStore.
Import Search Memories MemStore.
#[local] Open Scope Z_scope.

(** * Superseding *)

Section supersede.
Context (target : Memory) (excludeID actor reason : string) (now : Time).

(** The memories that give way to [target]. *)
Definition gives_way (id : string) (m : Memory) : Prop :=
  ¬ (id = excludeID ∨ m_Status m ≠ StatusActive ∨ sameConflictKey m target = false).
#[global] Instance gives_way_dec id m : Decision (gives_way id m).
Proof. unfold gives_way. apply _. Defined.

Definition supersede_revision (m : Memory) : Revision :=
  mkRevision (m_ID m) (m_Version m) RevisionSupersede actor reason m false now.

(** The memory and its revisions, when it gives way. *)
Definition superseded (s s' : Store) (id : string) (m : Memory) : Prop :=
  memories s' !! id = Some (deactivated m now) ∧
  revisions s' !! id = Some (default [] (revisions s !! id) ++ [supersede_revision (deactivated m now)]).

Definition same_rest (s s' : Store) : Prop :=
  limits s' = limits s ∧ sources s' = sources s ∧ creates s' = creates s ∧ embeddings s' = embeddings s.

Lemma supersede_fold l s :
  (∀ id m, (id, m) ∈ l → memories s !! id = Some m ∧ m_ID m = id) → NoDup l.*1 →
  let s' := foldl (supersede_one target excludeID actor reason now) s l in
  (∀ id m, (id, m) ∈ l → gives_way id m → superseded s s' id m) ∧
  (∀ id, (∀ m, (id, m) ∈ l → ¬ gives_way id m) →
     memories s' !! id = memories s !! id ∧ revisions s' !! id = revisions s !! id) ∧
  same_rest s s'.
Proof.
  revert s. induction l as [|[id0 m0] l IH]; intros s Hl Hnd; cbn [foldl fst].
  { unfold same_rest. split_and!; [set_solver|done..]. }
  rewrite fmap_cons in Hnd. apply NoDup_cons in Hnd as [Hid0 Hnd]. destruct (Hl id0 m0) as [Hm0 Hkey]; [set_solver|].
  set (s1 := supersede_one _ _ _ _ _ s (id0, m0)).
  assert ((gives_way id0 m0 → superseded s s1 id0 m0) ∧
    (∀ id, id ≠ id0 ∨ ¬ gives_way id0 m0 →
       memories s1 !! id = memories s !! id ∧ revisions s1 !! id = revisions s !! id) ∧
    same_rest s s1) as (H1 & H2 & H3).
  { unfold s1, supersede_one, gives_way, same_rest. destruct (decide _) as [Hc|Hc]; [split_and!; [tauto|done..]|]. split_and!; try done.
    - intros _. unfold superseded, appendRevisionLocked, supersede_revision.
      change (m_ID (deactivated m0 now)) with (m_ID m0). rewrite Hkey. simpl. by rewrite !lookup_insert_eq.
    - intros id [Hne|?]; [|tauto]. unfold appendRevisionLocked.
      change (m_ID (deactivated m0 now)) with (m_ID m0). rewrite Hkey. simpl. by rewrite !lookup_insert_ne. }
  clearbody s1.
  destruct (IH s1) as (I1 & I2 & I3); [|done|].
  { intros id m Hin. destruct (Hl id m) as [? ?]; [set_solver|].
    destruct (H2 id) as [-> _]; [|done]. left. intros ->. apply Hid0. rewrite list_elem_of_fmap.
    by exists (id0, m). }
  split_and!.
  - intros id m [[= -> ->]|Hin]%elem_of_cons Hg.
    + destruct (I2 id0) as [Hm Hr].
      { intros m Hin. exfalso. apply Hid0. rewrite list_elem_of_fmap. by exists (id0, m). }
      unfold superseded. rewrite Hm, Hr. by apply H1.
    + destruct (I1 id m Hin Hg) as [Hm Hr]. unfold superseded. rewrite Hm, Hr.
      destruct (H2 id) as [_ ->]; [|done]. left. intros ->. apply Hid0. rewrite list_elem_of_fmap.
      by exists (id0, m).
  - intros id Hn. destruct (I2 id) as [-> ->]; [intros m Hm; apply Hn; set_solver|].
    apply H2. destruct (decide (id = id0)) as [->|]; [right; apply Hn; set_solver|by left].
  - unfold same_rest in *. intuition congruence.
Qed.

Lemma supersede_spec s :
  (∀ id m, memories s !! id = Some m → m_ID m = id) →
  let s' := supersedeActiveLocked target excludeID actor reason now s in
  (∀ id m, memories s !! id = Some m → gives_way id m → superseded s s' id m) ∧
  (∀ id, (∀ m, memories s !! id = Some m → ¬ gives_way id m) →
     memories s' !! id = memories s !! id ∧ revisions s' !! id = revisions s !! id) ∧
  same_rest s s'.
Proof.
  intros Hid. destruct (supersede_fold (map_to_list (memories s)) s) as (H1 & H2 & H3).
  - intros id m Hin%elem_of_map_to_list. eauto.
  - apply NoDup_fst_map_to_list.
  - split_and!; [|intros id Hn; apply H2|done].
    + intros id m Hm. apply H1. by apply elem_of_map_to_list.
    + intros m Hm. apply Hn. by apply elem_of_map_to_list.
Qed.

End supersede.

(** * Changes of a memory *)

(** A memory with its revisions. *)
Definition view (s : Store) (id : string) : option (Memory * list Revision) :=
  (λ m, (m, default [] (revisions s !! id))) <$> memories s !! id.

Definition status_step (a b : Status) : Prop :=
  a = b ∨ b = StatusInactive ∨ (a = StatusCandidate ∧ b = StatusActive).

(** A write keeps the identity of a memory, counts its version up and moves its status along
the lifecycle. *)
Record next_version (m m' : Memory) : Prop := {
  nv_id : m_ID m' = m_ID m;
  nv_scope : m_Scope m' = m_Scope m;
  nv_kind : m_Kind m' = m_Kind m;
  nv_key : m_Key m' = m_Key m;
  nv_version : m_Version m' = m_Version m + 1;
  nv_status : status_step (m_Status m) (m_Status m')
}.

(** The revision that records a write. *)
Record records (m : Memory) (r : Revision) : Prop := {
  rec_id : r_MemoryID r = m_ID m;
  rec_version : r_Version r = m_Version m;
  rec_snapshot : Snapshot r = m;
  rec_erased : ContentErased r = true → m_Content m = ""
}.

(** The change of one memory under one call. *)
Inductive change (x : Memory * list Revision) : Memory * list Revision → Prop :=
| ch_same : change x x
| ch_write m' r : next_version x.1 m' → records m' r → change x (m', x.2 ++ [r])
| ch_erase m' r :
    next_version x.1 m' → records m' r → m_Content m' = "" → m_Status m' = StatusInactive →
    change x (m', (erase_revision <$> x.2) ++ [r]).

Definition keyed (s : Store) : Prop :=
  (∀ id m, memories s !! id = Some m → m_ID m = id) ∧
  (∀ id, memories s !! id = None → revisions s !! id = None).

Lemma view_memory s id x : view s id = Some x → memories s !! id = Some x.1.
Proof. unfold view. destruct (memories s !! id); [|done]. by intros [= <-]. Qed.

Lemma view_None s id : view s id = None ↔ memories s !! id = None.
Proof. unfold view. by destruct (memories s !! id). Qed.

Lemma view_same s s' id :
  memories s' !! id = memories s !! id → revisions s' !! id = revisions s !! id → view s' id = view s id.
Proof. unfold view. by intros -> ->. Qed.

Lemma supersede_view target excludeID actor reason now s id :
  keyed s →
  view (supersedeActiveLocked target excludeID actor reason now s) id =
  (λ x, if decide (gives_way target excludeID id x.1)
        then (deactivated x.1 now, x.2 ++ [supersede_revision actor reason now (deactivated x.1 now)])
        else x) <$> view s id.
Proof.
  intros [Hk _]. destruct (supersede_spec target excludeID actor reason now s Hk) as (H1 & H2 & _).
  unfold view at 2. destruct (memories s !! id) as [m|] eqn:Hm.
  - cbn [fmap option_fmap option_map fst]. destruct (decide (gives_way _ _ id m)) as [Hg|Hg].
    + destruct (H1 id m Hm Hg) as [Hm' Hr']. unfold view. by rewrite Hm', Hr'.
    + rewrite (view_same s); [unfold view; by rewrite Hm|..]; apply H2; intros m' Hm'; by simplify_eq.
  - apply view_None. destruct (H2 id) as [-> _]; [|done]. intros m Hm'. congruence.
Qed.

Lemma supersede_excluded target excludeID actor reason now s :
  keyed s →
  let s' := supersedeActiveLocked target excludeID actor reason now s in
  memories s' !! excludeID = memories s !! excludeID ∧ revisions s' !! excludeID = revisions s !! excludeID.
Proof.
  intros [Hk _]. destruct (supersede_spec target excludeID actor reason now s Hk) as (_ & H2 & _).
  apply H2. intros m _ Hg. apply Hg. by left.
Qed.

Lemma supersede_keyed target excludeID actor reason now s :
  keyed s → keyed (supersedeActiveLocked target excludeID actor reason now s).
Proof.
  intros Hk. pose proof (λ id, supersede_view target excludeID actor reason now s id Hk) as Hv.
  destruct (supersede_spec target excludeID actor reason now s (proj1 Hk)) as (_ & H2 & _).
  split.
  - intros id m Hm. specialize (Hv id). unfold view in Hv at 1. rewrite Hm in Hv.
    destruct (view s id) as [x|] eqn:Hx; [|done]. apply view_memory in Hx.
    apply Hk in Hx. cbn in Hv. injection Hv as Hv. destruct (decide _); [|by subst x].
    by injection Hv as -> _.
  - intros id Hm. apply view_None in Hm. rewrite Hv in Hm. destruct (view s id) eqn:Hx; [done|].
    apply view_None in Hx. destruct (H2 id) as [_ ->]; [congruence|]. by apply Hk.
Qed.

Lemma commit_view m action actor reason now er s id :
  view (commit m action actor reason now er s) id =
  if decide (id = m_ID m)
  then Some (m, default [] (revisions s !! id) ++ [mkRevision (m_ID m) (m_Version m) action actor reason m er now])
  else view s id.
Proof.
  unfold commit, appendRevisionLocked, view. simpl. case_decide as Hid.
  - subst id. by rewrite !lookup_insert_eq.
  - by rewrite !lookup_insert_ne by congruence.
Qed.

Lemma commit_keyed m action actor reason now er s :
  keyed s → keyed (commit m action actor reason now er s).
Proof.
  intros [H1 H2]. unfold commit, appendRevisionLocked, keyed. simpl. split; intros id.
  - intros m' [[<- <-]|[_ Hm]]%lookup_insert_Some; [done|by apply H1].
  - intros [Hm Hne]%lookup_insert_None. rewrite lookup_insert_ne by done. by apply H2.
Qed.

Definition create_revision (r : CreateRequest) : Revision :=
  mkRevision (cr_ID r) 1 RevisionCreate (cr_Actor r) (cr_Reason r) (created r) false (cr_Now r).

(** * Calls *)

Section calls.
Context `{U : UnicodeTables}.
Context (uuid_Parse : string → option string).
Context (Marshal : CreateRequest → option string) (Sum256 : string → Digest).

Inductive op :=
| OpCreate (ctx : nat → Ctx) (r : CreateRequest)
| OpPutEmbedding (ctx : nat → Ctx) (r : PutEmbeddingRequest)
| OpActivate (ctx : nat → Ctx) (c : VersionedCommand)
| OpCorrect (ctx : nat → Ctx) (r : CorrectRequest)
| OpDismiss (ctx : nat → Ctx) (c : VersionedCommand)
| OpForget (ctx : nat → Ctx) (c : VersionedCommand)
| OpErase (ctx : nat → Ctx) (c : VersionedCommand).

Definition outcome {A} (r : Store * res Error A) : Store * bool := (r.1, is_ok r.2).

Definition exec (s : Store) (o : op) : Store * bool :=
  match o with
  | OpCreate ctx r => outcome (Create uuid_Parse Marshal Sum256 ctx s r)
  | OpPutEmbedding ctx r => outcome (PutEmbedding uuid_Parse Sum256 ctx s r)
  | OpActivate ctx c => outcome (Activate uuid_Parse ctx s c)
  | OpCorrect ctx r => outcome (Correct uuid_Parse ctx s r)
  | OpDismiss ctx c => outcome (Dismiss uuid_Parse ctx s c)
  | OpForget ctx c => outcome (Forget uuid_Parse ctx s c)
  | OpErase ctx c => outcome (Erase uuid_Parse ctx s c)
  end.

Definition run (s : Store) (h : list op) : Store := foldl (λ s o, (exec s o).1) s h.

Definition empty (l : Limits) : Store := mkStore l ∅ ∅ ∅ ∅ ∅.

Definition target (s : Store) (c : VersionedCommand) (m : Memory) : Prop :=
  memories s !! cm_ID c = Some m ∧ m_Scope m = cm_Scope c ∧ m_Version m = ExpectedVersion c.

(** What a call that succeeds does to the store. *)
Inductive effect (s : Store) : op → Store → Prop :=
| eff_replay ctx r p m :
    cr_IdempotencyKey r ≠ "" → creates s !! (cr_Scope r, cr_IdempotencyKey r) = Some p →
    erased p = false → cr_id p = cr_ID r → memories s !! cr_ID r = Some m → effect s (OpCreate ctx r) s
| eff_create ctx r fp :
    memories s !! cr_ID r = None →
    (cr_IdempotencyKey r ≠ "" → creates s !! (cr_Scope r, cr_IdempotencyKey r) = None) →
    request_fingerprint Marshal Sum256 r = Ok fp →
    ValidateCreateRequest uuid_Parse r (limits s) = Ok () →
    effect s (OpCreate ctx r) (store_created s r fp)
| eff_put ctx r m :
    memories s !! pu_MemoryID r = Some m → m_Scope m = pu_Scope r → m_Status m = StatusActive →
    hashMemoryContent Sum256 (m_Content m) = pu_ContentHash r →
    effect s (OpPutEmbedding ctx r)
      (s <| embeddings := <[(pu_MemoryID r, pu_ProfileID r) :=
              mkStored (pu_ContentHash r) (pu_Dimensions r) (pu_Vector r)]> (embeddings s) |>)
| eff_activate ctx c m :
    target s c m → m_Status m = StatusCandidate →
    effect s (OpActivate ctx c)
      (commit (activated m (cm_Now c)) RevisionActivate (cm_Actor c) (cm_Reason c) (cm_Now c) false
         (supersedeActiveLocked m (m_ID m) (cm_Actor c) (cm_Reason c) (cm_Now c) s))
| eff_correct ctx r m :
    target s (Command r) m → ValidateCorrectRequest uuid_Parse r (limits s) = Ok () →
    effect s (OpCorrect ctx r)
      (commit (corrected m r) RevisionCorrect (cm_Actor (Command r)) (cm_Reason (Command r))
         (cm_Now (Command r)) false
         (s <| sources := <[m_ID m := copySources (co_Sources r)]> (sources s) |>))
| eff_dismiss ctx c m :
    target s c m → m_Status m = StatusCandidate →
    effect s (OpDismiss ctx c)
      (commit (deactivated m (cm_Now c)) RevisionDismiss (cm_Actor c) (cm_Reason c) (cm_Now c) false s)
| eff_forget ctx c m :
    target s c m → m_Status m = StatusActive →
    effect s (OpForget ctx c)
      (commit (deactivated m (cm_Now c)) RevisionForget (cm_Actor c) (cm_Reason c) (cm_Now c) false s)
| eff_erase ctx c m :
    target s c m →
    effect s (OpErase ctx c)
      (commit (erased_memory m (cm_Now c)) RevisionErase (cm_Actor c) (cm_Reason c) (cm_Now c) true
         (erase_traces (m_ID m) s)).

Lemma locked_outcome {A} ctx v s (body : Store * res Error A) (P : Store * bool → Prop) :
  P (s, false) → (v = Ok () → P (outcome body)) → P (outcome (locked ctx v s body)).
Proof.
  intros Hf Hb. unfold locked, guarded. destruct (ctx 0%nat); [done|].
  destruct v as [[]|e]; [|done]. cbn [res_bind]. destruct (ctx 1%nat); [done|]. by apply Hb.
Qed.

Lemma target_cases s c :
  match commandTargetLocked s c with Ok m => target s c m | Err _ => True end.
Proof.
  unfold commandTargetLocked, target. destruct (memories s !! cm_ID c) as [m|]; [|done].
  destruct (decide (m_Scope m ≠ _)) as [|H1]; [done|]. destruct (decide (m_Version m ≠ _)) as [|H2]; [done|].
  apply dec_stable in H1, H2. done.
Qed.

(** A call fails and changes nothing, or has its effect. *)
Lemma exec_effect s o :
  exec s o = (s, false) ∨ ∃ s', exec s o = (s', true) ∧ effect s o s'.
Proof.
  destruct o as [ctx r|ctx r|ctx c|ctx r|ctx c|ctx c|ctx c]; cbn [exec];
    unfold Create, PutEmbedding, Activate, Correct, Dismiss, Forget, transitionInactive, Erase;
    apply locked_outcome; try (by left); intros Hv;
    try (pose proof (target_cases s c) as Ht; destruct (commandTargetLocked s c) as [m|e]; [|by left]);
    try (pose proof (target_cases s (Command r)) as Ht;
         destruct (commandTargetLocked s (Command r)) as [m|e]; [|by left]).
  - destruct (ValidateCreateRequest _ _ _) as [[]|] eqn:Hval; [|done]. cbn [res_bind] in *.
    destruct (request_fingerprint Marshal Sum256 r) as [fp|] eqn:Hfp; [|done].
    unfold create_locked. destruct (decide (cr_IdempotencyKey r = "")) as [Hk|Hk].
    + destruct (memories s !! cr_ID r) eqn:Hm; [by left|]. right. eexists. split; [done|].
      by eapply eff_create.
    + destruct (creates s !! _) as [p|] eqn:Hp; destruct (memories s !! cr_ID r) as [m|] eqn:Hm; try by left.
      * destruct (decide _) as [(He & Hid & _)|]; [|by left]. right. eexists. split; [done|].
        by eapply eff_replay.
      * right. eexists. split; [done|]. by eapply eff_create.
  - destruct (memories s !! pu_MemoryID r) as [m|] eqn:Hm; [|by left].
    destruct (decide _) as [|Hc]; [by left|]. apply Decidable.not_or in Hc as [H1 Hc].
    apply Decidable.not_or in Hc as [H2 H3]. apply dec_stable in H1, H2, H3.
    right. eexists. split; [done|]. by eapply eff_put.
  - destruct (decide _) as [|Hs]; [by left|]. apply dec_stable in Hs.
    right. eexists. split; [done|]. by apply eff_activate.
  - right. eexists. split; [done|]. by apply (eff_correct s ctx r m).
  - destruct (decide _) as [|Hs]; [by left|]. apply dec_stable in Hs.
    right. eexists. split; [done|]. by apply eff_dismiss.
  - destruct (decide _) as [|Hs]; [by left|]. apply dec_stable in Hs.
    right. eexists. split; [done|]. by apply eff_forget.
  - right. eexists. split; [done|]. by apply (eff_erase s ctx c m).
Qed.

Definition evolves (o : op) (s s' : Store) (id : string) : Prop :=
  match view s id with
  | Some x => ∃ x', view s' id = Some x' ∧ change x x'
  | None => view s' id = None ∨
      ∃ ctx r, o = OpCreate ctx r ∧ cr_ID r = id ∧ view s' id = Some (created r, [create_revision r])
  end.

Lemma evolves_same o s s' id : view s' id = view s id → evolves o s s' id.
Proof. unfold evolves. intros ->. destruct (view s id) as [x|]; [exists x; split; [done|constructor]|by left]. Qed.

(** One memory gives way to another. *)
Lemma supersede_change target excludeID actor reason now s id x :
  keyed s → view s id = Some x →
  ∃ x', view (supersedeActiveLocked target excludeID actor reason now s) id = Some x' ∧ change x x'.
Proof.
  intros Hk Hx. rewrite supersede_view, Hx by done. cbn [fmap option_fmap option_map].
  eexists. split; [done|]. destruct (decide _); [|constructor]. apply ch_write; split; try done.
  by right; left.
Qed.

(** Committing the next version of a memory, after changes to others. *)
Lemma commit_evolves o s s0 m m' action actor reason now er id :
  memories s !! m_ID m = Some m → next_version m m' → (er = true → m_Content m' = "") →
  revisions s0 !! m_ID m = revisions s !! m_ID m → (id ≠ m_ID m → evolves o s s0 id) →
  evolves o s (commit m' action actor reason now er s0) id.
Proof.
  intros Hm Hn Her Hr Hother. pose proof (nv_id _ _ Hn) as Hid.
  unfold evolves in *. rewrite commit_view, Hid.
  destruct (decide (id = m_ID m)) as [->|Hne]; [|by apply Hother].
  unfold view. rewrite Hm. cbn [fmap option_fmap option_map]. eexists. split; [done|]. rewrite Hr.
  by apply ch_write.
Qed.

Lemma target_memory s c m : keyed s → target s c m → memories s !! m_ID m = Some m ∧ cm_ID c = m_ID m.
Proof. intros [Hk _] (Hm & _). pose proof (Hk _ _ Hm) as Hid. by rewrite Hid. Qed.

Lemma activated_next m now : m_Status m = StatusCandidate → next_version m (activated m now).
Proof. intros Hs. split; try done. right; right. by rewrite Hs. Qed.

Lemma deactivated_next m now : next_version m (deactivated m now).
Proof. split; try done. by right; left. Qed.

Lemma corrected_next m r : next_version m (corrected m r).
Proof. split; try done. by left. Qed.

Lemma erased_next m now : next_version m (erased_memory m now).
Proof. split; try done. by right; left. Qed.

Lemma supersede_evolves o target excludeID actor reason now s id :
  keyed s → evolves o s (supersedeActiveLocked target excludeID actor reason now s) id.
Proof.
  intros Hk. unfold evolves. destruct (view s id) as [x|] eqn:Hx; [by apply supersede_change|].
  left. by rewrite supersede_view, Hx.
Qed.

(** The memories another one gives way to, when [Create] stores it. *)
Definition made_room (s : Store) (r : CreateRequest) : Store :=
  if decide (m_Status (created r) = StatusActive)
  then supersedeActiveLocked (created r) (m_ID (created r)) (cr_Actor r) (cr_Reason r) (cr_Now r) s else s.

Lemma store_created_view s r fp id :
  view (store_created s r fp) id =
  if decide (id = cr_ID r)
  then Some (created r, default [] (revisions (made_room s r) !! id) ++ [create_revision r])
  else view (made_room s r) id.
Proof.
  unfold store_created. fold (made_room s r). set (s1 := made_room s r). clearbody s1.
  destruct (decide (cr_IdempotencyKey r = ""));
    exact (commit_view (created r) RevisionCreate (cr_Actor r) (cr_Reason r) (cr_Now r) false
      (s1 <| sources := <[cr_ID r := copySources (cr_Sources r)]> (sources s1) |>) id).
Qed.

Lemma made_room_excluded s r :
  keyed s → memories (made_room s r) !! cr_ID r = memories s !! cr_ID r ∧
            revisions (made_room s r) !! cr_ID r = revisions s !! cr_ID r.
Proof. intros Hk. unfold made_room. destruct (decide _); [|done].
  by apply (supersede_excluded (created r) (cr_ID r)).
Qed.

Lemma made_room_evolves o s r id : keyed s → evolves o s (made_room s r) id.
Proof.
  intros Hk. unfold made_room. destruct (decide _); [by apply supersede_evolves|by apply evolves_same].
Qed.

Lemma effect_evolves s o s' id : keyed s → effect s o s' → evolves o s s' id.
Proof.
  intros Hk He. destruct He as [ctx r p m|ctx r fp Hm _ _|ctx r m|ctx c m Ht Hst|ctx r m Ht|ctx c m Ht Hst|
    ctx c m Ht Hst|ctx c m Ht]; try (by apply evolves_same);
    try (pose proof (target_memory s c m Hk Ht) as [Htm _]).
  - unfold evolves. rewrite store_created_view. destruct (decide (id = cr_ID r)) as [->|Hne].
    + rewrite (proj2 (view_None s _) Hm). right. exists ctx, r. split_and!; [done|done|].
      destruct (made_room_excluded s r Hk) as [_ ->]. by rewrite (proj2 Hk) by done.
    + pose proof (made_room_evolves (OpCreate ctx r) s r id Hk) as He. unfold evolves in He.
      destruct (view s id); [done|]. left. destruct He as [|(ctx' & r' & [= -> ->] & ? & _)]; done.
  - apply commit_evolves with (m := m); [done|by apply activated_next|done|by apply supersede_excluded|].
    intros _. by apply supersede_evolves.
  - destruct (target_memory s _ m Hk Ht) as [Htm _].
    apply commit_evolves with (m := m); [done|by apply corrected_next|done|done|]. intros _. by apply evolves_same.
  - apply commit_evolves with (m := m); [done|by apply deactivated_next|done|done|]. intros _. by apply evolves_same.
  - apply commit_evolves with (m := m); [done|by apply deactivated_next|done|done|]. intros _. by apply evolves_same.
  - unfold evolves. rewrite commit_view. change (m_ID (erased_memory m (cm_Now c))) with (m_ID m).
    destruct (decide (id = m_ID m)) as [->|Hne].
    + unfold view at 1. rewrite Htm. cbn [fmap option_fmap option_map]. eexists. split; [done|].
      unfold erase_traces. simpl. rewrite lookup_alter_eq.
      replace (default [] (fmap erase_revision <$> revisions s !! m_ID m))
        with (erase_revision <$> default [] (revisions s !! m_ID m)) by (by destruct (revisions s !! m_ID m)).
      by apply ch_erase; [apply erased_next|..].
    + apply evolves_same, view_same; [done|]. unfold erase_traces. simpl. by rewrite lookup_alter_ne.
Qed.

Lemma effect_keyed s o s' : keyed s → effect s o s' → keyed s'.
Proof.
  intros Hk He. destruct He as [ctx r p m|ctx r fp Hm _ _|ctx r m|ctx c m Ht Hst|ctx r m Ht|ctx c m Ht Hst|
    ctx c m Ht Hst|ctx c m Ht]; try done; try (apply commit_keyed; try done).
  - assert (keyed (made_room s r)) as Hk1.
    { unfold made_room. destruct (decide _); [by apply supersede_keyed|done]. }
    unfold store_created. fold (made_room s r). destruct (decide (cr_IdempotencyKey r = ""));
      [by apply commit_keyed|]. by apply (commit_keyed (created r) RevisionCreate (cr_Actor r) (cr_Reason r)
        (cr_Now r) false (made_room s r)) in Hk1.
  - by apply supersede_keyed.
  - destruct Hk as [H1 H2]. split; [done|]. intros id Hid. unfold erase_traces. simpl.
    destruct (decide (m_ID m = id)) as [->|]; [rewrite lookup_alter_eq|rewrite lookup_alter_ne by done];
      by rewrite H2.
Qed.

Lemma run_keyed s h : keyed s → keyed (run s h).
Proof.
  revert s. induction h as [|o h IH]; intros s Hk; [done|]. apply IH.
  destruct (exec_effect s o) as [->|(s' & -> & He)]; [done|]. by eapply effect_keyed.
Qed.

Lemma empty_keyed l : keyed (empty l).
Proof. split; simpl; intros id; [intros m Hm; by rewrite lookup_empty in Hm|intros _; apply lookup_empty]. Qed.

(** ** Versions and revisions *)

Record history_ok (id : string) (x : Memory * list Revision) : Prop := {
  h_id : m_ID x.1 = id;
  h_length : Z.of_nat (length x.2) = m_Version x.1;
  h_last : ∃ r, last x.2 = Some r ∧ Snapshot r = x.1;
  h_each i r : x.2 !! i = Some r →
    r_MemoryID r = id ∧ r_Version r = Z.of_nat i + 1 ∧ m_ID (Snapshot r) = id ∧
    m_Scope (Snapshot r) = m_Scope x.1 ∧ m_Kind (Snapshot r) = m_Kind x.1 ∧
    m_Key (Snapshot r) = m_Key x.1 ∧ (ContentErased r = true → m_Content (Snapshot r) = "")
}.

Lemma history_snoc id m revs m' r :
  m_ID m = id → Z.of_nat (length revs) = m_Version m → next_version m m' → records m' r →
  (∀ i r, revs !! i = Some r →
    r_MemoryID r = id ∧ r_Version r = Z.of_nat i + 1 ∧ m_ID (Snapshot r) = id ∧
    m_Scope (Snapshot r) = m_Scope m ∧ m_Kind (Snapshot r) = m_Kind m ∧
    m_Key (Snapshot r) = m_Key m ∧ (ContentErased r = true → m_Content (Snapshot r) = "")) →
  history_ok id (m', revs ++ [r]).
Proof.
  intros Hid Hlen [N1 N2 N3 N4 N5 _] [R1 R2 R3 R4] Heach. split; simpl.
  - congruence.
  - rewrite length_app. simpl. lia.
  - exists r. by rewrite last_snoc.
  - intros i r' [Hr|[Hle Hr]]%lookup_app_Some.
    + destruct (Heach i r' Hr) as (? & ? & ? & ? & ? & ? & ?). split_and!; try done; congruence.
    + assert (i = length revs) as ->.
      { apply list_lookup_singleton_Some in Hr as [? _]. lia. }
      rewrite Nat.sub_diag in Hr. injection Hr as <-. rewrite R3. split_and!; first [congruence|lia|done].
Qed.

Lemma change_history id x x' : change x x' → history_ok id x → history_ok id x'.
Proof.
  intros Hc [Hid Hlen Hlast Heach]. destruct x as [m revs]. simpl in *.
  destruct Hc as [|m' r Hn Hr|m' r Hn Hr _ _]; [done| |]; simpl in *.
  - by eapply history_snoc.
  - eapply history_snoc; [done|by rewrite length_fmap|done|done|].
    intros i r'. rewrite list_lookup_fmap. destruct (revs !! i) as [r0|] eqn:H0; [|done].
    intros [= <-]. destruct (Heach i r0 H0) as (? & ? & ? & ? & ? & ? & ?). simpl. split_and!; done.
Qed.

Lemma created_history r : history_ok (cr_ID r) (created r, [create_revision r]).
Proof.
  split; simpl; [done|done|by eexists|]. intros i r' [-> <-]%list_lookup_singleton_Some.
  split_and!; done.
Qed.

(** ** One active memory per key *)

Definition active_unique (s : Store) : Prop :=
  ∀ id1 id2 m1 m2, memories s !! id1 = Some m1 → memories s !! id2 = Some m2 →
    m_Status m1 = StatusActive → m_Status m2 = StatusActive → sameConflictKey m1 m2 = true → id1 = id2.

Lemma same_key_sym a b : sameConflictKey a b = sameConflictKey b a.
Proof. unfold sameConflictKey. apply bool_decide_ext. naive_solver. Qed.

Lemma commit_unique m action actor reason now er s :
  active_unique s →
  (m_Status m = StatusActive → ∀ id m2, memories s !! id = Some m2 → id ≠ m_ID m →
     m_Status m2 = StatusActive → sameConflictKey m2 m = false) →
  active_unique (commit m action actor reason now er s).
Proof.
  intros Hu Hm id1 id2 m1 m2. unfold commit, appendRevisionLocked. simpl.
  intros [[<- <-]|[N1 H1]]%lookup_insert_Some [[<- <-]|[N2 H2]]%lookup_insert_Some A1 A2 Hk.
  - done.
  - rewrite same_key_sym, (Hm A1 id2 m2 H2) in Hk; [done|congruence|done].
  - rewrite (Hm A2 id1 m1 H1) in Hk; [done|congruence|done].
  - by eapply Hu.
Qed.

(** A memory that is still active after others gave way. *)
Lemma supersede_active target excludeID actor reason now s id m :
  keyed s → memories (supersedeActiveLocked target excludeID actor reason now s) !! id = Some m →
  m_Status m = StatusActive →
  memories s !! id = Some m ∧ (id ≠ excludeID → sameConflictKey m target = false).
Proof.
  intros Hk Hm Ha. pose proof (supersede_view target excludeID actor reason now s id Hk) as Hv.
  unfold view at 1 in Hv. rewrite Hm in Hv. destruct (view s id) as [x|] eqn:Hx; [|done].
  apply view_memory in Hx. cbn in Hv. injection Hv as Hv. destruct (decide _) as [Hg|Hg].
  - injection Hv as -> _. done.
  - subst x. split; [done|]. intros Hne. unfold gives_way in Hg. apply dec_stable in Hg.
    destruct Hg as [|[|]]; done.
Qed.

Lemma supersede_unique target excludeID actor reason now s :
  keyed s → active_unique s → active_unique (supersedeActiveLocked target excludeID actor reason now s).
Proof.
  intros Hk Hu id1 id2 m1 m2 H1 H2 A1 A2. apply supersede_active in H1 as [H1 _], H2 as [H2 _]; try done.
  by eapply Hu.
Qed.

Lemma effect_unique s o s' : keyed s → active_unique s → effect s o s' → active_unique s'.
Proof.
  intros Hk Hu He. destruct He as [ctx r p m|ctx r fp Hm _ _|ctx r m|ctx c m Ht Hst|ctx r m Ht|ctx c m Ht Hst|
    ctx c m Ht Hst|ctx c m Ht]; try done; try (by apply commit_unique).
  - assert (active_unique (made_room s r) ∧ (cr_Status r = StatusActive → ∀ id m2,
      memories (made_room s r) !! id = Some m2 → id ≠ cr_ID r → m_Status m2 = StatusActive →
      sameConflictKey m2 (created r) = false)) as [Hu1 Hroom].
    { unfold made_room. destruct (decide _) as [Ha|Ha]; [|done].
      split; [by apply supersede_unique|]. intros _ id m2 H2 Hne A2.
      apply supersede_active in H2 as [_ H2]; [by apply H2|done|done]. }
    pose proof (commit_unique (created r) RevisionCreate (cr_Actor r) (cr_Reason r) (cr_Now r) false
      (made_room s r) Hu1 Hroom) as Hc.
    unfold store_created. fold (made_room s r). by destruct (decide (cr_IdempotencyKey r = "")).
  - apply commit_unique; [by apply supersede_unique|]. intros _ id m2 H2 Hne A2.
    apply supersede_active in H2 as [_ H2]; [by apply H2|done|done].
  - destruct (target_memory s _ m Hk Ht) as [Htm _]. apply commit_unique; [done|].
    intros Ha id m2 H2 Hne A2. apply not_true_is_false. intros Hkey. apply Hne.
    by apply (Hu id (m_ID m) m2 m).
Qed.

Lemma run_invariant l h :
  let s := run (empty l) h in active_unique s ∧ ∀ id x, view s id = Some x → history_ok id x.
Proof.
  assert (∀ s, keyed s → active_unique s → (∀ id x, view s id = Some x → history_ok id x) →
    let s' := run s h in active_unique s' ∧ ∀ id x, view s' id = Some x → history_ok id x) as Hgen.
  { induction h as [|o h IH]; intros s Hk Hu Hh; [done|]. cbn [run foldl].
    destruct (exec_effect s o) as [->|(s' & -> & He)]; [by apply IH|].
    cbn [fst]. apply IH; [by eapply effect_keyed|by eapply effect_unique|].
    intros id x' Hx'. pose proof (effect_evolves s o s' id Hk He) as Hev. unfold evolves in Hev.
    rewrite Hx' in Hev. destruct (view s id) as [x|] eqn:Hx.
    - destruct Hev as (x2 & [= <-] & Hc). eapply change_history; [done|by apply Hh].
    - destruct Hev as [|(ctx & r & _ & <- & [= ->])]; [done|]. apply created_history. }
  apply Hgen; [apply empty_keyed|..].
  { intros id1 id2 m1 m2 H1. simpl in H1. by rewrite lookup_empty in H1. }
  { intros id x Hx. unfold view in Hx. simpl in Hx. by rewrite lookup_empty in Hx. }
Qed.

(** C19: In every reachable memory store each memory is stored under its ID, at most one memory
of a scope, kind and key is active, and its revisions are numbered 1, 2, ... up to its version
without gaps, all for the same identity, the last one recording the memory as it is; a
revision marked as erased holds no content. *)
Theorem memory_store_invariant l h :
  let s := run (empty l) h in
  active_unique s ∧
  ∀ id m, memories s !! id = Some m → history_ok id (m, default [] (revisions s !! id)).
Proof.
  destruct (run_invariant l h) as [Hu Hh]. split; [done|].
  intros id m Hm. apply Hh. unfold view. by rewrite Hm.
Qed.

(** ** Optimistic concurrency *)

Definition command_of (o : op) : option VersionedCommand :=
  match o with
  | OpCreate _ _ | OpPutEmbedding _ _ => None
  | OpActivate _ c | OpDismiss _ c | OpForget _ c | OpErase _ c => Some c
  | OpCorrect _ r => Some (Command r)
  end.

(** The version a call expected of memory [id], when it is a command that succeeded. *)
Definition accepted (id : string) (o : op) (ok : bool) : list Z :=
  match command_of o with
  | Some c => if decide (ok = true ∧ cm_ID c = id) then [ExpectedVersion c] else []
  | None => []
  end.

Fixpoint accepted_versions (id : string) (s : Store) (h : list op) : list Z :=
  match h with
  | [] => []
  | o :: h => accepted id o (exec s o).2 ++ accepted_versions id (exec s o).1 h
  end.

(** A command that succeeds found the version it expected and counts it up. *)
Lemma effect_command s o s' c :
  keyed s → effect s o s' → command_of o = Some c →
  ∃ m m', target s c m ∧ memories s' !! cm_ID c = Some m' ∧ m_Version m' = ExpectedVersion c + 1.
Proof.
  intros Hk He Hc. destruct He as [| | |ctx c' m Ht Hst|ctx r m Ht|ctx c' m Ht Hst|ctx c' m Ht Hst|ctx c' m Ht];
    try done; injection Hc as <-; destruct (target_memory s _ m Hk Ht) as [_ ->]; pose proof Ht as (_ & _ & Hv);
    (eexists m, _; split; [done|split;
      [unfold commit, appendRevisionLocked; simpl; apply lookup_insert_eq|]]); simpl; lia.
Qed.

Lemma effect_version s o s' id m :
  keyed s → effect s o s' → memories s !! id = Some m →
  ∃ m', memories s' !! id = Some m' ∧ m_Version m ≤ m_Version m'.
Proof.
  intros Hk He Hm. pose proof (effect_evolves s o s' id Hk He) as Hev. unfold evolves in Hev.
  unfold view at 1 in Hev. rewrite Hm in Hev. destruct Hev as (x' & Hx' & Hc). apply view_memory in Hx'.
  exists x'.1. split; [done|]. destruct Hc as [|m' r Hn _|m' r Hn _ _ _]; simpl in *; [lia|..];
    rewrite (nv_version _ _ Hn); lia.
Qed.

(** C20: No update is lost: along any history, the commands that succeed on a memory expected
strictly increasing versions, so of two commands prepared against the same version at most
one succeeds. *)
Theorem no_lost_update l h id : StronglySorted Z.lt (accepted_versions id (empty l) h).
Proof.
  assert (∀ s, keyed s → StronglySorted Z.lt (accepted_versions id s h) ∧
    ∀ m, memories s !! id = Some m → Forall (λ v, m_Version m ≤ v) (accepted_versions id s h)) as Hgen.
  { induction h as [|o h IH]; intros s Hk; [by repeat constructor|]. cbn [accepted_versions].
    destruct (exec_effect s o) as [->|(s' & -> & He)]; cbn [fst snd].
    { assert (accepted id o false = []) as ->; [|by apply IH]. unfold accepted.
      destruct (command_of o); [|done]. by rewrite decide_False by naive_solver. }
    destruct (IH s' (effect_keyed _ _ _ Hk He)) as [IH1 IH2].
    assert (∀ m, memories s !! id = Some m → Forall (λ v, m_Version m ≤ v) (accepted_versions id s' h)) as Hlow.
    { intros m Hm. destruct (effect_version s o s' id m Hk He Hm) as (m' & Hm' & Hle).
      eapply Forall_impl; [by apply IH2|]. simpl. lia. }
    unfold accepted. destruct (command_of o) as [c|] eqn:Hc; [|done].
    destruct (decide _) as [[_ Hid]|]; [|done]. cbn [app].
    destruct (effect_command s o s' c Hk He Hc) as (m0 & m' & (Hm0 & _ & Hv) & Hm' & Hv').
    rewrite Hid in *. split.
    - constructor; [done|]. eapply Forall_impl; [by apply IH2|]. simpl. lia.
    - intros m Hm. simplify_eq. constructor; [lia|by apply Hlow]. }
  apply Hgen, empty_keyed.
Qed.

(** ** What a call leaves alone *)

Definition op_id (o : op) : string :=
  match o with
  | OpCreate _ r => cr_ID r
  | OpPutEmbedding _ r => pu_MemoryID r
  | OpActivate _ c | OpDismiss _ c | OpForget _ c | OpErase _ c => cm_ID c
  | OpCorrect _ r => cm_ID (Command r)
  end.

Definition op_scope (o : op) : Scope :=
  match o with
  | OpCreate _ r => cr_Scope r
  | OpPutEmbedding _ r => pu_Scope r
  | OpActivate _ c | OpDismiss _ c | OpForget _ c | OpErase _ c => cm_Scope c
  | OpCorrect _ r => cm_Scope (Command r)
  end.

(** Everything stored about the memory [id] is as it was. *)
Record untouched (id : string) (s s' : Store) : Prop := {
  un_memory : memories s' !! id = memories s !! id;
  un_revisions : revisions s' !! id = revisions s !! id;
  un_sources : sources s' !! id = sources s !! id;
  un_embeddings p : embeddings s' !! (id, p) = embeddings s !! (id, p);
  un_creates k r : cr_id r = id → creates s' !! k = Some r ↔ creates s !! k = Some r
}.

Lemma untouched_trans id s1 s2 s3 : untouched id s1 s2 → untouched id s2 s3 → untouched id s1 s3.
Proof.
  intros [A1 A2 A3 A4 A5] [B1 B2 B3 B4 B5]. split; [congruence..|intros p; congruence|].
  intros k r Hr. rewrite B5, A5 by done. done.
Qed.

Lemma supersede_untouched target excludeID actor reason now s id m :
  keyed s → memories s !! id = Some m → ¬ gives_way target excludeID id m →
  untouched id s (supersedeActiveLocked target excludeID actor reason now s).
Proof.
  intros [Hk _] Hm Hg.
  destruct (supersede_spec target excludeID actor reason now s Hk) as (_ & H2 & (_ & E1 & E2 & E3)).
  destruct (H2 id) as [Hm' Hr']; [intros m' Hm'; by simplify_eq|].
  split; [done|done|by rewrite E1|intros p; by rewrite E3|intros k r _; by rewrite E2].
Qed.

Lemma commit_untouched m action actor reason now er s id :
  id ≠ m_ID m → untouched id s (commit m action actor reason now er s).
Proof.
  intros Hne. unfold commit, appendRevisionLocked. split; simpl; [by rewrite lookup_insert_ne..|done|done|done].
Qed.

(** A memory whose status or scope keeps it from giving way. *)
Definition stays (o : op) (m : Memory) : Prop := m_Status m ≠ StatusActive ∨ m_Scope m ≠ op_scope o.

Lemma stays_gives_way o target excludeID id m :
  m_Scope target = op_scope o → stays o m → ¬ gives_way target excludeID id m.
Proof.
  intros Ht [Hs|Hs] Hg; apply Hg; right; [by left|]. right. unfold sameConflictKey.
  apply bool_decide_eq_false. intros (? & _). congruence.
Qed.

Lemma made_room_untouched s ctx r id m :
  keyed s → memories s !! id = Some m → stays (OpCreate ctx r) m → untouched id s (made_room s r).
Proof.
  intros Hk Hm Hs. unfold made_room. destruct (decide _); [|by split].
  eapply supersede_untouched; [done|done|]. by apply (stays_gives_way (OpCreate ctx r)).
Qed.

Lemma store_created_untouched s ctx r fp id m :
  keyed s → memories s !! id = Some m → memories s !! cr_ID r = None →
  (cr_IdempotencyKey r ≠ "" → creates s !! (cr_Scope r, cr_IdempotencyKey r) = None) →
  stays (OpCreate ctx r) m → untouched id s (store_created s r fp).
Proof.
  intros Hk Hm Hnone Hnew Hs. assert (cr_ID r ≠ id) as Hne by congruence.
  destruct (made_room_untouched s ctx r id m Hk Hm Hs) as [U1 U2 U3 U4 U5].
  assert (creates (made_room s r) = creates s) as Hcr.
  { unfold made_room. destruct (decide _); [|done]. by apply supersede_spec, Hk. }
  unfold store_created. fold (made_room s r). set (s1 := made_room s r) in *. clearbody s1.
  destruct (decide (cr_IdempotencyKey r = "")) as [Hkey|Hkey]; split; simpl;
    rewrite ?lookup_insert_ne by done; try done.
  intros k rec Hrec. rewrite Hcr, lookup_insert_Some. specialize (Hnew Hkey). split.
  - intros [[_ <-]|[_ H]]; done.
  - intros H. right. split; [intros <-; discriminate (eq_trans (eq_sym H) Hnew)|done].
Qed.

Lemma effect_untouched s o s' id m :
  keyed s → effect s o s' → memories s !! id = Some m → op_id o ≠ id → stays o m → untouched id s s'.
Proof.
  intros Hk He Hm Hne Hs.
  assert (∀ s0 m' action actor reason now er, untouched id s s0 → m_ID m' = op_id o →
    untouched id s (commit m' action actor reason now er s0)) as Hcommit.
  { intros s0 m' action actor reason now er Hu Hid. eapply untouched_trans; [done|].
    apply commit_untouched. congruence. }
  destruct He as [ctx r p m0|ctx r fp Hnone Hnew _|ctx r m0 Hm0 _ _ _|ctx c m0 Ht Hst|ctx r m0 Ht|
    ctx c m0 Ht Hst|ctx c m0 Ht Hst|ctx c m0 Ht]; simpl in *.
  - by split.
  - by eapply store_created_untouched.
  - split; simpl; try done. intros p. rewrite lookup_insert_ne; [done|congruence].
  - destruct (target_memory s _ m0 Hk Ht) as [_ Hid]. apply Hcommit; [|done].
    eapply supersede_untouched; [done|done|]. apply (stays_gives_way (OpActivate ctx c)); [apply Ht|done].
  - destruct (target_memory s _ m0 Hk Ht) as [_ Hid]. apply Hcommit; [|done].
    split; simpl; try done. rewrite lookup_insert_ne; [done|congruence].
  - destruct (target_memory s _ m0 Hk Ht) as [_ Hid]. apply Hcommit; [by split|done].
  - destruct (target_memory s _ m0 Hk Ht) as [_ Hid]. apply Hcommit; [by split|done].
  - destruct (target_memory s _ m0 Hk Ht) as [_ Hid]. apply Hcommit; [|done].
    change (m_ID (erased_memory m0 (cm_Now c))) with (m_ID m0). assert (m_ID m0 ≠ id) as Hne' by congruence.
    unfold erase_traces. split; simpl; [done|by rewrite lookup_alter_ne|by rewrite lookup_insert_ne| |].
    + intros p. destruct (embeddings s !! (id, p)) as [e|] eqn:E.
      * apply map_lookup_filter_Some. done.
      * apply map_lookup_filter_None. by left.
    + intros k r Hr. rewrite lookup_fmap. unfold erase_record.
      destruct (creates s !! k) as [r0|]; [|done]. simpl.
      destruct (decide (cr_id r0 = m_ID m0)) as [H0|H0]; [|done].
      split; intros [= <-]; simpl in *; congruence.
Qed.

(** Scopes are separate: a call in the name of one tenant and subject leaves every memory
of another, with its revisions, sources, embeddings and idempotency records, as it was. *)
Theorem scopes_separate l h o id m :
  let s := run (empty l) h in
  memories s !! id = Some m → m_Scope m ≠ op_scope o → untouched id s (exec s o).1.
Proof.
  intros s Hm Hs. pose proof (run_keyed _ h (empty_keyed l)) as Hk. fold s in Hk.
  destruct (exec_effect s o) as [->|(s' & -> & He)]; [by split|]. cbn [fst].
  destruct (decide (op_id o = id)) as [Hid|Hid]; [|eapply effect_untouched; [done..|by right]].
  destruct He as [|ctx r fp Hnone _ _|ctx r m0 Hm0 Hsc _ _|ctx c m0 Ht _|ctx r m0 Ht|ctx c m0 Ht _|
    ctx c m0 Ht _|ctx c m0 Ht]; simpl in *; subst id; try (destruct Ht as (Hm0 & Hsc & _));
    [by split|exfalso; congruence..].
Qed.

(** ** Erasure *)

(** Nothing of the content of memory [id] is left, and no request can bring it back. *)
Record gone (id : string) (s : Store) : Prop := {
  go_memory : ∃ m, memories s !! id = Some m ∧ m_Content m = "" ∧ m_Status m = StatusInactive;
  go_revisions : Forall (λ r, m_Content (Snapshot r) = "") (default [] (revisions s !! id));
  go_sources : default [] (sources s !! id) = [];
  go_embeddings p : embeddings s !! (id, p) = None;
  go_creates k r : creates s !! k = Some r → cr_id r = id → erased r = true ∧ fingerprint r = zero_digest
}.

Lemma untouched_gone id s s' : untouched id s s' → gone id s → gone id s'.
Proof.
  intros [U1 U2 U3 U4 U5] [(m & G1 & G1') G2 G3 G4 G5]. split.
  - exists m. by rewrite U1.
  - by rewrite U2.
  - by rewrite U3.
  - intros p. by rewrite U4.
  - intros k r Hr Hid. eapply G5; [|done]. by apply U5.
Qed.

Lemma erase_gone s ctx c s' :
  keyed s → exec s (OpErase ctx c) = (s', true) → gone (cm_ID c) s'.
Proof.
  intros Hk Hx. destruct (exec_effect s (OpErase ctx c)) as [H|(s2 & H & He)]; [congruence|].
  rewrite H in Hx. injection Hx as ->. inversion He as [| | | | | | |ctx' c' m Ht]; subst.
  destruct (target_memory s c m Hk Ht) as [Hm ->]. unfold commit, appendRevisionLocked, erase_traces.
  split; simpl.
  - eexists. rewrite lookup_insert_eq. done.
  - rewrite lookup_insert_eq, lookup_alter_eq. simpl. apply Forall_app_2; [|by repeat constructor].
    destruct (revisions s !! m_ID m) as [revs|]; [|constructor]. simpl.
    apply Forall_fmap, Forall_forall. done.
  - by rewrite lookup_insert_eq.
  - intros p. apply map_lookup_filter_None. right. intros e _ Hne. by apply Hne.
  - intros k r. rewrite lookup_fmap. destruct (creates s !! k) as [r0|]; [|done]. intros [= <-].
    unfold erase_record. by destruct (decide _).
Qed.

(** No correction writes new content to memory [id]. *)
Definition not_corrected (id : string) (o : op) : Prop :=
  match o with OpCorrect _ r => cm_ID (Command r) ≠ id | _ => True end.

Lemma gone_exec id s o : keyed s → not_corrected id o → gone id s → gone id (exec s o).1.
Proof.
  intros Hk Hn Hg. pose proof Hg as [(m & Hm & _ & Hs) _ _ _ _].
  destruct (exec_effect s o) as [->|(s' & Hx & He)]; [done|].
  destruct (decide (op_id o = id)) as [Hid|Hid].
  - destruct o as [ctx r|ctx r|ctx c|ctx r|ctx c|ctx c|ctx c]; simpl in Hid; subst id; simpl in Hn; try done.
    6: { rewrite Hx. by eapply erase_gone. }
    all: rewrite Hx; inversion He; subst; try done; try congruence; exfalso;
      try (match goal with H : target _ _ _ |- _ => destruct H as (? & _ & _) end); simplify_eq;
      match goal with H : m_Status _ = _ |- _ => discriminate (eq_trans (eq_sym Hs) H) end.
  - rewrite Hx. eapply untouched_gone; [|done]. eapply effect_untouched; [done..|left; by rewrite Hs].
Qed.

(** C21: Erasing is final: once [Erase] succeeded on a memory, then whatever calls follow, unless
one corrects that very memory with new content, its content is gone from the memory, from
every revision, from its sources and embeddings, the memory stays inactive, and no replayed
creation can bring it back. *)
Theorem erase_final l h0 ctx c s' h :
  exec (run (empty l) h0) (OpErase ctx c) = (s', true) → Forall (not_corrected (cm_ID c)) h →
  gone (cm_ID c) (run s' h).
Proof.
  intros Hx Hh. pose proof (run_keyed _ h0 (empty_keyed l)) as Hk.
  pose proof (erase_gone _ _ _ _ Hk Hx) as Hg.
  assert (keyed s') as Hk'.
  { change s' with (s', true).1. rewrite <-Hx. by apply (run_keyed _ [OpErase ctx c]). }
  clear Hx Hk. revert s' Hk' Hg. induction Hh as [|o h Ho _ IH]; intros s Hk Hg; [done|].
  apply IH; [by apply (run_keyed _ [o])|by apply gone_exec].
Qed.

(** ** Idempotent creation *)

Lemma supersede_rest target excludeID actor reason now s :
  keyed s → same_rest s (supersedeActiveLocked target excludeID actor reason now s).
Proof. intros [Hk _]. by apply supersede_spec. Qed.

Lemma made_room_rest s r : keyed s → same_rest s (made_room s r).
Proof. intros Hk. unfold made_room. destruct (decide _); [by apply supersede_rest|done]. Qed.

Lemma effect_limits s o s' : keyed s → effect s o s' → limits s' = limits s.
Proof.
  intros Hk He. destruct He as [|ctx r fp _ _ _|?|ctx c m _ _|ctx r m _|ctx c m _ _|ctx c m _ _|ctx c m _]; try done.
  - destruct (made_room_rest s r Hk) as [<- _]. unfold store_created. fold (made_room s r).
    by destruct (decide (cr_IdempotencyKey r = "")).
  - by destruct (supersede_rest m (m_ID m) (cm_Actor c) (cm_Reason c) (cm_Now c) s Hk) as [<- _].
Qed.

Lemma run_limits s h : keyed s → limits (run s h) = limits s.
Proof.
  revert s. induction h as [|o h IH]; intros s Hk; [done|]. cbn [run foldl].
  destruct (exec_effect s o) as [->|(s' & -> & He)]; [by apply IH|]. cbn [fst].
  etransitivity; [by apply IH; eapply effect_keyed|]. by eapply effect_limits.
Qed.

Definition erases (id : string) (o : op) : Prop :=
  match o with OpErase _ c => cm_ID c = id | _ => False end.

(** The record of a creation lasts until its memory is erased. *)
Lemma effect_creates s o s' k p :
  keyed s → effect s o s' → creates s !! k = Some p → ¬ erases (cr_id p) o → creates s' !! k = Some p.
Proof.
  intros Hk He Hp Hn. destruct He as [|ctx r fp _ Hnew _|?|ctx c m _ _|ctx r m _|ctx c m _ _|ctx c m _ _|
    ctx c m Ht]; try done.
  - destruct (made_room_rest s r Hk) as (_ & _ & Hc & _). rewrite <-Hc in Hp. unfold store_created.
    fold (made_room s r). destruct (decide (cr_IdempotencyKey r = "")) as [|Hkey]; [done|]. simpl.
    specialize (Hnew Hkey). rewrite <-Hc in Hnew. rewrite lookup_insert_ne; [done|].
    intros <-. discriminate (eq_trans (eq_sym Hp) Hnew).
  - destruct (supersede_rest m (m_ID m) (cm_Actor c) (cm_Reason c) (cm_Now c) s Hk) as (_ & _ & Hc & _).
    simpl. by rewrite Hc.
  - destruct (target_memory s c m Hk Ht) as [_ Hid]. simpl in Hn |- *. rewrite lookup_fmap, Hp. simpl.
    unfold erase_record. rewrite decide_False; [done|]. simpl. congruence.
Qed.

(** [r] has been carried out and not been erased. *)
Definition remembered (r : CreateRequest) (fp : Digest) (s : Store) : Prop :=
  (∃ p, creates s !! (cr_Scope r, cr_IdempotencyKey r) = Some p ∧ erased p = false ∧
     cr_id p = cr_ID r ∧ fingerprint p = fp) ∧ is_Some (memories s !! cr_ID r).

Lemma remembered_run r fp s h :
  keyed s → Forall (λ o, ¬ erases (cr_ID r) o) h → remembered r fp s →
  remembered r fp (run s h) ∧ limits (run s h) = limits s.
Proof.
  intros Hk Hh. revert s Hk. induction Hh as [|o h Ho _ IH]; intros s Hk Hr; [done|]. cbn [run foldl].
  destruct (exec_effect s o) as [->|(s' & -> & He)]; [by apply IH|]. cbn [fst].
  destruct (IH s' (effect_keyed _ _ _ Hk He)) as [H1 H2].
  { destruct Hr as [(p & Hp & E1 & E2 & E3) [m Hm]]. split.
    - exists p. split_and!; [|done..]. eapply effect_creates; [done..|]. by rewrite E2.
    - destruct (effect_version s o s' _ m Hk He Hm) as (m' & -> & _). by eexists. }
  split; [done|]. rewrite <-(effect_limits s o s' Hk He). done.
Qed.

Lemma Create_Ok ctx s r s1 m :
  Create uuid_Parse Marshal Sum256 ctx s r = (s1, Ok m) →
  ∃ fp, ValidateCreateRequest uuid_Parse r (limits s) = Ok () ∧
    request_fingerprint Marshal Sum256 r = Ok fp ∧ create_locked s r fp = (s1, Ok m).
Proof.
  unfold Create, locked, guarded. destruct (ctx 0%nat); [done|].
  destruct (ValidateCreateRequest _ _ _) as [[]|]; [|done]. cbn [res_bind].
  destruct (request_fingerprint _ _ _) as [fp|]; [|done]. cbn [res_bind].
  destruct (ctx 1%nat); [done|]. intros H. by exists fp.
Qed.

(** C22: Creation is idempotent: a request with an idempotency key that succeeded once, repeated
at any later time after any calls that did not erase its memory, changes nothing and returns
the memory as it is now. *)
Theorem create_idempotent l h0 ctx r s1 m h ctx' now :
  Create uuid_Parse Marshal Sum256 ctx (run (empty l) h0) r = (s1, Ok m) →
  cr_IdempotencyKey r ≠ "" → Forall (λ o, ¬ erases (cr_ID r) o) h → (∀ i, ctx' i = None) →
  let s2 := run s1 h in
  ∃ current, memories s2 !! cr_ID r = Some current ∧
    Create uuid_Parse Marshal Sum256 ctx' s2 (r <| cr_Now := now |>) = (s2, Ok current).
Proof.
  intros Hc Hkey Hh Hctx s2. pose proof (run_keyed _ h0 (empty_keyed l)) as Hk.
  set (s := run (empty l) h0) in *. clearbody s.
  destruct (Create_Ok ctx s r s1 m Hc) as (fp & Hval & Hfp & Hlock).
  assert (exec s (OpCreate ctx r) = (s1, true)) as Hx by (cbn [exec]; unfold outcome; by rewrite Hc).
  assert (keyed s1 ∧ limits s1 = limits s) as [Hk1 Hl1].
  { destruct (exec_effect s (OpCreate ctx r)) as [H|(s' & H & He)]; [congruence|].
    rewrite H in Hx. injection Hx as ->. split; [by eapply effect_keyed|by eapply effect_limits]. }
  assert (remembered r fp s1) as Hr.
  { unfold create_locked in Hlock. rewrite decide_False in Hlock by done.
    destruct (creates s !! _) as [p|] eqn:Hp; destruct (memories s !! cr_ID r) as [m0|] eqn:Hm; try done.
    - destruct (decide _) as [(E1 & E2 & E3)|]; [|done]. injection Hlock as <- _.
      split; [by exists p|by eexists].
    - injection Hlock as <- _. unfold store_created. rewrite (decide_False (P := cr_IdempotencyKey r = "")) by done.
      split; simpl; [|rewrite lookup_insert_eq; by eexists]. eexists. by rewrite lookup_insert_eq. }
  destruct (remembered_run r fp s1 h Hk1 Hh Hr) as [[(p & Hp & E1 & E2 & E3) [current Hm]] Hl2].
  fold s2 in Hp, Hm, Hl2. clearbody s2. exists current. split; [done|].
  unfold Create, locked, guarded. rewrite !Hctx.
  change (ValidateCreateRequest uuid_Parse (r <| cr_Now := now |>) (limits s2))
    with (ValidateCreateRequest uuid_Parse r (limits s2)).
  change (request_fingerprint Marshal Sum256 (r <| cr_Now := now |>))
    with (request_fingerprint Marshal Sum256 r).
  rewrite Hl2, Hl1, Hval. cbn [res_bind]. rewrite Hfp. cbn [res_bind].
  unfold create_locked. simpl. rewrite decide_False by done. rewrite Hp, Hm, decide_True by done. done.
Qed.

(** ** Stored memories are well formed *)

Record valid_memory (m : Memory) : Prop := {
  vm_id : uuid_Parse (m_ID m) = Some (m_ID m);
  vm_kind : Kind_IsValid (m_Kind m) = true;
  vm_status : Status_IsValid (m_Status m) = true;
  vm_key : ¬ Blank (m_Key m);
  vm_content : m_Status m ≠ StatusInactive → ¬ Blank (m_Content m);
  vm_range : validTimeRange (m_ValidFrom m) (m_ValidUntil m) = true;
  vm_importance : validImportance (m_Importance m) = true;
  vm_confidence : validConfidence (m_Confidence m) = true;
  vm_version : 0 < m_Version m;
  vm_scope : Scope_Validate (m_Scope m) = Ok ()
}.

Lemma check_Ok b e : check b e = Ok () → b = true.
Proof. by destruct b. Qed.

Lemma validKey_nonblank key n : validKey key n = true → ¬ Blank key.
Proof.
  unfold validKey. destruct (bool_decide _) eqn:Hb; [done|]. apply bool_decide_eq_false in Hb. intros _ Hblank.
  apply Hb. destruct (decide (key = TrimSpace key)) as [Heq|]; [|by right]. left. by rewrite Heq.
Qed.

Lemma validContent_nonblank content n : validContent content n = true → ¬ Blank content.
Proof.
  unfold validContent. rewrite !andb_true_iff. intros [[H _] _].
  by apply negb_true_iff, bool_decide_eq_false in H.
Qed.

Lemma created_valid r l : ValidateCreateRequest uuid_Parse r l = Ok () → valid_memory (created r).
Proof.
  unfold ValidateCreateRequest. destruct (Limits_Validate l); [|done]. cbn [res_bind].
  destruct (Scope_Validate _) as [[]|] eqn:Hscope; [|done]. cbn [res_bind].
  unfold ValidateMemoryID. destruct (check (bool_decide _) _) as [[]|] eqn:Hid; [|done]. cbn [res_bind].
  destruct (check (_ && _) _) as [[]|] eqn:Hc; [|done]. intros _.
  apply check_Ok, bool_decide_eq_true in Hid. apply check_Ok in Hc.
  repeat (apply andb_true_iff in Hc as [Hc ?]).
  split; simpl; try done; [eapply validKey_nonblank; eassumption|]. intros _. eapply validContent_nonblank; eassumption.
Qed.

Lemma corrected_valid r m l :
  ValidateCorrectRequest uuid_Parse r l = Ok () → valid_memory m → valid_memory (corrected m r).
Proof.
  unfold ValidateCorrectRequest. destruct (ValidateCommand _ _ _); [|done]. cbn [res_bind].
  destruct (check (_ && _) _) as [[]|] eqn:Hc; [|done]. intros _ [V1 V2 V3 V4 V5 V6 V7 V8 V9 V10].
  apply check_Ok in Hc. rewrite !andb_true_iff in Hc. destruct Hc as [[[Hc ?] ?] ?].
  split; simpl; try done; [|lia]. intros _. eapply validContent_nonblank; eassumption.
Qed.

(** A memory that keeps its text and becomes active or inactive. *)
Lemma restated_valid m status now :
  Status_IsValid status = true → (status = StatusInactive ∨ m_Status m ≠ StatusInactive) → valid_memory m →
  valid_memory (m <| m_Status := status |> <| m_Version := m_Version m + 1 |> <| m_UpdatedAt := now |>).
Proof.
  intros Hst Hs [V1 V2 V3 V4 V5 V6 V7 V8 V9 V10]. split; simpl; try done; [|lia].
  intros Hne. apply V5. by destruct Hs.
Qed.

Definition all_valid (s : Store) : Prop := ∀ id m, memories s !! id = Some m → valid_memory m.

Lemma commit_valid m action actor reason now er s :
  valid_memory m → all_valid s → all_valid (commit m action actor reason now er s).
Proof.
  intros Hm Hs id m'. unfold commit, appendRevisionLocked. simpl.
  intros [[_ <-]|[_ H]]%lookup_insert_Some; [done|by eapply Hs].
Qed.

Lemma supersede_valid target excludeID actor reason now s :
  keyed s → all_valid s → all_valid (supersedeActiveLocked target excludeID actor reason now s).
Proof.
  intros Hk Hs id m Hm. pose proof (supersede_view target excludeID actor reason now s id Hk) as Hv.
  unfold view at 1 in Hv. rewrite Hm in Hv. destruct (view s id) as [x|] eqn:Hx; [|done].
  apply view_memory, Hs in Hx. cbn in Hv. injection Hv as Hv. destruct (decide _); [|by subst x].
  injection Hv as -> _. apply restated_valid; [done|by left|done].
Qed.

Lemma effect_valid s o s' : keyed s → all_valid s → effect s o s' → all_valid s'.
Proof.
  intros Hk Hs He. destruct He as [|ctx r fp _ _ _ Hval|?|ctx c m Ht Hst|ctx r m Ht Hval|ctx c m Ht Hst|
    ctx c m Ht Hst|ctx c m Ht]; try done;
    try (pose proof (target_memory s c m Hk Ht) as [Hm _]; apply Hs in Hm).
  - assert (all_valid (commit (created r) RevisionCreate (cr_Actor r) (cr_Reason r) (cr_Now r) false
      (made_room s r))) as Hc.
    { apply commit_valid; [by eapply created_valid|]. unfold made_room.
      destruct (decide _); [by apply supersede_valid|done]. }
    unfold store_created. fold (made_room s r). by destruct (decide (cr_IdempotencyKey r = "")).
  - apply commit_valid; [|by apply supersede_valid]. apply restated_valid; [done| |done]. right. by rewrite Hst.
  - destruct (target_memory s _ m Hk Ht) as [Hm _]. apply commit_valid; [|done].
    eapply corrected_valid; [done|by eapply Hs].
  - apply commit_valid; [|done]. apply restated_valid; [done|by left|done].
  - apply commit_valid; [|done]. apply restated_valid; [done|by left|done].
  - apply commit_valid; [|done]. destruct Hm as [V1 V2 V3 V4 V5 V6 V7 V8 V9 V10]. by split; simpl; try done; lia.
Qed.

Lemma run_valid l h : all_valid (run (empty l) h).
Proof.
  assert (∀ s, keyed s → all_valid s → all_valid (run s h)) as Hgen.
  { induction h as [|o h IH]; intros s Hk Hs; [done|]. cbn [run foldl].
    destruct (exec_effect s o) as [->|(s' & -> & He)]; [by apply IH|]. cbn [fst].
    apply IH; [by eapply effect_keyed|by eapply effect_valid]. }
  apply Hgen; [apply empty_keyed|]. intros id m Hm. simpl in Hm. by rewrite lookup_empty in Hm.
Qed.

End calls.

(** * Concrete calls *)

Definition sample_limits : Limits := mkLimits "v1" 64 256 64 4 20.
Definition sample_scope : Scope := mkScope "acme" SubjectUser "ada".
Definition sample_create (key : string) (sources : list Source) : CreateRequest :=
  mkCreate "m1" sample_scope KindFact "editor" StatusActive "uses vim" 0 0 50 (Num 1) "agent" "ada" "said so"
    key sources 10.
Definition never : nat → Ctx := λ _, None.
Definition sample_command (version : Z) : VersionedCommand := mkCommand sample_scope "m1" version "ada" "no" 20.
Definition nonblank_id : string → option string := λ id, if decide (Blank id) then None else Some id.
Definition content_json : CreateRequest → option string := λ r, Some (cr_Content r).
Definition same_digest : string → Digest := λ s, s.
Definition sample_run : Store → list op → Store := run nonblank_id content_json same_digest.
Definition sample_exec : Store → op → Store * bool := exec nonblank_id content_json same_digest.

Lemma scopes_separate_witness :
  let s := sample_run (empty sample_limits) [OpCreate never (sample_create "" [])] in
  let o := OpErase never (mkCommand (mkScope "acme" SubjectUser "bob") "m1" 1 "bob" "mine" 20) in
  untouched "m1" s (sample_exec s o).1.
Proof.
  intros s o. eapply (scopes_separate nonblank_id content_json same_digest); [vm_compute; reflexivity|].
  vm_compute. discriminate.
Defined.

Lemma erase_final_witness :
  let s := sample_run (empty sample_limits) [OpCreate never (sample_create "" [])] in
  gone "m1" (sample_run (sample_exec s (OpErase never (sample_command 1))).1
    [OpCreate never (sample_create "" []); OpActivate never (sample_command 2)]).
Proof.
  intros s. eapply (erase_final nonblank_id content_json same_digest sample_limits
    [OpCreate never (sample_create "" [])] never (sample_command 1)).
  - vm_compute. reflexivity.
  - by repeat constructor.
Defined.

Lemma create_idempotent_witness :
  let s1 := sample_run (empty sample_limits) [OpCreate never (sample_create "k" [])] in
  let s2 := sample_run s1 [OpForget never (sample_command 1)] in
  ∃ current, memories s2 !! "m1" = Some current ∧
    Create nonblank_id content_json same_digest never s2 ((sample_create "k" []) <| cr_Now := 99 |>) = (s2, Ok current).
Proof.
  eapply (create_idempotent nonblank_id content_json same_digest sample_limits [] never (sample_create "k" [])).
  - vm_compute. reflexivity.
  - vm_compute. discriminate.
  - repeat constructor. intros [].
  - reflexivity.
Defined.
