(* ===== verification/MemoryRecall.v ===== *)
(** memorykit: recall ([src/memorykit/recall.go]): candidates of three channels
are checked, fused by reciprocal rank and cut to the item and token limits.

Embedder, recall store, token counter and the JSON encoding of a payload are
parameters. The recall context may end at any moment: [rctx n] is the answer to
the [n]-th question, and the monad counts the questions. *)

From Stdlib Require Import QArith.
From S2P Require Import Prelude Float64 GoUtf8 MemorySearch MemoryTypes MemoryStore.
Import Search Memories.
#[local] Open Scope Z_scope.

Module Recall.

Record RecallPolicy := mkPolicy {
  p_Version : string;
  p_ExactLimit : Z; p_FullTextLimit : Z; p_VectorLimit : Z;
  RRFK : number;
  p_MinVectorSimilarity : number;
  MaxItems : Z; MaxTokens : Z;
  MaxQueryRunes : Z; MaxKeys : Z;
  Deadline : Duration;
  p_EmbeddingProfileID : string;
  p_EmbeddingDimensions : Z
}.

Record RecallRequest := mkRequest {
  rr_Scope : Scope; rr_Text : string; rr_Keys : list string; rr_Kinds : list Kind; rr_Now : Time
}.

Record RecallItem := mkItem { i_Memory : Memory; i_Sources : list Source }.

Record RecallResult := mkResult {
  Items : list RecallItem; DegradedChannels : list Channel; PolicyVersion : string
}.

Definition RecallPolicy_Validate (p : RecallPolicy) : res Error () :=
  check (negb (bool_decide (Blank (p_Version p) ∨ p_Version p ≠ TrimSpace (p_Version p)) ||
    (p_ExactLimit p <? 0) || (p_FullTextLimit p <? 0) || (p_VectorLimit p <? 0) ||
    (p_ExactLimit p =? 0) && (p_FullTextLimit p =? 0) && (p_VectorLimit p =? 0) ||
    negb (is_finite (RRFK p)) || num_le (RRFK p) (Num 0) ||
    negb (is_finite (p_MinVectorSimilarity p)) ||
    negb (num_le (Num 0) (p_MinVectorSimilarity p)) || negb (num_le (p_MinVectorSimilarity p) (Num 1)) ||
    (MaxItems p <=? 0) || (MaxTokens p <=? 0) || (MaxQueryRunes p <=? 0) || (MaxKeys p <=? 0) ||
    (Deadline p <=? 0) ||
    bool_decide (Blank (p_EmbeddingProfileID p) ∨ p_EmbeddingProfileID p ≠ TrimSpace (p_EmbeddingProfileID p)) ||
    (p_EmbeddingDimensions p <=? 0))) ErrInvalidMemory.

(** The loop over the sources of [normalizedSourceRefs]. *)
Fixpoint source_refs (refs : list string) (l : list Source) : res Error (list string) :=
  match l with
  | [] => Ok refs
  | s :: l =>
      if decide (Blank (s_Kind s) ∨ Blank (s_Ref s)) then Err ErrInvalidRecallResult
      else source_refs (if decide (s_Ref s ∈ refs) then refs else refs ++ [s_Ref s]) l
  end.

Definition normalizedSourceRefs (l : list Source) : res Error (list string) :=
  let? refs := source_refs [] l in Ok (sort_slice str_lt refs).

(** [previous.memory != memory]: floats are compared by value. *)
Definition same_memory (m m' : Memory) : bool :=
  bool_decide (m <| m_Confidence := Num 0 |> = m' <| m_Confidence := Num 0 |>) &&
  num_eq (m_Confidence m) (m_Confidence m').

Definition validateEmbeddingResult (vectors : list (list number)) (dimensions : Z) : res Error (list number) :=
  match vectors with
  | [v] => if (Z.of_nat (length v) =? dimensions) && validVector v then Ok v else Err ErrInvalidMemory
  | _ => Err ErrInvalidMemory
  end.

Definition validChannel (c : Channel) : bool :=
  bool_decide (c = ChannelExact ∨ c = ChannelFullText ∨ c = ChannelVector).

(** [errors.As(err, &channelErr)]: the channel. *)
Definition as_channel (err : Error) : option Channel :=
  find_error (λ e, match e with ChannelError c _ => Some c | _ => None end) err.

Definition is_ctx (target : CtxErr) (err : Error) : bool :=
  bool_decide (is_Some (find_error
    (λ e, match e with ErrCtx x => if decide (x = target) then Some () else None | _ => None end) err)).

Definition dependencyContextError (err : Error) : option Error :=
  if is_ctx Canceled err then Some (ErrCtx Canceled)
  else if is_ctx DeadlineExceeded err then Some (ErrCtx DeadlineExceeded)
  else None.

Definition safeRecallDependencyError (err : Error) : Error :=
  match dependencyContextError err with
  | Some e => e
  | None =>
      let cause := if IsRecoverable err then BackendError "recall" true ErrRecallDependency
                   else ErrRecallDependency in
      match as_channel err with
      | Some c => if validChannel c then ChannelError c cause else cause
      | None => cause
      end
  end.

(** * The monad: questions to the recall context *)

Definition M (A : Type) : Type := nat → res Error (nat * A).
Definition ret {A} (a : A) : M A := λ n, Ok (n, a).
Definition bind {A B} (c : M A) (k : A → M B) : M B := λ n,
  match c n with Ok (n, a) => k a n | Err e => Err e end.
Definition fail {A} (e : Error) : M A := λ _, Err e.
Definition lift {A} (r : res Error A) : M A := λ n, let? a := r in Ok (n, a).
#[local] Notation "c ';;' k" := (bind c (λ _, k)) (at level 100, right associativity).
#[local] Notation "'do!' x ':=' c 'in' k" := (bind c (λ x, k)) (at level 10, x name, k at level 200).

Record fusedRecallItem := mkFused { f_item : RecallItem; f_score : Q }.

(** The [less] of [fuse]. *)
Definition fused_less (a b : fusedRecallItem) : Prop :=
  if decide (¬ f_score a == f_score b)%Q then (f_score b < f_score a)%Q
  else
    let l := i_Memory (f_item a) in let r := i_Memory (f_item b) in
    if decide (m_Importance l ≠ m_Importance r) then m_Importance r < m_Importance l
    else if decide (m_UpdatedAt l ≠ m_UpdatedAt r) then After (m_UpdatedAt l) (m_UpdatedAt r)
    else str_lt (m_ID l) (m_ID r).
#[global] Instance fused_less_dec a b : Decision (fused_less a b).
Proof. unfold fused_less. repeat case_decide; apply _. Defined.

(** A channel as [validateCandidateSet] goes through it. *)
Record candidateSetChannel := mkChannel {
  ch_channel : Channel; ch_candidates : list Candidate; ch_limit : Z; ch_enabled : bool
}.

Record recalledIdentity := mkIdentity { id_memory : Memory; id_refs : list string }.

(** The checks of a candidate that do not depend on the others. *)
Definition candidate_ok (q : CandidateQuery) (ch : candidateSetChannel) (c : Candidate) : bool :=
  let m := c_Memory c in
  bool_decide (c_Channel c = ch_channel ch) && (0 <? Rank c) && (Rank c <=? ch_limit ch) &&
  negb (bool_decide (Blank (m_ID m))) &&
  bool_decide (m_Scope m = q_Scope q) && Kind_IsValid (m_Kind m) && Status_IsValid (m_Status m) &&
  negb (bool_decide (Blank (m_Key m) ∨ Blank (m_Content m))) &&
  validImportance (m_Importance m) && is_finite (m_Confidence m) && validConfidence (m_Confidence m) &&
  (0 <? m_Version m) && validTimeRange (m_ValidFrom m) (m_ValidUntil m).

Definition similarity_ok (ch : candidateSetChannel) (c : Candidate) : bool :=
  negb (bool_decide (ch_channel ch = ChannelVector)) ||
  is_finite (Similarity c) && num_le (Num 0) (Similarity c) && num_le (Similarity c) (Num 1).

(** Candidates that are valid but not to be used now. *)
Definition usable (q : CandidateQuery) (ch : candidateSetChannel) (c : Candidate) : bool :=
  let m := c_Memory c in
  bool_decide (m_Status m = StatusActive ∧ ¬ Before (q_Now q) (m_ValidFrom m) ∧
    (IsZero (m_ValidUntil m) ∨ Before (q_Now q) (m_ValidUntil m))) &&
  (negb (bool_decide (ch_channel ch = ChannelVector)) || num_le (MinVectorSimilarity q) (Similarity c)).

Section recaller.
Context (policy : RecallPolicy).
Context (embed : option (string → res Error (list (list number)))).
Context (search : CandidateQuery → CandidateSet * option Error).
Context (countTokens : string → Z).
(** [json.Marshal] of ID, kind, key, content and source references. *)
Context (Marshal : string → Kind → string → string → list string → option string).
Context (rctx : nat → Ctx).

(** [if err := recallCtx.Err(); err != nil { return err }]. *)
Definition ask : M () := λ n, match rctx n with Some e => Err (ErrCtx e) | None => Ok (S n, ()) end.

Definition validateAndCopyRequest (r : RecallRequest) : res Error RecallRequest :=
  let? _ := Scope_Validate (rr_Scope r) in
  let? _ := check (negb (bool_decide (Blank (rr_Text r) ∧ rr_Keys r = []) ||
    (MaxQueryRunes policy <? RuneCountInString (rr_Text r)) ||
    (MaxKeys policy <? Z.of_nat (length (rr_Keys r))))) ErrInvalidMemory in
  let? _ := check (bool_decide (Forall (λ k, ¬ Blank k) (rr_Keys r) ∧ NoDup (rr_Keys r))) ErrInvalidMemory in
  let? _ := check (forallb Kind_IsValid (rr_Kinds r) && bool_decide (NoDup (rr_Kinds r))) ErrInvalidMemory in
  Ok r.

(** The candidates of one channel: [identities] by memory ID, the IDs [seen] in the channel,
the candidates accepted. *)
Fixpoint validate_candidates (q : CandidateQuery) (ch : candidateSetChannel) (seen : list string)
    (identities : GoMap recalledIdentity) (accepted : list Candidate) (cs : list Candidate)
    : M (GoMap recalledIdentity * list Candidate) :=
  match cs with
  | [] => ret (identities, accepted)
  | c :: cs =>
      ask ;; 
      let m := c_Memory c in
      if negb (candidate_ok q ch c) || bool_decide (m_ID m ∈ seen) then fail ErrInvalidRecallResult
      else
        do! refs := lift (normalizedSourceRefs (c_Sources c)) in
        if negb (similarity_ok ch c) then fail ErrInvalidRecallResult
        else
          do! identities :=
            match identities !! m_ID m with
            | Some previous =>
                if negb (same_memory (id_memory previous) m) || bool_decide (id_refs previous ≠ refs)
                then fail ErrInvalidRecallResult else ret identities
            | None => ret (<[m_ID m := mkIdentity m refs]> identities)
            end in
          validate_candidates q ch (m_ID m :: seen) identities
            (if usable q ch c then accepted ++ [c] else accepted) cs
  end.

Definition validate_channel (q : CandidateQuery) (identities : GoMap recalledIdentity)
    (ch : candidateSetChannel) : M (GoMap recalledIdentity * list Candidate) :=
  ask ;; 
  if negb (ch_enabled ch) && negb (bool_decide (ch_candidates ch = [])) ||
     (ch_limit ch <? Z.of_nat (length (ch_candidates ch)))
  then fail ErrInvalidRecallResult
  else validate_candidates q ch [] identities [] (ch_candidates ch).

Definition validateCandidateSet (set : CandidateSet) (q : CandidateQuery) : M CandidateSet :=
  let exact := mkChannel ChannelExact (Exact set) (ExactLimit q)
    ((0 <? ExactLimit q) && negb (bool_decide (q_Keys q = []))) in
  let fullText := mkChannel ChannelFullText (FullText set) (FullTextLimit q)
    ((0 <? FullTextLimit q) && negb (bool_decide (Blank (q_Text q)))) in
  let vector := mkChannel ChannelVector (Vector set) (VectorLimit q)
    ((0 <? VectorLimit q) && negb (bool_decide (QueryVector q = []))) in
  do! checked1 := validate_channel q ∅ exact in
  do! checked2 := validate_channel q checked1.1 fullText in
  do! checked3 := validate_channel q checked2.1 vector in
  ask ;; 
  ret (mkSet checked1.2 checked2.2 checked3.2).

Definition fuse_one (byID : GoMap fusedRecallItem) (c : Candidate) : GoMap fusedRecallItem :=
  let m := c_Memory c in
  let fused := default (mkFused (mkItem m (c_Sources c)) 0) (byID !! m_ID m) in
  <[m_ID m := mkFused (f_item fused)
      (fadd (f_score fused) (fdiv 1 (fadd (num_value (RRFK policy)) (float_of_int (Rank c)))))]> byID.

Fixpoint fuse_all (byID : GoMap fusedRecallItem) (cs : list Candidate) : M (GoMap fusedRecallItem) :=
  match cs with
  | [] => ret byID
  | c :: cs => ask ;; fuse_all (fuse_one byID c) cs
  end.

Definition fuse (set : CandidateSet) : M (list RecallItem) :=
  ask ;; 
  do! byID := fuse_all ∅ (Exact set ++ FullText set ++ Vector set) in
  ask ;; 
  let ranked := sort_slice fused_less (map_to_list byID).*2 in
  ask ;; 
  ret (f_item <$> ranked).

Definition canonicalRecallPayload (item : RecallItem) : res Error string :=
  let m := i_Memory item in
  let? refs := normalizedSourceRefs (i_Sources item) in
  match Marshal (m_ID m) (m_Kind m) (m_Key m) (m_Content m) refs with
  | Some payload => Ok payload
  | None => Err ErrInvalidMemory
  end.

(** The items that fit: the loop over [fused]. *)
Fixpoint take_items (remaining : Z) (items : list RecallItem) (fused : list RecallItem)
    : M (list RecallItem) :=
  match fused with
  | [] => ret items
  | item :: fused =>
      if Z.of_nat (length items) =? MaxItems policy then ret items
      else
        do! payload := lift (canonicalRecallPayload item) in
        let cost := countTokens payload in
        ask ;; 
        if cost <? 0 then fail ErrInvalidMemory
        else if remaining <? cost then take_items remaining items fused
        else take_items (remaining - cost) (items ++ [item]) fused
  end.

(** The query with the vector channel, or a degraded channel. *)
Definition embed_query (r : RecallRequest) (q : CandidateQuery) : M (CandidateQuery * list Channel) :=
  match embed with
  | Some f =>
      if (0 <? p_VectorLimit policy) && negb (bool_decide (Blank (rr_Text r))) then
        let answer := f (rr_Text r) in
        ask ;; 
        match answer with
        | Err e =>
            match dependencyContextError e with
            | Some e => fail e
            | None => if IsRecoverable e then ret (q, [ChannelVector])
                      else fail (safeRecallDependencyError e)
            end
        | Ok vectors =>
            do! v := lift (validateEmbeddingResult vectors (p_EmbeddingDimensions policy)) in
            ret (q <| QueryVector := v |> <| VectorLimit := p_VectorLimit policy |>
                   <| MinVectorSimilarity := p_MinVectorSimilarity policy |>
                   <| EmbeddingProfileID := p_EmbeddingProfileID policy |>
                   <| EmbeddingDimensions := p_EmbeddingDimensions policy |>, [])
        end
      else ret (q, [])
  | None => ret (q, [])
  end.

(** The degraded channels after a search that reported [err]. *)
Definition search_failed (q : CandidateQuery) (set : CandidateSet) (degraded : list Channel) (err : Error)
    : res Error (list Channel) :=
  match dependencyContextError err with
  | Some e => Err e
  | None =>
      let vectorEnabled := (0 <? VectorLimit q) && negb (bool_decide (QueryVector q = [])) in
      match as_channel err with
      | Some c =>
          if negb (validChannel c) then Err ErrInvalidRecallResult
          else if decide (c = ChannelVector ∧ IsRecoverable err = true) then
            if negb vectorEnabled || negb (bool_decide (Vector set = [])) then Err ErrInvalidRecallResult
            else Ok (if decide (ChannelVector ∈ degraded) then degraded else degraded ++ [ChannelVector])
          else Err (safeRecallDependencyError err)
      | None => Err (safeRecallDependencyError err)
      end
  end.

Definition query_of (r : RecallRequest) : CandidateQuery :=
  mkCandidateQuery (rr_Scope r) (rr_Text r) (rr_Keys r) (rr_Kinds r) [] (rr_Now r) (p_ExactLimit policy)
    (if decide (Blank (rr_Text r)) then 0 else p_FullTextLimit policy) 0 (Num 0) "" 0.

(** [Recall] from the embedding on. *)
Definition recall_body (r : RecallRequest) : M RecallResult :=
  do! embedded := embed_query r (query_of r) in
  let '(q, degraded) := embedded in
  if (ExactLimit q =? 0) && (FullTextLimit q =? 0) && (VectorLimit q =? 0) then
    ask ;; ret (mkResult [] degraded (p_Version policy))
  else
    let '(set, searchErr) := search q in
    ask ;; 
    do! degraded := match searchErr with
                    | Some err => lift (search_failed q set degraded err)
                    | None => ret degraded
                    end in
    do! set := validateCandidateSet set q in
    ask ;; 
    do! fused := fuse set in
    do! items := take_items (MaxTokens policy) [] fused in
    ask ;; 
    ret (mkResult items degraded (p_Version policy)).

(** [Recall]; [ctx] is the caller's context on entry. *)
Definition Recall (ctx : Ctx) (request : RecallRequest) : res Error RecallResult :=
  let? r := validateAndCopyRequest request in
  match ctx with
  | Some e => Err (ErrCtx e)
  | None => match recall_body r 0%nat with Ok (_, result) => Ok result | Err e => Err e end
  end.

End recaller.

(** A recaller's configuration. *)
Record RecallConfig := mkConfig {
  rc_Store : option (CandidateQuery → CandidateSet * option Error);
  rc_Embedder : option (string → res Error (list (list number)));
  rc_CountTokens : option (string → Z);
  rc_Policy : RecallPolicy
}.

(** [NewRecaller]: the configuration, complete. *)
Definition NewRecaller (c : RecallConfig) : res Error RecallConfig :=
  let? _ := RecallPolicy_Validate (rc_Policy c) in
  match rc_Store c, rc_CountTokens c with
  | Some _, Some _ =>
      match rc_Embedder c with
      | None => if 0 <? p_VectorLimit (rc_Policy c) then Err ErrInvalidMemory else Ok c
      | Some _ => Ok c
      end
  | _, _ => Err ErrInvalidMemory
  end.

End Recall.
