(* ===== verification/MemoryRecallSafety.v ===== *)
(** memorykit: what recall promises whatever the store returns, and that the
memory store's candidates pass its checks. *)

From Stdlib Require Import QArith Lqa.
From S2P Require Import Prelude Float64 GoUtf8 MemorySearch MemoryTypes MemoryStore MemorySafety MemoryRecall.
Import Search Memories MemStore Recall.
#[local] Open Scope Z_scope.

(** * The monad *)





(** * The ranking *)



(** * What a memory needs to be recalled *)

Definition effective (scope : Scope) (now : Time) (m : Memory) : Prop :=
  m_Scope m = scope ∧ m_Status m = StatusActive ∧ m_ValidFrom m ≤ now ∧
  (m_ValidUntil m = 0 ∨ now < m_ValidUntil m).


#[global] Instance effective_dec scope now m : Decision (effective scope now m).
Proof. unfold effective. apply _. Defined.

(** A candidate of a query that counts: its memory may be used, and one found by its vector is similar
enough. *)
Definition counts (q : CandidateQuery) (c : Candidate) : Prop :=
  effective (q_Scope q) (q_Now q) (c_Memory c) ∧
  (c_Channel c = ChannelVector → num_le (MinVectorSimilarity q) (Similarity c) = true).
#[global] Instance counts_dec q c : Decision (counts q c).
Proof. unfold counts. apply _. Defined.


Section recaller.
Context (policy : RecallPolicy).
Context (embed : option (string → res Error (list (list number)))).
Context (search : CandidateQuery → CandidateSet * option Error).
Context (countTokens : string → Z).
Context (Marshal : string → Kind → string → string → list string → option string).
Context (rctx : nat → Ctx).





(** ** Fusion *)














(** ** Limits *)

Definition cost (item : RecallItem) : Z :=
  match canonicalRecallPayload Marshal item with Ok p => countTokens p | Err _ => 0 end.

Definition tokens (items : list RecallItem) : Z := foldr (λ i n, cost i + n) 0 items.

Lemma tokens_snoc items i : tokens (items ++ [i]) = tokens items + cost i.
Proof. unfold tokens. induction items as [|x items IH]; simpl; lia. Qed.





(** ** Recall *)






End recaller.

(** * The memory store behind recall *)

Lemma bind_Err {A B} (c : M A) (k : A → M B) n e :
  bind c k n = Err e → c n = Err e ∨ ∃ n1 a, c n = Ok (n1, a) ∧ k a n1 = Err e.
Proof. unfold bind. destruct (c n) as [[n1 a]|e']; intros H; [eauto|left; congruence]. Qed.

Lemma safe_error e : safeRecallDependencyError e ≠ ErrInvalidRecallResult.
Proof.
  unfold safeRecallDependencyError, dependencyContextError.
  destruct (is_ctx Canceled e); [done|]. destruct (is_ctx DeadlineExceeded e); [done|].
  destruct (as_channel e) as [c|]; [destruct (validChannel c)|]; destruct (IsRecoverable e); done.
Qed.

Lemma context_error e e' : dependencyContextError e = Some e' → ∃ x, e' = ErrCtx x.
Proof.
  unfold dependencyContextError. destruct (is_ctx Canceled e); [intros [= <-]; eauto|].
  destruct (is_ctx DeadlineExceeded e); [intros [= <-]; eauto|done].
Qed.

Lemma ask_Err rctx n e : ask rctx n = Err e → ∃ x, e = ErrCtx x.
Proof. unfold ask. destruct (rctx n) as [x|]; [|done]. intros [= <-]. eauto. Qed.

(** ** What the store returns *)

Section channel.
Context `{U : UnicodeTables}.
Context (Sum256 : string → Digest).
Context (s : Store).

(** A candidate as it is stored. *)
Definition from_store (c : Candidate) : Prop :=
  memories s !! m_ID (c_Memory c) = Some (c_Memory c) ∧
  c_Sources c = default [] (sources s !! m_ID (c_Memory c)).

(** A channel's answer to a query. *)
Record channel_good (q : CandidateQuery) (ch : Channel) (limit : Z) (cs : list Candidate) : Prop := {
  cg_length : Z.of_nat (length cs) ≤ limit;
  cg_distinct : NoDup ((λ c, m_ID (c_Memory c)) <$> cs);
  cg_each c : c ∈ cs → c_Channel c = ch ∧ 0 < Rank c ≤ limit ∧ from_store c ∧ visible q (c_Memory c)
}.

Lemma rankCandidates_spec cs limit ch c :
  c ∈ rankCandidates cs limit ch →
  ∃ c0 i, cs !! i = Some c0 ∧ c_Memory c = c_Memory c0 ∧ c_Sources c = c_Sources c0 ∧
    Similarity c = Similarity c0 ∧ c_Channel c = ch ∧ Rank c = Z.of_nat i + 1 ∧ Rank c ≤ limit.
Proof.
  unfold rankCandidates. intros (i & Hi)%list_elem_of_lookup. rewrite list_lookup_imap in Hi.
  destruct (limit <? Z.of_nat (length cs)) eqn:Hl.
  - destruct (take (Z.to_nat limit) cs !! i) as [c0|] eqn:H0; [|done]. injection Hi as <-.
    apply lookup_take_Some in H0 as [H0 Hlt]. exists c0, i. simpl. split_and!; try done. lia.
  - destruct (cs !! i) as [c0|] eqn:H0; [|done]. injection Hi as <-. exists c0, i. simpl.
    apply Z.ltb_ge in Hl. pose proof (lookup_lt_Some _ _ _ H0). split_and!; try done. lia.
Qed.

Lemma rankCandidates_length cs limit ch :
  0 ≤ limit → Z.of_nat (length (rankCandidates cs limit ch)) ≤ limit.
Proof.
  intros H. unfold rankCandidates. rewrite length_imap.
  destruct (limit <? _) eqn:E; [rewrite length_take; lia|apply Z.ltb_ge in E; lia].
Qed.

Lemma rankCandidates_memories cs limit ch :
  c_Memory <$> rankCandidates cs limit ch `sublist_of` c_Memory <$> cs.
Proof.
  unfold rankCandidates. rewrite fmap_imap.
  assert (∀ l : list Candidate, imap (λ i c, c_Memory (c <| c_Sources := copySources (c_Sources c) |>
    <| c_Channel := ch |> <| Rank := Z.of_nat i + 1 |>)) l = c_Memory <$> l) as Hmap.
  { intros l. generalize (λ i : nat, Z.of_nat i + 1). intros f. revert f.
    induction l as [|c l IH]; intros f; [done|]. rewrite imap_cons, fmap_cons. f_equal. apply (IH (f ∘ S)). }
  destruct (limit <? _).
  - rewrite <-(take_drop (Z.to_nat limit) cs) at 2. rewrite fmap_app. etransitivity;
      [apply reflexive_eq, Hmap|by apply sublist_inserts_r].
  - apply reflexive_eq, Hmap.
Qed.

(** Ranking good candidates gives a good channel. *)
Lemma ranked_good q ch limit cs :
  0 ≤ limit → NoDup ((λ c, m_ID (c_Memory c)) <$> cs) →
  (∀ c, c ∈ cs → from_store c ∧ visible q (c_Memory c)) →
  channel_good q ch limit (rankCandidates cs limit ch).
Proof.
  intros Hl Hnd Hcs. split.
  - by apply rankCandidates_length.
  - pose proof (rankCandidates_memories cs limit ch) as Hsub.
    apply (fmap_sublist m_ID) in Hsub. rewrite <-!list_fmap_compose in Hsub.
    eapply sublist_NoDup; [exact Hnd|exact Hsub].
  - intros c Hc. destruct (rankCandidates_spec _ _ _ _ Hc) as (c0 & i & H0 & Hm & Hs & _ & Hch & Hr & Hle).
    apply list_elem_of_lookup_2, Hcs in H0 as [Hst Hv]. unfold from_store in *. rewrite Hm, Hs.
    split_and!; try done; [lia|apply Hst..].
Qed.

Lemma plain_good q (es : list (string * Memory)) :
  (∀ id m, memories s !! id = Some m → m_ID m = id) →
  (∀ e, e ∈ es → memories s !! e.1 = Some e.2 ∧ visible q e.2) → NoDup es.*1 →
  NoDup ((λ c, m_ID (c_Memory c)) <$> (plain_candidate s <$> es)) ∧
  ∀ c, c ∈ plain_candidate s <$> es → from_store c ∧ visible q (c_Memory c).
Proof.
  intros Hk Hes Hnd. split.
  - rewrite <-list_fmap_compose.
    assert ((λ c, m_ID (c_Memory c)) ∘ plain_candidate s <$> es = es.*1) as ->; [|done].
    apply list_fmap_ext. intros i e Hi. simpl. apply Hk. apply Hes. by eapply list_elem_of_lookup_2.
  - intros c (e & -> & He)%list_elem_of_fmap. apply Hes in He as [He Hv]. unfold from_store. simpl.
    by rewrite (Hk _ _ He).
Qed.

Lemma sorted_ids less `{∀ x y, Decision (less x y)} (cs : list Candidate) :
  NoDup ((λ c, m_ID (c_Memory c)) <$> cs) → NoDup ((λ c, m_ID (c_Memory c)) <$> sort_slice less cs).
Proof. by rewrite sort_slice_perm. Qed.

Lemma filter_ids {A} (f : A → string) (P : A → Prop) `{∀ x, Decision (P x)} l :
  NoDup (f <$> l) → NoDup (f <$> filter P l).
Proof. intros Hnd. eapply sublist_NoDup; [exact Hnd|]. apply fmap_sublist, sublist_filter. Qed.

Lemma omap_ids {A} (f : A → option Candidate) (g : A → string) l :
  (∀ e c, e ∈ l → f e = Some c → m_ID (c_Memory c) = g e) → NoDup (g <$> l) →
  NoDup ((λ c, m_ID (c_Memory c)) <$> omap f l).
Proof.
  intros Hf Hnd. eapply sublist_NoDup; [exact Hnd|]. clear Hnd.
  induction l as [|e l IH]; [constructor|]. simpl.
  assert ((λ c, m_ID (c_Memory c)) <$> omap f l `sublist_of` g <$> l) as IH'.
  { apply IH. intros e' c He'. apply Hf. set_solver. }
  destruct (f e) as [c|] eqn:E; [|by apply sublist_cons]. rewrite fmap_cons, (Hf e c); [by apply sublist_skip|set_solver|done].
Qed.

Context (q : CandidateQuery).
Context (Hkey : ∀ id m, memories s !! id = Some m → m_ID m = id).

Lemma elem_found e : e ∈ found s q → memories s !! e.1 = Some e.2 ∧ visible q e.2.
Proof. intros [Hv He]%list_elem_of_filter. destruct e. by apply elem_of_map_to_list in He. Qed.

Lemma found_ids : NoDup (found s q).*1.
Proof. apply filter_ids, NoDup_fst_map_to_list. Qed.

Lemma vector_match_spec e c :
  e ∈ found s q → vector_match Sum256 s q e = Some c →
  m_ID (c_Memory c) = e.1 ∧ from_store c ∧ visible q (c_Memory c) ∧
  num_le (MinVectorSimilarity q) (Similarity c) = true ∧ num_le (Similarity c) (Num 1) = true ∧
  is_finite (Similarity c) = true.
Proof.
  intros [Hm Hv]%elem_found. destruct e as [id m]. simpl in *. unfold vector_match.
  destruct (embeddings s !! _) as [emb|]; [|done]. destruct (decide _); [done|].
  destruct (cosineSimilarity _ _) as [sim|] eqn:Hsim; [|done].
  destruct (num_le (MinVectorSimilarity q) sim) eqn:Hle; [|done]. intros [= <-]. simpl.
  assert (num_le sim (Num 1) = true ∧ is_finite sim = true) as [H1 H2].
  { revert Hsim. unfold cosineSimilarity. destruct (decide _); [done|]. destruct (decide _); [done|].
    intros [= <-]. split; [|done]. simpl. apply bool_decide_eq_true.
    destruct (decide _) as [|Hd1]; [lra|]. destruct (decide _) as [|Hd2]; lra. }
  unfold from_store. simpl. rewrite (Hkey _ _ Hm). split_and!; done.
Qed.

Lemma plain_filter (P : string * Memory → Prop) `{∀ e, Decision (P e)} :
  let cs := plain_candidate s <$> filter P (found s q) in
  NoDup ((λ c, m_ID (c_Memory c)) <$> cs) ∧ ∀ c, c ∈ cs → from_store c ∧ visible q (c_Memory c).
Proof.
  apply plain_good; [done| |by apply filter_ids, found_ids].
  intros e [_ He]%list_elem_of_filter. by apply elem_found.
Qed.

Lemma rank_nil limit ch : rankCandidates [] limit ch = [].
Proof. unfold rankCandidates. destruct (_ <? _); [by rewrite take_nil|done]. Qed.

Lemma exact_good :
  0 ≤ ExactLimit q →
  channel_good q ChannelExact (ExactLimit q) (Exact (search_locked Sum256 s q)) ∧
  (Exact (search_locked Sum256 s q) ≠ [] → 0 < ExactLimit q ∧ q_Keys q ≠ []).
Proof.
  intros Hl. cbn [Exact search_locked]. unfold exact_candidates. destruct (0 <? ExactLimit q) eqn:Hpos.
  - destruct (plain_filter (λ e, m_Key e.2 ∈ q_Keys q)) as [Hnd Hcs]. split.
    + apply ranked_good; [done|by apply sorted_ids|]. intros c Hc. rewrite elem_of_sort_slice in Hc. by apply Hcs.
    + intros Hne. split; [by apply Z.ltb_lt|]. intros Hk. apply Hne.
      assert (filter (λ e, m_Key e.2 ∈ q_Keys q) (found s q) = []) as ->; [|apply rank_nil].
      apply filter_nil_Forall, Forall_forall. intros e _. rewrite Hk. apply not_elem_of_nil.
  - split; [|by rewrite rank_nil]. apply ranked_good; [done|constructor|set_solver].
Qed.

Lemma full_text_good :
  0 ≤ FullTextLimit q →
  channel_good q ChannelFullText (FullTextLimit q) (FullText (search_locked Sum256 s q)) ∧
  (FullText (search_locked Sum256 s q) ≠ [] → 0 < FullTextLimit q).
Proof.
  intros Hl. cbn [FullText search_locked]. unfold full_text_candidates, hitting.
  destruct (0 <? FullTextLimit q) eqn:Hpos; [|split; [|by rewrite rank_nil]; apply ranked_good; [done|constructor|set_solver]].
  split; [|by intros _; apply Z.ltb_lt].
  destruct (plain_filter (λ e, 0 < term_hits q e.2)) as [Hnd Hcs].
  apply ranked_good; [done|by apply sorted_ids, filter_ids|].
  intros c Hc. rewrite elem_of_sort_slice in Hc. apply list_elem_of_filter in Hc as [_ Hc]. by apply Hcs.
Qed.

Lemma vector_good :
  0 ≤ VectorLimit q →
  channel_good q ChannelVector (VectorLimit q) (Vector (search_locked Sum256 s q)) ∧
  (Vector (search_locked Sum256 s q) ≠ [] → 0 < VectorLimit q) ∧
  ∀ c, c ∈ Vector (search_locked Sum256 s q) → num_le (MinVectorSimilarity q) (Similarity c) = true ∧
    num_le (Similarity c) (Num 1) = true ∧ is_finite (Similarity c) = true.
Proof.
  intros Hl. cbn [Vector search_locked]. unfold vector_candidates.
  destruct (0 <? VectorLimit q) eqn:Hpos.
  - split_and!; [|by intros _; apply Z.ltb_lt|].
    + apply ranked_good; [done| |].
      * apply sorted_ids, (omap_ids _ fst); [|apply found_ids]. intros e c He Hc.
        by apply (vector_match_spec e c).
      * intros c Hc. rewrite elem_of_sort_slice, list_elem_of_omap in Hc. destruct Hc as (e & He & Hc).
        by destruct (vector_match_spec e c He Hc) as (_ & ? & ? & _).
    + intros c Hc. destruct (rankCandidates_spec _ _ _ _ Hc) as (c0 & i & H0 & _ & _ & -> & _).
      apply list_elem_of_lookup_2 in H0. rewrite elem_of_sort_slice, list_elem_of_omap in H0.
      destruct H0 as (e & He & Hc0). by destruct (vector_match_spec e c0 He Hc0) as (_ & _ & _ & ? & ? & ?).
  - split_and!; [apply ranked_good; [done|constructor|set_solver]|by rewrite rank_nil|].
    intros c Hc. rewrite rank_nil in Hc. by apply elem_of_nil in Hc.
Qed.

End channel.

(** ** The checks pass *)

Section checks.
Context (uuid_Parse : string → option string) (Huuid : ∀ id, uuid_Parse id = Some id → ¬ Blank id).
Context (s : Store).
Context (Hvalid : all_valid uuid_Parse s) (Hkeyed : keyed s).
(** Every stored source says what it is. *)
Definition named : Prop :=
  ∀ id l src, sources s !! id = Some l → src ∈ l → ¬ Blank (s_Kind src) ∧ ¬ Blank (s_Ref src).
Context (Hnamed : named).

Lemma source_refs_named refs l :
  (∀ src, src ∈ l → ¬ Blank (s_Kind src) ∧ ¬ Blank (s_Ref src)) → ∃ refs', source_refs refs l = Ok refs'.
Proof.
  revert refs. induction l as [|src l IH]; intros refs Hl; cbn [source_refs]; [eauto|].
  destruct (Hl src) as [H1 H2]; [set_solver|]. rewrite decide_False by tauto. apply IH.
  intros src' Hs. apply Hl. set_solver.
Qed.

Lemma stored_refs id : ∃ refs, normalizedSourceRefs (default [] (sources s !! id)) = Ok refs.
Proof.
  unfold normalizedSourceRefs. destruct (source_refs_named [] (default [] (sources s !! id))) as [refs Hr].
  { intros src Hs. destruct (sources s !! id) as [l|] eqn:Hl; [by eapply Hnamed|set_solver]. }
  rewrite Hr. cbn [res_bind]. eauto.
Qed.

Definition ids_ok (ids : GoMap recalledIdentity) : Prop :=
  ∀ id p, ids !! id = Some p → memories s !! id = Some (id_memory p) ∧
    normalizedSourceRefs (default [] (sources s !! id)) = Ok (id_refs p).

Lemma confidence_num c : validConfidence c = true → is_finite c = true ∧ num_eq c c = true.
Proof.
  unfold validConfidence. intros [H1 H2]%andb_true_iff. destruct c as [q|[]|]; try done. split; [done|].
  unfold num_eq. simpl. by rewrite bool_decide_eq_true_2 by (apply Qle_refl).
Qed.

Lemma same_memory_refl m : valid_memory uuid_Parse m → same_memory m m = true.
Proof.
  intros Hm. unfold same_memory. rewrite bool_decide_eq_true_2 by done.
  by destruct (confidence_num _ (vm_confidence _ _ Hm)) as [_ ->].
Qed.

Lemma stored_candidate_ok q ch c :
  c_Channel c = ch_channel ch → 0 < Rank c ≤ ch_limit ch → from_store s c → visible q (c_Memory c) →
  candidate_ok q ch c = true.
Proof.
  intros Hch Hr [Hm _] (V1 & V2 & _). pose proof (Hvalid _ _ Hm) as Hv.
  unfold candidate_ok. cbv zeta. rewrite !andb_true_iff, !negb_true_iff.
  rewrite !bool_decide_eq_true, !bool_decide_eq_false, !Z.ltb_lt, !Z.leb_le.
  pose proof (Huuid _ (vm_id _ _ Hv)). pose proof (vm_key _ _ Hv).
  pose proof (vm_content _ _ Hv ltac:(by rewrite V2)).
  destruct (confidence_num _ (vm_confidence _ _ Hv)) as [Hfin _].
  pose proof (vm_version _ _ Hv).
  repeat split; try done; try lia; try apply Hv. by intros [|].
Qed.

Lemma validate_candidates_safe rctx q ch seen ids acc cs n :
  (∀ c, c ∈ cs → candidate_ok q ch c = true ∧ similarity_ok ch c = true ∧ from_store s c) →
  NoDup ((λ c, m_ID (c_Memory c)) <$> cs) → (∀ c, c ∈ cs → m_ID (c_Memory c) ∉ seen) →
  ids_ok ids → Forall (from_store s) acc →
  match validate_candidates rctx q ch seen ids acc cs n with
  | Ok (_, (ids', acc')) => ids_ok ids' ∧ Forall (from_store s) acc'
  | Err e => ∃ x, e = ErrCtx x
  end.
Proof.
  revert seen ids acc n. induction cs as [|c cs IH]; intros seen ids acc n Hcs Hnd Hseen Hids Hacc;
    cbn [validate_candidates]; [done|].
  destruct (Hcs c) as (Hok & Hsim & Hst); [set_solver|]. rewrite fmap_cons, NoDup_cons in Hnd.
  destruct Hnd as [Hc Hnd]. unfold bind at 1, ask. destruct (rctx n) as [x|]; [eauto|]. cbn [res_bind].
  rewrite Hok, bool_decide_eq_false_2 by (apply Hseen; set_solver). cbn [negb orb].
  destruct (stored_refs (m_ID (c_Memory c))) as [refs Hrefs]. pose proof Hst as [Hm Hsrc].
  unfold bind at 1, lift. rewrite Hsrc, Hrefs. cbn [res_bind]. rewrite Hsim. cbn [negb].
  assert (∃ ids', (match ids !! m_ID (c_Memory c) with
    | Some previous =>
        if negb (same_memory (id_memory previous) (c_Memory c)) || bool_decide (id_refs previous ≠ refs)
        then fail ErrInvalidRecallResult else ret ids
    | None => ret (<[m_ID (c_Memory c) := mkIdentity (c_Memory c) refs]> ids)
    end) (S n) = Ok (S n, ids') ∧ ids_ok ids') as (ids' & Heq & Hids').
  { destruct (ids !! m_ID (c_Memory c)) as [p|] eqn:Hp.
    - destruct (Hids _ _ Hp) as [Hmp Hrp].
      assert (id_memory p = c_Memory c) as -> by (rewrite Hm in Hmp; by injection Hmp).
      assert (id_refs p = refs) as -> by (rewrite Hrefs in Hrp; by injection Hrp).
      rewrite same_memory_refl by (by apply (Hvalid _ _ Hm)).
      rewrite bool_decide_eq_false_2 by (by intros []). by eexists.
    - eexists. split; [reflexivity|]. intros id p [[<- <-]|[_ H]]%lookup_insert_Some; [done|by apply Hids]. }
  unfold bind. rewrite Heq. eapply IH; [|exact Hnd| |exact Hids'|].
  - intros c' Hc'. apply Hcs. by right.
  - intros c' Hc' [Heq'|Hin]%elem_of_cons.
    + apply Hc, list_elem_of_fmap. by exists c'.
    + by apply (Hseen c'); [right|].
  - destruct (usable q ch c); [|done]. apply Forall_app_2; [done|by apply Forall_cons_2].
Qed.

(** A channel whose candidates are all accepted as stored, unless the context ends. *)
Definition passes (rctx : nat → Ctx) (q : CandidateQuery) (ch : candidateSetChannel) : Prop :=
  ∀ ids n, ids_ok ids →
  match validate_channel rctx q ids ch n with
  | Ok (_, (ids', acc')) => ids_ok ids' ∧ Forall (from_store s) acc'
  | Err e => ∃ x, e = ErrCtx x
  end.

Lemma validate_channel_safe rctx q ch :
  channel_good s q (ch_channel ch) (ch_limit ch) (ch_candidates ch) →
  (ch_candidates ch ≠ [] → ch_enabled ch = true) →
  (∀ c, c ∈ ch_candidates ch → similarity_ok ch c = true) → passes rctx q ch.
Proof.
  intros [Hlen Hnd Heach] Hen Hsim ids n Hids. unfold validate_channel, bind at 1.
  destruct (ask rctx n) as [[n1 []]|e] eqn:Ha; [|by eapply ask_Err].
  destruct (_ || _) eqn:Hbad.
  - exfalso. apply orb_true_iff in Hbad as [Hbad|Hbad%Z.ltb_lt]; [|lia].
    apply andb_true_iff in Hbad as [H1%negb_true_iff H2%negb_true_iff%bool_decide_eq_false].
    by rewrite Hen in H1.
  - apply validate_candidates_safe; [|done| |done|constructor].
    + intros c Hc. destruct (Heach c Hc) as (H1 & H2 & H3 & H4). split_and!; [|by apply Hsim|done].
      by apply stored_candidate_ok.
    + intros c _. apply not_elem_of_nil.
Qed.
(** A query [Recall] asks and the store accepts. *)
Record asked (q : CandidateQuery) : Prop := {
  a_limits : 0 ≤ ExactLimit q ∧ 0 ≤ FullTextLimit q ∧ 0 ≤ VectorLimit q;
  a_text : 0 < FullTextLimit q → ¬ Blank (q_Text q);
  a_vector : 0 < VectorLimit q → QueryVector q ≠ [] ∧ num_le (Num 0) (MinVectorSimilarity q) = true
}.

Lemma accepted_asked l q :
  ValidateCandidateQuery q l = Ok () → (Blank (q_Text q) → FullTextLimit q = 0) → asked q.
Proof.
  intros H Htext. unfold ValidateCandidateQuery in H.
  destruct (Limits_Validate l) as [[]|]; [|done]. cbn [res_bind] in H.
  destruct (Scope_Validate (q_Scope q)) as [[]|]; [|done]. cbn [res_bind] in H.
  destruct (check (forallb _ _) _) as [[]|] eqn:Hlim in H; [|done]. cbn [res_bind] in H.
  do 3 (destruct (check _ _) as [[]|] in H; [|done]; cbn [res_bind] in H).
  apply check_Ok in Hlim. cbn [forallb] in Hlim.
  rewrite !andb_true_iff, !Z.leb_le in Hlim. split; [lia| |].
  - intros Hpos Hb. rewrite Htext in Hpos by done. lia.
  - intros Hpos. destruct (VectorLimit q =? 0) eqn:Hv; [apply Z.eqb_eq in Hv; lia|].
    destruct (check _ _) as [[]|] eqn:Hvec in H; [|done]. apply check_Ok in Hvec.
    rewrite !andb_true_iff, Z.ltb_lt, Z.eqb_eq in Hvec.
    split; [|tauto]. intros E. rewrite E in Hvec. simpl in Hvec. lia.
Qed.

Lemma num_le_trans x y z : num_le x y = true → num_le y z = true → num_le x z = true.
Proof.
  destruct x as [x|[]|], y as [y|[]|], z as [z|[]|]; try done. simpl. rewrite !bool_decide_eq_true.
  intros. lra.
Qed.

Section search.
Context `{U : UnicodeTables} (Sum256 : string → Digest) (rctx : nat → Ctx) (q : CandidateQuery).
Context (Hasked : asked q).

Lemma channels_pass :
  passes rctx q (mkChannel ChannelExact (Exact (search_locked Sum256 s q)) (ExactLimit q)
    ((0 <? ExactLimit q) && negb (bool_decide (q_Keys q = [])))) ∧
  passes rctx q (mkChannel ChannelFullText (FullText (search_locked Sum256 s q)) (FullTextLimit q)
    ((0 <? FullTextLimit q) && negb (bool_decide (Blank (q_Text q))))) ∧
  passes rctx q (mkChannel ChannelVector (Vector (search_locked Sum256 s q)) (VectorLimit q)
    ((0 <? VectorLimit q) && negb (bool_decide (QueryVector q = [])))).
Proof.
  destruct Hasked as [(Hl1 & Hl2 & Hl3) Htext Hvec], Hkeyed as [Hkey _].
  destruct (exact_good Sum256 s q Hkey Hl1) as [G1 E1].
  destruct (full_text_good Sum256 s q Hkey Hl2) as [G2 E2].
  destruct (vector_good Sum256 s q Hkey Hl3) as (G3 & E3 & S3).
  split_and!; apply validate_channel_safe; try done; cbn [ch_candidates ch_enabled ch_channel].
  - intros [H1 H2]%E1. by rewrite (proj2 (Z.ltb_lt _ _) H1), bool_decide_eq_false_2.
  - intros H1%E2. by rewrite (proj2 (Z.ltb_lt _ _) H1), bool_decide_eq_false_2 by auto.
  - intros H1%E3. destruct (Hvec H1). by rewrite (proj2 (Z.ltb_lt _ _) H1), bool_decide_eq_false_2.
  - intros c Hc. destruct (S3 c Hc) as (Hmin & Hmax & Hfin). apply orb_true_iff. right.
    assert (0 < VectorLimit q) as [_ H0]%Hvec by (apply E3; intros E; by rewrite E in Hc; apply elem_of_nil in Hc).
    by rewrite Hfin, Hmax, (num_le_trans _ _ _ H0 Hmin).
Qed.

Lemma validateCandidateSet_safe n :
  match validateCandidateSet rctx (search_locked Sum256 s q) q n with
  | Ok (_, set) => Forall (from_store s) (Exact set ++ FullText set ++ Vector set)
  | Err e => ∃ x, e = ErrCtx x
  end.
Proof.
  destruct channels_pass as (P1 & P2 & P3). unfold validateCandidateSet, bind.
  specialize (P1 ∅ n). destruct (validate_channel _ _ _ _ n) as [[n1 [ids1 acc1]]|e];
    [destruct P1 as [I1 A1]; [|]|apply P1]; try (by intros id p H; rewrite lookup_empty in H).
  specialize (P2 ids1 n1 I1). cbn [fst]. destruct (validate_channel _ _ _ _ n1) as [[n2 [ids2 acc2]]|e]; [|done].
  destruct P2 as [I2 A2]. specialize (P3 ids2 n2 I2). cbn [fst].
  destruct (validate_channel _ _ _ _ n2) as [[n3 [ids3 acc3]]|e]; [|done]. destruct P3 as [I3 A3].
  destruct (ask rctx n3) as [[n4 []]|e] eqn:Ha; [|by eapply ask_Err]. simpl. by repeat apply Forall_app_2.
Qed.

End search.

(** The items recalled are memories as stored. *)
Definition stored_item (i : RecallItem) : Prop :=
  memories s !! m_ID (i_Memory i) = Some (i_Memory i) ∧
  i_Sources i = default [] (sources s !! m_ID (i_Memory i)).

Lemma fuse_all_stored policy rctx byID cs n :
  Forall (from_store s) cs → (∀ id f, byID !! id = Some f → stored_item (f_item f)) →
  match fuse_all policy rctx byID cs n with
  | Ok (_, byID') => ∀ id f, byID' !! id = Some f → stored_item (f_item f)
  | Err e => ∃ x, e = ErrCtx x
  end.
Proof.
  intros Hcs. revert byID n. induction Hcs as [|c cs Hc Hcs IH]; intros byID n Hall; cbn [fuse_all]; [done|].
  unfold bind. destruct (ask rctx n) as [[n1 []]|e] eqn:Ha; [|by eapply ask_Err]. apply IH.
  intros id f. unfold fuse_one. intros [[<- <-]|[_ H]]%lookup_insert_Some; [|by eapply Hall]. simpl.
  destruct (byID !! m_ID (c_Memory c)) as [f0|] eqn:H0; simpl; [by eapply Hall|done].
Qed.

Lemma fuse_stored policy rctx set n :
  Forall (from_store s) (Exact set ++ FullText set ++ Vector set) →
  match fuse policy rctx set n with
  | Ok (_, items) => Forall stored_item items
  | Err e => ∃ x, e = ErrCtx x
  end.
Proof.
  intros Hset. unfold fuse, bind. destruct (ask rctx n) as [[n1 []]|e] eqn:Ha; [|by eapply ask_Err].
  pose proof (fuse_all_stored policy rctx ∅ _ n1 Hset) as Hf.
  destruct (fuse_all _ _ _ _ n1) as [[n2 byID]|e]; [|apply Hf; intros id f H; by rewrite lookup_empty in H].
  destruct (ask rctx n2) as [[n3 []]|e] eqn:Hb; [|by eapply ask_Err].
  destruct (ask rctx n3) as [[n4 []]|e] eqn:Hc; [|by eapply ask_Err]. simpl.
  rewrite Forall_fmap, sort_slice_perm, Forall_fmap. apply Forall_forall. intros [id f] Hi.
  apply elem_of_map_to_list in Hi. simpl. eapply Hf; [|exact Hi]. intros id' f' H. by rewrite lookup_empty in H.
Qed.

Lemma take_items_stored policy countTokens Marshal rctx remaining items fused n :
  Forall stored_item items → Forall stored_item fused →
  match take_items policy countTokens Marshal rctx remaining items fused n with
  | Ok (_, items') => Forall stored_item items'
  | Err e => e ≠ ErrInvalidRecallResult
  end.
Proof.
  intros Hi Hf. revert remaining items n Hi.
  induction Hf as [|i fused Hst Hf IH]; intros remaining items n Hi; cbn [take_items]; [done|].
  destruct (_ =? _); [done|]. unfold bind at 1, lift, canonicalRecallPayload.
  destruct Hst as [Hm Hsrc]. destruct (stored_refs (m_ID (i_Memory i))) as [refs Hrefs].
  rewrite Hsrc, Hrefs. cbn [res_bind]. destruct (Marshal _ _ _ _ refs) as [payload|]; [|done]. cbn [res_bind].
  unfold bind. destruct (ask rctx n) as [[n1 []]|e] eqn:Ha; [|by destruct (ask_Err _ _ _ Ha) as [x ->]].
  destruct (_ <? 0); [done|]. destruct (_ <? _); [by apply IH|]. apply IH, Forall_app_2; [done|].
  by apply Forall_cons_2.
Qed.

End checks.

(** ** Recall over the memory store *)

Definition rejects_result {A} (r : res Error A) : Prop := r = Err ErrInvalidRecallResult.

Lemma check_safe b e : e ≠ ErrInvalidRecallResult → ¬ rejects_result (check b e).
Proof. unfold rejects_result, check. destruct b; congruence. Qed.

Lemma bind_safe {A B} (r : res Error A) (k : A → res Error B) :
  ¬ rejects_result r → (∀ a, ¬ rejects_result (k a)) → ¬ rejects_result (let? a := r in k a).
Proof. unfold rejects_result. intros Hr Hk. destruct r as [a|e]; cbn [res_bind]; [apply Hk|congruence]. Qed.

Lemma scope_safe sc : ¬ rejects_result (Scope_Validate sc).
Proof. apply bind_safe; [by apply check_safe|intros _; by apply check_safe]. Qed.

Lemma validate_request_safe policy r : ¬ rejects_result (validateAndCopyRequest policy r).
Proof.
  apply bind_safe; [apply scope_safe|intros _].
  repeat (apply bind_safe; [by apply check_safe|intros _]). done.
Qed.

Lemma embed_query_safe policy embed rctx r n :
  match embed_query policy embed rctx r (query_of policy r) n with
  | Ok (_, (q, _)) => q_Text q = rr_Text r ∧ FullTextLimit q = FullTextLimit (query_of policy r)
  | Err e => e ≠ ErrInvalidRecallResult
  end.
Proof.
  unfold embed_query. destruct embed as [f|]; [|done]. destruct (_ && _); [|done]. unfold bind at 1.
  destruct (ask rctx n) as [[n1 []]|e] eqn:Ha; [|by destruct (ask_Err _ _ _ Ha) as [x ->]].
  destruct (f (rr_Text r)) as [vectors|e].
  - unfold bind, lift, validateEmbeddingResult. destruct vectors as [|v [|]]; try done. by destruct (_ && _).
  - destruct (dependencyContextError e) as [e'|] eqn:He; [by apply context_error in He as [x ->]|].
    destruct (IsRecoverable e); [done|]. apply safe_error.
Qed.

Section recall.
Context `{U : UnicodeTables} (uuid_Parse : string → option string).
Context (Marshal : CreateRequest → option string) (Sum256 : string → Digest).

(** The memory store as the recaller asks it. *)
Definition store_search (ctx : nat → Ctx) (s : Store) (q : CandidateQuery) : CandidateSet * option Error :=
  match SearchCandidates Sum256 ctx s q with
  | Ok set => (set, None)
  | Err e => (mkSet [] [] [], Some e)
  end.

Lemma query_error q l e : ValidateCandidateQuery q l = Err e → e = ErrInvalidMemory ∨ e = ErrInvalidScope.
Proof.
  unfold ValidateCandidateQuery, Limits_Validate, Scope_Validate, check. cbv zeta. intros H.
  repeat match type of H with
  | context [if ?b then _ else _] => destruct b; cbn [res_bind] in H; try (injection H as <-; auto); try done
  end.
Qed.

Lemma search_error ctx s q e :
  SearchCandidates Sum256 ctx s q = Err e → as_channel e = None.
Proof.
  unfold SearchCandidates, guarded. destruct (ctx 0%nat); [by intros [= <-]|].
  destruct (ValidateCandidateQuery q (limits s)) as [[]|e'] eqn:He; cbn [res_bind].
  - destruct (ctx 1%nat); [by intros [= <-]|done].
  - intros [= <-]. by destruct (query_error _ _ _ He) as [->| ->].
Qed.

Lemma guarded_Ok ctx v : guarded ctx v = Ok () → v = Ok ().
Proof. unfold guarded. destruct (ctx 0%nat); [done|]. by destruct v as [[]|]. Qed.

(** The rest of the recall after an accepted search. *)
Lemma recall_tail_safe s policy countTokens payload rctx q degraded n :
  (∀ id, uuid_Parse id = Some id → ¬ Blank id) → all_valid uuid_Parse s → keyed s → named s → asked q →
  match bind (validateCandidateSet rctx (search_locked Sum256 s q) q) (λ set,
    bind (ask rctx) (λ _, bind (fuse policy rctx set) (λ fused,
    bind (take_items policy countTokens payload rctx (MaxTokens policy) [] fused) (λ items,
    bind (ask rctx) (λ _, ret (mkResult items degraded (p_Version policy))))))) n with
  | Ok (_, result) => Forall (stored_item s) (Items result)
  | Err e => e ≠ ErrInvalidRecallResult
  end.
Proof.
  intros Huuid Hv Hk Hnamed Hq. unfold bind at 1.
  pose proof (validateCandidateSet_safe _ Huuid s Hv Hk Hnamed Sum256 rctx q Hq n) as Hset.
  destruct (validateCandidateSet _ _ _ n) as [[n1 set]|e]; [|by destruct Hset as [x ->]]. unfold bind.
  destruct (ask rctx n1) as [[n2 []]|e] eqn:Ha; [|by destruct (ask_Err _ _ _ Ha) as [x ->]].
  pose proof (fuse_stored s policy rctx set n2 Hset) as Hf.
  destruct (fuse _ _ _ n2) as [[n3 fused]|e]; [|by destruct Hf as [x ->]].
  pose proof (take_items_stored _ Huuid s Hv Hk Hnamed policy countTokens payload rctx (MaxTokens policy) [] fused n3) as Hi.
  destruct (take_items _ _ _ _ _ _ _ n3) as [[n4 items]|e]; [|apply Hi; [constructor|done]].
  destruct (ask rctx n4) as [[n5 []]|e] eqn:Hb; [|by destruct (ask_Err _ _ _ Hb) as [x ->]].
  apply Hi; [constructor|done].
Qed.

Lemma recall_body_safe s policy embed countTokens payload rctx sctx r n :
  (∀ id, uuid_Parse id = Some id → ¬ Blank id) → all_valid uuid_Parse s → keyed s → named s →
  match recall_body policy embed (store_search sctx s) countTokens payload rctx r n with
  | Ok (_, result) => Forall (stored_item s) (Items result)
  | Err e => e ≠ ErrInvalidRecallResult
  end.
Proof.
  intros Huuid Hv Hk Hnamed. unfold recall_body, bind at 1.
  pose proof (embed_query_safe policy embed rctx r n) as He.
  destruct (embed_query _ _ _ _ _ n) as [[n1 [q degraded]]|e]; [|done]. destruct He as [Ht Hl].
  destruct (_ && _).
  { unfold bind. destruct (ask rctx n1) as [[n2 []]|e] eqn:Ha; [constructor|by destruct (ask_Err _ _ _ Ha) as [x ->]]. }
  destruct (store_search sctx s q) as [set err] eqn:Hs. unfold bind at 1.
  destruct (ask rctx n1) as [[n2 []]|e] eqn:Ha; [|by destruct (ask_Err _ _ _ Ha) as [x ->]].
  revert Hs. unfold store_search. destruct (SearchCandidates Sum256 sctx s q) as [set0|e] eqn:Hq; intros [= <- <-].
  - unfold SearchCandidates in Hq. destruct (guarded _ _) as [[]|] eqn:Hg in Hq; [|done]. injection Hq as <-.
    apply recall_tail_safe; try done. apply guarded_Ok in Hg. eapply accepted_asked; [exact Hg|].
    rewrite Ht, Hl. intros Hb. simpl. by rewrite decide_True.
  - unfold bind at 1, lift, search_failed. apply search_error in Hq. rewrite Hq.
    destruct (dependencyContextError e) as [e'|] eqn:He; [by apply context_error in He as [x ->]|].
    apply safe_error.
Qed.

(** The memory store and recall agree: over any store that calls have produced and whose
sources all name their kind and reference, recall never finds the store's answer malformed,
whatever the embedder, the token counter and the contexts do, and what it returns are memories
and sources exactly as they are stored. *)
Theorem store_recall_valid l h policy embed countTokens payload rctx sctx ctx request :
  let s := run uuid_Parse Marshal Sum256 (empty l) h in
  (∀ id, uuid_Parse id = Some id → ¬ Blank id) → named s →
  match Recall policy embed (store_search sctx s) countTokens payload rctx ctx request with
  | Ok result => Forall (stored_item s) (Items result)
  | Err e => e ≠ ErrInvalidRecallResult
  end.
Proof.
  intros s Huuid Hnamed. pose proof (run_valid uuid_Parse Marshal Sum256 l h) as Hv.
  pose proof (run_keyed uuid_Parse Marshal Sum256 _ h (empty_keyed l)) as Hk. fold s in Hv, Hk. clearbody s.
  unfold Recall. pose proof (validate_request_safe policy request) as Hreq.
  destruct (validateAndCopyRequest policy request) as [r|e]; cbn [res_bind]; [|intros ->; by apply Hreq].
  destruct ctx; [done|]. pose proof (recall_body_safe s policy embed countTokens payload rctx sctx r 0%nat) as H.
  by destruct (recall_body _ _ _ _ _ _ _ _) as [[n result]|e]; apply H.
Qed.

End recall.

(** * Concrete recalls *)

Definition sample_policy : RecallPolicy := mkPolicy "p1" 5 5 0 (Num 60) (Num 0) 3 100 200 5 1000 "e" 2.
Definition sample_request : RecallRequest := mkRequest sample_scope "" ["editor"] [] 30.
Definition sample_payload (id : string) (_ : Kind) (_ _ : string) (_ : list string) : option string := Some id.
Definition sample_store (sources : list Source) : Store :=
  sample_run (empty sample_limits) [OpCreate never (sample_create "" sources)].
Definition sample_recall (sources : list Source) : res Error RecallResult :=
  Recall sample_policy None (@store_search sample_tables same_digest never (sample_store sources))
    (λ p, Z.of_nat (String.length p)) sample_payload never None sample_request.


Lemma sample_named : named (sample_store [mkSource "chat" "c1" ""]).
Proof.
  intros id l src Hl Hs.
  assert (sources (sample_store [mkSource "chat" "c1" ""]) = {["m1" := [mkSource "chat" "c1" ""]]}) as Heq
    by (vm_compute; reflexivity).
  rewrite Heq in Hl. apply lookup_singleton_Some in Hl as [_ <-]. apply list_elem_of_singleton in Hs as ->.
  split; vm_compute; discriminate.
Qed.

Lemma store_recall_valid_witness :
  match sample_recall [mkSource "chat" "c1" ""] with
  | Ok result => Forall (stored_item (sample_store [mkSource "chat" "c1" ""])) (Items result)
  | Err e => e ≠ ErrInvalidRecallResult
  end.
Proof.
  pose proof sample_named as Hn. unfold sample_recall, sample_store, sample_run in *.
  apply (@store_recall_valid sample_tables nonblank_id content_json same_digest sample_limits
    [OpCreate never (sample_create "" [mkSource "chat" "c1" ""])] sample_policy None
    (λ p, Z.of_nat (String.length p)) sample_payload never never None sample_request); [|exact Hn].
  intros id. unfold nonblank_id. by destruct (decide (Blank id)).
Defined.

(** [Create] accepts a source without kind or reference that recall then takes for a
malformed answer: a store may hold one memory that makes every recall by its key fail. *)
Theorem blank_source_breaks_recall :
  ∃ r m, Create nonblank_id content_json same_digest never (empty sample_limits) r = (sample_store (cr_Sources r), Ok m) ∧
    sample_recall (cr_Sources r) = Err ErrInvalidRecallResult.
Proof. exists (sample_create "" [mkSource "" "" ""]). eexists. split; vm_compute; reflexivity. Qed.
