(* ===== verification/MemoryWorkers.v ===== *)
(** memorykit: the workers around the store ([src/memorykit/embedding.go],
[src/memorykit/extraction.go]): embedding pending memories, and extracting
candidates from sources under a lease.

A worker runs in a world: the stores it uses, of any type, the number of
questions asked so far, and the trace of its calls. A dependency is a function of
that number, so it may answer differently each time and may change the stores in the
name of other clients. [uuid.NewSHA1] is a parameter, as [uuid.Parse] is. *)

From Stdlib Require Import QArith.
From S2P Require Import Prelude Float64 GoUtf8 MemoryTypes.
Import Memories.
#[local] Open Scope Z_scope.

Module Workers.

(** * Data *)

Record CandidateDraft := mkDraft {
  d_Kind : Kind; d_Key : string; d_Content : string;
  d_ValidFrom : Time; d_ValidUntil : Time; d_Importance : Z; d_Confidence : number
}.

Record ExtractionRequest := mkExtractionRequest {
  xr_Scope : Scope; xr_Source : Source; xr_SourceAgentID : string; xr_ExtractorID : string;
  xr_Text : string; xr_Now : Time
}.

Definition ExtractionJobStatus := string.
Definition ExtractionPending : ExtractionJobStatus := "pending".
Definition ExtractionLeased : ExtractionJobStatus := "leased".
Definition ExtractionCompleted : ExtractionJobStatus := "completed".
Definition ExtractionFailed : ExtractionJobStatus := "failed".

Record ExtractionJob := mkJob {
  j_ID : string; j_Scope : Scope; j_Source : Source; j_SourceAgentID : string; j_ExtractorID : string;
  j_Status : ExtractionJobStatus; j_Attempts : Z; j_LeaseOwner : string; j_LeaseUntil : Time;
  j_CreatedAt : Time; j_UpdatedAt : Time
}.

(** What a worker does to its dependencies, with the answers. *)
Inductive Effect :=
| ENow (t : Time)
| EClaim (answer : res Error ExtractionJob)
| ERead (answer : res Error string)
| EExtract (answer : res Error (list CandidateDraft))
| EValidate (content : string) (answer : option Error)
| ECreate (request : CreateRequest) (answer : res Error Memory)
| EComplete (id worker : string) (attempts : Z) (now : Time) (answer : option Error)
| EFail (id worker : string) (attempts : Z) (code : string) (max : Z) (now : Time) (answer : option Error)
| EPending (answer : res Error (list EmbeddingInput))
| EEmbed (texts : list string) (answer : res Error (list (list number)))
| EPut (request : PutEmbeddingRequest) (answer : res Error ()).

Definition microsecond : Duration := 1000.
(** [t.Unix()], up to a constant. *)
Definition Unix (t : Time) : Z := t / 1000000000.

Definition equivalentStoreTime (left right : Time) : bool :=
  if negb (bool_decide (IsZero left ↔ IsZero right)) then false
  else
    let '(later, earlier) := if decide (Before left right) then (right, left) else (left, right) in
    TimeSub later earlier <=? microsecond.

Definition replayStatusPolicy := Status → bool.
Definition allowReviewedCandidateLifecycle : replayStatusPolicy := λ s,
  bool_decide (s = StatusCandidate ∨ s = StatusActive ∨ s = StatusInactive).
Definition allowActiveOnly : replayStatusPolicy := λ s, bool_decide (s = StatusActive).

Definition validateEmbeddingBatch (vectors : list (list number)) (count dimensions : Z) : res Error () :=
  let? _ := check (Z.of_nat (length vectors) =? count) ErrInvalidMemory in
  check (forallb (λ v, (Z.of_nat (length v) =? dimensions) && validVector v) vectors) ErrInvalidMemory.

Section identities.
Context (uuid_Parse : string → option string).
(** The text of the version 5 UUID of a name in a namespace. *)
Context (uuid_NewSHA1 : string → string → string).

Definition ValidateCandidateDraft (d : CandidateDraft) (l : Limits) : res Error () :=
  ValidateCreateRequest uuid_Parse
    (mkCreate "00000000-0000-4000-8000-000000000001" (mkScope "validation" SubjectProject "validation")
       (d_Kind d) (d_Key d) StatusCandidate (d_Content d) (d_ValidFrom d) (d_ValidUntil d)
       (d_Importance d) (d_Confidence d) "" "" "" "" [] 0) l.

Definition nul : string := String (ascii_of_N 0) "".

Definition ExtractionCandidateID (jobID : string) (d : CandidateDraft) : res Error string :=
  match uuid_Parse jobID with
  | None => Err ErrInvalidMemory
  | Some namespace =>
      let identity := d_Kind d +:+ nul +:+ d_Key d +:+ nul +:+ d_Content d in
      let id := uuid_NewSHA1 namespace identity in
      let? _ := ValidateMemoryID uuid_Parse id in Ok id
  end.

Definition validateClaimedExtractionJob (j : ExtractionJob) (workerID : string) (maxAttempts : Z)
    (claimNow : Time) (l : Limits) : res Error () :=
  let? _ := ValidateMemoryID uuid_Parse (j_ID j) in
  let? _ := Scope_Validate (j_Scope j) in
  let? _ := ValidateSources [j_Source j] l in
  check (bool_decide (j_Status j = ExtractionLeased ∧ j_LeaseOwner j = workerID) &&
    (0 <? j_Attempts j) && (j_Attempts j <=? maxAttempts) &&
    bool_decide (After (j_LeaseUntil j) claimNow ∧ ¬ IsZero (j_CreatedAt j) ∧ ¬ IsZero (j_UpdatedAt j) ∧
      ¬ After (j_CreatedAt j) (j_UpdatedAt j) ∧ ¬ After (j_UpdatedAt j) claimNow ∧
      ¬ Blank (s_Kind (j_Source j)) ∧ ¬ Blank (s_Ref (j_Source j)) ∧
      j_SourceAgentID j = TrimSpace (j_SourceAgentID j) ∧
      ¬ Blank (j_ExtractorID j) ∧ j_ExtractorID j = TrimSpace (j_ExtractorID j)) &&
    validMetadata (j_SourceAgentID j) l && validMetadata (j_ExtractorID j) l &&
    validMetadata ("extractor:" +:+ j_ExtractorID j) l) ErrInvalidMemory.

(** What a store returned for a creation it accepted. *)
Definition validateCreateResult (m : Memory) (r : CreateRequest) (l : Limits)
    (allowReplay : option replayStatusPolicy) : res Error () :=
  let? _ := check ((0 <? m_Version m) &&
    bool_decide (m_ID m = cr_ID r ∧ m_Scope m = cr_Scope r ∧ m_Kind m = cr_Kind r ∧ m_Key m = cr_Key r ∧
      m_CreatedBy m = cr_Actor r ∧ m_SourceAgentID m = cr_SourceAgentID r ∧
      m_IdempotencyKey m = cr_IdempotencyKey r ∧ ¬ IsZero (m_CreatedAt m) ∧ ¬ IsZero (m_UpdatedAt m) ∧
      ¬ Before (m_UpdatedAt m) (m_CreatedAt m)) &&
    (TimeSub (m_CreatedAt m) (cr_Now r) <=? microsecond)) ErrInvalidRecallResult in
  let? _ :=
    if m_Version m =? 1 then
      check (bool_decide (m_Status m = cr_Status r ∧ m_Content m = cr_Content r) &&
        equivalentStoreTime (m_ValidFrom m) (cr_ValidFrom r) &&
        equivalentStoreTime (m_ValidUntil m) (cr_ValidUntil r) &&
        (m_Importance m =? cr_Importance r) && num_eq (m_Confidence m) (cr_Confidence r) &&
        equivalentStoreTime (m_UpdatedAt m) (m_CreatedAt m)) ErrInvalidRecallResult
    else check (match allowReplay with Some allow => allow (m_Status m) | None => false end)
           ErrInvalidRecallResult in
  match ValidateCreateRequest uuid_Parse
    (mkCreate (m_ID m) (m_Scope m) (m_Kind m) (m_Key m) (m_Status m) (m_Content m) (m_ValidFrom m)
       (m_ValidUntil m) (m_Importance m) (m_Confidence m) (m_SourceAgentID m) (m_CreatedBy m) ""
       (m_IdempotencyKey m) [] 0) l with
  | Ok _ => Ok ()
  | Err _ => Err ErrInvalidRecallResult
  end.

(** The request a worker makes for a draft. *)
Definition candidate_request (j : ExtractionJob) (d : CandidateDraft) (candidateID : string)
    (claimNow : Time) : CreateRequest :=
  mkCreate candidateID (j_Scope j) (d_Kind d) (d_Key d) StatusCandidate (d_Content d) (d_ValidFrom d)
    (d_ValidUntil d) (d_Importance d) (d_Confidence d) (j_SourceAgentID j)
    ("extractor:" +:+ j_ExtractorID j) "model-derived candidate" ("extraction:" +:+ candidateID)
    [j_Source j] claimNow.

End identities.

(** * The world *)

Section workers.
Context {St : Type}.

Record World := mkWorld { tick : nat; stores : St; trace : list Effect }.

Definition M (A : Type) : Type := World → World * A.
Definition ret {A} (a : A) : M A := λ w, (w, a).
Definition bind {A B} (c : M A) (k : A → M B) : M B := λ w, let '(w, a) := c w in k a w.
#[local] Notation "'do!' x ':=' c 'in' k" := (bind c (λ x, k)) (at level 10, x name, k at level 200).

(** A call of a dependency, with its effect. *)
Definition call {A} (effect : A → Effect) (f : nat → St → St * A) : M A := λ w,
  let '(s, a) := f (tick w) (stores w) in (mkWorld (S (tick w)) s (trace w ++ [effect a]), a).
(** A call that does not touch the stores. *)
Definition query {A} (effect : A → Effect) (f : nat → A) : M A := call effect (λ n s, (s, f n)).

(** The methods of [ExtractionJobStore] a worker calls. *)
Record ExtractionJobStore := mkJobs {
  ClaimExtraction : nat → St → string → Duration → Z → Time → St * res Error ExtractionJob;
  CompleteExtraction : nat → St → string → string → Z → Time → St * option Error;
  FailExtraction : nat → St → string → string → Z → string → Z → Time → St * option Error
}.

(** [LifecycleStore.Create]. *)
Definition LifecycleStore : Type := nat → St → CreateRequest → St * res Error Memory.
Definition SourceReader : Type := nat → Source → res Error string.
Definition CandidateExtractor : Type := nat → ExtractionRequest → res Error (list CandidateDraft).
Definition ContentValidator : Type := nat → string → option Error.

Record ExtractionWorkerConfig := mkExtractionConfig {
  xc_Jobs : option ExtractionJobStore; xc_Memories : option LifecycleStore;
  xc_Reader : option SourceReader; xc_Extractor : option CandidateExtractor;
  xc_ValidateContent : option ContentValidator; xc_Limits : Limits; xc_WorkerID : string;
  xc_LeaseDuration : Duration; xc_MaxAttempts : Z; xc_Now : option (nat → Time)
}.

Record ExtractionWorker := mkExtractionWorker {
  jobs : ExtractionJobStore; memories : LifecycleStore; reader : SourceReader;
  extractor : CandidateExtractor; validateContent : ContentValidator; limits : Limits;
  workerID : string; leaseDuration : Duration; maxAttempts : Z; now : nat → Time
}.

Definition ExtractionWorkerConfig_Validate (c : ExtractionWorkerConfig) : res Error () :=
  let? _ := Limits_Validate (xc_Limits c) in
  check (bool_decide (is_Some (xc_Jobs c) ∧ is_Some (xc_Memories c) ∧ is_Some (xc_Reader c) ∧
      is_Some (xc_Extractor c) ∧ is_Some (xc_ValidateContent c) ∧ is_Some (xc_Now c) ∧
      ¬ Blank (xc_WorkerID c) ∧ xc_WorkerID c = TrimSpace (xc_WorkerID c)) &&
    validMetadata (xc_WorkerID c) (xc_Limits c) && (microsecond <=? xc_LeaseDuration c) &&
    (0 <? xc_MaxAttempts c) && (xc_MaxAttempts c <=? 2147483647)) ErrInvalidMemory.

Definition NewExtractionWorker (c : ExtractionWorkerConfig) : res Error ExtractionWorker :=
  let? _ := ExtractionWorkerConfig_Validate c in
  match xc_Jobs c, xc_Memories c, xc_Reader c, xc_Extractor c, xc_ValidateContent c, xc_Now c with
  | Some j, Some m, Some r, Some x, Some v, Some n =>
      Ok (mkExtractionWorker j m r x v (xc_Limits c) (xc_WorkerID c) (xc_LeaseDuration c) (xc_MaxAttempts c) n)
  | _, _, _, _, _, _ => Err ErrInvalidMemory
  end.

Context (uuid_Parse : string → option string) (uuid_NewSHA1 : string → string → string).
Context (ctx : nat → Ctx).

(** [ctx.Err()]. *)
Definition ask : M Ctx := λ w, (mkWorld (S (tick w)) (stores w) (trace w), ctx (tick w)).

Definition contextError (err : option Error) : M (option Error) :=
  do! c := ask in ret (match c with Some e => Some (ErrCtx e) | None => err end).

(** The error of an answer. *)
Definition err_of {A} (r : res Error A) : option Error :=
  match r with Ok _ => None | Err e => Some e end.

(** * Extraction *)

Section extraction.
Context (x : ExtractionWorker).

Definition transitionTime (notBefore : Time) : M (Time * option Error) :=
  do! t := query ENow (now x) in
  ret (if decide (IsZero t ∨ Before t notBefore) then (notBefore, Some ErrInvalidMemory) else (t, None)).

Definition leaseTime (j : ExtractionJob) (notBefore : Time) : M (Time * option Error) :=
  do! t := transitionTime notBefore in
  ret (match t.2 with
       | Some e => t
       | None => if decide (¬ Before t.1 (j_LeaseUntil j)) then (t.1, Some ErrConflict) else t
       end).

Definition failAt (j : ExtractionJob) (code : string) (workErr : Error) (transitionNow : Time) : M Error :=
  do! r := call (EFail (j_ID j) (workerID x) (j_Attempts j) code (maxAttempts x) transitionNow)
             (λ n s, FailExtraction (jobs x) n s (j_ID j) (workerID x) (j_Attempts j) code (maxAttempts x)
                       transitionNow) in
  ret (match r with Some e => ErrJoined workErr e | None => workErr end).

Definition fail (j : ExtractionJob) (code : string) (workErr : Error) (notBefore : Time) : M Error :=
  do! t := transitionTime notBefore in
  failAt j code (match t.2 with Some e => ErrJoined workErr e | None => workErr end) t.1.

(** The end of [RunOnce] on a failure: [true] and the error. *)
Definition failed {A} (c : M Error) : M (res Error A) := do! e := c in ret (Err e).

(** Writing one draft whose request is checked: nothing, or the error of the run. *)
Definition write_candidate (j : ExtractionJob) (claimNow : Time) (request : CreateRequest)
    : M (res Error ()) :=
  do! lease := leaseTime j claimNow in
  match lease.2 with
  | Some e => failed (failAt j "candidate_write_failed" e lease.1)
  | None =>
      do! created := call (ECreate request) (λ n s, memories x n s request) in
      if match created with Err e => is_error ErrConflict e | Ok _ => false end then ret (Ok ())
      else
        do! err := contextError (err_of created) in
        match err, created with
        | Some e, _ | None, Err e => failed (fail j "candidate_write_failed" e lease.1)
        | None, Ok m =>
            match validateCreateResult uuid_Parse m request (limits x) (Some allowReviewedCandidateLifecycle) with
            | Err e => failed (fail j "candidate_write_failed" e lease.1)
            | Ok _ => ret (Ok ())
            end
        end
  end.

(** The loop over the drafts; [written] are the IDs written. *)
Fixpoint write_drafts (j : ExtractionJob) (claimNow : Time) (written : list string)
    (drafts : list CandidateDraft) : M (res Error ()) :=
  match drafts with
  | [] => ret (Ok ())
  | d :: drafts =>
      let invalid e := failed (fail j "candidate_validate_failed" e claimNow) in
      match ValidateCandidateDraft uuid_Parse d (limits x) with
      | Err e => invalid e
      | Ok _ =>
          do! answer := query (EValidate (d_Content d)) (λ n, validateContent x n (d_Content d)) in
          do! err := contextError answer in
          match err with
          | Some e => invalid e
          | None =>
              match ExtractionCandidateID uuid_Parse uuid_NewSHA1 (j_ID j) d with
              | Err e => invalid e
              | Ok candidateID =>
                  if decide (candidateID ∈ written) then write_drafts j claimNow written drafts
                  else
                    let request := candidate_request j d candidateID claimNow in
                    match ValidateCreateRequest uuid_Parse request (limits x) with
                    | Err e => invalid e
                    | Ok _ =>
                        do! r := write_candidate j claimNow request in
                        match r with
                        | Err e => ret (Err e)
                        | Ok _ => write_drafts j claimNow (candidateID :: written) drafts
                        end
                    end
              end
          end
      end
  end.

(** The work on a claimed job. *)
Definition work (j : ExtractionJob) (claimNow : Time) : M (res Error ()) :=
  match validateClaimedExtractionJob uuid_Parse j (workerID x) (maxAttempts x) claimNow (limits x) with
  | Err e => failed (fail j "candidate_validate_failed" e claimNow)
  | Ok _ =>
      do! text := query ERead (λ n, reader x n (j_Source j)) in
      do! err := contextError (err_of text) in
      match err, text with
      | Some e, _ | None, Err e => failed (fail j "source_read_failed" e claimNow)
      | None, Ok text =>
          do! drafts := query EExtract (λ n, extractor x n
            (mkExtractionRequest (j_Scope j) (j_Source j) (j_SourceAgentID j) (j_ExtractorID j) text
               (j_CreatedAt j))) in
          do! err := contextError (err_of drafts) in
          match err, drafts with
          | Some e, _ | None, Err e => failed (fail j "candidate_extract_failed" e claimNow)
          | None, Ok drafts =>
              if MaxListItems (limits x) <? Z.of_nat (length drafts)
              then failed (fail j "candidate_validate_failed" ErrInvalidMemory claimNow)
              else
                do! r := write_drafts j claimNow [] drafts in
                match r with
                | Err e => ret (Err e)
                | Ok _ =>
                    do! lease := leaseTime j claimNow in
                    match lease.2 with
                    | Some e => failed (failAt j "candidate_write_failed" e lease.1)
                    | None =>
                        do! answer := call (EComplete (j_ID j) (workerID x) (j_Attempts j) lease.1)
                          (λ n s, CompleteExtraction (jobs x) n s (j_ID j) (workerID x) (j_Attempts j) lease.1) in
                        do! err := contextError answer in
                        match err with
                        | Some e => failed (fail j "candidate_write_failed" e lease.1)
                        | None => ret (Ok ())
                        end
                    end
                end
          end
      end
  end.

Definition RunOnce : M (bool * option Error) :=
  do! c := ask in
  match c with
  | Some e => ret (false, Some (ErrCtx e))
  | None =>
      do! claimNow := query ENow (now x) in
      let leaseUntil := TimeAdd claimNow (leaseDuration x) in
      if decide (IsZero claimNow ∨ ¬ After leaseUntil claimNow ∨ Unix leaseUntil < Unix claimNow)
      then ret (false, Some ErrInvalidMemory)
      else
        do! claimed := call EClaim
          (λ n s, ClaimExtraction (jobs x) n s (workerID x) (leaseDuration x) (maxAttempts x) claimNow) in
        do! c := ask in
        match c, claimed with
        | Some e, Ok j => do! e := fail j "source_read_failed" (ErrCtx e) claimNow in ret (true, Some e)
        | Some e, Err _ => ret (false, Some (ErrCtx e))
        | None, Err e => ret (false, if is_error ErrNoExtractionJob e then None else Some e)
        | None, Ok j => do! r := work j claimNow in ret (true, err_of r)
        end
  end.

End extraction.

(** * Trusted projection *)

Record TrustedProjection := mkProjection { t_Create : CreateRequest; t_EventID : string }.

Definition ProjectTrusted (store : option LifecycleStore) (validator : option ContentValidator) (l : Limits)
    (p : TrustedProjection) : M (res Error Memory) :=
  do! c := ask in
  match c with
  | Some e => ret (Err (ErrCtx e))
  | None =>
      match Limits_Validate l with
      | Err e => ret (Err e)
      | Ok _ =>
          match store, validator with
          | Some store, Some validator =>
              if decide (cr_Status (t_Create p) ≠ StatusActive ∨ Blank (t_EventID p)) then ret (Err ErrInvalidMemory)
              else
                let request := (t_Create p) <| cr_Status := StatusActive |>
                                 <| cr_IdempotencyKey := "trusted-event:" +:+ t_EventID p |> in
                if decide (IsZero (cr_Now request)) then ret (Err ErrInvalidMemory)
                else
                  match ValidateCreateRequest uuid_Parse request l with
                  | Err e => ret (Err e)
                  | Ok _ =>
                      do! refused := query (EValidate (cr_Content request)) (λ n, validator n (cr_Content request)) in
                      do! c := ask in
                      match c, refused with
                      | Some e, _ => ret (Err (ErrCtx e))
                      | None, Some e => ret (Err e)
                      | None, None =>
                          do! created := call (ECreate request) (λ n s, store n s request) in
                          do! err := contextError (err_of created) in
                          match err, created with
                          | Some e, _ | None, Err e => ret (Err e)
                          | None, Ok m =>
                              ret (let? _ := validateCreateResult uuid_Parse m request l (Some allowActiveOnly) in Ok m)
                          end
                      end
                  end
          | _, _ => ret (Err ErrInvalidMemory)
          end
      end
  end.

(** * Embedding *)

(** The methods of [EmbeddingStore]. *)
Record EmbeddingStore := mkEmbeddingStore {
  PendingEmbeddings : nat → St → PendingEmbeddingQuery → St * res Error (list EmbeddingInput);
  PutEmbedding : nat → St → PutEmbeddingRequest → St * res Error ()
}.
Definition Embedder : Type := nat → string → list string → res Error (list (list number)).

Record EmbeddingWorkerConfig := mkEmbeddingConfig {
  ec_Store : option EmbeddingStore; ec_Embedder : option Embedder; ec_ProfileID : string;
  ec_Dimensions : Z; ec_BatchSize : Z
}.

Record EmbeddingWorker := mkEmbeddingWorker {
  store : EmbeddingStore; embedder : Embedder; profileID : string; dimensions : Z; batchSize : Z
}.

Definition EmbeddingWorkerConfig_Validate (c : EmbeddingWorkerConfig) : res Error () :=
  check (bool_decide (is_Some (ec_Store c) ∧ is_Some (ec_Embedder c) ∧ ¬ Blank (ec_ProfileID c) ∧
      ec_ProfileID c = TrimSpace (ec_ProfileID c)) &&
    (0 <? ec_Dimensions c) && (0 <? ec_BatchSize c)) ErrInvalidMemory.

Definition NewEmbeddingWorker (c : EmbeddingWorkerConfig) : res Error EmbeddingWorker :=
  let? _ := EmbeddingWorkerConfig_Validate c in
  match ec_Store c, ec_Embedder c with
  | Some s, Some e => Ok (mkEmbeddingWorker s e (ec_ProfileID c) (ec_Dimensions c) (ec_BatchSize c))
  | _, _ => Err ErrInvalidMemory
  end.

Section embedding.
Context (e : EmbeddingWorker).
(** [time.Now()] of the batch. *)
Context (clock : nat → Time).

Definition put_request (embeddedAt : Time) (i : EmbeddingInput) (v : list number) : PutEmbeddingRequest :=
  mkPutEmbedding (ei_MemoryID i) (ei_Scope i) (profileID e) (ei_ContentHash i) (dimensions e) v embeddedAt.

(** The loop over the inputs with their vectors; [stored] counts the embeddings stored. *)
Fixpoint put_all (embeddedAt : Time) (stored : Z) (batch : list (EmbeddingInput * list number))
    : M (Z * option Error) :=
  match batch with
  | [] => ret (stored, None)
  | (i, v) :: batch =>
      do! c := ask in
      match c with
      | Some x => ret (stored, Some (ErrCtx x))
      | None =>
          let request := put_request embeddedAt i v in
          do! answer := call (EPut request) (λ n s, PutEmbedding (store e) n s request) in
          do! c := ask in
          let counted := match answer with Ok _ => stored + 1 | Err _ => stored end in
          match c, answer with
          | Some x, _ => ret (counted, Some (ErrCtx x))
          | None, Ok _ => put_all embeddedAt counted batch
          | None, Err err =>
              if is_error ErrConflict err then put_all embeddedAt counted batch else ret (stored, Some err)
          end
      end
  end.

Definition Embedding_RunOnce : M (Z * option Error) :=
  do! c := ask in
  match c with
  | Some x => ret (0, Some (ErrCtx x))
  | None =>
      let q := mkPendingQuery (profileID e) (batchSize e) in
      do! pending := call EPending (λ n s, PendingEmbeddings (store e) n s q) in
      do! c := ask in
      match c, pending with
      | Some x, _ => ret (0, Some (ErrCtx x))
      | None, Err err => ret (0, Some err)
      | None, Ok inputs =>
          if batchSize e <? Z.of_nat (length inputs) then ret (0, Some ErrInvalidMemory)
          else if decide (inputs = []) then ret (0, None)
          else
            let texts := ei_Content <$> inputs in
            do! vectors := query (EEmbed texts) (λ n, embedder e n (profileID e) texts) in
            do! c := ask in
            match c, vectors with
            | Some x, _ => ret (0, Some (ErrCtx x))
            | None, Err err => ret (0, Some err)
            | None, Ok vectors =>
                match validateEmbeddingBatch vectors (Z.of_nat (length inputs)) (dimensions e) with
                | Err err => ret (0, Some err)
                | Ok _ =>
                    do! embeddedAt := query ENow clock in
                    put_all embeddedAt 0 (zip inputs vectors)
                end
            end
      end
  end.

End embedding.

End workers.

End Workers.
