(* ===== verification/MemoryWorkersSafety.v ===== *)
(** memorykit: how the extraction worker uses its lease, whatever its
dependencies answer, and that the embedding worker drains the memory store. *)

From Stdlib Require Import QArith.
From S2P Require Import Prelude Float64 GoUtf8 MemorySearch MemoryTypes MemoryStore MemorySafety MemoryWorkers.
Import Memories MemStore Workers.
#[local] Open Scope Z_scope.

(** * What a computation adds to the trace *)

Section emits.
Context {St : Type}.
Abbreviation M := (@Workers.M St).

Definition emits {A} (c : M A) (P : list Effect → A → Prop) : Prop :=
  ∀ w, ∃ t, trace (c w).1 = trace w ++ t ∧ P t (c w).2.

Lemma emits_ret {A} (a : A) (P : list Effect → A → Prop) : P [] a → emits (ret a) P.
Proof. intros HP w. exists []. by rewrite app_nil_r. Qed.

Lemma emits_bind {A B} (c : M A) (k : A → M B) P Q :
  emits c P → (∀ t a, P t a → emits (k a) (λ t' b, Q (t ++ t') b)) → emits (bind c k) Q.
Proof.
  intros Hc Hk w. unfold bind. destruct (Hc w) as (t & Ht & HP). destruct (c w) as [w1 a]. simpl in *.
  destruct (Hk t a HP w1) as (t' & Ht' & HQ). exists (t ++ t'). by rewrite Ht', Ht, <-app_assoc.
Qed.

Lemma emits_call {A} (effect : A → Effect) f : emits (call (St:=St) effect f) (λ t a, t = [effect a]).
Proof. intros w. unfold call. destruct (f _ _) as [s a]. by exists [effect a]. Qed.

Lemma emits_query {A} (effect : A → Effect) f : emits (query (St:=St) effect f) (λ t a, t = [effect a]).
Proof. apply emits_call. Qed.

Lemma emits_ask ctx : emits (ask (St:=St) ctx) (λ t _, t = []).
Proof. intros w. exists []. by rewrite app_nil_r. Qed.

Lemma emits_context ctx err :
  emits (contextError (St:=St) ctx err) (λ t r, t = [] ∧ (r = None → err = None)).
Proof.
  eapply emits_bind; [apply emits_ask|]. intros t [e|] ->; by apply emits_ret.
Qed.

Lemma emits_weaken {A} (c : M A) (P Q : list Effect → A → Prop) :
  emits c P → (∀ t a, P t a → Q t a) → emits c Q.
Proof. intros Hc HPQ w. destruct (Hc w) as (t & Ht & HP). eauto. Qed.

(** * Extraction *)

Context (uuid_Parse : string → option string) (uuid_NewSHA1 : string → string → string).
Context (ctx : nat → Ctx) (x : @ExtractionWorker St).

(** Reading the clock, the source, the extractor's and the validator's answers. *)
Definition quiet (e : Effect) : Prop :=
  match e with ENow _ | ERead _ | EExtract _ | EValidate _ _ => True | _ => False end.

(** A request for a draft of the job. *)
Definition draft_request (j : ExtractionJob) (claimNow : Time) (r : CreateRequest) : Prop :=
  ValidateCreateRequest uuid_Parse r (Workers.limits x) = Ok () ∧
  ∃ d, r = candidate_request j d (cr_ID r) claimNow ∧
    ExtractionCandidateID uuid_Parse uuid_NewSHA1 (j_ID j) d = Ok (cr_ID r).

(** The effects of work on a job, with the IDs it creates: a creation follows the
validator's approval of its content and a clock reading within the lease. *)
Inductive body (j : ExtractionJob) (claimNow : Time) : list string → list Effect → Prop :=
| body_nil : body j claimNow [] []
| body_quiet e ids t : quiet e → body j claimNow ids t → body j claimNow ids (e :: t)
| body_create r a now ids t :
    draft_request j claimNow r → claimNow ≤ now < j_LeaseUntil j → body j claimNow ids t →
    body j claimNow (cr_ID r :: ids) (EValidate (cr_Content r) None :: ENow now :: ECreate r a :: t).

Lemma body_app j claimNow ids t ids' t' :
  body j claimNow ids t → body j claimNow ids' t' → body j claimNow (ids ++ ids') (t ++ t').
Proof.
  induction 1; intros Hb; simpl; [done|by apply body_quiet; auto|by apply body_create; auto].
Qed.

Lemma body_quiets j claimNow t : Forall quiet t → body j claimNow [] t.
Proof. induction 1; constructor; auto. Qed.

(** A failure recorded for the job's lease. *)
Definition failure (j : ExtractionJob) (t : list Effect) : Prop :=
  ∃ code at_ answer, t = [EFail (j_ID j) (workerID x) (j_Attempts j) code (maxAttempts x) at_ answer].

Lemma emits_transition notBefore :
  emits (transitionTime x notBefore) (λ t r, ∃ now, t = [ENow now] ∧
    (r.2 = None → r.1 = now ∧ notBefore ≤ now)).
Proof.
  eapply emits_bind; [apply emits_query|]. intros t now ->. apply emits_ret. exists now. split; [done|].
  destruct (decide _) as [|Hn]; [done|]. intros _. split; [done|].
  destruct (decide (notBefore ≤ now)); [done|]. destruct Hn. right. unfold Before. lia.
Qed.

Lemma emits_lease j notBefore :
  emits (leaseTime x j notBefore) (λ t r, ∃ now, t = [ENow now] ∧
    (r.2 = None → r.1 = now ∧ notBefore ≤ now < j_LeaseUntil j)).
Proof.
  eapply emits_bind; [apply emits_transition|]. intros t [t0 e] (now & -> & Ht). apply emits_ret.
  exists now. split; [done|]. simpl in *. destruct e as [e|]; [done|]. destruct (Ht eq_refl) as [-> Hle].
  destruct (decide _) as [|Hn]; [done|]. intros _. split; [done|]. apply dec_stable in Hn. unfold Before in Hn. simpl in Hn. lia.
Qed.

Lemma emits_failAt j code e at_ : emits (failAt x j code e at_) (λ t _, failure j t).
Proof.
  eapply emits_bind; [apply emits_call|]. intros t r ->. apply emits_ret. rewrite app_nil_r. by eexists _, _, _.
Qed.

Lemma emits_fail j code e notBefore :
  emits (fail x j code e notBefore) (λ t _, ∃ now t', t = ENow now :: t' ∧ failure j t').
Proof.
  eapply emits_bind; [apply emits_transition|]. intros t r (now & -> & _).
  eapply emits_weaken; [apply emits_failAt|]. intros t' a Hf. by exists now, t'.
Qed.

(** A run that ends with a failure after some harmless effects. *)
Definition fails {A} (j : ExtractionJob) (t : list Effect) (r : res Error A) : Prop :=
  is_Some (err_of r) ∧ ∃ t1 t2, t = t1 ++ t2 ∧ Forall quiet t1 ∧ failure j t2.

Lemma emits_failed_at {A} j code e at_ : emits (failed (A:=A) (failAt x j code e at_)) (fails j).
Proof.
  eapply emits_bind; [apply emits_failAt|]. intros t err Hf. apply emits_ret. rewrite app_nil_r.
  split; [by eexists|]. by exists [], t.
Qed.

Lemma emits_failed {A} j code e notBefore : emits (failed (A:=A) (fail x j code e notBefore)) (fails j).
Proof.
  eapply emits_bind; [apply emits_fail|]. intros t err (now & t' & -> & Hf). apply emits_ret. rewrite app_nil_r.
  split; [by eexists|]. exists [ENow now], t'. by repeat constructor.
Qed.

(** ** The loop over the drafts *)

(** The effects of the drafts, with the IDs they create, until the end or a failure. *)
Definition drafted (j : ExtractionJob) (claimNow : Time) (written : list string) (n : nat)
    (t : list Effect) (r : res Error ()) : Prop :=
  ∃ ids t1 t2, t = t1 ++ t2 ∧ body j claimNow ids t1 ∧ NoDup ids ∧ Forall (.∉ written) ids ∧
    (length ids ≤ n)%nat ∧ match r with Ok _ => t2 = [] | Err _ => failure j t2 end.

Lemma fails_drafted j claimNow written n t r : fails j t r → drafted j claimNow written n t r.
Proof.
  intros [Herr (t1 & t2 & -> & Hq & Hf)]. exists [], t1, t2. destruct r; [by destruct Herr|].
  split_and!; [done|by apply body_quiets|by apply NoDup_nil_2|done|simpl; lia|done].
Qed.

(** One more harmless effect in front. *)
Lemma drafted_quiet j claimNow written n e t r :
  quiet e → drafted j claimNow written n t r → drafted j claimNow written n (e :: t) r.
Proof.
  intros He (ids & t1 & t2 & -> & Hb & ?). exists ids, (e :: t1), t2. split_and!; try done; [|naive_solver..].
  by apply body_quiet.
Qed.

(** One creation in front. *)
Lemma drafted_create j claimNow written n rq a now t r :
  draft_request j claimNow rq → claimNow ≤ now < j_LeaseUntil j → cr_ID rq ∉ written →
  drafted j claimNow (cr_ID rq :: written) n t r →
  drafted j claimNow written (S n) (EValidate (cr_Content rq) None :: ENow now :: ECreate rq a :: t) r.
Proof.
  intros Hr Hn Hw (ids & t1 & t2 & -> & Hb & Hnd & Hf & Hl & Hend). rewrite Forall_forall in Hf.
  exists (cr_ID rq :: ids), (EValidate (cr_Content rq) None :: ENow now :: ECreate rq a :: t1), t2.
  split_and!; [done|by apply body_create| | |simpl; lia|done].
  - apply NoDup_cons. split; [|done]. intros Hin. by apply (Hf _ Hin), list_elem_of_here.
  - apply Forall_cons. split; [done|]. apply Forall_forall. intros id Hid Hin. apply (Hf id Hid). by right.
Qed.

Lemma drafted_more j claimNow written n n' t r :
  (n ≤ n')%nat → drafted j claimNow written n t r → drafted j claimNow written n' t r.
Proof. intros Hn (ids & t1 & t2 & ? & ? & ? & ? & ? & ?). exists ids, t1, t2. split_and!; try done. lia. Qed.

(** Writing a candidate: no creation without a lease, and a failure after one that went wrong. *)
Lemma emits_write j claimNow rq :
  emits (write_candidate uuid_Parse ctx x j claimNow rq) (λ t r, ∃ now t', t = ENow now :: t' ∧
    (fails j t' r ∨ claimNow ≤ now < j_LeaseUntil j ∧ ∃ a t'', t' = ECreate rq a :: t'' ∧
      (fails j t'' r ∨ t'' = [] ∧ r = Ok ()))).
Proof.
  eapply emits_bind; [apply emits_lease|]. intros t [at_ e] (now & -> & Ht). simpl in Ht. cbn [fst snd].
  destruct e as [e|].
  { eapply emits_weaken; [apply emits_failed_at|]. intros t' r Hf. exists now, t'. auto. }
  destruct (Ht eq_refl) as [-> Hle].
  eapply emits_bind; [apply emits_call|]. intros t a ->.
  assert (∀ P : list Effect → res Error () → Prop, (∀ t r, P t r → fails j t r ∨ t = [] ∧ r = Ok ()) →
    ∀ c, emits c P → emits c (λ t' r, ∃ now' t'', [ENow now] ++ [ECreate rq a] ++ t' = ENow now' :: t'' ∧
      (fails j t'' r ∨ claimNow ≤ now' < j_LeaseUntil j ∧ ∃ a t3, t'' = ECreate rq a :: t3 ∧
        (fails j t3 r ∨ t3 = [] ∧ r = Ok ())))) as Hend.
  { intros P HP c Hc. eapply emits_weaken; [exact Hc|]. intros t' r HPt. exists now, (ECreate rq a :: t').
    split; [done|]. right. split; [done|]. exists a, t'. auto. }
  destruct (match a with Ok _ => false | Err e => is_error ErrConflict e end).
  { eapply Hend; [|by apply (emits_ret _ (λ t r, t = [] ∧ r = Ok ()))]. auto. }
  eapply (Hend (λ t r, fails j t r ∨ t = [] ∧ r = Ok ())); [done|].
  eapply emits_bind; [apply emits_context|]. intros t err [-> _]. cbn [app].
  assert (∀ e, emits (failed (fail x j "candidate_write_failed" e now))
    (λ t r, fails j t r ∨ t = [] ∧ r = Ok ())) as Hfail.
  { intros e. eapply emits_weaken; [apply emits_failed|]. auto. }
  destruct err as [e|], a as [m|e']; auto. destruct (validateCreateResult _ _ _ _ _) as [[]|]; auto.
  apply emits_ret. auto.
Qed.

Lemma emits_drafts j claimNow written drafts :
  emits (write_drafts uuid_Parse uuid_NewSHA1 ctx x j claimNow written drafts)
    (drafted j claimNow written (length drafts)).
Proof.
  revert written. induction drafts as [|d drafts IH]; intros written; cbn [write_drafts].
  { apply emits_ret. exists [], [], []. split_and!; [done|constructor|by apply NoDup_nil_2|done|simpl; lia|done]. }
  assert (∀ e, emits (failed (fail x j "candidate_validate_failed" e claimNow))
    (drafted j claimNow written (length (d :: drafts)))) as Hinv.
  { intros e. eapply emits_weaken; [apply emits_failed|]. intros t r. apply fails_drafted. }
  destruct (ValidateCandidateDraft _ _ _) as [_|e]; [|apply Hinv].
  eapply emits_bind; [apply emits_query|]. intros t answer ->. eapply emits_bind; [apply emits_context|].
  intros t err [-> Herr]. cbn [app].
  assert (∀ c, emits c (drafted j claimNow written (length (d :: drafts))) →
    emits c (λ t r, drafted j claimNow written (length (d :: drafts)) (EValidate (d_Content d) answer :: t) r)) as Hq.
  { intros c Hc. eapply emits_weaken; [exact Hc|]. intros t r. by apply drafted_quiet. }
  destruct err as [e|]; [by apply Hq, Hinv|]. rewrite (Herr eq_refl) in *.
  destruct (ExtractionCandidateID _ _ _ _) as [id|e] eqn:Hid; [|by apply Hq, Hinv].
  destruct (decide (id ∈ written)) as [|Hw].
  { apply Hq. eapply emits_weaken; [apply IH|]. intros t r. apply drafted_more. simpl. lia. }
  destruct (ValidateCreateRequest _ _ _) as [[]|e] eqn:Hval; [|by apply Hq, Hinv].
  eapply emits_bind; [apply emits_write|]. intros t r (now & t' & -> & Hr).
  assert (draft_request j claimNow (candidate_request j d id claimNow)) as Hdr by (split; [done|by exists d]).
  destruct Hr as [[Hsome Hf]|(Hle & a & t3 & -> & [[Hsome Hf]|[-> ->]])].
  - destruct r as [|e]; [by destruct Hsome|]. apply emits_ret. rewrite app_nil_r.
    repeat (apply drafted_quiet; [done|]). by apply fails_drafted.
  - destruct r as [|e]; [by destruct Hsome|]. apply emits_ret. rewrite app_nil_r.
    apply (drafted_create _ _ _ _ (candidate_request j d id claimNow)); [done..|]. by apply fails_drafted.
  - eapply emits_weaken; [apply IH|]. intros t r Hd.
    by apply (drafted_create _ _ _ _ (candidate_request j d id claimNow)).
Qed.

(** ** A run *)

(** The end of a claimed job: completed without an error, or failed with one, possibly after
an attempt to complete it. *)
Definition closing (j : ExtractionJob) (err : option Error) (t : list Effect) : Prop :=
  let complete := EComplete (j_ID j) (workerID x) (j_Attempts j) in
  (err = None ∧ ∃ at_, t = [complete at_ None] ∧ at_ < j_LeaseUntil j) ∨
  (is_Some err ∧ (failure j t ∨ ∃ at_ a now t', t = complete at_ a :: ENow now :: t' ∧ failure j t')).

(** The effects of work on a claimed job. *)
Definition worked (j : ExtractionJob) (claimNow : Time) (t : list Effect) (r : res Error ()) : Prop :=
  ∃ ids t1 t2, t = t1 ++ t2 ∧ body j claimNow ids t1 ∧ NoDup ids ∧
    (ids = [] ∨ Z.of_nat (length ids) ≤ MaxListItems (Workers.limits x)) ∧ closing j (err_of r) t2.

Lemma fails_worked j claimNow t r : fails j t r → worked j claimNow t r.
Proof.
  intros [Herr (t1 & t2 & -> & Hq & Hf)]. exists [], t1, t2.
  split_and!; [done|by apply body_quiets|by apply NoDup_nil_2|by left|]. right. auto.
Qed.

Lemma worked_app j claimNow t t' r : Forall quiet t → worked j claimNow t' r → worked j claimNow (t ++ t') r.
Proof.
  intros Hq (ids & t1 & t2 & -> & Hb & ?). exists ids, (t ++ t1), t2. split_and!; [by rewrite app_assoc| |naive_solver..].
  apply (body_app _ _ []); [by apply body_quiets|done].
Qed.

(** After the drafts: their failure, or the end of the job. *)
Lemma drafted_worked j claimNow n t t1 t2 r' :
  drafted j claimNow [] n t (Ok ()) → Z.of_nat n ≤ MaxListItems (Workers.limits x) →
  Forall quiet t1 → closing j (err_of r') t2 → worked j claimNow (t ++ t1 ++ t2) r'.
Proof.
  intros (ids & u1 & u2 & -> & Hb & Hnd & _ & Hl & ->) Hn Hq Hc. exists ids, (u1 ++ t1), t2.
  split_and!; [by rewrite app_nil_r, app_assoc| |done|right; lia|done].
  rewrite <-(app_nil_r ids). apply body_app; [done|by apply body_quiets].
Qed.

Lemma drafted_failed j claimNow n t e :
  drafted j claimNow [] n t (Err e) → Z.of_nat n ≤ MaxListItems (Workers.limits x) →
  worked j claimNow t (Err e).
Proof.
  intros (ids & t1 & t2 & -> & Hb & Hnd & _ & Hl & Hf) Hn. exists ids, t1, t2.
  split_and!; [done|done|done|right; lia|]. right. split; [by eexists|by left].
Qed.

Lemma emits_failAt_closing j code e at_ :
  emits (failed (A:=()) (failAt x j code e at_)) (λ t r, closing j (err_of r) t).
Proof.
  eapply emits_bind; [apply emits_failAt|]. intros t err Hf. apply emits_ret. rewrite app_nil_r.
  right. split; [by eexists|by left].
Qed.

(** From the lease's last check on. *)
Lemma emits_completion j claimNow n t :
  drafted j claimNow [] n t (Ok ()) → Z.of_nat n ≤ MaxListItems (Workers.limits x) →
  emits (bind (leaseTime x j claimNow) (λ lease,
    match lease.2 with
    | Some e => failed (failAt x j "candidate_write_failed" e lease.1)
    | None =>
        bind (call (EComplete (j_ID j) (workerID x) (j_Attempts j) lease.1)
          (λ n s, CompleteExtraction (jobs x) n s (j_ID j) (workerID x) (j_Attempts j) lease.1)) (λ answer,
        bind (contextError ctx answer) (λ err,
        match err with
        | Some e => failed (fail x j "candidate_write_failed" e lease.1)
        | None => ret (Ok ())
        end))
    end)) (λ t' r, worked j claimNow (t ++ t') r).
Proof.
  intros Hd Hn. eapply emits_bind; [apply emits_lease|]. intros t1 [at_ e] (now & -> & Ht). cbn [fst snd] in *.
  assert (Forall quiet [ENow now]) as Hq by (by repeat constructor). destruct e as [e|].
  { eapply emits_weaken; [apply emits_failAt_closing|]. intros t2 r Hc. by eapply drafted_worked. }
  destruct (Ht eq_refl) as [-> Hle]. eapply emits_bind; [apply emits_call|]. intros t1 answer ->.
  eapply emits_bind; [apply emits_context|]. intros t1 err [-> Herr]. cbn [app]. destruct err as [e|].
  - eapply emits_bind; [apply emits_fail|]. intros t1 err (now' & t2 & -> & Hf). apply emits_ret.
    rewrite app_nil_r. eapply (drafted_worked _ _ _ _ [ENow now]); [done..|]. right. split; [by eexists|]. right.
    by eexists _, _, _, _.
  - rewrite (Herr eq_refl). apply emits_ret. eapply (drafted_worked _ _ _ _ [ENow now]); [done..|]. left.
    split; [done|]. exists now. split; [done|lia].
Qed.

Lemma emits_work j claimNow : emits (work uuid_Parse uuid_NewSHA1 ctx x j claimNow) (worked j claimNow).
Proof.
  assert (∀ code e t, Forall quiet t →
    emits (failed (fail x j code e claimNow)) (λ t' r, worked j claimNow (t ++ t') r)) as Hfail.
  { intros code e t Ht. eapply emits_weaken; [apply emits_failed|]. intros t' r Hf.
    apply worked_app; [done|]. by apply fails_worked. }
  unfold work. destruct (validateClaimedExtractionJob _ _ _ _ _ _); [|by apply (Hfail _ _ [])].
  eapply emits_bind; [apply emits_query|]. intros t text ->. eapply emits_bind; [apply emits_context|].
  intros t err [-> _]. cbn [app].
  assert (Forall quiet [ERead text]) as Hq1 by (by repeat constructor).
  destruct err as [e|], text as [text|e']; try (by apply (Hfail _ _ [ERead _])).
  eapply emits_bind; [apply emits_query|]. intros t drafts ->. eapply emits_bind; [apply emits_context|].
  intros t err [-> _]. cbn [app].
  assert (Forall quiet [ERead (Ok text); EExtract drafts]) as Hq2 by (by repeat constructor).
  destruct err as [e|], drafts as [drafts|e']; try (by apply (Hfail _ _ [ERead _; EExtract _])).
  destruct (_ <? _) eqn:Hlen; [by apply (Hfail _ _ [ERead _; EExtract _])|]. apply Z.ltb_ge in Hlen.
  eapply emits_bind; [apply emits_drafts|]. intros t r Hd. destruct r as [[]|e].
  - eapply emits_weaken; [by eapply emits_completion|]. intros t' r Hw.
    by apply (worked_app _ _ [ERead _; EExtract _]).
  - apply emits_ret. apply (worked_app _ _ [ERead _; EExtract _]); [done|]. rewrite app_nil_r.
    by eapply drafted_failed.
Qed.

(** The extraction worker and its lease: a run that claims nothing changes nothing; a run that
claims a job works on it and then closes its lease, in its own name and for its own attempt, by
completing it before it expires when the run reports success, and by failing it when the run
reports an error, and calls nothing afterwards. All it creates in between are candidates made
from drafts of that job, each ID once and at most [MaxListItems] of them, each valid, approved
by the content validator, and written at a time within the lease. *)
Theorem extraction_protocol :
  emits (RunOnce uuid_Parse uuid_NewSHA1 ctx x) (λ t r,
    if r.1 : bool then ∃ claimNow j t', t = ENow claimNow :: EClaim (Ok j) :: t' ∧
      ∃ ids t1 t2, t' = t1 ++ t2 ∧ body j claimNow ids t1 ∧ NoDup ids ∧
        (ids = [] ∨ Z.of_nat (length ids) ≤ MaxListItems (Workers.limits x)) ∧ closing j r.2 t2
    else t = [] ∨ ∃ claimNow, t = [ENow claimNow] ∨ ∃ e, t = [ENow claimNow; EClaim (Err e)]).
Proof.
  eapply emits_bind; [apply emits_ask|]. intros t [e|] ->; [by apply emits_ret; left|].
  eapply emits_bind; [apply emits_query|]. intros t claimNow ->. cbv zeta. destruct (decide _).
  { apply emits_ret. right. exists claimNow. by left. }
  eapply emits_bind; [apply emits_call|]. intros t claimed ->. eapply emits_bind; [apply emits_ask|].
  intros t c ->. destruct c as [e|], claimed as [j|e'].
  - eapply emits_bind; [apply emits_fail|]. intros t err (now & t' & -> & Hf). apply emits_ret. rewrite app_nil_r.
    exists claimNow, j. eexists. split; [reflexivity|]. exists [], [ENow now], t'.
    split_and!; [done|by apply body_quiets; repeat constructor|by apply NoDup_nil_2|by left|]. right. split; [by eexists|by left].
  - apply emits_ret. right. exists claimNow. right. by exists e'.
  - eapply emits_bind; [apply emits_work|]. intros t r Hw. apply emits_ret. rewrite app_nil_r.
    exists claimNow, j, t. split; [done|]. exact Hw.
  - apply emits_ret. right. exists claimNow. right. by exists e'.
Qed.

End emits.

(** * Embedding *)

(** Filtering out the first elements by their distinct keys. *)
Lemma filter_drop {A} (f : A → string) n l :
  NoDup (f <$> l) → filter (λ a, f a ∉ f <$> take n l) l = drop n l.
Proof.
  revert n. induction l as [|a l IH]; intros [|n] Hnd; [done..| |].
  - simpl. rewrite filter_cons, decide_True by set_solver. f_equal.
    clear. induction l as [|b l IHl]; [done|]. rewrite filter_cons, decide_True by set_solver. by f_equal.
  - rewrite fmap_cons, NoDup_cons in Hnd. destruct Hnd as [Ha Hnd]. cbn [take drop].
    rewrite filter_cons, decide_False by set_solver. rewrite <-(IH n Hnd).
    apply filter_ext_in. intros b Hb. rewrite fmap_cons, not_elem_of_cons. split; [tauto|]. intros Hn.
    split; [|done]. intros E. apply Ha. rewrite <-E. by apply list_elem_of_fmap_2.
Qed.

Section drain.
Context (uuid_Parse : string → option string) (Sum256 : string → Digest).

(** All memories that need an embedding, in the order of the store. *)
Definition pending (s : Store) (profile : string) : list EmbeddingInput :=
  sort_slice (key_less time_id_lt (λ i, (updated_at s (ei_MemoryID i), ei_MemoryID i)))
    (omap (pending_input Sum256 s profile) (map_to_list (MemStore.memories s))).

Lemma pending_input_Some s p id m i :
  pending_input Sum256 s p (id, m) = Some i →
  ei_MemoryID i = id ∧ ei_Scope i = m_Scope m ∧ m_Status m = StatusActive ∧
  ei_ContentHash i = hashMemoryContent Sum256 (m_Content m).
Proof.
  unfold pending_input. destruct (decide _) as [|Hst]; [done|]. apply dec_stable in Hst.
  destruct (embeddings s !! (id, p)) as [e|]; [destruct (decide _); [done|]|]; by intros [= <-].
Qed.

(** An input whose memory is as it was read. *)
Definition current (s : Store) (i : EmbeddingInput) : Prop :=
  ∃ m, MemStore.memories s !! ei_MemoryID i = Some m ∧ ei_Scope i = m_Scope m ∧ m_Status m = StatusActive ∧
    ei_ContentHash i = hashMemoryContent Sum256 (m_Content m).

Lemma pending_current s p i : i ∈ pending s p → current s i.
Proof.
  unfold pending. rewrite elem_of_sort_slice, list_elem_of_omap. intros ([id m] & Hm & Hi).
  apply elem_of_map_to_list in Hm. apply pending_input_Some in Hi as (<- & ? & ? & ?). by exists m.
Qed.

Lemma pending_ids s p : NoDup (ei_MemoryID <$> omap (pending_input Sum256 s p) (map_to_list (MemStore.memories s))).
Proof.
  eapply sublist_NoDup; [apply (NoDup_fst_map_to_list (MemStore.memories s))|].
  induction (map_to_list (MemStore.memories s)) as [|e l IH]; [constructor|]. simpl.
  destruct (pending_input Sum256 s p e) as [i|] eqn:Hi; [|by apply sublist_cons].
  destruct e as [id m]. apply pending_input_Some in Hi as (<- & _). by apply sublist_skip.
Qed.

(** The store after one embedding, and after those of a batch. *)
Definition embed_one (p : string) (dims : Z) (s : Store) (b : EmbeddingInput * list number) : Store :=
  s <| embeddings := <[(ei_MemoryID b.1, p) := mkStored (ei_ContentHash b.1) dims b.2]> (embeddings s) |>.
Definition embedded (p : string) (dims : Z) : Store → list (EmbeddingInput * list number) → Store :=
  foldl (embed_one p dims).

Lemma embedded_rest p dims s batch :
  MemStore.memories (embedded p dims s batch) = MemStore.memories s ∧
  MemStore.limits (embedded p dims s batch) = MemStore.limits s ∧
  revisions (embedded p dims s batch) = revisions s.
Proof. revert s. induction batch as [|b batch IH]; intros s; [done|]. apply (IH (embed_one p dims s b)). Qed.

Lemma embedded_other p dims s batch id :
  id ∉ ei_MemoryID <$> batch.*1 → embeddings (embedded p dims s batch) !! (id, p) = embeddings s !! (id, p).
Proof.
  revert s. induction batch as [|b batch IH]; intros s Hid; [done|].
  rewrite !fmap_cons, not_elem_of_cons in Hid. destruct Hid as [Hne Hid].
  etransitivity; [by apply (IH (embed_one p dims s b))|]. simpl. rewrite lookup_insert_ne by congruence. done.
Qed.

Lemma embedded_hash p dims s batch id h :
  id ∈ ei_MemoryID <$> batch.*1 → (∀ i, i ∈ batch.*1 → ei_MemoryID i = id → ei_ContentHash i = h) →
  ∃ e, embeddings (embedded p dims s batch) !! (id, p) = Some e ∧ contentHash e = h.
Proof.
  revert s. induction batch as [|b batch IH]; intros s Hid Hh; [by apply elem_of_nil in Hid|].
  destruct (decide (id ∈ ei_MemoryID <$> batch.*1)) as [Hin|Hout].
  { apply (IH (embed_one p dims s b)); [done|]. intros i Hi. apply Hh. by right. }
  rewrite !fmap_cons, elem_of_cons in Hid. destruct Hid as [->|Hid]; [|done].
  eexists. split; [etransitivity; [by apply (embedded_other p dims (embed_one p dims s b))|]; apply lookup_insert_eq|].
  apply Hh; [by left|done].
Qed.

Lemma pending_after s p dims batch id m :
  (∀ i, i ∈ batch.*1 → current s i) → MemStore.memories s !! id = Some m →
  pending_input Sum256 (embedded p dims s batch) p (id, m) =
    if decide (id ∈ ei_MemoryID <$> batch.*1) then None else pending_input Sum256 s p (id, m).
Proof.
  intros Hc Hm. unfold pending_input. destruct (decide (m_Status m ≠ StatusActive)) as [|Hst]; [by destruct (decide _)|].
  destruct (decide (id ∈ _)) as [Hin|Hout]; [|by rewrite embedded_other].
  destruct (embedded_hash p dims s batch id (hashMemoryContent Sum256 (m_Content m)) Hin) as (e & -> & ->).
  { intros i Hi Hid. destruct (Hc i Hi) as (m' & Hm' & _ & _ & ->). rewrite Hid, Hm in Hm'. by injection Hm' as ->. }
  by rewrite decide_True.
Qed.

Lemma omap_without (f g : string * Memory → option EmbeddingInput) (ids : list string) (l : list (string * Memory)) :
  (∀ e, e ∈ l → g e = if decide (e.1 ∈ ids) then None else f e) →
  (∀ e i, e ∈ l → f e = Some i → ei_MemoryID i = e.1) →
  omap g l = filter (λ i, ei_MemoryID i ∉ ids) (omap f l).
Proof.
  induction l as [|e l IH]; intros Hg Hf; [done|].
  assert (omap g l = filter (λ i, ei_MemoryID i ∉ ids) (omap f l)) as Hl.
  { apply IH; intros; [apply Hg|eapply Hf]; try done; by right. }
  specialize (Hg e ltac:(by left)). specialize (Hf e). simpl. rewrite Hg.
  destruct (f e) as [i|]; [|destruct (decide _); exact Hl]. rewrite filter_cons, (Hf i) by (done || by left).
  destruct (decide (e.1 ∈ ids)); [rewrite decide_False by tauto|rewrite decide_True by done; f_equal]; exact Hl.
Qed.

(** What is pending after the embeddings of a batch. *)
Lemma pending_embedded s p dims batch :
  (∀ i, i ∈ batch.*1 → current s i) →
  pending (embedded p dims s batch) p = filter (λ i, ei_MemoryID i ∉ ei_MemoryID <$> batch.*1) (pending s p).
Proof.
  intros Hc. unfold pending. destruct (embedded_rest p dims s batch) as (Hm & _).
  assert (updated_at (embedded p dims s batch) = updated_at s) as Hu by (unfold updated_at; by rewrite Hm).
  rewrite Hu, Hm. rewrite <-sort_key_filter; [|apply _|].
  - f_equal. apply omap_without.
    + intros [id m] Hin%elem_of_map_to_list. by apply pending_after.
    + intros [id m] i _ Hi. by apply pending_input_Some in Hi as (<- & _).
  - apply (NoDup_fmap_1 snd). rewrite <-list_fmap_compose. apply pending_ids.
Qed.

(** The memory store as an embedding store that nobody else changes. *)
Definition embedding_store : @EmbeddingStore Store :=
  mkEmbeddingStore (λ _ s q, (s, MemStore.PendingEmbeddings Sum256 never s q))
    (λ _ s r, MemStore.PutEmbedding uuid_Parse Sum256 never s r).

Context (l : Limits) (p : string) (dims batch : Z) (embed : Embedder) (clock : nat → Time).

(** A profile, a batch size, a content hash and an embedder within the limits. *)
Record workable : Prop := {
  wk_limits : Limits_Validate l = Ok ();
  wk_profile : validEmbeddingMetadata p l = true;
  wk_dims : 0 < dims;
  wk_batch : 0 < batch ≤ MaxListItems l;
  wk_hash content : validEmbeddingMetadata (hashMemoryContent Sum256 content) l = true;
  wk_embed n texts : ∃ vs, embed n p texts = Ok vs ∧ length vs = length texts ∧
    Forall (λ v, Z.of_nat (length v) = dims ∧ validVector v = true) vs
}.
Context (Hw : workable).
Abbreviation worker := (mkEmbeddingWorker embedding_store embed p dims batch).

Lemma put_current s i v at_ :
  MemStore.limits s = l → keyed s → all_valid uuid_Parse s → current s i →
  Z.of_nat (length v) = dims → validVector v = true →
  MemStore.PutEmbedding uuid_Parse Sum256 never s (put_request worker at_ i v) = (embed_one p dims s (i, v), Ok ()).
Proof.
  intros Hl Hk Hv (m & Hm & Hsc & Hst & Hh) Hlen Hvec. pose proof (Hv _ _ Hm) as Hval.
  pose proof (proj1 Hk _ _ Hm) as Hid. unfold MemStore.PutEmbedding, locked, guarded, ValidatePutEmbeddingRequest. simpl.
  rewrite Hl, (wk_limits Hw). cbn [res_bind]. rewrite Hsc, (vm_scope _ _ Hval). cbn [res_bind].
  unfold ValidateMemoryID. rewrite <-Hid, bool_decide_eq_true_2 by apply Hval. cbn [check res_bind].
  rewrite (wk_profile Hw), Hh, (wk_hash Hw), (proj2 (Z.ltb_lt _ _) (wk_dims Hw)), Hlen, Z.eqb_refl, Hvec.
  cbn [andb check res_bind]. rewrite Hid, Hm, decide_False by (by intros [?|[?|?]]).
  unfold embed_one. simpl. by rewrite Hh, Hl.
Qed.

Lemma put_all_stores w stored at_ bs :
  MemStore.limits (stores w) = l → keyed (stores w) → all_valid uuid_Parse (stores w) →
  Forall (λ b, current (stores w) b.1 ∧ Z.of_nat (length b.2) = dims ∧ validVector b.2 = true) bs →
  let r := put_all never worker at_ stored bs w in
  r.2 = (stored + Z.of_nat (length bs), None) ∧ stores r.1 = embedded p dims (stores w) bs.
Proof.
  revert w stored. induction bs as [|[i v] bs IH]; intros w stored Hl Hk Hv Hbs; cbn [put_all].
  { simpl. split; [f_equal; lia|done]. }
  apply Forall_cons in Hbs as [(Hc & Hlen & Hvec) Hbs]. unfold bind, ask, call. cbn [never tick stores].
  cbn [Workers.store embedding_store Workers.PutEmbedding]. rewrite put_current by done.
  cbn [never tick stores]. edestruct IH as [H1 H2]; [| | | |split; [rewrite H1; f_equal; simpl; lia|exact H2]]; try done.
Qed.

Lemma limit_take {A} n (xs : list A) : limit_to n xs = take (Z.to_nat n) xs ∨ n < 0.
Proof.
  unfold limit_to. destruct (n <? _) eqn:Hn; [by left|]. apply Z.ltb_ge in Hn.
  destruct (decide (n < 0)); [by right|]. left. rewrite take_ge by lia. done.
Qed.

Lemma pending_query s :
  MemStore.limits s = l →
  MemStore.PendingEmbeddings Sum256 never s (mkPendingQuery p batch) = Ok (take (Z.to_nat batch) (pending s p)).
Proof.
  intros Hl. pose proof (wk_batch Hw). unfold MemStore.PendingEmbeddings, guarded, ValidatePendingEmbeddingQuery. simpl.
  rewrite Hl, (wk_limits Hw). cbn [res_bind]. rewrite (wk_profile Hw).
  rewrite (proj2 (Z.ltb_lt _ _)), (proj2 (Z.leb_le _ _)) by lia. cbn [andb check res_bind].
  f_equal. fold (pending s p). destruct (limit_take batch (pending s p)); [done|lia].
Qed.

(** A store on which the worker can work. *)
Definition sound_store (s : Store) : Prop := MemStore.limits s = l ∧ keyed s ∧ all_valid uuid_Parse s.

Lemma batch_valid vs n :
  length vs = n → Forall (λ v, Z.of_nat (length v) = dims ∧ validVector v = true) vs →
  validateEmbeddingBatch vs (Z.of_nat n) dims = Ok ().
Proof.
  intros <- Hvs. unfold validateEmbeddingBatch. rewrite Z.eqb_refl. cbn [check res_bind].
  replace (forallb _ _) with true; [done|]. symmetry. apply List.forallb_forall. intros v Hv%list_elem_of_In.
  apply (proj1 (Forall_forall _ _) Hvs) in Hv as [-> ->]. by rewrite Z.eqb_refl.
Qed.

(** The worker on a batch of inputs. *)
Lemma put_batch w at_ xs vs :
  sound_store (stores w) → xs = take (Z.to_nat batch) (pending (stores w) p) → length vs = length xs →
  Forall (λ v, Z.of_nat (length v) = dims ∧ validVector v = true) vs →
  let r := put_all never worker at_ 0 (zip xs vs) w in
  r.2 = (Z.of_nat (length xs), None) ∧
  pending (stores r.1) p = drop (Z.to_nat batch) (pending (stores w) p) ∧
  MemStore.memories (stores r.1) = MemStore.memories (stores w) ∧ sound_store (stores r.1).
Proof.
  intros (Hl & Hk & Hv) Hxs Hlen Hvs r.
  assert ((zip xs vs).*1 = xs) as Hfst by (apply fst_zip; lia).
  assert (∀ i, i ∈ xs → current (stores w) i) as Hcur.
  { intros i Hi. apply (pending_current _ p). subst xs. by apply (subseteq_take (Z.to_nat batch)). }
  destruct (put_all_stores w 0 at_ (zip xs vs) Hl Hk Hv) as [H1 H2].
  { apply Forall_forall. intros [i v] Hb. split.
    - apply Hcur. rewrite <-Hfst. by apply (list_elem_of_fmap_2 fst _ (i, v)).
    - apply (proj1 (Forall_forall _ _) Hvs). apply elem_of_zip_r in Hb. done. }
  fold r in H1, H2. rewrite H1, H2, length_zip. destruct (embedded_rest p dims (stores w) (zip xs vs)) as (M1 & M2 & M3).
  split_and!; [f_equal; lia| |done|].
  - rewrite pending_embedded by (by rewrite Hfst). rewrite Hfst, Hxs. apply filter_drop.
    unfold pending. rewrite sort_slice_perm. apply pending_ids.
  - unfold sound_store, keyed, all_valid. by rewrite M1, M2, M3.
Qed.

Lemma run_once_step w :
  sound_store (stores w) →
  let r := Embedding_RunOnce never worker clock w in
  let todo := pending (stores w) p in
  r.2 = (Z.of_nat (length (take (Z.to_nat batch) todo)), None) ∧
  pending (stores r.1) p = drop (Z.to_nat batch) todo ∧
  MemStore.memories (stores r.1) = MemStore.memories (stores w) ∧ sound_store (stores r.1).
Proof.
  intros (Hl & Hk & Hv). cbv zeta. unfold Embedding_RunOnce, bind, ask, query, call.
  cbn [never tick stores Workers.store embedding_store Workers.PendingEmbeddings profileID batchSize].
  rewrite (pending_query (stores w) Hl). set (xs := take (Z.to_nat batch) (pending (stores w) p)).
  pose proof (wk_batch Hw) as Hb. assert (length xs ≤ Z.to_nat batch)%nat as Hlen by (unfold xs; rewrite length_take; lia).
  rewrite (proj2 (Z.ltb_ge _ _)) by lia. destruct (decide (xs = [])) as [Hnil|_].
  - assert (pending (stores w) p = []) as Hp.
    { revert Hnil. unfold xs. destruct (pending (stores w) p) as [|i todo]; [done|].
      by replace (Z.to_nat batch) with (S (Z.to_nat batch - 1)) by lia. }
    split_and!; [by rewrite Hnil|cbn [ret fst stores]; by rewrite Hp, drop_nil|done|by split_and!].
  - cbn [tick stores embedder dimensions].
    destruct (wk_embed Hw (S (S (S (tick w)))) (ei_Content <$> xs)) as (vs & -> & Hvs & Hall).
    rewrite length_fmap in Hvs. rewrite (batch_valid vs (length xs) Hvs Hall). cbn [ret tick stores].
    apply (put_batch (mkWorld _ (stores w) _)); done.
Qed.

(** Runs of the worker one after the other. *)
Definition runs (k : nat) (w : @World Store) : @World Store :=
  Nat.iter k (λ w, (Embedding_RunOnce never worker clock w).1) w.

Lemma runs_drain k w :
  sound_store (stores w) →
  pending (stores (runs k w)) p = drop (k * Z.to_nat batch) (pending (stores w) p) ∧
  MemStore.memories (stores (runs k w)) = MemStore.memories (stores w) ∧ sound_store (stores (runs k w)).
Proof.
  intros Hs. induction k as [|k (IH1 & IH2 & IH3)]; [by rewrite drop_0|]. cbn [runs Nat.iter].
  destruct (run_once_step (runs k w) IH3) as (_ & H2 & H3 & H4). split_and!; [|by rewrite <-IH2|done].
  etransitivity; [exact H2|]. rewrite IH1, drop_drop. f_equal. lia.
Qed.

(** The embedding worker drains the memory store: on any store that calls have produced, as
long as nobody else changes it, each run stores the embeddings of the [batchSize] memories that
have waited longest and reports their number, so after [k] runs exactly the first
[k * batchSize] are done, and none is left once that covers them all; memories do not change. *)
Theorem embedding_drains Marshal h k w :
  stores w = run uuid_Parse Marshal Sum256 (empty l) h →
  let todo := drop (k * Z.to_nat batch) (pending (stores w) p) in
  pending (stores (runs k w)) p = todo ∧
  (Embedding_RunOnce never worker clock (runs k w)).2 = (Z.min batch (Z.of_nat (length todo)), None) ∧
  MemStore.memories (stores (runs k w)) = MemStore.memories (stores w).
Proof.
  intros Hs todo. assert (sound_store (stores w)) as Hsound.
  { rewrite Hs. split_and!; [apply run_limits, empty_keyed|apply run_keyed, empty_keyed|apply run_valid]. }
  destruct (runs_drain k w Hsound) as (H1 & H2 & H3). split_and!; [done| |done].
  destruct (run_once_step (runs k w) H3) as (-> & _). rewrite H1, length_take. fold todo.
  pose proof (wk_batch Hw). f_equal. lia.
Qed.

End drain.

(** * A concrete batch *)

Definition one_digest : string → Digest := λ _, "x".
Definition one_vector : Embedder := λ _ _ texts, Ok ((λ _, [Num 1]) <$> texts).

Lemma sample_workable : workable one_digest sample_limits "p" 1 2 one_vector.
Proof.
  split; [vm_compute; reflexivity..|lia|vm_compute; split; [reflexivity|discriminate]|intros content; vm_compute; reflexivity|].
  intros n texts. exists ((λ _, [Num 1]) <$> texts). split_and!; [done|apply length_fmap|].
  apply Forall_fmap, Forall_forall. intros t _. split; vm_compute; reflexivity.
Qed.

Lemma embedding_drains_witness :
  let w := mkWorld 0 (run nonblank_id content_json one_digest (empty sample_limits)
                        [OpCreate never (sample_create "" [])]) [] in
  length (pending one_digest (stores w) "p") = 1%nat ∧
  pending one_digest (stores (runs nonblank_id one_digest "p" 1 2 one_vector (λ _, 5) 1 w)) "p" = [].
Proof.
  intros w. split; [vm_compute; reflexivity|].
  destruct (embedding_drains nonblank_id one_digest sample_limits "p" 1 2 one_vector (λ _, 5) sample_workable
    content_json [OpCreate never (sample_create "" [])] 1 w) as [H _]; [reflexivity|].
  rewrite H. vm_compute. reflexivity.
Defined.
