(* ===== verification/MetaClone.v ===== *)
(** memorykit agent adapter: deep copies of dynamic metadata
([cloneMetadata], [cloneMetadataValue] and [cloneMetadataReflect] of
[src/memorykit/agentadapter/projector.go]).

Metadata that the adapter receives lives in a heap that its owner may share and
change: maps and slices are pointers, and they may form cycles. A copy shares nothing
with that heap, so it is a tree. *)

From S2P Require Import Prelude Float64 GoUtf8 MemoryTypes.
#[local] Open Scope go_scope.

Module Meta.

(** * Values *)

Definition loc := positive.

(** A value of type [any], as the reflection package sees it. [VString named] has the type
[string] unless [named]; [VSlice] carries the type and the length of the slice;
[VOther] is any value of another kind, a map whose keys are no strings included. *)
Inductive val :=
| VNil
| VBool (b : bool)
| VString (named : bool) (s : string)
| VInt (z : Z)
| VFloat (x : number)
| VMap (typ : string) (pointer : option loc)
| VSlice (typ : string) (header : option (loc * nat))
| VArray (l : list val)
| VOther.

(** What a pointer leads to: the entries of a map, or an array from the pointer on. *)
Inductive object :=
| OMap (entries : gmap string val)
| OSlice (elements : list val).

Abbreviation heap := (gmap loc object).

(** A value that owns everything below it. *)
Inductive tree :=
| TNil
| TBool (b : bool)
| TString (named : bool) (s : string)
| TInt (z : Z)
| TFloat (x : number)
| TMap (typ : string) (entries : option (gmap string tree))
| TSlice (typ : string) (elements : option (list tree))
| TArray (l : list tree).

(** * Copying *)

(** The copies of the elements, or of the entries, when each of them has one. *)
Definition copy_list (f : val → option tree) (l : list val) : option (list tree) := mapM f l.
Definition copy_entries (f : val → option tree) (m : gmap string val) : option (gmap string tree) :=
  if decide (map_Forall (λ _ v, is_Some (f v)) m) then Some (omap f m) else None.

(** [cloneMetadataReflect], [None] for [invalidProjectionMetadata]; [stack] holds the pointers
whose copies are under way. The recursion descends in an array, and otherwise follows
a pointer of the heap, which [fuel] counts: the heap has no more pointers than that. *)
Fixpoint cloneMetadataReflect (h : heap) (fuel : nat) (stack : list loc) : val → option tree :=
  fix clone (value : val) : option tree :=
  match value with
  | VNil => Some TNil
  | VBool b => Some (TBool b)
  | VString named s => Some (TString named s)
  | VInt z => Some (TInt z)
  | VFloat x => if is_finite x then Some (TFloat x) else None
  | VMap typ None => Some (TMap typ None)
  | VMap typ (Some pointer) =>
      match h !! pointer with
      | Some (OMap entries) =>
          if decide (pointer ∈ stack) then None
          else match fuel with
          | O => None
          | S fuel => result ← copy_entries (cloneMetadataReflect h fuel (pointer :: stack)) entries;
                      Some (TMap typ (Some result))
          end
      | _ => None
      end
  | VSlice typ None => Some (TSlice typ None)
  | VSlice typ (Some (pointer, len)) =>
      match h !! pointer with
      | Some (OSlice elements) =>
          if decide (pointer ∈ stack) then None
          else match fuel with
          | O => None
          | S fuel => result ← copy_list (cloneMetadataReflect h fuel (pointer :: stack)) (take len elements);
                      Some (TSlice typ (Some result))
          end
      | _ => None
      end
  | VArray l => result ← copy_list clone l; Some (TArray result)
  | VOther => None
  end.

Definition cloneMetadataValue (h : heap) (value : val) : option tree :=
  cloneMetadataReflect h (size h) [] value.

(** [cloneMetadata]: the nil map for the nil map. *)
Definition cloneMetadata (h : heap) (metadata : option loc) : option (option (gmap string tree)) :=
  match metadata with
  | None => Some None
  | Some pointer =>
      match cloneMetadataValue h (VMap "map[string]any" (Some pointer)) with
      | Some (TMap _ entries) => Some entries
      | _ => None
      end
  end.

(** * What a copy is *)

(** [t] is the value [v] unfolded: everything [v] leads to is plain, and no pointer is met
again below itself or below [path]. *)
Inductive unfolds (h : heap) (path : list loc) : val → tree → Prop :=
| u_nil : unfolds h path VNil TNil
| u_bool b : unfolds h path (VBool b) (TBool b)
| u_string named s : unfolds h path (VString named s) (TString named s)
| u_int z : unfolds h path (VInt z) (TInt z)
| u_float x : is_finite x = true → unfolds h path (VFloat x) (TFloat x)
| u_map_nil typ : unfolds h path (VMap typ None) (TMap typ None)
| u_map typ pointer entries copies :
    h !! pointer = Some (OMap entries) → pointer ∉ path → dom copies = dom entries →
    (∀ k v t, entries !! k = Some v → copies !! k = Some t → unfolds h (pointer :: path) v t) →
    unfolds h path (VMap typ (Some pointer)) (TMap typ (Some copies))
| u_slice_nil typ : unfolds h path (VSlice typ None) (TSlice typ None)
| u_slice typ pointer len elements copies :
    h !! pointer = Some (OSlice elements) → pointer ∉ path → length copies = length (take len elements) →
    (∀ i v t, take len elements !! i = Some v → copies !! i = Some t → unfolds h (pointer :: path) v t) →
    unfolds h path (VSlice typ (Some (pointer, len))) (TSlice typ (Some copies))
| u_array l copies :
    length copies = length l →
    (∀ i v t, l !! i = Some v → copies !! i = Some t → unfolds h path v t) →
    unfolds h path (VArray l) (TArray copies).

(** Induction on values, into arrays. *)
Lemma val_arrays_ind (P : val → Prop) :
  (∀ l, Forall P l → P (VArray l)) → (∀ v, (∀ l, v ≠ VArray l) → P v) → ∀ v, P v.
Proof.
  intros Ha Ho. fix IH 1. intros v. destruct v as [| | | | | | |l|]; try (apply Ho; discriminate).
  apply Ha. induction l as [|v l IHl]; constructor; [apply IH|apply IHl].
Qed.

Lemma copy_list_Some f l ts :
  copy_list f l = Some ts ↔
  length ts = length l ∧ ∀ i v t, l !! i = Some v → ts !! i = Some t → f v = Some t.
Proof.
  unfold copy_list. rewrite mapM_Some, Forall2_same_length_lookup. split; intros [Hl H]; (split; [done|]);
    intros i v t H1 H2; by eapply H.
Qed.

Lemma copy_entries_Some f m ts :
  copy_entries f m = Some ts ↔
  dom ts = dom m ∧ ∀ k v t, m !! k = Some v → ts !! k = Some t → f v = Some t.
Proof.
  unfold copy_entries. split.
  - destruct (decide _) as [Ha|]; [|done]. intros [= <-]. split.
    + apply set_eq. intros k. rewrite !elem_of_dom, lookup_omap.
      destruct (m !! k) as [v|] eqn:Hk; simpl; [|done]. split; [done|]. intros _. by apply (Ha k v).
    + intros k v t Hk. by rewrite lookup_omap, Hk.
  - intros [Hd Hf].
    assert (∀ k v, m !! k = Some v → ∃ t, ts !! k = Some t ∧ f v = Some t) as Ht.
    { intros k v Hk. assert (is_Some (ts !! k)) as [t Ht]; [|by eauto].
      apply elem_of_dom. rewrite Hd. by eapply elem_of_dom_2. }
    rewrite decide_True.
    + f_equal. apply map_eq. intros k. rewrite lookup_omap. destruct (m !! k) as [v|] eqn:Hk; simpl.
      * by destruct (Ht k v Hk) as (t & -> & ->).
      * symmetry. apply not_elem_of_dom. rewrite Hd. by apply not_elem_of_dom.
    + intros k v Hk. destruct (Ht k v Hk) as (t & _ & ->). done.
Qed.

Lemma clone_unfolds h fuel stack v t :
  cloneMetadataReflect h fuel stack v = Some t → unfolds h stack v t.
Proof.
  revert stack v t. induction fuel as [|fuel IH]; intros stack v; induction v as [l IHl|v Hv] using val_arrays_ind;
    intros t.
  1,3: intros Hc; cbn in Hc; destruct (copy_list _ l) as [ts|] eqn:Hl; [|done]; injection Hc as <-;
    apply copy_list_Some in Hl as [Hlen Hl]; constructor; [done|]; intros i v t Hi Ht;
    eapply (proj1 (Forall_lookup _ l) IHl i); [done|]; by eapply Hl.
  all: destruct v as [| | | |x|typ [p|]|typ [[p len]|]|l|]; cbn; try (intros [= <-]; by constructor);
    try (by destruct (Hv l)).
  all: try (by destruct (is_finite x) eqn:Hx; [intros [= <-]; constructor|]).
  all: destruct (h !! p) as [[es|es]|] eqn:Hp; try done; destruct (decide (p ∈ stack)) as [|Hs]; try done.
  - destruct (copy_entries _ es) as [ts|] eqn:Hes; [|done]. intros [= <-].
    apply copy_entries_Some in Hes as [Hd Hes]. econstructor; [done..|]. intros k v t Hk Ht. by eapply IH, Hes.
  - destruct (copy_list _ _) as [ts|] eqn:Hes; [|done]. intros [= <-].
    apply copy_list_Some in Hes as [Hd Hes]. econstructor; [done..|]. intros k v t Hk Ht. by eapply IH, Hes.
Qed.

(** A path of pointers of the heap that still has one to add is shorter than the heap. *)
Lemma path_bound (h : heap) (path : list loc) p :
  NoDup path → (∀ q, q ∈ path → q ∈ dom h) → p ∈ dom h → p ∉ path → (length path < size h)%nat.
Proof.
  intros Hn Hsub Hp Hnot. rewrite <-(size_dom h).
  assert (size (list_to_set (p :: path) : gset loc) ≤ size (dom h))%nat as Hle.
  { apply subseteq_size. intros q. rewrite elem_of_list_to_set, elem_of_cons. intros [->|Hq]; [done|by apply Hsub]. }
  rewrite size_list_to_set in Hle by (by constructor). simpl in Hle. lia.
Qed.

Lemma unfolds_clone h path v t :
  unfolds h path v t → NoDup path → (∀ q, q ∈ path → q ∈ dom h) →
  ∀ fuel, (size h ≤ fuel + length path)%nat → cloneMetadataReflect h fuel path v = Some t.
Proof.
  intros Hu. induction Hu as [path|path b|path named s|path z|path x Hx|path typ|path typ p es ts Hp Hnot Hd _ IH|
    path typ|path typ p len es ts Hp Hnot Hlen _ IH|path l ts Hlen _ IH]; intros Hn Hsub fuel Hf.
  7,9: assert (p ∈ dom h) as Hdom by (by eapply elem_of_dom_2);
    pose proof (path_bound h path p Hn Hsub Hdom Hnot); destruct fuel as [|fuel]; [lia|];
    assert (NoDup (p :: path)) as Hn' by (by constructor);
    assert (∀ q, q ∈ p :: path → q ∈ dom h) as Hsub' by (intros q [->|]%elem_of_cons; auto);
    cbn; rewrite Hp, decide_False by done.
  all: try (destruct fuel; cbn; by rewrite ?Hx).
  - erewrite (proj2 (copy_entries_Some _ _ ts)); [done|]. split; [done|]. intros k v t Hk Ht.
    eapply IH; [done..|]. simpl. lia.
  - erewrite (proj2 (copy_list_Some _ _ ts)); [done|]. split; [done|]. intros k v t Hk Ht.
    eapply IH; [done..|]. simpl. lia.
  - assert (copy_list (cloneMetadataReflect h fuel path) l = Some ts) as Hc.
    { apply copy_list_Some. split; [done|]. intros i v t Hi Ht. by eapply IH. }
    destruct fuel; cbn in *; by rewrite Hc.
Qed.

(** [cloneMetadataValue] ends on every heap, cyclic or not: it copies a value exactly when
everything it leads to is plain and no pointer is met below itself, and the copy is that
value unfolded. *)
Theorem clone_exact h v t : cloneMetadataValue h v = Some t ↔ unfolds h [] v t.
Proof.
  split; [apply clone_unfolds|]. intros Hu. apply (unfolds_clone h [] v t Hu); [constructor| |simpl; lia].
  intros q Hq. by apply elem_of_nil in Hq.
Qed.

End Meta.
