(* ===== verification/MemoryTools.v ===== *)
(** memorykit agent adapter: the memory tools a run may use
([src/memorykit/agentadapter/tools.go]): searching, reading and writing project memory.

A tool runs in a world: the stores it uses, of any type, the metadata of the run and the
number of questions asked so far. A dependency is a function of that number: it may answer
differently each time, and the stores may have changed in the name of other clients.
JSON, RFC 3339 and UUID texts are parameters. *)

From Stdlib Require Import QArith.
From S2P Require Import Prelude Float64 GoUtf8 GoPath AgentTools MemorySearch MemoryTypes MemoryStore MemoryRecall.
From S2P Require Import MemoryWorkers MetaClone.
Import Search Memories MemStore Recall Meta.
#[local] Open Scope Z_scope.

Module MemTools.

(** * Data *)

(** A JSON text, written with single quotes. *)
Fixpoint json (s : string) : string :=
  match s with
  | EmptyString => ""
  | String c s => String (if decide (c = "'"%char) then ascii_of_N 34 else c) (json s)
  end.

Definition searchMemorySchema : string := json "{'type':'object','additionalProperties':false,'required':['query'],'properties':{'query':{'type':'string','minLength':1},'key':{'type':'string'},'kinds':{'type':'array','items':{'enum':['fact','decision','constraint','lesson']},'uniqueItems':true}}}".
Definition readMemorySchema : string := json "{'type':'object','additionalProperties':false,'required':['memory_id'],'properties':{'memory_id':{'type':'string','format':'uuid'}}}".
Definition writeMemorySchema : string := json "{'type':'object','additionalProperties':false,'required':['kind','key','content','reason'],'properties':{'kind':{'enum':['fact','decision','constraint','lesson']},'key':{'type':'string','minLength':1},'content':{'type':'string','minLength':1},'valid_until':{'type':'string','format':'date-time'},'reason':{'type':'string','minLength':1}}}".

Definition memoryWriteFailedMetadataKey : string := "memorykit.agentadapter.write_failed".
Definition errMemoryWriteOutputFailed : Error := ErrForeign "项目记忆未保存".
Definition agentWriteKeyPrefix : string := "agent-write:".

(** [agentcore.RunRequest], with its metadata as a pointer of the heap or as a copy. *)
Record RunRequest (MD : Type) := mkRunRequest {
  rq_RunID : string;
  rq_Input : string;
  rq_UserID : string;
  rq_SessionID : string;
  rq_Metadata : MD;
  rq_AllowedPermissions : list Permission;
  rq_PolicyContext : PolicyContext
}.
Arguments mkRunRequest {MD}.
Arguments rq_RunID {MD}.
Arguments rq_Input {MD}.
Arguments rq_UserID {MD}.
Arguments rq_SessionID {MD}.
Arguments rq_Metadata {MD}.
Arguments rq_AllowedPermissions {MD}.
Arguments rq_PolicyContext {MD}.

Definition copied := option (gmap string tree).
Definition ScopeResolver : Type := copied → res Error Scope.
Definition ExplicitWriteAllowed : Type := RunRequest copied → bool.

(** The inputs of the tools, parsed. *)
Record SearchInput := mkSearchInput { si_Query : string; si_Key : string; si_Kinds : list Kind }.
Record WriteInput := mkWriteInput {
  wi_Kind : Kind; wi_Key : string; wi_Content : string; wi_ValidUntil : string; wi_Reason : string
}.
(** [normalized] in the write tool. *)
Record NormalizedWrite := mkNormalized {
  nw_Kind : Kind; nw_Key : string; nw_Content : string; nw_ValidUntil : option Time; nw_Reason : string
}.

Record toolRecord := mkToolRecord {
  tr_ID : string; tr_Kind : Kind; tr_Key : string; tr_Content : string; tr_SourceRefs : list string
}.
Record readToolRecord := mkReadRecord {
  rd_Found : bool; rd_ID : string; rd_Kind : Kind; rd_Key : string; rd_Content : string; rd_Version : Z;
  rd_SourceRefs : list string
}.
(** The result of [memoryWriteSuccess], encoded. *)
Record WriteReport := mkReport { wr_ID : string; wr_Version : Z; wr_Status : string; wr_Note : string }.

Record writeExpectation := mkExpectation {
  we_id : string; we_key : string; we_actor : string; we_sourceAgentID : string; we_idempotencyKey : string;
  we_scope : Scope; we_kind : Kind
}.

(** The texts the tools read and write. [decode_*] is a strict decoding of the whole input. *)
Class Codec := {
  decode_search : string → option SearchInput;
  decode_read : string → option string;
  decode_write : string → option WriteInput;
  marshal_write : NormalizedWrite → option string;
  marshal_records : list toolRecord → option string;
  marshal_read : readToolRecord → option string;
  marshal_report : WriteReport → option string;
  parse_RFC3339 : string → option Time
}.

(** * Checks *)

Definition effectiveMemory (m : Memory) (now : Time) : bool :=
  bool_decide (m_Status m = StatusActive ∧ ¬ Before now (m_ValidFrom m) ∧
    (IsZero (m_ValidUntil m) ∨ Before now (m_ValidUntil m))).

(** The loop of [sourceRefs]. *)
Fixpoint collect_refs (refs : list string) (l : list Source) : res Error (list string) :=
  match l with
  | [] => Ok refs
  | s :: l =>
      if decide (Blank (s_Ref s)) then Err ErrInvalidRecallResult
      else collect_refs (if decide (s_Ref s ∈ refs) then refs else refs ++ [s_Ref s]) l
  end.
Definition sourceRefs (l : list Source) : res Error (list string) :=
  let? refs := collect_refs [] l in Ok (sort_slice str_lt refs).

Definition timeDifference (left right : Time) : Duration :=
  let difference := TimeSub left right in
  if difference <? 0 then wrap64 (- difference) else difference.

Section checks.
Context (uuid_Parse : string → option string).

Definition validateStoredMemory (m : Memory) (sources : list Source) (l : Limits) : res Error () :=
  let? _ := check (0 <? m_Version m) ErrInvalidRecallResult in
  match ValidateCreateRequest uuid_Parse
    (mkCreate (m_ID m) (m_Scope m) (m_Kind m) (m_Key m) (m_Status m) (m_Content m) (m_ValidFrom m)
       (m_ValidUntil m) (m_Importance m) (m_Confidence m) (m_SourceAgentID m) (m_CreatedBy m) ""
       (m_IdempotencyKey m) sources 0) l with
  | Ok _ => Ok ()
  | Err _ => Err ErrInvalidRecallResult
  end.

(** An erased memory is inactive and has no content. *)
Definition validateReadMemorySnapshot (m : Memory) (expectedID : string) (scope : Scope) (l : Limits)
    : res Error () :=
  let? _ := check (bool_decide (m_ID m = expectedID ∧ m_Scope m = scope)) ErrInvalidRecallResult in
  validateStoredMemory
    (if decide (m_Status m = StatusInactive ∧ m_Content m = "") then m <| m_Content := "x" |> else m) [] l.

Definition validateReplayMemory (m : Memory) (expected : writeExpectation) (l : Limits) : res Error () :=
  let? _ := check (bool_decide (m_ID m = we_id expected ∧ m_Scope m = we_scope expected ∧
    m_Kind m = we_kind expected ∧ m_Key m = we_key expected ∧ m_CreatedBy m = we_actor expected ∧
    m_SourceAgentID m = we_sourceAgentID expected ∧ m_IdempotencyKey m = we_idempotencyKey expected ∧
    ¬ Blank (m_Content m) ∧
    (m_Status m = StatusActive ∨ m_Status m = StatusInactive ∨ m_Status m = StatusCandidate)))
    ErrInvalidRecallResult in
  validateStoredMemory m [] l.

Definition validateInitialWriteMemory (m : Memory) (r : CreateRequest) (l : Limits) : res Error () :=
  let? _ := check (bool_decide (m_ID m = cr_ID r ∧ m_Scope m = cr_Scope r ∧ m_Kind m = cr_Kind r ∧
      m_Key m = cr_Key r ∧ m_Status m = cr_Status r ∧ m_Content m = cr_Content r ∧
      m_ValidFrom m = cr_ValidFrom r ∧ m_ValidUntil m = cr_ValidUntil r ∧ m_Importance m = cr_Importance r ∧
      m_SourceAgentID m = cr_SourceAgentID r ∧ m_CreatedBy m = cr_Actor r ∧
      m_IdempotencyKey m = cr_IdempotencyKey r ∧ m_Version m = 1 ∧
      ¬ IsZero (m_CreatedAt m) ∧ ¬ IsZero (m_UpdatedAt m)) &&
    num_eq (m_Confidence m) (cr_Confidence r) &&
    (timeDifference (m_CreatedAt m) (cr_Now r) <=? Workers.microsecond) &&
    (timeDifference (m_UpdatedAt m) (cr_Now r) <=? Workers.microsecond)) ErrInvalidRecallResult in
  validateStoredMemory m (cr_Sources r) l.

(** One item of the loop of [recallToolRecords]. *)
Definition recall_record (scope : Scope) (now : Time) (l : Limits) (item : RecallItem) : res Error toolRecord :=
  let m := i_Memory item in
  let? _ := check (bool_decide (m_Scope m = scope) && effectiveMemory m now) ErrInvalidRecallResult in
  let? _ := validateStoredMemory m (i_Sources item) l in
  let? refs := sourceRefs (i_Sources item) in
  Ok (mkToolRecord (m_ID m) (m_Kind m) (m_Key m) (m_Content m) refs).

Fixpoint recall_records (scope : Scope) (now : Time) (l : Limits) (items : list RecallItem)
    : res Error (list toolRecord) :=
  match items with
  | [] => Ok []
  | item :: items =>
      let? record := recall_record scope now l item in
      let? records := recall_records scope now l items in
      Ok (record :: records)
  end.

Definition recallToolRecords (items : list RecallItem) (scope : Scope) (now : Time) (l : Limits)
    : res Error (list toolRecord) :=
  let? _ := check (Z.of_nat (length items) <=? MaxListItems l) ErrInvalidRecallResult in
  recall_records scope now l items.

End checks.

(** * Results *)

Definition memoryNotFound : ToolResult :=
  AgentTools.mkResult (json "{'found':false}") "未找到项目记忆" false false "" ∅.
Definition memoryReadFailure : ToolResult :=
  AgentTools.mkResult "项目记忆暂时无法读取" "项目记忆暂时无法读取" false true "" ∅.
Definition write_failed : ToolResult :=
  AgentTools.mkResult "项目记忆未保存" "项目记忆未保存" false true "" ∅.

Definition report (m : Memory) : WriteReport :=
  if decide (m_Status m = StatusCandidate)
  then mkReport (m_ID m) (m_Version m) StatusCandidate
         "pending review; the existing reviewed memory for this key stays in effect"
  else mkReport (m_ID m) (m_Version m) "" "".

Definition memoryWriteSuccess `{Codec} (m : Memory) : res Error ToolResult :=
  let forUser := if decide (m_Status m = StatusCandidate) then "项目记忆已提交审核" else "项目记忆已保存" in
  match marshal_report (report m) with
  | None => Err ErrInvalidRecallResult
  | Some encoded => Ok (AgentTools.mkResult encoded forUser false false "" ∅)
  end.

(** * The world *)

Section tools.
Context {St : Type}.

(** [env] is [env.Metadata], which may be the nil map. *)
Record World := mkWorld { tick : nat; stores : St; env : option Metadata }.

Definition M (A : Type) : Type := World → World * A.
Definition ret {A} (a : A) : M A := λ w, (w, a).
Definition bind {A B} (c : M A) (k : A → M B) : M B := λ w, let '(w, a) := c w in k a w.
#[local] Notation "'do!' x ':=' c 'in' k" := (bind c (λ x, k)) (at level 10, x name, k at level 200).

(** A question to a dependency. *)
Definition call {A} (f : nat → St → St * A) : M A := λ w,
  let '(s, a) := f (tick w) (stores w) in (mkWorld (S (tick w)) s (env w), a).
Definition query {A} (f : nat → A) : M A := call (λ n s, (s, f n)).

(** The part of [memorykit.LifecycleStore] that the tools use. *)
Record LifecycleStore := mkLifecycle {
  ls_Create : nat → St → CreateRequest → St * res Error Memory;
  ls_Get : nat → St → Scope → string → St * res Error Memory;
  ls_Sources : nat → St → Scope → string → St * res Error (list Source);
  ls_List : nat → St → ListQuery → St * res Error (list Memory)
}.

(** A recaller, with the deadline of each recall: [Recall] on the stores as they are. *)
Definition Recaller : Type := nat → St → RecallRequest → res Error RecallResult.

Record ToolProviderConfig := mkToolConfig {
  tc_Store : option LifecycleStore;
  tc_DeepRecall : option Recaller;
  tc_ResolveScope : option ScopeResolver;
  tc_AllowExplicitWrite : option ExplicitWriteAllowed;
  tc_ValidateContent : option Workers.ContentValidator;
  tc_Limits : Limits;
  tc_Now : option (nat → Time)
}.

(** A provider: a complete configuration. *)
Record ToolProvider := mkProvider {
  Store : LifecycleStore;
  DeepRecall : Recaller;
  ResolveScope : ScopeResolver;
  AllowExplicitWrite : ExplicitWriteAllowed;
  ValidateContent : Workers.ContentValidator;
  PLimits : Limits;
  Now : nat → Time
}.

Definition NewToolProvider (c : ToolProviderConfig) : res Error ToolProvider :=
  match tc_Store c, tc_DeepRecall c, tc_ResolveScope c, tc_AllowExplicitWrite c, tc_ValidateContent c,
        tc_Now c with
  | Some store, Some recall, Some resolve, Some allow, Some validate, Some now =>
      let? _ := Limits_Validate (tc_Limits c) in
      Ok (mkProvider store recall resolve allow validate (tc_Limits c) now)
  | _, _, _, _, _, _ => Err ErrInvalidMemory
  end.

Context (uuid_Parse : string → option string) (uuid_NewSHA1 : string → string → string).
Context (Sum256 : string → Digest).
Context `{Codec}.
(** The answers to [ctx.Err()]. *)
Context (ctx : nat → Ctx).

Definition ask : M Ctx := query ctx.

Definition canonicalContextError (err : option Error) : M (option Error) :=
  do! c := ask in
  ret (match c with
       | Some e => Some (ErrCtx e)
       | None => err ≫= dependencyContextError
       end).

Definition err_of {A} (r : res Error A) : option Error := match r with Ok _ => None | Err e => Some e end.

(** A call to a dependency, whose caller returns the canonical context error if there is one. *)
Definition checked {A B} (c : M (res Error A)) (k : res Error A → M (res Error B)) : M (res Error B) :=
  do! r := c in
  do! contextErr := canonicalContextError (err_of r) in
  match contextErr with Some e => ret (Err e) | None => k r end.

(** [memoryWriteFailure]: the run learns that a write failed. *)
Definition memoryWriteFailure : M (res Error ToolResult) := λ w,
  (mkWorld (tick w) (stores w) ((λ m, <[memoryWriteFailedMetadataKey := ABool true]> m) <$> env w),
   Ok write_failed).

Section provider.
Context (p : ToolProvider).

Definition Get (scope : Scope) (id : string) : M (res Error Memory) := call (λ n s, ls_Get (Store p) n s scope id).
Definition Sources (scope : Scope) (id : string) : M (res Error (list Source)) :=
  call (λ n s, ls_Sources (Store p) n s scope id).
Definition List (q : ListQuery) : M (res Error (list Memory)) := call (λ n s, ls_List (Store p) n s q).
Definition Create (r : CreateRequest) : M (res Error Memory) := call (λ n s, ls_Create (Store p) n s r).

(** A store error of the read tool. *)
Definition read_error (e : Error) : res Error ToolResult :=
  if is_error ErrNotFound e then Ok memoryNotFound
  else if IsRecoverable e then Ok memoryReadFailure
  else Err e.

(** * Searching *)

Definition newSearchTool_run (scope : Scope) (input : RawMessage) : M (res Error ToolResult) :=
  match decode_search input with
  | None => ret (Err ErrInvalidMemory)
  | Some parsed =>
      if negb (forallb Kind_IsValid (si_Kinds parsed)) then ret (Err ErrInvalidMemory)
      else
        do! now := query (Now p) in
        if decide (IsZero now) then ret (Err ErrInvalidMemory)
        else
          let keys := if decide (si_Key parsed ≠ "") then [si_Key parsed] else [] in
          do! result := call (λ n s, (s, DeepRecall p n s
            (mkRequest scope (si_Query parsed) keys (si_Kinds parsed) now))) in
          ret match result with
          | Err e => if IsRecoverable e then Ok memoryReadFailure else Err e
          | Ok result =>
              let? records := recallToolRecords uuid_Parse (Items result) scope now (PLimits p) in
              match marshal_records records with
              | None => Err ErrInvalidRecallResult
              | Some encoded => Ok (AgentTools.mkResult encoded "" false false "" ∅)
              end
          end
  end.

(** * Reading *)

(** The end of the read tool, with the memory confirmed. *)
Definition read_result (confirmed : Memory) (sources : list Source) : res Error ToolResult :=
  let? _ := validateStoredMemory uuid_Parse confirmed sources (PLimits p) in
  let? refs := sourceRefs sources in
  let record := mkReadRecord true (m_ID confirmed) (m_Kind confirmed) (m_Key confirmed) (m_Content confirmed)
                  (m_Version confirmed) refs in
  match marshal_read record with
  | None => Err ErrInvalidRecallResult
  | Some encoded => Ok (AgentTools.mkResult encoded "" false false "" ∅)
  end.

Definition newReadTool_run (scope : Scope) (input : RawMessage) : M (res Error ToolResult) :=
  match decode_read input with
  | None => ret (Err ErrInvalidMemory)
  | Some id =>
      match ValidateMemoryID uuid_Parse id with
      | Err e => ret (Err e)
      | Ok _ =>
          do! now := query (Now p) in
          if decide (IsZero now) then ret (Err ErrInvalidMemory)
          else checked (Get scope id) (λ got,
            match got with
            | Err e => ret (read_error e)
            | Ok memory =>
                match validateReadMemorySnapshot uuid_Parse memory id scope (PLimits p) with
                | Err e => ret (Err e)
                | Ok _ =>
                    if negb (effectiveMemory memory now) then ret (Ok memoryNotFound)
                    else checked (Sources scope id) (λ got,
                      match got with
                      | Err e => ret (read_error e)
                      | Ok sources =>
                          checked (Get scope id) (λ got,
                            ret match got with
                            | Err e => read_error e
                            | Ok confirmed =>
                                let? _ := validateReadMemorySnapshot uuid_Parse confirmed id scope (PLimits p) in
                                if negb (effectiveMemory confirmed now) || negb (same_memory confirmed memory)
                                then Ok memoryNotFound
                                else read_result confirmed sources
                            end)
                      end)
                end
            end)
      end
  end.

(** * Writing *)

Definition writeStatus (scope : Scope) (kind : Kind) (key : string) : M (res Error Status) :=
  do! current := List (mkListQuery scope kind StatusActive key 1) in
  ret match current with
  | Err e => Err e
  | Ok current =>
      if existsb (λ m, negb (HasPrefix (m_IdempotencyKey m) agentWriteKeyPrefix) || negb (m_Version m =? 1)) current
      then Ok StatusCandidate else Ok StatusActive
  end.

(** A memory that was already written. *)
Definition replay (m : Memory) (expectation : writeExpectation) : res Error ToolResult :=
  let? _ := validateReplayMemory uuid_Parse m expectation (PLimits p) in memoryWriteSuccess m.

(** The answer of the store to [Create]. *)
Definition after_create (scope : Scope) (request : CreateRequest) (expectation : writeExpectation)
    (answer : res Error Memory) : M (res Error ToolResult) :=
  match answer with
  | Ok created =>
      ret (let? _ := validateInitialWriteMemory uuid_Parse created request (PLimits p) in
           memoryWriteSuccess created)
  | Err e =>
      if is_error ErrConflict e then
        checked (Get scope (we_id expectation)) (λ got,
          match got with
          | Ok current => ret (replay current expectation)
          | Err _ => memoryWriteFailure
          end)
      else memoryWriteFailure
  end.

Definition write_request (scope : Scope) (actor runID id idempotencyKey : string) (parsed : WriteInput)
    (status : Status) (until now : Time) : CreateRequest :=
  mkCreate id scope (wi_Kind parsed) (wi_Key parsed) status (wi_Content parsed) now until 0 (Num 0) runID actor
    (wi_Reason parsed) idempotencyKey [mkSource "agent_run" ("agent-run:" +:+ runID) ""] now.

(** A write that the store does not know yet. *)
Definition write_new (scope : Scope) (actor runID : string) (parsed : WriteInput) (validUntil : option Time)
    (expectation : writeExpectation) : M (res Error ToolResult) :=
  do! now := query (Now p) in
  if decide (IsZero now) then ret (Err ErrInvalidMemory)
  else if match validUntil with Some u => negb (bool_decide (After u now)) | None => false end
  then ret (Err ErrInvalidMemory)
  else
    checked (writeStatus scope (wi_Kind parsed) (wi_Key parsed)) (λ status,
      match status with
      | Err _ => memoryWriteFailure
      | Ok status =>
          let request := write_request scope actor runID (we_id expectation) (we_idempotencyKey expectation)
                           parsed status (default 0 validUntil) now in
          checked (Create request) (after_create scope request expectation)
      end).

(** The identity of a write: the run and the digest of what it says. *)
Definition expected_write (scope : Scope) (actor runID : string) (parsed : WriteInput) (digest : Digest)
    : writeExpectation :=
  mkExpectation (uuid_NewSHA1 runID digest) (wi_Key parsed) actor runID
    (agentWriteKeyPrefix +:+ runID +:+ ":" +:+ hex digest) scope (wi_Kind parsed).

Definition write_parsed (scope : Scope) (actor runID : string) (parsed : WriteInput) (validUntil : option Time)
    (digest : Digest) : M (res Error ToolResult) :=
  let expectation := expected_write scope actor runID parsed digest in
  checked (query (λ n, match ValidateContent p n (wi_Content parsed) with Some e => Err e | None => Ok () end)) (λ valid,
    match valid with
    | Err _ => memoryWriteFailure
    | Ok _ =>
        checked (Get scope (we_id expectation)) (λ got,
          match got with
          | Ok current => ret (replay current expectation)
          | Err e =>
              if is_error ErrNotFound e then write_new scope actor runID parsed validUntil expectation
              else memoryWriteFailure
          end)
    end).

(** What the write tool computes of its input before it asks anything. *)
Definition parse_write (input : RawMessage) : res Error (WriteInput * option Time * Digest) :=
  match decode_write input with
  | None => Err ErrInvalidMemory
  | Some parsed =>
      let? _ := check (Kind_IsValid (wi_Kind parsed)) ErrInvalidMemory in
      let? validUntil :=
        if decide (wi_ValidUntil parsed ≠ "") then
          match parse_RFC3339 (wi_ValidUntil parsed) with
          | Some t => Ok (Some t)
          | None => Err ErrInvalidMemory
          end
        else Ok None in
      match marshal_write (mkNormalized (wi_Kind parsed) (wi_Key parsed) (wi_Content parsed) validUntil (wi_Reason parsed)) with
      | Some canonical => Ok (parsed, validUntil, Sum256 canonical)
      | None => Err ErrInvalidMemory
      end
  end.

Definition newWriteTool_run (scope : Scope) (actor runID : string) (input : RawMessage)
    : M (res Error ToolResult) :=
  match parse_write input with
  | Err e => ret (Err e)
  | Ok (parsed, validUntil, digest) => write_parsed scope actor runID parsed validUntil digest
  end.

(** * Tools *)

Record requestScopedTool := mkScopedTool {
  spec : ToolSpec;
  run : RawMessage → M (res Error ToolResult)
}.

Definition tool_spec (name description : string) (permission : Permission) (schema : string) : ToolSpec :=
  mkSpec name description permission ExecutionModeAuto 0 (mkSchema schema None).

Definition newSearchTool (scope : Scope) : requestScopedTool :=
  mkScopedTool (tool_spec "search_memory" "Search effective project memory by query and optional filters."
    PermissionRead searchMemorySchema) (newSearchTool_run scope).
Definition newReadTool (scope : Scope) : requestScopedTool :=
  mkScopedTool (tool_spec "read_memory" "Read one effective project memory record by ID."
    PermissionRead readMemorySchema) (newReadTool_run scope).
Definition newWriteTool (scope : Scope) (actor runID : string) : requestScopedTool :=
  mkScopedTool (tool_spec "remember_project_memory" "Save an explicit project memory request."
    PermissionWrite writeMemorySchema) (newWriteTool_run scope actor runID).

Section schemas.
Context (schema_compiles : RawMessage → option AgentTools.Error).
Context (json_instance : RawMessage → option AgentTools.Error).
Context (schema_validates : RawMessage → RawMessage → option AgentTools.Error).

Definition Execute (t : requestScopedTool) (input : RawMessage) : M (res Error ToolResult) :=
  do! c := ask in
  match c with
  | Some e => ret (Err (ErrCtx e))
  | None =>
      match schema_ValidateInput schema_compiles json_instance schema_validates (sp_Schema (spec t)) input with
      | Some _ => ret (Err ErrInvalidMemory)
      | None => run t input
      end
  end.

End schemas.

(** The zero UUID. *)
Definition uuid_Nil : string := "00000000-0000-0000-0000-000000000000".

(** [Tools], with the request's metadata on the heap [h]. The second copy is a copy of a copy. *)
Definition Tools (h : heap) (c : Ctx) (request : RunRequest (option loc)) : res Error (list requestScopedTool) :=
  match c with
  | Some e => Err (ErrCtx e)
  | None =>
      match cloneMetadata h (rq_Metadata request) with
      | None => Err ErrInvalidMemory
      | Some metadata =>
          let? scope := ResolveScope p metadata in
          let? _ := Scope_Validate scope in
          let request := mkRunRequest (rq_RunID request) (rq_Input request) (rq_UserID request)
            (rq_SessionID request) metadata (rq_AllowedPermissions request) (rq_PolicyContext request) in
          let writeAllowed := AllowExplicitWrite p request in
          if writeAllowed && bool_decide (rq_RunID request = uuid_Nil ∨ Blank (rq_UserID request))
          then Err ErrInvalidMemory
          else Ok ([newReadTool scope; newSearchTool scope] ++
                   if writeAllowed then [newWriteTool scope (rq_UserID request) (rq_RunID request)] else [])
      end
  end.

(** [OutputValidator], which never replaces the output. *)
Definition OutputValidator (c : Ctx) (metadata : Metadata) : res Error () :=
  match c with
  | Some e => Err (ErrCtx e)
  | None =>
      match metadata !! memoryWriteFailedMetadataKey with
      | None => Ok ()
      | Some (ABool false) => Ok ()
      | Some _ => Err errMemoryWriteOutputFailed
      end
  end.

End provider.

End tools.

End MemTools.
