(* ===== verification/MemoryToolsSafety.v ===== *)
(** memorykit agent adapter: what the memory tools promise on the memory store while
other clients use it too. *)

From Stdlib Require Import QArith.
From S2P Require Import Prelude Float64 GoUtf8 GoPath AgentTools MemorySearch MemoryTypes MemoryStore MemorySafety.
From S2P Require Import MemoryRecall MemoryWorkers MetaClone MemoryTools.
Import Search Memories MemStore Meta MemTools.
#[local] Open Scope Z_scope.

(** * The memory store, shared *)

(** What happened to the store: a call of another client, or a look at the current memories or
a creation of the tool. *)
Inductive event :=
| EOther (o : op)
| ELook
| ECreate (ctx : nat → Ctx) (r : CreateRequest).

Definition call_of (e : event) : option op :=
  match e with EOther o => Some o | ELook => None | ECreate ctx r => Some (OpCreate ctx r) end.

Section shared.
Context `{U : UnicodeTables}.
Context (uuid_Parse : string → option string) (uuid_NewSHA1 : string → string → string).
Context (Marshal : CreateRequest → option string) (Sum256 : string → Digest).
Context (lim : Limits).
(** The calls of other clients before a call of the tool, the contexts, and the calls that fail
without reaching the store. *)
Context (others : nat → list op) (sctx : nat → nat → Ctx) (faults : nat → option Error).

(** The store after a log of events. *)
Definition replayed (log : list event) : MemStore.Store :=
  MemorySafety.run uuid_Parse Marshal Sum256 (empty lim) (omap call_of log).

(** A call of the tool at its turn: what it adds to the log, and what the store answers. *)
Definition at_turn {A} (own : list event) (answer : MemStore.Store → res Error A) (n : nat) (log : list event)
    : list event * res Error A :=
  let log := log ++ (EOther <$> others n) in
  match faults n with
  | Some e => (log, Err e)
  | None => (log ++ own, answer (replayed log))
  end.

(** The memory store for the tools, as the log of what happened to it. *)
Definition shared_store : LifecycleStore (St := list event) :=
  mkLifecycle
    (λ n log r, at_turn [ECreate (sctx n) r] (λ s, (MemStore.Create uuid_Parse Marshal Sum256 (sctx n) s r).2) n log)
    (λ n log scope id, at_turn [] (λ s, MemStore.Get uuid_Parse (sctx n) s scope id) n log)
    (λ n log scope id, at_turn [] (λ s, MemStore.Sources uuid_Parse (sctx n) s scope id) n log)
    (λ n log q, at_turn [ELook] (λ s, MemStore.List (sctx n) s q) n log).

Lemma replayed_app log log' :
  replayed (log ++ log') = MemorySafety.run uuid_Parse Marshal Sum256 (replayed log) (omap call_of log').
Proof. unfold replayed, MemorySafety.run. by rewrite omap_app, foldl_app. Qed.

(** * Events of a computation *)

(** Every run of [c] extends the log, by events related to the log before and to the result. *)
Definition emits {A} (c : M (St := list event) A) (R : list event → list event → A → Prop) : Prop :=
  ∀ w, ∃ l, stores (c w).1 = stores w ++ l ∧ R (stores w) l (c w).2.

Lemma logs_weaken {A} c (R R' : list event → list event → A → Prop) :
  emits c R → (∀ log l a, R log l a → R' log l a) → emits c R'.
Proof. intros H HR w. destruct (H w) as (l & Hl & Hr). eauto. Qed.

Lemma logs_ret {A} (a : A) R : (∀ log, R log [] a) → emits (ret a) R.
Proof. intros H w. exists []. by rewrite app_nil_r. Qed.

Lemma logs_bind {A B} c (k : A → M B) R R' :
  emits c R →
  (∀ a, emits (k a) (λ log2 l2 b, ∀ log l1, log2 = log ++ l1 → R log l1 a → R' log (l1 ++ l2) b)) →
  emits (bind c k) R'.
Proof.
  intros Hc Hk w. unfold bind. destruct (c w) as [w1 a] eqn:E. destruct (Hc w) as (l1 & Hl1 & HR).
  rewrite E in Hl1, HR. simpl in *. destruct (Hk a w1) as (l2 & Hl2 & HR').
  exists (l1 ++ l2). rewrite Hl2, Hl1, app_assoc. split; [done|]. by apply HR'.
Qed.

Definition other (e : event) : Prop := match e with EOther _ => True | _ => False end.
Definition uncreating (e : event) : Prop := match e with ECreate _ _ => False | _ => True end.

Lemma others_other n : Forall other (EOther <$> others n).
Proof. apply Forall_fmap. by apply Forall_true. Qed.

Lemma other_uncreating l : Forall other l → Forall uncreating l.
Proof. intros H. eapply Forall_impl; [done|]. by intros []. Qed.

Lemma logs_query {A} (f : nat → A) : emits (query f) (λ _ l _, l = []).
Proof. intros w. exists []. by rewrite app_nil_r. Qed.

Lemma emits_turn {A} (own : list event) answer (f : nat → list event → list event * res Error A) :
  (∀ n log, f n log = at_turn own (answer n) n log) →
  emits (call f) (λ log l r, ∃ l0, Forall other l0 ∧
    ((∃ e, r = Err e ∧ l = l0) ∨ ∃ n, l = l0 ++ own ∧ r = answer n (replayed (log ++ l0)))).
Proof.
  intros Hf w. unfold call. rewrite Hf. unfold at_turn. destruct (faults (tick w)) as [e|]; simpl.
  - eexists. split; [done|]. eexists. split; [apply others_other|]. left. eauto.
  - eexists. split; [by rewrite <-app_assoc|]. eexists. split; [apply others_other|]. right. eauto.
Qed.

Section tools.
Context `{Codec} (ctx : nat → Ctx) (p : ToolProvider (St := list event)).
Context (Hstore : Store p = shared_store).

Lemma emits_checked {A B} (c : M (res Error A)) (k : res Error A → M (res Error B)) R R' :
  emits c R → (∀ log l r e, R log l r → R' log l (Err e)) →
  (∀ r, emits (k r) (λ log2 l2 b, ∀ log l1, log2 = log ++ l1 → R log l1 r → R' log (l1 ++ l2) b)) →
  emits (checked ctx c k) R'.
Proof.
  intros Hc He Hk. eapply logs_bind; [done|]. intros r. eapply logs_bind.
  { eapply logs_bind; [apply logs_query|]. intros e. apply logs_ret.
    instantiate (1 := λ _ l _, l = []). by intros log log' l1 _ ->. }
  intros [e|]; [apply logs_ret|eapply logs_weaken; [apply Hk|]].
  - intros log2 log1 l1 -> -> log l0 _ Hr. rewrite app_nil_r. by eapply He.
  - intros log2 l2 b HR log1 l1 -> -> log l0 -> Hr. simpl. apply HR; [by rewrite app_nil_r|done].
Qed.

(** No event of the computation is a creation. *)
Definition calm {A} (_ l : list event) (_ : A) : Prop := Forall uncreating l.

Lemma emits_Get scope id : emits (Get p scope id) (λ _ l _, Forall other l).
Proof.
  eapply logs_weaken; [apply (emits_turn [] (λ n s, MemStore.Get uuid_Parse (sctx n) s scope id))|].
  - intros n log. by rewrite Hstore.
  - intros log l r (l0 & Ho & [(e & -> & ->)|(n & -> & _)]); [done|by rewrite app_nil_r].
Qed.

(** What [writeStatus] saw in a store when it let the request through. *)
Definition looked (s : MemStore.Store) (r : CreateRequest) : Prop :=
  ∃ cx found, MemStore.List cx s (mkListQuery (cr_Scope r) (cr_Kind r) StatusActive (cr_Key r) 1) = Ok found ∧
    (cr_Status r = StatusActive → Forall (λ m,
       HasPrefix (m_IdempotencyKey m) agentWriteKeyPrefix = true ∧ m_Version m = 1) found).

(** At most one creation, after a look at the current memories with only calls of others in
between. *)
Definition shaped {A} (log l : list event) (_ : A) : Prop :=
  Forall uncreating l ∨
  ∃ l0 mid post cx r, l = l0 ++ ELook :: mid ++ ECreate cx r :: post ∧
    Forall uncreating l0 ∧ Forall other mid ∧ Forall uncreating post ∧ looked (replayed (log ++ l0)) r.

Lemma shaped_app {A B} log l1 l2 (a : A) (b : B) :
  Forall uncreating l1 → shaped (log ++ l1) l2 a → shaped log (l1 ++ l2) b.
Proof.
  intros H1 [H2|(l0 & mid & post & cx & r & -> & H0 & Hm & Hp & Hl)]; [left; by apply Forall_app|right].
  exists (l1 ++ l0), mid, post, cx, r. rewrite <-!app_assoc in *. split; [done|].
  split; [by apply Forall_app|]. by rewrite app_assoc, <-app_assoc.
Qed.

Lemma emits_after_create scope r e answer : emits (after_create uuid_Parse ctx p scope r e answer) calm.
Proof.
  assert (emits (memoryWriteFailure (St := list event)) calm) as Hf.
  { intros w. exists []. rewrite app_nil_r. split; [done|constructor]. }
  destruct answer as [m|err]; [apply logs_ret; constructor|]. unfold after_create. destruct (is_error _ _); [|done].
  eapply emits_checked; [apply emits_Get|..].
  - intros log l r0 e0. apply other_uncreating.
  - intros [m|err'].
    + apply logs_ret. intros log2 log l1 _ Ho. rewrite app_nil_r. by apply other_uncreating.
    + eapply logs_weaken; [done|]. intros log2 l2 b H2 log l1 _ Ho.
      apply Forall_app. split; [by apply other_uncreating|done].
Qed.

Lemma emits_writeStatus scope kind key :
  emits (writeStatus p scope kind key) (λ log l status, ∃ l0, Forall other l0 ∧ 
    match status with
    | Err _ => Forall uncreating l
    | Ok status => l = l0 ++ [ELook] ∧
        ∀ r, cr_Scope r = scope → cr_Kind r = kind → cr_Key r = key → cr_Status r = status →
          looked (replayed (log ++ l0)) r
    end).
Proof.
  eapply logs_bind.
  { apply (emits_turn [ELook] (λ n s, MemStore.List (sctx n) s (mkListQuery scope kind StatusActive key 1))).
    intros n log. by rewrite Hstore. }
  intros answer. apply logs_ret. intros log2 log l1 _ (l0 & Ho & Hr). exists l0. split; [done|].
  rewrite app_nil_r. destruct answer as [found|e]; destruct Hr as [(e' & He & ->)|(n & -> & Hr)]; try done.
  - destruct (existsb _ _) eqn:Hx; (split; [done|]); intros r <- <- <- Hs; exists (sctx n), found;
      (split; [done|]); rewrite Hs; [done|]. intros _. apply Forall_forall. intros m Hm.
    destruct (HasPrefix (m_IdempotencyKey m) agentWriteKeyPrefix && (m_Version m =? 1)) eqn:Hok.
    { apply andb_true_iff in Hok as [? ?%Z.eqb_eq]. done. }
    exfalso. apply not_true_iff_false in Hx. apply Hx, existsb_exists. exists m.
    split; [by apply list_elem_of_In|]. by destruct (HasPrefix _ _), (m_Version m =? 1).
  - by apply other_uncreating.
  - apply Forall_app. split; [by apply other_uncreating|by repeat constructor].
Qed.

Lemma emits_failure : emits (memoryWriteFailure (St := list event)) (λ _ l _, l = []).
Proof. intros w. exists []. by rewrite app_nil_r. Qed.

Lemma emits_Create r :
  emits (Create p r) (λ _ l _, ∃ l0, Forall other l0 ∧ (l = l0 ∨ ∃ cx, l = l0 ++ [ECreate cx r])).
Proof.
  intros w. unfold Create, call. rewrite Hstore. simpl. unfold at_turn. destruct (faults _); simpl.
  - eexists. split; [done|]. eexists. split; [apply others_other|by left].
  - eexists. split; [by rewrite <-app_assoc|]. eexists. split; [apply others_other|]. right. by eexists.
Qed.

(** The creation that follows a look. *)
Lemma emits_creation scope request e :
  emits (checked ctx (Create p request) (after_create uuid_Parse ctx p scope request e)) (λ _ l _,
    Forall uncreating l ∨ ∃ mid post cx, l = mid ++ ECreate cx request :: post ∧
      Forall other mid ∧ Forall uncreating post).
Proof.
  eapply emits_checked; [apply emits_Create|..].
  - intros log l r0 e0 (l0 & Ho & [->|[cx ->]]); [left; by apply other_uncreating|right].
    exists l0, [], cx. by split_and!.
  - intros r. eapply logs_weaken; [apply emits_after_create|].
    intros log2 l2 b H2 log l1 _ (l0 & Ho & [->|[cx ->]]); [left|right].
    + apply Forall_app. split; [by apply other_uncreating|done].
    + exists l0, l2, cx. rewrite <-app_assoc. by split_and!.
Qed.

Lemma emits_write_new scope actor runID parsed until e :
  emits (write_new uuid_Parse ctx p scope actor runID parsed until e) shaped.
Proof.
  unfold write_new. eapply logs_bind; [apply logs_query|]. intros now.
  destruct (decide _); [|destruct (match until with Some _ => _ | None => _ end)];
    [apply logs_ret; intros log2 log l1 _ ->; left; constructor..|].
  eapply emits_checked; [apply emits_writeStatus|..].
  - intros log l r e' (l0 & Ho & Hr) log' l1 -> ->. left. simpl. destruct r; [|done]. destruct Hr as [-> _].
    apply Forall_app. split; [by apply other_uncreating|by repeat constructor].
  - intros [status|err].
    + eapply logs_weaken; [apply emits_creation|].
      intros log2 l2 b Hc log1 l1 -> (l0 & Ho & -> & Hl) log lq -> ->. simpl. rewrite app_nil_r in Hl.
      destruct Hc as [Hc|(mid & post & cx & -> & Hm & Hp)].
      * left. rewrite !Forall_app. split_and!; [by apply other_uncreating|by repeat constructor|done].
      * right. exists l0, mid, post, cx. eexists. rewrite <-app_assoc. split; [done|].
        split_and!; [by apply other_uncreating|done|done|]. by apply Hl.
    + eapply logs_weaken; [apply emits_failure|].
      intros log2 l2 b -> log1 l1 -> (l0 & Ho & Hl) log lq -> ->. left. by rewrite app_nil_r.
Qed.

Lemma logs_write scope actor runID input :
  emits (newWriteTool_run uuid_Parse uuid_NewSHA1 Sum256 ctx p scope actor runID input) shaped.
Proof.
  unfold newWriteTool_run. destruct (parse_write _ _) as [[[parsed until] digest]|e];
    [|apply logs_ret; left; constructor].
  unfold write_parsed. eapply emits_checked; [apply logs_query|..]; [intros log l r e ->; left; constructor|].
  intros [u|e]; [|eapply logs_weaken; [apply emits_failure|]; intros log2 l2 b -> log l1 _ ->; left; constructor].
  eapply emits_checked; [apply emits_Get|..].
  - intros log l r e Ho log' l1 -> ->. left. by apply other_uncreating.
  - assert (∀ log l1, Forall other l1 → shaped (A := res Error ToolResult) log l1 (Err ErrNotFound)) as Hs.
    { intros log l1 Ho. left. by apply other_uncreating. }
    intros [m|e].
    + apply logs_ret. intros log2 log1 l1 -> Ho log lq -> ->. rewrite app_nil_r. by apply Hs.
    + destruct (is_error _ _); (eapply logs_weaken; [first [apply emits_write_new|apply emits_failure]|]).
      * intros log2 l2 b Hsh log1 l1 -> Ho log lq -> ->. simpl. rewrite app_nil_r in Hsh.
        by eapply shaped_app; [apply other_uncreating|].
      * intros log2 l2 b -> log1 l1 -> Ho log lq -> ->. rewrite app_nil_r. by apply Hs.
Qed.

(** * Reviewed memory is spared *)

(** At most one memory is listed for one key. *)
Lemma listed_key s cx (scope : Scope) kind key found id m :
  active_unique s → kind ≠ "" → key ≠ "" →
  MemStore.List cx s (mkListQuery scope kind StatusActive key 1) = Ok found →
  memories s !! id = Some m → m_Status m = StatusActive → m_Scope m = scope → m_Kind m = kind → m_Key m = key →
  m ∈ found.
Proof.
  intros Hu Hkind Hkey Hl Hm Ha Hs Hk Hkk. unfold MemStore.List in Hl.
  destruct (guarded _ _); [|done]. injection Hl as <-. cbn [lq_Limit].
  set (q := mkListQuery _ _ _ _ _). set (l := filter (list_matches q) _).
  assert (m ∈ l) as Hin.
  { apply list_elem_of_filter. split; [split_and!; simpl; auto|].
    apply list_elem_of_fmap. exists (id, m). split; [done|]. by apply elem_of_map_to_list. }
  assert (∀ m', m' ∈ l → m' = m) as Hall.
  { intros m' [(S1 & [|K1] & [|A1] & [|Y1]) Hm']%list_elem_of_filter; try done. simpl in *.
    apply list_elem_of_fmap in Hm' as ([id' m''] & -> & Hm'%elem_of_map_to_list). simpl in *.
    assert (id' = id) as ->; [|congruence].
    apply (Hu id' id m'' m); try done. apply bool_decide_eq_true. split_and!; congruence. }
  assert (∀ l', m ∈ l' → (∀ m', m' ∈ l' → m' = m) → m ∈ limit_to 1 l') as Hlim.
  { intros [|m0 l'] Hm0 Hl'; [by apply elem_of_nil in Hm0|].
    assert (m0 = m) as -> by (apply Hl'; by left). unfold limit_to.
    destruct (1 <? _); [simpl|]; by left. }
  apply Hlim; [by apply elem_of_sort_slice|]. intros m' Hm'%elem_of_sort_slice. by apply Hall.
Qed.

(** The agent's own write, as it was made. *)
Definition own_write (x : Memory * list Revision) : Prop :=
  HasPrefix (m_IdempotencyKey x.1) agentWriteKeyPrefix = true ∧ length x.2 = 1%nat.

Lemma looked_spares log cx r id x :
  let s := replayed log in
  looked s r → view s id = Some x →
  view (exec uuid_Parse Marshal Sum256 s (OpCreate cx r)).1 id ≠ Some x → own_write x.
Proof.
  intros s (cx0 & found & Hfound & Hall) Hx Hne.
  destruct (run_invariant uuid_Parse Marshal Sum256 lim (omap call_of log)) as [Hu Hh].
  pose proof (run_keyed uuid_Parse Marshal Sum256 _ (omap call_of log) (empty_keyed lim)) as Hk.
  fold (replayed log) in Hu, Hh, Hk. fold s in Hu, Hh, Hk. specialize (Hh id x Hx).
  destruct (exec_effect uuid_Parse Marshal Sum256 s (OpCreate cx r)) as [E|(s' & E & He)]; rewrite E in Hne; [done|].
  cbn [fst] in Hne. inversion He as [|? ? fp Hnone _ _ Hval| | | | | |]; subst; [done|].
  rewrite store_created_view in Hne. destruct (decide (id = cr_ID r)) as [->|_].
  { apply view_memory in Hx. congruence. }
  revert Hne. unfold made_room. destruct (decide _) as [Ha|]; intros Hne; [|done].
  rewrite supersede_view, Hx in Hne by done. cbn in Hne.
  destruct (decide (gives_way _ _ id x.1)) as [Hg|]; [|done].
  unfold gives_way in Hg. apply Decidable.not_or in Hg as [_ Hg]. apply Decidable.not_or in Hg as [Hact Hg].
  apply dec_stable in Hact. apply not_false_iff_true in Hg. unfold sameConflictKey in Hg.
  apply bool_decide_eq_true in Hg as (Hsc & Hkd & Hky). simpl in Hsc, Hkd, Hky.
  pose proof (created_valid uuid_Parse r _ Hval) as Hv.
  assert (x.1 ∈ found) as Hin.
  { eapply (listed_key s cx0 (cr_Scope r) (cr_Kind r) (cr_Key r));
      [done| | |done|by apply view_memory|done|done|done|done].
    - intros H0. pose proof (vm_kind _ _ Hv) as Hkv. simpl in Hkv. by rewrite H0 in Hkv.
    - intros H0. apply (vm_key _ _ Hv). simpl. by rewrite H0. }
  apply (proj1 (Forall_forall _ _) (Hall Ha)) in Hin as [Hp Hver]. split; [done|].
  pose proof (h_length _ _ Hh). lia.
Qed.

(** One creation only splits the log one way. *)
Lemma split_creation l0 e l l0' e' l' :
  Forall uncreating l0 → Forall uncreating l → ¬ uncreating e' →
  l0 ++ e :: l = l0' ++ e' :: l' → l0' = l0 ∧ e' = e ∧ l' = l.
Proof.
  revert l0'. induction l0 as [|a l0 IH]; intros [|a' l0'] H0 Hl He' Heq; simpl in Heq; simplify_eq.
  - done.
  - apply Forall_app in Hl as [_ Hl]. by inversion Hl.
  - by inversion H0.
  - inversion H0; subst. destruct (IH l0') as (-> & -> & ->); done.
Qed.

(** C9: A write of the model never replaces memory that a person wrote, reviewed or corrected:
however the memory tool's calls interleave with the calls of other clients, it creates at most
one memory, after a look at the current ones, and when no other client comes between the two,
every memory that the creation changes is a write of the agent itself that nobody has
touched. *)
Theorem write_spares_reviewed scope actor runID input w :
  let w' := (newWriteTool_run uuid_Parse uuid_NewSHA1 Sum256 ctx p scope actor runID input w).1 in
  ∃ l, stores w' = stores w ++ l ∧
    ∀ before cx r after, l = before ++ ECreate cx r :: after →
      Forall uncreating before ∧ Forall uncreating after ∧
      ∃ l0 between, before = l0 ++ ELook :: between ∧ Forall other between ∧
        (between = [] → ∀ id x, view (replayed (stores w ++ before)) id = Some x →
           view (replayed (stores w ++ before ++ [ECreate cx r])) id ≠ Some x → own_write x).
Proof.
  destruct (logs_write scope actor runID input w) as (l & Hl & Hsh). exists l. split; [done|].
  intros before cx r after ->. destruct Hsh as [Hno|(l0 & mid & post & cx' & r' & Heq & H0 & Hm & Hp & Hlook)].
  { apply Forall_app in Hno as [_ Hno]. by inversion Hno. }
  assert (Forall uncreating (l0 ++ ELook :: mid)) as Hb.
  { apply Forall_app. split; [done|]. constructor; [done|]. by apply other_uncreating. }
  rewrite app_comm_cons, app_assoc in Heq. symmetry in Heq.
  destruct (split_creation _ _ _ _ (ECreate cx r) _ Hb Hp (λ H, H) Heq) as (-> & [= -> ->] & ->).
  split_and!; [done|done|].
  exists l0, mid. split_and!; [done|done|]. intros -> id x Hx. rewrite app_assoc, replayed_app.
  intros Hne. eapply (looked_spares (stores w ++ l0 ++ [ELook])); [|exact Hx|exact Hne].
  rewrite app_assoc, replayed_app. done.
Qed.

(** * Reads are atomic *)

(** A memory along calls: its version grows, or the memory stays as it is. *)
Lemma run_memory s h id m :
  keyed s → memories s !! id = Some m →
  ∃ m', memories (MemorySafety.run uuid_Parse Marshal Sum256 s h) !! id = Some m' ∧
    (m' = m ∨ m_Version m < m_Version m').
Proof.
  revert s m. induction h as [|o h IH]; intros s m Hk Hm; [eauto|]. cbn [MemorySafety.run foldl].
  destruct (exec_effect uuid_Parse Marshal Sum256 s o) as [->|(s' & -> & He)]; [by apply IH|]. cbn [fst].
  pose proof (effect_evolves _ _ _ s o s' id Hk He) as Hev. unfold evolves in Hev.
  unfold view at 1 in Hev. rewrite Hm in Hev. destruct Hev as (x' & Hx' & Hc). apply view_memory in Hx'.
  destruct (IH s' x'.1 (effect_keyed _ _ _ _ _ _ Hk He) Hx') as (m' & Hm' & Hv). exists m'. split; [done|].
  assert (x'.1 = m ∨ m_Version m < m_Version x'.1) as Hx.
  { destruct Hc as [|m1 r Hn _|m1 r Hn _ _ _]; [by left|right..]; simpl; rewrite (nv_version _ _ Hn); simpl; lia. }
  destruct Hv as [->|Hv]; [done|]. right. destruct Hx as [<-|Hx]; lia.
Qed.

Lemma replayed_keyed log : keyed (replayed log).
Proof. apply run_keyed, empty_keyed. Qed.

(** A memory that is the same at two moments was the same in between. *)
Lemma same_between log l1 l2 id m m' :
  memories (replayed log) !! id = Some m → memories (replayed (log ++ l1 ++ l2)) !! id = Some m' →
  Recall.same_memory m' m = true →
  memories (replayed (log ++ l1)) !! id = Some m ∧ m' = m.
Proof.
  intros Hm Hm' Hsame.
  assert (m_Version m' = m_Version m) as Hv.
  { apply andb_true_iff in Hsame as [Hs%bool_decide_eq_true _]. by apply (f_equal m_Version) in Hs. }
  rewrite app_assoc, replayed_app in Hm'. rewrite replayed_app.
  destruct (run_memory _ (omap call_of l1) id m (replayed_keyed log) Hm) as (m1 & Hm1 & H1).
  pose proof (run_keyed uuid_Parse Marshal Sum256 _ (omap call_of l1) (replayed_keyed log)) as Hk1.
  rewrite replayed_app in Hm'.
  destruct (run_memory _ (omap call_of l2) id m1 Hk1 Hm1) as (m2 & Hm2 & H2).
  rewrite Hm2 in Hm'. injection Hm' as ->.
  destruct H1 as [->|H1], H2 as [->|H2]; [done|lia..].
Qed.

(** What [Get] and [Sources] return. *)
Lemma got_Ok (cx : nat → Ctx) s scope id m :
  MemStore.Get uuid_Parse cx s scope id = Ok m → memories s !! id = Some m ∧ m_Scope m = scope.
Proof.
  unfold MemStore.Get. destruct (guarded _ _); [|done]. cbn [res_bind]. unfold scoped.
  destruct (memories s !! id) as [m'|]; [|done]. destruct (decide _) as [|Hs]; [done|].
  intros [= ->]. by apply dec_stable in Hs.
Qed.

Lemma sources_Ok (cx : nat → Ctx) s scope id l :
  MemStore.Sources uuid_Parse cx s scope id = Ok l → l = default [] (sources s !! id).
Proof.
  unfold MemStore.Sources. destruct (guarded _ _); [|done]. cbn [res_bind].
  destruct (scoped _ _ _); [|done]. by intros [= <-].
Qed.

(** A call that only reads: the store answers as it is at that moment, or the call fails. *)
Lemma emits_read {A} (answer : nat → MemStore.Store → res Error A) f (P : list event → A → Prop) :
  (∀ n log, f n log = at_turn [] (answer n) n log) →
  (∀ n log a, answer n (replayed log) = Ok a → P log a) →
  emits (call f) (λ log l r, Forall other l ∧ match r with Ok a => P (log ++ l) a | Err _ => True end).
Proof.
  intros Hf HP. eapply logs_weaken; [by apply emits_turn|].
  intros log l r (l0 & Ho & [(e & -> & ->)|(n & -> & ->)]); [done|].
  rewrite app_nil_r. split; [done|]. destruct (answer n _) eqn:E; [by eapply HP|done].
Qed.

(** A result of the read tool that tells the truth about one moment. *)
Definition truthful (scope : Scope) (id : string) (now : Time) (log l : list event)
    (r : res Error ToolResult) : Prop :=
  match r with
  | Err _ => True
  | Ok result =>
      result = memoryNotFound ∨ result = memoryReadFailure ∨
      ∃ l1 l2 m refs, l = l1 ++ l2 ∧
        let s := replayed (log ++ l1) in
        memories s !! id = Some m ∧ m_Scope m = scope ∧ effectiveMemory m now = true ∧
        sourceRefs (default [] (sources s !! id)) = Ok refs ∧
        marshal_read (mkReadRecord true id (m_Kind m) (m_Key m) (m_Content m) (m_Version m) refs)
          = Some (tr_ForLLM result)
  end.

Lemma read_error_truthful scope id now log l e : truthful scope id now log l (read_error e).
Proof. unfold read_error. destruct (is_error _ _); [by left|]. destruct (IsRecoverable e); [right; by left|done]. Qed.

Lemma emits_Get_read scope id :
  emits (Get p scope id) (λ log l r, Forall other l ∧
    match r with Ok m => memories (replayed (log ++ l)) !! id = Some m ∧ m_Scope m = scope | Err _ => True end).
Proof.
  apply (emits_read (λ n s, MemStore.Get uuid_Parse (sctx n) s scope id) _
    (λ log m, memories (replayed log) !! id = Some m ∧ m_Scope m = scope)).
  - intros n log. by rewrite Hstore.
  - intros n log m. apply got_Ok.
Qed.

Lemma emits_Sources_read scope id :
  emits (Sources p scope id) (λ log l r, Forall other l ∧
    match r with Ok srcs => srcs = default [] (sources (replayed (log ++ l)) !! id) | Err _ => True end).
Proof.
  apply (emits_read (λ n s, MemStore.Sources uuid_Parse (sctx n) s scope id) _
    (λ log srcs, srcs = default [] (sources (replayed log) !! id))).
  - intros n log. by rewrite Hstore.
  - intros n log srcs. apply sources_Ok.
Qed.

(** The result for a memory confirmed after its sources were read. *)
Lemma confirmed_truthful scope id now log l1 l2 l3 m m' :
  memories (replayed (log ++ l1)) !! id = Some m → m_Scope m = scope → effectiveMemory m now = true →
  memories (replayed (log ++ l1 ++ l2 ++ l3)) !! id = Some m' →
  let srcs := default [] (sources (replayed (log ++ l1 ++ l2)) !! id) in
  Recall.same_memory m' m = true →
  truthful scope id now log (l1 ++ l2 ++ l3) (read_result uuid_Parse p m' srcs).
Proof.
  intros Hm Hs He Hm' srcs Hsame. rewrite app_assoc in Hm'.
  destruct (same_between (log ++ l1) l2 l3 id m m' Hm Hm' Hsame) as [Hm2 ->].
  unfold read_result. destruct (validateStoredMemory _ _ _ _); [|done]. cbn [res_bind].
  destruct (sourceRefs srcs) as [refs|] eqn:Hr; [|done]. cbn [res_bind].
  destruct (marshal_read _) as [enc|] eqn:Henc; [|done]. right. right.
  exists (l1 ++ l2), l3, m, refs. rewrite <-!app_assoc in *. split_and!; try done.
  simpl. rewrite <-Henc. by rewrite (proj1 (replayed_keyed (log ++ l1)) id m Hm).
Qed.

Lemma logs_query_at {A} (f : nat → A) : emits (query f) (λ _ l a, l = [] ∧ ∃ n, a = f n).
Proof. intros w. exists []. rewrite app_nil_r. split_and!; [done..|by exists (tick w)]. Qed.

(** The read tool's calls, each with what the ones before it found. *)
Lemma emits_read_tool scope input :
  emits (newReadTool_run uuid_Parse ctx p scope input) (λ log l r, Forall other l ∧
    (is_ok r = true → ∃ id n, decode_read input = Some id ∧ truthful scope id (Now p n) log l r)).
Proof.
  unfold newReadTool_run. destruct (decode_read input) as [id|]; [|by apply logs_ret].
  destruct (ValidateMemoryID _ _) as [[]|]; [|by apply logs_ret].
  eapply logs_bind; [apply logs_query_at|]. intros now.
  destruct (decide _); [apply logs_ret; by intros log2 log l1 -> [-> _]|].
  assert (∀ n log l1 r, now = Now p n → truthful scope id now log l1 r →
    is_ok r = true → ∃ id' n, Some id = Some id' ∧ truthful scope id' (Now p n) log l1 r) as Hdone.
  { intros n' log l1 r -> Ht _. by exists id, n'. }
  eapply emits_checked; [apply emits_Get_read|by intros log l r e [Ho _] log' l1 -> [-> _]|].
  intros [m|e].
  2:{ apply logs_ret. intros log2 log1 l1 -> [Ho _] log l0 -> [-> [n' Hn]]. rewrite app_nil_r.
      split; [done|]. eapply Hdone; [done|apply read_error_truthful]. }
  destruct (validateReadMemorySnapshot _ m _ _ _) as [[]|].
  2:{ apply logs_ret. intros log2 log1 l1 -> [Ho _] log l0 -> [-> _]. by rewrite app_nil_r. }
  destruct (effectiveMemory m now) eqn:He; cbn [negb].
  2:{ apply logs_ret. intros log2 log1 l1 -> [Ho _] log l0 -> [-> [n' Hn]]. rewrite app_nil_r.
      split; [done|]. eapply Hdone; [done|by left]. }
  eapply emits_checked; [apply emits_Sources_read|..].
  { intros log2 l2 r e [Ho _] log1 l1 -> [Ho1 _] log l0 -> [-> _]. split; [|done]. cbn [app]. by apply Forall_app. }
  intros [srcs|e].
  2:{ apply logs_ret. intros log3 log2 l2 -> [Ho2 _] log1 l1 -> [Ho1 _] log l0 -> [-> [n' Hn]].
      rewrite app_nil_r. cbn [app]. split; [by apply Forall_app|]. eapply Hdone; [done|apply read_error_truthful]. }
  eapply emits_checked; [apply emits_Get_read|..].
  { intros log3 l3 r e [Ho3 _] log2 l2 -> [Ho2 _] log1 l1 -> [Ho1 _] log l0 -> [-> _].
    split; [|done]. cbn [app]. by rewrite !Forall_app. }
  intros got. apply logs_ret.
  intros log4 log3 l3 -> [Ho3 H3] log2 l2 -> [Ho2 Hsrc] log1 l1 -> [Ho1 Hm] log l0 -> [-> [n' Hn]].
  rewrite !app_nil_r in *. cbn [app]. split; [by rewrite !Forall_app|]. eapply Hdone; [done|].
  destruct got as [m'|e]; [|apply read_error_truthful].
  destruct (validateReadMemorySnapshot _ m' _ _ _) as [[]|]; [|done]. cbn [res_bind].
  destruct (negb _ || negb _) eqn:Hb; [by left|].
  apply orb_false_iff in Hb as [_ Hsame%negb_false_iff]. subst srcs. cbn [app].
  rewrite <-!app_assoc in *. eapply confirmed_truthful; try done; apply Hm || apply H3.
Qed.

(** C13: A read is atomic: although the read tool asks the store three times while other clients
change it, a record it reports found is the memory of that scope, in force at the
tool's time, with the references of its sources, all as they were in the store at one and
the same moment during the read. *)
Theorem read_atomic scope input w :
  let '(w', r) := newReadTool_run uuid_Parse ctx p scope input w in
  ∃ l, stores w' = stores w ++ l ∧ Forall other l ∧
    (is_ok r = true → ∃ id n, decode_read input = Some id ∧ truthful scope id (Now p n) (stores w) l r).
Proof.
  destruct (emits_read_tool scope input w) as (l & Hl & H'). destruct (newReadTool_run _ _ _ _ _ w) as [w' r].
  by exists l.
Qed.

(** * Results of a write *)

Definition flagged (m : option Metadata) : option Metadata :=
  (λ m, <[memoryWriteFailedMetadataKey := ABool true]> m) <$> m.

(** A computation that leaves a mark in the run's metadata when it ends with a failure, and
changes nothing in it otherwise. *)
Definition marks (c : M (St := list event) (res Error ToolResult)) : Prop :=
  ∀ w, env (c w).1 = match (c w).2 with
                     | Ok r => if tr_IsError r then flagged (env w) else env w
                     | Err _ => env w
                     end.

Lemma marks_ret r : match r with Ok r => tr_IsError r = false | Err _ => True end → marks (ret r).
Proof. intros Hr w. simpl. destruct r as [r|]; [by rewrite Hr|done]. Qed.

Lemma marks_failure : marks memoryWriteFailure.
Proof. by intros w. Qed.

Definition keeps_env {A} (c : M (St := list event) A) : Prop := ∀ w, env (c w).1 = env w.

Lemma keeps_call {A} (f : nat → list event → list event * A) : keeps_env (call f).
Proof. intros w. unfold call. by destruct (f _ _). Qed.

Lemma marks_bind {A} (c : M A) k : keeps_env c → (∀ a, marks (k a)) → marks (bind c k).
Proof.
  intros Hc Hk w. unfold bind. specialize (Hc w). destruct (c w) as [w1 a]. simpl in Hc.
  rewrite <-Hc. apply Hk.
Qed.

Lemma marks_checked {A} (c : M (res Error A)) k :
  keeps_env c → (∀ r, marks (k r)) → marks (checked ctx c k).
Proof.
  intros Hc Hk. apply marks_bind; [done|]. intros r. apply marks_bind.
  { intros w. unfold canonicalContextError, bind, ask, query, call. done. }
  intros [e|]; [by apply marks_ret|apply Hk].
Qed.

Lemma marks_replay m e : marks (ret (replay uuid_Parse p m e)).
Proof.
  apply marks_ret. unfold replay. destruct (validateReplayMemory _ _ _ _); [|done]. cbn [res_bind].
  unfold memoryWriteSuccess. by destruct (marshal_report _).
Qed.

Lemma marks_after_create scope r e answer : marks (after_create uuid_Parse ctx p scope r e answer).
Proof.
  destruct answer as [m|err]; unfold after_create.
  - apply marks_ret. destruct (validateInitialWriteMemory _ _ _ _); [|done]. cbn [res_bind].
    unfold memoryWriteSuccess. by destruct (marshal_report _).
  - destruct (is_error _ _); [|apply marks_failure]. apply marks_checked; [apply keeps_call|].
    intros [m|e']; [apply marks_replay|apply marks_failure].
Qed.

Lemma marks_write scope actor runID input :
  marks (newWriteTool_run uuid_Parse uuid_NewSHA1 Sum256 ctx p scope actor runID input).
Proof.
  unfold newWriteTool_run. destruct (parse_write _ _) as [[[parsed until] digest]|e]; [|by apply marks_ret].
  unfold write_parsed. apply marks_checked; [apply keeps_call|]. intros [u|e]; [|apply marks_failure].
  apply marks_checked; [apply keeps_call|]. intros [m|e]; [apply marks_replay|].
  destruct (is_error _ _); [|apply marks_failure]. unfold write_new.
  apply marks_bind; [apply keeps_call|]. intros now.
  destruct (decide _); [by apply marks_ret|].
  destruct (match until with Some _ => _ | None => _ end); [by apply marks_ret|].
  apply marks_checked.
  - intros w. unfold writeStatus, bind, List. pose proof (keeps_call (λ n s, ls_List (Store p) n s
      (mkListQuery scope (wi_Kind parsed) StatusActive (wi_Key parsed) 1)) w) as Hl.
    by destruct (call _ w).
  - intros [status|e']; [|apply marks_failure].
    apply marks_checked; [apply keeps_call|]. intros r. apply marks_after_create.
Qed.

(** A write that fails cannot pass for one that worked: when the write tool reports a failure
inside a run, the output validator rejects the run's answer, and it rejects no answer on
account of a write that the tool reported saved. *)
Theorem failed_write_rejects_output scope actor runID input w metadata r :
  let w' := (newWriteTool_run uuid_Parse uuid_NewSHA1 Sum256 ctx p scope actor runID input w).1 in
  env w = Some metadata → metadata !! memoryWriteFailedMetadataKey = None →
  (newWriteTool_run uuid_Parse uuid_NewSHA1 Sum256 ctx p scope actor runID input w).2 = Ok r →
  ∃ metadata', env w' = Some metadata' ∧
    OutputValidator None metadata' = (if tr_IsError r then Err errMemoryWriteOutputFailed else Ok ()).
Proof.
  intros w' Hw Hnone Hr. pose proof (marks_write scope actor runID input w) as Hm. fold w' in Hm.
  rewrite Hr, Hw in Hm. unfold OutputValidator. destruct (tr_IsError r); simpl in Hm.
  - eexists. split; [done|]. by rewrite lookup_insert_eq.
  - eexists. split; [done|]. by rewrite Hnone.
Qed.

End tools.

End shared.

(** * A concrete run *)

Definition sample_write : WriteInput := mkWriteInput KindFact "editor" "uses emacs" "" "asked to".
#[export] Instance sample_codec : Codec := {|
  decode_search _ := None;
  decode_read id := Some id;
  decode_write _ := Some sample_write;
  marshal_write n := Some (nw_Content n);
  marshal_records _ := Some "";
  marshal_read r := Some (rd_Content r);
  marshal_report r := Some (wr_ID r +:+ wr_Status r);
  parse_RFC3339 _ := None
|}.
Definition name_of : string → string → string := λ namespace name, namespace +:+ "/" +:+ name.
Definition sample_provider (others : nat → list op) : ToolProvider (St := list event) :=
  mkProvider (shared_store nonblank_id content_json same_digest sample_limits others (λ _, never) (λ _, None))
    (λ _ _ _, Err ErrRecallDependency) (λ _, Err ErrInvalidScope) (λ _, true) (λ _ _, None) sample_limits
    (λ n, 100 + Z.of_nat n).
Definition sample_world (log : list event) : World := mkWorld 0 log (Some ∅).
Definition remember (others : nat → list op) (runID : string) (w : World (St := list event))
    : World (St := list event) * res Error ToolResult :=
  newWriteTool_run nonblank_id name_of same_digest never (sample_provider others) sample_scope "ada" runID "" w.
Definition sample_replayed : list event → MemStore.Store := replayed nonblank_id content_json same_digest sample_limits.

(** Ada's memory, which her agent wants to write over. *)
Definition adas : op := OpCreate never (sample_create "" []).
(** Another client calls at the given turn of the tool. *)
Definition calls_at (turn : nat) (o : op) : nat → list op := λ n, if decide (n = turn) then [o] else [].

(** The look at the current memory and the creation are two calls, and the guarantee depends
on nobody coming between them: a memory that a person writes at that moment is superseded by
the model's write, although the tool would have left it in effect. *)
Theorem late_write_superseded :
  let late := remember (calls_at 7 adas) "r1" (sample_world []) in
  let early := remember (calls_at 5 adas) "r1" (sample_world []) in
  is_ok late.2 = true ∧
  (m_Status <$> memories (sample_replayed (stores late.1)) !! "m1") = Some StatusInactive ∧
  (m_Status <$> memories (sample_replayed (stores late.1)) !! "r1/uses emacs") = Some StatusActive ∧
  (m_Status <$> memories (sample_replayed (stores early.1)) !! "m1") = Some StatusActive ∧
  (m_Status <$> memories (sample_replayed (stores early.1)) !! "r1/uses emacs") = Some StatusCandidate.
Proof. split_and!; vm_compute; reflexivity. Qed.

(** A write after the agent's own earlier one, which gives way. *)
Lemma write_spares_reviewed_witness :
  let log := stores (remember (λ _, []) "r1" (sample_world [])).1 in
  let w := remember (λ _, []) "r2" (sample_world log) in
  (m_Status <$> memories (sample_replayed (stores w.1)) !! "r1/uses emacs") = Some StatusInactive ∧
  ∃ l, stores w.1 = log ++ l ∧ length l = 2%nat ∧
    ∀ before cx r after, l = before ++ ECreate cx r :: after → Forall uncreating before.
Proof.
  intros log w. split; [vm_compute; reflexivity|].
  destruct (write_spares_reviewed nonblank_id name_of content_json same_digest sample_limits (λ _, [])
    (λ _, never) (λ _, None) never (sample_provider (λ _, [])) eq_refl sample_scope "ada" "r2" "" (sample_world log))
    as (l & Hl & Hs).
  exists l. split; [exact Hl|]. split.
  - apply (f_equal length) in Hl. rewrite length_app in Hl. vm_compute in Hl. by injection Hl.
  - intros before cx r after Heq. by destruct (Hs before cx r after Heq).
Defined.

(** A read of a memory that another client corrects after its sources were read. *)
Definition fix_editor : op :=
  OpCorrect never (mkCorrect (mkCommand sample_scope "m1" 1 "ada" "typo" 50) "uses ed" 0 0 50 (Num 1) []).
Definition look_up (others : nat → list op) : World (St := list event) * res Error ToolResult :=
  newReadTool_run nonblank_id never (sample_provider others) sample_scope "m1" (sample_world [EOther adas]).

Lemma read_atomic_witness :
  look_up (calls_at 5 fix_editor) = (mkWorld 7 [EOther adas; EOther fix_editor] (Some ∅), Ok memoryNotFound) ∧
  match (look_up (λ _, [])).2 with Ok r => tr_ForLLM r | Err _ => "" end = "uses vim" ∧
  ∃ l id n, stores (look_up (λ _, [])).1 = [EOther adas] ++ l ∧
    truthful nonblank_id content_json same_digest sample_limits sample_scope id (100 + Z.of_nat n)
      [EOther adas] l (look_up (λ _, [])).2.
Proof.
  split; [vm_compute; reflexivity|]. split; [vm_compute; reflexivity|].
  pose proof (read_atomic nonblank_id content_json same_digest sample_limits (λ _, []) (λ _, never) (λ _, None)
    never (sample_provider (λ _, [])) eq_refl sample_scope "m1" (sample_world [EOther adas])) as Hr.
  fold (look_up (λ _, [])) in Hr. assert (is_ok (look_up (λ _, [])).2 = true) as Hok by (vm_compute; reflexivity).
  destruct (look_up (λ _, [])) as [w' r]. destruct Hr as (l & Hl & _ & Ht).
  destruct (Ht Hok) as (id & n & _ & Hid). by exists l, id, n.
Defined.

Lemma failed_write_rejects_output_witness :
  let w := remember (calls_at 2 adas) "" (sample_world []) in
  ∃ metadata, env w.1 = Some metadata ∧ OutputValidator None metadata = Ok ().
Proof.
  destruct (failed_write_rejects_output nonblank_id name_of same_digest never (sample_provider (calls_at 2 adas))
    sample_scope "ada" "" "" (sample_world []) ∅
    (AgentTools.mkResult "/uses emacscandidate" "项目记忆已提交审核" false false "" ∅)) as (m & Hm & Ho);
    [reflexivity|reflexivity|vm_compute; reflexivity|]. exists m. split; [exact Hm|exact Ho].
Defined.
