(* ===== verification/OcrChunking.v ===== *)
(** ocrs: OCR of a document in chunks of pages ([src/ocrs/chunking/chunking.go],
[pdfcpu_splitter.go]).

[processChunks] is a machine: the loop that starts a goroutine per chunk under a semaphore, the
goroutines, and the contexts. [step] is one of their operations, [None] when it would block; the label chooses who
moves and what the handler answers. The handler, the merge function and the PDF library are parameters. *)

From Stdlib Require Import Strings.Byte.
From S2P Require Import Prelude.
#[local] Open Scope Z_scope.

Module Chunking.

Abbreviation bytes := (list byte).
#[local] Instance byte_eq_dec : EqDecision byte := Byte.byte_eq_dec.

Record Chunk := mkChunk { Index : Z; StartPage : Z; EndPage : Z; Data : bytes }.

Section chunking.
Context {OCRResult HErr : Type} (zero : OCRResult).

Inductive Error :=
| ErrInvalidConcurrency
| ErrText (text : string)
| ErrCtx (e : CtxErr)
| ErrChunk (index startPage endPage : Z) (e : HErr)   (** ["chunk %d pages %d-%d: %w"] *)
| ErrOf (e : HErr).                                   (** of the handler, the splitter or the merge *)

Abbreviation result := (res Error OCRResult).
Context (merge : list OCRResult → result).

(** * [processChunks] *)

(** A goroutine: in [handler.Handle], before [<-sem], before [wg.Done()]. *)
Inductive phase := Calling | Releasing | Finishing.
#[global] Instance phase_eq_dec : EqDecision phase.
Proof. solve_decision. Defined.

(** The loop: before the [select], before [sem <- struct{}{}], in [wg.Wait()], returned. *)
Inductive main_state := AtTop | AtSem | Waiting | Returned (r : result).

Record state := mkState {
  next : nat;                        (** [i] of the loop *)
  main : main_state;
  active : list (nat * phase);       (** goroutines, by position *)
  results : list OCRResult;
  firstErr : option Error;
  ctx2 : Ctx;                        (** [ctx2.Err()] *)
  parent : Ctx;                      (** [ctx.Err()] *)
  answers : list (nat * res HErr OCRResult)   (** what the handler answered, latest first *)
}.
#[global] Instance eta_state : Eta state := λ s,
  mkState (next s) (main s) (active s) (results s) (firstErr s) (ctx2 s) (parent s) (answers s).

Inductive label :=
| LMain                                        (** the loop *)
| LReturn (pos : nat) (r : res HErr OCRResult) (** the handler answers *)
| LRelease (pos : nat)
| LDone (pos : nat)
| LCancel (e : CtxErr).                        (** the caller's context ends *)

Section run.
Context (chunks : list Chunk) (concurrency : nat).

(** [make([]ocrs.OCRResult, len(chunks))] and the start of the loop. *)
Definition start : state := mkState 0 AtTop [] (replicate (length chunks) zero) None None None [].

(** The goroutines that hold the semaphore. *)
Definition held (s : state) : nat := length (filter (λ g, g.2 ≠ Finishing) (active s)).

(** What follows [wg.Wait()]. *)
Definition finish (s : state) : result :=
  match firstErr s with
  | Some e => Err e
  | None =>
      match ctx2 s with
      | Some e => if decide (e = Canceled) then merge (results s) else Err (ErrCtx e)
      | None => merge (results s)
      end
  end.

Definition step_main (s : state) : option state :=
  match main s with
  | AtTop =>
      if decide (next s < length chunks)%nat
      then Some (s <| main := if ctx2 s is Some _ then Waiting else AtSem |>)
      else Some (s <| main := Waiting |>)
  | AtSem =>
      if decide (held s < concurrency)%nat
      then Some (s <| active := active s ++ [(next s, Calling)] |> <| next := S (next s) |> <| main := AtTop |>)
      else None
  | Waiting => if decide (active s = []) then Some (s <| main := Returned (finish s) |>) else None
  | Returned _ => None
  end.

(** A goroutine moves from one phase to the next. *)
Definition move (pos : nat) (from to : phase) (s : state) : option state :=
  if decide ((pos, from) ∈ active s)
  then Some (s <| active := (λ g, if decide (g = (pos, from)) then (pos, to) else g) <$> active s |>)
  else None.

(** [cancel()]: nothing when the context has ended already. *)
Definition cancel (e : CtxErr) (s : state) : state :=
  if ctx2 s is Some _ then s else s <| ctx2 := Some e |>.

(** The goroutine after [handler.Handle]. *)
Definition returned (pos : nat) (r : res HErr OCRResult) (s : state) : state :=
  match r, chunks !! pos with
  | Err e, Some c =>
      if firstErr s is Some _ then s
      else cancel Canceled (s <| firstErr := Some (ErrChunk (Index c) (StartPage c) (EndPage c) e) |>)
  | Ok v, _ => s <| results := <[pos := v]> (results s) |>
  | _, None => s
  end.

Definition step (l : label) (s : state) : option state :=
  match l with
  | LMain => step_main s
  | LReturn pos r =>
      (λ s, (returned pos r s) <| answers := (pos, r) :: answers s |>) <$> move pos Calling Releasing s
  | LRelease pos => move pos Releasing Finishing s
  | LDone pos =>
      if decide ((pos, Finishing) ∈ active s)
      then Some (s <| active := filter (λ g, g ≠ (pos, Finishing)) (active s) |>) else None
  | LCancel e =>
      if main s is Returned _ then None
      else if parent s is Some _ then None else Some (cancel e (s <| parent := Some e |>))
  end.

Definition steps (s s' : state) : Prop := ∃ l, step l s = Some s'.

End run.

(** [processChunks]: from the sorted chunks to what it returns. *)
Definition sorted (chunks : list Chunk) : list Chunk := sort_slice (key_less Z.lt Index) chunks.
Definition processChunks (chunks : list Chunk) (concurrency : nat) (r : result) : Prop :=
  ∃ s, rtc (steps (sorted chunks) concurrency) (start (sorted chunks)) s ∧ main s = Returned r.

(** * [Handle] and [ProcessPDF] *)

(** The handler is called on the whole document, or the chunks are processed. *)
Inductive plan := Answer (r : result) | CallInner (data : bytes) | Process (chunks : list Chunk) (concurrency : Z).

Record CutAwareConfig := mkConfig {
  PagesPerChunk : Z;
  ChunkConcurrency : Z;
  Splitter : option (bytes → Z → res HErr (list Chunk));
  has_inner : bool;
  has_merge : bool
}.

Definition pdf_mark : bytes := [x25; x50; x44; x46; x2d].   (** ["%PDF-"] *)
Definition isPDFBytes (data : bytes) : bool := bool_decide (5 ≤ length data)%nat && bool_decide (take 5 data = pdf_mark).

(** [CutAwareHandler.Handle]. *)
Definition Handle (h : CutAwareConfig) (data : bytes) : plan :=
  if negb (has_inner h) then Answer (Err (ErrText "inner handler is nil"))
  else if negb (isPDFBytes data) then CallInner data
  else
    match Splitter h with
    | Some split =>
        if bool_decide (PagesPerChunk h ≤ 0) || bool_decide (ChunkConcurrency h ≤ 0) || negb (has_merge h)
        then Answer (Err (ErrText "invalid cut-aware config"))
        else match split data (PagesPerChunk h) with
        | Err _ => CallInner data
        | Ok [] => Answer (Err (ErrText "splitter returned no chunks"))
        | Ok [_] => CallInner data
        | Ok chunks => Process chunks (ChunkConcurrency h)
        end
    | None => Answer (Err (ErrText "invalid cut-aware config"))
    end.

Definition ProcessPDF (pdf : bytes) (pagesPerChunk concurrency : Z)
    (splitter : option (bytes → Z → res HErr (list Chunk))) (has_handler has_merge : bool) : plan :=
  if decide (pagesPerChunk ≤ 0) then Answer (Err (ErrText "pagesPerChunk must be > 0"))
  else if decide (concurrency ≤ 0) then Answer (Err ErrInvalidConcurrency)
  else match splitter with
  | None => Answer (Err (ErrText "splitter is nil"))
  | Some split =>
      if negb has_handler then Answer (Err (ErrText "handler is nil"))
      else if negb has_merge then Answer (Err (ErrText "merge is nil"))
      else match split pdf pagesPerChunk with
      | Err e => Answer (Err (ErrOf e))
      | Ok [] => Answer (Err (ErrText "splitter returned no chunks"))
      | Ok [_] => CallInner pdf
      | Ok chunks => Process chunks concurrency
      end
  end.

End chunking.

(** * [PDFCPUSplitter.Split] *)

Section split.
Context {E : Type}.
(** The PDF library: the number of pages, and the pages [start] to [end] of a document. *)
Context (PageCount : bytes → res E Z) (Trim : bytes → Z → Z → res E bytes).

Inductive SplitError :=
| SplitText (text : string) | SplitCount (e : E) | SplitTrim (start end_ : Z) (e : E) | SplitCtx (e : CtxErr).

(** The loop; [ctx] is what the context is before each chunk. *)
Fixpoint split_loop (fuel : nat) (ctx : Z → Ctx) (pdf : bytes) (pageCount pagesPerChunk start chunkIdx : Z)
    : res SplitError (list Chunk) :=
  if decide (start ≤ pageCount) then
    match fuel with
    | O => Ok []
    | S fuel =>
        if ctx chunkIdx is Some e then Err (SplitCtx e)
        else
          let end_ := Z.min (start + pagesPerChunk - 1) pageCount in
          match Trim pdf start end_ with
          | Err e => Err (SplitTrim start end_ e)
          | Ok data =>
              let? chunks := split_loop fuel ctx pdf pageCount pagesPerChunk (start + pagesPerChunk) (chunkIdx + 1) in
              Ok (mkChunk chunkIdx start end_ data :: chunks)
          end
    end
  else Ok [].

Definition Split (ctx : Z → Ctx) (pdf : bytes) (pagesPerChunk : Z) : res SplitError (list Chunk) :=
  if decide (pagesPerChunk ≤ 0) then Err (SplitText "pagesPerChunk must be > 0")
  else if decide (length pdf = 0%nat) then Err (SplitText "empty pdf bytes")
  else match PageCount pdf with
  | Err e => Err (SplitCount e)
  | Ok pageCount =>
      if decide (pageCount = 0) then Err (SplitText "pdf has no pages")
      else split_loop (Z.to_nat pageCount) ctx pdf pageCount pagesPerChunk 1 0
  end.

End split.

(** * Lemmas *)

Section proofs.
Context {OCRResult HErr : Type} (zero : OCRResult).
Abbreviation result := (res (Error (HErr := HErr)) OCRResult).
Context (merge : list OCRResult → result) (cs : list Chunk) (concurrency : nat).
#[local] Abbreviation state := (state (OCRResult := OCRResult) (HErr := HErr)).
#[local] Abbreviation answer := (nat * res HErr OCRResult)%type.
#[local] Abbreviation step := (step merge cs concurrency).
#[local] Abbreviation steps := (steps merge cs concurrency).
#[local] Abbreviation start := (start zero cs).

(** The positions whose handler runs. *)
Definition calling (s : state) : list nat := (filter (λ g, g.2 = Calling) (active s)).*1.

(** The result at a position, and the first error, of the answers so far. *)
Fixpoint value_at (l : list answer) (pos : nat) : OCRResult :=
  match l with
  | [] => zero
  | (p, Ok v) :: l => if decide (p = pos) then v else value_at l pos
  | (_, Err _) :: l => value_at l pos
  end.
Definition error_of (a : answer) : option Error :=
  match a.2, cs !! a.1 with
  | Err e, Some c => Some (ErrChunk (Index c) (StartPage c) (EndPage c) e)
  | _, _ => None
  end.
Fixpoint first_error (l : list answer) : option Error :=
  match l with
  | [] => None
  | a :: l => match first_error l with Some e => Some e | None => error_of a end
  end.

Record inv (s : state) : Prop := {
  i_next : (next s ≤ length cs)%nat;
  i_active : NoDup (active s).*1 ∧ Forall (λ g, (g.1 < next s)%nat) (active s);
  i_calls : calling s ++ (answers s).*1 ≡ₚ seq 0 (next s);
  i_held : (held s ≤ concurrency)%nat;
  i_results : length (results s) = length cs ∧
    ∀ pos, (pos < length cs)%nat → results s !! pos = Some (value_at (answers s) pos);
  i_err : firstErr s = first_error (answers s);
  i_ctx : (ctx2 s = None → parent s = None ∧ firstErr s = None) ∧ (parent s = None → firstErr s = None → ctx2 s = None);
  i_main : match main s with
           | AtTop => True
           | AtSem => (next s < length cs)%nat
           | Waiting => next s = length cs ∨ ctx2 s ≠ None
           | Returned r => (next s = length cs ∨ ctx2 s ≠ None) ∧ active s = [] ∧ r = finish merge s
           end
}.

Lemma inv_start : inv start.
Proof.
  split; cbn; try done; try lia.
  - split; [constructor|constructor].
  - rewrite length_replicate. split; [done|]. intros pos Hp. by apply lookup_replicate_2.
Qed.

(** A goroutine that moves keeps its position. *)
Lemma move_active pos from to (s s' : state) :
  move pos from to s = Some s' →
  (pos, from) ∈ active s ∧
  s' = s <| active := (λ g, if decide (g = (pos, from)) then (pos, to) else g) <$> active s |>.
Proof. unfold move. case_decide; [|done]. by intros [= <-]. Qed.

Lemma moved_fst pos from to (l : list (nat * phase)) :
  ((λ g, if decide (g = (pos, from)) then (pos, to) else g) <$> l).*1 = l.*1.
Proof.
  induction l as [|g l IH]; [done|]. rewrite !fmap_cons, IH. f_equal. by destruct (decide (g = (pos, from))) as [->|].
Qed.

(** The goroutines after one moved. *)
Lemma moved_split pos from to (l : list (nat * phase)) :
  NoDup l.*1 → (pos, from) ∈ l →
  ∃ l1 l2, l = l1 ++ (pos, from) :: l2 ∧
    (λ g, if decide (g = (pos, from)) then (pos, to) else g) <$> l = l1 ++ (pos, to) :: l2.
Proof.
  intros Hnd Hin. apply list_elem_of_split in Hin as (l1 & l2 & ->). exists l1, l2. split; [done|].
  rewrite fmap_app in Hnd. cbn in Hnd. apply NoDup_app in Hnd as (_ & Hd & Hnd). apply NoDup_cons in Hnd as [Hn2 _].
  rewrite fmap_app, fmap_cons, decide_True by done.
  assert (∀ l', pos ∉ l'.*1 → (λ g, if decide (g = (pos, from)) then (pos, to) else g) <$> l' = l') as Hid.
  { clear. intros l' Hn. induction l' as [|g l' IH]; [done|]. cbn in Hn. rewrite not_elem_of_cons in Hn.
    destruct Hn as [Hg Hn]. rewrite fmap_cons, IH by done. by rewrite decide_False by (by intros ->). }
  rewrite !Hid; [done|done|]. intros Hp. apply (Hd pos Hp). by left.
Qed.

Lemma inv_move pos from to (s s' : state) :
  inv s → from ≠ Calling → to ≠ Calling → from ≠ Finishing → move pos from to s = Some s' → inv s'.
Proof.
  intros [H1 [H2 H2'] H3 H4 H5 H6 H7 H8] Hf Ht Hfin [Hin ->]%move_active.
  destruct (moved_split pos from to _ H2 Hin) as (l1 & l2 & E & E').
  split; cbn; rewrite ?E' in *; try done.
  - split.
    + rewrite E in H2. by rewrite fmap_app in *.
    + rewrite E in H2'. rewrite Forall_app, Forall_cons in *. done.
  - rewrite <-H3. apply Permutation_app_tail. unfold calling. cbn. rewrite ?E', E, !filter_app, !filter_cons. cbn.
    by rewrite !decide_False.
  - etransitivity; [|exact H4]. unfold held. cbn. rewrite ?E', E, !filter_app, !filter_cons. cbn.
    rewrite (decide_True (P := from ≠ Finishing)) by done. destruct (decide (to ≠ Finishing)); rewrite !length_app; cbn; lia.
  - destruct (main s); try done. destruct H8 as (? & Hn & ?). by rewrite Hn in Hin; apply elem_of_nil in Hin.
Qed.

Lemma calling_bound (s : state) pos : inv s → (pos, Calling) ∈ active s → (pos < length cs)%nat.
Proof.
  intros Hi Hin. destruct (i_active _ Hi) as [_ Hf]. rewrite Forall_forall in Hf. specialize (Hf _ Hin). cbn in Hf.
  pose proof (i_next _ Hi). lia.
Qed.

(** What the answer of the handler changes besides the goroutine. *)
Lemma returned_fields pos r (s : state) :
  let s' := returned cs pos r s in
  next s' = next s ∧ main s' = main s ∧ active s' = active s ∧ parent s' = parent s ∧ answers s' = answers s ∧
  results s' = (match r with Ok v => <[pos := v]> (results s) | Err _ => results s end) ∧
  firstErr s' = (match firstErr s with Some e => Some e | None => error_of (pos, r) end) ∧
  (ctx2 s' = ctx2 s ∨ (ctx2 s = None ∧ ctx2 s' = Some Canceled ∧ firstErr s = None ∧ error_of (pos, r) ≠ None)) ∧
  (ctx2 s' = None → firstErr s = None → firstErr s' = None).
Proof.
  unfold returned, error_of, cancel. cbn. destruct r as [v|e]; cbn; [destruct (firstErr s) eqn:E; naive_solver|].
  destruct (cs !! pos) as [c|]; cbn; [|destruct (firstErr s) eqn:E; naive_solver].
  destruct (firstErr s) eqn:E; cbn; [naive_solver|]. destruct (ctx2 s) eqn:Ec; cbn; naive_solver.
Qed.

Lemma inv_return pos r (s s' : state) : inv s → step (LReturn pos r) s = Some s' → inv s'.
Proof.
  intros Hi. cbn. destruct (move pos Calling Releasing s) as [s1|] eqn:Em; [|done]. cbn. intros [= <-].
  apply move_active in Em as [Hin Hs1]. pose proof (calling_bound s pos Hi Hin) as Hpos.
  destruct Hi as [H1 [H2 H2'] H3 H4 [H5 H5'] H6 [H7 H7'] H8].
  destruct (moved_split pos Calling Releasing _ H2 Hin) as (l1 & l2 & E & E').
  destruct (returned_fields pos r s1) as (F1 & F2 & F3 & F4 & F5 & F6 & F7 & F8 & F9).
  set (s2 := returned cs pos r s1) in *. clearbody s2. subst s1. cbn in *. rewrite E' in F3.
  split; cbn; rewrite ?F1, ?F2, ?F3, ?F4, ?F5, ?F6; try done.
  - split; [rewrite E in H2; by rewrite fmap_app in *|]. rewrite E in H2'. by rewrite Forall_app, Forall_cons in *.
  - rewrite <-H3. unfold calling. cbn. rewrite ?F3, E, !filter_app, !filter_cons. cbn.
    rewrite decide_False, decide_True by done. rewrite !fmap_app. cbn. rewrite ?F5. solve_Permutation.
  - etransitivity; [|exact H4]. unfold held. cbn. rewrite ?F3, E, !filter_app, !filter_cons. cbn.
    rewrite !decide_True by done. rewrite !length_app. cbn. lia.
  - split; [destruct r; by rewrite ?length_insert|]. intros p Hp. destruct r as [v|e]; cbn; [|by apply H5'].
    destruct (decide (pos = p)) as [->|Hne]; [by apply list_lookup_insert_eq; rewrite H5|].
    rewrite list_lookup_insert_ne by done. by apply H5'.
  - rewrite F7, H6. cbn. by destruct (first_error (answers s)).
  - split.
    + intros Hc. destruct F8 as [F8|(_ & F8 & _)]; [|congruence]. rewrite F8 in Hc. destruct (H7 Hc) as [? Hf].
      split; [done|]. apply F9; [by rewrite F8|done].
    + intros Hp Hf. destruct (firstErr s) eqn:Ef; [congruence|]. rewrite F7 in Hf.
      destruct F8 as [->|(_ & _ & _ & ?)]; [auto|done].
  - destruct (main s); try done.
    + destruct H8; [by left|]. right. destruct F8 as [->|(_ & -> & _)]; done.
    + destruct H8 as (_ & Hn & _). rewrite Hn in Hin. by apply elem_of_nil in Hin.
Qed.

Lemma inv_done pos (s s' : state) : inv s → step (LDone pos) s = Some s' → inv s'.
Proof.
  intros [H1 [H2 H2'] H3 H4 H5 H6 H7 H8]. cbn. case_decide as Hin; [|done]. intros [= <-].
  split; cbn; try done.
  - split; [|rewrite Forall_forall in *; intros g [_ Hg]%list_elem_of_filter; auto]. eapply sublist_NoDup; [exact H2|]. apply fmap_sublist, sublist_filter.
  - rewrite <-H3. apply Permutation_app_tail. unfold calling. cbn. rewrite list_filter_filter.
    rewrite (filter_ext_in _ (λ g : nat * phase, g.2 = Calling)); [done|]. intros [p ph] _. cbn. naive_solver.
  - etransitivity; [|exact H4]. unfold held. cbn. rewrite list_filter_filter.
    rewrite (filter_ext_in _ (λ g : nat * phase, g.2 ≠ Finishing)); [done|]. intros [p ph] _. cbn. naive_solver.
  - destruct (main s); try done. destruct H8 as (_ & Hn & _). rewrite Hn in Hin. by apply elem_of_nil in Hin.
Qed.

Lemma inv_main_step (s s' : state) : inv s → step LMain s = Some s' → inv s'.
Proof.
  intros [H1 [H2 H2'] H3 H4 H5 H6 H7 H8]. cbn. unfold step_main. destruct (main s) eqn:Em.
  - case_decide as Hn; intros [= <-]; split; cbn; try done; [destruct (ctx2 s); [by right|done]|left; lia].
  - case_decide as Hh; [|done]. intros [= <-]. split; cbn; try done.
    + split.
      * rewrite fmap_app. cbn. apply NoDup_app. split; [done|]. split; [|apply NoDup_singleton].
        intros p Hp. apply list_elem_of_fmap in Hp as ([p' ph] & -> & Hp). rewrite Forall_forall in H2'.
        specialize (H2' _ Hp). cbn in *. rewrite list_elem_of_singleton. lia.
      * apply Forall_app. split; [eapply Forall_impl; [exact H2'|]; intros [p ph] ?; cbn in *; lia|]. constructor; [cbn; lia|constructor].
    + change (0%nat :: seq 1 (next s)) with (seq 0 (S (next s))). rewrite seq_S, <-H3. unfold calling. cbn. rewrite filter_app, fmap_app. cbn. solve_Permutation.
    + unfold held in *. cbn. rewrite filter_app, length_app, filter_cons, decide_True by done. cbn. lia.
  - case_decide as Ha; [|done]. intros [= <-]. by split.
  - done.
Qed.

Lemma inv_cancel e (s s' : state) : inv s → step (LCancel e) s = Some s' → inv s'.
Proof.
  intros [H1 H2 H3 H4 H5 H6 [H7 H7'] H8]. cbn.
  destruct (main s) eqn:Em; try done; (destruct (parent s) eqn:Ep; [done|]); intros [= <-];
    unfold cancel; cbn; destruct (ctx2 s) eqn:Ec; split; cbn; rewrite ?Ec, ?Em; try done; naive_solver.
Qed.

Lemma chunk_inv_steps (s s' : state) : inv s → steps s s' → inv s'.
Proof.
  intros Hi [[|pos r|pos|pos|e] Hs].
  - by eapply inv_main_step.
  - by eapply inv_return.
  - eapply inv_move; [done| | | |exact Hs]; done.
  - by eapply inv_done.
  - by eapply inv_cancel.
Qed.

Lemma chunk_inv_reachable (s : state) : rtc steps start s → inv s.
Proof.
  intros Hr. apply (rtc_ind_r inv start) in Hr; [done|apply inv_start|]. intros s1 s2 _ Hs Hi. by eapply chunk_inv_steps.
Qed.

(** * What is returned *)

Lemma value_at_in l pos v : NoDup l.*1 → (pos, Ok v) ∈ l → value_at l pos = v.
Proof.
  induction l as [|[p r] l IH]; intros Hnd Hin; [by apply elem_of_nil in Hin|]. cbn in Hnd. apply NoDup_cons in Hnd as [Hn Hnd].
  apply elem_of_cons in Hin as [[= <- <-]|Hin]; cbn; [by rewrite decide_True|].
  assert (p ≠ pos) by (intros ->; apply Hn, list_elem_of_fmap; by exists (pos, Ok v)).
  destruct r; [rewrite decide_False by done|]; by apply IH.
Qed.

Lemma first_error_none l pos r : first_error l = None → (pos, r) ∈ l → (pos < length cs)%nat → ∃ v, r = Ok v.
Proof.
  induction l as [|a l IH]; cbn; intros Hf Hin Hpos; [by apply elem_of_nil in Hin|]. destruct (first_error l); [done|].
  apply elem_of_cons in Hin as [<-|Hin]; [|auto]. unfold error_of in Hf. cbn in Hf. destruct r as [v|e]; [eauto|].
  apply lookup_lt_is_Some_2 in Hpos as [c Hc]. by rewrite Hc in Hf.
Qed.

Lemma first_error_some l e :
  first_error l = Some e →
  ∃ later a earlier, l = later ++ a :: earlier ∧ error_of a = Some e ∧ Forall (λ b, error_of b = None) earlier.
Proof.
  induction l as [|a l IH]; cbn; [done|]. destruct (first_error l) as [e'|] eqn:E.
  - intros [= ->]. destruct (IH eq_refl) as (later & b & earlier & -> & Hb & Hf). by exists (a :: later), b, earlier.
  - intros Ha. exists [], a, l. split_and!; [done|done|]. clear -E. induction l as [|b l IH]; [constructor|]. cbn in E.
    destruct (first_error l); [done|]. constructor; [done|by apply IH].
Qed.

(** When the caller's context does not end, processing a document in chunks calls the handler exactly once on
every chunk and returns the merge of its answers in the order of the chunk indexes, or it returns the first
error the handler gave, with the chunk it belongs to. *)
Theorem chunks_all_merged s r :
  rtc steps start s → main s = Returned r → parent s = None →
  (r = merge (results s) ∧ (answers s).*1 ≡ₚ seq 0 (length cs) ∧ length (results s) = length cs ∧
   ∀ pos v, results s !! pos = Some v ↔ (pos, Ok v) ∈ answers s) ∨
  (∃ later pos c e earlier, answers s = later ++ (pos, Err e) :: earlier ∧ cs !! pos = Some c ∧
   r = Err (ErrChunk (Index c) (StartPage c) (EndPage c) e) ∧
   ∀ pos' r', (pos', r') ∈ earlier → ∃ v, r' = Ok v).
Proof.
  intros Hr Hm Hp. destruct (chunk_inv_reachable s Hr) as [H1 [H2 H2'] H3 H4 [H5 H5'] H6 [H7 H7'] H8]. rewrite Hm in H8.
  destruct H8 as (Hnext & Ha & ->). unfold calling in H3. rewrite Ha in H3. cbn in H3. unfold finish.
  destruct (firstErr s) as [e|] eqn:Ef.
  - right. symmetry in H6. apply first_error_some in H6 as (later & [pos r] & earlier & E & He & Hf).
    unfold error_of in He. cbn in He. destruct r as [|e']; [done|]. destruct (cs !! pos) as [c|] eqn:Ec; [|done].
    injection He as <-. exists later, pos, c, e', earlier. split_and!; [done..|]. intros pos' r' Hin.
    rewrite Forall_forall in Hf. specialize (Hf _ Hin). unfold error_of in Hf. cbn in Hf. destruct r' as [v|e2]; [eauto|].
    assert (pos' ∈ seq 0 (next s)) as Hpos'.
    { rewrite <-H3, E, fmap_app. apply elem_of_app. right. right. apply list_elem_of_fmap. by exists (pos', Err e2). }
    apply elem_of_seq in Hpos'. destruct (lookup_lt_is_Some_2 cs pos') as [c' Hc']; [lia|]. by rewrite Hc' in Hf.
  - left. rewrite (H7' Hp eq_refl). destruct Hnext as [Hn|Hn]; [|by rewrite (H7' Hp eq_refl) in Hn]. rewrite Hn in H3.
    assert (NoDup (answers s).*1) as Hnd by (rewrite H3; apply NoDup_seq). split_and!; [done..|]. intros pos v. split.
    + intros Hv. pose proof (lookup_lt_Some _ _ _ Hv) as Hpos. rewrite H5' in Hv by lia. injection Hv as <-.
      assert (pos ∈ (answers s).*1) as Hin by (rewrite H3; apply elem_of_seq; lia).
      apply list_elem_of_fmap in Hin as ([p r] & -> & Hin).
      destruct (first_error_none _ _ _ (eq_sym H6) Hin) as [v ->]; [cbn in Hpos; lia|]. cbn. by rewrite (value_at_in _ _ _ Hnd Hin).
    + intros Hin. assert (pos ∈ seq 0 (length cs)) as Hs by (rewrite <-H3; apply list_elem_of_fmap; by exists (pos, Ok v)).
      apply elem_of_seq in Hs. rewrite H5' by lia. by rewrite (value_at_in _ _ _ Hnd Hin).
Qed.

(** At most [concurrency] calls of the handler run at any moment. *)
Theorem chunk_concurrency s : rtc steps start s → (length (calling s) ≤ concurrency)%nat.
Proof.
  intros Hr. etransitivity; [|apply (i_held s (chunk_inv_reachable s Hr))]. unfold calling, held. rewrite length_fmap.
  induction (active s) as [|[p ph] l IH]; [done|]. rewrite !filter_cons. cbn.
  destruct ph; cbn; repeat case_decide; cbn in *; try done; lia.
Qed.

(** * Progress *)

Definition weight (g : nat * phase) : nat := match g.2 with Calling => 3 | Releasing => 2 | Finishing => 1 end.
Definition measure (s : state) : nat :=
  5 * (length cs - next s) + sum_list_with weight (active s) +
  match main s with AtTop => 3 | AtSem => 2 | Waiting => 1 | Returned _ => 0 end +
  (if parent s is Some _ then 0 else 1).

Lemma sum_moved pos from to l :
  NoDup l.*1 → (pos, from) ∈ l → (weight (pos, to) < weight (pos, from))%nat →
  (sum_list_with weight ((λ g, if decide (g = (pos, from)) then (pos, to) else g) <$> l) < sum_list_with weight l)%nat.
Proof.
  intros Hnd Hin Hw. destruct (moved_split pos from to _ Hnd Hin) as (l1 & l2 & -> & ->).
  rewrite !sum_list_with_app. cbn [sum_list_with]. lia.
Qed.

Lemma chunk_measure_step (s s' : state) : inv s → steps s s' → (measure s' < measure s)%nat.
Proof.
  intros Hi [[|pos r|pos|pos|e] Hs]; pose proof (i_next _ Hi) as Hn; destruct (i_active _ Hi) as [Hnd _].
  - pose proof (i_main _ Hi) as Hm. cbn in Hs. unfold step_main, measure in *. destruct (main s) eqn:Em; try done.
    + case_decide; injection Hs as <-; cbn; [destruct (ctx2 s)|]; lia.
    + case_decide; [|done]. injection Hs as <-. cbn [next active main parent upd eta_state].
      rewrite sum_list_with_app. cbn. lia.
    + case_decide; [|done]. injection Hs as <-. cbn. lia.
  - cbn in Hs. destruct (move pos Calling Releasing s) as [s1|] eqn:Emv; [|done]. injection Hs as <-.
    apply move_active in Emv as [Hin ->]. unfold measure. cbn.
    match goal with |- context [returned cs pos r ?s0] => destruct (returned_fields pos r s0) as (F1 & F2 & F3 & F4 & _) end.
    cbn in *. rewrite F1, F2, F3, F4. pose proof (sum_moved pos Calling Releasing _ Hnd Hin ltac:(cbn; lia)). lia.
  - apply move_active in Hs as [Hin ->]. unfold measure. cbn.
    pose proof (sum_moved pos Releasing Finishing _ Hnd Hin ltac:(cbn; lia)). lia.
  - cbn in Hs. case_decide as Hin; [|done]. injection Hs as <-. unfold measure. cbn.
    assert (sum_list_with weight (filter (λ g, g ≠ (pos, Finishing)) (active s)) < sum_list_with weight (active s))%nat; [|lia].
    clear -Hin. induction (active s) as [|g l IH]; [by apply elem_of_nil in Hin|]. rewrite filter_cons.
    assert (sum_list_with weight (filter (λ g, g ≠ (pos, Finishing)) l) ≤ sum_list_with weight l)%nat.
    { clear. induction l as [|g l IH]; [done|]. rewrite filter_cons. case_decide; cbn [sum_list_with]; lia. }
    case_decide as Hg; cbn [sum_list_with].
    + apply elem_of_cons in Hin as [<-|Hin]; [done|]. specialize (IH Hin). lia.
    + assert (1 ≤ weight g)%nat by (unfold weight; destruct g.2; lia). lia.
  - cbn in Hs. assert (parent s = None ∧ s' = cancel e (s <| parent := Some e |>)) as [Hp ->].
    { destruct s as [n [] ac rs fe cx [] an]; cbn in *; try done; by injection Hs as <-. }
    unfold measure, cancel. cbn. rewrite Hp. destruct (ctx2 s); cbn; lia.
Qed.

Lemma held_positive (s : state) : (0 < held s)%nat → ∃ pos ph, (pos, ph) ∈ active s ∧ ph ≠ Finishing.
Proof.
  unfold held. destruct (filter _ (active s)) as [|[pos ph] l] eqn:E; cbn; [lia|]. intros _. exists pos, ph.
  assert ((pos, ph) ∈ filter (λ g : nat * phase, g.2 ≠ Finishing) (active s)) as Hin by (rewrite E; by left).
  apply list_elem_of_filter in Hin. tauto.
Qed.

Lemma active_moves (s : state) pos ph : (pos, ph) ∈ active s → ∃ s', steps s s'.
Proof.
  intros Hin. destruct ph.
  - eexists. exists (LReturn pos (Ok zero)). cbn. unfold move. rewrite decide_True by done. reflexivity.
  - eexists. exists (LRelease pos). cbn. unfold move. rewrite decide_True by done. reflexivity.
  - eexists. exists (LDone pos). cbn. rewrite decide_True by done. reflexivity.
Qed.

(** Processing chunks ends: every step of the loop, a goroutine or a context decreases a measure, so at most
[measure] steps are left, and as long as nothing was returned some step is possible, once the running handlers
answer. *)
Theorem chunking_completes s :
  (0 < concurrency)%nat → rtc steps start s →
  (∀ s', steps s s' → (measure s' < measure s)%nat) ∧
  ((∃ r, main s = Returned r) ∨ ∃ s', steps s s').
Proof.
  intros Hc Hr. pose proof (chunk_inv_reachable s Hr) as Hi. split; [intros s'; by apply chunk_measure_step|].
  destruct (main s) eqn:Em.
  - right. destruct (decide (next s < length cs)%nat) as [Hn|Hn]; eexists; exists LMain; cbn; unfold step_main; rewrite Em;
      [rewrite decide_True by done|rewrite decide_False by done]; reflexivity.
  - right. destruct (decide (held s < concurrency)%nat) as [Hh|Hh].
    + eexists. exists LMain. cbn. unfold step_main. rewrite Em, decide_True by done. reflexivity.
    + destruct (held_positive s) as (pos & ph & Hin & _); [lia|]. by eapply active_moves.
  - right. destruct (active s) as [|[pos ph] l] eqn:Ea.
    + eexists. exists LMain. cbn. unfold step_main. rewrite Em, Ea, decide_True by done. reflexivity.
    + eapply (active_moves s pos ph). rewrite Ea. by left.
  - left. eauto.
Qed.

(** When the caller cancels before the first chunk is started, what is returned is the merge of as many empty
results as there are chunks: no handler is called and no error reported. *)
Theorem cancelled_partial :
  ∃ s, rtc steps start s ∧ main s = Returned (merge (replicate (length cs) zero)) ∧ answers s = [] ∧
       parent s = Some Canceled.
Proof.
  set (ended m := mkState (HErr := HErr) 0 m [] (replicate (length cs) zero) None (Some Canceled) (Some Canceled) []).
  exists (ended (Returned (merge (replicate (length cs) zero)))). split; [|done].
  eapply (rtc_l _ _ (ended AtTop)); [by exists (LCancel Canceled)|].
  eapply (rtc_l _ _ (ended Waiting)); [|by eapply rtc_once; exists LMain].
  exists LMain. cbn. unfold step_main. cbn. by case_decide.
Qed.

End proofs.

(** * Splitting *)

Section split_proofs.
Context {E : Type} (PageCount : bytes → res E Z) (Trim : bytes → Z → Z → res E bytes).

(** The chunks cover the pages [start] to [last] in order, [size] pages each but for the last. *)
Fixpoint covers (size start last index : Z) (l : list Chunk) : Prop :=
  match l with
  | [] => start > last
  | c :: l => Index c = index ∧ StartPage c = start ∧ EndPage c = Z.min (start + size - 1) last ∧ start ≤ last ∧
              covers size (start + size) last (index + 1) l
  end.

Lemma split_loop_covers fuel ctx pdf pageCount size start index chunks :
  0 < size → pageCount - start < Z.of_nat fuel →
  split_loop Trim fuel ctx pdf pageCount size start index = Ok chunks → covers size start pageCount index chunks.
Proof.
  intros Hs. revert start index chunks. induction fuel as [|fuel IH]; intros start index chunks Hf; cbn [split_loop];
    (case_decide as Hle; [|by intros [= <-]; cbn; lia]); [lia|].
  destruct (ctx index); [done|]. destruct (Trim pdf start _) as [data|]; [|done].
  destruct (split_loop _ _ _ _ _ _ _ _) as [l|] eqn:El; cbn; [|done]. intros [= <-]. cbn.
  split_and!; [done..|]. apply IH in El; [done|lia].
Qed.

(** Splitting a PDF gives chunks that partition its pages: numbered from 0, consecutive, each of
[pagesPerChunk] pages but for the last, which ends at the last page. *)
Theorem split_partition ctx pdf pagesPerChunk pageCount chunks :
  PageCount pdf = Ok pageCount → Split PageCount Trim ctx pdf pagesPerChunk = Ok chunks →
  0 < pagesPerChunk ∧ covers pagesPerChunk 1 pageCount 0 chunks.
Proof.
  intros Hc. unfold Split. case_decide; [done|]. case_decide; [done|]. rewrite Hc. case_decide; [done|].
  intros Hs. split; [lia|]. eapply split_loop_covers; [lia| |exact Hs]. lia.
Qed.

End split_proofs.

(** * Executions *)

Fixpoint exec {R E} (merge : list R → res (Error (HErr := E)) R) cs concurrency (ls : list label) (s : state) : option state :=
  match ls with
  | [] => Some s
  | l :: ls => match step merge cs concurrency l s with Some s => exec merge cs concurrency ls s | None => None end
  end.
Lemma exec_steps {R E} (merge : list R → res (Error (HErr := E)) R) cs concurrency ls s s' :
  exec merge cs concurrency ls s = Some s' → rtc (steps merge cs concurrency) s s'.
Proof.
  revert s. induction ls as [|l ls IH]; intros s; cbn; [by intros [= <-]|].
  destruct (step merge cs concurrency l s) as [s1|] eqn:E1; [|done]. intros H. eapply rtc_l; [by exists l|auto].
Qed.

(** Two chunks, the second answered first, under a merge that joins texts. *)
Definition demo_chunks : list Chunk := sorted [mkChunk 1 3 4 [x02]; mkChunk 0 1 2 [x01]].
Definition demo_merge (l : list string) : res (Error (HErr := string)) string := Ok (strings_Join l "+").
Definition demo_labels : list (label (OCRResult := string) (HErr := string)) :=
  [LMain; LMain; LMain; LMain; LReturn 1 (Ok "b"); LReturn 0 (Ok "a"); LRelease 0; LRelease 1; LDone 1; LMain; LDone 0; LMain].

Lemma chunks_all_merged_witness :
  ∃ s, exec demo_merge demo_chunks 2 demo_labels (start "" demo_chunks) = Some s ∧ main s = Returned (Ok "a+b") ∧
    ∀ pos v, results s !! pos = Some v ↔ (pos, Ok v) ∈ answers s.
Proof.
  eexists. split; [vm_compute; reflexivity|]. split; [reflexivity|].
  edestruct (chunks_all_merged "" demo_merge demo_chunks 2) as [(_ & _ & _ & H)|(later & pos & c & e & earlier & _ & _ & H & _)];
    [eapply (exec_steps demo_merge demo_chunks 2 demo_labels); vm_compute; reflexivity|reflexivity|reflexivity|exact H|discriminate].
Defined.

End Chunking.
