(* ===== verification/OcrRetry.v ===== *)
(** ocrs: middleware chains and retries ([src/ocrs/handler.go], [retrypolicy/retrypolicy.go]).

A handler answers the n-th call made to it, and a wait between two calls ends when its timer fires or with
the context: both are parameters. *)

From Stdlib Require Import QArith Qround Lqa.
From S2P Require Import Prelude Float64.
#[local] Open Scope Z_scope.

Module Retry.

(** * [Chain] *)

(** The middlewares wrapped around [final], the first one outermost; nil ones are skipped. *)
Fixpoint Chain {H : Type} (middlewares : list (option (H → H))) (final : H) : H :=
  match middlewares with
  | [] => final
  | Some wrap :: rest => wrap (Chain rest final)
  | None :: rest => Chain rest final
  end.

(** * Configuration *)

Record Config := mkConfig {
  MaxAttempts : Z; InitialBackoff : Duration; MaxBackoff : Duration; Multiplier : float64
}.
#[global] Instance eta_Config : Eta Config := λ c,
  mkConfig (MaxAttempts c) (InitialBackoff c) (MaxBackoff c) (Multiplier c).

Definition millisecond : Duration := 1000000.
Definition DefaultConfig : Config := mkConfig 3 (200 * millisecond) (2000 * millisecond) (2 # 1).

Definition Option := Config → Config.
Definition WithMaxTry (n : Z) : Option := λ c, c <| MaxAttempts := n |>.
Definition WithInitialBackoff (d : Duration) : Option := λ c, c <| InitialBackoff := d |>.
Definition WithMaxBackoff (d : Duration) : Option := λ c, c <| MaxBackoff := d |>.
Definition WithMultiplier (m : float64) : Option := λ c, c <| Multiplier := m |>.

Definition New (opts : list (option Option)) : Config :=
  foldl (λ cfg opt, match opt with Some opt => opt cfg | None => cfg end) DefaultConfig opts.

Definition normalize (cfg : Config) : Config :=
  let cfg := if decide (MaxAttempts cfg ≤ 0) then cfg <| MaxAttempts := 1 |> else cfg in
  let cfg := if decide (InitialBackoff cfg ≤ 0) then cfg <| InitialBackoff := 100 * millisecond |> else cfg in
  let cfg := if decide (MaxBackoff cfg ≤ 0) then cfg <| MaxBackoff := InitialBackoff cfg |> else cfg in
  let cfg := if decide (MaxBackoff cfg < InitialBackoff cfg) then cfg <| MaxBackoff := InitialBackoff cfg |> else cfg in
  if decide (Multiplier cfg < 1)%Q then cfg <| Multiplier := 1%Q |> else cfg.

Section retry.
(** What the conversion of a [float64] out of the range of [int64] gives, which depends on the processor. *)
Context (out_of_range : float64 → Z).

(** [time.Duration(x)] for [x] not negative. *)
Definition to_duration (x : float64) : Duration :=
  if decide (Qfloor x ≤ max_int64) then Qfloor x else out_of_range x.

Definition next_backoff (cfg : Config) (backoff : Duration) : Duration :=
  let nextBackoff := to_duration (fmul (float_of_int backoff) (Multiplier cfg)) in
  let nextBackoff := if decide (nextBackoff ≤ 0) then MaxBackoff cfg else nextBackoff in
  if decide (MaxBackoff cfg < nextBackoff) then MaxBackoff cfg else nextBackoff.

Context {Out E : Type} (zero : Out).
(** The n-th call of the handler; the end of the wait after it: nothing when the timer fired; the context after
all attempts. *)
Context (next : nat → res E Out) (wait : nat → Ctx) (ctx_after : Ctx) (shouldRetry : option (E → bool)).

Inductive Error := ErrNext (e : E) | ErrCtx (e : CtxErr).

(** Whether the handler is called again after an error in the given attempt. *)
Definition again (cfg : Config) (attempt : Z) (e : E) : bool :=
  negb (bool_decide (attempt = MaxAttempts cfg)) && (if shouldRetry is Some f then f e else false).

(** The loop, with the calls and the waits it made. *)
Fixpoint attempts (fuel : nat) (cfg : Config) (attempt : Z) (calls : nat) (backoff : Duration)
    : res Error Out * nat * list Duration :=
  match fuel with
  | O => (if ctx_after is Some c then Err (ErrCtx c) else Ok zero, calls, [])
  | S fuel =>
      match next calls with
      | Ok value => (Ok value, S calls, [])
      | Err e =>
          if again cfg attempt e then
            match wait calls with
            | Some c => (Err (ErrCtx c), S calls, [backoff])
            | None =>
                let '(r, n, waits) := attempts fuel cfg (attempt + 1) (S calls) (next_backoff cfg backoff) in
                (r, n, backoff :: waits)
            end
          else (Err (ErrNext e), S calls, [])
      end
  end.

(** The handler of [NewMiddleware]: its result, the number of calls, and the waits. *)
Definition NewMiddleware (opts : list (option Option)) : res Error Out * nat * list Duration :=
  let cfg := normalize (New opts) in
  attempts (Z.to_nat (MaxAttempts cfg)) cfg 1 0 (InitialBackoff cfg).

(** * Properties *)

Lemma normalize_ok cfg :
  let c := normalize cfg in
  1 ≤ MaxAttempts c ∧ 0 < InitialBackoff c ≤ MaxBackoff c ∧ (1 <= Multiplier c)%Q.
Proof.
  unfold normalize. cbv zeta.
  set (c1 := if decide (MaxAttempts cfg ≤ 0) then _ else cfg).
  assert (1 ≤ MaxAttempts c1) as H1 by (subst c1; case_decide; [done|lia]). clearbody c1.
  set (c2 := if decide (InitialBackoff c1 ≤ 0) then _ else c1).
  assert (1 ≤ MaxAttempts c2 ∧ 0 < InitialBackoff c2) as [H2 H3] by (subst c2; case_decide; [by destruct c1|lia]). clearbody c2.
  set (c3 := if decide (MaxBackoff c2 ≤ 0) then _ else c2).
  assert (1 ≤ MaxAttempts c3 ∧ 0 < InitialBackoff c3) as [H4 H5] by (subst c3; case_decide; [by destruct c2|lia]). clearbody c3.
  set (c4 := if decide (MaxBackoff c3 < InitialBackoff c3) then _ else c3).
  assert (1 ≤ MaxAttempts c4 ∧ 0 < InitialBackoff c4 ≤ MaxBackoff c4) as [H6 H7].
  { subst c4. case_decide; [|lia]. destruct c3. cbn [MaxAttempts InitialBackoff MaxBackoff upd] in *. lia. }
  clearbody c4. destruct (decide (Multiplier c4 < 1)%Q) as [Hk|Hk].
  - destruct c4. split_and!; [apply H6|apply H7|apply H7|apply Qle_refl].
  - split_and!; [done|apply H7|apply H7|by apply Qnot_lt_le].
Qed.

(** How the loop ends after its last call [k]: a value, an error that is not retried, or a wait cut short. *)
Definition outcome (cfg : Config) (attempt : Z) (k : nat) (r : res Error Out) : Prop :=
  match next k with
  | Ok value => r = Ok value
  | Err e => if again cfg attempt e then ∃ c, wait k = Some c ∧ r = Err (ErrCtx c) else r = Err (ErrNext e)
  end.

Lemma attempts_spec fuel cfg attempt calls backoff r n waits :
  (0 < fuel)%nat → attempt + Z.of_nat fuel = MaxAttempts cfg + 1 →
  attempts fuel cfg attempt calls backoff = (r, n, waits) →
  ∃ k, n = S (calls + k) ∧ (k < fuel)%nat ∧ outcome cfg (attempt + Z.of_nat k) (calls + k) r ∧
    ∀ j, (j < k)%nat → ∃ e, next (calls + j) = Err e ∧ again cfg (attempt + Z.of_nat j) e = true ∧ wait (calls + j) = None.
Proof.
  revert attempt calls backoff r n waits. induction fuel as [|fuel IH]; intros attempt calls backoff r n waits Hf Hm; [lia|].
  cbn [attempts]. unfold outcome. destruct (next calls) as [v|e] eqn:En.
  { intros [= <- <- <-]. exists 0%nat. rewrite Nat.add_0_r, En. split_and!; [lia|lia|done|lia]. }
  destruct (again cfg attempt e) eqn:Ea.
  2: { intros [= <- <- <-]. exists 0%nat. rewrite Nat.add_0_r, En, Z.add_0_r, Ea. split_and!; [lia|lia|done|lia]. }
  destruct (wait calls) as [c|] eqn:Ew.
  { intros [= <- <- <-]. exists 0%nat. rewrite Nat.add_0_r, En, Z.add_0_r, Ea. split_and!; [lia|lia|eauto|lia]. }
  destruct (attempts fuel cfg (attempt + 1) (S calls) (next_backoff cfg backoff)) as [[r1 n1] w1] eqn:Er.
  intros [= <- <- <-].
  assert (0 < fuel)%nat as Hfuel.
  { unfold again in Ea. apply andb_true_iff in Ea as [Ea _]. apply negb_true_iff, bool_decide_eq_false in Ea. lia. }
  assert (attempt + 1 + Z.of_nat fuel = MaxAttempts cfg + 1) as Hm1 by lia.
  destruct (IH _ _ _ _ _ _ Hfuel Hm1 Er) as (k & -> & Hk & Ho & Hj). exists (S k).
  split_and!; [lia|lia| |].
  - unfold outcome in Ho. replace (calls + S k)%nat with (S calls + k)%nat by lia.
    by replace (attempt + Z.of_nat (S k)) with (attempt + 1 + Z.of_nat k) by lia.
  - intros j Hlt. destruct j as [|j].
    + exists e. by rewrite Nat.add_0_r, Z.add_0_r.
    + destruct (Hj j ltac:(lia)) as (e' & H1 & H2 & H3). exists e'.
      replace (calls + S j)%nat with (S calls + j)%nat by lia.
      by replace (attempt + Z.of_nat (S j)) with (attempt + 1 + Z.of_nat j) by lia.
Qed.

(** ** Waits *)

(** The conversion of a number out of range is negative or the largest integer, as processors do it. *)
Context (Hrange : ∀ x, out_of_range x ≤ 0 ∨ out_of_range x = max_int64).

Lemma fl_int n : 0 < n < 2 ^ 53 → (fl (inject_Z n) == inject_Z n)%Q.
Proof.
  intros Hn. assert (0 < inject_Z n)%Q as Hpos by (rewrite (Zlt_Qlt 0 n) in Hn; apply Hn).
  assert (inject_Z n * pow2 0 == inject_Z n)%Q as Hn0 by (change (pow2 0) with 1%Q; lra).
  rewrite fl_pos by done. rewrite <-(round_pos_eq (inject_Z n * pow2 0)) by (rewrite ?Hn0; done).
  rewrite round_pos_exact; [done|]. rewrite (last_bit_eq _ (inject_Z n)) by (rewrite ?Hn0; done). unfold last_bit.
  destruct (ilog2_spec (inject_Z n) Hpos) as [H1 _].
  assert (pow2 (ilog2 (inject_Z n)) < pow2 53)%Q as H2.
  { eapply Qle_lt_trans; [exact H1|]. rewrite pow2_int by lia. rewrite <-Zlt_Qlt. lia. }
  apply pow2_lt_inv in H2. lia.
Qed.

Lemma next_backoff_bounds cfg b :
  (1 <= Multiplier cfg)%Q → 0 < b ≤ MaxBackoff cfg → MaxBackoff cfg < 2 ^ 53 →
  b ≤ next_backoff cfg b ≤ MaxBackoff cfg.
Proof.
  intros Hm Hb Hmax. unfold next_backoff.
  assert (b ≤ Qfloor (fmul (float_of_int b) (Multiplier cfg))) as Hge.
  { assert (inject_Z b <= fmul (float_of_int b) (Multiplier cfg))%Q as Hq.
    { unfold fmul, float_of_int. rewrite <-(fl_int b) at 1 by lia. apply fl_mono. rewrite fl_int by lia.
      assert (0 < inject_Z b)%Q by (rewrite (Zlt_Qlt 0 b) in Hb; apply Hb). nra. }
    apply Qfloor_resp_le in Hq. by rewrite Qfloor_Z in Hq. }
  unfold to_duration. destruct (decide (_ ≤ max_int64)) as [Hr|Hr]; cbv zeta.
  - repeat case_decide; lia.
  - destruct (Hrange (fmul (float_of_int b) (Multiplier cfg))) as [H| ->]; repeat case_decide; try lia;
      unfold max_int64 in *; lia.
Qed.

(** Every wait is positive, at most [MaxBackoff], and no shorter than the one before. *)
Lemma waits_bounds fuel cfg attempt calls b r n waits :
  (1 <= Multiplier cfg)%Q → 0 < b ≤ MaxBackoff cfg → MaxBackoff cfg < 2 ^ 53 →
  attempts fuel cfg attempt calls b = (r, n, waits) →
  StronglySorted Z.le waits ∧ Forall (λ d, b ≤ d ≤ MaxBackoff cfg) waits.
Proof.
  intros Hm Hb Hmax. revert attempt calls b Hb r n waits.
  induction fuel as [|fuel IH]; intros attempt calls b Hb r n waits; cbn [attempts]; [intros [= <- <- <-]; by repeat constructor|].
  destruct (next calls); [intros [= <- <- <-]; by repeat constructor|].
  destruct (again cfg attempt _); [|intros [= <- <- <-]; by repeat constructor].
  destruct (wait calls); [intros [= <- <- <-]; repeat constructor; lia|].
  pose proof (next_backoff_bounds cfg b Hm Hb Hmax) as Hnb.
  destruct (attempts fuel _ _ _ _) as [[r1 n1] w1] eqn:Er. intros [= <- <- <-].
  assert (0 < next_backoff cfg b ≤ MaxBackoff cfg) as Hnb' by lia.
  destruct (IH _ _ _ Hnb' _ _ _ Er) as [Hs Hf]. split.
  - constructor; [done|]. eapply Forall_impl; [exact Hf|]. cbn. intros; lia.
  - constructor; [lia|]. eapply Forall_impl; [exact Hf|]. cbn. intros; lia.
Qed.

(** The retry middleware calls its handler at most [MaxAttempts] times; every call but the last failed with an
error worth retrying and was followed by a full wait; it returns the last call's value or error, or
the context's error when it ended during a wait. The waits start at [InitialBackoff], never shrink and never
exceed [MaxBackoff] (for maxima below 2^53 ns, about 104 days). *)
Theorem retry_exact opts r n waits :
  let cfg := normalize (New opts) in
  MaxBackoff cfg < 2 ^ 53 → NewMiddleware opts = (r, n, waits) →
  ∃ k, n = S k ∧ Z.of_nat n ≤ MaxAttempts cfg ∧ outcome cfg (Z.of_nat k + 1) k r ∧
    (∀ j, (j < k)%nat → ∃ e, next j = Err e ∧ again cfg (Z.of_nat j + 1) e = true ∧ wait j = None) ∧
    StronglySorted Z.le waits ∧ Forall (λ d, InitialBackoff cfg ≤ d ≤ MaxBackoff cfg) waits.
Proof.
  intros cfg Hmax Hrun. destruct (normalize_ok (New opts)) as (H1 & H2 & H3). fold cfg in H1, H2, H3.
  assert (0 < Z.to_nat (MaxAttempts cfg))%nat as Hf by lia.
  assert (1 + Z.of_nat (Z.to_nat (MaxAttempts cfg)) = MaxAttempts cfg + 1) as Hm by lia.
  destruct (attempts_spec _ cfg 1 0 _ _ _ _ Hf Hm Hrun) as (k & -> & Hk & Ho & Hj). exists k.
  destruct (waits_bounds _ _ _ _ _ _ _ _ H3 H2 Hmax Hrun) as [Hs Hw].
  split_and!; [done|lia| | |done|done].
  - by replace (Z.of_nat k + 1) with (1 + Z.of_nat k) by lia.
  - intros j Hlt. replace (Z.of_nat j + 1) with (1 + Z.of_nat j) by lia. by apply Hj.
Qed.

End retry.

(** A handler that fails twice with a busy error: three calls, waits of 200 and 400 ms. *)
Lemma retry_exact_witness :
  let next n := if decide (n < 2)%nat then Err "busy" else Ok "text" in
  let shouldRetry := Some (λ e, bool_decide (e = "busy")) in
  NewMiddleware (λ _, -1) "" next (λ _, None) None shouldRetry [] = (Ok "text", 3%nat, [200 * millisecond; 400 * millisecond]) ∧
  Forall (λ d, 200 * millisecond ≤ d ≤ 2000 * millisecond) [200 * millisecond; 400 * millisecond].
Proof.
  intros next shouldRetry. split; [vm_compute; reflexivity|].
  destruct (retry_exact (λ _, -1) "" next (λ _, None) None shouldRetry ltac:(intros; left; lia) [] (Ok "text") 3
    [200 * millisecond; 400 * millisecond]) as (k & _ & _ & _ & _ & _ & H); [reflexivity|vm_compute; reflexivity|exact H].
Defined.

End Retry.
