(* ===== verification/OcrDispatch.v ===== *)
(** ocrs: the dispatcher that shares calls between providers ([src/ocrs/scheduler/scheduler.go]).

A dispatcher is its workers, the calls of [Handle] and [Close]. [step] is one of their channel operations, [None]
when it would block; the label chooses who moves, which ready case a [select] takes, and what a
provider answers. [jobs] is unbuffered, so a call is handed to a worker in one step; [reply] holds one answer. *)

From S2P Require Import Prelude.

Module Dispatch.

Section dispatch.
Context {In Out PErr : Type}.

Inductive Error := ErrNoEndpoint | ErrClosed | ErrNilProvider (index : nat) | ErrCtx (e : CtxErr) | ErrProvider (e : PErr).
Abbreviation response := (res Error Out).

(** * State *)

(** [ProviderConfig]: the provider, nil or named by a number, and its workers. *)
Record ProviderConfig := mkProvider { Provider : option nat; Workers : Z }.

(** A worker: in its [select], with a call before it looks at the context, in the provider, or ended. *)
Inductive worker_state := Idle | Got (call : nat) | Serving (call : nat) | Gone.

(** A call of [Handle]: in its first [select], in the second one with the buffer of [reply], or returned. *)
Inductive call_state := Offering | Waiting (reply : option response) | Returned (r : response).

Record call := mkCall { data : In; ctx : Ctx; at_ : call_state }.
#[global] Instance eta_call : Eta call := λ c, mkCall (data c) (ctx c) (at_ c).

Record state := mkState {
  workers : list (nat * worker_state);                 (** provider and state *)
  calls : list call;
  closed : bool;
  close_returned : bool;
  served : list (nat * nat * In * res PErr Out)        (** call, provider, data and answer *)
}.
#[global] Instance eta_state : Eta state := λ s,
  mkState (workers s) (calls s) (closed s) (close_returned s) (served s).

(** [NewDispatcher]. *)
Fixpoint nil_provider (i : nat) (l : list ProviderConfig) : option nat :=
  match l with
  | [] => None
  | p :: l => match Provider p with Some _ => nil_provider (S i) l | None => Some i end
  end.
Definition provider_workers (p : ProviderConfig) : list (nat * worker_state) :=
  match Provider p with
  | Some name => replicate (Z.to_nat (Z.max (Workers p) 1)) (name, Idle)
  | None => []
  end.
Definition NewDispatcher (providers : list ProviderConfig) : res Error state :=
  if decide (length providers = 0) then Err ErrNoEndpoint
  else match nil_provider 0 providers with
  | Some i => Err (ErrNilProvider i)
  | None => Ok (mkState (providers ≫= provider_workers) [] false false [])
  end.

(** * Steps *)

Inductive label :=
| LHandle (d : In) (cx : Ctx)              (** a call of [Handle] begins *)
| LHand (c w : nat)                        (** a worker receives the call from [jobs] *)
| LGiveUp (c : nat)                        (** the call sees its context end *)
| LRefused (c : nat)                       (** the call sees [closed] *)
| LLook (w : nat)                          (** the worker looks at the context of its call *)
| LAnswer (w : nat) (r : res PErr Out)     (** the provider answers *)
| LTake (c : nat)                          (** the call receives its reply *)
| LExit (w : nat)                          (** the worker sees [closed] *)
| LClose                                   (** [Close] begins *)
| LCloseReturns
| LCancel (c : nat) (e : CtxErr).          (** the context of a call ends *)

Definition set_call (c : nat) (f : call → call) (s : state) : state := s <| calls := alter f c (calls s) |>.
Definition set_worker (w : nat) (st : worker_state) (s : state) : state :=
  s <| workers := alter (λ p, (p.1, st)) w (workers s) |>.

(** [req.reply <- response]: the buffer must be empty. *)
Definition send_reply (c : nat) (r : response) (s : state) : option state :=
  match calls s !! c with
  | Some k => match at_ k with
              | Waiting None => Some (set_call c (λ k, k <| at_ := Waiting (Some r) |>) s)
              | Waiting (Some _) => None
              | _ => Some s                     (** nobody receives; the buffer takes it *)
              end
  | None => None
  end.

Definition Handle_step (l : label) (s : state) : option state :=
  match l with
  | LHandle d cx => Some (s <| calls := calls s ++ [mkCall d cx Offering] |>)
  | LGiveUp c =>
      match calls s !! c with
      | Some k => match ctx k, at_ k with
                  | Some e, Offering | Some e, Waiting _ =>
                      Some (set_call c (λ k, k <| at_ := Returned (Err (ErrCtx e)) |>) s)
                  | _, _ => None
                  end
      | None => None
      end
  | LRefused c =>
      match calls s !! c with
      | Some k => match at_ k with
                  | Offering => if closed s then Some (set_call c (λ k, k <| at_ := Returned (Err ErrClosed) |>) s) else None
                  | _ => None
                  end
      | None => None
      end
  | LTake c =>
      match calls s !! c with
      | Some k => match at_ k with
                  | Waiting (Some r) => Some (set_call c (λ k, k <| at_ := Returned r |>) s)
                  | _ => None
                  end
      | None => None
      end
  | _ => None
  end.

Definition worker_step (l : label) (s : state) : option state :=
  match l with
  | LHand c w =>
      match calls s !! c, workers s !! w with
      | Some k, Some (_, Idle) =>
          match at_ k with
          | Offering => Some (set_worker w (Got c) (set_call c (λ k, k <| at_ := Waiting None |>) s))
          | _ => None
          end
      | _, _ => None
      end
  | LLook w =>
      match workers s !! w with
      | Some (_, Got c) =>
          match calls s !! c with
          | Some k => match ctx k with
                      | Some e => set_worker w Idle <$> send_reply c (Err (ErrCtx e)) s
                      | None => Some (set_worker w (Serving c) s)
                      end
          | None => None
          end
      | _ => None
      end
  | LAnswer w r =>
      match workers s !! w with
      | Some (p, Serving c) =>
          match calls s !! c with
          | Some k => (λ s, set_worker w Idle (s <| served := served s ++ [(c, p, data k, r)] |>)) <$>
                      send_reply c (match r with Ok v => Ok v | Err e => Err (ErrProvider e) end) s
          | None => None
          end
      | _ => None
      end
  | LExit w =>
      match workers s !! w with
      | Some (_, Idle) => if closed s then Some (set_worker w Gone s) else None
      | _ => None
      end
  | _ => None
  end.

Definition is_gone (p : nat * worker_state) : bool := match p.2 with Gone => true | _ => false end.

(** [Close]: once; it returns when every worker has ended. *)
Definition Close_step (l : label) (s : state) : option state :=
  match l with
  | LClose => if closed s then None else Some (s <| closed := true |>)
  | LCloseReturns =>
      if closed s && negb (close_returned s) && forallb is_gone (workers s)
      then Some (s <| close_returned := true |>) else None
  | _ => None
  end.

Definition step (l : label) (s : state) : option state :=
  match l with
  | LHandle _ _ | LGiveUp _ | LRefused _ | LTake _ => Handle_step l s
  | LHand _ _ | LLook _ | LAnswer _ _ | LExit _ => worker_step l s
  | LClose | LCloseReturns => Close_step l s
  | LCancel c e =>
      match calls s !! c with
      | Some k => if ctx k is Some _ then None else Some (set_call c (λ k, k <| ctx := Some e |>) s)
      | None => None
      end
  end.
Definition steps (s s' : state) : Prop := ∃ l, step l s = Some s'.

(** * Invariant *)

Definition lift (r : res PErr Out) : response := match r with Ok v => Ok v | Err e => Err (ErrProvider e) end.
Definition held_by (s : state) (w c : nat) : Prop :=
  ∃ p, workers s !! w = Some (p, Got c) ∨ workers s !! w = Some (p, Serving c).
Definition served_calls (s : state) : list nat := (λ x, x.1.1.1) <$> served s.

(** A reply: of the ended context of its call, or what a provider answered to it. *)
Definition justified (s : state) (c : nat) (k : call) (r : response) : Prop :=
  (∃ e, ctx k = Some e ∧ r = Err (ErrCtx e)) ∨ ∃ p v, (c, p, data k, v) ∈ served s ∧ r = lift v.

(** What is known of a call by where it is. *)
Definition call_ok (s : state) (c : nat) (k : call) : Prop :=
  match at_ k with
  | Offering => (c ∉ served_calls s) ∧ (∀ w, ¬ held_by s w c)
  | Waiting None => (c ∉ served_calls s) ∧ ∃ w, held_by s w c
  | Waiting (Some r) => justified s c k r ∧ (∀ w, ¬ held_by s w c)
  | Returned r => justified s c k r ∨ (r = Err ErrClosed ∧ closed s = true)
  end.

Record inv (s : state) : Prop := {
  v_call c k : calls s !! c = Some k → call_ok s c k;
  v_held w c : held_by s w c → is_Some (calls s !! c) ∧ (c ∉ served_calls s) ∧ (∀ w', held_by s w' c → w' = w);
  v_once : NoDup (served_calls s);
  v_served x : x ∈ served s → ∃ k, calls s !! x.1.1.1 = Some k ∧ data k = x.1.2 ∧ x.1.1.2 ∈ (workers s).*1;
  v_closed : close_returned s = true → closed s = true ∧ Forall (λ w, is_gone w = true) (workers s)
}.

Lemma calls_set c c' f (s : state) :
  calls (set_call c f s) !! c' = if decide (c' = c) then f <$> calls s !! c' else calls s !! c'.
Proof.
  unfold set_call. cbn. destruct (decide (c' = c)) as [->|]; [apply list_lookup_alter_eq|by apply list_lookup_alter_ne].
Qed.
Lemma workers_set w w' st (s : state) :
  workers (set_worker w st s) !! w' = if decide (w' = w) then (λ p, (p.1, st)) <$> workers s !! w' else workers s !! w'.
Proof.
  unfold set_worker. cbn. destruct (decide (w' = w)) as [->|]; [apply list_lookup_alter_eq|by apply list_lookup_alter_ne].
Qed.
Lemma workers_names w st (s : state) : (workers (set_worker w st s)).*1 = (workers s).*1.
Proof.
  apply list_eq. intros i. rewrite !list_lookup_fmap, workers_set. case_decide; [|done]. by destruct (workers s !! i) as [[]|].
Qed.

Lemma held_set w st (s : state) w' c :
  held_by (set_worker w st s) w' c ↔
  if decide (w' = w) then is_Some (workers s !! w) ∧ (st = Got c ∨ st = Serving c) else held_by s w' c.
Proof.
  unfold held_by. setoid_rewrite workers_set. destruct (decide (w' = w)) as [->|]; [|done].
  destruct (workers s !! w) as [[p st']|]; cbn; [|naive_solver]. split.
  - intros [p' [[= <- ->]|[= <- ->]]]; eauto.
  - intros [_ [-> | ->]]; eauto.
Qed.
Lemma held_set_call c f (s : state) w' c' : held_by (set_call c f s) w' c' ↔ held_by s w' c'.
Proof. done. Qed.

(** One call changes. *)
Lemma inv_set_call c f k (s : state) :
  inv s → calls s !! c = Some k → data (f k) = data k → call_ok s c (f k) → inv (set_call c f s).
Proof.
  intros [H1 H2 H3 H4 H5] Hk Hd Hok. split; [..|done].
  - intros c' k'. rewrite calls_set. destruct (decide (c' = c)) as [->|]; [|apply H1]. rewrite Hk. by intros [= <-].
  - intros w c' Hh. destruct (H2 w c' Hh) as (Hs & Hn & Hu). split_and!; [|done|done].
    rewrite calls_set. destruct (decide (c' = c)) as [->|]; [by rewrite Hk|done].
  - done.
  - intros x Hx. destruct (H4 x Hx) as (k' & Hk' & Hdk & Hp). rewrite calls_set.
    destruct (decide (x.1.1.1 = c)) as [E|]; [|eauto]. rewrite E, Hk in *. injection Hk' as <-. exists (f k). cbn.
    split_and!; [done|congruence|done].
Qed.

(** The state after the worker [w] gave back the call [c], which becomes [f] of it, with a log of the answer. *)
Definition released (w c : nat) (f : call → call) log (s : state) : state :=
  set_worker w Idle (set_call c f (s <| served := served s ++ log |>)).

(** The answer that is logged, if any. *)
Definition logged (c p : nat) (k : call) (r : response) (log : list (nat * nat * In * res PErr Out)) : Prop :=
  (log = [] ∧ ∃ e, ctx k = Some e ∧ r = Err (ErrCtx e)) ∨ (∃ v, log = [(c, p, data k, v)] ∧ r = lift v).

Lemma logged_in c p k r log x : logged c p k r log → x ∈ log → x.1.1.1 = c ∧ x.1.2 = data k ∧ x.1.1.2 = p.
Proof.
  intros [[-> _]|(v & -> & _)] Hx; [by apply elem_of_nil in Hx|]. by apply list_elem_of_singleton in Hx as ->.
Qed.

Section release.
Context (w p c : nat) (k : call) (s : state) (r : response) (log : list (nat * nat * In * res PErr Out)) (f : call → call).
Context (Hi : inv s) (Hw : workers s !! w = Some (p, Got c) ∨ workers s !! w = Some (p, Serving c)).
Context (Hk : calls s !! c = Some k) (Hlog : logged c p k r log) (Hfd : data (f k) = data k) (Hfc : ctx (f k) = ctx k).
Context (Hat : at_ (f k) = Waiting (Some r) ∨ ∃ r', at_ (f k) = Returned r' ∧ at_ k = Returned r').
#[local] Abbreviation s' := (released w c f log s).

Lemma released_held w' c' : held_by s' w' c' ↔ w' ≠ w ∧ held_by s w' c'.
Proof. unfold released. rewrite held_set. destruct (decide (w' = w)); [naive_solver|]. split; [by split|tauto]. Qed.
Lemma released_calls c' : calls s' !! c' = if decide (c' = c) then f <$> calls s !! c' else calls s !! c'.
Proof. exact (calls_set c c' f (s <| served := served s ++ log |>)). Qed.
Lemma released_served c' : c' ∈ served_calls s' → c' ∈ served_calls s ∨ c' = c.
Proof.
  unfold served_calls. cbn. rewrite fmap_app, elem_of_app. intros [?|Hx]; [by left|right].
  apply list_elem_of_fmap in Hx as (x & -> & Hx). by destruct (logged_in _ _ _ _ _ _ Hlog Hx).
Qed.
Lemma released_justified c' k' r' : justified s c' k' r' → justified s' c' k' r'.
Proof. intros [?|(p' & v & Hx & ->)]; [by left|]. right. exists p', v. cbn. split; [apply elem_of_app; by left|done]. Qed.

Lemma released_held_only : held_by s w c ∧ (c ∉ served_calls s) ∧ (∀ w', held_by s w' c → w' = w).
Proof.
  assert (held_by s w c) as Hh by (exists p; done). destruct (v_held _ Hi w c Hh) as (_ & Hn & Hu). by split_and!.
Qed.

Lemma released_call_ok c' k' : calls s' !! c' = Some k' → call_ok s' c' k'.
Proof.
  destruct released_held_only as (Hh & Hn & Hu). rewrite released_calls. destruct (decide (c' = c)) as [->|Hne].
  - rewrite Hk. intros [= <-]. unfold call_ok. destruct Hat as [->|(r' & -> & Hr)].
    + split; [|intros w' [Hw' Hh']%released_held; by apply Hw', Hu]. destruct Hlog as [[-> (e & He & ->)]|(v & -> & ->)].
      * left. exists e. by rewrite Hfc.
      * right. exists p, v. cbn. rewrite Hfd. split; [apply elem_of_app; right; by left|done].
    + pose proof (v_call _ Hi c k Hk) as Hc. unfold call_ok in Hc. rewrite Hr in Hc. destruct Hc as [Hc|Hc]; [left|by right].
      apply released_justified. unfold justified in *. by rewrite Hfd, Hfc.
  - intros Hk'. pose proof (v_call _ Hi c' k' Hk') as H1. unfold call_ok in *. destruct (at_ k') as [|[r'|]|r'].
    + destruct H1 as [H1 H1']. split; [intros [?|?]%released_served; done|]. intros w' [_ Hh']%released_held. by apply (H1' w').
    + destruct H1 as [H1 H1']. split; [by apply released_justified|]. intros w' [_ Hh']%released_held. by apply (H1' w').
    + destruct H1 as [H1 [w' H1']]. split; [intros [?|?]%released_served; done|]. exists w'. apply released_held. split; [|done].
      intros ->. destruct Hw as [E|E], H1' as [p' [H1'|H1']]; congruence.
    + destruct H1 as [?|?]; [left; by apply released_justified|by right].
Qed.

Lemma released_once : NoDup (served_calls s').
Proof.
  destruct released_held_only as (_ & Hn & _). unfold served_calls in *. cbn. rewrite fmap_app.
  destruct Hlog as [[-> _]|(v & -> & _)]; cbn; [rewrite app_nil_r; apply Hi|].
  apply NoDup_app. split; [apply Hi|]. split; [|apply NoDup_singleton]. by intros c' Hc' ->%list_elem_of_singleton.
Qed.

Lemma released_known x : x ∈ served s' → ∃ k', calls s' !! x.1.1.1 = Some k' ∧ data k' = x.1.2 ∧ x.1.1.2 ∈ (workers s').*1.
Proof.
  intros Hx. cbn in Hx. rewrite released_calls. unfold released. rewrite workers_names. apply elem_of_app in Hx as [Hx|Hx].
  - destruct (v_served _ Hi x Hx) as (k' & Hk' & Hdk & Hp'). destruct (decide (x.1.1.1 = c)) as [E|]; [|eauto].
    rewrite E, Hk in *. injection Hk' as <-. exists (f k). cbn. split_and!; [done|congruence|done].
  - destruct (logged_in _ _ _ _ _ _ Hlog Hx) as (-> & -> & ->). rewrite decide_True, Hk by done. exists (f k). split_and!; [done..|].
    destruct Hw as [E|E]; apply list_elem_of_lookup_2 in E; apply list_elem_of_fmap; by eexists (p, _).
Qed.

Lemma inv_release : inv s'.
Proof.
  destruct released_held_only as (_ & Hn & Hu). split.
  - apply released_call_ok.
  - intros w' c' [Hne Hh']%released_held. destruct (v_held _ Hi w' c' Hh') as (Hs' & Hn' & Hu').
    assert (c' ≠ c) as Hcc by (intros ->; by apply Hne, Hu). split_and!.
    + rewrite released_calls. by case_decide.
    + by intros [?|?]%released_served.
    + intros w2 [_ Hw2]%released_held. by apply Hu'.
  - apply released_once.
  - apply released_known.
  - intros Hcr. destruct (v_closed _ Hi Hcr) as [_ Hg]. rewrite Forall_forall in Hg. exfalso.
    destruct Hw as [E|E]; by apply list_elem_of_lookup_2, Hg in E.
Qed.

End release.

(** The worker [w] gives the call it holds back with an answer, which is logged or not. *)
Lemma inv_reply w p c k (s : state) r log :
  inv s → (workers s !! w = Some (p, Got c) ∨ workers s !! w = Some (p, Serving c)) → calls s !! c = Some k →
  logged c p k r log →
  ∃ s1, send_reply c r s = Some s1 ∧ inv (set_worker w Idle (s1 <| served := served s1 ++ log |>)).
Proof.
  intros Hi Hw Hk Hlog. assert (held_by s w c) as Hh by (exists p; done).
  pose proof (v_call _ Hi c k Hk) as Hc. unfold send_reply. rewrite Hk.
  unfold call_ok in Hc. destruct (at_ k) as [|[r'|]|r'] eqn:Ea.
  - exfalso. by apply (proj2 Hc w).
  - exfalso. by apply (proj2 Hc w).
  - eexists. split; [reflexivity|]. apply (inv_release w p c k s r log); [done..|by left].
  - exists s. split; [done|]. assert (∀ s0 : state, set_call c id s0 = s0) as Hs.
    { intros s0. unfold set_call. destruct s0 as [ws cs cl cr sv]. cbn. unfold upd. cbn. f_equal. apply list_eq. intros i.
      rewrite list_lookup_alter. destruct (decide (c = i)) as [<-|]; [|done]. by rewrite option_fmap_id. }
    pose proof (inv_release w p c k s r log id Hi Hw Hk Hlog eq_refl eq_refl (or_intror (ex_intro _ r' (conj Ea Ea)))) as H.
    unfold released in H. by rewrite Hs in H.
Qed.

(** A worker that holds the same call before and after, or none. *)
Lemma inv_set_worker w st (s : state) :
  inv s → is_Some (workers s !! w) → (∀ c, held_by s w c ↔ st = Got c ∨ st = Serving c) →
  (close_returned s = true → st = Gone) → inv (set_worker w st s).
Proof.
  intros [H1 H2 H3 H4 H5] Hw Hst Hg.
  assert (∀ w' c, held_by (set_worker w st s) w' c ↔ held_by s w' c) as Hheld.
  { intros w' c. rewrite held_set. destruct (decide (w' = w)) as [->|]; [|done]. rewrite Hst. tauto. }
  split.
  - intros c k Hk. specialize (H1 c k Hk). unfold call_ok, justified in *. destruct (at_ k) as [|[r|]|r]; try setoid_rewrite Hheld; done.
  - intros w' c. setoid_rewrite Hheld. apply H2.
  - done.
  - intros x Hx. rewrite workers_names. by apply H4.
  - intros Hcr. destruct (H5 Hcr) as [Hc Hf]. split; [done|]. apply Forall_lookup. intros i x. rewrite workers_set.
    rewrite Forall_lookup in Hf. destruct (decide (i = w)) as [->|]; [|apply Hf].
    destruct Hw as [[p0 st0] Hw]. rewrite Hw. intros [= <-]. by rewrite (Hg Hcr).
Qed.

Lemma inv_hand c w p k (s : state) :
  inv s → calls s !! c = Some k → workers s !! w = Some (p, Idle) → at_ k = Offering →
  inv (set_worker w (Got c) (set_call c (λ k, k <| at_ := Waiting None |>) s)).
Proof.
  intros [H1 H2 H3 H4 H5] Hk Hw Ha. pose proof (H1 c k Hk) as Hc. unfold call_ok in Hc. rewrite Ha in Hc. destruct Hc as [Hn Hh].
  set (s' := set_worker w _ _).
  assert (∀ w' c', held_by s' w' c' ↔ (w' = w ∧ c' = c) ∨ held_by s w' c') as Hheld.
  { intros w' c'. unfold s'. rewrite held_set. change (workers (set_call c _ s)) with (workers s).
    destruct (decide (w' = w)) as [->|]; [|naive_solver]. split; [naive_solver|].
    intros [[_ ->]|[p' [E|E]]]; [eauto|congruence|congruence]. }
  assert (∀ c', calls s' !! c' = if decide (c' = c) then Some (k <| at_ := Waiting None |>) else calls s !! c') as Hcalls.
  { intros c'. unfold s'. change (calls (set_worker _ _ ?x)) with (calls x). rewrite calls_set. case_decide; [|done].
    subst. by rewrite Hk. }
  split.
  - intros c' k'. rewrite Hcalls. destruct (decide (c' = c)) as [->|Hne].
    + intros [= <-]. unfold call_ok. cbn. split; [done|]. exists w. apply Hheld. by left.
    + intros Hk'. specialize (H1 c' k' Hk'). unfold call_ok, justified in *. change (served s') with (served s).
      change (served_calls s') with (served_calls s). change (closed s') with (closed s).
      destruct (at_ k') as [|[r|]|r]; try setoid_rewrite Hheld; naive_solver.
  - intros w' c'. rewrite Hheld. change (served_calls s') with (served_calls s). setoid_rewrite Hheld. rewrite Hcalls.
    intros [[-> ->]|Hh']; [rewrite decide_True by done; split_and!; [by eexists|done|naive_solver]|].
    destruct (decide (c' = c)) as [->|]; [by apply Hh in Hh'|]. destruct (H2 _ _ Hh') as (? & ? & ?). split_and!; [done|done|naive_solver].
  - done.
  - intros x Hx. unfold s' at 2. rewrite workers_names, Hcalls. destruct (H4 x Hx) as (k' & Hk' & Hd & Hp).
    destruct (decide (x.1.1.1 = c)) as [E|]; [|eauto]. rewrite E, Hk in Hk'. injection Hk' as <-. by eexists.
  - intros Hcr. destruct (H5 Hcr) as [_ Hf]. rewrite Forall_forall in Hf. by apply list_elem_of_lookup_2, Hf in Hw.
Qed.

Lemma dispatch_inv_steps (s s' : state) : inv s → steps s s' → inv s'.
Proof.
  intros Hi [l Hl]. destruct l as [d cx|c w|c|c|w|w r|c|w| | |c e]; cbn in Hl.
  - injection Hl as <-. destruct Hi as [H1 H2 H3 H4 H5]. split; cbn; [|..|done].
    + intros c k. rewrite lookup_app_Some. intros [Hk|[Hlen Hk]]; [by apply (H1 c k)|].
      apply list_lookup_singleton_Some in Hk as [Hc <-]. assert (c = length (calls s)) as -> by lia. unfold call_ok. cbn.
      assert (calls s !! length (calls s) = None) as Hno by (by apply lookup_ge_None_2). split.
      * intros (x & Hx & Hin)%list_elem_of_fmap. destruct (H4 x Hin) as (k & Hk & _). by rewrite <-Hx, Hno in Hk.
      * intros w Hh. destruct (H2 w _ Hh) as [[k Hk] _]. by rewrite Hno in Hk.
    + intros w c Hh. destruct (H2 w c Hh) as ([k Hk] & ? & ?). split_and!; [|done|done].
      exists k. by apply lookup_app_l_Some.
    + done.
    + intros x Hx. destruct (H4 x Hx) as (k & Hk & ?). exists k. split; [by apply lookup_app_l_Some|done].
  - destruct (calls s !! c) as [k|] eqn:Hk; [|done]. destruct (workers s !! w) as [[p []]|] eqn:Hw; try done.
    destruct (at_ k) as [| |] eqn:Ha; try done. injection Hl as <-. by eapply inv_hand.
  - destruct (calls s !! c) as [k|] eqn:Hk; [|done]. destruct (ctx k) as [e|] eqn:Hc; [|done].
    assert (call_ok s c (k <| at_ := Returned (Err (ErrCtx e)) |>)) by (left; left; by exists e).
    destruct (at_ k) as [|r|r] eqn:Ha; try done; injection Hl as <-; by eapply inv_set_call.
  - destruct (calls s !! c) as [k|] eqn:Hk; [|done]. destruct (at_ k) as [|r|r] eqn:Ha; try done.
    destruct (closed s) eqn:Hc; [|done]. injection Hl as <-. eapply inv_set_call; [done..|]. right. done.
  - destruct (workers s !! w) as [[p [|c|c|]]|] eqn:Hw; try done. destruct (calls s !! c) as [k|] eqn:Hk; [|done].
    destruct (ctx k) as [e|] eqn:Hc.
    + destruct (inv_reply w p c k s (Err (ErrCtx e)) []) as (s1 & E & Hi'); [done|by left|done|left; eauto|].
      rewrite E in Hl. injection Hl as <-. rewrite app_nil_r in Hi'. by destruct s1.
    + injection Hl as <-. apply inv_set_worker; [done|by rewrite Hw| |].
      * intros c'. unfold held_by. rewrite Hw. naive_solver.
      * intros Hcr. destruct (v_closed _ Hi Hcr) as [_ Hf]. rewrite Forall_forall in Hf. by apply list_elem_of_lookup_2, Hf in Hw.
  - destruct (workers s !! w) as [[p [|c|c|]]|] eqn:Hw; try done. destruct (calls s !! c) as [k|] eqn:Hk; [|done].
    destruct (inv_reply w p c k s (lift r) [(c, p, data k, r)]) as (s1 & E & Hi'); [done|by right|done|right; eauto|].
    unfold lift in E. rewrite E in Hl. by injection Hl as <-.
  - destruct (calls s !! c) as [k|] eqn:Hk; [|done]. pose proof (v_call _ Hi c k Hk) as Hc. unfold call_ok in Hc.
    destruct (at_ k) as [|[r|]|r] eqn:Ha; try done. injection Hl as <-. eapply inv_set_call; [done..|]. left. apply Hc.
  - destruct (workers s !! w) as [[p [|c|c|]]|] eqn:Hw; try done. destruct (closed s); [|done]. injection Hl as <-.
    apply inv_set_worker; [done|by rewrite Hw| |done]. intros c'. unfold held_by. rewrite Hw. naive_solver.
  - destruct (closed s) eqn:Hc; [done|]. injection Hl as <-. destruct Hi as [H1 H2 H3 H4 H5]. split; try done.
    + intros c k Hk. specialize (H1 c k Hk). unfold call_ok in *. destruct (at_ k) as [|[r|]|r]; try done. destruct H1 as [?|[_ ?]]; [by left|congruence].
    + intros Hcr. destruct (H5 Hcr). congruence.
  - destruct s as [ws cs [] [] sv]; try done. cbn in Hl. destruct (forallb is_gone ws) eqn:Hf; [|done]. injection Hl as <-. destruct Hi as [H1 H2 H3 H4 H5]. split; [exact H1|exact H2|exact H3|exact H4|].
    intros _. split; [done|]. apply Forall_forall. intros x Hx. rewrite forallb_forall in Hf. by apply Hf, list_elem_of_In.
  - destruct (calls s !! c) as [k|] eqn:Hk; [|done]. destruct (ctx k) eqn:Hc; [done|]. injection Hl as <-.
    eapply inv_set_call; [done..|]. pose proof (v_call _ Hi c k Hk) as Hok. unfold call_ok, justified in *. cbn.
    destruct (at_ k) as [|[r|]|r]; naive_solver.
Qed.

Lemma inv_new providers s : NewDispatcher providers = Ok s → inv s.
Proof.
  unfold NewDispatcher. case_decide; [done|]. destruct (nil_provider 0 providers); [done|]. intros [= <-].
  assert (∀ x, x ∈ providers ≫= provider_workers → x.2 = Idle) as Hidle.
  { intros x (p & Hx & _)%list_elem_of_bind. unfold provider_workers in Hx. destruct (Provider p); [|by apply elem_of_nil in Hx].
    by apply elem_of_replicate in Hx as [-> _]. }
  split; cbn; [done| |constructor| |done].
  - intros w c [p [Hw|Hw]]; cbn in Hw; by apply list_elem_of_lookup_2, Hidle in Hw.
  - intros x Hx. by apply elem_of_nil in Hx.
Qed.

Lemma dispatch_inv_reachable providers s s' : NewDispatcher providers = Ok s → rtc steps s s' → inv s'.
Proof.
  intros Hn Hr. apply (rtc_ind_r inv s) in Hr; [done|by eapply inv_new|]. intros s1 s2 _ Hs Hi. by eapply dispatch_inv_steps.
Qed.

(** C26: Whatever the interleaving of calls, workers, cancellations and closing, every call is given to a provider at
most once, with its own data, and what it returns is the answer its provider gave to it, or the error of its own
context, or [ErrClosed] after the dispatcher was closed. *)
Theorem dispatch_faithful providers s s' c k r :
  NewDispatcher providers = Ok s → rtc steps s s' → calls s' !! c = Some k → at_ k = Returned r →
  NoDup (served_calls s') ∧
  ((∃ e, ctx k = Some e ∧ r = Err (ErrCtx e)) ∨
   (∃ p v, (c, p, data k, v) ∈ served s' ∧ p ∈ (workers s').*1 ∧ r = lift v) ∨
   (r = Err ErrClosed ∧ closed s' = true)).
Proof.
  intros Hn Hr Hk Ha. pose proof (dispatch_inv_reachable _ _ _ Hn Hr) as Hi. split; [apply Hi|].
  pose proof (v_call _ Hi c k Hk) as Hc. unfold call_ok in Hc. rewrite Ha in Hc. destruct Hc as [[He|(p & v & Hin & ->)]|Hc]; [by left| |by right; right].
  right. left. exists p, v. split_and!; [done| |done]. by destruct (v_served _ Hi _ Hin) as (_ & _ & _ & ?).
Qed.

(** * Closing *)

(** The steps that need no new call, no cancellation and no decision to close. *)
Definition internal (l : label) : bool := match l with LHandle _ _ | LCancel _ _ | LClose => false | _ => true end.

Definition worker_weight (w : nat * worker_state) : nat := match w.2 with Idle => 1 | Got _ => 3 | Serving _ => 2 | Gone => 0 end.
Definition call_weight (k : call) : nat :=
  match at_ k with Offering => 5 | Waiting None => 2 | Waiting (Some _) => 1 | Returned _ => 0 end.
Definition measure (s : state) : nat :=
  sum_list_with worker_weight (workers s) + sum_list_with call_weight (calls s) + (if close_returned s then 0 else 1).

Lemma sum_alter {A} (weight : A → nat) (f : A → A) i l x a b :
  l !! i = Some x → weight x = a → weight (f x) = b → sum_list_with weight (alter f i l) + a = sum_list_with weight l + b.
Proof.
  intros Hx <- <-. revert i Hx. induction l as [|y l IH]; intros [|i] Hx; [done..| |].
  - injection Hx as ->. cbn. lia.
  - specialize (IH i Hx). change (alter f (S i) (y :: l)) with (y :: alter f i l). cbn [sum_list_with]. lia.
Qed.

(** A worker, and a call, in a new state. *)
Lemma worker_moves w p st st' (s : state) :
  workers s !! w = Some (p, st) →
  sum_list_with worker_weight (workers (set_worker w st' s)) + worker_weight (p, st) =
  sum_list_with worker_weight (workers s) + worker_weight (p, st').
Proof. intros Hw. unfold set_worker. cbn. by eapply sum_alter. Qed.
Lemma call_moves c k st (s : state) :
  calls s !! c = Some k →
  sum_list_with call_weight (calls (set_call c (λ k, mkCall (data k) (ctx k) st) s)) + call_weight k =
  sum_list_with call_weight (calls s) + call_weight (mkCall (data k) (ctx k) st).
Proof. intros Hk. unfold set_call. cbn. by eapply sum_alter. Qed.

Lemma reply_measure c r (s s1 : state) :
  send_reply c r s = Some s1 → workers s1 = workers s ∧ close_returned s1 = close_returned s ∧
  sum_list_with call_weight (calls s1) ≤ sum_list_with call_weight (calls s).
Proof.
  unfold send_reply. destruct (calls s !! c) as [k|] eqn:Hk; [|done]. destruct (at_ k) as [|[r'|]|r'] eqn:Ha; try done;
    intros [= <-]; split_and!; try done.
  pose proof (call_moves c k (Waiting (Some r)) s Hk) as H. assert (call_weight k = 2) as E by (unfold call_weight; by rewrite Ha).
  rewrite E in H. cbn [call_weight at_] in H. lia.
Qed.

(** A call that returns. *)
Lemma returning_measure c k r (s : state) :
  calls s !! c = Some k → 0 < call_weight k →
  measure (set_call c (λ k, mkCall (data k) (ctx k) (Returned r)) s) < measure s.
Proof.
  intros Hk Hw. pose proof (call_moves c k (Returned r) s Hk) as H. cbn [call_weight at_] in H. unfold measure.
  change (workers (set_call c _ s)) with (workers s). change (close_returned (set_call c _ s)) with (close_returned s). lia.
Qed.

(** A worker that gets lighter, when the calls do not get heavier. *)
Lemma worker_measure w p st st' (s s1 : state) :
  workers s !! w = Some (p, st) → worker_weight (p, st') < worker_weight (p, st) → workers s1 = workers s →
  close_returned s1 = close_returned s → sum_list_with call_weight (calls s1) ≤ sum_list_with call_weight (calls s) →
  measure (set_worker w st' s1) < measure s.
Proof.
  intros Hw Hlt E1 E2 E3. rewrite <-E1 in Hw. pose proof (worker_moves w p st st' s1 Hw) as H. unfold measure. rewrite E1 in H.
  change (calls (set_worker w st' s1)) with (calls s1). change (close_returned (set_worker w st' s1)) with (close_returned s1).
  rewrite E2. lia.
Qed.

Lemma dispatch_measure_step l (s s' : state) : internal l = true → step l s = Some s' → measure s' < measure s.
Proof.
  intros Hl. destruct l as [d cx|c w|c|c|w|w r|c|w| | |c e]; try done; cbn -[measure].
  - destruct (calls s !! c) as [k|] eqn:Hk; [|done]. destruct (workers s !! w) as [[p []]|] eqn:Hw; try done.
    destruct (at_ k) as [| |] eqn:Ha; try done. intros [= <-].
    pose proof (call_moves c k (Waiting None) s Hk) as H1. assert (call_weight k = 5) as E by (unfold call_weight; by rewrite Ha).
    pose proof (worker_moves w p Idle (Got c) (set_call c (λ k, mkCall (data k) (ctx k) (Waiting None)) s) Hw) as H2.
    rewrite E in H1. unfold measure. change (calls (set_worker w _ ?x)) with (calls x). cbn [call_weight worker_weight at_ snd] in H1, H2.
    change (workers (set_call c _ s)) with (workers s) in H2. change (close_returned (set_worker w _ _)) with (close_returned s). lia.
  - destruct (calls s !! c) as [k|] eqn:Hk; [|done]. destruct (ctx k) as [e|]; [|done].
    destruct (at_ k) as [|[r|]|r] eqn:Ha; try done; intros [= <-]; eapply returning_measure; (done || (unfold call_weight; rewrite Ha; lia)).
  - destruct (calls s !! c) as [k|] eqn:Hk; [|done]. destruct (at_ k) as [|[r|]|r] eqn:Ha; try done. destruct (closed s); [|done].
    intros [= <-]. eapply returning_measure; [done|]. unfold call_weight. rewrite Ha. lia.
  - destruct (workers s !! w) as [[p [|c|c|]]|] eqn:Hw; try done. destruct (calls s !! c) as [k|] eqn:Hk; [|done].
    destruct (ctx k) as [e|].
    + destruct (send_reply c _ s) as [s1|] eqn:E; [|done]. intros [= <-]. apply reply_measure in E as (E1 & E2 & E3).
      by eapply worker_measure; [done|cbn; lia|..].
    + intros [= <-]. by eapply worker_measure; [done|cbn; lia|..].
  - destruct (workers s !! w) as [[p [|c|c|]]|] eqn:Hw; try done. destruct (calls s !! c) as [k|] eqn:Hk; [|done].
    destruct (send_reply c _ s) as [s1|] eqn:E; [|done]. intros [= <-]. apply reply_measure in E as (E1 & E2 & E3).
    by eapply worker_measure; [done|cbn; lia|..].
  - destruct (calls s !! c) as [k|] eqn:Hk; [|done]. destruct (at_ k) as [|[r|]|r] eqn:Ha; try done. intros [= <-].
    eapply returning_measure; [done|]. unfold call_weight. rewrite Ha. lia.
  - destruct (workers s !! w) as [[p [|c|c|]]|] eqn:Hw; try done. destruct (closed s); [|done]. intros [= <-].
    by eapply worker_measure; [done|cbn; lia|..].
  - destruct s as [ws cs [] [] sv]; try done. cbn. destruct (forallb _ _); [|done]. intros [= <-]. unfold measure. cbn. lia.
Qed.

(** Closing cannot hang: every step of the workers and of the calls in progress decreases a measure, so at most
[measure] of them follow, and when none is possible any more after [Close] was called, every worker has ended, every call has
returned, and so has [Close]; [r0] stands for any answer of a provider. *)
Theorem dispatch_closes providers s s' (r0 : res PErr Out) :
  NewDispatcher providers = Ok s → rtc steps s s' →
  (∀ l s'', internal l = true → step l s' = Some s'' → measure s'' < measure s') ∧
  (closed s' = true → (∀ l, internal l = true → step l s' = None) →
   Forall (λ w, is_gone w = true) (workers s') ∧ Forall (λ k, ∃ r, at_ k = Returned r) (calls s') ∧ close_returned s' = true).
Proof.
  intros Hn Hr. pose proof (dispatch_inv_reachable _ _ _ Hn Hr) as Hi. split; [intros l s''; apply dispatch_measure_step|].
  intros Hc Hstuck.
  assert (Forall (λ w, is_gone w = true) (workers s')) as Hgone.
  { apply Forall_lookup. intros w [p st] Hw. destruct st as [|c|c|]; [| | |done]; exfalso.
    - specialize (Hstuck (LExit w) eq_refl). cbn in Hstuck. by rewrite Hw, Hc in Hstuck.
    - destruct (v_held _ Hi w c) as [[k Hk] _]; [by exists p; left|].
      specialize (Hstuck (LLook w) eq_refl). cbn in Hstuck. rewrite Hw, Hk in Hstuck. destruct (ctx k) as [e|] eqn:He; [|done].
      destruct (inv_reply w p c k s' (Err (ErrCtx e)) []) as (s1 & E & _); [done|by left|done|left; eauto|]. by rewrite E in Hstuck.
    - destruct (v_held _ Hi w c) as [[k Hk] _]; [by exists p; right|].
      specialize (Hstuck (LAnswer w r0) eq_refl). cbn in Hstuck. rewrite Hw, Hk in Hstuck.
      destruct (inv_reply w p c k s' (lift r0) [(c, p, data k, r0)]) as (s1 & E & _); [done|by right|done|right; eauto|].
      unfold lift in E. by rewrite E in Hstuck. }
  split_and!; [done| |].
  - apply Forall_lookup. intros c k Hk. pose proof (v_call _ Hi c k Hk) as Hok. unfold call_ok in Hok.
    destruct (at_ k) as [|[r|]|r] eqn:Ha; [| | |by eexists]; exfalso.
    + specialize (Hstuck (LRefused c) eq_refl). cbn in Hstuck. by rewrite Hk, Ha, Hc in Hstuck.
    + specialize (Hstuck (LTake c) eq_refl). cbn in Hstuck. by rewrite Hk, Ha in Hstuck.
    + destruct Hok as [_ [w [p [Hw|Hw]]]]; rewrite Forall_forall in Hgone; by apply list_elem_of_lookup_2, Hgone in Hw.
  - destruct (close_returned s') eqn:Hcr; [done|]. specialize (Hstuck LCloseReturns eq_refl). cbn in Hstuck.
    rewrite Hc, Hcr in Hstuck. cbn in Hstuck. assert (forallb is_gone (workers s') = true) as E; [|by rewrite E in Hstuck].
    apply forallb_forall. intros x Hx%list_elem_of_In. rewrite Forall_forall in Hgone. by apply Hgone.
Qed.

End dispatch.

(** * Executions *)

Fixpoint exec {In Out PErr} (ls : list (label (In := In) (Out := Out) (PErr := PErr))) (s : state) : option state :=
  match ls with
  | [] => Some s
  | l :: ls => match step l s with Some s => exec ls s | None => None end
  end.
Lemma exec_dispatch {In Out PErr} (ls : list (label (In := In) (Out := Out) (PErr := PErr))) s s' :
  exec ls s = Some s' → rtc steps s s'.
Proof.
  revert s. induction ls as [|l ls IH]; intros s; cbn; [by intros [= <-]|].
  destruct (step l s) as [s1|] eqn:E1; [|done]. intros H. eapply rtc_l; [by exists l|auto].
Qed.

(** Two providers; a call served by the second one while the first is closing, and one refused. *)
Definition demo_providers : list ProviderConfig := [mkProvider (Some 7) 0; mkProvider (Some 8) 1].
Definition demo_start : state (In := string) (Out := string) (PErr := string) :=
  match NewDispatcher demo_providers with Ok s => s | Err _ => mkState [] [] false false [] end.
Definition demo_labels : list (label (In := string) (Out := string) (PErr := string)) :=
  [LHandle "page" None; LHand 0 1; LClose; LExit 0; LHandle "late" None; LRefused 1; LLook 1; LAnswer 1 (Ok "text"); LTake 0;
   LExit 1; LCloseReturns].

Lemma dispatch_faithful_witness :
  ∃ s k, exec demo_labels demo_start = Some s ∧ calls s !! 0 = Some k ∧ at_ k = Returned (Ok "text") ∧
    close_returned s = true ∧ ∃ p v, (0, p, data k, v) ∈ served s ∧ Ok "text" = lift v.
Proof.
  eexists _, _. split; [vm_compute; reflexivity|]. split; [reflexivity|]. split; [reflexivity|]. split; [reflexivity|].
  edestruct (λ s' k, dispatch_faithful demo_providers demo_start s' 0 k) as (_ & [(e & _ & H)|[(p & v & Hin & _ & H)|[H _]]]);
    [reflexivity|eapply (exec_dispatch demo_labels); vm_compute; reflexivity|reflexivity|reflexivity|discriminate|by exists p, v|discriminate].
Defined.

Lemma dispatch_closes_witness :
  ∃ s, exec demo_labels demo_start = Some s ∧ Forall (λ w, is_gone w = true) (workers s) ∧ close_returned s = true.
Proof.
  eexists. split; [vm_compute; reflexivity|].
  edestruct (dispatch_closes demo_providers demo_start) as [_ H];
    [exact (Ok "x")|reflexivity|eapply (exec_dispatch demo_labels); vm_compute; reflexivity|].
  destruct H as (H1 & _ & H2); [reflexivity| |split; [exact H1|exact H2]].
  intros [d cx|c w|[|[|c]]|[|[|c]]|[|[|w]]|[|[|w]] r|[|[|c]]|[|[|w]]| | |c e] Hl; try discriminate Hl; try reflexivity.
  destruct c as [|[|c]], w as [|[|w]]; reflexivity.
Defined.

End Dispatch.
