(* ===== verification/EvalKit.v ===== *)
(** evalkit: running evaluation suites ([src/evalkit/evalkit.go]).

The harness, the graders, the context and the clock answer each question by a tick that every question advances. *)

From Stdlib Require Import QArith.QArith_base.
From S2P Require Import Prelude Float64.
#[local] Open Scope Z_scope.

Module Eval.

(** * Data *)

Record Task := mkTask { tk_ID : string; tk_Input : string; tk_SuccessCriteria : string; tk_Metadata : Metadata }.
#[global] Instance eta_Task : Eta Task := λ t, mkTask (tk_ID t) (tk_Input t) (tk_SuccessCriteria t) (tk_Metadata t).

Record Outcome := mkOutcome { oc_Status : string; oc_OutputRef : string; oc_ErrorCode : string; oc_Metadata : Metadata }.
#[global] Instance eta_Outcome : Eta Outcome := λ o, mkOutcome (oc_Status o) (oc_OutputRef o) (oc_ErrorCode o) (oc_Metadata o).

Record TraceStep := mkTraceStep {
  ts_Type : string; ts_Name : string; ts_Status : string; ts_Message : string; ts_StartedAt : Time; ts_EndedAt : Time;
  ts_Metadata : Metadata
}.
#[global] Instance eta_TraceStep : Eta TraceStep := λ s,
  mkTraceStep (ts_Type s) (ts_Name s) (ts_Status s) (ts_Message s) (ts_StartedAt s) (ts_EndedAt s) (ts_Metadata s).

Record Usage := mkUsage { InputTokens : Z; OutputTokens : Z; ToolCalls : Z; LLMCalls : Z }.
Record Trace := mkTrace { tr_RunID : string; tr_Steps : list TraceStep; tr_Usage : Usage; tr_Labels : gmap string string }.
#[global] Instance eta_Trace : Eta Trace := λ t, mkTrace (tr_RunID t) (tr_Steps t) (tr_Usage t) (tr_Labels t).

Record RunResult := mkRunResult { rr_Output : string; rr_Outcome : Outcome; rr_Trace : Trace; rr_Metadata : Metadata }.

Record Assertion := mkAssertion { as_Name : string; as_Passed : bool; as_Message : string }.
Record GradeResult := mkGrade {
  gr_Name : string; gr_Score : float64; gr_Passed : bool; gr_Message : string; gr_Assertions : list Assertion;
  gr_Metadata : Metadata
}.
#[global] Instance eta_GradeResult : Eta GradeResult := λ g,
  mkGrade (gr_Name g) (gr_Score g) (gr_Passed g) (gr_Message g) (gr_Assertions g) (gr_Metadata g).

Record Trial := mkTrial {
  TaskID : string; TrialIndex : Z; Output : string; TrialOutcome : Outcome; TrialTrace : Trace; TrialError : string;
  StartedAt : Time; FinishedAt : Time; TrialDuration : Duration; TrialMetadata : Metadata
}.
#[global] Instance eta_Trial : Eta Trial := λ t,
  mkTrial (TaskID t) (TrialIndex t) (Output t) (TrialOutcome t) (TrialTrace t) (TrialError t) (StartedAt t) (FinishedAt t)
    (TrialDuration t) (TrialMetadata t).
Record TrialResult := mkTrialResult { res_Trial : Trial; Grades : list GradeResult; Passed : bool; Message : string }.

Record Summary := mkSummary {
  TotalTrials : Z; PassedTrials : Z; FailedTrials : Z; TaskCount : Z; GraderCount : Z; SummaryDuration : Duration
}.
Record SuiteResult := mkSuiteResult {
  SuiteName : string; SuiteStartedAt : Time; SuiteFinishedAt : Time; SuiteSummary : Summary; Trials : list TrialResult
}.

Definition zeroOutcome : Outcome := mkOutcome "" "" "" ∅.
Definition zeroTrace : Trace := mkTrace "" [] (mkUsage 0 0 0 0) ∅.

(** What a grader returns: a value that may be nil, or an error by its text. *)
Abbreviation reply A := (res string (option A)).

(** What the harness returns: a result that may be nil and an error that may be nil, both at once when it likes. *)
Abbreviation harness_reply := (option RunResult * option string)%type.

(** [Grader]; [None] is the nil interface. *)
Record Grader := mkGrader { Name : string; Grade : nat → Task → Trial → reply GradeResult }.

(** [GraderFunc.Grade]. *)
Definition GraderFunc (quote : string → string) (name : string) (fn : option (nat → Task → Trial → reply GradeResult)) : Grader :=
  mkGrader name (λ tick task trial,
    match fn with
    | None => Err ("grader " +:+ quote name +:+ " has no function")
    | Some fn => fn tick task trial
    end).

Record Suite := mkSuite { su_Name : string; su_Tasks : list Task; su_Graders : list (option Grader) }.

(** * Copies *)

Definition cloneMetadata (m : Metadata) : Metadata := map_clone m.
Definition cloneTask (t : Task) : Task := t <| tk_Metadata := cloneMetadata (tk_Metadata t) |>.
Definition cloneOutcome (o : Outcome) : Outcome := o <| oc_Metadata := cloneMetadata (oc_Metadata o) |>.
Definition cloneTraceSteps (steps : list TraceStep) : list TraceStep :=
  if decide (length steps = 0%nat) then [] else (λ s, s <| ts_Metadata := cloneMetadata (ts_Metadata s) |>) <$> steps.
Definition cloneTrace (t : Trace) : Trace :=
  let t := t <| tr_Steps := cloneTraceSteps (tr_Steps t) |> in
  if decide (0 < size (tr_Labels t))%nat then t <| tr_Labels := map_clone (tr_Labels t) |> else t.
Definition cloneGradeResult (g : GradeResult) : GradeResult :=
  g <| gr_Assertions := [] ++ gr_Assertions g |> <| gr_Metadata := cloneMetadata (gr_Metadata g) |>.

(** * Running *)

Section runner.
(** The context, the clock and the harness, by the tick. *)
Context (ctx : nat → Ctx) (now : nat → Time) (harness : option (nat → Task → harness_reply)).
Context (quote : string → string) (TrialsPerTask : Z).

Inductive Error := ErrText (text : string) | ErrCtx (e : CtxErr).

(** The task IDs seen so far, and the number of the next task. *)
Fixpoint validate_tasks (i : nat) (seen : list string) (tasks : list Task) : option Error :=
  match tasks with
  | [] => None
  | task :: tasks =>
      let id := TrimSpace (tk_ID task) in
      if decide (id = "") then Some (ErrText ("task " +:+ pretty i +:+ " id is required"))
      else if decide (id ∈ seen) then Some (ErrText ("duplicate task id " +:+ quote id))
      else validate_tasks (S i) (id :: seen) tasks
  end.
Fixpoint validate_graders (i : nat) (graders : list (option Grader)) : option Error :=
  match graders with
  | [] => None
  | None :: _ => Some (ErrText ("grader " +:+ pretty i +:+ " is nil"))
  | Some _ :: graders => validate_graders (S i) graders
  end.
Definition validateSuite (suite : Suite) : option Error :=
  if decide (length (su_Tasks suite) = 0%nat) then Some (ErrText "eval suite requires at least one task")
  else match validate_tasks 0 [] (su_Tasks suite) with
  | Some e => Some e
  | None => validate_graders 0 (su_Graders suite)
  end.

Definition assertionsPassed (l : list Assertion) : bool := forallb as_Passed l.

Definition runGrader (tick : nat) (grader : Grader) (task : Task) (trial : Trial) : GradeResult :=
  let name := if decide (TrimSpace (Name grader) = "") then "unnamed" else Name grader in
  match Grade grader tick task trial with
  | Err text => mkGrade name 0%Q false text [] ∅
  | Ok None => mkGrade name 0%Q false "grader returned nil result" [] ∅
  | Ok (Some result) =>
      let grade := cloneGradeResult result in
      let grade := if decide (TrimSpace (gr_Name grade) = "") then grade <| gr_Name := name |> else grade in
      if decide (0 < length (gr_Assertions grade))%nat
      then grade <| gr_Passed := assertionsPassed (gr_Assertions grade) |> else grade
  end.

(** The graders in turn, each at a tick of its own; nil ones were refused. *)
Fixpoint grade_all (tick : nat) (graders : list (option Grader)) (task : Task) (trial : Trial) : list GradeResult :=
  match graders with
  | [] => []
  | Some grader :: graders => runGrader tick grader task trial :: grade_all (S tick) graders task trial
  | None :: graders => grade_all (S tick) graders task trial
  end.

(** A trial and the next tick: context, clock, harness, clock, graders. *)
Definition runTrial (run : nat → Task → harness_reply) (tick : nat) (task : Task) (index : Z) (graders : list (option Grader))
    : res Error TrialResult * nat :=
  match ctx tick with
  | Some e => (Err (ErrCtx e), S tick)
  | None =>
      let started := now (S tick) in
      let '(result, err) := run (S (S tick)) task in
      let finished := now (S (S (S tick))) in
      let next := S (S (S (S tick))) in
      let trial := mkTrial (tk_ID task) index "" zeroOutcome zeroTrace "" started finished (TimeSub finished started) ∅ in
      let trial := match result with
        | Some run => trial <| Output := rr_Output run |> <| TrialOutcome := cloneOutcome (rr_Outcome run) |>
                            <| TrialTrace := cloneTrace (rr_Trace run) |> <| TrialMetadata := cloneMetadata (rr_Metadata run) |>
        | None => trial
        end in
      match err with
      | Some text => (Ok (mkTrialResult (trial <| TrialError := text |>) [] false text), next)
      | None =>
          let grades := grade_all next graders task trial in
          (Ok (mkTrialResult trial grades (forallb gr_Passed grades) ""), (next + length graders)%nat)
      end
  end.

(** The trials of a task with the given indexes, and of all tasks. *)
Fixpoint task_trials run (tick : nat) (task : Task) (indexes : list Z) (graders : list (option Grader))
    : res Error (list TrialResult) * nat :=
  match indexes with
  | [] => (Ok [], tick)
  | i :: indexes =>
      match runTrial run tick task i graders with
      | (Err e, tick) => (Err e, tick)
      | (Ok t, tick) =>
          match task_trials run tick task indexes graders with
          | (Err e, tick) => (Err e, tick)
          | (Ok ts, tick) => (Ok (t :: ts), tick)
          end
      end
  end.
Fixpoint all_trials run (tick : nat) (tasks : list Task) (trialsPerTask : Z) (graders : list (option Grader))
    : res Error (list TrialResult) * nat :=
  match tasks with
  | [] => (Ok [], tick)
  | task :: tasks =>
      match task_trials run tick (cloneTask task) (seqZ 1 trialsPerTask) graders with
      | (Err e, tick) => (Err e, tick)
      | (Ok ts, tick) =>
          match all_trials run tick tasks trialsPerTask graders with
          | (Err e, tick) => (Err e, tick)
          | (Ok rest, tick) => (Ok (ts ++ rest), tick)
          end
      end
  end.

Definition count_trial (s : Summary) (t : TrialResult) : Summary :=
  if Passed t
  then mkSummary (TotalTrials s) (PassedTrials s + 1) (FailedTrials s) (TaskCount s) (GraderCount s) (SummaryDuration s)
  else mkSummary (TotalTrials s) (PassedTrials s) (FailedTrials s + 1) (TaskCount s) (GraderCount s) (SummaryDuration s).
Definition summarize (trials : list TrialResult) (started finished : Time) (taskCount graderCount : Z) : Summary :=
  foldl count_trial (mkSummary (Z.of_nat (length trials)) 0 0 taskCount graderCount (TimeSub finished started)) trials.

(** [Runner.Run]. *)
Definition Run (suite : Suite) : res Error SuiteResult :=
  match ctx 0 with
  | Some e => Err (ErrCtx e)
  | None =>
      match harness with
      | None => Err (ErrText "eval harness is required")
      | Some run =>
          let trialsPerTask := if decide (TrialsPerTask ≤ 0) then 1 else TrialsPerTask in
          match validateSuite suite with
          | Some e => Err e
          | None =>
              let started := now 1 in
              match all_trials run 2 (su_Tasks suite) trialsPerTask (su_Graders suite) with
              | (Err e, _) => Err e
              | (Ok trials, tick) =>
                  let finished := now tick in
                  Ok (mkSuiteResult (su_Name suite) started finished
                    (summarize trials started finished (Z.of_nat (length (su_Tasks suite))) (Z.of_nat (length (su_Graders suite))))
                    trials)
              end
          end
      end
  end.

(** * Properties *)

Lemma count_trials l s :
  let s' := foldl count_trial s l in
  TotalTrials s' = TotalTrials s ∧ PassedTrials s' = PassedTrials s + Z.of_nat (length (filter (λ t, Passed t = true) l)) ∧
  FailedTrials s' = FailedTrials s + Z.of_nat (length (filter (λ t, Passed t = false) l)) ∧
  TaskCount s' = TaskCount s ∧ GraderCount s' = GraderCount s.
Proof.
  revert s. induction l as [|t l IH]; intros s; cbn [foldl]; [cbn; split_and!; lia|].
  destruct (IH (count_trial s t)) as (H1 & H2 & H3 & H4 & H5). cbv zeta in *. rewrite H1, H2, H3, H4, H5, !filter_cons.
  unfold count_trial. destruct (Passed t); cbn [TotalTrials PassedTrials FailedTrials TaskCount GraderCount];
    repeat case_decide; try done; cbn [length]; split_and!; lia.
Qed.

Lemma summarize_counts trials started finished tc gc :
  let s := summarize trials started finished tc gc in
  TotalTrials s = Z.of_nat (length trials) ∧
  PassedTrials s = Z.of_nat (length (filter (λ t, Passed t = true) trials)) ∧
  FailedTrials s = Z.of_nat (length (filter (λ t, Passed t = false) trials)) ∧ TaskCount s = tc ∧ GraderCount s = gc.
Proof. apply count_trials. Qed.

(** What a trial reports: the harness failed, or every grade counts. *)
Definition trial_ok (graders : list (option Grader)) (t : TrialResult) : Prop :=
  (Passed t = true ↔ TrialError (res_Trial t) = "" ∧ length (Grades t) = length graders ∧ Forall (λ g, gr_Passed g = true) (Grades t)) ∧
  Forall (λ g, gr_Assertions g ≠ [] → gr_Passed g = assertionsPassed (gr_Assertions g)) (Grades t).

Lemma runGrader_assertions tick g task trial :
  let grade := runGrader tick g task trial in gr_Assertions grade ≠ [] → gr_Passed grade = assertionsPassed (gr_Assertions grade).
Proof.
  unfold runGrader. destruct (Grade g tick task trial) as [[result|]|text]; cbn -[TrimSpace]; try done.
  set (g1 := if decide (TrimSpace _ = "") then _ else _). intros Hne. destruct (decide (0 < length (gr_Assertions g1))%nat) as [Hl|Hl].
  - by destruct g1.
  - exfalso. apply Hne. destruct (gr_Assertions g1); [done|]. cbn in Hl. lia.
Qed.

Lemma grade_all_spec tick graders task trial :
  Forall (λ g, is_Some g) graders →
  length (grade_all tick graders task trial) = length graders ∧
  Forall (λ g, gr_Assertions g ≠ [] → gr_Passed g = assertionsPassed (gr_Assertions g)) (grade_all tick graders task trial).
Proof.
  intros H. revert tick. induction H as [|g graders [g' ->] _ IH]; intros tick; cbn; [by split; [|constructor]|].
  destruct (IH (S tick)) as [H1 H2]. split; [by rewrite H1|]. constructor; [apply runGrader_assertions|done].
Qed.

(** The harness never fails with an empty message. *)
Definition errors_named (run : nat → Task → harness_reply) : Prop := ∀ tick task, (run tick task).2 ≠ Some "".

Lemma runTrial_spec run tick task i graders t tick' :
  errors_named run → Forall (λ g, is_Some g) graders → runTrial run tick task i graders = (Ok t, tick') →
  TaskID (res_Trial t) = tk_ID task ∧ TrialIndex (res_Trial t) = i ∧ trial_ok graders t.
Proof.
  intros Hn Hg. unfold runTrial. destruct (ctx tick); [done|]. pose proof (Hn (S (S tick)) task) as Hne.
  destruct (run (S (S tick)) task) as [result err]. cbv zeta. set (trial := match result with Some _ => _ | None => _ end).
  assert (TaskID trial = tk_ID task ∧ TrialIndex trial = i ∧ TrialError trial = "") as (Et & Ei & He) by (unfold trial; by destruct result).
  clearbody trial. destruct err as [text|]; intros [= <- _]; cbn.
  - destruct trial. cbn in *. split_and!; [done..|]. split; cbn; [|constructor]. split; [done|]. intros (-> & _). done.
  - destruct (grade_all_spec (S (S (S (S tick)))) graders task trial Hg) as [Hl Ha]. split_and!; [done..|]. split; cbn; [|done].
    rewrite He, Hl, forallb_forall. split.
    + intros Hall. split_and!; [done..|]. apply Forall_forall. intros g Hin. by apply Hall, list_elem_of_In.
    + intros (_ & _ & Hall) g Hin%list_elem_of_In. rewrite Forall_forall in Hall. by apply Hall.
Qed.

Lemma task_trials_spec run tick task indexes graders ts tick' :
  errors_named run → Forall (λ g, is_Some g) graders → task_trials run tick task indexes graders = (Ok ts, tick') →
  (λ t, (TaskID (res_Trial t), TrialIndex (res_Trial t))) <$> ts = (tk_ID task,.) <$> indexes ∧ Forall (trial_ok graders) ts.
Proof.
  intros Hn Hg. revert tick ts tick'. induction indexes as [|i indexes IH]; intros tick ts tick'; cbn [task_trials];
    [intros [= <- _]; by split|].
  destruct (runTrial run tick task i graders) as [[t|e] tick1] eqn:Et; [|done].
  destruct (task_trials run tick1 task indexes graders) as [[rest|e] tick2] eqn:Er; [|done]. intros [= <- _].
  destruct (runTrial_spec _ _ _ _ _ _ _ Hn Hg Et) as (E1 & E2 & Hok). destruct (IH _ _ _ Er) as [IH1 IH2].
  rewrite !fmap_cons, E1, E2, IH1. by split; [|constructor].
Qed.

Lemma all_trials_spec run tick tasks n graders ts tick' :
  errors_named run → Forall (λ g, is_Some g) graders → all_trials run tick tasks n graders = (Ok ts, tick') →
  (λ t, (TaskID (res_Trial t), TrialIndex (res_Trial t))) <$> ts = tasks ≫= (λ task, (tk_ID task,.) <$> seqZ 1 n) ∧
  Forall (trial_ok graders) ts.
Proof.
  intros Hn Hg. revert tick ts tick'. induction tasks as [|task tasks IH]; intros tick ts tick'; cbn [all_trials];
    [intros [= <- _]; by split|].
  destruct (task_trials run tick (cloneTask task) (seqZ 1 n) graders) as [[ts1|e] tick1] eqn:Et; [|done].
  destruct (all_trials run tick1 tasks n graders) as [[rest|e] tick2] eqn:Er; [|done]. intros [= <- _].
  destruct (task_trials_spec _ _ _ _ _ _ _ Hn Hg Et) as [E1 H1]. destruct (IH _ _ _ Er) as [IH1 IH2].
  rewrite fmap_app, E1, IH1. split; [|by apply Forall_app]. done.
Qed.

Lemma validate_graders_some i graders : validate_graders i graders = None → Forall (λ g, is_Some g) graders.
Proof. revert i. induction graders as [|[g|] l IH]; intros i; cbn; [constructor| |done]. intros H. constructor; [done|by eapply IH]. Qed.

Lemma validate_tasks_distinct i seen tasks :
  validate_tasks i seen tasks = None →
  NoDup ((λ t, TrimSpace (tk_ID t)) <$> tasks) ∧ Forall (λ t, TrimSpace (tk_ID t) ≠ "" ∧ TrimSpace (tk_ID t) ∉ seen) tasks.
Proof.
  revert i seen. induction tasks as [|t tasks IH]; intros i seen; cbn -[TrimSpace]; [by repeat constructor|].
  case_decide as He; [done|]. case_decide as Hs; [done|]. intros H. destruct (IH _ _ H) as [H1 H2]. split.
  - constructor; [|done]. intros (t' & E & Hin)%list_elem_of_fmap. rewrite Forall_forall in H2. destruct (H2 t' Hin) as [_ Hn].
    apply Hn. rewrite <-E. by left.
  - constructor; [done|]. eapply Forall_impl; [exact H2|]. cbn -[TrimSpace]. intros t' [? Hn]. split; [done|]. intros ?. apply Hn. by right.
Qed.

(** A finished suite has distinct named tasks and reports exactly one trial per task and index, in order; a trial
passes exactly when its harness run succeeded and every grader passed it, where a grade with assertions is their conjunction;
and the summary counts the trials. *)
Theorem suite_report_exact suite result :
  (∀ run, harness = Some run → errors_named run) → Run suite = Ok result →
  let n := if decide (TrialsPerTask ≤ 0) then 1 else TrialsPerTask in
  NoDup ((λ t, TrimSpace (tk_ID t)) <$> su_Tasks suite) ∧
  (λ t, (TaskID (res_Trial t), TrialIndex (res_Trial t))) <$> Trials result = su_Tasks suite ≫= (λ task, (tk_ID task,.) <$> seqZ 1 n) ∧
  Forall (trial_ok (su_Graders suite)) (Trials result) ∧
  TotalTrials (SuiteSummary result) = Z.of_nat (length (Trials result)) ∧
  PassedTrials (SuiteSummary result) = Z.of_nat (length (filter (λ t, Passed t = true) (Trials result))) ∧
  PassedTrials (SuiteSummary result) + FailedTrials (SuiteSummary result) = TotalTrials (SuiteSummary result).
Proof.
  intros Hn. unfold Run. destruct (ctx 0); [done|]. destruct harness as [run|]; [|done]. specialize (Hn run eq_refl). cbv zeta.
  destruct (validateSuite suite) eqn:Hv; [done|]. unfold validateSuite in Hv. case_decide; [done|].
  destruct (validate_tasks 0 [] (su_Tasks suite)) eqn:Ht; [done|]. apply validate_graders_some in Hv.
  destruct (all_trials run 2 (su_Tasks suite) _ (su_Graders suite)) as [[trials|e] tick] eqn:Ea; [|done]. intros [= <-]. cbn [Trials SuiteSummary].
  destruct (all_trials_spec _ _ _ _ _ _ _ Hn Hv Ea) as [E1 E2].
  destruct (summarize_counts trials (now 1) (now tick) (Z.of_nat (length (su_Tasks suite))) (Z.of_nat (length (su_Graders suite))))
    as (C1 & C2 & C3 & _). split_and!; [by eapply validate_tasks_distinct|done..|]. rewrite C1, C2, C3. clear.
  induction trials as [|t trials IH]; [done|]. rewrite !filter_cons. destruct (Passed t); repeat case_decide; try done; cbn [length]; lia.
Qed.

End runner.

(** Two tasks, two trials each; the harness fails on the second task, the grader asserts on the output. *)
Definition demo_grader : Grader := mkGrader "exact" (λ _ task trial,
  Ok (Some (mkGrade "" 1%Q true "" [mkAssertion "output" (bool_decide (Output trial = tk_Input task)) ""] ∅))).
Definition demo_harness (_ : nat) (task : Task) : harness_reply :=
  if decide (tk_ID task = "b") then (None, Some "down") else (Some (mkRunResult (tk_Input task) zeroOutcome zeroTrace ∅), None).
Definition demo_suite : Suite := mkSuite "demo" [mkTask "a" "x" "" ∅; mkTask "b" "y" "" ∅] [Some demo_grader].

Lemma suite_report_exact_witness :
  match Run (λ _, None) (λ t, Z.of_nat t) (Some demo_harness) id 2 demo_suite with
  | Ok r => (λ t, (TaskID (res_Trial t), TrialIndex (res_Trial t))) <$> Trials r = [("a", 1); ("a", 2); ("b", 1); ("b", 2)] ∧
            PassedTrials (SuiteSummary r) = 2
  | Err _ => False
  end.
Proof.
  destruct (Run (λ _, None) (λ t, Z.of_nat t) (Some demo_harness) id 2 demo_suite) as [r|e] eqn:E; [|vm_compute in E; discriminate E].
  destruct (suite_report_exact (λ _, None) (λ t, Z.of_nat t) (Some demo_harness) id 2 demo_suite r) as (_ & H1 & _ & _ & H2 & _);
    [intros run [= <-] tick task; unfold demo_harness; case_decide; discriminate|exact E|].
  split; [rewrite H1; reflexivity|]. vm_compute in E. injection E as <-. reflexivity.
Defined.

End Eval.
