(* ===== verification/ArtifactStore.v ===== *)
(** artifactkit: artifacts in memory and in files ([src/artifactkit/store.go], [filestore.go]).

The file store is a machine over a directory of inodes: [step] is one system call of a [Put] or a
[Get], so that any number of them interleave, and any call may fail. [encoding/json] is a parameter; base64 is
modelled, as file names are made of it. *)

From S2P Require Import Prelude GoPath.
#[local] Open Scope nat_scope.

(** * base64 *)

Module Base64.

(** [base64.RawURLEncoding]: the alphabet of URLs, without padding. *)
Definition alphabet : list ascii :=
  String.list_ascii_of_string "ABCDEFGHIJKLMNOPQRSTUVWXYZabcdefghijklmnopqrstuvwxyz0123456789-_".
Definition digit (z : Z) : ascii := nth (Z.to_nat (Z.land z 63)) alphabet "A"%char.
Definition byte_val (c : ascii) : Z := Z.of_nat (nat_of_ascii c).

Fixpoint encode (l : list ascii) : list ascii :=
  match l with
  | a :: b :: c :: l =>
      let val := (Z.shiftl (byte_val a) 16 + Z.shiftl (byte_val b) 8 + byte_val c)%Z in
      digit (Z.shiftr val 18) :: digit (Z.shiftr val 12) :: digit (Z.shiftr val 6) :: digit val :: encode l
  | [a; b] =>
      let val := (Z.shiftl (byte_val a) 16 + Z.shiftl (byte_val b) 8)%Z in
      [digit (Z.shiftr val 18); digit (Z.shiftr val 12); digit (Z.shiftr val 6)]
  | [a] =>
      let val := Z.shiftl (byte_val a) 16 in
      [digit (Z.shiftr val 18); digit (Z.shiftr val 12)]
  | [] => []
  end.
Definition EncodeToString (s : string) : string := String.string_of_list_ascii (encode (String.list_ascii_of_string s)).

Example encode_sample : EncodeToString "artifact:a?" = "YXJ0aWZhY3Q6YT8".
Proof. reflexivity. Qed.

(** Two digits that agree come from values that agree modulo 64. *)
Lemma digit_inj x y : digit x = digit y → (x `mod` 64 = y `mod` 64)%Z.
Proof.
  unfold digit. change 63%Z with (Z.ones 6). rewrite !Z.land_ones by lia. change (2 ^ 6)%Z with 64%Z.
  set (i := Z.to_nat (x `mod` 64)). set (j := Z.to_nat (y `mod` 64)). intros H.
  assert (i = j) as Hij; [|unfold i, j in Hij; apply Z2Nat.inj in Hij; try done; apply Z.mod_pos_bound; lia].
  eapply (NoDup_nth alphabet "A"%char); [|change (length alphabet) with 64..|exact H].
  - apply NoDup_ListNoDup, (bool_decide_unpack _). vm_compute. done.
  - unfold i. pose proof (Z.mod_pos_bound x 64). lia.
  - unfold j. pose proof (Z.mod_pos_bound y 64). lia.
Qed.

Lemma digit_alphabet z : digit z ∈ alphabet.
Proof.
  unfold digit. apply list_elem_of_In, nth_In. change 63%Z with (Z.ones 6). rewrite Z.land_ones by lia.
  pose proof (Z.mod_pos_bound z (2 ^ 6)). change (length alphabet) with 64. change (2 ^ 6)%Z with 64%Z in *. lia.
Qed.

Lemma byte_val_bound c : (0 ≤ byte_val c < 256)%Z.
Proof. unfold byte_val. pose proof (nat_ascii_bounded c). lia. Qed.
Lemma byte_val_inj a b : byte_val a = byte_val b → a = b.
Proof. unfold byte_val. intros H%Nat2Z.inj. rewrite <-(ascii_nat_embedding a), <-(ascii_nat_embedding b). by rewrite H. Qed.

(** The three bytes of a group from its digits. *)
Lemma group_inj x y : (0 ≤ x < 2 ^ 24)%Z → (0 ≤ y < 2 ^ 24)%Z →
  digit (Z.shiftr x 18) = digit (Z.shiftr y 18) → digit (Z.shiftr x 12) = digit (Z.shiftr y 12) →
  (Z.shiftr x 12 = Z.shiftr y 12 ∧
   (digit (Z.shiftr x 6) = digit (Z.shiftr y 6) → Z.shiftr x 6 = Z.shiftr y 6 ∧ (digit x = digit y → x = y)))%Z.
Proof.
  intros Hx Hy H1%digit_inj H2%digit_inj. rewrite !Z.shiftr_div_pow2 in * by lia.
  change (2 ^ 18)%Z with 262144%Z in *. change (2 ^ 12)%Z with 4096%Z in *. change (2 ^ 6)%Z with 64%Z in *.
  change (2 ^ 24)%Z with 16777216%Z in *. assert (x `div` 4096 = y `div` 4096)%Z as E2.
  { Z.div_mod_to_equations. lia. }
  split; [done|]. intros H3%digit_inj. assert (x `div` 64 = y `div` 64)%Z as E3 by (clear H1 H2; Z.div_mod_to_equations; lia).
  split; [done|]. intros H4%digit_inj. clear H1 H2 H3 E2. Z.div_mod_to_equations. lia.
Qed.

(** The bytes of a group, full or not. *)
Lemma group_bytes a b c a' b' c' :
  let val := (Z.shiftl (byte_val a) 16 + Z.shiftl (byte_val b) 8 + byte_val c)%Z in
  let val' := (Z.shiftl (byte_val a') 16 + Z.shiftl (byte_val b') 8 + byte_val c')%Z in
  digit (Z.shiftr val 18) = digit (Z.shiftr val' 18) → digit (Z.shiftr val 12) = digit (Z.shiftr val' 12) →
  a = a' ∧ (digit (Z.shiftr val 6) = digit (Z.shiftr val' 6) → b = b' ∧ (digit val = digit val' → c = c')).
Proof.
  intros val val' D1 D2. pose proof (byte_val_bound a). pose proof (byte_val_bound b). pose proof (byte_val_bound c).
  pose proof (byte_val_bound a'). pose proof (byte_val_bound b'). pose proof (byte_val_bound c').
  subst val val'. rewrite !Z.shiftl_mul_pow2 in * by lia. change (2 ^ 16)%Z with 65536%Z in *. change (2 ^ 8)%Z with 256%Z in *.
  edestruct group_inj as [E1 E2]; [| |exact D1|exact D2|]; [change (2 ^ 24)%Z with 16777216%Z; lia..|]. clear D1 D2.
  rewrite !Z.shiftr_div_pow2 in E1 by lia. change (2 ^ 12)%Z with 4096%Z in E1. split.
  - apply byte_val_inj. clear E2. Z.div_mod_to_equations. lia.
  - intros D3. destruct (E2 D3) as [E3 E4]. clear E2 D3. rewrite !Z.shiftr_div_pow2 in E3 by lia. change (2 ^ 6)%Z with 64%Z in E3. split.
    + apply byte_val_inj. clear E4. Z.div_mod_to_equations. lia.
    + intros D4. specialize (E4 D4). apply byte_val_inj. clear E1 E3 D4. lia.
Qed.

(** A missing byte of the last group counts as zero. *)
Lemma val_two a b : (Z.shiftl (byte_val a) 16 + Z.shiftl (byte_val b) 8)%Z =
  (Z.shiftl (byte_val a) 16 + Z.shiftl (byte_val b) 8 + byte_val zero)%Z.
Proof. by rewrite Z.add_0_r. Qed.
Lemma val_one a : Z.shiftl (byte_val a) 16 = (Z.shiftl (byte_val a) 16 + Z.shiftl (byte_val zero) 8 + byte_val zero)%Z.
Proof. change (byte_val zero) with 0%Z. by rewrite Z.shiftl_0_l, !Z.add_0_r. Qed.

(** Encodings are equal only for equal bytes. *)
Lemma encode_inj l l' : encode l = encode l' → l = l'.
Proof.
  remember (length l) as n eqn:Hn. revert l l' Hn. induction n as [n IH] using lt_wf_ind. intros l l' ->.
  destruct l as [|a [|b [|c l]]], l' as [|a' [|b' [|c' l']]]; cbn [encode]; cbv zeta; try done.
  - rewrite (val_one a), (val_one a'). intros [= H1 H2]. by destruct (group_bytes _ _ _ _ _ _ H1 H2) as [-> _].
  - rewrite (val_two a b), (val_two a' b'). intros [= H1 H2 H3]. destruct (group_bytes _ _ _ _ _ _ H1 H2) as [-> H].
    by destruct (H H3) as [-> _].
  - intros [= H1 H2 H3 H4 H5]. destruct (group_bytes _ _ _ _ _ _ H1 H2) as [-> H]. destruct (H H3) as [-> H']. rewrite (H' H4).
    rewrite (IH (length l)) with (l := l) (l' := l'); [done|cbn; lia|done|done].
Qed.

Lemma encode_alphabet l : Forall (.∈ alphabet) (encode l).
Proof.
  remember (length l) as n eqn:Hn. revert l Hn. induction n as [n IH] using lt_wf_ind. intros l ->.
  destruct l as [|a [|b [|c l]]]; cbn [encode]; cbv zeta; repeat (constructor; [apply digit_alphabet|]); try constructor.
  by eapply IH; [|reflexivity]; cbn; lia.
Qed.

Lemma EncodeToString_inj s s' : EncodeToString s = EncodeToString s' → s = s'.
Proof.
  unfold EncodeToString. intros H. apply (f_equal String.list_ascii_of_string) in H. rewrite !String.list_ascii_of_string_of_list_ascii in H.
  apply encode_inj, (f_equal String.string_of_list_ascii) in H. by rewrite !String.string_of_list_ascii_of_string in H.
Qed.

End Base64.

Module Artifacts.

(** * Data *)

Record Artifact := mkArtifact { Ref : string; Content : string; ContentType : string; Meta : Metadata }.
#[global] Instance eta_Artifact : Eta Artifact := λ a, mkArtifact (Ref a) (Content a) (ContentType a) (Meta a).
#[global] Instance Artifact_eq_dec : EqDecision Artifact.
Proof. solve_decision. Defined.

Definition cloneMetadata (m : Metadata) : Metadata := map_clone m.
Definition cloneArtifact (a : Artifact) : Artifact :=
  a <| Content := "" +:+ Content a |> <| Meta := cloneMetadata (Meta a) |>.

Lemma cloneArtifact_id a : cloneArtifact a = a.
Proof. destruct a. unfold cloneArtifact, cloneMetadata. cbn. by rewrite map_clone_id. Qed.

Inductive Error :=
| ErrCtx (e : CtxErr)
| ErrRootRequired
| ErrRefRequired
| ErrArtifactNotFound (ref : string)
| ErrEncode
| ErrDecode
| ErrNotExist        (** of [os.Rename] *)
| ErrIO.             (** any other failure of the file system *)

(** * [MemoryStore] *)

Abbreviation store := (gmap string Artifact).
Definition NewMemoryStore : store := ∅.
Definition Put (ctx : Ctx) (a : Artifact) (s : store) : store * option Error :=
  if ctx is Some e then (s, Some (ErrCtx e))
  else if decide (Blank (Ref a)) then (s, Some ErrRefRequired)
  else (<[Ref a := cloneArtifact a]> s, None).
Definition Get (ctx : Ctx) (ref : string) (s : store) : res Error Artifact :=
  if ctx is Some e then Err (ErrCtx e)
  else match s !! ref with Some a => Ok (cloneArtifact a) | None => Err (ErrArtifactNotFound ref) end.

(** * [FileStore] *)

Record fileArtifact := mkFile { f_Ref : string; f_Content : string; f_ContentType : string; f_Metadata : Metadata; f_CreatedAt : Time }.
#[global] Instance fileArtifact_eq_dec : EqDecision fileArtifact.
Proof. solve_decision. Defined.

(** [NewFileStore]: the root it keeps; [made] tells whether [os.MkdirAll] succeeded. *)
Definition NewFileStore (root : string) (made : bool) : res Error string :=
  if decide (Blank root) then Err ErrRootRequired
  else if made then Ok (Clean root) else Err ErrIO.

Section files.
(** [json.MarshalIndent] and [json.Unmarshal] of a record. *)
Context (Marshal : fileArtifact → option string) (Unmarshal : string → option fileArtifact) (root : string).

(** [filepath.Join] of three elements. *)
Definition path (ref : string) : string :=
  Clean (root +:+ "/" +:+ "objects" +:+ "/" +:+ Base64.EncodeToString ref +:+ ".json").
Definition tmp (ref : string) : string := path ref +:+ ".tmp".
Definition newline : string := String "010" "".

Definition record_of (a : Artifact) (now : Time) : fileArtifact :=
  mkFile (Ref a) ("" +:+ Content a) (ContentType a) (cloneMetadata (Meta a)) now.
Definition artifact_of (r : fileArtifact) : Artifact :=
  cloneArtifact (mkArtifact (f_Ref r) (f_Content r) (f_ContentType r) (f_Metadata r)).

(** A call of [Put] or [Get], by what it does next. *)
Inductive proc :=
| Opening (a : Artifact) (data : string)          (** before [os.WriteFile] opens the file *)
| Writing (a : Artifact) (data : string) (ino : nat)
| Renaming (a : Artifact) (data : string)         (** before the second look at the context *)
| PutReturned (a : Artifact) (err : option Error)
| Reading (ref : string) (ino : nat)              (** [os.ReadFile] has opened the file *)
| GetReturned (ref : string) (r : res Error Artifact).

(** Calls take effect on the store at these moments. *)
Inductive event := EPut (p : nat) (a : Artifact) | EGet (p : nat) (ref : string).

Record state := mkState {
  dir : gmap string nat;      (** names to inodes *)
  inodes : gmap nat string;   (** the content of every inode, linked or not *)
  procs : list proc;
  log : list event            (** when calls took effect, latest last *)
}.
#[global] Instance eta_state : Eta state := λ s, mkState (dir s) (inodes s) (procs s) (log s).

Definition empty : state := mkState ∅ ∅ [] [].

(** Bytes written from the start of a file. *)
Definition overwrite (old data : string) : string := data +:+ drop_string (String.length data) old.
Fixpoint take_string (n : nat) (s : string) : string :=
  match n, s with S n, String c s => String c (take_string n s) | _, _ => "" end.

Inductive label :=
| LPut (ctx : Ctx) (a : Artifact) (now : Time)
| LOpen (p : nat) (ok : bool)
| LWrite (p : nat) (short : option nat)   (** the whole data, or an error after some bytes *)
| LRename (p : nat) (ctx : Ctx) (ok : bool)
| LGet (ctx : Ctx) (ref : string) (ok : bool)
| LRead (p : nat) (ok : bool).

Definition set_proc (p : nat) (q : proc) (s : state) : state := s <| procs := <[p := q]> (procs s) |>.
Definition spawn (q : proc) (s : state) : state := s <| procs := procs s ++ [q] |>.

(** [FileStore.Put] up to the call of [os.WriteFile]. *)
Definition Put_start (ctx : Ctx) (a : Artifact) (now : Time) : proc :=
  if ctx is Some e then PutReturned a (Some (ErrCtx e))
  else if decide (Blank (Ref a)) then PutReturned a (Some ErrRefRequired)
  else match Marshal (record_of a now) with
  | None => PutReturned a (Some ErrEncode)
  | Some encoded => Opening a (encoded +:+ newline)
  end.

(** [O_CREATE|O_TRUNC] of a temporary file. *)
Definition open_tmp (ref : string) (s : state) : nat * state :=
  let ino := match dir s !! tmp ref with Some ino => ino | None => fresh (dom (inodes s)) end in
  (ino, s <| dir := <[tmp ref := ino]> (dir s) |> <| inodes := <[ino := ""]> (inodes s) |>).

Definition step (l : label) (s : state) : option state :=
  match l with
  | LPut ctx a now => Some (spawn (Put_start ctx a now) s)
  | LOpen p ok =>
      match procs s !! p with
      | Some (Opening a data) =>
          if ok then let '(ino, s) := open_tmp (Ref a) s in Some (set_proc p (Writing a data ino) s)
          else Some (set_proc p (PutReturned a (Some ErrIO)) s)
      | _ => None
      end
  | LWrite p short =>
      match procs s !! p with
      | Some (Writing a data ino) =>
          let old := default "" (inodes s !! ino) in
          match short with
          | None => Some (set_proc p (Renaming a data) (s <| inodes := <[ino := overwrite old data]> (inodes s) |>))
          | Some n =>
              Some (set_proc p (PutReturned a (Some ErrIO)) (s <| inodes := <[ino := overwrite old (take_string n data)]> (inodes s) |>))
          end
      | _ => None
      end
  | LRename p ctx ok =>
      match procs s !! p with
      | Some (Renaming a _) =>
          match ctx with
          | Some e =>   (* [os.Remove], whose error is ignored *)
              let s := if ok then s <| dir := delete (tmp (Ref a)) (dir s) |> else s in
              Some (set_proc p (PutReturned a (Some (ErrCtx e))) s)
          | None =>
              if negb ok then Some (set_proc p (PutReturned a (Some ErrIO)) s)
              else match dir s !! tmp (Ref a) with
              | None => Some (set_proc p (PutReturned a (Some ErrNotExist)) s)
              | Some ino =>
                  let s := s <| dir := <[path (Ref a) := ino]> (delete (tmp (Ref a)) (dir s)) |> <| log := log s ++ [EPut p a] |> in
                  Some (set_proc p (PutReturned a None) s)
              end
          end
      | _ => None
      end
  | LGet ctx ref ok =>
      match ctx with
      | Some e => Some (spawn (GetReturned ref (Err (ErrCtx e))) s)
      | None =>
          if negb ok then Some (spawn (GetReturned ref (Err ErrIO)) s)
          else
            let s' := s <| log := log s ++ [EGet (length (procs s)) ref] |> in
            match dir s !! path ref with
            | None => Some (spawn (GetReturned ref (Err (ErrArtifactNotFound ref))) s')
            | Some ino => Some (spawn (Reading ref ino) s')
            end
      end
  | LRead p ok =>
      match procs s !! p with
      | Some (Reading ref ino) =>
          let r := if negb ok then Err ErrIO
                   else match Unmarshal (default "" (inodes s !! ino)) with
                        | None => Err ErrDecode
                        | Some r => Ok (artifact_of r)
                        end in
          Some (set_proc p (GetReturned ref r) s)
      | _ => None
      end
  end.

Fixpoint exec (ls : list label) (s : state) : option state :=
  match ls with
  | [] => Some s
  | l :: ls => match step l s with Some s => exec ls s | None => None end
  end.

(** * File names *)



Lemma string_app_tail s s' t : s +:+ t = s' +:+ t → s = s'.
Proof.
  intros H. apply (f_equal String.list_ascii_of_string) in H. rewrite !list_ascii_app in H. apply app_inv_tail in H.
  apply (f_equal String.string_of_list_ascii) in H. by rewrite !String.string_of_list_ascii_of_string in H.
Qed.

Lemma encoded_plain ref : plain (Base64.EncodeToString ref +:+ ".json").
Proof.
  split.
  - split_and!; intros H; apply (f_equal String.list_ascii_of_string), (f_equal length) in H; rewrite list_ascii_app, length_app in H; cbn in H; lia.
  - apply without_app. split; [|done]. unfold Base64.EncodeToString, without.
    pose proof (Base64.encode_alphabet (String.list_ascii_of_string ref)) as H.
    induction H as [|c l Hc _ IH]; [done|]. cbn. case_decide as Hs; [|done]. subst c. exfalso. revert Hc. apply (bool_decide_unpack _). vm_compute. done.
Qed.

Lemma join_snoc c l x : l ≠ [] → join c (l ++ [x]) = join c l +:+ String c x.
Proof.
  induction l as [|y l IH]; [done|]. intros _. destruct l as [|z l]; [done|]. rewrite <-app_comm_cons.
  rewrite !join_cons by (by destruct l). rewrite IH by done.
  change (String c (join c (z :: l) +:+ String c x)) with (String c (join c (z :: l)) +:+ String c x). by rewrite string_app_assoc.
Qed.

(** The directory is the same for all names. *)
Lemma Clean_name : ∃ pre, ∀ name, plain name → Clean (root +:+ "/" +:+ "objects" +:+ "/" +:+ name) = pre +:+ name.
Proof.
  set (rooted := HasPrefix (root +:+ "/") "/").
  set (kept := reverse (foldl (clean_step rooted) [] (split slash root)) ++ ["objects"]).
  exists ((if rooted then "/" else "") +:+ join slash kept +:+ "/"). intros name [Ho Hs].
  assert (kept ≠ []) as Hk by (unfold kept; by destruct (reverse _)).
  assert (HasPrefix (root +:+ "/" +:+ "objects" +:+ "/" +:+ name) "/" = rooted) as Hr.
  { unfold rooted. by destruct root. }
  unfold Clean. rewrite Hr. cbv zeta.
  assert (split slash (root +:+ "/" +:+ "objects" +:+ "/" +:+ name) = split slash root ++ ["objects"; name]) as ->.
  { change ("/" +:+ "objects" +:+ "/" +:+ name) with (String slash ("objects" +:+ String slash name)).
    rewrite split_app, split_app_sep by done. by rewrite (split_single slash name). }
  unfold clean_elems. rewrite foldl_app. cbn [foldl]. rewrite !clean_step_ordinary by (done || (by split_and!)).
  rewrite !reverse_cons. fold kept. rewrite join_snoc by done.
  assert (∀ s t, s +:+ join slash kept +:+ String slash t ≠ "") as Hne.
  { intros s t H. apply (f_equal String.list_ascii_of_string), (f_equal length) in H. rewrite !list_ascii_app, !length_app in H. cbn in H. lia. }
  rewrite decide_False by apply Hne. by rewrite <-!string_app_assoc.
Qed.

Lemma path_inj ref ref' : path ref = path ref' → ref = ref'.
Proof.
  unfold path. destruct Clean_name as [pre H]. rewrite !H by apply encoded_plain. intros E%(inj _)%string_app_tail.
  by apply Base64.EncodeToString_inj.
Qed.
Lemma tmp_inj ref ref' : tmp ref = tmp ref' → ref = ref'.
Proof. unfold tmp. by intros ?%string_app_tail%path_inj. Qed.
Lemma tmp_not_path ref ref' : tmp ref ≠ path ref'.
Proof.
  unfold tmp, path. destruct Clean_name as [pre H]. rewrite !H by apply encoded_plain. intros E.
  apply (f_equal String.list_ascii_of_string), (f_equal last) in E. rewrite !list_ascii_app in E.
  rewrite !app_assoc in E. cbn in E. rewrite !last_app_cons in E. done.
Qed.

(** * The invariant *)

(** The memory store after the calls that took effect. *)
Definition apply_event (m : store) (e : event) : store := match e with EPut _ a => (Put None a m).1 | EGet _ _ => m end.
Definition replay (l : list event) : store := foldl apply_event NewMemoryStore l.
Definition event_proc (e : event) : nat := match e with EPut p _ | EGet p _ => p end.

Lemma replay_snoc l e : replay (l ++ [e]) = apply_event (replay l) e.
Proof. unfold replay. by rewrite foldl_app. Qed.

(** The reference a [Put] in progress writes. *)
Definition put_ref (q : proc) : option string :=
  match q with Opening a _ | Writing a _ _ | Renaming a _ => Some (Ref a) | _ => None end.

(** The bytes that stand for an artifact. *)
Definition encodes (data : string) (a : Artifact) : Prop := ∃ r, Unmarshal data = Some r ∧ artifact_of r = a.

(** An inode that no temporary name links to. *)
Definition settled (s : state) (ino : nat) : Prop := is_Some (inodes s !! ino) ∧ ∀ ref, dir s !! tmp ref ≠ Some ino.

Definition call_ok (s : state) (p : nat) (q : proc) : Prop :=
  match q with
  | Opening a data => ¬ Blank (Ref a) ∧ encodes data a
  | Writing a data ino => ¬ Blank (Ref a) ∧ encodes data a ∧ dir s !! tmp (Ref a) = Some ino ∧ inodes s !! ino = Some ""
  | Renaming a data => ¬ Blank (Ref a) ∧ ∃ ino, dir s !! tmp (Ref a) = Some ino ∧ inodes s !! ino = Some data ∧ encodes data a
  | PutReturned a err => err = None ↔ EPut p a ∈ log s
  | Reading ref ino =>
      settled s ino ∧ ∃ before after data a, log s = before ++ EGet p ref :: after ∧ inodes s !! ino = Some data ∧
        encodes data a ∧ Get None ref (replay before) = Ok a
  | GetReturned ref r =>
      (r = Err ErrIO ∨ ∃ e, r = Err (ErrCtx e)) ∨
      ∃ before after, log s = before ++ EGet p ref :: after ∧ r = Get None ref (replay before)
  end.

Record inv (s : state) : Prop := {
  v_linked : ∀ n ino, dir s !! n = Some ino → is_Some (inodes s !! ino);
  v_names : ∀ n n' ino, dir s !! n = Some ino → dir s !! n' = Some ino → n = n';
  v_store : ∀ ref, match dir s !! path ref with
                   | Some ino => ∃ data a, inodes s !! ino = Some data ∧ encodes data a ∧ replay (log s) !! ref = Some a
                   | None => replay (log s) !! ref = None
                   end;
  v_alone : ∀ p p' q q' ref, procs s !! p = Some q → procs s !! p' = Some q' → put_ref q = Some ref → put_ref q' = Some ref → p = p';
  v_call : ∀ p q, procs s !! p = Some q → call_ok s p q;
  v_log : ∀ e, e ∈ log s → event_proc e < length (procs s);
  v_put : ∀ p a, EPut p a ∈ log s → procs s !! p = Some (PutReturned a None);
  v_once : NoDup (log s)
}.

Lemma inv_empty : inv empty.
Proof.
  split; cbn; intros; try (by rewrite ?lookup_empty in *); try constructor; try (by match goal with H : _ ∈ [] |- _ => apply elem_of_nil in H end).
Qed.

(** What a step on [ref] leaves to the calls on other references. *)
Record frame (ref : string) (s s' : state) : Prop := {
  f_tmp : ∀ r, r ≠ ref → dir s' !! tmp r = dir s !! tmp r;
  f_data : ∀ r ino, r ≠ ref → dir s !! tmp r = Some ino → inodes s' !! ino = inodes s !! ino;
  f_settled : ∀ ino, settled s ino → settled s' ino ∧ inodes s' !! ino = inodes s !! ino;
  f_log : ∃ ext, log s' = log s ++ ext
}.

Lemma call_frame ref s s' p q :
  frame ref s s' → put_ref q ≠ Some ref → (∀ a, EPut p a ∈ log s' → EPut p a ∈ log s) → call_ok s p q → call_ok s' p q.
Proof.
  intros [H1 H2 H3 [ext Hl]] Hq He. destruct q as [a data|a data ino|a data|a err|r ino|r ans]; cbn in *.
  - done.
  - intros (? & ? & Hd & Hi). assert (Ref a ≠ ref) by congruence. rewrite H1 by done. split_and!; try done. by rewrite (H2 (Ref a)).
  - intros (? & ino & Hd & Hi & ?). assert (Ref a ≠ ref) by congruence. split; [done|]. exists ino. rewrite H1 by done. split_and!; try done.
    by rewrite (H2 (Ref a)).
  - intros [Ha Hb]. split; [|naive_solver]. intros ->. rewrite Hl. apply elem_of_app. left. naive_solver.
  - intros [Hs (before & after & data & a & E & Hi & ? & ?)]. destruct (H3 _ Hs) as [Hs' Ei]. split; [done|].
    exists before, (after ++ ext), data, a. rewrite Hl, E, Ei. split_and!; try done. by rewrite <-app_assoc.
  - intros [?|(before & after & E & ?)]; [by left|]. right. exists before, (after ++ ext). rewrite Hl, E. by rewrite <-app_assoc.
Qed.

(** A [Put] in progress moves on. *)
Lemma file_inv_move ref p q q' s s1 :
  inv s → procs s !! p = Some q → put_ref q = Some ref → (put_ref q' = None ∨ put_ref q' = Some ref) →
  procs s1 = procs s → frame ref s s1 →
  (∀ n ino, dir s1 !! n = Some ino → is_Some (inodes s1 !! ino)) →
  (∀ n n' ino, dir s1 !! n = Some ino → dir s1 !! n' = Some ino → n = n') →
  (∀ r, match dir s1 !! path r with
        | Some ino => ∃ data a, inodes s1 !! ino = Some data ∧ encodes data a ∧ replay (log s1) !! r = Some a
        | None => replay (log s1) !! r = None
        end) →
  (log s1 = log s ∨ ∃ a, log s1 = log s ++ [EPut p a] ∧ q' = PutReturned a None) →
  call_ok s1 p q' → inv (set_proc p q' s1).
Proof.
  intros [V1 V2 V3 V4 V5 V6 V7 V8] Hp Hq Hq' Ep Hf L N S Hl Hok. pose proof (lookup_lt_Some _ _ _ Hp) as Hlt.
  assert (∀ e, e ∈ log s1 → e ∈ log s ∨ event_proc e = p) as Hlog.
  { intros e. destruct Hl as [->|(a & -> & _)]; [by left|]. intros [?|He]%elem_of_app; [by left|]. apply list_elem_of_singleton in He as ->. by right. }
  split; cbn; rewrite ?Ep; [exact L|exact N|exact S| | | | |].
  - intros p1 p2 q1 q2 r H1 H2 Hr1 Hr2. apply list_lookup_insert_Some in H1, H2. destruct H1 as [(<- & <- & _)|[Hn1 H1]].
    + destruct H2 as [(<- & _)|[Hn2 H2]]; [done|]. destruct Hq'; [congruence|]. by apply (V4 p p2 q q2 r); [|..|congruence|].
    + destruct H2 as [(<- & <- & _)|[Hn2 H2]]; [|by eapply V4]. destruct Hq'; [congruence|]. by apply (V4 p1 p q1 q r); [..|congruence].
  - intros p1 q1 H1. apply list_lookup_insert_Some in H1 as [(<- & <- & _)|[Hn1 H1]]; [exact Hok|].
    apply (call_frame ref s s1); [done| | |by apply V5].
    + intros Hr. apply Hn1. by eapply V4.
    + intros a [?|He]%Hlog; [done|]. by cbn in He.
  - intros e [He|He]%Hlog; rewrite length_insert; [by apply V6|lia].
  - intros p1 a He. destruct (decide (p1 = p)) as [->|Hn].
    + rewrite list_lookup_insert_eq by done. destruct Hl as [E|(a' & E & ->)]; rewrite E in He.
      * apply V7 in He. rewrite Hp in He. injection He as ->. done.
      * apply elem_of_app in He as [He|[= ->]%list_elem_of_singleton]; [|done]. apply V7 in He. rewrite Hp in He. by injection He as ->.
    + rewrite list_lookup_insert_ne by done. apply Hlog in He as [He|He]; [by apply V7|by cbn in He].
  - destruct Hl as [->|(a & -> & _)]; [done|]. apply NoDup_app. split_and!; [done| |apply NoDup_singleton].
    intros e He ->%list_elem_of_singleton. apply V7 in He. rewrite Hp in He. by injection He as ->.
Qed.

(** A call starts. *)
Lemma inv_spawn q ext s :
  let s1 := s <| log := log s ++ ext |> in
  inv s → (ext = [] ∨ ∃ ref, ext = [EGet (length (procs s)) ref]) →
  (∀ ref, put_ref q = Some ref → Forall (λ q', put_ref q' ≠ Some ref) (procs s)) →
  call_ok s1 (length (procs s)) q → inv (spawn q s1).
Proof.
  intros s1 [V1 V2 V3 V4 V5 V6 V7 V8] He Hq Hok.
  assert (replay (log s ++ ext) = replay (log s)) as Er by (destruct He as [->|[r ->]]; [by rewrite app_nil_r|by rewrite replay_snoc]).
  assert (∀ e, e ∈ log s ++ ext → e ∈ log s ∨ ∃ r, e = EGet (length (procs s)) r) as Hlog.
  { intros e [?|H]%elem_of_app; [by left|]. destruct He as [->|[r ->]]; [by apply elem_of_nil in H|]. apply list_elem_of_singleton in H as ->. eauto. }
  split; cbn -[replay]; [exact V1|exact V2|intros r; rewrite Er; apply V3| | | | |].
  - intros p1 p2 q1 q2 r H1 H2 Hr1 Hr2. apply lookup_app_Some in H1, H2. destruct H1 as [H1|[L1 H1]].
    + destruct H2 as [H2|[L2 H2]]; [by eapply V4|]. apply list_lookup_singleton_Some in H2 as [? <-]. apply Hq in Hr2.
      rewrite Forall_forall in Hr2. by apply list_elem_of_lookup_2, Hr2 in H1.
    + apply list_lookup_singleton_Some in H1 as [? <-]. destruct H2 as [H2|[L2 H2]].
      * apply Hq in Hr1. rewrite Forall_forall in Hr1. by apply list_elem_of_lookup_2, Hr1 in H2.
      * apply list_lookup_singleton_Some in H2 as [? <-]. lia.
  - intros p1 q1 H1. apply lookup_app_Some in H1 as [H1|[L1 H1]].
    + specialize (V5 _ _ H1). assert (∃ x, log s ++ ext = log s ++ x) as Hx by eauto.
      destruct q1; cbn in *; try done.
      * rewrite V5. split; [set_solver|]. intros [?|[r ?]]%Hlog; done.
      * destruct V5 as (? & before & after & data & a & E & ?). split; [done|]. exists before, (after ++ ext), data, a. rewrite E. by rewrite <-app_assoc.
      * destruct V5 as [?|(before & after & E & ?)]; [by left|]. right. exists before, (after ++ ext). rewrite E. by rewrite <-app_assoc.
    + apply list_lookup_singleton_Some in H1 as [? <-]. replace p1 with (length (procs s)) by lia. exact Hok.
  - intros e [H|[r ->]]%Hlog; rewrite length_app; cbn; [specialize (V6 _ H)|]; lia.
  - intros p1 a [H|[r ?]]%Hlog; [|done]. apply lookup_app_l_Some. by apply V7.
  - apply NoDup_app. split_and!; [done| |destruct He as [->|[r ->]]; [constructor|apply NoDup_singleton]].
    intros e H1 H2. destruct He as [->|[r ->]]; [by apply elem_of_nil in H2|]. apply list_elem_of_singleton in H2 as ->. apply V6 in H1. cbn in H1. lia.
Qed.

(** A step that changes nothing but the call. *)
Lemma frame_refl ref s : frame ref s s.
Proof. split; try done. exists []. by rewrite app_nil_r. Qed.
Lemma file_inv_return ref p q q' s :
  inv s → procs s !! p = Some q → put_ref q = Some ref → (put_ref q' = None ∨ put_ref q' = Some ref) → call_ok s p q' → inv (set_proc p q' s).
Proof. intros Hi Hp Hq Hq' Hok. eapply file_inv_move; try done; [apply frame_refl|apply Hi|apply Hi|apply Hi|by left]. Qed.

(** The content of an inode that a temporary name links to changes. *)
Lemma write_frame ref ino data s :
  inv s → dir s !! tmp ref = Some ino → frame ref s (s <| inodes := <[ino := data]> (inodes s) |>).
Proof.
  intros Hi Ht. split; cbn; [done| | |exists []; by rewrite app_nil_r].
  - intros r ino' Hr Hd. rewrite lookup_insert_ne; [done|]. intros <-. by apply Hr, tmp_inj, (v_names _ Hi _ _ ino).
  - intros ino' [Hs Hn]. assert (ino' ≠ ino) by (by intros ->; apply (Hn ref)). rewrite lookup_insert_ne by done.
    split; [|done]. split; [|exact Hn]. cbn. by rewrite lookup_insert_ne.
Qed.
Lemma write_shared ref ino data s :
  inv s → dir s !! tmp ref = Some ino → let s1 := s <| inodes := <[ino := data]> (inodes s) |> in
  (∀ n i, dir s1 !! n = Some i → is_Some (inodes s1 !! i)) ∧
  (∀ r, match dir s1 !! path r with
        | Some i => ∃ data a, inodes s1 !! i = Some data ∧ encodes data a ∧ replay (log s1) !! r = Some a
        | None => replay (log s1) !! r = None
        end).
Proof.
  intros Hi Ht. cbn -[replay]. split.
  - intros n i Hn. destruct (decide (i = ino)) as [->|]; [rewrite lookup_insert_eq; eauto|]. rewrite lookup_insert_ne by done. by eapply v_linked.
  - intros r. pose proof (v_store _ Hi r) as Hs. destruct (dir s !! path r) as [i|] eqn:Hd; [|done]. rewrite lookup_insert_ne; [done|].
    intros <-. by apply (tmp_not_path ref r), (v_names _ Hi _ _ ino).
Qed.

Lemma call_put_none s p q a : inv s → procs s !! p = Some q → put_ref q ≠ None → EPut p a ∉ log s.
Proof. intros Hi Hp Hq He. apply (v_put _ Hi) in He. rewrite Hp in He. by injection He as ->. Qed.

(** A [Put] in progress that fails. *)
Lemma failed_ok s s1 p q a e : inv s → procs s !! p = Some q → put_ref q ≠ None → log s1 = log s → call_ok s1 p (PutReturned a (Some e)).
Proof. intros Hi Hp Hq E. cbn. rewrite E. split; [done|]. intros He. exfalso. by eapply call_put_none. Qed.

Lemma inv_open p ok s s' : inv s → step (LOpen p ok) s = Some s' → inv s'.
Proof.
  intros Hi. cbn. destruct (procs s !! p) as [[a data|?|?|?|?|?]|] eqn:Hp; try done. destruct (v_call _ Hi _ _ Hp) as [Hb He].
  destruct ok; intros [= <-]; [|eapply file_inv_return; [done|done|done|by left|by eapply failed_ok]].
  set (ino := match dir s !! tmp (Ref a) with Some ino => ino | None => _ end).
  assert (∀ n, dir s !! n = Some ino → n = tmp (Ref a)) as Hn.
  { intros n Hn. unfold ino in *. destruct (dir s !! tmp (Ref a)) as [i|] eqn:Ht; [by apply (v_names _ Hi _ _ i)|].
    exfalso. apply (v_linked _ Hi), elem_of_dom, is_fresh in Hn. done. }
  assert (∀ i, settled s i → i ≠ ino) as Hse.
  { intros i [Hs Hd] ->. unfold ino in *. destruct (dir s !! tmp (Ref a)) as [i|] eqn:Ht; [by apply (Hd (Ref a))|]. by apply elem_of_dom, is_fresh in Hs. }
  eapply (file_inv_move (Ref a)); [done|exact Hp|done|by right|done| | | | |by left|].
  - split; cbn; [| | |exists []; by rewrite app_nil_r].
    + intros r Hr. rewrite lookup_insert_ne; [done|]. by intros ?%tmp_inj.
    + intros r i Hr Hd. rewrite lookup_insert_ne; [done|]. intros <-. by apply Hr, tmp_inj, Hn.
    + intros i Hs. pose proof (Hse i Hs) as Hne. destruct Hs as [Hs Hd]. rewrite lookup_insert_ne by done. split; [|done]. split; cbn.
      * by rewrite lookup_insert_ne.
      * intros r. destruct (decide (r = Ref a)) as [->|]; [rewrite lookup_insert_eq; congruence|]. rewrite lookup_insert_ne; [done|]. by intros ?%tmp_inj.
  - cbn. intros n i Hd. destruct (decide (i = ino)) as [->|]; [rewrite lookup_insert_eq; eauto|]. rewrite lookup_insert_ne by done.
    apply lookup_insert_Some in Hd as [[_ ?]|[_ Hd]]; [congruence|]. by eapply v_linked.
  - cbn. intros n n' i [[<- <-]|[H1 H1']]%lookup_insert_Some [[<- E]|[H2 H2']]%lookup_insert_Some; try done.
    + by apply Hn in H2'.
    + subst i. by apply Hn in H1'.
    + by eapply v_names.
  - cbn -[replay]. intros r. rewrite lookup_insert_ne by apply tmp_not_path. pose proof (v_store _ Hi r) as Hs. destruct (dir s !! path r) as [i|] eqn:Hd; [|done].
    rewrite lookup_insert_ne; [done|]. intros <-. apply Hn in Hd. by apply (tmp_not_path (Ref a) r).
  - cbn. by rewrite !lookup_insert_eq.
Qed.

Lemma overwrite_empty data : overwrite "" data = data.
Proof. unfold overwrite. assert (drop_string (String.length data) "" = "") as -> by (by destruct data). apply string_app_nil_r. Qed.

Lemma inv_write p short s s' : inv s → step (LWrite p short) s = Some s' → inv s'.
Proof.
  intros Hi. cbn. destruct (procs s !! p) as [[?|a data ino|?|?|?|?]|] eqn:Hp; try done.
  destruct (v_call _ Hi _ _ Hp) as (Hb & He & Ht & Hino). rewrite Hino. cbn [default from_option id]. rewrite overwrite_empty.
  destruct short as [n|]; intros [= <-];
    (eapply (file_inv_move (Ref a)); [done|exact Hp|done| |done|by apply write_frame|by eapply write_shared|apply Hi|by eapply write_shared|by left|]).
  - by left.
  - by eapply failed_ok.
  - by right.
  - cbn. split; [done|]. exists ino. by rewrite lookup_insert_eq.
Qed.

Lemma inv_rename p ctx ok s s' : inv s → step (LRename p ctx ok) s = Some s' → inv s'.
Proof.
  intros Hi. cbn -[replay]. destruct (procs s !! p) as [[?|?|a data|?|?|?]|] eqn:Hp; try done.
  destruct (v_call _ Hi _ _ Hp) as (Hb & ino & Ht & Hino & He).
  destruct ctx as [e|].
  - intros [= <-]. destruct ok; [|eapply file_inv_return; [done|done|done|by left|by eapply failed_ok]].
    eapply (file_inv_move (Ref a)); [done|exact Hp|done|by left|done| | | | |by left|by eapply failed_ok]; cbn -[replay].
    + split; cbn; [|done| |exists []; by rewrite app_nil_r].
      * intros r Hr. rewrite lookup_delete_ne; [done|]. by intros ?%tmp_inj.
      * intros i [Hs Hn]. split; [|done]. split; [done|]. cbn. intros r [_ Hd]%lookup_delete_Some. by apply (Hn r).
    + intros n i [_ Hd]%lookup_delete_Some. by eapply v_linked.
    + intros n n' i [_ Hd]%lookup_delete_Some [_ Hd']%lookup_delete_Some. by eapply v_names.
    + intros r. rewrite lookup_delete_ne by apply tmp_not_path. apply Hi.
  - destruct ok; cbn [negb]; [|intros [= <-]; eapply file_inv_return; [done|done|done|by left|by eapply failed_ok]].
    rewrite Ht. intros [= <-].
    assert (replay (log s ++ [EPut p a]) = <[Ref a := a]> (replay (log s))) as Er.
    { rewrite replay_snoc. cbn. unfold Put. rewrite decide_False by done. by rewrite cloneArtifact_id. }
    eapply (file_inv_move (Ref a)); [done|exact Hp|done|by left|done| | | | |by right; exists a|]; cbn -[replay].
    + split; cbn; [|done| |by exists [EPut p a]].
      * intros r Hr. rewrite lookup_insert_ne by (apply not_eq_sym, tmp_not_path). rewrite lookup_delete_ne; [done|]. by intros ?%tmp_inj.
      * intros i [Hs Hn]. split; [|done]. split; [done|]. cbn. intros r Hd. apply lookup_insert_Some in Hd as [[E _]|[_ [_ Hd]%lookup_delete_Some]].
        -- by eapply tmp_not_path.
        -- by apply (Hn r).
    + intros n i [[_ <-]|[_ [_ Hd]%lookup_delete_Some]]%lookup_insert_Some; [by rewrite Hino|by eapply v_linked].
    + intros n n' i [[<- <-]|[_ [H1 Hd]%lookup_delete_Some]]%lookup_insert_Some [[<- E]|[_ [H2 Hd']%lookup_delete_Some]]%lookup_insert_Some; try done.
      * exfalso. by apply H2, (v_names _ Hi _ _ ino).
      * subst i. exfalso. by apply H1, (v_names _ Hi _ _ ino).
      * by eapply v_names.
    + intros r. rewrite Er. destruct (decide (r = Ref a)) as [->|Hne].
      * rewrite lookup_insert_eq. exists data, a. by rewrite lookup_insert_eq.
      * rewrite (lookup_insert_ne _ (path (Ref a))) by (by intros ?%path_inj). rewrite lookup_delete_ne by apply tmp_not_path.
        rewrite lookup_insert_ne by done. apply Hi.
    + split; [|done]. intros _. apply elem_of_app. right. by apply list_elem_of_singleton.
Qed.

Lemma inv_get ctx ref ok s s' : inv s → step (LGet ctx ref ok) s = Some s' → inv s'.
Proof.
  intros Hi. assert (∀ r : res Error Artifact, r = Err ErrIO ∨ (∃ e, r = Err (ErrCtx e)) → inv (spawn (GetReturned ref r) s)) as Hdirect.
  { intros r Hr. pose proof (inv_spawn (GetReturned ref r) [] s) as H. rewrite app_nil_r in H. destruct s. apply H; [done|by left|done|by left]. }
  cbn -[replay spawn]. destruct ctx as [e|]; [intros [= <-]; apply Hdirect; eauto|].
  destruct ok; cbn [negb]; [|intros [= <-]; apply Hdirect; eauto]. pose proof (v_store _ Hi ref) as Hs.
  destruct (dir s !! path ref) as [ino|] eqn:Hd; intros [= <-]; apply inv_spawn; try done; eauto; cbn -[replay].
  - destruct Hs as (data & a & Hino & He & Hr). split.
    + split; [eauto|]. intros r Ht. by apply (tmp_not_path r ref), (v_names _ Hi _ _ ino).
    + exists (log s), [], data, a. split_and!; try done. unfold Get. by rewrite Hr, cloneArtifact_id.
  - right. exists (log s), []. split; [done|]. unfold Get. by rewrite Hs.
Qed.

Lemma inv_read p ok s s' : inv s → step (LRead p ok) s = Some s' → inv s'.
Proof.
  intros Hi. cbn -[replay]. destruct (procs s !! p) as [[?|?|?|?|ref ino|?]|] eqn:Hp; try done. intros [= <-].
  destruct (v_call _ Hi _ _ Hp) as (_ & before & after & data & a & El & Hino & (r & Er & Ea) & Hg).
  rewrite Hino. cbn [default from_option id]. rewrite Er.
  assert (∀ ans, call_ok s p (GetReturned ref ans) → inv (set_proc p (GetReturned ref ans) s)) as Hset.
  { intros ans Hok. destruct Hi as [V1 V2 V3 V4 V5 V6 V7 V8]. split; cbn -[replay]; [done..| | | | |done].
    - intros p1 p2 q1 q2 rf H1 H2 Hr1 Hr2. apply list_lookup_insert_Some in H1, H2.
      destruct H1 as [(<- & <- & _)|[Hn1 H1]], H2 as [(<- & <- & _)|[Hn2 H2]]; try done. by eapply V4.
    - intros p1 q1 H1. apply list_lookup_insert_Some in H1 as [(<- & <- & _)|[Hn1 H1]]; [done|by apply V5].
    - intros e He%V6. by rewrite length_insert.
    - intros p1 a1 H%V7. rewrite list_lookup_insert_ne; [done|]. intros <-. congruence. }
  apply Hset. destruct ok; cbn [negb call_ok]; [|by left; left]. right. exists before, after. split; [done|]. by rewrite Ea, Hg.
Qed.

(** [Put]s of records that survive JSON, none of them while another one writes the same reference. *)
Definition serial (faithful : fileArtifact → Prop) (l : label) (s : state) : Prop :=
  match l with
  | LPut _ a now => faithful (record_of a now) ∧ Forall (λ q, put_ref q ≠ Some (Ref a)) (procs s)
  | _ => True
  end.
Definition steps faithful (s s' : state) : Prop := ∃ l, serial faithful l s ∧ step l s = Some s'.

Section contract.
Context (faithful : fileArtifact → Prop).
Hypothesis codec : ∀ r encoded, faithful r → Marshal r = Some encoded → Unmarshal (encoded +:+ newline) = Some r.

Lemma artifact_of_record a now : artifact_of (record_of a now) = a.
Proof. unfold artifact_of. rewrite cloneArtifact_id. unfold record_of, cloneMetadata. cbn. rewrite map_clone_id. by destruct a. Qed.

Lemma inv_put ctx a now s s' : inv s → serial faithful (LPut ctx a now) s → step (LPut ctx a now) s = Some s' → inv s'.
Proof.
  intros Hi [Hf Hs]. cbn. intros [= <-]. pose proof (inv_spawn (Put_start ctx a now) [] s) as H. rewrite app_nil_r in H.
  assert (∀ e, call_ok s (length (procs s)) (PutReturned a (Some e))) as Hfail.
  { intros e. cbn. split; [done|]. intros He%(v_put _ Hi)%lookup_lt_Some. lia. }
  destruct s. cbn in *. apply H; [done|by left| |]; unfold Put_start.
  - destruct ctx; [done|]. case_decide; [done|]. destruct (Marshal _); [|done]. by intros ref [= <-].
  - destruct ctx as [e|]; [apply Hfail|]. case_decide as Hb; [apply Hfail|]. destruct (Marshal _) as [enc|] eqn:Em; [|apply Hfail].
    split; [done|]. exists (record_of a now). split; [by apply codec|apply artifact_of_record].
Qed.

Lemma file_inv s : rtc (steps faithful) empty s → inv s.
Proof.
  intros H. apply (rtc_ind_r inv empty) in H; [done|apply inv_empty|]. intros s1 s2 _ (l & Hser & Hl) Hi. destruct l.
  - by eapply inv_put.
  - by eapply inv_open.
  - by eapply inv_write.
  - by eapply inv_rename.
  - by eapply inv_get.
  - by eapply inv_read.
Qed.

(** C25: Over a file system on which any call may fail, with any number of calls in progress, the file store is the memory
store: as long as no two [Put]s write the same reference at once, a [Put] takes effect exactly when it returns no error, once, and
a [Get] that neither the context nor the file system fails answers what the memory store answers at the moment it opened the file.
This is for [Put]s of [faithful] artifacts, those whose record JSON reads back as it was written ([codec]); an artifact whose metadata
holds another Go type than JSON's own, such as an int, comes back from the file store with a float64 instead. *)
Theorem file_store_linearizes s p :
  rtc (steps faithful) empty s →
  NoDup (log s) ∧
  (∀ a err, procs s !! p = Some (PutReturned a err) → (err = None ↔ EPut p a ∈ log s)) ∧
  (∀ ref r, procs s !! p = Some (GetReturned ref r) → r ≠ Err ErrIO → (∀ e, r ≠ Err (ErrCtx e)) →
    ∃ before after, log s = before ++ EGet p ref :: after ∧ r = Get None ref (replay before)).
Proof.
  intros Hi%file_inv. split_and!; [apply Hi|intros a err Hp; apply (v_call _ Hi _ _ Hp)|].
  intros ref r Hp H1 H2. destruct (v_call _ Hi _ _ Hp) as [[?|[e ?]]|?]; [done|by edestruct H2|done].
Qed.

Lemma exec_cons l ls s s1 s' : step l s = Some s1 → exec ls s1 = Some s' → exec (l :: ls) s = Some s'.
Proof. intros H1 H2. cbn [exec]. by rewrite H1. Qed.

(** Two [Put]s of one reference, the second opening the temporary file between the first one's write and its rename. *)
Definition overlapping (a b : Artifact) (now : Time) : list label :=
  [LPut None a now; LOpen 0 true; LWrite 0 None; LPut None b now; LOpen 1 true; LRename 0 None true;
   LGet None (Ref a) true; LRead 2 true; LWrite 1 None; LRename 1 None true; LGet None (Ref a) true; LRead 3 true].

(** C27: Two [Put]s of one reference at once break the contract: with the same temporary file for both, the first publishes a file
the second has truncated, so that a [Get] after it cannot decode the artifact, and the second returns an error although a
later [Get] finds its artifact stored. *)
Theorem overlapping_puts_tear a b now :
  Ref b = Ref a → ¬ Blank (Ref a) → is_Some (Marshal (record_of a now)) → is_Some (Marshal (record_of b now)) →
  faithful (record_of b now) → Unmarshal "" = None →
  ∃ s, exec (overlapping a b now) empty = Some s ∧
    procs s = [PutReturned a None; PutReturned b (Some ErrNotExist); GetReturned (Ref a) (Err ErrDecode); GetReturned (Ref a) (Ok b)].
Proof.
  intros Eb Hb [ea Ha] [eb Hmb] Hf Hu. unfold overlapping. eexists. split.
  - eapply exec_cons; [cbn; unfold Put_start; rewrite decide_False, Ha by done; reflexivity|].
    eapply exec_cons; [cbn; reflexivity|].
    eapply exec_cons; [cbn; rewrite lookup_insert_eq; cbn; rewrite overwrite_empty; reflexivity|].
    eapply exec_cons; [cbn; unfold Put_start; rewrite Eb, decide_False, Hmb by done; reflexivity|].
    eapply exec_cons; [cbn; rewrite Eb, lookup_insert_eq; reflexivity|].
    eapply exec_cons; [cbn; rewrite lookup_insert_eq; reflexivity|].
    eapply exec_cons; [cbn; rewrite lookup_insert_eq; reflexivity|].
    eapply exec_cons; [cbn; rewrite lookup_insert_eq; cbn; rewrite Hu; reflexivity|].
    eapply exec_cons; [cbn; rewrite lookup_insert_eq; cbn; rewrite overwrite_empty; reflexivity|].
    eapply exec_cons; [cbn; rewrite Eb, lookup_insert_ne, lookup_delete_eq by (apply not_eq_sym, tmp_not_path); reflexivity|].
    eapply exec_cons; [cbn; rewrite lookup_insert_eq; reflexivity|].
    eapply exec_cons; [cbn; rewrite lookup_insert_eq; cbn; rewrite (codec _ _ Hf Hmb); reflexivity|]. reflexivity.
  - cbn. by rewrite artifact_of_record.
Qed.

End contract.

End files.

(** * An execution *)

(** Two artifacts and a codec for their records. *)
Definition draft : Artifact := mkArtifact "wf-1/input" "draft" "text/plain" ∅.
Definition revised : Artifact := mkArtifact "wf-1/input" "revised" "text/plain" ∅.
Definition demo_faithful (r : fileArtifact) : Prop := r = record_of draft 0 ∨ r = record_of revised 0.
Definition demo_marshal (r : fileArtifact) : option string :=
  if decide (r = record_of draft 0) then Some "1" else if decide (r = record_of revised 0) then Some "2" else None.
Definition demo_unmarshal (s : string) : option fileArtifact :=
  if decide (s = "1" +:+ newline) then Some (record_of draft 0)
  else if decide (s = "2" +:+ newline) then Some (record_of revised 0) else None.

Lemma demo_codec r encoded : demo_faithful r → demo_marshal r = Some encoded → demo_unmarshal (encoded +:+ newline) = Some r.
Proof. intros [-> | ->] H; vm_compute in H; injection H as <-; reflexivity. Qed.

(** Labels of an execution that respects [serial]. *)
Fixpoint serial_run (ls : list label) (s : state) : Prop :=
  match ls with
  | [] => True
  | l :: ls => serial demo_faithful l s ∧ match step demo_marshal demo_unmarshal "/srv" l s with Some s => serial_run ls s | None => False end
  end.
Lemma serial_steps ls s s' :
  serial_run ls s → exec demo_marshal demo_unmarshal "/srv" ls s = Some s' → rtc (steps demo_marshal demo_unmarshal "/srv" demo_faithful) s s'.
Proof.
  revert s. induction ls as [|l ls IH]; intros s; cbn [serial_run exec]; [by intros _ [= <-]|].
  intros [H1 H2] H. destruct (step _ _ _ l s) as [s1|] eqn:E; [|done]. eapply rtc_l; [by exists l|auto].
Qed.

(** The second [Put] fails in the middle of its write; a [Get] before it is in progress when it starts. *)
Definition demo_labels : list label :=
  [LPut None draft 0; LOpen 0 true; LGet None "wf-1/input" true; LWrite 0 None; LRename 0 None true; LGet None "wf-1/input" true;
   LPut None revised 0; LOpen 3 true; LRead 2 true; LWrite 3 (Some 1)].

Lemma file_store_linearizes_witness :
  ∃ s, exec demo_marshal demo_unmarshal "/srv" demo_labels empty = Some s ∧ procs s !! 2 = Some (GetReturned "wf-1/input" (Ok draft)) ∧
    ∃ before after, log s = before ++ EGet 2 "wf-1/input" :: after ∧ Ok draft = Get None "wf-1/input" (replay before).
Proof.
  eexists. split; [vm_compute; reflexivity|]. split; [reflexivity|].
  edestruct (file_store_linearizes demo_marshal demo_unmarshal "/srv" demo_faithful demo_codec) as (_ & _ & H);
    [|apply H; [reflexivity|discriminate|discriminate]].
  eapply (serial_steps demo_labels); [|vm_compute; reflexivity].
  cbn -[step]. repeat (split; [first [exact I|split; [(left + right); reflexivity|vm_compute; repeat constructor; discriminate]]|]; vm_compute). exact I.
Defined.

Lemma overlapping_puts_tear_witness :
  ∃ s, exec demo_marshal demo_unmarshal "/srv" (overlapping draft revised 0) empty = Some s ∧
    procs s = [PutReturned draft None; PutReturned revised (Some ErrNotExist); GetReturned "wf-1/input" (Err ErrDecode); GetReturned "wf-1/input" (Ok revised)].
Proof.
  apply (overlapping_puts_tear demo_marshal demo_unmarshal "/srv" demo_faithful demo_codec); try reflexivity; try (vm_compute; eauto; discriminate).
Defined.

End Artifacts.
