(* ===== verification/McpKit.v ===== *)
(** mcpkit: tools of an MCP server as goagent tools ([src/mcpkit/mcpkit.go]).

The MCP client is a parameter: what it lists, and what it answers to a call at a tick. The registry, the
tools and the policy engine are those of [AgentTools]. *)

From S2P Require Import Prelude GoPath AgentTools.
#[local] Open Scope Z_scope.

Module Mcp.

(** * Data *)

Record ToolAnnotations := mkAnnotations {
  ReadOnlyHint : bool; DestructiveHint : bool; IdempotentHint : bool; OpenWorldHint : bool
}.
Record ToolDescriptor := mkDescriptor {
  d_Name : string; d_Description : string; InputSchema : RawMessage; Annotations : ToolAnnotations; d_Metadata : Metadata
}.
#[global] Instance eta_ToolDescriptor : Eta ToolDescriptor := λ d,
  mkDescriptor (d_Name d) (d_Description d) (InputSchema d) (Annotations d) (d_Metadata d).
Record ContentPart := mkPart { p_Type : string; p_Text : string; MIMEType : string; p_Data : string }.
Record ToolCallResult := mkCallResult {
  Content : list ContentPart; StructuredContent : RawMessage; IsError : bool; r_Ref : string; r_Metadata : Metadata
}.
Record RegisterOptions := mkOptions {
  o_Permission : Permission; o_ExecutionMode : ExecutionMode; o_Timeout : Duration; MaxLLMChars : Z; TrustServerAnnotations : bool
}.
Record Client := mkClient {
  ListTools : res Error (list ToolDescriptor);
  CallTool : nat → string → RawMessage → res Error (option ToolCallResult)
}.
(** [Tool]; a nil client is [None]. *)
Record McpTool := mkMcpTool { t_Client : option Client; t_Descriptor : ToolDescriptor; t_Options : RegisterOptions }.

Definition cloneMetadata (m : Metadata) : Metadata := map_clone m.
Definition cloneToolDescriptor (d : ToolDescriptor) : ToolDescriptor :=
  d <| InputSchema := "" +:+ InputSchema d |> <| d_Metadata := cloneMetadata (d_Metadata d) |>.

(** * Results *)

Fixpoint take_string (n : nat) (s : string) : string :=
  match n, s with S n, String c s => String c (take_string n s) | _, _ => "" end.
Definition bounded (value : string) (maxChars : Z) : string :=
  if decide (maxChars ≤ 0 ∨ Z.of_nat (String.length value) ≤ maxChars) then value
  else if decide (maxChars ≤ 3) then take_string (Z.to_nat maxChars) value
  else take_string (Z.to_nat (maxChars - 3)) value +:+ "...".

Definition part_line (part : ContentPart) : list string :=
  if decide (p_Type part = "text" ∨ p_Type part = "")
  then if decide (p_Text part ≠ "") then [p_Text part] else []
  else ["content_part type=" +:+ p_Type part +:+ " mime=" +:+ MIMEType part +:+ " bytes=" +:+ pretty (Z.of_nat (String.length (p_Data part)))].
Definition modelObservation (result : ToolCallResult) : string :=
  let lines := if IsError result then ["mcp_error=true"] else [] in
  let lines := if decide (0 < String.length (StructuredContent result))%nat
               then lines ++ ["structured_content=" +:+ StructuredContent result] else lines in
  let lines := foldl (λ lines part, lines ++ part_line part) lines (Content result) in
  let lines := if decide (length lines = 0%nat ∧ r_Ref result ≠ "") then lines ++ ["ref=" +:+ r_Ref result] else lines in
  strings_Join lines (String "010" "").
Definition userVisibleContent (result : ToolCallResult) : string :=
  let parts := if decide (0 < String.length (StructuredContent result))%nat then [StructuredContent result] else [] in
  let parts := foldl (λ parts part, if decide (p_Text part ≠ "") then parts ++ [p_Text part] else parts) parts (Content result) in
  strings_Join parts (String "010" "").

(** * Tools *)

Definition permission (t : McpTool) : Permission :=
  if decide (o_Permission (t_Options t) ≠ "") then o_Permission (t_Options t)
  else if negb (TrustServerAnnotations (t_Options t)) then ""
  else if ReadOnlyHint (Annotations (t_Descriptor t)) then PermissionRead
  else if DestructiveHint (Annotations (t_Descriptor t)) then PermissionWrite
  else "".
Definition Spec (t : McpTool) : ToolSpec :=
  mkSpec (d_Name (t_Descriptor t)) (d_Description (t_Descriptor t)) (permission t) (o_ExecutionMode (t_Options t))
    (o_Timeout (t_Options t)) (mkSchema ("" +:+ InputSchema (t_Descriptor t)) None).
Definition Execute (t : McpTool) : Handler := λ tick input env,
  (te_Metadata env,
   match t_Client t with
   | None => Failed (ErrText "mcp client is required")
   | Some client =>
       match CallTool client tick (d_Name (t_Descriptor t)) input with
       | Err e => Failed e
       | Ok None => Returned (Some (mkResult "mcp tool returned no result" "" false true "" ∅))
       | Ok (Some result) =>
           Returned (Some (mkResult (bounded (modelObservation result) (MaxLLMChars (t_Options t))) (userVisibleContent result)
             false (IsError result) (r_Ref result) (cloneMetadata (r_Metadata result))))
       end
   end).
(** As the tool a goagent registry holds. *)
Definition tool_of (t : McpTool) : Tool := mkTool (Spec t) (Execute t) [].

(** The loop of [RegisterTools]; tools registered before an error stay. *)
Fixpoint register_all (registry : Registry) (client : Client) (options : RegisterOptions) (descriptors : list ToolDescriptor)
    : Registry * res Error (list ToolSpec) :=
  match descriptors with
  | [] => (registry, Ok [])
  | descriptor :: descriptors =>
      let tool := mkMcpTool (Some client) (cloneToolDescriptor descriptor) options in
      let spec := Spec tool in
      if decide (TrimSpace (sp_Name spec) = "") then (registry, Err (ErrText "mcp tool name is required"))
      else match register_all (registry_Register registry (tool_of tool)) client options descriptors with
      | (registry, Ok specs) => (registry, Ok (spec :: specs))
      | (registry, Err e) => (registry, Err e)
      end
  end.
Definition RegisterTools (registry : option Registry) (client : option Client) (options : RegisterOptions)
    : option Registry * res Error (list ToolSpec) :=
  match registry, client with
  | None, _ => (None, Err (ErrText "registry is required"))
  | Some r, None => (Some r, Err (ErrText "mcp client is required"))
  | Some r, Some client =>
      match ListTools client with
      | Err e => (Some r, Err e)
      | Ok descriptors => let '(r, out) := register_all r client options descriptors in (Some r, out)
      end
  end.

(** * Lemmas *)

Lemma cloneToolDescriptor_id d : cloneToolDescriptor d = d.
Proof. destruct d. unfold cloneToolDescriptor, cloneMetadata. cbn. by rewrite map_clone_id. Qed.

Lemma take_string_spec n s : (n ≤ String.length s)%nat → String.length (take_string n s) = n ∧ HasPrefix s (take_string n s) = true.
Proof.
  revert s. induction n as [|n IH]; intros [|c s] H; cbn in *; try done; [lia|]. destruct (IH s) as [-> H']; [lia|].
  split; [done|]. by rewrite decide_True.
Qed.

(** The text a model sees is within the bound, and begins as the whole observation does. *)
Lemma bounded_spec value m :
  0 < m → Z.of_nat (String.length (bounded value m)) ≤ m ∧
  (bounded value m = value ∨ ∃ kept rest, bounded value m = kept +:+ rest ∧ HasPrefix value kept = true ∧ (rest = "" ∨ rest = "...")).
Proof.
  intros Hm. unfold bounded. case_decide as H1; [split; [lia|by left]|]. case_decide as H2.
  - destruct (take_string_spec (Z.to_nat m) value) as [E Hp]; [lia|]. split; [lia|]. right. exists (take_string (Z.to_nat m) value), "".
    by rewrite string_app_nil_r; split_and!; [| |left].
  - destruct (take_string_spec (Z.to_nat (m - 3)) value) as [E Hp]; [lia|]. split; [rewrite length_string_app, E; cbn; lia|].
    right. eexists _, "...". split_and!; [done|done|by right].
Qed.

(** The registry after a loop that went through: the last descriptor of a name decides. *)
Lemma register_all_spec client options ds r r' specs :
  register_all r client options ds = (r', Ok specs) →
  specs = (λ d, Spec (mkMcpTool (Some client) d options)) <$> ds ∧ Forall (λ d, TrimSpace (d_Name d) ≠ "") ds ∧
  ∀ name, r' !! name = match last (filter (λ d, d_Name d = name) ds) with
                       | Some d => Some (tool_of (mkMcpTool (Some client) d options))
                       | None => r !! name
                       end.
Proof.
  revert r specs. induction ds as [|d ds IH]; intros r specs; cbn [register_all]; [by intros [= -> <-]|]. rewrite cloneToolDescriptor_id.
  cbv zeta. case_decide as Hb; [done|]. destruct (register_all _ client options ds) as [r1 [specs1|e]] eqn:E; [|done].
  intros [= <- <-]. destruct (IH _ _ E) as (-> & Hall & Hr). split_and!; [done|by constructor|]. intros name. rewrite Hr, filter_cons.
  case_decide as Hn.
  - rewrite last_cons. destruct (last (filter _ ds)) as [d'|]; [done|]. subst name. unfold registry_Register. cbn. by rewrite lookup_insert_eq.
  - destruct (last (filter _ ds)) as [d'|]; [done|]. unfold registry_Register. cbn. by rewrite lookup_insert_ne.
Qed.

(** The permissions a request must allow for a tool to pass the default policy. *)
Lemma policy_permission req : pd_Allowed (policy_Decide req) = bool_decide (pr_Permission req = PermissionRead ∨ pr_Permission req ∈ pr_Allowed req).
Proof. unfold policy_Decide. case_decide as H1; [by rewrite bool_decide_true by (by left)|]. case_decide; [by rewrite bool_decide_true by (by right)|].
  by rewrite bool_decide_false by naive_solver. Qed.

(** * Properties *)

(** What a server says about its tools never authorises them: registered with a permission of the host's, or without trust in
the server, a tool has exactly the host's permission, or none, whatever its annotations, so the default policy allows it only
where the request allows that very permission; under trust, a tool passes without the request's consent only when the server calls it
read-only. Every tool found under a listed name is the last one listed under it, and other tools are left as they were. *)
Theorem mcp_authorization registry client options ds registry' specs :
  ListTools client = Ok ds → RegisterTools (Some registry) (Some client) options = (registry', Ok specs) →
  ∃ r', registry' = Some r' ∧
    (∀ name, Forall (λ d, d_Name d ≠ name) ds → registry_Get r' name = registry_Get registry name) ∧
    ∀ d, d ∈ ds → ∃ tool d', registry_Get r' (d_Name d) = Some tool ∧ d' ∈ ds ∧ d_Name d' = d_Name d ∧
      ∀ req, pr_Permission req = sp_Permission (t_Spec tool) → pd_Allowed (policy_Decide req) = true →
        (o_Permission options ≠ "" → pr_Permission req = o_Permission options ∧
           (o_Permission options = PermissionRead ∨ o_Permission options ∈ pr_Allowed req)) ∧
        (o_Permission options = "" → TrustServerAnnotations options = false → "" ∈ pr_Allowed req) ∧
        (o_Permission options = "" → TrustServerAnnotations options = true →
           ReadOnlyHint (Annotations d') = true ∨ PermissionWrite ∈ pr_Allowed req ∨ "" ∈ pr_Allowed req).
Proof.
  intros Hl. unfold RegisterTools. rewrite Hl. destruct (register_all registry client options ds) as [r' out] eqn:E. intros [= <- ->].
  exists r'. split; [done|]. destruct (register_all_spec _ _ _ _ _ _ E) as (_ & _ & Hr). unfold registry_Get. split.
  - intros name Hn. rewrite Hr. assert (filter (λ d, d_Name d = name) ds = []) as -> by (by apply filter_nil_Forall). done.
  - intros d Hd. rewrite Hr. destruct (last (filter (λ d', d_Name d' = d_Name d) ds)) as [d'|] eqn:El.
    + apply last_Some in El as [l' El]. assert (d' ∈ filter (λ d', d_Name d' = d_Name d) ds) as [Hn Hin]%list_elem_of_filter by (rewrite El; apply elem_of_app; right; by left).
      eexists _, d'. split_and!; [done..|]. cbn [t_Spec tool_of sp_Permission Spec]. unfold permission. cbn [t_Options t_Descriptor]. intros req Hp.
      rewrite policy_permission, bool_decide_eq_true, Hp. destruct (decide (o_Permission options ≠ "")) as [Ho|Ho]; [naive_solver|].
      cbn [negb]. destruct (TrustServerAnnotations options); cbn [negb]; [|naive_solver].
      destruct (ReadOnlyHint (Annotations d')); [naive_solver|]. destruct (DestructiveHint (Annotations d')); naive_solver.
    + exfalso. apply last_None in El. assert (d ∈ filter (λ d', d_Name d' = d_Name d) ds) as Hin by (by apply list_elem_of_filter). rewrite El in Hin.
      by apply elem_of_nil in Hin.
Qed.

(** Two tools, one annotated as read-only by a server that is not trusted. *)
Definition demo_client : Client := mkClient
  (Ok [mkDescriptor "search" "" "{}" (mkAnnotations true false false false) ∅; mkDescriptor "drop" "" "{}" (mkAnnotations false true false false) ∅])
  (λ _ _ _, Ok None).
Definition demo_request : PolicyRequest := mkPolicyRequest "run" "u" "s" "search" "" "{}" [PermissionWrite] (mkPolicyContext "" "" "" ∅) ∅.

Lemma mcp_authorization_witness :
  ∃ tool, (RegisterTools (Some ∅) (Some demo_client) (mkOptions "" "" 0 0 false)).1 ≫= (λ r, registry_Get r "search") = Some tool ∧
    pr_Permission demo_request = sp_Permission (t_Spec tool) ∧ pd_Allowed (policy_Decide demo_request) ≠ true.
Proof.
  destruct (RegisterTools (Some ∅) (Some demo_client) (mkOptions "" "" 0 0 false)) as [registry' out] eqn:E.
  destruct out as [specs|e]; [|discriminate E].
  destruct (mcp_authorization ∅ demo_client (mkOptions "" "" 0 0 false) _ registry' specs eq_refl E) as (r' & -> & _ & H).
  destruct (H (mkDescriptor "search" "" "{}" (mkAnnotations true false false false) ∅)) as (tool & d' & Ht & _ & _ & Hreq); [by left|].
  exists tool. split; [exact Ht|]. assert (pr_Permission demo_request = sp_Permission (t_Spec tool)) as Hp.
  { injection E as <- _. cbn in Ht. injection Ht as <-. reflexivity. }
  split; [exact Hp|]. intros Ha. destruct (Hreq demo_request Hp Ha) as (_ & Hno & _). specialize (Hno eq_refl eq_refl).
  apply list_elem_of_singleton in Hno. discriminate Hno.
Defined.

End Mcp.
