(* ===== verification/AgentMemory.v ===== *)
(** goagent's window memory ([src/goagent/memory/window.go]) and the agent as a workflow step
([src/workflowkit/agentstep/agent_step.go]).

A method of [WindowMemory] holds its mutex, so it is one step on the map of sessions; the agent a step runs is a
parameter that answers by the tick. *)

From S2P Require Import Prelude WorkflowRun WorkflowExecutor AgentTools AgentCore.
#[local] Open Scope nat_scope.

(** * [WindowMemory] *)

Module Window.

Record WindowMemory := mkWindow { limit : Z; messages : GoMap (list MemoryMessage) }.
#[global] Instance eta_WindowMemory : Eta WindowMemory := λ m, mkWindow (limit m) (messages m).

Definition NewWindowMemory (limit : Z) : WindowMemory := mkWindow limit ∅.
(** The nil slice for a session that was never saved. *)
Definition Load (m : WindowMemory) (sessionID : string) : list MemoryMessage := [] ++ default [] (messages m !! sessionID).
Definition Save (m : WindowMemory) (sessionID : string) (msgs : list MemoryMessage) : WindowMemory :=
  let copied := [] ++ msgs in
  let copied := if decide (0 < limit m ∧ limit m < Z.of_nat (length copied))%Z
                then drop (Z.to_nat (Z.of_nat (length copied) - limit m)) copied else copied in
  m <| messages := <[sessionID := copied]> (messages m) |>.

(** A history of saves. *)
Definition saves (l : list (string * list MemoryMessage)) (m : WindowMemory) : WindowMemory := foldl (λ m x, Save m x.1 x.2) m l.

Lemma saves_limit l m : limit (saves l m) = limit m.
Proof. revert m. induction l as [|x l IH]; intros m; [done|]. change (saves (x :: l) m) with (saves l (Save m x.1 x.2)). by rewrite IH. Qed.
Lemma saves_app l x l' m : saves (l ++ x :: l') m = saves l' (Save (saves l m) x.1 x.2).
Proof. unfold saves. by rewrite foldl_app. Qed.
Lemma Save_other m s s' msgs : s ≠ s' → Load (Save m s msgs) s' = Load m s'.
Proof. intros Hne. unfold Load, Save. cbn. by rewrite lookup_insert_ne. Qed.

Lemma saves_other l m s : Forall (λ x, x.1 ≠ s) l → Load (saves l m) s = Load m s.
Proof. intros H. revert m. induction H as [|x l Hx _ IH]; intros m; [done|]. change (saves (x :: l) m) with (saves l (Save m x.1 x.2)).
  rewrite IH. by apply Save_other. Qed.

Lemma Save_window m s msgs : ∃ dropped, msgs = dropped ++ Load (Save m s msgs) s ∧
  ((limit m ≤ 0)%Z → dropped = []) ∧ ((0 < limit m)%Z → Z.of_nat (length (Load (Save m s msgs) s)) = Z.min (limit m) (Z.of_nat (length msgs))).
Proof.
  unfold Load, Save. cbn. rewrite lookup_insert_eq. cbn. case_decide as H.
  - eexists. split; [symmetry; apply take_drop|]. split; [lia|]. intros _. rewrite length_drop. lia.
  - exists []. split_and!; [done..|]. lia.
Qed.

(** What a later run of a session starts from: the last messages of the conversation that was saved for it last, at most
[limit] of them when that is positive, without tool calls and their results; other sessions do not matter. *)
Theorem window_recall n before session conversation after :
  Forall (λ x, x.1 ≠ session) after →
  let m := saves (before ++ (session, memoryMessages conversation) :: after) (NewWindowMemory n) in
  let plain := (λ c, mkMessage (msg_Role c) (msg_Content c) "" []) <$>
                 filter (λ c, ¬ (0 < length (msg_ToolCalls c) ∨ msg_Role c = "tool")) conversation in
  ∃ dropped, plain = dropped ++ memoryStateMessages (Load m session) ∧ ((n ≤ 0)%Z → dropped = []) ∧
    ((0 < n)%Z → Z.of_nat (length (memoryStateMessages (Load m session))) = Z.min n (Z.of_nat (length plain))).
Proof.
  intros Ha m plain. unfold m. rewrite saves_app, saves_other by done. set (m0 := saves before _). cbn [fst snd].
  destruct (Save_window m0 session (memoryMessages conversation)) as (dropped & E & H1 & H2).
  assert (limit m0 = n) as El by apply saves_limit. rewrite El in *. set (kept := Load _ session) in *.
  assert (∀ l, Forall (λ x, mm_Role x ≠ "tool") l → length (memoryStateMessages l) = length l ∧ memoryStateMessages l = (λ x, mkMessage (mm_Role x) (mm_Content x) "" []) <$> l) as Hl.
  { intros l. unfold memoryStateMessages. induction 1 as [|x l Hx _ [IH1 IH2]]; [done|]. rewrite filter_cons, decide_True by done. rewrite !fmap_cons, IH2. cbn. by rewrite length_fmap. }
  assert (Forall (λ x, mm_Role x ≠ "tool") (memoryMessages conversation)) as Hf.
  { unfold memoryMessages. apply Forall_fmap, Forall_forall. intros c [Hc _]%list_elem_of_filter. cbn. naive_solver. }
  assert (plain = (λ x, mkMessage (mm_Role x) (mm_Content x) "" []) <$> memoryMessages conversation) as Ep.
  { unfold plain, memoryMessages. by rewrite <-list_fmap_compose. }
  rewrite E in Hf. apply Forall_app in Hf as [_ Hk]. destruct (Hl kept Hk) as [Hk1 Hk2].
  exists ((λ x, mkMessage (mm_Role x) (mm_Content x) "" []) <$> dropped). rewrite Hk1, Hk2, Ep. split_and!.
  - by rewrite E at 1; rewrite fmap_app.
  - intros Hn. by rewrite (H1 Hn).
  - intros Hn. rewrite length_fmap. by apply H2.
Qed.

End Window.

(** * [agentstep] *)

Module AgentStep.

Abbreviation WError := WorkflowRun.Error.

(** What [RunDetailed] returns: a result that may be nil and an error that may be nil. *)
Abbreviation reply := (option RunResult * option WError)%type.

Record AgentStep := mkAgentStep {
  name : string;
  runner : nat → RunRequest → reply;
  builder : option (WorkflowRun → RunRequest);
  mapper : option (WorkflowRun → option RunResult → StepResult)
}.
#[global] Instance eta_AgentStep : Eta AgentStep := λ s, mkAgentStep (name s) (runner s) (builder s) (mapper s).

Definition WithResultMapper (m : option (WorkflowRun → option RunResult → StepResult)) (s : AgentStep) : AgentStep := s <| mapper := m |>.
Definition New (name : string) runner builder (options : list (AgentStep → AgentStep)) : AgentStep :=
  foldl (λ step option, option step) (mkAgentStep name runner builder None) options.

Definition zeroRequest : RunRequest := mkRequest "" "" "" "" ∅ [] (mkPolicyContext "" "" "" ∅).

Definition successResult (result : option RunResult) : StepResult :=
  match result with
  | None => zeroResult <| res_Status := StatusSucceeded |>
  | Some result =>
      let runID := rr_RunID result in
      zeroResult <| res_Status := StatusSucceeded |> <| res_AgentRunID := runID |> <| res_OutputRef := "agent:" +:+ runID |>
                 <| res_Metadata := {["content_preview" := AString (rr_Content result)]} |>
  end.
Definition failedResult (quote : string → string) (result : option RunResult) (err : WError) : StepResult :=
  let out := zeroResult <| res_Status := StatusFailed |> <| res_Error := errText quote err |> in
  match result with
  | None => out
  | Some result =>
      let out := out <| res_AgentRunID := rr_RunID result |> in
      if decide (es_AbortReason (rr_ExecutionSummary result) ≠ "")
      then out <| res_Error := es_AbortReason (rr_ExecutionSummary result) |> else out
  end.

(** [Step.Run]. *)
Definition Run (quote : string → string) (s : AgentStep) (tick : nat) (run : WorkflowRun) : StepResult * option WError :=
  let req := match builder s with Some build => build run | None => zeroRequest end in
  let '(result, err) := runner s tick req in
  match err with
  | Some err => (failedResult quote result err, Some err)
  | None =>
      match mapper s with
      | Some map => (map run result, None)
      | None => (successResult result, None)
      end
  end.

(** As a step of the executor. *)
Definition as_step (quote : string → string) (s : AgentStep) : Step := mkStep (name s) (Run quote s).

(** An agent step reports what its agent did: it fails exactly when the agent returned an error, the run waiting for an
approval included, then with the agent's reason and run, and never as waiting; otherwise the mapper decides, or the step succeeds
with a reference to the run. Its result is one the executor accepts. *)
Theorem agent_step_reports quote s tick run :
  let req := match builder s with Some build => build run | None => zeroRequest end in
  let '(result, err) := step_Run (as_step quote s) tick run in
  err = (runner s tick req).2 ∧
  match runner s tick req with
  | (agent, Some e) =>
      res_Status result = StatusFailed ∧ res_AgentRunID result = match agent with Some r => rr_RunID r | None => "" end ∧
      (∀ r, agent = Some r → es_AbortReason (rr_ExecutionSummary r) ≠ "" → res_Error result = es_AbortReason (rr_ExecutionSummary r))
  | (agent, None) =>
      match mapper s with
      | Some map => result = map run agent
      | None => res_Status result = StatusSucceeded ∧ validateStepResult result = None ∧
                ∀ r, agent = Some r → res_AgentRunID result = rr_RunID r ∧ res_OutputRef result = "agent:" +:+ rr_RunID r
      end
  end.
Proof.
  cbn. unfold Run. destruct (runner s tick _) as [agent [e|]]; cbn.
  - destruct agent as [r|]; cbn; [|done]. split; [done|]. case_decide as Ha; cbn; naive_solver.
  - destruct (mapper s); [done|]. destruct agent as [r|]; cbn; (split; [done|split_and!; [done..|naive_solver]]).
Qed.

End AgentStep.
