(* ===== verification/MemoryEval.v ===== *)
(** memorykit: scores of recall results ([src/memorykit/eval.go]).

The order in which Go ranges over a set is a parameter. *)

From Stdlib Require Import QArith Lqa.
From S2P Require Import Prelude Float64.
#[local] Open Scope Z_scope.

Module MemEval.

Record EvalMemory := mkMemory {
  m_ID : string; m_ProjectID : string; m_Status : string; m_Kind : string; m_Key : string; m_Content : string; m_Vector : list float64
}.
Record EvalCase := mkCase { c_ID : string; Query : string; ExpectedIDs : list string; ForbiddenIDs : list string }.
Record EvalCorpus := mkCorpus { Version : string; Memories : list EvalMemory; CorpusCases : list EvalCase }.
Record EvalReport := mkReport {
  Cases : Z; ExpectedFound : Z; ExpectedTotal : Z; ForbiddenInjected : Z; ForbiddenTotal : Z;
  RecallAtBudget : float64; FalseInjectionRate : float64
}.
#[global] Instance eta_EvalReport : Eta EvalReport := λ r,
  mkReport (Cases r) (ExpectedFound r) (ExpectedTotal r) (ForbiddenInjected r) (ForbiddenTotal r) (RecallAtBudget r) (FalseInjectionRate r).

Inductive Error := ErrDuplicateCase (id : string) | ErrContradiction (case id : string).

Definition stringSet (values : list string) : gset string := foldl (λ set value, {[value]} ∪ set) ∅ values.

Section evaluate.
(** [for id := range set]. *)
Context (range : gset string → list string) (range_perm : ∀ X, range X ≡ₚ elements X).

(** The first identifier in order that is in the other set. *)
Definition overlap (expected forbidden : gset string) : option string := head (filter (λ id, id ∈ forbidden) (range expected)).
Definition count_found (ids returned : gset string) (n : Z) : Z :=
  foldl (λ n id, if decide (id ∈ returned) then n + 1 else n) n (range ids).

Fixpoint score (results : GoMap (list string)) (caseIDs : gset string) (report : EvalReport) (cases : list EvalCase) : res Error EvalReport :=
  match cases with
  | [] => Ok report
  | evalCase :: cases =>
      if decide (c_ID evalCase ∈ caseIDs) then Err (ErrDuplicateCase (c_ID evalCase))
      else
        let expected := stringSet (ExpectedIDs evalCase) in
        let forbidden := stringSet (ForbiddenIDs evalCase) in
        match overlap expected forbidden with
        | Some id => Err (ErrContradiction (c_ID evalCase) id)
        | None =>
            let returned := stringSet (default [] (results !! c_ID evalCase)) in
            score results ({[c_ID evalCase]} ∪ caseIDs)
              (report <| ExpectedTotal := ExpectedTotal report + Z.of_nat (size expected) |>
                      <| ForbiddenTotal := ForbiddenTotal report + Z.of_nat (size forbidden) |>
                      <| ExpectedFound := count_found expected returned (ExpectedFound report) |>
                      <| ForbiddenInjected := count_found forbidden returned (ForbiddenInjected report) |>) cases
        end
  end.

Definition rate (found total : Z) : float64 := if decide (total ≠ 0) then fdiv (float_of_int found) (float_of_int total) else 0%Q.
Definition Evaluate (results : GoMap (list string)) (cases : list EvalCase) : res Error EvalReport :=
  let? report := score results ∅ (mkReport (Z.of_nat (length cases)) 0 0 0 0 0%Q 0%Q) cases in
  Ok (report <| RecallAtBudget := rate (ExpectedFound report) (ExpectedTotal report) |>
             <| FalseInjectionRate := rate (ForbiddenInjected report) (ForbiddenTotal report) |>).

(** * Lemmas *)

Lemma stringSet_elem l x : x ∈ stringSet l ↔ x ∈ l.
Proof.
  unfold stringSet. assert (∀ X : gset string, x ∈ foldl (λ set value, {[value]} ∪ set) X l ↔ x ∈ l ∨ x ∈ X) as H; [|rewrite H; set_solver].
  induction l as [|y l IH]; intros X; cbn; [set_solver|]. rewrite IH. set_solver.
Qed.

Lemma count_found_size ids returned n : count_found ids returned n = n + Z.of_nat (size (ids ∩ returned)).
Proof.
  unfold count_found. assert (∀ l n, foldl (λ n id, if decide (id ∈ returned) then n + 1 else n) n l = n + Z.of_nat (length (filter (.∈ returned) l))) as ->.
  { clear. induction l as [|x l IH]; intros n; cbn [foldl]; [cbn; lia|]. rewrite IH, filter_cons. case_decide; cbn [length]; lia. }
  do 2 f_equal. rewrite (range_perm ids). unfold size, set_size. cbn. apply Permutation_length. apply NoDup_Permutation.
  - apply NoDup_filter, NoDup_elements.
  - apply NoDup_elements.
  - intros x. rewrite list_elem_of_filter, !elem_of_elements. set_solver.
Qed.

(** The sums over the cases of the identifiers that a side asks for, and of those that were returned. *)
Definition total (side : EvalCase → list string) (cases : list EvalCase) : Z :=
  foldr (λ c n, Z.of_nat (size (stringSet (side c))) + n) 0 cases.
Definition found (results : GoMap (list string)) (side : EvalCase → list string) (cases : list EvalCase) : Z :=
  foldr (λ c n, Z.of_nat (size (stringSet (side c) ∩ stringSet (default [] (results !! c_ID c)))) + n) 0 cases.

Lemma found_bounds results side cases : 0 ≤ found results side cases ≤ total side cases.
Proof.
  induction cases as [|c cases IH]; [done|]. cbn [found total foldr] in *. fold (found results side cases) (total side cases).
  assert (size (stringSet (side c) ∩ stringSet (default [] (results !! c_ID c))) ≤ size (stringSet (side c)))%nat by (apply subseteq_size; set_solver).
  fold (found results side cases) (total side cases) in IH. lia.
Qed.

Lemma score_spec results seen report cases report' :
  score results seen report cases = Ok report' →
  NoDup (c_ID <$> cases) ∧ Forall (λ c, (c_ID c ∉ seen) ∧ (∀ id, id ∈ ExpectedIDs c → id ∉ ForbiddenIDs c)) cases ∧ Cases report' = Cases report ∧
  ExpectedFound report' = ExpectedFound report + found results ExpectedIDs cases ∧ ExpectedTotal report' = ExpectedTotal report + total ExpectedIDs cases ∧
  ForbiddenInjected report' = ForbiddenInjected report + found results ForbiddenIDs cases ∧ ForbiddenTotal report' = ForbiddenTotal report + total ForbiddenIDs cases.
Proof.
  revert seen report. induction cases as [|c cases IH]; intros seen report; cbn [score].
  { intros [= <-]. cbn. split_and!; try lia; constructor. }
  case_decide as Hs; [done|]. cbv zeta. destruct (overlap _ _) as [id|] eqn:Ho; [done|]. intros H. destruct (IH _ _ H) as (Hn & Hf & HC & H1 & H2 & H3 & H4).
  split_and!; [| |done| | | |].
  - apply NoDup_cons. split; [|done]. intros (c' & E & Hc')%list_elem_of_fmap. rewrite Forall_forall in Hf. apply Hf in Hc' as [Hc' _]. set_solver.
  - constructor.
    + split; [done|]. intros id He Hb. unfold overlap in Ho. apply head_None in Ho. apply stringSet_elem in He, Hb.
      assert (id ∈ filter (λ id, id ∈ stringSet (ForbiddenIDs c)) (range (stringSet (ExpectedIDs c)))) as Hin; [|rewrite Ho in Hin; by apply elem_of_nil in Hin].
      apply list_elem_of_filter. split; [done|]. by rewrite range_perm, elem_of_elements.
    + eapply Forall_impl; [exact Hf|]. set_solver.
  - rewrite H1. cbn. rewrite count_found_size. unfold found. cbn. lia.
  - rewrite H2. cbn. unfold total. cbn. lia.
  - rewrite H3. cbn. rewrite count_found_size. unfold found. cbn. lia.
  - rewrite H4. cbn. unfold total. cbn. lia.
Qed.

Lemma rate_bounds x y : 0 ≤ x ≤ y → (0 <= rate x y <= 1)%Q.
Proof.
  intros H. unfold rate. case_decide as Hy; [|lra]. unfold fdiv, float_of_int.
  assert (1 <= fl (inject_Z y))%Q as H1.
  { apply (Qle_trans _ (fl (inject_Z 1))); [done|]. apply fl_mono. rewrite <-Zle_Qle. lia. }
  assert (fl (inject_Z x) <= fl (inject_Z y))%Q as H2 by (apply fl_mono; rewrite <-Zle_Qle; lia).
  assert (0 <= fl (inject_Z x))%Q as H3 by (apply fl_nonneg; change 0%Q with (inject_Z 0); rewrite <-Zle_Qle; lia).
  split.
  - apply fl_nonneg. apply Qle_shift_div_l; lra.
  - change 1%Q with (inject_Z 1). apply fl_le_int; [|done]. apply Qle_shift_div_r; [lra|]. change (inject_Z 1) with 1%Q. lra.
Qed.

(** A report counts identifiers and not occurrences: for cases with distinct names, none of which expects what it forbids, the totals
are the numbers of distinct identifiers asked for and of those among the results of the case, and the rates are their
quotients, between 0 and 1; the order in which sets are visited does not matter. *)
Theorem evaluation_exact results cases report :
  Evaluate results cases = Ok report →
  NoDup (c_ID <$> cases) ∧ Forall (λ c, ∀ id, id ∈ ExpectedIDs c → id ∉ ForbiddenIDs c) cases ∧ Cases report = Z.of_nat (length cases) ∧
  ExpectedFound report = found results ExpectedIDs cases ∧ ExpectedTotal report = total ExpectedIDs cases ∧
  ForbiddenInjected report = found results ForbiddenIDs cases ∧ ForbiddenTotal report = total ForbiddenIDs cases ∧
  RecallAtBudget report = rate (found results ExpectedIDs cases) (total ExpectedIDs cases) ∧
  FalseInjectionRate report = rate (found results ForbiddenIDs cases) (total ForbiddenIDs cases) ∧
  (0 <= RecallAtBudget report <= 1)%Q ∧ (0 <= FalseInjectionRate report <= 1)%Q.
Proof.
  unfold Evaluate. destruct (score _ _ _ cases) as [r|e] eqn:E; [|done]. intros [= <-].
  destruct (score_spec _ _ _ _ _ E) as (Hn & Hf & HC & H1 & H2 & H3 & H4). cbn in HC, H1, H2, H3, H4 |- *. rewrite H1, H2, H3, H4.
  split_and!; try done; try (apply rate_bounds, found_bounds). eapply Forall_impl; [exact Hf|]. by intros c [_ ?].
Qed.

End evaluate.

Lemma evaluation_sample :
  Evaluate elements {["q" := ["a"; "a"; "x"]]} [mkCase "q" "" ["a"; "b"] ["x"]; mkCase "r" "" [] ["y"]] =
  Ok (mkReport 2 1 2 1 2 (1 # 2) (1 # 2)).
Proof. vm_compute. reflexivity. Qed.

End MemEval.
