(* ===== verification/OpenAI.v ===== *)
(** The OpenAI-compatible provider of goagent ([src/goagent/extensions/providers/openaiapi]): requests, responses and
server-sent events.

Parameters are [encoding/json], [url.Parse] and the HTTP exchange, which answers a request with a status and the
reads of its body; the consumer of a stream answers each delta by its number. *)

From S2P Require Import Prelude GoPath AgentTools AgentCore LlmClient.
#[local] Open Scope Z_scope.

Module OpenAI.

Abbreviation ChatDelta := Client.ChatDelta.
Abbreviation ToolCallDelta := Client.ToolCallDelta.

(** * Errors *)

Inductive Cause :=
| ErrInvalidConfig | ErrMaxOutputTokensExceeded | ErrRequestTooLarge | ErrResponseTooLarge | ErrInvalidJSON
| ErrUsageMissing | ErrRedirectBlocked | ErrInvalidResponse.

(** [NErr] is an error of the HTTP client, [DErr] one of the consumer. *)
Inductive Error (NErr DErr : Type) :=
| ProviderError (class : string) (dispatched : bool) (cause : Cause)
| ResponseError (StatusCode : Z)
| ErrNet (e : NErr)
| ErrDelta (e : DErr)
| ErrCtx (e : CtxErr).
Arguments ProviderError {NErr DErr}.
Arguments ResponseError {NErr DErr}.
Arguments ErrNet {NErr DErr}.
Arguments ErrDelta {NErr DErr}.
Arguments ErrCtx {NErr DErr}.

(** * Configuration *)

Record URL := mkURL { Scheme : string; Host : string; Path : string }.
Record Limits := mkLimits { MaxOutputTokens : Z; MaxRequestBytes : Z; MaxResponseBytes : Z }.
(** [Headers] in the order Go visits them. *)
Record Config := mkConfig { BaseURL : string; APIKey : string; Model : string; Headers : list (string * string); cfg_Limits : Limits }.
Record Provider := mkProvider { config : Config; endpoint : string; limits : Limits }.

(** [strings.TrimRight(s, "/")] and [strings.HasSuffix]. *)
Definition trim_right (p : ascii → bool) (s : string) : string :=
  foldr (λ c s, if p c && bool_decide (s = "") then "" else String c s) "" (String.list_ascii_of_string s).
Definition HasSuffix (s suffix : string) : bool :=
  bool_decide (drop (length (String.list_ascii_of_string s) - length (String.list_ascii_of_string suffix)) (String.list_ascii_of_string s)
               = String.list_ascii_of_string suffix).

Lemma trim_right_app p s t : trim_right p (s +:+ t) = if decide (trim_right p t = "") then trim_right p s else s +:+ trim_right p t.
Proof.
  unfold trim_right. rewrite list_ascii_app, foldr_app. induction s as [|c s IH]; cbn [String.list_ascii_of_string foldr].
  - by case_decide.
  - rewrite IH. case_decide as E; [done|]. rewrite (bool_decide_false (s +:+ _ = "")); [by rewrite andb_false_r|].
    intros E'. apply E. destruct s; [done|]. done.
Qed.
Lemma HasSuffix_app s t : HasSuffix (s +:+ t) t = true.
Proof. unfold HasSuffix. apply bool_decide_eq_true. rewrite list_ascii_app, length_app, Nat.add_sub. by rewrite drop_app_length. Qed.
Lemma substring_app s t : String.substring 0 (String.length s) (s +:+ t) = s.
Proof. induction s as [|c s IH]; [by destruct t|]. change (String c s +:+ t) with (String c (s +:+ t)). cbn. by rewrite IH. Qed.
Lemma concat_app (l l' : list string) : String.concat "" (l ++ l') = String.concat "" l +:+ String.concat "" l'.
Proof.
  induction l as [|x l IH]; [done|]. rewrite <-app_comm_cons. destruct l as [|y l].
  - cbn [app]. destruct l' as [|z l']; [by rewrite string_app_nil_r|done].
  - cbn [String.concat] in *. rewrite <-app_comm_cons in *. cbn [String.concat] in *. rewrite IH. by rewrite !string_app_assoc.
Qed.
Lemma concat_cons x (l : list string) : String.concat "" (x :: l) = x +:+ String.concat "" l.
Proof. exact (concat_app [x] l). Qed.

Section config.
Context {NErr DErr : Type} (Parse : string → option URL) (URLString : URL → string).
(** [strings.EqualFold]. *)
Context (EqualFold : string → string → bool).

Definition chatCompletionsURL (baseURL : string) : option string :=
  match Parse (trim_right (λ c, bool_decide (c = slash)) baseURL) with
  | None => None
  | Some parsed =>
      if decide (Scheme parsed = "" ∨ Host parsed = "") then None
      else if HasSuffix (Path parsed) "/chat/completions" then Some (URLString parsed)
      else Some (URLString (mkURL (Scheme parsed) (Host parsed)
                              (trim_right (λ c, bool_decide (c = slash)) (Path parsed) +:+ "/chat/completions")))
  end.

Definition New (config : Config) : res (Error NErr DErr) Provider :=
  let limits := cfg_Limits config in
  if decide (MaxOutputTokens limits < 0 ∨ MaxRequestBytes limits < 0 ∨ MaxResponseBytes limits < 0)
  then Err (ProviderError "configuration_error" false ErrInvalidConfig)
  else if decide (BaseURL config = "") then Err (ProviderError "configuration_error" false ErrInvalidConfig)
  else if decide (Model config = "") then Err (ProviderError "configuration_error" false ErrInvalidConfig)
  else match chatCompletionsURL (BaseURL config) with
  | None => Err (ProviderError "configuration_error" false ErrInvalidConfig)
  | Some endpoint => Ok (mkProvider config endpoint limits)
  end.

Definition sameOrigin (l r : option URL) : bool :=
  match l, r with
  | Some l, Some r => EqualFold (Scheme l) (Scheme r) && EqualFold (Host l) (Host r)
  | _, _ => false
  end.

(** The [CheckRedirect] that [New] installs; [original] is the one of the host's client. *)
Definition CheckRedirect (original : option (option URL → list (option URL) → option NErr)) (req : option URL) (via : list (option URL))
    : option (Error NErr DErr) :=
  let blocked := match via with first :: _ => negb (sameOrigin req first) | [] => false end in
  if blocked then Some (ProviderError "redirect_blocked" true ErrRedirectBlocked)
  else match original with
  | Some check => ErrNet <$> check req via
  | None => if decide (10 ≤ length via)%nat then Some (ProviderError "redirect_blocked" true ErrRedirectBlocked) else None
  end.

(** The requests of a call that was redirected, first the original one. *)
Fixpoint followed original (via rest : list URL) : Prop :=
  match rest with
  | [] => True
  | u :: rest => CheckRedirect original (Some u) (Some <$> via) = None ∧ followed original (via ++ [u]) rest
  end.

(** Redirects never leave the origin of the first request, to which the key of the host belongs, whatever the host's own
client allows; without a rule of the host's there are at most ten requests. *)
Theorem redirects_stay original first rest :
  followed original [first] rest →
  Forall (λ u, sameOrigin (Some u) (Some first) = true) rest ∧ (original = None → (length rest < 10)%nat).
Proof.
  assert (∀ rest via, followed original (first :: via) rest → original = None → (length via < 10 → length via + length rest < 10)%nat) as Hlen.
  { intros rest0. induction rest0 as [|u rest' IH]; intros via; cbn [followed]; [intros _ _; cbn; lia|]. intros [Hc Hf] Ho Hv. specialize (IH (via ++ [u]) Hf Ho).
    rewrite length_app in IH. cbn in IH |- *. unfold CheckRedirect in Hc. cbn [fmap list_fmap] in Hc. subst original. destruct (sameOrigin _ _); [|done]. cbn in Hc.
    case_decide as Hl; [done|]. change (length (_ :: ?x)) with (S (length x)) in Hl. rewrite length_fmap in Hl. lia. }
  intros H. split; [|intros Ho; apply (Hlen rest [] H Ho); cbn; lia]. clear Hlen.
  change [first] with (first :: []) in H. revert H. generalize (@nil URL). induction rest as [|u rest' IH]; intros via; cbn [followed]; [constructor|].
  intros [Hc Hf]. constructor; [|by eapply (IH (via ++ [u]))]. unfold CheckRedirect in Hc. cbn [fmap list_fmap] in Hc. by destruct (sameOrigin (Some u) (Some first)).
Qed.

End config.

(** * Requests *)

Record chatToolCall := mkToolCall { tc_ID : string; tc_Type : string; tc_Name : string; tc_Arguments : string }.
#[global] Instance eta_chatToolCall : Eta chatToolCall := λ c, mkToolCall (tc_ID c) (tc_Type c) (tc_Name c) (tc_Arguments c).
Record chatMessage := mkChatMessage { cm_Role : string; cm_Content : string; cm_ToolCallID : string; cm_ToolCalls : list chatToolCall }.
Record chatTool := mkChatTool { ct_Type : string; ct_Name : string; ct_Description : string; ct_Parameters : RawMessage }.
(** [StreamOptions] is present exactly when [Stream] is set; it asks for the usage. *)
Record chatCompletionsRequest := mkBody {
  b_Model : string; b_Messages : list chatMessage; b_Tools : list chatTool; b_MaxTokens : Z; b_Stream : bool; b_IncludeUsage : option bool
}.
Record chatUsage := mkChatUsage { PromptTokens : Z; CompletionTokens : Z }.
Record chatResponseMessage := mkResponseMessage { rm_Content : string; rm_ToolCalls : list chatToolCall }.
Record chatCompletionsResponse := mkCompletion { Choices : list chatResponseMessage; r_Usage : option chatUsage }.

Definition buildMessageToolCalls (calls : list ToolCall) : list chatToolCall :=
  (λ call, mkToolCall (call_ID call) "function" (call_Name call) (call_Input call)) <$> calls.
Definition buildMessages (messages : list Message) : list chatMessage :=
  (λ m, mkChatMessage (msg_Role m) (msg_Content m) (msg_ToolCallID m) (buildMessageToolCalls (msg_ToolCalls m))) <$> messages.
Definition default_parameters : string :=
  "{" +:+ String "034" "type" +:+ String "034" ":" +:+ String "034" "object" +:+ String "034" "," +:+ String "034" "properties" +:+
  String "034" ":{}," +:+ String "034" "additionalProperties" +:+ String "034" ":true}".
Definition toolParameters (schema : ToolSchema) : RawMessage :=
  if decide (0 < String.length (ts_JSONSchema schema))%nat then ts_JSONSchema schema else default_parameters.
Definition buildTools (specs : list ToolSpec) : list chatTool :=
  (λ spec, mkChatTool "function" (sp_Name spec) (sp_Description spec) (toolParameters (sp_Schema spec))) <$> specs.

(** * Responses *)

(** How a body ends: at its end, or with an error; [ReadTooLarge] is that of the bounded reader. *)
Inductive read_end := ReadEOF | ReadFailed | ReadTooLarge.
Record Response := mkResponse { StatusCode : Z; MediaType : string; ContentLength : Z; Reads : list string; End_ : read_end }.
Record Request := mkRequest { r_URL : string; r_Headers : GoMap string; r_Body : string }.

(** A piece of a stream: one [choices[0].delta], if there is one, and the usage. *)
Record streamCall := mkStreamCall { sc_Index : Z; sc_ID : string; sc_Name : string; sc_Arguments : string }.
Record streamDelta := mkStreamDelta { sd_Content : string; sd_ToolCalls : list streamCall }.
Record streamChunk := mkChunk { ch_Choices : list streamDelta; ch_Usage : option chatUsage }.

(** [http.CanonicalHeaderKey]. *)
Definition is_token (c : ascii) : bool :=
  let n := nat_of_ascii c in
  (bool_decide (48 ≤ n ≤ 57) || bool_decide (65 ≤ n ≤ 90) || bool_decide (97 ≤ n ≤ 122) ||
   bool_decide (c ∈ String.list_ascii_of_string "!#$%&'*+-.^_`|~"))%nat.
Definition upper_ascii (c : ascii) : ascii :=
  let n := nat_of_ascii c in if decide (97 ≤ n ≤ 122)%nat then ascii_of_nat (n - 32) else c.
Definition lower_ascii (c : ascii) : ascii :=
  let n := nat_of_ascii c in if decide (65 ≤ n ≤ 90)%nat then ascii_of_nat (n + 32) else c.
Fixpoint canonical (upper : bool) (l : list ascii) : list ascii :=
  match l with
  | [] => []
  | c :: l => (if upper then upper_ascii c else lower_ascii c) :: canonical (bool_decide (c = "-"%char)) l
  end.
Definition CanonicalHeaderKey (key : string) : string :=
  if forallb is_token (String.list_ascii_of_string key)
  then String.string_of_list_ascii (canonical true (String.list_ascii_of_string key)) else key.
Definition header_Set (h : GoMap string) (key value : string) : GoMap string := <[CanonicalHeaderKey key := value]> h.

Section client.
Context {NErr DErr : Type}.
#[local] Abbreviation Error := (Error NErr DErr).
Context (json_request : chatCompletionsRequest → option string) (json_response : string → option chatCompletionsResponse)
        (json_chunk : string → option streamChunk).
(** Whether a request can be built for a URL, and the exchange. *)
Context (valid_url : string → bool) (Do : Request → res NErr Response).

Definition normalizedMaxOutputTokens (requested limit : Z) : res Error Z :=
  if decide (requested < 0) then Err (ProviderError "configuration_error" false ErrInvalidConfig)
  else if decide (0 < limit ∧ limit < requested) then Err (ProviderError "budget_exceeded" false ErrMaxOutputTokensExceeded)
  else Ok requested.

Definition requestPayload (c : Provider) (req : ChatRequest) (stream : bool) : res Error string :=
  let? maxTokens := normalizedMaxOutputTokens (cr_MaxOutputTokens req) (MaxOutputTokens (limits c)) in
  let body := mkBody (Model (config c)) (buildMessages (cr_Messages req)) (buildTools (cr_Tools req)) maxTokens stream
                (if stream then Some true else None) in
  match json_request body with
  | None => Err (ProviderError "invalid_json" false ErrInvalidJSON)
  | Some payload =>
      if decide (0 < MaxRequestBytes (limits c) ∧ MaxRequestBytes (limits c) < Z.of_nat (String.length payload))
      then Err (ProviderError "request_too_large" false ErrRequestTooLarge)
      else Ok payload
  end.
Definition providerRequestPayload (c : Provider) (req : ChatRequest) : res Error string := requestPayload c req false.

Definition build_request (c : Provider) (payload : string) : Request :=
  let h := header_Set ∅ "Content-Type" "application/json" in
  let h := if decide (APIKey (config c) ≠ "") then header_Set h "Authorization" ("Bearer " +:+ APIKey (config c)) else h in
  mkRequest (endpoint c) (foldl (λ h kv, header_Set h kv.1 kv.2) h (Headers (config c))) payload.

(** [post], and the requests that were sent. *)
Definition post (c : Provider) (payload : string) : res Error Response * list Request :=
  if negb (valid_url (endpoint c)) then (Err (ProviderError "configuration_error" false ErrInvalidConfig), [])
  else
    let req := build_request c payload in
    (match Do req with
     | Err e => Err (ErrNet e)
     | Ok resp => if decide (StatusCode resp < 200 ∨ 300 ≤ StatusCode resp) then Err (ResponseError (StatusCode resp)) else Ok resp
     end, [req]).

(** [io.ReadAll], of at most [n] bytes when given: the bytes, unless reading failed before the limit. *)
Definition read_all (resp : Response) (n : option nat) : option string :=
  let all := String.concat "" (Reads resp) in
  match n with
  | Some n => if decide (n ≤ String.length all)%nat then Some (String.substring 0 n all)
              else if End_ resp is ReadEOF then Some all else None
  | None => if End_ resp is ReadEOF then Some all else None
  end.
Definition readResponseBody (resp : Response) (maxResponseBytes : Z) : res Error string :=
  if decide (maxResponseBytes ≤ 0) then
    match read_all resp None with
    | None => Err (ProviderError "invalid_response" true ErrInvalidResponse)
    | Some data => Ok data
    end
  else if decide (maxResponseBytes < ContentLength resp) then Err (ProviderError "response_too_large" true ErrResponseTooLarge)
  else match read_all resp (Some (Z.to_nat (maxResponseBytes + 1))) with
  | None => Err (ProviderError "invalid_response" true ErrInvalidResponse)
  | Some data =>
      if decide (maxResponseBytes < Z.of_nat (String.length data)) then Err (ProviderError "response_too_large" true ErrResponseTooLarge)
      else Ok data
  end.

Definition chatResponse (content : string) (calls : list chatToolCall) (usage : chatUsage) : res Error ChatResponse :=
  if existsb (λ call, bool_decide (tc_ID call = "" ∨ tc_Name call = "")) calls
  then Err (ProviderError "tool_call_invalid" true ErrInvalidResponse)
  else Ok (mkChatResponse content ((λ call, mkCall (tc_ID call) (tc_Name call) (tc_Arguments call)) <$> calls)
             (mkUsage (PromptTokens usage) (CompletionTokens usage))).
Definition parseChatResponse (data : string) : res Error ChatResponse :=
  match json_response data with
  | None => Err (ProviderError "invalid_json" true ErrInvalidJSON)
  | Some decoded =>
      match r_Usage decoded, Choices decoded with
      | None, _ => Err (ProviderError "usage_missing" true ErrUsageMissing)
      | Some _, [] => Err (ProviderError "invalid_response" true ErrInvalidResponse)
      | Some usage, message :: _ => chatResponse (rm_Content message) (rm_ToolCalls message) usage
      end
  end.

Definition Chat (c : Provider) (req : ChatRequest) : res Error ChatResponse * list Request :=
  match providerRequestPayload c req with
  | Err e => (Err e, [])
  | Ok payload =>
      let '(r, sent) := post c payload in
      (let? resp := r in let? data := readResponseBody resp (MaxResponseBytes (limits c)) in parseChatResponse data, sent)
  end.

(** * Server-sent events *)

(** [boundedReader]: the bytes it hands on of the reads, and how they end. *)
Fixpoint bounded_reads (remaining : Z) (reads : list string) (e : read_end) : string * read_end :=
  match reads with
  | [] => ("", e)
  | data :: reads =>
      let remaining := remaining - Z.of_nat (String.length data) in
      if decide (remaining < 0) then ("", ReadTooLarge)
      else let '(rest, e) := bounded_reads remaining reads e in (data +:+ rest, e)
  end.

Definition newline : ascii := "010".
Definition is_eol (c : ascii) : bool := bool_decide (c = "013"%char ∨ c = newline).

(** What an event, or a line, leaves: the data collected, the state of the handler, and whether to go on. *)
Inductive verdict := GoOn | StreamDone | Failed (e : Error).

Section events.
Context {S : Type} (handle : S → string → S * option Error).

Definition dispatch (data : string) (s : S) : S * verdict :=
  if decide (data = "") then (s, GoOn)
  else
    let event := if HasSuffix data (String newline "") then String.substring 0 (String.length data - 1) data else data in
    if decide (event = "[DONE]") then (s, StreamDone)
    else match handle s event with
    | (s, None) => (s, GoOn)
    | (s, Some e) => (s, Failed e)
    end.

(** A line that is not empty before its end is trimmed. *)
Definition read_line (line data : string) (s : S) : string * S * verdict :=
  let line := trim_right is_eol line in
  if decide (line = "") then let '(s, v) := dispatch data s in ("", s, v)
  else if HasPrefix line "data:"
  then (data +:+ TrimPrefix (TrimPrefix line "data:") " " +:+ String newline "", s, GoOn)
  else (data, s, GoOn).

(** The lines of the body: all but the last end in a newline; the last one, if any, comes with the end of the body. *)
Fixpoint read_lines (lines : list string) (e : read_end) (data : string) (s : S) : S * option Error :=
  match lines with
  | [] => (s, None)
  | [last] =>
      let '(data, s, v) := if decide (last = "") then (data, s, GoOn) else read_line last data s in
      match v with
      | StreamDone => (s, None)
      | Failed err => (s, Some err)
      | GoOn =>
          match e with
          | ReadEOF => match dispatch data s with
                       | (s, Failed err) => (s, Some err)
                       | (s, _) => (s, None)
                       end
          | ReadTooLarge => (s, Some (ProviderError "response_too_large" true ErrResponseTooLarge))
          | ReadFailed => (s, Some (ProviderError "invalid_response" true ErrInvalidResponse))
          end
      end
  | line :: lines =>
      match read_line (line +:+ String newline "") data s with
      | (data, s, GoOn) => read_lines lines e data s
      | (_, s, StreamDone) => (s, None)
      | (_, s, Failed err) => (s, Some err)
      end
  end.
Definition readServerSentEvents (body : string) (e : read_end) (s : S) : S * option Error :=
  read_lines (split newline body) e "" s.

(** A property that the handler keeps as long as it does not fail. *)
Lemma dispatch_keeps (P : S → Prop) data s s' v :
  (∀ s e s', P s → handle s e = (s', None) → P s') → P s → dispatch data s = (s', v) → (∀ e, v ≠ Failed e) → P s'.
Proof.
  intros HP Hs. unfold dispatch. case_decide; [by intros [= <- <-]|]. cbv zeta. case_decide; [by intros [= <- <-]|].
  destruct (handle s _) as [s1 [e|]] eqn:E; intros [= <- <-] Hv; [by edestruct Hv|by eapply HP].
Qed.
Lemma read_line_keeps (P : S → Prop) line data s data' s' v :
  (∀ s e s', P s → handle s e = (s', None) → P s') → P s → read_line line data s = (data', s', v) → (∀ e, v ≠ Failed e) → P s'.
Proof.
  intros HP Hs. unfold read_line. cbv zeta. case_decide; [|by destruct (HasPrefix _ _); intros [= _ <- <-]].
  destruct (dispatch data s) as [s1 v1] eqn:E. intros [= <- <- <-] Hv. by eapply dispatch_keeps.
Qed.
Lemma read_lines_keeps (P : S → Prop) lines e data s s' :
  (∀ s e s', P s → handle s e = (s', None) → P s') → P s → read_lines lines e data s = (s', None) → P s'.
Proof.
  intros HP. revert data s. induction lines as [|line lines IH]; intros data s Hs; [by intros [= <-]|]. destruct lines as [|next lines].
  - cbn [read_lines]. destruct (if decide (line = "") then _ else _) as [[data1 s1] v1] eqn:E1.
    assert ((∀ err, v1 ≠ Failed err) → P s1) as H1.
    { case_decide; [by injection E1 as _ <- _|]. intros Hv. by eapply read_line_keeps. }
    destruct v1; [|by intros [= <-]; apply H1|done]. specialize (H1 ltac:(done)). destruct e; [|done..].
    destruct (dispatch data1 s1) as [s2 v2] eqn:E2. destruct v2; [| |done]; intros [= <-]; by eapply dispatch_keeps.
  - change (read_lines (line :: next :: lines) e data s) with
      (match read_line (line +:+ String newline "") data s with
       | (data, s, GoOn) => read_lines (next :: lines) e data s
       | (_, s, StreamDone) => (s, None)
       | (_, s, Failed err) => (s, Some err)
       end).
    destruct (read_line _ data s) as [[data1 s1] v1] eqn:E1. destruct v1; [|intros [= <-]; by eapply read_line_keeps|done].
    apply IH. by eapply read_line_keeps.
Qed.

(** * Framing *)

(** An event as a server writes it: its lines, and an empty one. *)
Definition eol : string := String newline "".
Definition data_line (l : string) : string := "data: " +:+ l +:+ eol.
Definition write_event (lines : list string) : string := String.concat "" (data_line <$> lines) +:+ eol.
Definition write_events (events : list (list string)) : string := String.concat "" (write_event <$> events).

Record writable (lines : list string) : Prop := {
  w_some : lines ≠ [];
  w_lines : Forall (λ l, without newline l ∧ trim_right is_eol l = l) lines;
  w_data : join newline lines ≠ "[DONE]"
}.

(** The handler on one event after the other. *)
Fixpoint feed (events : list string) (s : S) : S * option Error :=
  match events with
  | [] => (s, None)
  | event :: events => match handle s event with (s, None) => feed events s | (s, Some err) => (s, Some err) end
  end.

Lemma read_lines_cons line lines e data s : lines ≠ [] →
  read_lines (line :: lines) e data s =
  match read_line (line +:+ eol) data s with
  | (data, s, GoOn) => read_lines lines e data s
  | (_, s, StreamDone) => (s, None)
  | (_, s, Failed err) => (s, Some err)
  end.
Proof. by destruct lines. Qed.

Lemma read_data l data s : trim_right is_eol l = l → read_line (data_line l) data s = (data +:+ l +:+ eol, s, GoOn).
Proof.
  intros Hl. unfold read_line, data_line. cbv zeta.
  assert (trim_right is_eol ("data: " +:+ l +:+ eol) = "data: " +:+ l) as ->.
  { assert (trim_right is_eol (l +:+ eol) = l) as Hle by (rewrite trim_right_app; change (trim_right is_eol eol) with ""; by rewrite decide_True).
    rewrite trim_right_app, Hle. case_decide as E; [by rewrite E|done]. }
  rewrite decide_False by done. done.
Qed.

Lemma dispatch_event lines s : writable lines → dispatch (String.concat "" ((λ l, l +:+ eol) <$> lines)) s =
  match handle s (join newline lines) with (s, None) => (s, GoOn) | (s, Some err) => (s, Failed err) end.
Proof.
  intros [Hne _ Hd]. assert (String.concat "" ((λ l, l +:+ eol) <$> lines) = join newline lines +:+ eol) as ->.
  { clear Hd. induction lines as [|l lines IH]; [done|]. destruct lines as [|l' lines]; [done|].
    rewrite fmap_cons, concat_cons, (IH ltac:(done)), (join_cons newline l (l' :: lines)) by done.
    rewrite <-!string_app_assoc. done. }
  unfold dispatch. rewrite decide_False by (intros E; apply (f_equal String.length) in E; rewrite length_string_app in E; cbn in E; lia).
  rewrite HasSuffix_app. cbv zeta. rewrite length_string_app. cbn [String.length eol]. rewrite Nat.add_sub, substring_app, decide_False by done. done.
Qed.

(** The lines of an event, then what follows. *)
Lemma split_event lines rest :
  Forall (λ l, without newline l ∧ trim_right is_eol l = l) lines →
  split newline (write_event lines +:+ rest) = ((λ l, "data: " +:+ l) <$> lines) ++ "" :: split newline rest.
Proof.
  unfold write_event. induction 1 as [|l lines [Hl _] _ IH]; [done|]. rewrite fmap_cons, concat_cons.
  unfold data_line at 1. rewrite <-!string_app_assoc. change (eol +:+ ?x) with (String newline x) at 1.
  rewrite (string_app_assoc "data: "), split_app_sep by (by apply without_app). cbn [fmap list_fmap app]. by rewrite <-IH, <-!string_app_assoc.
Qed.

Lemma read_event lines data rest e s :
  Forall (λ l, without newline l ∧ trim_right is_eol l = l) lines → rest ≠ [] →
  read_lines (((λ l, "data: " +:+ l) <$> lines) ++ "" :: rest) e data s =
  match dispatch (data +:+ String.concat "" ((λ l, l +:+ eol) <$> lines)) s with
  | (s, GoOn) => read_lines rest e "" s
  | (s, StreamDone) => (s, None)
  | (s, Failed err) => (s, Some err)
  end.
Proof.
  intros Hl Hr. revert data. induction Hl as [|l lines [_ Ht] _ IH]; intros data.
  - cbn [fmap list_fmap app String.concat]. rewrite read_lines_cons by done. unfold read_line at 1. change (trim_right is_eol ("" +:+ eol)) with "".
    cbv zeta. rewrite decide_True by done. rewrite string_app_nil_r. by destruct (dispatch data s) as [s1 []].
  - rewrite fmap_cons, <-app_comm_cons, read_lines_cons by (by destruct lines). rewrite <-string_app_assoc. rewrite (read_data l) by done.
    rewrite IH, fmap_cons, concat_cons. by rewrite !string_app_assoc.
Qed.

(** Events that were written, whatever follows them. *)
Lemma read_written events rest e s :
  Forall writable events →
  readServerSentEvents (write_events events +:+ rest) e s =
  match feed (join newline <$> events) s with (s, None) => readServerSentEvents rest e s | (s, Some err) => (s, Some err) end.
Proof.
  unfold readServerSentEvents, write_events. intros H. revert s. induction H as [|lines events Hw _ IH]; intros s; [done|].
  rewrite fmap_cons, concat_cons, <-string_app_assoc.
  rewrite split_event by apply Hw. rewrite read_event; [|apply Hw|apply split_not_nil]. rewrite fmap_cons. cbn [feed].
  change ("" +:+ ?x) with x. rewrite dispatch_event by done. destruct (handle s (join newline lines)) as [s1 [err|]]; [done|]. apply IH.
Qed.

(** Events survive the wire: of a body that a server wrote event by event, the handler gets exactly the events, in order, up to the
first one it refuses, whether the server ends with [[DONE]], whatever comes after it, or with the end of the body. *)
Theorem events_roundtrip events junk e s :
  Forall writable events →
  readServerSentEvents (write_events events +:+ write_event ["[DONE]"] +:+ junk) e s = feed (join newline <$> events) s ∧
  readServerSentEvents (write_events events) ReadEOF s = feed (join newline <$> events) s.
Proof.
  intros Hw. split.
  - rewrite read_written by done. destruct (feed _ s) as [s1 [err|]]; [done|]. unfold readServerSentEvents.
    rewrite split_event by (by repeat constructor). rewrite read_event; [done|by repeat constructor|apply split_not_nil].
  - pose proof (read_written events "" ReadEOF s Hw) as H. rewrite string_app_nil_r in H. rewrite H. by destruct (feed _ s) as [s1 [err|]].
Qed.

End events.

(** * Streams *)

Definition maxStreamToolCalls : Z := 128.

(** [streamAssembler], with the deltas its consumer was given. *)
Record streamAssembler := mkAssembler {
  a_content : string; a_toolCalls : list chatToolCall; a_usage : option chatUsage; delivered : list ChatDelta
}.
#[global] Instance eta_streamAssembler : Eta streamAssembler := λ a,
  mkAssembler (a_content a) (a_toolCalls a) (a_usage a) (delivered a).
Definition newAssembler : streamAssembler := mkAssembler "" [] None [].

Section assembler.
(** The consumer, by the number of deltas it got before. *)
Context (onDelta : nat → ChatDelta → option DErr).

Definition deliver (d : ChatDelta) (a : streamAssembler) : streamAssembler * option Error :=
  (a <| delivered := delivered a ++ [d] |>, ErrDelta <$> onDelta (length (delivered a)) d).

Definition zeroCall : chatToolCall := mkToolCall "" "function" "" "".
Definition extend (n : nat) (calls : list chatToolCall) : list chatToolCall := calls ++ replicate (n - length calls) zeroCall.
Definition merge_call (call : streamCall) (merged : chatToolCall) : chatToolCall :=
  let merged := if decide (sc_ID call ≠ "") then merged <| tc_ID := sc_ID call |> else merged in
  let merged := if decide (sc_Name call ≠ "") then merged <| tc_Name := sc_Name call |> else merged in
  merged <| tc_Arguments := tc_Arguments merged +:+ sc_Arguments call |>.

Fixpoint add_calls (calls : list streamCall) (a : streamAssembler) : streamAssembler * option Error :=
  match calls with
  | [] => (a, None)
  | call :: calls =>
      if decide (sc_Index call < 0 ∨ maxStreamToolCalls ≤ sc_Index call)
      then (a, Some (ProviderError "tool_call_invalid" true ErrInvalidResponse))
      else
        let i := Z.to_nat (sc_Index call) in
        let a := a <| a_toolCalls := alter (merge_call call) i (extend (Datatypes.S i) (a_toolCalls a)) |> in
        if decide (sc_ID call = "" ∧ sc_Name call = "" ∧ sc_Arguments call = "") then add_calls calls a
        else match deliver (Client.mkDelta "" (Some (Client.mkCallDelta (sc_Index call) (sc_ID call) (sc_Name call) (sc_Arguments call)))) a with
        | (a, Some e) => (a, Some e)
        | (a, None) => add_calls calls a
        end
  end.

Definition add (a : streamAssembler) (data : string) : streamAssembler * option Error :=
  match json_chunk data with
  | None => (a, Some (ProviderError "invalid_json" true ErrInvalidJSON))
  | Some chunk =>
      let a := if ch_Usage chunk is Some u then a <| a_usage := Some u |> else a in
      match ch_Choices chunk with
      | [] => (a, None)
      | delta :: _ =>
          match add_calls (sd_ToolCalls delta) a with
          | (a, Some e) => (a, Some e)
          | (a, None) =>
              if decide (sd_Content delta = "") then (a, None)
              else deliver (Client.mkDelta (sd_Content delta) None) (a <| a_content := a_content a +:+ sd_Content delta |>)
          end
      end
  end.

Definition response (a : streamAssembler) : res Error ChatResponse :=
  match a_usage a with
  | None => Err (ProviderError "usage_missing" true ErrUsageMissing)
  | Some usage => chatResponse (a_content a) (a_toolCalls a) usage
  end.

Fixpoint deliver_all (ds : list ChatDelta) (a : streamAssembler) : streamAssembler * option Error :=
  match ds with
  | [] => (a, None)
  | d :: ds => match deliver d a with (a, Some e) => (a, Some e) | (a, None) => deliver_all ds a end
  end.

(** [ChatStream]: what it returns, the requests it sent and the deltas the consumer was given; [ctx] is the context after
the body was read. *)
Definition ChatStream (c : Provider) (ctx : Ctx) (req : ChatRequest) : res Error ChatResponse * list Request * list ChatDelta :=
  match requestPayload c req true with
  | Err e => (Err e, [], [])
  | Ok payload =>
      match post c payload with
      | (Err e, sent) => (Err e, sent, [])
      | (Ok resp, sent) =>
          if decide (MediaType resp = "application/json") then
            match (let? data := readResponseBody resp (MaxResponseBytes (limits c)) in parseChatResponse data) with
            | Err e => (Err e, sent, [])
            | Ok result =>
                let '(a, err) := deliver_all (Client.ResponseDeltas (Some result)) newAssembler in
                (match err with Some e => Err e | None => Ok result end, sent, delivered a)
            end
          else
            let '(body, e) := if decide (0 < MaxResponseBytes (limits c))
                              then bounded_reads (MaxResponseBytes (limits c)) (Reads resp) (End_ resp)
                              else (String.concat "" (Reads resp), End_ resp) in
            let '(a, err) := readServerSentEvents add body e newAssembler in
            (match err with
             | Some err => Err (if ctx is Some c then ErrCtx c else err)
             | None => response a
             end, sent, delivered a)
      end
  end.

(** * Streams and responses *)

(** What the deltas of a stream say, put together: the text, and the tool call at an index, of which the last identifier and
name that are not empty count and the arguments are joined. *)
Definition contents (ds : list ChatDelta) : string := String.concat "" (Client.delta_Content <$> ds).
Definition pieces (i : nat) (ds : list ChatDelta) : list ToolCallDelta :=
  filter (λ p, Client.td_Index p = Z.of_nat i) (omap Client.delta_ToolCall ds).
Definition last_set (f : ToolCallDelta → string) (l : list ToolCallDelta) : string :=
  foldl (λ acc p, if decide (f p ≠ "") then f p else acc) "" l.
Definition reassembled (ds : list ChatDelta) (i : nat) : ToolCall :=
  mkCall (last_set Client.td_ID (pieces i ds)) (last_set Client.td_Name (pieces i ds))
    (String.concat "" (Client.td_Arguments <$> pieces i ds)).

Definition call_of (c : chatToolCall) : ToolCall := mkCall (tc_ID c) (tc_Name c) (tc_Arguments c).
Record assembled (a : streamAssembler) : Prop := {
  as_content : a_content a = contents (delivered a);
  as_calls : ∀ i c, a_toolCalls a !! i = Some c → call_of c = reassembled (delivered a) i;
  as_index : Forall (λ p, 0 ≤ Client.td_Index p < Z.of_nat (length (a_toolCalls a))) (omap Client.delta_ToolCall (delivered a))
}.

Lemma pieces_snoc_content ds i text : pieces i (ds ++ [Client.mkDelta text None]) = pieces i ds.
Proof. unfold pieces. rewrite omap_app. cbn. by rewrite app_nil_r. Qed.
Lemma reassembled_snoc_content ds i text : reassembled (ds ++ [Client.mkDelta text None]) i = reassembled ds i.
Proof. unfold reassembled. by rewrite pieces_snoc_content. Qed.

Lemma pieces_snoc_call ds i p text :
  pieces i (ds ++ [Client.mkDelta text (Some p)]) = pieces i ds ++ (if decide (Client.td_Index p = Z.of_nat i) then [p] else []).
Proof. unfold pieces. by rewrite omap_app, filter_app. Qed.

(** A piece that is merged into its call. *)
Lemma merge_call_spec call c ds i text :
  call_of c = reassembled ds i → Z.of_nat i = sc_Index call →
  call_of (merge_call call c) =
  reassembled (ds ++ [Client.mkDelta text (Some (Client.mkCallDelta (sc_Index call) (sc_ID call) (sc_Name call) (sc_Arguments call)))]) i.
Proof.
  intros [= H1 H2 H3] Hi. unfold reassembled. rewrite pieces_snoc_call. cbn [Client.td_Index]. rewrite decide_True by done.
  unfold last_set. rewrite !foldl_app, fmap_app, concat_app. cbn. fold (last_set Client.td_ID (pieces i ds)) (last_set Client.td_Name (pieces i ds)).
  unfold call_of, merge_call. destruct c. cbn in *. rewrite <-H1, <-H2, <-H3. by repeat case_decide.
Qed.
Lemma merge_call_nothing call c : sc_ID call = "" → sc_Name call = "" → sc_Arguments call = "" → call_of (merge_call call c) = call_of c.
Proof. intros H1 H2 H3. unfold merge_call. rewrite H1, H2, H3. rewrite !decide_False by naive_solver. unfold call_of. cbn. by rewrite string_app_nil_r. Qed.

Lemma reassembled_none ds i : Forall (λ p, Client.td_Index p ≠ Z.of_nat i) (omap Client.delta_ToolCall ds) → reassembled ds i = mkCall "" "" "".
Proof. intros H. unfold reassembled, pieces. by rewrite (proj2 (filter_nil_Forall _ _)). Qed.

Lemma extend_lookup n calls i c : extend n calls !! i = Some c → calls !! i = Some c ∨ (length calls ≤ i)%nat ∧ c = zeroCall.
Proof. unfold extend. intros [?|[? [-> _]%lookup_replicate]]%lookup_app_Some; [by left|by right]. Qed.
Lemma extend_length n calls : length (extend n calls) = Nat.max n (length calls).
Proof. unfold extend. rewrite length_app, length_replicate. lia. Qed.

(** The calls after a piece was merged, before it is delivered. *)
Lemma extend_assembled a n i c : assembled a → extend n (a_toolCalls a) !! i = Some c → call_of c = reassembled (delivered a) i.
Proof.
  intros [_ H2 H3] [?|[Hl ->]]%extend_lookup; [by apply H2|]. rewrite reassembled_none; [done|].
  eapply Forall_impl; [exact H3|]. cbn. lia.
Qed.

Lemma add_calls_assembled calls a a' : assembled a → add_calls calls a = (a', None) → assembled a'.
Proof.
  revert a. induction calls as [|call calls IH]; intros a Ha; cbn [add_calls]; [by intros [= <-]|].
  case_decide as Hr; [done|]. cbv zeta. set (i := Z.to_nat (sc_Index call)).
  assert (∀ j c, alter (merge_call call) i (extend (Datatypes.S i) (a_toolCalls a)) !! j = Some c →
    ∃ c0, extend (Datatypes.S i) (a_toolCalls a) !! j = Some c0 ∧ c = if decide (j = i) then merge_call call c0 else c0) as Halt.
  { intros j c. destruct (decide (j = i)) as [->|Hne].
    - rewrite list_lookup_alter_eq. intros (c0 & -> & H)%fmap_Some. eauto.
    - rewrite list_lookup_alter_ne by done. eauto. }
  assert (length (alter (merge_call call) i (extend (Datatypes.S i) (a_toolCalls a))) = Nat.max (Datatypes.S i) (length (a_toolCalls a))) as Hlen.
  { by rewrite length_alter, extend_length. }
  case_decide as He.
  - apply IH. destruct He as (E1 & E2 & E3). destruct Ha as [H1 H2 H3]. split; cbn; [done| |].
    + intros j c (c0 & H0 & ->)%Halt. rewrite <-(extend_assembled a _ _ _ (Build_assembled _ H1 H2 H3) H0). case_decide; [by apply merge_call_nothing|done].
    + rewrite Hlen. eapply Forall_impl; [exact H3|]. cbn. lia.
  - unfold deliver. cbn. destruct (onDelta _ _); [done|]. cbn. apply IH. destruct Ha as [H1 H2 H3]. split; cbn.
    + unfold contents. rewrite fmap_app, concat_app. cbn. by rewrite string_app_nil_r.
    + intros j c (c0 & H0 & ->)%Halt. pose proof (extend_assembled a _ _ _ (Build_assembled _ H1 H2 H3) H0) as Hc. case_decide as Hj.
      * apply merge_call_spec; [done|]. subst j. unfold i. lia.
      * unfold reassembled in *. rewrite pieces_snoc_call. cbn [Client.td_Index]. rewrite decide_False by (unfold i in Hj; lia). by rewrite app_nil_r.
    + rewrite omap_app, Hlen. cbn. apply Forall_app. split; [eapply Forall_impl; [exact H3|]; cbn; lia|]. constructor; [|constructor]. cbn. unfold i. lia.
Qed.

Lemma assembled_new : assembled newAssembler.
Proof. split; [done|by intros ? ?|constructor]. Qed.

Lemma add_assembled a data a' : assembled a → add a data = (a', None) → assembled a'.
Proof.
  intros Ha. unfold add. destruct (json_chunk data) as [chunk|]; [|done]. cbv zeta.
  set (a1 := if ch_Usage chunk is Some u then _ else a). assert (assembled a1) as Ha1 by (unfold a1; destruct (ch_Usage chunk); [by destruct Ha|done]).
  destruct (ch_Choices chunk) as [|delta rest]; [by intros [= <-]|]. destruct (add_calls (sd_ToolCalls delta) a1) as [a2 [e|]] eqn:E2; [done|].
  apply add_calls_assembled in E2 as Ha2; [|done]. case_decide as Hc; [by intros [= <-]|]. unfold deliver. cbn. destruct (onDelta _ _); [done|].
  cbn. intros [= <-]. destruct Ha2 as [H1 H2 H3]. split; cbn.
  - unfold contents. rewrite fmap_app, concat_app, H1. done.
  - intros i c Hi. rewrite reassembled_snoc_content. by apply H2.
  - rewrite omap_app. cbn. by rewrite app_nil_r.
Qed.

(** What a response tells: non-empty identifiers and names. *)
Definition reassembles (resp : ChatResponse) (ds : list ChatDelta) : Prop :=
  resp_Content resp = contents ds ∧ resp_ToolCalls resp = reassembled ds <$> seq 0 (length (resp_ToolCalls resp)) ∧
  Forall (λ p, 0 ≤ Client.td_Index p < Z.of_nat (length (resp_ToolCalls resp))) (omap Client.delta_ToolCall ds).

Lemma chatResponse_ok content calls usage resp :
  chatResponse content calls usage = Ok resp →
  resp = mkChatResponse content (call_of <$> calls) (mkUsage (PromptTokens usage) (CompletionTokens usage)) ∧
  Forall (λ c, call_ID c ≠ "" ∧ call_Name c ≠ "") (resp_ToolCalls resp).
Proof.
  unfold chatResponse. destruct (existsb _ calls) eqn:E; [done|]. intros [= <-]. split; [done|]. cbn. apply Forall_fmap, Forall_forall.
  intros c Hc. cbn. apply not_true_iff_false in E. split; intros Hn; apply E, existsb_exists; exists c; (split; [by apply list_elem_of_In|]);
    apply bool_decide_eq_true; [by left|by right].
Qed.

Lemma list_as_seq {A} (f : nat → A) l : (∀ i x, l !! i = Some x → x = f i) → l = f <$> seq 0 (length l).
Proof.
  intros H. apply list_eq. intros i. destruct (l !! i) as [x|] eqn:E.
  - rewrite (H _ _ E). symmetry. rewrite list_lookup_fmap, lookup_seq_lt by (by eapply lookup_lt_Some). done.
  - apply lookup_ge_None in E. rewrite list_lookup_fmap, lookup_seq_ge by lia. done.
Qed.

Lemma response_reassembles a resp : assembled a → response a = Ok resp → reassembles resp (delivered a).
Proof.
  intros [H1 H2 H3]. unfold response. destruct (a_usage a) as [u|]; [|done]. intros [-> _]%chatResponse_ok. unfold reassembles. cbn.
  rewrite length_fmap. split_and!; [done| |done]. rewrite <-(length_fmap call_of). apply list_as_seq. intros i x.
  rewrite list_lookup_fmap. intros (c & Hc & ->)%fmap_Some. by apply H2.
Qed.

Lemma omap_call text p ds : omap Client.delta_ToolCall (Client.mkDelta text (Some p) :: ds) = p :: omap Client.delta_ToolCall ds.
Proof. done. Qed.

(** The deltas of a whole response. *)
Lemma whole_pieces calls k i :
  filter (λ p, Client.td_Index p = Z.of_nat i)
    (omap Client.delta_ToolCall (imap (λ j c, Client.mkDelta "" (Some (Client.mkCallDelta (Z.of_nat (k + j)) (call_ID c) (call_Name c) (call_Input c)))) calls))
  = match calls !! (i - k)%nat with
    | Some c => if decide (k ≤ i)%nat then [Client.mkCallDelta (Z.of_nat i) (call_ID c) (call_Name c) (call_Input c)] else []
    | None => []
    end.
Proof.
  revert k. induction calls as [|c calls IH]; intros k; [by rewrite lookup_nil|]. cbn [imap]. rewrite Nat.add_0_r, omap_call, filter_cons. cbn [Client.td_Index].
  assert (imap ((λ j c, Client.mkDelta "" (Some (Client.mkCallDelta (Z.of_nat (k + j)) (call_ID c) (call_Name c) (call_Input c)))) ∘ Datatypes.S) calls =
          imap (λ j c, Client.mkDelta "" (Some (Client.mkCallDelta (Z.of_nat (Datatypes.S k + j)) (call_ID c) (call_Name c) (call_Input c)))) calls) as ->.
  { apply imap_ext. intros j x _. cbn. by rewrite Nat.add_succ_r. }
  rewrite (IH (Datatypes.S k)). case_decide as Hk.
  - apply Nat2Z.inj in Hk as ->. rewrite Nat.sub_diag. cbn. rewrite decide_True by lia. destruct (calls !! _); [by rewrite decide_False by lia|done].
  - destruct (decide (k ≤ i)%nat).
    + replace (i - k)%nat with (Datatypes.S (i - Datatypes.S k)) by lia. cbn. destruct (calls !! _); [by rewrite decide_True by lia|done].
    + destruct (calls !! _), ((c :: calls) !! _); try done; by rewrite decide_False by lia.
Qed.

Lemma whole_reassembles resp :
  Forall (λ c, call_ID c ≠ "" ∧ call_Name c ≠ "") (resp_ToolCalls resp) → reassembles resp (Client.ResponseDeltas (Some resp)).
Proof.
  intros Hf. unfold reassembles, Client.ResponseDeltas. set (cs := imap _ (resp_ToolCalls resp)).
  assert (contents cs = "") as Hc.
  { unfold contents, cs. generalize 0%nat. clear. intros _.
    assert (∀ (f : nat → ToolCall → ChatDelta) l, (∀ j c, Client.delta_Content (f j c) = "") → String.concat "" (Client.delta_Content <$> imap f l) = "") as H.
    { intros f l. revert f. induction l as [|c l IH]; intros f H; [done|]. cbn [imap]. rewrite fmap_cons, H, concat_cons. apply IH. intros. apply H. }
    by apply H. }
  assert (∀ i, pieces i ((if decide (resp_Content resp ≠ "") then [Client.mkDelta (resp_Content resp) None] else []) ++ cs) =
    match resp_ToolCalls resp !! i with Some c => [Client.mkCallDelta (Z.of_nat i) (call_ID c) (call_Name c) (call_Input c)] | None => [] end) as Hp.
  { intros i. unfold pieces. rewrite omap_app. transitivity (filter (λ p, Client.td_Index p = Z.of_nat i) (omap Client.delta_ToolCall cs)); [by case_decide|].
    unfold cs. pose proof (whole_pieces (resp_ToolCalls resp) 0 i) as H. rewrite Nat.sub_0_r in H.
    etransitivity; [exact H|]. by destruct (_ !! i). }
  split_and!.
  - unfold contents in *. rewrite fmap_app, concat_app, Hc, string_app_nil_r. case_decide as He; [done|]. by rewrite He.
  - apply list_as_seq. intros i c Hi. unfold reassembled. rewrite Hp, Hi. cbn. rewrite Forall_lookup in Hf. destruct (Hf _ _ Hi). unfold last_set. cbn.
    rewrite !decide_True by done. by destruct c.
  - apply Forall_forall. intros p Hin. apply list_elem_of_omap in Hin as (d & Hd & Ed). apply elem_of_app in Hd as [Hd|Hd].
    { case_decide; [|by apply elem_of_nil in Hd]. by apply list_elem_of_singleton in Hd as ->. }
    unfold cs in Hd. apply elem_of_lookup_imap in Hd as (i & c & -> & Hi). injection Ed as <-. cbn. apply lookup_lt_Some in Hi. lia.
Qed.

Lemma deliver_all_delivered ds a a' : deliver_all ds a = (a', None) → delivered a' = delivered a ++ ds.
Proof.
  revert a. induction ds as [|d ds IH]; intros a; cbn [deliver_all]; [intros [= <-]; by rewrite app_nil_r|].
  unfold deliver at 1. cbn. destruct (onDelta _ _); [done|]. cbn. intros ->%IH. cbn. by rewrite <-app_assoc.
Qed.

(** C40: What the consumer of a stream was told is what the caller gets: when [ChatStream] returns a response, however the server sent
it, the text of the response is that of the deltas, in order, its tool call at each index is what the deltas of that index say together,
and there are no deltas of other indexes; every tool call has an identifier and a name. *)
Theorem stream_reassembles c ctx req resp sent ds :
  ChatStream c ctx req = (Ok resp, sent, ds) → reassembles resp ds ∧ Forall (λ c, call_ID c ≠ "" ∧ call_Name c ≠ "") (resp_ToolCalls resp).
Proof.
  unfold ChatStream. destruct (requestPayload c req true) as [payload|]; [|done]. destruct (post c payload) as [[r|e] sent1]; [|done].
  case_decide.
  - destruct (let? data := _ in _) as [result|] eqn:E; [|done]. destruct (deliver_all _ _) as [a [e|]] eqn:Ed; [done|]. intros [= <- _ <-].
    apply deliver_all_delivered in Ed. cbn [delivered newAssembler app] in Ed. rewrite Ed.
    assert (Forall (λ c, call_ID c ≠ "" ∧ call_Name c ≠ "") (resp_ToolCalls result)) as Hf.
    { destruct (readResponseBody r _) as [data|]; [|done]. cbn in E. unfold parseChatResponse in E. destruct (json_response data) as [d|]; [|done].
      destruct (r_Usage d), (Choices d); try done. by apply chatResponse_ok in E as [_ ?]. }
    split; [by apply whole_reassembles|done].
  - destruct (if decide (0 < _) then _ else _) as [body e]. destruct (readServerSentEvents add body e newAssembler) as [a [err|]] eqn:E; [by destruct ctx|].
    intros [= Hr _ <-]. assert (assembled a) as Ha.
    { eapply (read_lines_keeps add assembled (split newline body) e "" newAssembler); [intros; by eapply add_assembled|apply assembled_new|exact E]. }
    split; [by apply response_reassembles|]. unfold response in Hr. destruct (a_usage a); [|done]. by apply chatResponse_ok in Hr as [_ ?].
Qed.

(** * Requests *)

(** Within the limits of the provider. *)
Definition within (c : Provider) (r : Request) : Prop :=
  r_URL r = endpoint c ∧ (0 < MaxRequestBytes (limits c) → Z.of_nat (String.length (r_Body r)) ≤ MaxRequestBytes (limits c)).

(** An error that does not deny the dispatch. *)
Definition late (e : Error) : Prop := match e with ProviderError _ dispatched _ => dispatched = true | _ => True end.

Lemma add_late a data a' e : add a data = (a', Some e) → late e.
Proof.
  assert (∀ calls a a' e, add_calls calls a = (a', Some e) → late e) as Hc.
  { intros calls. induction calls as [|call calls IH]; intros b b' err; cbn [add_calls]; [done|]. case_decide; [by intros [= _ <-]|].
    cbv zeta. case_decide; [apply IH|]. unfold deliver. cbn. destruct (onDelta _ _); cbn; [by intros [= _ <-]|apply IH]. }
  unfold add. destruct (json_chunk data) as [chunk|]; [|by intros [= _ <-]]. cbv zeta. destruct (ch_Choices chunk) as [|delta rest]; [done|].
  destruct (add_calls _ _) as [a2 [e2|]] eqn:E2; [intros [= _ <-]; by eapply Hc|]. case_decide; [done|]. unfold deliver. cbn.
  destruct (onDelta _ _); cbn; [by intros [= _ <-]|done].
Qed.

Lemma events_late body e a a' err : readServerSentEvents add body e a = (a', Some err) → late err.
Proof.
  assert (∀ data a a' err, dispatch add data a = (a', Failed err) → late err) as Hd.
  { intros data b b' x. unfold dispatch. case_decide; [done|]. cbv zeta. case_decide; [done|]. destruct (add b _) as [b1 [e1|]] eqn:E; [|done].
    intros [= _ <-]. by eapply add_late. }
  assert (∀ line data a data' a' err, read_line add line data a = (data', a', Failed err) → late err) as Hl.
  { intros line data b data' b' x. unfold read_line. cbv zeta. case_decide; [|by destruct (HasPrefix _ _)].
    destruct (dispatch add data b) as [b1 v] eqn:E. intros [= _ _ ->]. by eapply Hd. }
  unfold readServerSentEvents. generalize "". revert a. induction (split newline body) as [|line lines IH]; intros a data; [done|].
  destruct lines as [|next lines].
  - cbn [read_lines]. destruct (if decide (line = "") then _ else _) as [[data1 a1] v1] eqn:E1.
    destruct v1 as [| |x]; [|done|].
    + destruct e; [|by intros [= _ <-]..]. destruct (dispatch add data1 a1) as [a2 [| |x]] eqn:E2; [done..|]. intros [= _ <-]. by eapply Hd.
    + intros [= _ <-]. case_decide; [done|]. by eapply Hl.
  - rewrite read_lines_cons by done. destruct (read_line add _ data a) as [[data1 a1] [| |x]] eqn:E1; [apply IH|done|].
    intros [= _ <-]. by eapply Hl.
Qed.

Lemma parse_late data e : parseChatResponse data = Err e → late e.
Proof.
  unfold parseChatResponse, chatResponse. destruct (json_response data) as [x|]; [|by intros [= <-]].
  destruct (r_Usage x), (Choices x); try (by intros [= <-]). destruct (existsb _ _); [by intros [= <-]|done].
Qed.
Lemma body_late resp n e : readResponseBody resp n = Err e → late e.
Proof. unfold readResponseBody. repeat case_decide; try (by intros [= <-]); destruct (read_all _ _); try case_decide; by intros [= <-]. Qed.
Lemma whole_late resp n e : (let? data := readResponseBody resp n in parseChatResponse data) = Err e → late e.
Proof. destruct (readResponseBody resp n) as [data|e'] eqn:E; cbn; [apply parse_late|intros [= <-]; by eapply body_late]. Qed.

Lemma payload_cases c req stream :
  match requestPayload c req stream with
  | Err e => ∃ class cause, e = ProviderError class false cause
  | Ok payload => 0 < MaxRequestBytes (limits c) → Z.of_nat (String.length payload) ≤ MaxRequestBytes (limits c)
  end.
Proof.
  unfold requestPayload, normalizedMaxOutputTokens. case_decide; [by eexists _, _|]. case_decide; [by eexists _, _|]. cbn [res_bind].
  destruct (json_request _); [|by eexists _, _]. case_decide; [by eexists _, _|lia].
Qed.
Lemma post_cases c payload r sent :
  post c payload = (r, sent) →
  (sent = [] ∧ r = Err (ProviderError "configuration_error" false ErrInvalidConfig)) ∨
  (sent = [build_request c payload] ∧ match r with Err e => late e | Ok _ => True end).
Proof.
  unfold post. destruct (valid_url _); cbn; intros [= <- <-]; [right|by left]. split; [done|].
  destruct (Do _) as [resp|]; [|done]. by case_decide.
Qed.

(** What an outcome says about the requests sent. *)
Definition reported (c : Provider) (r : res Error ChatResponse) (sent : list Request) : Prop :=
  (length sent ≤ 1)%nat ∧ Forall (within c) sent ∧
  match r with
  | Ok _ | Err (ResponseError _) => sent ≠ []
  | Err (ProviderError _ dispatched _) => dispatched = true ↔ sent ≠ []
  | Err _ => True
  end.
Lemma reported_none c class cause : reported c (Err (ProviderError class false cause)) [].
Proof. split_and!; [cbn; lia|constructor|done]. Qed.
Lemma reported_sent c payload r :
  (0 < MaxRequestBytes (limits c) → Z.of_nat (String.length payload) ≤ MaxRequestBytes (limits c)) →
  match r with Err e => late e | Ok _ => True end → reported c r [build_request c payload].
Proof.
  intros Hp Hr. split; [done|]. split; [by repeat constructor|]. destruct r as [|[]]; try done.
Qed.

(** Errors tell whether the request left: a call sends at most one request, to the endpoint and within the byte limit, and when it returns
an error of its own, that error says [dispatched] exactly when the request was sent; with a response or an HTTP status, it was. *)
Theorem dispatch_reported c ctx req :
  reported c (Chat c req).1 (Chat c req).2 ∧ reported c (ChatStream c ctx req).1.1 (ChatStream c ctx req).1.2.
Proof.
  split.
  - unfold Chat, providerRequestPayload. pose proof (payload_cases c req false) as Hp.
    destruct (requestPayload c req false) as [payload|e]; [|destruct Hp as (class & cause & ->); apply reported_none].
    destruct (post c payload) as [r sent] eqn:E. cbn [fst snd]. destruct (post_cases _ _ _ _ E) as [[-> ->]|[-> Hr]]; [apply reported_none|].
    apply reported_sent; [done|]. destruct r as [resp|e]; [|done]. cbn [res_bind]. destruct (let? data := _ in _) eqn:Ew; [done|]. by eapply whole_late.
  - unfold ChatStream. pose proof (payload_cases c req true) as Hp.
    destruct (requestPayload c req true) as [payload|e]; [|destruct Hp as (class & cause & ->); apply reported_none].
    destruct (post c payload) as [r sent] eqn:E. destruct (post_cases _ _ _ _ E) as [[-> ->]|[-> Hr]]; [apply reported_none|].
    destruct r as [resp|e]; [|by apply reported_sent]. case_decide.
    + destruct (let? data := _ in _) as [result|e] eqn:Ew; [|apply reported_sent; [done|by eapply whole_late]].
      destruct (deliver_all _ _) as [a err] eqn:Ed. apply reported_sent; [done|]. destruct err as [x|]; [|done].
      clear -Ed. revert Ed. generalize newAssembler. induction (Client.ResponseDeltas (Some result)) as [|d ds IH]; intros b; cbn [deliver_all]; [done|].
      unfold deliver at 1. destruct (onDelta _ _); cbn; [by intros [= _ <-]|apply IH].
    + destruct (if decide (0 < _) then _ else _) as [body e]. destruct (readServerSentEvents add body e newAssembler) as [a err] eqn:Es.
      apply reported_sent; [done|]. destruct err as [x|]; [by destruct ctx; [|eapply events_late]|].
      unfold response. destruct (a_usage a); [|done]. unfold chatResponse. by destruct (existsb _ _).
Qed.

End assembler.

End client.

(** * A stream *)

(** A server that sends a text in two pieces and a tool call in two, the second without its name. *)
Definition demo_chunk (data : string) : option streamChunk :=
  if decide (data = "1") then Some (mkChunk [mkStreamDelta "he" [mkStreamCall 0 "c1" "add" "{"]] None)
  else if decide (data = "2") then Some (mkChunk [mkStreamDelta "llo" [mkStreamCall 0 "" "" "}"; mkStreamCall 0 "" "" ""]] None)
  else if decide (data = "3") then Some (mkChunk [] (Some (mkChatUsage 5 7)))
  else None.
Definition demo_exchange (_ : Request) : res unit Response :=
  Ok (mkResponse 200 "text/event-stream" (-1) ["data: 1" +:+ String newline ""; String newline "data:2" +:+ String newline (String newline "da");
        "ta: 3" +:+ String newline (String newline "data: [DONE]") +:+ String newline (String newline "junk")] ReadEOF).
Definition demo_provider : Provider := mkProvider (mkConfig "https://h" "key" "m" [] (mkLimits 0 0 0)) "https://h/chat/completions" (mkLimits 0 0 0).
Definition demo_stream : res (Error unit unit) ChatResponse * list Request * list ChatDelta :=
  ChatStream (λ _, Some "{}") (λ _, None) demo_chunk (λ _, true) demo_exchange (λ _ _, None) demo_provider None (mkChatRequest [] [] 0).

Lemma stream_reassembles_witness :
  demo_stream.1.1 = Ok (mkChatResponse "hello" [mkCall "c1" "add" "{}"] (mkUsage 5 7)) ∧
  reassembles (mkChatResponse "hello" [mkCall "c1" "add" "{}"] (mkUsage 5 7)) demo_stream.2.
Proof.
  split; [vm_compute; reflexivity|].
  refine (proj1 (stream_reassembles (NErr := unit) (DErr := unit) (λ _, Some "{}") (λ _, None) demo_chunk (λ _, true) demo_exchange (λ _ _, None) demo_provider None
    (mkChatRequest [] [] 0) _ demo_stream.1.2 demo_stream.2 _)).
  vm_compute. reflexivity.
Defined.

(** Two events, of two lines and of one. *)
Lemma events_roundtrip_witness :
  readServerSentEvents (NErr := unit) (DErr := unit) (λ s e, (s ++ [e], None)) (write_events [["a"; "b"]; ["c"]] +:+ write_event ["[DONE]"] +:+ "x") ReadFailed [] =
  (["a" +:+ String newline "b"; "c"], None).
Proof.
  edestruct (events_roundtrip (NErr := unit) (DErr := unit) (λ s e, (s ++ [e], None)) [["a"; "b"]; ["c"]] "x" ReadFailed []) as [H _].
  - repeat constructor; discriminate.
  - exact H.
Defined.

End OpenAI.
