(* ===== verification/RunPostgres.v ===== *)
(** runkit over PostgreSQL ([src/runkit/pgstore/store.go]).

Any number of calls share the database: [step] runs one statement of one call. A statement sees what is committed; a row that a
transaction has updated or selected [FOR UPDATE] is locked until its end, and a statement that would wait for
the lock is not possible until then. A statement or a [COMMIT] may fail, and a [COMMIT] may take effect although the client
gets an error. A [timestamptz] keeps microseconds. *)

From Stdlib Require Import Strings.Byte.
From S2P Require Import Prelude RunCheckpoint Sql RunSqlite RunSqliteSafety.
#[local] Open Scope Z_scope.

Module Postgres.

Abbreviation request := RunSqlSafety.request.
Abbreviation reply := RunSqlSafety.reply.
Abbreviation Rget := RunSqlSafety.Rget.
Abbreviation Rop := RunSqlSafety.Rop.
Abbreviation mem_call := RunSqlSafety.mem_call.
Abbreviation ApprovalCheckpoint := Checkpoint.ApprovalCheckpoint.

(** * Tables *)

(** What a [timestamptz] column keeps of a time. *)
Definition timestamptz (t : Time) : Time := t / 1000 * 1000.

Record row := mkRow {
  r_id : string; r_run : string; r_tenant : string; r_hash : string; r_ciphertext : list byte; r_status : string;
  r_failure : string; r_owner : string; r_until : option Time; r_expires : Time; r_created : Time; r_updated : Time
}.
#[global] Instance eta_row : Eta row := λ r,
  mkRow (r_id r) (r_run r) (r_tenant r) (r_hash r) (r_ciphertext r) (r_status r) (r_failure r) (r_owner r) (r_until r)
    (r_expires r) (r_created r) (r_updated r).
Record decision := mkDecision { d_approver : string; d_approved : bool; d_audit : string; d_reason : string; d_decided : Time }.
Record DB := mkDB { rows : gmap string row; decisions : gmap string decision }.
#[global] Instance eta_DB : Eta DB := λ d, mkDB (rows d) (decisions d).
Definition migrated : DB := mkDB ∅ ∅.

Definition scanCheckpoint (r : row) (d : option decision) : ApprovalCheckpoint :=
  Checkpoint.mkCheckpoint (r_id r) (r_run r) (r_tenant r) (r_hash r) (r_ciphertext r) (r_status r) (r_failure r) (r_owner r)
    (default 0 (r_until r)) (r_expires r)
    ((λ d, Checkpoint.mkAudit (d_approver d) (d_approved d) (d_audit d) (d_reason d) (d_decided d)) <$> d) (r_created r) (r_updated r).

(** * Statements *)

Definition insert_row (clock : Time) (c : ApprovalCheckpoint) : row :=
  let created := if decide (IsZero (Checkpoint.CreatedAt c)) then clock else Checkpoint.CreatedAt c in
  mkRow (Checkpoint.ID c) (Checkpoint.RunID c) (Checkpoint.TenantID c) (Checkpoint.DefinitionHash c) (Checkpoint.Ciphertext c)
    "pending" "" "" None (timestamptz (Checkpoint.ExpiresAt c)) (timestamptz created) (timestamptz clock).

(** The condition on which a checkpoint is approved and rejected. *)
Definition claim_where (r : Checkpoint.ApprovalLeaseRequest) (now : Time) (x : row) : Prop :=
  r_tenant x = Checkpoint.lr_TenantID r ∧ r_hash x = Checkpoint.lr_DefinitionHash r ∧ r_status x = "pending" ∧ timestamptz now < r_expires x.
#[global] Instance claim_where_dec r now x : Decision (claim_where r now x).
Proof. unfold claim_where. apply _. Defined.
Definition lease_row (r : Checkpoint.ApprovalLeaseRequest) (now : Time) (x : row) : row :=
  x <| r_status := "leased" |> <| r_owner := Checkpoint.lr_LeaseOwner r |>
    <| r_until := Some (timestamptz (TimeAdd now (Checkpoint.lr_LeaseDuration r))) |> <| r_updated := timestamptz now |>.
Definition reject_row (now : Time) (x : row) : row :=
  x <| r_status := "rejected" |> <| r_ciphertext := [] |> <| r_updated := timestamptz now |>.
Definition decision_row (r : Checkpoint.ApprovalLeaseRequest) (approved : bool) (now : Time) : decision :=
  mkDecision (Checkpoint.lr_ApproverID r) approved (Checkpoint.lr_AuditRef r) (Checkpoint.lr_ReasonCode r) (timestamptz now).

Definition finish_where (c : Checkpoint.CheckpointLeaseCompletion) (x : row) : Prop :=
  r_tenant x = Checkpoint.lc_TenantID c ∧ r_status x = "leased" ∧ r_owner x = Checkpoint.lc_LeaseOwner c.
#[global] Instance finish_where_dec c x : Decision (finish_where c x).
Proof. unfold finish_where. apply _. Defined.
Definition finish_row (status failureCode : string) (now : Time) (x : row) : row :=
  x <| r_status := status |> <| r_ciphertext := [] |> <| r_failure := failureCode |> <| r_owner := "" |> <| r_until := None |>
    <| r_updated := timestamptz now |>.

Definition failing_where (f : Checkpoint.PendingCheckpointFailure) (x : row) : Prop :=
  r_run x = Checkpoint.pf_RunID f ∧ r_tenant x = Checkpoint.pf_TenantID f ∧ r_hash x = Checkpoint.pf_DefinitionHash f ∧
  (r_status x = "pending" ∨ r_status x = "failed" ∧ r_failure x = Checkpoint.pf_FailureCode f).
#[global] Instance failing_where_dec f x : Decision (failing_where f x).
Proof. unfold failing_where. apply _. Defined.
Definition failing_row (f : Checkpoint.PendingCheckpointFailure) (now : Time) (x : row) : row :=
  x <| r_status := "failed" |> <| r_ciphertext := [] |> <| r_failure := Checkpoint.pf_FailureCode f |> <| r_owner := "" |>
    <| r_until := None |> <| r_updated := if decide (r_status x = "pending") then timestamptz now else r_updated x |>.

Definition expire_where (now : Time) (x : row) : Prop :=
  (r_status x = "pending" ∨ r_status x = "leased") ∧ r_expires x ≤ timestamptz now.
#[global] Instance expire_where_dec now x : Decision (expire_where now x).
Proof. unfold expire_where. apply _. Defined.
Definition expire_row (now : Time) (x : row) : row :=
  x <| r_status := "expired" |> <| r_ciphertext := [] |> <| r_owner := "" |> <| r_until := None |> <| r_updated := timestamptz now |>.

(** [UPDATE ... WHERE checkpoint_id = id AND P]: whether a row was affected. *)
Definition update_key (id : string) (P : row → Prop) `{∀ x, Decision (P x)} (f : row → row) (d : DB) : DB * bool :=
  match rows d !! id with
  | Some x => if decide (P x) then (d <| rows := <[id := f x]> (rows d) |>, true) else (d, false)
  | None => (d, false)
  end.

(** * Calls *)

Section calls.
(** An error of the driver. *)
Context {DErr : Type}.

Inductive Error := CkError (e : Checkpoint.Error) | ErrDuplicateKey | ErrDB (e : DErr).
Abbreviation answer := (res Error reply).

(** How a statement goes; [Lost] is a commit of which the client does not learn. *)
Inductive outcome := Fine | Broken (e : DErr) | Lost (e : DErr).

(** A call by what it does next. [InTx] has a lock on the row of a claim, the row as it was then, and what the transaction has
written so far. *)
Inductive proc :=
| Calling (clock : Time) (q : request)
| InTx (clock : Time) (r : Checkpoint.ApprovalLeaseRequest) (lease : bool) (x : row) (updated : option row) (decided : option decision)
| Returned (clock : Time) (q : request) (a : answer).

Record state := mkState { db : DB; procs : list proc; log : list (nat * Time * request) }.
#[global] Instance eta_state : Eta state := λ s, mkState (db s) (procs s) (log s).
Definition started : state := mkState migrated [] [].

Inductive label := LCall (clock : Time) (q : request) | LStep (p : nat) (o : outcome).

(** The rows that transactions lock. *)
Definition lock_of (q : proc) : option string :=
  match q with InTx _ _ _ x _ _ => Some (r_id x) | _ => None end.
Definition unlocked (s : state) (id : string) : bool := forallb (λ q, bool_decide (lock_of q ≠ Some id)) (procs s).

Definition now_of (clock value : Time) : Time := Checkpoint.requestNow clock value.

(** The request of a transaction. *)
Definition tx_request (lease : bool) (r : Checkpoint.ApprovalLeaseRequest) : request :=
  Rop (if lease then Checkpoint.OpApprove r else Checkpoint.OpReject r).

Definition valid_request (q : request) : option Checkpoint.Error :=
  match q with
  | Rget _ _ | Rop (Checkpoint.OpExpire _) => None
  | Rop (Checkpoint.OpCreate c) => Checkpoint.validateCheckpoint c
  | Rop (Checkpoint.OpApprove r) => Checkpoint.validateLeaseRequest r
  | Rop (Checkpoint.OpReject r) => Checkpoint.validateResolutionRequest r
  | Rop (Checkpoint.OpFailPending f) => Checkpoint.validatePendingCheckpointFailure f
  | Rop (Checkpoint.OpComplete c) =>
      if decide (Blank (Checkpoint.lc_CheckpointID c) ∨ Blank (Checkpoint.lc_TenantID c) ∨ Blank (Checkpoint.lc_LeaseOwner c))
      then Some (Checkpoint.ErrInvalid "checkpoint id, tenant id, and lease owner are required") else None
  | Rop (Checkpoint.OpFail c) =>
      if decide (Blank (Checkpoint.lc_CheckpointID c) ∨ Blank (Checkpoint.lc_TenantID c) ∨ Blank (Checkpoint.lc_LeaseOwner c))
      then Some (Checkpoint.ErrInvalid "checkpoint id, tenant id, and lease owner are required")
      else if decide (Blank (Checkpoint.lc_FailureCode c))
      then Some (Checkpoint.ErrInvalid "failure code is required when failing a checkpoint lease") else None
  end.

(** One row must be affected. *)
Definition affected (b : bool) (e : Checkpoint.Error) : answer := if b then Ok RunSqlSafety.Done else Err (CkError e).

(** A call that is one statement: the rows it would lock, the tables after it, and its answer. *)
Definition statement (clock : Time) (q : request) (d : DB) : DB * answer :=
  match q with
  | Rget id tenant =>
      (d, match rows d !! id with
          | Some x => if decide (r_tenant x = tenant) then Ok (RunSqlSafety.Got (scanCheckpoint x (decisions d !! id)))
                      else Err (CkError Checkpoint.ErrCheckpointNotFound)
          | None => Err (CkError Checkpoint.ErrCheckpointNotFound)
          end)
  | Rop (Checkpoint.OpCreate c) =>
      match rows d !! Checkpoint.ID c with
      | Some _ => (d, Err ErrDuplicateKey)
      | None => (d <| rows := <[Checkpoint.ID c := insert_row clock c]> (rows d) |>, Ok RunSqlSafety.Done)
      end
  | Rop (Checkpoint.OpComplete c) =>
      let '(d, b) := update_key (Checkpoint.lc_CheckpointID c) (finish_where c)
                       (finish_row "consumed" "" (now_of clock (Checkpoint.lc_Now c))) d in
      (d, affected b Checkpoint.ErrCheckpointLeaseOwner)
  | Rop (Checkpoint.OpFail c) =>
      let '(d, b) := update_key (Checkpoint.lc_CheckpointID c) (finish_where c)
                       (finish_row "failed" (Checkpoint.lc_FailureCode c) (now_of clock (Checkpoint.lc_Now c))) d in
      (d, affected b Checkpoint.ErrCheckpointLeaseOwner)
  | Rop (Checkpoint.OpFailPending f) =>
      let '(d, b) := update_key (Checkpoint.pf_CheckpointID f) (failing_where f) (failing_row f (now_of clock (Checkpoint.pf_Now f))) d in
      (d, affected b Checkpoint.ErrCheckpointNotClaimable)
  | Rop (Checkpoint.OpExpire now) =>
      let now := now_of clock now in
      (d <| rows := (λ x, if decide (expire_where now x) then expire_row now x else x) <$> rows d |>,
       Ok (RunSqlSafety.Count (size (filter (λ p, expire_where now p.2) (rows d)))))
  | Rop (Checkpoint.OpApprove _) | Rop (Checkpoint.OpReject _) => (d, Err (CkError Checkpoint.ErrCheckpointNotClaimable))
  end.

(** The rows a statement affects, whose locks it needs. *)
Definition needs (clock : Time) (q : request) (x : row) : bool :=
  match q with
  | Rget _ _ | Rop (Checkpoint.OpCreate _) => false
  | Rop (Checkpoint.OpComplete c) | Rop (Checkpoint.OpFail c) => bool_decide (r_id x = Checkpoint.lc_CheckpointID c ∧ finish_where c x)
  | Rop (Checkpoint.OpFailPending f) => bool_decide (r_id x = Checkpoint.pf_CheckpointID f ∧ failing_where f x)
  | Rop (Checkpoint.OpExpire now) => bool_decide (expire_where (now_of clock now) x)
  | Rop (Checkpoint.OpApprove r) | Rop (Checkpoint.OpReject r) =>
      bool_decide (r_id x = Checkpoint.lr_CheckpointID r ∧ claim_where r (now_of clock (Checkpoint.lr_Now r)) x)
  end.
Definition blocked (s : state) (clock : Time) (q : request) : bool :=
  existsb (λ p, needs clock q p.2 && negb (unlocked s p.1)) (map_to_list (rows (db s))).

Definition set_proc (p : nat) (q : proc) (s : state) : state := s <| procs := <[p := q]> (procs s) |>.
(** A call takes effect, or has no effect, on the committed tables. *)
Definition commit (p : nat) (clock : Time) (q : request) (d : DB) (s : state) : state :=
  s <| db := d |> <| log := log s ++ [(p, clock, q)] |>.

(** The first statement of a claim: [SELECT ... FOR UPDATE], or the [UPDATE] of a rejection. *)
Definition claim_step (p : nat) (clock : Time) (r : Checkpoint.ApprovalLeaseRequest) (lease : bool) (o : outcome) (s : state) : state :=
  let q := tx_request lease r in
  let now := now_of clock (Checkpoint.lr_Now r) in
  if o is Lost e then set_proc p (Returned clock q (Err (ErrDB e))) s
  else match rows (db s) !! Checkpoint.lr_CheckpointID r with
  | Some x =>
      if decide (claim_where r now x)
      then set_proc p (InTx clock r lease x (if lease then None else Some (reject_row now x)) None) s
      else set_proc p (Returned clock q (Err (CkError Checkpoint.ErrCheckpointNotClaimable))) (commit p clock q (db s) s)
  | None => set_proc p (Returned clock q (Err (CkError Checkpoint.ErrCheckpointNotClaimable))) (commit p clock q (db s) s)
  end.

(** What [ApproveAndLease] returns after the commit: the row it read, with the values it wrote. *)
Definition leased (r : Checkpoint.ApprovalLeaseRequest) (now : Time) (c : ApprovalCheckpoint) : ApprovalCheckpoint :=
  c <| Checkpoint.CkStatus := Checkpoint.CheckpointLeased |> <| Checkpoint.LeaseOwner := Checkpoint.lr_LeaseOwner r |>
    <| Checkpoint.LeaseUntil := TimeAdd now (Checkpoint.lr_LeaseDuration r) |> <| Checkpoint.UpdatedAt := now |>
    <| Checkpoint.ApprovalOf := Some (Checkpoint.mkAudit (Checkpoint.lr_ApproverID r) true (Checkpoint.lr_AuditRef r)
         (Checkpoint.lr_ReasonCode r) now) |>.

(** The later statements of a transaction. *)
Definition tx_step (p : nat) (o : outcome) (clock : Time) (r : Checkpoint.ApprovalLeaseRequest) (lease : bool) (x : row)
    (updated : option row) (decided : option decision) (s : state) : state :=
  let q := tx_request lease r in
  let now := now_of clock (Checkpoint.lr_Now r) in
  match updated, decided with
  | None, _ =>
      match o with
      | Fine => set_proc p (InTx clock r lease x (Some (lease_row r now x)) None) s
      | Broken e | Lost e => set_proc p (Returned clock q (Err (ErrDB e))) s
      end
  | Some x', None =>
      match o with
      | Fine =>
          match decisions (db s) !! r_id x with
          | Some _ => set_proc p (Returned clock q (Err ErrDuplicateKey)) s
          | None => set_proc p (InTx clock r lease x (Some x') (Some (decision_row r lease now))) s
          end
      | Broken e | Lost e => set_proc p (Returned clock q (Err (ErrDB e))) s
      end
  | Some x', Some dec =>
      let d := mkDB (<[r_id x := x']> (rows (db s))) (<[r_id x := dec]> (decisions (db s))) in
      let ok := if lease then RunSqlSafety.Got (leased r now (scanCheckpoint x None)) else RunSqlSafety.Done in
      match o with
      | Fine => set_proc p (Returned clock q (Ok ok)) (commit p clock q d s)
      | Lost e => set_proc p (Returned clock q (Err (ErrDB e))) (commit p clock q d s)
      | Broken e => set_proc p (Returned clock q (Err (ErrDB e))) s
      end
  end.

Definition step (l : label) (s : state) : option state :=
  match l with
  | LCall clock q => Some (s <| procs := procs s ++ [Calling clock q] |>)
  | LStep p o =>
      match procs s !! p with
      | Some (Calling clock q) =>
          match valid_request q with
          | Some e => Some (set_proc p (Returned clock q (Err (CkError e))) (commit p clock q (db s) s))
          | None =>
              match o with
              | Broken e => Some (set_proc p (Returned clock q (Err (ErrDB e))) s)
              | _ =>
                  if blocked s clock q then None
                  else match q with
                  | Rop (Checkpoint.OpApprove r) => Some (claim_step p clock r true o s)
                  | Rop (Checkpoint.OpReject r) => Some (claim_step p clock r false o s)
                  | _ =>
                      let '(d, a) := statement clock q (db s) in
                      let a := if o is Lost e then Err (ErrDB e) else a in
                      Some (set_proc p (Returned clock q a) (commit p clock q d s))
                  end
              end
          end
      | Some (InTx clock r lease x updated decided) => Some (tx_step p o clock r lease x updated decided s)
      | _ => None
      end
  end.

(** * Abstraction *)

(** A checkpoint as the tables keep it. *)
Definition micro (c : ApprovalCheckpoint) : ApprovalCheckpoint :=
  c <| Checkpoint.LeaseUntil := timestamptz (Checkpoint.LeaseUntil c) |> <| Checkpoint.ExpiresAt := timestamptz (Checkpoint.ExpiresAt c) |>
    <| Checkpoint.CreatedAt := timestamptz (Checkpoint.CreatedAt c) |> <| Checkpoint.UpdatedAt := timestamptz (Checkpoint.UpdatedAt c) |>
    <| Checkpoint.ApprovalOf := (λ a, Checkpoint.mkAudit (Checkpoint.au_ApproverID a) (Checkpoint.au_Approved a) (Checkpoint.au_AuditRef a)
         (Checkpoint.au_ReasonCode a) (timestamptz (Checkpoint.au_DecidedAt a))) <$> Checkpoint.ApprovalOf c |>.

(** The checkpoints the tables hold, and those after the calls that took effect: the in-memory store, with its times cut to microseconds. *)
Definition view (d : DB) : Checkpoint.Store := map_imap (λ id x, Some (scanCheckpoint x (decisions d !! id))) (rows d).
Definition call_mem (m : Checkpoint.Store) (e : nat * Time * request) : Checkpoint.Store := micro <$> (mem_call e.1.2 m e.2).1.
Definition replay (l : list (nat * Time * request)) : Checkpoint.Store := foldl call_mem Checkpoint.New l.

(** The answer for one of the in-memory store: a name that is taken is a violation of the key. *)
Definition pg_result (q : request) (r : res Checkpoint.Error reply) : answer :=
  match r, q with
  | Ok a, _ => Ok a
  | Err (Checkpoint.ErrWithID _ _), Rop (Checkpoint.OpCreate _) => Err ErrDuplicateKey
  | Err e, _ => Err (CkError (RunSqlSafety.sql_error (RunSqlSafety.finishing q) e))
  end.

(** A checkpoint is created without a lease and a decision. *)
Definition fresh_request (q : request) : Prop :=
  match q with
  | Rop (Checkpoint.OpCreate c) => Checkpoint.ApprovalOf c = None ∧ Checkpoint.LeaseOwner c = "" ∧ Checkpoint.LeaseUntil c = 0
  | _ => True
  end.

Definition whole (t : Time) : Prop := timestamptz t = t.
Record good_row (x : row) (d : option decision) : Prop := {
  g_pending : r_status x = "pending" → d = None;
  g_failed : r_status x = "failed" → r_ciphertext x = [] ∧ r_owner x = "" ∧ r_until x = None;
  g_until : whole (default 0 (r_until x));
  g_times : whole (r_expires x) ∧ whole (r_created x) ∧ whole (r_updated x);
  g_decided : ∀ e, d = Some e → whole (d_decided e)
}.
Record good (d : DB) : Prop := {
  g_key : ∀ id x, rows d !! id = Some x → r_id x = id;
  g_row : ∀ id x, rows d !! id = Some x → good_row x (decisions d !! id);
  g_orphan : ∀ id, rows d !! id = None → decisions d !! id = None
}.

Lemma whole_micro t : whole (timestamptz t).
Proof. unfold whole, timestamptz. by rewrite Z.div_mul. Qed.
Lemma whole_zero : whole 0.
Proof. done. Qed.
Lemma whole_expires e now : whole e → (timestamptz now < e ↔ now < e).
Proof. unfold whole, timestamptz. intros <-. pose proof (Z.div_mod now 1000 ltac:(lia)). pose proof (Z.mod_pos_bound now 1000 ltac:(lia)). lia. Qed.

Lemma view_lookup d id : view d !! id = (λ x, scanCheckpoint x (decisions d !! id)) <$> rows d !! id.
Proof. unfold view. rewrite map_lookup_imap. by destruct (rows d !! id). Qed.

(** The decision of a row is kept as it is. *)
Lemma whole_decision (d : option decision) :
  (∀ e, d = Some e → whole (d_decided e)) →
  (λ a, Checkpoint.mkAudit (Checkpoint.au_ApproverID a) (Checkpoint.au_Approved a) (Checkpoint.au_AuditRef a)
     (Checkpoint.au_ReasonCode a) (timestamptz (Checkpoint.au_DecidedAt a))) <$>
    ((λ d, Checkpoint.mkAudit (d_approver d) (d_approved d) (d_audit d) (d_reason d) (d_decided d)) <$> d) =
  (λ d, Checkpoint.mkAudit (d_approver d) (d_approved d) (d_audit d) (d_reason d) (d_decided d)) <$> d.
Proof. intros H. destruct d as [e|]; [|done]. cbn. by rewrite (H e eq_refl). Qed.

Lemma micro_scan x d : good_row x d → micro (scanCheckpoint x d) = scanCheckpoint x d.
Proof.
  intros [_ _ Hu (He & Hc & Hup) Hd]. unfold micro, scanCheckpoint. cbn. by rewrite Hu, He, Hc, Hup, whole_decision.
Qed.
Lemma micro_view d : good d → micro <$> view d = view d.
Proof.
  intros Hg. apply map_eq. intros id. rewrite lookup_fmap, view_lookup. destruct (rows d !! id) as [x|] eqn:Hx; [|done]. cbn.
  by rewrite micro_scan by (by eapply g_row).
Qed.

(** One row, and its decision, in a new state. *)
Lemma view_put d id x dec :
  view (mkDB (<[id := x]> (rows d)) (match dec with Some e => <[id := e]> (decisions d) | None => decisions d end)) =
  <[id := scanCheckpoint x (match dec with Some e => Some e | None => decisions d !! id end)]> (view d).
Proof.
  apply map_eq. intros k. rewrite view_lookup. cbn. destruct (decide (k = id)) as [->|Hk].
  - rewrite !lookup_insert_eq. cbn. destruct dec; [by rewrite lookup_insert_eq|done].
  - rewrite !lookup_insert_ne by done. rewrite view_lookup. destruct dec; [by rewrite lookup_insert_ne|done].
Qed.
Lemma good_put d id x dec :
  good d → r_id x = id → good_row x (match dec with Some e => Some e | None => decisions d !! id end) →
  good (mkDB (<[id := x]> (rows d)) (match dec with Some e => <[id := e]> (decisions d) | None => decisions d end)).
Proof.
  intros Hg Hid Hx. split; cbn.
  - intros k y [[<- <-]|[_ Hy]]%lookup_insert_Some; [done|by eapply g_key].
  - intros k y [[<- <-]|[Hk Hy]]%lookup_insert_Some.
    + destruct dec; [by rewrite lookup_insert_eq|done].
    + destruct dec; [rewrite lookup_insert_ne by done|]; by eapply g_row.
  - intros k [Hn Hk]%lookup_insert_None. destruct dec; [rewrite lookup_insert_ne by done|]; by apply Hg.
Qed.

Lemma micro_insert d id c : good d → micro <$> <[id := c]> (view d) = <[id := micro c]> (view d).
Proof. intros Hg. by rewrite fmap_insert, micro_view. Qed.

(** * Statements and the in-memory store *)

(** A statement that does what the in-memory store does. *)
Definition refines (clock : Time) (q : request) (d d' : DB) (a : answer) : Prop :=
  view d' = micro <$> (mem_call clock (view d) q).1 ∧ a = pg_result q (mem_call clock (view d) q).2 ∧ good d'.

Lemma refines_same clock q d e : good d → mem_call clock (view d) q = (view d, Err e) → refines clock q d d (pg_result q (Err e)).
Proof. intros Hg E. unfold refines. rewrite E. split_and!; [cbn; by rewrite micro_view|done|done]. Qed.

(** A call that changes one checkpoint. *)
Lemma pg_refines_put clock q d id x dec c ok :
  good d → r_id x = id → good_row x (match dec with Some e => Some e | None => decisions d !! id end) →
  scanCheckpoint x (match dec with Some e => Some e | None => decisions d !! id end) = micro c →
  mem_call clock (view d) q = (<[id := c]> (view d), Ok ok) →
  refines clock q d (mkDB (<[id := x]> (rows d)) (match dec with Some e => <[id := e]> (decisions d) | None => decisions d end)) (Ok ok).
Proof.
  intros Hg Hid Hx Hs E. unfold refines. rewrite E. split_and!; [|done|by apply good_put]. cbn. by rewrite view_put, Hs, micro_insert.
Qed.

Lemma get_refines clock id tenant d : good d → refines clock (Rget id tenant) d d (statement clock (Rget id tenant) d).2.
Proof.
  intros Hg. unfold refines. cbn. split_and!; [by rewrite micro_view| |done]. unfold Checkpoint.GetCheckpoint. rewrite view_lookup.
  destruct (rows d !! id) as [x|]; [|done]. cbn. rewrite Checkpoint.clone_id. destruct (decide (r_tenant x = tenant)); [by rewrite decide_False by tauto|by rewrite decide_True].
Qed.

Lemma create_refines clock c d :
  good d → fresh_request (Rop (Checkpoint.OpCreate c)) → Checkpoint.validateCheckpoint c = None →
  let p := statement clock (Rop (Checkpoint.OpCreate c)) d in refines clock (Rop (Checkpoint.OpCreate c)) d p.1 p.2.
Proof.
  intros Hg (Ha & Ho & Hu) Hv. cbn. destruct (rows d !! Checkpoint.ID c) as [x|] eqn:Hx; cbn.
  - apply (refines_same clock (Rop (Checkpoint.OpCreate c)) d (Checkpoint.ErrWithID Checkpoint.ErrCheckpointNotClaimable (Checkpoint.ID c))); [done|].
    cbn. unfold Checkpoint.CreateCheckpoint. rewrite Hv. destruct (decide (IsZero _)); cbn; by rewrite view_lookup, Hx.
  - set (c' := (if decide (IsZero (Checkpoint.CreatedAt c)) then c <| Checkpoint.CreatedAt := clock |> else c)
                <| Checkpoint.UpdatedAt := clock |> <| Checkpoint.CkStatus := Checkpoint.CheckpointPending |> <| Checkpoint.FailureCode := "" |>).
    replace (d <| rows := <[Checkpoint.ID c := insert_row clock c]> (rows d) |>) with
      (mkDB (<[Checkpoint.ID c := insert_row clock c]> (rows d)) (match None with Some e => <[Checkpoint.ID c := e]> (decisions d) | None => decisions d end)) by (by destruct d).
    assert (decisions d !! Checkpoint.ID c = None) as Hd by (by apply Hg).
    apply (pg_refines_put clock (Rop (Checkpoint.OpCreate c)) d _ (insert_row clock c) None c' RunSqlSafety.Done); [done|done| | |].
    + rewrite Hd. split; cbn; try done. split_and!; apply whole_micro.
    + rewrite Hd. unfold c', micro, scanCheckpoint, insert_row. destruct c. cbn in *. subst. by destruct (decide (IsZero _)).
    + cbn. unfold Checkpoint.CreateCheckpoint. rewrite Hv. unfold c'. destruct (decide (IsZero _)); cbn; rewrite view_lookup, Hx; cbn; by rewrite Checkpoint.clone_id.
Qed.

(** An update on a key, as one row that changes or none. *)
Lemma update_key_cases id P `{∀ x, Decision (P x)} f d :
  (∃ x, rows d !! id = Some x ∧ P x ∧
     update_key id P f d = (mkDB (<[id := f x]> (rows d)) (match None with Some e => <[id := e]> (decisions d) | None => decisions d end), true)) ∨
  ((∀ x, rows d !! id = Some x → ¬ P x) ∧ update_key id P f d = (d, false)).
Proof.
  unfold update_key. destruct (rows d !! id) as [x|]; [|by right]. case_decide; [left|right]; [|naive_solver].
  exists x. split_and!; [done|done|]. by destruct d.
Qed.

Lemma pg_finish_refines clock c status code d :
  good d → (status = Checkpoint.CheckpointConsumed ∧ code = "" ∨ status = Checkpoint.CheckpointFailed ∧ code = Checkpoint.lc_FailureCode c) →
  let q := Rop (if decide (status = Checkpoint.CheckpointFailed) then Checkpoint.OpFail c else Checkpoint.OpComplete c) in
  valid_request q = None →
  let p := update_key (Checkpoint.lc_CheckpointID c) (finish_where c) (finish_row status code (now_of clock (Checkpoint.lc_Now c))) d in
  refines clock q d p.1 (affected p.2 Checkpoint.ErrCheckpointLeaseOwner).
Proof.
  intros Hg Hst q Hv. assert (mem_call clock (view d) q =
    (let p := Checkpoint.finishLease None clock (view d) c status in (p.1, RunSqlSafety.done_of p.2))) as Hmem.
  { unfold q. destruct Hst as [[-> _]|[-> _]]; reflexivity. }
  assert (valid_request q = None → ¬ (Blank (Checkpoint.lc_CheckpointID c) ∨ Blank (Checkpoint.lc_TenantID c) ∨ Blank (Checkpoint.lc_LeaseOwner c)) ∧
    ¬ (status = Checkpoint.CheckpointFailed ∧ Blank (Checkpoint.lc_FailureCode c))) as Hval.
  { unfold q. destruct Hst as [[-> _]|[-> _]]; cbn; repeat case_decide; naive_solver. }
  assert (∀ e, pg_result q (Err e) = Err (CkError (RunSqlSafety.sql_error true e))) as Hres.
  { intros e. unfold q. destruct Hst as [[-> _]|[-> _]]; by destruct e. }
  destruct (Hval Hv) as [Hv1 Hv2]. clear Hval Hv. clearbody q. cbv zeta.
  unfold Checkpoint.finishLease in Hmem. rewrite (decide_False (P := _ ∨ _ ∨ _)) in Hmem by done.
  rewrite (decide_False (P := _ ∧ _)) in Hmem by done. rewrite view_lookup in Hmem.
  assert (∀ e, RunSqlSafety.sql_error true e = Checkpoint.ErrCheckpointLeaseOwner → mem_call clock (view d) q = (view d, Err e) →
    refines clock q d d (Err (CkError Checkpoint.ErrCheckpointLeaseOwner))) as Hno.
  { intros e He Hm. rewrite <-He, <-Hres. by apply refines_same. }
  destruct (update_key_cases (Checkpoint.lc_CheckpointID c) (finish_where c) (finish_row status code (now_of clock (Checkpoint.lc_Now c))) d)
    as [(x & Hx & (Hw1 & Hw2 & Hw3) & ->)|[Hn ->]].
  - rewrite Hx in Hmem. cbn in Hmem. rewrite decide_False in Hmem by (intros Hne; by apply Hne).
    rewrite decide_False in Hmem by (intros [Hne|Hne]; by apply Hne). cbn [fst snd affected].
    pose proof (g_key _ Hg _ _ Hx) as Hid. destruct (g_row _ Hg _ _ Hx) as [Gp Gf Gu (Ge & Gc & Gup) Gd].
    eapply (pg_refines_put clock q d (Checkpoint.lc_CheckpointID c) _ None); [done|done| | |rewrite Hmem, Hid, Checkpoint.clone_id; reflexivity]; cbn [fst snd].
    + split; cbn; [destruct Hst as [[-> _]|[-> _]]; done|done|apply whole_zero|split_and!; [done|done|apply whole_micro]|done].
    + unfold micro, scanCheckpoint, finish_row. cbn. rewrite Ge, Gc, Hid, whole_decision by done. by destruct Hst as [[-> ->]|[-> ->]].
  - cbn [fst snd affected]. destruct (rows d !! Checkpoint.lc_CheckpointID c) as [x|] eqn:Hx; cbn in Hmem; [|by eapply Hno; [|exact Hmem]].
    destruct (decide (r_tenant x ≠ Checkpoint.lc_TenantID c)) as [Ht|Ht]; [by eapply Hno; [|exact Hmem]|].
    destruct (decide _) as [Hs|Hs] in Hmem; [by eapply Hno; [|exact Hmem]|]. exfalso. apply (Hn x eq_refl). unfold finish_where. split_and!; try (by apply dec_stable); apply dec_stable; intros ?; apply Hs; tauto.
Qed.

Lemma failing_refines clock f d :
  good d → Checkpoint.validatePendingCheckpointFailure f = None →
  let p := statement clock (Rop (Checkpoint.OpFailPending f)) d in refines clock (Rop (Checkpoint.OpFailPending f)) d p.1 p.2.
Proof.
  intros Hg Hv. set (q := Rop _). assert (mem_call clock (view d) q =
    (let p := Checkpoint.FailPendingCheckpoint None clock (view d) f in (p.1, RunSqlSafety.done_of p.2))) as Hmem by done.
  assert (∀ e, pg_result q (Err e) = Err (CkError (RunSqlSafety.sql_error false e))) as Hres by (intros e; unfold q; by destruct e).
  assert (statement clock q d = let '(d, b) := update_key (Checkpoint.pf_CheckpointID f) (failing_where f) (failing_row f (now_of clock (Checkpoint.pf_Now f))) d in
    (d, affected b Checkpoint.ErrCheckpointNotClaimable)) as -> by done.
  clearbody q. unfold Checkpoint.FailPendingCheckpoint in Hmem. rewrite Hv, view_lookup in Hmem. cbv zeta in Hmem |- *.
  assert (mem_call clock (view d) q = (view d, Err Checkpoint.ErrCheckpointNotClaimable) →
    refines clock q d d (Err (CkError Checkpoint.ErrCheckpointNotClaimable))) as Hno.
  { intros Hm. pose proof (refines_same clock q d _ Hg Hm) as H. by rewrite Hres in H. }
  destruct (update_key_cases (Checkpoint.pf_CheckpointID f) (failing_where f) (failing_row f (now_of clock (Checkpoint.pf_Now f))) d)
    as [(x & Hx & (Hw1 & Hw2 & Hw3 & Hw4) & ->)|[Hn ->]]; cbn [fst snd affected].
  - rewrite Hx in Hmem. cbn in Hmem. rewrite decide_False in Hmem by tauto.
    pose proof (g_key _ Hg _ _ Hx) as Hid. pose proof (g_row _ Hg _ _ Hx) as Hgr. destruct Hgr as [Gp Gf Gu (Ge & Gc & Gup) Gd].
    assert (good_row (failing_row f (now_of clock (Checkpoint.pf_Now f)) x) (decisions d !! Checkpoint.pf_CheckpointID f)) as Hnew.
    { split; cbn; [done|done|apply whole_zero| |done]. split_and!; [done|done|]. destruct (decide (r_status x = _)); [apply whole_micro|done]. }
    destruct Hw4 as [Hp|[Hf Hc]].
    + rewrite decide_False in Hmem by (rewrite Hp; by intros [? _]). rewrite decide_False in Hmem by (intros Hne; by apply Hne).
      eapply (pg_refines_put clock q d (Checkpoint.pf_CheckpointID f) _ None); [done|done|done| |rewrite Hmem, Hid, Checkpoint.clone_id; reflexivity].
      unfold micro, scanCheckpoint, failing_row. cbn. rewrite Ge, Gc, Hid, whole_decision by done. by rewrite decide_True.
    + rewrite decide_True in Hmem by done. destruct (Gf Hf) as (F1 & F2 & F3). unfold refines. rewrite Hmem. cbn [fst snd RunSqlSafety.done_of].
      rewrite micro_view by done.
      split_and!; [|by destruct q|by eapply (good_put d _ _ None)]. rewrite (view_put d _ _ None). apply insert_id. rewrite view_lookup, Hx. cbn. f_equal.
      unfold scanCheckpoint, failing_row. cbn. rewrite F1, F2, F3, Hf, Hc. by rewrite decide_False.
  - destruct (rows d !! Checkpoint.pf_CheckpointID f) as [x|] eqn:Hx; cbn in Hmem; [|by apply Hno].
    destruct (decide (_ ∨ _)) as [Ht|Ht] in Hmem; [by apply Hno|]. destruct (decide (_ ∧ _)) as [Hs|Hs] in Hmem.
    { exfalso. apply (Hn x eq_refl). unfold failing_where. split_and!; first [apply dec_stable; tauto|by right]. }
    destruct (decide (_ ≠ _)) as [Hs'|Hs'] in Hmem; [by apply Hno|]. exfalso. apply (Hn x eq_refl). unfold failing_where.
    split_and!; first [apply dec_stable; tauto|left; by apply dec_stable].
Qed.

Lemma expire_refines clock now d :
  good d → let p := statement clock (Rop (Checkpoint.OpExpire now)) d in refines clock (Rop (Checkpoint.OpExpire now)) d p.1 p.2.
Proof.
  intros Hg. cbn. set (n := now_of clock now).
  assert (∀ id x, rows d !! id = Some x → (expire_where n x ↔ Checkpoint.expirable n (scanCheckpoint x (decisions d !! id)))) as Hiff.
  { intros id x Hx. destruct (g_row _ Hg _ _ Hx) as [_ _ _ (Ge & _) _]. unfold expire_where, Checkpoint.expirable, After. cbn.
    pose proof (whole_expires (r_expires x) n Ge). split; intros [H1 H2]; (split; [exact H1|lia]). }
  unfold refines. cbn. fold (now_of clock now) n. split_and!.
  - apply map_eq. intros id. rewrite view_lookup, !lookup_fmap, view_lookup. cbn. rewrite lookup_fmap. destruct (rows d !! id) as [x|] eqn:Hx; [|done]. cbn. f_equal.
    specialize (Hiff id x Hx). pose proof (g_row _ Hg _ _ Hx) as Hgr. destruct (decide (expire_where n x)) as [Hw|Hw].
    + rewrite decide_True by (by apply Hiff). rewrite Checkpoint.clone_id. destruct Hgr as [Gp Gf Gu (Ge & Gc & Gup) Gd].
      unfold micro, scanCheckpoint, expire_row, Checkpoint.expire. cbn. by rewrite Ge, Gc, whole_decision.
    + rewrite decide_False by (intros ?; by apply Hw, Hiff). by rewrite micro_scan.
  - do 2 f_equal. rewrite <-!(size_dom (D := gset string)). f_equal. apply set_eq. intros id. rewrite !elem_of_dom. unfold is_Some.
    setoid_rewrite map_lookup_filter_Some. setoid_rewrite view_lookup. cbn. split.
    + intros (x & Hx & Hw). rewrite Hx. eexists. split; [done|]. by apply (Hiff id x Hx).
    + intros (c & (x & Hx & ->)%fmap_Some & Hw). exists x. split; [done|]. by apply (Hiff id x Hx).
  - split; cbn.
    + intros id x (y & <- & Hy)%lookup_fmap_Some. destruct (decide _); cbn; by eapply g_key.
    + intros id x (y & <- & Hy)%lookup_fmap_Some. pose proof (g_row _ Hg _ _ Hy) as Hgr. destruct (decide _); [|done].
      destruct Hgr as [Gp Gf Gu (Ge & Gc & Gup) Gd]. split; cbn; [done|done|apply whole_zero|split_and!; [done|done|apply whole_micro]|done].
    + intros id. rewrite lookup_fmap. intros ?%fmap_None. by apply Hg.
Qed.

(** The claim of the code and that of the in-memory store. *)
Lemma claim_iff r now x d : good_row x d → claim_where r now x ↔ Checkpoint.claimable (scanCheckpoint x d) r now.
Proof.
  intros [_ _ _ (Ge & _) _]. unfold claim_where, Checkpoint.claimable, After. cbn. pose proof (whole_expires (r_expires x) now Ge).
  split; intros (H1 & H2 & H3 & H4); split_and!; try done; lia.
Qed.

Lemma claim_refused clock r lease d :
  good d → valid_request (tx_request lease r) = None →
  (∀ x, rows d !! Checkpoint.lr_CheckpointID r = Some x → ¬ claim_where r (now_of clock (Checkpoint.lr_Now r)) x) →
  refines clock (tx_request lease r) d d (Err (CkError Checkpoint.ErrCheckpointNotClaimable)).
Proof.
  intros Hg Hv Hno. assert (mem_call clock (view d) (tx_request lease r) = (view d, Err Checkpoint.ErrCheckpointNotClaimable)) as Hmem.
  { assert (∀ x, rows d !! Checkpoint.lr_CheckpointID r = Some x →
      ¬ Checkpoint.claimable (scanCheckpoint x (decisions d !! Checkpoint.lr_CheckpointID r)) r (Checkpoint.requestNow clock (Checkpoint.lr_Now r))) as Hn.
    { intros x Hx Hc. eapply Hno; [done|]. eapply claim_iff; [by eapply g_row|done]. }
    destruct lease; cbn in Hv |- *; [unfold Checkpoint.ApproveAndLease|unfold Checkpoint.RejectCheckpoint]; rewrite Hv; cbv zeta; rewrite view_lookup;
      (destruct (rows d !! Checkpoint.lr_CheckpointID r) as [x|] eqn:Hx; [|done]); cbn [fmap option_fmap option_map]; specialize (Hn x eq_refl).
    - by rewrite decide_True.
    - rewrite decide_True; [done|]. unfold Checkpoint.claimable in Hn. apply dec_stable. tauto. }
  pose proof (refines_same clock (tx_request lease r) d _ Hg Hmem) as H. by destruct lease.
Qed.

Lemma claim_commits clock r lease d x :
  good d → valid_request (tx_request lease r) = None → rows d !! Checkpoint.lr_CheckpointID r = Some x →
  let now := now_of clock (Checkpoint.lr_Now r) in
  claim_where r now x →
  refines clock (tx_request lease r) d
    (mkDB (<[r_id x := if lease then lease_row r now x else reject_row now x]> (rows d)) (<[r_id x := decision_row r lease now]> (decisions d)))
    (Ok (if lease then RunSqlSafety.Got (leased r now (scanCheckpoint x None)) else RunSqlSafety.Done)).
Proof.
  intros Hg Hv Hx now Hw. pose proof (g_key _ Hg _ _ Hx) as Hid. pose proof (g_row _ Hg _ _ Hx) as Hgr. destruct (Hw) as (W1 & W2 & W3 & W4).
  pose proof (g_pending _ _ Hgr W3) as Hnone. pose proof (proj1 (claim_iff r now x _ Hgr) Hw) as Hc. destruct Hgr as [Gp Gf Gu (Ge & Gc & Gup) Gd].
  rewrite Hid. apply (pg_refines_put clock (tx_request lease r) d (Checkpoint.lr_CheckpointID r) _ (Some (decision_row r lease now))
    (if lease then leased r now (scanCheckpoint x None)
     else (scanCheckpoint x None) <| Checkpoint.CkStatus := Checkpoint.CheckpointRejected |> <| Checkpoint.Ciphertext := [] |>
            <| Checkpoint.ApprovalOf := Some (Checkpoint.mkAudit (Checkpoint.lr_ApproverID r) false (Checkpoint.lr_AuditRef r) (Checkpoint.lr_ReasonCode r) now) |>
            <| Checkpoint.UpdatedAt := now |>)).
  - done.
  - by destruct lease.
  - destruct lease; split; cbn; try done; try apply whole_micro; try (split_and!; try done; apply whole_micro); intros e [= <-]; apply whole_micro.
  - destruct lease; unfold micro, scanCheckpoint, lease_row, reject_row, leased, decision_row; cbn; rewrite ?Ge, ?Gc, ?Gu; reflexivity.
  - rewrite Hnone in Hc. destruct lease; cbn in Hv |- *; [unfold Checkpoint.ApproveAndLease|unfold Checkpoint.RejectCheckpoint]; rewrite Hv; cbv zeta; rewrite view_lookup, Hx, Hnone;
      cbn [fmap option_fmap option_map]; fold (now_of clock (Checkpoint.lr_Now r)); fold now.
    + rewrite decide_False by (intros Hn; by apply Hn). rewrite !Checkpoint.clone_id. cbn. by rewrite <-Hid.
    + rewrite decide_False by (unfold Checkpoint.claimable in Hc; tauto). rewrite !Checkpoint.clone_id. cbn. by rewrite <-Hid.
Qed.

(** Any other call, as its only statement. *)
Definition is_claim (q : request) : bool := match q with Rop (Checkpoint.OpApprove _) | Rop (Checkpoint.OpReject _) => true | _ => false end.
Lemma statement_refines clock q d :
  good d → valid_request q = None → fresh_request q → is_claim q = false → refines clock q d (statement clock q d).1 (statement clock q d).2.
Proof.
  intros Hg Hv Hf Hc. destruct q as [id tenant|[c|r|r|c|c|f|now]]; try done.
  - by apply get_refines.
  - by apply create_refines.
  - pose proof (pg_finish_refines clock c Checkpoint.CheckpointConsumed "" d Hg) as H. cbn -[update_key] in H. specialize (H (or_introl (conj eq_refl eq_refl)) Hv).
    cbn -[update_key]. by destruct (update_key _ _ _ _).
  - pose proof (pg_finish_refines clock c Checkpoint.CheckpointFailed (Checkpoint.lc_FailureCode c) d Hg) as H. cbn -[update_key] in H.
    specialize (H (or_intror (conj eq_refl eq_refl)) Hv). cbn -[update_key]. by destruct (update_key _ _ _ _).
  - by apply failing_refines.
  - by apply expire_refines.
Qed.

(** A statement leaves the rows alone that it does not need. *)
Lemma statement_frame clock q d id x :
  good d → rows d !! id = Some x → needs clock q x = false →
  rows (statement clock q d).1 !! id = Some x ∧ decisions (statement clock q d).1 !! id = decisions d !! id.
Proof.
  intros Hg Hx Hn. pose proof (g_key _ Hg _ _ Hx) as Hid.
  assert (∀ k P (HP : ∀ y, Decision (P y)) f, bool_decide (r_id x = k ∧ P x) = false →
    rows (update_key k P f d).1 !! id = Some x ∧ decisions (update_key k P f d).1 !! id = decisions d !! id) as Hup.
  { intros k P HP f Hb. apply bool_decide_eq_false in Hb. unfold update_key. destruct (rows d !! k) as [y|] eqn:Hy; [|done]. case_decide as Hp; [|done]. cbn.
    rewrite lookup_insert_ne; [done|]. intros ->. rewrite Hx in Hy. injection Hy as <-. by apply Hb. }
  destruct q as [k tenant|[c|r|r|c|c|f|now]]; try done; cbn -[update_key] in Hn |- *.
  - destruct (rows d !! Checkpoint.ID c) as [y|] eqn:Hy; [done|]. cbn. rewrite lookup_insert_ne; [done|]. congruence.
  - pose proof (Hup _ _ _ (finish_row "consumed" "" (now_of clock (Checkpoint.lc_Now c))) Hn) as H. by destruct (update_key _ _ _ _).
  - pose proof (Hup _ _ _ (finish_row "failed" (Checkpoint.lc_FailureCode c) (now_of clock (Checkpoint.lc_Now c))) Hn) as H. by destruct (update_key _ _ _ _).
  - pose proof (Hup _ _ _ (failing_row f (now_of clock (Checkpoint.pf_Now f))) Hn) as H. by destruct (update_key _ _ _ _).
  - apply bool_decide_eq_false in Hn. split; [|done]. cbn. rewrite lookup_fmap, Hx. cbn. by rewrite decide_False.
Qed.

(** * The invariant *)

Lemma pg_replay_snoc l e : replay (l ++ [e]) = call_mem (replay l) e.
Proof. unfold replay. by rewrite foldl_app. Qed.

(** A transaction holds the row it claimed, and has written what its request asks for. *)
Definition tx_ok (d : DB) (clock : Time) (r : Checkpoint.ApprovalLeaseRequest) (lease : bool) (x : row) (u : option row) (dec : option decision) : Prop :=
  let now := now_of clock (Checkpoint.lr_Now r) in
  rows d !! Checkpoint.lr_CheckpointID r = Some x ∧ claim_where r now x ∧ valid_request (tx_request lease r) = None ∧
  (u = None → lease = true) ∧ (∀ x', u = Some x' → x' = if lease then lease_row r now x else reject_row now x) ∧
  (∀ e, dec = Some e → e = decision_row r lease now).

Record inv (s : state) : Prop := {
  v_good : good (db s);
  v_view : view (db s) = replay (log s);
  v_tx : ∀ p clock r lease x u dec, procs s !! p = Some (InTx clock r lease x u dec) → tx_ok (db s) clock r lease x u dec;
  v_lock : ∀ p p' q q' id, procs s !! p = Some q → procs s !! p' = Some q' → lock_of q = Some id → lock_of q' = Some id → p = p';
  v_call : ∀ p clock q, procs s !! p = Some (Calling clock q) → fresh_request q;
  v_returned : ∀ p clock q a, procs s !! p = Some (Returned clock q a) →
    (∃ e, a = Err (ErrDB e)) ∨ ∃ before after, log s = before ++ (p, clock, q) :: after ∧ a = pg_result q (mem_call clock (replay before) q).2;
  v_log : ∀ e, e ∈ log s → ∃ a, procs s !! e.1.1 = Some (Returned e.1.2 e.2 a);
  v_once : NoDup ((λ e, e.1.1) <$> log s)
}.

Lemma inv_started : inv started.
Proof.
  split; cbn; try (intros; rewrite lookup_nil in *; congruence); try done.
  - by intros e ?%elem_of_nil.
  - constructor.
Qed.

Definition not_returned (q : proc) : bool := match q with Returned _ _ _ => false | _ => true end.

(** A call that goes on, or fails, without an effect. *)
Lemma inv_set p q q' s :
  inv s → procs s !! p = Some q → not_returned q = true →
  match q' with
  | Calling _ _ => False
  | InTx clock r lease x u dec => tx_ok (db s) clock r lease x u dec ∧
      (lock_of q = Some (r_id x) ∨ ∀ p' q2, procs s !! p' = Some q2 → lock_of q2 ≠ Some (r_id x))
  | Returned _ _ a => ∃ e, a = Err (ErrDB e)
  end → inv (set_proc p q' s).
Proof.
  intros [V1 V2 V3 V4 V5 V6 V7 V8] Hp Hq Hq'. pose proof (lookup_lt_Some _ _ _ Hp) as Hlt. split; cbn -[replay]; [done|done| | | | | |done].
  - intros p1 clock r lease x u dec [(<- & -> & _)|[_ H1]]%list_lookup_insert_Some; [by destruct Hq'|by eapply V3].
  - intros p1 p2 q1 q2 id H1 H2 L1 L2. apply list_lookup_insert_Some in H1, H2.
    assert (∀ p3 q3 id, procs s !! p3 = Some q3 → lock_of q' = Some id → lock_of q3 = Some id → p3 = p) as Hown.
    { intros p3 q3 k H3 Lq L3. destruct q' as [|clock r lease x u dec|]; try done. injection Lq as <-. destruct Hq' as [_ [Lp|Hfree]]; [by eapply V4|].
      by edestruct Hfree. }
    destruct H1 as [(<- & <- & _)|[N1 H1]], H2 as [(<- & <- & _)|[N2 H2]]; [done| | |by eapply V4].
    + symmetry. by eapply Hown.
    + by eapply Hown.
  - intros p1 clock q1 [(<- & -> & _)|[_ H1]]%list_lookup_insert_Some; [done|by eapply V5].
  - intros p1 clock q1 a [(<- & -> & _)|[_ H1]]%list_lookup_insert_Some; [by left|by eapply V6].
  - intros e He. destruct (V7 e He) as [a Ha]. exists a. rewrite list_lookup_insert_ne; [done|]. intros Ep. rewrite <-Ep, Hp in Ha. by injection Ha as ->.
Qed.

(** A call takes effect. *)
Lemma inv_commit p q0 clock q d a0 a s :
  inv s → procs s !! p = Some q0 → not_returned q0 = true → refines clock q (db s) d a0 → (a = a0 ∨ ∃ e, a = Err (ErrDB e)) →
  (∀ p' q' id x, p' ≠ p → procs s !! p' = Some q' → lock_of q' = Some id → rows (db s) !! id = Some x → rows d !! id = Some x) →
  inv (set_proc p (Returned clock q a) (commit p clock q d s)).
Proof.
  intros [V1 V2 V3 V4 V5 V6 V7 V8] Hp Hq0 (R1 & R2 & R3) Ha Hframe. pose proof (lookup_lt_Some _ _ _ Hp) as Hlt.
  assert (∀ e, e ∈ log s → e.1.1 ≠ p) as Hfresh.
  { intros e He Ep. destruct (V7 e He) as [b Hb]. rewrite Ep, Hp in Hb. by injection Hb as ->. }
  split; cbn -[replay].
  - done.
  - rewrite pg_replay_snoc. unfold call_mem. cbn. by rewrite <-V2.
  - intros p1 c r lease x u dec [(_ & ? & _)|[N1 H1]]%list_lookup_insert_Some; [done|]. destruct (V3 _ _ _ _ _ _ _ H1) as (T1 & T2). split; [|done].
    eapply (Hframe p1 _ (Checkpoint.lr_CheckpointID r)); [done|done| |done]. cbn. f_equal. by eapply (g_key _ V1).
  - intros p1 p2 q1 q2 id H1 H2 L1 L2. apply list_lookup_insert_Some in H1, H2.
    destruct H1 as [(<- & <- & _)|[N1 H1]], H2 as [(<- & <- & _)|[N2 H2]]; try done. by eapply V4.
  - intros p1 c q1 [(_ & ? & _)|[N1 H1]]%list_lookup_insert_Some; [done|by eapply V5].
  - intros p1 c q1 b [(<- & [= <- <- <-] & _)|[N1 H1]]%list_lookup_insert_Some.
    + destruct Ha as [->|?]; [|by left]. right. exists (log s), []. split; [done|]. by rewrite <-V2.
    + destruct (V6 _ _ _ _ H1) as [?|(before & after & E & ?)]; [by left|]. right. exists before, (after ++ [(p, clock, q)]). split; [|done].
      rewrite E. by rewrite <-app_assoc.
  - intros e [He|He]%elem_of_app.
    + destruct (V7 e He) as [b Hb]. exists b. rewrite list_lookup_insert_ne; [done|]. by apply not_eq_sym, Hfresh.
    + apply list_elem_of_singleton in He as ->. cbn. exists a. by apply list_lookup_insert_eq.
  - rewrite fmap_app. apply NoDup_app. split_and!; [done| |apply NoDup_singleton]. intros k (e & -> & He)%list_elem_of_fmap Hk.
    apply list_elem_of_singleton in Hk. by apply (Hfresh e).
Qed.

Lemma inv_call clock q s : inv s → fresh_request q → inv (s <| procs := procs s ++ [Calling clock q] |>).
Proof.
  intros [V1 V2 V3 V4 V5 V6 V7 V8] Hf. split; cbn -[replay]; [done|done| | | | | |done].
  - intros p c r lease x u dec [H|[_ [_ ?]%list_lookup_singleton_Some]]%lookup_app_Some; [by eapply V3|done].
  - intros p1 p2 q1 q2 id H1 H2 L1 L2. apply lookup_app_Some in H1, H2.
    destruct H1 as [H1|[_ [_ <-]%list_lookup_singleton_Some]], H2 as [H2|[_ [_ <-]%list_lookup_singleton_Some]]; try done. by eapply V4.
  - intros p c q1 [H|[_ [_ [= <- <-]]%list_lookup_singleton_Some]]%lookup_app_Some; [by eapply V5|done].
  - intros p c q1 a [H|[_ [_ ?]%list_lookup_singleton_Some]]%lookup_app_Some; [by eapply V6|done].
  - intros e He. destruct (V7 e He) as [a Ha]. exists a. by apply lookup_app_l_Some.
Qed.

Lemma unlocked_spec s id : unlocked s id = true → ∀ p q, procs s !! p = Some q → lock_of q ≠ Some id.
Proof.
  unfold unlocked. rewrite forallb_forall. intros H p q Hq. specialize (H q). rewrite bool_decide_eq_true in H. apply H.
  by apply list_elem_of_In, (list_elem_of_lookup_2 _ p).
Qed.
Lemma blocked_spec s clock q id x :
  blocked s clock q = false → rows (db s) !! id = Some x → needs clock q x = true → ∀ p q', procs s !! p = Some q' → lock_of q' ≠ Some id.
Proof.
  intros Hb Hx Hn. apply unlocked_spec. apply not_true_iff_false in Hb. destruct (unlocked s id) eqn:Hu; [done|]. exfalso. apply Hb.
  unfold blocked. apply existsb_exists. exists (id, x). split; [by apply list_elem_of_In, elem_of_map_to_list|]. cbn. by rewrite Hn, Hu.
Qed.

(** A call whose request is refused before it reaches the database. *)
Lemma invalid_refines clock q d e : good d → valid_request q = Some e → refines clock q d d (Err (CkError e)).
Proof.
  intros Hg Hv. assert (mem_call clock (view d) q = (view d, Err e) ∧ pg_result q (Err e) = Err (CkError e)) as [Hm Hp].
  { destruct q as [id tenant|[c|r|r|c|c|f|now]]; try done; cbn in Hv |- *.
    - unfold Checkpoint.CreateCheckpoint. rewrite Hv. split; [done|]. unfold Checkpoint.validateCheckpoint in Hv. case_decide; by simplify_eq.
    - unfold Checkpoint.ApproveAndLease. rewrite Hv. split; [done|]. unfold Checkpoint.validateLeaseRequest, Checkpoint.validateResolutionRequest in Hv.
      repeat case_decide; by simplify_eq.
    - unfold Checkpoint.RejectCheckpoint. rewrite Hv. split; [done|]. unfold Checkpoint.validateResolutionRequest in Hv. case_decide; by simplify_eq.
    - unfold Checkpoint.CompleteLease, Checkpoint.finishLease. destruct (decide (_ ∨ _)) in Hv; [|done]. injection Hv as <-. by rewrite decide_True.
    - unfold Checkpoint.FailLease, Checkpoint.finishLease. destruct (decide (_ ∨ _)) as [|Hb] in Hv; [injection Hv as <-; by rewrite decide_True|].
      destruct (decide (Blank _)) in Hv; [|done]. injection Hv as <-. rewrite (decide_False (P := _ ∨ _)) by done. by rewrite decide_True.
    - unfold Checkpoint.FailPendingCheckpoint. rewrite Hv. split; [done|]. unfold Checkpoint.validatePendingCheckpointFailure in Hv. case_decide; by simplify_eq. }
  rewrite <-Hp. by apply refines_same.
Qed.

(** The first statement of a transaction. *)
Lemma inv_claim p clock r lease o s :
  inv s → procs s !! p = Some (Calling clock (tx_request lease r)) → valid_request (tx_request lease r) = None →
  blocked s clock (tx_request lease r) = false → inv (claim_step p clock r lease o s).
Proof.
  intros Hi Hp Hv Hb. unfold claim_step.
  assert (∀ e, inv (set_proc p (Returned clock (tx_request lease r) (Err (ErrDB e))) s)) as Hlost by (intros e; eapply inv_set; [done|exact Hp|done|by eexists]).
  assert ((∀ x, rows (db s) !! Checkpoint.lr_CheckpointID r = Some x → ¬ claim_where r (now_of clock (Checkpoint.lr_Now r)) x) →
    inv (set_proc p (Returned clock (tx_request lease r) (Err (CkError Checkpoint.ErrCheckpointNotClaimable))) (commit p clock (tx_request lease r) (db s) s))) as Hno.
  { intros Hn. eapply inv_commit; [done|exact Hp|done|by apply claim_refused; [apply Hi|..]|by left|done]. }
  cbv zeta.
  destruct (rows (db s) !! Checkpoint.lr_CheckpointID r) as [x|] eqn:Hx; [|destruct o; [by apply Hno|by apply Hno|apply Hlost]].
  assert (claim_where r (now_of clock (Checkpoint.lr_Now r)) x →
    inv (set_proc p (InTx clock r lease x (if lease then None else Some (reject_row (now_of clock (Checkpoint.lr_Now r)) x)) None) s)) as Hyes.
  { intros Hw. pose proof (g_key _ (v_good _ Hi) _ _ Hx) as Hid. eapply inv_set; [done|exact Hp|done|]. split.
    - unfold tx_ok. split_and!; [done..|by destruct lease|by destruct lease; intros x' [= <-]|done].
    - right. rewrite Hid. eapply blocked_spec; [exact Hb|exact Hx|]. destruct lease; cbn; by apply bool_decide_eq_true. }
  destruct o; [| |apply Hlost]; (case_decide; [by apply Hyes|apply Hno; by intros ? [= <-]]).
Qed.

(** The later ones. *)
Lemma inv_tx p o clock r lease x u dec s :
  inv s → procs s !! p = Some (InTx clock r lease x u dec) → inv (tx_step p o clock r lease x u dec s).
Proof.
  intros Hi Hp. destruct (v_tx _ Hi _ _ _ _ _ _ _ Hp) as (T1 & T2 & T3 & T4 & T5 & T6). set (now := now_of clock (Checkpoint.lr_Now r)) in *.
  pose proof (g_key _ (v_good _ Hi) _ _ T1) as Hid.
  assert (∀ e, inv (set_proc p (Returned clock (tx_request lease r) (Err (ErrDB e))) s)) as Hlost by (intros e; eapply inv_set; [done|exact Hp|done|by eexists]).
  assert (∀ u' dec', tx_ok (db s) clock r lease x u' dec' → inv (set_proc p (InTx clock r lease x u' dec') s)) as Hgo.
  { intros u' dec' Hok. eapply inv_set; [done|exact Hp|done|]. split; [done|by left]. }
  unfold tx_step. fold now. destruct u as [x'|]; [destruct dec as [e|]|].
  - pose proof (T5 _ eq_refl) as ->. pose proof (T6 _ eq_refl) as ->. pose proof (claim_commits clock r lease (db s) x (v_good _ Hi) T3 T1 T2) as Hr. fold now in Hr.
    assert (∀ a, (a = Ok (if lease then RunSqlSafety.Got (leased r now (scanCheckpoint x None)) else RunSqlSafety.Done) ∨ ∃ e, a = Err (ErrDB e)) →
      inv (set_proc p (Returned clock (tx_request lease r) a) (commit p clock (tx_request lease r)
        (mkDB (<[r_id x := if lease then lease_row r now x else reject_row now x]> (rows (db s))) (<[r_id x := decision_row r lease now]> (decisions (db s)))) s))) as Hcommit.
    { intros a Ha. eapply inv_commit; [done|exact Hp|done|exact Hr|exact Ha|]. intros p' q' id y Hne Hp' Hl Hy. cbn. rewrite lookup_insert_ne; [done|].
      intros <-. apply Hne. by eapply v_lock. }
    destruct o; [apply Hcommit; by left|apply Hlost|apply Hcommit; right; by eexists].
  - destruct o; [|apply Hlost..]. assert (decisions (db s) !! r_id x = None) as ->.
    { rewrite Hid. eapply g_pending; [by eapply g_row; [apply Hi|]|]. by destruct T2 as (_ & _ & ? & _). }
    apply Hgo. unfold tx_ok. fold now. split_and!; try done. by intros e [= <-].
  - destruct o; [|apply Hlost..]. apply Hgo. unfold tx_ok. fold now. rewrite (T4 eq_refl) in *. split_and!; try done. by intros x' [= <-].
Qed.

Lemma inv_step l s s' : inv s → (∀ clock q, l = LCall clock q → fresh_request q) → step l s = Some s' → inv s'.
Proof.
  intros Hi Hf. destruct l as [clock q|p o]; cbn [step]; [intros [= <-]; apply inv_call; [done|by eapply Hf]|].
  destruct (procs s !! p) as [[clock q|clock r lease x u dec|clock q a]|] eqn:Hp; try done; [|intros [= <-]; by apply inv_tx].
  destruct (valid_request q) as [e|] eqn:Hv.
  { intros [= <-]. eapply inv_commit; [done|exact Hp|done|by apply invalid_refines; [apply Hi|]|by left|done]. }
  assert (∀ o, (if blocked s clock q then None else
      match q with
      | Rop (Checkpoint.OpApprove r) => Some (claim_step p clock r true o s)
      | Rop (Checkpoint.OpReject r) => Some (claim_step p clock r false o s)
      | _ => let '(d, a) := statement clock q (db s) in
             let a := if o is Lost e then Err (ErrDB e) else a in Some (set_proc p (Returned clock q a) (commit p clock q d s))
      end) = Some s' → inv s') as Hrun.
  { intros o'. destruct (blocked s clock q) eqn:Hb; [done|].
    assert (is_claim q = false → ∀ a, (a = (statement clock q (db s)).2 ∨ ∃ e, a = Err (ErrDB e)) →
      inv (set_proc p (Returned clock q a) (commit p clock q (statement clock q (db s)).1 s))) as Hst.
    { intros Hc a Ha. eapply inv_commit; [done|exact Hp|done|apply statement_refines; [apply Hi|done|by eapply v_call|done]|exact Ha|].
      intros p' q' id x Hne Hp' Hl Hx. apply statement_frame; [apply Hi|done|]. destruct (needs clock q x) eqn:Hn; [|done].
      exfalso. by eapply (blocked_spec s clock q id x Hb Hx Hn p' q' Hp'). }
    destruct (statement clock q (db s)) as [d a] eqn:Hs. cbn [fst snd] in Hst.
    assert (is_claim q = false → inv (set_proc p (Returned clock q (if o' is Lost e then Err (ErrDB e) else a)) (commit p clock q d s))) as Hst'.
    { intros Hc. apply Hst; [done|]. destruct o'; [by left|by left|right; by eexists]. }
    destruct q as [k tenant|[c|r|r|c|c|f|now]]; rewrite ?Hs; intros [= <-]; try (by apply Hst').
    - by apply (inv_claim p clock r true).
    - by apply (inv_claim p clock r false). }
  destruct o as [|e|e]; [apply (Hrun Fine)|intros [= <-]; eapply inv_set; [done|exact Hp|done|by eexists]|apply (Hrun (Lost e))].
Qed.

(** Steps of calls that create checkpoints without a lease or a decision. *)
Definition fresh_steps (s s' : state) : Prop := ∃ l, (∀ clock q, l = LCall clock q → fresh_request q) ∧ step l s = Some s'.

(** C29: With any number of clients on one PostgreSQL database, at any interleaving of their statements, with statements and commits that
fail and commits of which the client does not learn, the approval store is the in-memory store whose times are cut to microseconds: at every
moment the tables hold exactly the checkpoints that this store holds after the calls that took effect, in some order, each at most
once; and a call that returns anything but an error of the driver took effect at its moment and returned what that store returns
there, but for the name of two errors. The calls are any, with one condition ([fresh_request]): a checkpoint is created without a decision
and without a lease, whose fields the in-memory store would keep and the INSERT does not write. *)
Theorem postgres_linearizes s :
  rtc fresh_steps started s →
  view (db s) = replay (log s) ∧ NoDup ((λ e, e.1.1) <$> log s) ∧
  ∀ p clock q a, procs s !! p = Some (Returned clock q a) →
    (∃ e, a = Err (ErrDB e)) ∨
    ∃ before after, log s = before ++ (p, clock, q) :: after ∧ a = pg_result q (mem_call clock (replay before) q).2.
Proof.
  intros H. assert (inv s) as Hi.
  { apply (rtc_ind_r inv started) in H; [done|apply inv_started|]. intros s1 s2 _ (l & Hf & Hl) Hi. by eapply inv_step. }
  split_and!; [apply Hi|apply Hi|]. intros p clock q a Hp. by eapply v_returned.
Qed.

(** A run of the machine by its labels. *)
Fixpoint run (l : list label) (s : state) : option state :=
  match l with
  | [] => Some s
  | a :: l => match step a s with Some s => run l s | None => None end
  end.
Definition fresh_label (l : label) : Prop := match l with LCall _ q => fresh_request q | LStep _ _ => True end.
Lemma run_steps l s s' : Forall fresh_label l → run l s = Some s' → rtc fresh_steps s s'.
Proof.
  intros Hl. revert s. induction Hl as [|a l Ha Hl IH]; intros s; cbn [run]; [by intros [= ->]|]. destruct (step a s) as [s1|] eqn:Hs; [|done].
  intros H. eapply rtc_l; [|by apply IH]. exists a. split; [|done]. intros clock q ->. exact Ha.
Qed.

End calls.

(** Two clients approve one checkpoint; the commit of the first takes effect although its client gets an error. *)
Definition sample_run : list (label (DErr := unit)) :=
  let other := Checkpoint.mkLeaseRequest "c1" "t1" "h1" "bob" "audit" "" "w2" 10 30 in
  [LCall 5 (Rop (Checkpoint.OpCreate (Checkpoint.sample_checkpoint <| Checkpoint.ExpiresAt := 100000 |>))); LStep 0 Fine;
   LCall 20 (Rop (Checkpoint.OpApprove Checkpoint.sample_request)); LCall 30 (Rop (Checkpoint.OpApprove other));
   LStep 1 Fine; LStep 1 Fine; LStep 1 Fine; LStep 1 (Lost tt); LStep 2 Fine].

Lemma postgres_linearizes_witness :
  ∃ s, run sample_run started = Some s ∧ view (db s) = replay (log s) ∧
    (λ e, e.1.1) <$> log s = [0%nat; 1%nat; 2%nat] ∧ Checkpoint.LeaseOwner <$> view (db s) !! "c1" = Some "w1".
Proof.
  destruct (run sample_run started) as [s|] eqn:Hs; [|by vm_compute in Hs]. exists s.
  assert (rtc fresh_steps started s) as Hr.
  { apply (run_steps sample_run); [|done]. unfold sample_run. repeat constructor. }
  split; [done|]. split; [apply (postgres_linearizes s Hr)|]. vm_compute in Hs. injection Hs as <-. split; vm_compute; reflexivity.
Defined.

End Postgres.
