(* ===== verification/MemoryJobs.v ===== *)
(** memorykit over PostgreSQL: the queue of extraction jobs ([src/memorykit/pgstore/extraction.go], and the
errors of [store.go] there).

Any number of workers share the table: [step] runs one statement of one call, as in [RunPostgres]. The claim of a job is a
transaction whose second statement skips the rows that others have locked. [LeaseQueue] says what a queue of leases is; the
table is one at every interleaving. *)

From S2P Require Import Prelude GoUtf8 GoPath MemoryTypes MemoryWorkers RunPostgres.
Import Memories.
#[local] Open Scope Z_scope.

(** * The abstract queue *)

Module LeaseQueue.

Inductive lease := Free | Held (owner : string) (until : Time) | Finished.
Record entry := mkEntry { attempts : Z; state : lease }.
Abbreviation queue := (gmap string entry).

(** What happens to a job: [now] is the moment of the event, [k] the attempt it belongs to. *)
Inductive event :=
| Enqueued (id : string)
| Claimed (id : string) (k : Z) (owner : string) (until now : Time) (max : Z)
| Completed (id : string) (k : Z) (owner : string) (now : Time)
| GivenUp (id : string) (k : Z) (owner : string) (now : Time) (max : Z)
| Exhausted (id : string) (now : Time) (max : Z).

Definition job_of (ev : event) : string :=
  match ev with Enqueued id | Claimed id _ _ _ _ _ | Completed id _ _ _ | GivenUp id _ _ _ _ | Exhausted id _ _ => id end.

Definition available (now : Time) (st : lease) : bool := match st with Free => true | Held _ u => u <=? now | Finished => false end.

(** A lease ends at [until]; until then only its owner may close the attempt, and then nobody may. *)
Definition change (ev : event) (e : option entry) : option entry :=
  match ev, e with
  | Enqueued _, None => Some (mkEntry 0 Free)
  | Claimed _ k owner until now max, Some (mkEntry n st) =>
      if decide (k = n + 1 ∧ k ≤ max ∧ available now st = true)
      then Some (mkEntry k (Held owner until)) else None
  | Completed _ k owner now, Some (mkEntry n (Held w u)) =>
      if decide (k = n ∧ w = owner ∧ now < u) then Some (mkEntry n Finished) else None
  | GivenUp _ k owner now max, Some (mkEntry n (Held w u)) =>
      if decide (k = n ∧ w = owner ∧ now < u) then Some (mkEntry n (if decide (max ≤ n) then Finished else Free)) else None
  | Exhausted _ now max, Some (mkEntry n (Held w u)) =>
      if decide (u ≤ now ∧ max ≤ n) then Some (mkEntry n Finished) else None
  | _, _ => None
  end.
Definition apply (q : option queue) (ev : event) : option queue :=
  match q with
  | Some q => (λ e, <[job_of ev := e]> q) <$> change ev (q !! job_of ev)
  | None => None
  end.
Definition run (l : list event) (q : queue) : option queue := foldl apply (Some q) l.


(** ** Its laws *)

Lemma run_app l l' q : run (l ++ l') q = foldl apply (run l q) l'.
Proof. apply foldl_app. Qed.
Lemma apply_none l : foldl apply None l = None.
Proof. by induction l. Qed.
Lemma run_snoc l l' q q' : run l q = Some q' → run (l ++ l') q = run l' q'.
Proof. intros H. by rewrite run_app, H. Qed.
Lemma run_split l ev l' q q' :
  run (l ++ ev :: l') q = Some q' → ∃ q1 q2, run l q = Some q1 ∧ apply (Some q1) ev = Some q2 ∧ run l' q2 = Some q'.
Proof.
  rewrite run_app. cbn [foldl]. destruct (run l q) as [q1|]; [|by rewrite apply_none]. destruct (apply (Some q1) ev) as [q2|] eqn:E; [|by rewrite apply_none].
  by exists q1, q2.
Qed.
Lemma apply_some q ev q' : apply (Some q) ev = Some q' ↔ ∃ e, change ev (q !! job_of ev) = Some e ∧ q' = <[job_of ev := e]> q.
Proof. cbn. rewrite fmap_Some. naive_solver. Qed.

(** The attempt [k] of a job is over: its owner gave it up, or the next one began after its lease. *)
Definition released (id : string) (k : Z) (until : Time) (l : list event) : Prop :=
  (∃ owner now max, GivenUp id k owner now max ∈ l) ∨ (∃ owner u now max, Claimed id (k + 1) owner u now max ∈ l ∧ until ≤ now).

(** What is known of a job since an attempt began. *)
Definition since (id : string) (k : Z) (until : Time) (l : list event) (q : queue) : Prop :=
  ∃ e, q !! id = Some e ∧ k ≤ attempts e ∧
    (released id k until l ∨ attempts e = k ∧ ((∃ owner, state e = Held owner until) ∨ state e = Finished)).

Lemma released_app id k until l l' : released id k until l → released id k until (l ++ l').
Proof. unfold released. setoid_rewrite elem_of_app. naive_solver. Qed.

Lemma since_apply id k until l q ev q' : since id k until l q → apply (Some q) ev = Some q' → since id k until (l ++ [ev]) q'.
Proof.
  intros (e & He & Hk & Hr) (e' & Hc & ->)%apply_some. unfold since. destruct (decide (job_of ev = id)) as [<-|Hne].
  2: { exists e. rewrite lookup_insert_ne by done. split_and!; [done|done|]. destruct Hr as [Hr|Hr]; [left; by apply released_app|by right]. }
  exists e'. rewrite lookup_insert_eq. split; [done|]. rewrite He in Hc. destruct e as [n st]. cbn [attempts state] in *.
  destruct ev as [id|id k' owner u now max|id k' owner now|id k' owner now max|id now max]; cbn in Hc, Hr |- *; try done.
  - case_decide as Hd; [|done]. injection Hc as <-. destruct Hd as (-> & Hm & Ha). cbn. split; [lia|]. left.
    destruct Hr as [Hr|[-> Hst]]; [by apply released_app|]. right. exists owner, u, now, max. split; [apply elem_of_app; right; by left|].
    destruct Hst as [(w & ->)| ->]; [|done]. cbn in Ha. lia.
  - destruct st as [|w u|]; try done. case_decide as Hd; [|done]. injection Hc as <-. cbn. split; [done|].
    destruct Hr as [Hr|[-> _]]; [left; by apply released_app|]. right. by split; [|right].
  - destruct st as [|w u|]; try done. case_decide as Hd; [|done]. injection Hc as <-. destruct Hd as (-> & _). cbn. split; [done|].
    left. destruct Hr as [Hr|[-> _]]; [by apply released_app|]. left. exists owner, now, max. apply elem_of_app. right. by left.
  - destruct st as [|w u|]; try done. case_decide as Hd; [|done]. injection Hc as <-. cbn. split; [done|].
    destruct Hr as [Hr|[-> _]]; [left; by apply released_app|]. right. by split; [|right].
Qed.
Lemma since_run id k until l l' q q' : since id k until l q → run l' q = Some q' → since id k until (l ++ l') q'.
Proof.
  revert l q. induction l' as [|ev l' IH]; intros l q Hs; [cbn; intros [= <-]; by rewrite app_nil_r|].
  unfold run. cbn [foldl]. destruct (apply (Some q) ev) as [q1|] eqn:E; [|by rewrite apply_none]. intros Hr.
  replace (l ++ ev :: l') with ((l ++ [ev]) ++ l') by (by rewrite <-app_assoc). apply (IH _ q1); [by eapply since_apply|done].
Qed.

(** A job is claimed again only under a later attempt, and only after the attempt before was given up or its lease had ended. *)
Lemma claims_exclusive q id before k w u t m between k' w' u' t' m' after :
  run (before ++ Claimed id k w u t m :: between ++ Claimed id k' w' u' t' m' :: after) ∅ = Some q →
  k < k' ∧ released id k u (between ++ [Claimed id k' w' u' t' m']).
Proof.
  intros (q1 & q2 & _ & H1 & H)%run_split. apply run_split in H as (q3 & q4 & Hb & H2 & _).
  assert (since id k u [] q2) as Hs.
  { apply apply_some in H1 as (e & Hc & ->). cbn in Hc. exists e. rewrite lookup_insert_eq. split; [done|]. destruct (q1 !! id) as [[n st]|]; [|done].
    case_decide; [|done]. injection Hc as <-. split; [done|]. right. split; [done|]. left. by exists w. }
  eapply since_run in Hs; [|exact Hb]. cbn [app] in Hs. pose proof (since_apply _ _ _ _ _ _ _ Hs H2) as (e & He & Hk & Hr).
  destruct Hs as ([n st] & He3 & Hk3 & _). apply apply_some in H2 as (e' & Hc & ->). cbn in Hc, He. rewrite lookup_insert_eq in He. injection He as ->.
  rewrite He3 in Hc. case_decide as Hd; [|done]. injection Hc as <-. cbn in *. split; [lia|]. destruct Hr as [Hr|[-> _]]; [done|lia].
Qed.

(** Nothing happens to a job that is over. *)
Lemma finished_final q id n l q' : q !! id = Some (mkEntry n Finished) → run l q = Some q' →
  Forall (λ ev, job_of ev ≠ id) l ∧ q' !! id = Some (mkEntry n Finished).
Proof.
  revert q. induction l as [|ev l IH]; intros q Hq; [by intros [= <-]|]. unfold run. cbn [foldl].
  destruct (apply (Some q) ev) as [q1|] eqn:E; [|by rewrite apply_none]. intros Hr. apply apply_some in E as (e & Hc & ->).
  destruct (decide (job_of ev = id)) as [Hj|Hj].
  { rewrite Hj, Hq in Hc. destruct ev; cbn in Hc; try done. case_decide as Hd; [|done]. by destruct Hd as (_ & _ & ?). }
  destruct (IH (<[job_of ev := e]> q)) as [H1 H2]; [by rewrite lookup_insert_ne|done|]. by split; [constructor|].
Qed.
Lemma completed_final q id before k w t after :
  run (before ++ Completed id k w t :: after) ∅ = Some q → Forall (λ ev, job_of ev ≠ id) after.
Proof.
  intros (q1 & q2 & _ & H1 & H2)%run_split. apply apply_some in H1 as (e & Hc & ->). cbn in Hc. destruct (q1 !! id) as [[n [|w' u|]]|]; try done.
  case_decide; [|done]. injection Hc as <-. eapply finished_final; [|exact H2]. cbn. apply lookup_insert_eq.
Qed.

(** Every job of the queue was enqueued. *)
Lemma run_enqueued l q id : run l ∅ = Some q → is_Some (q !! id) → Enqueued id ∈ l.
Proof.
  revert q. induction l as [|ev l IH] using rev_ind; intros q; [intros [= <-] [e He]; by rewrite lookup_empty in He|].
  rewrite run_app. destruct (run l ∅) as [q1|]; [|done]. cbn [foldl]. intros (e & Hc & ->)%apply_some Hq. apply elem_of_app.
  destruct (decide (job_of ev = id)) as [<-|Hne]; [|left; apply (IH q1); [done|by rewrite lookup_insert_ne in Hq]].
  destruct (q1 !! job_of ev) as [e1|] eqn:E; [left; apply (IH q1); [done|by rewrite E]|]. destruct ev; try done. right. by left.
Qed.

(** Several leases run out at once. *)
Lemma run_exhausted ids now max q :
  NoDup ids → (∀ id, id ∈ ids → ∃ n w u, q !! id = Some (mkEntry n (Held w u)) ∧ u ≤ now ∧ max ≤ n) →
  ∃ q', run ((λ id, Exhausted id now max) <$> ids) q = Some q' ∧
    ∀ id, q' !! id = if decide (id ∈ ids) then (λ e, mkEntry (attempts e) Finished) <$> q !! id else q !! id.
Proof.
  intros Hnd. revert q. induction Hnd as [|id ids Hid Hnd IH]; intros q H; [by exists q|].
  destruct (H id (list_elem_of_here _ _)) as (n & w & u & Hq & Hu & Hm).
  destruct (IH (<[id := mkEntry n Finished]> q)) as (q' & Hr & Hl).
  { intros id' Hin. rewrite lookup_insert_ne by (by intros ->). apply H. by right. }
  exists q'. split.
  - cbn [fmap list_fmap]. unfold run. cbn [foldl]. rewrite (proj2 (apply_some q (Exhausted id now max) (<[id := mkEntry n Finished]> q))); [exact Hr|].
    cbn. exists (mkEntry n Finished). rewrite Hq. cbn. by rewrite decide_True.
  - intros id'. rewrite Hl. destruct (decide (id' = id)) as [->|Hne].
    + rewrite (decide_False (P := id ∈ ids)) by done. rewrite decide_True by left. by rewrite lookup_insert_eq, Hq.
    + rewrite lookup_insert_ne by done. destruct (decide (id' ∈ ids)); [rewrite decide_True by (by right)|rewrite decide_False by (intros [?|?]%elem_of_cons; done)]; done.
Qed.

End LeaseQueue.

Module Jobs.

Abbreviation timestamptz := Postgres.timestamptz.
Abbreviation ExtractionJob := Workers.ExtractionJob.

(** * Errors *)

(** What [store.go] asks an error of the driver. *)
Record DriverError := mkDriverError {
  context_error : option CtxErr; bad_conn : bool; temporary : bool; sql_state : option string
}.
Definition isTransientBackendError (e : DriverError) : bool :=
  bad_conn e || temporary e ||
  match sql_state e with
  | Some state => HasPrefix state "08" || HasPrefix state "53" || bool_decide (state = "57P01" ∨ state = "57P02" ∨ state = "57P03")
  | None => false
  end.
Definition errBackendOperation : Error := ErrForeign "database operation failed".
Definition wrapBackend (op : string) (e : DriverError) : Error :=
  match context_error e with
  | Some c => ErrCtx c
  | None => BackendError op (isTransientBackendError e) errBackendOperation
  end.

(** * The table *)

Record row := mkRow {
  r_id : string; r_scope : Scope; r_source : Source; r_agent : string; r_extractor : string; r_status : string; r_attempts : Z;
  r_owner : string; r_until : option Time; r_failure : string; r_created : Time; r_updated : Time
}.
#[global] Instance eta_row : Eta row := λ r,
  mkRow (r_id r) (r_scope r) (r_source r) (r_agent r) (r_extractor r) (r_status r) (r_attempts r) (r_owner r) (r_until r)
    (r_failure r) (r_created r) (r_updated r).
Abbreviation table := (gmap string row).

Definition scanExtractionJob (r : row) : ExtractionJob :=
  Workers.mkJob (r_id r) (r_scope r) (r_source r) (r_agent r) (r_extractor r) (r_status r) (r_attempts r) (r_owner r)
    (default 0 (r_until r)) (r_created r) (r_updated r).

Definition enqueue_row (j : ExtractionJob) : row :=
  mkRow (Workers.j_ID j) (Workers.j_Scope j) (Workers.j_Source j) (Workers.j_SourceAgentID j) (Workers.j_ExtractorID j)
    "pending" 0 "" None "" (timestamptz (Workers.j_CreatedAt j)) (timestamptz (Workers.j_UpdatedAt j)).

(** [lease_until <= $now] and [lease_until > $now]; neither holds of [NULL]. *)
Definition lapsed (now : Time) (r : row) : Prop := match r_until r with Some u => u ≤ timestamptz now | None => False end.
Definition live (now : Time) (r : row) : Prop := match r_until r with Some u => timestamptz now < u | None => False end.
#[global] Instance lapsed_dec now r : Decision (lapsed now r).
Proof. unfold lapsed. destruct (r_until r); apply _. Defined.
#[global] Instance live_dec now r : Decision (live now r).
Proof. unfold live. destruct (r_until r); apply _. Defined.

Definition exhausted (max : Z) (now : Time) (r : row) : Prop := r_status r = "leased" ∧ lapsed now r ∧ max ≤ r_attempts r.
Definition claimable (max : Z) (now : Time) (r : row) : Prop :=
  r_attempts r < max ∧ (r_status r = "pending" ∨ r_status r = "leased" ∧ lapsed now r).
Definition held_where (id workerID : string) (attempt : Z) (now : Time) (r : row) : Prop :=
  r_id r = id ∧ r_owner r = workerID ∧ r_attempts r = attempt ∧ r_status r = "leased" ∧ live now r.
#[global] Instance exhausted_dec max now r : Decision (exhausted max now r).
Proof. unfold exhausted. apply _. Defined.
#[global] Instance claimable_dec max now r : Decision (claimable max now r).
Proof. unfold claimable. apply _. Defined.
#[global] Instance held_where_dec id w k now r : Decision (held_where id w k now r).
Proof. unfold held_where. apply _. Defined.

(** The columns that name the source are emptied when the job is over. *)
Definition scrubbed (r : row) : row := r <| r_source := mkSource "" "" "" |> <| r_agent := "" |>.
Definition unleased (now : Time) (r : row) : row := r <| r_owner := "" |> <| r_until := None |> <| r_updated := timestamptz now |>.
Definition exhaust_row (now : Time) (r : row) : row :=
  unleased now (scrubbed (r <| r_status := "failed" |> <| r_failure := "lease_exhausted" |>)).
Definition claim_row (workerID : string) (leaseUntil now : Time) (r : row) : row :=
  r <| r_status := "leased" |> <| r_attempts := r_attempts r + 1 |> <| r_owner := workerID |>
    <| r_until := Some (timestamptz leaseUntil) |> <| r_updated := timestamptz now |>.
Definition complete_row (now : Time) (r : row) : row := unleased now (scrubbed (r <| r_status := "completed" |>)).
Definition fail_row (code : string) (max : Z) (now : Time) (r : row) : row :=
  unleased now ((if decide (max ≤ r_attempts r) then scrubbed (r <| r_status := "failed" |>) else r <| r_status := "pending" |>)
                  <| r_failure := code |>).

(** [ORDER BY created_at, id LIMIT 1]. *)
Definition oldest (rows : list row) : option row := head (sort_slice (key_less time_id_lt (λ r, (r_created r, r_id r))) rows).

Section calls.
Context (uuid_Parse : string → option string) (limits : Limits).

(** * Calls *)

Definition validExtractionIdentity (value : string) : bool :=
  bool_decide (value ≠ "" ∧ value = TrimSpace value) && (RuneCountInString value <=? MaxMetadataRunes limits).
Definition validOptionalExtractionIdentity (value : string) : bool := bool_decide (value = "") || validExtractionIdentity value.
Definition validExtractionFailureCode (code : string) : bool :=
  bool_decide (code ∈ ["source_read_failed"; "candidate_extract_failed"; "candidate_validate_failed"; "candidate_write_failed"]).
Definition validateEnqueueExtraction (j : ExtractionJob) : res Error () :=
  let? _ := ValidateMemoryID uuid_Parse (Workers.j_ID j) in
  let? _ := Scope_Validate (Workers.j_Scope j) in
  let? _ := ValidateSources [Workers.j_Source j] limits in
  check (bool_decide (Workers.j_Status j = Workers.ExtractionPending ∧ Workers.j_Attempts j = 0 ∧ Workers.j_LeaseOwner j = "" ∧
      IsZero (Workers.j_LeaseUntil j) ∧ ¬ IsZero (Workers.j_CreatedAt j) ∧ ¬ IsZero (Workers.j_UpdatedAt j) ∧
      ¬ Before (Workers.j_UpdatedAt j) (Workers.j_CreatedAt j) ∧ ¬ Blank (s_Kind (Workers.j_Source j)) ∧ ¬ Blank (s_Ref (Workers.j_Source j))) &&
    validOptionalExtractionIdentity (Workers.j_SourceAgentID j) && validExtractionIdentity (Workers.j_ExtractorID j) &&
    validExtractionIdentity ("extractor:" +:+ Workers.j_ExtractorID j)) ErrInvalidMemory.

Inductive request :=
| Enqueue (job : ExtractionJob)
| Claim (workerID : string) (leaseDuration : Duration) (maxAttempts : Z) (now : Time)
| Complete (id workerID : string) (expectedAttempt : Z) (now : Time)
| Fail_ (id workerID : string) (expectedAttempt : Z) (failureCode : string) (maxAttempts : Z) (now : Time).
Abbreviation answer := (res Error (option ExtractionJob)).

Definition int32 (n : Z) : bool := (0 <? n) && (n <=? 2147483647).
Definition valid_request (q : request) : res Error () :=
  match q with
  | Enqueue j => validateEnqueueExtraction j
  | Claim workerID d max now =>
      let? _ := check (validExtractionIdentity workerID && (Workers.microsecond <=? d) && int32 max && negb (bool_decide (IsZero now))) ErrInvalidMemory in
      let leaseUntil := TimeAdd now d in
      check (bool_decide (After leaseUntil now ∧ Workers.Unix now ≤ Workers.Unix leaseUntil)) ErrInvalidMemory
  | Complete id workerID k now =>
      let? _ := ValidateMemoryID uuid_Parse id in
      check (validExtractionIdentity workerID && int32 k && negb (bool_decide (IsZero now))) ErrInvalidMemory
  | Fail_ id workerID k code max now =>
      let? _ := ValidateMemoryID uuid_Parse id in
      check (validExtractionIdentity workerID && int32 k && validExtractionFailureCode code && int32 max && negb (bool_decide (IsZero now)))
        ErrInvalidMemory
  end.

(** A call by what it does next; a claim holds the rows its transaction has written. *)
Inductive proc :=
| Calling (q : request)
| Begun (workerID : string) (d : Duration) (max : Z) (now : Time)
| Swept (workerID : string) (d : Duration) (max : Z) (now : Time) (writes : table)
| Taken (workerID : string) (d : Duration) (max : Z) (now : Time) (writes : table) (job : option row)
| Returned (q : request) (a : answer).

Record state := mkState { rows : table; procs : list proc; log : list (nat * LeaseQueue.event) }.
#[global] Instance eta_state : Eta state := λ s, mkState (rows s) (procs s) (log s).
Definition started : state := mkState ∅ [] [].

(** How a statement goes; [Lost] is a statement or commit that took effect although the client gets an error. *)
Inductive outcome := Fine | Broken (e : DriverError) | Lost (e : DriverError).
Inductive label := LCall (ctx : Ctx) (q : request) | LStep (p : nat) (o : outcome).

Definition writes_of (q : proc) : table := match q with Swept _ _ _ _ w | Taken _ _ _ _ w _ => w | _ => ∅ end.
(** Whether another call has locked a row. *)
Definition locked (p : nat) (s : state) (id : string) : bool :=
  existsb (λ i, bool_decide (i ≠ p) && bool_decide (is_Some (q ← procs s !! i; writes_of q !! id))) (seq 0 (length (procs s))).

Definition set_proc (p : nat) (q : proc) (s : state) : state := s <| procs := <[p := q]> (procs s) |>.
Definition effect (p : nat) (t : table) (evs : list LeaseQueue.event) (s : state) : state :=
  s <| rows := t |> <| log := log s ++ (pair p <$> evs) |>.

(** A call that is one statement: the table after it, what happened, and whether a row was affected. *)
Definition op_name (q : request) : string :=
  match q with
  | Enqueue _ => "enqueue extraction"
  | Claim _ _ _ _ => "claim extraction transaction"
  | Complete _ _ _ _ => "complete extraction"
  | Fail_ _ _ _ _ _ _ => "fail extraction"
  end.
Definition statement (q : request) (t : table) : table * list LeaseQueue.event * res Error () :=
  match q with
  | Enqueue j =>
      match t !! Workers.j_ID j with
      | Some _ => (t, [], Ok ())
      | None => (<[Workers.j_ID j := enqueue_row j]> t, [LeaseQueue.Enqueued (Workers.j_ID j)], Ok ())
      end
  | Complete id workerID k now =>
      match t !! id with
      | Some r => if decide (held_where id workerID k now r)
                  then (<[id := complete_row now r]> t, [LeaseQueue.Completed id k workerID (timestamptz now)], Ok ())
                  else (t, [], Err ErrConflict)
      | None => (t, [], Err ErrConflict)
      end
  | Fail_ id workerID k code max now =>
      match t !! id with
      | Some r => if decide (held_where id workerID k now r)
                  then (<[id := fail_row code max now r]> t, [LeaseQueue.GivenUp id k workerID (timestamptz now) max], Ok ())
                  else (t, [], Err ErrConflict)
      | None => (t, [], Err ErrConflict)
      end
  | Claim _ _ _ _ => (t, [], Ok ())
  end.
(** The row a statement would change, whose lock it needs. *)
Definition needs (q : request) (r : row) : bool :=
  match q with
  | Complete id workerID k now | Fail_ id workerID k _ _ now => bool_decide (held_where id workerID k now r)
  | _ => false
  end.
Definition blocked (p : nat) (s : state) (P : row → bool) : bool := existsb (λ e, P e.2 && locked p s e.1) (map_to_list (rows s)).

(** The two statements of a claim. *)
Definition sweep (max : Z) (now : Time) (t : table) : table := exhaust_row now <$> filter (λ e, exhausted max now e.2) t.
Definition candidates (p : nat) (max : Z) (now : Time) (w : table) (s : state) : list row :=
  (map_to_list (filter (λ e, claimable max now e.2 ∧ locked p s e.1 = false) (w ∪ rows s))).*2.
Definition commit_claim (p : nat) (workerID : string) (d : Duration) (max : Z) (now : Time) (w : table) (job : option row) (s : state) : state :=
  effect p (w ∪ rows s)
    (((λ id, LeaseQueue.Exhausted id (timestamptz now) max) <$> (map_to_list (filter (λ e, r_status e.2 = "failed") w)).*1) ++
     match job with
     | Some r => [LeaseQueue.Claimed (r_id r) (r_attempts r) workerID (timestamptz (TimeAdd now d)) (timestamptz now) max]
     | None => []
     end) s.

Definition step (l : label) (s : state) : option state :=
  match l with
  | LCall (Some e) q => Some (s <| procs := procs s ++ [Returned q (Err (ErrCtx e))] |>)
  | LCall None q => Some (s <| procs := procs s ++ [Calling q] |>)
  | LStep p o =>
      match procs s !! p with
      | Some (Calling q) =>
          match valid_request q, o, q with
          | Err e, _, _ => Some (set_proc p (Returned q (Err e)) s)
          | Ok _, Broken e, _ => Some (set_proc p (Returned q (Err (wrapBackend (op_name q) e))) s)
          | Ok _, Lost e, Claim _ _ _ _ => Some (set_proc p (Returned q (Err (wrapBackend (op_name q) e))) s)
          | Ok _, Fine, Claim workerID d max now => Some (set_proc p (Begun workerID d max now) s)
          | Ok _, _, _ =>
              if blocked p s (needs q) then None
              else let '(t, evs, a) := statement q (rows s) in
                   let a := match o, a with Lost e, _ => Err (wrapBackend (op_name q) e) | _, Ok _ => Ok None | _, Err e => Err e end in
                   Some (set_proc p (Returned q a) (effect p t evs s))
          end
      | Some (Begun workerID d max now) =>
          match o with
          | Fine => if blocked p s (λ r, bool_decide (exhausted max now r)) then None
                    else Some (set_proc p (Swept workerID d max now (sweep max now (rows s))) s)
          | Broken e | Lost e => Some (set_proc p (Returned (Claim workerID d max now) (Err (wrapBackend "terminalize extraction lease" e))) s)
          end
      | Some (Swept workerID d max now w) =>
          match o with
          | Fine =>
              match oldest (candidates p max now w s) with
              | Some r => let r := claim_row workerID (TimeAdd now d) now r in
                          Some (set_proc p (Taken workerID d max now (<[r_id r := r]> w) (Some r)) s)
              | None => Some (set_proc p (Taken workerID d max now w None) s)
              end
          | Broken e | Lost e => Some (set_proc p (Returned (Claim workerID d max now) (Err (wrapBackend "claim extraction" e))) s)
          end
      | Some (Taken workerID d max now w job) =>
          let q := Claim workerID d max now in
          let ok := match job with Some r => Ok (Some (scanExtractionJob r)) | None => Err ErrNoExtractionJob end in
          match o with
          | Fine => Some (set_proc p (Returned q ok) (commit_claim p workerID d max now w job s))
          | Lost e => Some (set_proc p (Returned q (Err (wrapBackend "claim extraction commit" e))) (commit_claim p workerID d max now w job s))
          | Broken e => Some (set_proc p (Returned q (Err (wrapBackend "claim extraction commit" e))) s)
          end
      | _ => None
      end
  end.
Definition steps (s s' : state) : Prop := ∃ l, step l s = Some s'.

(** * The table as a queue *)

Definition lease_of (r : row) : LeaseQueue.lease :=
  if decide (r_status r = "pending") then LeaseQueue.Free
  else if decide (r_status r = "leased") then LeaseQueue.Held (r_owner r) (default 0 (r_until r)) else LeaseQueue.Finished.
Definition abs_row (r : row) : LeaseQueue.entry := LeaseQueue.mkEntry (r_attempts r) (lease_of r).

(** What the queue knows of a job that is not over. *)
Record open_row (r : row) : Prop := {
  o_id : ValidateMemoryID uuid_Parse (r_id r) = Ok ();
  o_scope : Scope_Validate (r_scope r) = Ok ();
  o_source : ValidateSources [r_source r] limits = Ok ();
  o_named : ¬ Blank (s_Kind (r_source r)) ∧ ¬ Blank (s_Ref (r_source r));
  o_agent : validOptionalExtractionIdentity (r_agent r) = true;
  o_extractor : validExtractionIdentity (r_extractor r) = true ∧ validExtractionIdentity ("extractor:" +:+ r_extractor r) = true
}.
Record row_ok (id : string) (r : row) : Prop := {
  k_id : r_id r = id;
  k_attempts : 0 ≤ r_attempts r;
  k_until : r_status r = "leased" → is_Some (r_until r);
  k_open : r_status r = "pending" ∨ r_status r = "leased" → open_row r;
  k_over : r_status r ≠ "pending" ∧ r_status r ≠ "leased" → r_source r = mkSource "" "" "" ∧ r_agent r = ""
}.

(** A row a transaction has written, and the row it was. *)
Definition written (w : table) (workerID : string) (d : Duration) (max : Z) (now : Time) (job : option row) (t : table) : Prop :=
  ∀ id r', w !! id = Some r' → ∃ r, t !! id = Some r ∧
    (exhausted max now r ∧ r' = exhaust_row now r ∨
     job = Some r' ∧ claimable max now r ∧ r' = claim_row workerID (TimeAdd now d) now r).
Definition answered (p : nat) (l : list (nat * LeaseQueue.event)) (q : request) (a : answer) : Prop :=
  match q, a with
  | Claim w d max now, Ok None => False
  | Claim w d max now, Ok (Some j) =>
      (p, LeaseQueue.Claimed (Workers.j_ID j) (Workers.j_Attempts j) w (timestamptz (TimeAdd now d)) (timestamptz now) max) ∈ l ∧
      valid_request q = Ok () ∧
      ∃ r, row_ok (Workers.j_ID j) r ∧ claimable max now r ∧ j = scanExtractionJob (claim_row w (TimeAdd now d) now r)
  | Enqueue j, Ok _ => LeaseQueue.Enqueued (Workers.j_ID j) ∈ l.*2
  | Complete id w k now, Ok _ => (p, LeaseQueue.Completed id k w (timestamptz now)) ∈ l
  | Fail_ id w k code max now, Ok _ => (p, LeaseQueue.GivenUp id k w (timestamptz now) max) ∈ l
  | _, _ => True
  end.
Definition proc_ok (p : nat) (q : proc) (s : state) : Prop :=
  match q with
  | Calling _ => True
  | Begun w d max now => valid_request (Claim w d max now) = Ok ()
  | Swept w d max now ws => valid_request (Claim w d max now) = Ok () ∧ written ws w d max now None (rows s)
  | Taken w d max now ws job =>
      valid_request (Claim w d max now) = Ok () ∧ written ws w d max now job (rows s) ∧
      ∀ r', job = Some r' → ws !! r_id r' = Some r' ∧ r_status r' = "leased"
  | Returned q a => answered p (log s) q a
  end.

Record inv (s : state) : Prop := {
  v_rows : ∀ id r, rows s !! id = Some r → row_ok id r;
  v_log : LeaseQueue.run (log s).*2 ∅ = Some (abs_row <$> rows s);
  v_procs : ∀ p q, procs s !! p = Some q → proc_ok p q s;
  v_locks : ∀ p p' q q' id, procs s !! p = Some q → procs s !! p' = Some q' →
    is_Some (writes_of q !! id) → is_Some (writes_of q' !! id) → p = p'
}.

Lemma jobs_inv_started : inv started.
Proof. split; cbn; try (intros; rewrite lookup_nil in *; congruence); [intros id r; by rewrite lookup_empty|by rewrite fmap_empty]. Qed.

Lemma locked_false p s id p' q : locked p s id = false → procs s !! p' = Some q → is_Some (writes_of q !! id) → p' = p.
Proof.
  intros Hl Hp Hw. destruct (decide (p' = p)) as [|Hne]; [done|]. exfalso. apply not_true_iff_false in Hl. apply Hl.
  unfold locked. apply existsb_exists. exists p'. split.
  - apply in_seq. pose proof (lookup_lt_Some _ _ _ Hp). lia.
  - rewrite Hp. cbn. by rewrite !bool_decide_true.
Qed.
Lemma blocked_false p s P id r : blocked p s P = false → rows s !! id = Some r → P r = true → locked p s id = false.
Proof.
  intros Hb Hr HP. apply not_true_iff_false in Hb. destruct (locked p s id) eqn:E; [|done]. exfalso. apply Hb. unfold blocked. apply existsb_exists.
  exists (id, r). split; [by apply list_elem_of_In, elem_of_map_to_list|]. cbn. by rewrite HP, E.
Qed.

(** A transaction keeps what it has while others change other rows, and the log grows. *)
Lemma proc_ok_mono p q s s' :
  proc_ok p q s → (∀ id r, is_Some (writes_of q !! id) → rows s !! id = Some r → rows s' !! id = Some r) → log s ⊆ log s' → proc_ok p q s'.
Proof.
  intros H Hf Hl. assert (∀ ws w d max now job, writes_of q = ws → written ws w d max now job (rows s) → written ws w d max now job (rows s')) as Hw.
  { intros ws w d max now job Hws H' id r' Hr'. destruct (H' id r' Hr') as (r & Hr & Hc). exists r. split; [|done]. apply Hf; [rewrite Hws; by eexists|done]. }
  destruct q as [| |w d max now ws|w d max now ws job|q a]; cbn in H |- *; [done|done|..].
  - destruct H as [? H]. split; [done|]. by apply Hw.
  - destruct H as (? & H & ?). split_and!; [done| |done]. by apply Hw.
  - unfold answered in *. destruct q as [|w d max now| |], a as [[j|]|]; try done; try (by apply Hl); 
      try (apply list_elem_of_fmap in H as (x & -> & Hx); apply list_elem_of_fmap; exists x; split; [done|by apply Hl]).
    destruct H as (H & ?). split; [by apply Hl|done].
Qed.

(** A step of one call: what it writes is its own or nobody's, and others keep what they have. *)
Lemma inv_next p q q' s t evs :
  inv s → procs s !! p = Some q →
  (∀ id r, t !! id = Some r → row_ok id r) →
  LeaseQueue.run evs (abs_row <$> rows s) = Some (abs_row <$> t) →
  (∀ id r, rows s !! id = Some r → (∀ p2 q2, procs s !! p2 = Some q2 → is_Some (writes_of q2 !! id) → p2 = p) ∨ t !! id = Some r) →
  (∀ id, is_Some (writes_of q' !! id) → ∀ p2 q2, procs s !! p2 = Some q2 → is_Some (writes_of q2 !! id) → p2 = p) →
  proc_ok p q' (effect p t evs s) →
  inv (set_proc p q' (effect p t evs s)).
Proof.
  intros [V1 V2 V3 V4] Hp Ht Hlog Hframe Hlock Hok. pose proof (lookup_lt_Some _ _ _ Hp) as Hlt. split; cbn -[LeaseQueue.run].
  - done.
  - rewrite fmap_app, <-list_fmap_compose. erewrite LeaseQueue.run_snoc by exact V2. rewrite <-Hlog. f_equal. clear.
    change (snd ∘ pair p) with (λ x : LeaseQueue.event, x). induction evs as [|e evs IH]; [done|]. cbn. by rewrite IH.
  - intros p1 q1 [(<- & -> & _)|[Hne H1]]%list_lookup_insert_Some; [done|].
    apply (proc_ok_mono p1 q1 s); [by apply V3| |intros x Hx; cbn; apply elem_of_app; by left].
    intros id r Hw Hr. cbn. destruct (Hframe id r Hr) as [Hno|?]; [|done]. exfalso. by apply Hne, eq_sym, (Hno p1 q1).
  - intros p1 p2 q1 q2 id H1 H2 W1 W2. apply list_lookup_insert_Some in H1, H2.
    destruct H1 as [(<- & <- & _)|[N1 H1]], H2 as [(<- & <- & _)|[N2 H2]]; [done| | |by eapply V4].
    + symmetry. by eapply Hlock.
    + by eapply Hlock.
Qed.

(** * Rows *)

Lemma identity_metadata v : validExtractionIdentity v = true → ¬ Blank v ∧ v = TrimSpace v ∧ validMetadata v limits = true.
Proof.
  unfold validExtractionIdentity, validMetadata, Blank. intros [H%bool_decide_eq_true H2]%andb_true_iff. destruct H as [Hne E]. split_and!; [|done|done]. congruence.
Qed.
Lemma enqueue_ok j : validateEnqueueExtraction j = Ok () → row_ok (Workers.j_ID j) (enqueue_row j).
Proof.
  unfold validateEnqueueExtraction. destruct (ValidateMemoryID _ _) as [[]|] eqn:E1; [|done]. cbn [res_bind].
  destruct (Scope_Validate _) as [[]|] eqn:E2; [|done]. cbn [res_bind]. destruct (ValidateSources _ _) as [[]|] eqn:E3; [|done]. cbn [res_bind].
  unfold check. destruct (_ && _) eqn:E4; [|done]. intros _. apply andb_true_iff in E4 as [E4 H4]. apply andb_true_iff in E4 as [E4 H3].
  apply andb_true_iff in E4 as [E4 H2]. apply bool_decide_eq_true in E4 as (_ & _ & _ & _ & _ & _ & _ & Hk & Hr). split; cbn; [done|done|done| |naive_solver].
  intros _. split; cbn; done.
Qed.
Lemma exhaust_ok id now r : row_ok id r → row_ok id (exhaust_row now r).
Proof. intros [K1 K2 K3 K4 K5]. split; cbn; try done. by intros [?|?]. Qed.
Lemma complete_ok id now r : row_ok id r → row_ok id (complete_row now r).
Proof. intros [K1 K2 K3 K4 K5]. split; cbn; try done. by intros [?|?]. Qed.
Lemma open_eq r r' : r_id r = r_id r' → r_scope r = r_scope r' → r_source r = r_source r' → r_agent r = r_agent r' → r_extractor r = r_extractor r' →
  open_row r → open_row r'.
Proof. intros E1 E2 E3 E4 E5 [H1 H2 H3 H4 H5 H6]. rewrite E1, E2, E3, E4, E5 in *. by split. Qed.
Lemma claim_ok id w until max now r : row_ok id r → claimable max now r → row_ok id (claim_row w until now r).
Proof.
  intros [K1 K2 K3 K4 K5] [_ Hc]. split; cbn; [done|lia|by eexists| |by intros [_ ?]]. intros _. apply (open_eq r); try done. apply K4. naive_solver.
Qed.
Lemma fail_ok id code max now r : row_ok id r → r_status r = "leased" → row_ok id (fail_row code max now r).
Proof.
  intros [K1 K2 K3 K4 K5] Hs. unfold fail_row. case_decide; split; cbn; try done; [by intros [?|?]| |by intros [? _]].
  intros _. apply (open_eq r); try done. apply K4. by right.
Qed.

(** ** Events of one row *)

Lemma run_one ev id r' t :
  LeaseQueue.job_of ev = id → LeaseQueue.change ev (abs_row <$> t !! id) = Some (abs_row r') →
  LeaseQueue.run [ev] (abs_row <$> t) = Some (abs_row <$> <[id := r']> t).
Proof. intros <- Hc. unfold LeaseQueue.run. cbn. by rewrite lookup_fmap, Hc, fmap_insert. Qed.

Lemma abs_leased r : r_status r = "leased" → abs_row r = LeaseQueue.mkEntry (r_attempts r) (LeaseQueue.Held (r_owner r) (default 0 (r_until r))).
Proof. unfold abs_row, lease_of. intros ->. by rewrite decide_False, decide_True. Qed.
Lemma lapsed_until now r : lapsed now r → default 0 (r_until r) ≤ timestamptz now.
Proof. unfold lapsed. by destruct (r_until r). Qed.
Lemma live_until now r : live now r → timestamptz now < default 0 (r_until r).
Proof. unfold live. by destruct (r_until r). Qed.

Lemma change_completed id w k now r :
  held_where id w k now r → LeaseQueue.change (LeaseQueue.Completed id k w (timestamptz now)) (Some (abs_row r)) = Some (abs_row (complete_row now r)).
Proof. intros (_ & Ho & Ha & Hs & Hl%live_until). rewrite (abs_leased r Hs). cbn. by rewrite decide_True. Qed.
Lemma change_given_up id w k code max now r :
  held_where id w k now r →
  LeaseQueue.change (LeaseQueue.GivenUp id k w (timestamptz now) max) (Some (abs_row r)) = Some (abs_row (fail_row code max now r)).
Proof.
  intros (_ & Ho & Ha & Hs & Hl%live_until). rewrite (abs_leased r Hs). cbn. rewrite decide_True by done. unfold fail_row, abs_row, lease_of.
  by destruct (decide (max ≤ r_attempts r)).
Qed.
Lemma change_claimed id w until max now r :
  claimable max now r →
  LeaseQueue.change (LeaseQueue.Claimed id (r_attempts r + 1) w (timestamptz until) (timestamptz now) max) (Some (abs_row r)) =
    Some (abs_row (claim_row w until now r)).
Proof.
  intros [Hm Hs]. unfold LeaseQueue.change, abs_row at 1. rewrite decide_True; [done|]. split_and!; [done|lia|]. unfold lease_of.
  destruct Hs as [Hs|[Hs Hl%lapsed_until]]; rewrite Hs; [done|]. rewrite decide_False, decide_True by done. cbn. by apply Z.leb_le.
Qed.

(** ** The transaction of a claim *)

Lemma written_failed w workerID d max now job t id r' :
  written w workerID d max now job t → w !! id = Some r' → r_status r' = "failed" →
  ∃ r, t !! id = Some r ∧ exhausted max now r ∧ r' = exhaust_row now r.
Proof. intros Hw Hr Hs. destruct (Hw id r' Hr) as (r & Ht & [[He ->]|(_ & _ & ->)]); [by eauto|done]. Qed.
Lemma written_leased w workerID d max now job t id r' :
  written w workerID d max now job t → w !! id = Some r' → r_status r' = "leased" →
  ∃ r, t !! id = Some r ∧ claimable max now r ∧ r' = claim_row workerID (TimeAdd now d) now r ∧ job = Some r'.
Proof. intros Hw Hr Hs. destruct (Hw id r' Hr) as (r & Ht & [[He ->]|(? & ? & ->)]); [done|by eauto]. Qed.
Lemma written_status w workerID d max now job t id r' :
  written w workerID d max now job t → w !! id = Some r' → r_status r' = "failed" ∨ r_status r' = "leased".
Proof. intros Hw Hr. destruct (Hw id r' Hr) as (r & Ht & [[He ->]|(? & ? & ->)]); [by left|by right]. Qed.

(** The rows whose leases ran out, as events. *)
Lemma sweep_run w workerID d max now job t :
  written w workerID d max now job t →
  ∃ q', LeaseQueue.run ((λ id, LeaseQueue.Exhausted id (timestamptz now) max) <$> (map_to_list (filter (λ e, r_status e.2 = "failed") w)).*1) (abs_row <$> t) = Some q' ∧
    ∀ id, q' !! id = match w !! id with
                     | Some r' => if decide (r_status r' = "failed") then Some (abs_row r') else abs_row <$> t !! id
                     | None => abs_row <$> t !! id
                     end.
Proof.
  intros Hw. set (ids := (map_to_list _).*1).
  assert (∀ id, id ∈ ids ↔ ∃ r', w !! id = Some r' ∧ r_status r' = "failed") as Hids.
  { intros id. unfold ids. rewrite list_elem_of_fmap. split.
    - intros ([k r'] & -> & Hin%elem_of_map_to_list). apply map_lookup_filter_Some in Hin. by exists r'.
    - intros (r' & H1 & H2). exists (id, r'). split; [done|]. apply elem_of_map_to_list, map_lookup_filter_Some. done. }
  destruct (LeaseQueue.run_exhausted ids (timestamptz now) max (abs_row <$> t)) as (q' & Hr & Hl).
  - apply NoDup_fst_map_to_list.
  - intros id (r' & H1 & H2)%Hids. destruct (written_failed _ _ _ _ _ _ _ _ _ Hw H1 H2) as (r & Ht & (Hs & Hu%lapsed_until & Hm) & _).
    exists (r_attempts r), (r_owner r), (default 0 (r_until r)). rewrite lookup_fmap, Ht. cbn [fmap option_fmap option_map]. by rewrite abs_leased.
  - exists q'. split; [exact Hr|]. intros id. rewrite Hl. destruct (decide (id ∈ ids)) as [Hin|Hin].
    + apply Hids in Hin as (r' & H1 & H2). rewrite H1, decide_True by done. destruct (written_failed _ _ _ _ _ _ _ _ _ Hw H1 H2) as (r & Ht & _ & ->).
      rewrite lookup_fmap, Ht. done.
    + rewrite lookup_fmap. destruct (w !! id) as [r'|] eqn:E; [|done]. rewrite decide_False; [done|]. intros Hs. apply Hin, Hids. by eauto.
Qed.

Lemma commit_run w workerID d max now job t :
  (∀ id r, t !! id = Some r → row_ok id r) → written w workerID d max now job t →
  (∀ r', job = Some r' → w !! r_id r' = Some r' ∧ r_status r' = "leased") →
  LeaseQueue.run
    (((λ id, LeaseQueue.Exhausted id (timestamptz now) max) <$> (map_to_list (filter (λ e, r_status e.2 = "failed") w)).*1) ++
     match job with
     | Some r => [LeaseQueue.Claimed (r_id r) (r_attempts r) workerID (timestamptz (TimeAdd now d)) (timestamptz now) max]
     | None => []
     end) (abs_row <$> t) = Some (abs_row <$> (w ∪ t)).
Proof.
  intros Hok Hw Hj. destruct (sweep_run _ _ _ _ _ _ _ Hw) as (q' & Hr & Hl). rewrite LeaseQueue.run_app, Hr.
  assert (∀ id r', w !! id = Some r' → r_status r' = "leased" → r_id r' = id) as Hid.
  { intros id r' H1 H2. destruct (written_leased _ _ _ _ _ _ _ _ _ Hw H1 H2) as (r & Ht & _ & -> & _). cbn. by apply (k_id _ _ (Hok _ _ Ht)). }
  destruct job as [r'|]; cbn [foldl].
  - destruct (Hj r' eq_refl) as [H1 H2]. destruct (written_leased _ _ _ _ _ _ _ _ _ Hw H1 H2) as (r & Ht & Hc & Er & _).
    rewrite (proj2 (LeaseQueue.apply_some q' _ (<[r_id r' := abs_row r']> q'))).
    + f_equal. apply map_eq. intros id. rewrite lookup_fmap, lookup_union. destruct (decide (id = r_id r')) as [->|Hne].
      * rewrite lookup_insert_eq, H1. by destruct (t !! _).
      * rewrite lookup_insert_ne by done. rewrite Hl. destruct (w !! id) as [r2|] eqn:E; [|by destruct (t !! id)].
        destruct (written_status _ _ _ _ _ _ _ _ _ Hw E) as [Hs|Hs].
        -- rewrite decide_True by done. by destruct (t !! id).
        -- exfalso. destruct (written_leased _ _ _ _ _ _ _ _ _ Hw E Hs) as (_ & _ & _ & _ & [= <-]). by apply Hne, eq_sym, Hid.
    + exists (abs_row r'). split; [|done]. cbn [LeaseQueue.job_of]. rewrite Hl, H1, decide_False by (rewrite H2; done). rewrite Ht. rewrite Er at 2 3.
      cbn [r_attempts fmap option_fmap option_map]. rewrite Er. by apply change_claimed.
  - f_equal. apply map_eq. intros id. rewrite Hl, lookup_fmap, lookup_union. destruct (w !! id) as [r2|] eqn:E; [|by destruct (t !! id)].
    destruct (written_status _ _ _ _ _ _ _ _ _ Hw E) as [Hs|Hs]; [rewrite decide_True by done; by destruct (t !! id)|].
    by destruct (written_leased _ _ _ _ _ _ _ _ _ Hw E Hs) as (_ & _ & _ & _ & [=]).
Qed.

Lemma commit_ok w workerID d max now job t :
  (∀ id r, t !! id = Some r → row_ok id r) → written w workerID d max now job t → ∀ id r, (w ∪ t) !! id = Some r → row_ok id r.
Proof.
  intros Hok Hw id r [Hr|[_ Hr]]%lookup_union_Some_raw; [|by apply Hok]. destruct (Hw id r Hr) as (r0 & Ht & [[He ->]|(_ & Hc & ->)]).
  - by apply exhaust_ok, Hok.
  - eapply claim_ok; [by apply Hok|exact Hc].
Qed.

Lemma oldest_in l r : oldest l = Some r → r ∈ l.
Proof. unfold oldest. intros H. apply head_Some_elem_of in H. by apply elem_of_sort_slice in H. Qed.
(** A claim takes the oldest job of those it may take. *)
Lemma oldest_first l r r' : oldest l = Some r → r' ∈ l → ¬ time_id_lt (r_created r', r_id r') (r_created r, r_id r).
Proof.
  unfold oldest. intros H Hin. pose proof (sort_key_sorted time_id_lt (λ r, (r_created r, r_id r)) l) as Hs. apply (elem_of_sort_slice (key_less time_id_lt (λ r, (r_created r, r_id r)))) in Hin.
  destruct (sort_slice _ l) as [|r0 l'] eqn:E; [done|]. injection H as ->. apply StronglySorted_inv in Hs as [_ Hs]. apply elem_of_cons in Hin as [->|Hin]; [apply st_irrefl|].
  rewrite Forall_forall in Hs. by apply (Hs r').
Qed.

(** * The invariant *)

Lemma effect_nil p s : effect p (rows s) [] s = s.
Proof. unfold effect. destruct s. cbn. by rewrite app_nil_r. Qed.
Lemma inv_stay p q q' s :
  inv s → procs s !! p = Some q → proc_ok p q' s →
  (∀ id, is_Some (writes_of q' !! id) → ∀ p2 q2, procs s !! p2 = Some q2 → is_Some (writes_of q2 !! id) → p2 = p) → inv (set_proc p q' s).
Proof.
  intros Hi Hp Hok Hl. rewrite <-(effect_nil p s). eapply inv_next; [done|exact Hp|apply Hi|done|by right|done|by rewrite effect_nil].
Qed.
Lemma inv_end p q q2 a s : inv s → procs s !! p = Some q → (∀ j, a ≠ Ok j) → inv (set_proc p (Returned q2 a) s).
Proof.
  intros Hi Hp Ha. eapply inv_stay; [done|exact Hp| |by intros id; cbn; rewrite lookup_empty; intros []].
  cbn. unfold answered. destruct q2, a as [[j|]|]; try done; by edestruct Ha.
Qed.
Lemma wrap_never p q q2 op e s : inv s → procs s !! p = Some q → inv (set_proc p (Returned q2 (Err (wrapBackend op e))) s).
Proof. intros Hi Hp. by eapply inv_end. Qed.

Lemma jobs_inv_spawn q s : inv s → (∀ p, proc_ok p q s) → writes_of q = ∅ → inv (s <| procs := procs s ++ [q] |>).
Proof.
  intros [V1 V2 V3 V4] Hq Hw. split; cbn -[LeaseQueue.run]; [done|done|..].
  - intros p q' [H|[_ [_ <-]%list_lookup_singleton_Some]]%lookup_app_Some; [|by apply (Hq p)]. by apply (V3 p q').
  - intros p p' q1 q2 id H1 H2 W1 W2. apply lookup_app_Some in H1, H2.
    destruct H1 as [H1|[_ [_ <-]%list_lookup_singleton_Some]]; [|rewrite Hw, lookup_empty in W1; by destruct W1].
    destruct H2 as [H2|[_ [_ <-]%list_lookup_singleton_Some]]; [|rewrite Hw, lookup_empty in W2; by destruct W2]. by eapply V4.
Qed.

(** A call of one statement. *)
Lemma inv_statement p q o s :
  inv s → procs s !! p = Some (Calling q) → valid_request q = Ok () → (∀ w d max now, q ≠ Claim w d max now) → blocked p s (needs q) = false →
  let '(t, evs, a) := statement q (rows s) in
  let a := match o, a with Lost e, _ => Err (wrapBackend (op_name q) e) | _, Ok _ => Ok None | _, Err e => Err e end in
  inv (set_proc p (Returned q a) (effect p t evs s)).
Proof.
  intros Hi Hp Hv Hq Hb. assert (∀ id r r' evs a, rows s !! id = Some r → needs q r = true → row_ok id r' →
    LeaseQueue.run evs (abs_row <$> rows s) = Some (abs_row <$> <[id := r']> (rows s)) → answered p (log s ++ (pair p <$> evs)) q a →
    inv (set_proc p (Returned q a) (effect p (<[id := r']> (rows s)) evs s))) as Hput.
  { intros id r r' evs a Hr Hn Hok Hrun Ha. eapply inv_next; [done|exact Hp| |exact Hrun| |by intros k; cbn; rewrite lookup_empty; intros []|exact Ha].
    - intros k y [[<- <-]|[_ Hy]]%lookup_insert_Some; [done|by eapply v_rows].
    - intros k y Hy. destruct (decide (k = id)) as [->|Hne]; [left|right; by rewrite lookup_insert_ne].
      intros p2 q2. eapply locked_false, blocked_false; [exact Hb|exact Hr|exact Hn]. }
  assert (∀ a, (∀ j, a ≠ Ok j) → inv (set_proc p (Returned q a) (effect p (rows s) [] s))) as Hno.
  { intros a Ha. rewrite effect_nil. by eapply inv_end. }
  destruct q as [j|w d max now|id w k now|id w k code max now]; [|by edestruct Hq|..]; cbn [statement].
  - destruct (rows s !! Workers.j_ID j) as [r|] eqn:Hr.
    { rewrite effect_nil. assert (LeaseQueue.Enqueued (Workers.j_ID j) ∈ (log s).*2) as Hin.
      { eapply LeaseQueue.run_enqueued; [apply (v_log _ Hi)|]. rewrite lookup_fmap, Hr. by eexists. }
      destruct o; (eapply inv_stay; [done|exact Hp|done|by intros k; cbn; rewrite lookup_empty; intros []]). }
    assert (∀ a, inv (set_proc p (Returned (Enqueue j) a) (effect p (<[Workers.j_ID j := enqueue_row j]> (rows s)) [LeaseQueue.Enqueued (Workers.j_ID j)] s))) as Hnew.
    { intros a. eapply inv_next; [done|exact Hp| | | |by intros k; cbn; rewrite lookup_empty; intros []|].
      4: { cbn. destruct a; [|done]. rewrite fmap_app. apply elem_of_app. right. by left. }
      - intros k y [[<- <-]|[_ Hy]]%lookup_insert_Some; [by apply enqueue_ok|by eapply v_rows].
      - apply run_one; [done|]. by rewrite Hr.
      - intros k y Hy. right. rewrite lookup_insert_ne; [done|]. congruence. }
    destruct o; apply Hnew.
  - destruct (rows s !! id) as [r|] eqn:Hr; [|destruct o; by apply Hno]. case_decide as Hh; [|destruct o; by apply Hno].
    assert (∀ a, answered p (log s ++ [(p, LeaseQueue.Completed id k w (timestamptz now))]) (Complete id w k now) a →
      inv (set_proc p (Returned (Complete id w k now) a) (effect p (<[id := complete_row now r]> (rows s)) [LeaseQueue.Completed id k w (timestamptz now)] s))) as Hdone.
    { intros a Ha. apply (Hput id r); [done|by apply bool_decide_eq_true|by eapply complete_ok, v_rows| |exact Ha]. apply run_one; [done|]. rewrite Hr. by apply change_completed. }
    destruct o; apply Hdone; cbn; [apply elem_of_app; right; by left|apply elem_of_app; right; by left|done].
  - destruct (rows s !! id) as [r|] eqn:Hr; [|destruct o; by apply Hno]. case_decide as Hh; [|destruct o; by apply Hno].
    assert (∀ a, answered p (log s ++ [(p, LeaseQueue.GivenUp id k w (timestamptz now) max)]) (Fail_ id w k code max now) a →
      inv (set_proc p (Returned (Fail_ id w k code max now) a) (effect p (<[id := fail_row code max now r]> (rows s)) [LeaseQueue.GivenUp id k w (timestamptz now) max] s))) as Hdone.
    { intros a Ha. apply (Hput id r); [done|by apply bool_decide_eq_true| | |exact Ha]; [eapply fail_ok; [by eapply v_rows|apply Hh]|].
      apply run_one; [done|]. rewrite Hr. by apply change_given_up. }
    destruct o; apply Hdone; cbn; [apply elem_of_app; right; by left|apply elem_of_app; right; by left|done].
Qed.

(** The statements of a claim. *)
Lemma inv_begun p o w d max now s s' :
  inv s → procs s !! p = Some (Begun w d max now) → step (LStep p o) s = Some s' → inv s'.
Proof.
  intros Hi Hp. cbn [step]. rewrite Hp. destruct o as [|e|e]; [|intros [= <-]; by eapply wrap_never..].
  destruct (blocked _ _ _) eqn:Hb; [done|]. intros [= <-].
  assert (∀ id r', sweep max now (rows s) !! id = Some r' → ∃ r, rows s !! id = Some r ∧ exhausted max now r ∧ r' = exhaust_row now r) as Hsw.
  { intros id r' (r & <- & [Hr He]%map_lookup_filter_Some)%lookup_fmap_Some. by exists r. }
  eapply inv_stay; [done|exact Hp| |].
  - cbn. split; [by apply (v_procs _ Hi _ _ Hp)|]. intros id r' (r & Hr & He & ->)%Hsw. exists r. split; [done|by left].
  - intros id [r' Hr']. cbn in Hr'. destruct (Hsw id r' Hr') as (r & Hr & He & _). intros p2 q2. eapply locked_false, blocked_false; [exact Hb|exact Hr|].
    by apply bool_decide_eq_true.
Qed.

Lemma inv_swept p o w d max now ws s s' :
  inv s → procs s !! p = Some (Swept w d max now ws) → step (LStep p o) s = Some s' → inv s'.
Proof.
  intros Hi Hp. cbn [step]. rewrite Hp. destruct o as [|e|e]; [|intros [= <-]; by eapply wrap_never..].
  destruct (v_procs _ Hi _ _ Hp) as [Hv Hw]. destruct (oldest _) as [r|] eqn:Ho; intros [= <-].
  - apply oldest_in in Ho. unfold candidates in Ho. apply list_elem_of_fmap in Ho as ([id r0] & -> & Hin%elem_of_map_to_list).
    apply map_lookup_filter_Some in Hin as [Hin [Hc Hlock]]. cbn [fst snd] in *.
    assert (ws !! id = None ∧ rows s !! id = Some r0) as [Hnone Hr].
    { apply lookup_union_Some_raw in Hin as [Hin|[? ?]]; [|done]. exfalso. destruct (Hw id r0 Hin) as (r & _ & [[_ ->]|[? _]]); [|done].
      destruct Hc as [_ [?|[? _]]]; done. }
    pose proof (k_id _ _ (v_rows _ Hi _ _ Hr)) as Hid. rewrite Hid.
    eapply inv_stay; [done|exact Hp| |].
    + cbn -[claim_row]. split_and!; [done| |by intros r' [= <-]; cbn; rewrite Hid, lookup_insert_eq].
      intros id' r' [[<- <-]|[Hne Hr']]%lookup_insert_Some; [exists r0; split; [done|by right]|].
      destruct (Hw id' r' Hr') as (r & Hr2 & [He|[? _]]); [|done]. exists r. by split; [|left].
    + intros id' Hs p2 q2 Hp2 Hw2. cbn in Hs. destruct (decide (id' = id)) as [->|Hne]; [by eapply locked_false|].
      rewrite lookup_insert_ne in Hs by done. eapply (v_locks _ Hi); [exact Hp2|exact Hp|exact Hw2|exact Hs].
  - eapply inv_stay; [done|exact Hp| |].
    + cbn. split_and!; [done|exact Hw|done].
    + intros id Hs p2 q2 Hp2 Hw2. eapply (v_locks _ Hi); [exact Hp2|exact Hp|exact Hw2|exact Hs].
Qed.

Lemma inv_taken p o w d max now ws job s s' :
  inv s → procs s !! p = Some (Taken w d max now ws job) → step (LStep p o) s = Some s' → inv s'.
Proof.
  intros Hi Hp. cbn [step]. rewrite Hp. destruct (v_procs _ Hi _ _ Hp) as (Hv & Hw & Hj).
  assert (∀ a, answered p (log (commit_claim p w d max now ws job s)) (Claim w d max now) a →
    inv (set_proc p (Returned (Claim w d max now) a) (commit_claim p w d max now ws job s))) as Hcommit.
  { intros a Ha. unfold commit_claim. eapply inv_next; [done|exact Hp| | | |by intros k; cbn; rewrite lookup_empty; intros []|exact Ha].
    - eapply commit_ok; [apply Hi|exact Hw].
    - by apply commit_run; [apply Hi|exact Hw|exact Hj].
    - intros id r Hr. rewrite lookup_union. destruct (ws !! id) as [r'|] eqn:E; [left|right; by rewrite Hr].
      intros p2 q2 Hp2 Hw2. eapply (v_locks _ Hi); [exact Hp2|exact Hp|exact Hw2|]. cbn. rewrite E. by eexists. }
  destruct o as [|e|e]; intros [= <-]; [|by eapply wrap_never|by apply Hcommit]. apply Hcommit. destruct job as [r'|]; [|done].
  destruct (Hj r' eq_refl) as [H1 H2]. destruct (written_leased _ _ _ _ _ _ _ _ _ Hw H1 H2) as (r & Hr & Hc & -> & _).
  cbn [answered]. split_and!; [|done|].
  - unfold commit_claim. cbn. rewrite fmap_app. apply elem_of_app. right. apply elem_of_app. right. by left.
  - exists r. split_and!; [by eapply v_rows|done|done].
Qed.

Lemma jobs_inv_steps l s s' : inv s → step l s = Some s' → inv s'.
Proof.
  intros Hi. destruct l as [[e|] q|p o].
  - intros [= <-]. apply jobs_inv_spawn; [done| |done]. intros p. cbn. by destruct q.
  - intros [= <-]. by apply jobs_inv_spawn.
  - intros Hs. destruct (procs s !! p) as [[q|w d max now|w d max now ws|w d max now ws job|q a]|] eqn:Hp;
      [|by eapply inv_begun|by eapply inv_swept|by eapply inv_taken|cbn in Hs; by rewrite Hp in Hs..].
    cbn [step] in Hs. rewrite Hp in Hs. destruct (valid_request q) as [[]|e] eqn:Hv.
    2: { injection Hs as <-. by eapply inv_end. }
    assert ((∀ w d max now, q ≠ Claim w d max now) → ∀ o, (if blocked p s (needs q) then None
      else let '(t, evs, a) := statement q (rows s) in
           let a := match o, a with Lost e, _ => Err (wrapBackend (op_name q) e) | _, Ok _ => Ok None | _, Err e => Err e end in
           Some (set_proc p (Returned q a) (effect p t evs s))) = Some s' → inv s') as Hst.
    { intros Hq o'. destruct (blocked _ _ _) eqn:Hb; [done|]. pose proof (inv_statement p q o' s Hi Hp Hv Hq Hb) as H.
      destruct (statement q (rows s)) as [[t evs] a]. by intros [= <-]. }
    destruct o as [|e|e]; [|injection Hs as <-; by eapply wrap_never|].
    + destruct q as [j|w d max now|id w k now|id w k code max now]; [by apply (Hst ltac:(done) Fine)| |by apply (Hst ltac:(done) Fine)..].
      injection Hs as <-. eapply inv_stay; [done|exact Hp|done|by intros k; cbn; rewrite lookup_empty; intros []].
    + destruct q as [j|w d max now|id w k now|id w k code max now]; [by apply (Hst ltac:(done) (Lost e))| |by apply (Hst ltac:(done) (Lost e))..].
      injection Hs as <-. by eapply wrap_never.
Qed.

Lemma jobs_inv s : rtc steps started s → inv s.
Proof. intros H. apply (rtc_ind_r inv started) in H; [done|apply jobs_inv_started|]. intros s1 s2 _ [l Hl] Hi. by eapply jobs_inv_steps. Qed.

(** A job that the table handed out, as the worker checks it. *)
Lemma claimed_accepted id w d max now r :
  valid_request (Claim w d max now) = Ok () → row_ok id r → claimable max now r →
  let j := scanExtractionJob (claim_row w (TimeAdd now d) now r) in
  0 < Workers.j_CreatedAt j ≤ Workers.j_UpdatedAt j → Workers.validateClaimedExtractionJob uuid_Parse j w max now limits = Ok ().
Proof.
  intros Hv [K1 K2 K3 K4 K5] [Hm Hs] j Ht. destruct K4 as [O1 O2 O3 [O4 O5] O6 [O7 O8]]; [naive_solver|].
  unfold Workers.validateClaimedExtractionJob. cbn in Ht |- *. rewrite O1, O2. cbn [res_bind]. rewrite O3. cbn [res_bind].
  apply identity_metadata in O7 as (O71 & O72 & O73), O8 as (_ & _ & O83).
  assert (r_agent r = TrimSpace (r_agent r) ∧ validMetadata (r_agent r) limits = true) as [A1 A2].
  { unfold validOptionalExtractionIdentity in O6. apply orb_true_iff in O6 as [->%bool_decide_eq_true|O6]; [|by apply identity_metadata in O6 as (_ & ? & ?)].
    split; [done|]. unfold validMetadata in *. apply Z.leb_le in O73. apply Z.leb_le. change (RuneCountInString "") with 0. unfold RuneCountInString in O73. lia. }
  rewrite A2, O73, O83, !andb_true_r. cbn in Hv. unfold check in Hv. destruct (_ && _) eqn:Hv1 in Hv; [|done]. cbn in Hv.
  apply andb_true_iff in Hv1 as [Hv1 _]. apply andb_true_iff in Hv1 as [Hv1 _]. apply andb_true_iff in Hv1 as [_ Hd%Z.leb_le].
  assert (now < timestamptz (TimeAdd now d)) as Hu.
  { unfold timestamptz, Postgres.timestamptz, TimeAdd, Workers.microsecond in *. pose proof (Z.div_mod (now + d) 1000 ltac:(lia)).
    pose proof (Z.mod_pos_bound (now + d) 1000 ltac:(lia)). lia. }
  assert (timestamptz now ≤ now) as Hn.
  { unfold timestamptz, Postgres.timestamptz. pose proof (Z.div_mod now 1000 ltac:(lia)). pose proof (Z.mod_pos_bound now 1000 ltac:(lia)). lia. }
  unfold check. rewrite bool_decide_true by done. rewrite (proj2 (Z.ltb_lt _ _)) by lia. rewrite (proj2 (Z.leb_le _ _)) by lia. cbn [andb].
  rewrite bool_decide_true; [done|]. unfold After, IsZero. split_and!; try done; lia.
Qed.

(** A claim takes the oldest job that may be claimed and that no other call has locked. *)
Theorem claim_takes_oldest p w d max now ws s s' r :
  procs s !! p = Some (Swept w d max now ws) → step (LStep p Fine) s = Some s' →
  r ∈ candidates p max now ws s →
  ∃ r0, procs s' !! p = Some (Taken w d max now (<[r_id r0 := claim_row w (TimeAdd now d) now r0]> ws) (Some (claim_row w (TimeAdd now d) now r0))) ∧
    r0 ∈ candidates p max now ws s ∧ ¬ time_id_lt (r_created r, r_id r) (r_created r0, r_id r0).
Proof.
  intros Hp. cbn [step]. rewrite Hp. pose proof (lookup_lt_Some _ _ _ Hp) as Hlt. destruct (oldest _) as [r0|] eqn:Ho; intros [= <-] Hr.
  - exists r0. cbn. rewrite list_lookup_insert_eq by done. split_and!; [done|by apply oldest_in|by eapply oldest_first].
  - unfold oldest in Ho. apply head_None in Ho. apply (elem_of_sort_slice (key_less time_id_lt (λ r, (r_created r, r_id r)))) in Hr.
    rewrite Ho in Hr. by apply elem_of_nil in Hr.
Qed.

(** C37: With any number of workers on the table, at any interleaving of their statements, with failing statements and commits of which the client
does not learn, the extraction jobs are a queue of leases: what happened to them, in the order of the commits, is a history of
[LeaseQueue] that ends in what the table holds. A job is claimed again only under a higher attempt, after its owner gave the attempt
before up or its lease had ended; once completed, nothing happens to it; and once it is over, the table no longer names its source. A call
that succeeds did what its answer says, and a job that is handed out passes the worker's own check when it was enqueued
before the claim. *)
Theorem job_leases s :
  rtc steps started s →
  LeaseQueue.run (log s).*2 ∅ = Some (abs_row <$> rows s) ∧
  (∀ id before k w u t m between k' w' u' t' m' after,
    (log s).*2 = before ++ LeaseQueue.Claimed id k w u t m :: between ++ LeaseQueue.Claimed id k' w' u' t' m' :: after →
    k < k' ∧ LeaseQueue.released id k u (between ++ [LeaseQueue.Claimed id k' w' u' t' m'])) ∧
  (∀ id before k w t after, (log s).*2 = before ++ LeaseQueue.Completed id k w t :: after → Forall (λ ev, LeaseQueue.job_of ev ≠ id) after) ∧
  (∀ id r, rows s !! id = Some r → lease_of r = LeaseQueue.Finished → r_source r = mkSource "" "" "" ∧ r_agent r = "") ∧
  ∀ p q a, procs s !! p = Some (Returned q (Ok a)) →
    match q with
    | Enqueue j => LeaseQueue.Enqueued (Workers.j_ID j) ∈ (log s).*2
    | Claim w d max now => ∃ j, a = Some j ∧
        (p, LeaseQueue.Claimed (Workers.j_ID j) (Workers.j_Attempts j) w (timestamptz (TimeAdd now d)) (timestamptz now) max) ∈ log s ∧
        (0 < Workers.j_CreatedAt j ≤ Workers.j_UpdatedAt j → Workers.validateClaimedExtractionJob uuid_Parse j w max now limits = Ok ())
    | Complete id w k now => (p, LeaseQueue.Completed id k w (timestamptz now)) ∈ log s
    | Fail_ id w k code max now => (p, LeaseQueue.GivenUp id k w (timestamptz now) max) ∈ log s
    end.
Proof.
  intros Hi%jobs_inv. split_and!; [apply Hi|..].
  - intros * E. pose proof (v_log _ Hi) as Hl. rewrite E in Hl. by eapply LeaseQueue.claims_exclusive.
  - intros * E. pose proof (v_log _ Hi) as Hl. rewrite E in Hl. by eapply LeaseQueue.completed_final.
  - intros id r Hr Hf. apply (k_over _ _ (v_rows _ Hi _ _ Hr)). unfold lease_of in Hf. repeat case_decide; done.
  - intros p q a Hp. pose proof (v_procs _ Hi _ _ Hp) as Ha. cbn in Ha. destruct q as [j|w d max now| |]; try done. destruct a as [j|]; [|done].
    destruct Ha as (H1 & H2 & r & H3 & H4 & ->). eexists. split_and!; [done|done|]. by eapply claimed_accepted.
Qed.

Fixpoint exec (ls : list label) (s : state) : option state :=
  match ls with
  | [] => Some s
  | l :: ls => match step l s with Some s => exec ls s | None => None end
  end.
Lemma exec_rtc ls s s' : exec ls s = Some s' → rtc steps s s'.
Proof.
  revert s. induction ls as [|l ls IH]; intros s; cbn [exec]; [by intros [= ->]|]. destruct (step l s) as [s1|] eqn:E; [|done].
  intros H. eapply rtc_l; [by exists l|by apply IH].
Qed.

End calls.

(** Two workers: the second finds the only job locked, claims it when the lease has ended, and completes it; then the first one cannot. *)
Definition sample_limits : Limits := mkLimits "v1" 100 100 100 10 10.
Definition sample_job : ExtractionJob :=
  Workers.mkJob "j1" (mkScope "t1" SubjectProject "p1") (mkSource "doc" "d1" "") "" "ex" "pending" 0 "" 0 1000000 1000000.
Definition sample_labels : list label :=
  [LCall None (Enqueue sample_job); LStep 0 Fine;
   LCall None (Claim "w1" 5000000 3 2000000); LStep 1 Fine; LStep 1 Fine; LStep 1 Fine;
   LCall None (Claim "w2" 5000000 3 2000000); LStep 2 Fine; LStep 2 Fine; LStep 2 Fine; LStep 2 Fine; LStep 1 Fine;
   LCall None (Claim "w2" 5000000 3 9000000); LStep 3 Fine; LStep 3 Fine; LStep 3 Fine; LStep 3 Fine;
   LCall None (Complete "j1" "w2" 2 9500000); LStep 4 Fine; LCall None (Complete "j1" "w1" 1 9500000); LStep 5 Fine].

Lemma job_leases_witness :
  ∃ s, exec Some sample_limits sample_labels started = Some s ∧ LeaseQueue.run (log s).*2 ∅ = Some (abs_row <$> rows s) ∧
    (log s).*2 = [LeaseQueue.Enqueued "j1"; LeaseQueue.Claimed "j1" 1 "w1" 7000000 2000000 3;
                  LeaseQueue.Claimed "j1" 2 "w2" 14000000 9000000 3; LeaseQueue.Completed "j1" 2 "w2" 9500000].
Proof.
  destruct (exec Some sample_limits sample_labels started) as [s|] eqn:Hs; [|by vm_compute in Hs]. exists s.
  split; [done|]. split; [apply (job_leases Some sample_limits s (exec_rtc _ _ _ _ _ Hs))|]. vm_compute in Hs. injection Hs as <-. vm_compute. reflexivity.
Defined.

End Jobs.
