(* ===== verification/MemoryPostgres.v ===== *)
(** memorykit over PostgreSQL: memories ([src/memorykit/pgstore/lifecycle.go], [embedding.go], [scan.go], the tables of [migrate.go]).

A method that writes is a program of SQL statements in one transaction, and any number of them run at once, a statement at a time. [exec] runs a
statement: it sees what is committed and what its own transaction has written, waits for rows and keys that other transactions hold, and fails on
the unique indexes. A [SELECT ... FOR UPDATE] is two steps, since it takes its rows as they are when it starts, may have to wait for their locks, and
then checks the rows again and leaves out those that no longer match. A row comes with what hangs on it (sources, revisions, embeddings): these tables
are written under its lock only. Any statement or commit may fail (a check constraint, a serialization failure, a lost connection), and a commit may
take effect although the client gets an error. [Activate] is serializable: where its reads are older than what is committed the database fails it. *)


From Stdlib Require Import QArith.
From stdpp Require Import functions.
From S2P Require Import Prelude GoUtf8 MemorySearch MemoryTypes MemoryStore RunPostgres MemoryJobs.
Import Memories.
#[local] Open Scope Z_scope.

Module PgMemory.

Abbreviation DriverError := Jobs.DriverError.
Abbreviation wrapBackend := Jobs.wrapBackend.
Abbreviation timestamptz := Postgres.timestamptz.

(** * Tables *)

(** A row of [memories]; its times are cut to microseconds. *)
Record row := mkRow { r_memory : Memory; content_hash : string; search_grams : list string }.
(** A row of [memory_revisions]; the snapshot is the memory with a private fingerprint, in JSON. *)
Record revisionSnapshot := mkSnapshot { sn_memory : Memory; CreateFingerprint : string }.
Record revision := mkRev { rv_action : RevisionAction; rv_actor : string; rv_reason : string; rv_snapshot : revisionSnapshot; rv_erased : bool; rv_created : Time }.
Record embedding := mkEmbedding { em_hash : string; em_dimension : Z; em_vector : list number; em_at : Time }.
Record entry := mkEntry { e_row : row; e_sources : list Source; e_revisions : gmap Z revision; e_embeddings : gmap string embedding }.
#[global] Instance eta_row : Eta row := λ r, mkRow (r_memory r) (content_hash r) (search_grams r).
#[global] Instance eta_snapshot : Eta revisionSnapshot := λ s, mkSnapshot (sn_memory s) (CreateFingerprint s).
#[global] Instance eta_revision : Eta revision := λ r, mkRev (rv_action r) (rv_actor r) (rv_reason r) (rv_snapshot r) (rv_erased r) (rv_created r).
#[global] Instance eta_entry : Eta entry := λ e, mkEntry (e_row e) (e_sources e) (e_revisions e) (e_embeddings e).
Abbreviation table := (gmap string entry).

Definition scanMemory (e : entry) : Memory := r_memory (e_row e).
Definition e_id (e : entry) : string := m_ID (scanMemory e).
Definition scanRevision (id : string) (v : Z) (r : revision) : Revision :=
  mkRevision id v (rv_action r) (rv_actor r) (rv_reason r) (sn_memory (rv_snapshot r)) (rv_erased r) (rv_created r).

(** The columns of a memory. *)
Definition cut (m : Memory) : Memory :=
  m <| m_ValidFrom := timestamptz (m_ValidFrom m) |> <| m_ValidUntil := timestamptz (m_ValidUntil m) |>
    <| m_CreatedAt := timestamptz (m_CreatedAt m) |> <| m_UpdatedAt := timestamptz (m_UpdatedAt m) |>.

(** The unique indexes [uq_memories_active_key] and [uq_memories_idempotency]. *)
Definition same_key (a b : Memory) : bool :=
  bool_decide (m_Scope a = m_Scope b ∧ m_Kind a = m_Kind b ∧ m_Key a = m_Key b ∧ m_Status a = StatusActive ∧ m_Status b = StatusActive).
Definition same_identity (a b : Memory) : bool :=
  bool_decide (m_Scope a = m_Scope b ∧ m_IdempotencyKey a = m_IdempotencyKey b ∧ m_IdempotencyKey a ≠ "").
Definition clash (a b : entry) : bool :=
  bool_decide (e_id a ≠ e_id b) && (same_key (scanMemory a) (scanMemory b) || same_identity (scanMemory a) (scanMemory b)).

(** * Statements and programs *)

Inductive stmt :=
| SAdvisory (key : Scope * string)                                (** [pg_advisory_xact_lock] of an identity *)
| SRead (P : entry → bool)                                        (** [SELECT] of one row *)
| SLock (id : string) (P : entry → bool)                            (** the lock of [FOR UPDATE] on a row that was read, and its second check *)
| SUpdate (id : string) (P : entry → bool) (f : entry → entry)    (** a write on one memory and what hangs on it *)
| SInsert (e : entry).

(** A program ends in a commit or in a rollback; [err] is the error for one of the driver. *)
Inductive prog :=
| Commit (err : DriverError → Error) (r : option Memory)
| Rollback (e : Error)
| Step (s : stmt) (err : DriverError → Error) (k : option entry → prog).

(** What a statement finds: it has to wait, violates a unique index, or answers with what the transaction holds after it. *)
Inductive found := Waits | Violates | Answers (w : table) (keys : list (Scope * string)) (r : option entry).

(** [t]: what is committed; [w]: what this transaction holds and has written; [os]: what others hold. *)
Definition held_by_others (os : list table) (id : string) : bool := existsb (λ o, bool_decide (is_Some (o !! id))) os.
Definition first_match (P : entry → bool) (t : table) : option entry := head (filter (λ e, P e = true) (map_to_list t).*2).
(** The writing of a row: the unique indexes compare it with the rows others have written, and with the ones that are visible. *)
Definition put (t w : table) (os : list table) (keys : list (Scope * string)) (e : entry) : found :=
  if existsb (λ o, existsb (λ x, clash e x.2) (map_to_list o)) os ||
     existsb (λ x, clash e x.2 && held_by_others os x.1) (map_to_list (w ∪ t)) then Waits
  else if existsb (λ x, clash e x.2) (map_to_list (w ∪ t)) then Violates
  else Answers (<[e_id e := e]> w) keys (Some e).
Definition exec (s : stmt) (t w : table) (os : list table) (keys : list (Scope * string)) (others : list (Scope * string)) : found :=
  match s with
  | SAdvisory key => if bool_decide (key ∈ others) then Waits else Answers w (key :: keys) None
  | SRead P => Answers w keys (first_match P (w ∪ t))
  | SLock id P =>
      if held_by_others os id then Waits
      else match (w ∪ t) !! id with
           | Some e => if P e then Answers (<[id := e]> w) keys (Some e) else Answers w keys None
           | None => Answers w keys None
           end
  | SUpdate id P f =>
      match (w ∪ t) !! id with
      | None => Answers w keys None
      | Some e => if negb (P e) then Answers w keys None
                  else if held_by_others os id then Waits else put t w os keys (f e)
      end
  | SInsert e =>
      if held_by_others os (e_id e) then Waits
      else match (w ∪ t) !! e_id e with Some _ => Violates | None => put t w os keys e end
  end.

(** * Methods *)

Section methods.
Context `{Search.UnicodeTables} (uuid_Parse : string → option string) (Marshal : CreateRequest → option string) (Sum256 : string → MemStore.Digest).
Context (limits : Limits) (profile : string) (dimensions : Z).

Definition lifecycleWriteError (op : string) (e : DriverError) : Error :=
  match Jobs.context_error e with
  | Some c => ErrCtx c
  | None => if decide (Jobs.sql_state e = Some "23505" ∨ Jobs.sql_state e = Some "40001") then ErrConflict else wrapBackend op e
  end.

Definition hashContent (content : string) : string := MemStore.hashMemoryContent Sum256 content.
Definition searchGrams (key content : string) : list string := Search.IndexGrams (key +:+ " " +:+ content).
Definition createFingerprint (r : CreateRequest) : res Error string :=
  let? digest := MemStore.createFingerprint Marshal Sum256 r in Ok (MemStore.hex digest).

Definition at_scope (scope : Scope) (id : string) (e : entry) : bool := bool_decide (m_Scope (scanMemory e) = scope ∧ e_id e = id).
Definition at_version (c : VersionedCommand) (e : entry) : bool :=
  at_scope (cm_Scope c) (cm_ID c) e && bool_decide (m_Version (scanMemory e) = ExpectedVersion c).

(** [SELECT ... FOR UPDATE]: [k] gets the row as it was read and as it was locked. *)
Definition for_update (P : entry → bool) (err : DriverError → Error) (k : option (entry * entry) → prog) : prog :=
  Step (SRead P) err (λ r, match r with
    | None => k None
    | Some e => Step (SLock (e_id e) P) err (λ r, k (pair e <$> r))
    end).

Definition with_memory (m : Memory) (e : entry) : entry := e <| e_row := (e_row e) <| r_memory := m |> |>.

Definition insertMemory (m : Memory) (k : prog) : prog :=
  Step (SInsert (mkEntry (mkRow (cut m) (hashContent (m_Content m)) (searchGrams (m_Key m) (m_Content m))) [] ∅ ∅))
    (lifecycleWriteError "create memory") (λ _, k).
Fixpoint insert_sources (op id : string) (sources : list Source) (k : prog) : prog :=
  match sources with
  | [] => k
  | s :: sources =>
      Step (SUpdate id (λ _, true) (λ e, e <| e_sources := e_sources e ++ [s] |>)) (lifecycleWriteError op) (λ _, insert_sources op id sources k)
  end.
Definition replaceSources (op id : string) (sources : list Source) (k : prog) : prog :=
  Step (SUpdate id (λ _, true) (λ e, e <| e_sources := [] |>)) (lifecycleWriteError op) (λ _, insert_sources op id sources k).
Definition snapshotFromMemory (m : Memory) (createFingerprint : string) : revisionSnapshot := mkSnapshot m createFingerprint.
(** [json.Marshal] of a time fails outside the years 0 to 9999. *)
Definition day : Z := 86400000000000.
Definition json_time (t : Time) : bool := (-366 * day <=? t) && (t <? 3652059 * day).
Definition encodeRevisionSnapshot (m : Memory) (createFingerprint : string) : res Error revisionSnapshot :=
  if forallb json_time [m_ValidFrom m; m_ValidUntil m; m_CreatedAt m; m_UpdatedAt m] then Ok (snapshotFromMemory m createFingerprint) else Err ErrInvalidMemory.
(** The insert violates the primary key when the revision exists. *)
Definition appendRevision (m : Memory) (action : RevisionAction) (actor reason : string) (createdAt : Time) (contentErased : bool) (createFingerprint : string)
    (k : prog) : prog :=
  match encodeRevisionSnapshot m createFingerprint with
  | Err e => Rollback e
  | Ok snapshot =>
      Step (SUpdate (m_ID m) (λ e, bool_decide (e_revisions e !! m_Version m = None))
              (λ e, e <| e_revisions := <[m_Version m := mkRev action actor reason snapshot contentErased (timestamptz createdAt)]> (e_revisions e) |>))
        (lifecycleWriteError "append revision") (λ r, match r with Some _ => k | None => Rollback ErrConflict end)
  end.

Definition versionUpdateFailure (scope : Scope) (id : string) : prog :=
  Step (SRead (at_scope scope id)) (wrapBackend "classify version update") (λ r, match r with Some _ => Rollback ErrConflict | None => Rollback ErrNotFound end).
Definition bump (now : Time) (m : Memory) : Memory := m <| m_Version := m_Version m + 1 |> <| m_UpdatedAt := timestamptz now |>.
Definition updateStatus (c : VersionedCommand) (status : Status) (k : Memory → prog) : prog :=
  Step (SUpdate (cm_ID c) (at_version c) (λ e, with_memory ((bump (cm_Now c) (scanMemory e)) <| m_Status := status |>) e))
    (lifecycleWriteError "update memory status")
    (λ r, match r with Some e => k (scanMemory e) | None => versionUpdateFailure (cm_Scope c) (cm_ID c) end).
Definition lockCommandTarget (c : VersionedCommand) (k : Memory → prog) : prog :=
  for_update (at_scope (cm_Scope c) (cm_ID c)) (lifecycleWriteError "lock memory")
    (λ r, match r with
          | None => Rollback ErrNotFound
          | Some (_, e) => if decide (m_Version (scanMemory e) ≠ ExpectedVersion c) then Rollback ErrConflict else k (scanMemory e)
          end).
Definition supersedeCurrentActive (target : Memory) (excludeID actor reason : string) (now : Time) (k : prog) : prog :=
  for_update (λ e, let m := scanMemory e in
      bool_decide (m_Scope m = m_Scope target ∧ m_Kind m = m_Kind target ∧ m_Key m = m_Key target ∧ m_Status m = StatusActive ∧ m_ID m ≠ excludeID))
    (lifecycleWriteError "lock active memory")
    (λ r, match r with
          | None => k
          | Some (_, e) =>
              let active := scanMemory e in
              updateStatus (mkCommand (m_Scope active) (m_ID active) (m_Version active) actor reason now) StatusInactive
                (λ inactive, appendRevision inactive RevisionSupersede actor reason now false "" k)
          end).

Definition stored_fingerprint (e : entry) : string :=
  match e_revisions e !! 1 with
  | Some r => if decide (rv_action r = RevisionCreate) then CreateFingerprint (rv_snapshot r) else ""
  | None => ""
  end.
(** [found] and [k] are the two ways on. Only the row of [memories] is locked, so the fingerprint that is joined to it is the one of the first read. *)
Definition idempotentReplay (r : CreateRequest) (fingerprint : string) (found : Memory → prog) (k : prog) : prog :=
  for_update (λ e, bool_decide (m_Scope (scanMemory e) = cr_Scope r ∧ m_IdempotencyKey (scanMemory e) = cr_IdempotencyKey r))
    (wrapBackend "idempotency lookup")
    (λ a, match a with
          | None => k
          | Some (e0, e) =>
              if decide (e_id e ≠ cr_ID r ∨ stored_fingerprint e0 = "" ∨ stored_fingerprint e0 ≠ fingerprint) then Rollback ErrConflict
              else Step (SRead (at_scope (cr_Scope r) (e_id e))) (wrapBackend "idempotency current memory")
                     (λ a, match a with Some e => found (scanMemory e) | None => Rollback ErrConflict end)
          end).

Definition lockIdempotencyIdentity (scope : Scope) (key : string) (k : prog) : prog :=
  Step (SAdvisory (scope, key)) (wrapBackend "lock idempotency identity") (λ _, k).

Definition create_new (r : CreateRequest) (fingerprint : string) : prog :=
  let m := MemStore.created r in
  let rest := insertMemory m (replaceSources "create sources" (m_ID m) (cr_Sources r)
    (appendRevision m RevisionCreate (cr_Actor r) (cr_Reason r) (cr_Now r) false fingerprint
      (Commit (lifecycleWriteError "create commit") (Some m)))) in
  if decide (m_Status m = StatusActive) then supersedeCurrentActive m (m_ID m) (cr_Actor r) (cr_Reason r) (cr_Now r) rest else rest.
Definition Create (r : CreateRequest) : res Error prog :=
  let? _ := ValidateCreateRequest uuid_Parse r limits in
  if decide (cr_IdempotencyKey r = "") then Ok (create_new r "")
  else
    let? fingerprint := createFingerprint r in
    Ok (lockIdempotencyIdentity (cr_Scope r) (cr_IdempotencyKey r)
          (idempotentReplay r fingerprint (λ m, Commit (lifecycleWriteError "create commit") (Some m)) (create_new r fingerprint))).

Definition Activate (c : VersionedCommand) : res Error prog :=
  let? _ := ValidateCommand uuid_Parse c limits in
  Ok (lockCommandTarget c (λ target,
    if decide (m_Status target ≠ StatusCandidate) then Rollback ErrConflict
    else supersedeCurrentActive target (m_ID target) (cm_Actor c) (cm_Reason c) (cm_Now c)
      (updateStatus c StatusActive (λ activated,
         appendRevision activated RevisionActivate (cm_Actor c) (cm_Reason c) (cm_Now c) false ""
           (Commit (lifecycleWriteError "activate commit") (Some activated)))))).

Definition corrected_row (r : CorrectRequest) (key : string) (e : entry) : entry :=
  e <| e_row := mkRow
         ((bump (cm_Now (Command r)) (scanMemory e)) <| m_Content := co_Content r |> <| m_ValidFrom := timestamptz (co_ValidFrom r) |>
            <| m_ValidUntil := timestamptz (co_ValidUntil r) |> <| m_Importance := co_Importance r |> <| m_Confidence := co_Confidence r |>)
         (hashContent (co_Content r)) (searchGrams key (co_Content r)) |>.
Definition Correct (r : CorrectRequest) : res Error prog :=
  let c := Command r in
  let? _ := ValidateCorrectRequest uuid_Parse r limits in
  Ok (lockCommandTarget c (λ target,
    Step (SUpdate (cm_ID c) (at_version c) (corrected_row r (m_Key target))) (lifecycleWriteError "correct memory")
      (λ a, match a with
            | None => versionUpdateFailure (cm_Scope c) (cm_ID c)
            | Some e =>
                let corrected := scanMemory e in
                replaceSources "correct sources" (m_ID corrected) (co_Sources r)
                  (appendRevision corrected RevisionCorrect (cm_Actor c) (cm_Reason c) (cm_Now c) false ""
                    (Commit (lifecycleWriteError "correct commit") (Some corrected)))
            end))).

Definition transitionInactive (c : VersionedCommand) (requiredStatus : Status) (action : RevisionAction) : res Error prog :=
  let? _ := ValidateCommand uuid_Parse c limits in
  Ok (lockCommandTarget c (λ target,
    if decide (m_Status target ≠ requiredStatus) then Rollback ErrConflict
    else updateStatus c StatusInactive (λ updated,
      appendRevision updated action (cm_Actor c) (cm_Reason c) (cm_Now c) false "" (Commit (lifecycleWriteError "transition commit") (Some updated))))).
Definition Dismiss (c : VersionedCommand) : res Error prog := transitionInactive c StatusCandidate RevisionDismiss.
Definition Forget (c : VersionedCommand) : res Error prog := transitionInactive c StatusActive RevisionForget.

Definition scrub_revision (r : revision) : revision :=
  r <| rv_snapshot := mkSnapshot ((sn_memory (rv_snapshot r)) <| m_Content := "" |>) "" |> <| rv_erased := true |>.
Definition erased_row (c : VersionedCommand) (key : string) (e : entry) : entry :=
  e <| e_row := mkRow ((bump (cm_Now c) (scanMemory e)) <| m_Content := "" |> <| m_Status := StatusInactive |>) "" (searchGrams key "") |>.
Definition Erase (c : VersionedCommand) : res Error prog :=
  let? _ := ValidateCommand uuid_Parse c limits in
  Ok (lockCommandTarget c (λ target,
    Step (SUpdate (cm_ID c) (λ _, true) (λ e, e <| e_embeddings := ∅ |>)) (lifecycleWriteError "erase embeddings") (λ _,
    Step (SUpdate (cm_ID c) (λ _, true) (λ e, e <| e_sources := [] |>)) (lifecycleWriteError "erase sources") (λ _,
    Step (SUpdate (cm_ID c) (λ _, true) (λ e, e <| e_revisions := scrub_revision <$> e_revisions e |>)) (lifecycleWriteError "erase revisions") (λ _,
    Step (SUpdate (cm_ID c) (at_version c) (erased_row c (m_Key target))) (lifecycleWriteError "erase memory")
      (λ a, match a with
            | None => versionUpdateFailure (cm_Scope c) (cm_ID c)
            | Some e => appendRevision (scanMemory e) RevisionErase (cm_Actor c) (cm_Reason c) (cm_Now c) true ""
                          (Commit (lifecycleWriteError "erase commit") None)
            end)))))).

(** One statement, committed with it; [profile] and [dimensions] are the configuration of the store. *)
Definition PutEmbedding (r : PutEmbeddingRequest) : res Error prog :=
  let? _ := ValidatePutEmbeddingRequest uuid_Parse r limits in
  let? _ := check (bool_decide (pu_ProfileID r = profile ∧ pu_Dimensions r = dimensions)) ErrInvalidMemory in
  Ok (for_update (λ e, at_scope (pu_Scope r) (pu_MemoryID r) e && bool_decide (m_Status (scanMemory e) = StatusActive ∧ content_hash (e_row e) = pu_ContentHash r))
        (wrapBackend "put embedding")
        (λ a, match a with
              | None => Rollback ErrConflict
              | Some _ =>
                  Step (SUpdate (pu_MemoryID r) (λ _, true)
                          (λ e, e <| e_embeddings := <[pu_ProfileID r := mkEmbedding (pu_ContentHash r) (pu_Dimensions r) (pu_Vector r) (timestamptz (pu_EmbeddedAt r))]> (e_embeddings e) |>))
                    (wrapBackend "put embedding") (λ _, Commit (wrapBackend "put embedding") None)
              end)).

(** * The machine *)

Inductive request := RCreate (r : CreateRequest) | RActivate (c : VersionedCommand) | RCorrect (r : CorrectRequest)
  | RDismiss (c : VersionedCommand) | RForget (c : VersionedCommand) | RErase (c : VersionedCommand)
  | RPutEmbedding (r : PutEmbeddingRequest).
Definition program (q : request) : res Error prog :=
  match q with
  | RCreate r => Create r | RActivate c => Activate c | RCorrect r => Correct r
  | RDismiss c => Dismiss c | RForget c => Forget c | RErase c => Erase c
  | RPutEmbedding r => PutEmbedding r
  end.
Definition begin_name (q : request) : string :=
  match q with
  | RCreate _ => "create transaction" | RActivate _ => "activate transaction" | RCorrect _ => "correct transaction"
  | RDismiss _ | RForget _ => "transition transaction" | RErase _ => "erase transaction" | RPutEmbedding _ => "put embedding"
  end.

Inductive proc :=
| Calling (q : request)
| Running (q : request) (k : prog) (w : table) (keys : list (Scope * string))
| Returned (q : request) (a : res Error (option Memory)).
(** [log] has, for every change of a memory that took effect, who made it and the version it replaced, 0 for none. *)
Record state := mkState { rows : table; procs : list proc; log : list (nat * string * Z) }.
#[global] Instance eta_state : Eta state := λ s, mkState (rows s) (procs s) (log s).
Definition started : state := mkState ∅ [] [].

Inductive outcome := Fine | Broken (e : DriverError) | Lost (e : DriverError).
Inductive label := LCall (ctx : Ctx) (q : request) | LStep (p : nat) (o : outcome).

Definition writes_of (q : proc) : table := match q with Running _ _ w _ => w | _ => ∅ end.
Definition keys_of (q : proc) : list (Scope * string) := match q with Running _ _ _ keys => keys | _ => [] end.
Definition others (p : nat) (s : state) : list proc := take p (procs s) ++ drop (S p) (procs s).
Definition set_proc (p : nat) (q : proc) (s : state) : state := s <| procs := <[p := q]> (procs s) |>.

Definition version_in (t : table) (id : string) : Z := match t !! id with Some e => m_Version (scanMemory e) | None => 0 end.
Definition changes (p : nat) (w t : table) : list (nat * string * Z) :=
  (λ x, (p, x.1, version_in t x.1)) <$> filter (λ x, m_Version (scanMemory x.2) ≠ version_in t x.1) (map_to_list w).
Definition commit (p : nat) (w : table) (s : state) : state := s <| rows := w ∪ rows s |> <| log := log s ++ changes p w (rows s) |>.

Definition step (l : label) (s : state) : option state :=
  match l with
  | LCall (Some e) q => Some (s <| procs := procs s ++ [Returned q (Err (ErrCtx e))] |>)
  | LCall None q => Some (s <| procs := procs s ++ [Calling q] |>)
  | LStep p o =>
      match procs s !! p with
      | Some (Calling q) =>
          match program q, o with
          | Err e, _ => Some (set_proc p (Returned q (Err e)) s)
          | Ok k, Fine => Some (set_proc p (Running q k ∅ []) s)
          | Ok k, (Broken e | Lost e) => Some (set_proc p (Returned q (Err (wrapBackend (begin_name q) e))) s)
          end
      | Some (Running q (Rollback e) w keys) => Some (set_proc p (Returned q (Err e)) s)
      | Some (Running q (Commit err r) w keys) =>
          match o with
          | Fine => Some (set_proc p (Returned q (Ok r)) (commit p w s))
          | Lost e => Some (set_proc p (Returned q (Err (err e))) (commit p w s))
          | Broken e => Some (set_proc p (Returned q (Err (err e))) s)
          end
      | Some (Running q (Step st err k) w keys) =>
          match o with
          | Broken e | Lost e => Some (set_proc p (Returned q (Err (err e))) s)
          | Fine =>
              match exec st (rows s) w (writes_of <$> others p s) keys (others p s ≫= keys_of) with
              | Waits => None
              | Violates => Some (set_proc p (Returned q (Err ErrConflict)) s)
              | Answers w keys r => Some (set_proc p (Running q (k r) w keys) s)
              end
          end
      | _ => None
      end
  end.
Definition steps (s s' : state) : Prop := ∃ l, step l s = Some s'.

(** * Memories *)

(** The lifecycle. *)
Definition transition (action : RevisionAction) (s s' : Status) : Prop :=
  (action = RevisionActivate ∧ s = StatusCandidate ∧ s' = StatusActive) ∨
  (action = RevisionCorrect ∧ s' = s) ∨
  (action = RevisionSupersede ∧ s = StatusActive ∧ s' = StatusInactive) ∨
  (action = RevisionDismiss ∧ s = StatusCandidate ∧ s' = StatusInactive) ∨
  (action = RevisionForget ∧ s = StatusActive ∧ s' = StatusInactive) ∨
  (action = RevisionErase ∧ s' = StatusInactive).
Definition rv_status (r : revision) : Status := m_Status (sn_memory (rv_snapshot r)).
Definition blank (r : revision) : Prop := m_Content (sn_memory (rv_snapshot r)) = "" ∧ CreateFingerprint (rv_snapshot r) = "" ∧ rv_erased r = true.

(** A memory in order: its revisions are numbered without a gap up to its version, follow the lifecycle from a creation on and end in what the memory is;
the columns derived from the content fit it; and where the content is erased nothing else is left of it. *)
Record good (e : entry) : Prop := {
  g_version : 1 ≤ m_Version (scanMemory e);
  g_revisions : ∀ v, is_Some (e_revisions e !! v) ↔ 1 ≤ v ≤ m_Version (scanMemory e);
  g_first : ∀ r, e_revisions e !! 1 = Some r → rv_action r = RevisionCreate;
  g_history : ∀ v r r', e_revisions e !! v = Some r → e_revisions e !! (v + 1) = Some r' → transition (rv_action r') (rv_status r) (rv_status r');
  g_latest : ∀ r, e_revisions e !! m_Version (scanMemory e) = Some r → cut (sn_memory (rv_snapshot r)) = scanMemory e;
  g_cut : cut (scanMemory e) = scanMemory e;
  g_hash : m_Content (scanMemory e) ≠ "" → content_hash (e_row e) = hashContent (m_Content (scanMemory e));
  g_grams : search_grams (e_row e) = searchGrams (m_Key (scanMemory e)) (m_Content (scanMemory e));
  g_erased : m_Content (scanMemory e) = "" →
    m_Status (scanMemory e) = StatusInactive ∧ e_sources e = [] ∧ e_embeddings e = ∅ ∧ map_Forall (λ _, blank) (e_revisions e)
}.
(** What no change touches. *)
Definition identity (m : Memory) : string * Scope * Kind * string * string * string * string * Time :=
  (m_ID m, m_Scope m, m_Kind m, m_Key m, m_IdempotencyKey m, m_SourceAgentID m, m_CreatedBy m, m_CreatedAt m).
(** Revisions are kept, or scrubbed by an erasure. *)
Definition keeps (h h' : gmap Z revision) : Prop := ∀ v r, h !! v = Some r → h' !! v = Some r ∨ h' !! v = Some (scrub_revision r).
(** What a transaction may make of a memory: the next version of it, or an embedding. *)
Definition follows (e0 e : entry) : Prop :=
  identity (scanMemory e) = identity (scanMemory e0) ∧ keeps (e_revisions e0) (e_revisions e) ∧
  (m_Version (scanMemory e) = m_Version (scanMemory e0) + 1 ∨ scanMemory e = scanMemory e0).
Definition change_ok (before : option entry) (e : entry) : Prop :=
  good e ∧ match before with
           | None => m_Version (scanMemory e) = 1
           | Some e0 => follows e0 e
           end.
Definition legal (b w : table) : Prop := ∀ id e, w !! id = Some e → change_ok (b !! id) e.

(** The revision [v] of a memory records a change that left it as [m]. *)
Definition recorded (v : Z) (action : RevisionAction) (actor reason : string) (m : Memory) (e : entry) : Prop :=
  m_Version m = v ∧ ∃ r, e_revisions e !! v = Some r ∧ rv_action r = action ∧ rv_actor r = actor ∧ rv_reason r = reason ∧
    (sn_memory (rv_snapshot r) = m ∨ sn_memory (rv_snapshot r) = m <| m_Content := "" |>).

(** What a call that commits with an answer has done. *)
Definition commanded (c : VersionedCommand) (action : RevisionAction) (b w : table) (m : option Memory) : Prop :=
  ∃ e0 e m', b !! cm_ID c = Some e0 ∧ w !! cm_ID c = Some e ∧ m_Scope (scanMemory e0) = cm_Scope c ∧ m_Version (scanMemory e0) = ExpectedVersion c ∧
    m_Version (scanMemory e) = ExpectedVersion c + 1 ∧
    recorded (ExpectedVersion c + 1) action (cm_Actor c) (cm_Reason c) m' e ∧
    if decide (action = RevisionErase) then m = None ∧ m_Content (scanMemory e) = "" else m = Some m'.
Definition post (q : request) (b w : table) (m : option Memory) : Prop :=
  legal b w ∧
  match q with
  | RCreate r => ∃ e m', w !! cr_ID r = Some e ∧ m = Some m' ∧ m_Scope (scanMemory e) = cr_Scope r ∧ m_IdempotencyKey (scanMemory e) = cr_IdempotencyKey r ∧
      (b !! cr_ID r = None ∧ m' = MemStore.created r ∧ recorded 1 RevisionCreate (cr_Actor r) (cr_Reason r) m' e ∨
       cr_IdempotencyKey r ≠ "" ∧ b !! cr_ID r = Some e ∧ m' = scanMemory e)
  | RActivate c => commanded c RevisionActivate b w m
  | RCorrect r => commanded (Command r) RevisionCorrect b w m
  | RDismiss c => commanded c RevisionDismiss b w m
  | RForget c => commanded c RevisionForget b w m
  | RErase c => commanded c RevisionErase b w m
  | RPutEmbedding r => ∃ e0 e, b !! pu_MemoryID r = Some e0 ∧ w !! pu_MemoryID r = Some e ∧ m_Scope (scanMemory e0) = pu_Scope r ∧
      m_Status (scanMemory e0) = StatusActive ∧ hashContent (m_Content (scanMemory e0)) = pu_ContentHash r ∧
      scanMemory e = scanMemory e0 ∧ is_Some (e_embeddings e !! pu_ProfileID r)
  end.

(** ** Programs *)

(** What holds at the commit of a program, if it gets there. [b] has the rows as they were when the transaction took them. *)
Fixpoint wp (k : prog) (Q : table → table → option Memory → Prop) (b w : table) : Prop :=
  match k with
  | Commit _ r => Q b w r
  | Rollback _ => True
  | Step s _ k =>
      match s with
      | SAdvisory _ => wp (k None) Q b w
      | SRead P => ∀ r, (∀ e, r = Some e → P e = true ∧ (∀ e', w !! e_id e = Some e' → e = e')) → wp (k r) Q b w
      | SLock id P => wp (k None) Q b w ∧
          ∀ e, P e = true → e_id e = id → (w !! id = Some e → wp (k (Some e)) Q b w) ∧
            (w !! id = None → good e → wp (k (Some e)) Q (<[id := e]> b) (<[id := e]> w))
      | SUpdate id P f => (∀ e, e_id (f e) = e_id e) ∧ ((∀ e, w !! id = Some e → P e = false) → wp (k None) Q b w) ∧
          ∀ e, P e = true → e_id e = id → (w !! id = Some e → wp (k (Some (f e))) Q b (<[id := f e]> w)) ∧
            (w !! id = None → good e → wp (k (Some (f e))) Q (<[id := e]> b) (<[id := f e]> w))
      | SInsert e => w !! e_id e = None → b !! e_id e = None → wp (k (Some e)) Q b (<[e_id e := e]> w)
      end
  end.

(** ** The combinators *)

Lemma timestamptz_idem t : timestamptz (timestamptz t) = timestamptz t.
Proof. unfold timestamptz, Postgres.timestamptz. by rewrite Z.div_mul. Qed.
Lemma cut_idem m : cut (cut m) = cut m.
Proof. unfold cut. simpl. by rewrite !timestamptz_idem. Qed.

Lemma wp_rollback k Q b w : (∃ e, k = Rollback e) → wp k Q b w.
Proof. by intros [? ->]. Qed.
Lemma wp_failure scope id Q b w : wp (versionUpdateFailure scope id) Q b w.
Proof. simpl. by intros [?|] _. Qed.

(** A write on a row the transaction holds. *)
Lemma wp_held id P f err k Q b w e :
  w !! id = Some e → e_id e = id → (∀ e, e_id (f e) = e_id e) →
  (P e = true → wp (k (Some (f e))) Q b (<[id := f e]> w)) → (P e = false → wp (k None) Q b w) →
  wp (Step (SUpdate id P f) err k) Q b w.
Proof.
  intros Hw Hid Hf Hyes Hno. simpl. split; [done|]. split.
  - intros Hp. apply Hno. by apply Hp.
  - intros e' Hp He. split; intros He'; simplify_eq; by auto.
Qed.

Lemma wp_insert_sources op id sources k Q b w e :
  w !! id = Some e → e_id e = id → wp k Q b (<[id := e <| e_sources := e_sources e ++ sources |>]> w) → wp (insert_sources op id sources k) Q b w.
Proof.
  revert w e. induction sources as [|s sources IH]; intros w e Hw Hid Hk; cbn [insert_sources].
  - rewrite app_nil_r in Hk. rewrite insert_id in Hk; [done|]. by destruct e.
  - apply (wp_held _ _ _ _ _ _ _ _ e); [done..| |done]. intros _.
    eapply IH; [apply lookup_insert_eq|done|]. rewrite insert_insert_eq. simpl. by rewrite <- app_assoc.
Qed.
Lemma wp_replaceSources op id sources k Q b w e :
  w !! id = Some e → e_id e = id → wp k Q b (<[id := e <| e_sources := sources |>]> w) → wp (replaceSources op id sources k) Q b w.
Proof.
  intros Hw Hid Hk. apply (wp_held _ _ _ _ _ _ _ _ e); [done..| |done]. intros _.
  eapply wp_insert_sources; [apply lookup_insert_eq|done|]. by rewrite insert_insert_eq.
Qed.
Lemma wp_appendRevision m action actor reason at_ erased fp k Q b w e :
  w !! m_ID m = Some e → e_id e = m_ID m →
  wp k Q b (<[m_ID m := e <| e_revisions := <[m_Version m := mkRev action actor reason (mkSnapshot m fp) erased (timestamptz at_)]> (e_revisions e) |>]> w) →
  wp (appendRevision m action actor reason at_ erased fp k) Q b w.
Proof.
  intros Hw Hid Hk. unfold appendRevision, encodeRevisionSnapshot. case_match; [|done].
  match goal with H : (if ?c then _ else _) = _ |- _ => destruct c; simplify_eq end.
  by apply (wp_held _ _ _ _ _ _ _ _ e).
Qed.
Lemma wp_updateStatus c status k Q b w e :
  w !! cm_ID c = Some e → e_id e = cm_ID c →
  (let m := (bump (cm_Now c) (scanMemory e)) <| m_Status := status |> in wp (k m) Q b (<[cm_ID c := with_memory m e]> w)) →
  wp (updateStatus c status k) Q b w.
Proof. intros Hw Hid Hk. apply (wp_held _ _ _ _ _ _ _ _ e); [done..| |]; intros; [done|apply wp_failure]. Qed.

(** A row read and locked. *)
Lemma wp_for_update P err k Q b w :
  (∀ e, P e = true → w !! e_id e ≠ Some e) → wp (k None) Q b w →
  (∀ e0 e, P e0 = true → P e = true → e_id e0 = e_id e → good e → w !! e_id e = None → wp (k (Some (e0, e))) Q (<[e_id e := e]> b) (<[e_id e := e]> w)) →
  wp (for_update P err k) Q b w.
Proof.
  intros Hout Hnone Hsome. simpl. intros [e0|] H0; [|done]. destruct (H0 e0 eq_refl) as [HP0 _]. simpl. split; [done|].
  intros e HP He. split; [intros Hw; destruct (Hout _ HP); by rewrite He|].
  intros Hw Hg. rewrite <- He in *. by apply Hsome.
Qed.
Lemma wp_lockCommandTarget c k Q :
  (∀ e, at_version c e = true → good e → wp (k (scanMemory e)) Q (<[cm_ID c := e]> ∅) (<[cm_ID c := e]> ∅)) → wp (lockCommandTarget c k) Q ∅ ∅.
Proof.
  intros Hk. apply wp_for_update; [done|done|]. intros e0 e _ HP _ Hg _. case_decide as Hv; [done|].
  apply bool_decide_eq_true in HP as HP'. destruct HP' as [_ ->]. apply Hk; [|done].
  unfold at_version. rewrite HP. simpl. apply bool_decide_eq_true_2. lia.
Qed.
Lemma at_version_spec c e : at_version c e = true ↔ m_Scope (scanMemory e) = cm_Scope c ∧ e_id e = cm_ID c ∧ m_Version (scanMemory e) = ExpectedVersion c.
Proof. unfold at_version, at_scope. rewrite andb_true_iff, !bool_decide_eq_true. tauto. Qed.

(** ** One change of a memory *)

Lemma scrub_status r : rv_status (scrub_revision r) = rv_status r.
Proof. done. Qed.
Lemma scrub_blank r : blank (scrub_revision r).
Proof. done. Qed.
Lemma keeps_refl h : keeps h h.
Proof. intros v r ?. by left. Qed.
Lemma keeps_trans h h' h'' : keeps h h' → keeps h' h'' → keeps h h''.
Proof. intros H1 H2 v r Hr. destruct (H1 _ _ Hr) as [Hr'|Hr']; destruct (H2 _ _ Hr') as [Hr''|Hr'']; auto. Qed.
Lemma follows_refl e : follows e e.
Proof. split; [done|]. split; [apply keeps_refl|by right]. Qed.

Lemma revision_none e v : good e → m_Version (scanMemory e) < v → e_revisions e !! v = None.
Proof. intros Hg Hv. apply eq_None_not_Some. intros Hs%(g_revisions _ Hg). lia. Qed.

(** The revisions before the change, which may have been scrubbed, are those of [e0]. *)
Definition history_of (e0 : entry) (h : gmap Z revision) : Prop := h = e_revisions e0 ∨ h = scrub_revision <$> e_revisions e0.
Lemma history_lookup e0 h v r : history_of e0 h → h !! v = Some r →
  ∃ r0, e_revisions e0 !! v = Some r0 ∧ (r = r0 ∨ r = scrub_revision r0).
Proof. intros [-> | ->] Hr; [by eauto|]. rewrite lookup_fmap in Hr. destruct (e_revisions e0 !! v) as [r0|]; simplify_eq/=. eauto. Qed.
Lemma history_keeps e0 h : history_of e0 h → keeps (e_revisions e0) h.
Proof. intros [-> | ->]; [apply keeps_refl|]. intros v r Hr. right. by rewrite lookup_fmap, Hr. Qed.
Lemma history_dom e0 h v : history_of e0 h → is_Some (h !! v) ↔ is_Some (e_revisions e0 !! v).
Proof. intros [-> | ->]; [done|]. by rewrite lookup_fmap, fmap_is_Some. Qed.

Lemma change_next e0 e h action actor reason at_ erased fp :
  good e0 → history_of e0 h →
  e_revisions e = <[m_Version (scanMemory e) := mkRev action actor reason (mkSnapshot (scanMemory e) fp) erased at_]> h →
  identity (scanMemory e) = identity (scanMemory e0) → m_Version (scanMemory e) = m_Version (scanMemory e0) + 1 → cut (scanMemory e) = scanMemory e →
  transition action (m_Status (scanMemory e0)) (m_Status (scanMemory e)) →
  (m_Content (scanMemory e) ≠ "" → content_hash (e_row e) = hashContent (m_Content (scanMemory e))) →
  search_grams (e_row e) = searchGrams (m_Key (scanMemory e)) (m_Content (scanMemory e)) →
  (m_Content (scanMemory e) = "" → m_Status (scanMemory e) = StatusInactive ∧ e_sources e = [] ∧ e_embeddings e = ∅ ∧ map_Forall (λ _, blank) (e_revisions e)) →
  change_ok (Some e0) e.
Proof.
  intros Hg Hh Hrevs Hident Hversion Hcut Htrans Hhash Hgrams Herased. pose proof (g_version _ Hg).
  assert (∀ v r, e_revisions e !! v = Some r → v = m_Version (scanMemory e) ∧ r = mkRev action actor reason (mkSnapshot (scanMemory e) fp) erased at_ ∨
    v < m_Version (scanMemory e) ∧ ∃ r0, e_revisions e0 !! v = Some r0 ∧ (r = r0 ∨ r = scrub_revision r0)) as Hlook.
  { intros v r Hr. rewrite Hrevs in Hr. apply lookup_insert_Some in Hr as [[<- <-]|[_ Hr]]; [by left|right].
    pose proof (proj1 (history_dom _ _ v Hh) (mk_is_Some _ _ Hr)) as Hd%(g_revisions _ Hg). split; [lia|by eapply history_lookup]. }
  split; [split|]; try done.
  - lia.
  - intros v. rewrite Hrevs, lookup_insert_is_Some', (history_dom _ _ _ Hh), (g_revisions _ Hg). lia.
  - intros r Hr. destruct (Hlook _ _ Hr) as [[? _]|(_ & r0 & Hr0 & [-> | ->])]; [lia|..]; exact (g_first _ Hg _ Hr0).
  - intros v r r' Hr Hr'. destruct (Hlook _ _ Hr) as [[? _]|(Hlt & r0 & Hr0 & Hs)].
    { assert (v + 1 ≤ m_Version (scanMemory e)) by (destruct (Hlook _ _ Hr'); lia). lia. }
    assert (rv_status r = rv_status r0) as -> by (destruct Hs as [-> | ->]; done).
    destruct (Hlook _ _ Hr') as [[Hv ->]|(_ & r0' & Hr0' & Hs')].
    + assert (v = m_Version (scanMemory e0)) as -> by lia. cbn. change (m_Status (scanMemory e)) with (rv_status (mkRev action actor reason (mkSnapshot (scanMemory e) fp) erased at_)).
      pose proof (g_latest _ Hg _ Hr0) as Hl. unfold rv_status at 1. by replace (m_Status (sn_memory (rv_snapshot r0))) with (m_Status (scanMemory e0)) by (by rewrite <- Hl).
    + pose proof (g_history _ Hg _ _ _ Hr0 Hr0'). by destruct Hs' as [-> | ->].
  - intros r Hr. destruct (Hlook _ _ Hr) as [[_ ->]|[? _]]; [done|lia].
  - split; [done|]. split; [|by left]. intros v r Hr. rewrite Hrevs. rewrite lookup_insert_ne; [exact (history_keeps _ _ Hh _ _ Hr)|].
    pose proof (proj1 (g_revisions _ Hg v) (mk_is_Some _ _ Hr)). lia.
Qed.

(** A memory with another status, and the revision for it. *)
Definition moved (status : Status) (action : RevisionAction) (actor reason : string) (now : Time) (e : entry) : entry :=
  let m := (bump now (scanMemory e)) <| m_Status := status |> in
  with_memory m e <| e_revisions := <[m_Version m := mkRev action actor reason (mkSnapshot m "") false (timestamptz now)]> (e_revisions e) |>.

Lemma cut_bump now m : cut m = m → cut (bump now m) = bump now m.
Proof. intros Hc. rewrite <- Hc. unfold cut, bump. simpl. by rewrite !timestamptz_idem. Qed.
Lemma cut_status status m : cut m = m → cut (m <| m_Status := status |>) = m <| m_Status := status |>.
Proof. intros Hc. rewrite <- Hc. unfold cut. simpl. by rewrite !timestamptz_idem. Qed.

Lemma change_moved status action actor reason now e0 :
  good e0 → m_Status (scanMemory e0) ≠ StatusInactive → transition action (m_Status (scanMemory e0)) status →
  change_ok (Some e0) (moved status action actor reason now e0).
Proof.
  intros Hg Hs Ht. eapply change_next; [done|by left|done|done|done|..].
  - apply cut_status, cut_bump, (g_cut _ Hg).
  - done.
  - apply (g_hash _ Hg).
  - apply (g_grams _ Hg).
  - intros He. by destruct (g_erased _ Hg He).
Qed.

Lemma legal_insert id b w before e :
  b !! id = before → legal b w → change_ok before e → legal b (<[id := e]> w).
Proof. intros <- Hl He id' e' [[<- <-]|[_ ?]]%lookup_insert_Some; [done|by apply Hl]. Qed.
Lemma legal_taken id b w e0 e :
  w !! id = None → legal b w → change_ok (Some e0) e → legal (<[id := e0]> b) (<[id := e]> w).
Proof.
  intros Hw Hl He id' e' [[<- <-]|[? ?]]%lookup_insert_Some; [by rewrite lookup_insert_eq|].
  rewrite lookup_insert_ne by done. by apply Hl.
Qed.
Lemma legal_empty b : legal b ∅.
Proof. by intros ?? ?. Qed.
Lemma change_same e : good e → change_ok (Some e) e.
Proof. intros Hg. split; [done|apply follows_refl]. Qed.

Lemma wp_move c status action k Q b w e :
  w !! cm_ID c = Some e → e_id e = cm_ID c →
  (let m := (bump (cm_Now c) (scanMemory e)) <| m_Status := status |> in
   wp (k m) Q b (<[cm_ID c := moved status action (cm_Actor c) (cm_Reason c) (cm_Now c) e]> w)) →
  wp (updateStatus c status (λ m, appendRevision m action (cm_Actor c) (cm_Reason c) (cm_Now c) false "" (k m))) Q b w.
Proof.
  intros Hw Hid Hk. eapply wp_updateStatus; [done..|]. set (m := (bump (cm_Now c) (scanMemory e)) <| m_Status := status |>) in *.
  assert (m_ID m = cm_ID c) as Hm by exact Hid. eapply wp_appendRevision.
  - rewrite Hm. apply lookup_insert_eq.
  - done.
  - rewrite Hm, insert_insert_eq. exact Hk.
Qed.

Lemma wp_supersede target excludeID actor reason now k Q b w :
  (∀ e, w !! e_id e = Some e → e_id e = excludeID) → wp k Q b w →
  (∀ e e', e_id e ≠ excludeID → w !! e_id e = None → e_id e' = e_id e → change_ok (Some e) e' → wp k Q (<[e_id e := e]> b) (<[e_id e := e']> w)) →
  wp (supersedeCurrentActive target excludeID actor reason now k) Q b w.
Proof.
  intros Hout Hnone Hsome. apply wp_for_update; [|done|].
  { intros e HP%bool_decide_eq_true Hw. by apply HP, Hout. }
  intros e0 e _ HP%bool_decide_eq_true _ Hg Hw.
  apply (wp_move (mkCommand (m_Scope (scanMemory e)) (m_ID (scanMemory e)) (m_Version (scanMemory e)) actor reason now) StatusInactive RevisionSupersede (λ _, k) _ _ _ e);
    [apply lookup_insert_eq|done|]. simpl. change (m_ID (scanMemory e)) with (e_id e). rewrite insert_insert_eq.
  destruct HP as (_ & _ & _ & Hact & Hne). apply Hsome; [done..|]. apply change_moved; [done|by rewrite Hact|]. unfold transition. naive_solver.
Qed.

(** ** The methods *)

Lemma recorded_latest v m e action actor reason at_ erased fp h :
  m_Version m = v → e_revisions e = <[m_Version m := mkRev action actor reason (mkSnapshot m fp) erased at_]> h → recorded v action actor reason m e.
Proof. intros <- Hr. split; [done|]. eexists. rewrite Hr, lookup_insert_eq. split; [done|]. simpl. auto. Qed.

Lemma commanded_moved c status action e0 b w :
  at_version c e0 = true → action ≠ RevisionErase → b !! cm_ID c = Some e0 → w !! cm_ID c = Some (moved status action (cm_Actor c) (cm_Reason c) (cm_Now c) e0) →
  commanded c action b w (Some ((bump (cm_Now c) (scanMemory e0)) <| m_Status := status |>)).
Proof.
  intros (Hs & Hid & Hv)%at_version_spec Ha Hb Hw. do 3 eexists. split; [done|]. split; [done|]. split; [done|]. split; [done|].
  split; [by rewrite <- Hv|]. rewrite decide_False by done. split; [|done].
  rewrite <- Hv. by eapply recorded_latest.
Qed.

Lemma wp_transition c required action k Q :
  transitionInactive c required action = Ok k → required ≠ StatusInactive → action ≠ RevisionErase → transition action required StatusInactive →
  (∀ b w m, legal b w → commanded c action b w m → Q b w m) → wp k Q ∅ ∅.
Proof.
  unfold transitionInactive. intros Hk Hr Ha Ht HQ. destruct (ValidateCommand _ _ _); [|done]. injection Hk as <-.
  apply wp_lockCommandTarget. intros e He Hg. case_decide as Hs; [done|].
  pose proof (proj1 (at_version_spec _ _) He) as (_ & Hid & _).
  eapply (wp_move _ _ _ (λ m, Commit _ (Some m))); [apply lookup_insert_eq|done|]. simpl. rewrite insert_insert_eq.
  apply HQ; [|by apply commanded_moved; rewrite ?lookup_insert_eq].
  apply legal_taken; [done|apply legal_empty|]. apply change_moved; [done|by rewrite Hs|by rewrite Hs].
Qed.
Lemma wp_Dismiss c k : Dismiss c = Ok k → wp k (post (RDismiss c)) ∅ ∅.
Proof. intros Hk. eapply wp_transition; [exact Hk|done|done|unfold transition; naive_solver|]. by split. Qed.
Lemma wp_Forget c k : Forget c = Ok k → wp k (post (RForget c)) ∅ ∅.
Proof. intros Hk. eapply wp_transition; [exact Hk|done|done|unfold transition; naive_solver|]. by split. Qed.

Lemma wp_Activate c k : Activate c = Ok k → wp k (post (RActivate c)) ∅ ∅.
Proof.
  unfold Activate. intros Hk. destruct (ValidateCommand _ _ _); [|done]. injection Hk as <-.
  apply wp_lockCommandTarget. intros e He Hg. case_decide as Hs; [done|].
  pose proof (proj1 (at_version_spec _ _) He) as (_ & Hid & _).
  assert (change_ok (Some e) (moved StatusActive RevisionActivate (cm_Actor c) (cm_Reason c) (cm_Now c) e)) as Hm.
  { apply change_moved; [done|by rewrite Hs|]. rewrite Hs. unfold transition. naive_solver. }
  apply wp_supersede.
  - by intros e' [[? ->]|[_ ?]]%lookup_insert_Some.
  - eapply (wp_move _ _ _ (λ m, Commit _ (Some m))); [apply lookup_insert_eq|done|]. simpl. rewrite insert_insert_eq.
    split; [|by apply commanded_moved; rewrite ?lookup_insert_eq]. apply legal_taken; [done|apply legal_empty|done].
  - intros e1 e1' Hne Hout Hid' Hc. change (m_ID (scanMemory e)) with (e_id e) in Hne. rewrite Hid in Hne.
    eapply (wp_move _ _ _ (λ m, Commit _ (Some m))); [by rewrite lookup_insert_ne, lookup_insert_eq|done|]. simpl.
    split; [|apply commanded_moved; [done|done|by rewrite lookup_insert_ne, lookup_insert_eq|apply lookup_insert_eq]].
    apply (legal_insert _ _ _ (Some e)); [by rewrite lookup_insert_ne, lookup_insert_eq| |done]. apply legal_taken; [done| |done].
    apply legal_taken; [done|apply legal_empty|by apply change_same].
Qed.

Lemma cut_corrected r m : cut m = m →
  let m' := (bump (cm_Now (Command r)) m) <| m_Content := co_Content r |> <| m_ValidFrom := timestamptz (co_ValidFrom r) |>
    <| m_ValidUntil := timestamptz (co_ValidUntil r) |> <| m_Importance := co_Importance r |> <| m_Confidence := co_Confidence r |> in cut m' = m'.
Proof. intros Hc. simpl. rewrite <- Hc. unfold cut. simpl. by rewrite !timestamptz_idem. Qed.

Lemma ValidateCorrect_content r : ValidateCorrectRequest uuid_Parse r limits = Ok () → co_Content r ≠ "".
Proof.
  unfold ValidateCorrectRequest. destruct (ValidateCommand _ _ _) as [[]|]; [|done]. simpl.
  destruct (validContent (co_Content r) _) eqn:Hc; [|done]. intros _ Hn. by rewrite Hn in Hc.
Qed.
Lemma ValidateCreate_content r : ValidateCreateRequest uuid_Parse r limits = Ok () → cr_Content r ≠ "".
Proof.
  unfold ValidateCreateRequest. destruct (Limits_Validate _) as [[]|]; [|done]. simpl. destruct (Scope_Validate _) as [[]|]; [|done]. simpl.
  destruct (ValidateMemoryID _ _) as [[]|]; [|done]. simpl. intros Hv Hn. rewrite Hn in Hv.
  assert (validContent "" (MaxContentRunes limits) = false) as Hc by done. rewrite Hc in Hv. by rewrite !andb_false_r in Hv.
Qed.

Lemma wp_Correct r k : Correct r = Ok k → wp k (post (RCorrect r)) ∅ ∅.
Proof.
  unfold Correct. intros Hk. destruct (ValidateCorrectRequest _ _ _) as [[]|] eqn:Hv; [|done]. injection Hk as <-. apply ValidateCorrect_content in Hv.
  set (c := Command r) in *. apply wp_lockCommandTarget. intros e He Hg. pose proof (proj1 (at_version_spec _ _) He) as (Hs & Hid & Hver).
  apply (wp_held _ _ _ _ _ _ _ _ e); [apply lookup_insert_eq|done|done| |intros; apply wp_failure]. intros _. rewrite insert_insert_eq.
  set (e1 := corrected_row r (m_Key (scanMemory e)) e).
  assert (m_ID (scanMemory e1) = cm_ID c) as Hid1 by done.
  apply (wp_replaceSources _ _ _ _ _ _ _ e1); [rewrite Hid1; apply lookup_insert_eq|done|]. rewrite Hid1, insert_insert_eq.
  eapply wp_appendRevision; rewrite Hid1; [apply lookup_insert_eq|done|]. rewrite insert_insert_eq. cbn [wp]. split.
  - apply legal_taken; [done|apply legal_empty|]. eapply change_next; [done|by left|done|done|done|..].
    + apply (cut_corrected r), (g_cut _ Hg).
    + unfold transition. simpl. auto.
    + done.
    + done.
    + done.
  - subst c. do 3 eexists. rewrite !lookup_insert_eq. split; [done|]. split; [done|]. split; [done|]. split; [done|]. split; [by rewrite <- Hver|].
    rewrite decide_False by done. split; [|done]. rewrite <- Hver. by eapply recorded_latest.
Qed.

Lemma cut_erased now m : cut m = m → let m' := (bump now m) <| m_Content := "" |> <| m_Status := StatusInactive |> in cut m' = m'.
Proof. intros Hc. simpl. rewrite <- Hc. unfold cut. simpl. by rewrite !timestamptz_idem. Qed.

Lemma wp_Erase c k : Erase c = Ok k → wp k (post (RErase c)) ∅ ∅.
Proof.
  unfold Erase. intros Hk. destruct (ValidateCommand _ _ _); [|done]. injection Hk as <-.
  apply wp_lockCommandTarget. intros e He Hg. pose proof (proj1 (at_version_spec _ _) He) as (Hs & Hid & Hver).
  do 3 (eapply wp_held; [apply lookup_insert_eq|done|done|intros _; rewrite insert_insert_eq|done]).
  eapply wp_held; [apply lookup_insert_eq|done|done|intros _; rewrite insert_insert_eq|intros; apply wp_failure].
  match goal with |- wp (appendRevision (scanMemory ?x) _ _ _ _ _ _ _) _ _ _ => set (e1 := x) end.
  assert (m_ID (scanMemory e1) = cm_ID c) as Hid1 by done.
  eapply wp_appendRevision; rewrite Hid1; [apply lookup_insert_eq|done|]. rewrite insert_insert_eq. cbn [wp]. split.
  - apply legal_taken; [done|apply legal_empty|]. eapply change_next; [done|by right|done|done|done|..].
    + apply (cut_erased (cm_Now c)), (g_cut _ Hg).
    + unfold transition. simpl. naive_solver.
    + done.
    + done.
    + intros _. split_and!; [done..|]. simpl. apply map_Forall_insert_2; [done|].
      intros v r [r0 [<- _]]%lookup_fmap_Some. apply scrub_blank.
  - exists e. eexists. exists (scanMemory e1). rewrite !lookup_insert_eq. split; [done|]. split; [done|]. split; [done|]. split; [done|]. split; [by rewrite <- Hver|].
    rewrite decide_True by done. split; [|done]. rewrite <- Hver. by eapply recorded_latest.
Qed.

Lemma wp_PutEmbedding r k : PutEmbedding r = Ok k → wp k (post (RPutEmbedding r)) ∅ ∅.
Proof.
  unfold PutEmbedding. intros Hk. destruct (ValidatePutEmbeddingRequest _ _ _); [|done].
  destruct (check (bool_decide _) _) as [[]|]; [|done]. injection Hk as <-.
  apply wp_for_update; [done|done|]. intros e0 e _ HP _ Hg _.
  apply andb_true_iff in HP as [[Hs Hid]%bool_decide_eq_true [Ha Hh]%bool_decide_eq_true]. rewrite Hid.
  eapply wp_held; [apply lookup_insert_eq|done|done|intros _; rewrite insert_insert_eq|done]. cbn [wp].
  assert (m_Content (scanMemory e) ≠ "") as Hc by (intros He; destruct (g_erased _ Hg He) as [Hi _]; by rewrite Ha in Hi).
  split.
  - apply legal_taken; [done|apply legal_empty|]. split; [by destruct Hg|]. split; [done|]. split; [apply keeps_refl|by right].
  - do 2 eexists. rewrite !lookup_insert_eq. do 4 (split; [done|]). split; [by rewrite <- (g_hash _ Hg Hc)|]. split; [done|].
    simpl. rewrite lookup_insert_eq. done.
Qed.

(** The memory a [Create] stores. *)
Definition new_entry (r : CreateRequest) (fp : string) : entry :=
  let m := MemStore.created r in
  mkEntry (mkRow (cut m) (hashContent (cr_Content r)) (searchGrams (cr_Key r) (cr_Content r))) (cr_Sources r)
    {[1 := mkRev RevisionCreate (cr_Actor r) (cr_Reason r) (mkSnapshot m fp) false (timestamptz (cr_Now r))]} ∅.

Lemma change_new r fp : cr_Content r ≠ "" → change_ok None (new_entry r fp).
Proof.
  intros Hc. split; [|done]. split; simpl; try done.
  - intros v. rewrite lookup_singleton_is_Some. lia.
  - by intros r0 [_ <-]%lookup_singleton_Some.
  - intros v r0 r' [? _]%lookup_singleton_Some [? _]%lookup_singleton_Some. lia.
  - by intros r0 [_ <-]%lookup_singleton_Some.
  - apply cut_idem.
Qed.

Lemma wp_created r fp b w :
  cr_Content r ≠ "" → legal b w →
  wp (let m := MemStore.created r in insertMemory m (replaceSources "create sources" (m_ID m) (cr_Sources r)
    (appendRevision m RevisionCreate (cr_Actor r) (cr_Reason r) (cr_Now r) false fp (Commit (lifecycleWriteError "create commit") (Some m)))))
    (post (RCreate r)) b w.
Proof.
  intros Hc Hl. cbv zeta. unfold insertMemory. cbn [wp]. intros Hw Hb. change (e_id _) with (cr_ID r) in *.
  eapply wp_replaceSources; [apply lookup_insert_eq|done|]. simpl m_ID. rewrite insert_insert_eq.
  eapply wp_appendRevision; [apply lookup_insert_eq|done|]. simpl m_ID. rewrite insert_insert_eq. cbn [wp].
  change (<[cr_ID r := _]> w) with (<[cr_ID r := new_entry r fp]> w). split.
  - eapply legal_insert; [exact Hb|done|by apply change_new].
  - do 2 eexists. split; [apply lookup_insert_eq|]. split; [done|]. split; [done|]. split; [done|]. left. split; [done|]. split; [done|].
    by eapply recorded_latest.
Qed.
Lemma wp_create_new r fp : cr_Content r ≠ "" → wp (create_new r fp) (post (RCreate r)) ∅ ∅.
Proof.
  intros Hc. unfold create_new. cbv zeta. case_decide; [|apply wp_created; [done|apply legal_empty]].
  apply wp_supersede; [done|apply wp_created; [done|apply legal_empty]|].
  intros e e' _ Hw _ Hch. apply wp_created; [done|]. apply legal_taken; [done|apply legal_empty|done].
Qed.
Lemma wp_Create r k : Create r = Ok k → wp k (post (RCreate r)) ∅ ∅.
Proof.
  unfold Create. intros Hk. destruct (ValidateCreateRequest _ _ _) as [[]|] eqn:Hv; [|done]. apply ValidateCreate_content in Hv. cbn in Hk.
  case_decide; [simplify_eq; by apply wp_create_new|]. destruct (createFingerprint r) as [fp|]; [|done]. cbn in Hk. injection Hk as <-. cbn [wp].
  apply wp_for_update; [done|by apply wp_create_new|]. intros e0 e _ [Hs Hkey]%bool_decide_eq_true _ Hg _.
  case_decide as Hd; [done|]. cbn [wp]. intros [e'|] He'; [|done]. destruct (He' _ eq_refl) as [[_ Hid]%bool_decide_eq_true Hsame].
  assert (e' = e) as -> by (apply Hsame; rewrite Hid; apply lookup_insert_eq). cbn [wp].
  assert (e_id e = cr_ID r) as Hr by (destruct (decide (e_id e = cr_ID r)); [done|]; tauto).
  split; [apply legal_taken; [done|apply legal_empty|by apply change_same]|].
  exists e, (scanMemory e). rewrite <- Hr, !lookup_insert_eq. auto 11.
Qed.

Lemma wp_program q k : program q = Ok k → wp k (post q) ∅ ∅.
Proof.
  destruct q; simpl; [apply wp_Create|apply wp_Activate|apply wp_Correct|apply wp_Dismiss|apply wp_Forget|apply wp_Erase|apply wp_PutEmbedding].
Qed.

(** ** Rows and what transactions hold *)

Lemma clash_sym a b : clash a b = clash b a.
Proof.
  unfold clash, same_key, same_identity. apply (f_equal2 andb); [|apply (f_equal2 orb)]; apply bool_decide_ext; intuition congruence.
Qed.
Lemma clash_same a b : e_id a = e_id b → clash a b = false.
Proof. intros Hid. unfold clash. rewrite bool_decide_false; [done|]. auto. Qed.

(** [ov p] is what the transaction of [p] holds, with what it has written. *)
Record ok (t : table) (ov : nat → table) : Prop := {
  o_rows : ∀ id e, t !! id = Some e → e_id e = id ∧ good e;
  o_unique : ∀ id e id' e', t !! id = Some e → t !! id' = Some e' → clash e e' = false;
  o_keyed : ∀ p id e, ov p !! id = Some e → e_id e = id;
  o_apart : ∀ p p' id e e', p ≠ p' → ov p !! id = Some e → ov p' !! id = Some e' → False;
  o_own : ∀ p id e id' e', ov p !! id = Some e → (ov p ∪ t) !! id' = Some e' → clash e e' = false;
  o_cross : ∀ p p' id e id' e', p ≠ p' → ov p !! id = Some e → ov p' !! id' = Some e' → clash e e' = false
}.
Lemma ok_ext t ov ov' : (∀ p, ov' p = ov p) → ok t ov → ok t ov'.
Proof. intros He Hok. destruct Hok. split; intros *; rewrite ?He; eauto. Qed.

Lemma visible_Some (w t : table) id e : (w ∪ t) !! id = Some e ↔ w !! id = Some e ∨ w !! id = None ∧ t !! id = Some e.
Proof. apply lookup_union_Some_raw. Qed.
Lemma visible_keyed t ov p id e : ok t ov → (ov p ∪ t) !! id = Some e → e_id e = id.
Proof. intros Hok [He|[_ He]]%visible_Some; [by eapply o_keyed|by eapply o_rows]. Qed.

(** Writing a row, for a transaction that alone holds it. *)
Lemma ok_write t ov p e :
  ok t ov → (∀ p', p' ≠ p → ov p' !! e_id e = None) →
  (∀ p' id x, p' ≠ p → ov p' !! id = Some x → clash e x = false) → (∀ id x, (ov p ∪ t) !! id = Some x → clash e x = false) →
  ok t (<[p := <[e_id e := e]> (ov p)]> ov).
Proof.
  intros Hok Hfree Hothers Hvis.
  assert (∀ p' id x, <[p := <[e_id e := e]> (ov p)]> ov p' !! id = Some x →
    p' = p ∧ id = e_id e ∧ x = e ∨ (p' = p → id ≠ e_id e) ∧ ov p' !! id = Some x) as Hlook.
  { intros p' id x. destruct (decide (p' = p)) as [-> |].
    - rewrite fn_lookup_insert. intros [[<- <-]|[? ?]]%lookup_insert_Some; auto.
    - rewrite fn_lookup_insert_ne by done. auto. }
  split; try apply Hok.
  - intros p' id x Hx. destruct (Hlook _ _ _ Hx) as [(_ & -> & ->)|[_ ?]]; [done|]. by eapply (o_keyed _ _ Hok).
  - intros p1 p2 id x y Hne Hx Hy. destruct (Hlook _ _ _ Hx) as [(-> & -> & ->)|[Hn Hx']], (Hlook _ _ _ Hy) as [(-> & Heq & ->)|[Hn' Hy']].
    + done.
    + by rewrite Hfree in Hy'.
    + subst id. by rewrite Hfree in Hx'.
    + by eapply (o_apart _ _ Hok p1 p2).
  - intros p' id x id' y Hx Hy. destruct (Hlook _ _ _ Hx) as [(-> & -> & ->)|[Hn Hx']].
    + rewrite fn_lookup_insert in Hy. apply visible_Some in Hy as [[[<- <-]|[? ?]]%lookup_insert_Some|[[? ?]%lookup_insert_None ?]].
      * by apply clash_same.
      * eapply Hvis, visible_Some. by left.
      * eapply Hvis, visible_Some. by right.
    + destruct (decide (p' = p)) as [-> |].
      * rewrite fn_lookup_insert in Hy. apply visible_Some in Hy as [[[<- <-]|[? ?]]%lookup_insert_Some|[[? ?]%lookup_insert_None ?]].
        -- rewrite clash_sym. eapply Hvis, visible_Some. by left.
        -- eapply (o_own _ _ Hok p); [done|]. apply visible_Some. by left.
        -- eapply (o_own _ _ Hok p); [done|]. apply visible_Some. by right.
      * rewrite fn_lookup_insert_ne in Hy by done. by eapply (o_own _ _ Hok p').
  - intros p1 p2 id x id' y Hne Hx Hy. destruct (Hlook _ _ _ Hx) as [(-> & -> & ->)|[Hn Hx']], (Hlook _ _ _ Hy) as [(-> & Heq & ->)|[Hn' Hy']].
    + done.
    + by eapply (Hothers p2).
    + rewrite clash_sym. by eapply (Hothers p1).
    + by eapply (o_cross _ _ Hok p1 p2).
Qed.

(** Taking a committed row. *)
Lemma ok_take t ov p id e :
  ok t ov → (∀ p', p' ≠ p → ov p' !! id = None) → (ov p ∪ t) !! id = Some e → ok t (<[p := <[id := e]> (ov p)]> ov).
Proof.
  intros Hok Hfree He. pose proof (visible_keyed _ _ _ _ _ Hok He) as <-. apply ok_write; [done|done|..].
  - intros p' id' x Hne Hx. apply visible_Some in He as [He|[_ He]].
    + by eapply (o_cross _ _ Hok p p').
    + rewrite clash_sym. eapply (o_own _ _ Hok p'); [done|]. apply visible_Some. right. auto.
  - intros id' x Hx. apply visible_Some in He as [He|[Hn He]].
    + by eapply (o_own _ _ Hok p).
    + apply visible_Some in Hx as [Hx|[_ Hx]]; [|by eapply (o_unique _ _ Hok)].
      rewrite clash_sym. eapply (o_own _ _ Hok p); [done|]. apply visible_Some. by right.
Qed.

Lemma ok_drop t ov p : ok t ov → ok t (<[p := ∅]> ov).
Proof.
  intros Hok. assert (∀ p' id x, <[p := ∅]> ov p' !! id = Some x → p' ≠ p ∧ ov p' !! id = Some x) as Hlook.
  { intros p' id x. destruct (decide (p' = p)) as [-> |]; [by rewrite fn_lookup_insert|by rewrite fn_lookup_insert_ne]. }
  split; try apply Hok.
  - intros p' id x [_ ?]%Hlook. by eapply (o_keyed _ _ Hok).
  - intros p1 p2 id x y ? [_ ?]%Hlook [_ ?]%Hlook. by eapply (o_apart _ _ Hok p1 p2).
  - intros p' id x id' y [? ?]%Hlook. rewrite fn_lookup_insert_ne by done. by eapply (o_own _ _ Hok p').
  - intros p1 p2 id x id' y ? [_ ?]%Hlook [_ ?]%Hlook. by eapply (o_cross _ _ Hok p1 p2).
Qed.

Lemma ok_commit t ov p : ok t ov → (∀ id e, ov p !! id = Some e → good e) → ok (ov p ∪ t) (<[p := ∅]> ov).
Proof.
  intros Hok Hgood. assert (∀ p' id x, <[p := ∅]> ov p' !! id = Some x → p' ≠ p ∧ ov p' !! id = Some x) as Hlook.
  { intros p' id x. destruct (decide (p' = p)) as [-> |]; [by rewrite fn_lookup_insert|by rewrite fn_lookup_insert_ne]. }
  split.
  - intros id e He. split; [by eapply visible_keyed|]. apply visible_Some in He as [He|[_ He]]; [by eapply Hgood|by eapply o_rows].
  - intros id e id' e' He He'. apply visible_Some in He as [He|[Hn He]]; [by eapply (o_own _ _ Hok p)|].
    apply visible_Some in He' as [He'|[_ He']]; [|by eapply (o_unique _ _ Hok)].
    rewrite clash_sym. eapply (o_own _ _ Hok p); [done|]. apply visible_Some. by right.
  - intros p' id x [_ ?]%Hlook. by eapply (o_keyed _ _ Hok).
  - intros p1 p2 id x y ? [_ ?]%Hlook [_ ?]%Hlook. by eapply (o_apart _ _ Hok p1 p2).
  - intros p' id x id' y [Hne Hx]%Hlook. rewrite fn_lookup_insert_ne by done. intros [Hy|[Hn Hy]]%visible_Some.
    { eapply (o_own _ _ Hok p'); [done|]. apply visible_Some. by left. }
    apply visible_Some in Hy as [Hy|[_ Hy]]; [by eapply (o_cross _ _ Hok p' p)|].
    eapply (o_own _ _ Hok p'); [done|]. apply visible_Some. by right.
  - intros p1 p2 id x id' y ? [_ ?]%Hlook [_ ?]%Hlook. by eapply (o_cross _ _ Hok p1 p2).
Qed.

(** ** One statement *)

Definition base (t w : table) : table := map_imap (λ id _, t !! id) w.
Lemma lookup_base t w id : base t w !! id = w !! id ≫= λ _, t !! id.
Proof. unfold base. rewrite map_lookup_imap. by destruct (w !! id). Qed.
Lemma base_insert t w id e x : t !! id = Some e → base t (<[id := x]> w) = <[id := e]> (base t w).
Proof.
  intros He. apply map_eq. intros id'. rewrite lookup_base. destruct (decide (id = id')) as [<-|].
  - by rewrite !lookup_insert_eq.
  - by rewrite !lookup_insert_ne, lookup_base.
Qed.
Lemma base_fresh t w id x : w !! id = None → t !! id = None → base t (<[id := x]> w) = base t w.
Proof.
  intros Hw He. apply map_eq. intros id'. rewrite !lookup_base. destruct (decide (id = id')) as [<-|].
  - by rewrite lookup_insert_eq, Hw.
  - by rewrite lookup_insert_ne.
Qed.
Lemma base_held t w id e x : w !! id = Some e → base t (<[id := x]> w) = base t w.
Proof.
  intros Hw. apply map_eq. intros id'. rewrite !lookup_base. destruct (decide (id = id')) as [<-|].
  - by rewrite lookup_insert_eq, Hw.
  - by rewrite lookup_insert_ne.
Qed.

Lemma held_false os id : held_by_others os id = false → ∀ o, o ∈ os → o !! id = None.
Proof.
  unfold held_by_others. intros Hh o Ho. apply eq_None_not_Some. intros Hs. apply not_true_iff_false in Hh. apply Hh, existsb_exists.
  exists o. split; [by apply list_elem_of_In|by apply bool_decide_eq_true].
Qed.
Lemma existsb_map_false (P : string * entry → bool) (t : table) : existsb P (map_to_list t) = false → ∀ id x, t !! id = Some x → P (id, x) = false.
Proof.
  intros Hf id x Hx. apply not_true_iff_false. intros HP. apply not_true_iff_false in Hf. apply Hf, existsb_exists.
  exists (id, x). split; [|done]. by apply list_elem_of_In, elem_of_map_to_list.
Qed.
Lemma put_Answers t w os keys e w' keys' r : put t w os keys e = Answers w' keys' r →
  w' = <[e_id e := e]> w ∧ r = Some e ∧ (∀ o id x, o ∈ os → o !! id = Some x → clash e x = false) ∧ (∀ id x, (w ∪ t) !! id = Some x → clash e x = false).
Proof.
  unfold put. destruct (existsb _ os || _) eqn:Hw; [done|]. destruct (existsb _ (map_to_list (w ∪ t))) eqn:Hv in |- *; [done|]. intros ?; simplify_eq. split; [done|]. split; [done|]. split.
  - intros o id x Ho Hx. apply orb_false_iff in Hw as [Hw _]. apply not_true_iff_false. intros Hc. apply not_true_iff_false in Hw. apply Hw, existsb_exists.
    exists o. split; [by apply list_elem_of_In|]. apply existsb_exists. exists (id, x). split; [|done]. by apply list_elem_of_In, elem_of_map_to_list.
  - exact (existsb_map_false _ _ Hv).
Qed.
Lemma first_match_Some P t e : first_match P t = Some e → P e = true ∧ ∃ id, t !! id = Some e.
Proof.
  unfold first_match. intros Hh. apply head_Some_elem_of in Hh. apply list_elem_of_filter in Hh as [HP He]. split; [done|].
  apply list_elem_of_fmap in He as [[id x] [-> Hx]]. exists id. by apply elem_of_map_to_list.
Qed.

(** A statement that answers leaves the rows in order, and the program where its proof goes on. *)
Lemma statement_ok st err k Q t ov p os keys ks w' keys' r :
  ok t ov → (∀ p', p' ≠ p → ov p' = ∅ ∨ ov p' ∈ os) → exec st t (ov p) os keys ks = Answers w' keys' r → wp (Step st err k) Q (base t (ov p)) (ov p) →
  ok t (<[p := w']> ov) ∧ wp (k r) Q (base t w') w'.
Proof.
  intros Hok Hos Hex Hwp.
  assert (ok t (<[p := ov p]> ov)) as Hstay.
  { eapply ok_ext; [|exact Hok]. intros p'. unfold insert, fn_insert. by case_decide; subst. }
  assert (∀ id, held_by_others os id = false → ∀ p', p' ≠ p → ov p' !! id = None) as Hheld.
  { intros id Hh p' Hne. destruct (Hos p' Hne) as [-> |Ho]; [done|by eapply held_false]. }
  assert (∀ e, put t (ov p) os keys e = Answers w' keys' r → held_by_others os (e_id e) = false →
    ok t (<[p := w']> ov) ∧ w' = <[e_id e := e]> (ov p) ∧ r = Some e) as Hput.
  { intros e (-> & -> & Ho & Hv)%put_Answers Hh. split; [|done]. apply ok_write; [done|by apply Hheld| |done].
    intros p' id x Hne Hx. destruct (Hos p' Hne) as [He|?]; [by rewrite He in Hx|by eapply Ho]. }
  destruct st as [key|P|id P|id P f|e]; cbn [exec wp] in *.
  - case_bool_decide; simplify_eq. done.
  - simplify_eq. split; [done|]. apply Hwp. intros e [HP [id He]]%first_match_Some. split; [done|]. intros e' He'.
    pose proof (visible_keyed _ _ _ _ _ Hok He) as <-. apply visible_Some in He as [He|[He _]]; by simplify_eq.
  - destruct (held_by_others os id) eqn:Hh; [done|]. destruct Hwp as [Hno Hyes]. destruct ((ov p ∪ t) !! id) as [e|] eqn:He; [|by simplify_eq].
    destruct (P e) eqn:HP; simplify_eq; [|done]. split; [by apply ok_take; [|apply Hheld|]|].
    destruct (Hyes e HP) as [Hin Hout]; [exact (visible_keyed _ _ _ _ _ Hok He)|]. apply visible_Some in He as [He|[Hn He]].
    + rewrite insert_id by done. by apply Hin.
    + rewrite (base_insert _ _ _ e) by done. apply Hout; [done|]. by eapply (o_rows _ _ Hok).
  - destruct Hwp as (Hf & Hno & Hyes). destruct ((ov p ∪ t) !! id) as [e|] eqn:He.
    + destruct (P e) eqn:HP; simpl in Hex; simplify_eq.
      * destruct (held_by_others os id) eqn:Hh; [done|]. pose proof (visible_keyed _ _ _ _ _ Hok He) as Hid.
        destruct (Hput (f e) Hex) as (Hok' & -> & ->); [by rewrite Hf, Hid|]. split; [done|]. rewrite Hf, Hid in *.
        destruct (Hyes e HP Hid) as [Hin Hout]. apply visible_Some in He as [He|[Hn He]].
        -- rewrite (base_held _ _ _ e) by done. by apply Hin.
        -- rewrite (base_insert _ _ _ e) by done. apply Hout; [done|]. by eapply (o_rows _ _ Hok).
      * split; [done|]. apply Hno. intros e' He'. apply visible_Some in He as [He|[He _]]; by simplify_eq.
    + simplify_eq. split; [done|]. apply Hno. intros e' He'. exfalso. apply lookup_union_None in He as [He _]. by simplify_eq.
  - destruct (held_by_others os (e_id e)) eqn:Hh; [done|]. destruct ((ov p ∪ t) !! e_id e) eqn:He; [done|].
    apply lookup_union_None in He as [Hw Ht]. destruct (Hput e Hex Hh) as (Hok' & -> & ->). split; [done|].
    rewrite base_fresh by done. apply Hwp; [done|]. by rewrite lookup_base, Hw.
Qed.

(** ** The history *)

Definition versions_of (id : string) (l : list (nat * string * Z)) : list Z := (filter (λ x, x.1.2 = id) l).*2.

Lemma versions_list p (g : string → Z) (l : list (string * entry)) id :
  NoDup l.*1 →
  versions_of id ((λ x, (p, x.1, g x.1)) <$> filter (λ x, m_Version (scanMemory x.2) ≠ g x.1) l) =
  match (list_to_map l : table) !! id with
  | Some e => if decide (m_Version (scanMemory e) ≠ g id) then [g id] else []
  | None => []
  end.
Proof.
  unfold versions_of. induction l as [|[i e] l IH]; [done|]. intros [Hi Hnd]%NoDup_cons. specialize (IH Hnd). simpl.
  destruct (decide (i = id)) as [-> |Hne].
  - rewrite lookup_insert_eq. rewrite not_elem_of_list_to_map_1 in IH by done. rewrite filter_cons. simpl.
    case_decide; [|exact IH]. simpl. rewrite filter_cons_True by done. simpl. f_equal. exact IH.
  - rewrite lookup_insert_ne by done. rewrite filter_cons. simpl. case_decide; [|done]. simpl. by rewrite filter_cons_False.
Qed.
Lemma versions_changes p w t id : versions_of id (changes p w t) =
  match w !! id with Some e => if decide (m_Version (scanMemory e) ≠ version_in t id) then [version_in t id] else [] | None => [] end.
Proof. unfold changes. rewrite (versions_list p (version_in t)) by apply NoDup_fst_map_to_list. by rewrite list_to_map_to_list. Qed.

Lemma version_in_nonneg t ov id : ok t ov → 0 ≤ version_in t id.
Proof. intros Hok. unfold version_in. destruct (t !! id) as [e|] eqn:He; [|done]. destruct (o_rows _ _ Hok _ _ He) as [_ Hg]. pose proof (g_version _ Hg). lia. Qed.

Lemma log_commit t ov w p id l :
  ok t ov → legal (base t w) w → versions_of id l = seqZ 0 (version_in t id) →
  versions_of id (l ++ changes p w t) = seqZ 0 (version_in (w ∪ t) id).
Proof.
  intros Hok Hl Hv. unfold versions_of in *. rewrite filter_app, fmap_app, Hv. fold (versions_of id (changes p w t)). rewrite versions_changes.
  pose proof (version_in_nonneg _ _ id Hok) as Hn. destruct (w !! id) as [e|] eqn:Hw.
  - assert (version_in (w ∪ t) id = m_Version (scanMemory e)) as -> by (unfold version_in; by rewrite (lookup_union_Some_l _ _ _ _ Hw)). pose proof (Hl _ _ Hw) as [_ Hc]. rewrite lookup_base, Hw in Hc. simpl in Hc.
    case_decide as Hd.
    + assert (m_Version (scanMemory e) = version_in t id + 1) as ->.
      { unfold version_in in *. destruct (t !! id) as [e0|]; [|lia]. destruct Hc as (_ & _ & [->|Hs]); [done|]. by rewrite Hs in Hd. }
      by rewrite seqZ_app by lia.
    + assert (m_Version (scanMemory e) = version_in t id) as -> by lia. apply app_nil_r.
  - unfold version_in. rewrite lookup_union_r by done. apply app_nil_r.
Qed.

(** A committed change keeps what was recorded before. *)
Lemma row_follows t w id e : legal (base t w) w → t !! id = Some e → ∃ e', (w ∪ t) !! id = Some e' ∧ follows e e'.
Proof.
  intros Hl He. destruct (w !! id) as [e'|] eqn:Hw.
  - exists e'. split; [by apply lookup_union_Some_l|]. destruct (Hl _ _ Hw) as [_ Hc]. by rewrite lookup_base, Hw in Hc; simpl in Hc; rewrite He in Hc.
  - exists e. split; [by rewrite lookup_union_r|apply follows_refl].
Qed.
Lemma recorded_follows v action actor reason m e e' : follows e e' → recorded v action actor reason m e → recorded v action actor reason m e'.
Proof.
  intros (_ & Hk & _) (Hm & r & Hr & Ha & Hac & Hre & Hs). split; [done|].
  destruct (Hk _ _ Hr) as [Hr'|Hr']; [by exists r|]. exists (scrub_revision r). do 4 (split; [done|]). right. simpl.
  destruct Hs as [-> | ->]; done.
Qed.

(** ** Calls that have returned *)

Definition acknowledged (p : nat) (id : string) (v : Z) (action : RevisionAction) (actor reason : string) (m : Memory) (t : table) (l : list (nat * string * Z)) : Prop :=
  (p, id, v) ∈ l ∧ ∃ e, t !! id = Some e ∧ recorded (v + 1) action actor reason m e.
Definition command_settled (p : nat) (c : VersionedCommand) (action : RevisionAction) (m : option Memory) (t : table) (l : list (nat * string * Z)) : Prop :=
  ∃ m', acknowledged p (cm_ID c) (ExpectedVersion c) action (cm_Actor c) (cm_Reason c) m' t l ∧
    if decide (action = RevisionErase) then m = None else m = Some m'.
Definition settled (p : nat) (q : request) (m : option Memory) (t : table) (l : list (nat * string * Z)) : Prop :=
  match q with
  | RCreate r => ∃ m', m = Some m' ∧
      (m' = MemStore.created r ∧ acknowledged p (cr_ID r) 0 RevisionCreate (cr_Actor r) (cr_Reason r) m' t l ∨
       cr_IdempotencyKey r ≠ "" ∧ ∃ e, t !! cr_ID r = Some e ∧ m_Scope m' = cr_Scope r ∧ m_IdempotencyKey m' = cr_IdempotencyKey r ∧
         identity (scanMemory e) = identity m' ∧ m_Version m' ≤ m_Version (scanMemory e))
  | RActivate c => command_settled p c RevisionActivate m t l
  | RCorrect r => command_settled p (Command r) RevisionCorrect m t l
  | RDismiss c => command_settled p c RevisionDismiss m t l
  | RForget c => command_settled p c RevisionForget m t l
  | RErase c => command_settled p c RevisionErase m t l
  | RPutEmbedding r => ∃ e, t !! pu_MemoryID r = Some e ∧ m_Scope (scanMemory e) = pu_Scope r
  end.

Lemma acknowledged_commit p id v action actor reason m t w l l' :
  legal (base t w) w → acknowledged p id v action actor reason m t l → acknowledged p id v action actor reason m (w ∪ t) (l ++ l').
Proof.
  intros Hl (Hin & e & He & Hr). split; [apply elem_of_app; by left|]. destruct (row_follows _ _ _ _ Hl He) as (e' & He' & Hf).
  exists e'. split; [done|by eapply recorded_follows].
Qed.
Lemma command_commit p c action m t w l l' :
  legal (base t w) w → command_settled p c action m t l → command_settled p c action m (w ∪ t) (l ++ l').
Proof. intros Hl (m' & Ha & Hm). exists m'. split; [by apply acknowledged_commit|done]. Qed.
Lemma settled_commit p q m t w l l' : legal (base t w) w → settled p q m t l → settled p q m (w ∪ t) (l ++ l').
Proof.
  intros Hl. destruct q; simpl; try by apply command_commit.
  - intros (m' & -> & [[-> Ha]|(Hk & e & He & Hs & Hi & Hid & Hv)]); eexists; (split; [done|]); [left; split; [done|by apply acknowledged_commit]|right].
    split; [done|]. destruct (row_follows _ _ _ _ Hl He) as (e' & He' & Hid' & _ & Hver). exists e'. rewrite Hid'.
    do 4 (split; [done|]). destruct Hver as [|Hver]; [lia|by rewrite Hver].
  - intros (e & He & Hs). destruct (row_follows _ _ _ _ Hl He) as (e' & He' & Hid & _). exists e'. split; [done|].
    rewrite <- Hs. by injection Hid.
Qed.

(** ** The invariant *)

Definition ov (s : state) (p : nat) : table := default ∅ (writes_of <$> procs s !! p).

Record inv (s : state) : Prop := {
  i_ok : ok (rows s) (ov s);
  i_wp : ∀ p q k w keys, procs s !! p = Some (Running q k w keys) → wp k (post q) (base (rows s) w) w;
  i_log : ∀ id, versions_of id (log s) = seqZ 0 (version_in (rows s) id);
  i_done : ∀ p q m, procs s !! p = Some (Returned q (Ok m)) → settled p q m (rows s) (log s)
}.

Lemma ov_at s p q : procs s !! p = Some q → ov s p = writes_of q.
Proof. unfold ov. by intros ->. Qed.
Lemma ov_set s p q0 q p' : procs s !! p = Some q0 → ov (set_proc p q s) p' = <[p := writes_of q]> (ov s) p'.
Proof.
  intros Hp. unfold ov, set_proc. simpl. destruct (decide (p' = p)) as [-> |].
  - rewrite fn_lookup_insert, list_lookup_insert_eq by (by eapply lookup_lt_Some). done.
  - by rewrite fn_lookup_insert_ne, list_lookup_insert_ne.
Qed.
Lemma lookup_set s p q q' p' x : procs s !! p = Some q' → procs (set_proc p q s) !! p' = Some x → p' = p ∧ x = q ∨ p' ≠ p ∧ procs s !! p' = Some x.
Proof.
  unfold set_proc. simpl. intros Hp. destruct (decide (p' = p)) as [-> |].
  - rewrite list_lookup_insert_eq by (by eapply lookup_lt_Some). intros [= ->]. by left.
  - rewrite list_lookup_insert_ne by done. by right.
Qed.

Lemma set_inv s p q0 q :
  inv s → procs s !! p = Some q0 → ok (rows s) (<[p := writes_of q]> (ov s)) →
  (∀ q' k w keys, q = Running q' k w keys → wp k (post q') (base (rows s) w) w) → (∀ q' m, q ≠ Returned q' (Ok m)) → inv (set_proc p q s).
Proof.
  intros Hi Hp Hok Hwp Hret. split; simpl.
  - eapply ok_ext; [|exact Hok]. intros p'. by eapply ov_set.
  - intros p' q' k w keys Hl. destruct (lookup_set _ _ _ _ _ _ Hp Hl) as [[_ He]|[_ Hl']]; [by eapply Hwp|by eapply i_wp].
  - apply (i_log _ Hi).
  - intros p' q' m Hl. destruct (lookup_set _ _ _ _ _ _ Hp Hl) as [[_ He]|[_ Hl']]; [by destruct (Hret q' m)|by eapply i_done].
Qed.
Lemma fail_inv s p q0 q e : inv s → procs s !! p = Some q0 → inv (set_proc p (Returned q (Err e)) s).
Proof. intros Hi Hp. eapply set_inv; [done..|apply ok_drop, i_ok, Hi|done|done]. Qed.
Lemma call_inv s q : inv s → writes_of q = ∅ → (∀ q' k w keys, q ≠ Running q' k w keys) → (∀ q' m, q ≠ Returned q' (Ok m)) → inv (s <| procs := procs s ++ [q] |>).
Proof.
  intros Hi Hw Hrun Hret.
  assert (∀ p x, (procs s ++ [q]) !! p = Some x → x = q ∨ procs s !! p = Some x) as Hlook.
  { intros p x [?|[_ Hx]]%lookup_app_Some; [by right|left]. apply list_lookup_singleton_Some in Hx. by destruct Hx. }
  split; simpl.
  - eapply ok_ext; [|apply i_ok, Hi]. intros p. unfold ov. simpl. destruct (procs s !! p) as [x|] eqn:Hx.
    + by rewrite (lookup_app_l_Some _ _ _ _ Hx).
    + destruct ((procs s ++ [q]) !! p) as [x|] eqn:Hx'; [|done]. destruct (Hlook _ _ Hx') as [-> |?]; [by simpl; rewrite Hw|by simplify_eq].
  - intros p q' k w keys [He|?]%Hlook; [by destruct (Hrun q' k w keys)|by eapply i_wp].
  - apply (i_log _ Hi).
  - intros p q' m [He|?]%Hlook; [by destruct (Hret q' m)|by eapply i_done].
Qed.

Lemma others_spec p s p' q : p' ≠ p → procs s !! p' = Some q → q ∈ others p s.
Proof.
  intros Hne Hq. unfold others. apply elem_of_app. destruct (decide (p' < p)%nat).
  - left. apply list_elem_of_lookup_2 with p'. by rewrite lookup_take_lt.
  - right. apply list_elem_of_lookup_2 with (p' - S p)%nat. rewrite lookup_drop. by replace (S p + (p' - S p))%nat with p' by lia.
Qed.
Lemma exec_inv s p q st err k w keys w' keys' r :
  inv s → procs s !! p = Some (Running q (Step st err k) w keys) →
  exec st (rows s) w (writes_of <$> others p s) keys (others p s ≫= keys_of) = Answers w' keys' r → inv (set_proc p (Running q (k r) w' keys') s).
Proof.
  intros Hi Hp Hex. pose proof (ov_at _ _ _ Hp) as Hov. simpl in Hov. rewrite <- Hov in Hex. eapply statement_ok in Hex; [|apply i_ok, Hi|..].
  - destruct Hex as [Hok Hwp]. eapply set_inv; [done..| |done]. intros q' k' w1 keys1 [= <- <- <- <-]. exact Hwp.
  - intros p' Hne. unfold ov. destruct (procs s !! p') as [q'|] eqn:Hq; [|by left]. right. simpl.
    apply list_elem_of_fmap. exists q'. split; [done|by apply others_spec with p'].
  - rewrite Hov. by eapply i_wp.
Qed.

(** A commit. *)
Lemma command_settles p c action b w t l m :
  b = base t w → commanded c action b w m → command_settled p c action m (w ∪ t) (l ++ changes p w t).
Proof.
  intros -> (e0 & e & m' & Hb & Hw & _ & Hv0 & Hv & Hr & Hm). rewrite lookup_base, Hw in Hb. simpl in Hb. exists m'. split; [|case_decide; by try apply Hm].
  split; [|exists e; split; [by apply lookup_union_Some_l|done]]. apply elem_of_app. right. unfold changes.
  assert (version_in t (cm_ID c) = ExpectedVersion c) as Ht by (unfold version_in; by rewrite Hb).
  apply list_elem_of_fmap. exists (cm_ID c, e). simpl. rewrite Ht. split; [done|].
  apply list_elem_of_filter. simpl. rewrite Ht. split; [lia|by apply elem_of_map_to_list].
Qed.
Lemma post_settles p q w t l m : post q (base t w) w m → settled p q m (w ∪ t) (l ++ changes p w t).
Proof.
  intros [Hl Hq]. destruct q; simpl in *; try by eapply command_settles.
  - destruct Hq as (e & m' & Hw & -> & Hs & Hk & Hcase). eexists. split; [done|]. rewrite lookup_base, Hw in Hcase. simpl in Hcase.
    pose proof (lookup_union_Some_l _ t _ _ Hw) as Hv. destruct Hcase as [(Hn & -> & Hr)|(Hne & _ & ->)].
    + left. split; [done|]. split; [|by exists e]. apply elem_of_app. right. unfold changes.
      assert (version_in t (cr_ID r) = 0) as Ht by (unfold version_in; by rewrite Hn).
      apply list_elem_of_fmap. exists (cr_ID r, e). simpl. rewrite Ht. split; [done|].
      apply list_elem_of_filter. simpl. rewrite Ht. split; [|by apply elem_of_map_to_list].
      destruct (Hl _ _ Hw) as [Hg _]. pose proof (g_version _ Hg). lia.
    + right. split; [done|]. exists e. split_and!; by try lia.
  - destruct Hq as (e0 & e & _ & Hw & Hs & _ & _ & He & _). exists e. split; [by apply lookup_union_Some_l|by rewrite He].
Qed.

Lemma commit_inv s p q err r w keys a :
  inv s → procs s !! p = Some (Running q (Commit err r) w keys) → (∀ m, a = Ok m → m = r) → inv (set_proc p (Returned q a) (commit p w s)).
Proof.
  intros Hi Hp Ha. pose proof (i_wp _ Hi _ _ _ _ _ Hp) as Hpost. simpl in Hpost. pose proof (proj1 Hpost) as Hl.
  pose proof (ov_at _ _ _ Hp) as Hov. simpl in Hov.
  assert (procs (commit p w s) !! p = Some (Running q (Commit err r) w keys)) as Hp' by done.
  split; simpl.
  - apply (ok_ext _ (<[p := ∅]> (ov s))); [intros p'; exact (ov_set (commit p w s) p _ (Returned q a) p' Hp')|]. rewrite <- Hov. apply ok_commit; [apply i_ok, Hi|].
    rewrite Hov. intros id e He. by destruct (Hl _ _ He).
  - intros p' q' k w' keys' Hq'. destruct (lookup_set _ _ _ _ _ _ Hp' Hq') as [[_ ?]|[Hne Hq'']]; [done|].
    change (procs s !! p' = Some (Running q' k w' keys')) in Hq''. pose proof (i_wp _ Hi _ _ _ _ _ Hq'') as Hwp. replace (base (w ∪ rows s) w') with (base (rows s) w'); [done|].
    apply map_eq. intros id. rewrite !lookup_base. destruct (w' !! id) as [e'|] eqn:He'; [|done]. simpl.
    rewrite lookup_union_r; [done|]. apply eq_None_not_Some. intros [e He].
    eapply (o_apart _ _ (i_ok _ Hi) p p' id e e'); [done|by rewrite Hov|by rewrite (ov_at s _ _ Hq'')].
  - intros id. eapply log_commit; [apply i_ok, Hi|done|apply i_log, Hi].
  - intros p' q' m Hq'. destruct (lookup_set _ _ _ _ _ _ Hp' Hq') as [[-> He]|[Hne Hq'']].
    + injection He as <- Hm. rewrite (Ha m) by done. by apply post_settles.
    + apply settled_commit; [done|]. by apply (i_done _ Hi).
Qed.

Lemma step_keeps_inv l s s' : inv s → step l s = Some s' → inv s'.
Proof.
  intros Hi. destruct l as [[e|] q|p o]; simpl.
  1,2: intros [= <-]; by apply call_inv.
  destruct (procs s !! p) as [[q|q k w keys|q a]|] eqn:Hp; [| |done..].
  - destruct (program q) as [k|e] eqn:Hk; [destruct o|]; intros [= <-]; try by eapply fail_inv.
    eapply set_inv; [done..|apply ok_drop, i_ok, Hi| |done]. intros q' k' w keys [= <- <- <- <-].
    apply wp_program in Hk. exact Hk.
  - destruct k as [err r|e|st err k]; [|intros [= <-]; by eapply fail_inv|].
    + destruct o; intros [= <-]; [eapply commit_inv; [done..|by intros ? [=]]|by eapply fail_inv|by eapply commit_inv].
    + destruct o; [|intros [= <-]; by eapply fail_inv..]. destruct (exec _ _ _ _ _ _) as [| |w' keys' r] eqn:Hex; [done| |]; intros [= <-].
      * by eapply fail_inv.
      * by eapply exec_inv.
Qed.
Lemma started_inv : inv started.
Proof.
  split; [split|..]; unfold ov; simpl; try done; intros *; rewrite ?lookup_nil; simpl; by rewrite ?lookup_empty.
Qed.
Lemma reached_inv s : rtc steps started s → inv s.
Proof.
  intros Hr. apply (rtc_ind_r (R := steps) (λ s, inv s) started); [apply started_inv| |done].
  intros y z _ [l Hs] Hy. by eapply step_keeps_inv.
Qed.

Lemma logged_once id l p p' v : NoDup (versions_of id l) → (p, id, v) ∈ l → (p', id, v) ∈ l → p = p'.
Proof.
  unfold versions_of. induction l as [|[[p0 id0] v0] l IH]; [by intros _ ?%not_elem_of_nil|]. rewrite filter_cons. simpl.
  case_decide as Hid; [|intros Hnd [[= -> ->]|?]%elem_of_cons [[= -> ->]|?]%elem_of_cons; by try auto]. subst id0. simpl. intros [Hn Hnd]%NoDup_cons.
  assert (∀ q, (q, id, v0) ∈ l → False) as Hno.
  { intros q Hq. apply Hn. apply list_elem_of_fmap. exists (q, id, v0). split; [done|]. by apply list_elem_of_filter. }
  intros [Hp|Hp]%elem_of_cons [Hp'|Hp']%elem_of_cons; simplify_eq; [done|by destruct (Hno p')|by destruct (Hno p)|by apply IH].
Qed.

(** C35: however the methods of the store overlap and their statements and commits fail, every memory is stored under its ID, its revisions are numbered
from 1 to its version, form a path of the lifecycle and end in what the memory is, its columns fit its content, and where its content was erased no
source, embedding, snapshot or fingerprint is left; no two memories of a scope share an idempotency key, nor two active ones a kind and key; each version
of a memory was made by one call only, in order; and what a call that returned without an error did is, with its actor and reason, in the revisions of
the memory, as the change of just the version the caller expected. *)
Theorem memories_consistent s :
  rtc steps started s →
  (∀ id e, rows s !! id = Some e → e_id e = id ∧ good e) ∧
  (∀ id e id' e', rows s !! id = Some e → rows s !! id' = Some e' → id ≠ id' →
     same_key (scanMemory e) (scanMemory e') = false ∧ same_identity (scanMemory e) (scanMemory e') = false) ∧
  (∀ id, versions_of id (log s) = seqZ 0 (version_in (rows s) id)) ∧
  (∀ p p' id v, (p, id, v) ∈ log s → (p', id, v) ∈ log s → p = p') ∧
  (∀ p q m, procs s !! p = Some (Returned q (Ok m)) → settled p q m (rows s) (log s)).
Proof.
  intros Hi%reached_inv. split; [apply i_ok, Hi|]. split; [|split; [apply i_log, Hi|split; [|apply i_done, Hi]]].
  - intros id e id' e' He He' Hne. pose proof (o_unique _ _ (i_ok _ Hi) _ _ _ _ He He') as Hc. unfold clash in Hc.
    rewrite bool_decide_true in Hc; [by apply orb_false_iff in Hc|].
    by rewrite (proj1 (o_rows _ _ (i_ok _ Hi) _ _ He)), (proj1 (o_rows _ _ (i_ok _ Hi) _ _ He')).
  - intros p p' id v. apply logged_once. rewrite (i_log _ Hi). apply NoDup_seqZ.
Qed.

Fixpoint run (ls : list label) (s : state) : option state :=
  match ls with
  | [] => Some s
  | l :: ls => match step l s with Some s => run ls s | None => None end
  end.
Lemma run_rtc ls s s' : run ls s = Some s' → rtc steps s s'.
Proof.
  revert s. induction ls as [|l ls IH]; intros s; cbn [run]; [by intros [= ->]|]. destruct (step l s) as [s1|] eqn:Hs; [|done].
  intros H'. eapply rtc_l; [by exists l|by apply IH].
Qed.

End methods.

(** ** Concrete runs *)

Definition sample_limits : Limits := mkLimits "v1" 100 100 100 10 10.
Definition sample_scope : Scope := mkScope "t1" SubjectProject "p1".
Definition sample_create (id key : string) (status : Status) (idem : string) : CreateRequest :=
  mkCreate id sample_scope KindFact key status "the content" 1000000 0 50 (Num 1) "" "ada" "why" idem [mkSource "doc" "d1" ""] 2000500.
Definition sample_command (id : string) (v : Z) : VersionedCommand := mkCommand sample_scope id v "bob" "because" 3000000.
Definition sample_marshal (r : CreateRequest) : option string := Some (cr_ID r +:+ cr_Content r).
Definition sample_run : list label → state → option state := @run Search.sample_tables Some sample_marshal id sample_limits "prof" 1.
Definition fine (p n : nat) : list label := repeat (LStep p Fine) n.
(** Two calls with the same expected version: one forgets the memory while the other waits for it, and then finds another version. *)
Definition sample_race : list label :=
  [LCall None (RCreate (sample_create "m1" "k" StatusActive ""))] ++ fine 0 7 ++
  [LCall None (RForget (sample_command "m1" 1)); LCall None (RErase (sample_command "m1" 1))] ++
  fine 1 3 ++ fine 2 2 ++ fine 1 3 ++ fine 2 2.

(** What the calls returned: the version and content of a memory, or the error. *)
Definition answers (s : state) : list (res Error (option (Z * string))) :=
  omap (λ q, match q with Returned _ (Ok m) => Some (Ok ((λ m, (m_Version m, m_Content m)) <$> m)) | Returned _ (Err e) => Some (Err e) | _ => None end) (procs s).

Lemma memories_consistent_witness :
  ∃ s, sample_run sample_race started = Some s ∧ answers s = [Ok (Some (1, "the content")); Ok (Some (2, "the content")); Err ErrConflict] ∧
    log s = [(0%nat, "m1", 0); (1%nat, "m1", 1)] ∧
    ∃ e, rows s !! "m1" = Some e ∧ good (H := Search.sample_tables) id e ∧ m_Version (scanMemory e) = 2.
Proof.
  destruct (sample_run sample_race started) as [s|] eqn:Hs; [|by vm_compute in Hs]. exists s.
  pose proof (@memories_consistent _ _ _ _ _ _ _ s (@run_rtc _ _ _ _ _ _ _ _ _ _ Hs)) as (Hgood & _).
  split; [done|]. vm_compute in Hs. injection Hs as <-. split; [reflexivity|]. split; [reflexivity|].
  eexists. split; [reflexivity|]. split; [|reflexivity]. apply (Hgood "m1"). reflexivity.
Defined.

(** A retry of a creation while the memory is erased: the retry reads the fingerprint, waits for the row that the erasure holds, and is then accepted with
the fingerprint that the erasure has removed, although the same request is refused when it comes after the erasure. *)
Definition sample_retry : list label :=
  let create := RCreate (sample_create "m1" "k" StatusActive "i") in
  [LCall None create] ++ fine 0 9 ++
  [LCall None (RErase (sample_command "m1" 1)); LCall None create; LCall None create] ++
  fine 1 3 ++ fine 2 3 ++ fine 1 6 ++ fine 2 3 ++ fine 3 5.
Lemma erased_retry_accepted :
  answers <$> sample_run sample_retry started = Some [Ok (Some (1, "the content")); Ok None; Ok (Some (2, "")); Err ErrConflict].
Proof. vm_compute. reflexivity. Qed.

End PgMemory.
