(* ===== verification/MemoryPgQuery.v ===== *)
(** memorykit over PostgreSQL: what is read ([src/memorykit/pgstore/query.go], the reading methods of [lifecycle.go] and [embedding.go]).

Each query is one statement on what is committed when it runs; a method with several queries may see several states. [Module PgQuery]
has the methods as functions of these states, and shows that on a state in order they answer what the memory store of
[MemoryStore.v] answers. *)

From Stdlib Require Import QArith.
From S2P Require Import Prelude Float64 GoUtf8 MemorySearch MemoryTypes MemoryStore RunPostgres MemoryJobs MemoryPostgres.
Import Memories.
#[local] Open Scope Z_scope.

Module PgQuery.

Abbreviation DriverError := Jobs.DriverError.
Abbreviation wrapBackend := Jobs.wrapBackend.
Abbreviation timestamptz := Postgres.timestamptz.
Abbreviation table := (gmap string PgMemory.entry).
Abbreviation scanMemory := PgMemory.scanMemory.

(** A query may fail when it is sent, at a row or after the last one. *)
Inductive fault := AtQuery (e : DriverError) | AtScan (e : DriverError) | AtEnd (e : DriverError).
(** The state a statement sees, and how it goes. *)
Definition statement : Type := table * option fault.
Definition rows_of {A} (query scan end_ : string) (o : option fault) (a : A) : res Error A :=
  match o with
  | None => Ok a
  | Some (AtQuery e) => Err (wrapBackend query e)
  | Some (AtScan e) => Err (wrapBackend scan e)
  | Some (AtEnd e) => Err (wrapBackend end_ e)
  end.
Definition row_of {A} (op : string) (o : option fault) (a : A) : res Error A := rows_of op op op o a.
Definition live (ctx : Ctx) (v : res Error ()) : res Error () := match ctx with Some e => Err (ErrCtx e) | None => v end.
Definition entries (t : table) : list PgMemory.entry := (map_to_list t).*2.

Section queries.
Context `{U : Search.UnicodeTables} (uuid_Parse : string → option string) (limits : Limits) (profile : string) (dimensions : Z).
(** PostgreSQL: the order of texts, whether the [search_vector] of a memory matches a [tsquery], and the distance [<=>] of pgvector. *)
Context (text_lt : string → string → Prop) `{∀ a b, Decision (text_lt a b)} (tsmatch : Memory → string → bool) (distance : list number → list number → float64).

(** * Reading memories *)

Definition Get (ctx : Ctx) (st : statement) (scope : Scope) (id : string) : res Error Memory :=
  let? _ := live ctx (MemStore.validateIdentity uuid_Parse scope id) in
  let? r := row_of "get memory" st.2 (PgMemory.first_match (PgMemory.at_scope scope id) st.1) in
  match r with Some e => Ok (scanMemory e) | None => Err ErrNotFound end.

(** The order of the two text columns of a source. *)
Definition pair_less (a b : string * string) : Prop := if decide (a.1 = b.1) then text_lt a.2 b.2 else text_lt a.1 b.1.
#[local] Instance pair_less_dec a b : Decision (pair_less a b).
Proof. unfold pair_less. case_decide; apply _. Defined.
Definition Sources (ctx : Ctx) (st st' : statement) (scope : Scope) (id : string) : res Error (list Source) :=
  let? _ := live ctx (MemStore.validateIdentity uuid_Parse scope id) in
  let? r := row_of "source identity" st.2 (PgMemory.first_match (PgMemory.at_scope scope id) st.1) in
  match r with
  | None => Err ErrNotFound
  | Some _ =>
      rows_of "list sources" "scan source" "list sources" st'.2
        (match PgMemory.first_match (PgMemory.at_scope scope id) st'.1 with
         | Some e => sort_slice (key_less pair_less (λ s, (s_Kind s, s_Ref s))) (PgMemory.e_sources e)
         | None => []
         end)
  end.

(** [tenant_id = $1 AND subject_type = $2 AND subject_id = $3]. *)
Definition in_scope (scope : Scope) (e : PgMemory.entry) : Prop :=
  let s := m_Scope (scanMemory e) in
  TenantID s = TenantID scope ∧ sc_SubjectType s = sc_SubjectType scope ∧ SubjectID s = SubjectID scope.
#[local] Instance in_scope_dec scope e : Decision (in_scope scope e).
Proof. unfold in_scope. apply _. Defined.

(** The conditions that [List] adds to its statement: a column and the argument it has to equal. *)
Definition list_conditions (q : ListQuery) (e : PgMemory.entry) : list (string * string) :=
  (if decide (lq_Kind q ≠ "") then [(m_Kind (scanMemory e), lq_Kind q)] else []) ++
  (if decide (lq_Status q ≠ "") then [(m_Status (scanMemory e), lq_Status q)] else []) ++
  (if decide (lq_Key q ≠ "") then [(m_Key (scanMemory e), lq_Key q)] else []).
Definition list_where (q : ListQuery) (e : PgMemory.entry) : Prop :=
  in_scope (lq_Scope q) e ∧ Forall (λ c, c.1 = c.2) (list_conditions q e).
#[local] Instance list_where_dec q e : Decision (list_where q e).
Proof. unfold list_where. apply _. Defined.
(** [ORDER BY updated_at DESC, id ASC]. *)
Definition list_order (a b : PgMemory.entry) : Prop :=
  m_UpdatedAt (scanMemory b) < m_UpdatedAt (scanMemory a) ∨
  m_UpdatedAt (scanMemory a) = m_UpdatedAt (scanMemory b) ∧ str_lt (PgMemory.e_id a) (PgMemory.e_id b).
#[local] Instance list_order_dec a b : Decision (list_order a b).
Proof. unfold list_order. apply _. Defined.
Definition List (ctx : Ctx) (st : statement) (q : ListQuery) : res Error (list Memory) :=
  let? _ := live ctx (ValidateListQuery q limits) in
  rows_of "list memories" "scan memory" "list memories" st.2
    (scanMemory <$> take (Z.to_nat (lq_Limit q)) (sort_slice list_order (filter (list_where q) (entries st.1)))).

(** The revisions of a row, the newest first. *)
Definition newest_first (e : PgMemory.entry) : list Revision :=
  sort_slice (key_less Z.lt (λ r, - r_Version r)) ((λ x, PgMemory.scanRevision (PgMemory.e_id e) x.1 x.2) <$> map_to_list (PgMemory.e_revisions e)).
Definition Revisions (ctx : Ctx) (st st' : statement) (q : RevisionQuery) : res Error (list Revision) :=
  let? _ := live ctx (ValidateRevisionQuery uuid_Parse q limits) in
  let? r := row_of "revision identity" st.2 (PgMemory.first_match (PgMemory.at_scope (rq_Scope q) (rq_MemoryID q)) st.1) in
  match r with
  | None => Err ErrNotFound
  | Some _ =>
      rows_of "list revisions" "scan revision" "list revisions" st'.2
        (match PgMemory.first_match (PgMemory.at_scope (rq_Scope q) (rq_MemoryID q)) st'.1 with
         | Some e => take (Z.to_nat (rq_Limit q)) (filter (λ r, BeforeVersion q = 0 ∨ r_Version r < BeforeVersion q) (newest_first e))
         | None => []
         end)
  end.

(** * Embeddings that are missing *)

Definition wants_embedding (profile : string) (e : PgMemory.entry) : Prop :=
  m_Status (scanMemory e) = StatusActive ∧
  match PgMemory.e_embeddings e !! profile with
  | None => True
  | Some x => PgMemory.em_hash x ≠ PgMemory.content_hash (PgMemory.e_row e) ∨ PgMemory.em_dimension x ≠ dimensions
  end.
#[local] Instance wants_embedding_dec p e : Decision (wants_embedding p e).
Proof. unfold wants_embedding. case_match; apply _. Defined.
Definition embedding_input (e : PgMemory.entry) : EmbeddingInput :=
  let m := scanMemory e in mkEmbeddingInput (m_ID m) (m_Scope m) (m_Content m) (PgMemory.content_hash (PgMemory.e_row e)) (m_Version m).
Definition PendingEmbeddings (ctx : Ctx) (st : statement) (q : PendingEmbeddingQuery) : res Error (list EmbeddingInput) :=
  let? _ := live ctx (ValidatePendingEmbeddingQuery q limits) in
  let? _ := check (bool_decide (pe_ProfileID q = profile)) ErrInvalidMemory in
  rows_of "pending embeddings" "scan pending embeddings" "read pending embeddings" st.2
    (embedding_input <$> take (Z.to_nat (pe_Limit q))
       (sort_slice (key_less time_id_lt (λ e, (m_UpdatedAt (scanMemory e), PgMemory.e_id e))) (filter (wants_embedding (pe_ProfileID q)) (entries st.1)))).

(** * Recall *)

(** The conditions of the three queries on a memory: scope, [status = 'active'], [valid_from <= $4],
[valid_until IS NULL OR valid_until > $4] (the zero time is [NULL]), and [cardinality($6) = 0 OR kind = ANY($6)]; the time of a query is cut like
a column. *)
Definition recallable (q : CandidateQuery) (e : PgMemory.entry) : Prop :=
  let m := scanMemory e in
  in_scope (q_Scope q) e ∧ m_Status m = "active" ∧ m_ValidFrom m ≤ timestamptz (q_Now q) ∧
  (m_ValidUntil m = 0 ∨ timestamptz (q_Now q) < m_ValidUntil m) ∧
  (length (q_Kinds q) = 0%nat ∨ m_Kind m ∈ q_Kinds q).
#[local] Instance recallable_dec q e : Decision (recallable q e).
Proof. unfold recallable. apply _. Defined.

(** [ORDER BY importance DESC, updated_at DESC, id]. *)
Definition metadata_less (a b : Memory) : Prop :=
  m_Importance b < m_Importance a ∨ m_Importance a = m_Importance b ∧ (After (m_UpdatedAt a) (m_UpdatedAt b) ∨ m_UpdatedAt a = m_UpdatedAt b ∧ str_lt (m_ID a) (m_ID b)).
#[local] Instance metadata_less_dec a b : Decision (metadata_less a b).
Proof. unfold metadata_less. apply _. Defined.

Definition scanCandidates (channel : Channel) (ms : list (Memory * number)) : list Candidate :=
  imap (λ i x, mkCandidate x.1 [] channel (Z.of_nat i + 1) x.2) ms.
Definition plain (e : PgMemory.entry) : Memory * number := (scanMemory e, Num 0).

Definition searchExact (q : CandidateQuery) (st : statement) : res Error (list Candidate) :=
  let? found := rows_of "exact candidates" "scan candidates" "read candidates" st.2
    (take (Z.to_nat (ExactLimit q))
       (sort_slice (λ a b, metadata_less (scanMemory a) (scanMemory b)) (filter (λ e, recallable q e ∧ m_Key (scanMemory e) ∈ q_Keys q) (entries st.1)))) in
  Ok (scanCandidates ChannelExact (plain <$> found)).

(** [strings.ReplaceAll(word, apostrophe, two of them)] between apostrophes. *)
Definition apostrophe : ascii := ascii_of_N 39.
Fixpoint doubled (w : string) : string :=
  match w with
  | EmptyString => ""
  | String c w => if decide (c = apostrophe) then String c (String c (doubled w)) else String c (doubled w)
  end.
Definition quotedLexeme (w : string) : string := String apostrophe (doubled w) +:+ String apostrophe "".
Definition quotedLexemes (words : list string) : list string := quotedLexeme <$> words.
Definition anyLexeme (words : list string) : option string :=
  match words with [] => None | _ => Some (String.concat " | " (quotedLexemes words)) end.

Definition memory_text (m : Memory) : string := m_Key m +:+ " " +:+ m_Content m.
Definition hits (words grams : list string) (e : PgMemory.entry) : Z :=
  Z.of_nat (length (filter (λ w, tsmatch (scanMemory e) w = true) (quotedLexemes words)) +
            length (filter (λ g, Search.Contains (memory_text (scanMemory e)) g = true) grams)).
(** What the two indexes find. *)
Definition indexed (words grams : list string) (e : PgMemory.entry) : Prop :=
  match anyLexeme words with Some query => tsmatch (scanMemory e) query = true | None => False end ∨
  Exists (λ g, g ∈ PgMemory.search_grams (PgMemory.e_row e)) grams.
#[local] Instance indexed_dec words grams e : Decision (indexed words grams e).
Proof. unfold indexed. case_match; apply _. Defined.
Definition scored (q : CandidateQuery) (words grams : list string) (t : table) : list PgMemory.entry :=
  filter (λ e, 0 < hits words grams e) (filter (λ e, recallable q e ∧ indexed words grams e) (entries t)).
Definition best_hits (words grams : list string) (l : list PgMemory.entry) : Z := foldr Z.max 0 (hits words grams <$> l).
Definition full_text_less (words grams : list string) (a b : PgMemory.entry) : Prop :=
  hits words grams b < hits words grams a ∨ hits words grams a = hits words grams b ∧ metadata_less (scanMemory a) (scanMemory b).
#[local] Instance full_text_less_dec words grams a b : Decision (full_text_less words grams a b).
Proof. unfold full_text_less. apply _. Defined.
Definition searchFullText (q : CandidateQuery) (st : statement) : res Error (list Candidate) :=
  let '(words, grams) := Search.SearchTerms (q_Text q) in
  if decide (words = [] ∧ grams = []) then Ok []
  else
    let l := scored q words grams st.1 in
    let? found := rows_of "full-text candidates" "scan candidates" "read candidates" st.2
      (take (Z.to_nat (FullTextLimit q))
         (sort_slice (full_text_less words grams) (filter (λ e, best_hits words grams l < hits words grams e * 2) l))) in
    Ok (scanCandidates ChannelFullText (plain <$> found)).

(** The embedding of a row that the query compares, with its distance. *)
Definition vector_row (q : CandidateQuery) (e : PgMemory.entry) : option (PgMemory.entry * float64) :=
  match PgMemory.e_embeddings e !! EmbeddingProfileID q with
  | Some x =>
      let d := distance (PgMemory.em_vector x) (QueryVector q) in
      if decide (recallable q e ∧ PgMemory.em_dimension x = EmbeddingDimensions q ∧ PgMemory.em_hash x = PgMemory.content_hash (PgMemory.e_row e) ∧
           Exists (λ v, ¬ (num_value v == 0)%Q) (PgMemory.em_vector x) ∧ num_le (MinVectorSimilarity q) (Num (fadd 1 (- d))) = true)
      then Some (e, d) else None
  | None => None
  end.
Definition vector_less (a b : PgMemory.entry * float64) : Prop :=
  (a.2 < b.2)%Q ∨ (a.2 == b.2)%Q ∧ metadata_less (scanMemory a.1) (scanMemory b.1).
#[local] Instance vector_less_dec a b : Decision (vector_less a b).
Proof. unfold vector_less. apply _. Defined.
Definition searchVector (q : CandidateQuery) (st : statement) : res Error (list Candidate) :=
  let? found := rows_of "vector candidates" "scan candidates" "read candidates" st.2
    (take (Z.to_nat (VectorLimit q)) (sort_slice vector_less (omap (vector_row q) (entries st.1)))) in
  Ok (scanCandidates ChannelVector ((λ x, (scanMemory x.1, Num (fadd 1 (- x.2)))) <$> found)).

Definition vectorChannelResult (partial : CandidateSet) (err : Error) : CandidateSet * Error :=
  if IsRecoverable err then (mkSet (Exact partial) (FullText partial) [], ChannelError ChannelVector err) else (mkSet [] [] [], err).

Definition candidateIDs (set : CandidateSet) : list string :=
  foldl (λ ids c, if decide (m_ID (c_Memory c) ∈ ids) then ids else ids ++ [m_ID (c_Memory c)]) [] (Exact set ++ FullText set ++ Vector set).
(** The sources of the memories of a scope. *)
Definition sources_of (scope : Scope) (t : table) (id : string) : list Source :=
  match t !! id with
  | Some e => if decide (m_Scope (scanMemory e) = scope) then sort_slice (key_less pair_less (λ s, (s_Ref s, s_Kind s))) (PgMemory.e_sources e) else []
  | None => []
  end.
Definition attach (ids : list string) (scope : Scope) (t : table) (cs : list Candidate) : list Candidate :=
  (λ c, c <| c_Sources := if decide (m_ID (c_Memory c) ∈ ids) then sources_of scope t (m_ID (c_Memory c)) else [] |>) <$> cs.
Definition attachCandidateSources (scope : Scope) (set : CandidateSet) (st : statement) : res Error CandidateSet :=
  let ids := candidateIDs set in
  if decide (ids = []) then Ok set
  else
    let? t := rows_of "candidate sources" "scan candidate sources" "read candidate sources" st.2 st.1 in
    Ok (mkSet (attach ids scope t (Exact set)) (attach ids scope t (FullText set)) (attach ids scope t (Vector set))).
Definition copyCandidateSet (set : CandidateSet) : CandidateSet :=
  let copy cs := (λ c, c <| c_Sources := MemStore.copySources (c_Sources c) |>) <$> cs in
  mkSet (copy (Exact set)) (copy (FullText set)) (copy (Vector set)).

Definition no_candidates : CandidateSet := mkSet [] [] [].
Definition when {A} (limit : Z) (a : res Error (list A)) : res Error (list A) := if 0 <? limit then a else Ok [].
(** The sources are fetched for what was found; an error of the vector channel comes with them. *)
Definition with_sources (scope : Scope) (set : CandidateSet) (vectorErr : option Error) (st : statement) : CandidateSet * option Error :=
  match attachCandidateSources scope set st with
  | Err e => (no_candidates, Some e)
  | Ok set => (copyCandidateSet set, vectorErr)
  end.
(** [db n] is the statement of the [n]-th query of the method. *)
Definition SearchCandidates (ctx : Ctx) (db : nat → statement) (q : CandidateQuery) : CandidateSet * option Error :=
  match live ctx (let? _ := ValidateCandidateQuery q limits in
    check (negb ((0 <? VectorLimit q) && negb (bool_decide (EmbeddingProfileID q = profile ∧ EmbeddingDimensions q = dimensions)))) ErrInvalidMemory) with
  | Err e => (no_candidates, Some e)
  | Ok _ =>
      match when (ExactLimit q) (searchExact q (db 0%nat)) with
      | Err e => (no_candidates, Some e)
      | Ok exact =>
          match when (FullTextLimit q) (searchFullText q (db 1%nat)) with
          | Err e => (no_candidates, Some e)
          | Ok fullText =>
              match when (VectorLimit q) (searchVector q (db 2%nat)) with
              | Ok vector => with_sources (q_Scope q) (mkSet exact fullText vector) None (db 3%nat)
              | Err e =>
                  let '(set, err) := vectorChannelResult (mkSet exact fullText []) e in
                  if negb (IsRecoverable err) then (no_candidates, Some err) else with_sources (q_Scope q) set (Some err) (db 3%nat)
              end
          end
      end
  end.

(** * The memory store *)

(** Texts are in a strict total order. *)
Context `{!StrictTotal text_lt}.
#[local] Instance pair_less_total : StrictTotal pair_less.
Proof.
  unfold pair_less. split.
  - intros x. rewrite decide_True by done. apply (st_irrefl (less := text_lt)).
  - intros x y z Hxy Hyz. destruct (decide (x.1 = y.1)) as [E|E], (decide (y.1 = z.1)) as [F|F].
    + rewrite decide_True by congruence. by eapply (st_trans (less := text_lt)).
    + rewrite decide_False by congruence. by rewrite E.
    + rewrite decide_False by congruence. by rewrite <-F.
    + assert (text_lt x.1 z.1) as Hxz by by eapply (st_trans (less := text_lt)).
      rewrite decide_False; [done|]. intros G. rewrite G in Hxz. by eapply (st_irrefl (less := text_lt)).
  - intros [a b] [c d] Hne. simpl. destruct (decide (a = c)) as [->|Hac].
    + rewrite decide_True by done. apply (st_total (less := text_lt)). congruence.
    + rewrite decide_False by congruence. by apply (st_total (less := text_lt)).
Qed.

Context (Sum256 : string → MemStore.Digest).
Definition in_order (t : table) : Prop := ∀ id e, t !! id = Some e → PgMemory.e_id e = id ∧ PgMemory.good Sum256 e.
(** What the memory store has in place of the tables, with the sources in the order in which they were given. *)
Definition store_of (t : table) : MemStore.Store :=
  MemStore.mkStore limits (scanMemory <$> t) (PgMemory.e_sources <$> t)
    ((λ e, reverse (newest_first e)) <$> t) ∅ ∅.
Definition never : nat → Ctx := λ _, None.

(** The second version of the schema adds the grams as a column that is empty at first. *)
Definition backfillSearchGrams (t : table) : table :=
  (λ e, let grams := PgMemory.searchGrams (m_Key (scanMemory e)) (m_Content (scanMemory e)) in
        if decide (grams = []) then e
        else e <| PgMemory.e_row := PgMemory.mkRow (PgMemory.r_memory (PgMemory.e_row e)) (PgMemory.content_hash (PgMemory.e_row e)) grams |>) <$> t.
Lemma backfilled t id e : backfillSearchGrams t !! id = Some e → (∀ e0, t !! id = Some e0 → PgMemory.search_grams (PgMemory.e_row e0) = []) →
  PgMemory.search_grams (PgMemory.e_row e) = PgMemory.searchGrams (m_Key (scanMemory e)) (m_Content (scanMemory e)).
Proof.
  unfold backfillSearchGrams. rewrite lookup_fmap. intros (e0 & He & ->)%fmap_Some Hempty. case_decide as Hg; [|done]. by rewrite (Hempty _ He), Hg.
Qed.

Lemma first_match_at t scope id : in_order t →
  PgMemory.first_match (PgMemory.at_scope scope id) t =
  match t !! id with Some e => if decide (m_Scope (scanMemory e) = scope) then Some e else None | None => None end.
Proof.
  intros Ht. destruct (PgMemory.first_match (PgMemory.at_scope scope id) t) as [e|] eqn:Hf.
  - apply PgMemory.first_match_Some in Hf as [[Hs Hid]%bool_decide_eq_true [id' He]]. destruct (Ht _ _ He) as [He' _].
    assert (id' = id) as -> by congruence. rewrite He. by rewrite decide_True.
  - destruct (t !! id) as [e|] eqn:He; [|done]. case_decide as Hs; [|done]. exfalso. destruct (Ht _ _ He) as [Hid _].
    unfold PgMemory.first_match in Hf. apply head_None in Hf. apply filter_nil_Forall in Hf. rewrite Forall_forall in Hf.
    apply (Hf e); [|by apply bool_decide_eq_true]. apply list_elem_of_fmap. exists (id, e). split; [done|]. by apply elem_of_map_to_list.
Qed.

Lemma limit_to_take {A} n (l : list A) : MemStore.limit_to n l = take (Z.to_nat n) l.
Proof. unfold MemStore.limit_to. case_match eqn:Hn; [done|]. rewrite take_ge; [done|]. lia. Qed.
Lemma memories_list t : map_to_list (MemStore.memories (store_of t)) = prod_map id scanMemory <$> map_to_list t.
Proof. apply map_to_list_fmap. Qed.
Lemma memories_entries t : (map_to_list (MemStore.memories (store_of t))).*2 = scanMemory <$> entries t.
Proof. rewrite memories_list. unfold entries. rewrite <- !list_fmap_compose. done. Qed.

Lemma Get_agrees t scope id : in_order t → Get None (t, None) scope id = MemStore.Get uuid_Parse never (store_of t) scope id.
Proof.
  intros Ht. unfold Get, MemStore.Get, MemStore.guarded. simpl. destruct (MemStore.validateIdentity uuid_Parse scope id); [|done]. simpl.
  rewrite first_match_at by done. unfold MemStore.scoped. simpl. rewrite lookup_fmap. destruct (t !! id) as [e|]; [|done]. simpl.
  by repeat case_decide.
Qed.
Lemma in_scope_eq scope e : in_scope scope e ↔ m_Scope (scanMemory e) = scope.
Proof. unfold in_scope. destruct (m_Scope (scanMemory e)), scope. simpl. naive_solver. Qed.
Lemma list_where_matches q e : list_where q e ↔ MemStore.list_matches q (scanMemory e).
Proof.
  unfold list_where, MemStore.list_matches, list_conditions. rewrite in_scope_eq, !Forall_app.
  assert (∀ a b : string, Forall (λ c : string * string, c.1 = c.2) (if decide (b ≠ "") then [(a, b)] else []) ↔ b = "" ∨ a = b) as Hc.
  { intros a b. case_decide as Hb; [rewrite Forall_singleton; simpl; tauto|]. split; [by left|by constructor]. }
  by rewrite !Hc.
Qed.
Lemma List_agrees t q : List None (t, None) q = MemStore.List never (store_of t) q.
Proof.
  unfold List, MemStore.List, MemStore.guarded. simpl. destruct (ValidateListQuery q limits); [|done]. simpl. rewrite limit_to_take.
  change (scanMemory <$> t) with (MemStore.memories (store_of t)). rewrite memories_entries, filter_fmap_comm, fmap_take. do 2 f_equal.
  rewrite (sort_slice_fmap MemStore.list_less list_order).
  - f_equal. f_equal. apply filter_ext_in. intros e _. apply list_where_matches.
  - intros e e' _ _. unfold list_order, MemStore.list_less, After, PgMemory.e_id. case_decide; naive_solver lia.
Qed.
Lemma Revisions_agrees t q : in_order t → Revisions None (t, None) (t, None) q = MemStore.Revisions uuid_Parse never (store_of t) q.
Proof.
  intros Ht. unfold Revisions, MemStore.Revisions, MemStore.guarded. simpl. destruct (ValidateRevisionQuery _ _ _) eqn:Hv; [|done]. simpl.
  rewrite first_match_at by done. unfold MemStore.scoped. simpl. rewrite !lookup_fmap. destruct (t !! rq_MemoryID q) as [e|]; [|done]. simpl.
  destruct (decide (m_Scope (scanMemory e) = rq_Scope q)) as [Hs|Hs]; [|by rewrite decide_True]. rewrite decide_False by tauto. simpl. rewrite reverse_involutive. f_equal. f_equal. apply list_filter_iff. intros r.
  unfold ValidateRevisionQuery in Hv. destruct (Limits_Validate _); [|done]. simpl in Hv. destruct (Scope_Validate _); [|done]. simpl in Hv.
  destruct (ValidateMemoryID _ _); [|done]. simpl in Hv. unfold check in Hv. destruct (BeforeVersion q <? 0) eqn:Hb; [done|]. lia.
Qed.

(** ** Recall by keys and text *)

(** The word parser of the database finds in the texts of the table the words of the query that memorykit finds, and [|] is a disjunction. *)
Definition words_agree (q : CandidateQuery) (t : table) : Prop :=
  let words := (Search.SearchTerms (q_Text q)).1 in
  ∀ e, e ∈ entries t →
    (∀ w, w ∈ words → tsmatch (scanMemory e) (quotedLexeme w) = true ↔ w ∈ (Search.splitSearchTerms (memory_text (scanMemory e)) max_int64 0).1) ∧
    (tsmatch (scanMemory e) (String.concat " | " (quotedLexemes words)) = true ↔ Exists (λ w, tsmatch (scanMemory e) w = true) (quotedLexemes words)).

Definition words_agreeb (q : CandidateQuery) (t : table) : bool :=
  let words := (Search.SearchTerms (q_Text q)).1 in
  forallb (λ e,
    forallb (λ w, Bool.eqb (tsmatch (scanMemory e) (quotedLexeme w)) (bool_decide (w ∈ (Search.splitSearchTerms (memory_text (scanMemory e)) max_int64 0).1))) words &&
    Bool.eqb (tsmatch (scanMemory e) (String.concat " | " (quotedLexemes words))) (bool_decide (Exists (λ w, tsmatch (scanMemory e) w = true) (quotedLexemes words))))
    (entries t).
Lemma words_agreeb_true q t : words_agreeb q t = true → words_agree q t.
Proof.
  intros Hb e He%list_elem_of_In. apply forallb_forall with (x := e) in Hb; [|done]. apply andb_true_iff in Hb as [Hb Hor%eqb_prop].
  split; [|by rewrite Hor, bool_decide_eq_true]. intros w Hw%list_elem_of_In. apply forallb_forall with (x := w) in Hb as Hb%eqb_prop; [|done].
  by rewrite Hb, bool_decide_eq_true.
Qed.

Lemma entries_spec t e : in_order t → e ∈ entries t → PgMemory.good Sum256 e.
Proof. intros Ht ([id e'] & -> & He%elem_of_map_to_list)%list_elem_of_fmap. by apply (Ht id). Qed.

Lemma recallable_visible q e : PgMemory.good Sum256 e → recallable q e ↔ MemStore.visible q (scanMemory e).
Proof.
  intros Hg. unfold recallable, MemStore.visible. cbv zeta. rewrite in_scope_eq, length_zero_iff_nil. change StatusActive with "active".
  pose proof (PgMemory.g_cut _ _ Hg) as Hc.
  assert (∃ a b, m_ValidFrom (scanMemory e) = a * 1000 ∧ m_ValidUntil (scanMemory e) = b * 1000) as (a & b & Ha & Hb).
  { rewrite <- Hc. unfold PgMemory.cut, Postgres.timestamptz. simpl. eauto. }
  unfold Before, IsZero, Postgres.timestamptz. rewrite Ha, Hb. pose proof (Z.div_mod (q_Now q) 1000 ltac:(lia)). pose proof (Z.mod_pos_bound (q_Now q) 1000 ltac:(lia)).
  split; intros (? & ? & ? & ? & ?); repeat split; try done; lia.
Qed.

Lemma hits_agree q t e : words_agree q t → e ∈ entries t →
  hits (Search.SearchTerms (q_Text q)).1 (Search.SearchTerms (q_Text q)).2 e = MemStore.term_hits q (scanMemory e).
Proof.
  intros Hw He. unfold hits, MemStore.term_hits. specialize (Hw e He) as [Hw _]. destruct (Search.SearchTerms (q_Text q)) as [words grams]. simpl in *.
  unfold Search.CountSearchTermHits. f_equal. f_equal. unfold quotedLexemes. rewrite filter_fmap_comm, length_fmap. f_equal.
  apply filter_ext_in. exact Hw.
Qed.

(** The indexes miss no memory that matches a term. *)
Lemma indexed_complete `{!Search.UnicodeLaws U} q t e : in_order t → words_agree q t → e ∈ entries t →
  0 < hits (Search.SearchTerms (q_Text q)).1 (Search.SearchTerms (q_Text q)).2 e → indexed (Search.SearchTerms (q_Text q)).1 (Search.SearchTerms (q_Text q)).2 e.
Proof.
  intros Ht Hw He Hh. specialize (Hw e He) as [_ Hor]. pose proof (PgMemory.g_grams _ _ (entries_spec _ _ Ht He)) as Hgrams.
  unfold hits in Hh. destruct (filter _ (quotedLexemes _)) as [|w l] eqn:Hf.
  - right. destruct (filter _ (Search.SearchTerms _).2) as [|g l] eqn:Hg; [simpl in Hh; lia|].
    assert (g ∈ g :: l) as Hin by left. rewrite <- Hg in Hin. apply list_elem_of_filter in Hin as [Hc Hin].
    apply Exists_exists. exists g. split; [done|]. rewrite Hgrams. unfold PgMemory.searchGrams.
    by apply (Search.IndexGrams_exact _ _ _ Hin).
  - left. assert (w ∈ w :: l) as Hin by left. rewrite <- Hf in Hin. apply list_elem_of_filter in Hin as [Hm Hin].
    unfold anyLexeme. destruct (Search.SearchTerms (q_Text q)).1 as [|w0 words]; [by apply not_elem_of_nil in Hin|].
    apply Hor. apply Exists_exists. eauto.
Qed.

(** Both stores go through the rows in one order. *)
Definition candidate_of (t : table) (x : string * PgMemory.entry) : Candidate := MemStore.plain_candidate (store_of t) (x.1, scanMemory x.2).
Definition row_less (a b : string * PgMemory.entry) : Prop := metadata_less (scanMemory a.2) (scanMemory b.2).
#[local] Instance row_less_dec a b : Decision (row_less a b).
Proof. unfold row_less. apply _. Defined.
Definition sourced (t : table) (scope : Scope) (cs : list Candidate) : list Candidate :=
  (λ c, c <| c_Sources := sources_of scope t (m_ID (c_Memory c)) |>) <$> cs.

Lemma found_rows t q : MemStore.found (store_of t) q = prod_map id scanMemory <$> filter (λ x, MemStore.visible q (scanMemory x.2)) (map_to_list t).
Proof. unfold MemStore.found. rewrite memories_list, filter_fmap_comm. done. Qed.
Lemma row_entry t x : x ∈ map_to_list t → x.2 ∈ entries t.
Proof. intros Hx. apply list_elem_of_fmap. by exists x. Qed.
Lemma filter_entries t (P : PgMemory.entry → Prop) `{∀ e, Decision (P e)} : filter P (entries t) = (filter (λ x, P x.2) (map_to_list t)).*2.
Proof. apply filter_fmap_comm. Qed.

(** A candidate of one store and one of the other: the same, with the sources, which the memory store keeps as they were given, in
order. *)
Definition same_candidate (c c' : Candidate) : Prop :=
  c_Memory c = c_Memory c' ∧ c_Channel c = c_Channel c' ∧ Rank c = Rank c' ∧ Similarity c = Similarity c' ∧
  c_Sources c ≡ₚ c_Sources c' ∧ StronglySorted (not_after (key_less pair_less (λ s, (s_Ref s, s_Kind s)))) (c_Sources c).
Definition same_set (set set' : CandidateSet) : Prop :=
  Forall2 same_candidate (Exact set) (Exact set') ∧ Forall2 same_candidate (FullText set) (FullText set') ∧
  Forall2 same_candidate (Vector set) (Vector set').

Lemma Forall2_imap {A B C} (R : B → C → Prop) (f : nat → A → B) (g : nat → A → C) (l : list A) :
  (∀ i x, l !! i = Some x → R (f i x) (g i x)) → Forall2 R (imap f l) (imap g l).
Proof.
  revert f g. induction l as [|x l IH]; intros f g Hfg; [constructor|]. rewrite !imap_cons.
  constructor; [by apply Hfg|]. apply IH. intros i y Hy. by apply (Hfg (S i)).
Qed.

Lemma ranked t scope n channel L :
  in_order t → (∀ x, x ∈ L → x ∈ map_to_list t ∧ m_Scope (scanMemory x.2) = scope) →
  Forall2 same_candidate (sourced t scope (scanCandidates channel (plain <$> take (Z.to_nat n) L.*2)))
    (MemStore.rankCandidates (candidate_of t <$> L) n channel).
Proof.
  intros Ht HL. unfold MemStore.rankCandidates. fold (MemStore.limit_to n (candidate_of t <$> L)). rewrite limit_to_take, <- !fmap_take.
  unfold sourced, scanCandidates. rewrite fmap_imap, !imap_fmap. apply Forall2_imap. intros i [id e] Hx.
  apply list_elem_of_lookup_2, elem_of_take in Hx as (j & Hx & _). apply list_elem_of_lookup_2, HL in Hx as [Hx%elem_of_map_to_list Hs].
  destruct (Ht _ _ Hx) as [Hid _]. unfold candidate_of, MemStore.plain_candidate, sources_of, same_candidate. simpl in *.
  change (m_ID (scanMemory e)) with (PgMemory.e_id e). rewrite lookup_fmap, Hid, Hx. simpl. rewrite decide_True by done.
  split_and!; [done..|apply sort_slice_perm|apply (sort_key_sorted pair_less)].
Qed.

Lemma Sources_agrees t scope id : in_order t →
  match MemStore.Sources uuid_Parse never (store_of t) scope id with
  | Ok l => ∃ l', Sources None (t, None) (t, None) scope id = Ok l' ∧ l' ≡ₚ l ∧
      StronglySorted (not_after (key_less pair_less (λ s, (s_Kind s, s_Ref s)))) l'
  | Err e => Sources None (t, None) (t, None) scope id = Err e
  end.
Proof.
  intros Ht. unfold Sources, MemStore.Sources, MemStore.guarded. simpl. destruct (MemStore.validateIdentity uuid_Parse scope id); [|done]. simpl.
  rewrite first_match_at by done. unfold MemStore.scoped. simpl. rewrite !lookup_fmap. destruct (t !! id) as [e|]; [|done]. simpl.
  destruct (decide (m_Scope (scanMemory e) = scope)) as [Hs|Hs]; [|by rewrite decide_True]. rewrite decide_False by tauto. simpl.
  eexists. split_and!; [done|apply sort_slice_perm|apply (sort_key_sorted pair_less)].
Qed.

Lemma metadata_agrees t a b : row_less a b ↔ MemStore.candidateMetadataLess (candidate_of t a) (candidate_of t b).
Proof.
  unfold row_less, metadata_less, MemStore.candidateMetadataLess, candidate_of. simpl. unfold After. repeat case_decide; naive_solver lia.
Qed.

Lemma exact_agrees t q : in_order t →
  ∃ L, searchExact q (t, None) = Ok (scanCandidates ChannelExact (plain <$> take (Z.to_nat (ExactLimit q)) L.*2)) ∧
    (0 < ExactLimit q → sort_slice MemStore.candidateMetadataLess (MemStore.exact_candidates (store_of t) q) = candidate_of t <$> L) ∧
    ∀ x, x ∈ L → x ∈ map_to_list t ∧ m_Scope (scanMemory x.2) = q_Scope q.
Proof.
  intros Ht. set (L0 := filter (λ x, recallable q x.2 ∧ m_Key (scanMemory x.2) ∈ q_Keys q) (map_to_list t)).
  exists (sort_slice row_less L0). split; [|split].
  - unfold searchExact. simpl. rewrite filter_entries.
    rewrite (sort_slice_fmap (λ a b, metadata_less (scanMemory a) (scanMemory b)) row_less); [done|done].
  - intros Hn. unfold MemStore.exact_candidates. rewrite (proj2 (Z.ltb_lt _ _) Hn), found_rows, filter_fmap_comm, <- list_fmap_compose.
    change (MemStore.plain_candidate (store_of t) ∘ prod_map id scanMemory) with (candidate_of t).
    rewrite (sort_slice_fmap _ row_less) by (intros; apply metadata_agrees). f_equal. f_equal. rewrite list_filter_filter. apply filter_ext_in.
    intros x Hx. simpl. rewrite (recallable_visible q x.2) by (eapply entries_spec; [done|by apply row_entry]). tauto.
  - intros x [[Hr _] Hx]%elem_of_sort_slice%list_elem_of_filter. split; [done|]. apply in_scope_eq, Hr.
Qed.

(** The rows with a hit. *)
Definition hit_rows (q : CandidateQuery) (t : table) : list (string * PgMemory.entry) :=
  filter (λ x, 0 < MemStore.term_hits q (scanMemory x.2)) (filter (λ x, MemStore.visible q (scanMemory x.2)) (map_to_list t)).
Lemma hit_rows_in q t x : x ∈ hit_rows q t → x ∈ map_to_list t ∧ MemStore.visible q (scanMemory x.2).
Proof. intros [_ [? ?]%list_elem_of_filter]%list_elem_of_filter. done. Qed.
Lemma hitting_rows q t : 0 < FullTextLimit q → MemStore.hitting (store_of t) q = prod_map id scanMemory <$> hit_rows q t.
Proof. intros Hn. unfold MemStore.hitting. by rewrite (proj2 (Z.ltb_lt _ _) Hn), found_rows, filter_fmap_comm. Qed.

Section full_text.
Context (q : CandidateQuery) (t : table) `{!Search.UnicodeLaws U} (Ht : in_order t) (Hw : words_agree q t).
#[local] Definition words : list string := (Search.SearchTerms (q_Text q)).1.
#[local] Definition grams : list string := (Search.SearchTerms (q_Text q)).2.

Lemma scored_rows : scored q words grams t = (hit_rows q t).*2.
Proof.
  unfold scored, hit_rows. rewrite filter_entries, filter_fmap_comm, !list_filter_filter. f_equal. apply filter_ext_in.
  intros x Hx%row_entry. rewrite (recallable_visible q x.2) by (by eapply entries_spec). unfold words, grams. rewrite (hits_agree q t) by done.
  split; [tauto|]. intros [Hh Hv]. split; [done|]. split; [done|]. apply (indexed_complete q t); [done..|]. by rewrite (hits_agree q t).
Qed.
Lemma hit_rows_hits x : x ∈ hit_rows q t → hits words grams x.2 = MemStore.term_hits q (scanMemory x.2).
Proof. intros [Hx _]%hit_rows_in. by apply (hits_agree q t), row_entry. Qed.
Lemma hits_by_id_rows x : 0 < FullTextLimit q → x ∈ hit_rows q t →
  default 0 (MemStore.hits_by_id (store_of t) q !! m_ID (c_Memory (candidate_of t x))) = hits words grams x.2.
Proof.
  intros Hn Hx. rewrite hit_rows_hits by done. unfold MemStore.hits_by_id. rewrite hitting_rows by done.
  pose proof (hit_rows_in _ _ _ Hx) as [Hin _]. destruct x as [id e]. apply elem_of_map_to_list in Hin. destruct (Ht _ _ Hin) as [Hid _].
  unfold candidate_of. simpl. change (m_ID (scanMemory e)) with (PgMemory.e_id e). rewrite Hid.
  rewrite (elem_of_list_to_map_1 _ id (MemStore.term_hits q (scanMemory e))); [done|..].
  - rewrite <- !list_fmap_compose. apply (sublist_NoDup _ ((map_to_list t).*1)); [apply NoDup_fst_map_to_list|].
    apply (fmap_sublist (λ x : string * PgMemory.entry, x.1)). unfold hit_rows. etrans; apply sublist_filter.
  - apply list_elem_of_fmap. exists (id, scanMemory e). split; [done|]. apply list_elem_of_fmap. by exists (id, e).
Qed.

#[local] Definition hit_less (a b : string * PgMemory.entry) : Prop := full_text_less words grams a.2 b.2.
#[local] Instance hit_less_dec a b : Decision (hit_less a b).
Proof. unfold hit_less. apply _. Defined.
Lemma full_text_agrees : 0 < FullTextLimit q →
  ∃ L, searchFullText q (t, None) = Ok (scanCandidates ChannelFullText (plain <$> take (Z.to_nat (FullTextLimit q)) L.*2)) ∧
    sort_slice (MemStore.fullTextLess (MemStore.hits_by_id (store_of t) q)) (MemStore.full_text_candidates (store_of t) q) = candidate_of t <$> L ∧
    ∀ x, x ∈ L → x ∈ map_to_list t ∧ m_Scope (scanMemory x.2) = q_Scope q.
Proof.
  intros Hn. set (best := best_hits words grams (hit_rows q t).*2).
  set (L0 := filter (λ x, best < hits words grams x.2 * 2) (hit_rows q t)).
  exists (sort_slice hit_less L0). split; [|split].
  - pose proof scored_rows as Hs. unfold searchFullText. rewrite (surjective_pairing (Search.SearchTerms (q_Text q))). fold words grams.
    case_decide as Hnone.
    + destruct Hnone as [Hws Hgs]. assert (hit_rows q t = []) as Hnil; [|unfold L0; rewrite Hnil; simpl; by rewrite take_nil].
      apply filter_nil_Forall, Forall_forall. intros x _ Hx. unfold MemStore.term_hits in Hx.
      rewrite (surjective_pairing (Search.SearchTerms (q_Text q))) in Hx. fold words grams in Hx. rewrite Hws, Hgs in Hx.
      unfold Search.CountSearchTermHits in Hx. simpl in Hx. lia.
    + cbv zeta. simpl fst. rewrite Hs, filter_fmap_comm. rewrite (sort_slice_fmap (full_text_less words grams) hit_less) by done. done.
  - assert (foldr Z.max 0 ((λ e, MemStore.term_hits q e.2) <$> MemStore.hitting (store_of t) q) = best) as Hbest.
    { rewrite hitting_rows by done. unfold best, best_hits. f_equal. rewrite <- !list_fmap_compose. apply list_fmap_ext. intros i x Hx%list_elem_of_lookup_2. simpl.
      by rewrite hit_rows_hits. }
    unfold MemStore.full_text_candidates. rewrite Hbest, hitting_rows by done. rewrite <- list_fmap_compose.
    change (MemStore.plain_candidate (store_of t) ∘ prod_map id scanMemory) with (candidate_of t).
    rewrite filter_fmap_comm. rewrite (filter_ext_in _ (λ x, best < hits words grams x.2 * 2)) by (intros x Hx; by rewrite hits_by_id_rows).
    apply sort_slice_fmap. intros a b [_ Ha]%list_elem_of_filter [_ Hb]%list_elem_of_filter. unfold MemStore.fullTextLess.
    rewrite !hits_by_id_rows by done. unfold hit_less, full_text_less. case_decide; [lia|]. rewrite <- metadata_agrees. unfold row_less. naive_solver lia.
  - intros x [_ Hx]%elem_of_sort_slice%list_elem_of_filter. apply hit_rows_in in Hx as [Hx Hv]. split; [done|apply Hv].
Qed.
End full_text.

Lemma fold_ids (l : list Candidate) ids id :
  id ∈ ids ∨ (∃ c, c ∈ l ∧ id = m_ID (c_Memory c)) →
  id ∈ foldl (λ ids c, if decide (m_ID (c_Memory c) ∈ ids) then ids else ids ++ [m_ID (c_Memory c)]) ids l.
Proof.
  revert ids. induction l as [|c l IH]; intros ids; simpl; [by intros [?|(? & ?%not_elem_of_nil & _)]|].
  intros [Hid|(c' & [->|Hc']%elem_of_cons & ->)]; apply IH; [left..|right; eauto]; (case_decide; [done|]); apply elem_of_app; [by left|right].
  by apply list_elem_of_singleton.
Qed.
Lemma candidateIDs_complete set c : c ∈ Exact set ++ FullText set ++ Vector set → m_ID (c_Memory c) ∈ candidateIDs set.
Proof. intros Hc. apply fold_ids. right. eauto. Qed.
Lemma attach_sourced ids scope t cs : (∀ c, c ∈ cs → m_ID (c_Memory c) ∈ ids) → attach ids scope t cs = sourced t scope cs.
Proof. intros Hin. apply list_fmap_ext. intros i c Hc%list_elem_of_lookup_2. simpl. by rewrite decide_True by auto. Qed.
Lemma copy_sourced t scope cs : (λ c, c <| c_Sources := MemStore.copySources (c_Sources c) |>) <$> sourced t scope cs = sourced t scope cs.
Proof. unfold sourced. rewrite <- list_fmap_compose. done. Qed.
Lemma with_sources_ok scope set err t :
  with_sources scope set err (t, None) = (mkSet (sourced t scope (Exact set)) (sourced t scope (FullText set)) (sourced t scope (Vector set)), err).
Proof.
  pose proof (candidateIDs_complete set) as Hids. unfold with_sources, attachCandidateSources. case_decide as Hnil.
  - rewrite Hnil in Hids. destruct set as [a b c]; simpl in *. destruct (a ++ b ++ c) as [|x l] eqn:Happ; [|by destruct (not_elem_of_nil _ (Hids x ltac:(left)))].
    apply app_nil in Happ as [-> [-> ->]%app_nil]. done.
  - simpl. unfold copyCandidateSet. simpl. rewrite !attach_sourced, !copy_sourced by (intros; apply Hids; set_solver). done.
Qed.

Lemma Search_agrees `{!Search.UnicodeLaws U} t q : in_order t → VectorLimit q = 0 → words_agree q t →
  match MemStore.SearchCandidates Sum256 never (store_of t) q with
  | Ok set => ∃ set', SearchCandidates None (λ _, (t, None)) q = (set', None) ∧ same_set set' set
  | Err e => SearchCandidates None (λ _, (t, None)) q = (no_candidates, Some e)
  end.
Proof.
  intros Ht Hv Hw. unfold SearchCandidates, MemStore.SearchCandidates, MemStore.guarded. simpl. rewrite Hv. simpl.
  destruct (ValidateCandidateQuery q limits) as [[]|e]; [|done]. simpl.
  destruct (exact_agrees t q Ht) as (L & HL & Hsort & Hin). unfold MemStore.search_locked, when. rewrite Hv. simpl.
  assert (MemStore.rankCandidates (sort_slice MemStore.vectorLess (MemStore.vector_candidates Sum256 (store_of t) q)) 0 ChannelVector = []) as ->.
  { unfold MemStore.vector_candidates. by rewrite Hv. }
  assert (∀ n channel, MemStore.rankCandidates [] n channel = []) as Hnil.
  { intros n channel. unfold MemStore.rankCandidates. case_match; [|done]. by rewrite take_nil. }
  assert (∃ exact, (if 0 <? ExactLimit q then searchExact q (t, None) else Ok []) = Ok exact ∧
    Forall2 same_candidate (sourced t (q_Scope q) exact)
      (MemStore.rankCandidates (sort_slice MemStore.candidateMetadataLess (MemStore.exact_candidates (store_of t) q)) (ExactLimit q) ChannelExact))
    as (exact & -> & Hexact).
  { destruct (0 <? ExactLimit q) eqn:Hn.
    - eexists. split; [exact HL|]. rewrite Hsort by lia. by apply ranked.
    - exists []. split; [done|]. unfold MemStore.exact_candidates. rewrite Hn. simpl. rewrite Hnil. constructor. }
  assert (∃ full, (if 0 <? FullTextLimit q then searchFullText q (t, None) else Ok []) = Ok full ∧
    Forall2 same_candidate (sourced t (q_Scope q) full)
      (MemStore.rankCandidates (sort_slice (MemStore.fullTextLess (MemStore.hits_by_id (store_of t) q)) (MemStore.full_text_candidates (store_of t) q)) (FullTextLimit q) ChannelFullText))
    as (full & -> & Hfull).
  { destruct (0 <? FullTextLimit q) eqn:Hn.
    - destruct (full_text_agrees q t Ht Hw ltac:(lia)) as (L' & HL' & Hsort' & Hin'). eexists. split; [exact HL'|]. rewrite Hsort'. by apply ranked.
    - exists []. split; [done|]. unfold MemStore.full_text_candidates, MemStore.hitting. rewrite Hn. simpl. rewrite Hnil. constructor. }
  rewrite with_sources_ok. eexists. split; [done|]. split_and!; [done|done|constructor].
Qed.

(** A vector query that fails for a passing reason costs the vector channel only; any other failure costs the whole recall. *)
Lemma vector_failure db q e exact full :
  ValidateCandidateQuery q limits = Ok () → EmbeddingProfileID q = profile → EmbeddingDimensions q = dimensions → 0 < VectorLimit q →
  when (ExactLimit q) (searchExact q (db 0%nat)) = Ok exact → when (FullTextLimit q) (searchFullText q (db 1%nat)) = Ok full → (db 2%nat).2 = Some (AtQuery e) →
  let err := wrapBackend "vector candidates" e in
  SearchCandidates None db q =
  if IsRecoverable err then with_sources (q_Scope q) (mkSet exact full []) (Some (ChannelError ChannelVector err)) (db 3%nat) else (no_candidates, Some err).
Proof.
  intros Hval Hp Hd Hn Hex Hft Hf err. unfold SearchCandidates. simpl. rewrite Hval. simpl. rewrite bool_decide_true, andb_false_r by done. simpl.
  rewrite Hex, Hft. unfold when. rewrite (proj2 (Z.ltb_lt _ _) Hn). unfold searchVector. rewrite Hf. simpl. fold err.
  unfold vectorChannelResult. destruct (IsRecoverable err) eqn:Hr; [|by rewrite Hr]. assert (IsRecoverable (ChannelError ChannelVector err) = true) as -> by done. done.
Qed.

(** C36: In every state the store can reach, reading a memory, listing memories, paging through revisions and recalling by keys and text answer
what the memory store answers for the same memories, ranks, cut-off and errors included; for recall by text the words that
PostgreSQL finds in the memories have to be the ones memorykit finds ([words_agree]). So the word and gram indexes of the query lose no match. Sources are
the same up to their order: the memory store gives them as the request had them, PostgreSQL by kind and reference, or by reference and kind with
candidates, in its order of texts, which is a strict total order. *)
Theorem postgres_reads_agree `{!Search.UnicodeLaws U} (Marshal : CreateRequest → option string) s :
  rtc (PgMemory.steps uuid_Parse Marshal Sum256 limits profile dimensions) PgMemory.started s →
  let t := PgMemory.rows s in
  (∀ scope id, Get None (t, None) scope id = MemStore.Get uuid_Parse never (store_of t) scope id) ∧
  (∀ q, List None (t, None) q = MemStore.List never (store_of t) q) ∧
  (∀ q, Revisions None (t, None) (t, None) q = MemStore.Revisions uuid_Parse never (store_of t) q) ∧
  (∀ scope id, match MemStore.Sources uuid_Parse never (store_of t) scope id with
     | Ok l => ∃ l', Sources None (t, None) (t, None) scope id = Ok l' ∧ l' ≡ₚ l ∧
         StronglySorted (not_after (key_less pair_less (λ s, (s_Kind s, s_Ref s)))) l'
     | Err e => Sources None (t, None) (t, None) scope id = Err e
     end) ∧
  (∀ q, VectorLimit q = 0 → words_agree q t →
     match MemStore.SearchCandidates Sum256 never (store_of t) q with
     | Ok set => ∃ set', SearchCandidates None (λ _, (t, None)) q = (set', None) ∧ same_set set' set
     | Err e => SearchCandidates None (λ _, (t, None)) q = (no_candidates, Some e)
     end).
Proof.
  intros Hs%PgMemory.reached_inv t. assert (in_order t) as Ht by exact (PgMemory.o_rows _ _ _ (PgMemory.i_ok _ _ Hs)).
  split; [intros; by apply Get_agrees|]. split; [intros; apply List_agrees|]. split; [intros; by apply Revisions_agrees|].
  split; [intros; by apply Sources_agrees|]. intros. by apply Search_agrees.
Qed.

End queries.

(** Two memories, one of them about the text of the query; the database finds no word in texts it does not know. *)
Definition sample_labels : list PgMemory.label :=
  [PgMemory.LCall None (PgMemory.RCreate (PgMemory.sample_create "m1" "k" StatusActive ""))] ++ PgMemory.fine 0 7 ++
  [PgMemory.LCall None (PgMemory.RCreate (PgMemory.sample_create "m2" "other" StatusActive ""))] ++ PgMemory.fine 1 7.
Definition sample_tsmatch (m : Memory) (query : string) : bool := bool_decide (query = quotedLexeme "other" ∧ m_ID m = "m2").
Definition sample_query : CandidateQuery := mkCandidateQuery PgMemory.sample_scope "other" ["k"] [] [] 5000700 5 5 0 (Num 0) "" 0.

Definition sample_search (t : table) : CandidateSet * option Error :=
  @SearchCandidates Search.sample_tables PgMemory.sample_limits "prof" 1 str_lt _ sample_tsmatch (λ _ _, 0%Q) None (λ _, (t, None)) sample_query.

Lemma postgres_reads_agree_witness :
  ∃ s, PgMemory.sample_run sample_labels PgMemory.started = Some s ∧
    (let found := (sample_search (PgMemory.rows s)).1 in ((λ c, m_ID (c_Memory c)) <$> Exact found, (λ c, m_ID (c_Memory c)) <$> FullText found)) = (["m1"], ["m2"]) ∧
    match @MemStore.SearchCandidates Search.sample_tables id never (store_of PgMemory.sample_limits (PgMemory.rows s)) sample_query with
    | Ok set => ∃ set', sample_search (PgMemory.rows s) = (set', None) ∧ same_set str_lt set' set
    | Err e => sample_search (PgMemory.rows s) = (no_candidates, Some e)
    end.
Proof.
  destruct (PgMemory.sample_run sample_labels PgMemory.started) as [s|] eqn:Hs; [|by vm_compute in Hs]. exists s.
  pose proof (@postgres_reads_agree Search.sample_tables Some PgMemory.sample_limits "prof" 1 str_lt _ sample_tsmatch (λ _ _, 0%Q) _ id Search.sample_laws
    PgMemory.sample_marshal s (@PgMemory.run_rtc _ _ _ _ _ _ _ _ _ _ Hs)) as (_ & _ & _ & _ & Hsearch).
  split; [done|]. vm_compute in Hs. injection Hs as <-. split; [vm_compute; reflexivity|]. apply Hsearch; [reflexivity|].
  apply words_agreeb_true. vm_compute. reflexivity.
Defined.

End PgQuery.
