(* ===== verification/PaddleText.v ===== *)
(** ocrs: responses of PaddleOCR ([src/ocrs/paddleocr/types.go], [merge.go], [extract.go]): the merge of the responses for the
chunks of a document, and the sections of a document as cleaned text.

A text is the list of its runes: what [encoding/json] decodes is valid UTF-8. The tables of package [unicode] for
letters, digits and Han are a class; white space and the classes of the regular expressions are written out, and each
expression is the function that its greedy match computes. JSON is a parameter. *)

From Stdlib Require Import QArith Strings.Byte.
From S2P Require Import Prelude Float64 GoUtf8 OcrChunking.
#[local] Open Scope Z_scope.

Module Paddle.

Abbreviation text := (list rune).
Abbreviation bytes := (list byte).

(** * Data *)

Record DocPreprocessorSettings := mkDocPreprocessorSettings { UseDocOrientationClassify : bool; UseDocUnwarping : bool }.
Record DocPreprocessorRes := mkDocPreprocessorRes { dp_ModelSettings : DocPreprocessorSettings; Angle : Z }.
Record LayoutBox := mkLayoutBox { ClsID : Z; lb_Label : text; Score : float64; Coordinate : list Z; Order : option Z }.
Record LayoutDetectionRes := mkLayoutDetectionRes { Boxes : list LayoutBox }.
Record ParsingBlock := mkBlock {
  BlockLabel : string; BlockContent : text; BlockBBox : list Z; BlockID : Z; BlockOrder : option Z; GroupID : Z
}.
Record ModelSettings := mkModelSettings {
  UseDocPreprocessor : bool; UseLayoutDetection : bool; UseChartRecognition : bool; UseSealRecognition : bool;
  UseOCRForImageBlock : bool; FormatBlockContent : bool; MergeLayoutBlocks : bool; MarkdownIgnoreLabels : list text
}.
Record PrunedResult := mkPruned {
  PageCount : Z; pr_Width : Z; pr_Height : Z; pr_ModelSettings : ModelSettings; ParsingResList : list ParsingBlock;
  pr_DocPreprocessorRes : DocPreprocessorRes; LayoutDetRes : LayoutDetectionRes
}.
Record MarkdownResult := mkMarkdown { md_Text : text; Images : gmap string text }.
Record LayoutParsingResult := mkLayout {
  lp_PrunedResult : PrunedResult; Markdown : MarkdownResult; OutputImages : gmap string text; InputImage : text
}.
Record PageInfo := mkPageInfo { pi_Width : Z; pi_Height : Z }.
Record DataInfo := mkDataInfo { NumPages : Z; Pages : list PageInfo; di_Type : string }.
Record OCRResult := mkOCRResult { LayoutParsingResults : list LayoutParsingResult; or_DataInfo : DataInfo; PreprocessedImages : list text }.
Record OCRResponse := mkOCRResponse { LogID : string; Result : OCRResult; ErrorCode : Z; ErrorMsg : text }.
#[global] Instance eta_DataInfo : Eta DataInfo := λ d, mkDataInfo (NumPages d) (Pages d) (di_Type d).
#[global] Instance eta_OCRResult : Eta OCRResult := λ r, mkOCRResult (LayoutParsingResults r) (or_DataInfo r) (PreprocessedImages r).
#[global] Instance eta_OCRResponse : Eta OCRResponse := λ r, mkOCRResponse (LogID r) (Result r) (ErrorCode r) (ErrorMsg r).

#[global] Instance OCRResponse_eq_dec : EqDecision OCRResponse.
Proof.
  assert (EqDecision Q) by solve_decision. assert (EqDecision DocPreprocessorRes) by (assert (EqDecision DocPreprocessorSettings) by solve_decision; solve_decision).
  assert (EqDecision LayoutDetectionRes) by (assert (EqDecision LayoutBox) by solve_decision; solve_decision).
  assert (EqDecision PrunedResult) by (assert (EqDecision ModelSettings) by solve_decision; assert (EqDecision ParsingBlock) by solve_decision; solve_decision).
  assert (EqDecision LayoutParsingResult) by (assert (EqDecision MarkdownResult) by solve_decision; solve_decision).
  assert (EqDecision DataInfo) by (assert (EqDecision PageInfo) by solve_decision; solve_decision). assert (EqDecision OCRResult) by solve_decision. solve_decision.
Defined.

(** What a provider returns ([ocrs.OCRResult]), and a piece of a document ([ocrs.ProcessedChunk]). *)
Record ProviderResult := mkProviderResult { Provider : string; Raw : bytes }.
Record ProcessedChunk := mkProcessed { pc_Index : Z; pc_Text : text }.

(** The error texts have parameters; [JErr] is an error of [encoding/json]. *)
Inductive Error {JErr : Type} :=
| ErrNoResults | ErrDecodeChunk (i : nat) (e : JErr) | ErrChunkAPI (i : nat) (code : Z) (msg : text) | ErrEncode (e : JErr)
| ErrNilResponse | ErrOCR (code : Z) (msg : text) | ErrJSON (e : JErr).
Arguments Error : clear implicits.

(** * Characters *)

Class Scripts := { is_han : rune → bool; is_letter : rune → bool; is_digit : rune → bool }.

(** [unicode.IsSpace]. *)
Definition IsSpace (r : rune) : bool :=
  between 9 r 13 || (r =? 32) || (r =? 133) || (r =? 160) || (r =? 5760) || between 8192 r 8202 || (r =? 8232) || (r =? 8233) ||
  (r =? 8239) || (r =? 8287) || (r =? 12288).
(** [\s] and [\d] of a regular expression. *)
Definition re_space (r : rune) : bool := (r =? 9) || (r =? 10) || (r =? 12) || (r =? 13) || (r =? 32).
Definition re_digit (r : rune) : bool := between 48 r 57.
Definition space : rune := 32.

(** [TrimSpace], [Fields] and the join of fields with a space. *)
Fixpoint trim_left (s : text) : text := match s with r :: s' => if IsSpace r then trim_left s' else s | [] => [] end.
Definition TrimSpace (s : text) : text := reverse (trim_left (reverse (trim_left s))).
Fixpoint fields_from (word : text) (s : text) : list text :=
  match s with
  | [] => match word with [] => [] | _ => [word] end
  | r :: s => if IsSpace r then match word with [] => fields_from [] s | _ => word :: fields_from [] s end
              else fields_from (word ++ [r]) s
  end.
Definition Fields (s : text) : list text := fields_from [] s.
Fixpoint Join (l : list text) : text :=
  match l with
  | [] => []
  | [w] => w
  | w :: l => w ++ space :: Join l
  end.

(** * Regular expressions *)

(** The runes at the start that satisfy [P], and the rest. *)
Fixpoint span (P : rune → bool) (s : text) : text * text :=
  match s with
  | r :: s' => if P r then let '(a, b) := span P s' in (r :: a, b) else ([], s)
  | [] => ([], [])
  end.
Definition after (r : rune) (s : text) : option text := match s with x :: s => if x =? r then Some s else None | [] => None end.
Definition blanks (s : text) : text := (span re_space s).2.
(** What follows a match of the expression at the start. *)
Definition match_citation (s : text) : option text :=   (* [\$\s*\^\{\[[\d\s,-]+\]\}\s*\$] *)
  s ← after 36 s; s ← after 94 (blanks s); s ← after 123 s; s ← after 91 s;
  let '(ids, s) := span (λ r, re_digit r || re_space r || (r =? 44) || (r =? 45)) s in
  if ids is [] then None else
  s ← after 93 s; s ← after 125 s; after 36 (blanks s).
Definition match_tag (s : text) : option text :=        (* [(?s)<[^>]*>] *)
  s ← after 60 s; after 62 (span (λ r, negb (r =? 62)) s).2.
Definition match_reference (s : text) : option text :=  (* [参\s*考\s*文\s*献] *)
  s ← after 21442 s; s ← after 32771 (blanks s); s ← after 25991 (blanks s); after 29486 (blanks s).
Definition full_stops : list rune := [65292; 12290; 65307; 65306; 65281; 65311; 12289].
Definition match_blanks (s : text) : option text :=     (* [\s+([，。；：！？、])], keeping the mark *)
  let '(ws, s) := span re_space s in
  if ws is [] then None else if s is r :: _ then if bool_decide (r ∈ full_stops) then Some s else None else None.

(** [ReplaceAllString] for an expression that never matches the empty text; the fuel is the length. *)
Fixpoint replace_all (fuel : nat) (m : text → option text) (by_ : text) (s : text) : text :=
  match fuel, s with
  | S fuel, r :: s' => match m s with Some rest => by_ ++ replace_all fuel m by_ rest | None => r :: replace_all fuel m by_ s' end
  | _, _ => []
  end.
Definition ReplaceAll (m : text → option text) (by_ : text) (s : text) : text := replace_all (length s) m by_ s.
Fixpoint MatchString (m : text → option text) (s : text) : bool :=
  bool_decide (is_Some (m s)) || match s with _ :: s => MatchString m s | [] => false end.

Definition citationRegex (s : text) : text := ReplaceAll match_citation [] s.
Definition htmlTagRegex (s : text) : text := ReplaceAll match_tag [space] s.
Definition fixPunctuationRegex (s : text) : text := ReplaceAll match_blanks [] s.

Section extract.
Context `{Scripts}.

(** * Cleaning *)

Definition word_rune (r : rune) : bool := is_han r || is_letter r || is_digit r.
Definition isAllowedTitleRune (r : rune) : bool := word_rune r || IsSpace r || (r =? 40) || (r =? 41).
Definition allowed_marks : list rune :=
  [37; 47; 45; 43; 46; 58; 59; 44; 65292; 12290; 65307; 65306; 65281; 65311; 12289; 40; 41; 65288; 65289; 91; 93; 12304; 12305; 12298; 12299].
Definition isAllowedRune (r : rune) : bool := word_rune r || IsSpace r || bool_decide (r ∈ allowed_marks).
Definition containsHan (s : text) : bool := existsb is_han s.

(** The loop of both cleaners: what is not allowed becomes a space, and runs of spaces one. *)
Fixpoint squeeze (allowed : rune → bool) (lastWasSpace : bool) (s : text) : text :=
  match s with
  | [] => []
  | r :: s =>
      if allowed r && negb (IsSpace r) then r :: squeeze allowed false s
      else if lastWasSpace then squeeze allowed true s else space :: squeeze allowed true s
  end.
Definition narrow_paren (r : rune) : rune := if r =? 65288 then 40 else if r =? 65289 then 41 else r.
Definition cleanTitleText (s : text) : text :=
  if s is [] then [] else
  Join (Fields (TrimSpace (squeeze isAllowedTitleRune false (narrow_paren <$> htmlTagRegex (citationRegex s))))).

Definition isCollapsiblePunctuation (r : rune) : bool :=
  bool_decide (r ∈ [65292; 12290; 65307; 65306; 65281; 65311; 12289; 33; 63; 44; 46; 59; 58]).
Fixpoint collapse (prev : option rune) (s : text) : text :=
  match s with
  | [] => []
  | r :: s => if bool_decide (prev = Some r) && isCollapsiblePunctuation r then collapse prev s else r :: collapse (Some r) s
  end.
Definition collapseRepeatedPunctuation (s : text) : text := collapse None s.
Definition cleanChunkText (s : text) : text :=
  if s is [] then [] else
  let out := TrimSpace (squeeze isAllowedRune false (htmlTagRegex (citationRegex s))) in
  Join (Fields (collapseRepeatedPunctuation (fixPunctuationRegex out))).

(** * Sections *)

Definition of_string (s : string) : text := string_runes s.

(** The variables of [parseStructuredChunks]. *)
Record Parse := mkParse {
  p_chunks : list ProcessedChunk; p_title : text; isChineseTitle : bool; globalChunkIdx : Z; currentTitle : text; currentBuffer : text
}.
#[global] Instance eta_Parse : Eta Parse := λ p,
  mkParse (p_chunks p) (p_title p) (isChineseTitle p) (globalChunkIdx p) (currentTitle p) (currentBuffer p).

Definition flushChunk (p : Parse) : Parse :=
  let text := cleanChunkText (TrimSpace (citationRegex (currentBuffer p))) in
  if decide (text = [] ∨ MatchString match_reference (currentTitle p) = true) then p <| currentBuffer := [] |>
  else
    let fullContent := TrimSpace (cleanChunkText (currentTitle p) ++ space :: text) in
    p <| p_chunks := p_chunks p ++ [mkProcessed (globalChunkIdx p) fullContent] |>
      <| globalChunkIdx := globalChunkIdx p + 1 |> <| currentBuffer := [] |>.

Definition heading (label : string) : bool := bool_decide (label ∈ ["doc_title"; "paragraph_title"; "abstract"]).
Definition body (label : string) : bool :=
  bool_decide (label ∈ ["text"; "table"; "reference_content"; "content"; "figure_title"; "table_title"]).
Definition parse_block (p : Parse) (block : ParsingBlock) : Parse :=
  let content := TrimSpace (BlockContent block) in
  if decide (content = []) then p
  else
    let p := if bool_decide (BlockLabel block = "doc_title") && negb (isChineseTitle p)
             then p <| p_title := cleanTitleText content |> <| isChineseTitle := containsHan content |> else p in
    if heading (BlockLabel block) then (flushChunk p) <| currentTitle := content |>
    else if body (BlockLabel block) then p <| currentBuffer := currentBuffer p ++ content ++ [10] |>
    else p.

Context {JErr : Type}.

Definition parseStructuredChunks (data : option OCRResponse) : res (Error JErr) (text * list ProcessedChunk) :=
  match data with
  | None => Err ErrNilResponse
  | Some data =>
      if decide (ErrorCode data ≠ 0) then Err (ErrOCR (ErrorCode data) (ErrorMsg data))
      else
        let blocks := LayoutParsingResults (Result data) ≫= λ page, ParsingResList (lp_PrunedResult page) in
        let p := flushChunk (foldl parse_block (mkParse [] [] false 0 (of_string "Introduction") []) blocks) in
        Ok (p_title p, p_chunks p)
  end.

(** * Merging *)

Context (Unmarshal : bytes → res JErr OCRResponse) (Marshal : OCRResponse → res JErr bytes).

Definition ParseStructuredChunks (raw : bytes) : res (Error JErr) (text * list ProcessedChunk) :=
  match Unmarshal raw with
  | Ok data => parseStructuredChunks (Some data)
  | Err e => Err (ErrJSON e)
  end.

Definition merge_one (merged parsed : OCRResult) : OCRResult :=
  mkOCRResult (LayoutParsingResults merged ++ LayoutParsingResults parsed)
    (mkDataInfo (NumPages (or_DataInfo merged) + NumPages (or_DataInfo parsed)) (Pages (or_DataInfo merged) ++ Pages (or_DataInfo parsed))
       (if decide (di_Type (or_DataInfo merged) = "") then di_Type (or_DataInfo parsed) else di_Type (or_DataInfo merged)))
    (PreprocessedImages merged ++ PreprocessedImages parsed).
Fixpoint merge_all (i : nat) (merged : OCRResult) (results : list ProviderResult) : res (Error JErr) OCRResult :=
  match results with
  | [] => Ok merged
  | r :: results =>
      match Unmarshal (Raw r) with
      | Err e => Err (ErrDecodeChunk i e)
      | Ok parsed =>
          if decide (ErrorCode parsed ≠ 0) then Err (ErrChunkAPI i (ErrorCode parsed) (ErrorMsg parsed))
          else merge_all (S i) (merge_one merged (Result parsed)) results
      end
  end.
Definition MergeChunkResponses (results : list ProviderResult) : res (Error JErr) ProviderResult :=
  match results with
  | [] => Err ErrNoResults
  | r :: _ =>
      let? merged := merge_all 0 (mkOCRResult [] (mkDataInfo 0 [] "") []) results in
      match Marshal (mkOCRResponse "chunked" merged 0 (of_string "Success")) with
      | Ok raw => Ok (mkProviderResult (Provider r) raw)
      | Err e => Err (ErrEncode e)
      end
  end.

(** * Clean text *)

(** Words of the given runes, without white space, with one space between two. *)
Definition word (P : rune → bool) (w : text) : Prop := w ≠ [] ∧ Forall (λ r, P r = true ∧ IsSpace r = false) w.
Definition clean (P : rune → bool) (s : text) : Prop := ∃ ws, s = Join ws ∧ Forall (word P) ws.

Lemma fields_words (P : rune → bool) w s :
  Forall (λ r, P r = true ∧ IsSpace r = false) w → Forall (λ r, P r = true) s → Forall (word P) (fields_from w s).
Proof.
  intros Hw Hs. revert w Hw. induction Hs as [|r s Hr Hs IH]; intros w Hw; cbn [fields_from].
  - destruct w; [constructor|]. by constructor; [|constructor].
  - destruct (IsSpace r) eqn:E.
    + destruct w; [by apply IH|]. constructor; [done|by apply IH].
    + apply IH. apply Forall_app. split; [done|]. by repeat constructor.
Qed.
Lemma clean_fields P s : Forall (λ r, P r = true) s → clean P (Join (Fields s)).
Proof. intros Hs. exists (Fields s). split; [done|]. by apply fields_words. Qed.

Lemma squeeze_allowed P b s : P space = true → Forall (λ r, P r = true) (squeeze P b s).
Proof.
  intros Hsp. revert b. induction s as [|r s IH]; intros b; cbn [squeeze]; [constructor|]. destruct (P r && negb (IsSpace r)) eqn:E.
  - apply andb_true_iff in E as [E _]. by constructor.
  - destruct b; [done|]. by constructor.
Qed.
Lemma trim_left_Forall (P : rune → Prop) s : Forall P s → Forall P (trim_left s).
Proof. induction 1 as [|r s Hr Hs IH]; cbn [trim_left]; [constructor|]. destruct (IsSpace r); [done|by constructor]. Qed.
Lemma trim_Forall (P : rune → Prop) s : Forall P s → Forall P (TrimSpace s).
Proof. intros Hs. unfold TrimSpace. by apply Forall_reverse, trim_left_Forall, Forall_reverse, trim_left_Forall. Qed.
Lemma span_app P s : s = (span P s).1 ++ (span P s).2.
Proof. induction s as [|r s IH]; cbn [span]; [done|]. destruct (P r); [|done]. destruct (span P s). cbn in *. by rewrite IH. Qed.
Lemma replace_Forall (P : rune → Prop) fuel m by_ s :
  (∀ s rest, m s = Some rest → Forall P s → Forall P rest) → Forall P by_ → Forall P s → Forall P (replace_all fuel m by_ s).
Proof.
  intros Hm Hb. revert s. induction fuel as [|fuel IH]; intros s Hs; [constructor|]. destruct s as [|r s]; [constructor|]. cbn [replace_all].
  destruct (m (r :: s)) as [rest|] eqn:E; [apply Forall_app; split; [done|]; apply IH; by eapply Hm|]. apply Forall_cons in Hs as [? ?]. constructor; [done|by apply IH].
Qed.
Lemma fix_Forall (P : rune → Prop) s : Forall P s → Forall P (fixPunctuationRegex s).
Proof.
  apply replace_Forall; [|constructor]. clear s. intros s rest. unfold match_blanks. pose proof (span_app re_space s) as E.
  destruct (span re_space s) as [ws s']. cbn in E. destruct ws as [|w ws]; [done|]. destruct s' as [|r s']; [done|]. destruct (bool_decide _); [|done].
  intros [= <-]. rewrite E. intros Hs. by apply Forall_app in Hs as [_ ?].
Qed.
Lemma collapse_Forall (P : rune → Prop) prev s : Forall P s → Forall P (collapse prev s).
Proof.
  intros Hs. revert prev. induction Hs as [|r s Hr Hs IH]; intros prev; cbn [collapse]; [constructor|]. destruct (_ && _); [done|by constructor].
Qed.

Lemma cleanChunkText_clean s : clean isAllowedRune (cleanChunkText s).
Proof.
  unfold cleanChunkText. destruct s as [|r s]; [by exists []|]. apply clean_fields. apply collapse_Forall, fix_Forall, trim_Forall, squeeze_allowed.
  unfold isAllowedRune. by rewrite orb_true_r.
Qed.
Lemma cleanTitleText_clean s : clean isAllowedTitleRune (cleanTitleText s).
Proof.
  unfold cleanTitleText. destruct s as [|r s]; [by exists []|]. apply clean_fields. apply trim_Forall, squeeze_allowed.
  unfold isAllowedTitleRune. by rewrite orb_true_r.
Qed.

(** A title and a text, both clean, with a space between them. *)
Lemma Join_cons w l : l ≠ [] → Join (w :: l) = w ++ space :: Join l.
Proof. by destruct l. Qed.
Lemma Join_app l l' : l ≠ [] → l' ≠ [] → Join (l ++ l') = Join l ++ space :: Join l'.
Proof.
  intros Hl Hl'. induction l as [|w l IH]; [done|]. destruct l as [|w' l]; [cbn [app]; by rewrite Join_cons|].
  change ((w :: w' :: l) ++ l') with (w :: ((w' :: l) ++ l')). rewrite Join_cons by done. rewrite IH by done. rewrite (Join_cons w (w' :: l)) by done.
  rewrite <-app_assoc. done.
Qed.
Lemma Join_first P l : l ≠ [] → Forall (word P) l → ∃ r s, Join l = r :: s ∧ IsSpace r = false.
Proof.
  intros Hl Hw. destruct Hw as [|w l [Hw1 Hw2] Hw]; [done|]. destruct w as [|r w]; [done|]. apply Forall_cons in Hw2 as [[_ Hr] _].
  destruct l; [by exists r, w|]. rewrite Join_cons by done. by eexists r, _.
Qed.
Lemma Join_last P l : l ≠ [] → Forall (word P) l → ∃ r s, Join l = s ++ [r] ∧ IsSpace r = false.
Proof.
  intros Hl Hw. destruct l as [|w l _] using rev_ind; [done|]. apply Forall_app in Hw as [_ Hw]. apply Forall_cons in Hw as [[Hw1 Hw2] _].
  destruct w as [|r w _] using rev_ind; [done|]. apply Forall_app in Hw2 as [_ Hr]. apply Forall_cons in Hr as [[_ Hr] _]. exists r.
  destruct l as [|w' l]; [by exists w|]. rewrite Join_app by done. cbn [Join]. eexists. split; [|done]. by rewrite app_comm_cons, app_assoc.
Qed.
Lemma trim_id r s r' s' : r :: s = s' ++ [r'] → IsSpace r = false → IsSpace r' = false → TrimSpace (r :: s) = r :: s.
Proof.
  intros E Hr Hr'. unfold TrimSpace. cbn [trim_left]. rewrite Hr, E, reverse_app. cbn [reverse rev_append app]. change (reverse [r'] ++ reverse s') with (r' :: reverse s').
  cbn [trim_left]. rewrite Hr'. change (r' :: reverse s') with (reverse [r'] ++ reverse s'). rewrite <-reverse_app. apply reverse_involutive.
Qed.
Lemma trim_Join P l : l ≠ [] → Forall (word P) l → TrimSpace (Join l) = Join l.
Proof.
  intros Hl Hw. destruct (Join_first P l Hl Hw) as (r & s & E & Hr), (Join_last P l Hl Hw) as (r' & s' & E' & Hr'). rewrite E.
  eapply trim_id; [|done|exact Hr']. by rewrite <-E, E'.
Qed.
Lemma full_clean P title text : clean P title → clean P text → text ≠ [] → clean P (TrimSpace (title ++ space :: text)) ∧ TrimSpace (title ++ space :: text) ≠ [].
Proof.
  intros (wt & -> & Ht) (ws & -> & Hs) Hne. assert (ws ≠ []) as Hws by (by intros ->).
  assert (∀ l, l ≠ [] → Forall (word P) l → clean P (TrimSpace (Join l)) ∧ TrimSpace (Join l) ≠ []) as H0.
  { intros l Hl Hw. rewrite (trim_Join P l Hl Hw). split; [by exists l|]. destruct (Join_first P l Hl Hw) as (r & s & -> & _). done. }
  destruct wt as [|w wt].
  - change (TrimSpace (Join [] ++ space :: Join ws)) with (TrimSpace (Join ws)). by apply H0.
  - rewrite <-Join_app by done. apply H0; [done|]. by apply Forall_app.
Qed.

(** * Sections, as a reference *)

(** A block that matters is a heading or a piece of a section. *)
Inductive piece := Head (content : text) | Body (content : text).
Definition piece_of (block : ParsingBlock) : option piece :=
  let content := TrimSpace (BlockContent block) in
  if decide (content = []) then None
  else if heading (BlockLabel block) then Some (Head content)
  else if body (BlockLabel block) then Some (Body content) else None.
Fixpoint sections (title buffer : text) (l : list piece) : list (text * text) :=
  match l with
  | [] => [(title, buffer)]
  | Head content :: l => (title, buffer) :: sections content [] l
  | Body content :: l => sections title (buffer ++ content ++ [10]) l
  end.
(** The text of a section; empty ones and the list of references have none. *)
Definition render (section : text * text) : option text :=
  let text := cleanChunkText (TrimSpace (citationRegex section.2)) in
  if decide (text = [] ∨ MatchString match_reference section.1 = true) then None
  else Some (TrimSpace (cleanChunkText section.1 ++ space :: text)).
Definition numbered (l : list text) : list ProcessedChunk := imap (λ i t, mkProcessed (Z.of_nat i) t) l.
Definition blocks_of (r : OCRResult) : list ParsingBlock := LayoutParsingResults r ≫= λ page, ParsingResList (lp_PrunedResult page).

(** The state of the loop, by the sections it has seen. *)
Definition seen (p : Parse) (done : list (text * text)) : Prop :=
  p_chunks p = numbered (omap render done) ∧ globalChunkIdx p = Z.of_nat (length (omap render done)).
Lemma flush_seen p done : seen p done → seen (flushChunk p) (done ++ [(currentTitle p, currentBuffer p)]) ∧ currentBuffer (flushChunk p) = [] ∧
  currentTitle (flushChunk p) = currentTitle p ∧ p_title (flushChunk p) = p_title p.
Proof.
  intros [H1 H2]. assert (omap render (done ++ [(currentTitle p, currentBuffer p)]) = omap render done ++ omap render [(currentTitle p, currentBuffer p)]) as E by apply omap_app.
  unfold seen. rewrite E. unfold flushChunk. cbn [omap list_omap]. unfold render at 2 4. cbn [fst snd]. destruct (decide _) as [Hd|Hd].
  - rewrite app_nil_r. by split_and!.
  - split_and!; try done; cbn.
    + unfold numbered. rewrite imap_app, H1, H2. cbn. by rewrite Nat.add_0_r.
    + rewrite length_app, H2. cbn. lia.
Qed.
Lemma block_seen p block done :
  seen p done → clean isAllowedTitleRune (p_title p) →
  match piece_of block with
  | None => seen (parse_block p block) done ∧ currentTitle (parse_block p block) = currentTitle p ∧ currentBuffer (parse_block p block) = currentBuffer p
  | Some (Head c) => seen (parse_block p block) (done ++ [(currentTitle p, currentBuffer p)]) ∧ currentTitle (parse_block p block) = c ∧ currentBuffer (parse_block p block) = []
  | Some (Body c) => seen (parse_block p block) done ∧ currentTitle (parse_block p block) = currentTitle p ∧ currentBuffer (parse_block p block) = currentBuffer p ++ c ++ [10]
  end ∧ clean isAllowedTitleRune (p_title (parse_block p block)).
Proof.
  intros Hs Ht. unfold piece_of, parse_block. destruct (decide _) as [|Hc]; [done|].
  set (p' := if bool_decide (BlockLabel block = "doc_title") && negb (isChineseTitle p) then _ else p).
  assert (seen p' done ∧ currentTitle p' = currentTitle p ∧ currentBuffer p' = currentBuffer p ∧ clean isAllowedTitleRune (p_title p')) as (S1 & S2 & S3 & S4).
  { unfold p'. destruct (_ && _); [|done]. split_and!; try done. apply cleanTitleText_clean. }
  clearbody p'. cbv zeta. destruct (heading (BlockLabel block)).
  - destruct (flush_seen p' done S1) as (F1 & F2 & F3 & F4). rewrite S2, S3 in F1. split; [by split_and!|]. cbn. by rewrite F4.
  - destruct (body (BlockLabel block)); [|done]. split_and!; try done; cbn; by rewrite S3.
Qed.

Lemma parse_seen blocks p done :
  seen p done → clean isAllowedTitleRune (p_title p) →
  let p' := flushChunk (foldl parse_block p blocks) in
  p_chunks p' = numbered (omap render (done ++ sections (currentTitle p) (currentBuffer p) (omap piece_of blocks))) ∧ clean isAllowedTitleRune (p_title p').
Proof.
  revert p done. induction blocks as [|block blocks IH]; intros p done Hs Ht; cbn [foldl].
  - destruct (flush_seen p done Hs) as ([F1 _] & _ & _ & F4). cbn. by rewrite F1, F4.
  - destruct (block_seen p block done Hs Ht) as [Hb Hc]. cbn [omap list_omap]. destruct (piece_of block) as [[c|c]|]; destruct Hb as (B1 & B2 & B3).
    + specialize (IH _ _ B1 Hc). rewrite B2, B3, <-app_assoc in IH. exact IH.
    + specialize (IH _ _ B1 Hc). rewrite B2, B3 in IH. exact IH.
    + specialize (IH _ _ B1 Hc). rewrite B2, B3 in IH. exact IH.
Qed.

Lemma render_clean section t : render section = Some t → clean isAllowedRune t ∧ t ≠ [].
Proof.
  unfold render. destruct (decide _) as [|Hd]; [done|]. intros [= <-]. apply full_clean; [apply cleanChunkText_clean..|]. tauto.
Qed.

Lemma document_sections_aux data :
  ErrorCode data = 0 →
  ∃ title, parseStructuredChunks (Some data) =
      Ok (title, numbered (omap render (sections (of_string "Introduction") [] (omap piece_of (blocks_of (Result data)))))) ∧
    clean isAllowedTitleRune title ∧
    ∀ c, c ∈ numbered (omap render (sections (of_string "Introduction") [] (omap piece_of (blocks_of (Result data))))) →
      clean isAllowedRune (pc_Text c) ∧ pc_Text c ≠ [].
Proof.
  intros He. destruct (parse_seen (blocks_of (Result data)) (mkParse [] [] false 0 (of_string "Introduction") []) []) as [H1 H2]; [done|by exists []|].
  cbn [currentTitle currentBuffer app] in H1. eexists. split; [|split; [exact H2|]].
  - unfold parseStructuredChunks. rewrite decide_False by (by intros ?). cbv zeta. fold (blocks_of (Result data)). by rewrite H1.
  - intros c (i & Hc)%list_elem_of_lookup. unfold numbered in Hc. rewrite list_lookup_imap in Hc. apply fmap_Some in Hc as (t & Ht & ->). cbn.
    apply list_elem_of_lookup_2, list_elem_of_omap in Ht as (section & _ & Hr). by eapply render_clean.
Qed.

(** The text of a document is its sections: the chunks are, numbered from 0, the sections between the headings, in order, each with its heading
in front, but for those without text and those under a heading of references. Every chunk is a sequence of words of allowed characters
with one space between two words, and so is the title. *)
Theorem document_sections data :
  ErrorCode data = 0 →
  ∃ title, parseStructuredChunks (Some data) =
      Ok (title, numbered (omap render (sections (of_string "Introduction") [] (omap piece_of (blocks_of (Result data)))))) ∧
    clean isAllowedTitleRune title ∧
    ∀ c, c ∈ numbered (omap render (sections (of_string "Introduction") [] (omap piece_of (blocks_of (Result data))))) →
      clean isAllowedRune (pc_Text c) ∧ pc_Text c ≠ [].
Proof. apply document_sections_aux. Qed.

(** * Merging *)

(** A response that was decoded and is not an error. *)
Definition decoded (r : ProviderResult) (part : OCRResponse) : Prop := Unmarshal (Raw r) = Ok part ∧ ErrorCode part = 0.
Lemma merge_all_parts i merged results m :
  merge_all i merged results = Ok m → ∃ parts, Forall2 decoded results parts ∧ m = foldl merge_one merged (Result <$> parts).
Proof.
  revert i merged. induction results as [|r results IH]; intros i merged; cbn [merge_all]; [intros [= <-]; exists []; by split; [constructor|]|].
  destruct (Unmarshal (Raw r)) as [part|] eqn:E; [|done]. destruct (decide _) as [|He]; [done|]. intros (parts & Hp & ->)%IH.
  exists (part :: parts). split; [|done]. constructor; [|done]. split; [done|by apply dec_stable].
Qed.
Lemma merge_pages merged parts :
  let m := foldl merge_one merged parts in
  LayoutParsingResults m = LayoutParsingResults merged ++ (parts ≫= LayoutParsingResults) ∧
  Pages (or_DataInfo m) = Pages (or_DataInfo merged) ++ (parts ≫= λ p, Pages (or_DataInfo p)) ∧
  NumPages (or_DataInfo m) = NumPages (or_DataInfo merged) + foldr Z.add 0 ((λ p, NumPages (or_DataInfo p)) <$> parts).
Proof.
  revert merged. induction parts as [|part parts IH]; intros merged; cbn [foldl]; [cbn; rewrite !app_nil_r; split_and!; [done..|lia]|].
  destruct (IH (merge_one merged part)) as (H1 & H2 & H3). cbn in H1, H2, H3 |- *. rewrite H1, H2, H3, !app_assoc. split_and!; [done..|lia].
Qed.

(** What is merged is the document: when the responses for the chunks of a document are merged, all of them were decoded and none was an error,
the merged response belongs to the first one's provider, has their pages in order and as many pages as they have together, and parsing it is parsing
all their blocks as one document; so a section that a page break between two chunks cuts is whole again. *)
Theorem merged_document results merged :
  (∀ m raw, Marshal m = Ok raw → Unmarshal raw = Ok m) → MergeChunkResponses results = Ok merged →
  ∃ parts m, Forall2 decoded results parts ∧ Unmarshal (Raw merged) = Ok m ∧ ErrorCode m = 0 ∧
    Provider merged = default "" (Provider <$> head results) ∧
    LayoutParsingResults (Result m) = parts ≫= (λ part, LayoutParsingResults (Result part)) ∧
    NumPages (or_DataInfo (Result m)) = foldr Z.add 0 ((λ part, NumPages (or_DataInfo (Result part))) <$> parts) ∧
    snd <$> (match ParseStructuredChunks (Raw merged) with Ok r => Some r | Err _ => None end) =
      Some (numbered (omap render (sections (of_string "Introduction") [] (omap piece_of (parts ≫= λ part, blocks_of (Result part)))))).
Proof.
  intros Hj. unfold MergeChunkResponses. destruct results as [|r results]; [done|]. destruct (merge_all _ _ _) as [m|] eqn:E; [|done]. cbn [res_bind].
  destruct (Marshal _) as [raw|] eqn:Em; [|done]. intros [= <-]. apply merge_all_parts in E as (parts & Hp & ->).
  destruct (merge_pages (mkOCRResult [] (mkDataInfo 0 [] "") []) (Result <$> parts)) as (M1 & M2 & M3). cbn [LayoutParsingResults or_DataInfo Pages NumPages app] in M1, M2, M3.
  eexists parts, _. split; [done|]. split; [by apply Hj|]. cbn [ErrorCode Provider head fmap option_fmap option_map default Result].
  split_and!; [done|done| | |].
  - rewrite M1. clear. induction parts as [|p parts IH]; [done|]. cbn. by rewrite IH.
  - rewrite M3. clear. induction parts as [|p parts IH]; [done|]. cbn in *. lia.
  - unfold ParseStructuredChunks. cbn [Raw]. rewrite (Hj _ _ Em).
    destruct (document_sections_aux (mkOCRResponse "chunked" (foldl merge_one (mkOCRResult [] (mkDataInfo 0 [] "") []) (Result <$> parts)) 0 (of_string "Success")) eq_refl)
      as (title & -> & _). cbn [fmap option_fmap option_map snd Result]. do 6 f_equal. unfold blocks_of at 1. rewrite M1. clear.
    induction parts as [|p parts IH]; [done|]. cbn. by rewrite bind_app, IH.
Qed.

End extract.

(** A document of two chunks: a section that goes over both, a citation and a tag that are removed, and a list of references. *)
Definition latin : Scripts := {| is_han := λ r, between 19968 r 40959; is_letter := λ r, between 65 r 90 || between 97 r 122; is_digit := re_digit |}.
Definition sample_page (blocks : list ParsingBlock) : LayoutParsingResult :=
  mkLayout (mkPruned 1 0 0 (mkModelSettings false false false false false false false []) blocks
              (mkDocPreprocessorRes (mkDocPreprocessorSettings false false) 0) (mkLayoutDetectionRes []))
    (mkMarkdown [] ∅) ∅ [].
Definition sample_block (label : string) (content : string) : ParsingBlock := mkBlock label (of_string content) [] 0 None 0.
Definition sample_response (blocks : list ParsingBlock) : OCRResponse :=
  mkOCRResponse "1" (mkOCRResult [sample_page blocks] (mkDataInfo 1 [] "pdf") []) 0 [].
Definition sample_part1 : OCRResponse :=
  sample_response [sample_block "header" "Journal"; sample_block "doc_title" "A <b>Study</b>"; sample_block "text" "One  two $^{[1, 2]}$.."].
Definition sample_part2 : OCRResponse :=
  sample_response [sample_block "text" "three"; sample_block "paragraph_title" "参 考文献"; sample_block "text" "[1] X"].
Definition sample_merged : OCRResponse := mkOCRResponse "chunked" (merge_one (merge_one (mkOCRResult [] (mkDataInfo 0 [] "") []) (Result sample_part1)) (Result sample_part2)) 0 (of_string "Success").
Definition sample_unmarshal (raw : bytes) : res () OCRResponse :=
  match raw with [x01] => Ok sample_part1 | [x02] => Ok sample_part2 | [x00] => Ok sample_merged | _ => Err () end.
Definition sample_marshal (m : OCRResponse) : res () bytes := if decide (m = sample_merged) then Ok [x00] else Err ().

#[local] Existing Instance latin.
Lemma document_sections_witness :
  ErrorCode sample_part1 = 0 ∧
  ∃ title, parseStructuredChunks (JErr := ()) (Some sample_part1) = Ok (title, [mkProcessed 0 (of_string "A Study One two .")]) ∧ clean isAllowedTitleRune title.
Proof.
  split; [done|]. destruct (document_sections (JErr := ()) sample_part1 eq_refl) as (title & H1 & H2 & _). exists title. split; [|exact H2].
  rewrite H1. vm_compute. reflexivity.
Defined.
Lemma merged_document_witness :
  ∃ merged, MergeChunkResponses sample_unmarshal sample_marshal [mkProviderResult "p" [x01]; mkProviderResult "p" [x02]] = Ok merged ∧
    snd <$> (match ParseStructuredChunks sample_unmarshal (Raw merged) with Ok r => Some r | Err _ => None end) =
      Some [mkProcessed 0 (of_string "A Study One two . three")].
Proof.
  destruct (MergeChunkResponses sample_unmarshal sample_marshal [mkProviderResult "p" [x01]; mkProviderResult "p" [x02]]) as [merged|] eqn:E; [|by vm_compute in E].
  exists merged. split; [done|]. destruct (merged_document sample_unmarshal sample_marshal _ merged (ltac:(intros m raw; unfold sample_marshal; by case_decide as Hm; [intros [= <-]; subst|])) E)
    as (parts & m & Hp & _ & _ & _ & _ & _ & H). rewrite H.
  apply Forall2_cons_inv_l in Hp as (p1 & ps & [Hp1 _] & Hp & ->). apply Forall2_cons_inv_l in Hp as (p2 & ps2 & [Hp2 _] & Hp & ->). apply Forall2_nil_inv_l in Hp as ->.
  injection Hp1 as <-. injection Hp2 as <-. vm_compute. reflexivity.
Defined.

End Paddle.
