(* ===== verification/PaddleClient.v ===== *)
(** ocrs: the client of PaddleOCR ([src/ocrs/paddleocr/paddleocr.go]): a pool of tokens with a daily quota, one call of the
service, and its retries.

The pool is shared by concurrent calls under its mutex: each of its methods is one step, and between two steps of a call others
may use it. The day is what [dayKey] returned. HTTP and JSON are parameters; the error of a library is what
[IsRetryable] asks of it. *)

From Stdlib Require Import QArith.
From S2P Require Import Prelude Float64 OcrRetry.
#[local] Open Scope Z_scope.

Module PaddleClient.

(** * Tokens *)

Record tokenPool := mkPool { tokens : list string; next : nat; dailyLimit : Z; day : string; used : gmap string Z }.
#[global] Instance eta_tokenPool : Eta tokenPool := λ p, mkPool (tokens p) (next p) (dailyLimit p) (day p) (used p).

Definition cleaned (tokens : list string) : list string := filter (λ t, t ≠ "") (TrimSpace <$> tokens).
Definition newTokenPool (tokens : list string) (limit : Z) (today : string) : tokenPool :=
  mkPool (cleaned tokens) 0 (if decide (limit ≤ 0) then 1000 else limit) today ∅.

Definition resetIfNewDayLocked (today : string) (p : tokenPool) : tokenPool :=
  if decide (today = day p) then p else p <| day := today |> <| used := ∅ |>.

Definition used_of (p : tokenPool) (token : string) : Z := default 0 (used p !! token).

(** The loop from its iteration [i], with [n] iterations left. *)
Fixpoint acquire_loop (n i : nat) (p : tokenPool) : option (tokenPool * string) :=
  match n with
  | O => None
  | S n =>
      let idx := ((next p + i) mod length (tokens p))%nat in
      match tokens p !! idx with
      | Some tk =>
          if decide (dailyLimit p ≤ used_of p tk) then acquire_loop n (S i) p
          else Some (p <| used := <[tk := used_of p tk + 1]> (used p) |> <| next := (S idx mod length (tokens p))%nat |>, tk)
      | None => None
      end
  end.
Definition acquire (today : string) (p : tokenPool) : tokenPool * option string :=
  if decide (tokens p = []) then (p, None)
  else
    let p := resetIfNewDayLocked today p in
    match acquire_loop (length (tokens p)) 0 p with
    | Some (p, tk) => (p, Some tk)
    | None => (p, None)
    end.
Definition markExhausted (today token : string) (p : tokenPool) : tokenPool :=
  let p := resetIfNewDayLocked today p in p <| used := <[token := dailyLimit p]> (used p) |>.

(** * One call *)

(** What [IsRetryable] asks of an error of a library: whether it is one of a context, a [net.Error], a [*url.Error]. *)
Record Cause := mkCause { is_ctx : bool; is_net : bool; is_url : bool }.
Inductive Error :=
| ErrAllTokensExhaustedToday
| ErrEmptyData
| ErrCreateRequest (e : Cause)
| ErrRequest (e : Cause)
| ErrReadResponse (e : Cause)
| ErrStatus (statusCode : Z) (body : string)
| ErrDecode
| ErrAPI (code : Z) (msg : string).

Definition retryable_cause (e : Cause) : bool := negb (is_ctx e) && (is_net e || is_url e).
Definition IsRetryable (err : Error) : bool :=
  match err with
  | ErrAllTokensExhaustedToday | ErrEmptyData | ErrDecode | ErrAPI _ _ => false
  | ErrStatus code _ => bool_decide (code ∈ [429; 500; 502; 503; 504])
  | ErrCreateRequest e | ErrRequest e | ErrReadResponse e => retryable_cause e
  end.

Record Request := mkRequest { rq_URL : string; rq_Authorization : string; rq_ContentType : string; rq_Body : string }.
Record OCRResult := mkResult { Provider : string; Raw : string }.

Fixpoint take_string (n : nat) (s : string) : string :=
  match n, s with S n, String c s => String c (take_string n s) | _, _ => "" end.

Section client.
Context (name apiURL : string).
(** [http.NewRequestWithContext] of the URL, the exchange of the [n]-th attempt, the error code and message of a JSON body, the JSON around
the base64 of the data. *)
Context (NewRequest : nat → option Cause) (Do : nat → Request → res Cause (Z * res Cause string))
  (envelope : string → option (Z * string)) (payload : string → string).
(** The days at which the [n]-th attempt asks for a token and marks it, and what other calls do to the pool before it and during its exchange. *)
Context (asked marked : nat → string) (before during : nat → tokenPool → tokenPool).

(** The pool after it, the answer, and the request that was sent. *)
Definition recognizeOnce (n : nat) (body : string) (p : tokenPool) : tokenPool * res Error OCRResult * option Request :=
  match acquire (asked n) (before n p) with
  | (p, None) => (p, Err ErrAllTokensExhaustedToday, None)
  | (p, Some token) =>
      match NewRequest n with
      | Some e => (p, Err (ErrCreateRequest e), None)
      | None =>
          let req := mkRequest apiURL ("token " +:+ token) "application/json" body in
          match Do n req with
          | Err e => (during n p, Err (ErrRequest e), Some req)
          | Ok (status, Err e) => (during n p, Err (ErrReadResponse e), Some req)
          | Ok (status, Ok rawBody) =>
              let p := during n p in
              if decide (status ≠ 200) then
                let p := if decide (status = 429 ∨ status = 402 ∨ status = 403) then markExhausted (marked n) token p else p in
                (p, Err (ErrStatus status (take_string 2048 rawBody)), Some req)
              else match envelope rawBody with
              | None => (p, Err ErrDecode, Some req)
              | Some (code, msg) => (p, if decide (code ≠ 0) then Err (ErrAPI code msg) else Ok (mkResult name rawBody), Some req)
              end
          end
      end
  end.

(** The pool before the [n]-th attempt. *)
Fixpoint pool_at (body : string) (p : tokenPool) (n : nat) : tokenPool :=
  match n with
  | O => p
  | S n => (recognizeOnce n body (pool_at body p n)).1.1
  end.

(** The result of the retries, or the error before them, and the number of attempts. *)
Definition Handle (out_of_range : float64 → Z) (wait : nat → Ctx) (ctx_after : Ctx) (opts : list (option Retry.Option)) (data : string) (p : tokenPool)
    : res (Retry.Error (E := Error)) OCRResult * nat :=
  if decide (data = "") then (Err (Retry.ErrNext ErrEmptyData), 0%nat)
  else
    let body := payload data in
    (Retry.NewMiddleware out_of_range (mkResult "" "") (λ n, (recognizeOnce n body (pool_at body p n)).1.2) wait ctx_after (Some IsRetryable) opts).1.

End client.

(** * Quotas *)

(** What happens to a pool. *)
Inductive op := Acquire (today : string) | Mark (today token : string).
Inductive event := Acquired (today token : string) | Refused (today : string) | Marked (today token : string).
#[global] Instance event_eq_dec : EqDecision event.
Proof. solve_decision. Defined.
Definition day_of (e : event) : string := match e with Acquired d _ | Refused d | Marked d _ => d end.
Definition perform (p : tokenPool) (o : op) : tokenPool * event :=
  match o with
  | Acquire today => let '(p, r) := acquire today p in (p, match r with Some tk => Acquired today tk | None => Refused today end)
  | Mark today tk => (markExhausted today tk p, Marked today tk)
  end.
(** The pool and the events, the latest first. *)
Definition history (p : tokenPool) (ops : list op) : tokenPool * list event :=
  foldl (λ s o, let '(p, e) := perform s.1 o in (p, e :: s.2)) (p, []) ops.

Definition count (tk : string) (l : list event) : Z := Z.of_nat (length (filter (λ e, e = Acquired (day_of e) tk) l)).
(** The latest events, as far as they are of the day [d]. *)
Fixpoint same_day (d : string) (l : list event) : list event :=
  match l with e :: l => if decide (day_of e = d) then e :: same_day d l else [] | [] => [] end.

Lemma same_day_prefix d l : ∃ r, l = same_day d l ++ r.
Proof. induction l as [|e l [r IH]]; [by exists []|]. cbn. case_decide; [exists r; cbn; by rewrite <-IH|by eexists]. Qed.
Lemma same_day_all d l : Forall (λ e, day_of e = d) (same_day d l).
Proof. induction l as [|e l IH]; cbn; [constructor|]. case_decide; by constructor. Qed.
Lemma same_day_app d l r : Forall (λ e, day_of e = d) l → same_day d (l ++ r) = l ++ same_day d r.
Proof. induction 1 as [|e l He _ IH]; [done|]. cbn. by rewrite decide_True, IH. Qed.
Lemma count_cons tk e l : count tk (e :: l) = (if decide (e = Acquired (day_of e) tk) then 1 else 0) + count tk l.
Proof. unfold count. rewrite filter_cons. case_decide; cbn [length]; lia. Qed.
Lemma count_events_app tk l r : count tk (l ++ r) = count tk l + count tk r.
Proof. unfold count. rewrite filter_app, length_app. lia. Qed.
Lemma count_nonneg tk l : 0 ≤ count tk l.
Proof. unfold count. lia. Qed.

Record pool_ok (p : tokenPool) (l : list event) : Prop := {
  i_limit : 0 < dailyLimit p;
  i_next : tokens p ≠ [] → (next p < length (tokens p))%nat;
  i_count : ∀ tk, count tk (same_day (day p) l) ≤ used_of p tk ≤ dailyLimit p;
  i_marked : ∀ tk, Marked (day p) tk ∈ same_day (day p) l → used_of p tk = dailyLimit p;
  i_exact : ∀ tk, Marked (day p) tk ∈ same_day (day p) l ∨ count tk (same_day (day p) l) = used_of p tk
}.

Lemma used_insert p n tk tk' v : used_of (p <| used := <[tk := v]> (used p) |> <| next := n |>) tk' = if decide (tk = tk') then v else used_of p tk'.
Proof. unfold used_of. cbn. case_decide as E; [by rewrite E, lookup_insert_eq|by rewrite lookup_insert_ne]. Qed.

(** The pool on a day: either nothing changed, or it starts afresh. *)
Lemma reset_cases today p l : pool_ok p l → tokens p ≠ [] → (∀ e r, l = e :: r → day_of e = day p) →
  let p' := resetIfNewDayLocked today p in
  pool_ok p' l ∧ day p' = today ∧ tokens p' = tokens p ∧ dailyLimit p' = dailyLimit p.
Proof.
  intros [H1 H2 H3 H4 H5] Ht Hl. unfold resetIfNewDayLocked. case_decide as Hd; [by split|]. cbn. split; [|done].
  assert (same_day today l = []) as E. { destruct l as [|e r]; [done|]. cbn. rewrite decide_False; [done|]. rewrite (Hl e r eq_refl). intros Heq. by apply Hd. }
  split; cbn; [done|done|..]; rewrite E.
  - intros tk. unfold used_of, count. cbn. rewrite lookup_empty. cbn. lia.
  - by intros tk ?%elem_of_nil.
  - intros tk. right. unfold used_of, count. cbn. by rewrite lookup_empty.
Qed.

(** An iteration visits the token at [next + i]; all tokens are visited. *)
Lemma acquire_loop_some n i p p' tk :
  acquire_loop n i p = Some (p', tk) → used_of p tk < dailyLimit p ∧ tk ∈ tokens p ∧
  ∃ k, (tokens p ≠ [] → (k < length (tokens p))%nat) ∧ p' = p <| used := <[tk := used_of p tk + 1]> (used p) |> <| next := k |>.
Proof.
  revert i. induction n as [|n IH]; intros i; cbn [acquire_loop]; [done|]. destruct (tokens p !! _) as [t|] eqn:Ht; [|done]. case_decide as Hu; [apply IH|].
  intros [= <- <-]. split_and!; [lia|by eapply list_elem_of_lookup_2|]. eexists. split; [|done]. intros Hne. apply Nat.mod_upper_bound. by destruct (tokens p).
Qed.
Lemma acquire_loop_none n i p : tokens p ≠ [] → acquire_loop n i p = None →
  ∀ j, (i ≤ j < i + n)%nat → ∀ tk, tokens p !! ((next p + j) mod length (tokens p))%nat = Some tk → dailyLimit p ≤ used_of p tk.
Proof.
  intros Hne. revert i. induction n as [|n IH]; intros i; cbn [acquire_loop]; [intros _ j Hj; lia|]. destruct (tokens p !! _) as [t|] eqn:Ht.
  - case_decide as Hu; [|done]. intros Hn j Hj tk Htk. destruct (decide (j = i)) as [->|]; [congruence|]. apply (IH (S i) Hn j); [lia|done].
  - exfalso. apply lookup_ge_None in Ht. assert (length (tokens p) ≠ 0)%nat as Hl by (by destruct (tokens p)).
    pose proof (Nat.mod_upper_bound (next p + i) _ Hl). lia.
Qed.
Lemma acquire_loop_refused p : tokens p ≠ [] → (next p < length (tokens p))%nat → acquire_loop (length (tokens p)) 0 p = None →
  ∀ tk, tk ∈ tokens p → dailyLimit p ≤ used_of p tk.
Proof.
  intros Hne Hlt Hn tk (k & Hk)%list_elem_of_lookup. pose proof (lookup_lt_Some _ _ _ Hk) as Hk'. set (len := length (tokens p)) in *.
  apply (acquire_loop_none _ _ _ Hne Hn (if decide (next p ≤ k)%nat then k - next p else k + len - next p)%nat); [case_decide; lia|].
  rewrite <-Hk. f_equal. fold len. case_decide.
  - replace (next p + (k - next p))%nat with k by lia. by apply Nat.mod_small.
  - replace (next p + (k + len - next p))%nat with (k + 1 * len)%nat by lia. rewrite Nat.Div0.mod_add. by apply Nat.mod_small.
Qed.

Definition last_day (p : tokenPool) (l : list event) : Prop := ∀ e r, l = e :: r → day_of e = day p.

Lemma ok_event p p' l e tk :
  pool_ok p l → tokens p ≠ [] → day_of e = day p → day p' = day p → tokens p' = tokens p → dailyLimit p' = dailyLimit p →
  (next p' < length (tokens p))%nat →
  (∀ tk', tk' ≠ tk → used_of p' tk' = used_of p tk') →
  (e = Acquired (day p) tk ∧ used_of p tk < dailyLimit p ∧ used_of p' tk = used_of p tk + 1 ∨
   e = Marked (day p) tk ∧ used_of p' tk = dailyLimit p) →
  pool_ok p' (e :: l).
Proof.
  intros [H1 H2 H3 H4 H5] Ht Hde Hd Htk Hlim Hn Hu He. assert (same_day (day p') (e :: l) = e :: same_day (day p) l) as E.
  { cbn. by rewrite Hd, decide_True. }
  assert (∀ tk', count tk' (e :: same_day (day p) l) = (if decide (e = Acquired (day p) tk') then 1 else 0) + count tk' (same_day (day p) l)) as Hc.
  { intros tk'. by rewrite count_cons, Hde. }
  split; rewrite ?Hlim, ?Htk; [done|done|..]; rewrite E, ?Hd.
  - intros tk'. rewrite Hc. specialize (H3 tk'). destruct (decide (tk' = tk)) as [->|Hne].
    + destruct He as [(-> & He1 & He2)|[-> He]]; [rewrite decide_True by done; lia|rewrite decide_False by done; lia].
    + rewrite Hu by done. destruct He as [(-> & _)|[-> _]]; rewrite decide_False by congruence; lia.
  - intros tk' [Hin|Hin]%elem_of_cons.
    + destruct He as [(-> & _)|[-> He]]; [done|]. by injection Hin as ->.
    + destruct (decide (tk' = tk)) as [->|Hne]; [|rewrite Hu by done; by apply H4]. specialize (H4 tk Hin). destruct He as [(_ & He & _)|[_ He]]; [lia|done].
  - intros tk'. rewrite Hc. destruct (decide (tk' = tk)) as [->|Hne].
    + destruct He as [(-> & He1 & He2)|[-> He]]; [|left; by left]. rewrite decide_True by done.
      destruct (H5 tk) as [Hm|Hm]; [apply H4 in Hm; lia|right; lia].
    + rewrite Hu by done. destruct (H5 tk') as [Hm|Hm]; [left; by right|]. right. destruct He as [(-> & _)|[-> _]]; rewrite decide_False by congruence; lia.
Qed.


(** A step of the pool. *)
Definition tracked (ts : list string) (limit : Z) (p : tokenPool) (l : list event) : Prop :=
  pool_ok p l ∧ last_day p l ∧ tokens p = ts ∧ dailyLimit p = limit.
(** What a step says of the events before it. *)
Definition justified (ts : list string) (limit : Z) (l : list event) (e : event) : Prop :=
  match e with
  | Acquired d tk => tk ∈ ts ∧ count tk (same_day d l) < limit ∧ Marked d tk ∉ same_day d l
  | Refused d => ∀ tk, tk ∈ ts → Marked d tk ∈ same_day d l ∨ count tk (same_day d l) = limit
  | Marked _ _ => True
  end.
Lemma perform_tracked ts limit p l o :
  ts ≠ [] → tracked ts limit p l → let '(p', e) := perform p o in tracked ts limit p' (e :: l) ∧ justified ts limit l e.
Proof.
  intros Hts (Hok & Hl & Ht & Hlim). assert (tokens p ≠ []) as Hne by (by rewrite Ht).
  destruct o as [today|today tk]; cbn [perform].
  - unfold acquire. rewrite decide_False by done. destruct (reset_cases today p l Hok Hne Hl) as (Hok' & Hd & Ht' & Hlim').
    set (q := resetIfNewDayLocked today p) in *. assert (tokens q ≠ []) as Hneq by (by rewrite Ht'). pose proof (i_next _ _ Hok' Hneq) as Hnext.
    destruct (acquire_loop (length (tokens q)) 0 q) as [[p' tk]|] eqn:E; cbn [fst snd].
    + apply acquire_loop_some in E as (Hu & Hin & k & Hk & ->). split.
      * split; [|split; [|by cbn; rewrite Ht', Hlim']].
        -- eapply (ok_event q _ l _ tk); try done; [by apply Hk|intros tk' Hneq'; rewrite used_insert; by rewrite decide_False|].
           left. rewrite Hd. split_and!; [done|done|]. rewrite used_insert. by rewrite decide_True.
        -- intros e r [= <- <-]. by cbn.
      * cbn. rewrite <-Ht, <-Ht', <-Hlim, <-Hlim'. split_and!; [done|..]; rewrite <-Hd.
        -- pose proof (i_count _ _ Hok' tk). lia.
        -- intros Hm. apply (i_marked _ _ Hok') in Hm. lia.
    + pose proof (acquire_loop_refused q Hneq Hnext E) as Hfull. split.
      * split; [|split; [|by rewrite Ht', Hlim']]; [|by intros e r [= <- <-]]. destruct Hok' as [O1 O2 O3 O4 O5].
        assert (same_day (day q) (Refused today :: l) = Refused today :: same_day (day q) l) as Es by (cbn; by rewrite Hd, decide_True).
        assert (∀ tk, count tk (Refused today :: same_day (day q) l) = count tk (same_day (day q) l)) as Ec by (intros tk; by rewrite count_cons, decide_False).
        split; [done|done|..]; rewrite Es.
        -- intros tk. rewrite Ec. apply O3.
        -- intros tk [?|?]%elem_of_cons; [done|by apply O4].
        -- intros tk. rewrite Ec. destruct (O5 tk); [left; by right|by right].
      * cbn. intros tk Hin. rewrite <-Ht, <-Ht' in Hin. specialize (Hfull tk Hin). pose proof (i_count _ _ Hok' tk) as Hc.
        destruct (i_exact _ _ Hok' tk) as [Hm|Hm]; rewrite Hd in Hm; [by left|]. right. rewrite Hd in Hc. lia.
  - unfold markExhausted. destruct (reset_cases today p l Hok Hne Hl) as (Hok' & Hd & Ht' & Hlim').
    set (q := resetIfNewDayLocked today p) in *. assert (tokens q ≠ []) as Hneq by (by rewrite Ht'). pose proof (i_next _ _ Hok' Hneq) as Hnext.
    split; [|done]. split; [|split; [by intros e r [= <- <-]|by cbn; rewrite Ht', Hlim']].
    assert (∀ tk', used_of (q <| used := <[tk := dailyLimit q]> (used q) |>) tk' = if decide (tk = tk') then dailyLimit q else used_of q tk') as Hu.
    { intros tk'. unfold used_of. cbn. case_decide as E; [by rewrite E, lookup_insert_eq|by rewrite lookup_insert_ne]. }
    eapply (ok_event q _ l _ tk); try done; [intros tk' Hneq'; by rewrite Hu, decide_False|]. right. rewrite Hd. split; [done|]. by rewrite Hu, decide_True.
Qed.

Fixpoint all_justified (ts : list string) (limit : Z) (l : list event) : Prop :=
  match l with e :: l => justified ts limit l e ∧ all_justified ts limit l | [] => True end.
Lemma history_tracked ts limit p ops : ts ≠ [] → tracked ts limit p [] →
  let '(p', l) := history p ops in tracked ts limit p' l ∧ all_justified ts limit l.
Proof.
  intros Hts Hp. unfold history. induction ops as [|o ops IH] using rev_ind; [done|]. rewrite foldl_app. cbn [foldl].
  destruct (foldl _ _ ops) as [p' l]. destruct IH as [H1 H2]. cbn [fst snd]. pose proof (perform_tracked ts limit p' l o Hts H1) as H.
  destruct (perform p' o) as [p2 e]. by destruct H.
Qed.
Lemma justified_app ts limit l r : all_justified ts limit (l ++ r) → all_justified ts limit r.
Proof. induction l as [|e l IH]; [done|]. cbn. by intros [_ ?%IH]. Qed.

(** On one day no token is handed out more often than its quota. *)
Lemma quota_kept ts limit tk d seg r : 0 < limit → all_justified ts limit (seg ++ r) → Forall (λ e, day_of e = d) seg → count tk seg ≤ limit.
Proof.
  intros Hl Hj Hd. induction Hd as [|e seg He Hd IH]; [unfold count; cbn; lia|]. cbn in Hj. destruct Hj as [Hj1 Hj2]. specialize (IH Hj2). rewrite count_cons.
  case_decide as Hc; [|lia]. rewrite Hc in Hj1. cbn in Hj1. rewrite He in Hj1. destruct Hj1 as (_ & Hj1 & _). rewrite same_day_app, count_events_app in Hj1 by done.
  pose proof (count_nonneg tk (same_day d r)). lia.
Qed.

(** C34: However concurrent calls use the pool, within one day every token is handed out at most as often as its daily limit, and no more once the service has refused it;
only tokens of the pool are handed out, and a call is refused only when each of them has reached its limit or was refused by the service that day. *)
Theorem token_quota given limit today ops :
  cleaned given ≠ [] →
  let l := (history (newTokenPool given limit today) ops).2 in
  let quota := if decide (limit ≤ 0) then 1000 else limit in
  (∀ later seg earlier d tk, l = later ++ seg ++ earlier → Forall (λ e, day_of e = d) seg → count tk seg ≤ quota) ∧
  (∀ later seg earlier d tk, l = later ++ Acquired d tk :: seg ++ earlier → Forall (λ e, day_of e = d) seg → (Marked d tk ∉ seg) ∧ tk ∈ cleaned given) ∧
  (∀ later earlier d, l = later ++ Refused d :: earlier →
    ∀ tk, tk ∈ cleaned given → Marked d tk ∈ same_day d earlier ∨ count tk (same_day d earlier) = quota).
Proof.
  intros Hne l quota. assert (0 < quota) as Hq by (unfold quota; case_decide; lia).
  assert (all_justified (cleaned given) quota l) as Hj.
  { pose proof (history_tracked (cleaned given) quota (newTokenPool given limit today) ops Hne) as H. unfold l. destruct (history _ _) as [p' l'].
    apply H. split_and!; [|by intros e r|done|done]. split; cbn.
    - done.
    - intros _. by destruct (cleaned given); [|cbn; lia].
    - intros tk. unfold used_of, count. cbn. rewrite lookup_empty. cbn. fold quota. lia.
    - by intros tk ?%elem_of_nil.
    - intros tk. right. unfold used_of, count. cbn. by rewrite lookup_empty. }
  split_and!.
  - intros * E Hd. rewrite E in Hj. apply justified_app in Hj. by eapply quota_kept.
  - intros * E Hd. rewrite E in Hj. apply justified_app in Hj as [(H1 & _ & H3) _]. split; [|done]. intros Hm. apply H3. rewrite same_day_app by done.
    apply elem_of_app. by left.
  - intros * E. rewrite E in Hj. by apply justified_app in Hj as [Hj _].
Qed.

Definition sample_ops : list op := [Acquire "mon"; Acquire "mon"; Acquire "mon"; Mark "tue" "a"; Acquire "tue"; Acquire "tue"].
Lemma token_quota_witness :
  let l := (history (newTokenPool ["a"; " b "] 1 "mon") sample_ops).2 in
  l = [Refused "tue"; Acquired "tue" "b"; Marked "tue" "a"; Refused "mon"; Acquired "mon" "b"; Acquired "mon" "a"] ∧ count "a" l ≤ 1.
Proof.
  intros l. split; [vm_compute; reflexivity|]. destruct (token_quota ["a"; " b "] 1 "mon" sample_ops ltac:(done)) as (H & _).
  apply (H (take 3 l) (drop 3 l) [] "mon" "a"); [vm_compute; reflexivity|]. vm_compute. repeat constructor.
Defined.

(** * Retries *)

Section retries.
Context (name apiURL : string) (NewRequest : nat → option Cause) (Do : nat → Request → res Cause (Z * res Cause string))
  (envelope : string → option (Z * string)) (payload : string → string) (asked marked : nat → string) (before during : nat → tokenPool → tokenPool).

(** A call makes at most the configured number of attempts; it goes on only after an attempt that failed with a server that was busy or down or with the
network, never after a token was refused for another reason, an answer that is not understood, or an error of the service; and it returns
the last attempt's result, or the context's error when that ended a wait. *)
Theorem handle_retries out_of_range wait ctx_after opts data p r n :
  let attempt k := (recognizeOnce name apiURL NewRequest Do envelope asked marked before during k (payload data)
    (pool_at name apiURL NewRequest Do envelope asked marked before during (payload data) p k)).1.2 in
  let cfg := Retry.normalize (Retry.New opts) in
  data ≠ "" →
  Handle name apiURL NewRequest Do envelope payload asked marked before during out_of_range wait ctx_after opts data p = (r, n) →
  ∃ k, n = S k ∧ Z.of_nat n ≤ Retry.MaxAttempts cfg ∧
    (∀ j, (j < k)%nat → ∃ e, attempt j = Err e ∧ IsRetryable e = true ∧ wait j = None) ∧
    ((∃ v, attempt k = Ok v ∧ r = Ok v) ∨ (∃ e, attempt k = Err e ∧ (r = Err (Retry.ErrNext e) ∨ ∃ c, wait k = Some c ∧ r = Err (Retry.ErrCtx c)))).
Proof.
  intros attempt cfg Hd. unfold Handle. rewrite decide_False by done. cbv zeta. fold attempt.
  destruct (Retry.NewMiddleware _ _ _ _ _ _ _) as [[r0 n0] waits] eqn:E. cbn [fst]. intros [= <- <-].
  destruct (Retry.normalize_ok (Retry.New opts)) as (H1 & _). fold cfg in H1. unfold Retry.NewMiddleware in E. fold cfg in E.
  eapply Retry.attempts_spec in E as (k & -> & Hk & Ho & Hj); [|lia|lia]. cbn [Nat.add] in *. exists k. split_and!; [done|lia|..].
  - intros j Hlt. destruct (Hj j Hlt) as (e & He & Ha & Hw). exists e. split_and!; [done| |done]. unfold Retry.again in Ha. by apply andb_true_iff in Ha as [_ ?].
  - unfold Retry.outcome in Ho. destruct (attempt k) as [v|e] eqn:Ek; [left; by exists v|]. right. exists e. split; [done|].
    destruct (Retry.again _ _ _); [right; by destruct Ho as (c & ? & ?); exists c|by left].
Qed.
End retries.

End PaddleClient.
