(* ===== verification/LlmConfig.v ===== *)
(** llmkit: configuration ([src/llmkit/config.go], [home.go]) and the providers built from it
([adapters/goagent/providers.go]).

The file system, YAML, the environment and URLs are parameters; [quote] is the verb [%q]. *)

From Stdlib Require Import QArith.
From S2P Require Import Prelude GoUtf8 GoPath MemorySearch AgentTools LlmRouting LlmAudit LlmClient OpenAI.
#[local] Open Scope Z_scope.

Module Config.

(** * Data *)

Record AuditConfig := mkAuditConfig { Enabled : bool; RouteEventsFile : string; OutcomesFile : string }.
Record AccountConfig := mkAccount {
  ac_Alias : string; ac_Provider : string; ac_BaseURL : string; APIKeyEnv : string; ac_APIKey : string; ac_MaxConcurrency : Z
}.
Record ModelConfig := mkModelConfig {
  mc_Alias : string; ModelName : string; mc_Provider : string; mc_AccountAlias : string; mc_IsLocal : bool;
  mc_CapabilityLevel : Routing.CapabilityLevel; mc_SupportsTools : bool; mc_SupportsJSON : bool;
  mc_ContextWindowClass : Routing.ContextWindowClass; mc_PriceClass : Routing.PriceClass; mc_LatencyClass : Routing.LatencyClass;
  mc_EstimatedCents : Z; mc_MaxConcurrency : Z; Tags : list string
}.
Record ProfileDefaults := mkDefaults {
  pd_Complexity : Routing.Complexity; pd_Latency : Routing.LatencyRequirement; pd_FailureCost : Routing.FailureCost; pd_Privacy : Routing.PrivacyLevel
}.
Record RoutingRule := mkRule { When : gmap string string; Prefer : list string }.
Record RoutingConfig := mkRouting { Intent : gmap string string; Defaults : ProfileDefaults; Rules : list RoutingRule }.
Record LlmConfig := mkConfig {
  Home : string; Audit : AuditConfig; Accounts : list AccountConfig; Models : list ModelConfig; cf_Routing : RoutingConfig
}.
Definition zeroAccount : AccountConfig := mkAccount "" "" "" "" "" 0.

(** [EErr] is an error of the file system or of YAML. *)
Inductive Error {EErr : Type} :=
| ErrHomeRequired | ErrHomeMode (mode : string) | ErrExternal (e : EErr) | ErrAccountAlias | ErrPlaintextKey (alias : string)
| ErrModelAlias | ErrModelAccount (alias : string) | ErrUnknownAccount (alias account : string).
Arguments Error : clear implicits.

Definition defaultConfigFile : string := "config.yaml".
Definition HomeModeDevelopment : string := "development".
Definition HomeModeProduction : string := "production".

Definition cleanHome (cwd home : string) : string := if HasPrefix home "/" then Clean home else Clean (Join cwd home).

Definition accountMap (c : LlmConfig) : gmap string AccountConfig := foldl (λ m a, <[ac_Alias a := a]> m) ∅ (Accounts c).

(** [Config.DefaultTaskProfile] and [Config.Candidates]. *)
Definition default_profile (c : LlmConfig) : Routing.TaskProfile :=
  let d := Defaults (cf_Routing c) in
  let p := Routing.DefaultTaskProfile in
  let p := if decide (pd_Complexity d ≠ "") then p <| Routing.pf_Complexity := pd_Complexity d |> else p in
  let p := if decide (pd_Latency d ≠ "") then p <| Routing.pf_Latency := pd_Latency d |> else p in
  let p := if decide (pd_FailureCost d ≠ "") then p <| Routing.pf_FailureCost := pd_FailureCost d |> else p in
  if decide (pd_Privacy d ≠ "") then p <| Routing.Privacy := pd_Privacy d |> else p.

Definition candidate (account : AccountConfig) (m : ModelConfig) : Routing.Candidate :=
  Routing.mkCandidate
    (Routing.mkModel (mc_Alias m) (mc_Provider m) (mc_IsLocal m) (mc_CapabilityLevel m) (mc_SupportsTools m) (mc_SupportsJSON m)
       (mc_ContextWindowClass m) (mc_PriceClass m) (mc_LatencyClass m) (mc_EstimatedCents m) (mc_MaxConcurrency m) 0 0%Q 0%Q 0%Q 0)
    (mc_AccountAlias m) false (ac_MaxConcurrency account) 0 "" 0 0 0 false 0 0.
Definition Candidates (c : LlmConfig) : list Routing.Candidate :=
  (λ m, candidate (default zeroAccount (accountMap c !! mc_AccountAlias m)) m) <$> Models c.

Section config.
Context {EErr : Type}.

Definition ResolveHome (cwd : string) (getenv : string → string) (mode : string) : res (Error EErr) string :=
  if decide (getenv "LLMKIT_HOME" ≠ "") then Ok (cleanHome cwd (getenv "LLMKIT_HOME"))
  else if decide (mode = HomeModeDevelopment) then Ok (cleanHome cwd ".llmkit")
  else if decide (mode = HomeModeProduction) then Err ErrHomeRequired
  else Err (ErrHomeMode mode).

(** [validate], by accounts and by models. *)
Fixpoint validate_accounts (l : list AccountConfig) : option (Error EErr) :=
  match l with
  | [] => None
  | a :: l =>
      if decide (Blank (ac_Alias a)) then Some ErrAccountAlias
      else if decide (¬ Blank (ac_APIKey a)) then Some (ErrPlaintextKey (ac_Alias a))
      else validate_accounts l
  end.
Fixpoint validate_models (accounts : gmap string AccountConfig) (l : list ModelConfig) : option (Error EErr) :=
  match l with
  | [] => None
  | m :: l =>
      if decide (Blank (mc_Alias m)) then Some ErrModelAlias
      else if decide (Blank (mc_AccountAlias m)) then Some (ErrModelAccount (mc_Alias m))
      else match accounts !! mc_AccountAlias m with
      | None => Some (ErrUnknownAccount (mc_Alias m) (mc_AccountAlias m))
      | Some _ => validate_models accounts l
      end
  end.
Definition validate (c : LlmConfig) : option (Error EErr) :=
  match validate_accounts (Accounts c) with
  | Some e => Some e
  | None => validate_models (accountMap c) (Models c)
  end.

Context (ReadFile : string → res EErr string) (yaml_Unmarshal : string → res EErr LlmConfig).

Definition LoadConfig (home : string) : res (Error EErr) LlmConfig :=
  match ReadFile (Join home defaultConfigFile) with
  | Err e => Err (ErrExternal e)
  | Ok data =>
      match yaml_Unmarshal data with
      | Err e => Err (ErrExternal e)
      | Ok config => match validate config with Some e => Err e | None => Ok config end
      end
  end.
Definition LoadConfigFromEnv (Getwd : res EErr string) (getenv : string → string) : res (Error EErr) LlmConfig :=
  match Getwd with
  | Err e => Err (ErrExternal e)
  | Ok cwd => let? home := ResolveHome cwd getenv HomeModeProduction in LoadConfig home
  end.

(** * Providers *)

Context `{Search.UnicodeTables} (quote : string → string).
Context {NErr DErr : Type} (Parse : string → option OpenAI.URL) (URLString : OpenAI.URL → string).
(** An error of [openaiapi.New], as the client sees it. *)
Context (foreign : OpenAI.Error NErr DErr → Client.Error).
Abbreviation NewClient := (OpenAI.New (NErr := NErr) (DErr := DErr) Parse URLString).

Definition accountConfigsByAlias (accounts : list AccountConfig) : gmap string AccountConfig := foldl (λ m a, <[ac_Alias a := a]> m) ∅ accounts.
Definition isOpenAICompatibleProvider (modelProvider accountProvider : string) : bool :=
  let provider := Search.ToLower (TrimSpace modelProvider) in
  let provider := if decide (provider = "") then Search.ToLower (TrimSpace accountProvider) else provider in
  bool_decide (provider ∈ ["openai"; "openai_compatible"; "openai-compatible"; "local"]).
Definition apiKeyFromEnv (getenv : option (string → string)) (name : string) : string :=
  match getenv with
  | None => ""
  | Some getenv => if decide (Blank name) then "" else getenv name
  end.
Definition configuration_error (cause : Client.Error) : Client.Error :=
  Client.newRuntimeError Client.ErrorStageConfig Audit.ErrorClassConfiguration false cause.
Definition provider_config (getenv : option (string → string)) (limits : OpenAI.Limits) (a : AccountConfig) (m : ModelConfig) : OpenAI.Config :=
  let modelName := TrimSpace (ModelName m) in
  OpenAI.mkConfig (ac_BaseURL a) (apiKeyFromEnv getenv (APIKeyEnv a)) (if decide (modelName = "") then mc_Alias m else modelName) [] limits.

Fixpoint build_providers (accounts : gmap string AccountConfig) (getenv : option (string → string)) (limits : OpenAI.Limits)
    (models : list ModelConfig) (providers : gmap string OpenAI.Provider) : res Client.Error (gmap string OpenAI.Provider) :=
  match models with
  | [] => Ok providers
  | m :: models =>
      match accounts !! mc_AccountAlias m with
      | None => Err (configuration_error (Client.ErrText ("model " +:+ quote (mc_Alias m) +:+ " references unknown account_alias " +:+ quote (mc_AccountAlias m))))
      | Some a =>
          if negb (isOpenAICompatibleProvider (mc_Provider m) (ac_Provider a)) then build_providers accounts getenv limits models providers
          else if decide (Blank (ac_BaseURL a))
          then Err (configuration_error (Client.ErrText ("account " +:+ quote (ac_Alias a) +:+ " base_url is required for OpenAI-compatible provider")))
          else if decide (¬ Blank (APIKeyEnv a) ∧ Blank (apiKeyFromEnv getenv (APIKeyEnv a)))
          then Err (configuration_error (Client.ErrText ("configured API key is unavailable for account " +:+ quote (ac_Alias a))))
          else match NewClient (provider_config getenv limits a m) with
          | Err e => Err (configuration_error (Client.ErrForeign (Client.mkForeign ("create provider for model " +:+ quote (mc_Alias m)) None None None None) [foreign e]))
          | Ok client => build_providers accounts getenv limits models (<[mc_Alias m := client]> providers)
          end
      end
  end.
Definition OpenAICompatibleProvidersFromConfig (config : LlmConfig) (getenv : option (string → string)) (limits : OpenAI.Limits)
    : res Client.Error (gmap string OpenAI.Provider) :=
  build_providers (accountConfigsByAlias (Accounts config)) getenv limits (Models config) ∅.

(** * Properties *)

Definition last_account (alias : string) (l : list AccountConfig) : option AccountConfig := last (filter (λ a, ac_Alias a = alias) l).
Lemma account_lookup alias l : accountConfigsByAlias l !! alias = last_account alias l.
Proof.
  unfold accountConfigsByAlias, last_account. induction l as [|a l IH] using rev_ind; [done|]. rewrite foldl_app, filter_app. cbn [foldl].
  rewrite filter_cons. case_decide as E; cbn [filter list_filter].
  - by rewrite E, lookup_insert_eq, last_snoc.
  - by rewrite lookup_insert_ne, app_nil_r.
Qed.
Lemma last_account_in alias l a : last_account alias l = Some a → a ∈ l ∧ ac_Alias a = alias.
Proof.
  unfold last_account. intros [l' E]%last_Some. assert (a ∈ filter (λ a, ac_Alias a = alias) l) as Hin by (rewrite E; apply elem_of_app; right; by left).
  by apply list_elem_of_filter in Hin as [? ?].
Qed.
Lemma config_validate_ok c : validate c = None →
  Forall (λ a, Blank (ac_APIKey a)) (Accounts c) ∧ Forall (λ m, is_Some (last_account (mc_AccountAlias m) (Accounts c))) (Models c).
Proof.
  unfold validate. destruct (validate_accounts (Accounts c)) eqn:Ha; [done|]. intros Hm. split.
  - clear Hm. induction (Accounts c) as [|a l IH]; [constructor|]. cbn -[Blank] in Ha. destruct (decide (Blank (ac_Alias a))); [done|].
    destruct (decide (¬ Blank (ac_APIKey a))) as [|Hk]; [done|]. constructor; [by apply dec_stable|by apply IH].
  - change (accountMap c) with (accountConfigsByAlias (Accounts c)) in Hm. generalize (Accounts c) Hm. clear. intros accounts Hm. induction (Models c) as [|m l IH]; [constructor|].
    cbn in Hm. repeat case_decide; try done. rewrite account_lookup in Hm. destruct (last_account _ accounts) eqn:E; [|done]. constructor; [by eexists|by apply IH].
Qed.

(** The models that get a provider: those of a compatible kind, by their account. *)
Definition compatible (accounts : list AccountConfig) (m : ModelConfig) : bool :=
  match last_account (mc_AccountAlias m) accounts with Some a => isOpenAICompatibleProvider (mc_Provider m) (ac_Provider a) | None => false end.
Definition built (accounts : list AccountConfig) (getenv : option (string → string)) (limits : OpenAI.Limits) (m : ModelConfig) (client : OpenAI.Provider) : Prop :=
  ∃ a, last_account (mc_AccountAlias m) accounts = Some a ∧ NewClient (provider_config getenv limits a m) = Ok client ∧
    ¬ Blank (ac_BaseURL a) ∧ (Blank (APIKeyEnv a) ∨ ¬ Blank (apiKeyFromEnv getenv (APIKeyEnv a))).

Lemma build_spec accounts getenv limits models providers result :
  build_providers (accountConfigsByAlias accounts) getenv limits models providers = Ok result →
  ∀ alias, match last (filter (λ m, compatible accounts m = true ∧ mc_Alias m = alias) models) with
           | Some m => ∃ client, result !! alias = Some client ∧ built accounts getenv limits m client
           | None => result !! alias = providers !! alias
           end.
Proof.
  revert providers. induction models as [|m models IH]; intros providers; cbn [build_providers]; [by intros [= <-]|].
  rewrite account_lookup. destruct (last_account (mc_AccountAlias m) accounts) as [a|] eqn:Ea; [|done].
  assert (compatible accounts m = isOpenAICompatibleProvider (mc_Provider m) (ac_Provider a)) as Ec by (unfold compatible; by rewrite Ea).
  destruct (isOpenAICompatibleProvider _ _) eqn:Ei; cbn [negb].
  - case_decide as Hb; [done|]. case_decide as Hk; [done|]. destruct (NewClient _) as [client|] eqn:En; [|done]. intros Hr alias. specialize (IH _ Hr alias).
    rewrite filter_cons. case_decide as Hm; [|destruct (last _); [done|]; rewrite lookup_insert_ne in IH; [done|]; intros ?; by apply Hm].
    destruct (filter _ models) as [|m' l] eqn:Ef; 
      [|change (last (m :: m' :: l)) with (last (m' :: l)); destruct (last (m' :: l)) as [m2|] eqn:El; [exact IH|]; by apply last_None in El].
    cbn [last] in IH |- *. destruct Hm as [_ <-]. rewrite lookup_insert_eq in IH.
    exists client. split; [done|]. exists a. split_and!; [done|done|done|]. destruct (decide (Blank (APIKeyEnv a))); [by left|right]. intros ?. by apply Hk.
  - intros Hr alias. specialize (IH _ Hr alias). rewrite filter_cons, decide_False; [done|]. rewrite Ec. by intros [? _].
Qed.

(** From a configuration that was loaded, every model becomes a candidate with the limits of its account, the last one of that name; no account holds a key of its own; and
when the providers are built, the models of a compatible kind have one, and no others: it talks to the account's address with the key of the environment variable that the
account names, which is there whenever the account names one. *)
Theorem config_providers home config getenv limits providers :
  LoadConfig home = Ok config → OpenAICompatibleProvidersFromConfig config getenv limits = Ok providers →
  Forall (λ a, Blank (ac_APIKey a)) (Accounts config) ∧
  Forall2 (λ m c, Routing.Alias (Routing.Model c) = mc_Alias m ∧ ∃ a, a ∈ Accounts config ∧ ac_Alias a = mc_AccountAlias m ∧
    last_account (mc_AccountAlias m) (Accounts config) = Some a ∧ Routing.AccountMaxConcurrency c = ac_MaxConcurrency a) (Models config) (Candidates config) ∧
  ∀ alias, match last (filter (λ m, compatible (Accounts config) m = true ∧ mc_Alias m = alias) (Models config)) with
           | Some m => ∃ client, providers !! alias = Some client ∧ built (Accounts config) getenv limits m client
           | None => providers !! alias = None
           end.
Proof.
  unfold LoadConfig. destruct (ReadFile _) as [data|]; [|done]. destruct (yaml_Unmarshal data) as [c|]; [|done]. destruct (validate c) eqn:Hv; [done|].
  intros [= ->] Hb. apply config_validate_ok in Hv as [H1 H2]. split_and!; [done| |].
  - unfold Candidates. apply Forall2_fmap_r. apply Forall_Forall2_diag. eapply Forall_impl; [exact H2|]. intros m [a Ha]. cbn.
    split; [done|]. exists a. destruct (last_account_in _ _ _ Ha). split_and!; [done|done|done|].
    change (accountMap config) with (accountConfigsByAlias (Accounts config)). by rewrite account_lookup, Ha.
  - intros alias. pose proof (build_spec _ _ _ _ _ _ Hb alias) as H0. destruct (last _); [done|]. by rewrite lookup_empty in H0.
Qed.

End config.

(** Two accounts, and a model for each: a compatible one, and one of another kind. *)
Definition sample_tables : Search.UnicodeTables :=
  {| Search.is_cjk := λ _, false; Search.is_letter := λ _, true; Search.is_digit := λ _, false; Search.to_lower := λ r, if between 65 r 90 then r + 32 else r |}.
Definition sample_model (alias provider account : string) : ModelConfig :=
  mkModelConfig alias "" provider account false "" false false "" "" "" 0 0 [].
Definition sample_config : LlmConfig :=
  mkConfig "" (mkAuditConfig false "" "") [mkAccount "main" "OpenAI" "http://h" "KEY" "" 4; mkAccount "other" "bedrock" "" "" "" 1]
    [sample_model "small" "" "main"; sample_model "big" "" "other"] (mkRouting ∅ (mkDefaults "" "" "" "") []).
Definition sample_url (s : string) : option OpenAI.URL := Some (OpenAI.mkURL "http" "h" s).
Definition sample_load (home : string) : res (Error ()) LlmConfig := LoadConfig (λ _, Ok "") (λ _, Ok sample_config) home.
Definition sample_providers : res Client.Error (gmap string OpenAI.Provider) :=
  OpenAICompatibleProvidersFromConfig (H := sample_tables) (NErr := ()) (DErr := ()) id sample_url OpenAI.Path (λ _, Client.ErrText "") sample_config
    (Some (λ name, if decide (name = "KEY") then "secret" else "")) (OpenAI.mkLimits 0 0 0).

Lemma config_providers_witness :
  ∃ providers, sample_load "/etc/llmkit" = Ok sample_config ∧ sample_providers = Ok providers ∧
    providers !! "big" = None ∧ (∃ client, providers !! "small" = Some client ∧ OpenAI.APIKey (OpenAI.config client) = "secret") ∧
    Forall (λ a, Blank (ac_APIKey a)) (Accounts sample_config).
Proof.
  destruct sample_providers as [providers|] eqn:E; [|by vm_compute in E]. exists providers. unfold sample_providers in E.
  assert (sample_load "/etc/llmkit" = Ok sample_config) as El by (vm_compute; reflexivity).
  destruct (config_providers (H := sample_tables) (λ _, Ok "") (λ _, Ok sample_config) id sample_url OpenAI.Path (λ _, Client.ErrText "") "/etc/llmkit" _ _ _ _ El E) as (H1 & _ & H3).
  split_and!; [done|done|exact (H3 "big")| |exact H1].
  destruct (H3 "small") as (client & Hc & a & Ha & Hn & _). exists client. split; [exact Hc|]. vm_compute in Ha. injection Ha as <-. vm_compute in Hn. injection Hn as <-. reflexivity.
Defined.

End Config.
